(* ===== verification/_CoqProject ===== *)
-Q . S2P
Prelude.v
PyDict.v
SpillStore.v
SpillCharge.v
SpillSound.v
SpillSystem.v
PyFloat.v
StableSort.v
RangeSort.v
RangeSortSound.v
RangeSortUse.v
SortGrids.v
Resilience.v
ResilienceSound.v
ResilienceUse.v
Barrier.v
BarrierSound.v
BarrierUse.v
FaultLedger.v
FaultLedgerSound.v
Quota.v
Tasks.v
CacheDisk.v
CacheDiskSound.v
CacheSpill.v
ResultCache.v
ResultCacheSound.v
ResultCacheSystem.v
ResultCacheUse.v
TreeReduce.v
CheckpointLogs.v
CheckpointStore.v
StreamEngine.v
ExactlyOnce.v
StreamAggregate.v
ExprIR.v
KeyedState.v
KeyedStateSound.v
KeyedStateUse.v
ExprSound.v
ExprAlgebra.v
RulesNull.v
RulesBounds.v
RulesNormalize.v
PlanIR.v
PlanSound.v
PlanPushdown.v
PlanLocal.v
PlanJoins.v
PlanSemi.v
PlanUnique.v
PlanInfer.v
PlanSemiPush.v
PlanConst.v
JoinShuffle.v
JoinShuffleSound.v
JoinShuffleUse.v
HeavyHitters.v
HeavyHittersSound.v
JoinSkew.v
Watermark.v
WindowedFold.v
WindowedFoldSound.v
WindowedCheckpoint.v
BufferPool.v
Limiter.v
Splits.v
WindowKernel.v
GlobalWindow.v
GlobalWindowSound.v
