(* ===== verification/Prelude.v ===== *)
(** * Verification of the batcher control plane: root file and shared prelude

    batcher is a data engine whose Python control plane (src/python/batcher) plans, optimizes
    and drives queries that a Rust data plane executes.  This library models parts of the
    control plane that carry its correctness and proves what they promise.  Definitions
    follow the Python code and are executable; code outside the repository's Python (Arrow
    and engine kernels, file systems, clocks, source readers) enters as parameters with the
    laws the code relies on.

    *** Parts of the program and the files that model them

    - Streaming queries.  A query reads micro-batches from a replayable source, feeds a
      processor, publishes rows to a sink and checkpoints.
        - [CheckpointLogs]: the offset and commit logs, as two implementations of the classes
          [OffsetLog] and [CommitLog]: module [SqliteLogs]
          (io/formats/streaming/checkpoint/logs.py) and module [FileLogs] (fs_logs.py).
        - [CheckpointStore], module [StateStore]: snapshot and delta files
          (checkpoint/state_store.py), a map from (batch id, is delta) to file contents.
        - [StreamEngine]: the checkpoint facade (checkpoint/store.py, recovery.py), the state
          policy (core/streaming_query/state_policy.py) and the engine's handlers
          (core/streaming_query/engine.py: [_recover], [_process_next], [_checkpoint_drain],
          [_emit_finalize], [_commit_microbatch]).  A handler returns the list of its durable
          effects in order, so that a crash is a prefix of that list.
        - [ExactlyOnce]: the laws of a processor, the step relation of executions (batches,
          processors that raise, crashes, faults, restarts, source growth) and the exactly-once
          theorem.  A crash is followed by a fresh process; an in-process restart has to find
          something to restore ([restorable]).
        - [StreamAggregate]: the running aggregate (core/mergeable.py,
          core/streaming/folds/running.py and shared.py, core/streaming_query/processors.py)
          with its state budget, shown to satisfy those laws when grouped and complete; module [Runs] evaluates concrete executions, among them those
          that show where the contract ends.
        - [Watermark]: event-time progress (plan/streaming/tracker.py).
        - [WindowedFold]: the windowed aggregate over that progress
          (core/streaming/folds/windowed.py), its disk tier (core/streaming/spill.py) and the
          driver of a windowed stream (core/streaming/drivers.py).  A partial-aggregate batch
          is a finite map from (window start, other keys) to accumulators; the engine is the
          record [window_engine], and what the fold relies on is the class
          [WindowEngineLaws] of [WindowedFoldSound] (an associative and commutative merge, a
          partial aggregation that distributes over batches, filters that lose no row).
        - [WindowedFoldSound], [WindowedCheckpoint]: an in-memory specification of the fold
          and its refinement; snapshots and changelogs.
        - [KeyedState]: the fold of a user function over per-key state
          (core/streaming/keyed_state.py).  [KeyedStateSound]: its invariant, its grouping under
          the class [TableSort], its snapshots under the class [ColumnArray] (64-bit integers,
          calendar dates, 2 GiB of text).  [KeyedStateUse]: one batch, every run, and the fold as
          a processor of the engine (core/streaming_query/processors.py) without a time to live,
          whose clock readings are an arbitrary function; module [Demo] evaluates it.
    - The optimizer (kyber).  Expressions are rewritten by leaf rules driven bottom-up.
        - [ExprIR]: expression nodes (plan/expr_ir), their static types and a per-row
          evaluator that states what the engine computes: three-valued logic, wrapping 64-bit
          arithmetic, doubles ordered with NaN greatest.  The types cover integers, doubles,
          booleans and strings with their numeric coercions; [kind_of] is [None] outside that
          fragment and the theorems are about expressions inside it.
        - [ExprSound]: [safe_expr], [transform_expr_up], refinement of expressions and its
          congruence, type preservation; the class [ExprEngine] of what an engine owes.
        - [ExprAlgebra]: conjunct and disjunct splitting and combining, column substitution
          (plan/expr_rewrite/algebra.py).
        - [RulesNull], [RulesBounds], [RulesNormalize]: the rules of
          kyber/rules/nulls/three_valued.py, kyber/rules/predicate_algebra/bounds.py, and
          kyber/rules/normalize/predicates.py and disjunctions.py.
        - [PlanIR]: logical plans (plan/logical): scan, filter, project, join, aggregate, sort,
          window, distinct, limit and sample with the checks of their constructors
          ([schema_of] is [None] where a constructor raises), every other operator an opaque
          node with its inputs; the bottom-up driver [transform_up] (plan/visitor.py).
        - [PlanSound]: what a plan computes ([den], a list of rows in the order of sequential
          execution) under the class [PlanEngine], which holds the scans, aggregates, windows,
          samples and opaque operators the engine supplies and their laws; the relation
          [replaces] between whole plans (same schema, same rows, and where no filter can
          raise, a result whenever the original has one) and its congruence.
        - [PlanPushdown], [PlanLocal], [PlanInfer], [PlanSemiPush]: kyber/rules/pushdown.py:
          filters below joins; below aggregates, sorts and windows; predicates mirrored across
          join keys; semi-joins sunk below inner joins.
        - [PlanJoins], [PlanSemi], [PlanUnique], [PlanConst]: kyber/rules/joins/rewrites.py:
          outer joins strengthened by null-rejecting predicates; joins that only test
          membership; left joins on unique keys removed; cartesian pseudo-keys dropped.
          Relations on one node are stated by [same_result].
    - Resource governance (carbonite).
        - [BufferPool]: reserve-before-allocate accounting (carbonite/memory/pool.py); the test
          and the resize of a shrink are two steps, since a reservation may fall between.
        - [Limiter]: the concurrency limiter (carbonite/policies/concurrency.py).
        - [SpillStore]: the tiered spill store (carbonite/spill/writer.py, store.py,
          handle.py) in a state and error monad.  Every call to the system takes the next
          [event] of a script, so a theorem about every script is one about every pattern of
          failures.  [SpillSound], [SpillSystem]: the invariant that ties store, writers and
          files to ghost buckets, and histories of operations; [SpillCharge]: the size of
          batches that share dictionaries, over the class [ArrowSizes].
        - [CacheDisk], [CacheDiskSound]: the disk tier of the result cache
          (carbonite/cache_disk.py) over the interface [BucketStore] and its laws
          [BucketLaws], which [CacheSpill] shows the spill store to keep.
        - [ResultCache]: the result cache (carbonite/cache.py, plan/types/footprint.py,
          plan/resource/storage.py).  An operation is a [task] of [Tasks] whose steps are the
          sections under the store's or the tier's lock; [schedule] interleaves the steps of
          several callers.  [ResultCacheSound], [ResultCacheSystem], [ResultCacheUse]: the invariant
          of every interleaving, the abstract store one caller sees, and examples.
        - [Resilience], [ResilienceSound], [ResilienceUse]: source placement, the recovery
          loop and replica hosts (carbonite/resilience/lineage.py, recovery.py,
          replication.py).  A round of the shuffle is an arbitrary function of the state.
        - [Barrier], [BarrierSound], [BarrierUse]: the barrier that waits for a stage and starts
          backups of slow or doomed tasks (carbonite/resilience/speculative.py).  What a wake
          finds is taken from a list; [idle] counts the wakes that found nothing.
        - [FaultLedger], [FaultLedgerSound]: the quarantine of failing nodes and the pool of
          retries (carbonite/resilience/blocklist.py, budget.py), over doubles, with every
          reading of the clock an argument.
    - Distribution and input.
        - [TreeReduce]: tree reduction of partials (dist/reduction/tree.py).
        - [Splits]: byte ranges and file runs (io/splits/file.py, io/splits/text.py).
        - [WindowKernel], [GlobalWindow], [GlobalWindowSound]: a window without partition keys
          over a relation cut into ordered buckets (dist/global_window): what the Rust window
          operator computes on the whole relation, the admission test, the per-bucket
          corrections and the driver's walk, and their agreement.
        - [StableSort]: a stable sort by a weak order is unique, and sorting range by range is
          sorting.  [RangeSort], [RangeSortSound], [RangeSortUse]: the distributed sort
          (dist/executors/sort.py, dist/executors/partition_io/ranges.py) over keys and
          boundaries of the class [RangeKey], with the laws [RangeKeyLaws]; sums of weights
          are plain left-to-right additions, and only balance depends on them.  [SortGrids]:
          samples learned by one sort and reused by the next (dist/sort_boundaries.py).
        - [JoinShuffle]: the distributed join (dist/executors/join.py): broadcast and shuffle,
          hot-key salting, the Bloom filter, reducers in memory and through the sub-bucket
          files of dist/spill_breakers/join.py, and the aggregate fused into the reducers
          (dist/executor.py, kyber/properties.py).  The partitioners are those of
          crates/bc-runtime/src/shuffle.rs; hash, filter and join kernels are the class
          [JoinKernels].  A reducer is a [task] over the directory the reducers share.
          [JoinShuffleSound]: a join cut into buckets is the join, with the laws
          [JoinKernelLaws]; [JoinShuffleUse]: the whole distributed join and its limits.
        - [HeavyHitters], [HeavyHittersSound]: the Misra-Gries summary
          (crates/bc-sketches/src/frequent.rs), the sample of a split and the hot values of a
          side (dist/skew.py, dist/executors/join.py); [JoinSkew]: where a join takes its hot
          values from and when it measures again (dist/skew.py).
        - [Quota]: the provider quota shared by processes (dist/limits/quota.py): a bucket of
          requests and tokens with leased slots.
    - Shared: [PyDict], dictionaries in insertion order; [PyFloat], doubles as Python uses them
      and [sorted]; [Tasks], interleaved callers and the case of one caller among finished ones.

    *** What the theorems show

    - Streaming: the two log implementations are interchangeable; a state write changes the
      restored chain by exactly that write and pruning, even interrupted, keeps it; after any
      crashes, raising batches and restarts that find something to restore the sink holds what
      a crash-free run writes, and a grouped aggregate in complete mode counts every source
      batch once, as long as a flush is taken at a batch boundary and no forced snapshot leaves
      a delta unread.  The watermark is monotone, is exactly the
      slowest declared partition when idleness is off, advances past idle partitions, and
      survives checkpoints.  The windowed fold, whatever it spills, re-reads or skips, emits
      each closed window once and complete, keeps its memory bound or raises, and continues
      from a snapshot as the running fold would.  The keyed fold calls the user function once
      per key of a batch with that key's rows and live state, changes no other key, forgets
      exactly the stale ones, counts its bytes exactly, and in a checkpointed query without a time
      to live and with fields of fixed names and types its state is the function folded over
      every source batch once.
    - Optimizer: expressions evaluate at their static type; every null rule keeps the type,
      the value, the null and the error of an expression at any depth; every bound rule does
      on literals the engine and Python compare alike; the filter rules keep the rows that
      pass and the errors.  The plan rules leave the schema and the rows of a plan as they
      were, whatever the cost model and the statistics oracle answer, under the hypotheses of
      each theorem; where a rule has a counterexample, the hypotheses exclude its plans.  The
      anti-join rewrite is shown wrong on a concrete plan and has no exactness theorem yet.
      Contracts beyond [PlanEngine]: [StrictKernels] (the kernels the code calls
      null-propagating are), [UnionRows] (a union has its branches' rows) and, for the
      removal of a left join, an estimator whose exact figures are true ([honest]).
    - Governance: under any interleaving the pool holds what open blocks reserved, grants just
      what fits its limit, and never holds more than the largest limit asked for, nor than its
      own unless a reservation begins inside a shrink; the limiter never exceeds its slots and loses no wakeup.  A
      finished spill bucket reads back whole or raises, whatever failed before, and the
      store's byte counts are exact.  The result cache keeps its accounts and budgets under
      any interleaving and, when the digest of its file names is injective, answers a key only
      with what was put under it; to one caller it is then a map that may forget.  The placement index is exact after any relocations, recovery
      stops within its rounds, and replicas spread over as many nodes as there are.  A stage
      barrier returns what waiting for its tasks would, is never left without handles, and
      ends after two productive wakes per slot when no task and no launch fails.  The fault ledger
      never keeps more than the policy's share of a fleet out, and a retry budget grants
      exactly what it accounts for.
    - Distribution and input: the tree reduction terminates with the documented levels and
      preserves the fold; byte ranges reconstruct a file; runs cover the files once; a
      window computed bucket by bucket gives each row the value of the whole relation; the
      distributed sort is the stable single-node sort for keys its router compares
      faithfully, or raises on a share that is no finite number, and learned grids read back as they were measured.  The distributed join
      returns the rows of the join of its whole sides for every join type, partitioning,
      salting, filter and strategy while at most one reducer works out of core and the filter
      leaves a probe row, and an aggregate fused into reducers in memory splits no group when
      the output carries the join keys under their names.  A
      Misra-Gries counter is within its error of the frequency after any merges, a sample reports
      no more than it saw, and the detection pass is paid once per verdict.  A provider quota
      holds no more leases than its widest ceiling, and slots whose holders died
      come back.
    - Theorems named [..._breaks], [..._loses_rows], [..._drops_renames], [..._admits_gap],
      [..._held], [..._duplicates], [..._rewinds_event_time], [..._diverges],
      [carry_over_leaks_local_file], [late_demotion_undoes], [shared_digest_serves_other_key],
      [wide_integers_mis_sorted], [text_grid_read_as_bytes], [shared_sub_buckets_mixed],
      [pruned_semi_join_fails], [fused_over_budget_fails], [swapped_fused_aggregate_splits],
      [restored_fields_padded], [nan_rows_split], [hot_key_missed],
      [reserve_in_shrink_window], [over_budget_raises_again], [refused_put_keeps_older] and the
      like exhibit concrete inputs on which the code departs from its documentation.

    *** Fuel and bounds

    Loops that are not structural take fuel that is proved sufficient: [reduce_levels_loop]
    and [tree_reduce_loop] by the number of sources (each level strictly shrinks), and
    [combine_loop] by the length of its list; [spill_loop] by the rows of the resident state
    (each pass that moves a window leaves fewer).  A reducer takes at most four steps per
    sub-bucket, of which there are at most 1024.  A sampled backoff power is a double up to the
    1024th round, the bound [recovery_bounded] asks of a policy that pauses.  Integers are unbounded as in Python, except
    the engine's arithmetic, which wraps at 64 bits ([wrap64]); doubles are IEEE binary64
    ([spec_float]).  Clock readings of the watermark are integers.

    *** What is not modelled

    Threads and triggers of the streaming engine (its handlers run one at a time), the
    time to live of a keyed query across restarts, the remaining optimizer rules, cost and statistics, IR lowering,
    source ids and the as-of, range and streaming joins of the logical plan, the distributed
    executors other than the sort's stages and the join's disk shuffle (its Flight transport
    and as-of joins included), the sampling of keys and the interpolated merge of
    numeric grids, disk pressure sampling and cache statistics, connectors, the SQL front end,
    machine-learning and peripheral packages, and the Rust engine beyond the expression, window
    and partitioning semantics it is held to.
    Averages and variances of a global window are left out: they are double arithmetic.  Row
    order above a join is that of one sequential execution; parallel execution is not
    modelled.  Next in line: the derivation of join keys from filters over cross joins
    ([derive_join_keys]), exactness of the anti-join rewrite where its projection keeps the
    right side's names, and further
    rule families over [ExprSound]. *)

From Stdlib Require Export ZArith Lia Bool.
From stdpp Require Export base tactics list numbers option strings.
From stdpp Require Export gmap sorting.

#[global] Open Scope Z_scope.

(** ** Fallible computations

    Python code that raises is modelled by [res]: [Ok a] is a returned value,
    [Raise e] an exception carrying a short tag. *)

Inductive res (A : Type) : Type :=
  | Ok (a : A)
  | Raise (e : string).
Arguments Ok {A} a.
Arguments Raise {A} e.

#[global] Instance res_eq_dec {A} `{EqDecision A} : EqDecision (res A).
Proof. solve_decision. Defined.

#[global] Instance res_ret : MRet res := fun A a => Ok a.
#[global] Instance res_bind : MBind res := fun A B f x =>
  match x with Ok a => f a | Raise e => Raise e end.
#[global] Instance res_fmap : FMap res := fun A B f x =>
  match x with Ok a => Ok (f a) | Raise e => Raise e end.

Declare Scope batcher_scope.
Delimit Scope batcher_scope with batcher.

(** [x >>=? f] sequences a fallible computation, in the order the code runs it. *)
Notation "x >>=? f" := (mbind (M := res) f x) (at level 60, right associativity) : batcher_scope.
Notation "'let*' x ':=' e 'in' k" := (mbind (M := res) (fun x => k) e)
  (at level 10, x name, e at level 100, k at level 200) : batcher_scope.

#[global] Open Scope batcher_scope.

Definition is_ok {A} (r : res A) : bool :=
  match r with Ok _ => true | Raise _ => false end.

Lemma Ok_inj {A} (a b : A) : Ok a = Ok b -> a = b.
Proof. congruence. Qed.

Lemma res_bind_ok {A B} (f : A -> res B) (x : res A) b :
  mbind f x = Ok b <-> exists a, x = Ok a /\ f a = Ok b.
Proof.
  destruct x as [a|e]; cbn; split; try (intros (a' & ? & ?); congruence); eauto.
  discriminate.
Qed.

(** Run a list of fallible computations left to right; the first exception wins. *)
Section Traverse.
Context {A B : Type}.

Section Res.
Variable f : A -> res B.
Fixpoint res_mapM (l : list A) : res (list B) :=
  match l with
  | [] => Ok []
  | x :: l' => let* y := f x in let* ys := res_mapM l' in Ok (y :: ys)
  end.
End Res.

Section Opt.
Variable f : A -> option B.
Fixpoint opt_mapM (l : list A) : option (list B) :=
  match l with
  | [] => Some []
  | x :: l' => y ← f x; ys ← opt_mapM l'; Some (y :: ys)
  end.
End Opt.
End Traverse.

Lemma res_mapM_ext {A B} (f g : A -> res B) l :
  Forall (fun x => f x = g x) l -> res_mapM f l = res_mapM g l.
Proof. induction 1 as [|x l Hx _ IH]; cbn; [done|]. by rewrite Hx, IH. Qed.

Lemma opt_mapM_Some {A B} (f : A -> option B) l ys :
  opt_mapM f l = Some ys <-> Forall2 (fun x y => f x = Some y) l ys.
Proof.
  revert ys. induction l as [|x l IH]; intros ys; cbn.
  - split; [by intros [= <-]|by inversion 1].
  - split.
    + destruct (f x) as [y|] eqn:Hx; cbn; [|done]. destruct (opt_mapM f l) as [ys'|] eqn:Hl; cbn; [|done].
      intros [= <-]. constructor; [done|]. by apply IH.
    + inversion 1 as [|? y ? ys' Hx Hl]; subst. rewrite Hx. cbn. by rewrite (proj2 (IH ys') Hl).
Qed.

(** ** Hint databases of the development *)

Create HintDb batcher.

#[export] Hint Extern 4 => lia : batcher.
#[export] Hint Resolve elem_of_app elem_of_cons Forall_nil_2 Forall_cons_2 : batcher.

(** Case analysis on the guard a Python [if] evaluates, with its arithmetic meaning. *)
Ltac py_if :=
  repeat match goal with
  | |- context [if ?b then _ else _] => destruct b eqn:?
  | H : context [if ?b then _ else _] |- _ => destruct b eqn:?
  end;
  rewrite ?Z.ltb_lt, ?Z.leb_le, ?Z.eqb_eq, ?Z.ltb_ge, ?Z.leb_gt, ?Z.eqb_neq in *.

Ltac bsplit :=
  repeat match goal with
  | H : _ && _ = true |- _ => apply andb_prop in H as [? ?]
  | H : _ || _ = false |- _ => apply orb_false_elim in H as [? ?]
  | H : negb _ = true |- _ => apply negb_true_iff in H
  | H : negb _ = false |- _ => apply negb_false_iff in H
  | H : bool_decide _ = true |- _ => apply bool_decide_eq_true in H
  | H : bool_decide _ = false |- _ => apply bool_decide_eq_false in H
  end.

(** ** Python integer and sequence primitives *)

(** [-(-n // f)], Python's ceiling division (floor division rounds down). *)
Definition ceil_div (n f : Z) : Z := - ((- n) / f).

Lemma ceil_div_bounds n f : 0 < f -> f * (ceil_div n f - 1) < n <= f * ceil_div n f.
Proof.
  intros Hf. unfold ceil_div.
  pose proof (Z.div_mod (- n) f ltac:(lia)).
  pose proof (Z.mod_pos_bound (- n) f Hf). lia.
Qed.

Lemma ceil_div_unique n f q : 0 < f -> f * (q - 1) < n <= f * q -> ceil_div n f = q.
Proof. intros Hf Hq. pose proof (ceil_div_bounds n f Hf). nia. Qed.

Lemma ceil_div_le n f m : 0 < f -> ceil_div n f <= m <-> n <= f * m.
Proof. intros Hf. pose proof (ceil_div_bounds n f Hf). split; intros; nia. Qed.

Lemma ceil_div_shrinks n f : 2 <= f -> f < n -> 1 < ceil_div n f < n.
Proof. intros Hf Hn. pose proof (ceil_div_bounds n f ltac:(lia)). nia. Qed.

(** Two's-complement wrap-around at 64 bits, and the range it lands in. *)
Definition wrap64 (z : Z) : Z := (z + 2 ^ 63) mod 2 ^ 64 - 2 ^ 63.
Definition fits64 (z : Z) : bool := (- 2 ^ 63 <=? z) && (z <? 2 ^ 63).

Lemma fits64_range z : fits64 z = true <-> - 2 ^ 63 <= z < 2 ^ 63.
Proof. unfold fits64. rewrite andb_true_iff, Z.leb_le, Z.ltb_lt. done. Qed.

Lemma wrap64_fits z : fits64 (wrap64 z) = true.
Proof.
  apply fits64_range. unfold wrap64. pose proof (Z.mod_pos_bound (z + 2 ^ 63) (2 ^ 64) ltac:(lia)). lia.
Qed.

Lemma wrap64_id z : fits64 z = true -> wrap64 z = z.
Proof. rewrite fits64_range. intros Hz. unfold wrap64. rewrite Z.mod_small by lia. lia. Qed.

Lemma wrap64_congr x y : (x - y) mod 2 ^ 64 = 0 -> wrap64 x = wrap64 y.
Proof.
  intros H. unfold wrap64. f_equal. replace x with (y + (x - y)) by lia.
  apply Z.mod_divide in H as [k ->]; [|lia].
  replace (y + k * 2 ^ 64 + 2 ^ 63) with (y + 2 ^ 63 + k * 2 ^ 64) by lia. by rewrite Z.mod_add by lia.
Qed.

Lemma wrap64_add_l x y : wrap64 (wrap64 x + y) = wrap64 (x + y).
Proof.
  apply wrap64_congr. unfold wrap64. pose proof (Z.div_mod (x + 2 ^ 63) (2 ^ 64) ltac:(lia)) as H.
  replace (_ - (x + y)) with (- ((x + 2 ^ 63) / 2 ^ 64) * 2 ^ 64) by lia. by apply Z.mod_mul.
Qed.

Lemma wrap64_add_r x y : wrap64 (x + wrap64 y) = wrap64 (x + y).
Proof. by rewrite Z.add_comm, wrap64_add_l, Z.add_comm. Qed.

(** [range(0, stop, step)] for a positive [step]: [ceil (stop / step)] indices. *)
Definition py_range (stop step : nat) : list nat :=
  map (fun i => (i * step)%nat) (seq 0 (Z.to_nat (ceil_div (Z.of_nat stop) (Z.of_nat step)))).

(** [items[i : j]] for [0 <= i], [0 <= j]: indices past the end are clipped. *)
Definition py_slice {A} (i j : nat) (l : list A) : list A := take (j - i) (drop i l).

(** [enumerate(l)]. *)
Definition py_enumerate {A} (l : list A) : list (nat * A) := zip (seq 0 (length l)) l.

Lemma py_range_nil step : (0 < step)%nat -> py_range 0 step = [].
Proof.
  intros. unfold py_range. replace (ceil_div _ _) with 0; [done|].
  symmetry. apply ceil_div_unique; lia.
Qed.

Lemma py_range_cons n step :
  (0 < step)%nat -> (0 < n)%nat ->
  py_range n step = 0%nat :: map (fun i => (step + i)%nat) (py_range (n - step) step).
Proof.
  intros Hs Hn. unfold py_range.
  pose proof (ceil_div_bounds (Z.of_nat n) (Z.of_nat step) ltac:(lia)) as Hb.
  replace (Z.to_nat (ceil_div (Z.of_nat n) (Z.of_nat step)))
    with (S (Z.to_nat (ceil_div (Z.of_nat (n - step)) (Z.of_nat step)))).
  - cbn [seq map]. f_equal. rewrite map_map, <- seq_shift, map_map.
    apply map_ext. intros; lia.
  - destruct (decide (n <= step)%nat) as [Hle|Hgt].
    + replace (n - step)%nat with 0%nat by lia.
      rewrite (ceil_div_unique (Z.of_nat n) _ 1) by lia.
      rewrite (ceil_div_unique (Z.of_nat 0) _ 0) by lia. lia.
    + rewrite (ceil_div_unique (Z.of_nat (n - step)) _
        (ceil_div (Z.of_nat n) (Z.of_nat step) - 1)) by nia. nia.
Qed.

Lemma py_enumerate_cons {A} (x : A) l :
  py_enumerate (x :: l) = (0%nat, x) :: map (fun p => (S (fst p), snd p)) (py_enumerate l).
Proof.
  unfold py_enumerate. cbn. f_equal. rewrite <- (seq_shift (length l) 0).
  generalize (seq 0 (length l)) as ks. intros ks; revert l.
  induction ks as [|k ks IH]; intros [|y l]; cbn; [done..|]. by rewrite IH.
Qed.

Lemma py_enumerate_length {A} (l : list A) : length (py_enumerate l) = length l.
Proof. unfold py_enumerate. rewrite length_zip_with, length_seq. lia. Qed.

Lemma py_enumerate_snd {A} (l : list A) : map snd (py_enumerate l) = l.
Proof.
  induction l; [done|]. rewrite py_enumerate_cons. cbn. f_equal. by rewrite map_map.
Qed.

Lemma py_enumerate_fst {A} (l : list A) : map fst (py_enumerate l) = seq 0 (length l).
Proof.
  induction l; [done|]. rewrite py_enumerate_cons. cbn. f_equal.
  by rewrite map_map, <- seq_shift, <- IHl, map_map.
Qed.

Lemma py_enumerate_app {A} (l1 l2 : list A) :
  py_enumerate (l1 ++ l2) =
    py_enumerate l1 ++ map (prod_map (Nat.add (length l1)) id) (py_enumerate l2).
Proof.
  induction l1 as [|x l1 IH]; cbn [app length].
  - cbn. induction (py_enumerate l2) as [|[] ? IH]; [done|]. cbn. by rewrite <- IH.
  - rewrite !py_enumerate_cons, IH, map_app, map_map. done.
Qed.

Lemma elem_of_py_enumerate {A} (l : list A) i x : (i, x) ∈ py_enumerate l <-> l !! i = Some x.
Proof.
  revert i. induction l as [|y l IH]; intros i.
  - cbn. split; [by intros ?%elem_of_nil|by rewrite lookup_nil].
  - rewrite py_enumerate_cons, elem_of_cons, list_elem_of_fmap. destruct i as [|i]; cbn.
    + split; [|intros [= ->]; by left]. intros [[= ->]|([] & [=] & _)]. done.
    + rewrite <- IH. split.
      * intros [[=]|([j z] & [= -> ->] & H)]. done.
      * intros H. right. by exists (i, x).
Qed.

Lemma zip_map_l {A B C} (f : A -> B) (l : list A) (k : list C) :
  zip (map f l) k = map (prod_map f id) (zip l k).
Proof. revert k. induction l as [|x l IH]; intros [|y k]; cbn; [done..|]. by rewrite IH. Qed.

Lemma zip_fst_snd {A B} (l : list (A * B)) : zip (map fst l) (map snd l) = l.
Proof. induction l as [|[] l IH]; cbn; [done|]. by rewrite IH. Qed.
