(* ===== verification/PyDict.v ===== *)
(** * Insertion-ordered dictionaries

    Python's [dict]: an association list with distinct keys in insertion order.  Assigning to a
    present key keeps its position, assigning to a new one appends it. *)

From S2P Require Import Prelude.

Section Dict.
Context {K : Type} `{EqDecision K} {A : Type}.
Implicit Types (k : K) (d : list (K * A)).

(** [d.get(k)]. *)
Fixpoint dget k d : option A :=
  match d with
  | [] => None
  | (k', v) :: d' => if decide (k = k') then Some v else dget k d'
  end.

(** [d.pop(k, None)] without its result, and [del d[k]]. *)
Definition dpop k d : list (K * A) := List.filter (fun e => bool_decide (e.1 <> k)) d.

(** [d[k] = v]. *)
Fixpoint dset k (v : A) d : list (K * A) :=
  match d with
  | [] => [(k, v)]
  | (k', v') :: d' => if decide (k = k') then (k, v) :: d' else (k', v') :: dset k v d'
  end.

(** [k in d]. *)
Definition dmem k d : bool := match dget k d with Some _ => true | None => false end.

(** The sum of a figure over the values. *)
Fixpoint total (f : A -> Z) d : Z :=
  match d with [] => 0 | e :: d' => f e.2 + total f d' end.

(** Distinct keys. *)
Definition dict_ok d : Prop := NoDup d.*1.

Lemma dget_elem k v d : dget k d = Some v -> (k, v) ∈ d.
Proof. induction d as [|[k' v'] d IH]; cbn; [done|]. case_decide as H; [intros [= ->]; subst; left|right; auto]. Qed.

Lemma elem_dget k v d : dict_ok d -> (k, v) ∈ d -> dget k d = Some v.
Proof.
  unfold dict_ok. induction d as [|[k' v'] d IH]; cbn; [intros _ H%not_elem_of_nil; done|].
  intros [Hn Hd]%NoDup_cons H. apply elem_of_cons in H as [[= -> ->]|H]; [by rewrite decide_True|].
  rewrite decide_False; [auto|]. intros <-. apply Hn. apply list_elem_of_fmap. by exists (k, v).
Qed.

Lemma dget_None k d : dget k d = None <-> k ∉ d.*1.
Proof.
  induction d as [|[k' v'] d IH]; cbn; [split; [intros _; apply not_elem_of_nil|done]|].
  rewrite not_elem_of_cons. case_decide as H; [split; [done|by intros []]|]. rewrite IH. tauto.
Qed.

Lemma dget_is_Some k d : is_Some (dget k d) <-> k ∈ d.*1.
Proof.
  destruct (dget k d) eqn:E.
  - split; [intros _|eauto]. apply dget_elem in E. apply list_elem_of_fmap. by exists (k, a).
  - apply dget_None in E. split; [by intros []|done].
Qed.

Lemma dget_dpop k k' d : dget k (dpop k' d) = if decide (k = k') then None else dget k d.
Proof.
  induction d as [|[q v] d IH]; cbn; [by case_decide|]. fold (dpop k' d). case_bool_decide as H; cbn in *.
  - rewrite IH. destruct (decide (k = q)) as [->|]; [by rewrite decide_False by done|done].
  - subst q. rewrite IH. by case_decide.
Qed.

Lemma dget_dset k k' v d : dget k (dset k' v d) = if decide (k = k') then Some v else dget k d.
Proof.
  induction d as [|[q w] d IH]; cbn; [done|]. destruct (decide (k' = q)) as [->|H]; cbn; [by case_decide|].
  rewrite IH. destruct (decide (k = q)) as [->|]; [by rewrite decide_False by auto|done].
Qed.

Lemma dpop_fresh k d : dget k d = None -> dpop k d = d.
Proof.
  induction d as [|[q v] d IH]; cbn; [done|]. case_decide as H; [done|]. intros Hd.
  rewrite bool_decide_true by auto. fold (dpop k d). by rewrite IH.
Qed.

Lemma dset_fresh k v d : dget k d = None -> dset k v d = d ++ [(k, v)].
Proof. induction d as [|[q w] d IH]; cbn; [done|]. case_decide as H; [done|]. intros Hd. by rewrite IH. Qed.

Lemma dpop_ok k d : dict_ok d -> dict_ok (dpop k d).
Proof.
  unfold dict_ok, dpop. induction d as [|[q v] d IH]; cbn; [done|]. intros [Hn Hd]%NoDup_cons.
  case_bool_decide; cbn; [|auto]. constructor; [|auto]. intros Hin. apply Hn.
  apply list_elem_of_fmap in Hin as ([q' v'] & -> & Hin). apply list_elem_of_fmap. exists (q', v'). split; [done|].
  apply list_elem_of_In. apply list_elem_of_In, filter_In in Hin. tauto.
Qed.

Lemma dset_ok k v d : dict_ok d -> dict_ok (dset k v d).
Proof.
  unfold dict_ok. induction d as [|[q w] d IH]; cbn; [intros; apply NoDup_singleton|].
  intros [Hn Hd]%NoDup_cons. case_decide as H; cbn; [subst; by constructor|]. constructor; [|auto].
  intros Hin. apply Hn. apply dget_is_Some. apply dget_is_Some in Hin. by rewrite dget_dset, decide_False in Hin by auto.
Qed.

Lemma dict_ok_nil : dict_ok [].
Proof. apply NoDup_nil. done. Qed.

Lemma total_app f d d' : total f (d ++ d') = total f d + total f d'.
Proof. induction d as [|e d IH]; cbn; [done|]. rewrite IH. lia. Qed.

Lemma total_dpop f k v d : dict_ok d -> dget k d = Some v -> total f (dpop k d) = total f d - f v.
Proof.
  unfold dict_ok. induction d as [|[q w] d IH]; cbn; [done|]. intros [Hn Hd]%NoDup_cons.
  case_decide as H; [intros [= <-]; subst q|intros Hv].
  - rewrite bool_decide_false by auto. change (total f (dpop k d) = f w + total f d - f w).
    rewrite dpop_fresh by (by apply dget_None). lia.
  - rewrite bool_decide_true by auto. cbn. fold (dpop k d). rewrite IH by done. lia.
Qed.

Lemma total_nonneg f d : Forall (fun e => 0 <= f e.2) d -> 0 <= total f d.
Proof. induction 1; cbn; lia. Qed.

Lemma total_dset f k v d : total f (dset k v d) = total f d + f v - match dget k d with Some w => f w | None => 0 end.
Proof.
  induction d as [|[q w] d IH]; cbn; [lia|]. case_decide as H; cbn; [lia|]. rewrite IH. lia.
Qed.

Lemma Forall_dpop (P : K * A -> Prop) k d : Forall P d -> Forall P (dpop k d).
Proof.
  unfold dpop. rewrite !Forall_forall. intros H e He. apply H. apply list_elem_of_In. apply list_elem_of_In, filter_In in He. tauto.
Qed.

Lemma Forall_dset (P : K * A -> Prop) k v d : Forall P d -> P (k, v) -> Forall P (dset k v d).
Proof. intros Hd Hv. induction Hd as [|[q w] d Hq Hd IH]; cbn; [by constructor|]. case_decide; by constructor. Qed.

Lemma elem_of_dpop k e d : e ∈ dpop k d <-> e ∈ d /\ e.1 <> k.
Proof. unfold dpop. rewrite !list_elem_of_In, filter_In, bool_decide_eq_true. done. Qed.
End Dict.

#[export] Hint Resolve dict_ok_nil dpop_ok dset_ok : batcher.
