(* ===== verification/SpillStore.v ===== *)
(** * The tiered spill store

    carbonite/spill/handle.py, writer.py and store.py: buckets of record batches streamed to a
    local directory and, once its budget is used or its volume is low, to object storage; the
    byte accounting of open and finished buckets; carrying a bucket over to the remote tier
    when the local volume fills under it; reading back with the row count checked.

    The operating system and the Arrow IPC library answer through a script of [event]s: every
    call that can fail takes the next one, so a theorem about every script is a theorem about
    every pattern of failures. *)

From S2P Require Import Prelude.

(** ** Arrow arrays and their sizes *)

(** What the size accounting sees of an array.  A dictionary's values are identified by the
    address of their first buffer, when they have one. *)
Inductive array :=
  | Flat (bytes : Z)
  | Dictionary (address : option Z) (indices : Z) (values : array)
  | Struct (own : Z) (fields : list array)
  | ListOf (own : Z) (values : array).

(** [logical_bytes] of an array: every buffer it addresses, a dictionary's values included. *)
Class ArrowSizes := {
  logical_bytes : array -> Z;
  bytes_flat : forall b, logical_bytes (Flat b) = b;
  bytes_dictionary : forall a i v, logical_bytes (Dictionary a i v) = i + logical_bytes v;
  bytes_struct : forall o fs, logical_bytes (Struct o fs) = o + foldr (fun f acc => logical_bytes f + acc) 0 fs;
  bytes_list : forall o v, logical_bytes (ListOf o v) = o + logical_bytes v;
}.

(** [_recounted_dictionary_bytes], returning the set [seen] it updates. *)
Fixpoint recounted_dictionary_bytes `{ArrowSizes} (a : array) (seen : gset Z) : Z * gset Z :=
  match a with
  | Dictionary None _ _ => (0, seen)
  | Dictionary (Some ident) _ values =>
      if decide (ident ∈ seen) then (logical_bytes values, seen)
      else recounted_dictionary_bytes values ({[ident]} ∪ seen)
  | Struct _ fields =>
      (fix fields_bytes fs seen :=
         match fs with
         | [] => (0, seen)
         | f :: fs' => let (n, seen1) := recounted_dictionary_bytes f seen in
                       let (m, seen2) := fields_bytes fs' seen1 in (n + m, seen2)
         end) fields seen
  | ListOf _ values => recounted_dictionary_bytes values seen
  | Flat _ => (0, seen)
  end.

(** ** Buckets, writers and the store *)

Inductive tier := LOCAL | REMOTE.

#[global] Instance tier_eq_dec : EqDecision tier.
Proof. solve_decision. Defined.

(** [SpillHandle]. *)
Record handle := Handle { h_tier : tier; h_path : string; h_nbytes : Z; h_logical_nbytes : Z; h_num_rows : Z }.

#[global] Instance handle_eq_dec : EqDecision handle.
Proof. solve_decision. Defined.

(** A record batch: its rows, and its columns as the size accounting sees them. *)
Record batch {row : Type} := Batch { rows : list row; columns : list array }.
Arguments batch : clear implicits.
Arguments Batch {row}.

(** [BucketWriter].  [w_writer] and [w_fh] say that the stream and the file are open. *)
Record writer := Writer {
  w_name : string; w_tier : option tier; w_path : option string; w_fh : bool; w_writer : bool;
  w_pending : Z; w_seen : gset Z; w_rows : Z; w_handle : option handle }.

(** [TieredSpillStore]. *)
Record store := Store {
  local_dir : string; remote_uri : option string; local_budget : option Z;
  local_used : Z; local_pending : Z; local_paths : list string; remote_paths : list string;
  remote_used : Z; overflowed : Z; bytes_written : Z; buckets_written : Z;
  peak_local_used : Z; peak_remote_used : Z; open_writers : gset nat }.

(** How the system answers a call: it succeeds, the volume is full, it fails otherwise, or a
    stream can be read up to its first [n] messages. *)
Inductive event := Fine | NoSpace | Broken | Short (n : nat).

(** The store, its writers by identity, the files of the two tiers, and the answers to come. *)
Record world {row : Type} := World {
  st : store; writers : gmap nat writer;
  local_fs : gmap string (list (batch row)); remote_fs : gmap string (list (batch row));
  script : list event }.
Arguments world : clear implicits.
Arguments World {row}.

(** ** Effects *)

Section Effects.
Context {row : Type}.

Definition M (A : Type) : Type := world row -> world row * res A.

Definition ret {A} (a : A) : M A := fun w => (w, Ok a).
Definition raise {A} (e : string) : M A := fun w => (w, Raise e).
Definition bind {A B} (m : M A) (f : A -> M B) : M B := fun w =>
  match m w with (w', Ok a) => f a w' | (w', Raise e) => (w', Raise e) end.

(** [try: m except: h] where [h] runs and the exception goes on. *)
Definition on_error {A} (m : M A) (h : M unit) : M A := fun w =>
  match m w with (w', Ok a) => (w', Ok a) | (w', Raise e) => ((h w').1, Raise e) end.

(** [with contextlib.suppress(Exception): m]. *)
Definition suppress (m : M unit) : M unit := fun w => ((m w).1, Ok tt).

Definition get_store : M store := fun w => (w, Ok w.(st)).
Definition put_store (s : store) : M unit := fun w => (World s w.(writers) w.(local_fs) w.(remote_fs) w.(script), Ok tt).
Definition get_files (t : tier) : M (gmap string (list (batch row))) := fun w =>
  (w, Ok (match t with LOCAL => w.(local_fs) | REMOTE => w.(remote_fs) end)).
Definition put_files (t : tier) (fs : gmap string (list (batch row))) : M unit := fun w =>
  (match t with
   | LOCAL => World w.(st) w.(writers) fs w.(remote_fs) w.(script)
   | REMOTE => World w.(st) w.(writers) w.(local_fs) fs w.(script)
   end, Ok tt).
Definition get_writer (i : nat) : M writer := fun w =>
  (w, match w.(writers) !! i with Some x => Ok x | None => Raise "AttributeError" end).
Definition put_writer (i : nat) (x : writer) : M unit := fun w =>
  (World w.(st) (<[i := x]> w.(writers)) w.(local_fs) w.(remote_fs) w.(script), Ok tt).

(** The next answer of the system; an exhausted script answers that all is well. *)
Definition ask : M event := fun w =>
  match w.(script) with
  | [] => (w, Ok Fine)
  | e :: es => (World w.(st) w.(writers) w.(local_fs) w.(remote_fs) es, Ok e)
  end.
End Effects.

Declare Scope spill_scope.
Delimit Scope spill_scope with spill.
Notation "x <- m ;; k" := (bind m (fun x => k)) (at level 100, m at next level, right associativity) : spill_scope.
Notation "m ;;; k" := (bind m (fun _ => k)) (at level 100, right associativity) : spill_scope.
#[local] Open Scope spill_scope.

(** ** Record updates *)

Definition set_pending (s : store) (n : Z) : store :=
  Store s.(local_dir) s.(remote_uri) s.(local_budget) s.(local_used) n s.(local_paths) s.(remote_paths)
    s.(remote_used) s.(overflowed) s.(bytes_written) s.(buckets_written) s.(peak_local_used) s.(peak_remote_used) s.(open_writers).
Definition set_overflowed (s : store) (n : Z) : store :=
  Store s.(local_dir) s.(remote_uri) s.(local_budget) s.(local_used) s.(local_pending) s.(local_paths) s.(remote_paths)
    s.(remote_used) n s.(bytes_written) s.(buckets_written) s.(peak_local_used) s.(peak_remote_used) s.(open_writers).
Definition set_open (s : store) (o : gset nat) : store :=
  Store s.(local_dir) s.(remote_uri) s.(local_budget) s.(local_used) s.(local_pending) s.(local_paths) s.(remote_paths)
    s.(remote_used) s.(overflowed) s.(bytes_written) s.(buckets_written) s.(peak_local_used) s.(peak_remote_used) o.

Definition with_target (x : writer) (t : option tier) (p : option string) (fh wr : bool) : writer :=
  Writer x.(w_name) t p fh wr x.(w_pending) x.(w_seen) x.(w_rows) x.(w_handle).
Definition with_streams (x : writer) (fh wr : bool) : writer := with_target x x.(w_tier) x.(w_path) fh wr.
Definition with_charge (x : writer) (n : Z) (seen : gset Z) (r : Z) : writer :=
  Writer x.(w_name) x.(w_tier) x.(w_path) x.(w_fh) x.(w_writer) n seen r x.(w_handle).
Definition with_handle (x : writer) (h : option handle) : writer :=
  Writer x.(w_name) x.(w_tier) x.(w_path) x.(w_fh) x.(w_writer) x.(w_pending) x.(w_seen) x.(w_rows) h.

(** ** The operations *)

Section Operations.
Context {row : Type} `{ArrowSizes}.

(** The size of an IPC stream of these batches, as each tier encodes it. *)
Variable ipc_bytes : tier -> list (batch row) -> Z.

#[local] Abbreviation IO := (@M row).

Definition num_rows (b : batch row) : Z := Z.of_nat (length b.(rows)).
Definition batch_bytes (b : batch row) : Z := foldr (fun a acc => logical_bytes a + acc) 0 b.(columns).

(** [_charged_bytes]. *)
Definition charged_bytes (seen : gset Z) (b : batch row) : Z * gset Z :=
  let '(n, seen) := foldl (fun '(n, seen) a => let '(m, seen) := recounted_dictionary_bytes a seen in (n - m, seen))
                      (batch_bytes b, seen) b.(columns) in
  (Z.max n 0, seen).

(** [os.path.join(dir, name + ".arrow")] and [uri + "/" + name + ".arrow"]. *)
Definition bucket_path (dir name : string) : string := (dir +:+ "/" +:+ name +:+ ".arrow")%string.

(** [_local_disk_low]: the volume's measured pressure. *)
Definition local_disk_low : IO bool := e <- ask ;; ret (match e with NoSpace => true | _ => false end).

(** [_remove_partial], best effort. *)
Definition remove_partial (t : option tier) (path : string) : IO unit :=
  e <- ask ;;
  match e, t with
  | Fine, Some t => fs <- get_files t ;; put_files t (delete path fs)
  | _, _ => ret tt
  end.

Definition open_remote (i : nat) (uri : string) : IO unit :=
  x <- get_writer i ;;
  let path := bucket_path uri x.(w_name) in
  put_writer i (with_target x (Some REMOTE) (Some path) x.(w_fh) x.(w_writer)) ;;;
  e <- ask ;;
  match e with
  | Fine =>
      fs <- get_files REMOTE ;; put_files REMOTE (<[path := []]> fs) ;;;
      put_writer i (with_target x (Some REMOTE) (Some path) true true) ;;;
      s <- get_store ;; put_store (set_overflowed s (s.(overflowed) + 1))
  | _ => raise "OSError"
  end.

Definition open_local (i : nat) : IO unit :=
  x <- get_writer i ;; s <- get_store ;;
  let path := bucket_path s.(local_dir) x.(w_name) in
  put_writer i (with_target x (Some LOCAL) (Some path) x.(w_fh) x.(w_writer)) ;;;
  e <- ask ;;
  match e with
  | Fine =>
      fs <- get_files LOCAL ;; put_files LOCAL (<[path := []]> fs) ;;;
      put_writer i (with_target x (Some LOCAL) (Some path) true true)
  | _ => raise "OSError"
  end.

(** [_open]: the tier of a bucket, chosen when its first batch arrives. *)
Definition open_ (i : nat) : IO unit :=
  s <- get_store ;;
  let over_budget := match s.(local_budget) with
                     | Some b => b <=? s.(local_used) + s.(local_pending)
                     | None => false
                     end in
  match s.(remote_uri) with
  | Some uri =>
      if over_budget then open_remote i uri
      else low <- local_disk_low ;; if low : bool then open_remote i uri else open_local i
  | None => open_local i
  end.

(** The writer's stream appends a batch to its file. *)
Definition write_batch (i : nat) (b : batch row) : IO event :=
  x <- get_writer i ;; e <- ask ;;
  match e, x.(w_tier), x.(w_path) with
  | Fine, Some t, Some path => fs <- get_files t ;; put_files t (alter (fun bs => bs ++ [b]) path fs) ;;; ret e
  | _, _, _ => ret e
  end.

(** [_copy_stream_to_current]: re-writes the readable batches of a stream, and their rows. *)
Fixpoint copy_batches (i : nat) (bs : list (batch row)) : IO Z :=
  match bs with
  | [] => ret 0
  | b :: bs' =>
      e <- write_batch i b ;;
      match e with
      | Fine => n <- copy_batches i bs' ;; ret (num_rows b + n)
      | _ => raise "OSError"
      end
  end.

Definition copy_stream_to_current (i : nat) (path : string) : IO Z :=
  fs <- get_files LOCAL ;; e <- ask ;;
  match fs !! path, e with
  | Some bs, Fine => copy_batches i bs
  | Some bs, Short n => copy_batches i (take n bs)
  | Some _, _ | None, _ => raise "OSError"
  end.

(** [_failover_to_remote]. *)
Definition failover_to_remote (i : nat) : IO bool :=
  x <- get_writer i ;; s <- get_store ;;
  match x.(w_tier), x.(w_path), s.(remote_uri) with
  | Some LOCAL, Some local_path, Some uri =>
      put_writer i (with_streams x false false) ;;;
      put_store (set_pending s (s.(local_pending) - x.(w_pending))) ;;;
      open_remote i uri ;;;
      recovered <- copy_stream_to_current i local_path ;;
      if recovered =? x.(w_rows) then
        fs <- get_files LOCAL ;;
        e <- ask ;;
        match e with Fine => put_files LOCAL (delete local_path fs) | _ => ret tt end ;;;
        ret true
      else
        x' <- get_writer i ;;
        put_writer i (with_streams x' false false) ;;;
        match x'.(w_path) with Some p => remove_partial (Some REMOTE) p | None => ret tt end ;;;
        put_writer i (with_target x' (Some LOCAL) (Some local_path) false false) ;;;
        s' <- get_store ;; put_store (set_pending s' (s'.(local_pending) + x'.(w_pending))) ;;;
        ret false
  | _, _, _ => ret false
  end.

(** The middle of [write]: the batch into the stream, carrying the bucket over to the remote
    tier when the local volume is full. *)
Definition stream_batch (i : nat) (b : batch row) : IO unit :=
  e <- write_batch i b ;;
  match e with
  | Fine => ret tt
  | NoSpace =>
      moved <- failover_to_remote i ;;
      if moved : bool then
        e' <- write_batch i b ;; match e' with Fine => ret tt | _ => raise "OSError" end
      else raise "ResourceError"
  | _ => raise "OSError"
  end.

(** The end of [write]: the batch's rows and bytes are charged to the bucket and, while it is
    local, to the store. *)
Definition charge_batch (i : nat) (b : batch row) : IO unit :=
  x <- get_writer i ;;
  let '(charged, seen) := charged_bytes x.(w_seen) b in
  put_writer i (with_charge x (x.(w_pending) + charged) seen (x.(w_rows) + num_rows b)) ;;;
  match x.(w_tier) with
  | Some LOCAL => s <- get_store ;; put_store (set_pending s (s.(local_pending) + charged))
  | _ => ret tt
  end.

(** [BucketWriter.write]. *)
Definition write (i : nat) (b : batch row) : IO unit :=
  if num_rows b =? 0 then ret tt
  else
    x <- get_writer i ;;
    (if x.(w_writer) then ret tt else open_ i) ;;;
    stream_batch i b ;;;
    charge_batch i b.

(** [_release_pending]. *)
Definition release_pending (i : nat) : IO unit :=
  x <- get_writer i ;; s <- get_store ;;
  match x.(w_tier) with
  | Some LOCAL => put_store (set_pending s (s.(local_pending) - x.(w_pending)))
  | _ => ret tt
  end ;;;
  put_writer i (with_charge x 0 x.(w_seen) x.(w_rows)).

(** [self._store._open_writers.discard(self)]. *)
Definition discard_writer (i : nat) : IO unit := s <- get_store ;; put_store (set_open s (s.(open_writers) ∖ {[i]})).

(** [abort]. *)
Definition abort (i : nat) : IO unit :=
  x <- get_writer i ;;
  match x.(w_handle) with
  | Some _ => ret tt
  | None =>
      release_pending i ;;;
      x <- get_writer i ;;
      put_writer i (with_streams x false false) ;;;
      match x.(w_path) with Some p => remove_partial x.(w_tier) p | None => ret tt end ;;;
      x <- get_writer i ;;
      put_writer i (with_charge x x.(w_pending) x.(w_seen) 0) ;;;
      discard_writer i
  end.

(** [_measure]: the size of a finished bucket, asked of the filesystem. *)
Definition measure (t : tier) (path : string) : IO Z :=
  fs <- get_files t ;; e <- ask ;;
  match fs !! path, e with Some bs, Fine => ret (ipc_bytes t bs) | _, _ => raise "OSError" end.

(** The bytes of a finished bucket, recorded. *)
Definition record_bucket (s : store) (t : tier) (path : string) (nbytes : Z) : store :=
  match t with
  | LOCAL => let used := s.(local_used) + nbytes in
             Store s.(local_dir) s.(remote_uri) s.(local_budget) used s.(local_pending) (s.(local_paths) ++ [path]) s.(remote_paths)
               s.(remote_used) s.(overflowed) (s.(bytes_written) + nbytes) (s.(buckets_written) + 1)
               (Z.max s.(peak_local_used) used) s.(peak_remote_used) s.(open_writers)
  | REMOTE => let used := s.(remote_used) + nbytes in
             Store s.(local_dir) s.(remote_uri) s.(local_budget) s.(local_used) s.(local_pending) s.(local_paths) (s.(remote_paths) ++ [path])
               used s.(overflowed) (s.(bytes_written) + nbytes) (s.(buckets_written) + 1)
               s.(peak_local_used) (Z.max s.(peak_remote_used) used) s.(open_writers)
  end.

(** [_on_closed]. *)
Definition on_closed (t : tier) (path : string) (written : option Z) : IO Z :=
  nbytes <- match written with Some n => if 0 <=? n then ret n else measure t path | None => measure t path end ;;
  s <- get_store ;; put_store (record_bucket s t path nbytes) ;;;
  ret nbytes.

(** Finishing the stream: its end marker, the offset it ended at, the file. *)
Definition finish_stream (i : nat) : IO (option Z) :=
  x <- get_writer i ;;
  e1 <- ask ;;
  match e1 with
  | Fine =>
      e2 <- ask ;;
      written <- match e2, x.(w_tier), x.(w_path) with
                 | Fine, Some t, Some p => fs <- get_files t ;; ret (option_map (ipc_bytes t) (fs !! p))
                 | _, _, _ => ret None
                 end ;;
      e3 <- ask ;;
      match e3 with Fine => ret written | _ => raise "OSError" end
  | _ => raise "OSError"
  end.

(** [close]. *)
Definition close (i : nat) : IO (option handle) :=
  x <- get_writer i ;;
  match x.(w_handle) with
  | Some h => ret (Some h)
  | None =>
      if negb x.(w_writer) then discard_writer i ;;; ret None
      else
        written <- on_error (finish_stream i) (abort i) ;;
        x <- get_writer i ;;
        put_writer i (with_streams x x.(w_fh) false) ;;;
        discard_writer i ;;;
        let logical_nbytes := x.(w_pending) in
        release_pending i ;;;
        match x.(w_tier), x.(w_path) with
        | Some t, Some p =>
            nbytes <- on_closed t p written ;;
            let h := Handle t p nbytes logical_nbytes x.(w_rows) in
            x <- get_writer i ;;
            put_writer i (with_handle x (Some h)) ;;; ret (Some h)
        | _, _ => ret None
        end
  end.

(** [_SAFE_BUCKET_NAME]. *)
Definition alnum (c : Ascii.ascii) : bool :=
  let n := Z.of_N (Ascii.N_of_ascii c) in
  ((65 <=? n) && (n <=? 90)) || ((97 <=? n) && (n <=? 122)) || ((48 <=? n) && (n <=? 57)).
Definition token (c : Ascii.ascii) : bool :=
  alnum c || existsb (Ascii.eqb c) (String.list_ascii_of_string "._@=+-").
Definition safe_bucket_name (name : string) : bool :=
  match String.list_ascii_of_string name with [] => false | c :: cs => alnum c && forallb token cs end.

(** [TieredSpillStore.writer]: a new writer object. *)
Definition new_writer (i : nat) (name : string) : IO unit :=
  if safe_bucket_name name then
    put_writer i (Writer name None None false false 0 ∅ 0 None) ;;;
    s <- get_store ;; put_store (set_open s ({[i]} ∪ s.(open_writers)))
  else raise "PlanError".

Fixpoint write_all (i : nat) (bs : list (batch row)) : IO unit :=
  match bs with [] => ret tt | b :: bs' => write i b ;;; write_all i bs' end.

(** [spill]: a whole bucket, under the writer's [with] block. *)
Definition spill (i : nat) (bs : list (batch row)) (name : string) : IO (option handle) :=
  new_writer i name ;;;
  h <- on_error (write_all i bs ;;; close i) (abort i) ;;
  close i ;;; ret h.

(** [_verify_complete]. *)
Definition verify_complete (h : handle) (seen : Z) : IO unit :=
  if (h.(h_num_rows) =? 0) || (h.(h_num_rows) <=? seen) then ret tt else raise "ResourceError".

Fixpoint total_rows (bs : list (batch row)) : Z := match bs with [] => 0 | b :: bs' => num_rows b + total_rows bs' end.

(** [read]: a stream cut at a message boundary is a shorter valid stream. *)
Definition read (h : handle) : IO (list (batch row)) :=
  fs <- get_files h.(h_tier) ;; e <- ask ;;
  match fs !! h.(h_path), e with
  | Some bs, Fine => verify_complete h (total_rows bs) ;;; ret bs
  | Some bs, Short n => verify_complete h (total_rows (take n bs)) ;;; ret (take n bs)
  | None, _ => raise (match h.(h_tier) with LOCAL => "ResourceError" | REMOTE => "OSError" end)
  | _, _ => raise "OSError"
  end.

(** [paths.remove(path)]: the first occurrence. *)
Fixpoint remove_first (p : string) (l : list string) : list string :=
  match l with [] => [] | q :: l' => if decide (p = q) then l' else q :: remove_first p l' end.

(** [TieredSpillStore.release]. *)
Definition release (h : handle) : IO unit :=
  s <- get_store ;;
  let paths := match h.(h_tier) with LOCAL => s.(local_paths) | REMOTE => s.(remote_paths) end in
  if decide (h.(h_path) ∈ paths) then
    put_store
      match h.(h_tier) with
      | LOCAL => Store s.(local_dir) s.(remote_uri) s.(local_budget) (Z.max 0 (s.(local_used) - h.(h_nbytes))) s.(local_pending)
                   (remove_first h.(h_path) s.(local_paths)) s.(remote_paths) s.(remote_used) s.(overflowed) s.(bytes_written)
                   s.(buckets_written) s.(peak_local_used) s.(peak_remote_used) s.(open_writers)
      | REMOTE => Store s.(local_dir) s.(remote_uri) s.(local_budget) s.(local_used) s.(local_pending)
                   s.(local_paths) (remove_first h.(h_path) s.(remote_paths)) (Z.max 0 (s.(remote_used) - h.(h_nbytes))) s.(overflowed)
                   s.(bytes_written) s.(buckets_written) s.(peak_local_used) s.(peak_remote_used) s.(open_writers)
      end ;;;
    remove_partial (Some h.(h_tier)) h.(h_path)
  else ret tt.

Fixpoint each {A} (f : A -> IO unit) (l : list A) : IO unit :=
  match l with [] => ret tt | x :: l' => f x ;;; each f l' end.

(** [cleanup]. *)
Definition cleanup : IO unit :=
  s <- get_store ;;
  each (fun i => suppress (abort i)) (elements s.(open_writers)) ;;;
  s <- get_store ;; put_store (set_open s ∅) ;;;
  each (fun p => remove_partial (Some LOCAL) p) s.(local_paths) ;;;
  each (fun p => remove_partial (Some REMOTE) p) s.(remote_paths) ;;;
  s <- get_store ;;
  put_store (Store s.(local_dir) s.(remote_uri) s.(local_budget) 0 0 [] [] 0 s.(overflowed) s.(bytes_written)
    s.(buckets_written) s.(peak_local_used) s.(peak_remote_used) s.(open_writers)).

(** [__init__], with the budget clamped to the volume. *)
Definition new_store (dir : string) (uri : option string) (budget : option Z) : store :=
  Store dir uri budget 0 0 [] [] 0 0 0 0 0 0 ∅.
Definition new_world (dir : string) (uri : option string) (budget : option Z) (script : list event) : world row :=
  World (new_store dir uri budget) ∅ ∅ ∅ script.
End Operations.
