(* ===== verification/SpillCharge.v ===== *)
(** * What a spill bucket is charged

    [BucketWriter._charged_bytes] (carbonite/spill/writer.py): batches of a dictionary-encoded
    column share one values array, and the bucket is charged for it once. *)

From S2P Require Import Prelude SpillStore.

Section Charge.
Context `{ArrowSizes} {row : Type}.

(** The sum of a figure over a set. *)
Fixpoint sum_list (f : Z -> Z) (l : list Z) : Z := match l with [] => 0 | a :: l' => f a + sum_list f l' end.
Definition sum_over (f : Z -> Z) (X : gset Z) : Z := sum_list f (elements X).

Lemma sum_list_perm f l l' : l ≡ₚ l' -> sum_list f l = sum_list f l'.
Proof. induction 1; cbn; lia. Qed.

Lemma sum_list_app f l l' : sum_list f (l ++ l') = sum_list f l + sum_list f l'.
Proof. induction l as [|x l IH]; cbn; [done|]. rewrite IH. lia. Qed.

Lemma sum_over_union f X Y : X ## Y -> sum_over f (X ∪ Y) = sum_over f X + sum_over f Y.
Proof. intros Hd. unfold sum_over. rewrite (sum_list_perm f _ _ (elements_disj_union X Y Hd)). apply sum_list_app. Qed.

Lemma sum_over_empty f X : X ≡ ∅ -> sum_over f X = 0.
Proof. intros ->%leibniz_equiv. done. Qed.

Lemma sum_over_split f (X Y seen : gset Z) :
  sum_over f ((X ∪ Y) ∖ seen) = sum_over f (X ∖ seen) + sum_over f (Y ∖ (seen ∪ X)).
Proof. rewrite <- sum_over_union by set_solver. f_equal. apply set_eq. intros x. destruct (decide (x ∈ X)); set_solver. Qed.

(** Bytes outside every identified dictionary, and the dictionaries reached. *)
Fixpoint own_bytes (a : array) : Z :=
  match a with
  | Flat b => b
  | Dictionary None i v => i + logical_bytes v
  | Dictionary (Some _) i _ => i
  | Struct o fs => o + foldr (fun f acc => own_bytes f + acc) 0 fs
  | ListOf o v => o + own_bytes v
  end.

Fixpoint dictionaries (a : array) : gset Z :=
  match a with
  | Flat _ | Dictionary None _ _ => ∅
  | Dictionary (Some d) _ v => {[d]} ∪ dictionaries v
  | Struct _ fs => foldr (fun f acc => dictionaries f ∪ acc) ∅ fs
  | ListOf _ v => dictionaries v
  end.

(** One values array per address. *)
Variable values_at : Z -> option array.

Fixpoint identified (a : array) : Prop :=
  match a with
  | Flat _ => True
  | Dictionary None _ _ => True
  | Dictionary (Some d) _ v => values_at d = Some v /\ identified v
  | Struct _ fs => foldr (fun f acc => identified f /\ acc) True fs
  | ListOf _ v => identified v
  end.

Definition dictionary_bytes (d : Z) : Z := match values_at d with Some v => own_bytes v | None => 0 end.

(** Every dictionary nested in a charged one has been charged. *)
Definition closed (seen : gset Z) : Prop :=
  forall d v, d ∈ seen -> values_at d = Some v -> dictionaries v ⊆ seen.

Lemma array_ind' (P : array -> Prop) :
  (forall b, P (Flat b)) -> (forall a i v, P v -> P (Dictionary a i v)) ->
  (forall o fs, Forall P fs -> P (Struct o fs)) -> (forall o v, P v -> P (ListOf o v)) -> forall a, P a.
Proof.
  intros H1 H2 H3 H4. fix IH 1. intros [b|a i v|o fs|o v]; [apply H1|apply H2, IH| |apply H4, IH].
  apply H3. induction fs; constructor; [apply IH|done].
Qed.

Lemma closed_union X Y : closed X -> closed Y -> closed (X ∪ Y).
Proof. intros HX HY d v [Hd|Hd]%elem_of_union Hv; [specialize (HX d v)|specialize (HY d v)]; set_solver. Qed.

Lemma closed_empty : closed ∅.
Proof. by intros d v Hd%elem_of_empty. Qed.

(** The dictionaries of an array of identified dictionaries are closed. *)
Lemma dictionaries_closed a : identified a -> closed (dictionaries a).
Proof.
  induction a as [b|[d|] i v IH|o fs IH|o v IH] using array_ind'; cbn; intros Hi; auto using closed_empty.
  - destruct Hi as [Hd Hi]. specialize (IH Hi). intros d' v' [->%elem_of_singleton|Hd']%elem_of_union Hv.
    + rewrite Hd in Hv. injection Hv as <-. set_solver.
    + specialize (IH d' v' Hd' Hv). set_solver.
  - induction IH as [|f fs Hf _ IH]; cbn in *; [apply closed_empty|]. destruct Hi. apply closed_union; auto.
Qed.

(** A dictionary is not nested in its own values. *)
Fixpoint depth (a : array) : nat :=
  match a with
  | Flat _ => 0
  | Dictionary _ _ v | ListOf _ v => S (depth v)
  | Struct _ fs => S (foldr (fun f acc => (depth f + acc)%nat) 0%nat fs)
  end.

Lemma nested_below a d v : identified a -> d ∈ dictionaries a -> values_at d = Some v -> (depth v < depth a)%nat.
Proof.
  induction a as [b|[d'|] i v' IH|o fs IH|o v' IH] using array_ind'; cbn; intros Hi Hd Hv; try by apply elem_of_empty in Hd.
  - destruct Hi as [Hd' Hi]. apply elem_of_union in Hd as [->%elem_of_singleton|Hd]; [rewrite Hd' in Hv; injection Hv as <-; lia|].
    specialize (IH Hi Hd Hv). lia.
  - induction IH as [|f fs Hf _ IHl]; cbn in *; [by apply elem_of_empty in Hd|]. destruct Hi as [Hi Hi'].
    apply elem_of_union in Hd as [Hd|Hd]; [specialize (Hf Hi Hd Hv)|specialize (IHl Hi' Hd)]; lia.
  - specialize (IH Hi Hd Hv). lia.
Qed.

(** What a walk owes: it leaves exactly the first sighting of each dictionary to be charged. *)
Definition first_sightings (bytes own : Z) (ds seen : gset Z) (r : Z * gset Z) : Prop :=
  r.2 = seen ∪ ds /\ bytes - r.1 = own + sum_over dictionary_bytes (ds ∖ seen).

(** The part of [closed] a walk over [ds] needs. *)
Definition closed_on (ds seen : gset Z) : Prop :=
  forall d v, d ∈ ds -> d ∈ seen -> values_at d = Some v -> dictionaries v ⊆ seen.

Lemma closed_on_after (X Y seen : gset Z) : closed X -> closed_on Y seen -> closed_on Y (seen ∪ X).
Proof. intros HX HY d v Hd [Hs|Hs]%elem_of_union Hv; [specialize (HY d v)|specialize (HX d v)]; set_solver. Qed.

Lemma recounted_first_sightings a : forall seen, identified a -> closed_on (dictionaries a) seen ->
  first_sightings (logical_bytes a) (own_bytes a) (dictionaries a) seen (recounted_dictionary_bytes a seen).
Proof.
  unfold first_sightings.
  induction a as [b|[d|] i v IH|o fs IH|o v IH] using array_ind'; cbn; intros seen Hi Hc.
  - rewrite bytes_flat, sum_over_empty by set_solver. split; [set_solver|lia].
  - destruct Hi as [Hd Hi]. rewrite bytes_dictionary. case_decide as Hs; cbn.
    + pose proof (Hc d v ltac:(set_solver) Hs Hd). rewrite sum_over_empty by set_solver. split; [set_solver|lia].
    + destruct (IH ({[d]} ∪ seen) Hi) as [E1 E2].
      { intros d' v' Hd' [->%elem_of_singleton|Hs']%elem_of_union Hv; [|specialize (Hc d' v'); set_solver].
        pose proof (nested_below v d v' Hi Hd' Hv). rewrite Hd in Hv. injection Hv as <-. lia. }
      split; [rewrite E1; set_solver|]. rewrite sum_over_split, (union_comm_L seen).
      assert ({[d]} ∖ seen =@{gset Z} {[d]}) as -> by set_solver. unfold sum_over at 1. rewrite elements_singleton. cbn.
      unfold dictionary_bytes at 1. rewrite Hd. lia.
  - rewrite bytes_dictionary, sum_over_empty by set_solver. split; [set_solver|lia].
  - rewrite bytes_struct. revert seen Hi Hc. induction IH as [|f fs Hf _ IHl]; cbn; intros seen Hi Hc.
    + rewrite sum_over_empty by set_solver. split; [set_solver|lia].
    + destruct Hi as [Hi Hi']. destruct (Hf seen Hi) as [E1 E2]; [intros d v Hd; apply Hc; set_solver|].
      destruct (recounted_dictionary_bytes f seen) as [n seen1] eqn:E. cbn in E1, E2. subst seen1.
      destruct (IHl (seen ∪ dictionaries f) Hi') as [E3 E4].
      { apply closed_on_after; [by apply dictionaries_closed|]. intros d v Hd. apply Hc. set_solver. }
      match goal with |- context [let (_, _) := ?X in _] => destruct X as [m seen2] end. cbn in *. split; [rewrite E3; set_solver|].
      rewrite sum_over_split. lia.
  - destruct (IH seen Hi Hc) as [E1 E2]. rewrite bytes_list. split; [done|lia].
Qed.

(** ** Batches *)

(** No buffer has a negative size. *)
Fixpoint well_sized (a : array) : Prop :=
  match a with
  | Flat b => 0 <= b
  | Dictionary _ i v => 0 <= i /\ well_sized v
  | Struct o fs => 0 <= o /\ foldr (fun f acc => well_sized f /\ acc) True fs
  | ListOf o v => 0 <= o /\ well_sized v
  end.

Lemma well_sized_bytes a : well_sized a -> 0 <= own_bytes a /\ 0 <= logical_bytes a.
Proof.
  induction a as [b|[d|] i v IH|o fs IH|o v IH] using array_ind'; cbn; rewrite ?bytes_flat, ?bytes_dictionary, ?bytes_list, ?bytes_struct.
  - done.
  - intros [? ?%IH]. lia.
  - intros [? ?%IH]. lia.
  - intros [Ho Hf]. assert (0 <= foldr (fun f acc => own_bytes f + acc) 0 fs /\ 0 <= foldr (fun f acc => logical_bytes f + acc) 0 fs) by
      (induction IH as [|f fs Hw _ IHl]; cbn in *; [done|]; destruct Hf as [?%Hw ?%IHl]; lia). lia.
  - intros [? ?%IH]. lia.
Qed.

Definition batch_own (b : batch row) : Z := foldr (fun a acc => own_bytes a + acc) 0 b.(columns).
Definition batch_dictionaries (b : batch row) : gset Z := foldr (fun a acc => dictionaries a ∪ acc) ∅ b.(columns).
Definition batch_ok (b : batch row) : Prop := Forall (fun a => identified a /\ well_sized a) b.(columns).

Definition walk_columns (n : Z) (seen : gset Z) (cols : list array) : Z * gset Z :=
  foldl (fun '(n, seen) a => let '(m, seen) := recounted_dictionary_bytes a seen in (n - m, seen)) (n, seen) cols.

Lemma walk_columns_exact cols : forall n seen, Forall identified cols -> closed seen ->
  let ds := foldr (fun a acc => dictionaries a ∪ acc) ∅ cols in
  closed ds /\
  walk_columns (n + foldr (fun a acc => logical_bytes a + acc) 0 cols) seen cols =
    (n + foldr (fun a acc => own_bytes a + acc) 0 cols + sum_over dictionary_bytes (ds ∖ seen), seen ∪ ds).
Proof.
  unfold walk_columns. induction cols as [|a cols IH]; cbn; intros n seen Hi Hc.
  - split; [apply closed_empty|]. rewrite sum_over_empty by set_solver. f_equal; [lia|set_solver].
  - apply Forall_cons in Hi as [Ha Hi]. destruct (recounted_first_sightings a seen Ha) as [E1 E2]; [by intros d v _; apply Hc|].
    destruct (recounted_dictionary_bytes a seen) as [m seen1]. cbn in E1, E2. subst seen1.
    destruct (IH (n + own_bytes a + sum_over dictionary_bytes (dictionaries a ∖ seen)) (seen ∪ dictionaries a) Hi) as [Hd E];
      [apply closed_union; [done|by apply dictionaries_closed]|].
    split; [apply closed_union; [by apply dictionaries_closed|done]|].
    replace (n + _ - m) with (n + own_bytes a + sum_over dictionary_bytes (dictionaries a ∖ seen) + foldr (fun a acc => logical_bytes a + acc) 0 cols) by lia.
    rewrite E, sum_over_split. f_equal; [lia|set_solver].
Qed.

Lemma batch_dictionaries_closed b : batch_ok b -> closed (batch_dictionaries b).
Proof.
  intros Hb. apply (walk_columns_exact _ 0 ∅); [|apply closed_empty]. eapply Forall_impl; [exact Hb|]. by intros a [].
Qed.

Lemma dictionary_bytes_nonneg a d : identified a -> well_sized a -> d ∈ dictionaries a -> 0 <= dictionary_bytes d.
Proof.
  induction a as [b|[d'|] i v IH|o fs IH|o v IH] using array_ind'; cbn; intros Hi Hw Hd; try by apply elem_of_empty in Hd.
  - destruct Hi as [Hd' Hi], Hw as [_ Hw]. apply elem_of_union in Hd as [->%elem_of_singleton|Hd]; [|auto].
    unfold dictionary_bytes. rewrite Hd'. by apply well_sized_bytes.
  - destruct Hw as [_ Hw]. induction IH as [|f fs Hf _ IHl]; cbn in *; [by apply elem_of_empty in Hd|].
    destruct Hi, Hw. apply elem_of_union in Hd as [Hd|Hd]; auto.
  - destruct Hw. auto.
Qed.

Lemma sum_over_nonneg f X : (forall d, d ∈ X -> 0 <= f d) -> 0 <= sum_over f X.
Proof.
  intros HX. unfold sum_over. assert (forall d, d ∈ elements X -> 0 <= f d) as H' by (intros d Hd%elem_of_elements; auto).
  revert H'. generalize (elements X). induction l as [|x l IH]; cbn; intros H'; [done|].
  pose proof (H' x ltac:(left)). assert (0 <= sum_list f l) by (apply IH; intros d Hd; apply H'; by right). lia.
Qed.

Lemma batch_own_nonneg b : batch_ok b -> 0 <= batch_own b.
Proof. unfold batch_ok, batch_own. induction 1 as [|a l [_ Ha%well_sized_bytes] _ IH]; cbn; lia. Qed.

Lemma batch_dictionary_nonneg b d : batch_ok b -> d ∈ batch_dictionaries b -> 0 <= dictionary_bytes d.
Proof.
  unfold batch_ok, batch_dictionaries. induction 1 as [|a l [Hi Hw] _ IH]; cbn; intros Hd; [by apply elem_of_empty in Hd|].
  apply elem_of_union in Hd as [Hd|Hd]; [by eapply dictionary_bytes_nonneg|auto].
Qed.

Lemma charged_bytes_exact seen b : batch_ok b -> closed seen ->
  charged_bytes seen b = (batch_own b + sum_over dictionary_bytes (batch_dictionaries b ∖ seen), seen ∪ batch_dictionaries b).
Proof.
  intros Hb Hc. destruct (walk_columns_exact b.(columns) 0 seen) as [Hd E]; [eapply Forall_impl; [exact Hb|]; by intros a []|done|].
  unfold charged_bytes, batch_bytes. unfold walk_columns in E. rewrite !Z.add_0_l in E. rewrite E. f_equal. apply Z.max_l.
  pose proof (batch_own_nonneg b Hb). unfold batch_own in *.
  assert (0 <= sum_over dictionary_bytes (batch_dictionaries b ∖ seen)); [|unfold batch_dictionaries in *; lia].
  apply sum_over_nonneg. intros d Hd'. apply (batch_dictionary_nonneg b); [done|set_solver].
Qed.
End Charge.
