(* ===== verification/SpillSound.v ===== *)
(** * Correctness of the tiered spill store

    The byte accounting of [SpillStore] under every pattern of failures, and the round trip of a
    bucket: what is read back is what was written, or an error. *)

From S2P Require Import Prelude SpillStore SpillCharge.

#[local] Open Scope spill_scope.

(** ** Reasoning about effects *)

Section Calculus.
Context {row : Type}.

(** Every outcome of [m] from [w] satisfies [Q]. *)
Definition wp {A} (m : M A) (Q : res A -> world row -> Prop) (w : world row) : Prop := Q (m w).2 (m w).1.

Lemma wp_bind {A B} (m : M A) (f : A -> M B) Q w :
  wp m (fun r w' => match r with Ok a => wp (f a) Q w' | Raise e => Q (Raise e) w' end) w -> wp (bind m f) Q w.
Proof. unfold wp, bind. by destruct (m w) as [w' [a|e]]. Qed.

Lemma wp_mono {A} (m : M A) (P Q : res A -> world row -> Prop) w : wp m P w -> (forall r w', P r w' -> Q r w') -> wp m Q w.
Proof. unfold wp. auto. Qed.

Lemma wp_ask Q s ws lf rf sc :
  (forall e sc', Q (Ok e) (World s ws lf rf sc')) -> wp ask Q (World s ws lf rf sc).
Proof. unfold wp, ask. cbn. intros HQ. destruct sc; cbn; apply HQ. Qed.

Lemma wp_get_writer Q i s ws lf rf sc :
  (forall x, ws !! i = Some x -> Q (Ok x) (World s ws lf rf sc)) ->
  (ws !! i = None -> Q (Raise "AttributeError") (World s ws lf rf sc)) ->
  wp (get_writer i) Q (World s ws lf rf sc).
Proof. unfold wp, get_writer. cbn. destruct (ws !! i) eqn:E; auto. Qed.

Lemma wp_get_writer_at Q i x s ws lf rf sc :
  ws !! i = Some x -> Q (Ok x) (World s ws lf rf sc) -> wp (get_writer i) Q (World s ws lf rf sc).
Proof. intros Hx HQ. apply wp_get_writer; [|congruence]. intros y. rewrite Hx. by intros [= <-]. Qed.

Lemma wp_ret {A} (a : A) Q w : Q (Ok a) w -> wp (ret a) Q w.
Proof. done. Qed.
Lemma wp_raise {A} e (Q : res A -> _ -> _) w : Q (Raise e) w -> wp (raise e) Q w.
Proof. done. Qed.
Lemma wp_get_store Q s ws lf rf sc : Q (Ok s) (World s ws lf rf sc) -> wp get_store Q (World s ws lf rf sc).
Proof. done. Qed.
Lemma wp_put_store Q s' s ws lf rf sc : Q (Ok tt) (World s' ws lf rf sc) -> wp (put_store s') Q (World s ws lf rf sc).
Proof. done. Qed.
Lemma wp_put_writer Q i x s ws lf rf sc : Q (Ok tt) (World s (<[i := x]> ws) lf rf sc) -> wp (put_writer i x) Q (World s ws lf rf sc).
Proof. done. Qed.
Lemma wp_get_files Q t s ws lf rf sc :
  Q (Ok (match t with LOCAL => lf | REMOTE => rf end)) (World s ws lf rf sc) -> wp (get_files t) Q (World s ws lf rf sc).
Proof. done. Qed.
Lemma wp_put_files Q t fs s ws lf rf sc :
  Q (Ok tt) (World s ws (match t with LOCAL => fs | REMOTE => lf end) (match t with LOCAL => rf | REMOTE => fs end) sc) ->
  wp (put_files t fs) Q (World s ws lf rf sc).
Proof. by destruct t. Qed.

Lemma wp_on_error {A} (m : M A) (h : M unit) Q w :
  wp m (fun r w' => match r with Ok a => Q (Ok a) w' | Raise e => wp h (fun _ w'' => Q (Raise e) w'') w' end) w ->
  wp (on_error m h) Q w.
Proof. unfold wp, on_error. by destruct (m w) as [w' [a|e]]. Qed.

Lemma wp_suppress (m : M unit) Q w : wp m (fun _ w' => Q (Ok tt) w') w -> wp (suppress m) Q w.
Proof. unfold wp, suppress. done. Qed.

Lemma wp_each {B} (f : B -> M unit) (P : world row -> Prop) l :
  (forall x w, P w -> wp (f x) (fun r w' => r = Ok tt /\ P w') w) ->
  forall w, P w -> wp (each f l) (fun r w' => r = Ok tt /\ P w') w.
Proof.
  intros Hf. induction l as [|x l IH]; intros w Hw; [done|]. cbn. apply wp_bind. eapply wp_mono; [by apply Hf|].
  intros r w' [-> Hw']. by apply IH.
Qed.
End Calculus.

(** Symbolic execution up to the next operation that has a lemma of its own. *)
Ltac wp_step :=
  lazymatch goal with
  | |- wp (bind _ _) _ _ => apply wp_bind
  | |- wp ask _ _ => apply wp_ask; intros
  | |- wp (get_writer _) _ _ => apply wp_get_writer; intros
  | |- wp (ret _) _ _ => apply wp_ret
  | |- wp (raise _) _ _ => apply wp_raise
  | |- wp get_store _ _ => apply wp_get_store
  | |- wp (put_store _) _ _ => apply wp_put_store
  | |- wp (get_files _) _ _ => apply wp_get_files
  | |- wp (put_files _ _) _ _ => apply wp_put_files
  | |- wp (put_writer _ _) _ _ => apply wp_put_writer
  | |- wp (match ?x with _ => _ end) _ _ => destruct x eqn:?
  end; lazy beta iota zeta.
Ltac wp_run := repeat wp_step.

Section Sound.
Context {row : Type} `{ArrowSizes} (ipc_bytes : tier -> list (batch row) -> Z).
Hypothesis ipc_nonneg : forall t bs, 0 <= ipc_bytes t bs.

(** ** Accounting *)

(** The bytes a writer holds against the local budget. *)
Definition charge (x : writer) : Z := match x.(w_tier) with Some LOCAL => x.(w_pending) | _ => 0 end.
Definition pending_sum (ws : gmap nat writer) : Z := map_fold (fun _ x acc => charge x + acc) 0 ws.

Lemma pending_sum_insert i y ws :
  pending_sum (<[i := y]> ws) = pending_sum ws + charge y - match ws !! i with Some x => charge x | None => 0 end.
Proof.
  assert (forall ws, ws !! i = None -> pending_sum (<[i := y]> ws) = charge y + pending_sum ws) as Hnew.
  { intros ws' Hn. unfold pending_sum. apply (map_fold_insert_L (fun _ x acc => charge x + acc) 0 i y ws'); [intros; lia|done]. }
  destruct (ws !! i) as [x|] eqn:E; [|rewrite Hnew by done; lia].
  rewrite <- insert_delete_eq, Hnew by apply lookup_delete_eq.
  assert (pending_sum ws = charge x + pending_sum (delete i ws)); [|lia].
  apply (map_fold_delete_L (fun _ x acc => charge x + acc) 0 i x ws); [intros; lia|done].
Qed.

Definition on_tier (t : tier) (live : list handle) : list handle := List.filter (fun h => bool_decide (h.(h_tier) = t)) live.
Definition held (t : tier) (live : list handle) : Z := foldr (fun h acc => h.(h_nbytes) + acc) 0 (on_tier t live).

(** What the store's figures mean, [live] being the finished buckets not released yet. *)
Record accounts (s : store) (ws : gmap nat writer) (live : list handle) : Prop := {
  ac_pending : s.(local_pending) = pending_sum ws;
  ac_nonneg : forall i x, ws !! i = Some x -> 0 <= x.(w_pending);
  ac_open : forall i x, ws !! i = Some x -> x.(w_pending) <> 0 -> i ∈ s.(open_writers);
  ac_local : s.(local_paths) ≡ₚ map h_path (on_tier LOCAL live);
  ac_remote : s.(remote_paths) ≡ₚ map h_path (on_tier REMOTE live);
  ac_local_used : s.(local_used) = held LOCAL live;
  ac_remote_used : s.(remote_used) = held REMOTE live;
  ac_sizes : Forall (fun h => 0 <= h.(h_nbytes)) live;
  ac_peak : s.(local_used) <= s.(peak_local_used) /\ s.(remote_used) <= s.(peak_remote_used);
  ac_written : s.(local_used) + s.(remote_used) <= s.(bytes_written);
}.

(** Two stores that agree on what [accounts] reads of finished buckets. *)
Definition same_buckets (s s' : store) : Prop :=
  s'.(local_paths) = s.(local_paths) /\ s'.(remote_paths) = s.(remote_paths) /\ s'.(local_used) = s.(local_used) /\
  s'.(remote_used) = s.(remote_used) /\ s'.(peak_local_used) = s.(peak_local_used) /\
  s'.(peak_remote_used) = s.(peak_remote_used) /\ s'.(bytes_written) = s.(bytes_written).

Lemma accounts_move s s' ws i x y live :
  accounts s ws live -> ws !! i = Some x -> same_buckets s s' -> s.(open_writers) ⊆ s'.(open_writers) ->
  s'.(local_pending) = s.(local_pending) + charge y - charge x -> 0 <= y.(w_pending) ->
  (y.(w_pending) <> 0 -> i ∈ s'.(open_writers)) ->
  accounts s' (<[i := y]> ws) live.
Proof.
  intros [] Hx (E1 & E2 & E3 & E4 & E5 & E6 & E7) Ho Hp Hy Hoy. split; rewrite ?E1, ?E2, ?E3, ?E4, ?E5, ?E6, ?E7; try done.
  - rewrite pending_sum_insert, Hx. lia.
  - intros j z [[<- <-]|[Hj Hz]]%lookup_insert_Some; eauto.
  - intros j z [[<- <-]|[Hj Hz]]%lookup_insert_Some; eauto.
Qed.

Lemma accounts_writer s ws i x y live :
  accounts s ws live -> ws !! i = Some x -> charge y = charge x -> y.(w_pending) = x.(w_pending) -> accounts s (<[i := y]> ws) live.
Proof.
  intros Ha Hx Hc Hp. eapply accounts_move; [done..|lia| |].
  - rewrite Hp. by eapply ac_nonneg.
  - rewrite Hp. by eapply ac_open.
Qed.

(** ** What each operation on a writer leaves *)

Lemma wp_open_remote i uri x s ws lf rf sc : ws !! i = Some x ->
  let p := bucket_path uri x.(w_name) in
  wp (open_remote (row := row) i uri) (fun r w' => exists sc',
    match r with
    | Ok _ => w' = World (set_overflowed s (s.(overflowed) + 1)) (<[i := with_target x (Some REMOTE) (Some p) true true]> ws) lf (<[p := []]> rf) sc'
    | Raise _ => w' = World s (<[i := with_target x (Some REMOTE) (Some p) x.(w_fh) x.(w_writer)]> ws) lf rf sc'
    end) (World s ws lf rf sc).
Proof.
  intros Hx p. unfold open_remote. wp_run; simplify_eq; try (by eexists). eexists. by rewrite insert_insert_eq.
Qed.

Lemma wp_open_local i x s ws lf rf sc : ws !! i = Some x ->
  let p := bucket_path s.(local_dir) x.(w_name) in
  wp (open_local (row := row) i) (fun r w' => exists sc',
    match r with
    | Ok _ => w' = World s (<[i := with_target x (Some LOCAL) (Some p) true true]> ws) (<[p := []]> lf) rf sc'
    | Raise _ => w' = World s (<[i := with_target x (Some LOCAL) (Some p) x.(w_fh) x.(w_writer)]> ws) lf rf sc'
    end) (World s ws lf rf sc).
Proof.
  intros Hx p. unfold open_local. wp_run; simplify_eq; try (by eexists). eexists. by rewrite insert_insert_eq.
Qed.

(** The path of a bucket on a tier. *)
Definition tier_path (s : store) (t : tier) (name : string) : option string :=
  match t with
  | LOCAL => Some (bucket_path s.(local_dir) name)
  | REMOTE => uri ← s.(remote_uri); Some (bucket_path uri name)
  end.

(** The bucket's file is opened empty on one of the tiers, or no file is touched. *)
Definition opened (i : nat) (x : writer) (s : store) (ws : gmap nat writer) (lf rf : gmap string (list (batch row)))
    (r : res unit) (w' : world row) : Prop :=
  exists t p sc', tier_path s t x.(w_name) = Some p /\
    match r with
    | Ok _ => w' = World (match t with LOCAL => s | REMOTE => set_overflowed s (s.(overflowed) + 1) end)
                (<[i := with_target x (Some t) (Some p) true true]> ws)
                (match t with LOCAL => <[p := []]> lf | REMOTE => lf end)
                (match t with LOCAL => rf | REMOTE => <[p := []]> rf end) sc'
    | Raise _ => w' = World s (<[i := with_target x (Some t) (Some p) x.(w_fh) x.(w_writer)]> ws) lf rf sc'
    end.

Lemma wp_open i x s ws lf rf sc : ws !! i = Some x ->
  wp (open_ (row := row) i) (opened i x s ws lf rf) (World s ws lf rf sc).
Proof.
  intros Hx. unfold open_. do 2 wp_step.
  assert (forall sc, wp (open_local (row := row) i) (opened i x s ws lf rf) (World s ws lf rf sc)) as HL.
  { intros sc0. eapply wp_mono; [by apply wp_open_local|]. intros r w' [sc' E]. by exists LOCAL, (bucket_path s.(local_dir) x.(w_name)), sc'. }
  destruct s.(remote_uri) as [uri|] eqn:Eu; [|apply HL].
  assert (forall sc, wp (open_remote (row := row) i uri) (opened i x s ws lf rf) (World s ws lf rf sc)) as HR.
  { intros sc0. eapply wp_mono; [by apply wp_open_remote|]. intros r w' [sc' E]. exists REMOTE, (bucket_path uri x.(w_name)), sc'.
    split; [cbn; by rewrite Eu|done]. }
  destruct (match local_budget s with Some b => _ | None => _ end); [apply HR|].
  unfold local_disk_low. do 4 wp_step. destruct e; auto.
Qed.

(** [bs] appended to the file a writer streams to. *)
Definition appended (t : tier) (p : string) (bs : list (batch row)) (t' : tier) (fs : gmap string (list (batch row))) :=
  if decide (t = t') then alter (fun old => old ++ bs) p fs else fs.

Lemma appended_nil t p t' fs : appended t p [] t' fs = fs.
Proof.
  unfold appended. case_decide; [|done]. apply map_eq. intros q. destruct (decide (q = p)) as [->|].
  - rewrite lookup_alter_eq. destruct (fs !! p); cbn; by rewrite ?app_nil_r.
  - by rewrite lookup_alter_ne.
Qed.

Lemma appended_app t p bs bs' t' fs : appended t p bs' t' (appended t p bs t' fs) = appended t p (bs ++ bs') t' fs.
Proof.
  unfold appended. case_decide; [|done]. apply map_eq. intros q. destruct (decide (q = p)) as [->|].
  - rewrite !lookup_alter_eq. destruct (fs !! p); cbn; by rewrite ?app_assoc.
  - by rewrite !lookup_alter_ne.
Qed.

Lemma wp_write_batch i b x t p s ws lf rf sc : ws !! i = Some x -> x.(w_tier) = Some t -> x.(w_path) = Some p ->
  wp (write_batch (row := row) i b) (fun r w' => exists e sc', r = Ok e /\
    let bs := match e with Fine => [b] | _ => [] end in
    w' = World s ws (appended t p bs LOCAL lf) (appended t p bs REMOTE rf) sc') (World s ws lf rf sc).
Proof.
  intros Hx Ht Hp. unfold write_batch. wp_step. wp_step; [|congruence]. wp_step. wp_step. simplify_eq. rewrite Ht, Hp.
  destruct e; wp_run; eexists _, _; (split; [done|]); rewrite ?appended_nil; try done. unfold appended. by destruct t.
Qed.

Lemma wp_copy_batches i x p bs : forall s ws lf rf sc, ws !! i = Some x -> x.(w_tier) = Some REMOTE -> x.(w_path) = Some p ->
  wp (copy_batches (row := row) i bs) (fun r w' => exists done sc',
    w' = World s ws lf (appended REMOTE p done REMOTE rf) sc' /\
    match r with Ok n => done = bs /\ n = total_rows bs | Raise _ => True end) (World s ws lf rf sc).
Proof.
  induction bs as [|b bs IH]; intros s ws lf rf sc Hx Ht Hp; cbn.
  - wp_run. exists [], sc. by rewrite appended_nil.
  - wp_step. eapply wp_mono; [by eapply wp_write_batch|]. cbn. intros r w' (e & sc' & -> & ->).
    change (appended REMOTE p _ LOCAL lf) with lf. destruct e; try (wp_run; by eexists _, _).
    wp_step. eapply wp_mono; [by eapply IH|]. cbn. intros [n|err] w' (done & sc2 & -> & E).
    + destruct E as [-> ->]. wp_run. exists (b :: bs), sc2. split; [|done]. by rewrite appended_app.
    + exists (b :: done), sc2. split; [|done]. by rewrite appended_app.
Qed.

Lemma wp_copy_stream i x p path s ws lf rf sc : ws !! i = Some x -> x.(w_tier) = Some REMOTE -> x.(w_path) = Some p ->
  wp (copy_stream_to_current (row := row) i path) (fun r w' => exists done sc',
    w' = World s ws lf (appended REMOTE p done REMOTE rf) sc' /\
    match r with
    | Ok n => n = total_rows done /\ exists bs, lf !! path = Some bs /\ done `prefix_of` bs
    | Raise _ => True
    end) (World s ws lf rf sc).
Proof.
  intros Hx Ht Hp. unfold copy_stream_to_current. do 4 wp_step.
  assert (forall sc, wp (raise (A := Z) "OSError") (fun r w' => exists done sc',
    w' = World s ws lf (appended REMOTE p done REMOTE rf) sc' /\
    match r with Ok n => n = total_rows done /\ exists bs, lf !! path = Some bs /\ done `prefix_of` bs | Raise _ => True end)
    (World s ws lf rf sc)) as Hraise by (intros; wp_run; exists []; eexists; by rewrite appended_nil).
  destruct (lf !! path) as [bs|] eqn:El; [|apply Hraise]. destruct e; try apply Hraise.
  - eapply wp_mono; [by eapply wp_copy_batches|]. cbn. intros [n|err] w' (done & sc2 & -> & E); [destruct E as [-> ->]|]; eauto 10.
  - eapply wp_mono; [by eapply wp_copy_batches|]. cbn. intros [m|err] w' (done & sc2 & -> & E); [destruct E as [-> ->]|]; [|eauto 10].
    eexists _, _. split; [done|]. split; [done|]. exists bs. split; [done|]. exists (drop n bs). by rewrite take_drop.
Qed.

(** Only the files a bucket of this name can have are touched. *)
Definition elsewhere (s : store) (name : string) (lf rf lf' rf' : gmap string (list (batch row))) : Prop :=
  delete (bucket_path s.(local_dir) name) lf' = delete (bucket_path s.(local_dir) name) lf /\
  match s.(remote_uri) with
  | Some uri => delete (bucket_path uri name) rf' = delete (bucket_path uri name) rf
  | None => rf' = rf
  end.

Lemma elsewhere_refl s name lf rf : elsewhere s name lf rf lf rf.
Proof. unfold elsewhere. by destruct (remote_uri s). Qed.

Lemma elsewhere_trans s name lf rf lf1 rf1 lf2 rf2 :
  elsewhere s name lf rf lf1 rf1 -> elsewhere s name lf1 rf1 lf2 rf2 -> elsewhere s name lf rf lf2 rf2.
Proof. unfold elsewhere. destruct (remote_uri s); intros [] []; split; congruence. Qed.

(** The parts of a store that writing a bucket leaves alone. *)
Definition same_store (s s' : store) : Prop :=
  same_buckets s s' /\ s'.(open_writers) = s.(open_writers) /\ s'.(local_dir) = s.(local_dir) /\ s'.(remote_uri) = s.(remote_uri).

#[local] Instance same_store_preorder : PreOrder same_store.
Proof. unfold same_store, same_buckets. split; [done|]. intros s1 s2 s3 H1 H2. naive_solver congruence. Qed.

Lemma wp_remove_partial t p s ws lf rf sc :
  wp (remove_partial (row := row) t p) (fun r w' => r = Ok tt /\ exists lf' rf' sc', w' = World s ws lf' rf' sc' /\
    (lf' = lf \/ t = Some LOCAL /\ lf' = delete p lf) /\ (rf' = rf \/ t = Some REMOTE /\ rf' = delete p rf)) (World s ws lf rf sc).
Proof.
  unfold remove_partial. do 2 wp_step.
  destruct e, t as [[]|]; wp_run; (split; [done|]); eexists _, _, _; (split; [done|]); auto.
Qed.

(** What carrying a bucket over leaves: the bucket whole on the remote tier, the bucket back on
    the local tier with its charge, or, when the remote tier refuses, a writer to abort. *)
Definition carried (i : nat) (x : writer) (s : store) (ws : gmap nat writer) (lf rf : gmap string (list (batch row)))
    (lp : string) (r : res bool) (w' : world row) : Prop :=
  exists uri s' lf' rf' sc', s.(remote_uri) = Some uri /\ same_store s s' /\ 
    let rp := bucket_path uri x.(w_name) in
    match r with
    | Ok true => exists bs done, lf !! lp = Some bs /\ done `prefix_of` bs /\ total_rows done = x.(w_rows) /\
        (lf' = lf \/ lf' = delete lp lf) /\ rf' = <[rp := done]> rf /\ s'.(local_pending) = s.(local_pending) - x.(w_pending) /\
        w' = World s' (<[i := with_target x (Some REMOTE) (Some rp) true true]> ws) lf' rf' sc'
    | Ok false => lf' = lf /\ delete rp rf' = delete rp rf /\ s'.(local_pending) = s.(local_pending) /\
        w' = World s' (<[i := with_target x (Some LOCAL) (Some lp) false false]> ws) lf' rf' sc'
    | Raise _ => exists fh wr, lf' = lf /\ delete rp rf' = delete rp rf /\ s'.(local_pending) = s.(local_pending) - x.(w_pending) /\
        w' = World s' (<[i := with_target x (Some REMOTE) (Some rp) fh wr]> ws) lf' rf' sc'
    end.

Lemma wp_failover i x s ws lf rf sc : ws !! i = Some x ->
  wp (failover_to_remote (row := row) i) (fun r w' =>
    match x.(w_tier), x.(w_path) with
    | Some LOCAL, Some lp => carried i x s ws lf rf lp r w' \/ r = Ok false /\ s.(remote_uri) = None /\ exists sc', w' = World s ws lf rf sc'
    | _, _ => r = Ok false /\ exists sc', w' = World s ws lf rf sc'
    end) (World s ws lf rf sc).
Proof.
  intros Hx. unfold failover_to_remote. wp_step. wp_step; [|congruence]. simplify_eq. wp_step. wp_step.
  destruct (w_tier x) as [[]|] eqn:Et, (w_path x) as [lp|] eqn:Ep, (remote_uri s) as [uri|] eqn:Eu;
    try (wp_run; eauto; fail).
  set (s1 := set_pending s _). set (x1 := with_streams x false false). set (rp := bucket_path uri x.(w_name)).
  do 5 wp_step. eapply wp_mono; [apply (wp_open_remote i uri x1); by rewrite lookup_insert_eq|]. cbn beta zeta.
  rewrite !insert_insert_eq. change (w_name x1) with (w_name x). fold rp. intros [[]|err] w' [sc' ->].
  2: { left. exists uri, s1, lf, rf, sc'. split_and!; try done. exists false, false. by split_and!. }
  set (s2 := set_overflowed s1 _). set (x2 := with_target x1 _ _ _ _). wp_step.
  eapply wp_mono; [apply (wp_copy_stream i x2 rp lp); [by rewrite lookup_insert_eq|done..]|]. cbn beta.
  intros [n|err] w' (done & sc2 & -> & E).
  all: assert (appended REMOTE rp done REMOTE (<[rp := []]> rf) = <[rp := done]> rf) as ->
    by (unfold appended; rewrite decide_True by done; by rewrite alter_insert_eq).
  2: { left. exists uri, s2, lf, (<[rp := done]> rf), sc2. split_and!; try done. exists true, true. split_and!; try done. by rewrite delete_insert_eq. }
  destruct E as (-> & bs & El & Hpre). destruct (Z.eqb_spec (total_rows done) (w_rows x)) as [Er|Er].
  - wp_run; left; eexists uri, s2, _, _, _; (split_and!; [done..|]); exists bs, done; (split_and!; [done|done|done| |done|done|done]); auto.
  - do 2 wp_step; [|rewrite lookup_insert_eq in *; done]. rewrite lookup_insert_eq in *. simplify_eq. cbn. wp_step. wp_step. wp_step.
    eapply wp_mono; [apply wp_remove_partial|]. cbn beta. intros r w' (-> & lf' & rf' & sc3 & -> & [->|[? ?]] & Hrf); [|done].
    wp_run. rewrite !insert_insert_eq. left.
    exists uri, (set_pending s2 (local_pending s2 + w_pending x)), lf, rf', sc3. split; [done|]. split; [by unfold same_store, same_buckets|]. split; [done|]. split; [|split; [cbn; lia|done]].
    destruct Hrf as [->|[_ ->]]; by rewrite ?delete_delete_eq, delete_insert_eq.
Qed.

(** ** Writing a batch *)

Definition files (t : tier) (lf rf : gmap string (list (batch row))) := match t with LOCAL => lf | REMOTE => rf end.
Definition nonempty (b : batch row) : Prop := 0 < num_rows b.
Definition solid (b : batch row) : list (batch row) := if num_rows b =? 0 then [] else [b].

(** A writer whose stream is open holds its batches in its file. *)
Definition live_stream (s : store) (lf rf : gmap string (list (batch row))) (x : writer) (done : list (batch row)) : Prop :=
  x.(w_writer) = true /\ exists t p, x.(w_tier) = Some t /\ x.(w_path) = Some p /\ tier_path s t x.(w_name) = Some p /\
    files t lf rf !! p = Some done.

Record streaming (s : store) (lf rf : gmap string (list (batch row))) (x : writer) (done : list (batch row)) : Prop := {
  sm_handle : x.(w_handle) = None;
  sm_rows : x.(w_rows) = total_rows done;
  sm_solid : Forall nonempty done;
  sm_stream : live_stream s lf rf x done \/ x.(w_writer) = false /\ done = [] /\ x.(w_pending) = 0;
}.

Lemma total_rows_app (l l' : list (batch row)) : total_rows (l ++ l') = total_rows l + total_rows l'.
Proof. induction l as [|b l IH]; cbn; [done|]. rewrite IH. lia. Qed.

Lemma total_rows_pos (l : list (batch row)) : Forall nonempty l -> 0 <= total_rows l /\ (total_rows l = 0 -> l = []).
Proof. unfold nonempty. induction 1 as [|b l Hb _ [IH1 IH2]]; cbn; [done|]. split; [lia|]. intros. lia. Qed.

(** A prefix with all the rows is the whole. *)
Lemma prefix_whole (done bs : list (batch row)) : Forall nonempty bs -> done `prefix_of` bs -> total_rows done = total_rows bs -> done = bs.
Proof.
  intros Hs [k ->] E. rewrite total_rows_app in E. apply Forall_app in Hs as [_ Hk].
  destruct (total_rows_pos k Hk) as [_ Hz]. rewrite Hz by lia. by rewrite app_nil_r.
Qed.

(** A writer's path is that of its name on its tier. *)
Definition placed (s : store) (x : writer) : Prop :=
  match x.(w_path) with Some p => exists t, x.(w_tier) = Some t /\ tier_path s t x.(w_name) = Some p | None => True end.

(** What an operation on writer [i] leaves, whatever its outcome. *)
Record touched (i : nat) (x : writer) (s : store) (ws : gmap nat writer) (lf rf : gmap string (list (batch row)))
    (live : list handle) (w' : world row) (x' : writer) : Prop := {
  tc_writers : w'.(writers) = <[i := x']> ws;
  tc_name : x'.(w_name) = x.(w_name);
  tc_handle : x'.(w_handle) = None;
  tc_store : same_store s w'.(st);
  tc_elsewhere : elsewhere s x.(w_name) lf rf w'.(local_fs) w'.(remote_fs);
  tc_accounts : accounts w'.(st) w'.(writers) live;
  tc_placed : placed s x';
}.

Lemma live_placed s lf rf x done : live_stream s lf rf x done -> placed s x.
Proof. intros (_ & t & p & Ht & Hp & Hpath & _). unfold placed. rewrite Hp. eauto. Qed.

Lemma placed_same s s' x : same_store s s' -> placed s x <-> placed s' x.
Proof.
  intros (_ & _ & Ed & Eu). unfold placed, tier_path. destruct (w_path x); [|done].
  split; intros (t & Ht & Hp); exists t; (split; [done|]); destruct t; congruence.
Qed.

Lemma wp_charge_batch i b x s ws lf rf sc live done :
  ws !! i = Some x -> i ∈ s.(open_writers) -> accounts s ws live -> nonempty b ->
  x.(w_handle) = None -> x.(w_rows) = total_rows done -> Forall nonempty done -> live_stream s lf rf x (done ++ [b]) ->
  wp (charge_batch (row := row) i b) (fun r w' => r = Ok tt /\ exists x', touched i x s ws lf rf live w' x' /\
    streaming w'.(st) w'.(local_fs) w'.(remote_fs) x' (done ++ [b]) /\
    (x'.(w_pending), x'.(w_seen)) = (x.(w_pending) + (charged_bytes x.(w_seen) b).1, (charged_bytes x.(w_seen) b).2))
  (World s ws lf rf sc).
Proof.
  intros Hx Ho Ha Hb Hh Hr Hd Hs. unfold charge_batch. wp_step. wp_step; [|congruence]. simplify_eq.
  assert (0 <= (charged_bytes x.(w_seen) b).1) as Hc by (unfold charged_bytes; destruct (foldl _ _ _); cbn; lia).
  destruct (charged_bytes (w_seen x) b) as [c seen] eqn:Ec. cbn in Hc. pose proof (ac_nonneg _ _ _ Ha i x Hx) as Hn.
  set (x' := with_charge x _ _ _). do 2 wp_step.
  assert (streaming s lf rf x' (done ++ [b])) as Hst.
  { split; [done|cbn; rewrite total_rows_app, Hr; cbn; lia|apply Forall_app; by repeat constructor|by left]. }
  destruct (w_tier x) as [[]|] eqn:Et; wp_run; (split; [done|]); exists x'; (split; [split|]); cbn; try done;
    try exact (live_placed _ _ _ _ _ Hs); try apply elsewhere_refl; try (eapply accounts_move; eauto; try done; unfold charge; cbn; rewrite ?Et; lia).
  split; [|done]. by destruct Hst; split.
Qed.

Lemma touched_trans i x x1 x2 s ws lf rf live w1 w2 :
  touched i x s ws lf rf live w1 x1 ->
  touched i x1 w1.(st) w1.(writers) w1.(local_fs) w1.(remote_fs) live w2 x2 -> touched i x s ws lf rf live w2 x2.
Proof.
  intros [A1 A2 A3 A4 A5 A6 A7] [B1 B2 B3 B4 B5 B6 B7]. split; [by rewrite B1, A1, insert_insert_eq|congruence|done| | |done|].
  - by transitivity (st w1).
  - eapply elsewhere_trans; [done|]. rewrite A2 in B5. destruct A4 as (_ & _ & Ed & Eu). unfold elsewhere in *. by rewrite Ed, Eu in B5.
  - by rewrite (placed_same _ _ _ A4).
Qed.

(** Opening the file keeps the accounts of a writer with nothing charged. *)
Lemma opened_touched i x s ws lf rf live r w' :
  ws !! i = Some x -> accounts s ws live -> x.(w_pending) = 0 -> x.(w_handle) = None -> opened i x s ws lf rf r w' ->
  exists x', touched i x s ws lf rf live w' x' /\ x'.(w_rows) = x.(w_rows) /\ x'.(w_pending) = 0 /\ x'.(w_seen) = x.(w_seen) /\
    match r with Ok _ => live_stream w'.(st) w'.(local_fs) w'.(remote_fs) x' [] | Raise _ => True end.
Proof.
  intros Hx Ha Hp Hh (t & p & sc' & Ht & Hr).
  assert (forall s' fh wr, same_store s s' -> s'.(local_pending) = s.(local_pending) ->
    accounts s' (<[i := with_target x (Some t) (Some p) fh wr]> ws) live) as Hacc.
  { intros s' fh wr (Hs & Ho & _) Hl. eapply accounts_move; [done..|by rewrite Ho| |cbn; lia|cbn; lia].
    unfold charge. cbn. destruct t, (w_tier x) as [[]|]; lia. }
  assert (elsewhere s x.(w_name) lf rf (match t with LOCAL => <[p := []]> lf | REMOTE => lf end)
    (match t with LOCAL => rf | REMOTE => <[p := []]> rf end)) as He.
  { unfold elsewhere. destruct t; cbn in Ht; [injection Ht as <-; rewrite delete_insert_eq; by destruct (remote_uri s)|].
    destruct (remote_uri s); [|done]. cbn in Ht. injection Ht as <-. by rewrite delete_insert_eq. }
  destruct r as [[]|e]; subst w'; eexists; (split; [split; try done|]); cbn; try apply elsewhere_refl; try (by apply Hacc); try (by exists t).
  - destruct t; cbn; [done|]. by unfold same_store, same_buckets.
  - apply Hacc; by destruct t.
  - split_and!; [done..|]. split; [done|]. exists t, p. split_and!; try done; destruct t; cbn; try done; by rewrite lookup_insert_eq.
  - by split_and!.
Qed.

Lemma lookup_appended t p bs lf rf done :
  files t lf rf !! p = Some done -> files t (appended t p bs LOCAL lf) (appended t p bs REMOTE rf) !! p = Some (done ++ bs).
Proof. intros Hf. destruct t; cbn [files] in *; unfold appended; rewrite decide_True by done; by rewrite lookup_alter_eq, Hf. Qed.

Lemma elsewhere_appended t p bs s name lf rf :
  tier_path s t name = Some p -> elsewhere s name lf rf (appended t p bs LOCAL lf) (appended t p bs REMOTE rf).
Proof.
  intros Ht. unfold elsewhere. destruct t; cbn in Ht.
  - injection Ht as <-. change (appended LOCAL _ bs REMOTE rf) with rf. change (appended LOCAL ?p bs LOCAL lf) with (alter (fun old => old ++ bs) p lf).
    rewrite delete_alter_eq. by destruct (remote_uri s).
  - destruct (remote_uri s); [|done]. cbn in Ht. injection Ht as <-. change (appended REMOTE _ bs LOCAL lf) with lf.
    change (appended REMOTE ?p bs REMOTE rf) with (alter (fun old => old ++ bs) p rf). by rewrite delete_alter_eq.
Qed.

Definition same_charge (x x' : writer) : Prop :=
  x'.(w_rows) = x.(w_rows) /\ x'.(w_pending) = x.(w_pending) /\ x'.(w_seen) = x.(w_seen).

Lemma carried_touched i x s ws lf rf live lp done r w' :
  ws !! i = Some x -> i ∈ s.(open_writers) -> accounts s ws live -> x.(w_handle) = None ->
  x.(w_rows) = total_rows done -> Forall nonempty done -> x.(w_tier) = Some LOCAL ->
  lp = bucket_path s.(local_dir) x.(w_name) -> lf !! lp = Some done -> carried i x s ws lf rf lp r w' ->
  exists x', touched i x s ws lf rf live w' x' /\ same_charge x x' /\
    match r with Ok true => live_stream w'.(st) w'.(local_fs) w'.(remote_fs) x' done | _ => True end.
Proof.
  intros Hx Ho Ha Hh Hr Hd Ht -> Hf (uri & s2 & lf2 & rf2 & sc2 & Hu & Hs2 & Hc). cbv zeta in Hc.
  pose proof (ac_nonneg _ _ _ Ha i x Hx) as Hn. pose proof Hs2 as (Hs3 & Ho2 & Hd2 & Hu2).
  assert (forall t' p fh wr, s2.(local_pending) = s.(local_pending) + (match t' with LOCAL => 0 | REMOTE => - x.(w_pending) end) ->
    accounts s2 (<[i := with_target x (Some t') p fh wr]> ws) live) as Hacc.
  { intros t' p fh wr Hl. eapply accounts_move; [done..|by rewrite Ho2| |done|by rewrite Ho2].
    unfold charge. cbn. rewrite Ht. destruct t'; lia. }
  destruct r as [[]|e].
  - destruct Hc as (bs & done' & Hl & Hpre & Htot & Hlf & -> & Hp & ->). rewrite Hf in Hl. injection Hl as <-.
    apply prefix_whole in Hpre as ->; [|done|congruence]. eexists. split; [split; cbn; try done|split; [done|]].
    2: { apply Hacc. lia. }
    2: { exists REMOTE. split; [done|]. cbn. by rewrite Hu. }
    + unfold elsewhere. rewrite Hu, delete_insert_eq. split; [|done]. destruct Hlf as [->| ->]; [done|by rewrite delete_delete_eq].
    + split; [done|]. eexists REMOTE, _. split_and!; [done..| |cbn; by rewrite lookup_insert_eq]. cbn. by rewrite Hu2, Hu.
  - destruct Hc as (-> & Hrf & Hp & ->). eexists. split; [split; cbn; try done|split; done].
    + unfold elsewhere. by rewrite Hu.
    + apply Hacc. lia.
    + by exists LOCAL.
  - destruct Hc as (fh & wr & -> & Hrf & Hp & ->). eexists. split; [split; cbn; try done|split; done].
    + unfold elsewhere. by rewrite Hu.
    + apply Hacc. lia.
    + exists REMOTE. split; [done|]. cbn. by rewrite Hu.
Qed.

Lemma wp_stream_batch i b x s ws lf rf sc live done :
  ws !! i = Some x -> i ∈ s.(open_writers) -> accounts s ws live -> x.(w_handle) = None ->
  x.(w_rows) = total_rows done -> Forall nonempty done -> live_stream s lf rf x done ->
  wp (stream_batch (row := row) i b) (fun r w' => exists x', touched i x s ws lf rf live w' x' /\ same_charge x x' /\
    match r with Ok _ => live_stream w'.(st) w'.(local_fs) w'.(remote_fs) x' (done ++ [b]) | Raise _ => True end)
  (World s ws lf rf sc).
Proof.
  intros Hx Ho Ha Hh Hr Hd (Hw & t & p & Ht & Hp & Hpath & Hf). unfold stream_batch. wp_step.
  eapply wp_mono; [by eapply wp_write_batch|]. cbn beta zeta. intros r w' (e & sc' & -> & ->).
  assert (forall bs sc, touched i x s ws lf rf live (World s ws (appended t p bs LOCAL lf) (appended t p bs REMOTE rf) sc) x) as Hself.
  { intros bs sc0. split; cbn; try done; [by rewrite insert_id|by apply elsewhere_appended|]. unfold placed. rewrite Hp. eauto. }
  destruct e; try (wp_run; exists x; (split; [apply Hself|]); done).
  - wp_run. exists x. split; [apply Hself|]. split; [done|]. split; [done|]. exists t, p. split_and!; try done. by apply lookup_appended.
  - rewrite !appended_nil. wp_step. eapply wp_mono; [by apply wp_failover|]. cbn beta. rewrite Ht, Hp. intros r w' Hc.
    specialize (Hself []). rewrite !appended_nil in Hself. destruct t; [|destruct Hc as (-> & sc2 & ->); wp_run; exists x; by split].
    destruct Hc as [Hc|(-> & _ & sc2 & ->)]; [|wp_run; exists x; by split].
    cbn in Hpath, Hf. injection Hpath as <-. destruct (carried_touched i x s ws lf rf live (bucket_path (local_dir s) (w_name x)) done r w') as (x1 & H1 & H2 & H3); [done..|].
    destruct r as [[]|err]; [|wp_run; eauto|eauto]. destruct w' as [s1 ws1 lf1 rf1 sc1]. cbn in H3.
    destruct H3 as (Hw1 & t1 & p1 & Ht1 & Hp1 & Hpath1 & Hf1). wp_step.
    pose proof (tc_writers _ _ _ _ _ _ _ _ _ H1) as Ew. cbn in Ew.
    eapply wp_mono; [eapply (wp_write_batch i b x1); [by rewrite Ew, lookup_insert_eq|done..]|]. cbn beta zeta. intros r w' (e & sc3 & -> & ->).
    assert (forall bs sc, touched i x s ws lf rf live (World s1 ws1 (appended t1 p1 bs LOCAL lf1) (appended t1 p1 bs REMOTE rf1) sc) x1) as Hself1.
    { intros bs sc0. eapply touched_trans; [exact H1|]. destruct H1. cbn in *. split; cbn; try done; [by rewrite Ew, insert_insert_eq|by apply elsewhere_appended|]. unfold placed. rewrite Hp1. eauto. }
    destruct e; wp_run; exists x1; (split; [apply Hself1|]); (split; [done|]); try done.
    split; [done|]. exists t1, p1. split_and!; try done. by apply lookup_appended.
Qed.

(** [write] charges and appends a batch with rows, or leaves a writer to abort. *)
Lemma wp_write i b x s ws lf rf sc live done :
  ws !! i = Some x -> i ∈ s.(open_writers) -> accounts s ws live -> streaming s lf rf x done -> placed s x ->
  wp (write (row := row) i b) (fun r w' => exists x', touched i x s ws lf rf live w' x' /\
    match r with
    | Ok _ => streaming w'.(st) w'.(local_fs) w'.(remote_fs) x' (done ++ solid b) /\
        (x'.(w_pending), x'.(w_seen)) =
          if num_rows b =? 0 then (x.(w_pending), x.(w_seen))
          else (x.(w_pending) + (charged_bytes x.(w_seen) b).1, (charged_bytes x.(w_seen) b).2)
    | Raise _ => True
    end) (World s ws lf rf sc).
Proof.
  intros Hx Ho Ha Hs Hpl. unfold write, solid. destruct (Z.eqb_spec (num_rows b) 0) as [Hb|Hb].
  { apply wp_ret. exists x. rewrite app_nil_r. split; [|done]. split; cbn; try done; [by rewrite insert_id|by destruct Hs|apply elsewhere_refl]. }
  assert (nonempty b) as Hne by (unfold nonempty, num_rows in *; lia).
  destruct Hs as [Hh Hr Hsol Hst]. wp_step. wp_step; [|congruence]. simplify_eq. wp_step.
  assert (forall x1 w1, touched i x s ws lf rf live w1 x1 -> same_charge x x1 ->
    live_stream w1.(st) w1.(local_fs) w1.(remote_fs) x1 done ->
    wp (stream_batch (row := row) i b ;;; charge_batch i b) (fun r w' => exists x', touched i x s ws lf rf live w' x' /\
    match r with
    | Ok _ => streaming w'.(st) w'.(local_fs) w'.(remote_fs) x' (done ++ [b]) /\
        (x'.(w_pending), x'.(w_seen)) = (x.(w_pending) + (charged_bytes x.(w_seen) b).1, (charged_bytes x.(w_seen) b).2)
    | Raise _ => True
    end) w1) as Hgo.
  { intros x1 [s1 ws1 lf1 rf1 sc1] Ht1 (E1 & E2 & E3) Hl1. pose proof Ht1 as [A1 A2 A3 A4 A5 A6 A7]. cbn in *. destruct A4 as (_ & Ao & _).
    wp_step. eapply wp_mono; [eapply (wp_stream_batch i b x1 _ _ _ _ _ live done); [by rewrite A1, lookup_insert_eq|by rewrite Ao|done|done|congruence|done|done]|].
    cbn beta. intros [[]|err] [s2 ws2 lf2 rf2 sc2] (x2 & Ht2 & (F1 & F2 & F3) & Hl2); [|exists x2; split; [by eapply touched_trans|done]].
    pose proof Ht2 as [B1 B2 B3 B4 B5 B6 B7]. cbn in *. destruct B4 as (_ & Bo & _).
    eapply wp_mono; [eapply (wp_charge_batch i b x2 _ _ _ _ _ live done); [by rewrite B1, lookup_insert_eq|by rewrite Bo, Ao|done|done|done|congruence|done|done]|].
    cbn beta. intros r w3 (-> & x3 & Ht3 & Hs3 & E). exists x3. split; [|by rewrite E, F2, F3, E2, E3].
    eapply touched_trans; [exact Ht1|]. eapply touched_trans; [exact Ht2|exact Ht3]. }
  assert (touched i x s ws lf rf live (World s ws lf rf sc) x) as Hself.
  { split; cbn; try done; [by rewrite insert_id|apply elsewhere_refl]. }
  destruct (w_writer x) eqn:Ew.
  - wp_step. destruct Hst as [Hst|[]]; [|congruence]. by apply (Hgo x).
  - destruct Hst as [[]|(_ & -> & Hp)]; [congruence|]. eapply wp_mono; [by apply wp_open|]. cbn beta. intros r w1 Hop.
    destruct (opened_touched i x s ws lf rf live r w1) as (x1 & T & E1 & E2 & E3 & Hl); [done..|].
    destruct r as [[]|err]; [|by exists x1]. apply (Hgo x1); [done| |done]. split_and!; congruence.
Qed.

(** ** Giving up on a bucket *)

Lemma accounts_discard s ws i live :
  accounts s ws live -> (forall x, ws !! i = Some x -> x.(w_pending) = 0) -> accounts (set_open s (s.(open_writers) ∖ {[i]})) ws live.
Proof.
  intros [] Hi. split; try done. cbn. intros j x Hx Hp. apply elem_of_difference. split; [eauto|].
  intros ->%elem_of_singleton. by apply Hp, Hi.
Qed.

(** The store after writer [i] left it. *)
Definition left_by (i : nat) (s s' : store) : Prop :=
  same_buckets s s' /\ s'.(open_writers) = s.(open_writers) ∖ {[i]} /\ s'.(local_dir) = s.(local_dir) /\ s'.(remote_uri) = s.(remote_uri).

Lemma elsewhere_removed s name t p lf rf lf' rf' : tier_path s t name = Some p ->
  (lf' = lf \/ Some t = Some LOCAL /\ lf' = delete p lf) -> (rf' = rf \/ Some t = Some REMOTE /\ rf' = delete p rf) ->
  elsewhere s name lf rf lf' rf'.
Proof.
  intros Hp Hl Hr. unfold elsewhere. destruct t; cbn in Hp.
  - injection Hp as <-. destruct Hr as [->|[? _]]; [|done]. split; [|by destruct (remote_uri s)].
    destruct Hl as [->|[_ ->]]; [done|by rewrite delete_delete_eq].
  - destruct (remote_uri s); [|done]. cbn in Hp. injection Hp as <-. destruct Hl as [->|[? _]]; [|done]. split; [done|].
    destruct Hr as [->|[_ ->]]; [done|by rewrite delete_delete_eq].
Qed.

Lemma wp_release_pending i x s ws lf rf sc : ws !! i = Some x ->
  wp (release_pending (row := row) i) (fun r w' => r = Ok tt /\
    w' = World (set_pending s (s.(local_pending) - charge x)) (<[i := with_charge x 0 x.(w_seen) x.(w_rows)]> ws) lf rf sc) (World s ws lf rf sc).
Proof.
  intros Hx. unfold release_pending, charge. wp_step. wp_step; [|congruence]. simplify_eq. wp_step. wp_step.
  destruct (w_tier x) as [[]|]; wp_run; split; try done; do 2 f_equal; destruct s; cbn; unfold set_pending; cbn; f_equal; lia.
Qed.

Lemma accounts_released s ws i x live : accounts s ws live -> ws !! i = Some x ->
  accounts (set_pending s (s.(local_pending) - charge x)) (<[i := with_charge x 0 x.(w_seen) x.(w_rows)]> ws) live.
Proof.
  intros Ha Hx. eapply accounts_move; [done..| |done|done]. unfold charge at 2. cbn. destruct (w_tier x) as [[]|]; lia.
Qed.

(** An abandoned writer: nothing charged, nothing open. *)
Definition idle (x : writer) : Prop := x.(w_pending) = 0 /\ x.(w_writer) = false /\ x.(w_handle) = None.

Lemma wp_abort i x s ws lf rf sc live :
  ws !! i = Some x -> accounts s ws live -> x.(w_handle) = None -> placed s x ->
  wp (abort (row := row) i) (fun r w' => r = Ok tt /\ exists x', w'.(writers) = <[i := x']> ws /\ idle x' /\ x'.(w_name) = x.(w_name) /\
    left_by i s w'.(st) /\ elsewhere s x.(w_name) lf rf w'.(local_fs) w'.(remote_fs) /\ accounts w'.(st) w'.(writers) live /\ placed s x')
  (World s ws lf rf sc).
Proof.
  intros Hx Ha Hh Hpl. unfold abort. wp_step. wp_step; [|congruence]. simplify_eq. rewrite Hh. wp_step.
  eapply wp_mono; [by apply wp_release_pending|]. cbn beta. intros r w' [-> ->]. set (s1 := set_pending s _). set (x1 := with_charge x _ _ _).
  wp_step. apply (wp_get_writer_at _ i x1); [by rewrite lookup_insert_eq|]. do 3 wp_step. rewrite insert_insert_eq.
  set (x2 := with_streams x1 false false). set (x3 := with_charge x2 (w_pending x2) (w_seen x2) 0).
  assert (accounts s1 (<[i := x3]> ws) live) as Ha3.
  { rewrite <- (insert_insert_eq ws i x3 x1). eapply accounts_writer; [by apply accounts_released|by rewrite lookup_insert_eq|done|done]. }
  assert (wp (match w_path x1 with Some p => remove_partial (row := row) (w_tier x1) p | None => ret tt end) (fun r w' => r = Ok tt /\ exists lf' rf' sc',
    w' = World s1 (<[i := x2]> ws) lf' rf' sc' /\ elsewhere s x.(w_name) lf rf lf' rf') (World s1 (<[i := x2]> ws) lf rf sc)) as Hrm.
  { unfold placed in Hpl. change (w_path x1) with (w_path x). change (w_tier x1) with (w_tier x). destruct (w_path x) as [p|].
    - destruct Hpl as (t & Ht & Hp). rewrite Ht. eapply wp_mono; [apply wp_remove_partial|]. cbn beta.
      intros r w' (-> & lf' & rf' & sc' & -> & Hl & Hr). split; [done|]. eexists _, _, _. split; [done|]. by eapply elsewhere_removed.
    - apply wp_ret. split; [done|]. eexists _, _, _. split; [done|]. apply elsewhere_refl. }
  eapply wp_mono; [exact Hrm|]. cbn beta. intros r w' (-> & lf' & rf' & sc' & -> & He).
  wp_step. apply (wp_get_writer_at _ i x2); [by rewrite lookup_insert_eq|]. do 2 wp_step. rewrite insert_insert_eq.
  unfold discard_writer. wp_run. split; [done|]. exists x3. cbn. split_and!; try done.
  apply (accounts_discard s1); [done|]. intros y. rewrite lookup_insert_eq. by intros [= <-].
Qed.

(** ** Finishing a bucket *)

Lemma on_tier_app t l l' : on_tier t (l ++ l') = on_tier t l ++ on_tier t l'.
Proof. apply List.filter_app. Qed.

Lemma tier_held_app t l l' : held t (l ++ l') = held t l + held t l'.
Proof. unfold held. rewrite on_tier_app. generalize (on_tier t l). intros k. induction k as [|h k IH]; cbn; lia. Qed.

Lemma accounts_finished s ws live h :
  accounts s ws live -> 0 <= h.(h_nbytes) -> accounts (record_bucket s h.(h_tier) h.(h_path) h.(h_nbytes)) ws (live ++ [h]).
Proof.
  intros [] Hn. destruct h as [[] p n l r]; split; cbn in *; rewrite ?on_tier_app, ?tier_held_app, ?map_app; unfold held, on_tier in *; cbn in *;
    rewrite ?(bool_decide_true (LOCAL = LOCAL)), ?(bool_decide_true (REMOTE = REMOTE)), ?(bool_decide_false (LOCAL = REMOTE)),
      ?(bool_decide_false (REMOTE = LOCAL)) by done; cbn; rewrite ?app_nil_r; try done; try lia; try (by apply Permutation_app_tail); apply Forall_app; split; [done| |done|]; by constructor.
Qed.

Lemma wp_on_closed t p written s ws lf rf sc :
  (forall n, written = Some n -> 0 <= n) ->
  wp (on_closed (row := row) ipc_bytes t p written) (fun r w' => exists sc',
    match r with
    | Ok nbytes => 0 <= nbytes /\ w' = World (record_bucket s t p nbytes) ws lf rf sc'
    | Raise _ => w' = World s ws lf rf sc'
    end) (World s ws lf rf sc).
Proof.
  intros Hw. unfold on_closed. wp_step.
  assert (forall sc, wp (measure (row := row) ipc_bytes t p) (fun r w' => exists sc', w' = World s ws lf rf sc' /\
    match r with Ok n => 0 <= n | Raise _ => True end) (World s ws lf rf sc)) as Hm.
  { intros sc0. unfold measure. do 4 wp_step. destruct (_ !! p); [destruct e|]; wp_run; eauto. }
  assert (wp (match written with Some n => if 0 <=? n then ret n else measure (row := row) ipc_bytes t p | None => measure ipc_bytes t p end)
    (fun r w' => exists sc', w' = World s ws lf rf sc' /\ match r with Ok n => 0 <= n | Raise _ => True end) (World s ws lf rf sc)) as Hn.
  { destruct written as [n|]; [|apply Hm]. destruct (0 <=? n) eqn:E; [|apply Hm]. apply wp_ret. eauto. }
  eapply wp_mono; [exact Hn|]. cbn beta. intros [n|e] w' (sc' & -> & Hn'); [|eauto]. wp_run. eauto.
Qed.

Lemma wp_finish_stream i x s ws lf rf sc : ws !! i = Some x ->
  wp (finish_stream (row := row) ipc_bytes i) (fun r w' => (exists sc', w' = World s ws lf rf sc') /\
    match r with Ok written => forall n, written = Some n -> 0 <= n | Raise _ => True end) (World s ws lf rf sc).
Proof.
  intros Hx. unfold finish_stream. wp_step. apply (wp_get_writer_at _ i x); [done|].
  do 2 wp_step. destruct e; try (wp_run; eauto; fail). do 3 wp_step.
  assert (forall wr sc, (forall n, wr = Some n -> 0 <= n) -> wp (e3 <- ask;; match e3 with Fine => ret wr | _ => raise "OSError" end)
    (fun r w' => (exists sc', w' = World s ws lf rf sc') /\ match r with Ok written => forall n, written = Some n -> 0 <= n | Raise _ => True end)
    (World s ws lf rf sc)) as Hfin by (intros wr sc0 Hwr; wp_run; eauto).
  destruct e, (w_tier x) as [t|], (w_path x) as [p|]; wp_step; try (by apply Hfin).
  do 2 wp_step. apply Hfin. intros n. destruct (_ !! p); cbn; [|done]. intros [= <-]. apply ipc_nonneg.
Qed.

(** What [close] leaves of an unfinished writer. *)
Definition finished (i : nat) (x : writer) (s : store) (ws : gmap nat writer) (lf rf : gmap string (list (batch row)))
    (live : list handle) (r : res (option handle)) (w' : world row) : Prop :=
  exists x', w'.(writers) = <[i := x']> ws /\ x'.(w_name) = x.(w_name) /\ x'.(w_pending) = 0 /\ x'.(w_writer) = false /\ placed s x' /\
    w'.(st).(open_writers) = s.(open_writers) ∖ {[i]} /\ w'.(st).(local_dir) = s.(local_dir) /\ w'.(st).(remote_uri) = s.(remote_uri) /\
    match r with
    | Ok (Some h) => x'.(w_handle) = Some h /\ x.(w_writer) = true /\ Some h.(h_tier) = x.(w_tier) /\ Some h.(h_path) = x.(w_path) /\
        h.(h_num_rows) = x.(w_rows) /\ h.(h_logical_nbytes) = x.(w_pending) /\
        w'.(local_fs) = lf /\ w'.(remote_fs) = rf /\ accounts w'.(st) w'.(writers) (live ++ [h])
    | Ok None => x'.(w_handle) = None /\ x.(w_writer) = false /\ w'.(local_fs) = lf /\ w'.(remote_fs) = rf /\ accounts w'.(st) w'.(writers) live
    | Raise _ => x'.(w_handle) = None /\ elsewhere s x.(w_name) lf rf w'.(local_fs) w'.(remote_fs) /\ accounts w'.(st) w'.(writers) live
    end.

Lemma wp_close i x s ws lf rf sc live :
  ws !! i = Some x -> accounts s ws live -> x.(w_handle) = None -> placed s x ->
  (x.(w_writer) = true -> is_Some x.(w_path)) -> (x.(w_writer) = false -> x.(w_pending) = 0) ->
  wp (close (row := row) ipc_bytes i) (finished i x s ws lf rf live) (World s ws lf rf sc).
Proof.
  intros Hx Ha Hh Hpl Hlive Hidle. unfold close. wp_step. apply (wp_get_writer_at _ i x); [done|]. rewrite Hh.
  destruct (w_writer x) eqn:Ew; cbn.
  2: { unfold discard_writer. wp_run. exists x. cbn. rewrite insert_id by done. split_and!; try done; [auto|].
       apply accounts_discard; [done|]. intros y. rewrite Hx. intros [= <-]. auto. }
  destruct (Hlive eq_refl) as [p Hp]. pose proof Hpl as Hpl'. unfold placed in Hpl'. rewrite Hp in Hpl'. destruct Hpl' as (t & Ht & Hpath).
  wp_step. apply wp_on_error. eapply wp_mono; [by apply (wp_finish_stream i x)|]. cbn beta. intros [written|e] w' [[sc' ->] Hwr].
  2: { eapply wp_mono; [by apply (wp_abort i x _ _ _ _ _ live)|]. cbn beta. intros r w' (_ & x' & Hws & (Hi1 & Hi2 & Hi3) & Hn & (Hb & Ho & Hd & Hu) & He & Hac & Hpl2).
       exists x'. by split_and!. }
  wp_step. apply (wp_get_writer_at _ i x); [done|]. do 3 wp_step. unfold discard_writer. do 3 wp_step.
  set (x1 := with_streams x (w_fh x) false). set (s1 := set_open s _). wp_step.
  eapply wp_mono; [apply (wp_release_pending i x1); by rewrite lookup_insert_eq|]. cbn beta. rewrite insert_insert_eq.
  intros r w' [-> ->]. change (charge x1) with (charge x). set (x2 := with_charge x1 _ _ _). set (s2 := set_pending s1 _). rewrite Ht, Hp.
  assert (accounts s2 (<[i := x2]> ws) live) as Ha2.
  { change s2 with (set_open (set_pending s (local_pending s - charge x)) (open_writers s ∖ {[i]})).
    apply (accounts_discard (set_pending s (local_pending s - charge x))); [|intros y; rewrite lookup_insert_eq; by intros [= <-]].
    rewrite <- (insert_insert_eq ws i x2 (with_charge x 0 (w_seen x) (w_rows x))).
    eapply accounts_writer; [by apply accounts_released|by rewrite lookup_insert_eq|done|done]. }
  wp_step. eapply wp_mono; [by apply wp_on_closed|]. cbn beta. intros [nbytes|e] w' (sc2 & Hw').
  2: { subst w'. exists x2. cbn. split_and!; try done. apply elsewhere_refl. }
  destruct Hw' as [Hn ->]. wp_step. apply (wp_get_writer_at _ i x2); [by rewrite lookup_insert_eq|]. do 3 wp_step. rewrite insert_insert_eq.
  set (h := Handle t p nbytes _ _). exists (with_handle x2 (Some h)). cbn. split_and!; try done; [by destruct t..|].
  rewrite <- (insert_insert_eq ws i (with_handle x2 (Some h)) x2).
  eapply accounts_writer; [by apply (accounts_finished s2 _ live h)|by rewrite lookup_insert_eq|done|done].
Qed.
End Sound.
