(* ===== verification/SpillSystem.v ===== *)
(** * The spill store in use

    Sequences of operations on the store of [SpillStore]: several buckets streaming at once,
    finished, abandoned, read back and released, with the system failing anywhere.  The figures
    of the store stay exact, and every bucket reads back as it was written or not at all. *)

From S2P Require Import Prelude SpillStore SpillCharge SpillSound.

(** ** Operations *)

Inductive op {row : Type} :=
  | New (i : nat) (name : string)
  | Write (i : nat) (b : batch row)
  | Close (i : nat)
  | Abort (i : nat)
  | Drop (k : nat)
  | Cleanup.
Arguments op : clear implicits.

(** A finished bucket that has not been released: its name, its handle and what was written. *)
Record bucket {row : Type} := Bucket { b_name : string; b_handle : handle; b_batches : list (batch row) }.
Arguments bucket : clear implicits.
Arguments Bucket {row}.

(** The store, the batches written through each writer, and the finished buckets. *)
Record system {row : Type} := System { wd : world row; written : gmap nat (list (batch row)); finished_buckets : list (bucket row) }.
Arguments system : clear implicits.
Arguments System {row}.

Section Run.
Context {row : Type} `{ArrowSizes} (ipc_bytes : tier -> list (batch row) -> Z).

(** Writers are created under names no open writer or finished bucket has, used while they are
    open, and a write that raises leaves its [with] block. *)
Definition allowed (o : op row) (σ : system row) : bool :=
  let '(System w wr lv) := σ in
  match o with
  | New i name =>
      bool_decide (w.(writers) !! i = None) && forallb (fun b => bool_decide (b.(b_name) <> name)) lv &&
      forallb (fun j => match w.(writers) !! j with Some x => bool_decide (x.(w_name) <> name) | None => true end) (elements w.(st).(open_writers))
  | Write i _ | Close i | Abort i => bool_decide (i ∈ w.(st).(open_writers))
  | Drop k => bool_decide (is_Some (lv !! k))
  | Cleanup => true
  end.

Definition perform (o : op row) (σ : system row) : system row :=
  let '(System w wr lv) := σ in
  match o with
  | New i name => match new_writer i name w with
                  | (w', Ok _) => System w' (<[i := []]> wr) lv
                  | (w', Raise _) => System w' wr lv
                  end
  | Write i b => match on_error (write i b) (abort i) w with
                 | (w', Ok _) => System w' (alter (fun bs => bs ++ solid b) i wr) lv
                 | (w', Raise _) => System w' wr lv
                 end
  | Close i => match close ipc_bytes i w, w.(writers) !! i, wr !! i with
               | (w', Ok (Some h)), Some x, Some bs => System w' wr (lv ++ [Bucket x.(w_name) h bs])
               | (w', _), _, _ => System w' wr lv
               end
  | Abort i => System (abort i w).1 wr lv
  | Drop k => match lv !! k with
              | Some b => System (release b.(b_handle) w).1 wr (delete k lv)
              | None => σ
              end
  | Cleanup => System (cleanup w).1 wr []
  end.

Fixpoint run (ops : list (op row)) (σ : system row) : option (system row) :=
  match ops with
  | [] => Some σ
  | o :: ops' => if allowed o σ then run ops' (perform o σ) else None
  end.

Definition start (dir : string) (uri : option string) (budget : option Z) (script : list event) : system row :=
  System (new_world dir uri budget script) ∅ [].
End Run.

(** ** The invariant *)

Section Invariant.
Context {row : Type} `{ArrowSizes} (ipc_bytes : tier -> list (batch row) -> Z).
Hypothesis ipc_nonneg : forall t bs, 0 <= ipc_bytes t bs.
Implicit Types (lf rf : gmap string (list (batch row))).

(** A finished bucket's file holds its batches. *)
Record kept (s : store) (lf rf : gmap string (list (batch row))) (b : bucket row) : Prop := {
  kp_path : tier_path s b.(b_handle).(h_tier) b.(b_name) = Some b.(b_handle).(h_path);
  kp_file : files b.(b_handle).(h_tier) lf rf !! b.(b_handle).(h_path) = Some b.(b_batches);
  kp_solid : Forall nonempty b.(b_batches);
  kp_rows : b.(b_handle).(h_num_rows) = total_rows b.(b_batches);
}.

(** An open writer streams what was written through it. *)
Definition streams (σ : system row) (i : nat) (x : writer) : Prop :=
  σ.(wd).(writers) !! i = Some x /\ exists bs, σ.(written) !! i = Some bs /\
    streaming σ.(wd).(st) σ.(wd).(local_fs) σ.(wd).(remote_fs) x bs /\ placed σ.(wd).(st) x.

Record sound (σ : system row) : Prop := {
  sd_accounts : accounts σ.(wd).(st) σ.(wd).(writers) (map b_handle σ.(finished_buckets));
  sd_open : forall i, i ∈ σ.(wd).(st).(open_writers) -> exists x, streams σ i x;
  sd_names : forall i j x y, i ∈ σ.(wd).(st).(open_writers) -> j ∈ σ.(wd).(st).(open_writers) ->
    σ.(wd).(writers) !! i = Some x -> σ.(wd).(writers) !! j = Some y -> x.(w_name) = y.(w_name) -> i = j;
  sd_kept : Forall (kept σ.(wd).(st) σ.(wd).(local_fs) σ.(wd).(remote_fs)) σ.(finished_buckets);
  sd_apart : forall b i x, b ∈ σ.(finished_buckets) -> i ∈ σ.(wd).(st).(open_writers) ->
    σ.(wd).(writers) !! i = Some x -> x.(w_name) <> b.(b_name);
  sd_nodup : NoDup (map b_name σ.(finished_buckets));
}.

(** *** Files of other names *)

Lemma append_cancel_r (a b c : string) : (a +:+ c = b +:+ c)%string -> a = b.
Proof.
  intros E. apply (f_equal String.list_ascii_of_string) in E.
  assert (forall x y, String.list_ascii_of_string (x +:+ y) = String.list_ascii_of_string x ++ String.list_ascii_of_string y) as Happ
    by (intros x y; induction x as [|ch x IH]; [done|]; change (ch :: String.list_ascii_of_string (x +:+ y) = ch :: String.list_ascii_of_string x ++ String.list_ascii_of_string y); by rewrite IH).
  rewrite !Happ in E. apply app_inv_tail in E. rewrite <- (String.string_of_list_ascii_of_string a), E. apply String.string_of_list_ascii_of_string.
Qed.

Lemma append_cancel_l (a b c : string) : (c +:+ a = c +:+ b)%string -> a = b.
Proof. induction c as [|ch c IH]; cbn; [done|]. intros [= E]. auto. Qed.

Lemma bucket_path_inj dir n n' : bucket_path dir n = bucket_path dir n' -> n = n'.
Proof. unfold bucket_path. intros E%append_cancel_l%append_cancel_l. by apply append_cancel_r in E. Qed.

Lemma elsewhere_file s name n t p lf rf lf' rf' :
  elsewhere s name lf rf lf' rf' -> n <> name -> tier_path s t n = Some p -> files t lf' rf' !! p = files t lf rf !! p.
Proof.
  intros [Hl Hr] Hn Hp. destruct t; cbn in *.
  - injection Hp as <-. assert (bucket_path (local_dir s) name <> bucket_path (local_dir s) n) as Hne by (intros E%bucket_path_inj; congruence).
    rewrite <- (lookup_delete_ne lf' _ _ Hne), Hl. by apply lookup_delete_ne.
  - destruct (remote_uri s) as [uri|]; [|done]. cbn in Hp. injection Hp as <-.
    assert (bucket_path uri name <> bucket_path uri n) as Hne by (intros E%bucket_path_inj; congruence).
    rewrite <- (lookup_delete_ne rf' _ _ Hne), Hr. by apply lookup_delete_ne.
Qed.

(** The store's directory and address, which fix the paths. *)
Definition same_roots (s s' : store) : Prop := s'.(local_dir) = s.(local_dir) /\ s'.(remote_uri) = s.(remote_uri).

Lemma tier_path_roots s s' t n : same_roots s s' -> tier_path s' t n = tier_path s t n.
Proof. intros [Hd Hu]. unfold tier_path. by rewrite Hd, Hu. Qed.

Lemma kept_elsewhere s s' name lf rf lf' rf' b :
  kept s lf rf b -> same_roots s s' -> elsewhere s name lf rf lf' rf' -> b.(b_name) <> name -> kept s' lf' rf' b.
Proof.
  intros [Hp Hf Hs Hr] Hroots He Hn. split; [by rewrite (tier_path_roots s s')| |done|done]. by rewrite (elsewhere_file s name (b_name b) _ _ lf rf).
Qed.

Lemma streaming_elsewhere s s' name lf rf lf' rf' x bs :
  streaming s lf rf x bs -> same_roots s s' -> elsewhere s name lf rf lf' rf' -> x.(w_name) <> name -> streaming s' lf' rf' x bs.
Proof.
  intros [Hh Hr Hs Hst] Hroots He Hn. split; [done..|]. destruct Hst as [(Hw & t & p & Ht & Hp & Hpath & Hf)|Hst]; [left|by right].
  split; [done|]. exists t, p. split_and!; [done..|by rewrite (tier_path_roots s s')|]. by rewrite (elsewhere_file s name (w_name x) _ _ lf rf).
Qed.

Lemma placed_roots s s' x : same_roots s s' -> placed s x -> placed s' x.
Proof. intros Hr. unfold placed. destruct (w_path x); [|done]. intros (t & Ht & Hp). exists t. by rewrite (tier_path_roots s s'). Qed.

(** *** Operations keep it *)

(** No other open writer and no finished bucket has the name. *)
Definition alone (σ : system row) (i : nat) (name : string) : Prop :=
  (forall j y, j ∈ σ.(wd).(st).(open_writers) -> j <> i -> σ.(wd).(writers) !! j = Some y -> y.(w_name) <> name) /\
  (forall b, b ∈ σ.(finished_buckets) -> b.(b_name) <> name).

Lemma sound_alone σ i x : sound σ -> i ∈ σ.(wd).(st).(open_writers) -> σ.(wd).(writers) !! i = Some x -> alone σ i x.(w_name).
Proof.
  intros Hs Hi Hx. split.
  - intros j y Hj Hne Hy E. apply Hne. by apply (sd_names _ Hs j i y x).
  - intros b Hb E. by apply (sd_apart _ Hs b i x).
Qed.

(** An operation on one writer, after which a bucket may have been added. *)
Lemma sound_writer σ i x x' w' wr' (added : option (bucket row)) :
  sound σ -> alone σ i x.(w_name) -> σ.(wd).(writers) !! i = Some x ->
  w'.(writers) = <[i := x']> σ.(wd).(writers) -> x'.(w_name) = x.(w_name) -> same_roots σ.(wd).(st) w'.(st) ->
  elsewhere σ.(wd).(st) x.(w_name) σ.(wd).(local_fs) σ.(wd).(remote_fs) w'.(local_fs) w'.(remote_fs) ->
  w'.(st).(open_writers) ⊆ σ.(wd).(st).(open_writers) ->
  accounts w'.(st) w'.(writers) (map b_handle (σ.(finished_buckets) ++ option_list added)) ->
  (i ∈ w'.(st).(open_writers) -> added = None /\ exists bs, wr' !! i = Some bs /\
     streaming w'.(st) w'.(local_fs) w'.(remote_fs) x' bs /\ placed w'.(st) x') ->
  (forall b, added = Some b -> b.(b_name) = x.(w_name) /\ kept w'.(st) w'.(local_fs) w'.(remote_fs) b) ->
  (forall j, j <> i -> wr' !! j = σ.(written) !! j) ->
  sound (System w' wr' (σ.(finished_buckets) ++ option_list added)).
Proof.
  intros [Sa So Sn Sk Sp Sd] [An Ab] Hx Hw Hname Hroots He Hopen Ha Hlive Hadd Hwr. split; cbn.
  - done.
  - intros j Hj. destruct (decide (j = i)) as [->|Hne].
    + destruct (Hlive Hj) as (_ & bs & H1 & H2 & H3). exists x'. split; cbn; [by rewrite Hw, lookup_insert_eq|eauto].
    + destruct (So j) as (y & Hy & bs & H1 & H2 & H3); [set_solver|]. exists y. split; cbn; [by rewrite Hw, lookup_insert_ne|].
      exists bs. split_and!; [by rewrite Hwr| |by eapply placed_roots]. eapply streaming_elsewhere; [done..|]. apply (An j y); [set_solver|done..].
  - intros j k y z Hj Hk. rewrite Hw. intros Hy Hz E.
    apply lookup_insert_Some in Hy as [[<- <-]|[Hji Hy]]; apply lookup_insert_Some in Hz as [[<- <-]|[Hki Hz]]; rewrite ?Hname in E; [done|..].
    + exfalso. apply (An k z); [set_solver|done..].
    + exfalso. apply (An j y); [set_solver|done..].
    + apply (Sn j k y z); [set_solver|set_solver|done..].
  - apply Forall_app. split.
    + apply Forall_forall. intros b Hb. rewrite Forall_forall in Sk. eapply kept_elsewhere; [by apply Sk|done..|]. by apply Ab.
    + destruct added as [b|]; [apply Forall_singleton; by apply Hadd|constructor].
  - intros b j y Hb Hj. rewrite Hw. intros Hy. apply elem_of_app in Hb as [Hb|Hb].
    + apply lookup_insert_Some in Hy as [[<- <-]|[Hji Hy]]; [rewrite Hname; intros E; by apply (Ab b)|apply (Sp b j y); [done|set_solver|done]].
    + destruct added as [b'|]; [|by apply not_elem_of_nil in Hb]. apply list_elem_of_singleton in Hb as ->. destruct (Hadd b' eq_refl) as [-> _].
      apply lookup_insert_Some in Hy as [[<- <-]|[Hji Hy]]; [by destruct (Hlive Hj)|]. apply (An j y); [set_solver|done..].
  - rewrite map_app. apply NoDup_app. split_and!; [done| |destruct added; cbn; [apply NoDup_singleton|by constructor]].
    intros n Hn Hn'. destruct added as [b'|]; [|by apply not_elem_of_nil in Hn']. apply list_elem_of_singleton in Hn' as ->.
    destruct (Hadd b' eq_refl) as [E _]. rewrite E in Hn. apply list_elem_of_fmap in Hn as (b & En & Hb). by apply (Ab b).
Qed.

(** The bytes and dictionaries a bucket is charged for, batch by batch. *)
Definition charge_one (acc : Z * gset Z) (b : batch row) : Z * gset Z :=
  if num_rows b =? 0 then acc else (acc.1 + (charged_bytes acc.2 b).1, (charged_bytes acc.2 b).2).
Definition charge_all (bs : list (batch row)) : Z * gset Z := foldl charge_one (0, ∅) bs.

(** A write under its [with] block: the batch is in the stream, or the writer is abandoned. *)
Lemma wp_guarded_write i b x bs live s ws lf rf sc :
  ws !! i = Some x -> i ∈ s.(open_writers) -> accounts s ws live -> streaming s lf rf x bs -> placed s x ->
  wp (on_error (write i b) (abort i)) (fun r w' => exists x', w'.(writers) = <[i := x']> ws /\ x'.(w_name) = x.(w_name) /\
    same_roots s w'.(st) /\ elsewhere s x.(w_name) lf rf w'.(local_fs) w'.(remote_fs) /\ accounts w'.(st) w'.(writers) live /\
    match r with
    | Ok _ => w'.(st).(open_writers) = s.(open_writers) /\ streaming w'.(st) w'.(local_fs) w'.(remote_fs) x' (bs ++ solid b) /\ placed w'.(st) x' /\
        (x'.(w_pending), x'.(w_seen)) = charge_one (x.(w_pending), x.(w_seen)) b
    | Raise _ => w'.(st).(open_writers) = s.(open_writers) ∖ {[i]}
    end) (World s ws lf rf sc).
Proof.
  intros Hx Hi Ha Hst Hpl. apply wp_on_error. eapply wp_mono; [by apply (wp_write i b x _ _ _ _ _ live bs)|]. cbn beta.
  intros [[]|e] [s1 ws1 lf1 rf1 sc1] (x1 & [T1 T2 T3 T4 T5 T6 T7] & Hr); cbn [st writers local_fs remote_fs] in T1, T4, T5, T6, Hr.
  - destruct Hr as [Hr Hc]. destruct T4 as (_ & To & Td & Tu). exists x1. split_and!; try done.
    eapply placed_roots; [|exact T7]. by split.
  - eapply wp_mono; [apply (wp_abort i x1 _ _ _ _ _ live); [by rewrite T1, lookup_insert_eq|done|done|by apply (placed_same _ _ _ T4)]|].
    cbn beta. intros r w2 (_ & x2 & W1 & W2 & W3 & (W4 & W5 & W6 & W7) & W8 & W9 & W10). destruct T4 as (_ & To & Td & Tu). exists x2.
    split_and!; [by rewrite W1, T1, insert_insert_eq|congruence|split; congruence| |done|congruence].
    eapply elsewhere_trans; [done|]. unfold elsewhere in *. by rewrite T2, Td, Tu in W8.
Qed.

Lemma sound_write σ i b : sound σ -> i ∈ σ.(wd).(st).(open_writers) -> sound (perform ipc_bytes (Write i b) σ).
Proof.
  intros Hs Hi. destruct (sd_open _ Hs i Hi) as (x & Hx & bs & Hbs & Hst & Hpl). destruct σ as [[s ws lf rf sc] wr lv]. cbn in Hx, Hi, Hbs, Hst, Hpl.
  pose proof (wp_guarded_write i b x bs _ s ws lf rf sc Hx Hi (sd_accounts _ Hs) Hst Hpl) as Hwp. unfold wp in Hwp. unfold perform.
  destruct (on_error (write i b) (abort i) (World s ws lf rf sc)) as [w' r]. cbn [fst snd] in Hwp.
  destruct Hwp as (x' & H1 & H2 & H3 & H4 & H5 & H6).
  assert (accounts (st w') (writers w') (map b_handle (lv ++ []))) as H5' by by rewrite app_nil_r.
  pose proof (fun wr' => sound_writer (System (World s ws lf rf sc) wr lv) i x x' w' wr' None Hs (sound_alone _ _ _ Hs Hi Hx) Hx H1 H2 H3 H4) as Hstep.
  cbn in Hstep. rewrite app_nil_r in Hstep. destruct r as [[]|e].
  - destruct H6 as (Ho & Hst' & Hpl' & _). apply Hstep; try done.
    + by rewrite Ho.
    + intros _. split; [done|]. exists (bs ++ solid b). by rewrite lookup_alter_eq, Hbs.
    + intros j Hj. by rewrite lookup_alter_ne.
  - apply Hstep; try done; rewrite H6; set_solver.
Qed.

(** Giving up on an unfinished writer whose name nobody else has. *)
Lemma sound_give_up σ i x : sound σ -> σ.(wd).(writers) !! i = Some x -> alone σ i x.(w_name) -> x.(w_handle) = None -> placed σ.(wd).(st) x ->
  let w' := (abort i σ.(wd)).1 in
  sound (System w' σ.(written) σ.(finished_buckets)) /\ w'.(st).(open_writers) = σ.(wd).(st).(open_writers) ∖ {[i]}.
Proof.
  intros Hs Hx Hal Hh Hpl w'. destruct σ as [[s ws lf rf sc] wr lv]. cbn in Hx, Hpl. cbn [wd] in w'.
  pose proof (wp_abort i x s ws lf rf sc _ Hx (sd_accounts _ Hs) Hh Hpl) as Hwp. unfold wp in Hwp. fold w' in Hwp. clearbody w'. cbn.
  destruct Hwp as (_ & x' & H1 & _ & H2 & (_ & Ho & Hd & Hu) & H4 & H5 & _). split; [|done].
  assert (accounts (st w') (writers w') (map b_handle (lv ++ []))) as H5' by by rewrite app_nil_r.
  pose proof (sound_writer (System (World s ws lf rf sc) wr lv) i x x' w' wr None Hs Hal Hx H1 H2 (conj Hd Hu) H4) as Hstep.
  cbn in Hstep. rewrite app_nil_r in Hstep. apply Hstep; try done; rewrite Ho; set_solver.
Qed.

Lemma sound_abort σ i : sound σ -> i ∈ σ.(wd).(st).(open_writers) -> sound (perform ipc_bytes (Abort i) σ).
Proof.
  intros Hs Hi. destruct (sd_open _ Hs i Hi) as (x & Hx & bs & Hbs & Hst & Hpl).
  destruct (sound_give_up σ i x Hs Hx (sound_alone _ _ _ Hs Hi Hx) (sm_handle _ _ _ _ _ Hst) Hpl) as [Hs' _]. by destruct σ.
Qed.

Lemma sound_close σ i : sound σ -> i ∈ σ.(wd).(st).(open_writers) -> sound (perform ipc_bytes (Close i) σ).
Proof.
  intros Hs Hi. destruct (sd_open _ Hs i Hi) as (x & Hx & bs & Hbs & Hst & Hpl). destruct σ as [[s ws lf rf sc] wr lv]. cbn in Hx, Hi, Hbs, Hst, Hpl.
  assert (wp (close ipc_bytes i) (finished i x s ws lf rf (map b_handle lv)) (World s ws lf rf sc)) as Hwp.
  { apply wp_close; try done; [apply (sd_accounts _ Hs)|by destruct Hst|..]; destruct Hst as [_ _ _ [(Hw & t & p & _ & Hp & _)|(Hw & _ & Hp)]]; rewrite ?Hw, ?Hp; try done; eauto. }
  unfold wp in Hwp. unfold perform. destruct (close ipc_bytes i (World s ws lf rf sc)) as [w' r]. cbn [fst snd writers] in *. rewrite Hx, Hbs.
  destruct Hwp as (x' & H1 & H2 & _ & _ & _ & Ho & Hd & Hu & Hr).
  pose proof (fun added He => sound_writer (System (World s ws lf rf sc) wr lv) i x x' w' wr added Hs (sound_alone _ _ _ Hs Hi Hx) Hx H1 H2 (conj Hd Hu) He) as Hstep. cbn in Hstep.
  destruct r as [[h|]|e].
  - destruct Hr as (_ & Hw & Ht & Hp & Hrows & _ & Hl & Hrf & Ha). destruct Hst as [_ R S [(_ & t & p & Et & Ep & Epath & Ef)|[? _]]]; [|congruence].
    rewrite Et in Ht. rewrite Ep in Hp. injection Ht as Ht. injection Hp as Hp.
    apply (Hstep (Some (Bucket (w_name x) h bs))); [rewrite Hl, Hrf; apply elsewhere_refl|rewrite Ho; set_solver|by rewrite map_app| | |done].
    + rewrite Ho. set_solver.
    + intros b [= <-]. split; [done|]. split; cbn; [|by rewrite Hl, Hrf, Ht, Hp|done|congruence].
      rewrite Ht, Hp, <- Epath. apply tier_path_roots. by split.
  - destruct Hr as (_ & _ & Hl & Hrf & Ha). specialize (Hstep None). cbn in Hstep. rewrite app_nil_r in Hstep.
    apply Hstep; [rewrite Hl, Hrf; apply elsewhere_refl|rewrite Ho; set_solver|done|rewrite Ho; set_solver|done..].
  - destruct Hr as (_ & He & Ha). specialize (Hstep None). cbn in Hstep. rewrite app_nil_r in Hstep. apply Hstep; [done|rewrite Ho; set_solver|done|rewrite Ho; set_solver|done..].
Qed.

Lemma sound_new σ i name : sound σ -> allowed (New i name) σ = true -> sound (perform ipc_bytes (New i name) σ).
Proof.
  intros Hs Hal. destruct σ as [[s ws lf rf sc] wr lv]. cbn in Hal. bsplit. unfold perform, new_writer.
  destruct (safe_bucket_name name); [|by destruct Hs]. cbn. destruct Hs as [Sa So Sn Sk Sp Sd]. cbn in *.
  assert (forall j y, j ∈ open_writers s -> ws !! j = Some y -> j <> i /\ w_name y <> name) as Hother.
  { intros j y Hj Hy. split; [congruence|].
    match goal with H : forallb _ (elements _) = true |- _ => rename H into Hel end. rewrite forallb_forall in Hel. specialize (Hel j).
    rewrite Hy, bool_decide_eq_true in Hel. apply Hel, list_elem_of_In, elem_of_elements, Hj. }
  assert (forall b, b ∈ lv -> b_name b <> name) as Hfin.
  { intros b Hb. match goal with H : forallb _ lv = true |- _ => rename H into Hlv end. rewrite forallb_forall in Hlv. specialize (Hlv b).
    rewrite bool_decide_eq_true in Hlv. apply Hlv, list_elem_of_In, Hb. }
  split; cbn.
  - destruct Sa. split; cbn; try done.
    + rewrite pending_sum_insert. match goal with H : ws !! i = None |- _ => rewrite H end. cbn. lia.
    + intros j y [[<- <-]|[Hj Hy]]%lookup_insert_Some; cbn; [lia|eauto].
    + intros j y [[<- <-]|[Hj Hy]]%lookup_insert_Some; cbn; [done|]. intros Hp. apply elem_of_union_r. eauto.
  - intros j [->%elem_of_singleton|Hj]%elem_of_union.
    + eexists. split; cbn; [by rewrite lookup_insert_eq|]. exists []. rewrite lookup_insert_eq. split_and!; [done| |done]. split; try done. by right.
    + destruct (So j Hj) as (y & Hy & bs & G1 & G2 & G3). cbn in *. destruct (Hother j y Hj Hy). exists y. split; cbn; [by rewrite lookup_insert_ne|].
      exists bs. rewrite lookup_insert_ne by done. split_and!; [done| |done]. by destruct G2; split.
  - intros j k y z Hj Hk Hy Hz E. apply lookup_insert_Some in Hy as [[<- <-]|[Hji Hy]]; apply lookup_insert_Some in Hz as [[<- <-]|[Hki Hz]]; cbn in E.
    + done.
    + destruct (Hother k z) as [_ Hn]; [set_solver|done|]. by symmetry in E.
    + destruct (Hother j y) as [_ Hn]; [set_solver|done|]. done.
    + apply (Sn j k y z); [set_solver|set_solver|done..].
  - eapply Forall_impl; [exact Sk|]. intros b []. by split.
  - intros b j y Hb Hj [[<- <-]|[Hji Hy]]%lookup_insert_Some; cbn; [intros E; by apply (Hfin b)|]. apply (Sp b j y); [done|set_solver|done].
  - done.
Qed.

Lemma remove_first_perm p l : p ∈ l -> l ≡ₚ p :: remove_first p l.
Proof.
  induction l as [|q l IH]; cbn; [by intros ?%not_elem_of_nil|]. intros [->|Hp]%elem_of_cons; [by rewrite decide_True|].
  case_decide as E; [by subst|]. rewrite (IH Hp) at 1. apply Permutation_swap.
Qed.

Lemma on_tier_perm t l l' : l ≡ₚ l' -> on_tier t l ≡ₚ on_tier t l'.
Proof. unfold on_tier. induction 1; cbn; repeat case_bool_decide; try done; eauto using Permutation. Qed.

Lemma held_perm t l l' : l ≡ₚ l' -> held t l = held t l'.
Proof. intros Hp%(on_tier_perm t). unfold held. induction Hp; cbn; lia. Qed.

Lemma tier_held_nonneg t l : Forall (fun h => 0 <= h.(h_nbytes)) l -> 0 <= held t l.
Proof. unfold held, on_tier. induction 1; cbn; [done|]. case_bool_decide; cbn; lia. Qed.

(** [release] of a finished bucket gives back exactly its bytes. *)
Lemma wp_release h live live' s ws lf rf sc :
  accounts s ws live -> live ≡ₚ h :: live' ->
  wp (release (row := row) h) (fun r w' => exists s' lf' rf' sc', w' = World s' ws lf' rf' sc' /\ accounts s' ws live' /\
    s'.(open_writers) = s.(open_writers) /\ same_roots s s' /\
    (lf' = lf \/ h.(h_tier) = LOCAL /\ lf' = delete h.(h_path) lf) /\ (rf' = rf \/ h.(h_tier) = REMOTE /\ rf' = delete h.(h_path) rf))
  (World s ws lf rf sc).
Proof.
  intros Ha Hp. pose proof Ha as [A1 A2 A3 A4 A5 A6 A7 A8 A9 A10]. unfold release. do 2 wp_step.
  assert (forall t, on_tier t live ≡ₚ (if decide (h_tier h = t) then [h] else []) ++ on_tier t live') as Ht.
  { intros t. rewrite (on_tier_perm t _ _ Hp). unfold on_tier. cbn. case_bool_decide; case_decide; done. }
  assert (forall t, held t live = (if decide (h_tier h = t) then h_nbytes h else 0) + held t live') as Hh.
  { intros t. rewrite (held_perm t _ _ Hp). unfold held, on_tier. cbn. case_bool_decide; case_decide; try done; cbn; lia. }
  rewrite Hp in A8. apply Forall_cons in A8 as [Hn A8]. pose proof (tier_held_nonneg LOCAL _ A8). pose proof (tier_held_nonneg REMOTE _ A8).
  rewrite A6, A7, !Hh in *. rewrite (Ht LOCAL) in A4. rewrite (Ht REMOTE) in A5. rewrite map_app in A4, A5.
  destruct (h_tier h) eqn:Et; rewrite ?decide_True, ?decide_False in * by done; cbn [map app] in A4, A5.
  all: rewrite decide_True by (first [rewrite A4|rewrite A5]; left); do 2 wp_step; eapply wp_mono; [apply wp_remove_partial|].
  all: cbn beta; intros r w' (_ & lf' & rf' & sc' & -> & Hl & Hr); eexists _, lf', rf', sc'; (split; [done|]).
  all: split; [|split; [done|split; [done|]]].
  2: { split; [destruct Hl as [?|[_ ?]]|destruct Hr as [?|[? _]]]; auto; done. }
  3: { split; [destruct Hl as [?|[? _]]|destruct Hr as [?|[_ ?]]]; auto; done. }
  - rewrite (remove_first_perm (h_path h) (local_paths s)) in A4 by (rewrite A4; left). apply Permutation_cons_inv in A4.
    split; cbn; try done; repeat case_decide; try done; lia.
  - rewrite (remove_first_perm (h_path h) (remote_paths s)) in A5 by (rewrite A5; left). apply Permutation_cons_inv in A5.
    split; cbn; try done; repeat case_decide; try done; lia.
Qed.

Lemma sound_drop σ k : sound σ -> sound (perform ipc_bytes (Drop k) σ).
Proof.
  intros Hs. destruct σ as [[s ws lf rf sc] wr lv]. unfold perform. destruct (lv !! k) as [b|] eqn:Hk; [|done].
  pose proof Hs as [Sa So Sn Sk Sp Sd]. cbn in Sa, So, Sn, Sk, Sp, Sd. pose proof (delete_Permutation _ _ _ Hk) as Hperm.
  assert (b ∈ lv) as Hb by (by eapply list_elem_of_lookup_2).
  pose proof (wp_release (b_handle b) (map b_handle lv) (map b_handle (delete k lv)) s ws lf rf sc Sa) as Hwp. unfold wp in Hwp.
  destruct Hwp as (s' & lf' & rf' & sc' & E & Ha & Ho & Hroots & Hl & Hr); [exact (Permutation_map b_handle Hperm)|]. rewrite E. clear E.
  pose proof (Permutation_map b_name Hperm) as Hnames. cbn in Hnames. rewrite Hnames in Sd. apply NoDup_cons in Sd as [Hfresh Sd].
  pose proof (proj1 (Forall_forall _ _) Sk b Hb) as [Kp _ _ _].
  assert (elsewhere s (b_name b) lf rf lf' rf') as He.
  { eapply (elsewhere_removed s (b_name b) (h_tier (b_handle b))); [done|..]; [destruct Hl as [?|[-> ?]]|destruct Hr as [?|[-> ?]]]; auto. }
  assert (forall b', b' ∈ delete k lv -> b' ∈ lv /\ b_name b' <> b_name b) as Hrest.
  { intros b' Hb'. split; [rewrite Hperm; by right|]. intros E. apply Hfresh.
    rewrite <- E. apply list_elem_of_fmap. eauto. }
  split; cbn; rewrite ?Ho.
  - done.
  - intros i Hi. destruct (So i Hi) as (x & Hx & bs & G1 & G2 & G3). cbn in *. exists x. split; [done|]. exists bs. cbn.
    split_and!; [done| |by eapply placed_roots]. eapply streaming_elsewhere; [done..|]. by apply (Sp b i).
  - done.
  - apply Forall_forall. intros b' [Hb' Hne]%Hrest. rewrite Forall_forall in Sk. eapply kept_elsewhere; [by apply Sk|done..].
  - intros b' i x [Hb' _]%Hrest. by apply Sp.
  - done.
Qed.

Lemma aborts_close_all wr lv l : forall w, sound (System w wr lv) -> w.(st).(open_writers) = list_to_set l -> NoDup l ->
  wp (each (fun i => suppress (abort i)) l) (fun r w' => r = Ok tt /\ sound (System w' wr lv) /\ w'.(st).(open_writers) = ∅) w.
Proof.
  induction l as [|i l IH]; intros w Hs Ho Hd; cbn; [by apply wp_ret|]. apply NoDup_cons in Hd as [Hi Hd].
  assert (i ∈ open_writers (st w)) as Hio by (rewrite Ho; set_solver).
  pose proof (sound_abort (System w wr lv) i Hs Hio) as Hs'. cbn in Hs'. wp_step. apply wp_suppress.
  destruct (sd_open _ Hs i Hio) as (x & Hx & bs & _ & Hst & Hpl). destruct w as [s ws lf rf sc]. cbn in *.
  pose proof (wp_abort i x s ws lf rf sc _ Hx (sd_accounts _ Hs) (sm_handle _ _ _ _ _ Hst) Hpl) as Hwp. unfold wp in *.
  destruct Hwp as (_ & x' & _ & _ & _ & (_ & Ho' & _) & _). apply IH; [done| |done]. rewrite Ho', Ho. set_solver.
Qed.

Lemma wp_remove_files t l s ws : forall lf rf sc,
  wp (each (fun p => remove_partial (row := row) (Some t) p) l) (fun r w' => r = Ok tt /\ exists lf' rf' sc', w' = World s ws lf' rf' sc') (World s ws lf rf sc).
Proof.
  intros lf rf sc. apply (wp_each _ (fun w => exists lf' rf' sc', w = World s ws lf' rf' sc')); [|eauto].
  intros p w (lf1 & rf1 & sc1 & ->). eapply wp_mono; [apply wp_remove_partial|]. cbn beta. intros r w' (-> & lf2 & rf2 & sc2 & -> & _). eauto.
Qed.

Lemma pending_sum_zero ws : (forall i x, ws !! i = Some x -> x.(w_pending) = 0) -> pending_sum ws = 0.
Proof.
  unfold pending_sum. apply (map_fold_weak_ind (fun r ws => (forall i x, ws !! i = Some x -> x.(w_pending) = 0) -> r = 0)); [done|].
  intros i x ws' r Hi IH Hz. rewrite IH.
  - pose proof (Hz i x). rewrite lookup_insert_eq in *. unfold charge. destruct (w_tier x) as [[]|]; lia || (rewrite (Hz i x) by apply lookup_insert_eq; done).
  - intros j y Hj. apply (Hz j). rewrite lookup_insert_ne; [done|]. congruence.
Qed.

Lemma sound_cleanup σ : sound σ -> sound (perform ipc_bytes Cleanup σ).
Proof.
  intros Hs. destruct σ as [w wr lv]. unfold perform.
  enough (wp cleanup (fun _ w' => sound (System w' wr [])) w) by done. unfold cleanup. destruct w as [s ws lf rf sc]. do 3 wp_step.
  eapply wp_mono; [apply (aborts_close_all wr lv); [done|cbn; by rewrite list_to_set_elements_L|apply NoDup_elements]|]. cbn beta.
  intros r [s1 ws1 lf1 rf1 sc1] (-> & Hs1 & Ho1). cbn in Ho1. do 5 wp_step. eapply wp_mono; [apply wp_remove_files|]. cbn beta.
  intros r w2 (-> & lf2 & rf2 & sc2 & ->). wp_step. eapply wp_mono; [apply wp_remove_files|]. cbn beta. intros r w3 (-> & lf3 & rf3 & sc3 & ->).
  do 3 wp_step. destruct Hs1 as [[A1 A2 A3 A4 A5 A6 A7 A8 A9 A10] _ _ _ _ _]. cbn in *.
  assert (forall i x, ws1 !! i = Some x -> w_pending x = 0) as Hz.
  { intros i x Hx. destruct (decide (w_pending x = 0)) as [|Hp]; [done|]. specialize (A3 i x Hx Hp). set_solver. }
  pose proof (tier_held_nonneg LOCAL _ A8). pose proof (tier_held_nonneg REMOTE _ A8).
  split; cbn; try done; try (intros i; set_solver); [|by constructor].
  split; cbn; try done; [by rewrite pending_sum_zero|intros i x Hx Hp; by apply Hz in Hx|unfold held, on_tier in *; lia..].
Qed.

Lemma sound_start dir uri budget script : sound (start (row := row) dir uri budget script).
Proof.
  clear ipc_nonneg ipc_bytes.
  split; cbn; try (intros; set_solver); try apply NoDup_nil_2; try apply Forall_nil_2.
  split; cbn; try done; try lia; try constructor; by intros i x Hx%lookup_empty_Some.
Qed.

Lemma sound_run ops : forall σ σ', sound σ -> run ipc_bytes ops σ = Some σ' -> sound σ'.
Proof.
  induction ops as [|o ops IH]; cbn [run]; intros σ σ' Hs; [by intros [= <-]|]. destruct (allowed o σ) eqn:Hal; [|done]. apply IH.
  destruct o; try (destruct σ; cbn in Hal; apply bool_decide_eq_true in Hal).
  - by apply sound_new.
  - by apply sound_write.
  - by apply sound_close.
  - by apply sound_abort.
  - by apply sound_drop.
  - by apply sound_cleanup.
Qed.

(** A kept bucket reads back whole or not at all. *)
Lemma read_kept s ws lf rf sc b : kept s lf rf b ->
  wp (read b.(b_handle)) (fun r _ => forall bs, r = Ok bs -> bs = b.(b_batches)) (World s ws lf rf sc) /\
  (sc = [] -> (read b.(b_handle) (World s ws lf rf sc)).2 = Ok b.(b_batches)).
Proof.
  intros [Hp Hf Hsol Hrows]. unfold read.
  assert (match h_tier (b_handle b) with LOCAL => lf | REMOTE => rf end !! h_path (b_handle b) = Some (b_batches b)) as Hf' by done.
  split.
  - do 4 wp_step. rewrite Hf'. destruct e; try (wp_run; done); unfold verify_complete.
    + wp_step. destruct (_ || _); wp_run; [by intros bs [= <-]|done].
    + wp_step. destruct (_ || _) eqn:E; wp_run; [|done]. intros bs [= <-]. apply prefix_whole; [done|exists (drop n (b_batches b)); by rewrite take_drop|].
      assert (total_rows (take n (b_batches b)) <= total_rows (b_batches b)) as Hle.
      { rewrite <- (take_drop n (b_batches b)) at 2. rewrite total_rows_app. destruct (total_rows_pos (drop n (b_batches b))); [by apply Forall_drop|lia]. }
      destruct (total_rows_pos (take n (b_batches b))) as [Hpos _]; [by apply Forall_take|].
      apply orb_true_iff in E as [E%Z.eqb_eq|E%Z.leb_le]; lia.
  - intros ->. unfold bind. cbn. rewrite Hf'. cbn. unfold verify_complete. rewrite <- Hrows, Z.leb_refl, orb_true_r. done.
Qed.

(** *** A whole bucket at once *)

Lemma on_error_bind {A B} (m : M A) (f : A -> M B) (h : M unit) (w : world row) :
  on_error (bind m f) h w = match on_error m h w with (w', Ok a) => on_error (f a) h w' | (w', Raise e) => (w', Raise e) end.
Proof. unfold on_error, bind. by destruct (m w) as [w' [a|e]]. Qed.

Definition solids (bs : list (batch row)) : list (batch row) := flat_map solid bs.

(** The part of the invariant that follows one writer. *)
Record following (σ : system row) (i : nat) (name : string) (done : list (batch row)) (charged : Z * gset Z) : Prop := {
  fl_sound : sound σ;
  fl_open : i ∈ σ.(wd).(st).(open_writers);
  fl_written : σ.(written) !! i = Some done;
  fl_writer : exists x, σ.(wd).(writers) !! i = Some x /\ x.(w_name) = name /\ (x.(w_pending), x.(w_seen)) = charged;
}.

Lemma follow_write σ i name done charged b : following σ i name done charged ->
  let '(w', r) := on_error (write i b) (abort i) σ.(wd) in
  match r with
  | Ok _ => exists wr', following (System w' wr' σ.(finished_buckets)) i name (done ++ solid b) (charge_one charged b) /\ w'.(st).(open_writers) = σ.(wd).(st).(open_writers)
  | Raise _ => exists wr', sound (System w' wr' σ.(finished_buckets)) /\ w'.(st).(open_writers) = σ.(wd).(st).(open_writers) ∖ {[i]}
  end.
Proof.
  intros [Hs Hi Hwr (x & Hx & Hn & Hc)]. pose proof (sound_write σ i b Hs Hi) as Hs'.
  destruct (sd_open _ Hs i Hi) as (x0 & Hx0 & bs & Hbs & Hst & Hpl). rewrite Hx in Hx0. injection Hx0 as <-. rewrite Hwr in Hbs. injection Hbs as <-.
  destruct σ as [[s ws lf rf sc] wr lv]. unfold perform in Hs'. cbn [wd] in *.
  pose proof (wp_guarded_write i b x done _ s ws lf rf sc Hx Hi (sd_accounts _ Hs) Hst Hpl) as Hwp. unfold wp in Hwp.
  destruct (on_error (write i b) (abort i) (World s ws lf rf sc)) as [w' [[]|e]]; cbn [fst snd] in Hwp; [|destruct Hwp as (x' & _ & _ & _ & _ & _ & Ho); by eexists].
  destruct Hwp as (x' & H1 & H2 & _ & _ & _ & H6 & _ & _ & H7). exists (alter (fun bs => bs ++ solid b) i wr). split; [|done]. split; [done|..]; cbn.
  - by rewrite H6.
  - rewrite lookup_alter_eq. cbn in Hwr. by rewrite Hwr.
  - exists x'. rewrite H1, lookup_insert_eq. by rewrite H2, H7, Hc.
Qed.

Lemma follow_writes bs i name : forall σ done charged, following σ i name done charged ->
  let '(w', r) := on_error (write_all i bs) (abort i) σ.(wd) in
  match r with
  | Ok _ => exists wr', following (System w' wr' σ.(finished_buckets)) i name (done ++ solids bs) (foldl charge_one charged bs) /\ w'.(st).(open_writers) = σ.(wd).(st).(open_writers)
  | Raise _ => exists wr', sound (System w' wr' σ.(finished_buckets)) /\ w'.(st).(open_writers) = σ.(wd).(st).(open_writers) ∖ {[i]}
  end.
Proof.
  induction bs as [|b bs IH]; intros σ done charged Hf; cbn [write_all].
  - exists (written σ). cbn. rewrite app_nil_r. by destruct σ.
  - rewrite on_error_bind. pose proof (follow_write σ i name done charged b Hf) as Hw.
    destruct (on_error (write i b) (abort i) (wd σ)) as [w' [[]|e]]; [|done]. destruct Hw as (wr' & Hw & <-). specialize (IH _ _ _ Hw). cbn [wd finished_buckets] in IH.
    destruct (on_error (write_all i bs) (abort i) w') as [w2 [[]|e]]; [|done]. destruct IH as [wr2 IH]. exists wr2. unfold solids in *. cbn. by rewrite app_assoc.
Qed.

(** The end of the [with] block. *)
Lemma follow_close σ i name done charged : following σ i name done charged ->
  let '(w', r) := on_error (close ipc_bytes i) (abort i) σ.(wd) in
  w'.(st).(open_writers) = σ.(wd).(st).(open_writers) ∖ {[i]} /\
  exists wr', match r with
  | Ok (Some h) => (close ipc_bytes i w') = (w', Ok (Some h)) /\ h.(h_logical_nbytes) = charged.1 /\
      sound (System w' wr' (σ.(finished_buckets) ++ [Bucket name h done]))
  | Ok None => close ipc_bytes i w' = (w', Ok None) /\ done = [] /\ sound (System w' wr' σ.(finished_buckets))
  | Raise _ => sound (System w' wr' σ.(finished_buckets))
  end.
Proof.
  intros [Hs Hi Hwr (x & Hx & Hn & Hc)]. pose proof (sound_close σ i Hs Hi) as Hs'. pose proof (sound_alone _ _ _ Hs Hi Hx) as [An Ab].
  destruct (sd_open _ Hs i Hi) as (x0 & Hx0 & bs & Hbs & Hst & Hpl). rewrite Hx in Hx0. injection Hx0 as <-. rewrite Hwr in Hbs. injection Hbs as <-.
  destruct σ as [[s ws lf rf sc] wr lv]. unfold perform in Hs'. cbn [wd writers written finished_buckets st] in *. rewrite Hx, Hwr in Hs'.
  assert (wp (close ipc_bytes i) (finished i x s ws lf rf (map b_handle lv)) (World s ws lf rf sc)) as Hwp.
  { apply wp_close; try done; [apply (sd_accounts _ Hs)|by destruct Hst|..]; destruct Hst as [_ _ _ [(Hw & t & p & _ & Hp & _)|(Hw & _ & Hp)]]; rewrite ?Hw, ?Hp; try done; eauto. }
  unfold wp in Hwp. unfold on_error. destruct (close ipc_bytes i (World s ws lf rf sc)) as [w' [[h|]|e]]; cbn [fst snd] in Hwp.
  all: destruct Hwp as (x' & H1 & H2 & H3 & H4 & H5 & Ho & Hd & Hu & Hr).
  - split; [done|]. exists wr. destruct Hr as (Hh & _ & _ & _ & _ & Hlog & _). split_and!; [|by rewrite Hlog, <- Hc|by rewrite <- Hn].
    unfold close, bind, get_writer. rewrite H1, lookup_insert_eq. cbn. by rewrite Hh.
  - split; [done|]. exists wr. destruct Hr as (Hh & Hw & _). split_and!; [|by destruct Hst as [_ _ _ [[]|[_ []]]]; [congruence|]|done].
    unfold close, bind, get_writer. rewrite H1, lookup_insert_eq. cbn. rewrite Hh, H4. cbn.
    destruct w' as [s' ws' lf' rf' sc']. cbn in *. rewrite Ho. destruct s'. cbn in *. subst. unfold set_open, ret. cbn. do 3 f_equal. set_solver.
  - destruct Hr as (Hh & _ & _).
    destruct (sound_give_up (System w' wr lv) i x') as [Hg Ho']; cbn [wd writers st finished_buckets].
    + done.
    + by rewrite H1, lookup_insert_eq.
    + rewrite H2. split; cbn; [|done]. intros j y Hj Hne. rewrite H1, lookup_insert_ne by done. apply An; [set_solver|done].
    + done.
    + eapply placed_roots; [|exact H5]. by split.
    + split; [|by exists wr]. cbn in Ho' |- *. rewrite Ho', Ho. set_solver.
Qed.

(** [spill] adds a bucket holding the batches that have rows, or leaves the store as it was. *)
Lemma spill_sound σ i bs name : sound σ -> allowed (New i name) σ = true ->
  let '(w', r) := spill ipc_bytes i bs name σ.(wd) in
  w'.(st).(open_writers) ⊆ σ.(wd).(st).(open_writers) /\
  exists wr', match r with
  | Ok (Some h) => sound (System w' wr' (σ.(finished_buckets) ++ [Bucket name h (solids bs)])) /\ h.(h_logical_nbytes) = (charge_all bs).1
  | Ok None => solids bs = [] /\ sound (System w' wr' σ.(finished_buckets))
  | Raise _ => sound (System w' wr' σ.(finished_buckets))
  end.
Proof.
  intros Hs Hal. pose proof (sound_new σ i name Hs Hal) as Hnew. unfold spill. unfold bind at 1.
  destruct σ as [w wr lv]. cbn [wd finished_buckets]. unfold perform in Hnew.
  destruct (new_writer i name w) as [w1 [[]|e]] eqn:E; [|unfold new_writer in E; destruct (safe_bucket_name name); [done|]; injection E as <- <-; split; [done|by exists wr]].
  assert (open_writers (st w1) = {[i]} ∪ open_writers (st w)) as Ho1.
  { unfold new_writer in E. destruct (safe_bucket_name name); [|done]. cbn in E. by injection E as <-. }
  assert (following (System w1 (<[i := []]> wr) lv) i name [] (0, ∅)) as Hf.
  { unfold new_writer in E. destruct (safe_bucket_name name); [|done]. cbn in E. injection E as <-. split; [done|..]; cbn; [set_solver|by rewrite lookup_insert_eq|].
    eexists. by rewrite lookup_insert_eq. }
  unfold bind at 1. rewrite on_error_bind. pose proof (follow_writes bs i name _ _ _ Hf) as Hw. cbn [wd finished_buckets] in Hw.
  destruct (on_error (write_all i bs) (abort i) w1) as [w2 [[]|e]]; [|destruct Hw as (wr2 & Hw & Ho2); split; [set_solver|by exists wr2]]. destruct Hw as (wr2 & Hw & Ho2).
  pose proof (follow_close _ _ _ _ _ Hw) as Hc. cbn [wd finished_buckets] in Hc.
  destruct (on_error (close ipc_bytes i) (abort i) w2) as [w3 [[h|]|e]]; [..|destruct Hc; split; [set_solver|done]]; destruct Hc as (Ho3 & wr3 & Hc1 & Hc2 & Hc3);
    unfold bind; rewrite Hc1; (split; [set_solver|]); exists wr3; by split.
Qed.
End Invariant.

(** ** What the store promises *)

Definition with_script {row} (w : world row) (sc : list event) : world row :=
  World w.(st) w.(writers) w.(local_fs) w.(remote_fs) sc.

(** Sizes for evaluation: the documented ones. *)
Fixpoint sample_bytes (a : array) : Z :=
  match a with
  | Flat b => b
  | Dictionary _ i v => i + sample_bytes v
  | Struct o fs => o + foldr (fun f acc => sample_bytes f + acc) 0 fs
  | ListOf o v => o + sample_bytes v
  end.
#[export, refine] Instance sample_sizes : ArrowSizes | 100 := { logical_bytes := sample_bytes }.
Proof. all: done. Defined.

Definition sample_ipc (t : tier) (bs : list (batch Z)) : Z := 8 * Z.of_nat (length bs).

(** C12: a spilled bucket is never silently short.  After any sequence of operations on the store,
    with buckets streaming side by side, volumes filling, carry-overs to the remote tier failing
    and files cut at any message boundary, reading a finished bucket either raises or returns
    exactly the batches with rows that were written to it, in order; and it returns them when
    the system answers. *)
Theorem spill_buckets_exact {row} `{ArrowSizes} (ipc_bytes : tier -> list (batch row) -> Z) ops dir uri budget script σ :
  (forall t bs, 0 <= ipc_bytes t bs) -> run ipc_bytes ops (start dir uri budget script) = Some σ ->
  forall b, b ∈ σ.(finished_buckets) -> forall script',
    let answer := (read b.(b_handle) (with_script σ.(wd) script')).2 in
    (forall bs, answer = Ok bs -> bs = b.(b_batches)) /\ (script' = [] -> answer = Ok b.(b_batches)).
Proof.
  intros Hn Hrun b Hb script'. pose proof (sd_kept _ (sound_run ipc_bytes Hn ops _ _ (sound_start dir uri budget script) Hrun)) as Hk.
  rewrite Forall_forall in Hk. destruct (read_kept _ (writers (wd σ)) _ _ script' b (Hk b Hb)) as [H1 H2]. by split.
Qed.

(** Two buckets side by side, the second carried over to the remote tier in mid-stream. *)
Definition sample_ops : list (op Z) :=
  [New 0 "a"; New 1 "b"; Write 0 (Batch [1; 2] [Flat 16]); Write 1 (Batch [3] [Flat 8]); Write 1 (Batch [4; 5] [Flat 16]); Close 0; Close 1].
Definition sample_script : list event := [Fine; Fine; Fine; Fine; Fine; Fine; NoSpace].

Lemma spill_buckets_exact_witness :
  exists σ, run sample_ipc sample_ops (start "/s" (Some "m:/") (Some 100) sample_script) = Some σ /\
    map (fun b => (b.(b_name), b.(b_handle).(h_tier), length b.(b_batches))) σ.(finished_buckets) = [("a", LOCAL, 1%nat); ("b", REMOTE, 2%nat)] /\
    forall b, b ∈ σ.(finished_buckets) -> forall script',
      let answer := (read b.(b_handle) (with_script σ.(wd) script')).2 in
      (forall bs, answer = Ok bs -> bs = b.(b_batches)) /\ (script' = [] -> answer = Ok b.(b_batches)).
Proof.
  assert (option_map (fun σ => map (fun b => (b.(b_name), b.(b_handle).(h_tier), length b.(b_batches))) σ.(finished_buckets))
    (run sample_ipc sample_ops (start "/s" (Some "m:/") (Some 100) sample_script)) = Some [("a", LOCAL, 1%nat); ("b", REMOTE, 2%nat)]) as Hm
    by (vm_compute; reflexivity).
  destruct (run sample_ipc sample_ops (start "/s" (Some "m:/") (Some 100) sample_script)) as [σ|] eqn:E; [|discriminate Hm].
  injection Hm as Hm. exists σ. split; [done|]. split.
  - exact Hm.
  - apply (spill_buckets_exact sample_ipc sample_ops "/s" (Some "m:/") (Some 100) sample_script σ); [|done].
    intros t bs. unfold sample_ipc. lia.
Defined.

(** C18: the store's figures are exact after any sequence of operations and failures.  The bytes in
    flight are those of the open local buckets, and none once no bucket is open; the bytes and
    paths held on each tier are those of the finished buckets that were not released. *)
Theorem spill_accounting_exact {row} `{ArrowSizes} (ipc_bytes : tier -> list (batch row) -> Z) ops dir uri budget script σ :
  (forall t bs, 0 <= ipc_bytes t bs) -> run ipc_bytes ops (start dir uri budget script) = Some σ ->
  let s := σ.(wd).(st) in
  let handles := map b_handle σ.(finished_buckets) in
  s.(local_pending) = pending_sum σ.(wd).(writers) /\ (s.(open_writers) = ∅ -> s.(local_pending) = 0) /\
  s.(local_used) = held LOCAL handles /\ s.(remote_used) = held REMOTE handles /\
  s.(local_paths) ≡ₚ map h_path (on_tier LOCAL handles) /\ s.(remote_paths) ≡ₚ map h_path (on_tier REMOTE handles) /\
  s.(local_used) <= s.(peak_local_used) /\ s.(remote_used) <= s.(peak_remote_used).
Proof.
  intros Hn Hrun s handles. destruct (sd_accounts _ (sound_run ipc_bytes Hn ops _ _ (sound_start dir uri budget script) Hrun)) as [A1 A2 A3 A4 A5 A6 A7 A8 [A9 A10] A11].
  split_and!; try done. intros Ho. unfold s in *. rewrite A1. apply pending_sum_zero. intros i x Hx.
  destruct (decide (w_pending x = 0)) as [|Hp]; [done|]. specialize (A3 i x Hx Hp). rewrite Ho in A3. by apply elem_of_empty in A3.
Qed.

Lemma spill_accounting_exact_witness :
  exists σ, run sample_ipc (sample_ops ++ [Drop 0]) (start "/s" (Some "m:/") (Some 100) sample_script) = Some σ /\
    (let s := σ.(wd).(st) in
     let handles := map b_handle σ.(finished_buckets) in
     s.(local_pending) = pending_sum σ.(wd).(writers) /\ (s.(open_writers) = ∅ -> s.(local_pending) = 0) /\
     s.(local_used) = held LOCAL handles /\ s.(remote_used) = held REMOTE handles /\
     s.(local_paths) ≡ₚ map h_path (on_tier LOCAL handles) /\ s.(remote_paths) ≡ₚ map h_path (on_tier REMOTE handles) /\
     s.(local_used) <= s.(peak_local_used) /\ s.(remote_used) <= s.(peak_remote_used)) /\
    (σ.(wd).(st).(local_used), σ.(wd).(st).(remote_used), σ.(wd).(st).(peak_local_used)) = (0, 16, 8).
Proof.
  assert (option_map (fun σ => (σ.(wd).(st).(local_used), σ.(wd).(st).(remote_used), σ.(wd).(st).(peak_local_used)))
    (run sample_ipc (sample_ops ++ [Drop 0]) (start "/s" (Some "m:/") (Some 100) sample_script)) = Some (0, 16, 8)) as Hm by (vm_compute; reflexivity).
  destruct (run sample_ipc (sample_ops ++ [Drop 0]) (start "/s" (Some "m:/") (Some 100) sample_script)) as [σ|] eqn:E; [|discriminate Hm].
  injection Hm as H1 H2 H3. exists σ. split; [done|]. split; [|congruence].
  apply (spill_accounting_exact sample_ipc (sample_ops ++ [Drop 0]) "/s" (Some "m:/") (Some 100) sample_script σ); [|done].
  intros t bs. unfold sample_ipc. lia.
Defined.

Section Once.
Context {row : Type} `{ArrowSizes} (values_at : Z -> option array).

Definition all_own (bs : list (batch row)) : Z := foldr (fun b acc => batch_own b + acc) 0 (solids bs).
Definition all_dictionaries (bs : list (batch row)) : gset Z := foldr (fun b acc => batch_dictionaries b ∪ acc) ∅ (solids bs).

Lemma charge_all_exact bs : forall n seen, Forall (batch_ok values_at) bs -> closed values_at seen ->
  foldl charge_one (n, seen) bs =
    (n + all_own bs + sum_over (dictionary_bytes values_at) (all_dictionaries bs ∖ seen), seen ∪ all_dictionaries bs).
Proof.
  unfold all_own, all_dictionaries, solids. induction bs as [|b bs IH]; intros n seen Hb Hc; cbn [foldl flat_map].
  - cbn. rewrite sum_over_empty by set_solver. f_equal; [lia|set_solver].
  - apply Forall_cons in Hb as [Hb Hbs]. unfold charge_one at 2, solid at 1 3 5.
    destruct (num_rows b =? 0); cbn [app foldr fst snd]; [by apply IH|].
    rewrite (charged_bytes_exact values_at seen b Hb Hc). cbn [fst snd].
    rewrite IH; [|done|apply closed_union; [done|by apply batch_dictionaries_closed]].
    rewrite sum_over_split. f_equal; [lia|set_solver].
Qed.
End Once.

(** a spilled bucket is charged for each dictionary once.  However many batches share a
    dictionary's values, and however dictionaries nest, the logical size recorded for the
    bucket (what a reader reserves) is the bytes of the batches outside dictionaries plus the
    bytes of each distinct dictionary once. *)
Theorem dictionaries_charged_once {row} `{ArrowSizes} (ipc_bytes : tier -> list (batch row) -> Z) values_at i bs name dir uri budget script w' h :
  (forall t l, 0 <= ipc_bytes t l) -> Forall (batch_ok values_at) bs ->
  spill ipc_bytes i bs name (new_world dir uri budget script) = (w', Ok (Some h)) ->
  h.(h_logical_nbytes) = all_own bs + sum_over (dictionary_bytes values_at) (all_dictionaries bs).
Proof.
  intros Hn Hb E. pose proof (spill_sound ipc_bytes Hn (start dir uri budget script) i bs name (sound_start dir uri budget script)) as Hs.
  cbn [wd start] in Hs. rewrite E in Hs. destruct Hs as (_ & wr' & _ & Hl).
  { unfold allowed. cbn. done. }
  rewrite Hl. unfold charge_all. rewrite (charge_all_exact values_at bs 0 ∅ Hb (closed_empty values_at)). cbn.
  by rewrite Z.add_0_l, difference_empty_L.
Qed.

Lemma dictionaries_charged_once_witness :
  let values := Flat 1000 in
  let b n := Batch [n] [Dictionary (Some 7) 4 values] in
  let at7 d := if d =? 7 then Some values else None in
  Forall (batch_ok at7) [b 1; b 2; b 3] /\
  exists w' h, spill sample_ipc 0 [b 1; b 2; b 3] "a" (new_world "/s" None None []) = (w', Ok (Some h)) /\ h.(h_logical_nbytes) = 1012.
Proof.
  intros values b at7.
  assert (Forall (batch_ok at7) [b 1; b 2; b 3]) as Hb by (repeat constructor; cbn; lia). split; [exact Hb|].
  destruct (spill sample_ipc 0 [b 1; b 2; b 3] "a" (new_world "/s" None None [])) as [w' r] eqn:E.
  assert (exists h, r = Ok (Some h)) as [h ->] by (apply (f_equal snd) in E; cbn [snd] in E; rewrite <- E; eexists; vm_compute; reflexivity).
  exists w', h. split; [reflexivity|].
  rewrite (dictionaries_charged_once sample_ipc at7 0 [b 1; b 2; b 3] "a" "/s" None None [] w' h); [vm_compute; reflexivity| |exact Hb|exact E].
  intros t l. unfold sample_ipc. lia.
Defined.

(** a failed carry-over leaves a file behind.  When the remote tier refuses while a bucket is
    being carried over to it, the writer gives up on the remote file only: the local file stays
    on disk, no list of the store names it, and [cleanup], which is documented to remove the
    files this store created, does not. *)
Theorem carry_over_leaks_local_file :
  let script := [Fine; Fine; Fine; NoSpace; Broken] in
  let '(w, r) := spill sample_ipc 0 [Batch [1] [Flat 8]; Batch [2] [Flat 8]] "a" (new_world "/s" (Some "m:/") (Some 100) script) in
  r = Raise "OSError" /\ (cleanup w).1.(local_fs) !! "/s/a.arrow" = Some [Batch [1] [Flat 8]] /\
  (cleanup w).1.(st).(local_paths) = [].
Proof. vm_compute. by split_and!. Qed.
