(* ===== verification/PyFloat.v ===== *)
(** * Python floats and stable sorting

    Doubles are [spec_float] at binary64; integers convert by rounding to nearest even. *)

From Stdlib Require Import Floats.SpecFloat.
From S2P Require Import Prelude.

Definition flt := spec_float.
Definition flt_of_Z (z : Z) : flt := binary_normalize 53 1024 z 0 false.
Definition flt_add (x y : flt) : flt := SFadd 53 1024 x y.
Definition flt_sub (x y : flt) : flt := SFsub 53 1024 x y.
Definition flt_mul (x y : flt) : flt := SFmul 53 1024 x y.
Definition flt_div (x y : flt) : flt := SFdiv 53 1024 x y.

(** Python's [<] and [<=], false on NaN. *)
Definition flt_lt (x y : flt) : bool := SFltb x y.
Definition flt_le (x y : flt) : bool := SFleb x y.

(** [int(x)], truncation; [None] where Python raises. *)
Definition int_of_flt (x : flt) : option Z :=
  match x with
  | S754_zero _ => Some 0
  | S754_finite s m e =>
      let a := if 0 <=? e then Z.pos m * 2 ^ e else Z.pos m / 2 ^ (- e) in
      Some (if s then - a else a)
  | _ => None
  end.

(** The double of an integer over a power of two. *)
Definition flt_dyadic (m : positive) (e : Z) : flt := binary_normalize 53 1024 (Z.pos m) e false.

(** ** [sorted(l, key=...)]

    An insertion sort that asks [<] only, as Python's does: an element moves before those it is
    not greater than, so equal keys keep their order. *)
Section Sorted.
Context {A : Type} (lt : A -> A -> bool).

Fixpoint py_insert (x : A) (l : list A) : list A :=
  match l with
  | [] => [x]
  | y :: l' => if lt y x then y :: py_insert x l' else x :: l
  end.

Definition py_sorted (l : list A) : list A := foldr py_insert [] l.

Lemma py_insert_perm x l : py_insert x l ≡ₚ x :: l.
Proof. induction l as [|y l IH]; cbn; [done|]. destruct (lt y x); [|done]. rewrite IH. apply Permutation_swap. Qed.

Lemma py_sorted_perm l : py_sorted l ≡ₚ l.
Proof. induction l as [|x l IH]; cbn; [done|]. by rewrite py_insert_perm, IH. Qed.

(** No later element is less than an earlier one, when [lt] is a strict weak order on them. *)
Lemma py_sorted_ordered (P : A -> Prop) l : Forall P l ->
  (forall x y, P x -> P y -> lt x y = true -> lt y x = false) ->
  (forall x y z, P x -> P y -> P z -> lt y x = false -> lt z y = false -> lt z x = false) ->
  StronglySorted (fun x y => lt y x = false) (py_sorted l).
Proof.
  intros HP Hasym Htrans. induction HP as [|x l Hx Hl IH]; cbn; [constructor|]. fold (py_sorted l).
  assert (Forall P (py_sorted l)) as Hp by (by rewrite py_sorted_perm).
  generalize dependent (py_sorted l). intros k Hk. induction Hk as [|y k Hs IHk Hy]; intros Hp; cbn; [by repeat constructor|].
  apply Forall_cons in Hp as [Py Pk]. destruct (lt y x) eqn:E.
  - constructor; [by apply IHk|]. rewrite py_insert_perm. constructor; [by apply Hasym|done].
  - constructor; [by constructor|]. constructor; [done|]. rewrite Forall_forall in Hy, Pk |- *. intros z Hz. eapply (Htrans x y z); auto.
Qed.
End Sorted.

(** ** Comparison of doubles *)

Definition is_num (x : flt) : bool := match x with S754_nan => false | _ => true end.

(** The place of a number in the order: its class, then its exponent, then its mantissa. *)
Definition flt_class (x : flt) : Z :=
  match x with
  | S754_infinity s => if s then -2 else 2
  | S754_finite s _ _ => if s then -1 else 1
  | _ => 0
  end.
Definition flt_exponent (x : flt) : Z := match x with S754_finite s _ e => if s then - e else e | _ => 0 end.
Definition flt_mantissa (x : flt) : Z := match x with S754_finite s m _ => if s then Z.neg m else Z.pos m | _ => 0 end.

Lemma flt_lt_place x y : is_num x = true -> is_num y = true ->
  flt_lt x y = true <->
  flt_class x < flt_class y \/ flt_class x = flt_class y /\
    (flt_exponent x < flt_exponent y \/ flt_exponent x = flt_exponent y /\ flt_mantissa x < flt_mantissa y).
Proof.
  unfold flt_lt, SFltb. intros Hx Hy. destruct x as [s|s| |s m e], y as [s'|s'| |s' m' e']; try done; try destruct s; try destruct s'; cbn;
    try (split; [done|lia]); try (split; [lia|done]).
  - destruct (Z.compare_spec e e') as [->|E|E]; [|split; [done|lia]|split; [lia|done]].
    change (Pos.compare_cont Eq m m') with (m ?= m')%positive. destruct (Pos.compare_spec m m'); cbn; split; try done; lia.
  - destruct (Z.compare_spec e e') as [->|E|E]; [|split; [lia|done]|split; [done|lia]].
    change (Pos.compare_cont Eq m m') with (m ?= m')%positive. destruct (Pos.compare_spec m m'); cbn; split; try done; lia.
Qed.

Lemma flt_lt_place_false x y : is_num x = true -> is_num y = true ->
  flt_lt x y = false <->
  flt_class y < flt_class x \/ flt_class x = flt_class y /\
    (flt_exponent y < flt_exponent x \/ flt_exponent x = flt_exponent y /\ flt_mantissa y <= flt_mantissa x).
Proof. intros Hx Hy. pose proof (flt_lt_place x y Hx Hy) as Hp. rewrite <- not_true_iff_false, Hp. lia. Qed.

Lemma flt_lt_asym x y : is_num x = true -> is_num y = true -> flt_lt x y = true -> flt_lt y x = false.
Proof. intros Hx Hy. rewrite flt_lt_place, flt_lt_place_false by done. lia. Qed.

Lemma flt_lt_cotrans x y z : is_num x = true -> is_num y = true -> is_num z = true -> flt_lt y x = false -> flt_lt z y = false -> flt_lt z x = false.
Proof. intros Hx Hy Hz. rewrite !flt_lt_place_false by done. lia. Qed.

(** ** Signs *)

Definition unsigned (x : flt) : bool := match x with S754_zero s | S754_infinity s | S754_finite s _ _ => negb s | S754_nan => true end.

Lemma binary_round_aux_unsigned m e l : unsigned (binary_round_aux 53 1024 false m e l) = true.
Proof.
  unfold binary_round_aux. destruct (shr_fexp _ _ _ _ _) as [r e']. destruct (shr_fexp _ _ _ _ _) as [r' e'']. destruct (shr_m r'); [done| |done].
  by destruct (e'' <=? _).
Qed.

Lemma flt_of_Z_unsigned z : 0 <= z -> unsigned (flt_of_Z z) = true.
Proof. destruct z as [|m|m]; [done| |lia]. intros _. unfold flt_of_Z, binary_normalize, binary_round. destruct (shl_align _ _ _). apply binary_round_aux_unsigned. Qed.

Lemma flt_mul_unsigned x y : unsigned x = true -> unsigned y = true -> unsigned (flt_mul x y) = true.
Proof. destruct x as [[]|[]| |[] ? ?], y as [[]|[]| |[] ? ?]; try done. intros _ _. apply binary_round_aux_unsigned. Qed.

Lemma int_of_flt_nonneg x z : unsigned x = true -> int_of_flt x = Some z -> 0 <= z.
Proof. destruct x as [s|s| |[] m e]; cbn; try done; intros _ [= <-]; [lia|]. destruct (Z.leb_spec 0 e); [nia|apply Z.div_pos; [lia|apply Z.pow_pos_nonneg; lia]]. Qed.

(** ** [math.ceil], [math.isfinite] and [math.nextafter(x, inf)] *)

Definition flt_finite (x : flt) : bool := match x with S754_zero _ | S754_finite _ _ _ => true | _ => false end.

Definition flt_ceil (x : flt) : option Z :=
  match x with
  | S754_zero _ => Some 0
  | S754_finite s m e =>
      let z := if s then Z.neg m else Z.pos m in
      Some (if 0 <=? e then z * 2 ^ e else - (- z / 2 ^ (- e)))
  | _ => None
  end.

Definition flt_next (x : flt) : flt := SFsucc 53 1024 x.

#[global] Instance flt_eq_dec : EqDecision flt.
Proof. unfold flt. solve_decision. Defined.

(** ** [max], [min] and [or]

    [max(x, y)] and [min(x, y)] keep the first argument unless the second is strictly beyond. *)

Definition flt_zero : flt := flt_of_Z 0.
Definition flt_max (x y : flt) : flt := if flt_lt x y then y else x.
Definition flt_min (x y : flt) : flt := if flt_lt y x then y else x.
(** [max(0.0, x)]. *)
Definition flt_pos (x : flt) : flt := flt_max flt_zero x.
(** [x or y]. *)
Definition flt_or (x y : flt) : flt := match x with S754_zero _ => y | _ => x end.

Lemma flt_lt_num x y : flt_lt x y = true -> is_num x = true /\ is_num y = true.
Proof. by destruct x as [[]|[]| |[]], y as [[]|[]| |[]]. Qed.

(** A bound from below survives a maximum. *)
Lemma flt_max_above lo x y : flt_lt x lo = false -> is_num lo = true -> flt_lt (flt_max x y) lo = false.
Proof.
  intros Hx Hlo. unfold flt_max. destruct (flt_lt x y) eqn:E; [|done]. destruct (flt_lt_num _ _ E) as [N1 N2].
  apply (flt_lt_cotrans lo x y); try done. by apply flt_lt_asym.
Qed.
