(* ===== verification/StableSort.v ===== *)
(** * Stable sorting

    What determines the result of a stable sort, and when sorting buckets one by one and
    concatenating them is sorting the whole. *)

From S2P Require Import Prelude PyFloat.

(** A strict weak order. *)
Class WeakOrder {A : Type} (lt : A -> A -> bool) : Prop := {
  weak_asym : forall x y, lt x y = true -> lt y x = false;
  weak_cotrans : forall x y z, lt y x = false -> lt z y = false -> lt z x = false;
}.

Section Stable.
Context {A : Type} (lt : A -> A -> bool) `{!WeakOrder lt}.
Implicit Types (x y : A) (l : list A).

(** Neither comes first. *)
Definition tied x y : bool := negb (lt x y) && negb (lt y x).

Lemma tied_refl x : tied x x = true.
Proof. unfold tied. destruct (lt x x) eqn:E; [|done]. pose proof (weak_asym _ _ E). congruence. Qed.

Lemma tied_spec x y : tied x y = true <-> lt x y = false /\ lt y x = false.
Proof. unfold tied. rewrite andb_true_iff, !negb_true_iff. done. Qed.

Lemma weak_irrefl x : lt x x = false.
Proof. apply tied_spec. apply tied_refl. Qed.

Lemma lt_tied x y z : tied x y = true -> lt x z = lt y z /\ lt z x = lt z y.
Proof.
  rewrite tied_spec. intros [H1 H2]. split.
  - destruct (lt x z) eqn:E1, (lt y z) eqn:E2; try done; [|]; [pose proof (weak_cotrans z y x E2 H1)|pose proof (weak_cotrans z x y E1 H2)]; congruence.
  - destruct (lt z x) eqn:E1, (lt z y) eqn:E2; try done; [|]; [pose proof (weak_cotrans x y z H2 E2)|pose proof (weak_cotrans y x z H1 E1)]; congruence.
Qed.

Lemma tied_tied x y z : tied x y = true -> tied x z = tied y z.
Proof. intros H. unfold tied. by destruct (lt_tied x y z H) as [-> ->]. Qed.

Abbreviation in_order := (StronglySorted (fun x y => lt y x = false)).

Lemma py_sorted_in_order l : in_order (py_sorted lt l).
Proof. apply py_sorted_ordered with (fun _ => True); [by apply Forall_forall|intros x y _ _; apply weak_asym|intros x y z _ _ _; apply weak_cotrans]. Qed.

(** Elements that tie keep their order. *)
Lemma py_insert_tied x y l : List.filter (tied x) (py_insert lt y l) = if tied x y then y :: List.filter (tied x) l else List.filter (tied x) l.
Proof.
  induction l as [|z l IH]; cbn; [by destruct (tied x y)|]. destruct (lt z y) eqn:E; cbn; [|by destruct (tied x y)].
  rewrite IH. destruct (tied x y) eqn:Ey; [|done]. destruct (tied x z) eqn:Ez; [|done].
  rewrite (tied_tied x y z Ey) in Ez. apply tied_spec in Ez as [_ Ez]. congruence.
Qed.

Lemma py_sorted_tied x l : List.filter (tied x) (py_sorted lt l) = List.filter (tied x) l.
Proof. induction l as [|y l IH]; cbn; [done|]. fold (py_sorted lt l). rewrite py_insert_tied, IH. done. Qed.

(** A list in order is known from its ties. *)
Lemma in_order_unique l1 : forall l2, in_order l1 -> in_order l2 -> (forall x, List.filter (tied x) l1 = List.filter (tied x) l2) -> l1 = l2.
Proof.
  induction l1 as [|a l1 IH]; intros l2 H1 H2 Hf.
  - destruct l2 as [|b l2]; [done|]. specialize (Hf b). cbn in Hf. by rewrite tied_refl in Hf.
  - destruct l2 as [|b l2]; [specialize (Hf a); cbn in Hf; by rewrite tied_refl in Hf|].
    apply StronglySorted_inv in H1 as [H1 Ha]. apply StronglySorted_inv in H2 as [H2 Hb]. rewrite Forall_forall in Ha, Hb.
    assert (forall (c d : A) l, (forall y, y ∈ l -> lt y d = false) -> c ∈ List.filter (tied c) (d :: l) -> lt c d = false) as Hhead.
    { intros c d l Hd Hc. apply list_elem_of_In, filter_In in Hc as [[<-|Hc] _]; [apply weak_irrefl|]. apply Hd. by apply list_elem_of_In. }
    assert (tied a b = true) as Hab.
    { apply tied_spec. split.
      - apply (Hhead a b l2 Hb). rewrite <- Hf. cbn. rewrite tied_refl. left.
      - apply (Hhead b a l1 Ha). rewrite Hf. cbn. rewrite tied_refl. left. }
    pose proof (Hf a) as E. cbn in E. rewrite tied_refl, Hab in E. injection E as -> _. f_equal. apply IH; [done|done|].
    intros x. specialize (Hf x). cbn in Hf. destruct (tied x b); [by injection Hf|done].
Qed.

(** The result of a stable sort is the arrangement in order that keeps ties. *)
Lemma stable_sorted_unique l l' : in_order l' -> (forall x, List.filter (tied x) l' = List.filter (tied x) l) -> l' = py_sorted lt l.
Proof. intros Ho Hf. apply in_order_unique; [done|apply py_sorted_in_order|]. intros x. by rewrite Hf, py_sorted_tied. Qed.

(** *** Buckets *)

Lemma filter_concat_flat {B} (p : A -> bool) (f : B -> list A) (bs : list B) :
  List.filter p (concat (map f bs)) = concat (map (fun b => List.filter p (f b)) bs).
Proof. induction bs as [|b bs IH]; cbn; [done|]. by rewrite List.filter_app, IH. Qed.

Lemma in_order_concat {B} (f : B -> list A) (bs : list B) (R : B -> B -> Prop) :
  StronglySorted R bs -> (forall b, in_order (f b)) -> (forall b b' x y, R b b' -> x ∈ f b -> y ∈ f b' -> lt y x = false) ->
  in_order (concat (map f bs)).
Proof.
  intros Hs Hf Hc. induction Hs as [|b bs Hs IH Hb]; cbn; [constructor|]. specialize (Hf b) as Hfb. rewrite Forall_forall in Hb.
  assert (forall x y, x ∈ f b -> y ∈ concat (map f bs) -> lt y x = false) as Hcross.
  { intros x y Hx Hy. apply list_elem_of_In, in_concat in Hy as (l & Hl & Hy). apply in_map_iff in Hl as (b' & <- & Hb').
    apply (Hc b b'); [apply Hb; by apply list_elem_of_In|done|by apply list_elem_of_In]. }
  clear Hb Hc. induction Hfb as [|x l Hl IHl Hx]; cbn; [done|]. constructor; [apply IHl; intros; apply Hcross; [by right|done]|].
  apply Forall_app. split; [done|]. apply Forall_forall. intros y Hy. apply Hcross; [left|done].
Qed.
End Stable.

(** ** Sorting bucket by bucket *)

(** Elements grouped by labels that never decrease come back in their order. *)
Lemma group_labels {B} (label : B -> nat) (l : list B) : forall n m, StronglySorted (fun x y => (label x <= label y)%nat) l ->
  Forall (fun x => (m <= label x < m + n)%nat) l -> concat (map (fun r => List.filter (fun x => label x =? r)%nat l) (seq m n)) = l.
Proof.
  intros n. revert l. induction n as [|n IH]; intros l m Hs Hb; cbn.
  - destruct Hb; [done|lia].
  - assert (exists l1 l2, l = l1 ++ l2 /\ Forall (fun x => label x = m) l1 /\ Forall (fun x => (S m <= label x < S m + n)%nat) l2) as (l1 & l2 & -> & H1 & H2).
    { clear IH. induction Hs as [|x l Hs IHl Hx]; [by exists [], []|]. apply Forall_cons in Hb as [Hx0 Hb]. destruct (decide (label x = m)) as [E|E].
      - destruct (IHl Hb) as (l1 & l2 & -> & H1 & H2). exists (x :: l1), l2. split_and!; [done|by constructor|done].
      - exists [], (x :: l). split_and!; [done|done|]. constructor; [lia|]. rewrite Forall_forall in Hx, Hb |- *. intros y Hy. specialize (Hx y Hy). specialize (Hb y Hy). cbn in *. lia. }
    assert (forall r, r <> m -> List.filter (fun x => label x =? r)%nat (l1 ++ l2) = List.filter (fun x => label x =? r)%nat l2) as Hr.
    { intros r Hne. rewrite List.filter_app. assert (List.filter (fun x => label x =? r)%nat l1 = []) as ->; [|done].
      clear -H1 Hne. induction H1 as [|x l1 Hx H1 IH]; cbn; [done|]. rewrite IH. by destruct (Nat.eqb_spec (label x) r); [lia|]. }
    assert (List.filter (fun x => label x =? m)%nat (l1 ++ l2) = l1) as ->.
    { rewrite List.filter_app. assert (List.filter (fun x => label x =? m)%nat l2 = []) as ->.
      { clear -H2. induction H2 as [|x l2 Hx H2 IH]; cbn; [done|]. rewrite IH. by destruct (Nat.eqb_spec (label x) m); [lia|]. }
      rewrite app_nil_r. clear -H1. induction H1 as [|x l1 Hx H1 IH]; cbn; [done|]. rewrite IH. by destruct (Nat.eqb_spec (label x) m). }
    f_equal. rewrite (map_ext_in _ (fun r => List.filter (fun x => label x =? r)%nat l2)); [|intros r Hin%in_seq; apply Hr; lia].
    apply IH; [|done]. clear -Hs. induction l1 as [|x l1 IH]; [done|]. apply IH. by apply StronglySorted_inv in Hs as [].
Qed.

Lemma seq_in_order n : forall m, StronglySorted Nat.lt (seq m n).
Proof. induction n as [|n IH]; intros m; cbn; constructor; [apply IH|]. apply Forall_forall. intros r Hr%list_elem_of_In%in_seq. lia. Qed.

Lemma in_order_filter {B} (R R' : B -> B -> Prop) (p : B -> bool) l : StronglySorted R l ->
  (forall u v, u ∈ l -> v ∈ l -> p u = true -> p v = true -> R u v -> R' u v) -> StronglySorted R' (List.filter p l).
Proof.
  intros Hs. induction Hs as [|u l Hs IH Hu]; intros Himp; cbn; [constructor|].
  assert (StronglySorted R' (List.filter p l)) as Hf by (apply IH; intros; apply Himp; auto; by right).
  destruct (p u) eqn:E; [|done]. constructor; [done|]. rewrite Forall_forall in Hu. apply Forall_forall. intros v Hv%list_elem_of_In%filter_In.
  destruct Hv as [Hv Ev]. apply list_elem_of_In in Hv. apply Himp; auto; [left|by right].
Qed.

Section Buckets.
Context {A : Type} (lt : A -> A -> bool) `{!WeakOrder lt}.

(** Rows with the number of the part they come from, in order of arrival. *)
Definition tagged (parts : list (list A)) : list (nat * A) := concat (imap (fun w p => map (pair w) p) parts).

Lemma tagged_snd parts : map snd (tagged parts) = concat parts.
Proof.
  unfold tagged. generalize 0%nat as k. induction parts as [|p parts IH] using rev_ind; intros k; [done|].
  rewrite imap_app, !concat_app, map_app. cbn. rewrite !app_nil_r. specialize (IH 0%nat). rewrite IH. f_equal.
  rewrite map_map. cbn. apply map_id.
Qed.

Lemma elem_of_tagged parts w x : (w, x) ∈ tagged parts <-> exists p, parts !! w = Some p /\ x ∈ p.
Proof.
  unfold tagged. rewrite list_elem_of_In, in_concat. split.
  - intros (l & Hl & Hx). apply list_elem_of_In, elem_of_lookup_imap_1 in Hl as (i & p & -> & Hp). apply in_map_iff in Hx as (y & [= <- <-] & Hy).
    exists p. split; [done|by apply list_elem_of_In].
  - intros (p & Hp & Hx). exists (map (pair w) p). split; [|by apply in_map, list_elem_of_In].
    apply list_elem_of_In. exact (elem_of_lookup_imap_2 (fun w p => map (pair w) p) parts p w Hp).
Qed.

Lemma tagged_in_order parts : StronglySorted (fun u v : nat * A => (u.1 <= v.1)%nat) (tagged parts).
Proof.
  unfold tagged. induction parts as [|p parts IH] using rev_ind; [constructor|]. rewrite imap_app, concat_app. cbn. rewrite app_nil_r, Nat.add_0_r.
  assert (forall u, u ∈ concat (imap (fun w q => map (pair w) q) parts) -> (u.1 <= length parts)%nat) as Hle.
  { intros [w x] Hu. apply elem_of_tagged in Hu as (q & Hq & _). apply lookup_lt_Some in Hq. cbn. lia. }
  revert IH Hle. generalize (concat (imap (fun w q => map (pair w) q) parts)). intros l IH Hle.
  induction IH as [|u l IH IHl Hu]; cbn.
  - induction p as [|x p IHp]; cbn; constructor; [done|]. apply Forall_forall. intros v Hv%list_elem_of_In%in_map_iff. by destruct Hv as (y & <- & _).
  - constructor; [apply IHl; intros v Hv; apply Hle; by right|]. apply Forall_app. split; [done|].
    apply Forall_forall. intros v Hv%list_elem_of_In%in_map_iff. destruct Hv as (y & <- & _). apply Hle. left.
Qed.

(** Rows of bucket [r], part by part. *)
Definition gathered (assign : nat -> A -> nat) (parts : list (list A)) (r : nat) : list A :=
  concat (imap (fun w p => List.filter (fun x => assign w x =? r)%nat p) parts).

Lemma gathered_tagged assign parts r : gathered assign parts r = map snd (List.filter (fun u => assign u.1 u.2 =? r)%nat (tagged parts)).
Proof.
  unfold gathered, tagged. induction parts as [|p parts IH] using rev_ind; [done|]. rewrite !imap_app, !concat_app, List.filter_app, map_app, IH. f_equal.
  cbn. rewrite !app_nil_r. generalize (length parts + 0)%nat. intros w. clear. induction p as [|x p IH]; cbn; [done|]. by destruct (assign w x =? r)%nat; cbn; rewrite IH.
Qed.

(** Rows in different buckets are in their buckets' order, and where they tie the parts they
    come from are in that order too. *)
Definition well_assigned (assign : nat -> A -> nat) (n : nat) (parts : list (list A)) : Prop :=
  (forall w x, (w, x) ∈ tagged parts -> (assign w x < n)%nat) /\
  (forall w x w' y, (w, x) ∈ tagged parts -> (w', y) ∈ tagged parts -> (assign w x < assign w' y)%nat -> lt x y = true \/ (lt y x = false /\ w < w')%nat).

Lemma sort_by_buckets assign n parts : well_assigned assign n parts ->
  concat (map (fun r => py_sorted lt (gathered assign parts r)) (seq 0 n)) = py_sorted lt (concat parts).
Proof.
  intros [Hn Ha].
  assert (forall x r, x ∈ py_sorted lt (gathered assign parts r) -> exists w, (w, x) ∈ tagged parts /\ assign w x = r) as Hin.
  { intros x r Hx. rewrite py_sorted_perm, gathered_tagged in Hx. apply list_elem_of_In, in_map_iff in Hx as ([w x'] & E & Hx). cbn in E. subst x'.
    apply filter_In in Hx as [Hx E]. exists w. split; [by apply list_elem_of_In|]. by apply Nat.eqb_eq in E. }
  apply stable_sorted_unique; [done|..].
  - apply (in_order_concat lt _ _ Nat.lt); [|intros; by apply py_sorted_in_order|].
    + apply seq_in_order.
    + intros r r' x y Hr (w & Hx & <-)%Hin (w' & Hy & <-)%Hin. destruct (Ha _ _ _ _ Hx Hy Hr) as [E|[E _]]; [by apply weak_asym|done].
  - intros x. rewrite filter_concat_flat. rewrite (map_ext _ (fun r => map snd (List.filter (fun u => assign u.1 u.2 =? r)%nat (List.filter (fun u => tied lt x u.2) (tagged parts))))).
    + rewrite <- (map_map (fun r => List.filter (fun u => assign u.1 u.2 =? r)%nat (List.filter (fun u => tied lt x u.2) (tagged parts))) (map snd)), <- concat_map, group_labels; [|..].
      * rewrite <- tagged_snd. generalize (tagged parts). intros l. induction l as [|u l IH]; cbn; [done|]. destruct (tied lt x u.2); cbn; by rewrite IH.
      * apply (in_order_filter _ _ _ _ (tagged_in_order parts)). intros [w a] [w' b] Hu Hv E1 E2 Hw. cbn in *.
        apply Nat.nlt_ge. intros Hlt. destruct (Ha _ _ _ _ Hv Hu Hlt) as [E|[_ E]]; [|lia].
        apply tied_spec in E1 as E1'. destruct (lt_tied lt x b a E2) as [E3 _]. destruct E1' as [E1' _]. congruence.
      * apply Forall_forall. intros [w a] Hu%list_elem_of_In%filter_In. destruct Hu as [Hu%list_elem_of_In _]. specialize (Hn w a Hu). cbn. lia.
    + intros r. rewrite py_sorted_tied by done. rewrite gathered_tagged. generalize (tagged parts). intros l. induction l as [|u l IH]; cbn; [done|].
      destruct (assign u.1 u.2 =? r)%nat eqn:E1, (tied lt x u.2) eqn:E2; cbn; rewrite ?E1, ?E2, IH; done.
Qed.
End Buckets.
