(* ===== verification/RangeSort.v ===== *)
(** * The distributed sort

    dist/executors/sort.py over the range partitioning of dist/executors/partition_io/ranges.py:
    each mapper cuts its part of the relation into ranges of the leading key, each reducer sorts
    one range, and the driver concatenates the ranges without a merge.  A value that dominates
    the key is given a range of its own and spread over several reducers.  A mapper's scatter
    follows [range_partition_by_key] of crates/bc-runtime/src/shuffle.rs, which ranges.py calls;
    a reducer's sort is the engine's stable sort with the sort's limit. *)

From S2P Require Import Prelude PyDict PyFloat StableSort.

(** ** Keys and boundaries *)

(** The values of a leading key and the boundaries they are compared with, which for a numeric
    key are doubles.  [reaches b k] is the router's [b <= k] (a NaN reaches every boundary);
    [successor] is the boundary [isolate_hot_value] puts above a value. *)
Class RangeKey (K F : Type) := {
  key_lt : K -> K -> bool;
  bound_lt : F -> F -> bool;
  reaches : F -> K -> bool;
  successor : F -> F;
  finite : F -> bool;
  bound_eq_dec :: EqDecision F;
}.

Section Sort.
Context {K F row : Type} `{RangeKey K F}.

(** A sort: its leading key, which is null where [None], the comparisons of its other keys, and
    its limit. *)
Record sort_plan := SortPlan {
  lead : row -> option K; descending : bool; nulls_first : bool; minor : list (row -> row -> bool); limit : option nat }.

(** The order of one key, and of several. *)
Definition lead_lt (sp : sort_plan) (x y : row) : bool :=
  match lead sp x, lead sp y with
  | None, None => false
  | None, Some _ => nulls_first sp
  | Some _, None => negb (nulls_first sp)
  | Some a, Some b => if descending sp then key_lt b a else key_lt a b
  end.
Fixpoint keys_lt (ks : list (row -> row -> bool)) (x y : row) : bool :=
  match ks with
  | [] => false
  | k :: ks' => if k x y then true else if k y x then false else keys_lt ks' x y
  end.
Definition sort_lt (sp : sort_plan) : row -> row -> bool := keys_lt (lead_lt sp :: minor sp).

Definition limited {A} (n : option nat) (l : list A) : list A := match n with Some k => take k l | None => l end.

(** What the sort means: the first rows of the stable sort. *)
Definition single_node_sort (sp : sort_plan) (rows : list row) : list row := limited (limit sp) (py_sorted (sort_lt sp) rows).

(** ** Range partitioning *)

(** [partition_point(|b| b <= v)] on ascending boundaries. *)
Fixpoint partition_point (boundaries : list F) (k : K) : nat :=
  match boundaries with
  | [] => 0
  | b :: bs => if reaches b k then S (partition_point bs k) else 0
  end.

Definition null_bucket (n : nat) (nulls_first descending : bool) : nat :=
  let front := (if descending then n - 1 else 0)%nat in if nulls_first then front else (n - 1 - front)%nat.

Definition bucket_of (boundaries : list F) (n : nat) (nulls_first descending : bool) (k : option K) : nat :=
  match k with
  | None => null_bucket n nulls_first descending
  | Some k => Nat.min (partition_point boundaries k) (n - 1)
  end.

(** [bucketize]. *)
Definition bucketize (sp : sort_plan) (rows : list row) (boundaries : list F) (n : nat) : list (list row) :=
  map (fun b => List.filter (fun x => bucket_of boundaries n (nulls_first sp) (descending sp) (lead sp x) =? b)%nat rows) (seq 0 n).

(** [sorted(set(l))]. *)
Definition sorted_set (l : list F) : list F := py_sorted bound_lt (remove_dups l).

Fixpoint index_of (x : F) (l : list F) : nat :=
  match l with [] => 0 | y :: l' => if decide (x = y) then 0 else S (index_of x l') end.

(** [isolate_hot_value]. *)
Definition isolate_hot_value (boundaries : list F) (hot : F) : list F * nat :=
  let widened := sorted_set (boundaries ++ [hot; successor hot]) in (widened, S (index_of hot widened)).

(** [hot_sub_bucket]. *)
Definition hot_sub_bucket (mapper_id n_mappers subs : nat) (descending : bool) : nat :=
  let j := Nat.min (subs - 1) (mapper_id * subs / Nat.max 1 n_mappers) in if descending then (subs - 1 - j)%nat else j.

(** [split_hot_bucket]. *)
Definition split_hot_bucket (parts : list (list row)) (hot_bucket subs sub : nat) : list (list row) :=
  take hot_bucket parts ++ map (fun j => if decide (j = sub) then nth hot_bucket parts [] else []) (seq 0 subs) ++ drop (S hot_bucket) parts.

Definition HOT_SPLIT_OVERLOAD : flt := flt_of_Z 2.
Definition MAX_HOT_SUBS : Z := 64.

(** [plan_hot_split]; [hot] is what [hot_key_share] answers, a value and its share of the rows.
    [math.ceil] of a share that is not finite raises. *)
Definition plan_hot_split (hot : option (F * flt)) (boundaries : list F) (n : nat) (nulls_first descending single_key : bool) :
    res (option (list F * nat * nat * nat)) :=
  if descending then Ok None
  else if negb single_key then Ok None
  else match hot with
       | None => Ok None
       | Some (value, share) =>
           if flt_lt (flt_mul share (flt_of_Z (Z.of_nat (Nat.max 1 n)))) HOT_SPLIT_OVERLOAD then Ok None
           else if negb (forallb finite boundaries) then Ok None
           else
             let '(widened, hot_bucket) := isolate_hot_value boundaries value in
             let logical := Nat.max n (S (length widened)) in
             let front := (if descending then logical - 1 else 0)%nat in
             let nulls := if nulls_first then front else (logical - 1 - front)%nat in
             if decide (hot_bucket = nulls) then Ok None
             else match flt_ceil (flt_mul share (flt_of_Z (Z.of_nat logical))) with
                  | None => Raise (if is_num (flt_mul share (flt_of_Z (Z.of_nat logical))) then "OverflowError" else "ValueError")
                  | Some c => Ok (Some (widened, logical, hot_bucket, Z.to_nat (Z.max 2 (Z.min MAX_HOT_SUBS c))))
                  end
       end.

(** ** The three stages *)

(** [_range_task]: a mapper's buckets. *)
Definition range_task (sp : sort_plan) (boundaries : list F) (n : nat) (hot : option (nat * nat)) (n_mappers mapper_id : nat) (rows : list row) :
    list (list row) :=
  let buckets := bucketize sp rows boundaries n in
  match hot with
  | Some (hot_bucket, subs) =>
      if (1 <? subs)%nat then split_hot_bucket buckets hot_bucket subs (hot_sub_bucket mapper_id n_mappers subs (descending sp)) else buckets
  | None => buckets
  end.

(** [_sort_reduce_task]: the shards of one bucket in mapper order, sorted. *)
Definition sort_reduce_task (sp : sort_plan) (shards : list (list row)) : option (list row) :=
  match concat shards with
  | [] => None
  | rows => match single_node_sort sp rows with [] => None | out => Some out end
  end.

(** [_buckets_through_limit]. *)
Fixpoint buckets_through_limit (ordered : list (option (list row))) (limit : option nat) (held : nat) : list (list row) :=
  match ordered with
  | [] => []
  | out :: ordered' =>
      if match limit with Some k => (k <=? held)%nat | None => false end then []
      else match out with
           | None => buckets_through_limit ordered' limit held
           | Some rows => rows :: buckets_through_limit ordered' limit (held + length rows)
           end
  end.

(** [_distributed_sort] from the merged boundaries on: the plan for a dominant value, the map,
    the reduce, and the concatenation in leading-key order. *)
Definition distributed_sort (sp : sort_plan) (boundaries : list F) (hot : option (F * flt)) (n_buckets : nat) (partitions : list (list row)) :
    res (list row) :=
  let* split := plan_hot_split hot boundaries n_buckets (nulls_first sp) (descending sp) (match minor sp with [] => true | _ => false end) in
  let '(boundaries, n, hot, n_physical) :=
    match split with
    | Some (widened, logical, hot_bucket, subs) => (widened, logical, Some (hot_bucket, subs), (logical + subs - 1)%nat)
    | None => (boundaries, n_buckets, None, n_buckets)
    end in
  let mapped := imap (fun w p => range_task sp boundaries n hot (length partitions) w p) partitions in
  let reduced := map (fun r => sort_reduce_task sp (map (fun buckets => nth r buckets []) mapped)) (seq 0 n_physical) in
  let ordered := if descending sp then rev reduced else reduced in
  Ok (limited (limit sp) (concat (buckets_through_limit ordered (limit sp) 0))).
End Sort.
Arguments sort_plan : clear implicits.

(** ** Text and binary keys *)

(** Bytes, compared one by one. *)
Fixpoint bytes_lt (a b : list N) : bool :=
  match a, b with
  | _, [] => false
  | [], _ :: _ => true
  | x :: a', y :: b' => if (x <? y)%N then true else if (y <? x)%N then false else bytes_lt a' b'
  end.

#[export] Instance byte_keys : RangeKey (list N) (list N) := {
  key_lt := bytes_lt;
  bound_lt := bytes_lt;
  reaches b k := negb (bytes_lt k b);
  successor v := v ++ [0%N];
  finite _ := true;
}.

(** ** Integer keys, which the router compares as doubles *)

#[export] Instance int_keys : RangeKey Z flt := {
  key_lt := Z.ltb;
  bound_lt := flt_lt;
  reaches b k := flt_le b (flt_of_Z k);
  successor := flt_next;
  finite := flt_finite;
}.

(** ** Boundaries of a lexical key *)

Section Merge.

(** A worker's sample and the rows it describes. *)
Definition grid : Type := list (list N) * Z.

Definition kept_grids (grids : list grid) : list grid :=
  List.filter (fun g => match g.1 with [] => false | _ => negb (g.2 =? 0) end) grids.

Definition sample_weight (g : grid) : flt := flt_div (flt_of_Z g.2) (flt_of_Z (Z.of_nat (length g.1))).

(** Tuples compare by their first member, then by their second. *)
Definition pair_lt (a b : list N * flt) : bool :=
  if bytes_lt a.1 b.1 then true else if bytes_lt b.1 a.1 then false else flt_lt a.2 b.2.

(** The [while] loop: samples are passed while their weight stays below the target. *)
Fixpoint advance (target : flt) (rest : list (list N * flt)) (below : flt) : list (list N * flt) * flt :=
  match rest with
  | x :: ((_ :: _) as rest') => if flt_lt (flt_add below x.2) target then advance target rest' (flt_add below x.2) else (rest, below)
  | _ => (rest, below)
  end.

Fixpoint cut (total : flt) (workers : nat) (steps : list nat) (rest : list (list N * flt)) (below : flt) : list (list N) :=
  match steps with
  | [] => []
  | step :: steps' =>
      let target := flt_mul (flt_div (flt_of_Z (Z.of_nat step)) (flt_of_Z (Z.of_nat workers))) total in
      let '(rest, below) := advance target rest below in
      match rest with [] => [] | x :: _ => x.1 :: cut total workers steps' rest below end
  end.

(** [_merge_lexical_boundaries] and, for a lexical key, [merge_boundaries]. *)
Definition merge_lexical_boundaries (grids : list grid) (workers : nat) : list (list N) :=
  if (workers <? 2)%nat then []
  else
    let pooled := py_sorted pair_lt (flat_map (fun g => map (fun v => (v, sample_weight g)) g.1) grids) in
    match pooled with
    | [] => []
    | _ =>
        let total := foldl (fun acc x => flt_add acc x.2) (flt_of_Z 0) pooled in
        sorted_set (cut total workers (seq 1 (workers - 1)) pooled (flt_of_Z 0))
    end.

Definition merge_boundaries (grids : list grid) (workers : nat) : list (list N) :=
  match kept_grids grids with [] => [] | kept => merge_lexical_boundaries kept workers end.

(** [_lexical_hot_share]: the first of the heaviest values, and its share. *)
Definition masses (kept : list grid) : list (list N * flt) :=
  foldl (fun mass g => foldl (fun mass v => dset v (flt_add (default (flt_of_Z 0) (dget v mass)) (sample_weight g)) mass) mass g.1) [] kept.

Fixpoint heaviest (best : list N * flt) (mass : list (list N * flt)) : list N * flt :=
  match mass with
  | [] => best
  | x :: mass' => heaviest (if flt_lt best.2 x.2 then x else best) mass'
  end.

Definition hot_key_share (grids : list grid) : option (list N * flt) :=
  match masses (kept_grids grids) with
  | [] => None
  | x :: mass =>
      let total := foldl (fun acc x => flt_add acc x.2) (flt_of_Z 0) (x :: mass) in
      if flt_le total (flt_of_Z 0) then None
      else let '(hot, m) := heaviest x mass in Some (hot, flt_div m total)
  end.
End Merge.

(** A sort on a lexical key from its grids. *)
Definition distributed_text_sort {row} (sp : sort_plan (list N) row) (grids : list grid) (n_buckets : nat) (partitions : list (list row)) : res (list row) :=
  distributed_sort sp (merge_boundaries grids n_buckets) (hot_key_share grids) n_buckets partitions.
