(* ===== verification/RangeSortSound.v ===== *)
(** * Correctness of the distributed sort

    Whatever the boundaries and whether or not a value is split, the ranges sorted one by one
    and concatenated are the stable sort of the whole relation. *)

From S2P Require Import Prelude PyDict PyFloat StableSort RangeSort.

(** What the partitioning asks of a key: its values are weakly ordered, boundaries strictly; a
    boundary reached by a value is reached by every larger one, and so is every lower boundary;
    the successor is above its value with only ties between. *)
Class RangeKeyLaws (K F : Type) `{RangeKey K F} : Prop := {
  key_order :: WeakOrder (key_lt (K := K));
  bound_order :: WeakOrder (bound_lt (F := F));
  bound_total : forall b b' : F, bound_lt b b' = false -> bound_lt b' b = false -> b = b';
  reaches_up : forall (b : F) (k k' : K), key_lt k' k = false -> reaches b k = true -> reaches b k' = true;
  reaches_down : forall (b b' : F) (k : K), bound_lt b b' = true -> reaches b' k = true -> reaches b k = true;
  successor_above : forall v : F, bound_lt v (successor v) = true;
  successor_tight : forall (v : F) (k k' : K), reaches v k = true -> reaches (successor v) k = false ->
    reaches v k' = true -> reaches (successor v) k' = false -> key_lt k k' = false;
}.

Section Sound.
Context {K F row : Type} `{RangeKeyLaws K F}.
Implicit Types (sp : sort_plan K row).

(** ** The order of the sort *)

Lemma lead_order sp : WeakOrder (lead_lt sp).
Proof.
  split.
  - intros x y. unfold lead_lt. destruct (lead sp x), (lead sp y), (descending sp), (nulls_first sp); try done; apply weak_asym.
  - intros x y z. unfold lead_lt. destruct (lead sp x), (lead sp y), (lead sp z), (descending sp), (nulls_first sp); try done; intros; eapply weak_cotrans; eauto.
Qed.

Lemma keys_order (ks : list (row -> row -> bool)) : Forall (fun k => WeakOrder k) ks -> WeakOrder (keys_lt ks).
Proof.
  induction 1 as [|k ks Hk Hks IH]; [by split|]. split; cbn.
  - intros x y. destruct (k x y) eqn:E1; [by rewrite (weak_asym _ _ E1)|]. destruct (k y x); [done|apply weak_asym].
  - intros x y z. destruct (k y x) eqn:E1; [done|]. destruct (k z y) eqn:E2; [by destruct (k x y)|]. rewrite (weak_cotrans _ _ _ E1 E2).
    destruct (k x y) eqn:E3, (k y z) eqn:E4.
    + intros _ _. destruct (k x z) eqn:E5; [done|]. pose proof (weak_cotrans y z x E2 E5). congruence.
    + intros _ _. destruct (k x z) eqn:E5; [done|]. pose proof (weak_cotrans y z x E2 E5). congruence.
    + intros _ _. destruct (k x z) eqn:E5; [done|]. pose proof (weak_cotrans z x y E5 E1). congruence.
    + intros Hx Hz. destruct (k x z); [done|]. eapply weak_cotrans; eauto.
Qed.

Context (sp : sort_plan K row) (minor_order : Forall (fun k => WeakOrder k) (minor sp)).

#[local] Instance sort_order : WeakOrder (sort_lt sp).
Proof using minor_order H0. apply keys_order. constructor; [apply lead_order|done]. Qed.

Lemma lead_sort x y : lead_lt sp x y = true -> sort_lt sp x y = true.
Proof. unfold sort_lt. cbn. by intros ->. Qed.

(** ** Buckets and the order *)

Lemma reaches_point_up (k k' : K) (bs : list F) : key_lt k' k = false -> (partition_point bs k <= partition_point bs k')%nat.
Proof. intros Hk. induction bs as [|b bs IH]; cbn; [done|]. destruct (reaches b k) eqn:E; [rewrite (reaches_up b k k' Hk E); lia|lia]. Qed.

Lemma point_length (k : K) (bs : list F) : (partition_point bs k <= length bs)%nat.
Proof. induction bs as [|b bs IH]; cbn; [done|]. destruct (reaches b k); lia. Qed.

(** Where a row's bucket is in the order the driver reads. *)
Definition place (n b : nat) : nat := if descending sp then (n - 1 - b)%nat else b.

Abbreviation row_bucket bs n := (fun x => bucket_of bs n (nulls_first sp) (descending sp) (lead sp x)).

Lemma bucket_bound bs n x : (0 < n)%nat -> (row_bucket bs n x < n)%nat.
Proof. intros Hn. unfold bucket_of, null_bucket. destruct (lead sp x); [lia|]. destruct (nulls_first sp), (descending sp); lia. Qed.

Lemma bucket_order (bs : list F) n x y : (place n (row_bucket bs n x) < place n (row_bucket bs n y))%nat -> lead_lt sp x y = true.
Proof.
  unfold place, bucket_of, lead_lt, null_bucket. destruct (lead sp x) as [a|], (lead sp y) as [b|], (descending sp), (nulls_first sp); try done; try lia.
  all: intros Hlt; match goal with |- key_lt ?u ?v = true => destruct (key_lt u v) eqn:E; [done|]; pose proof (reaches_point_up _ _ bs E); lia end.
Qed.

Lemma unsplit_assigned (bs : list F) n parts : (0 < n)%nat -> well_assigned (sort_lt sp) (fun _ x => place n (row_bucket bs n x)) n parts.
Proof.
  intros Hn. split.
  - intros w x _. pose proof (bucket_bound bs n x Hn). unfold place. destruct (descending sp); lia.
  - intros w x w' y _ _ Hlt. left. apply lead_sort. by eapply bucket_order.
Qed.

(** ** The split *)

Lemma sorted_set_elem (l : list F) x : x ∈ sorted_set l <-> x ∈ l.
Proof. unfold sorted_set. by rewrite py_sorted_perm, elem_of_remove_dups. Qed.

Lemma sorted_set_strict (l : list F) : StronglySorted (fun x y => bound_lt x y = true) (sorted_set l).
Proof.
  pose proof (py_sorted_in_order bound_lt (remove_dups l)) as Hs. assert (NoDup (sorted_set l)) as Hn by (unfold sorted_set; rewrite py_sorted_perm; apply NoDup_remove_dups).
  fold (sorted_set l) in Hs. induction Hs as [|x l' Hs IH Hx]; [constructor|]. apply NoDup_cons in Hn as [Hnx Hn]. constructor; [by apply IH|].
  rewrite Forall_forall in Hx |- *. intros y Hy. specialize (Hx y Hy). destruct (bound_lt x y) eqn:E; [done|]. rewrite (bound_total x y E Hx) in Hnx. done.
Qed.

Lemma index_of_lookup (x : F) l : x ∈ l -> l !! index_of x l = Some x.
Proof. induction 1 as [x l|x y l Hx IH]; cbn; [by rewrite decide_True|]. by destruct (decide (x = y)) as [->|]. Qed.

(** A boundary is reached exactly when the router has passed it. *)
Lemma point_reaches (bs : list F) (k : K) : StronglySorted (fun x y => bound_lt x y = true) bs ->
  forall i b, bs !! i = Some b -> reaches b k = true <-> (i < partition_point bs k)%nat.
Proof.
  induction 1 as [|b0 bs Hs IH Hb]; [done|]. intros [|i] b; cbn.
  - intros [= ->]. destruct (reaches b k); split; (done || lia).
  - intros Hi. rewrite Forall_forall in Hb. specialize (Hb b (list_elem_of_lookup_2 _ _ _ Hi)). destruct (reaches b0 k) eqn:E.
    + rewrite (IH i b Hi). lia.
    + split; [|lia]. intros Hr. pose proof (reaches_down _ _ _ Hb Hr). congruence.
Qed.

(** The rows of a dominant value's bucket tie on the key. *)
Lemma hot_bucket_ties boundaries (hot : F) n (k k' : K) : (length (isolate_hot_value boundaries hot).1 < n)%nat ->
  bucket_of (isolate_hot_value boundaries hot).1 n (nulls_first sp) (descending sp) (Some k) = (isolate_hot_value boundaries hot).2 ->
  bucket_of (isolate_hot_value boundaries hot).1 n (nulls_first sp) (descending sp) (Some k') = (isolate_hot_value boundaries hot).2 ->
  key_lt k k' = false.
Proof.
  unfold isolate_hot_value. cbn. set (ws := sorted_set _). intros Hn Hk Hk'. pose proof (sorted_set_strict (boundaries ++ [hot; successor hot])) as Hs. fold ws in Hs.
  assert (hot ∈ ws /\ successor hot ∈ ws) as [H1 H2] by (split; apply sorted_set_elem, elem_of_app; right; set_solver).
  pose proof (index_of_lookup _ _ H1) as Hi. apply list_elem_of_lookup in H2 as [j Hj].
  assert (index_of hot ws < j)%nat as Hij.
  { destruct (decide (index_of hot ws < j)%nat) as [|Hge]; [done|]. pose proof (successor_above hot) as Ha.
    destruct (decide (index_of hot ws = j)) as [Ej|Hne]; [rewrite <- Ej, Hi in Hj; injection Hj as Hj; rewrite <- Hj in Ha; by rewrite weak_irrefl in Ha by apply _|].
    assert (bound_lt (successor hot) hot = true) as Hb; [|rewrite (weak_asym _ _ Hb) in Ha; done].
    assert (j < index_of hot ws)%nat as Hlt by lia. clear -Hs Hi Hj Hlt. revert j Hj Hlt Hi. generalize (index_of hot ws) as i. revert Hs. generalize ws. clear ws.
    intros l Hs. induction Hs as [|b l Hs IH Hb]; intros i j Hj Hlt Hi; [done|]. destruct i as [|i]; [lia|]. destruct j as [|j]; cbn in *.
    - injection Hj as <-. rewrite Forall_forall in Hb. apply Hb. by eapply list_elem_of_lookup_2.
    - apply (IH i j Hj ltac:(lia) Hi). }
  pose proof (point_length k ws) as L1. pose proof (point_length k' ws) as L2.
  assert (forall q : K, Nat.min (partition_point ws q) (n - 1) = S (index_of hot ws) -> reaches hot q = true /\ reaches (successor hot) q = false) as Hq.
  { intros q E. pose proof (point_length q ws). assert (partition_point ws q = S (index_of hot ws)) as Eq by lia. split.
    - apply (point_reaches ws q Hs _ _ Hi). lia.
    - destruct (reaches (successor hot) q) eqn:Er; [|done]. apply (point_reaches ws q Hs _ _ Hj) in Er. lia. }
  destruct (Hq k Hk), (Hq k' Hk'). by apply (successor_tight hot).
Qed.

(** The physical bucket of a row. *)
Definition physical (bs : list F) (n hb subs n_mappers w : nat) (x : row) : nat :=
  let b := row_bucket bs n x in
  if (b <? hb)%nat then b else if (b =? hb)%nat then (hb + hot_sub_bucket w n_mappers subs false)%nat else (b + subs - 1)%nat.

Lemma hot_sub_mono w w' m subs : (w <= w')%nat -> (hot_sub_bucket w m subs false <= hot_sub_bucket w' m subs false)%nat.
Proof. intros Hw. unfold hot_sub_bucket. assert (w * subs / Nat.max 1 m <= w' * subs / Nat.max 1 m)%nat; [apply Nat.Div0.div_le_mono; nia|lia]. Qed.

Lemma split_assigned boundaries hot n subs parts :
  (length (isolate_hot_value boundaries hot).1 < n)%nat -> (0 < subs)%nat -> descending sp = false -> minor sp = [] ->
  (isolate_hot_value boundaries hot).2 <> null_bucket n (nulls_first sp) false -> ((isolate_hot_value boundaries hot).2 < n)%nat ->
  well_assigned (sort_lt sp) (physical (isolate_hot_value boundaries hot).1 n (isolate_hot_value boundaries hot).2 subs (length parts)) (n + subs - 1) parts.
Proof.
  set (bs := (isolate_hot_value boundaries hot).1). set (hb := (isolate_hot_value boundaries hot).2). intros Hl Hs Hd Hm Hnull Hhb. split.
  - intros w x _. pose proof (bucket_bound bs n x ltac:(lia)) as Hx. unfold physical, hot_sub_bucket. cbn beta zeta in *. revert Hx.
    generalize (bucket_of bs n (nulls_first sp) (descending sp) (lead sp x)). intros b Hx.
    destruct (Nat.ltb_spec b hb); [lia|]. destruct (Nat.eqb_spec b hb); lia.
  - intros w x w' y _ _ Hlt. destruct (decide (row_bucket bs n x < row_bucket bs n y)%nat) as [Hb|Hb].
    { left. apply lead_sort. apply (bucket_order bs n). unfold place. by rewrite Hd in *. }
    right. unfold physical in Hlt.
    assert (row_bucket bs n x = hb /\ row_bucket bs n y = hb) as [Ex Ey].
    { revert Hlt Hb. unfold hot_sub_bucket. cbn beta zeta.
      generalize (bucket_of bs n (nulls_first sp) (descending sp) (lead sp x)) as bx, (bucket_of bs n (nulls_first sp) (descending sp) (lead sp y)) as by_.
      intros bx by_. destruct (Nat.ltb_spec bx hb), (Nat.eqb_spec bx hb), (Nat.ltb_spec by_ hb), (Nat.eqb_spec by_ hb); lia. }
    cbn beta in Hlt, Ex, Ey. rewrite Ex, Ey in Hlt. rewrite Nat.ltb_irrefl, Nat.eqb_refl in Hlt. split.
    + unfold sort_lt. rewrite Hm. cbn. assert (lead_lt sp y x = false) as ->; [|by destruct (lead_lt sp x y)]. unfold lead_lt. rewrite Hd in *.
      destruct (lead sp x) as [a|] eqn:Ea; [|unfold bucket_of in Ex; congruence]. destruct (lead sp y) as [b|] eqn:Eb; [|unfold bucket_of in Ey; congruence].
      apply (hot_bucket_ties boundaries hot n); [done|rewrite Hd; exact Ey|rewrite Hd; exact Ex].
    + destruct (decide (w < w')%nat) as [|Hge]; [done|]. pose proof (hot_sub_mono w' w (length parts) subs ltac:(lia)). lia.
Qed.

(** ** Reading the ranges *)

Lemma reduce_sorted (shards : list (list row)) : default [] (sort_reduce_task sp shards) = single_node_sort sp (concat shards).
Proof.
  unfold sort_reduce_task. destruct (concat shards) as [|x l] eqn:E; [|by destruct (single_node_sort sp (x :: l))].
  unfold single_node_sort, limited. cbn. destruct (limit sp); by rewrite ?take_nil.
Qed.

Lemma through_limit (ordered : list (option (list row))) (k : nat) : forall held,
  take (k - held) (concat (buckets_through_limit ordered (Some k) held)) = take (k - held) (concat (map (default []) ordered)).
Proof.
  induction ordered as [|o ordered IH]; intros held; cbn [buckets_through_limit map concat]; [done|].
  destruct (Nat.leb_spec k held) as [Hle|Hlt]; [replace (k - held)%nat with 0%nat by lia; by rewrite !take_0|].
  destruct o as [rows|]; cbn [default concat]; [|apply IH]. rewrite !take_app. f_equal. specialize (IH (held + length rows)%nat).
  by replace (k - (held + length rows))%nat with (k - held - length rows)%nat in IH by lia.
Qed.

Lemma limited_through n (ordered : list (option (list row))) : limited n (concat (buckets_through_limit ordered n 0)) = limited n (concat (map (default []) ordered)).
Proof.
  destruct n as [k|]; cbn; [pose proof (through_limit ordered k 0) as Ht; by rewrite Nat.sub_0_r in Ht|].
  generalize 0%nat. induction ordered as [|o ordered IH]; intros held; cbn; [done|]. destruct o as [rows|]; cbn; by rewrite IH.
Qed.

Lemma limited_concat n (ls : list (list row)) : limited n (concat (map (limited n) ls)) = limited n (concat ls).
Proof.
  destruct n as [k|]; cbn; [|f_equal; apply map_id]. assert (forall j, (j <= k)%nat -> take j (concat (map (limited (Some k)) ls)) = take j (concat ls)) as Hj; [|by apply Hj].
  induction ls as [|l ls IH]; intros j Hj; cbn; [done|]. rewrite !take_app, take_take, length_take, Nat.min_l by done.
  destruct (decide (j <= length l)%nat) as [Hl|Hl].
  - replace (j - length l)%nat with 0%nat by lia. replace (j - (k `min` length l))%nat with 0%nat by lia. by rewrite !take_0.
  - rewrite Nat.min_r by lia. f_equal. apply IH. lia.
Qed.

(** The ranges in order, when the buckets are assigned in order. *)
Lemma ranges_sorted assign n parts (task : nat -> list row -> list (list row)) : well_assigned (sort_lt sp) assign n parts ->
  (forall w p r, parts !! w = Some p -> (r < n)%nat -> nth r (task w p) [] = List.filter (fun x => assign w x =? r)%nat p) ->
  limited (limit sp) (concat (map (default []) (map (fun r => sort_reduce_task sp (map (fun buckets => nth r buckets []) (imap task parts))) (seq 0 n)))) =
  single_node_sort sp (concat parts).
Proof.
  intros Ha Ht. unfold single_node_sort at 1. rewrite <- (sort_by_buckets (sort_lt sp) assign n parts Ha).
  rewrite <- (limited_concat _ (map (fun r => py_sorted (sort_lt sp) (gathered assign parts r)) (seq 0 n))). rewrite !map_map. f_equal. f_equal. apply map_ext_in. intros r Hr%in_seq. rewrite reduce_sorted. unfold single_node_sort. f_equal. f_equal. unfold gathered. f_equal.
  change (map ?f ?l) with (f <$> l). rewrite fmap_imap. apply imap_ext. intros w p Hp. cbn. apply Ht; [done|lia].
Qed.

Lemma nth_bucketize (bs : list F) n rows r : (r < n)%nat -> nth r (bucketize sp rows bs n) [] = List.filter (fun x => row_bucket bs n x =? r)%nat rows.
Proof.
  intros Hr. unfold bucketize. rewrite (nth_indep _ [] (List.filter (fun x => row_bucket bs n x =? n)%nat rows)) by (by rewrite length_map, length_seq).
  rewrite (map_nth (fun b => List.filter (fun x => row_bucket bs n x =? b)%nat rows) (seq 0 n) n r). by rewrite seq_nth by done.
Qed.

Lemma filter_no_match (p : row -> bool) l : (forall x, p x = false) -> List.filter p l = [].
Proof. intros Hp. induction l as [|x l IH]; cbn; [done|]. by rewrite Hp. Qed.

Lemma nth_split (bs : list F) n hb subs m w rows r : (hb < n)%nat -> (1 < subs)%nat -> descending sp = false -> (r < n + subs - 1)%nat ->
  nth r (range_task sp bs n (Some (hb, subs)) m w rows) [] = List.filter (fun x => physical bs n hb subs m w x =? r)%nat rows.
Proof.
  intros Hh Hs Hd Hr. unfold range_task. rewrite (proj2 (Nat.ltb_lt _ _) Hs). unfold split_hot_bucket. rewrite Hd.
  assert (length (bucketize sp rows bs n) = n) as Hl by (unfold bucketize; by rewrite length_map, length_seq).
  assert (hot_sub_bucket w m subs false < subs)%nat as Hsub by (unfold hot_sub_bucket; lia).
  set (sub := hot_sub_bucket w m subs false) in *. unfold physical. fold sub. cbn beta zeta.
  assert (forall v x, (forall q, q = row_bucket bs n x -> (q =? v)%nat = ((if q <? hb then q else if q =? hb then hb + sub else q + subs - 1) =? r))%nat ->
    ((row_bucket bs n x =? v) = ((if row_bucket bs n x <? hb then row_bucket bs n x else if row_bucket bs n x =? hb then hb + sub else row_bucket bs n x + subs - 1) =? r))%nat) as Hq by (intros v x Hx; by apply Hx).
  destruct (decide (r < hb)%nat) as [H1|H1]; [|destruct (decide (r < hb + subs)%nat) as [H2|H2]].
  - rewrite app_nth1 by (rewrite length_take; lia). rewrite nth_lookup, lookup_take_lt, <- nth_lookup by done. rewrite nth_bucketize by lia. apply filter_ext. intros x. apply Hq. intros q _.
    destruct (Nat.ltb_spec q hb), (Nat.eqb_spec q hb), (Nat.eqb_spec q r); try done; symmetry; rewrite ?Nat.eqb_eq, ?Nat.eqb_neq; lia.
  - rewrite app_nth2 by (rewrite length_take; lia). rewrite length_take, Hl, Nat.min_l by lia. rewrite app_nth1 by (rewrite length_map, length_seq; lia).
    rewrite (nth_indep _ [] (if decide (0 = sub)%nat then nth hb (bucketize sp rows bs n) [] else [])) by (rewrite length_map, length_seq; lia).
    rewrite (map_nth (fun j => if decide (j = sub) then nth hb (bucketize sp rows bs n) [] else []) (seq 0 subs) 0%nat), seq_nth by lia. cbn [Nat.add].
    case_decide as E.
    + rewrite nth_bucketize by lia. apply filter_ext. intros x. apply Hq. intros q _.
      destruct (Nat.ltb_spec q hb), (Nat.eqb_spec q hb); try done; symmetry; rewrite ?Nat.eqb_eq, ?Nat.eqb_neq; lia.
    + symmetry. apply filter_no_match. intros x. clear Hq. cbn beta. match goal with |- context [bucket_of ?a ?b ?c ?d ?u] => generalize (bucket_of a b c d u) end. intros q.
      destruct (Nat.ltb_spec q hb), (Nat.eqb_spec q hb); apply Nat.eqb_neq; lia.
  - rewrite app_nth2 by (rewrite length_take; lia). rewrite length_take, Hl, Nat.min_l by lia. rewrite app_nth2 by (rewrite length_map, length_seq; lia).
    rewrite length_map, length_seq, nth_lookup, lookup_drop, <- nth_lookup. rewrite nth_bucketize by lia. apply filter_ext. intros x. apply Hq. intros q _.
    destruct (Nat.ltb_spec q hb), (Nat.eqb_spec q hb), (Nat.eqb_spec q (S hb + (r - hb - subs))); try lia; symmetry; rewrite ?Nat.eqb_eq, ?Nat.eqb_neq; lia.
Qed.
End Sound.
