(* ===== verification/RangeSortUse.v ===== *)
(** * What the distributed sort promises

    The sort is the single-node sort, for byte keys without any assumption and for other keys
    under the laws of [RangeKeyLaws], which doubles keep only where integers fit them. *)

From Stdlib Require Import Floats.SpecFloat.
From S2P Require Import Prelude PyDict PyFloat StableSort RangeSort RangeSortSound.

(** ** Byte keys *)

Lemma bytes_lt_asym a : forall b, bytes_lt a b = true -> bytes_lt b a = false.
Proof.
  induction a as [|x a IH]; intros [|y b]; cbn; try done. destruct (N.ltb_spec x y), (N.ltb_spec y x); try done; try lia. apply IH.
Qed.

Lemma bytes_lt_cotrans a : forall b c, bytes_lt b a = false -> bytes_lt c b = false -> bytes_lt c a = false.
Proof.
  induction a as [|x a IH]; intros [|y b] [|z c]; cbn; try done.
  destruct (N.ltb_spec y x), (N.ltb_spec x y), (N.ltb_spec z y), (N.ltb_spec y z), (N.ltb_spec z x), (N.ltb_spec x z); try done; try lia. apply IH.
Qed.

Lemma bytes_lt_total a : forall b, bytes_lt a b = false -> bytes_lt b a = false -> a = b.
Proof.
  induction a as [|x a IH]; intros [|y b]; cbn; try done. destruct (N.ltb_spec x y), (N.ltb_spec y x); try done; try lia. intros H1 H2.
  f_equal; [lia|auto].
Qed.

Lemma bytes_lt_successor a : bytes_lt a (a ++ [0%N]) = true.
Proof. induction a as [|x a IH]; cbn; [done|]. by rewrite N.ltb_irrefl. Qed.

Lemma bytes_lt_tight a : forall b, bytes_lt b a = false -> bytes_lt b (a ++ [0%N]) = true -> b = a.
Proof.
  induction a as [|x a IH]; intros [|y b]; cbn; try done.
  - destruct (N.ltb_spec y 0), (N.ltb_spec 0 y); try done; try lia. by destruct b.
  - destruct (N.ltb_spec y x), (N.ltb_spec x y); try done; try lia. intros H1 H2. f_equal; [lia|auto].
Qed.

#[export] Instance byte_order : WeakOrder bytes_lt.
Proof. split; [apply bytes_lt_asym|apply bytes_lt_cotrans]. Defined.

#[export] Instance byte_key_laws : RangeKeyLaws (list N) (list N).
Proof.
  split; cbn.
  - apply byte_order.
  - apply byte_order.
  - apply bytes_lt_total.
  - intros b k k' Hk. rewrite !negb_true_iff. intros Hb. by apply (weak_cotrans b k k').
  - intros b b' k Hb. rewrite !negb_true_iff. intros Hk. apply (weak_cotrans b b' k); [by apply weak_asym|done].
  - apply bytes_lt_successor.
  - intros v k k'. rewrite !negb_true_iff, !negb_false_iff. intros H1 H2 H3 H4. rewrite (bytes_lt_tight v k), (bytes_lt_tight v k') by done. apply weak_irrefl. apply byte_order.
Defined.

(** ** The sort *)

Lemma rev_seq_map {B} (f : nat -> B) n : rev (map f (seq 0 n)) = map (fun r => f (n - 1 - r)%nat) (seq 0 n).
Proof.
  induction n as [|n IH]; [done|]. rewrite seq_S, map_app, rev_app_distr at 1. cbn [map rev app Nat.add]. rewrite IH. cbn [seq map].
  replace (S n - 1 - 0)%nat with n by lia. f_equal. rewrite <- seq_shift, map_map. apply map_ext_in. intros r Hr%in_seq. f_equal. lia.
Qed.

Lemma length_range_task {K F row} `{RangeKey K F} (sp : sort_plan K row) (bs : list F) n m w p : length (range_task sp bs n None m w p) = n.
Proof. unfold range_task, bucketize. by rewrite length_map, length_seq. Qed.

(** The answer [plan_hot_split] raises on: a dominant value whose share of the buckets of this
    very sort is no finite number, so that [math.ceil] has no integer for it. *)
Definition unbounded_share {K F} `{RangeKey K F} (boundaries : list F) (n_buckets : nat) (hot : option (F * flt)) : Prop :=
  exists v share, hot = Some (v, share) /\
    flt_ceil (flt_mul share (flt_of_Z (Z.of_nat (Nat.max n_buckets (S (length (isolate_hot_value boundaries v).1)))))) = None.

(** C14: the distributed sort is the single-node sort, for keys whose boundaries order them
    faithfully ([RangeKeyLaws]).  Whatever boundaries the samples gave (stale, too many, or out
    of balance), however many buckets, whether or not a dominant value is spread over several
    reducers, for either direction, either place of the nulls, any further keys and any limit,
    the ranges sorted one by one and concatenated are the first rows of the stable sort of the
    parts in order.  The only other outcome is that the sort raises, which it does only for a
    dominant value whose share of this sort's own buckets is not a finite number. *)
Theorem distributed_sort_exact {K F row} `{RangeKeyLaws K F} (sp : sort_plan K row) boundaries hot n_buckets partitions :
  Forall (fun k => WeakOrder k) (minor sp) -> (0 < n_buckets)%nat ->
  distributed_sort sp boundaries hot n_buckets partitions = Ok (single_node_sort sp (concat partitions)) \/
  (unbounded_share boundaries n_buckets hot /\ is_ok (distributed_sort sp boundaries hot n_buckets partitions) = false).
Proof.
  intros Hm Hn. unfold distributed_sort. destruct (plan_hot_split _ _ _ _ _ _) as [[[[[ws n] hb] subs]|]|e] eqn:Ep; cbn [mbind res_bind]; rewrite ?limited_through.
  - left. unfold plan_hot_split in Ep. destruct (descending sp) eqn:Ed; [done|]. destruct (minor sp) eqn:Em; [|done]. cbn [negb] in Ep.
    destruct hot as [[v share]|]; [|done]. destruct (flt_lt _ _); [done|]. destruct (negb (forallb _ _)); [done|].
    destruct (isolate_hot_value boundaries v) as [ws' hb'] eqn:Ei. case_decide as Hnull; [done|]. destruct (flt_ceil _) as [c|]; [|done]. injection Ep as -> <- -> <-.
    f_equal.
    set (n := Nat.max n_buckets (S (length ws))) in *. pose proof (f_equal fst Ei) as E1. pose proof (f_equal snd Ei) as E2. cbn in E1, E2.
    assert (hb < n)%nat as Hhb.
    { rewrite <- E2. unfold isolate_hot_value. cbn. unfold isolate_hot_value in E1. cbn in E1.
      assert (v ∈ sorted_set (boundaries ++ [v; successor v])) as Hv by (apply sorted_set_elem, elem_of_app; right; left).
      apply index_of_lookup, lookup_lt_Some in Hv. rewrite E1 in Hv |- *. lia. }
    assert (length ws < n)%nat as Hlen by lia. clearbody n. rewrite <- E1 in Hlen |- *. rewrite <- E2 in Hhb, Hnull |- *. clear Ei E1 E2.
    apply (ranges_sorted sp ltac:(by rewrite Em) (physical sp (isolate_hot_value boundaries v).1 n (isolate_hot_value boundaries v).2 (Z.to_nat (Z.max 2 (Z.min MAX_HOT_SUBS c))) (length partitions))).
    + apply split_assigned; [by rewrite Em|done|lia|done|done|exact Hnull|done].
    + intros w p r Hp Hr. apply nth_split; [done|lia|done|done].
  - left. f_equal.
    assert (forall w p r, partitions !! w = Some p -> (r < n_buckets)%nat ->
      nth r (range_task sp boundaries n_buckets None (length partitions) w p) [] = List.filter (fun x => bucket_of boundaries n_buckets (nulls_first sp) (descending sp) (lead sp x) =? r)%nat p) as Hnth
      by (intros w p r _ Hr; by apply nth_bucketize).
    destruct (descending sp) eqn:Ed.
    + rewrite rev_seq_map.
      rewrite <- (ranges_sorted sp Hm (fun _ x => place sp n_buckets (bucket_of boundaries n_buckets (nulls_first sp) (descending sp) (lead sp x))) n_buckets partitions
        (fun w p => rev (range_task sp boundaries n_buckets None (length partitions) w p))); [|by apply unsplit_assigned|].
      * f_equal. f_equal. f_equal. apply map_ext_in. intros r Hr%in_seq. f_equal. change (map ?f ?l) with (f <$> l). rewrite !fmap_imap. apply imap_ext.
        intros w p Hp. unfold compose. cbn beta. rewrite rev_nth by (rewrite length_range_task; lia). rewrite length_range_task. f_equal. lia.
      * intros w p r Hp Hr. rewrite rev_nth by (by rewrite length_range_task). rewrite length_range_task, Hnth by (done || lia). apply filter_ext. intros x. cbn beta.
        pose proof (bucket_bound sp boundaries n_buckets x Hn) as Hb. cbn beta in Hb. rewrite Ed in Hb |- *. unfold place. rewrite Ed.
        revert Hb. generalize (bucket_of boundaries n_buckets (nulls_first sp) true (lead sp x)). intros b Hb.
        destruct (Nat.eqb_spec b (n_buckets - S r)); symmetry; rewrite ?Nat.eqb_eq, ?Nat.eqb_neq; lia.
    + apply (ranges_sorted sp Hm (fun _ x => place sp n_buckets (bucket_of boundaries n_buckets (nulls_first sp) (descending sp) (lead sp x)))); [by apply unsplit_assigned|].
      intros w p r Hp Hr. rewrite Hnth by done. unfold place. by rewrite Ed.
  - right. unfold plan_hot_split in Ep. destruct (descending sp); [done|]. destruct (negb _); [done|]. destruct hot as [[v share]|]; [|done].
    destruct (flt_lt _ _); [done|]. destruct (negb _); [done|]. destruct (isolate_hot_value boundaries v) as [ws' hb'] eqn:Ei. case_decide; [done|].
    destruct (flt_ceil _) eqn:Ec; [done|]. split; [|done]. exists v, share. by rewrite Ei.
Qed.

(** Rows of a byte key and a payload, sorted by the key alone. *)
Definition by_key (limit : option nat) : sort_plan (list N) (list N * Z) := SortPlan (fun x => Some x.1) false false [] limit.

(** Three mappers, most of whose rows have the key "b". *)
Definition skewed_parts : list (list (list N * Z)) :=
  [[([98%N], 1); ([97%N], 2); ([98%N], 3)]; [([98%N], 4); ([99%N], 5)]; [([98%N], 6); ([98%N; 0%N], 7); ([98%N], 8)]].
Definition skewed_grids : list grid := [([[97%N]; [98%N]; [98%N]], 3); ([[98%N]; [99%N]], 2); ([[98%N]; [98%N]; [98%N; 0%N]], 3)].

Lemma distributed_sort_exact_witness :
  let hot := hot_key_share skewed_grids in
  (exists ws hb subs, plan_hot_split hot (merge_boundaries skewed_grids 4) 4 false false true = Ok (Some (ws, 4, hb, subs))%nat /\ subs = 3%nat) /\
  distributed_text_sort (by_key (Some 6)%nat) skewed_grids 4 skewed_parts =
    Ok [([97%N], 2); ([98%N], 1); ([98%N], 3); ([98%N], 4); ([98%N], 6); ([98%N], 8)] /\
  single_node_sort (by_key (Some 6)%nat) (concat skewed_parts) = [([97%N], 2); ([98%N], 1); ([98%N], 3); ([98%N], 4); ([98%N], 6); ([98%N], 8)].
Proof.
  split; [eexists _, _, _; split; vm_compute; reflexivity|].
  destruct (distributed_sort_exact (by_key (Some 6)%nat) (merge_boundaries skewed_grids 4) (hot_key_share skewed_grids) 4 skewed_parts) as [E|E]; [constructor|lia|..].
  - unfold distributed_text_sort. rewrite E. split; vm_compute; reflexivity.
  - exfalso. destruct E as [_ E]. vm_compute in E. discriminate.
Defined.

(** a dominant integer beyond 2^53 mis-sorts its neighbours.  [isolate_hot_value] says that
    its two boundaries leave the dominant value alone in its bucket, for an integer key because
    every other key is at least a whole unit away; but the router compares keys as doubles, where
    2^53 + 1 is 2^53.  The two share the bucket that is spread over mappers in mapper order, and
    the sort returns them out of order. *)
Theorem wide_integers_mis_sorted :
  let sp : sort_plan Z Z := SortPlan (fun x => Some x) false false [] None in
  let parts := [[2 ^ 53 + 1; 1]; [2 ^ 53; 2 ^ 53]] in
  let share := flt_div (flt_of_Z 3) (flt_of_Z 4) in
  distributed_sort sp [flt_of_Z 10] (Some (flt_of_Z (2 ^ 53), share)) 4 parts = Ok [1; 2 ^ 53 + 1; 2 ^ 53; 2 ^ 53] /\
  single_node_sort sp (concat parts) = [1; 2 ^ 53; 2 ^ 53; 2 ^ 53 + 1].
Proof. split; vm_compute; reflexivity. Qed.
