(* ===== verification/SortGrids.v ===== *)
(** * Learned sort grids

    dist/sort_boundaries.py: the samples of a distributed sort stored in the metadata hub, which
    holds JSON, and read back by a later sort of the same shape. *)

From S2P Require Import Prelude PyFloat RangeSort.

(** A boundary: text and bytes as their characters, numbers as doubles. *)
Inductive boundary := Text (s : list N) | Binary (b : list N) | Number (x : flt).

Inductive grid_kind := KText | KBinary | KNumeric.
#[global] Instance grid_kind_eq_dec : EqDecision grid_kind.
Proof. solve_decision. Defined.

(** [_kind_of_value]. *)
Definition kind_of_value (v : boundary) : grid_kind := match v with Text _ => KText | Binary _ => KBinary | Number _ => KNumeric end.

(** [bytes.hex] and [bytes.fromhex], which skips white space between bytes and raises on
    anything else. *)
Definition hex_digit (n : N) : N := if (n <? 10)%N then (48 + n)%N else (87 + n)%N.
Definition hex (b : list N) : list N := flat_map (fun x => [hex_digit (x / 16); hex_digit (x mod 16)])%N b.

Definition digit_value (c : N) : option N :=
  if (48 <=? c)%N && (c <=? 57)%N then Some (c - 48)%N
  else if (97 <=? c)%N && (c <=? 102)%N then Some (c - 87)%N
  else if (65 <=? c)%N && (c <=? 70)%N then Some (c - 55)%N
  else None.
Definition white (c : N) : bool := ((9 <=? c)%N && (c <=? 13)%N) || (c =? 32)%N.
Fixpoint fromhex (s : list N) : option (list N) :=
  match s with
  | [] => Some []
  | c :: s' =>
      if white c then fromhex s'
      else match s' with
           | [] => None
           | d :: s'' => x ← digit_value c; y ← digit_value d; l ← fromhex s''; Some (16 * x + y :: l)%N
           end
  end.

(** [_BINARY_MARK], "0x". *)
Definition BINARY_MARK : list N := [48; 120]%N.

(** [_encode_grid] and [_decode_grid]. *)
Definition encode_value (v : boundary) : boundary := match v with Binary b => Text (BINARY_MARK ++ hex b) | _ => v end.
Definition decode_value (v : boundary) : boundary :=
  match v with
  | Text (48 :: 120 :: s)%N => match fromhex s with Some b => Binary b | None => v end
  | _ => v
  end.

Definition stored_grid : Type := list boundary * Z.
Definition hub : Type := gmap string (list stored_grid).
Definition MAX_GRIDS : nat := 256.

Definition describes_rows (g : stored_grid) : bool := match g.1 with [] => false | _ => negb (g.2 =? 0) end.

(** [persist_grids] and [load_learned_grids], on a hub that answers. *)
Definition persist_grids (h : hub) (shape_key : string) (grids : list stored_grid) : hub :=
  match take MAX_GRIDS (map (fun g => (map encode_value g.1, g.2)) (List.filter describes_rows grids)) with
  | [] => h
  | kept => <[shape_key := kept]> h
  end.

Definition load_learned_grids (h : hub) (shape_key : string) (expect_kind : option grid_kind) : option (list stored_grid) :=
  match h !! shape_key with
  | None | Some [] => None
  | Some stored =>
      let grids := map (fun g => (map decode_value g.1, g.2)) (List.filter describes_rows stored) in
      let wrong := match expect_kind with
                   | None => false
                   | Some k => existsb (fun g => match g.1 with v :: _ => negb (bool_decide (kind_of_value v = k)) | [] => false end) grids
                   end in
      if wrong then None else match grids with [] => None | _ => Some grids end
  end.

(** ** Round trip *)

(** Bytes. *)
Definition is_bytes (b : list N) : Prop := Forall (fun x => x < 256)%N b.

Lemma digit_hex n : (n < 16)%N -> digit_value (hex_digit n) = Some n /\ white (hex_digit n) = false.
Proof.
  intros Hn. unfold digit_value, hex_digit, white. destruct (N.ltb_spec n 10).
  - rewrite (proj2 (N.leb_le 48 _)), (proj2 (N.leb_le _ 57)) by lia. cbn. split; [f_equal; lia|]. apply orb_false_iff. split; [|apply N.eqb_neq; lia].
    apply andb_false_iff. right. apply N.leb_gt. lia.
  - rewrite (proj2 (N.leb_gt _ 57)) by lia. rewrite andb_false_r. rewrite (proj2 (N.leb_le 97 _)), (proj2 (N.leb_le _ 102)) by lia. cbn. split; [f_equal; lia|].
    apply orb_false_iff. split; [|apply N.eqb_neq; lia]. apply andb_false_iff. right. apply N.leb_gt. lia.
Qed.

Lemma fromhex_hex b : is_bytes b -> fromhex (hex b) = Some b.
Proof.
  induction 1 as [|x b Hx Hb IH]; [done|]. assert (x / 16 < 16)%N as H1 by (apply N.Div0.div_lt_upper_bound; lia). pose proof (N.mod_lt x 16 ltac:(done)) as H2.
  destruct (digit_hex _ H1) as [D1 W1], (digit_hex _ H2) as [D2 W2].
  change (fromhex (hex (x :: b))) with (fromhex (hex_digit (x / 16) :: hex_digit (x mod 16) :: hex b)). cbn [fromhex]. rewrite W1, D1, D2, IH. cbn.
  do 2 f_equal. rewrite (N.div_mod x 16) at 3 by done. done.
Qed.

(** A boundary that reads back as itself: bytes always, text unless it looks like marked bytes. *)
Definition faithful (v : boundary) : Prop :=
  match v with Binary b => is_bytes b | Text _ => decode_value v = v | Number _ => True end.

Lemma decode_encode v : faithful v -> decode_value (encode_value v) = v.
Proof. destruct v as [s|b|x]; cbn [encode_value faithful]; [done| |done]. intros Hb. cbn. by rewrite (fromhex_hex b Hb). Qed.

(** a learned grid reads back as it was measured.  After [persist_grids], a load under the
    same shape returns the grids that describe rows, at most 256 of them, when every boundary is
    of the kind the key needs and no text boundary is "0x" followed by hexadecimal. *)
Theorem learned_grids_round_trip (h : hub) shape_key grids kind :
  Forall (fun g => Forall (fun v => faithful v /\ kind_of_value v = kind) g.1) grids -> Exists (fun g => describes_rows g = true) grids ->
  load_learned_grids (persist_grids h shape_key grids) shape_key (Some kind) = Some (take MAX_GRIDS (List.filter describes_rows grids)).
Proof.
  intros Hg He. unfold persist_grids.
  assert (take MAX_GRIDS (map (fun g => (map encode_value g.1, g.2)) (List.filter describes_rows grids)) =
    map (fun g => (map encode_value g.1, g.2)) (take MAX_GRIDS (List.filter describes_rows grids))) as -> by (by rewrite firstn_map).
  set (kept := take MAX_GRIDS _).
  assert (Forall (fun g => describes_rows g = true /\ Forall (fun v => faithful v /\ kind_of_value v = kind) g.1) kept) as Hk.
  { apply Forall_take, Forall_forall. intros g Hin%list_elem_of_In%filter_In. rewrite Forall_forall in Hg. split; [tauto|]. apply Hg. apply list_elem_of_In. tauto. }
  assert (kept <> []) as Hne.
  { subst kept. clear -He. induction He as [g l Hd|g l He IH]; cbn [List.filter]; [by rewrite Hd|]. by destruct (describes_rows g). }
  destruct kept as [|g0 kept0] eqn:Ek; [done|]. cbn [map]. unfold load_learned_grids, hub in *. rewrite lookup_insert_eq.
  change ((map encode_value g0.1, g0.2) :: map (fun g => (map encode_value g.1, g.2)) kept0) with (map (fun g : stored_grid => (map encode_value g.1, g.2)) (g0 :: kept0)).
  assert (forall l : list stored_grid, Forall (fun g => describes_rows g = true /\ Forall (fun v => faithful v /\ kind_of_value v = kind) g.1) l ->
    map (fun g => (map decode_value g.1, g.2)) (List.filter describes_rows (map (fun g : stored_grid => (map encode_value g.1, g.2)) l)) = l) as Hmap.
  { induction 1 as [|[vs n] l [Hd Hvs] Hl IH]; [done|]. cbn [map List.filter].
    assert (describes_rows (map encode_value vs, n) = true) as Hd' by (unfold describes_rows in *; by destruct vs). cbn [fst snd]. rewrite Hd'. cbn [map fst snd]. rewrite IH. do 2 f_equal.
    cbn in Hvs. rewrite map_map. rewrite <- (map_id vs) at 2. apply map_ext_in. intros v Hv%list_elem_of_In. rewrite Forall_forall in Hvs. by apply decode_encode, Hvs. }
  rewrite (Hmap _ Hk). match goal with |- context [existsb ?f ?l] => destruct (existsb f l) eqn:Hex end; [exfalso|done].
  apply existsb_exists in Hex as ([vs n] & Hin & Hb). rewrite Forall_forall in Hk. apply list_elem_of_In in Hin. destruct (Hk _ Hin) as [_ Hvs].
  cbn in Hb, Hvs. destruct vs as [|v vs]; [done|]. apply Forall_cons in Hvs as [[_ Hv] _]. by rewrite bool_decide_true in Hb.
Qed.

(** A worker's binary grid, and one that describes no rows. *)
Definition binary_grids : list stored_grid := [([Binary [171%N; 0%N]; Binary [255%N]], 3); ([], 0)].

Lemma learned_grids_round_trip_witness :
  load_learned_grids (persist_grids ∅ "s" binary_grids) "s" (Some KBinary) = Some [([Binary [171%N; 0%N]; Binary [255%N]], 3)].
Proof.
  apply (learned_grids_round_trip ∅ "s" binary_grids KBinary).
  - repeat constructor.
  - left. reflexivity.
Defined.

(** a text boundary that looks like marked bytes comes back as bytes.  The text grid "0aa",
    "0xff" is read back with its second boundary turned into a byte string, and the check of the
    kind, which looks at the first boundary only, lets it through to the merge, where text and
    bytes do not compare. *)
Theorem text_grid_read_as_bytes :
  let first := Text [48; 97; 97]%N in
  load_learned_grids (persist_grids ∅ "s" [([first; Text [48; 120; 102; 102]%N], 2)]) "s" (Some KText) = Some [([first; Binary [255%N]], 2)].
Proof. vm_compute. reflexivity. Qed.
