(* ===== verification/Resilience.v ===== *)
(** * Surviving the loss of workers

    carbonite/resilience: where each shuffle source's output lives (lineage.py
    [SourcePlacement]), the bounded loop that recomputes what a lost worker held (recovery.py
    [ShuffleRecovery]), and the choice of hosts for extra copies (replication.py). *)

From S2P Require Import Prelude PyDict PyFloat.

(** ** Lineage and placement *)

(** [ShuffleLineage]. *)
Record lineage := Lineage { stage : Z; src_partition : Z; epoch : Z }.
Definition reincarnate (l : lineage) : lineage := Lineage l.(stage) l.(src_partition) (l.(epoch) + 1).

(** [SourcePlacement]: the relocated sources, the sources each host holds, and whether the
    placement was given in full. *)
Record placement := Placement { p_workers : Z; p_hosts : gmap Z Z; p_on_host : gmap Z (gset Z); p_complete : bool }.

(** [self._on_host.setdefault(host, set()).add(src)]. *)
Definition add_source (host src : Z) (m : gmap Z (gset Z)) : gmap Z (gset Z) := <[host := {[src]} ∪ default ∅ (m !! host)]> m.

Fixpoint place_all (src : Z) (hosts : list Z) (p : placement) : placement :=
  match hosts with
  | [] => p
  | host :: hosts' => place_all (src + 1) hosts' (Placement p.(p_workers) (<[src := host]> p.(p_hosts)) (add_source host src p.(p_on_host)) p.(p_complete))
  end.

Definition new_placement (workers : Z) (hosts : option (list Z)) : placement :=
  match hosts with
  | None => Placement workers ∅ ∅ false
  | Some l => place_all 0 l (Placement workers ∅ ∅ true)
  end.

Definition host_of (p : placement) (src : Z) : Z := default src (p.(p_hosts) !! src).

Definition sources_on (p : placement) (host : Z) : gset Z :=
  let out := default ∅ (p.(p_on_host) !! host) in
  if negb p.(p_complete) && (0 <=? host) && (host <? p.(p_workers)) && bool_decide (p.(p_hosts) !! host = None) then {[host]} ∪ out else out.

Definition relocate (p : placement) (move : Z * Z) : placement :=
  let '(src, host) := move in
  let previous := host_of p src in
  let on_host :=
    match p.(p_on_host) !! previous with
    | None => p.(p_on_host)
    | Some s => let s := s ∖ {[src]} in if bool_decide (s = ∅) then delete previous p.(p_on_host) else <[previous := s]> p.(p_on_host)
    end in
  Placement p.(p_workers) (<[src := host]> p.(p_hosts)) (add_source host src on_host) p.(p_complete).

(** ** Recovery *)

(** [RecoveryPolicy] and [_MAX_BACKOFF_S]. *)
Record policy := Policy { max_attempts : nat; backoff_base_s : flt }.
Definition MAX_BACKOFF_S : flt := flt_of_Z 30.

Section Recovery.
(** One round of the shuffle and the regeneration of what it could not reach; [lost] tells a
    failed round. *)
Context {S R F : Type} (attempt : S -> S * (R * F)) (recompute : F -> S -> S) (lost : F -> bool).

(** [backoff_base_s * 2**round_idx], an error where the power is no double, and the ceiling of a
    pause. *)
Definition backoff_ceiling (p : policy) (round_idx : nat) : option flt :=
  match flt_of_Z (2 ^ Z.of_nat round_idx) with
  | SpecFloat.S754_infinity _ => None
  | power => let x := flt_mul p.(backoff_base_s) power in Some (if flt_lt MAX_BACKOFF_S x then MAX_BACKOFF_S else x)
  end.

(** The outcome of a run: its answer, the rounds that recomputed, and the ceilings of the
    pauses. *)
Record outcome := Outcome { final : S; answer : res R; recomputes : nat; pauses : list flt }.

(** [run], from round [round_idx] on with [n] rounds to go. *)
Fixpoint run_rounds (p : policy) (n round_idx : nat) (s : S) (done : nat) (slept : list flt) : outcome :=
  match n with
  | O => Outcome s (Raise "ResourceError") done slept
  | Datatypes.S n' =>
      let '(s, (result, failed)) := attempt s in
      if negb (lost failed) then Outcome s (Ok result) done slept
      else if (p.(max_attempts) <=? round_idx + 1)%nat then Outcome s (Raise "ResourceError") done slept
      else
        let s := recompute failed s in
        if flt_lt (flt_of_Z 0) p.(backoff_base_s) then
          match backoff_ceiling p round_idx with
          | None => Outcome s (Raise "OverflowError") (done + 1) slept
          | Some c => run_rounds p n' (round_idx + 1) s (done + 1) (slept ++ [c])
          end
        else run_rounds p n' (round_idx + 1) s (done + 1) slept
  end.
Definition run (p : policy) (s : S) : outcome := run_rounds p p.(max_attempts) 0 s 0 [].

(** The state in which round [i] starts when the rounds before it have failed. *)
Fixpoint before_round (i : nat) (s : S) : S :=
  match i with
  | O => s
  | Datatypes.S i' => let s := before_round i' s in let '(s', (_, failed)) := attempt s in recompute failed s'
  end.
Definition fails (s : S) : bool := lost (attempt s).2.2.
Definition result_of (s : S) : R := (attempt s).2.1.
End Recovery.
Arguments Outcome {S R}.

(** ** Replicas *)

Section Replicas.
Implicit Types (w primary : nat) (nodes : list string).

Definition node_of nodes w : string := nth w nodes ""%string.

(** The rank of a candidate, smallest first: a node with a copy, spot capacity, load, index. *)
Definition rank nodes (used : gset string) (spot : gset nat) (load : gmap nat Z) w : bool * bool * Z * nat :=
  (bool_decide (node_of nodes w ∈ used), bool_decide (w ∈ spot), default 0 (load !! w), w).

Definition bool_lt (a b : bool) : bool := negb a && b.
Definition rank_lt (a b : bool * bool * Z * nat) : bool :=
  let '(a1, a2, a3, a4) := a in let '(b1, b2, b3, b4) := b in
  if bool_lt a1 b1 then true else if bool_lt b1 a1 then false
  else if bool_lt a2 b2 then true else if bool_lt b2 a2 then false
  else if a3 <? b3 then true else if b3 <? a3 then false
  else (a4 <? b4)%nat.

(** [min(candidates, key=...)]: the first of the smallest. *)
Fixpoint min_by (key : nat -> bool * bool * Z * nat) (best : nat) (l : list nat) : nat :=
  match l with [] => best | w :: l' => min_by key (if rank_lt (key w) (key best) then w else best) l' end.

(** [_pick_replicas]. *)
Fixpoint pick_loop (n : nat) nodes (spot : gset nat) (load : gmap nat Z) (live : list nat) primary (chosen : list nat) (used : gset string) : list nat :=
  match n with
  | O => chosen
  | S n' =>
      match List.filter (fun w => negb (w =? primary)%nat && negb (bool_decide (w ∈ chosen))) live with
      | [] => chosen
      | c :: cs =>
          let w := min_by (rank nodes used spot load) c cs in
          pick_loop n' nodes spot load live primary (chosen ++ [w]) ({[node_of nodes w]} ∪ used)
      end
  end.
Definition primary_nodes nodes primary : gset string := if (primary <? length nodes)%nat then {[node_of nodes primary]} else ∅.
Definition pick_replicas primary (live : list nat) nodes (load : gmap nat Z) (wanted : nat) (spot : gset nat) : list nat :=
  pick_loop wanted nodes spot load live primary [] (primary_nodes nodes primary).

Definition SUSPECT_LOAD : Z := 1000000.

(** [load[w] += n] for a worker that has a load. *)
Definition add_load (n : Z) (load : gmap nat Z) w : gmap nat Z := match load !! w with Some k => <[w := k + n]> load | None => load end.

Definition live_workers nodes (dead : gset nat) : list nat := List.filter (fun w => negb (bool_decide (w ∈ dead))) (seq 0 (length nodes)).

(** [assign_replica_hosts]. *)
Fixpoint assign_loop nodes (live : list nat) (wanted : nat) (spot : gset nat) (primaries : list (nat * nat)) (srcs : list nat)
    (load : gmap nat Z) (out : list (nat * list nat)) : list (nat * list nat) :=
  match srcs with
  | [] => out
  | src :: srcs' =>
      let primary := default 0%nat (dget src primaries) in
      let picked := pick_replicas primary live nodes load wanted spot in
      assign_loop nodes live wanted spot primaries srcs' (foldl (add_load 1) load picked) (dset src picked out)
  end.

Definition assign_replica_hosts (primaries : list (nat * nat)) nodes (factor : Z) (dead suspect preemptible : gset nat) : list (nat * list nat) :=
  let wanted := Z.to_nat (Z.max 0 (factor - 1)) in
  let out := map (fun e => (e.1, [])) primaries in
  if (wanted =? 0)%nat || match nodes with [] => true | _ => false end then out
  else
    let live := live_workers nodes dead in
    let load := foldl (add_load 1) (list_to_map (map (fun w => (w, 0)) live)) (map snd primaries) in
    let load := foldl (add_load SUSPECT_LOAD) load (elements suspect) in
    assign_loop nodes live wanted preemptible primaries (py_sorted Nat.ltb (map fst primaries)) load out.
End Replicas.
