(* ===== verification/ResilienceSound.v ===== *)
(** * Correctness of placement, recovery and replication *)

From S2P Require Import Prelude PyDict PyFloat Resilience.

(** ** Placement *)

(** The reverse index is the index read backwards. *)
Definition indexed (p : placement) : Prop := forall h s, s ∈ default ∅ (p.(p_on_host) !! h) <-> p.(p_hosts) !! s = Some h.

Lemma elem_add_source host src m h s : s ∈ default ∅ (add_source host src m !! h) <-> (h = host /\ s = src) \/ s ∈ default ∅ (m !! h).
Proof. unfold add_source. destruct (decide (h = host)) as [->|Hne]; [rewrite lookup_insert_eq|rewrite lookup_insert_ne by done]; cbn; set_solver. Qed.

Lemma place_all_spec l : forall i p, indexed p -> (forall j, i <= j -> p.(p_hosts) !! j = None) ->
  indexed (place_all i l p) /\ (place_all i l p).(p_workers) = p.(p_workers) /\ (place_all i l p).(p_complete) = p.(p_complete) /\
  forall s, (place_all i l p).(p_hosts) !! s = if decide (i <= s < i + Z.of_nat (length l)) then l !! Z.to_nat (s - i) else p.(p_hosts) !! s.
Proof.
  induction l as [|host l IH]; intros i p Hp Hf; cbn [place_all length].
  - split_and!; try done. intros s. by rewrite decide_False by lia.
  - destruct (IH (i + 1) (Placement (p_workers p) (<[i := host]> (p_hosts p)) (add_source host i (p_on_host p)) (p_complete p))) as (I1 & I2 & I3 & I4).
    + intros h s. cbn. rewrite elem_add_source, (Hp h s), lookup_insert. case_decide; [subst|].
      * rewrite Hf by lia. naive_solver.
      * naive_solver.
    + intros j Hj. cbn. rewrite lookup_insert_ne by lia. apply Hf. lia.
    + split_and!; [done..|]. intros s. rewrite I4. cbn. destruct (decide (s = i)) as [->|Hne].
      * rewrite decide_False, decide_True, Z.sub_diag by lia. cbn. by rewrite lookup_insert_eq.
      * rewrite lookup_insert_ne by done. destruct (decide (i + 1 <= s < i + 1 + Z.of_nat (length l))); [|by rewrite decide_False by lia].
        rewrite decide_True by lia. replace (Z.to_nat (s - i)) with (S (Z.to_nat (s - (i + 1)))) by lia. done.
Qed.

Lemma new_indexed workers hosts : indexed (new_placement workers hosts).
Proof.
  destruct hosts as [l|]; [apply place_all_spec; [|done]|]; intros h s; cbn; set_solver.
Qed.

Lemma relocate_indexed p move : indexed p -> indexed (relocate p move).
Proof.
  destruct move as [src host]. intros Hp h s. unfold relocate. cbn. rewrite elem_add_source.
  assert (s ∈ default ∅ (match p_on_host p !! host_of p src with
      | None => p_on_host p
      | Some t => if bool_decide (t ∖ {[src]} = ∅) then delete (host_of p src) (p_on_host p) else <[host_of p src := t ∖ {[src]}]> (p_on_host p)
      end !! h) <-> s ∈ default ∅ (p_on_host p !! h) /\ s <> src) as ->.
  { destruct (p_on_host p !! host_of p src) as [t|] eqn:Et.
    - case_bool_decide as Ee.
      + destruct (decide (h = host_of p src)) as [->|Hne]; [rewrite lookup_delete_eq, Et; cbn; set_solver|]. rewrite lookup_delete_ne by done.
        split; [|tauto]. intros Hs. split; [done|]. intros ->. apply Hp in Hs. unfold host_of in Hne. by rewrite Hs in Hne.
      + destruct (decide (h = host_of p src)) as [->|Hne]; [rewrite lookup_insert_eq, Et; cbn; set_solver|]. rewrite lookup_insert_ne by done.
        split; [|tauto]. intros Hs. split; [done|]. intros ->. apply Hp in Hs. unfold host_of in Hne. by rewrite Hs in Hne.
    - split; [|tauto]. intros Hs. split; [done|]. intros ->. apply Hp in Hs as Hs'. assert (host_of p src = h) as E by (unfold host_of; by rewrite Hs'). rewrite E in Et. rewrite Et in Hs. set_solver. }
  rewrite (Hp h s), lookup_insert. case_decide as E; naive_solver.
Qed.

(** Where a source lives after some moves. *)
Fixpoint latest_host (moves : list (Z * Z)) (src first : Z) : Z :=
  match moves with [] => first | (s, h) :: moves' => latest_host moves' src (if decide (s = src) then h else first) end.

Lemma moves_spec moves : forall p, indexed p ->
  indexed (foldl relocate p moves) /\ (foldl relocate p moves).(p_workers) = p.(p_workers) /\ (foldl relocate p moves).(p_complete) = p.(p_complete) /\
  (forall src, host_of (foldl relocate p moves) src = latest_host moves src (host_of p src)) /\
  (forall src, is_Some ((foldl relocate p moves).(p_hosts) !! src) <-> is_Some (p.(p_hosts) !! src) \/ src ∈ moves.*1).
Proof.
  induction moves as [|[s h] moves IH]; intros p Hp; cbn [foldl].
  - split_and!; try done. intros src. split; [by left|intros [?|Hin]; [done|]]. by apply elem_of_nil in Hin.
  - destruct (IH (relocate p (s, h)) (relocate_indexed p (s, h) Hp)) as (I1 & I2 & I3 & I4 & I5). split_and!; [done|done|done|..].
    + intros src. rewrite I4. cbn [latest_host]. f_equal. unfold host_of. cbn. rewrite lookup_insert. by case_decide.
    + intros src. rewrite I5. cbn. rewrite lookup_insert, elem_of_cons. case_decide as E; [subst|]; naive_solver.
Qed.

Lemma new_spec workers hosts : (new_placement workers hosts).(p_workers) = workers /\
  (new_placement workers hosts).(p_complete) = (match hosts with Some _ => true | None => false end) /\
  (forall src, (new_placement workers hosts).(p_hosts) !! src = match hosts with Some l => if decide (0 <= src < Z.of_nat (length l)) then l !! Z.to_nat src else None | None => None end).
Proof.
  destruct hosts as [l|]; [|by split_and!; intros; rewrite ?lookup_empty]. cbn.
  destruct (place_all_spec l 0 (Placement workers ∅ ∅ true)) as (P1 & P2 & P3 & P4); [intros h s; cbn; set_solver|done|]. split_and!; [done|done|].
  intros src. rewrite P4. cbn. by rewrite Z.sub_0_r, lookup_empty.
Qed.

(** the placement says where every source lives, both ways round.  After any relocations,
    [host_of] is the last host a source was moved to, or its first one, and [sources_on] of a
    host is exactly the sources of the shuffle whose output lives there: what its death loses,
    with no source missed and none invented. *)
Theorem placement_exact workers hosts moves :
  let p := foldl relocate (new_placement workers hosts) moves in
  let first src := match hosts with Some l => default src (if 0 <=? src then l !! Z.to_nat src else None) | None => src end in
  let known src := match hosts with Some l => 0 <= src < Z.of_nat (length l) | None => 0 <= src < workers end \/ src ∈ moves.*1 in
  (forall src, host_of p src = latest_host moves src (first src)) /\
  (forall src host, src ∈ sources_on p host <-> known src /\ host_of p src = host).
Proof.
  intros p first known. destruct (new_spec workers hosts) as (N1 & N2 & N3). destruct (moves_spec moves _ (new_indexed workers hosts)) as (M1 & M2 & M3 & M4 & M5).
  fold p in M1, M2, M3, M4, M5. rewrite N1 in M2. rewrite N2 in M3. split.
  - intros src. rewrite M4. f_equal. unfold host_of, first. rewrite N3. destruct hosts as [l|]; [|done]. case_decide as E; [by rewrite (proj2 (Z.leb_le 0 src)) by lia|].
    destruct (Z.leb_spec 0 src); [|done]. by rewrite lookup_ge_None_2 by lia.
  - intros src host.
    assert (is_Some (p_hosts p !! src) <-> match hosts with Some l => 0 <= src < Z.of_nat (length l) | None => False end \/ src ∈ moves.*1) as Hdom.
    { rewrite M5, N3. destruct hosts as [l|]; [|split; [intros [[]|]; [done|by right]|by intros [[]|]; right]]. case_decide as E; [|split; [intros [[]|]; [done|by right]|intros [|]; [done|by right]]].
      split; [by left|]. intros _. left. apply lookup_lt_is_Some. lia. }
    assert (src ∈ default ∅ (p_on_host p !! host) <-> p_hosts p !! src = Some host) as Hidx by apply M1.
    assert (host_of p src = default src (p_hosts p !! src)) as Hof by done. unfold sources_on, known. rewrite M2, M3, Hof.
    destruct hosts as [l|]; cbn [negb andb].
    + rewrite Hidx, <- Hdom. destruct (p_hosts p !! src); cbn; [|split; [done|by intros [[]]]]. split; [by intros [= ->]|by intros [_ ->]].
    + destruct (Z.leb_spec 0 host), (Z.ltb_spec host workers); cbn [andb]; [case_bool_decide as Eh|..]; rewrite ?elem_of_union, ?elem_of_singleton, Hidx.
      all: destruct (p_hosts p !! src) as [k|] eqn:Es; cbn [default from_option]; unfold id.
      all: try (assert (src ∈ moves.*1) as Hin by (by destruct (proj1 Hdom) as [[]|])).
      all: try (assert (src ∉ moves.*1) as Hin by (intros Hin; by destruct (proj2 Hdom) as [? ?]; [right|])).
      all: clear Hdom Hidx Hof; clearbody p known first; clear M1 M2 M3 M4 M5 N1 N2 N3.
      all: split; [intros Hs|intros [Hk Hs]]; try destruct Hs as [Hs|Hs]; try destruct Hk as [Hk|Hk]; subst; try congruence; try lia; repeat split; auto; try congruence; try lia.
Qed.
