(* ===== verification/ResilienceUse.v ===== *)
(** * Bounded recovery and spread-out replicas *)

From S2P Require Import Prelude PyDict PyFloat Resilience.

(** ** Recovery *)

Section Rounds.
Context {S R F : Type} (attempt : S -> S * (R * F)) (recompute : F -> S -> S) (lost : F -> bool) (p : policy).
Local Abbreviation before := (before_round attempt recompute).
Local Abbreviation failing := (fails attempt lost).

(** Every pause has its ceiling. *)
Definition paused : bool := flt_lt (flt_of_Z 0) p.(backoff_base_s).
Definition backs_off : Prop := paused = false \/ (p.(max_attempts) <= 1024)%nat.

Lemma power_finite k : (k < 1024)%nat -> exists c, backoff_ceiling p k = Some c /\ flt_lt MAX_BACKOFF_S c = false.
Proof.
  intros Hk. assert (match flt_of_Z (2 ^ Z.of_nat k) with SpecFloat.S754_infinity _ => false | _ => true end = true) as Hf.
  { assert (forallb (fun k => match flt_of_Z (2 ^ Z.of_nat k) with SpecFloat.S754_infinity _ => false | _ => true end) (seq 0 1024) = true) as Hall by (vm_compute; reflexivity).
    rewrite forallb_forall in Hall. apply Hall. apply in_seq. lia. }
  unfold backoff_ceiling. revert Hf. generalize (flt_of_Z (2 ^ Z.of_nat k)). intros power Hf.
  assert (flt_lt MAX_BACKOFF_S (if flt_lt MAX_BACKOFF_S (flt_mul (backoff_base_s p) power) then MAX_BACKOFF_S else flt_mul (backoff_base_s p) power) = false) as Hc.
  { destruct (flt_lt MAX_BACKOFF_S (flt_mul _ _)) eqn:L; [vm_compute; reflexivity|done]. }
  destruct power; [|done|..]; eauto.
Qed.

(** A failed round that is not the last one recomputes, sleeps and goes on. *)
Lemma run_rounds_step n i s done slept : backs_off -> (i + 1 < p.(max_attempts))%nat -> failing (before i s) = true ->
  exists c, run_rounds attempt recompute lost p (Datatypes.S n) i (before i s) done slept =
      run_rounds attempt recompute lost p n (i + 1) (before (i + 1) s) (done + 1) (slept ++ c) /\
    length c = (if paused then 1 else 0)%nat /\ Forall (fun c => flt_lt MAX_BACKOFF_S c = false) c.
Proof.
  intros Hb Hi Hf. replace (i + 1)%nat with (Datatypes.S i) in * by lia. unfold fails in Hf. cbn [run_rounds before_round] in *. destruct (attempt (before i s)) as [s' [r f]]. cbn in Hf.
  rewrite Hf. cbn [negb]. rewrite (proj2 (Nat.leb_gt _ _)), Nat.add_1_r by lia. unfold backs_off in Hb. revert Hb. unfold paused. destruct (flt_lt _ _); intros Hb.
  - destruct Hb as [|Hb]; [done|]. destruct (power_finite i) as (c & -> & Hc); [lia|]. exists [c]. split_and!; [done|done|by constructor].
  - exists []. by rewrite app_nil_r.
Qed.

Lemma run_rounds_succeeds n : forall i s slept k, (n + i = p.(max_attempts))%nat -> backs_off -> (i <= k < p.(max_attempts))%nat ->
  (forall j, (i <= j < k)%nat -> failing (before j s) = true) -> failing (before k s) = false ->
  exists c, run_rounds attempt recompute lost p n i (before i s) i slept = Outcome (attempt (before k s)).1 (Ok (result_of attempt (before k s))) k (slept ++ c) /\
    length c = (if paused then k - i else 0)%nat /\ Forall (fun c => flt_lt MAX_BACKOFF_S c = false) c.
Proof.
  induction n as [|n IH]; intros i s slept k Hn Hb Hk Hf Ho; [lia|]. destruct (decide (i = k)) as [->|Hne].
  - exists []. rewrite app_nil_r. split_and!; [|cbn; by destruct paused; [rewrite Nat.sub_diag|]|by constructor].
    unfold fails, result_of in *. cbn [run_rounds]. destruct (attempt (before k s)) as [s' [r f]]. cbn in *. by rewrite Ho.
  - destruct (run_rounds_step n i s i slept) as (c & -> & Hl & Hc); [done|lia|apply Hf; lia|].
    destruct (IH (i + 1)%nat s (slept ++ c) k) as (c' & -> & Hl' & Hc'); [lia|done|lia|intros j Hj; apply Hf; lia|done|].
    exists (c ++ c'). rewrite <- app_assoc, length_app, Hl, Hl'. split_and!; [done|destruct paused; lia|by apply Forall_app].
Qed.

Lemma run_rounds_exhausted n : forall i s slept, (Datatypes.S n + i = p.(max_attempts))%nat -> backs_off ->
  (forall j, (i <= j < p.(max_attempts))%nat -> failing (before j s) = true) ->
  exists c, run_rounds attempt recompute lost p (Datatypes.S n) i (before i s) i slept =
      Outcome (attempt (before (p.(max_attempts) - 1) s)).1 (Raise "ResourceError") (p.(max_attempts) - 1) (slept ++ c) /\
    length c = (if paused then p.(max_attempts) - 1 - i else 0)%nat /\ Forall (fun c => flt_lt MAX_BACKOFF_S c = false) c.
Proof.
  induction n as [|n IH]; intros i s slept Hn Hb Hf.
  - replace (p.(max_attempts) - 1)%nat with i by lia. exists []. rewrite app_nil_r. split_and!; [|cbn; by destruct paused; [rewrite Nat.sub_diag|]|by constructor].
    specialize (Hf i ltac:(lia)). unfold fails in *. cbn [run_rounds]. destruct (attempt (before i s)) as [s' [r f]]. cbn in *. by rewrite Hf, (proj2 (Nat.leb_le _ _)) by lia.
  - destruct (run_rounds_step (Datatypes.S n) i s i slept) as (c & -> & Hl & Hc); [done|lia|apply Hf; lia|].
    destruct (IH (i + 1)%nat s (slept ++ c)) as (c' & -> & Hl' & Hc'); [lia|done|intros j Hj; apply Hf; lia|].
    exists (c ++ c'). rewrite <- app_assoc, length_app, Hl, Hl'. split_and!; [done|destruct paused; lia|by apply Forall_app].
Qed.

Lemma run_unfold s : run attempt recompute lost p s = run_rounds attempt recompute lost p p.(max_attempts) 0 (before 0 s) 0 [].
Proof. done. Qed.
End Rounds.

(** C19: recovery is bounded and loses nothing.  If round [k] is the first that reaches every
    input and the policy allows it, the run returns that round's result after exactly [k]
    recomputes; if every allowed round fails it raises ResourceError after one recompute fewer
    than rounds (the last failure recomputes nothing).  A pause is taken for every recompute,
    its ceiling never above thirty seconds. *)
Theorem recovery_bounded {S R F} (attempt : S -> S * (R * F)) (recompute : F -> S -> S) (lost : F -> bool) p s :
  (0 < p.(max_attempts))%nat -> backs_off p ->
  let o := run attempt recompute lost p s in
  let before k := before_round attempt recompute k s in
  let paces k := recomputes o = k /\ length (pauses o) = (if paused p then k else 0%nat) /\ Forall (fun c => flt_lt MAX_BACKOFF_S c = false) (pauses o) in
  (forall k, (k < p.(max_attempts))%nat -> (forall j, (j < k)%nat -> fails attempt lost (before j) = true) -> fails attempt lost (before k) = false ->
     answer o = Ok (result_of attempt (before k)) /\ final o = (attempt (before k)).1 /\ paces k) /\
  ((forall j, (j < p.(max_attempts))%nat -> fails attempt lost (before j) = true) ->
     answer o = Raise "ResourceError" /\ final o = (attempt (before (p.(max_attempts) - 1)%nat)).1 /\ paces (p.(max_attempts) - 1)%nat).
Proof.
  intros Hm Hb o before paces. split.
  - intros k Hk Hf Ho. destruct (run_rounds_succeeds attempt recompute lost p p.(max_attempts) 0 s [] k) as (c & E & Hl & Hc); [lia|done|lia|intros; apply Hf; lia|done|].
    rewrite <- run_unfold in E. unfold paces, o. rewrite E. rewrite Nat.sub_0_r in Hl. by split_and!.
  - intros Hf. destruct (run_rounds_exhausted attempt recompute lost p (p.(max_attempts) - 1) 0 s []) as (c & E & Hl & Hc); [lia|done|intros; apply Hf; lia|].
    replace (Datatypes.S (p.(max_attempts) - 1)) with p.(max_attempts) in E by lia. rewrite <- run_unfold in E. unfold paces, o. rewrite E. rewrite Nat.sub_0_r in Hl. by split_and!.
Qed.

(** A shuffle whose third round succeeds, and one that never does. *)
Definition heals (n : Z) : Z * (Z * bool) := (n, (n * 10, n <? 2)).
Lemma recovery_bounded_witness :
  let p := Policy 4 (flt_of_Z 20) in
  let o := run heals (fun (_ : bool) n => n + 1) id p 0 in
  let o' := run heals (fun (_ : bool) n => n) id p 0 in
  (answer o = Ok 20 /\ recomputes o = 2%nat /\ pauses o = [flt_of_Z 20; flt_of_Z 30]) /\
  (answer o' = Raise "ResourceError" /\ recomputes o' = 3%nat).
Proof.
  intros p o o'. assert (backs_off p) as Hb by (right; cbn; lia). split.
  - destruct (recovery_bounded heals (fun (_ : bool) n => n + 1) id p 0) as [H _]; [cbn; lia|done|].
    destruct (H 2%nat) as (Ha & _ & Hr & _); [cbn; lia|intros [|[|j]] Hj; [done|done|lia]|done|]. split_and!; [exact Ha|exact Hr|vm_compute; reflexivity].
  - destruct (recovery_bounded heals (fun (_ : bool) n => n) id p 0) as [_ H]; [cbn; lia|done|].
    destruct H as (Ha & _ & Hr & _); [intros [|[|[|[|j]]]] Hj; try done; cbn in Hj; lia|]. split; [exact Ha|exact Hr].
Defined.

(** ** Replicas *)

Section Picking.
Implicit Types (nodes : list string) (live chosen : list nat) (load : gmap nat Z) (spot : gset nat).

(** The rank is a strict order in which two candidates never tie. *)
Local Ltac ranks := unfold rank_lt, bool_lt in *; repeat match goal with x : bool * bool * Z * nat |- _ => destruct x as [[[[] []] ?] ?] end; cbn -[Nat.ltb Z.ltb] in *;
  repeat first [discriminate | match goal with
    | |- context [?x <? ?y] => destruct (Z.ltb_spec x y)
    | |- context [(?x <? ?y)%nat] => destruct (Nat.ltb_spec x y)
    | H : context [?x <? ?y] |- _ => destruct (Z.ltb_spec x y)
    | H : context [(?x <? ?y)%nat] |- _ => destruct (Nat.ltb_spec x y)
    end].

Lemma rank_lt_trans a b c : rank_lt a b = true -> rank_lt b c = true -> rank_lt a c = true.
Proof. intros H1 H2. ranks; solve [done | lia]. Qed.

Lemma rank_lt_false_trans a b c : rank_lt b a = false -> rank_lt c b = false -> rank_lt c a = false.
Proof. intros H1 H2. ranks; solve [done | lia]. Qed.

Lemma rank_lt_asym a b : rank_lt a b = true -> rank_lt b a = false.
Proof. intros H1. ranks; solve [done | lia]. Qed.

Lemma min_by_spec (key : nat -> bool * bool * Z * nat) l : forall best,
  min_by key best l ∈ best :: l /\ forall w, w ∈ best :: l -> rank_lt (key w) (key (min_by key best l)) = false.
Proof.
  induction l as [|x l IH]; intros best; cbn [min_by].
  - split; [left|]. intros w ->%list_elem_of_singleton. destruct (rank_lt (key best) (key best)) eqn:E; [|done]. by rewrite (rank_lt_asym _ _ E) in E.
  - destruct (rank_lt (key x) (key best)) eqn:E.
    + destruct (IH x) as [Hin Hmin]. split; [by right|]. intros w [->|Hw]%elem_of_cons; [|by apply Hmin].
      apply (rank_lt_false_trans _ (key x)); [apply Hmin; left|by apply rank_lt_asym].
    + destruct (IH best) as [Hin Hmin]. split; [rewrite !elem_of_cons in *; tauto|]. intros w Hw. rewrite !elem_of_cons in Hw.
      destruct Hw as [->|[->|Hw]]; [apply Hmin; left| |apply Hmin; by right].
      apply (rank_lt_false_trans _ (key best)); [apply Hmin; left|done].
Qed.

(** The nodes of some workers. *)
Definition nodes_of nodes (l : list nat) : gset string := list_to_set (map (node_of nodes) l).

Lemma nodes_of_snoc nodes l w : nodes_of nodes (l ++ [w]) = nodes_of nodes l ∪ {[node_of nodes w]}.
Proof. unfold nodes_of. rewrite map_app, list_to_set_app_L. cbn. set_solver. Qed.

Lemma elem_nodes_of nodes l x : x ∈ nodes_of nodes l <-> exists w, w ∈ l /\ node_of nodes w = x.
Proof. unfold nodes_of. rewrite elem_of_list_to_set, list_elem_of_fmap. naive_solver. Qed.

(** The workers a source's copies may go to. *)
Definition others live primary : list nat := List.filter (fun w => negb (w =? primary)%nat) live.

Lemma elem_others live primary w : w ∈ others live primary <-> w ∈ live /\ w <> primary.
Proof. unfold others. rewrite !list_elem_of_In, filter_In, negb_true_iff, Nat.eqb_neq. done. Qed.

Lemma elem_candidates live primary chosen w :
  w ∈ List.filter (fun w => negb (w =? primary)%nat && negb (bool_decide (w ∈ chosen))) live <-> w ∈ others live primary /\ w ∉ chosen.
Proof. rewrite elem_others, list_elem_of_In, filter_In, andb_true_iff, !negb_true_iff, Nat.eqb_neq, bool_decide_eq_false, <- list_elem_of_In. tauto. Qed.

Lemma full_choice live primary chosen : NoDup live -> NoDup chosen -> (forall w, w ∈ chosen <-> w ∈ others live primary) -> length chosen = length (others live primary).
Proof. intros Hl Hc H. apply Permutation_length, NoDup_Permutation; [done| |done]. unfold others. apply NoDup_ListNoDup, List.NoDup_filter, NoDup_ListNoDup. done. Qed.

(** What the picks so far satisfy, and what remains to be picked. *)
Lemma pick_loop_spec nodes spot load live primary n : NoDup live -> forall chosen used,
  NoDup chosen -> (forall w, w ∈ chosen -> w ∈ others live primary) -> used = nodes_of nodes chosen ∪ primary_nodes nodes primary ->
  let prime := primary_nodes nodes primary in
  let out := pick_loop n nodes spot load live primary chosen used in
  NoDup out /\ (forall w, w ∈ out -> w ∈ others live primary) /\
  length out = Nat.min (length chosen + n) (length (others live primary)) /\
  size (nodes_of nodes out ∖ prime) = Nat.min (size (nodes_of nodes chosen ∖ prime) + n) (size (nodes_of nodes (others live primary) ∖ prime)).
Proof.
  intros Hl. induction n as [|n IH]; intros chosen used Hnd Hin Hu prime; cbn [pick_loop].
  all: assert (nodes_of nodes chosen ∖ prime ⊆ nodes_of nodes (others live primary) ∖ prime) as Hsub
         by (intros x; rewrite !elem_of_difference, !elem_nodes_of; naive_solver).
  all: assert (length chosen <= length (others live primary))%nat as Hlen by (apply submseteq_length, NoDup_submseteq; done).
  all: apply subseteq_size in Hsub as Hsz.
  - split_and!; [done|done|lia|lia].
  - destruct (List.filter _ live) as [|c cs] eqn:Ec.
    + assert (forall w, w ∈ chosen <-> w ∈ others live primary) as Hall.
      { intros w. split; [by apply Hin|]. intros Hw. destruct (decide (w ∈ chosen)); [done|]. assert (w ∈ @nil nat) as []%not_elem_of_nil.
        rewrite <- Ec. by apply elem_candidates. }
      assert (length chosen = length (others live primary)) as E by (by apply full_choice).
      assert (nodes_of nodes chosen ∖ prime = nodes_of nodes (others live primary) ∖ prime) as En.
      { apply set_eq. intros x. rewrite !elem_of_difference, !elem_nodes_of. naive_solver. }
      rewrite <- En. split_and!; [done|done|lia|lia].
    + destruct (min_by_spec (rank nodes used spot load) cs c) as [Hw Hmin]. set (w := min_by _ c cs) in *. rewrite <- Ec in Hw.
      apply elem_candidates in Hw as [Hw Hnew].
      destruct (IH (chosen ++ [w]) ({[node_of nodes w]} ∪ used)) as (I1 & I2 & I3 & I4).
      { apply NoDup_app. split_and!; [done| |apply NoDup_singleton]. intros x Hx ->%list_elem_of_singleton. done. }
      { intros x [Hx| ->%list_elem_of_singleton]%elem_of_app; [by apply Hin|done]. }
      { rewrite nodes_of_snoc. subst used. set_solver. }
      rewrite length_app in I3. cbn [length] in I3. split_and!; [done|done|lia|]. fold prime in I4. rewrite I4, nodes_of_snoc.
      destruct (decide (node_of nodes w ∈ used)) as [Hused|Hfresh].
      * assert (forall v, v ∈ others live primary -> node_of nodes v ∈ used) as Hall.
        { intros v Hv. destruct (decide (v ∈ chosen)) as [Hc|Hc]; [subst used; apply elem_of_union; left; apply elem_nodes_of; eauto|].
          specialize (Hmin v). rewrite <- Ec, elem_candidates in Hmin. specialize (Hmin (conj Hv Hc)). unfold rank in Hmin. cbn in Hmin.
          rewrite (bool_decide_true (node_of nodes w ∈ used)) in Hmin by done. destruct (decide (node_of nodes v ∈ used)) as [|Hn]; [done|].
          by rewrite (bool_decide_false (node_of nodes v ∈ used)) in Hmin by done. }
        assert (nodes_of nodes (others live primary) ∖ prime ⊆ nodes_of nodes chosen ∖ prime) as Hsub'.
        { intros x. rewrite !elem_of_difference. intros [(v & Hv & <-)%elem_nodes_of Hx]. apply Hall in Hv. subst used. set_solver. }
        assert ((nodes_of nodes chosen ∪ {[node_of nodes w]}) ∖ prime = nodes_of nodes chosen ∖ prime) as -> by (subst used; set_solver).
        apply subseteq_size in Hsub'. lia.
      * assert ((nodes_of nodes chosen ∪ {[node_of nodes w]}) ∖ prime = {[node_of nodes w]} ∪ nodes_of nodes chosen ∖ prime) as -> by (subst used; set_solver).
        rewrite size_union by (subst used; set_solver). rewrite size_singleton. lia.
Qed.
End Picking.

Lemma dset_keys {A} k (v : A) (d : list (nat * A)) : k ∈ d.*1 -> map fst (dset k v d) = map fst d.
Proof. induction d as [|[q u] d IH]; cbn; [by intros ?%not_elem_of_nil|]. intros [->|Hk]%elem_of_cons; [by rewrite decide_True|]. case_decide; [by subst|]. cbn. by rewrite IH. Qed.

Lemma assign_loop_spec nodes live wanted spot primaries srcs : forall load out, NoDup srcs -> (forall s, s ∈ srcs -> s ∈ out.*1) ->
  map fst (assign_loop nodes live wanted spot primaries srcs load out) = map fst out /\
  forall src, exists load', dget src (assign_loop nodes live wanted spot primaries srcs load out) =
    if decide (src ∈ srcs) then Some (pick_replicas (default 0%nat (dget src primaries)) live nodes load' wanted spot) else dget src out.
Proof.
  induction srcs as [|s srcs IH]; intros load out Hnd Hin; cbn [assign_loop].
  - split; [done|]. intros src. exists ∅. by rewrite decide_False by apply not_elem_of_nil.
  - apply NoDup_cons in Hnd as [Hs Hnd]. set (picked := pick_replicas _ live nodes load wanted spot).
    assert (map fst (dset s picked out) = map fst out) as Hk by (apply dset_keys, Hin; left).
    destruct (IH (foldl (add_load 1) load picked) (dset s picked out) Hnd) as [I1 I2].
    { intros x Hx. change ((dset s picked out).*1) with (map fst (dset s picked out)). rewrite Hk. apply Hin. by right. }
    split; [by rewrite I1|]. intros src. destruct (I2 src) as [load' E]. rewrite E, dget_dset. destruct (decide (src = s)) as [->|Hne].
    + exists load. by rewrite decide_False, (decide_True _ _ (list_elem_of_here s srcs)) by done.
    + exists load'. destruct (decide (src ∈ srcs)); [by rewrite decide_True by (by right)|]. by rewrite decide_False by (rewrite elem_of_cons; tauto).
Qed.

Lemma live_spec nodes dead : NoDup (live_workers nodes dead) /\ forall w, w ∈ live_workers nodes dead <-> (w < length nodes)%nat /\ w ∉ dead.
Proof.
  unfold live_workers. split; [apply NoDup_ListNoDup, List.NoDup_filter, seq_NoDup|].
  intros w. rewrite list_elem_of_In, filter_In, in_seq, negb_true_iff, bool_decide_eq_false. split; intros []; split; auto; lia.
Qed.

Lemma pick_replicas_spec primary live nodes load wanted spot : NoDup live ->
  let out := pick_replicas primary live nodes load wanted spot in
  NoDup out /\ (forall w, w ∈ out -> w ∈ others live primary) /\ length out = Nat.min wanted (length (others live primary)) /\
  size (nodes_of nodes out ∖ primary_nodes nodes primary) = Nat.min wanted (size (nodes_of nodes (others live primary) ∖ primary_nodes nodes primary)).
Proof.
  intros Hl. destruct (pick_loop_spec nodes spot load live primary wanted Hl [] (primary_nodes nodes primary)) as (P1 & P2 & P3 & P4).
  - apply NoDup_nil. done.
  - by intros w ?%not_elem_of_nil.
  - unfold nodes_of. cbn. set_solver.
  - split_and!; [exact P1|exact P2|exact P3|]. unfold pick_replicas. rewrite P4.
    assert (size (nodes_of nodes [] ∖ primary_nodes nodes primary) = 0%nat) as -> by (rewrite size_empty_iff; unfold nodes_of; cbn; set_solver). done.
Qed.

Lemma assign_unfold primaries nodes factor dead suspect spot src primary : dict_ok primaries -> dget src primaries = Some primary ->
  map fst (assign_replica_hosts primaries nodes factor dead suspect spot) = map fst primaries /\
  exists load, dget src (assign_replica_hosts primaries nodes factor dead suspect spot) =
    Some (pick_replicas primary (live_workers nodes dead) nodes load (Z.to_nat (factor - 1)) spot).
Proof.
  intros Hd Hs. assert (map fst (map (fun e : nat * nat => (e.1, @nil nat)) primaries) = map fst primaries) as Hk by (rewrite map_map; done).
  assert (dget src (map (fun e : nat * nat => (e.1, @nil nat)) primaries) = Some []) as Hout.
  { revert Hs. clear. induction primaries as [|[k v] l IH]; cbn; [done|]. by case_decide; [|apply IH]. }
  unfold assign_replica_hosts. replace (Z.to_nat (Z.max 0 (factor - 1))) with (Z.to_nat (factor - 1)) by lia.
  destruct (Nat.eqb_spec (Z.to_nat (factor - 1)) 0) as [->|Hw]; [by split; [|exists ∅]|]. destruct nodes as [|node nodes]; cbn [orb].
  - split; [done|]. exists ∅. rewrite Hout. f_equal. destruct (Z.to_nat (factor - 1)); done.
  - match goal with |- context [assign_loop _ _ _ _ _ _ ?l ?o] => set (load := l); set (out := o) in * end.
    destruct (assign_loop_spec (node :: nodes) (live_workers (node :: nodes) dead) (Z.to_nat (factor - 1)) spot primaries (py_sorted Nat.ltb (map fst primaries)) load out) as [I1 I2].
    { rewrite py_sorted_perm. exact Hd. }
    { intros s Hin. rewrite py_sorted_perm in Hin. change (s ∈ map fst out). by rewrite Hk. }
    split; [by rewrite I1|]. destruct (I2 src) as [load' E]. exists load'. rewrite E, Hs, decide_True; [done|].
    rewrite py_sorted_perm. apply dget_is_Some. by rewrite Hs.
Qed.

(** replicas die independently as far as the cluster allows.  Every source with a primary
    has an entry; its replica hosts are distinct live workers other than the primary, as many as
    the factor asks for or the cluster has, and the nodes they add to the primary's are as many
    as there are replicas or nodes to use: no two copies share a node while a node without a
    copy is left. *)
Theorem replicas_spread primaries nodes factor dead suspect preemptible src primary :
  dict_ok primaries -> dget src primaries = Some primary ->
  let out := assign_replica_hosts primaries nodes factor dead suspect preemptible in
  let wanted := Z.to_nat (factor - 1) in
  let others := List.filter (fun w => negb (w =? primary)%nat) (live_workers nodes dead) in
  let fresh ws := nodes_of nodes ws ∖ primary_nodes nodes primary in
  map fst out = map fst primaries /\
  exists hosts, dget src out = Some hosts /\ NoDup hosts /\
    (forall w, w ∈ hosts -> (w < length nodes)%nat /\ w ∉ dead /\ w <> primary) /\
    length hosts = Nat.min wanted (length others) /\
    size (fresh hosts) = Nat.min wanted (size (fresh others)).
Proof.
  intros Hd Hs out wanted others' fresh. destruct (assign_unfold primaries nodes factor dead suspect preemptible src primary Hd Hs) as [Hk [load E]].
  destruct (live_spec nodes dead) as [Hl Hw]. destruct (pick_replicas_spec primary (live_workers nodes dead) nodes load wanted preemptible Hl) as (P1 & P2 & P3 & P4).
  split; [exact Hk|]. eexists. split_and!; [exact E|exact P1| |exact P3|exact P4]. intros w (Hin & Hne)%P2%elem_others. apply Hw in Hin as [? ?]. done.
Qed.

(** Four workers on three nodes, one dead, three copies of each source. *)
Lemma replicas_spread_witness :
  let primaries := [(0, 0); (1, 1)]%nat in
  let nodes := ["n1"; "n1"; "n2"; "n3"]%string in
  dget 0%nat (assign_replica_hosts primaries nodes 3 ∅ ∅ ∅) = Some [2; 3]%nat /\
  dget 0%nat (assign_replica_hosts primaries nodes 3 {[2]}%nat ∅ ∅) = Some [3; 1]%nat /\
  exists hosts, dget 0%nat (assign_replica_hosts primaries nodes 3 ∅ ∅ ∅) = Some hosts /\ NoDup hosts /\ length hosts = 2%nat.
Proof.
  intros primaries nodes. split_and!; [vm_compute; reflexivity..|].
  destruct (replicas_spread primaries nodes 3 ∅ ∅ ∅ 0%nat 0%nat) as (_ & hosts & H1 & H2 & _ & H3 & _); [apply (bool_decide_unpack _); vm_compute; exact I|reflexivity|].
  exists hosts. split_and!; [exact H1|exact H2|exact H3].
Defined.

(** A suspect worker is taken before a healthy one on spot capacity: the load that marks a suspect
    ranks below the market. *)
Example suspect_outranks_healthy_spot :
  assign_replica_hosts [(0, 0)]%nat ["n1"; "n2"; "n3"]%string 2 ∅ {[1]}%nat {[2]}%nat = [(0, [1])]%nat.
Proof. vm_compute. reflexivity. Qed.
