(* ===== verification/Barrier.v ===== *)
(** * The barrier of a distributed stage, with backup tasks

    carbonite/resilience/speculative.py: [stragglers_to_backup], the decision which running
    tasks deserve a second copy, and [gather_with_backups], the loop that waits for every slot
    of a stage, takes the first copy of a slot to finish and launches the backups.

    Task handles, what a finished handle holds ([ray.get]), the function that issues a task
    again and the handler of failures are parameters.  What happens while the loop sleeps is a
    [wake]: the handles [ray.wait] finds finished, the clock, and the slots whose host leaves; a
    theorem about every list of wakes is one about every timing.  Times are doubles. *)

From Stdlib Require Import Floats.SpecFloat.
From S2P Require Import Prelude PyFloat PyDict.

(** ** Which tasks to back up *)

(** [SpeculationPolicy]. *)
Record policy := Policy { straggler_factor : flt; min_finished_frac : flt; max_backups : Z; min_elapsed_s : flt }.

(** [statistics.median] of a non-empty list. *)
Definition median (l : list flt) : flt :=
  let s := py_sorted flt_lt l in
  let n := length s in
  let at_ i := nth i s (flt_of_Z 0) in
  if Nat.odd n then at_ (n / 2)%nat else flt_div (flt_add (at_ (n / 2 - 1)%nat) (at_ (n / 2)%nat)) (flt_of_Z 2).

(** [l.sort(key=elapsed, reverse=True)]: equal keys keep their order. *)
Definition slowest_first (l : list (nat * flt)) : list (nat * flt) := rev (py_sorted (fun a b => flt_lt a.2 b.2) (rev l)).

(** Whether enough tasks finished for a median; [math.ceil] raises on a product that is not
    finite. *)
Definition enough_finished (n : nat) (finished : list (nat * flt)) (p : policy) : res bool :=
  match finished with
  | [] => Ok false
  | _ => match flt_ceil (flt_mul p.(min_finished_frac) (flt_of_Z (Z.of_nat n))) with
         | Some c => Ok (Z.max 1 c <=? Z.of_nat (length finished))
         | None => Raise "OverflowError"
         end
  end.

Definition threshold (finished : list (nat * flt)) (p : policy) : flt :=
  flt_max (flt_mul p.(straggler_factor) (median (map snd finished))) p.(min_elapsed_s).

(** [stragglers_to_backup]. *)
Definition stragglers_to_backup (n : nat) (finished elapsed : list (nat * flt)) (p : policy) (doomed : list nat) : res (list nat) :=
  if p.(max_backups) <=? 0 then Ok []
  else
    let urgent := map fst (slowest_first (List.filter (fun e => bool_decide (e.1 ∈ doomed)) elapsed)) in
    let cap := Z.to_nat p.(max_backups) in
    if p.(max_backups) <=? Z.of_nat (length urgent) then Ok (take cap urgent)
    else
      let* enough := enough_finished n finished p in
      if negb enough then Ok urgent
      else
        let laggards := List.filter (fun e => flt_lt (threshold finished p) e.2 && bool_decide (e.1 ∉ doomed)) elapsed in
        Ok (take cap (urgent ++ map fst (slowest_first laggards))).

(** ** The loop *)

Inductive event :=
  | Partition (slot : nat) | BackupWon (slot : nat) | DoomedBackup (slot : nat) | StragglerBackup (slot : nat) | Stalled (tasks : nat).

Definition STALL_WARN_AFTER_S : flt := flt_of_Z 120.

Section Gather.
Context {Ref V : Type} `{!EqDecision Ref}.
Context (refs : list Ref) (get : Ref -> res V) (relaunch : nat -> res Ref) (pol : policy) (on_failure : option (nat -> Ref -> string -> res V)).
Abbreviation n := (length refs).

Record wake := Wake { w_ready : list Ref; w_now : flt; w_doomed : res (list nat) }.

Record barrier := Barrier {
  result_of : list (nat * V); finished_times : list (nat * flt); backed_up : list nat; pending : list Ref;
  ref_to_idx : list (Ref * nat); alive : list (nat * list Ref); stall_warnings : Z; published : list event }.

(** The local variables at entry; two equal handles leave the last one's slot in [ref_to_idx]. *)
Definition start : barrier :=
  Barrier [] [] [] refs (foldl (fun d e => dset e.2 e.1 d) [] (zip (seq 0 n) refs))
    match on_failure with Some _ => zip (seq 0 n) (map (fun r => [r]) refs) | None => [] end 0 [].

(** [ray.wait]: the finished handles among those waited for, and the others. *)
Definition wait (w : wake) (waiting : list Ref) : list Ref * list Ref :=
  let done := List.filter (fun r => bool_decide (r ∈ waiting)) (remove_dups w.(w_ready)) in
  (done, List.filter (fun r => bool_decide (r ∉ done)) waiting).

Context (started : flt).

Definition set_waiting (rest : list Ref) (b : barrier) : barrier :=
  Barrier b.(result_of) b.(finished_times) b.(backed_up) rest b.(ref_to_idx) b.(alive) b.(stall_warnings) b.(published).
Definition publish (es : list event) (b : barrier) : barrier :=
  Barrier b.(result_of) b.(finished_times) b.(backed_up) b.(pending) b.(ref_to_idx) b.(alive) b.(stall_warnings) (b.(published) ++ es).
Definition resolve (now : flt) (i : nat) (v : V) (b : barrier) : barrier :=
  Barrier (dset i v b.(result_of)) (dset i (flt_sub now started) b.(finished_times)) b.(backed_up) b.(pending) b.(ref_to_idx) b.(alive) b.(stall_warnings) b.(published).
Definition set_alive (i : nat) (rs : list Ref) (b : barrier) : barrier :=
  Barrier b.(result_of) b.(finished_times) b.(backed_up) b.(pending) b.(ref_to_idx) (dset i rs b.(alive)) b.(stall_warnings) b.(published).

(** The warning of a barrier where nothing finished. *)
Definition warn_stalled (now : flt) (b : barrier) : barrier :=
  match b.(result_of) with
  | [] => if flt_lt (flt_mul STALL_WARN_AFTER_S (flt_of_Z (b.(stall_warnings) + 1))) (flt_sub now started)
          then publish [Stalled n] (Barrier b.(result_of) b.(finished_times) b.(backed_up) b.(pending) b.(ref_to_idx) b.(alive) (b.(stall_warnings) + 1) b.(published))
          else b
  | _ => b
  end.

(** One finished handle. *)
Definition collect (now : flt) (b : barrier) (r : Ref) : res barrier :=
  match dget r b.(ref_to_idx) with
  | None => Raise "KeyError"
  | Some i =>
      if dmem i b.(result_of) then Ok b
      else match get r with
           | Ok v =>
               let won := bool_decide (i ∈ b.(backed_up)) && negb (bool_decide (refs !! i = Some r)) in
               Ok (publish (Partition i :: if won then [BackupWon i] else []) (resolve now i v b))
           | Raise e =>
               match on_failure with
               | None => Raise e
               | Some handle =>
                   let left := List.filter (fun r' => bool_decide (r' <> r)) (default [] (dget i b.(alive))) in
                   let b := set_alive i left b in
                   match left with
                   | [] => let* v := handle i r e in Ok (resolve now i v b)
                   | _ => Ok b
                   end
               end
           end
  end.

Fixpoint collect_all (now : flt) (done : list Ref) (b : barrier) : res barrier :=
  match done with [] => Ok b | r :: done' => let* b := collect now b r in collect_all now done' b end.

(** [relaunch(i)] and its bookkeeping. *)
Definition launch (doomed : list nat) (i : nat) (b : barrier) : res barrier :=
  let* backup := relaunch i in
  Ok (Barrier b.(result_of) b.(finished_times) (b.(backed_up) ++ [i]) (b.(pending) ++ [backup]) (dset backup i b.(ref_to_idx))
        match on_failure with Some _ => dset i (default [] (dget i b.(alive)) ++ [backup]) b.(alive) | None => b.(alive) end
        b.(stall_warnings) (b.(published) ++ [if bool_decide (i ∈ doomed) then DoomedBackup i else StragglerBackup i])).

Fixpoint launch_all (doomed slots : list nat) (in_flight : Z) (b : barrier) : res barrier :=
  match slots with
  | [] => Ok b
  | i :: slots' =>
      if bool_decide (i ∉ b.(backed_up)) && (in_flight <? pol.(max_backups)) then
        let* b := launch doomed i b in launch_all doomed slots' (in_flight + 1) b
      else launch_all doomed slots' in_flight b
  end.

(** [_poll_doomed]. *)
Definition poll_doomed (r : res (list nat)) : list nat := match r with Ok l => l | Raise _ => [] end.

Definition elapsed_of (now : flt) (b : barrier) : list (nat * flt) :=
  map (fun i => (i, flt_sub now started)) (List.filter (fun i => negb (dmem i b.(result_of))) (seq 0 n)).
(** Backups of slots without a result. *)
Definition in_flight (b : barrier) : Z :=
  Z.of_nat (length b.(backed_up)) - Z.of_nat (length (List.filter (fun i => dmem i b.(result_of)) b.(backed_up))).

Definition speculate (w : wake) (b : barrier) : res barrier :=
  if (0 <? pol.(max_backups)) && (length b.(result_of) <? n)%nat then
    let doomed := poll_doomed w.(w_doomed) in
    let* slots := stragglers_to_backup n b.(finished_times) (elapsed_of w.(w_now) b) pol doomed in
    launch_all doomed slots (in_flight b) b
  else Ok b.

(** One turn of the loop. *)
Definition turn (w : wake) (b : barrier) : res barrier :=
  let '(done, rest) := wait w b.(pending) in
  let* b := collect_all w.(w_now) done (warn_stalled w.(w_now) (set_waiting rest b)) in
  speculate w b.

(** Where the loop is after some wakes: still waiting, out of handles with a slot open (the
    [ResourceError]), raised, or returned, with the handles it cancels. *)
Inductive outcome := Waiting (b : barrier) | Stranded (b : barrier) | Raised (e : string) | Returned (results : list V) (cancelled : list Ref).

Definition results (b : barrier) : res (list V) :=
  res_mapM (fun i => match dget i b.(result_of) with Some v => Ok v | None => Raise "KeyError" end) (seq 0 n).

Fixpoint gather (wakes : list wake) (b : barrier) : outcome :=
  if (n <=? length b.(result_of))%nat then match results b with Ok l => Returned l b.(pending) | Raise e => Raised e end
  else match b.(pending), wakes with
       | [], _ => Stranded b
       | _, [] => Waiting b
       | _, w :: wakes' => match turn w b with Ok b => gather wakes' b | Raise e => Raised e end
       end.

(** [gather_with_backups]; without tasks it returns at once. *)
Definition gather_with_backups (wakes : list wake) : outcome := gather wakes start.
End Gather.
Arguments wake : clear implicits.
Arguments barrier : clear implicits.
Arguments outcome : clear implicits.
