(* ===== verification/BarrierSound.v ===== *)
(** * The barrier of a distributed stage: invariant, exactness, termination

    Every slot without a result has a copy the barrier still waits for, so it is never left
    without handles; a slot's result is that of one of its copies, or of the failure handler
    when all of them failed; backups in flight stay within the policy; and a barrier of [n] slots
    returns after at most [2 n] wakes that found something finished. *)

From Stdlib Require Import Floats.SpecFloat.
From S2P Require Import Prelude PyFloat PyDict Barrier.

(** ** The decision *)

Lemma slowest_first_perm l : slowest_first l ≡ₚ l.
Proof. unfold slowest_first. by rewrite <- Permutation_rev, py_sorted_perm, <- Permutation_rev. Qed.

Lemma filter_split_perm {A} (p q : A -> bool) l : (forall x, x ∈ l -> p x = true -> q x = false) ->
  exists l', List.filter p l ++ List.filter q l ++ l' ≡ₚ l.
Proof.
  intros Hpq. induction l as [|x l IH]; cbn; [by exists []|]. destruct IH as [l' IH]; [intros y Hy; apply Hpq; by right|].
  destruct (p x) eqn:Ep; [|destruct (q x) eqn:Eq].
  - rewrite (Hpq x) by (done || left). exists l'. cbn. by rewrite IH.
  - exists l'. etrans; [symmetry; apply Permutation_middle|by constructor].
  - exists (x :: l'). rewrite app_assoc. etrans; [symmetry; apply Permutation_middle|]. constructor. by rewrite <- app_assoc.
Qed.

(** The chosen slots are running ones, each once, no more than the policy allows. *)
Lemma stragglers_sub n finished elapsed p doomed l : stragglers_to_backup n finished elapsed p doomed = Ok l ->
  (exists l', l ++ l' ≡ₚ map fst elapsed) /\ Z.of_nat (length l) <= Z.max 0 p.(max_backups).
Proof.
  unfold stragglers_to_backup. destruct (max_backups p <=? 0) eqn:E0; [intros [= <-]; split; [by exists (map fst elapsed)|cbn; lia]|].
  set (isd := fun e : nat * flt => bool_decide (e.1 ∈ doomed)). set (urgent := map fst (slowest_first (List.filter isd elapsed))).
  assert (forall q, (forall x, x ∈ elapsed -> isd x = true -> q x = false) -> exists l', urgent ++ map fst (slowest_first (List.filter q elapsed)) ++ l' ≡ₚ map fst elapsed) as Hsplit.
  { intros q Hq. destruct (filter_split_perm isd q elapsed Hq) as [l' Hl]. exists (map fst l'). unfold urgent.
    rewrite !slowest_first_perm, <- !map_app. by rewrite Hl. }
  assert (forall k u l', u ++ l' ≡ₚ map fst elapsed -> exists l'', take k u ++ l'' ≡ₚ map fst elapsed) as Htake.
  { intros k u l' Hu. exists (drop k u ++ l'). by rewrite app_assoc, take_drop. }
  assert (forall k u, Z.of_nat (length (take (Z.to_nat k) u : list nat)) <= Z.max 0 k) as Hlen by (intros; rewrite length_take; lia).
  destruct (Hsplit (fun _ => false)) as [l0 Hl0]; [done|].
  case_match; [intros [= <-]; split; [by eapply Htake|done]|].
  destruct (enough_finished _ _ _) as [[]|]; cbn; [| |done]; intros [= <-].
  - split; [|done]. edestruct (Hsplit (fun e => flt_lt (threshold finished p) e.2 && bool_decide (e.1 ∉ doomed))) as [l1 Hl1].
    { intros x _ Hx. unfold isd in Hx. apply bool_decide_eq_true in Hx. rewrite bool_decide_false by (by intros ?). by rewrite andb_false_r. }
    rewrite app_assoc in Hl1. by eapply Htake.
  - split; [by eexists|lia].
Qed.

Lemma dget_zip {A} (l : list A) k i : dget (k + i)%nat (zip (seq k (length l)) l) = l !! i.
Proof.
  revert k i. induction l as [|x l IH]; intros k i; cbn; [by rewrite lookup_nil|]. destruct i as [|i]; cbn; [by rewrite decide_True by lia|].
  rewrite decide_False by lia. etrans; [|exact (IH (S k) i)]. f_equal. lia.
Qed.

Lemma dget_zip_inv {A} (l : list A) i x : dget i (zip (seq 0 (length l)) l) = Some x -> l !! i = Some x.
Proof. intros H. rewrite <- (dget_zip l 0 i). exact H. Qed.

(** The slot of each handle, where handles are distinct. *)
Section Index.
Context {A : Type} `{!EqDecision A}.
Abbreviation index k l d := (foldl (fun d e => dset e.2 e.1 d) d (zip (seq k (length l)) l)).
Lemma index_other (l : list A) x : forall k d, x ∉ l -> dget x (index k l d) = dget x d.
Proof.
  induction l as [|y l IH]; intros k d; cbn; [done|]. intros [Hxy Hx]%not_elem_of_cons. rewrite IH by done. by rewrite dget_dset, decide_False.
Qed.
Lemma index_lookup (l : list A) : forall k d i x, NoDup l -> l !! i = Some x -> dget x (index k l d) = Some (k + i)%nat.
Proof.
  induction l as [|y l IH]; intros k d i x; [done|]. cbn [length seq zip zip_with foldl fst snd]. intros [Hy Hl]%NoDup_cons. destruct i as [|i]; cbn.
  - intros [= ->]. rewrite index_other by done. rewrite dget_dset, decide_True by done. f_equal. lia.
  - intros Hx. rewrite (IH _ _ _ _ Hl Hx). f_equal. lia.
Qed.
End Index.

(** Slots below a bound, as many as there are, are all of them. *)
Lemma all_slots (keys : list nat) m : NoDup keys -> (forall i, i ∈ keys -> (i < m)%nat) -> (m <= length keys)%nat -> forall i, (i < m)%nat -> i ∈ keys.
Proof.
  intros Hn Hk Hlen i Hi. assert (keys ≡ₚ seq 0 m) as ->; [|apply elem_of_seq; lia].
  apply submseteq_length_Permutation; [|by rewrite length_seq]. apply NoDup_submseteq; [done|]. intros j Hj. apply elem_of_seq. specialize (Hk j Hj). lia.
Qed.

Lemma some_slot_open (keys : list nat) m : (length keys < m)%nat -> exists i, (i < m)%nat /\ i ∉ keys.
Proof.
  intros Hlen. destruct (decide (Forall (fun i => i ∈ keys) (seq 0 m))) as [H|H].
  - exfalso. assert (seq 0 m ⊆+ keys) as Hs%submseteq_length by (apply NoDup_submseteq; [apply NoDup_seq|intros i Hi; rewrite Forall_forall in H; by apply H]). rewrite length_seq in Hs. lia.
  - apply not_Forall_Exists in H; [|apply _]. apply Exists_exists in H as (i & Hi%elem_of_seq & Hn). exists i. split; [lia|done].
Qed.

Lemma res_mapM_total {A B} (f : A -> res B) l : (forall x, x ∈ l -> exists y, f x = Ok y) -> exists ys, res_mapM f l = Ok ys /\ Forall2 (fun x y => f x = Ok y) l ys.
Proof.
  induction l as [|x l IH]; intros Hf; cbn; [by exists []|]. destruct (Hf x) as [y Hy]; [by left|]. destruct IH as (ys & Eys & Hys); [intros; apply Hf; by right|].
  exists (y :: ys). rewrite Hy, Eys. by repeat constructor.
Qed.

(** ** The invariant *)

(** Handles name one task: the ones given are distinct, and a new one is new. *)
Class FreshHandles {Ref} (refs : list Ref) (relaunch : nat -> res Ref) : Prop := {
  fh_nodup : NoDup refs;
  fh_new i r : relaunch i = Ok r -> r ∉ refs;
  fh_own i j r : relaunch i = Ok r -> relaunch j = Ok r -> i = j }.

Section Sound.
Context {Ref V : Type} `{!EqDecision Ref}.
Context (refs : list Ref) (get : Ref -> res V) (relaunch : nat -> res Ref) (pol : policy) (on_failure : option (nat -> Ref -> string -> res V)) (started : flt).
Context `{!FreshHandles refs relaunch}.
Abbreviation n := (length refs).
Abbreviation barrier := (Barrier.barrier Ref V).
Abbreviation collect := (Barrier.collect refs get on_failure started).
Abbreviation collect_all := (Barrier.collect_all refs get on_failure started).
Abbreviation launch_all := (Barrier.launch_all relaunch pol on_failure).
Abbreviation turn := (Barrier.turn refs get relaunch pol on_failure started).
Abbreviation gather := (Barrier.gather refs get relaunch pol on_failure started).

(** The handles of a slot: the one given and the one a relaunch gives. *)
Definition handle_of (i : nat) (r : Ref) : Prop := refs !! i = Some r \/ relaunch i = Ok r.
(** Those that exist, given the slots that were backed up. *)
Definition copy (backed : list nat) (i : nat) (r : Ref) : Prop := refs !! i = Some r \/ (i ∈ backed /\ relaunch i = Ok r).
Lemma copy_handle backed i r : copy backed i r -> handle_of i r.
Proof. intros [H|[_ H]]; [by left|by right]. Qed.
Definition failed (r : Ref) : Prop := exists e, get r = Raise e.
(** What the barrier may report for a slot. *)
Definition right (backed : list nat) (i : nat) (v : V) : Prop :=
  (exists r, copy backed i r /\ get r = Ok v) \/
  (exists handle r e, on_failure = Some handle /\ copy backed i r /\ get r = Raise e /\ handle i r e = Ok v /\ forall r', copy backed i r' -> failed r').
(** A slot without a result has a copy among the handles that will still be looked at. *)
Definition open (todo : list Ref) (b : barrier) (i : nat) : Prop :=
  match on_failure with
  | Some _ => exists rs, dget i b.(alive) = Some rs /\ rs <> [] /\ (forall r, r ∈ rs -> r ∈ todo) /\
                forall r, copy b.(backed_up) i r -> r ∈ rs \/ failed r
  | None => exists r, refs !! i = Some r /\ r ∈ todo
  end.

Record Inv (todo : list Ref) (b : barrier) : Prop := {
  iv_results : dict_ok b.(result_of);
  iv_right i v : dget i b.(result_of) = Some v -> (i < n)%nat /\ right b.(backed_up) i v;
  iv_todo : NoDup todo;
  iv_idx r : r ∈ todo -> exists i, dget r b.(ref_to_idx) = Some i /\ copy b.(backed_up) i r;
  iv_backed : NoDup b.(backed_up);
  iv_slots i : i ∈ b.(backed_up) -> (i < n)%nat;
  iv_alive i rs r : dget i b.(alive) = Some rs -> r ∈ rs -> copy b.(backed_up) i r;
  iv_open i : (i < n)%nat -> dget i b.(result_of) = None -> open todo b i;
  iv_cap : in_flight b <= Z.max 0 pol.(max_backups) }.

Lemma copy_own backed i j r : copy backed i r -> copy backed j r -> i = j.
Proof.
  intros [Hi|[_ Hi]] [Hj|[_ Hj]].
  - eapply NoDup_lookup; [apply fh_nodup|done|done].
  - exfalso. apply (fh_new _ _ Hj). by eapply list_elem_of_lookup_2.
  - exfalso. apply (fh_new _ _ Hi). by eapply list_elem_of_lookup_2.
  - by eapply fh_own.
Qed.

Lemma copy_slot backed i r : (forall j, j ∈ backed -> (j < n)%nat) -> copy backed i r -> (i < n)%nat.
Proof. intros Hb [Hi|[Hi _]]; [by eapply lookup_lt_Some|by apply Hb]. Qed.

(** Only the members of what is to be looked at matter. *)
Lemma Inv_perm todo todo' b : todo ≡ₚ todo' -> Inv todo b -> Inv todo' b.
Proof.
  intros Hp []. split; try done.
  - by rewrite <- Hp.
  - intros r Hr. apply iv_idx0. by rewrite Hp.
  - intros i Hi Hn. specialize (iv_open0 i Hi Hn). unfold open in *. destruct on_failure; [|by setoid_rewrite <- Hp].
    destruct iv_open0 as (rs & Hg & Hne & Hrs & Hc). exists rs. split_and!; try done. intros q Hq. rewrite <- Hp. by apply Hrs.
Qed.

(** [wait] parts what it waits for. *)
Lemma wait_perm w (waiting : list Ref) : NoDup waiting -> (wait w waiting).1 ++ (wait w waiting).2 ≡ₚ waiting.
Proof.
  intros Hn. unfold wait. cbn. set (done := List.filter (fun r => bool_decide (r ∈ waiting)) (remove_dups (w_ready w))).
  apply NoDup_Permutation.
  - apply NoDup_app. split_and!; [apply NoDup_ListNoDup, List.NoDup_filter, NoDup_ListNoDup, NoDup_remove_dups| |by apply NoDup_ListNoDup, List.NoDup_filter, NoDup_ListNoDup].
    intros r Hr Hr'%list_elem_of_In%filter_In. destruct Hr' as [_ Hr'%bool_decide_eq_true]. done.
  - done.
  - intros r. rewrite elem_of_app. split.
    + intros [Hr%list_elem_of_In%filter_In|Hr%list_elem_of_In%filter_In]; [destruct Hr as [_ Hr]; by apply bool_decide_eq_true in Hr|destruct Hr as [Hr _]; by apply list_elem_of_In].
    + intros Hr. destruct (decide (r ∈ done)); [by left|right]. apply list_elem_of_In, filter_In. split; [by apply list_elem_of_In|by apply bool_decide_eq_true].
Qed.
(** *** Collecting *)

Lemma open_weaken todo r i j b b' : open (r :: todo) b j -> copy b.(backed_up) i r -> i <> j -> b'.(backed_up) = b.(backed_up) -> dget j b'.(alive) = dget j b.(alive) ->
  (forall rs q, dget j b.(alive) = Some rs -> q ∈ rs -> copy b.(backed_up) j q) -> open todo b' j.
Proof.
  intros Ho Hc Hne Eb Ea Hal. unfold open in *. rewrite Eb, Ea.
  assert (forall q, copy (backed_up b) j q -> q ∈ r :: todo -> q ∈ todo) as Hq.
  { intros q Hq [->|Hin]%elem_of_cons; [|done]. destruct Hne. by eapply copy_own. }
  destruct on_failure.
  - destruct Ho as (rs & Hg & Hn & Hrs & Hcs). exists rs. split_and!; try done. intros q Hin. apply Hq; [by eapply Hal|by apply Hrs].
  - destruct Ho as (q & Hg & Hin). exists q. split; [done|]. apply Hq; [by left|done].
Qed.

Lemma in_flight_resolve now i v (b : barrier) : in_flight (resolve started now i v b) <= in_flight b.
Proof.
  unfold in_flight. cbn. induction (backed_up b) as [|j l IH]; cbn -[Z.of_nat]; [lia|].
  unfold dmem in *. rewrite dget_dset. destruct (decide (j = i)); [|destruct (dget j (result_of b))]; cbn [length]; [destruct (dget j (result_of b)); cbn [length]|..]; lia.
Qed.

Lemma in_flight_same (b b' : barrier) : b'.(backed_up) = b.(backed_up) -> b'.(result_of) = b.(result_of) -> in_flight b' = in_flight b.
Proof. intros E1 E2. unfold in_flight. by rewrite E1, E2. Qed.

(** The slot of a handle settles with a result. *)
Lemma resolve_inv todo r now i v b b' : Inv (r :: todo) b -> dget r b.(ref_to_idx) = Some i -> copy b.(backed_up) i r -> right b.(backed_up) i v -> dget i b.(result_of) = None ->
  b'.(result_of) = b.(result_of) -> b'.(backed_up) = b.(backed_up) -> b'.(ref_to_idx) = b.(ref_to_idx) ->
  (forall j, j <> i -> dget j b'.(alive) = dget j b.(alive)) -> (forall rs q, dget i b'.(alive) = Some rs -> q ∈ rs -> copy b.(backed_up) i q) ->
  Inv todo (resolve started now i v b').
Proof.
  intros [] Hr Hc Hv Hnone E1 E2 E3 Ha Hai. apply NoDup_cons in iv_todo0 as [Hrt Ht].
  split; cbn; rewrite ?E1, ?E2, ?E3; try done.
  - by apply dset_ok.
  - intros j w. rewrite dget_dset. case_decide; [intros [= <-]; subst; split; [by eapply copy_slot|done]|apply iv_right0].
  - intros q Hq. apply iv_idx0. by right.
  - intros j rs q. destruct (decide (j = i)) as [->|Hne]; [apply Hai|rewrite Ha by done; apply iv_alive0].
  - intros j Hj. rewrite dget_dset. case_decide as Hji; [done|]. intros Hn. eapply (open_weaken todo r i j b); [by apply iv_open0|done|done|done|by apply Ha|]. intros rs q. apply iv_alive0.
  - etrans; [apply in_flight_resolve|]. by rewrite (in_flight_same b b').
Qed.

Lemma collect_inv todo r now b b' : Inv (r :: todo) b -> collect now b r = Ok b' ->
  Inv todo b' /\ b'.(backed_up) = b.(backed_up) /\ b'.(pending) = b.(pending).
Proof.
  intros HI. pose proof HI as []. destruct (iv_idx0 r) as (i & Hr & Hc); [by left|]. unfold Barrier.collect. rewrite Hr.
  destruct (dmem i (result_of b)) eqn:Em.
  - intros [= <-]. split; [|done]. apply NoDup_cons in iv_todo0 as [Hrt Ht]. split; try done.
    + intros q Hq. apply iv_idx0. by right.
    + intros j Hj Hn. eapply (open_weaken todo r i j b); [by apply iv_open0|done| |done|done|intros rs q; apply iv_alive0].
      intros ->. unfold dmem in Em. by rewrite Hn in Em.
  - assert (dget i (result_of b) = None) as Hnone by (unfold dmem in Em; by destruct (dget i (result_of b))).
    destruct (get r) as [v|e] eqn:Eg.
    + intros [= <-]. split; [|done]. eapply (resolve_inv todo r now i v b b) in HI; try done; [|left; eauto|intros rs q; apply iv_alive0].
      destruct HI. split; try done.
    + specialize (iv_open0 i (copy_slot _ _ _ iv_slots0 Hc) Hnone) as Ho. unfold open in Ho. destruct on_failure as [handle|] eqn:Eh; [|done].
      destruct Ho as (rs & Hg & Hn & Hrs & Hcs). rewrite Hg. change (default [] (Some rs)) with rs. cbv zeta.
      set (left := List.filter (fun r' => bool_decide (r' <> r)) rs).
      assert (forall q, q ∈ left <-> q ∈ rs /\ q <> r) as Hleft by (intros q; unfold left; rewrite list_elem_of_In, filter_In, bool_decide_eq_true, <- list_elem_of_In; done).
      assert (forall q, copy (backed_up b) i q -> q ∈ left \/ failed q) as Hcl.
      { intros q Hq. destruct (Hcs q Hq) as [Hin|Hf]; [|by right]. destruct (decide (q = r)) as [->|Hne]; [right; by eexists|left; by apply Hleft]. }
      assert (forall rs0 q, dget i (dset i left (alive b)) = Some rs0 -> q ∈ rs0 -> copy (backed_up b) i q) as Hal.
      { intros rs0 q. rewrite dget_dset, decide_True by done. intros [= <-] [Hq _]%Hleft. by eapply iv_alive0. }
      destruct left as [|q0 left'] eqn:El.
      * destruct (handle i r e) as [v|e'] eqn:Ehv; cbn; [|done]. intros [= <-]. split; [|done].
        eapply (resolve_inv todo r now i v b (set_alive i [] b)); try done.
        -- right. exists handle, r, e. split_and!; try done. intros q Hq. destruct (Hcl q Hq) as [[]%not_elem_of_nil|]; done.
        -- intros j Hj. cbn. by rewrite dget_dset, decide_False.
      * intros [= <-]. split; [|done]. apply NoDup_cons in iv_todo0 as [Hrt Ht]. split; cbn; try done.
        -- intros q Hq. apply iv_idx0. by right.
        -- intros j rs' q. rewrite dget_dset. case_decide as Hji; [subst|apply iv_alive0]. intros [= <-] [Hq _]%Hleft. by eapply iv_alive0.
        -- intros j Hj Hnj. destruct (decide (j = i)) as [->|Hji].
           ++ unfold open. rewrite Eh. cbn. exists (q0 :: left'). rewrite dget_dset, decide_True by done. split_and!; try done.
              intros q [Hq Hqr]%Hleft. specialize (Hrs q Hq). apply elem_of_cons in Hrs as [->|]; done.
           ++ eapply (open_weaken todo r i j b); [by apply iv_open0|done|done|done|cbn; by rewrite dget_dset, decide_False|intros rs' q; apply iv_alive0].
Qed.

Lemma collect_all_inv now done : forall todo b b', Inv (done ++ todo) b -> collect_all now done b = Ok b' ->
  Inv todo b' /\ b'.(backed_up) = b.(backed_up) /\ b'.(pending) = b.(pending).
Proof.
  induction done as [|r done IH]; intros todo b b' HI; cbn; [intros [= <-]; done|]. destruct (collect now b r) as [b1|] eqn:E; [|done].
  apply (collect_inv (done ++ todo)) in E as (H1 & E1 & E2); [|done]. intros Hb. apply (IH todo) in Hb as (H2 & E3 & E4); [|done]. split_and!; [done|congruence|congruence].
Qed.
(** *** Launching *)

Lemma copy_snoc backed i j q : copy (backed ++ [i]) j q <-> copy backed j q \/ (j = i /\ relaunch i = Ok q).
Proof.
  unfold copy. rewrite elem_of_app, list_elem_of_singleton. split.
  - intros [H|[[H| ->] H']]; tauto.
  - intros [[H|[H H']]|[-> H]]; tauto.
Qed.

Lemma right_snoc backed i j v : j <> i -> right backed j v -> right (backed ++ [i]) j v.
Proof.
  intros Hne [(r & Hc & Hr)|(h & r & e & Hh & Hc & Hr & Hv & Hall)]; [left; exists r; split; [|done]|right; exists h, r, e; split_and!; try done]; try (apply copy_snoc; by left).
  intros q [Hq|[-> _]]%copy_snoc; [by apply Hall|done].
Qed.

Lemma launch_inv doomed i b b' : Inv b.(pending) b -> (i < n)%nat -> dget i b.(result_of) = None -> i ∉ b.(backed_up) -> in_flight b < pol.(max_backups) ->
  launch relaunch on_failure doomed i b = Ok b' ->
  Inv b'.(pending) b' /\ b'.(result_of) = b.(result_of) /\ in_flight b' = in_flight b + 1 /\ b'.(backed_up) = b.(backed_up) ++ [i] /\ length b'.(pending) = S (length b.(pending)).
Proof.
  intros [] Hi Hnone Hib Hcap. unfold launch. destruct (relaunch i) as [r|] eqn:Er; [|done]. cbn. intros [= <-]. cbn.
  assert (forall q, q ∈ b.(pending) -> q <> r) as Hfresh.
  { intros q Hq ->. destruct (iv_idx0 r Hq) as (j & _ & [Hj|[Hj Hj']]); [apply (fh_new _ _ Er); by eapply list_elem_of_lookup_2|]. apply Hib. by rewrite (fh_own i j r). }
  assert (in_flight (Barrier (result_of b) (finished_times b) (backed_up b ++ [i]) (pending b) (ref_to_idx b) (alive b) 0 []) = in_flight b + 1) as Hfl.
  { unfold in_flight. cbn. rewrite List.filter_app, !length_app. cbn. unfold dmem at 2. rewrite Hnone. cbn. lia. }
  split; [|split_and!; [done| |done|rewrite length_app; cbn; lia]].
  2: { etrans; [|exact Hfl]. by apply in_flight_same. }
  split; cbn; try done.
  - intros j v Hj. destruct (iv_right0 j v Hj) as [Hl Hv]. split; [done|]. apply right_snoc; [intros ->; congruence|done].
  - apply NoDup_app. split_and!; [done| |apply NoDup_singleton]. intros q Hq ->%list_elem_of_singleton. by apply (Hfresh r).
  - intros q [Hq| ->%list_elem_of_singleton]%elem_of_app.
    + destruct (iv_idx0 q Hq) as (j & Hj & Hc). exists j. rewrite dget_dset, decide_False by (by apply Hfresh). split; [done|]. apply copy_snoc. by left.
    + exists i. rewrite dget_dset, decide_True by done. split; [done|]. apply copy_snoc. by right.
  - apply NoDup_app. split_and!; [done| |apply NoDup_singleton]. by intros q Hq ->%list_elem_of_singleton.
  - intros j [Hj| ->%list_elem_of_singleton]%elem_of_app; [by apply iv_slots0|done].
  - intros j rs q Hj Hq. apply copy_snoc. destruct on_failure; [|left; by eapply iv_alive0]. rewrite dget_dset in Hj. case_decide as Hji; [|left; by eapply iv_alive0].
    injection Hj as <-. subst j. apply elem_of_app in Hq as [Hq| ->%list_elem_of_singleton]; [|by right]. left. destruct (dget i (alive b)) as [rs|] eqn:Ea; [by eapply iv_alive0|by apply not_elem_of_nil in Hq].
  - intros j Hj Hn. specialize (iv_open0 j Hj Hn). unfold open in *. cbn. destruct on_failure.
    + destruct iv_open0 as (rs & Hg & Hne & Hrs & Hcs). rewrite dget_dset. case_decide as Hji.
      * subst j. rewrite Hg. cbn. exists (rs ++ [r]). split_and!; [done|by destruct rs| |].
        -- intros q Hq. rewrite elem_of_app in *. destruct Hq as [Hq|Hq]; [left; by apply Hrs|by right].
        -- intros q [Hq|[_ Hq]]%copy_snoc; rewrite elem_of_app; [destruct (Hcs q Hq); tauto|]. left. right. apply list_elem_of_singleton. congruence.
      * exists rs. split_and!; [done|done|intros q Hq; apply elem_of_app; left; by apply Hrs|]. intros q [Hq|[-> _]]%copy_snoc; [by apply Hcs|done].
    + destruct iv_open0 as (q & Hg & Hq). exists q. split; [done|]. apply elem_of_app. by left.
  - etrans; [|apply Z.le_max_r]. etrans; [|apply Z.le_succ_l, Hcap]. rewrite <- Z.add_1_r, <- Hfl. apply Z.eq_le_incl. by apply in_flight_same.
Qed.

Lemma launch_all_inv doomed slots : forall b b', Inv b.(pending) b -> (forall i, i ∈ slots -> (i < n)%nat /\ dget i b.(result_of) = None) ->
  launch_all doomed slots (in_flight b) b = Ok b' ->
  Inv b'.(pending) b' /\ b'.(result_of) = b.(result_of) /\ (length b'.(pending) + length b.(backed_up) = length b.(pending) + length b'.(backed_up))%nat.
Proof.
  induction slots as [|i slots IH]; intros b b' HI Hs; cbn -[launch]; [intros [= <-]; split_and!; (done || lia)|].
  assert (forall j, j ∈ slots -> (j < n)%nat /\ dget j b.(result_of) = None) as Hs' by (intros; apply Hs; by right).
  destruct (bool_decide _ && _) eqn:E; [|by apply IH]. apply andb_true_iff in E as [E1%bool_decide_eq_true E2%Z.ltb_lt].
  destruct (launch _ _ _ _ _) as [b1|] eqn:El; [|done]. cbn. destruct (Hs i) as [Hi Hnone]; [by left|].
  apply launch_inv in El as (H1 & Er & Ef & Eb & Ep); try done. rewrite <- Ef. intros Hb. apply IH in Hb as (H2 & Er2 & Em); [|done|by rewrite Er].
  rewrite Eb, length_app in Em. cbn in Em. split_and!; [done|congruence|lia].
Qed.
(** *** The loop *)

Lemma start_inv : Inv refs (start refs on_failure).
Proof.
  assert (forall i rs r, dget i (alive (start (V := V) refs on_failure)) = Some rs -> r ∈ rs -> refs !! i = Some r) as Hal.
  { intros i rs r. cbn. destruct on_failure; [|done]. rewrite <- (length_map (fun r => [r]) refs). intros H%dget_zip_inv. apply list_lookup_fmap_Some in H as (r' & -> & Hr').
    by intros ->%list_elem_of_singleton. }
  split; cbn; try done.
  - constructor.
  - apply fh_nodup.
  - intros r [i Hi]%list_elem_of_lookup. exists i. split; [|by left]. by apply (index_lookup refs 0); [apply fh_nodup|].
  - constructor.
  - by intros i ?%not_elem_of_nil.
  - intros i rs r Hi Hr. left. by eapply Hal.
  - intros i Hi _. apply lookup_lt_is_Some in Hi as [r Hr]. unfold open. cbn. destruct on_failure; [|exists r; split; [done|by eapply list_elem_of_lookup_2]].
    exists [r]. rewrite <- (length_map (fun r => [r]) refs), (dget_zip _ 0 i), list_lookup_fmap, Hr. split_and!; [done|done| |].
    + intros q ->%list_elem_of_singleton. by eapply list_elem_of_lookup_2.
    + intros q [Hq|[?%not_elem_of_nil _]]; [|done]. left. apply list_elem_of_singleton. congruence.
  - unfold in_flight. cbn. lia.
Qed.

Lemma warn_stalled_same now (b : barrier) : (warn_stalled refs started now b).(result_of) = b.(result_of) /\ (warn_stalled refs started now b).(backed_up) = b.(backed_up) /\
  (warn_stalled refs started now b).(pending) = b.(pending) /\ (warn_stalled refs started now b).(alive) = b.(alive) /\ (warn_stalled refs started now b).(ref_to_idx) = b.(ref_to_idx).
Proof. unfold warn_stalled. by repeat case_match. Qed.

Lemma Inv_fields todo (b b' : barrier) : b'.(result_of) = b.(result_of) -> b'.(backed_up) = b.(backed_up) -> b'.(alive) = b.(alive) -> b'.(ref_to_idx) = b.(ref_to_idx) -> Inv todo b -> Inv todo b'.
Proof.
  intros E1 E2 E3 E4 []. split; rewrite ?E1, ?E2, ?E3, ?E4; try done.
  - intros i Hi Hn. specialize (iv_open0 i Hi Hn). unfold open in *. by rewrite E2, E3.
  - by rewrite (in_flight_same b b').
Qed.

Lemma collecting_inv w b : Inv b.(pending) b -> Inv ((wait w b.(pending)).1 ++ (wait w b.(pending)).2) (warn_stalled refs started w.(w_now) (set_waiting (wait w b.(pending)).2 b)).
Proof.
  intros HI. destruct (warn_stalled_same (w_now w) (set_waiting (wait w b.(pending)).2 b)) as (E1 & E2 & _ & E3 & E4).
  eapply (Inv_fields _ b); [done..|]. eapply Inv_perm; [|exact HI]. symmetry. apply wait_perm. by destruct HI.
Qed.

Lemma elapsed_open now (b : barrier) i : i ∈ map fst (elapsed_of refs started now b) -> (i < n)%nat /\ dget i b.(result_of) = None.
Proof.
  unfold elapsed_of. rewrite map_map. cbn. rewrite map_id. intros [Hi%list_elem_of_In Hm]%list_elem_of_In%filter_In. apply elem_of_seq in Hi. split; [lia|].
  unfold dmem in Hm. by destruct (dget i (result_of b)).
Qed.

Lemma turn_inv w b b' : Inv b.(pending) b -> turn w b = Ok b' ->
  Inv b'.(pending) b' /\ (length b'.(pending) + length b.(backed_up) + length (wait w b.(pending)).1 = length b.(pending) + length b'.(backed_up))%nat.
Proof.
  intros HI. unfold Barrier.turn. pose proof (collecting_inv w b HI) as HC. assert (NoDup b.(pending)) as Hnd by (by destruct HI). pose proof (wait_perm w _ Hnd) as Hp%Permutation_length.
  destruct (warn_stalled_same (w_now w) (set_waiting (wait w b.(pending)).2 b)) as (_ & Eb & Ep & _). destruct (wait w (pending b)) as [done rest] eqn:Ew. cbn [fst snd] in *.
  destruct (collect_all _ _ _) as [b1|] eqn:E; [|done]. apply (collect_all_inv _ _ rest) in E as (H1 & E1 & E2); [|done]. rewrite Eb in E1. rewrite Ep in E2. cbn in E1, E2. rewrite length_app in Hp. rewrite <- E2 in H1.
  cbn. unfold speculate. destruct (_ && _); [|intros [= <-]; rewrite E1, E2; split; [by rewrite E2 in H1|lia]].
  destruct (stragglers_to_backup _ _ _ _ _) as [slots|] eqn:Es; [|done]. cbn. apply stragglers_sub in Es as [[l' Hl] _]. intros Hb.
  apply launch_all_inv in Hb as (H2 & _ & Em); [split; [done|rewrite E1, E2 in Em; lia]|done|].
  intros i Hi. eapply elapsed_open. rewrite <- Hl. apply elem_of_app. by left.
Qed.
(** *** What it raises *)

(** The error of a task nobody handles, of the handler, of a launch, or of a policy whose share
    of finished tasks is not a number. *)
Definition justified (e : string) : Prop :=
  (on_failure = None /\ exists i r, handle_of i r /\ get r = Raise e) \/
  (exists handle i r e', on_failure = Some handle /\ handle_of i r /\ get r = Raise e' /\ handle i r e' = Raise e) \/
  (exists i, relaunch i = Raise e) \/ (flt_ceil (flt_mul pol.(min_finished_frac) (flt_of_Z (Z.of_nat n))) = None).

Lemma collect_all_raises now done : forall todo b e, Inv (done ++ todo) b -> collect_all now done b = Raise e -> justified e.
Proof.
  induction done as [|r done IH]; intros todo b e HI; [done|]. cbn. destruct (collect now b r) as [b1|e1] eqn:E; cbn.
  - apply (collect_inv (done ++ todo)) in E as (H1 & _); [by apply (IH todo)|done].
  - intros [= <-]. destruct HI as [_ _ _ Hidx _ _ _ _ _]. destruct (Hidx r) as (i & Hr & Hc%copy_handle); [by left|]. unfold Barrier.collect in E. rewrite Hr in E. destruct (dmem _ _); [done|].
    destruct (get r) as [v|e'] eqn:Eg; [done|]. unfold justified. destruct on_failure as [handle|]; [|left; injection E as ->; by eauto].
    cbv zeta in E. destruct (List.filter _ _); [|done]. destruct (handle i r e') as [v|e2] eqn:Eh; cbn in E; [done|]. injection E as ->. right; left. by exists handle, i, r, e'.
Qed.

Lemma launch_all_raises doomed slots : forall k b e, launch_all doomed slots k b = Raise e -> justified e.
Proof.
  induction slots as [|i slots IH]; intros k b e; [done|]. cbn -[launch]. destruct (_ && _); [|apply IH]. unfold launch. destruct (relaunch i) as [r|e'] eqn:Er; cbn; [apply IH|].
  intros [= <-]. right; right; left. by exists i.
Qed.

Lemma turn_raises w b e : Inv b.(pending) b -> turn w b = Raise e -> justified e.
Proof.
  intros HI. unfold Barrier.turn. pose proof (collecting_inv w b HI) as HC. destruct (wait w (pending b)) as [done rest] eqn:Ew. cbn [fst snd] in *.
  destruct (collect_all _ _ _) as [b1|e1] eqn:E; cbn; [|intros [= <-]; by eapply collect_all_raises].
  unfold speculate. destruct (_ && _); [|done]. destruct (stragglers_to_backup _ _ _ _ _) as [slots|e1] eqn:Es; cbn; [apply launch_all_raises|].
  intros [= <-]. right; right; right. unfold stragglers_to_backup in Es. destruct (_ <=? 0); [done|]. destruct (_ <=? _); [done|]. unfold enough_finished in Es.
  destruct (finished_times b1); [done|]. destruct (flt_ceil _); [|done]. cbn in Es. by destruct (negb _).
Qed.

(** *** Where it ends *)

Lemma results_exact b : Inv b.(pending) b -> (n <= length b.(result_of))%nat ->
  exists l, results refs b = Ok l /\ length l = n /\ forall i v, l !! i = Some v -> dget i b.(result_of) = Some v.
Proof.
  intros [] Hlen. unfold results.
  assert (forall i, (i < n)%nat -> is_Some (dget i (result_of b))) as Hall.
  { intros i Hi. apply dget_is_Some. eapply all_slots; [done| |by rewrite length_map|done]. intros j [v Hj]%dget_is_Some. by eapply iv_right0. }
  destruct (res_mapM_total (fun i => match dget i (result_of b) with Some v => Ok v | None => Raise "KeyError" end) (seq 0 n)) as (l & El & Hl).
  { intros i Hi%elem_of_seq. destruct (Hall i) as [v ->]; [lia|]. by exists v. }
  exists l. split_and!; [done|by rewrite <- (Forall2_length _ _ _ Hl), length_seq|]. intros i v Hi. destruct (Forall2_lookup_r _ _ _ _ _ Hl Hi) as (j & [-> _]%lookup_seq & Hj).
  cbn in Hj. destruct (dget i (result_of b)); congruence.
Qed.

(** Handles run out only when every slot has its result. *)
Lemma never_stranded b : Inv b.(pending) b -> b.(pending) = [] -> (n <= length b.(result_of))%nat.
Proof.
  intros [] Ep. destruct (decide (n <= length (result_of b))%nat) as [|Hlt]; [done|]. exfalso.
  destruct (some_slot_open (map fst (result_of b)) n) as (i & Hi & Hn); [rewrite length_map; lia|]. apply dget_None in Hn. specialize (iv_open0 i Hi Hn). rewrite Ep in iv_open0. unfold open in iv_open0.
  destruct on_failure as [handle|]; [|destruct iv_open0 as (r & _ & Hr); by apply not_elem_of_nil in Hr].
  destruct iv_open0 as ([|r rs] & _ & Hne & Hrs & _); [done|]. apply (not_elem_of_nil r), Hrs. left.
Qed.

(** How many wakes of a run found nothing finished. *)
Fixpoint idle (wakes : list (wake Ref)) (b : barrier) : nat :=
  match wakes with
  | [] => 0
  | w :: wakes' =>
      if (n <=? length b.(result_of))%nat then 0
      else match turn w b with
           | Ok b' => (if decide ((wait w b.(pending)).1 = []) then 1 else 0) + idle wakes' b'
           | Raise _ => 0
           end
  end.

Lemma idle_wakes wakes : forall b, (idle wakes b <= length wakes)%nat.
Proof. induction wakes as [|w wakes IH]; intros b; cbn -[turn Nat.leb]; [lia|]. destruct (_ <=? _)%nat; [lia|]. destruct (turn w b) as [b1|]; [|lia]. specialize (IH b1). case_decide; lia. Qed.

Lemma gather_sound wakes : forall b, Inv b.(pending) b ->
  match gather wakes b with
  | Returned l cancelled => exists b', Inv b'.(pending) b' /\ (forall i v, l !! i = Some v -> dget i b'.(result_of) = Some v) /\ length l = n /\ cancelled = b'.(pending)
  | Stranded _ => False
  | Raised e => justified e
  | Waiting b' => Inv b'.(pending) b' /\ (length b'.(result_of) < n)%nat /\ b'.(pending) <> [] /\
                  (length wakes + length b'.(pending) + length b.(backed_up) <= length b.(pending) + length b'.(backed_up) + idle wakes b)%nat
  end.
Proof.
  induction wakes as [|w wakes IH]; intros b HI; cbn -[turn Nat.leb]; destruct (n <=? length (result_of b))%nat eqn:En.
  1, 3: apply Nat.leb_le in En; destruct (results_exact b HI En) as (l & -> & Hl & Hv); exists b; done.
  all: apply Nat.leb_gt in En; destruct (pending b) as [|r rest] eqn:Ep; [pose proof (never_stranded b) as Hs; rewrite Ep in Hs; specialize (Hs HI eq_refl); lia|]; rewrite <- Ep in *.
  - split_and!; [done|done|by rewrite Ep|lia].
  - destruct (turn w b) as [b1|e] eqn:Et; [|by eapply turn_raises]. destruct (turn_inv w b b1 HI Et) as [H1 Em]. specialize (IH b1 H1). destruct (gather wakes b1); try done.
    destruct IH as (H2 & H3 & H4 & H5). split_and!; [done..|]. destruct (decide _) as [E|E]; [lia|]. assert (length (wait w (pending b)).1 <> 0)%nat by (intros ?%nil_length_inv; done). lia.
Qed.
End Sound.
