(* ===== verification/BarrierUse.v ===== *)
(** * The barrier of a distributed stage: what a stage may rely on

    Whatever the timing, the policy and the hosts that leave, a stage gets what waiting for its
    tasks one by one would give it; the barrier returns once enough finished handles were seen;
    backups stay within the policy. *)

From Stdlib Require Import Floats.SpecFloat.
From S2P Require Import Prelude PyFloat PyDict Barrier BarrierSound.

Section Use.
Context {Ref V : Type} `{!EqDecision Ref}.
Context (refs : list Ref) (get : Ref -> res V) (relaunch : nat -> res Ref) (pol : policy) (on_failure : option (nat -> Ref -> string -> res V)) (started : flt).
Abbreviation n := (length refs).
Abbreviation gather_with_backups := (Barrier.gather_with_backups refs get relaunch pol on_failure started).
Abbreviation justified := (justified refs get relaunch pol on_failure).
Abbreviation idle := (idle refs get relaunch pol on_failure started).

Abbreviation handle_of := (handle_of refs relaunch).
(** Copies of a task that return, return the same. *)
Definition deterministic : Prop := forall i r r' v v', handle_of i r -> handle_of i r' -> get r = Ok v -> get r' = Ok v' -> v = v'.

(** C20: For deterministic tasks and distinct handles, under any wakes, any policy and any leaving
    hosts: the barrier is never left without handles; when it returns, a slot whose own task
    succeeds has that task's result, and any other slot the result of a copy, or of the failure
    handler for a copy that failed; and it raises only for a task nobody handles, the handler, a
    launch, or a policy whose share of finished tasks is no number. *)
Theorem gather_exact `{!FreshHandles refs relaunch} wakes : deterministic ->
  match gather_with_backups wakes with
  | Returned results _ =>
      length results = n /\
      (forall i r v, refs !! i = Some r -> get r = Ok v -> results !! i = Some v) /\
      (forall i v, results !! i = Some v -> (exists r, handle_of i r /\ get r = Ok v) \/
         exists handle r e, on_failure = Some handle /\ handle_of i r /\ get r = Raise e /\ handle i r e = Ok v)
  | Stranded _ => False
  | Raised e => justified e
  | Waiting b => (length b.(result_of) < n)%nat /\ b.(pending) <> []
  end.
Proof.
  intros Hdet. unfold Barrier.gather_with_backups. pose proof (gather_sound refs get relaunch pol on_failure started wakes (start refs on_failure) (start_inv refs get relaunch pol on_failure)) as Hs.
  destruct (Barrier.gather _ _ _ _ _ _ _ _) as [b|b|e|l c]; try done; [tauto|]. destruct Hs as (b & HI & Hl & Hlen & _). destruct HI. split_and!; [done| |].
  - intros i r v Hr Hv. destruct (lookup_lt_is_Some_2 l i) as [w Hw]; [rewrite Hlen; by eapply lookup_lt_Some|]. rewrite Hw. f_equal. destruct (iv_right i w (Hl i w Hw)) as [_ [(r' & Hc & Hw')|(h & r' & e & _ & _ & _ & _ & Hall)]].
    + symmetry. eapply (Hdet i r r'); [by left|by eapply copy_handle|done|done].
    + destruct (Hall r) as [e' He']; [by left|]. congruence.
  - intros i v Hv. destruct (iv_right i v (Hl i v Hv)) as [_ [(r & Hc & Hr)|(h & r & e & Hh & Hc & Hr & Hhv & _)]]; apply copy_handle in Hc; [left; eauto|right; by exists h, r, e].
Qed.

(** C21: For deterministic tasks and distinct handles, when no task and no copy of one fails, every
    launch of a backup succeeds and the policy's share of finished tasks is a number, the barrier
    returns exactly what waiting for the given handles would, after at most two wakes per slot
    besides those that found nothing finished. *)
Theorem gather_terminates `{!FreshHandles refs relaunch} wakes : deterministic ->
  (forall i r, handle_of i r -> exists v, get r = Ok v) -> (forall i, exists r, relaunch i = Ok r) -> flt_ceil (flt_mul pol.(min_finished_frac) (flt_of_Z (Z.of_nat n))) <> None ->
  (2 * n + idle wakes (start refs on_failure) <= length wakes)%nat ->
  exists results cancelled, gather_with_backups wakes = Returned results cancelled /\ map get refs = map Ok results.
Proof.
  intros Hdet Hok Hre Hc Hp. unfold Barrier.gather_with_backups.
  pose proof (gather_sound refs get relaunch pol on_failure started wakes (start refs on_failure) (start_inv refs get relaunch pol on_failure)) as Hs.
  destruct (Barrier.gather _ _ _ _ _ _ _ _) as [b|b|e|l c] eqn:Eg.
  - exfalso. destruct Hs as (HI & Hlt & Hne & Hm). cbn in Hm. destruct HI. assert (length (backed_up b) <= n)%nat.
    { rewrite <- (length_seq n 0). apply submseteq_length, NoDup_submseteq; [done|]. intros i Hi. apply elem_of_seq. specialize (iv_slots i Hi). lia. }
    assert (length (pending b) <> 0)%nat by (by intros ?%nil_length_inv). lia.
  - done.
  - exfalso. destruct Hs as [(_ & i & r & Hr & He)|[(h & i & r & e' & _ & Hr & He & _)|[(i & He)|He]]]; [destruct (Hok i r Hr); congruence..|destruct (Hre i); congruence|done].
  - exists l, c. split; [done|]. destruct Hs as (b & HI & Hl & Hlen & _). destruct HI. apply list_eq. intros i. rewrite !list_lookup_fmap.
    destruct (refs !! i) as [r|] eqn:Er; cbn; [|symmetry; apply fmap_None, lookup_ge_None_2; apply lookup_ge_None_1 in Er; lia].
    destruct (lookup_lt_is_Some_2 l i) as [w Hw]; [rewrite Hlen; by eapply lookup_lt_Some|]. destruct (Hok i r) as [v Hv]; [by left|]. rewrite Hw, Hv. cbn. do 2 f_equal.
    destruct (iv_right i w (Hl i w Hw)) as [_ [(r' & Hr' & Hw')|(h & r' & e & _ & _ & _ & _ & Hall)]]; [|destruct (Hall r); [by left|congruence]].
    eapply (Hdet i r r'); [by left|by eapply copy_handle|done|done].
Qed.

(** While the barrier waits, the backups of open slots are within the policy, a slot was backed
    up at most once, and what it waits for are handles of its slots. *)
Theorem backups_bounded `{!FreshHandles refs relaunch} wakes b : gather_with_backups wakes = Waiting b ->
  in_flight b <= Z.max 0 pol.(max_backups) /\ NoDup b.(backed_up) /\ (forall i, i ∈ b.(backed_up) -> (i < n)%nat) /\
  NoDup b.(pending) /\ (length b.(pending) <= 2 * n)%nat /\ forall r, r ∈ b.(pending) -> exists i, handle_of i r.
Proof.
  intros Eg. pose proof (gather_sound refs get relaunch pol on_failure started wakes (start refs on_failure) (start_inv refs get relaunch pol on_failure)) as Hs. unfold Barrier.gather_with_backups in Eg. rewrite Eg in Hs.
  destruct Hs as (HI & _ & _ & Hm). cbn in Hm. destruct HI. assert (length (backed_up b) <= n)%nat.
  { rewrite <- (length_seq n 0). apply submseteq_length, NoDup_submseteq; [done|]. intros i Hi. apply elem_of_seq. specialize (iv_slots i Hi). lia. }
  pose proof (idle_wakes refs get relaunch pol on_failure started wakes (start refs on_failure)). split_and!; try done; [lia|]. intros r Hr. destruct (iv_idx r Hr) as (i & _ & Hc). exists i. by eapply copy_handle.
Qed.
End Use.

(** ** Examples

    Three tasks on handles 0 to 2, their backups on 100 and up. *)

Module Demo.
Definition refs : list Z := [0; 1; 2].
Definition get (r : Z) : res Z := Ok (10 + (if 100 <=? r then r - 100 else r)).
Definition relaunch (i : nat) : res Z := Ok (100 + Z.of_nat i).
Definition pol : policy := Policy (flt_dyadic 3 (-1)) (flt_dyadic 1 (-1)) 1 (flt_of_Z 1).
Definition run (wakes : list (wake Z)) : outcome Z Z := gather_with_backups refs get relaunch pol None (flt_of_Z 0) wakes.
(** Tasks 0 and 1 finish at 2 s; at 10 s nothing new, task 2 is a straggler and gets a backup,
    which finishes first. *)
Definition wakes : list (wake Z) := [Wake [1; 0] (flt_of_Z 2) (Ok []); Wake [] (flt_of_Z 10) (Ok []); Wake [102] (flt_of_Z 11) (Ok [])].

#[export] Instance demo_handles : FreshHandles refs relaunch.
Proof.
  split.
  - by apply (bool_decide_unpack _).
  - intros i r [= <-] Hin. unfold refs in Hin. rewrite !elem_of_cons, elem_of_nil in Hin. lia.
  - intros i j r [= <-] [= H]. lia.
Qed.

Lemma demo_deterministic : deterministic refs get relaunch.
Proof.
  assert (forall i r, handle_of refs relaunch i r -> get r = Ok (10 + Z.of_nat i)) as H.
  { intros i r [Hr|[= <-]]; unfold get; [destruct i as [|[|[|i]]]; cbn in Hr; by simplify_eq|]. rewrite (proj2 (Z.leb_le _ _)) by lia. f_equal. lia. }
  intros i r r' v v' Hr Hr' E E'. rewrite (H i r Hr) in E. rewrite (H i r' Hr') in E'. congruence.
Qed.

Lemma gather_exact_witness : run wakes = Returned [10; 11; 12] [2] /\ forall i v, [10; 11; 12] !! i = Some v -> exists r, handle_of refs relaunch i r /\ get r = Ok v.
Proof.
  split; [vm_compute; reflexivity|]. pose proof (gather_exact refs get relaunch pol None (flt_of_Z 0) wakes demo_deterministic) as H.
  replace (gather_with_backups refs get relaunch pol None (flt_of_Z 0) wakes) with (Returned (Ref := Z) [10; 11; 12] [2]) in H by (vm_compute; reflexivity). destruct H as (_ & _ & H).
  intros i v Hv. destruct (H i v Hv) as [Hr|(handle & r & e & Hh & _)]; [exact Hr|discriminate].
Defined.

(** One handle a wake, with an idle one. *)
Definition slow_wakes : list (wake Z) :=
  Wake [] (flt_of_Z 1) (Ok [2%nat]) :: map (fun r => Wake [r] (flt_of_Z 3) (Raise "probe failed")) [0; 102; 1; 2; 0; 0].

Lemma gather_terminates_witness : exists results cancelled, run slow_wakes = Returned results cancelled /\ map get refs = map Ok results.
Proof.
  apply (gather_terminates refs get relaunch pol None (flt_of_Z 0) slow_wakes demo_deterministic).
  - intros i r _. eexists. reflexivity.
  - intros i. eexists. reflexivity.
  - vm_compute. discriminate.
  - vm_compute. lia.
Defined.

Lemma backups_bounded_witness : exists b, run (take 2 wakes) = Waiting b /\ in_flight b <= 1 /\ b.(backed_up) = [2%nat] /\ b.(pending) = [2; 102].
Proof.
  destruct (run (take 2 wakes)) as [b| | |] eqn:E; try (vm_compute in E; discriminate). exists b. split; [reflexivity|].
  split; [exact (proj1 (backups_bounded refs get relaunch pol None (flt_of_Z 0) (take 2 wakes) b E))|]. vm_compute in E. injection E as <-. split; reflexivity.
Defined.
End Demo.
