(* ===== verification/FaultLedger.v ===== *)
(** * The fault ledger and the retry budget

    carbonite/resilience/blocklist.py: [FaultLedger], which learns from outcomes which nodes or
    devices to keep work off; carbonite/resilience/budget.py: [RetryBudget], the pool of retries
    of a job.  Both run every operation under one lock, so an operation is a function of the
    state; every reading of the clock is an argument, and [0.5 ** x] a parameter.  Weights, times
    and fractions are doubles. *)

From Stdlib Require Import Floats.SpecFloat.
From S2P Require Import Prelude PyFloat PyDict.

(** ** The ledger *)

(** [QuarantinePolicy]. *)
Record quarantine := Quarantine {
  failure_threshold : flt; half_life_s : flt; q_cooldown_s : flt; max_cooldown_s : flt; max_blocked_fraction : flt; min_targets : Z }.

(** [TargetHealth]. *)
Record health := Health {
  h_key : string; weight : flt; updated_s : flt; blocked_until_s : flt; cooldown_s : flt; offenses : Z;
  probing : bool; capped : bool; successes : Z; failures : Z; reasons : list string }.

Inductive announcement := QuarantineCapped (key : string) | Quarantined (key : string) | Released (key : string).

Record ledger := Ledger { targets : list (string * health); known : gset string; announced : list announcement }.
Definition new_ledger : ledger := Ledger [] ∅ [].

(** [_WEIGHTS], and 0.5 for a category it does not name. *)
Definition category_weight (category : string) : flt :=
  if bool_decide (category = "device_corruption") then flt_of_Z 3
  else if bool_decide (category ∈ ["device_fault"; "storage"]) then flt_of_Z 2
  else if bool_decide (category ∈ ["host_oom"; "worker_lost"]) then flt_of_Z 1
  else if bool_decide (category ∈ ["network"; "timeout"]) then flt_dyadic 1 (-1)
  else if bool_decide (category ∈ ["device_oom"; "throttled"; "preemption"; "application"]) then flt_zero
  else flt_dyadic 1 (-1).

Section Ledger.
Context (half_pow : flt -> flt) (pol : quarantine).

Definition put_health (h : health) (l : ledger) : ledger := Ledger (dset h.(h_key) h l.(targets)) l.(known) l.(announced).
Definition publish (a : announcement) (l : ledger) : ledger := Ledger l.(targets) l.(known) (l.(announced) ++ [a]).
Definition set_weight (w : flt) (h : health) : health :=
  Health h.(h_key) w h.(updated_s) h.(blocked_until_s) h.(cooldown_s) h.(offenses) h.(probing) h.(capped) h.(successes) h.(failures) h.(reasons).
Definition set_probing (p : bool) (h : health) : health :=
  Health h.(h_key) h.(weight) h.(updated_s) h.(blocked_until_s) h.(cooldown_s) h.(offenses) p h.(capped) h.(successes) h.(failures) h.(reasons).

(** [_decayed]: the record with its weight aged; a new one the first time. *)
Definition fresh_health (now : flt) (key : string) : health := Health key flt_zero now flt_zero flt_zero 0 false false 0 0 [].
Definition age (now : flt) (h : health) : health :=
  let elapsed := flt_sub now h.(updated_s) in
  let w := if flt_lt flt_zero elapsed && flt_lt flt_zero pol.(half_life_s) && flt_lt flt_zero h.(weight) then
             let w := flt_mul h.(weight) (half_pow (flt_div elapsed pol.(half_life_s))) in
             if flt_lt w (flt_div (flt_of_Z 1) (flt_of_Z 1000000)) then flt_zero else w
           else h.(weight) in
  Health h.(h_key) w now h.(blocked_until_s) h.(cooldown_s) h.(offenses) h.(probing) h.(capped) h.(successes) h.(failures) h.(reasons).
Definition decayed (now : flt) (key : string) (l : ledger) : health :=
  match dget key l.(targets) with Some h => age now h | None => fresh_health now key end.

(** [_quarantined]. *)
Definition quarantined (h : health) : bool := flt_lt flt_zero h.(blocked_until_s).
(** Inside a cooldown. *)
Definition cooling (now : flt) (h : health) : bool := quarantined h && flt_lt now h.(blocked_until_s).

(** [_blocked_now]: an expired quarantine becomes a probation. *)
Definition blocked_now (now : flt) (h : health) : health * bool :=
  if negb (quarantined h) then (h, false)
  else if flt_lt now h.(blocked_until_s) then (h, true) else (set_probing true h, false).

(** [_may_block]. *)
Definition cap (known : Z) : res Z :=
  match int_of_flt (flt_mul (flt_of_Z known) pol.(max_blocked_fraction)) with Some c => Ok c | None => Raise "OverflowError" end.
Definition cooling_others (now : flt) (key : string) (l : ledger) : Z :=
  Z.of_nat (length (List.filter (fun e => negb (bool_decide (e.1 = key)) && cooling now e.2) l.(targets))).
Definition fleet (l : ledger) : Z := Z.of_nat (size l.(known)).
Definition may_block (now : flt) (key : string) (l : ledger) : res bool :=
  if fleet l <? pol.(min_targets) then Ok true
  else let* c := cap (fleet l) in Ok (cooling_others now key l + 1 <=? c).

(** [_block]; the ledger holds the record in its present state. *)
Definition block (t_may t_block : flt) (doubled : bool) (h : health) (l : ledger) : ledger * res () :=
  match may_block t_may h.(h_key) l with
  | Raise e => (l, Raise e)
  | Ok false =>
      let h' := Health h.(h_key) h.(weight) h.(updated_s) h.(blocked_until_s) h.(cooldown_s) h.(offenses) h.(probing) true h.(successes) h.(failures) h.(reasons) in
      (if h.(capped) then l else publish (QuarantineCapped h.(h_key)) (put_health h' l), Ok tt)
  | Ok true =>
      let base := flt_or h.(cooldown_s) pol.(q_cooldown_s) in
      let base := if doubled then flt_min (flt_mul base (flt_of_Z 2)) pol.(max_cooldown_s) else base in
      let h' := Health h.(h_key) h.(weight) h.(updated_s) (flt_add t_block base) base (h.(offenses) + 1) h.(probing) false h.(successes) h.(failures) h.(reasons) in
      (publish (Quarantined h.(h_key)) (put_health h' l), Ok tt)
  end.

(** [observe]. *)
Definition observe (keys : list string) (l : ledger) : ledger :=
  Ledger l.(targets) (l.(known) ∪ list_to_set (List.filter (fun k => negb (bool_decide (k = EmptyString))) keys)) l.(announced).
Definition add_known (key : string) (l : ledger) : ledger := Ledger l.(targets) ({[key]} ∪ l.(known)) l.(announced).

(** [record_failure]. *)
Definition note_failure (category : string) (h : health) : health :=
  Health h.(h_key) h.(weight) h.(updated_s) h.(blocked_until_s) h.(cooldown_s) h.(offenses) h.(probing) h.(capped) h.(successes) (h.(failures) + 1)
    (if bool_decide (category ∈ h.(reasons)) then h.(reasons) else h.(reasons) ++ [category]).
Definition record_failure (t t_may t_block : flt) (key category : string) (l : ledger) : ledger * res () :=
  let w := category_weight category in
  let l := add_known key l in
  let h := note_failure category (decayed t key l) in
  if flt_le w flt_zero then (put_health h l, Ok tt)
  else
    let h := set_weight (flt_add h.(weight) w) h in
    if h.(probing) then let h := set_probing false h in block t_may t_block true h (put_health h l)
    else if negb (quarantined h) && flt_le pol.(failure_threshold) h.(weight) then block t_may t_block false h (put_health h l)
    else (put_health h l, Ok tt).

(** [record_success]. *)
Definition record_success (t : flt) (key : string) (l : ledger) : ledger :=
  let l := add_known key l in
  let h := decayed t key l in
  let s := h.(successes) + 1 in
  if h.(probing) then
    publish (Released key) (put_health (Health h.(h_key) flt_zero h.(updated_s) flt_zero h.(cooldown_s) h.(offenses) false h.(capped) s h.(failures) h.(reasons)) l)
  else put_health (Health h.(h_key) (flt_pos (flt_sub h.(weight) (flt_of_Z 1))) h.(updated_s) h.(blocked_until_s) h.(cooldown_s) h.(offenses) h.(probing) h.(capped) s h.(failures) h.(reasons)) l.

(** [is_blocked]. *)
Definition is_blocked (t t' : flt) (key : string) (l : ledger) : ledger * bool :=
  let '(h, b) := blocked_now t' (decayed t key l) in (put_health h l, b).

(** [blocked_keys], with two readings per key. *)
Fixpoint blocked_among (clock : string -> flt * flt) (keys : list string) (l : ledger) : ledger * list string :=
  match keys with
  | [] => (l, [])
  | k :: keys' =>
      let '(l, b) := is_blocked (clock k).1 (clock k).2 k l in
      let '(l, ks) := blocked_among clock keys' l in (l, if b then k :: ks else ks)
  end.
Definition blocked_keys (clock : string -> flt * flt) (l : ledger) : ledger * list string :=
  let '(l, ks) := blocked_among clock (map fst l.(targets)) l in (l, py_sorted String.ltb ks).

(** [health], [report] and [reset]. *)
Definition health_of (t : flt) (key : string) (l : ledger) : ledger * health := let h := decayed t key l in (put_health h l, h).
Definition worse (a b : health) : bool :=
  if SFeqb a.(weight) b.(weight) then if a.(failures) =? b.(failures) then String.ltb a.(h_key) b.(h_key) else b.(failures) <? a.(failures)
  else flt_lt b.(weight) a.(weight).
Definition report (clock : string -> flt) (l : ledger) : ledger * list health :=
  let keys := py_sorted String.ltb (map fst l.(targets)) in
  let l := foldl (fun l k => put_health (decayed (clock k) k l) l) l keys in
  (l, py_sorted worse (omap (fun k => dget k l.(targets)) keys)).
Definition reset (l : ledger) : ledger := Ledger [] ∅ l.(announced).
End Ledger.

(** ** The budget *)

Record budget := Budget { attempts : Z; spent : Z; told : bool }.
(** [BudgetState]. *)
Record budget_state := BudgetState { b_attempts : Z; b_spent : Z; b_allowance : Z; b_exhausted : bool }.

Section Budget.
(** The arguments of the constructor, clamped as it clamps them. *)
Context (fraction : flt) (floor : Z).

Definition new_budget : budget := Budget 0 0 false.
Definition record_attempt (count : Z) (b : budget) : budget := Budget (b.(attempts) + Z.max 0 count) b.(spent) b.(told).
(** [_allowance]. *)
Definition allowance (b : budget) : res Z :=
  match int_of_flt (flt_mul (flt_pos fraction) (flt_of_Z b.(attempts))) with Some a => Ok (Z.max (Z.max 0 floor) a) | None => Raise "OverflowError" end.
(** [_snapshot]. *)
Definition budget_snapshot (b : budget) : res budget_state :=
  let* a := allowance b in Ok (BudgetState b.(attempts) b.(spent) a (a <=? b.(spent))).
Definition remaining (s : budget_state) : Z := Z.max 0 (s.(b_allowance) - s.(b_spent)).

(** [try_consume]: the budget, the answer, and the event it publishes. *)
Definition try_consume (count : Z) (b : budget) : budget * res (bool * option budget_state) :=
  let want := Z.max 1 count in
  match allowance b with
  | Raise e => (b, Raise e)
  | Ok a =>
      if a <? b.(spent) + want then
        (Budget b.(attempts) b.(spent) true,
         let* s := budget_snapshot b in Ok (false, if b.(told) then None else Some s))
      else (Budget b.(attempts) (b.(spent) + want) b.(told), Ok (true, None))
  end.
Definition reset_budget (b : budget) : budget := Budget 0 0 false.
End Budget.
