(* ===== verification/FaultLedgerSound.v ===== *)
(** * The fault ledger and the retry budget: theorems

    The blast radius of the ledger over every history of outcomes and questions; what quarantines
    a target and what lets it back; the questions' agreement; and the budget's account. *)

From Stdlib Require Import Floats.SpecFloat.
From S2P Require Import Prelude PyFloat PyDict FaultLedger.

Lemma filter_total {A} (p : string * A -> bool) (q : A -> bool) d : (forall e, p e = q e.2) -> Z.of_nat (length (List.filter p d)) = total (fun v => if q v then 1 else 0) d.
Proof. intros Hp. induction d as [|e d IH]; cbn -[Z.of_nat]; [done|]. rewrite Hp. destruct (q e.2); cbn [length]; lia. Qed.

(** A clock that does not step back lets no cooldown start again. *)
Lemma later_false t t' x : is_num t = true -> is_num t' = true -> flt_lt t' t = false -> flt_lt t x = false -> flt_lt t' x = false.
Proof.
  intros Ht Ht' Hle Hx. destruct (is_num x) eqn:En; [by eapply (flt_lt_cotrans x t t')|]. destruct x; try done. by destruct t' as [[]|[]| |[]].
Qed.

Section Ledger.
Context (half_pow : flt -> flt) (pol : quarantine).

(** ** Histories *)

Inductive op :=
  | Observe (keys : list string) | Failure (t t_may t_block : flt) (key category : string) | Success (t : flt) (key : string) | AskBlocked (t t' : flt) (key : string)
  | AskAll (clock : string -> flt * flt) | AskHealth (t : flt) (key : string) | AskReport (clock : string -> flt) | Reset.

Definition do_op (o : op) (l : ledger) : ledger :=
  match o with
  | Observe keys => observe keys l
  | Failure t t_may t_block key category => (record_failure half_pow pol t t_may t_block key category l).1
  | Success t key => record_success half_pow pol t key l
  | AskBlocked t t' key => (is_blocked half_pow pol t t' key l).1
  | AskAll clock => (blocked_keys half_pow pol clock l).1
  | AskHealth t key => (health_of half_pow pol t key l).1
  | AskReport clock => (report half_pow pol clock l).1
  | Reset => reset l
  end.

(** The readings at which quarantines are decided do not step back; [now] is not before them. *)
Fixpoint in_order (before : flt) (ops : list op) (now : flt) : Prop :=
  match ops with
  | [] => is_num now = true /\ flt_lt now before = false
  | Failure _ t_may t_block _ _ :: ops' => is_num t_may = true /\ is_num t_block = true /\ flt_lt t_may before = false /\ flt_lt t_block t_may = false /\ in_order t_block ops' now
  | _ :: ops' => in_order before ops' now
  end.

(** Targets inside a cooldown. *)
Definition count (now : flt) (l : ledger) : Z := total (fun h => if cooling now h then 1 else 0) l.(targets).
(** Within the share of some fleet no larger than the present one, or a fleet too small for a
    share. *)
Definition within (l : ledger) (c : Z) : Prop :=
  c = 0 \/ c < pol.(min_targets) \/ exists m share, 0 <= m <= fleet l /\ cap pol m = Ok share /\ c <= share.

Record LInv (now : flt) (l : ledger) : Prop := {
  li_ok : dict_ok l.(targets);
  li_key k h : dget k l.(targets) = Some h -> h.(h_key) = k /\ (quarantined h = true -> k ∈ l.(known));
  li_num : is_num now = true;
  li_within c : 0 <= c <= count now l -> within l c }.

Lemma count_nonneg now l : 0 <= count now l.
Proof. apply total_nonneg, Forall_forall. intros e _. by destruct (cooling now e.2). Qed.

Lemma others_total now key l : dict_ok l.(targets) -> cooling_others now key l = count now l - match dget key l.(targets) with Some h => if cooling now h then 1 else 0 | None => 0 end.
Proof.
  intros Hd. unfold cooling_others, count. transitivity (total (fun h => if cooling now h then 1 else 0) (dpop key l.(targets))).
  - clear Hd. unfold dpop. induction (targets l) as [|[k h] d IH]; cbn -[Z.of_nat]; [done|]. destruct (bool_decide (k = key)) eqn:E; [apply bool_decide_eq_true in E|apply bool_decide_eq_false in E]; cbn [negb andb].
    + rewrite bool_decide_false by (by intros ?). exact IH.
    + rewrite bool_decide_true by done. cbn. destruct (cooling now h); cbn [length]; lia.
  - destruct (dget key (targets l)) as [h|] eqn:E; [exact (total_dpop (fun h => if cooling now h then 1 else 0) key h _ Hd E)|]. rewrite dpop_fresh by done. lia.
Qed.

Lemma count_put now h l : count now (put_health h l) = count now l + (if cooling now h then 1 else 0) - match dget h.(h_key) l.(targets) with Some h' => if cooling now h' then 1 else 0 | None => 0 end.
Proof. unfold count, put_health. exact (total_dset (fun h => if cooling now h then 1 else 0) _ _ _). Qed.

(** A fleet too small for a share holds no more quarantined targets than members. *)
Lemma count_fleet now l : dict_ok l.(targets) -> (forall k h, dget k l.(targets) = Some h -> h.(h_key) = k /\ (quarantined h = true -> k ∈ l.(known))) -> count now l <= fleet l.
Proof.
  intros Hd Hk. unfold count, fleet. rewrite <- (filter_total (fun e => cooling now e.2)) by done. apply Nat2Z.inj_le.
  rewrite <- (length_map fst). transitivity (size (list_to_set (map fst (List.filter (fun e => cooling now e.2) (targets l))) : gset string)).
  - rewrite size_list_to_set; [done|]. unfold dict_ok in Hd. clear Hk. revert Hd. induction (targets l) as [|e d IH]; cbn; [constructor|]. intros [He Hd]%NoDup_cons.
    destruct (cooling now e.2); cbn; [|by apply IH]. apply NoDup_cons. split; [|by apply IH]. intros Hin. apply He. apply list_elem_of_fmap in Hin as (x & -> & Hx).
    apply list_elem_of_fmap. exists x. split; [done|]. apply list_elem_of_In, filter_In in Hx as [Hx _]. by apply list_elem_of_In.
  - apply subseteq_size. intros k Hin%elem_of_list_to_set. apply list_elem_of_fmap in Hin as ([k' h] & -> & Hx). apply list_elem_of_In, filter_In in Hx as [Hx Hc]. apply list_elem_of_In in Hx.
    apply (Hk k' h); [by apply elem_dget|]. cbn in Hc. by apply andb_true_iff in Hc as [].
Qed.

(** ** The invariant *)

Lemma cooling_later t t' h : is_num t = true -> is_num t' = true -> flt_lt t' t = false -> cooling t' h = true -> cooling t h = true.
Proof.
  unfold cooling. intros Ht Ht' Hle [-> Hc]%andb_true_iff. destruct (flt_lt t (blocked_until_s h)) eqn:E; [done|]. by rewrite (later_false t t') in Hc.
Qed.

Lemma count_later t t' l : is_num t = true -> is_num t' = true -> flt_lt t' t = false -> count t' l <= count t l.
Proof.
  intros Ht Ht' Hle. unfold count. induction (targets l) as [|[k h] d IH]; cbn; [lia|]. destruct (cooling t' h) eqn:E; [rewrite (cooling_later t t' h) by done; lia|]. destruct (cooling t h); lia.
Qed.

Lemma LInv_later t t' l : LInv t l -> is_num t' = true -> flt_lt t' t = false -> LInv t' l.
Proof. intros [] Ht' Hle. split; try done. intros c Hc. apply li_within0. pose proof (count_later t t' l li_num0 Ht' Hle). lia. Qed.

Lemma within_known l l' c : fleet l <= fleet l' -> within l c -> within l' c.
Proof. intros Hs [H|[H|(m & share & Hm & H)]]; [by left|by right; left|right; right; exists m, share; split; [lia|done]]. Qed.

(** A record put back without a later end of its cooldown. *)
Lemma put_inv now h l : LInv now l -> (quarantined h = true -> exists h', dget h.(h_key) l.(targets) = Some h' /\ h.(blocked_until_s) = h'.(blocked_until_s)) -> LInv now (put_health h l).
Proof.
  intros [] Hq. split; [by apply dset_ok| |done|].
  - intros k h0. cbn. rewrite dget_dset. case_decide as Hk; [|apply li_key0]. intros [= <-]. split; [done|]. intros Hh. destruct (Hq Hh) as (h' & Hg & Hu). subst k.
    apply (li_key0 _ h' Hg). unfold quarantined in *. by rewrite <- Hu.
  - intros c Hc. apply (within_known l); [done|]. apply li_within0. rewrite count_put in Hc. destruct (cooling now h) eqn:Eh; [|repeat case_match; lia].
    unfold cooling in Eh. apply andb_true_iff in Eh as [E1 E2]. destruct (Hq E1) as (h' & Hg & Hu). rewrite Hg in Hc. unfold cooling, quarantined in *. rewrite <- Hu in Hc. rewrite E1, E2 in Hc. cbn in Hc. lia.
Qed.

Lemma add_known_inv now key l : LInv now l -> LInv now (add_known key l).
Proof.
  intros []. split; cbn; try done.
  - intros k h Hk. destruct (li_key0 k h Hk) as [E Hq]. split; [done|]. intros H. apply elem_of_union. right. by apply Hq.
  - intros c Hc. apply (within_known l); [|by apply li_within0]. unfold fleet. cbn. apply Nat2Z.inj_le, subseteq_size. set_solver.
Qed.

Lemma publish_inv now a l : LInv now l -> LInv now (publish a l).
Proof. by intros []. Qed.

Lemma decayed_key t key l : (forall h, dget key l.(targets) = Some h -> h.(h_key) = key) -> h_key (decayed half_pow pol t key l) = key.
Proof. intros Hk. unfold decayed. destruct (dget key (targets l)) as [h|]; [exact (Hk h eq_refl)|done]. Qed.

Lemma decayed_until t key l : quarantined (decayed half_pow pol t key l) = true -> exists h', dget key l.(targets) = Some h' /\ (decayed half_pow pol t key l).(blocked_until_s) = h'.(blocked_until_s).
Proof. unfold decayed. destruct (dget key (targets l)) as [h|]; [by exists h|by vm_compute]. Qed.
Lemma others_later t t' key l : is_num t = true -> is_num t' = true -> flt_lt t' t = false -> cooling_others t' key l <= cooling_others t key l.
Proof.
  intros Ht Ht' Hle. unfold cooling_others. apply Nat2Z.inj_le. induction (targets l) as [|[k h] d IH]; cbn; [lia|]. destruct (bool_decide (k = key)); cbn; [done|].
  destruct (cooling t' h) eqn:E; [rewrite (cooling_later t t' h) by done; cbn; lia|]. destruct (cooling t h); cbn; lia.
Qed.

Lemma block_inv before t_may t_block doubled h l : LInv before l -> dget h.(h_key) l.(targets) = Some h -> h.(h_key) ∈ l.(known) ->
  is_num t_may = true -> is_num t_block = true -> flt_lt t_may before = false -> flt_lt t_block t_may = false ->
  LInv t_block (block pol t_may t_block doubled h l).1.
Proof.
  intros HI Hg Hkn Hn1 Hn2 H1 H2. assert (LInv t_block l) as HB by (eapply (LInv_later t_may); [by eapply (LInv_later before)|done|done]).
  unfold block. destruct (may_block pol t_may (h_key h) l) as [[]|e] eqn:Em; cbn [fst]; [| |done].
  - apply publish_inv. set (h' := Health _ _ _ _ _ _ _ _ _ _ _). destruct HB. assert (dict_ok (targets (put_health h' l))) as Hd by (by apply dset_ok).
    assert (forall k h0, dget k (targets (put_health h' l)) = Some h0 -> h0.(h_key) = k /\ (quarantined h0 = true -> k ∈ (put_health h' l).(known))) as Hk.
    { intros k h0. cbn. rewrite dget_dset. case_decide as Hk; [|apply li_key0]. intros [= <-]. by subst k. }
    split; [done|done|done|]. intros c Hc. pose proof (count_fleet t_block _ Hd Hk) as Hf. unfold may_block in Em. destruct (fleet l <? min_targets pol) eqn:El.
    + right; left. change (fleet (put_health h' l)) with (fleet l) in Hf. lia.
    + destruct (cap pol (fleet l)) as [share|] eqn:Ec; cbn in Em; [|done]. injection Em as Em. right; right. exists (fleet l), share. split_and!; [unfold fleet; lia|done|done|].
      rewrite count_put in Hc. change (h_key h') with (h_key h) in Hc. rewrite Hg in Hc. pose proof (others_total t_block (h_key h) l li_ok0) as Eo. rewrite Hg in Eo.
      pose proof (others_later t_may t_block (h_key h) l Hn1 Hn2 H2). destruct (cooling t_block h'); lia.
  - destruct (capped h); [done|]. apply publish_inv, put_inv; [done|]. intros _. by exists h.
Qed.

Lemma failure_inv before t t_may t_block key category l : LInv before l ->
  is_num t_may = true -> is_num t_block = true -> flt_lt t_may before = false -> flt_lt t_block t_may = false ->
  LInv t_block (record_failure half_pow pol t t_may t_block key category l).1.
Proof.
  intros HI Hn1 Hn2 H1 H2. unfold record_failure. apply (add_known_inv _ key) in HI. assert (key ∈ (add_known key l).(known)) as Hkn by (cbn; set_solver).
  set (l1 := add_known key l) in *. assert (h_key (decayed half_pow pol t key l1) = key) as Hkey by (apply decayed_key; intros h Hh; destruct HI as [_ Hk _ _]; by destruct (Hk key h Hh)).
  pose proof (decayed_until t key l1) as Hu. set (h := decayed half_pow pol t key l1) in *.
  assert (forall h', h'.(h_key) = key -> h'.(blocked_until_s) = h.(blocked_until_s) -> LInv before (put_health h' l1)) as Hput.
  { intros h' Ek Eu. apply put_inv; [done|]. unfold quarantined. rewrite Ek, Eu. apply Hu. }
  assert (forall b h', h'.(h_key) = key -> h'.(blocked_until_s) = h.(blocked_until_s) -> LInv t_block (block pol t_may t_block b h' (put_health h' l1)).1) as Hblock.
  { intros b h' Ek Eu. apply (block_inv before); try done; [by apply Hput|cbn; rewrite Ek, dget_dset, decide_True by done; done|by rewrite Ek]. }
  assert (forall h', h'.(h_key) = key -> h'.(blocked_until_s) = h.(blocked_until_s) -> LInv t_block (put_health h' l1)) as Hkeep.
  { intros h' Ek Eu. eapply (LInv_later t_may); [eapply (LInv_later before)|..]; try done. by apply Hput. }
  repeat (case_match; cbn [fst]); try (by apply Hkeep); by apply Hblock.
Qed.

Lemma success_inv now t key l : LInv now l -> LInv now (record_success half_pow pol t key l).
Proof.
  intros HI. unfold record_success. apply (add_known_inv _ key) in HI. set (l1 := add_known key l) in *.
  assert (h_key (decayed half_pow pol t key l1) = key) as Hkey by (apply decayed_key; intros h Hh; destruct HI as [_ Hk _ _]; by destruct (Hk key h Hh)).
  pose proof (decayed_until t key l1) as Hu. case_match.
  - apply publish_inv, put_inv; [done|]. intros Hq. by vm_compute in Hq.
  - apply put_inv; [done|]. cbn [h_key blocked_until_s]. rewrite Hkey. exact Hu.
Qed.

Lemma ask_inv now t t' key l : LInv now l -> LInv now (is_blocked half_pow pol t t' key l).1.
Proof.
  intros HI. unfold is_blocked. assert (h_key (decayed half_pow pol t key l) = key) as Hkey by (apply decayed_key; intros h Hh; destruct HI as [_ Hk _ _]; by destruct (Hk key h Hh)).
  pose proof (decayed_until t key l) as Hu. destruct (blocked_now t' _) as [h b] eqn:E. cbn. apply put_inv; [done|].
  assert (h.(h_key) = key /\ h.(blocked_until_s) = (decayed half_pow pol t key l).(blocked_until_s)) as [-> Eu].
  { unfold blocked_now in E. repeat case_match; injection E as <- <-; done. }
  unfold quarantined. rewrite Eu. exact Hu.
Qed.

Lemma ask_among_inv now clock keys : forall l, LInv now l -> LInv now (blocked_among half_pow pol clock keys l).1.
Proof.
  induction keys as [|k keys IH]; intros l HI; cbn; [done|]. pose proof (ask_inv now (clock k).1 (clock k).2 k l HI) as H1. destruct (is_blocked _ _ _ _ _ _) as [l1 b]. cbn in H1.
  specialize (IH l1 H1). by destruct (blocked_among _ _ _ _ _) as [l2 ks].
Qed.

Lemma health_inv now t key l : LInv now l -> LInv now (put_health (decayed half_pow pol t key l) l).
Proof.
  intros HI. apply put_inv; [done|]. assert (h_key (decayed half_pow pol t key l) = key) as -> by (apply decayed_key; intros h Hh; destruct HI as [_ Hk _ _]; by destruct (Hk key h Hh)).
  apply decayed_until.
Qed.

Lemma report_inv now clock keys : forall l, LInv now l -> LInv now (foldl (fun l k => put_health (decayed half_pow pol (clock k) k l) l) l keys).
Proof. induction keys as [|k keys IH]; intros l HI; cbn; [done|]. by apply IH, health_inv. Qed.

Lemma do_op_inv before o now l : LInv before l -> match o with Failure _ t_may t_block _ _ => is_num t_may = true /\ is_num t_block = true /\ flt_lt t_may before = false /\ flt_lt t_block t_may = false /\ now = t_block | _ => now = before end ->
  LInv now (do_op o l).
Proof.
  intros HI. destruct o; cbn -[record_failure record_success is_blocked blocked_keys report]; try intros ->.
  - destruct HI. split; cbn; try done.
    + intros k h Hk. destruct (li_key0 k h Hk) as [E Hq]. split; [done|]. intros H. apply elem_of_union. left. by apply Hq.
    + intros c Hc. apply (within_known l); [|by apply li_within0]. unfold fleet. cbn. apply Nat2Z.inj_le, subseteq_size. set_solver.
  - intros (H1 & H2 & H3 & H4 & ->). by apply (failure_inv before).
  - by apply success_inv.
  - by apply ask_inv.
  - unfold blocked_keys. pose proof (ask_among_inv before clock (map fst (targets l)) l HI) as H. by destruct (blocked_among _ _ _ _ _) as [l1 ks].
  - by apply health_inv.
  - by apply report_inv.
  - destruct HI. split; cbn; try done; [constructor|]. intros c Hc. left. unfold count in Hc. cbn in Hc. lia.
Qed.

Definition run (ops : list op) (l : ledger) : ledger := foldl (fun l o => do_op o l) l ops.

Lemma run_inv ops : forall before now l, LInv before l -> in_order before ops now -> LInv now (run ops l).
Proof.
  induction ops as [|o ops IH]; intros before now l HI; [intros [Hn Hle]; by eapply LInv_later|].
  destruct o; cbn [in_order]; intros Ho; [eapply (IH before), Ho; by eapply do_op_inv|destruct Ho as (H1 & H2 & H3 & H4 & Ho); eapply (IH t_block), Ho; by eapply (do_op_inv before)|
    eapply (IH before), Ho; by eapply do_op_inv..].
Qed.

(** ** The questions *)

Lemma decayed_cooling t t' key l : cooling t' (decayed half_pow pol t key l) = match dget key l.(targets) with Some h => cooling t' h | None => false end.
Proof. unfold decayed. by destruct (dget key (targets l)). Qed.

Lemma is_blocked_answer t t' key l : (is_blocked half_pow pol t t' key l).2 = match dget key l.(targets) with Some h => cooling t' h | None => false end.
Proof.
  rewrite <- (decayed_cooling t). unfold is_blocked, blocked_now, cooling. set (h := decayed _ _ _ _ _). destruct (quarantined h); cbn; [|done]. by destruct (flt_lt t' _).
Qed.

Lemma is_blocked_other now t t' key k l : LInv now l -> k <> key -> dget k (is_blocked half_pow pol t t' key l).1.(targets) = dget k l.(targets).
Proof.
  intros HI Hk. unfold is_blocked. assert (h_key (decayed half_pow pol t key l) = key) as Hkey by (apply decayed_key; intros h Hh; destruct HI as [_ Hi _ _]; by destruct (Hi key h Hh)).
  destruct (blocked_now t' _) as [h b] eqn:E. cbn. assert (h.(h_key) = key) as ->; [|by rewrite dget_dset, decide_False].
  unfold blocked_now in E. repeat case_match; injection E as <- <-; done.
Qed.

Lemma blocked_among_answer now clock keys : forall l, LInv now l -> NoDup keys ->
  (blocked_among half_pow pol clock keys l).2 = List.filter (fun k => match dget k l.(targets) with Some h => cooling (clock k).2 h | None => false end) keys.
Proof.
  induction keys as [|k keys IH]; intros l HI; cbn; [done|]. intros [Hk Hn]%NoDup_cons. pose proof (ask_inv now (clock k).1 (clock k).2 k l HI) as H1.
  pose proof (is_blocked_answer (clock k).1 (clock k).2 k l) as Ea. pose proof (fun q => is_blocked_other now (clock k).1 (clock k).2 k q l HI) as Ho.
  destruct (is_blocked _ _ _ _ _ _) as [l1 b]. cbn in *. specialize (IH l1 H1 Hn). destruct (blocked_among _ _ _ _ _) as [l2 ks]. cbn in *. rewrite <- Ea, IH.
  assert (forall q, q ∈ keys -> dget q l1.(targets) = dget q l.(targets)) as Hq by (intros q Hin; apply Ho; by intros ->).
  assert (List.filter (fun k0 => match dget k0 l1.(targets) with Some h => cooling (clock k0).2 h | None => false end) keys =
          List.filter (fun k0 => match dget k0 l.(targets) with Some h => cooling (clock k0).2 h | None => false end) keys) as ->; [|by destruct b].
  clear -Hq. induction keys as [|q keys IH]; cbn; [done|]. rewrite (Hq q) by left. rewrite IH by (intros; apply Hq; by right). done.
Qed.

Lemma blocked_keys_answer now clock l : LInv now l -> forall answer, answer = (blocked_keys half_pow pol clock l).2 ->
  NoDup answer /\ (forall k, k ∈ answer <-> exists h, dget k l.(targets) = Some h /\ cooling (clock k).2 h = true) /\
  ((forall k, is_num (clock k).2 = true /\ flt_lt (clock k).2 now = false) -> Z.of_nat (length answer) <= count now l).
Proof.
  intros HI answer ->. pose proof HI as [Hd _ Hnum _]. unfold blocked_keys. pose proof (blocked_among_answer now clock (map fst (targets l)) l HI Hd) as E. destruct (blocked_among _ _ _ _ _) as [l2 ks]. cbn in *.
  assert (forall k, k ∈ ks <-> exists h, dget k l.(targets) = Some h /\ cooling (clock k).2 h = true) as Hks.
  { intros k. rewrite E, list_elem_of_In, filter_In, <- list_elem_of_In. rewrite <- dget_is_Some. destruct (dget k (targets l)) as [h|]; split; [intros []; by exists h|intros (h' & [= <-] & H); done|by intros []|by intros (? & ? & _)]. }
  split_and!; [rewrite py_sorted_perm, E; by apply NoDup_ListNoDup, List.NoDup_filter, NoDup_ListNoDup|intros k; by rewrite py_sorted_perm|].
  intros Hc. rewrite py_sorted_perm. unfold count. rewrite <- (filter_total (fun e => cooling now e.2)) by done. apply Nat2Z.inj_le. rewrite <- (length_map fst). apply submseteq_length, NoDup_submseteq.
  - rewrite E. by apply NoDup_ListNoDup, List.NoDup_filter, NoDup_ListNoDup.
  - intros k (h & Hg & Hcool)%Hks. destruct (Hc k) as [Hn Hle]. apply list_elem_of_fmap. exists (k, h). split; [done|]. apply list_elem_of_In, filter_In. split; [by apply list_elem_of_In, dget_elem|].
    cbn. by apply (cooling_later now (clock k).2).
Qed.

(** C23: After any history of outcomes and questions under a clock that does not step back, the
    targets a scheduler is told to avoid are each named once, are exactly those in their
    cooldown, which is also what asking for one of them answers; and there are either none, or
    fewer than the smallest fleet the cap applies to, or no more than the policy's share of a
    fleet no larger than the one known. *)
Theorem blast_radius before ops now clock t : is_num before = true -> in_order before ops now ->
  (forall k, is_num (clock k).2 = true /\ flt_lt (clock k).2 now = false) ->
  let l := run ops new_ledger in
  let answer := (blocked_keys half_pow pol clock l).2 in
  NoDup answer /\ (forall k, k ∈ answer <-> (is_blocked half_pow pol t (clock k).2 k l).2 = true) /\ within l (Z.of_nat (length answer)).
Proof.
  intros Hb Ho Hc l answer. assert (LInv before new_ledger) as H0.
  { split; cbn; try done; [constructor|]. intros c H. left. unfold count in H. cbn in H. lia. }
  pose proof (run_inv ops before now new_ledger H0 Ho) as HI. fold l in HI. destruct (blocked_keys_answer now clock l HI answer eq_refl) as (H1 & H2 & H3). split_and!; [done| |].
  - intros k. rewrite H2, is_blocked_answer. destruct (dget k (targets l)) as [h|]; split; [by intros (h' & [= <-] & H)|by exists h|by intros (? & ? & _)|done].
  - destruct HI. apply li_within0. specialize (H3 Hc). lia.
Qed.
End Ledger.

(** ** The budget *)

Section Budget.
Context (fraction : flt) (floor : Z).

Inductive budget_op := Attempt (count : Z) | Draw (count : Z) | ResetBudget.
Definition budget_step (o : budget_op) (b : budget) : budget :=
  match o with Attempt n => record_attempt n b | Draw n => (try_consume fraction floor n b).1 | ResetBudget => reset_budget b end.
(** What an operation draws, whether it is refused, and whether it announces that. *)
Definition granted (o : budget_op) (b : budget) : Z := match o with Draw n => match (try_consume fraction floor n b).2 with Ok (true, _) => Z.max 1 n | _ => 0 end | _ => 0 end.
Definition announces (o : budget_op) (b : budget) : Z := match o with Draw n => match (try_consume fraction floor n b).2 with Ok (_, Some _) => 1 | _ => 0 end | _ => 0 end.

(** A history with what it drew and announced since the last reset, and the largest allowance a
    draw was granted under. *)
Record account := Account { a_budget : budget; a_drawn : Z; a_announced : Z; a_ceiling : Z }.
Definition account_step (a : account) (o : budget_op) : account :=
  let b := a.(a_budget) in
  match o with
  | ResetBudget => Account (budget_step o b) 0 0 (Z.max 0 floor)
  | _ => Account (budget_step o b) (a.(a_drawn) + granted o b) (a.(a_announced) + announces o b)
           (if 0 <? granted o b then match allowance fraction floor b with Ok c => Z.max a.(a_ceiling) c | Raise _ => a.(a_ceiling) end else a.(a_ceiling))
  end.
Definition history (ops : list budget_op) : account := foldl account_step (Account new_budget 0 0 (Z.max 0 floor)) ops.

Lemma try_consume_cases n b :
  (exists a, allowance fraction floor b = Ok a /\ b.(spent) + Z.max 1 n <= a /\ try_consume fraction floor n b = (Budget b.(attempts) (b.(spent) + Z.max 1 n) b.(told), Ok (true, None))) \/
  (exists a s, allowance fraction floor b = Ok a /\ a < b.(spent) + Z.max 1 n /\ try_consume fraction floor n b = (Budget b.(attempts) b.(spent) true, Ok (false, if b.(told) then None else Some s))) \/
  exists e, allowance fraction floor b = Raise e /\ try_consume fraction floor n b = (b, Raise e).
Proof.
  unfold try_consume. destruct (allowance fraction floor b) as [a|e] eqn:E; [|right; right; by exists e]. destruct (a <? _) eqn:El; [right; left|left; exists a; split_and!; [done|lia|done]].
  unfold budget_snapshot. rewrite E. eexists a, _. split_and!; [done|lia|done].
Qed.

Lemma allowance_floor b a : allowance fraction floor b = Ok a -> Z.max 0 floor <= a.
Proof. unfold allowance. destruct (int_of_flt _); [|done]. intros [= <-]. lia. Qed.

Definition balanced (a : account) : Prop :=
  a.(a_budget).(spent) = a.(a_drawn) /\ 0 <= a.(a_budget).(spent) <= a.(a_ceiling) /\ a.(a_announced) = (if a.(a_budget).(told) then 1 else 0).

Lemma account_step_balanced a o : balanced a -> balanced (account_step a o).
Proof.
  destruct a as [b dr an ce]. unfold balanced. cbn. intros (H1 & H2 & H3). destruct o as [n|n|]; cbn; [split_and!; lia| |split_and!; lia].
  destruct (try_consume_cases n b) as [(a & Ea & Hle & E)|[(a & s & Ea & Hlt & E)|(e & Ea & E)]]; rewrite E, ?Ea; cbn; [|destruct (told b); cbn; lia|lia].
  assert (0 <? Z.max 1 n = true) as -> by lia. lia.
Qed.

(** At every point of a job the retries spent are exactly those granted since the last reset,
    all of a draw or none; they never exceed the largest allowance one of them was granted
    under; running out was announced at most once, when it was first refused; and a draw within
    the floor is always granted. *)
Theorem budget_account ops : let a := history ops in let b := a.(a_budget) in
  b.(spent) = a.(a_drawn) /\ 0 <= b.(spent) <= a.(a_ceiling) /\ a.(a_announced) = (if b.(told) then 1 else 0) /\
  forall n c, allowance fraction floor b = Ok c -> b.(spent) + Z.max 1 n <= Z.max 0 floor -> (try_consume fraction floor n b).2 = Ok (true, None).
Proof.
  cbv zeta. assert (balanced (history ops)) as (H1 & [H2 H2'] & H3).
  { unfold history. assert (balanced (Account new_budget 0 0 (Z.max 0 floor))) as H0 by (unfold balanced; cbn; lia). revert H0. generalize (Account new_budget 0 0 (Z.max 0 floor)).
    induction ops as [|o ops IH]; intros a Ha; [done|]. by apply IH, account_step_balanced. }
  split_and!; try done. intros n c Ec Hn. pose proof (allowance_floor _ _ Ec).
  destruct (try_consume_cases n (a_budget (history ops))) as [(a & Ea & Hle & ->)|[(a & s & Ea & Hlt & _)|(e & Ea & _)]]; [done| |congruence]. rewrite Ea in Ec. injection Ec as ->. lia.
Qed.
End Budget.

(** ** Examples *)

Module Demo.
Definition half_pow (x : flt) : flt := flt_of_Z 1.
Definition pol : quarantine := Quarantine (flt_of_Z 2) (flt_of_Z 300) (flt_of_Z 60) (flt_of_Z 900) (flt_dyadic 1 (-1)) 4.
Definition at_ (s : Z) : flt := flt_of_Z s.
Definition fails (t : Z) (key : string) : op := Failure (at_ t) (at_ t) (at_ t) key "device_fault".
(** Four nodes that all fail: two are quarantined, half the fleet, and two are capped. *)
Definition outage : list op := [Observe ["a"; "b"; "c"; "d"]; fails 1 "a"; fails 2 "b"; fails 3 "c"; fails 4 "d"].
Definition clock (k : string) : flt * flt := (at_ 5, at_ 5).

Lemma blast_radius_witness :
  let answer := (blocked_keys half_pow pol clock (run half_pow pol outage new_ledger)).2 in answer = ["a"; "b"] /\ NoDup answer.
Proof.
  split; [vm_compute; reflexivity|]. apply (blast_radius half_pow pol (at_ 0) outage (at_ 5) clock (at_ 5)).
  - reflexivity.
  - vm_compute. repeat split.
  - intros k. vm_compute. split; reflexivity.
Defined.

(** The next failure of a target whose cooldown ran out quarantines it again only if somebody
    asked about the target in between: otherwise no number of failures does. *)
Definition worn (asked : bool) : ledger :=
  run half_pow pol ([Observe ["a"; "b"; "c"; "d"]; fails 1 "a"] ++ (if asked then [AskBlocked (at_ 100) (at_ 100) "a"] else []) ++ map (fun t => fails t "a") [101; 102; 103; 104]) new_ledger.

Lemma unasked_quarantine_breaks :
  (is_blocked half_pow pol (at_ 105) (at_ 105) "a" (worn true)).2 = true /\ (is_blocked half_pow pol (at_ 105) (at_ 105) "a" (worn false)).2 = false.
Proof. vm_compute. split; reflexivity. Qed.
End Demo.
