(* ===== verification/Quota.v ===== *)
(** * The shared provider quota

    dist/limits/quota.py: [QuotaState], a bucket of requests and tokens that hands out
    reservations and the seconds to wait before sending, with leased concurrency slots;
    [LocalQuota] and the actor of dist/limits/actor.py hold one such state and run each of its
    operations alone, so any interleaving of holders is a list of operations.  Every reading of
    the clock and every lease name is an argument; rates, balances and times are doubles.

    The theorems: however holders interleave, fail to release or change the configuration, the
    slots held never exceed the largest ceiling stated; a lease stays until it is released or
    its deadline passed; an attempt that finds no slot charges nothing; and slots nobody returns
    come back. *)

From Stdlib Require Import Floats.SpecFloat.
From S2P Require Import Prelude PyFloat PyDict.

(** [QuotaConfig]. *)
Record quota_config := QuotaConfig { requests_per_minute : option flt; tokens_per_minute : option flt; max_concurrency : option Z; lease_seconds : flt; burst : flt }.

#[global] Instance quota_config_eq_dec : EqDecision quota_config.
Proof. solve_decision. Defined.

(** The fields of [QuotaState]. *)
Record quota := Quota { leases : list (string * flt); updated : flt; config : quota_config; requests : flt; tokens : flt }.

Definition SLOT_POLL : flt := flt_div (flt_of_Z 5) (flt_of_Z 100).

(** [_capacity]. *)
Definition capacity (c : quota_config) (per_minute : option flt) : flt :=
  match per_minute with None => flt_zero | Some r => flt_mul r c.(burst) end.

(** [__init__]. *)
Definition new_quota (now : flt) (c : quota_config) : quota :=
  Quota [] now c (capacity c c.(requests_per_minute)) (capacity c c.(tokens_per_minute)).

(** [_expire], [_refill]. *)
Definition expire (now : flt) (q : quota) : quota :=
  Quota (List.filter (fun l => negb (flt_le l.2 now)) q.(leases)) q.(updated) q.(config) q.(requests) q.(tokens).
Definition refilled (c : quota_config) (elapsed : flt) (per_minute : option flt) (balance : flt) : flt :=
  match per_minute with
  | None => balance
  | Some r => flt_min (capacity c per_minute) (flt_add balance (flt_div (flt_mul elapsed r) (flt_of_Z 60)))
  end.
Definition refill (now : flt) (q : quota) : quota :=
  let elapsed := flt_pos (flt_sub now q.(updated)) in
  let c := q.(config) in
  Quota q.(leases) now c (refilled c elapsed c.(requests_per_minute) q.(requests)) (refilled c elapsed c.(tokens_per_minute) q.(tokens)).

(** [in_flight]. *)
Definition in_flight (now : flt) (q : quota) : quota * Z := let q := expire now q in (q, Z.of_nat (length q.(leases))).

(** [configure]. *)
Definition configure (now : flt) (c : quota_config) (q : quota) : quota :=
  if decide (c = q.(config)) then q
  else
    let q := refill now q in
    Quota q.(leases) q.(updated) c (flt_min q.(requests) (capacity c c.(requests_per_minute))) (flt_min q.(tokens) (capacity c c.(tokens_per_minute))).

(** [max(delay, -balance / (rate / 60.0))]; a rate of zero cannot be divided by. *)
Definition wait_for (delay balance rate : flt) : res flt :=
  match flt_div rate (flt_of_Z 60) with
  | S754_zero _ => Raise "ZeroDivisionError"
  | per_second => let w := flt_div (SFopp balance) per_second in Ok (flt_max delay w)
  end.

(** [try_acquire]: the lease's delay, or nothing and the time to ask again. *)
Definition full (q : quota) : bool := match q.(config).(max_concurrency) with Some m => m <=? Z.of_nat (length q.(leases)) | None => false end.
Definition charge_request (q : quota) : quota * res flt :=
  match q.(config).(requests_per_minute) with
  | None => (q, Ok flt_zero)
  | Some r => let q := Quota q.(leases) q.(updated) q.(config) (flt_sub q.(requests) (flt_of_Z 1)) q.(tokens) in (q, wait_for flt_zero q.(requests) r)
  end.
Definition charge_tokens (n : Z) (delay : flt) (q : quota) : quota * res flt :=
  match q.(config).(tokens_per_minute) with
  | Some r =>
      if 0 <? n then
        let q := Quota q.(leases) q.(updated) q.(config) q.(requests) (flt_sub q.(tokens) (flt_min (flt_of_Z n) (capacity q.(config) (Some r)))) in
        (q, wait_for delay q.(tokens) r)
      else (q, Ok delay)
  | None => (q, Ok delay)
  end.
Definition try_acquire (now : flt) (n : Z) (lease : string) (q : quota) : quota * res (option flt * flt) :=
  let q := expire now q in
  if full q then (q, Ok (None, SLOT_POLL))
  else
    match charge_request (refill now q) with
    | (q, Raise e) => (q, Raise e)
    | (q, Ok delay) =>
        match charge_tokens n delay q with
        | (q, Raise e) => (q, Raise e)
        | (q, Ok delay) =>
            (Quota (dset lease (flt_add (flt_add now delay) q.(config).(lease_seconds)) q.(leases)) q.(updated) q.(config) q.(requests) q.(tokens), Ok (Some delay, delay))
        end
    end.

(** [release]. *)
Definition release (lease : string) (q : quota) : quota := Quota (dpop lease q.(leases)) q.(updated) q.(config) q.(requests) q.(tokens).

(** [LocalQuota.acquire]: the configuration, then attempts, at the readings and with the lease
    names of its turns; [None] while it waits for a slot. *)
Fixpoint attempts (n : Z) (turns : list (flt * string)) (q : quota) : quota * res (option (string * flt)) :=
  match turns with
  | [] => (q, Ok None)
  | (now, lease) :: turns' =>
      match try_acquire now n lease q with
      | (q, Raise e) => (q, Raise e)
      | (q, Ok (Some delay, _)) => (q, Ok (Some (lease, delay)))
      | (q, Ok (None, _)) => attempts n turns' q
      end
  end.
Definition acquire (now : flt) (c : quota_config) (n : Z) (turns : list (flt * string)) (q : quota) : quota * res (option (string * flt)) :=
  attempts n turns (configure now c q).

(** ** Any interleaving of holders *)

Inductive quota_op := Configure (now : flt) (c : quota_config) | TryAcquire (now : flt) (n : Z) (lease : string) | Release (lease : string) | InFlight (now : flt).
Definition quota_step (q : quota) (o : quota_op) : quota :=
  match o with
  | Configure now c => configure now c q
  | TryAcquire now n lease => (try_acquire now n lease q).1
  | Release lease => release lease q
  | InFlight now => (in_flight now q).1
  end.
Definition run (q : quota) (ops : list quota_op) : quota := foldl quota_step q ops.

(** The largest ceiling stated; none once a configuration has none. *)
Definition wider (a b : option Z) : option Z := match a, b with Some x, Some y => Some (Z.max x y) | _, _ => None end.
Definition ceiling (c : quota_config) (ops : list quota_op) : option Z :=
  foldl (fun a o => match o with Configure _ c => wider a c.(max_concurrency) | _ => a end) c.(max_concurrency) ops.

Definition below (n : Z) (m : option Z) : Prop := match m with Some m => n <= Z.max 0 m | None => True end.
Definition at_most (m m' : option Z) : Prop := match m, m' with _, None => True | Some x, Some y => x <= y | None, Some _ => False end.

(** *** One operation *)


(** What an attempt does: nothing but drop the lapsed leases, or one lease more where there was
    room, or an error before the lease. *)
Lemma try_acquire_cases now n lease q :
  let kept := List.filter (fun l => negb (flt_le l.2 now)) q.(leases) in
  let q' := (try_acquire now n lease q).1 in
  q'.(config) = q.(config) /\
  match (try_acquire now n lease q).2 with
  | Ok (None, poll) => q' = expire now q /\ full q' = true /\ poll = SLOT_POLL
  | Ok (Some delay, wait) => full (expire now q) = false /\ wait = delay /\ q'.(leases) = dset lease (flt_add (flt_add now delay) q.(config).(lease_seconds)) kept
  | Raise _ => q'.(leases) = kept
  end.
Proof.
  cbv zeta. unfold try_acquire. destruct (full (expire now q)) eqn:Ef; [done|].
  destruct (charge_request (refill now (expire now q))) as [q1 [d1|e1]] eqn:E1.
  - assert (q1.(leases) = (expire now q).(leases) /\ q1.(config) = q.(config)) as [L1 C1] by (unfold charge_request in E1; cbn in E1; case_match; injection E1 as <- _; done).
    destruct (charge_tokens n d1 q1) as [q2 [d2|e2]] eqn:E2;
      (assert (q2.(leases) = (expire now q).(leases) /\ q2.(config) = q.(config)) as [L2 C2] by (unfold charge_tokens in E2; repeat case_match; injection E2 as <- _; cbn; by rewrite ?L1, ?C1)); cbn; rewrite ?L2, ?C2; done.
  - assert (q1.(leases) = (expire now q).(leases) /\ q1.(config) = q.(config)) as [L1 C1] by (unfold charge_request in E1; cbn in E1; case_match; injection E1 as <- _; done). done.
Qed.

Lemma below_mono a b m m' : a <= b -> at_most m m' -> below b m -> below a m'.
Proof. unfold below, at_most. destruct m, m'; try done; lia. Qed.

Lemma at_most_refl m : at_most m m.
Proof. destruct m; cbn; lia. Qed.

Lemma at_most_wider m m' n : at_most m n -> at_most m (wider n m') /\ at_most m' (wider n m').
Proof. unfold at_most, wider. destruct m, m', n; try done; cbn; lia. Qed.

Lemma dset_length {A} k (v : A) (d : list (string * A)) : (length (dset k v d) <= S (length d))%nat.
Proof. induction d as [|[k' w] d IH]; cbn; [lia|]. case_decide; cbn; lia. Qed.

(** *** The invariant *)

Definition slots_ok (m : option Z) (q : quota) : Prop := at_most q.(config).(max_concurrency) m /\ below (Z.of_nat (length q.(leases))) m.

Lemma configured now c q : (configure now c q).(config) = c /\ (configure now c q).(leases) = q.(leases).
Proof. unfold configure. by case_decide; subst. Qed.

Lemma expire_length now q : Z.of_nat (length (expire now q).(leases)) <= Z.of_nat (length q.(leases)).
Proof. apply Nat2Z.inj_le, List.filter_length_le. Qed.

Lemma slots_shrink m q q' : slots_ok m q -> q'.(config) = q.(config) -> Z.of_nat (length q'.(leases)) <= Z.of_nat (length q.(leases)) -> slots_ok m q'.
Proof. intros [H1 H2] E Hl. unfold slots_ok. rewrite E. split; [done|]. by eapply below_mono; [exact Hl|apply at_most_refl|]. Qed.

Lemma step_slots m q o : slots_ok m q -> slots_ok (match o with Configure _ c => wider m c.(max_concurrency) | _ => m end) (quota_step q o).
Proof.
  intros Hq. pose proof Hq as [H1 H2]. destruct o as [now c|now n lease|lease|now]; cbn [quota_step].
  - destruct (configured now c q) as [Ec El]. split; rewrite ?Ec, ?El; [by eapply at_most_wider|]. eapply below_mono; [done| |exact H2]. by apply at_most_wider, at_most_refl.
  - destruct (try_acquire_cases now n lease q) as [Ec Hr]. pose proof (expire_length now q) as Hl. cbn in Hl. destruct (try_acquire now n lease q).2 as [[[delay|] wait]|e].
    + destruct Hr as (Hf & _ & El). split; [by rewrite Ec|]. rewrite El. pose proof (dset_length lease (flt_add (flt_add now delay) (lease_seconds (config q))) (List.filter (fun l => negb (flt_le l.2 now)) (leases q))).
      unfold full in Hf. cbn in Hf. destruct (max_concurrency (config q)) as [k|]; [|by destruct m]. destruct m as [m|]; [|done]. cbn in *. lia.
    + destruct Hr as (E & _). rewrite E. by eapply slots_shrink.
    + eapply slots_shrink; [done|done|]. by rewrite Hr.
  - eapply slots_shrink; [done|done|]. cbn. apply Nat2Z.inj_le, List.filter_length_le.
  - by eapply slots_shrink; [..|apply expire_length].
Qed.

(** *** Delays *)

Lemma wait_for_nonneg delay balance rate w : flt_lt delay flt_zero = false -> wait_for delay balance rate = Ok w -> flt_lt w flt_zero = false.
Proof.
  unfold wait_for. intros Hd. case_match; intros [= <-]; by apply flt_max_above.
Qed.

Lemma granted_delay now n lease q delay wait : (try_acquire now n lease q).2 = Ok (Some delay, wait) -> flt_lt delay flt_zero = false.
Proof.
  unfold try_acquire. destruct (full _); [done|]. destruct (charge_request _) as [q1 [d1|e1]] eqn:E1; [|done]. destruct (charge_tokens _ _ _) as [q2 [d2|e2]] eqn:E2; [|done]. intros [= <- _].
  assert (flt_lt d1 flt_zero = false) as Hd.
  { unfold charge_request in E1. case_match; injection E1 as _ E1; [by eapply wait_for_nonneg; [|exact E1]|]. by subst. }
  unfold charge_tokens in E2. repeat case_match; injection E2 as _ E2; [by eapply wait_for_nonneg; [|exact E2]|by subst..].
Qed.

(** ** The theorems *)

(** C24: Under any interleaving of holders and any changes of the configuration, the leases held are
    within the largest ceiling ever stated; an attempt that is granted found room, keeps what
    had not lapsed and waits no negative time, and one that finds no slot changes nothing but to
    drop lapsed leases: it charges neither requests nor tokens. *)
Theorem quota_bounded now0 c0 ops : let q := run (new_quota now0 c0) ops in
  below (Z.of_nat (length q.(leases))) (ceiling c0 ops) /\
  forall now n lease, match (try_acquire now n lease q).2 with
    | Ok (Some delay, _) => full (expire now q) = false /\ flt_lt delay flt_zero = false /\ forall l d, l <> lease -> dget l (expire now q).(leases) = Some d -> dget l (try_acquire now n lease q).1.(leases) = Some d
    | Ok (None, poll) => (try_acquire now n lease q).1 = expire now q /\ poll = SLOT_POLL
    | Raise _ => (try_acquire now n lease q).1.(leases) = (expire now q).(leases)
    end.
Proof.
  intros q. split.
  - assert (slots_ok (ceiling c0 ops) q) as [_ H]; [|exact H]. unfold q, run, ceiling. assert (slots_ok (max_concurrency c0) (new_quota now0 c0)) as H0.
    { split; [apply at_most_refl|]. cbn. destruct (max_concurrency c0); cbn; lia. }
    revert H0. generalize (max_concurrency c0) (new_quota now0 c0). induction ops as [|o ops IH]; intros m q0 H0; [done|]. cbn. by apply IH, step_slots.
  - intros now n lease. destruct (try_acquire_cases now n lease q) as [_ Hr]. pose proof (granted_delay now n lease q) as Hd. destruct (try_acquire now n lease q).2 as [[[delay|] wait]|e]; [|by destruct Hr as (-> & _ & ->)|done].
    destruct Hr as (Hf & -> & ->). split_and!; [done|by eapply Hd|]. intros l d Hl Hg. by rewrite dget_dset, decide_False.
Qed.

(** A lease is held until it is released or a reading reaches its deadline, and once every
    reading of an attempt has passed the deadlines of all leases, a quota with a positive ceiling
    grants that attempt: a slot whose holder died comes back. *)
Theorem quota_slot_returns now0 c0 ops : let q := run (new_quota now0 c0) ops in
  (forall later l d, dget l q.(leases) = Some d ->
     Forall (fun o => match o with Configure _ _ => True | Release l' => l' <> l | TryAcquire now _ l' => l' <> l /\ flt_le d now = false | InFlight now => flt_le d now = false end) later ->
     dget l (run q later).(leases) = Some d) /\
  (forall now n lease, Forall (fun l => flt_le l.2 now = true) q.(leases) -> match q.(config).(max_concurrency) with Some m => 0 < m | None => True end ->
     match (try_acquire now n lease q).2 with Ok (Some _, _) => True | Ok (None, _) => False | Raise e => e = "ZeroDivisionError" end).
Proof.
  intros q. split.
  - intros later l d. generalize q. clear q. intros q Hg Hl. revert q Hg. induction Hl as [|o later Ho _ IH]; intros q Hg; [done|]. cbn. apply IH. clear IH.
    assert (forall now, flt_le d now = false -> dget l (expire now q).(leases) = Some d) as He.
    { intros now Hd. cbn. revert Hg. induction (leases q) as [|[k v] ls IHl]; [done|]. cbn. case_decide as E; [intros [= ->]; rewrite Hd; cbn; by rewrite decide_True|].
      intros Hg. destruct (negb (flt_le v now)); cbn; [rewrite decide_False by done|]; by apply IHl. }
    destruct o as [now c|now n lease|lease|now]; cbn [quota_step].
    + by rewrite (proj2 (configured now c q)).
    + destruct Ho as [Hne Hd]. destruct (try_acquire_cases now n lease q) as [_ Hr]. specialize (He now Hd). destruct (try_acquire now n lease q).2 as [[[delay|] wait]|e].
      * destruct Hr as (_ & _ & ->). by rewrite dget_dset, decide_False.
      * by destruct Hr as (-> & _).
      * by rewrite Hr.
    + cbn. by rewrite dget_dpop, decide_False.
    + by apply He.
  - intros now n lease Hlapsed Hm. assert (leases (expire now q) = []) as Hnil.
    { cbn. clearbody q. induction Hlapsed as [|l ls Hl _ IH]; [done|]. cbn. by rewrite Hl. }
    unfold try_acquire. assert (full (expire now q) = false) as -> by (unfold full; rewrite Hnil; revert Hm; cbn; destruct (max_concurrency (config q)); [intros; by apply Z.leb_gt|done]).
    assert (forall d b r e, wait_for d b r = Raise e -> e = "ZeroDivisionError") as Hw by (intros d b r e; unfold wait_for; destruct (flt_div r (flt_of_Z 60)); intros ?; by simplify_eq).
    destruct (charge_request _) as [q1 [d1|e1]] eqn:E1; [destruct (charge_tokens _ _ _) as [q2 [d2|e2]] eqn:E2; cbn; [done|]|cbn].
    + unfold charge_tokens in E2. repeat case_match; injection E2 as _ E2; first [done|by eapply Hw].
    + unfold charge_request in E1. case_match; injection E1 as _ E1; first [done|by eapply Hw].
Qed.

(** *** Examples *)

Module Demo.
(** One request a second, one at once, two in flight. *)
Definition c : quota_config := QuotaConfig (Some (flt_of_Z 60)) None (Some 2) (flt_of_Z 600) (flt_div (flt_of_Z 1) (flt_of_Z 60)).
Definition q0 : quota := new_quota flt_zero c.

(** The second request waits a second, the third finds no slot, and after a release waits two;
    the slots of holders that died come back after their deadlines. *)
Fact reservations_queue :
  (run q0 [TryAcquire flt_zero 0 "a"; TryAcquire flt_zero 0 "b"; TryAcquire flt_zero 0 "c"; Release "a"; TryAcquire flt_zero 0 "d"]).(leases) = [("b", flt_of_Z 601); ("d", flt_of_Z 602)] /\
  (attempts 0 [(flt_zero, "e"); (flt_of_Z 601, "f")] (run q0 [TryAcquire flt_zero 0 "a"; TryAcquire flt_zero 0 "b"])).2 = Ok (Some ("f", flt_zero)).
Proof. vm_compute. split; reflexivity. Qed.

(** A rate of zero, which the configuration accepts, raises after the request was charged. *)
Fact zero_rate_raises :
  let q := new_quota flt_zero (QuotaConfig (Some flt_zero) None None (flt_of_Z 600) (flt_of_Z 1)) in
  (try_acquire flt_zero 0 "a" q).2 = Raise "ZeroDivisionError" /\ (try_acquire flt_zero 0 "a" q).1.(requests) = flt_of_Z (-1).
Proof. vm_compute. split; reflexivity. Qed.
End Demo.
