(* ===== verification/Tasks.v ===== *)
(** * Tasks and schedules

    Concurrent code as sequences of atomic steps on a shared state: a [task] is the rest of a
    caller's work, [run_task] performs it without interruption, and [schedule] interleaves the
    steps of several callers in any order. *)

From S2P Require Import Prelude.

(** The rest of a call: its answer, or the next step on the shared state. *)
#[warnings="-register-all"]
Inductive task (S R : Type) : Type :=
  | Done (r : R)
  | Step (f : S -> S * task S R).
Arguments Done {S R} r.
Arguments Step {S R} f.

Section Task.
Context {S R : Type}.

(** One atomic section and what follows it. *)
Definition atomic {A : Type} (f : S -> S * A) (k : A -> task S R) : task S R :=
  Step (fun s => let '(s', a) := f s in (s', k a)).

(** The calls of a caller alone. *)
Fixpoint run_task (t : task S R) (s : S) : S * R :=
  match t with
  | Done r => (s, r)
  | Step f => match f s with (s', t') => run_task t' s' end
  end.

(** Callers side by side: [schedule s ts turns] performs, for each number of [turns], the next step
    of that caller. *)
Definition step_one (s : S) (ts : list (task S R)) (i : nat) : S * list (task S R) :=
  match ts !! i with
  | Some (Step f) => let '(s', t') := f s in (s', <[i := t']> ts)
  | _ => (s, ts)
  end.
Fixpoint schedule (s : S) (ts : list (task S R)) (turns : list nat) : S * list (task S R) :=
  match turns with
  | [] => (s, ts)
  | i :: turns' => let '(s', ts') := step_one s ts i in schedule s' ts' turns'
  end.
End Task.

(** ** One caller among finished ones *)

Section Solo.
Context {S R : Type}.

Definition finished (t : task S R) : bool := match t with Done _ => true | Step _ => false end.

(** The answers of the callers, once every one has its own. *)
Definition answers (ts : list (task S R)) : option (list R) := opt_mapM (fun t => match t with Done r => Some r | Step _ => None end) ts.

Lemma run_atomic {A} (f : S -> S * A) (k : A -> task S R) s : run_task (atomic f k) s = run_task (k (f s).2) (f s).1.
Proof. unfold atomic. cbn. by destruct (f s). Qed.

(** When all callers but [i] have their answer, the steps left are those of [i], in its order. *)
Lemma schedule_solo i turns : forall s (ts : list (task S R)) t,
  ts !! i = Some t -> (forall k t', ts !! k = Some t' -> k <> i -> finished t' = true) ->
  exists s' t', schedule s ts turns = (s', <[i := t']> ts) /\ run_task t' s' = run_task t s.
Proof.
  induction turns as [|k turns IH]; intros s ts t Ht Hts; cbn; [exists s, t; by rewrite list_insert_id|].
  unfold step_one. destruct (ts !! k) as [[r|f]|] eqn:Ek; [by apply IH| |by apply IH].
  assert (k = i) as -> by (destruct (decide (k = i)); [done|]; by pose proof (Hts _ _ Ek ltac:(done))).
  rewrite Ht in Ek. injection Ek as ->. destruct (f s) as [s1 t1] eqn:Ef.
  destruct (IH s1 (<[i := t1]> ts) t1) as (s' & t' & E & Er).
  - apply list_lookup_insert_eq. by apply lookup_lt_is_Some; eauto.
  - intros k t' Hk Hne. rewrite list_lookup_insert_ne in Hk by done. eauto.
  - exists s', t'. rewrite E, list_insert_insert_eq. split; [done|]. cbn. by rewrite Ef.
Qed.

Lemma answers_done ts rs : answers ts = Some rs <-> ts = map Done rs.
Proof.
  unfold answers. revert rs. induction ts as [|[r|f] ts IH]; intros rs; cbn; [by destruct rs; split|..].
  - destruct (opt_mapM _ ts) as [rs'|]; cbn; split; [intros [= <-]|destruct rs; [done|]|done|destruct rs; [done|]].
    + cbn. f_equal. by apply IH.
    + intros [= -> E]. f_equal. f_equal. apply IH in E. congruence.
    + intros [= -> E]. by apply IH in E.
  - split; [done|]. by destruct rs.
Qed.

(** Then the answers are those of the callers run one by one. *)
Lemma answers_solo i s ts turns rs :
  (forall k t, ts !! k = Some t -> k <> i -> finished t = true) -> answers (schedule s ts turns).2 = Some rs -> rs = map (fun t => (run_task t s).2) ts.
Proof.
  intros Hts. destruct (ts !! i) as [t|] eqn:Ht.
  - destruct (schedule_solo i turns s ts t Ht Hts) as (s' & t' & -> & Er). cbn. intros E%answers_done. apply list_eq. intros k. rewrite list_lookup_fmap.
    assert (<[i:=t']> ts !! k = Done <$> rs !! k) as Ek by (rewrite E; apply list_lookup_fmap). destruct (decide (k = i)) as [->|Hk].
    + rewrite list_lookup_insert_eq in Ek by (by apply lookup_lt_is_Some; eauto). destruct (rs !! i); [|done]. injection Ek as ->. rewrite Ht. cbn. by rewrite <- Er.
    + rewrite list_lookup_insert_ne in Ek by done. rewrite Ek. by destruct (rs !! k).
  - assert (schedule s ts turns = (s, ts)) as ->.
    { assert (forall k t, ts !! k = Some t -> finished t = true) as Hall by (intros k t Hk; apply (Hts k t Hk); congruence).
      induction turns as [|k turns IH]; cbn; [done|]. unfold step_one. destruct (ts !! k) as [[r|f]|] eqn:Ek; try done. by pose proof (Hall _ _ Ek). }
    cbn. intros ->%answers_done. rewrite map_map. cbn. by rewrite map_id.
Qed.

(** *** Enough turns *)

(** A call of at most [n] steps, whatever the others do in between. *)
Fixpoint within (n : nat) (t : task S R) : Prop :=
  match t with Done _ => True | Step f => match n with O => False | Datatypes.S n' => forall s, within n' (f s).2 end end.

Lemma within_done n r : within n (Done r).
Proof. by destruct n. Qed.

Lemma within_le n n' t : (n <= n')%nat -> within n t -> within n' t.
Proof. revert n' t. induction n as [|n IH]; intros n' [r|f] Hle; cbn; try done; destruct n'; try done; [lia|]. cbn. intros H s. apply IH; [lia|done]. Qed.

Lemma within_atomic {A} n (f : S -> S * A) (k : A -> task S R) : (forall a, within n (k a)) -> within (Datatypes.S n) (atomic f k).
Proof. intros H. unfold atomic. cbn. intros s. destruct (f s). apply H. Qed.

Lemma schedule_finishes turns : forall s ts (left : nat -> nat),
  (forall i t, ts !! i = Some t -> within (left i) t) -> (forall i, (i < length ts)%nat -> (left i <= count_occ Nat.eq_dec turns i)%nat) ->
  is_Some (answers (schedule s ts turns).2).
Proof.
  induction turns as [|k turns IH]; intros s ts left Hw Hc; cbn.
  - assert (forall t, t ∈ ts -> finished t = true) as Hall.
    { intros t (i & Hi)%list_elem_of_lookup. pose proof (Hw _ _ Hi) as Ht. specialize (Hc i (lookup_lt_Some _ _ _ Hi)). cbn in Hc.
      destruct t as [r|f]; [done|]. by destruct (left i); [|lia]. }
    clear Hw Hc. induction ts as [|t ts IHt]; cbn; [by eexists|]. pose proof (Hall t ltac:(left)) as Ht. destruct t as [r|f]; [|done].
    destruct IHt as [rs Hrs]; [intros t Hin; apply Hall; by right|]. unfold answers in *. cbn. rewrite Hrs. cbn. by eexists.
  - unfold step_one. destruct (ts !! k) as [[r|f]|] eqn:Ek.
    + apply (IH s ts (fun i => if decide (i = k) then O else left i)).
      * intros i t Hi. case_decide as E; [|by apply Hw]. subst. rewrite Ek in Hi. by injection Hi as <-.
      * intros i Hi. specialize (Hc i Hi). cbn in Hc. case_decide; destruct (Nat.eq_dec k i); try lia; congruence.
    + pose proof (Hw _ _ Ek) as Hk. destruct (left k) as [|m] eqn:El; [done|]. cbn in Hk. specialize (Hk s). destruct (f s) as [s' t'].
      apply (IH s' (<[k := t']> ts) (fun i => if decide (i = k) then m else left i)).
      * intros i t Hi. case_decide as E; [subst; rewrite list_lookup_insert_eq in Hi by (by apply lookup_lt_is_Some; eauto); by injection Hi as <-|].
        rewrite list_lookup_insert_ne in Hi by done. by apply Hw.
      * intros i Hi. rewrite length_insert in Hi. specialize (Hc i Hi). cbn in Hc. case_decide; destruct (Nat.eq_dec k i); subst; try lia.
    + apply (IH s ts left); [done|]. intros i Hi. specialize (Hc i Hi). cbn in Hc. destruct (Nat.eq_dec k i); [|done]. subst. apply lookup_ge_None in Ek. lia.
Qed.
End Solo.
