(* ===== verification/CacheDisk.v ===== *)
(** * The result cache's disk tier

    carbonite/cache_disk.py ([DiskCacheTier]): evicted results written to a spill store under
    hashed names, within a byte budget, in order of last use.  The spill store is used through
    the interface [BucketStore]; [CacheSpill] shows that the store of [SpillStore] has it. *)

From S2P Require Import Prelude PyDict PyFloat.

(** ** What the tier asks of a spill store *)

(** The operations the tier calls.  A state includes the files and the answers of the system,
    so a call that fails is one whose state says so. *)
Class BucketStore (B : Type) := {
  bstore : Type;
  bhandle : Type;
  nbytes : bhandle -> Z;
  logical_nbytes : bhandle -> Z;
  spill : bstore -> list B -> string -> bstore * res (option bhandle);
  read : bstore -> bhandle -> bstore * res (list B);
  release : bstore -> bhandle -> bstore;
}.

(** What a store promises about the buckets [l] it holds: a bucket spilled under a new name is
    held and the others stay; a held bucket reads back as it was spilled, without the batches
    that have no rows, or raises. *)
Class BucketLaws (B : Type) `{BucketStore B} (empty : B -> bool) := {
  holding : bstore -> list (string * bhandle * list B) -> Prop;
  holding_perm : forall s l l', l ≡ₚ l' -> holding s l -> holding s l';
  holding_nbytes : forall s l n h bs, holding s l -> (n, h, bs) ∈ l -> 0 <= nbytes h;
  spill_law : forall s l bs n, holding s l -> n ∉ l.*1.*1 ->
    match spill s bs n with
    | (s', Ok (Some h)) => holding s' ((n, h, List.filter (fun b => negb (empty b)) bs) :: l)
    | (s', Ok None) => holding s' l /\ List.filter (fun b => negb (empty b)) bs = []
    | (s', Raise _) => holding s' l
    end;
  read_law : forall s l n h bs, holding s l -> (n, h, bs) ∈ l ->
    holding (read s h).1 l /\ forall bs', (read s h).2 = Ok bs' -> bs' = bs;
  release_law : forall s l n h bs, holding s ((n, h, bs) :: l) -> holding (release s h) l;
}.

(** ** Tables *)

(** A table: its schema and its batches, each a list of rows. *)
Record table {row : Type} := Table { schema : string; to_batches : list (list row) }.
Arguments table : clear implicits.
Arguments Table {row}.

Section Tier.
Context {row : Type} `{BucketStore (list row)}.

Definition num_rows (t : table row) : Z := Z.of_nat (length (concat t.(to_batches))).

(** What a table says: its schema and its rows in order. *)
Definition content (t : table row) : string * list row := (t.(schema), concat t.(to_batches)).

(** [_OnDisk]. *)
Record on_disk := OnDisk { o_handle : bhandle; o_schema : string; o_num_rows : Z; o_nbytes : Z }.

(** [DiskCacheTier]. *)
Record tier := Tier {
  d_max : Z; d_entries : list (string * on_disk); d_used : Z; d_hits : Z; d_misses : Z;
  d_evictions : Z; d_writes : Z; d_store : option bstore }.

(** The digest of a key. *)
Variable bucket_name : string -> string.

Definition new_tier (max_bytes : Z) : tier := Tier (Z.max 0 max_bytes) [] 0 0 0 0 0 None.

Definition enabled (t : tier) : bool := 0 <? t.(d_max).

(** [_drop_locked]. *)
Definition drop_locked (t : tier) (e : on_disk) : tier :=
  Tier t.(d_max) t.(d_entries) (Z.max 0 (t.(d_used) - e.(o_nbytes))) t.(d_hits) t.(d_misses) t.(d_evictions) t.(d_writes)
    (option_map (fun s => release s e.(o_handle)) t.(d_store)).

Definition set_entries (t : tier) (es : list (string * on_disk)) : tier :=
  Tier t.(d_max) es t.(d_used) t.(d_hits) t.(d_misses) t.(d_evictions) t.(d_writes) t.(d_store).
Definition set_store (t : tier) (s : option bstore) : tier :=
  Tier t.(d_max) t.(d_entries) t.(d_used) t.(d_hits) t.(d_misses) t.(d_evictions) t.(d_writes) s.

(** [_release_locked]. *)
Definition release_locked (t : tier) (key : string) : tier :=
  match dget key t.(d_entries) with
  | Some e => drop_locked (set_entries t (dpop key t.(d_entries))) e
  | None => t
  end.

(** [_evict_to]: the loop over the keys as they were, in order of last use. *)
Fixpoint evict_loop (target : Z) (keys : list string) (t : tier) : tier :=
  match keys with
  | [] => t
  | key :: keys' =>
      if t.(d_used) <=? target then t
      else match dget key t.(d_entries) with
           | Some e =>
               let t := drop_locked (set_entries t (dpop key t.(d_entries))) e in
               evict_loop target keys' (Tier t.(d_max) t.(d_entries) t.(d_used) t.(d_hits) t.(d_misses) (t.(d_evictions) + 1) t.(d_writes) t.(d_store))
           | None => evict_loop target keys' t
           end
  end.
Definition evict_tier (t : tier) (target : Z) : tier :=
  if t.(d_used) <=? target then t else evict_loop target t.(d_entries).*1 t.

Definition set_tier_budget (t : tier) (max_bytes : Z) : tier :=
  let m := Z.max 0 max_bytes in
  evict_tier (Tier m t.(d_entries) t.(d_used) t.(d_hits) t.(d_misses) t.(d_evictions) t.(d_writes) t.(d_store)) m.

(** [_ensure_store]; [scratch] is the store a new directory gives, if one can be made.  A
    failure disables the tier. *)
Definition ensure_store (t : tier) (scratch : option bstore) : tier :=
  match t.(d_store), scratch with
  | Some _, _ => t
  | None, Some s => set_store t (Some s)
  | None, None => Tier 0 t.(d_entries) t.(d_used) t.(d_hits) t.(d_misses) t.(d_evictions) t.(d_writes) None
  end.

(** [DiskCacheTier.put]: the guard reads the budget before the lock is taken; [put_locked] is
    what runs under it. *)
Definition put_guard (t : tier) (tbl : table row) : bool := negb (enabled t) || (num_rows tbl =? 0).

Definition put_locked (t : tier) (scratch : option bstore) (key : string) (tbl : table row) : tier * Z :=
  let t := ensure_store t scratch in
  match t.(d_store) with
  | None => (t, 0)
  | Some _ =>
      let t := release_locked t key in
      match t.(d_store) with
      | None => (t, 0)
      | Some s =>
          let '(s, r) := spill s tbl.(to_batches) (bucket_name key) in
          let t := set_store t (Some s) in
          match r with
          | Ok (Some h) =>
              if t.(d_max) <? nbytes h then (set_store t (Some (release s h)), 0)
              else
                let e := OnDisk h tbl.(schema) (num_rows tbl) (nbytes h) in
                let t := Tier t.(d_max) (dset key e t.(d_entries)) (t.(d_used) + nbytes h) t.(d_hits) t.(d_misses)
                           t.(d_evictions) (t.(d_writes) + 1) t.(d_store) in
                let t := evict_tier t t.(d_max) in
                (t, match dget key t.(d_entries) with Some e => e.(o_nbytes) | None => 0 end)
          | Ok None | Raise _ => (t, 0)
          end
      end
  end.

Definition count_miss (t : tier) : tier :=
  Tier t.(d_max) t.(d_entries) t.(d_used) t.(d_hits) (t.(d_misses) + 1) t.(d_evictions) t.(d_writes) t.(d_store).

(** [DiskCacheTier.get]. *)
Definition tier_get (t : tier) (key : string) : tier * option (table row) :=
  match dget key t.(d_entries) with
  | None => (count_miss t, None)
  | Some e =>
      let t := set_entries t (dpop key t.(d_entries)) in
      match t.(d_store) with
      | None => (count_miss (Tier t.(d_max) t.(d_entries) (t.(d_used) - e.(o_nbytes)) t.(d_hits) t.(d_misses) t.(d_evictions) t.(d_writes) None), None)
      | Some s =>
          let '(s, r) := read s e.(o_handle) in
          let t := set_store t (Some s) in
          match r with
          | Raise _ => (count_miss (drop_locked t e), None)
          | Ok batches =>
              (Tier t.(d_max) (dset key e t.(d_entries)) t.(d_used) (t.(d_hits) + 1) t.(d_misses) t.(d_evictions) t.(d_writes) t.(d_store),
               Some (Table e.(o_schema) batches))
          end
      end
  end.

(** [resident_bytes]. *)
Definition resident_bytes (t : tier) (key : string) : Z :=
  match dget key t.(d_entries) with
  | None => 0
  | Some e => if logical_nbytes e.(o_handle) =? 0 then e.(o_nbytes) else logical_nbytes e.(o_handle)
  end.

(** [clear]: the entries are forgotten; the old store is cleaned up and nothing refers to it. *)
Definition tier_clear (t : tier) : tier :=
  Tier t.(d_max) [] 0 t.(d_hits) t.(d_misses) (t.(d_evictions) + Z.of_nat (length t.(d_entries))) t.(d_writes) None.
End Tier.
