(* ===== verification/CacheDiskSound.v ===== *)
(** * Correctness of the disk tier

    The byte budget, and what a key reads back as. *)

From S2P Require Import Prelude PyDict CacheDisk.

Definition empty_batch {row : Type} (b : list row) : bool := match b with [] => true | _ => false end.

Lemma concat_nonempty {row} (bs : list (list row)) : concat (List.filter (fun b => negb (empty_batch b)) bs) = concat bs.
Proof. induction bs as [|[|x b] bs IH]; cbn; [done|done|]. by rewrite IH. Qed.

Section Sound.
Context {row : Type} `{BucketStore (list row)} `{!BucketLaws (list row) empty_batch}.
Context (bucket_name : string -> string) `{!Inj (=) (=) bucket_name}.

(** The buckets of the entries, [g] being the batches written under each key. *)
Definition buckets (g : string -> list (list row)) (es : list (string * on_disk)) : list (string * bhandle * list (list row)) :=
  map (fun ke => (bucket_name ke.1, ke.2.(o_handle), g ke.1)) es.

(** The tier without its bound. *)
Record tier_wf (t : tier) (g : string -> list (list row)) : Prop := {
  tw_dict : dict_ok t.(d_entries);
  tw_used : t.(d_used) = total o_nbytes t.(d_entries);
  tw_max : 0 <= t.(d_max);
  tw_sizes : Forall (fun ke => ke.2.(o_nbytes) = nbytes ke.2.(o_handle) /\ 0 <= ke.2.(o_nbytes)) t.(d_entries);
  tw_store : match t.(d_store) with None => t.(d_entries) = [] | Some s => holding s (buckets g t.(d_entries)) end;
}.

Definition tier_ok (t : tier) (g : string -> list (list row)) : Prop := tier_wf t g /\ t.(d_used) <= t.(d_max).

(** What [key] reads back as. *)
Definition stored (t : tier) (g : string -> list (list row)) (key : string) : option (string * list row) :=
  e ← dget key t.(d_entries); Some (e.(o_schema), concat (g key)).

(** Nothing but what was there before. *)
Definition no_more (t t' : tier) (g g' : string -> list (list row)) (key : string) : Prop :=
  stored t' g' key = None \/ stored t' g' key = stored t g key.

Lemma buckets_perm_pop g es key e : dict_ok es -> dget key es = Some e ->
  buckets g es ≡ₚ (bucket_name key, e.(o_handle), g key) :: buckets g (dpop key es).
Proof.
  unfold dict_ok, buckets. induction es as [|[k v] es IH]; cbn; [done|]. intros [Hn Hd]%NoDup_cons. case_decide as E.
  - intros [= ->]. subst k. rewrite bool_decide_false by auto. cbn.
    change (List.filter _ es) with (dpop key es). by rewrite dpop_fresh by (by apply dget_None).
  - intros Hk. rewrite bool_decide_true by auto. cbn. rewrite (IH Hd Hk). apply Permutation_swap.
Qed.

Lemma buckets_names g es key : dget key es = None -> bucket_name key ∉ (buckets g es).*1.*1.
Proof.
  intros Hk. unfold buckets. rewrite !list_fmap_compose || idtac. intros Hin. apply dget_None in Hk. apply Hk.
  apply list_elem_of_fmap in Hin as ([n b] & E & Hin). cbn in E. apply list_elem_of_fmap in Hin as ([[n' h] bs] & E2 & Hin).
  cbn in E2. injection E2 as -> ->. apply list_elem_of_fmap in Hin as ([k v] & E3 & Hin). injection E3 as -> -> ->.
  apply (inj bucket_name) in E. subst k. apply list_elem_of_fmap. by exists (key, v).
Qed.

Lemma buckets_ext g g' es : (forall k, k ∈ es.*1 -> g' k = g k) -> buckets g' es = buckets g es.
Proof.
  intros Hg. apply list_fmap_ext. intros i [k v] Hi. cbn. rewrite Hg; [done|]. apply list_elem_of_fmap. exists (k, v). split; [done|].
  by eapply list_elem_of_lookup_2.
Qed.

(** Popping an entry and deleting its bucket. *)
Lemma drop_wf t g key e : tier_wf t g -> dget key t.(d_entries) = Some e ->
  tier_wf (drop_locked (set_entries t (dpop key t.(d_entries))) e) g /\
  (drop_locked (set_entries t (dpop key t.(d_entries))) e).(d_used) = t.(d_used) - e.(o_nbytes).
Proof.
  intros [W1 W2 W3 W4 W5] Hk. pose proof (total_dpop o_nbytes key e _ W1 Hk) as Ht.
  assert (0 <= total o_nbytes (dpop key (d_entries t))) as Hn.
  { apply total_nonneg, Forall_dpop. eapply Forall_impl; [exact W4|]. by intros ke []. }
  split; [|cbn; lia]. split; cbn; [by apply dpop_ok|lia|done|by apply Forall_dpop|].
  destruct (d_store t) as [s|]; cbn; [|by rewrite W5]. eapply release_law, holding_perm; [|exact W5]. by apply buckets_perm_pop.
Qed.

Lemma stored_pop t g key e k : stored (drop_locked (set_entries t (dpop key t.(d_entries))) e) g k = if decide (k = key) then None else stored t g k.
Proof. unfold stored. cbn. rewrite dget_dpop. by case_decide. Qed.

Lemma release_locked_wf t g key : tier_wf t g ->
  tier_wf (release_locked t key) g /\ (release_locked t key).(d_used) <= t.(d_used) /\ (release_locked t key).(d_max) = t.(d_max) /\
  stored (release_locked t key) g key = None /\ (forall k, k <> key -> stored (release_locked t key) g k = stored t g k) /\
  (is_Some (release_locked t key).(d_store) <-> is_Some t.(d_store)).
Proof.
  intros Hw. unfold release_locked. destruct (dget key (d_entries t)) as [e|] eqn:Hk.
  - destruct (drop_wf t g key e Hw Hk) as [Hw' Hu]. pose proof Hw as [_ _ _ W4 _]. rewrite Forall_forall in W4.
    destruct (W4 _ (dget_elem _ _ _ Hk)) as [_ Hn]. cbn in Hn. split_and!; [done|lia|done| | |].
    + by rewrite stored_pop, decide_True.
    + intros k Hne. by rewrite stored_pop, decide_False.
    + cbn. by destruct (d_store t).
  - split_and!; try done. unfold stored. by rewrite Hk.
Qed.

(** The loop keeps the tier well formed, only drops entries, and reaches the target. *)
Lemma evict_loop_wf target g keys : forall t, tier_wf t g ->
  tier_wf (evict_loop target keys t) g /\ (forall k, no_more t (evict_loop target keys t) g g k) /\
  (evict_loop target keys t).(d_max) = t.(d_max) /\ (evict_loop target keys t).(d_used) <= t.(d_used).
Proof.
  induction keys as [|key keys IH]; intros t Hw; cbn; [split_and!; [done|intros; by right|done|lia]|].
  destruct (d_used t <=? target); [split_and!; [done|intros; by right|done|lia]|]. destruct (dget key (d_entries t)) as [e|] eqn:Hk; [|by apply IH].
  destruct (drop_wf t g key e Hw Hk) as [Hw' Hu]. pose proof Hw as [_ _ _ W4 _]. rewrite Forall_forall in W4.
  destruct (W4 _ (dget_elem _ _ _ Hk)) as [_ Hn]. cbn in Hn.
  match goal with |- context [evict_loop target keys ?t2] => set (t' := t2) end.
  assert (tier_wf t' g) as Ht' by (by destruct Hw'; split). destruct (IH t' Ht') as (I1 & I2 & I3 & I4). split_and!; [done| |done|].
  - intros k. destruct (I2 k) as [E|E]; [by left|]. unfold no_more. rewrite E.
    change (stored t' g k) with (stored (drop_locked (set_entries t (dpop key t.(d_entries))) e) g k). rewrite stored_pop. case_decide; auto.
  - change (d_used t') with (d_used (drop_locked (set_entries t (dpop key t.(d_entries))) e)) in I4. lia.
Qed.

Lemma evict_loop_reaches target g keys : forall t, tier_wf t g -> 0 <= target -> d_entries t = [] \/ (d_entries t).*1 = keys ->
  (evict_loop target keys t).(d_used) <= target.
Proof.
  induction keys as [|key keys IH]; intros t Hw H0 He; cbn.
  - destruct Hw as [_ W2 _ _ _]. rewrite W2. destruct He as [->|He]; [done|]. apply fmap_nil_inv in He. by rewrite He.
  - destruct (Z.leb_spec (d_used t) target) as [|Hu]; [done|].
    destruct He as [He|He]; [destruct Hw as [_ W2 _ _ _]; rewrite W2, He in Hu; cbn in Hu; lia|].
    destruct (d_entries t) as [|[k v] es] eqn:Ee; [done|]. cbn in He. injection He as -> He. cbn. rewrite decide_True by done.
    pose proof Hw as [W1 _ _ _ _]. rewrite Ee in W1. apply NoDup_cons in W1 as [Hn Hd].
    destruct (drop_wf t g key v Hw) as [Hw' _]; [rewrite Ee; cbn; by rewrite decide_True|]. rewrite Ee in Hw'.
    apply IH; [by destruct Hw'; split|done|]. right. cbn. rewrite bool_decide_false by auto. cbn.
    change (List.filter _ es) with (dpop key es). by rewrite dpop_fresh by (by apply dget_None).
Qed.

Lemma evict_tier_ok t g target : tier_wf t g -> 0 <= target ->
  tier_wf (evict_tier t target) g /\ (evict_tier t target).(d_used) <= target /\ (evict_tier t target).(d_max) = t.(d_max) /\
  forall k, no_more t (evict_tier t target) g g k.
Proof.
  intros Hw H0. unfold evict_tier. destruct (Z.leb_spec (d_used t) target) as [Hu|Hu]; [split_and!; try done; intros; by right|].
  destruct (evict_loop_wf target g (d_entries t).*1 t Hw) as (E1 & E2 & E3 & _). split_and!; try done. eapply evict_loop_reaches; eauto.
Qed.

(** The most recent entry survives a loop it fits in. *)
Lemma evict_loop_last target g key e es : forall t, tier_wf t g -> t.(d_entries) = es ++ [(key, e)] -> e.(o_nbytes) <= target ->
  dget key (evict_loop target t.(d_entries).*1 t).(d_entries) = Some e.
Proof.
  induction es as [|[k v] es IH]; intros t Hw He Hs; pose proof Hw as [W1 W2 _ _ _]; rewrite He in *; cbn [app fmap list_fmap evict_loop fst].
  - cbn in W2. rewrite (proj2 (Z.leb_le _ _)) by lia. rewrite He. cbn. by rewrite decide_True.
  - assert (key <> k) as Hne.
    { intros ->. cbn in W1. apply NoDup_cons in W1 as [Hn _]. apply Hn. apply list_elem_of_fmap. exists (k, e). split; [done|]. apply elem_of_app. right. by left. }
    destruct (d_used t <=? target) eqn:Hu.
    + rewrite He. apply elem_dget; [done|]. right. apply elem_of_app. right. by left.
    + rewrite He. change (((k, v) :: es) ++ [(key, e)]) with ((k, v) :: es ++ [(key, e)]) in *. cbn [dget]. rewrite decide_True by done.
      destruct (drop_wf t g k v Hw) as [Hw' _]; [rewrite He; cbn; by rewrite decide_True|]. rewrite He in Hw'.
      assert (dpop k ((k, v) :: es ++ [(key, e)]) = es ++ [(key, e)]) as Ep.
      { cbn. rewrite bool_decide_false by auto. change (List.filter _ (es ++ [(key, e)])) with (dpop k (es ++ [(key, e)])).
        apply dpop_fresh, dget_None. cbn in W1. by apply NoDup_cons in W1 as [Hn _]. }
      rewrite Ep in Hw' |- *.
      match goal with |- context [evict_loop target _ ?t2] => set (t' := t2) end.
      apply (IH t'); [by destruct Hw'; split|done|done].
Qed.

(** A scratch store is empty. *)
Definition fresh_scratch (scratch : option bstore) : Prop := forall s, scratch = Some s -> holding s [].

Lemma ensure_store_wf t g scratch : tier_wf t g -> fresh_scratch scratch ->
  tier_wf (ensure_store t scratch) g /\ (forall k, stored (ensure_store t scratch) g k = stored t g k) /\
  (ensure_store t scratch).(d_used) = t.(d_used) /\
  ((ensure_store t scratch).(d_max) = t.(d_max) \/ (ensure_store t scratch).(d_entries) = [] /\ (ensure_store t scratch).(d_max) = 0).
Proof.
  intros [W1 W2 W3 W4 W5] Hf. unfold ensure_store. destruct (d_store t) as [s|] eqn:Es.
  { split_and!; auto. split; try done. by rewrite Es. }
  destruct scratch as [s|]; (split; [split; try done|]); auto. cbn. rewrite W5. by apply Hf.
Qed.

(** What [put] leaves: the budget holds; the key reads back as the table when [put] says it was
    written; every other key reads back as before or is gone. *)
Definition put_leaves (t : tier) (g : string -> list (list row)) (key : string) (tbl : table row) (r : tier * Z) : Prop :=
  exists g', tier_ok r.1 g' /\ 0 <= r.2 /\ (forall k, k <> key -> no_more t r.1 g g' k) /\
    (no_more t r.1 g g' key \/ stored r.1 g' key = Some (content tbl)) /\ (0 < r.2 -> stored r.1 g' key = Some (content tbl)).

Lemma put_leaves_none t g key tbl t' : tier_ok t' g -> (forall k, no_more t t' g g k) -> put_leaves t g key tbl (t', 0).
Proof. intros Hok Hm. exists g. split; [done|]. split_and!; [done|intros; apply Hm|left; apply Hm|done]. Qed.

Lemma put_locked_ok t g scratch key tbl : tier_ok t g -> fresh_scratch scratch ->
  put_leaves t g key tbl (put_locked bucket_name t scratch key tbl).
Proof.
  intros [Hw Hb] Hf. unfold put_locked.
  destruct (ensure_store_wf t g scratch Hw Hf) as (Hw1 & Hs1 & Hu1 & Hm1). set (t1 := ensure_store t scratch) in *.
  assert (d_used t1 <= d_max t1) as Hb1.
  { destruct Hm1 as [->|[He ->]]; [lia|]. destruct Hw1 as [_ W2 _ _ _]. by rewrite W2, He. }
  destruct (d_store t1) as [s0|] eqn:Es0; [|by apply put_leaves_none; [|intros k; right]].
  destruct (release_locked_wf t1 g key Hw1) as (Hw2 & Hu2 & Hm2 & Hk2 & Ho2 & Hst2). set (t2 := release_locked t1 key) in *.
  assert (forall k, k <> key -> stored t2 g k = stored t g k) as Hold by (intros k Hne; by rewrite Ho2, Hs1).
  assert (forall k, no_more t t2 g g k) as Hmore by (intros k; destruct (decide (k = key)) as [->|Hne]; [by left|right; auto]).
  destruct (d_store t2) as [s|] eqn:Es; [|apply put_leaves_none; [split; [done|lia]|done]].
  pose proof Hw2 as [W1 W2 W3 W4 W5]. rewrite Es in W5.
  assert (dget key (d_entries t2) = None) as Hfree.
  { unfold stored in Hk2. by destruct (dget key (d_entries t2)). }
  pose proof (spill_law s _ (to_batches tbl) (bucket_name key) W5 (buckets_names g _ key Hfree)) as Hsp.
  destruct (spill s (to_batches tbl) (bucket_name key)) as [s' r].
  assert (forall s'', holding s'' (buckets g (d_entries t2)) -> put_leaves t g key tbl (set_store t2 (Some s''), 0)) as Hplain.
  { intros s'' Hh. apply put_leaves_none; [|exact Hmore]. split; [split; cbn; done|cbn; lia]. }
  destruct r as [[h|]|err]; [|destruct Hsp as [Hsp _]; by apply Hplain|by apply Hplain].
  cbn. destruct (Z.ltb_spec (d_max t2) (nbytes h)) as [Hbig|Hfit]; [apply Hplain; by eapply release_law|].
  set (g' := fun k => if decide (k = key) then List.filter (fun b => negb (empty_batch b)) (to_batches tbl) else g k).
  set (e := OnDisk h (schema tbl) (num_rows tbl) (nbytes h)).
  assert (0 <= nbytes h) as Hn by (eapply holding_nbytes; [exact Hsp|left]).
  assert (forall k, k ∈ (d_entries t2).*1 -> g' k = g k) as Hg.
  { intros k Hk. unfold g'. rewrite decide_False; [done|]. intros ->. by apply dget_None in Hfree. }
  match goal with |- context [evict_tier ?t0 _] => set (t3 := t0) end.
  assert (d_entries t3 = d_entries t2 ++ [(key, e)]) as Ee by (cbn; by rewrite dset_fresh).
  assert (tier_wf t3 g') as Hw3.
  { split; cbn.
    - by apply dset_ok.
    - rewrite total_dset, Hfree, W2. cbn. lia.
    - done.
    - apply Forall_dset; [done|]. by cbn.
    - rewrite dset_fresh by done. unfold buckets. rewrite map_app. cbn. unfold g' at 2. rewrite decide_True by done.
      fold (buckets g' (d_entries t2)). rewrite (buckets_ext g g' _ Hg). eapply holding_perm; [|exact Hsp]. apply Permutation_cons_append. }
  destruct (evict_tier_ok t3 g' (d_max t2) Hw3 W3) as (E1 & E2 & E3 & E4).
  assert (dget key (d_entries (evict_tier t3 (d_max t2))) = Some e) as Hkey.
  { unfold evict_tier. destruct (d_used t3 <=? d_max t2); [rewrite Ee; apply elem_dget; [rewrite <- Ee; by destruct Hw3|]; apply elem_of_app; right; by left|].
    eapply evict_loop_last; eauto. }
  exists g'. cbn [fst snd]. rewrite Hkey. split; [split; [done|by rewrite E3]|]. split_and!; [done|intros k Hne| |].
  - destruct (E4 k) as [E|E]; [by left|right]. rewrite E. transitivity (stored t2 g k); [|by apply Hold].
    unfold stored. cbn. rewrite dget_dset, decide_False by done. unfold g'. by rewrite decide_False.
  - right. unfold stored. rewrite Hkey. cbn. unfold g'. rewrite decide_True by done. unfold content. by rewrite concat_nonempty.
  - intros _. unfold stored. rewrite Hkey. cbn. unfold g'. rewrite decide_True by done. unfold content. by rewrite concat_nonempty.
Qed.

(** What [get] returns is what the key reads back as. *)
Lemma tier_get_ok t g key : tier_ok t g ->
  tier_ok (tier_get t key).1 g /\ (forall k, no_more t (tier_get t key).1 g g k) /\
  (forall tbl, (tier_get t key).2 = Some tbl -> stored t g key = Some (content tbl) /\ stored (tier_get t key).1 g key = Some (content tbl)).
Proof.
  intros [Hw Hb]. unfold tier_get. destruct (dget key (d_entries t)) as [e|] eqn:Hk.
  2: { split_and!; [split; [by destruct Hw; split|done]|intros; by right|done]. }
  pose proof Hw as [W1 W2 W3 W4 W5]. cbn. destruct (d_store t) as [s|] eqn:Es; [|by rewrite W5 in Hk].
  pose proof (buckets_perm_pop g _ key e W1 Hk) as Hp.
  destruct (read_law s _ (bucket_name key) (o_handle e) (g key) W5) as [Hh Hr]; [rewrite Hp; left|].
  destruct (read s (o_handle e)) as [s' [bs|err]]; cbn in *.
  - specialize (Hr bs eq_refl) as ->.
    assert (dget key (dpop key (d_entries t)) = None) as Hfree by (by rewrite dget_dpop, decide_True).
    assert (forall k, stored (Tier (d_max t) (dset key e (dpop key (d_entries t))) (d_used t) (d_hits t + 1) (d_misses t) (d_evictions t) (d_writes t) (Some s')) g k = stored t g k) as Hsame.
    { intros k. unfold stored. cbn. rewrite dget_dset, dget_dpop. case_decide; [subst; by rewrite Hk|done]. }
    split_and!; [split; [split; cbn|done]| |].
    + by apply dset_ok, dpop_ok.
    + rewrite total_dset, Hfree, (total_dpop _ _ e) by done. lia.
    + done.
    + apply Forall_dset; [by apply Forall_dpop|]. rewrite Forall_forall in W4. exact (W4 _ (dget_elem _ _ _ Hk)).
    + rewrite dset_fresh by done. unfold buckets. rewrite map_app. cbn. fold (buckets g (dpop key (d_entries t))).
      eapply holding_perm; [|exact Hh]. rewrite Hp. apply Permutation_cons_append.
    + intros k. right. apply Hsame.
    + intros tbl [= <-]. split; [|etrans; [apply Hsame|]]; unfold stored; by rewrite Hk.
  - set (t1 := set_store t (Some s')). assert (tier_wf t1 g) as Hw1 by (by split).
    destruct (drop_wf t1 g key e Hw1 Hk) as [Hw2 Hu]. cbn in Hu. rewrite Forall_forall in W4. destruct (W4 _ (dget_elem _ _ _ Hk)) as [_ Hn]. cbn in Hn.
    split_and!; [split; [by destruct Hw2; split|cbn; lia]| |done].
    intros k. unfold no_more. change (stored (count_miss _) g k) with (stored (drop_locked (set_entries t1 (dpop key (d_entries t1))) e) g k).
    rewrite stored_pop. case_decide; auto.
Qed.

Lemma tier_release_ok t g key : tier_ok t g ->
  tier_ok (release_locked t key) g /\ stored (release_locked t key) g key = None /\ forall k, k <> key -> stored (release_locked t key) g k = stored t g k.
Proof. intros [Hw Hb]. destruct (release_locked_wf t g key Hw) as (R1 & R2 & R3 & R4 & R5 & _). split_and!; [split; [done|lia]|done..]. Qed.

Lemma tier_budget_ok t g n : tier_ok t g -> tier_ok (set_tier_budget t n) g /\ forall k, no_more t (set_tier_budget t n) g g k.
Proof.
  intros [Hw Hb]. unfold set_tier_budget. set (t1 := Tier _ _ _ _ _ _ _ _). assert (tier_wf t1 g) as Hw1 by (destruct Hw; split; cbn; try done; lia).
  destruct (evict_tier_ok t1 g (Z.max 0 n) Hw1 ltac:(lia)) as (E1 & E2 & E3 & E4). split; [split; [done|by rewrite E3]|exact E4].
Qed.

Lemma tier_clear_ok t g : tier_ok t g -> tier_ok (tier_clear t) g /\ forall k, stored (tier_clear t) g k = None.
Proof. intros [[] Hb]. split; [|done]. split; [split; cbn; try done; [apply dict_ok_nil]|cbn; lia]. Qed.

Lemma new_tier_ok n g : tier_ok (new_tier n) g /\ forall k, stored (new_tier n) g k = None.
Proof. split; [|done]. split; [split; cbn; try done; [apply dict_ok_nil|lia]|cbn; lia]. Qed.
End Sound.
