(* ===== verification/CacheSpill.v ===== *)
(** * The spill store serves the cache's disk tier

    The store of [SpillStore] has the interface [BucketStore] and keeps the laws [BucketLaws]
    that [CacheDisk] relies on, so the theorems of the cache hold of the cache over the spill
    store, whatever the system answers. *)

From S2P Require Import Prelude PyDict SpillStore SpillSound SpillSystem CacheDisk CacheDiskSound.

Section Instance.
Context {row : Type} `{ArrowSizes}.
Context (columns_of : list row -> list array).
Context (ipc_bytes : SpillStore.tier -> list (batch row) -> Z).

Definition to_batch (r : list row) : batch row := Batch r (columns_of r).

(** A writer object that is not in use. *)
Definition fresh_writer (w : world row) : nat := fresh (dom w.(writers) : gset nat).

#[export, refine] Instance spill_buckets : BucketStore (list row) := {
  bstore := world row;
  bhandle := handle;
  nbytes := h_nbytes;
  logical_nbytes := h_logical_nbytes;
  spill w bs name := SpillStore.spill ipc_bytes (fresh_writer w) (map to_batch bs) name w;
  read w h := let '(w', r) := SpillStore.read h w in (w', l ← r; mret (map rows l));
  release w h := (SpillStore.release h w).1;
}.
Proof. Defined.

Context (ipc_nonneg : forall t bs, 0 <= ipc_bytes t bs).

(** The buckets the tier knows are the finished ones, and no writer is open. *)
Definition spill_holding (w : world row) (l : list (string * handle * list (list row))) : Prop :=
  exists wr fin, sound (System w wr fin) /\ w.(st).(open_writers) = ∅ /\ l ≡ₚ map (fun b => (b.(b_name), b.(b_handle), map rows b.(b_batches))) fin.

Lemma rows_solids bs : map rows (solids (map to_batch bs)) = List.filter (fun b => negb (empty_batch b)) bs.
Proof.
  unfold solids. induction bs as [|[|x b] bs IH]; [done|done|].
  change (map rows (solid (to_batch (x :: b)) ++ flat_map solid (map to_batch bs)) = (x :: b) :: List.filter (fun b => negb (empty_batch b)) bs).
  by rewrite map_app, IH.
Qed.

Lemma spill_new_allowed w wr fin name : w.(st).(open_writers) = ∅ -> name ∉ map b_name fin -> allowed (New (fresh_writer w) name) (System w wr fin) = true.
Proof.
  intros Ho Hn. assert (writers w !! fresh_writer w = None) as Hf by (apply (not_elem_of_dom (D := gset nat)); exact (is_fresh (dom (writers w) : gset nat))).
  unfold allowed. rewrite Ho, bool_decide_true, elements_empty by done. cbn. rewrite andb_true_r.
  apply forallb_forall. intros b Hb. apply bool_decide_eq_true. intros E. apply Hn. rewrite <- E. apply list_elem_of_In, in_map, Hb.
Qed.

(** Reading changes nothing but the answers to come. *)
Lemma read_script h (w : world row) : exists sc, (SpillStore.read h w).1 = with_script w sc.
Proof.
  unfold SpillStore.read, bind, get_files, ask. destruct w as [s ws lf rf [|e sc]]; cbn.
  - exists []. destruct (_ !! _); [|done]. unfold verify_complete. by destruct (_ || _).
  - exists sc. destruct (_ !! _); [|done]. destruct e; try done; unfold verify_complete; by destruct (_ || _).
Qed.

Lemma sound_script w sc wr (fin : list (bucket row)) : sound (System w wr fin) -> sound (System (with_script w sc) wr fin).
Proof. intros [S1 S2 S3 S4 S5 S6]. by split. Qed.

#[export, refine] Instance spill_laws : BucketLaws (list row) empty_batch := { holding := spill_holding }.
Proof.
  - intros w l l' Hp (wr & fin & H1 & H2 & H3). exists wr, fin. by rewrite <- Hp.
  - intros w l n h bs (wr & fin & H1 & H2 & H3) Hin. rewrite H3 in Hin. apply list_elem_of_In, in_map_iff in Hin as (b & [= <- <- <-] & Hb).
    destruct H1 as [[A1 A2 A3 A4 A5 A6 A7 A8 A9 A10] _ _ _ _ _]. rewrite Forall_forall in A8. apply A8. cbn. apply list_elem_of_In, in_map, Hb.
  - intros w l bs n (wr & fin & H1 & H2 & H3) Hn. cbn [spill spill_buckets].
    assert (n ∉ map b_name fin) as Hn'.
    { intros Hin. apply Hn. rewrite H3. apply list_elem_of_In, in_map_iff in Hin as (b & <- & Hb). apply list_elem_of_fmap. eexists (_, _). split; [done|].
      apply list_elem_of_fmap. eexists (_, _, _). split; [done|]. apply list_elem_of_In, in_map_iff. eauto. }
    pose proof (spill_sound ipc_bytes ipc_nonneg (System w wr fin) (fresh_writer w) (map to_batch bs) n H1 (spill_new_allowed _ _ _ _ H2 Hn')) as Hs.
    cbn [wd finished_buckets] in Hs. destruct (SpillStore.spill ipc_bytes (fresh_writer w) (map to_batch bs) n w) as [w' [[h|]|e]]; destruct Hs as (Ho & wr' & Hs).
    + destruct Hs as [Hs _]. exists wr', (fin ++ [Bucket n h (solids (map to_batch bs))]). split_and!; [done|set_solver|]. rewrite map_app, H3. cbn.
      rewrite rows_solids. apply Permutation_cons_append.
    + destruct Hs as [He Hs]. split; [exists wr', fin; split_and!; [done|set_solver|done]|]. by rewrite <- rows_solids, He.
    + exists wr', fin. split_and!; [done|set_solver|done].
  - intros w l n h bs (wr & fin & H1 & H2 & H3) Hin. cbn [read spill_buckets]. destruct (read_script h w) as [sc Esc].
    rewrite H3 in Hin. apply list_elem_of_In, in_map_iff in Hin as (b & [= <- <- <-] & Hb). pose proof (sd_kept _ H1) as Hk. rewrite Forall_forall in Hk.
    destruct w as [s ws lf rf sc0]. destruct (read_kept s ws lf rf sc0 b) as [Hr _]; [apply Hk; by apply list_elem_of_In|]. unfold wp in Hr.
    destruct (SpillStore.read (b_handle b) (World s ws lf rf sc0)) as [w' r]. cbn in Esc, Hr |- *. split.
    + exists wr, fin. rewrite Esc. split_and!; [by apply (sound_script (World s ws lf rf sc0))|done|done].
    + intros bs'. destruct r as [l'|e]; [|done]. cbn. intros [= <-]. by rewrite (Hr l' eq_refl).
  - intros w l n h bs (wr & fin & H1 & H2 & H3). cbn [release spill_buckets].
    assert ((n, h, bs) ∈ map (fun b => (b_name b, b_handle b, map rows (b_batches b))) fin) as Hin by (rewrite <- H3; left).
    apply list_elem_of_In, in_map_iff in Hin as (b & [= <- <- <-] & Hb). apply list_elem_of_In, list_elem_of_lookup in Hb as [k Hk].
    pose proof (sound_drop ipc_bytes (System w wr fin) k H1) as Hd. unfold perform in Hd. rewrite Hk in Hd. exists wr, (delete k fin). split_and!; [done| |].
    + pose proof (sd_accounts _ H1) as Ha. destruct w as [s ws lf rf sc0].
      pose proof (wp_release (b_handle b) (map b_handle fin) (map b_handle (delete k fin)) s ws lf rf sc0 Ha) as Hr. unfold wp in Hr.
      destruct Hr as (s' & lf' & rf' & sc' & E & _ & Ho & _); [exact (Permutation_map b_handle (delete_Permutation _ _ _ Hk))|]. rewrite E. cbn in *. by rewrite Ho.
    + rewrite (delete_Permutation _ _ _ Hk) in H3. cbn in H3. by apply Permutation_cons_inv in H3.
Defined.

(** A new directory holds nothing. *)
Lemma new_world_empty dir uri budget script : spill_holding (new_world dir uri budget script) [].
Proof. exists ∅, []. split_and!; [apply sound_start|done|done]. Qed.
End Instance.
