(* ===== verification/ResultCache.v ===== *)
(** * The result cache

    carbonite/cache.py ([CacheStore]) over the disk tier of [CacheDisk], with the footprints of
    plan/types/footprint.py and the levels of plan/resource/storage.py.  An operation is a
    [task]: a sequence of atomic steps, one for each section that runs under the store's or the
    tier's lock and one for each read outside them. *)

From S2P Require Import Prelude PyDict PyFloat Tasks CacheDisk.

(** ** Storage levels and pressure *)

Inductive StorageLevel := MEMORY_ONLY | MEMORY_AND_DISK | DISK_ONLY.
#[global] Instance StorageLevel_eq_dec : EqDecision StorageLevel.
Proof. solve_decision. Defined.

Definition uses_memory (l : StorageLevel) : bool := match l with DISK_ONLY => false | _ => true end.
Definition uses_disk (l : StorageLevel) : bool := match l with MEMORY_ONLY => false | _ => true end.

Inductive PressureLevel := NORMAL | ELEVATED | SPILL | CRITICAL.
Definition pressure_value (l : PressureLevel) : Z :=
  match l with NORMAL => 0 | ELEVATED => 1 | SPILL => 2 | CRITICAL => 3 end.

(** ** Footprints *)

(** What the cache asks of an Arrow table: [nbytes], which raises on the view layouts, the size
    of the buffers it keeps alive, and a copy of its rows, which can raise. *)
Class ArrowTable (row : Type) := {
  table_nbytes : table row -> option Z;
  get_total_buffer_size : table row -> Z;
  take_all : table row -> option (table row);
}.
Class ArrowTableLaws (row : Type) `{ArrowTable row} := {
  total_buffer_size_nonneg : forall t, 0 <= get_total_buffer_size t;
  take_all_content : forall t t', take_all t = Some t' -> content t' = content t;
}.

Section Footprint.
Context {row : Type} `{ArrowTable row}.

Definition logical_bytes (t : table row) : Z :=
  match table_nbytes t with Some n => n | None => get_total_buffer_size t end.

Definition retained_bytes (t : table row) : Z := Z.max (get_total_buffer_size t) (logical_bytes t).

Definition COMPACT_RATIO : flt := flt_of_Z 4.
Definition COMPACT_FLOOR_BYTES : Z := Z.shiftl 1 20.

(** [retained < logical_bytes(table) * _COMPACT_RATIO]: an integer against a float compares by
    value. *)
Definition below_ratio (retained logical : Z) : bool :=
  match flt_mul (flt_of_Z logical) COMPACT_RATIO with
  | SpecFloat.S754_infinity s => negb s
  | SpecFloat.S754_nan => false
  | f => match int_of_flt f with Some z => if flt_le f (flt_of_Z z) then retained <? z else retained <=? z | None => false end
  end.

(** [_compacted]. *)
Definition compacted (t : table row) (retained : Z) : table row * Z :=
  if (retained <? COMPACT_FLOOR_BYTES) || below_ratio retained (logical_bytes t) then (t, retained)
  else match take_all t with
       | None => (t, retained)
       | Some compact =>
           let after := retained_bytes compact in
           if after <? retained then (compact, after) else (t, retained)
       end.
End Footprint.

(** ** The store *)

Section Store.
Context {row alive : Type} `{ArrowTable row} `{BucketStore (list row)}.
Variable bucket_name : string -> string.

(** [_Entry] and [_Demoted]. *)
Record entry := Entry {
  e_table : table row; e_keepalive : alive; e_cost : flt; e_hits : Z; e_size : Z; e_level : StorageLevel; e_base : flt }.
Record demoted := Demoted { m_keepalive : alive; m_cost : flt; m_level : StorageLevel }.

(** [1e-9]. *)
Definition NANO : flt := flt_dyadic 4835703278458517 (-82).

Definition value (e : entry) : flt :=
  flt_add e.(e_base) (flt_div (flt_mul (flt_add e.(e_cost) NANO) (flt_of_Z (e.(e_hits) + 1))) (flt_of_Z (Z.max 1 e.(e_size)))).

(** The counters of [CacheStore]. *)
Record counters := Counters { n_hits : Z; n_misses : Z; n_evictions : Z; n_demotions : Z; n_promotions : Z }.

(** [CacheStore]; [c_scratch] are the answers to the tier's requests for a directory, one for
    each write. *)
Record cache := Cache {
  c_max : Z; c_entries : list (string * entry); c_demoted : list (string * demoted); c_used : Z; c_clock : flt;
  c_counters : counters; c_disk : @tier row _; c_scratch : list (option bstore) }.

Definition new_cache (max_bytes disk_max_bytes : Z) (scratch : list (option bstore)) : cache :=
  Cache (Z.max 0 max_bytes) [] [] 0 (flt_of_Z 0) (Counters 0 0 0 0 0) (new_tier disk_max_bytes) scratch.

(** What a call returns. *)
Inductive answer := Nothing | Miss | Hit (t : table row) | Freed (n : Z) | Failed (e : string).

Definition set_memory (c : cache) (es : list (string * entry)) (ds : list (string * demoted)) (used : Z) : cache :=
  Cache c.(c_max) es ds used c.(c_clock) c.(c_counters) c.(c_disk) c.(c_scratch).
Definition set_disk (c : cache) (t : tier) : cache :=
  Cache c.(c_max) c.(c_entries) c.(c_demoted) c.(c_used) c.(c_clock) c.(c_counters) t c.(c_scratch).
Definition count (c : cache) (f : counters -> counters) : cache :=
  Cache c.(c_max) c.(c_entries) c.(c_demoted) c.(c_used) c.(c_clock) (f c.(c_counters)) c.(c_disk) c.(c_scratch).
Definition hit (n : counters) : counters := Counters (n.(n_hits) + 1) n.(n_misses) n.(n_evictions) n.(n_demotions) n.(n_promotions).
Definition miss (n : counters) : counters := Counters n.(n_hits) (n.(n_misses) + 1) n.(n_evictions) n.(n_demotions) n.(n_promotions).
Definition evicted (k : Z) (n : counters) : counters := Counters n.(n_hits) n.(n_misses) (n.(n_evictions) + k) n.(n_demotions) n.(n_promotions).
Definition demotion (n : counters) : counters := Counters n.(n_hits) n.(n_misses) n.(n_evictions) (n.(n_demotions) + 1) n.(n_promotions).
Definition promotion (n : counters) : counters := Counters n.(n_hits) n.(n_misses) n.(n_evictions) n.(n_demotions) (n.(n_promotions) + 1).

(** *** Under the lock *)

(** [_evict_to]. *)
Definition by_value (a b : string * entry) : bool := flt_lt (value a.2) (value b.2).

Fixpoint evict_victims (target : Z) (victims : list (string * entry)) (c : cache) : cache * list (string * entry) :=
  match victims with
  | [] => (c, [])
  | (key, e) :: victims' =>
      if c.(c_used) <=? target then (c, [])
      else
        let c := set_memory c (dpop key c.(c_entries)) c.(c_demoted) (c.(c_used) - e.(e_size)) in
        let c := count c (evicted 1) in
        let c := Cache c.(c_max) c.(c_entries) c.(c_demoted) c.(c_used) (value e) c.(c_counters) c.(c_disk) c.(c_scratch) in
        let '(c, l) := evict_victims target victims' c in (c, (key, e) :: l)
  end.
Definition evict_to (target : Z) (c : cache) : cache * list (string * entry) :=
  if (c.(c_used) <=? target) || match c.(c_entries) with [] => true | _ => false end then (c, [])
  else evict_victims target (py_sorted by_value c.(c_entries)) c.

(** [_forget]. *)
Definition forget (key : string) (c : cache) : cache :=
  let used := match dget key c.(c_entries) with Some e => c.(c_used) - e.(e_size) | None => c.(c_used) end in
  set_memory c (dpop key c.(c_entries)) (dpop key c.(c_demoted)) used.

(** [_promote]. *)
Definition promote (key : string) (t : table row) (d : demoted) (c : cache) : cache * (bool * list (string * entry)) :=
  let size := retained_bytes t in
  if (c.(c_max) =? 0) || (c.(c_max) <? size) then (c, (false, []))
  else
    let e := Entry t d.(m_keepalive) d.(m_cost) 1 size d.(m_level) c.(c_clock) in
    let c := set_memory c (dset key e c.(c_entries)) (dpop key c.(c_demoted)) (c.(c_used) + size) in
    let '(c, victims) := evict_to c.(c_max) (count c promotion) in
    (c, (dmem key c.(c_entries), victims)).

(** [get], first section: an answer, or [None] when the key is to be read from the tier. *)
Definition get_memory (key : string) (c : cache) : cache * option answer :=
  match dget key c.(c_entries) with
  | Some e =>
      let e := Entry e.(e_table) e.(e_keepalive) e.(e_cost) (e.(e_hits) + 1) e.(e_size) e.(e_level) c.(c_clock) in
      (count (set_memory c (dset key e c.(c_entries)) c.(c_demoted) c.(c_used)) hit, Some (Hit e.(e_table)))
  | None => if dmem key c.(c_demoted) then (c, None) else (count c miss, Some Miss)
  end.

(** [get], last section: an answer, or the residence and the victims of a promotion. *)
Definition get_finish (key : string) (found : option (table row)) (c : cache) : cache * (answer * option (bool * list (string * entry))) :=
  match found, dget key c.(c_demoted) with
  | Some t, Some d =>
      let c := count c hit in
      if negb (uses_memory d.(m_level)) then (c, (Hit t, None))
      else let '(c, r) := promote key t d c in (c, (Hit t, Some r))
  | _, _ => (count (set_memory c c.(c_entries) (dpop key c.(c_demoted)) c.(c_used)) miss, (Miss, None))
  end.

(** [put], the section that admits an entry. *)
Definition put_memory (key : string) (t : table row) (ka : alive) (cost : flt) (level : StorageLevel) (size : Z) (c : cache) :
    cache * list (string * entry) :=
  let c := forget key c in
  let e := Entry t ka cost 0 size level c.(c_clock) in
  let c := set_memory c (dset key e c.(c_entries)) c.(c_demoted) (c.(c_used) + size) in
  evict_to c.(c_max) c.

(** [_write_through], the section after a write. *)
Definition through_commit (key : string) (ka : alive) (cost : flt) (level : StorageLevel) (c : cache) : cache * unit :=
  let c := forget key c in
  (set_memory c c.(c_entries) (dset key (Demoted ka cost level) c.(c_demoted)) c.(c_used), tt).

(** [_demote], the section after a write. *)
Definition demote_commit (key : string) (e : entry) (c : cache) : cache * unit :=
  if dmem key c.(c_entries) then (set_disk c (release_locked c.(c_disk) key), tt)
  else (count (set_memory c c.(c_entries) (dset key (Demoted e.(e_keepalive) e.(e_cost) e.(e_level)) c.(c_demoted)) c.(c_used)) demotion, tt).

(** *** On the tier *)

Definition tier_put_guard (t : table row) (c : cache) : cache * bool := (c, put_guard c.(c_disk) t).

(** [DiskCacheTier.put] under its lock, with the next answer for a directory. *)
Definition tier_put_locked (key : string) (t : table row) (c : cache) : cache * Z :=
  let '(d, n) := put_locked bucket_name c.(c_disk) (mjoin (head c.(c_scratch))) key t in
  (Cache c.(c_max) c.(c_entries) c.(c_demoted) c.(c_used) c.(c_clock) c.(c_counters) d (tail c.(c_scratch)), n).

Definition tier_read (key : string) (c : cache) : cache * option (table row) :=
  let '(d, r) := tier_get c.(c_disk) key in (set_disk c d, r).

Definition tier_release (key : string) (c : cache) : cache * unit := (set_disk c (release_locked c.(c_disk) key), tt).

(** *** The operations *)

(** [DiskCacheTier.put], and what follows with the bytes it returns. *)
Definition tier_put (key : string) (t : table row) (k : Z -> task cache answer) : task cache answer :=
  atomic (tier_put_guard t) (fun stop => if stop then k 0 else atomic (tier_put_locked key t) k).

(** [_demote]. *)
Fixpoint demote (victims : list (string * entry)) (k : task cache answer) : task cache answer :=
  match victims with
  | [] => k
  | (key, e) :: victims' =>
      atomic (fun c => (c, enabled c.(c_disk))) (fun on =>
        if negb (uses_disk e.(e_level)) || negb on then demote victims' k
        else atomic (fun c => (c, dmem key c.(c_entries))) (fun superseded =>
          if (superseded : bool) then demote victims' k
          else tier_put key e.(e_table) (fun n =>
            if n <=? 0 then demote victims' k
            else atomic (demote_commit key e) (fun _ => demote victims' k))))
  end.

(** [_write_through]. *)
Definition write_through (key : string) (t : table row) (ka : alive) (cost : flt) (level : StorageLevel) : task cache answer :=
  tier_put key t (fun n => if n <=? 0 then Done Nothing else atomic (through_commit key ka cost level) (fun _ => Done Nothing)).

(** [get]. *)
Definition cache_get (key : string) : task cache answer :=
  atomic (get_memory key) (fun r =>
    match r with
    | Some a => Done a
    | None =>
        atomic (tier_read key) (fun found =>
          atomic (get_finish key found) (fun r =>
            match r with
            | (a, None) => Done a
            | (a, Some (resident, victims)) =>
                demote victims (if (resident : bool) then atomic (tier_release key) (fun _ => Done a) else Done a)
            end))
    end).

(** [put]. *)
Definition cache_put (key : string) (t : table row) (ka : alive) (cost : flt) (level : StorageLevel) : task cache answer :=
  let '(t, size) := compacted t (retained_bytes t) in
  atomic (fun c => (c, c.(c_max))) (fun m =>
    if negb (uses_memory level) || (m =? 0) || (m <? size)
    then if uses_disk level then write_through key t ka cost level else Done Nothing
    else atomic (put_memory key t ka cost level size) (fun victims => demote victims (Done Nothing))).

(** [invalidate]. *)
Definition cache_invalidate (key : string) : task cache answer :=
  atomic (fun c => (forget key c, tt)) (fun _ => atomic (tier_release key) (fun _ => Done Nothing)).

(** [clear]. *)
Definition clear_memory (c : cache) : cache * unit :=
  (Cache c.(c_max) [] [] 0 (flt_of_Z 0) (evicted (Z.of_nat (length c.(c_entries))) c.(c_counters)) c.(c_disk) c.(c_scratch), tt).
Definition cache_clear : task cache answer :=
  atomic clear_memory (fun _ => atomic (fun c => (set_disk c (tier_clear c.(c_disk)), tt)) (fun _ => Done Nothing)).

(** [set_budget]. *)
Definition resize (max_bytes : Z) (c : cache) : cache * list (string * entry) :=
  let m := Z.max 0 max_bytes in
  evict_to m (Cache m c.(c_entries) c.(c_demoted) c.(c_used) c.(c_clock) c.(c_counters) c.(c_disk) c.(c_scratch)).
Definition set_budget (max_bytes : Z) (disk_max_bytes : option Z) : task cache answer :=
  atomic (resize max_bytes) (fun victims =>
    demote victims
      match disk_max_bytes with
      | None => Done Nothing
      | Some n => atomic (fun c => (set_disk c (set_tier_budget c.(c_disk) n), tt)) (fun _ => Done Nothing)
      end).

(** [result_cache], on a store that exists: the reconciliation with the configured budgets. *)
Definition reconcile (budget disk_budget : Z) : task cache answer :=
  atomic (fun c => (c, (c.(c_max), c.(c_disk).(d_max)))) (fun ms =>
    if negb (ms.1 =? budget) || negb (ms.2 =? disk_budget) then set_budget budget (Some disk_budget) else Done Nothing).

(** [evict_to_free]. *)
Definition free_memory (n : Z) (c : cache) : cache * (Z * list (string * entry)) :=
  let '(c', victims) := evict_to (Z.max 0 (c.(c_used) - n)) c in (c', (c.(c_used) - c'.(c_used), victims)).
Definition evict_to_free (n : Z) : task cache answer :=
  if n <=? 0 then Done (Freed 0)
  else atomic (free_memory n) (fun r => demote r.2 (Done (Freed r.1))).

(** [on_pressure]; [_PRESSURE_RETAIN] holds 0.75 and 0.5. *)
Definition PRESSURE_RETAIN (l : PressureLevel) : option flt :=
  match l with ELEVATED => Some (flt_dyadic 3 (-2)) | SPILL => Some (flt_dyadic 1 (-1)) | _ => None end.

(** [int(self._max_bytes * retain)]; a budget past the doubles raises. *)
Definition retained_target (max_bytes : Z) (retain : flt) : option Z :=
  match flt_of_Z max_bytes with
  | SpecFloat.S754_infinity _ => None
  | f => int_of_flt (flt_mul f retain)
  end.
Definition trim (retain : flt) (c : cache) : cache * option (list (string * entry)) :=
  match retained_target c.(c_max) retain with
  | None => (c, None)
  | Some target => let '(c, victims) := evict_to target c in (c, Some victims)
  end.
Definition on_pressure (level : PressureLevel) : task cache answer :=
  if pressure_value CRITICAL <=? pressure_value level then cache_clear
  else
    let retain := PRESSURE_RETAIN (if pressure_value SPILL <=? pressure_value level then SPILL else ELEVATED) in
    match retain with
    | Some retain =>
        if pressure_value level <? pressure_value ELEVATED then Done Nothing
        else atomic (trim retain) (fun r =>
          match r with Some victims => demote victims (Done Nothing) | None => Done (Failed "OverflowError") end)
    | None => Done Nothing
    end.

(** [__len__] and [__contains__]. *)
Definition cache_len (c : cache) : Z := Z.of_nat (length c.(c_entries)) + Z.of_nat (length c.(c_demoted)).
Definition cache_contains (key : string) (c : cache) : bool := dmem key c.(c_entries) || dmem key c.(c_demoted).

(** The calls a caller can make. *)
Inductive call :=
  | CGet (key : string)
  | CPut (key : string) (t : table row) (ka : alive) (cost : flt) (level : StorageLevel)
  | CInvalidate (key : string)
  | CClear
  | CSetBudget (max_bytes : Z) (disk_max_bytes : option Z)
  | CReconcile (budget disk_budget : Z)
  | CFree (n : Z)
  | CPressure (level : PressureLevel).

Definition call_task (o : call) : task cache answer :=
  match o with
  | CGet key => cache_get key
  | CPut key t ka cost level => cache_put key t ka cost level
  | CInvalidate key => cache_invalidate key
  | CClear => cache_clear
  | CSetBudget m d => set_budget m d
  | CReconcile m d => reconcile m d
  | CFree n => evict_to_free n
  | CPressure l => on_pressure l
  end.
End Store.
