(* ===== verification/ResultCacheSound.v ===== *)
(** * Correctness of the result cache's sections

    The invariant of the memory side, what each section under the lock does to it, and the
    choice of victims. *)

From S2P Require Import Prelude Tasks PyDict PyFloat CacheDisk CacheDiskSound ResultCache.

(** ** Tasks *)

Section Tasks.
Context {S R : Type} (I : S -> Prop).

(** Every step of the task keeps [I], whatever happens between its steps, and its answer
    satisfies [Q]. *)
Fixpoint safe (Q : R -> Prop) (t : task S R) : Prop :=
  match t with
  | Done r => Q r
  | Step f => forall s, I s -> match f s with (s', t') => I s' /\ safe Q t' end
  end.

Lemma safe_atomic {A} Q (f : S -> S * A) k : (forall s, I s -> I (f s).1 /\ safe Q (k (f s).2)) -> safe Q (atomic f k).
Proof. intros H s Hs. specialize (H s Hs). by destruct (f s). Qed.

(** An interleaving of safe tasks. *)
Lemma schedule_safe Qs turns : forall s ts, I s -> Forall2 safe Qs ts ->
  I (schedule s ts turns).1 /\ Forall2 safe Qs (schedule s ts turns).2.
Proof.
  induction turns as [|i turns IH]; intros s ts Hs Ht; cbn; [done|]. unfold step_one.
  destruct (ts !! i) as [[r|f]|] eqn:Ei; [by apply IH| |by apply IH].
  destruct (Forall2_lookup_r _ _ _ _ _ Ht Ei) as (Q & EQ & Hsafe). specialize (Hsafe s Hs).
  destruct (f s) as [s' t']. destruct Hsafe as [Hs' Ht']. apply IH; [done|].
  rewrite <- (list_insert_id Qs i Q EQ). by apply Forall2_insert.
Qed.
End Tasks.
#[global] Arguments safe {S R} I Q t : simpl never.

(** ** Dictionaries up to order *)

Lemma dpop_perm {A} (d : list (string * A)) k v l : dict_ok d -> d ≡ₚ (k, v) :: l -> dpop k d ≡ₚ l.
Proof.
  intros Hd Hp. apply NoDup_Permutation.
  - apply (NoDup_fmap_1 fst), dpop_ok, Hd.
  - assert (NoDup ((k, v) :: l)) as Hn by (rewrite <- Hp; by apply (NoDup_fmap_1 fst)). by apply NoDup_cons in Hn as [].
  - intros [j w]. rewrite elem_of_dpop, Hp, elem_of_cons. cbn. split; [|intros Hin; split; [by right|]].
    + intros [[[= -> ->]|Hin] Hne]; done.
    + intros ->. unfold dict_ok in Hd. rewrite Hp in Hd. cbn in Hd. apply NoDup_cons in Hd as [Hn _]. apply Hn.
      apply list_elem_of_fmap. by exists (k, w).
Qed.

Lemma total_perm {A} (f : A -> Z) (d d' : list (string * A)) : d ≡ₚ d' -> total f d = total f d'.
Proof. induction 1; cbn; lia. Qed.

Lemma dict_ok_perm {A} (d d' : list (string * A)) : d ≡ₚ d' -> dict_ok d -> dict_ok d'.
Proof. intros Hp. unfold dict_ok. by rewrite Hp. Qed.

Lemma dget_perm {A} (d d' : list (string * A)) k : dict_ok d -> d ≡ₚ d' -> dget k d = dget k d'.
Proof.
  intros Hd Hp. pose proof (dict_ok_perm _ _ Hp Hd) as Hd'. destruct (dget k d) as [v|] eqn:E.
  - symmetry. apply elem_dget; [done|]. rewrite <- Hp. by apply dget_elem.
  - symmetry. apply dget_None. rewrite <- Hp. by apply dget_None.
Qed.

Lemma dget_app {A} (d d' : list (string * A)) k : dget k (d ++ d') = match dget k d with Some v => Some v | None => dget k d' end.
Proof. induction d as [|[j w] d IH]; cbn; [done|]. by case_decide. Qed.

Lemma dmem_true {A} (d : list (string * A)) k : dmem k d = true <-> is_Some (dget k d).
Proof. unfold dmem. destruct (dget k d); split; [intros _; eauto|done|done|by intros []]. Qed.

Lemma dmem_false {A} (d : list (string * A)) k : dmem k d = false <-> dget k d = None.
Proof. unfold dmem. by destruct (dget k d). Qed.

Section Sound.
Context {row alive : Type} `{ArrowTable row, !ArrowTableLaws row} `{BucketStore (list row), !BucketLaws (list row) empty_batch}.
Local Abbreviation cache := (@cache row alive _).
Local Abbreviation entry := (@entry row alive).
Implicit Types (c : cache) (e : entry).

(** ** The memory side *)

Record mem_wf (c : cache) : Prop := {
  mw_entries : dict_ok c.(c_entries);
  mw_demoted : dict_ok c.(c_demoted);
  mw_apart : forall k, is_Some (dget k c.(c_entries)) -> dget k c.(c_demoted) = None;
  mw_used : c.(c_used) = total e_size c.(c_entries);
  mw_sizes : Forall (fun ke => 0 <= ke.2.(e_size)) c.(c_entries);
  mw_max : 0 <= c.(c_max);
}.
Definition mem_ok (c : cache) : Prop := mem_wf c /\ c.(c_used) <= c.(c_max).

Lemma mem_ok_same c c' : c'.(c_entries) = c.(c_entries) -> c'.(c_demoted) = c.(c_demoted) -> c'.(c_used) = c.(c_used) ->
  c'.(c_max) = c.(c_max) -> mem_ok c -> mem_ok c'.
Proof. intros E1 E2 E3 E4 [[] Hb]. split; [split|]; by rewrite ?E1, ?E2, ?E3, ?E4. Qed.

(** What a section of the memory side leaves alone. *)
Record same_rest (c c' : cache) : Prop := { sr_max : c'.(c_max) = c.(c_max); sr_disk : c'.(c_disk) = c.(c_disk); sr_scratch : c'.(c_scratch) = c.(c_scratch) }.

(** [vs] are evicted from [es], which leaves the entries of [c']. *)
Record evicts (es : list (string * entry)) (c' : cache) (vs : list (string * entry)) : Prop := {
  ev_keys : NoDup vs.*1;
  ev_gone : forall k e, (k, e) ∈ vs -> dget k es = Some e /\ dget k c'.(c_entries) = None;
  ev_kept : forall k, k ∉ vs.*1 -> dget k c'.(c_entries) = dget k es;
}.

(** The loop takes the shortest prefix that reaches the target. *)
Lemma evict_victims_spec target : 0 <= target -> forall victims c, mem_wf c -> c.(c_entries) ≡ₚ victims ->
  exists rest, victims = (evict_victims target victims c).2 ++ rest /\ (evict_victims target victims c).1.(c_entries) ≡ₚ rest /\
    mem_wf (evict_victims target victims c).1 /\ (evict_victims target victims c).1.(c_used) <= target /\
    (forall l x, (evict_victims target victims c).2 = l ++ [x] -> target < total e_size (x :: rest)) /\
    (evict_victims target victims c).1.(c_demoted) = c.(c_demoted) /\ same_rest c (evict_victims target victims c).1.
Proof.
  intros Ht0. induction victims as [|[k e] victims IH]; intros c Hw Hp; pose proof Hw as [W1 W2 W3 W4 W5 W6]; cbn.
  - exists []. apply Permutation_nil_r in Hp. rewrite W4, Hp. split_and!; try done. intros [|? ?] ? ?; done.
  - destruct (Z.leb_spec (c_used c) target) as [Hu|Hu]; [exists ((k, e) :: victims); split_and!; try done; intros [|? ?] ? ?; done|].
    match goal with |- context [evict_victims target victims ?c2] => set (c1 := c2) end.
    assert (dget k (c_entries c) = Some e) as Hk by (apply elem_dget; [done|rewrite Hp; left]).
    assert (mem_wf c1) as Hw1.
    { split; cbn; [by apply dpop_ok|done| | |by apply Forall_dpop|done].
      - intros j. rewrite dget_dpop. case_decide; [by intros []|apply W3].
      - rewrite (total_dpop _ _ e) by done. lia. }
    destruct (IH c1 Hw1) as (rest & I1 & I2 & I3 & I4 & I5 & I6 & I7); [cbn; by apply dpop_perm with e|].
    destruct (evict_victims target victims c1) as [c2 l]. cbn in *. exists rest. split_and!; [by rewrite I1|done|done|done| |done|by destruct I7].
    intros [|y l'] x E; injection E as <- E; [|by apply (I5 l')]. subst l. cbn in I1. subst rest.
    rewrite W4, (total_perm _ _ _ Hp) in Hu. exact Hu.
Qed.

Lemma evict_to_spec target c : 0 <= target -> mem_wf c ->
  exists rest, py_sorted by_value c.(c_entries) = (evict_to target c).2 ++ rest /\ (evict_to target c).1.(c_entries) ≡ₚ rest /\
    mem_wf (evict_to target c).1 /\ (evict_to target c).1.(c_used) <= target /\
    (forall l x, (evict_to target c).2 = l ++ [x] -> target < total e_size (x :: rest)) /\
    (evict_to target c).1.(c_demoted) = c.(c_demoted) /\ same_rest c (evict_to target c).1.
Proof.
  intros Ht0 Hw. unfold evict_to. destruct (_ || _) eqn:E; [|apply evict_victims_spec; [done|done|symmetry; apply py_sorted_perm]].
  exists (py_sorted by_value (c_entries c)). split_and!; try done; [symmetry; apply py_sorted_perm| |by intros [|? ?] ? ?].
  apply orb_true_iff in E as [E|E]; [cbn; lia|]. cbn. destruct Hw as [_ _ _ W4 _ _]. rewrite W4. by destruct (c_entries c).
Qed.

Lemma evict_to_ok target c : 0 <= target -> mem_wf c ->
  mem_wf (evict_to target c).1 /\ (evict_to target c).1.(c_used) <= target /\ evicts c.(c_entries) (evict_to target c).1 (evict_to target c).2 /\
  (evict_to target c).1.(c_demoted) = c.(c_demoted) /\ same_rest c (evict_to target c).1.
Proof.
  intros Ht0 Hw. destruct (evict_to_spec target c Ht0 Hw) as (rest & E1 & E2 & E3 & E4 & _ & E6 & E7). split_and!; try done.
  pose proof Hw as [W1 _ _ _ _ _]. pose proof (py_sorted_perm by_value (c_entries c)) as Hp. rewrite E1 in Hp.
  pose proof (dict_ok_perm _ _ (symmetry Hp) W1) as Hd. destruct (evict_to target c) as [c' vs]. cbn in *.
  pose proof E3 as [D1 _ _ _ _ _]. pose proof Hd as Hd0. unfold dict_ok in Hd0. rewrite fmap_app in Hd0. apply NoDup_app in Hd0 as (N1 & N2 & N3).
  assert (forall k, dget k (c_entries c) = dget k (vs ++ rest)) as Hg by (intros; by apply dget_perm).
  split; [done| |].
  - intros k e Hin. rewrite Hg. split; [apply elem_dget; [done|apply elem_of_app; by left]|].
    rewrite (dget_perm _ rest) by done. apply dget_None. apply N2, list_elem_of_fmap. by exists (k, e).
  - intros k Hk. rewrite Hg, dget_app, (dget_perm _ rest) by done. by apply dget_None in Hk as ->.
Qed.

Lemma forget_wf key c : mem_wf c -> mem_wf (forget key c) /\ (forget key c).(c_used) <= c.(c_used).
Proof.
  intros [W1 W2 W3 W4 W5 W6]. unfold forget. destruct (dget key (c_entries c)) as [e|] eqn:Hk; cbn.
  - rewrite Forall_forall in W5. pose proof (W5 _ (dget_elem _ _ _ Hk)) as Hn. cbn in Hn. rewrite <- Forall_forall in W5. split; [|lia].
    split; cbn; [by apply dpop_ok|by apply dpop_ok| | |by apply Forall_dpop|done].
    + intros k. rewrite !dget_dpop. case_decide; [done|apply W3].
    + rewrite (total_dpop _ _ e) by done. lia.
  - rewrite dpop_fresh by done. split; [|done]. split; cbn; try done; [by apply dpop_ok|].
    intros k Hs. rewrite dget_dpop. case_decide; [done|by apply W3].
Qed.

(** An entry admitted under a key in neither dictionary, then an eviction to the budget. *)
Lemma admit_ok key e c : mem_wf c -> dget key c.(c_entries) = None -> dget key c.(c_demoted) = None -> 0 <= e.(e_size) ->
  mem_wf (set_memory c (dset key e c.(c_entries)) c.(c_demoted) (c.(c_used) + e.(e_size))).
Proof.
  intros [W1 W2 W3 W4 W5 W6] He Hd Hs. split; cbn; [by apply dset_ok|done| | |by apply Forall_dset|done].
  - intros k. rewrite dget_dset. case_decide; [by subst|apply W3].
  - rewrite total_dset, He, W4. lia.
Qed.

Lemma set_used_ok c : mem_wf c -> evicts c.(c_entries) (evict_to c.(c_max) c).1 (evict_to c.(c_max) c).2 /\
  mem_ok (evict_to c.(c_max) c).1 /\ (evict_to c.(c_max) c).1.(c_demoted) = c.(c_demoted) /\ same_rest c (evict_to c.(c_max) c).1.
Proof.
  intros Hw. pose proof Hw as [_ _ _ _ _ W6]. destruct (evict_to_ok (c_max c) c W6 Hw) as (E1 & E2 & E3 & E4 & E5).
  split_and!; try done. split; [done|]. by rewrite (sr_max _ _ E5).
Qed.

Lemma put_memory_ok key t ka cost level size c : mem_ok c -> 0 <= size ->
  mem_ok (put_memory key t ka cost level size c).1 /\
  evicts (dset key (Entry t ka cost 0 size level c.(c_clock)) (dpop key c.(c_entries)))
    (put_memory key t ka cost level size c).1 (put_memory key t ka cost level size c).2 /\
  (put_memory key t ka cost level size c).1.(c_demoted) = dpop key c.(c_demoted) /\ same_rest c (put_memory key t ka cost level size c).1.
Proof.
  intros [Hw Hb] Hs. unfold put_memory. destruct (forget_wf key c Hw) as [Hf _].
  set (e := Entry t ka cost 0 size level _). set (c1 := set_memory _ _ _ _).
  assert (mem_wf c1) as Hw1 by (apply (admit_ok key e); [done|cbn; by rewrite dget_dpop, decide_True..|done]).
  destruct (set_used_ok c1 Hw1) as (S1 & S2 & S3 & S4). split_and!; [done|done|done|]. by destruct S4; split.
Qed.

Lemma promote_ok key t d c : mem_ok c -> dget key c.(c_demoted) = Some d ->
  promote key t d c = (c, (false, [])) \/
  exists c' vs, promote key t d c = (c', (dmem key c'.(c_entries), vs)) /\ mem_ok c' /\
    evicts (dset key (Entry t d.(m_keepalive) d.(m_cost) 1 (retained_bytes t) d.(m_level) c.(c_clock)) c.(c_entries)) c' vs /\
    c'.(c_demoted) = dpop key c.(c_demoted) /\ same_rest c c'.
Proof.
  intros [Hw Hb] Hd. unfold promote. destruct (_ || _); [by left|right].
  set (e := Entry t _ _ _ _ _ _). set (c1 := count _ _).
  assert (dget key (c_entries c) = None) as He.
  { destruct (dget key (c_entries c)) eqn:E; [|done]. destruct Hw as [_ _ W3 _ _ _]. by rewrite W3 in Hd by (by rewrite E). }
  assert (mem_wf c1) as Hw1.
  { destruct (admit_ok key e (set_memory c (c_entries c) (dpop key (c_demoted c)) (c_used c))); [|done|cbn; by rewrite dget_dpop, decide_True| |by split].
    - destruct Hw as [W1 W2 W3 W4 W5 W6]. split; cbn; try done; [by apply dpop_ok|]. intros k Hk. rewrite dget_dpop. case_decide; [done|by apply W3].
    - cbn. unfold retained_bytes. pose proof (total_buffer_size_nonneg t). lia. }
  destruct (set_used_ok c1 Hw1) as (S1 & S2 & S3 & S4). change (c_max (set_memory c (dset key e (c_entries c)) (dpop key (c_demoted c)) (c_used c + retained_bytes t))) with (c_max c1).
  destruct (evict_to (c_max c1) c1) as [c' vs]. cbn in *. exists c', vs. split_and!; try done. by destruct S4; split.
Qed.

Lemma compacted_ok (t : table row) : content (compacted t (retained_bytes t)).1 = content t /\ 0 <= (compacted t (retained_bytes t)).2.
Proof.
  assert (forall u : table row, 0 <= retained_bytes u) as Hr by (intros u; unfold retained_bytes; pose proof (total_buffer_size_nonneg u); lia).
  unfold compacted. destruct (_ || _); [by split; [|apply Hr]|]. destruct (take_all t) as [u|] eqn:Eu; [|by split; [|apply Hr]]. destruct (retained_bytes u <? retained_bytes t); [|by split; [|apply Hr]]. split; [exact (take_all_content _ _ Eu)|apply Hr].
Qed.
End Sound.
