(* ===== verification/ResultCacheSystem.v ===== *)
(** * The result cache under any interleaving, and alone

    Callers whose sections interleave in any order keep the accounts, the budgets and the two
    tiers apart, and never see a result that was not put under their key.  A caller alone sees
    a map that only forgets ([spec_step]). *)

From S2P Require Import Prelude Tasks PyDict PyFloat CacheDisk CacheDiskSound ResultCache ResultCacheSound.

Section System.
Context {row alive : Type} `{ArrowTable row, !ArrowTableLaws row} `{BucketStore (list row), !BucketLaws (list row) empty_batch}.
Context (bucket_name : string -> string) `{!Inj (=) (=) bucket_name}.
Local Abbreviation cache := (@cache row alive _).
Local Abbreviation entry := (@entry row alive).
Local Abbreviation call := (@call row alive).
Local Abbreviation call_task := (@call_task row alive _ _ bucket_name).
Implicit Types (c : cache) (e : entry).
#[local] Arguments dpop : simpl never.

Definition cache_ok (g : string -> list (list row)) c : Prop :=
  mem_ok c /\ tier_ok bucket_name c.(c_disk) g /\ Forall fresh_scratch c.(c_scratch).

(** ** Interleavings *)

Section Interleaving.
(** What may be cached under a key. *)
Context (P : string -> string * list row -> Prop).

Definition held (es : list (string * entry)) : Prop := forall k e, dget k es = Some e -> P k (content e.(e_table)).

Definition Inv c : Prop := exists g, cache_ok g c /\ held c.(c_entries) /\ forall k x, stored c.(c_disk) g k = Some x -> P k x.

(** A section on the memory side. *)
Lemma inv_memory c c' : Inv c -> mem_ok c' -> c'.(c_disk) = c.(c_disk) -> c'.(c_scratch) = c.(c_scratch) -> held c'.(c_entries) -> Inv c'.
Proof. intros (g & (H1 & H2 & H3) & H4 & H5) Hm Hd Hs Hh. exists g. unfold cache_ok. rewrite Hd, Hs. done. Qed.

(** A section on the tier. *)
Lemma inv_tier c d : Inv c ->
  (forall g, tier_ok bucket_name c.(c_disk) g -> exists g', tier_ok bucket_name d g' /\
     forall k, no_more c.(c_disk) d g g' k \/ exists x, stored d g' k = Some x /\ P k x) -> Inv (set_disk c d).
Proof.
  intros (g & (H1 & H2 & H3) & H4 & H5) Hd. destruct (Hd g H2) as (g' & D1 & D2). exists g'. split; [split; [by apply (mem_ok_same c)|done]|]. split; [done|].
  intros k x Hx. change (stored d g' k = Some x) in Hx. destruct (D2 k) as [[E|E]|(y & E & Hy)]; rewrite Hx in E; [done|symmetry in E; by apply H5|by injection E as ->].
Qed.

Lemma inv_counters c f : Inv c -> Inv (count c f).
Proof. intros Hc. eapply inv_memory; [exact Hc| |done..|]; destruct Hc as (g & (H1 & _) & H4 & _); [by apply (mem_ok_same c)|done]. Qed.

Lemma held_pop k es : held es -> held (dpop k es).
Proof. intros Hh j e. rewrite dget_dpop. case_decide; [done|apply Hh]. Qed.

Lemma held_set k e es : held es -> P k (content e.(e_table)) -> held (dset k e es).
Proof. intros Hh He j e'. rewrite dget_dset. case_decide as E; [intros [= <-]; by subst|apply Hh]. Qed.

(** What an eviction keeps and what it hands over. *)
Lemma held_evicts es c vs : evicts es c vs -> held es -> held c.(c_entries) /\ Forall (fun ke => P ke.1 (content ke.2.(e_table))) vs.
Proof.
  intros [E1 E2 E3] Hh. split.
  - intros k e Hk. apply Hh. destruct (decide (k ∈ vs.*1)) as [Hin|Hin]; [|by rewrite <- E3].
    apply list_elem_of_fmap in Hin as ([k' e'] & -> & Hin). destruct (E2 _ _ Hin) as [_ Hn]. cbn in Hk. by rewrite Hk in Hn.
  - apply Forall_forall. intros [k e] Hin. apply Hh. by apply E2.
Qed.

Lemma safe_tier_put Q key t k : P key (content t) -> (forall n, safe Inv Q (k n)) -> safe Inv Q (tier_put bucket_name key t k).
Proof.
  intros Ht Hk. apply safe_atomic. intros c Hc. split; [done|]. cbn. destruct (put_guard (c_disk c) t); [apply Hk|].
  apply safe_atomic. clear c Hc. intros c Hc. split; [|apply Hk]. unfold tier_put_locked.
  assert (fresh_scratch (mjoin (head (c_scratch c)))) as Hf.
  { destruct Hc as (g & (_ & _ & H3) & _). destruct H3 as [|[s|] l Hs Hl]; cbn; try done. }
  destruct (put_locked bucket_name (c_disk c) _ key t) as [d n] eqn:Ed. cbn.
  assert (Inv (set_disk c d)) as (g & (H1 & H2 & H3) & H4 & H5).
  { apply inv_tier; [done|]. intros g Hg. destruct (put_locked_ok _ (c_disk c) g _ key t Hg Hf) as (g' & T1 & T2 & T3 & T4 & T5).
    rewrite Ed in *. exists g'. split; [done|]. intros j. destruct (decide (j = key)) as [->|Hne]; [|left; by apply T3].
    destruct T4 as [T4|T4]; [by left|right; eauto]. }
  exists g. split; [|done]. split; [by apply (mem_ok_same (set_disk c d))|]. split; [done|]. change (Forall fresh_scratch (tail (c_scratch c))). change (Forall fresh_scratch (c_scratch c)) in H3. by destruct H3.
Qed.

Lemma safe_demote Q vs k : Forall (fun ke => P ke.1 (content ke.2.(e_table))) vs -> safe Inv Q k -> safe Inv Q (demote bucket_name vs k).
Proof.
  intros Hvs Hk. induction Hvs as [|[key e] vs He Hvs IH]; cbn [demote]; [done|]. apply safe_atomic. intros c Hc. split; [done|].
  destruct (_ || _); [done|]. apply safe_atomic. clear c Hc. intros c Hc. split; [done|]. cbn. destruct (dmem key (c_entries c)); [done|].
  apply safe_tier_put; [done|]. intros n. destruct (n <=? 0); [done|]. apply safe_atomic. clear c Hc. intros c Hc. split; [|done].
  unfold demote_commit. destruct (dmem key (c_entries c)) eqn:Em; cbn.
  - apply inv_tier; [done|]. intros g Hg. exists g. destruct (tier_release_ok _ _ _ key Hg) as (R1 & R2 & R3). split; [done|].
    intros j. left. destruct (decide (j = key)) as [->|Hne]; [by left|right; auto].
  - apply inv_counters. eapply inv_memory; [exact Hc| |done..|]; destruct Hc as (g & (([W1 W2 W3 W4 W5 W6] & Hb) & _) & Hh & _); [|done].
    split; [|done]. apply dmem_false in Em. split; cbn; try done; [by apply dset_ok|]. intros j Hj. rewrite dget_dset. case_decide; [|by apply W3].
    subst j. by rewrite Em in Hj; destruct Hj.
Qed.

Lemma safe_get key : safe Inv (fun a => forall t, a = Hit t -> P key (content t)) (cache_get bucket_name key).
Proof.
  apply safe_atomic. intros c Hc. unfold get_memory. destruct (dget key (c_entries c)) as [e|] eqn:He; cbn.
  - assert (P key (content (e_table e))) as HP by (destruct Hc as (g & _ & Hh & _); by apply Hh).
    split; [|intros t [= <-]; done]. apply inv_counters. eapply inv_memory; [exact Hc| |done..|]; destruct Hc as (g & (([W1 W2 W3 W4 W5 W6] & Hb) & _) & Hh & _).
    + split; [|done]. split; cbn; [by apply dset_ok|done| | |apply Forall_dset; [done|]|done].
      * intros j. rewrite dget_dset. case_decide; [subst; intros _; apply W3; by rewrite He|apply W3].
      * rewrite total_dset, He. cbn. lia.
      * rewrite Forall_forall in W5. exact (W5 _ (dget_elem _ _ _ He)).
    + by apply held_set.
  - destruct (dmem key (c_demoted c)); cbn; [split; [done|]|split; [by apply inv_counters|done]].
    apply safe_atomic. clear c Hc He. intros c Hc. unfold tier_read. destruct (tier_get (c_disk c) key) as [d found] eqn:Et. cbn.
    assert (forall t, found = Some t -> P key (content t)) as Hf.
    { intros t ->. destruct Hc as (g & (_ & Hg & _) & _ & Hs). destruct (tier_get_ok _ _ _ key Hg) as (_ & _ & T3). rewrite Et in T3.
      destruct (T3 t eq_refl) as [T4 _]. by apply Hs. }
    split.
    { apply inv_tier; [done|]. intros g Hg. exists g. destruct (tier_get_ok _ _ _ key Hg) as (T1 & T2 & _). rewrite Et in *. split; [done|]. intros j. left. apply T2. }
    apply safe_atomic. clear c Hc d Et. intros c Hc. unfold get_finish.
    assert (Inv (count (set_memory c (c_entries c) (dpop key (c_demoted c)) (c_used c)) miss)) as Hmiss.
    { apply inv_counters. eapply inv_memory; [exact Hc| |done..|]; destruct Hc as (g & (([W1 W2 W3 W4 W5 W6] & Hb) & _) & Hh & _); [|done].
      split; [|done]. split; cbn; try done; [by apply dpop_ok|]. intros j Hj. rewrite dget_dpop. case_decide; [done|by apply W3]. }
    destruct found as [t|]; [|done]. specialize (Hf t eq_refl). destruct (dget key (c_demoted c)) as [d|] eqn:Hd; [|done].
    destruct (negb (uses_memory (m_level d))); cbn; [split; [by apply inv_counters|by intros u [= <-]]|].
    assert (forall b, safe Inv (fun a => forall t0, a = Hit t0 -> P key (content t0)) (if (b : bool) then atomic (tier_release key) (fun _ => Done (Hit t)) else Done (Hit t))) as Hlast.
    { intros [|]; [|by intros u [= <-]]. apply safe_atomic. clear c Hc Hmiss Hd. intros c Hc. split; [|by intros u [= <-]].
      apply inv_tier; [done|]. intros g Hg. exists g. destruct (tier_release_ok _ _ _ key Hg) as (R1 & R2 & R3). split; [done|].
      intros j. left. destruct (decide (j = key)) as [->|Hne]; [by left|right; auto]. }
    assert (Inv (count c hit)) as Hc' by (by apply inv_counters). pose proof Hc' as (g & (Hm & _) & Hh & _).
    destruct (promote_ok key t d (count c hit) Hm Hd) as [E|(c' & vs & E & Hm' & Hev & _ & Hr)]; rewrite E; cbn; (split; [|]).
    + done.
    + apply (Hlast false).
    + destruct Hr. destruct (held_evicts _ _ _ Hev) as [Hh' _]; [by apply held_set|]. eapply inv_memory; eauto.
    + apply safe_demote; [|apply Hlast]. destruct (held_evicts _ _ _ Hev) as [_ Hv]; [by apply held_set|done].
Qed.

(** A section that evicts. *)
Lemma inv_evict c target : Inv c -> 0 <= target ->
  Inv (fst (evict_to (Z.min target (c_max c)) c)) /\ Forall (fun ke => P ke.1 (content ke.2.(e_table))) (snd (evict_to (Z.min target (c_max c)) c)).
Proof.
  intros Hc Ht. pose proof Hc as (g & (([] & Hb) & _) & Hh & _). destruct (evict_to_ok (Z.min target (c_max c)) c) as (E1 & E2 & E3 & _ & [R1 R2 R3]); [lia|by split|].
  destruct (held_evicts _ _ _ E3 Hh) as [Hh' Hv]. split; [|done]. eapply inv_memory; eauto. split; [done|]. rewrite R1. lia.
Qed.

Lemma safe_clear : safe Inv (fun _ => True) (@cache_clear row alive _).
Proof.
  apply safe_atomic. intros c Hc. split.
  - eapply inv_memory; [exact Hc| |done..|by intros k e]. destruct Hc as (g & (([] & Hb) & _) & _).
    split; [split; cbn; try done; try apply dict_ok_nil; by intros k []|cbn; lia].
  - apply safe_atomic. clear c Hc. intros c Hc. split; [|done]. apply inv_tier; [done|]. intros g Hg. exists g. destruct (tier_clear_ok _ _ _ Hg). split; [done|]. intros k. left. by left.
Qed.

Lemma safe_set_budget m d : safe Inv (fun _ => True) (@set_budget row alive _ bucket_name m d).
Proof.
  apply safe_atomic. intros c Hc. unfold resize. set (c1 := Cache _ _ _ _ _ _ _ _).
  pose proof Hc as (g & (([W1 W2 W3 W4 W5 W6] & Hb) & _) & Hh & _).
  destruct (evict_to_ok (Z.max 0 m) c1) as (E1 & E2 & E3 & _ & [R1 R2 R3]); [lia|split; cbn; (done || lia)|].
  destruct (held_evicts _ _ _ E3 Hh) as [Hh' Hv]. split; [eapply inv_memory; eauto; split; [done|]; by rewrite R1|].
  apply safe_demote; [done|]. destruct d as [n|]; [|done]. apply safe_atomic. intros c' Hc'. split; [|done].
  apply inv_tier; [done|]. intros g' Hg'. exists g'. destruct (tier_budget_ok _ _ _ n Hg') as [B1 B2]. split; [done|]. intros k. left. apply B2.
Qed.

Lemma safe_evicting {A} (f : cache -> cache * A) (k : A -> task cache (@answer row)) (vs : A -> list (string * entry)) :
  (forall c, Inv c -> (f c).1 = c /\ vs (f c).2 = [] \/
     exists target, 0 <= target <= c.(c_max) /\ (f c).1 = (evict_to target c).1 /\ vs (f c).2 = (evict_to target c).2) ->
  (forall a, Forall (fun ke => P ke.1 (content ke.2.(e_table))) (vs a) -> safe Inv (fun _ => True) (k a)) ->
  safe Inv (fun _ => True) (atomic f k).
Proof.
  intros Hf Hk. apply safe_atomic. intros c Hc. destruct (Hf c Hc) as [[E1 E2]|(target & [T1 T2] & E1 & E2)].
  - rewrite E1. split; [done|]. apply Hk. rewrite E2. constructor.
  - destruct (inv_evict c target Hc T1) as [I1 I2]. rewrite Z.min_l in I1, I2 by done. rewrite E1. split; [done|]. apply Hk. by rewrite E2.
Qed.

Lemma evict_to_small target c : c.(c_used) <= target -> evict_to target c = (c, []).
Proof. intros Hu. unfold evict_to. by rewrite (proj2 (Z.leb_le _ _) Hu). Qed.

Lemma safe_trimming {A} (f : cache -> cache * A) (k : A -> task cache (@answer row)) (vs : A -> list (string * entry)) :
  (forall c, Inv c -> (f c).1 = c /\ vs (f c).2 = [] \/
     exists target, 0 <= target /\ (f c).1 = (evict_to target c).1 /\ vs (f c).2 = (evict_to target c).2) ->
  (forall a, Forall (fun ke => P ke.1 (content ke.2.(e_table))) (vs a) -> safe Inv (fun _ => True) (k a)) ->
  safe Inv (fun _ => True) (atomic f k).
Proof.
  intros Hf Hk. apply safe_evicting with vs; [|done]. intros c Hc. destruct (Hf c Hc) as [E|(target & T & E1 & E2)]; [by left|].
  destruct (Z.leb_spec target (c_max c)); [right; by exists target|left]. rewrite evict_to_small in E1, E2; [done|..];
    destruct Hc as (g & ((_ & Hb) & _) & _); lia.
Qed.

(** What a call may be answered. *)
Definition answer_ok (o : call) (a : @answer row) : Prop := match o with CGet key => forall t, a = Hit t -> P key (content t) | _ => True end.

Lemma safe_call o : (forall key t ka cost level, o = CPut key t ka cost level -> P key (content t)) -> safe Inv (answer_ok o) (call_task o).
Proof.
  intros Ho. destruct o as [key|key t ka cost level|key| |m d|m d|n|l]; cbn [ResultCache.call_task answer_ok].
  - apply safe_get.
  - specialize (Ho _ _ _ _ _ eq_refl). destruct (compacted_ok t) as [Ht Hs]. unfold cache_put. destruct (compacted t (retained_bytes t)) as [u size]. cbn in Ht, Hs.
    rewrite <- Ht in Ho. apply safe_atomic. intros c Hc. split; [done|]. cbn.
    destruct (_ || _).
    + destruct (uses_disk level); [|done]. apply safe_tier_put; [done|]. intros n. destruct (n <=? 0); [done|]. apply safe_atomic. clear c Hc. intros c Hc. split; [|done].
      eapply inv_memory; [exact Hc| |done..|]; destruct Hc as (g & ((Hw & Hb) & _) & Hh & _); [|by apply held_pop].
      destruct (forget_wf key c Hw) as [[W1 W2 W3 W4 W5 W6] Hu]. split; [|cbn in *; lia]. split; cbn in *; try done; [by apply dset_ok|].
      intros j Hj. rewrite dget_dset. case_decide; [|by apply W3]. subst j. rewrite dget_dpop, decide_True in Hj by done. by destruct Hj.
    + apply safe_atomic. clear c Hc. intros c Hc. pose proof Hc as (g & (Hm & _) & Hh & _). destruct (put_memory_ok key u ka cost level size c Hm Hs) as (M1 & M2 & _ & [R1 R2 R3]).
      destruct (held_evicts _ _ _ M2) as [Hh' Hv]; [by apply held_set; [apply held_pop|]|]. split; [by eapply inv_memory|]. by apply safe_demote.
  - apply safe_atomic. intros c Hc. split.
    + eapply inv_memory; [exact Hc| |done..|]; destruct Hc as (g & ((Hw & Hb) & _) & Hh & _); [|by apply held_pop].
      destruct (forget_wf key c Hw) as [Hw' Hu]. split; [done|cbn in *; lia].
    + apply safe_atomic. clear c Hc. intros c Hc. split; [|done]. apply inv_tier; [done|]. intros g Hg. exists g. destruct (tier_release_ok _ _ _ key Hg) as (R1 & R2 & R3). split; [done|].
      intros j. left. destruct (decide (j = key)) as [->|Hne]; [by left|right; auto].
  - apply safe_clear.
  - apply safe_set_budget.
  - apply safe_atomic. intros c Hc. split; [done|]. destruct (_ || _); [apply safe_set_budget|done].
  - unfold evict_to_free. destruct (n <=? 0); [done|]. apply safe_trimming with snd; [|intros a Ha; by apply safe_demote].
    intros c Hc. right. exists (Z.max 0 (c_used c - n)). unfold free_memory. destruct (evict_to _ c). split_and!; [lia|done|done].
  - unfold on_pressure. destruct (_ <=? _); [apply safe_clear|]. destruct (PRESSURE_RETAIN _) as [retain|] eqn:Er; [|done]. destruct (_ <? _); [done|].
    assert (unsigned retain = true) as Hu by (destruct l; by injection Er as <-).
    apply safe_trimming with (fun r => default [] r); [|intros [vs|] Ha; [by apply safe_demote|done]].
    intros c Hc. unfold trim, retained_target. pose proof Hc as (g & (([_ _ _ _ _ Hm] & _) & _) & _ & _).
    pose proof (flt_mul_unsigned _ _ (flt_of_Z_unsigned _ Hm) Hu) as Hf.
    destruct (flt_of_Z (c_max c)) eqn:Ef; [|by left| |]; (destruct (int_of_flt _) as [target|] eqn:Et; [right; exists target|by left]); cbn in Et;
      (destruct (evict_to target c); split_and!; [by eapply int_of_flt_nonneg|done|done]).
Qed.
End Interleaving.
(** ** A caller alone *)

(** What [key] would be answered. *)
Definition visible (g : string -> list (list row)) c (key : string) : option (string * list row) :=
  match dget key c.(c_entries) with
  | Some e => Some (content e.(e_table))
  | None => if dmem key c.(c_demoted) then stored c.(c_disk) g key else None
  end.

(** The abstract store: a budget and what each key is known as. *)
Record spec := Spec { budget : Z; known : string -> option (string * list row) }.

Definition forgets (m m' : string -> option (string * list row)) (key : string) : Prop := m' key = None \/ m' key = m key.

(** A result [put] does not admit to memory. *)
Definition refused (budget : Z) (t : table row) (level : StorageLevel) : bool :=
  negb (uses_memory level) || (budget =? 0) || (budget <? (compacted t (retained_bytes t)).2).

(** What a call may do: answer a key with what it is known as, or forget.  A result put is known
    from then on, or forgotten at once; only one that memory refuses may leave an older one. *)
Definition spec_step (o : call) (a : @answer row) (s s' : spec) : Prop :=
  match o with
  | CGet key =>
      s'.(budget) = s.(budget) /\ (forall k, forgets s.(known) s'.(known) k) /\
      match a with Hit t => s.(known) key = Some (content t) | Miss => s'.(known) key = None | _ => False end
  | CPut key t _ _ level =>
      s'.(budget) = s.(budget) /\ a = Nothing /\ (forall k, k <> key -> forgets s.(known) s'.(known) k) /\
      (s'.(known) key = None \/ s'.(known) key = Some (content t) \/
       refused s.(budget) t level = true /\ s'.(known) key = s.(known) key)
  | CInvalidate key =>
      s'.(budget) = s.(budget) /\ a = Nothing /\ s'.(known) key = None /\ forall k, k <> key -> s'.(known) k = s.(known) k
  | CClear => s'.(budget) = s.(budget) /\ a = Nothing /\ forall k, s'.(known) k = None
  | CSetBudget m _ | CReconcile m _ => s'.(budget) = Z.max 0 m /\ a = Nothing /\ forall k, forgets s.(known) s'.(known) k
  | CFree n => s'.(budget) = s.(budget) /\ (exists f, a = Freed f /\ 0 <= f) /\ forall k, forgets s.(known) s'.(known) k
  | CPressure l =>
      s'.(budget) = s.(budget) /\ (forall k, forgets s.(known) s'.(known) k) /\
      match l with CRITICAL => forall k, s'.(known) k = None | _ => True end
  end.

Inductive spec_run : list call -> list (@answer row) -> spec -> spec -> Prop :=
  | SpecNil s : spec_run [] [] s s
  | SpecCons o os a l s s' s'' : spec_step o a s s' -> spec_run os l s' s'' -> spec_run (o :: os) (a :: l) s s''.

(** Calls one after another. *)
Fixpoint run_calls c (os : list call) : cache * list (@answer row) :=
  match os with
  | [] => (c, [])
  | o :: os' => let '(c', a) := run_task (call_task o) c in let '(c'', l) := run_calls c' os' in (c'', a :: l)
  end.

(** The memory side is left as it was. *)
Record same_memory c c' : Prop := {
  sm_entries : c'.(c_entries) = c.(c_entries); sm_used : c'.(c_used) = c.(c_used); sm_max : c'.(c_max) = c.(c_max) }.

Lemma run_tier_put g key t k c : cache_ok g c ->
  exists g' c' n, run_task (tier_put bucket_name key t k) c = run_task (k n) c' /\ cache_ok g' c' /\ same_memory c c' /\
    c'.(c_demoted) = c.(c_demoted) /\ 0 <= n /\ (forall j, j <> key -> forgets (visible g c) (visible g' c') j) /\
    (forgets (visible g c) (visible g' c') key \/ visible g' c' key = Some (content t)) /\
    (0 < n -> stored c'.(c_disk) g' key = Some (content t)).
Proof.
  intros (Hm & Hd & Hs). unfold tier_put. rewrite run_atomic. cbn. destruct (put_guard (c_disk c) t).
  { exists g, c, 0. split_and!; try done; [intros j _; by right|left; by right]. }
  change (let (s', t') := let '(s', a) := tier_put_locked bucket_name key t c in (s', k a) in run_task t' s')
    with (run_task (atomic (tier_put_locked bucket_name key t) k) c). rewrite run_atomic. unfold tier_put_locked.
  assert (fresh_scratch (mjoin (head (c_scratch c)))) as Hf by (destruct Hs as [|[s|] l Hs Hl]; done).
  destruct (put_locked_ok _ (c_disk c) g _ key t Hd Hf) as (g' & T1 & T2 & T3 & T4 & T5).
  destruct (put_locked bucket_name (c_disk c) _ key t) as [d n]. cbn in T2, T5 |- *. eexists g', _, n. split; [done|].
  split; [split; [by apply (mem_ok_same c)|split; [done|cbn; by destruct Hs]]|]. split_and!; try done.
  - intros j Hne. unfold forgets, visible. cbn. destruct (dget j (c_entries c)); [by right|]. destruct (dmem j (c_demoted c)); [|by right].
    by destruct (T3 j Hne); [left|right].
  - unfold forgets, visible. cbn. destruct (dget key (c_entries c)); [left; by right|]. destruct (dmem key (c_demoted c)); [|left; by right].
    by destruct T4 as [[E|E]|E]; [left; left|left; right|right].
Qed.

Lemma forgets_trans m1 m2 m3 k : forgets m1 m2 k -> forgets m2 m3 k -> forgets m1 m3 k.
Proof. intros [E|E] [E'|E']; [by left|left; by rewrite E'|by left|right; by rewrite E']. Qed.

(** Demotion: a victim becomes known as what it was, or stays forgotten. *)
Lemma run_demote k vs : forall g c, cache_ok g c -> NoDup vs.*1 ->
  (forall key e, (key, e) ∈ vs -> dget key c.(c_entries) = None /\ dget key c.(c_demoted) = None) ->
  exists g' c', run_task (demote bucket_name vs k) c = run_task k c' /\ cache_ok g' c' /\ same_memory c c' /\
    forall j, forgets (visible g c) (visible g' c') j \/ exists e, (j, e) ∈ vs /\ visible g' c' j = Some (content e.(e_table)).
Proof.
  induction vs as [|[key e] vs IH]; intros g c Hc Hn Hv; [exists g, c; split_and!; try done; intros j; left; by right|].
  cbn in Hn. apply NoDup_cons in Hn as [Hk Hn]. destruct (Hv key e) as [He Hd]; [left|].
  assert (forall g1 c1, cache_ok g1 c1 -> same_memory c c1 -> (forall j, j <> key -> dget j (c_demoted c1) = dget j (c_demoted c)) ->
    (forall j, forgets (visible g c) (visible g1 c1) j \/ j = key /\ visible g1 c1 j = Some (content (e_table e))) ->
    exists g' c', run_task (demote bucket_name vs k) c1 = run_task k c' /\ cache_ok g' c' /\ same_memory c c' /\
      forall j, forgets (visible g c) (visible g' c') j \/ exists e0, (j, e0) ∈ (key, e) :: vs /\ visible g' c' j = Some (content (e_table e0))) as Hgo.
  { intros g1 c1 Hc1 [S1 S2 S3] Hd1 Hf. destruct (IH g1 c1 Hc1 Hn) as (g' & c' & I1 & I2 & [T1 T2 T3] & I4).
    - intros j e' Hin. rewrite S1, Hd1; [by apply (Hv j e'); right|]. intros ->. apply Hk, list_elem_of_fmap. by exists (key, e').
    - exists g', c'. split_and!; [done|done|split; congruence|]. intros j. destruct (I4 j) as [E|(e' & Hin & E)]; [|right; exists e'; split; [by right|done]].
      destruct (Hf j) as [F|[-> F]]; [left; by eapply forgets_trans|]. destruct E as [E|E]; [left; by left|right]. exists e. split; [left|by rewrite E]. }
  assert (forall j, forgets (visible g c) (visible g c) j \/ j = key /\ visible g c j = Some (content (e_table e))) as Hid by (intros j; left; by right).
  assert (same_memory c c) as Hsame by done.
  cbn [demote]. rewrite run_atomic. cbn [fst snd]. destruct (_ || _); [by apply Hgo with g|].
  rewrite run_atomic. cbn [fst snd]. rewrite (proj2 (dmem_false _ _) He).
  match goal with |- context [tier_put bucket_name key _ ?k0] => destruct (run_tier_put g key (e_table e) k0 c Hc) as (g1 & c1 & n & -> & P2 & P3 & P4 & P5 & P6 & P7 & P8) end.
  assert (forall j, forgets (visible g c) (visible g1 c1) j) as Hf.
  { intros j. destruct (decide (j = key)) as [->|Hne]; [|by apply P6]. left. unfold visible. rewrite (sm_entries _ _ P3), P4, He.
    by rewrite (proj2 (dmem_false _ _) Hd). }
  destruct (Z.leb_spec n 0); [apply Hgo with g1; [done|done|intros; by rewrite P4|intros j; left; apply Hf]|].
  rewrite run_atomic. unfold demote_commit. rewrite (sm_entries _ _ P3), (proj2 (dmem_false _ _) He). cbn [fst snd].
  destruct P3 as [S1 S2 S3]. destruct P2 as (([W1 W2 W3 W4 W5 W6] & Hb) & Q2 & Q3). rewrite S1 in *. apply Hgo with g1.
  - split; [|done]. split; [|done]. split; cbn; try done; [by apply dset_ok|].
    intros j Hj. rewrite dget_dset. case_decide; [subst j; by rewrite He in Hj; destruct Hj|by apply W3].
  - by split.
  - intros j Hne. cbn. by rewrite dget_dset, decide_False, P4.
  - intros j. destruct (decide (j = key)) as [->|Hne].
    + right. split; [done|]. unfold visible. cbn. rewrite He. unfold dmem. rewrite dget_dset, decide_True by done. apply P8. lia.
    + left. specialize (Hf j). unfold forgets, visible in *. cbn. unfold dmem in *. rewrite dget_dset, decide_False by done. by rewrite S1 in Hf.
Qed.

(** An eviction from [es] and the demotion of its victims only forget. *)
Lemma run_evicted g es k vs c : cache_ok g c -> evicts es c vs -> (forall j, is_Some (dget j es) -> dget j c.(c_demoted) = None) ->
  exists g' c', run_task (demote bucket_name vs k) c = run_task k c' /\ cache_ok g' c' /\ same_memory c c' /\
    forall j, forgets (visible g (set_memory c es c.(c_demoted) c.(c_used))) (visible g' c') j.
Proof.
  intros Hc [E1 E2 E3] Hd. destruct (run_demote k vs g c Hc E1) as (g' & c' & R1 & R2 & R3 & R4).
  { intros key e Hin. destruct (E2 _ _ Hin) as [F1 F2]. split; [done|]. apply Hd. by rewrite F1. }
  exists g', c'. split_and!; [done|apply R2..|done|]. intros j. destruct (R4 j) as [[F|F]|(e & Hin & F)]; [by left| |].
  - destruct (decide (j ∈ vs.*1)) as [Hin|Hin].
    + apply list_elem_of_fmap in Hin as ([j' e] & -> & Hin). destruct (E2 _ _ Hin) as [F1 F2]. left. rewrite F. unfold visible. cbn.
      rewrite F2. unfold dmem. by rewrite Hd by (by rewrite F1).
    + right. rewrite F. unfold visible. cbn. by rewrite E3.
  - right. rewrite F. unfold visible. cbn. by rewrite (proj1 (E2 _ _ Hin)).
Qed.

Lemma visible_release g c key j : tier_ok bucket_name c.(c_disk) g -> j <> key \/ dget key c.(c_demoted) = None ->
  visible g (set_disk c (release_locked c.(c_disk) key)) j = visible g c j.
Proof.
  intros Ht Hj. destruct (tier_release_ok _ _ _ key Ht) as (_ & _ & R3). unfold visible. cbn.
  destruct (dget j (c_entries c)); [done|]. destruct (decide (j = key)) as [->|Hne]; [|by rewrite R3].
  destruct Hj as [|Hj]; [done|]. unfold dmem. by rewrite Hj.
Qed.

Lemma cache_ok_disk g g' c d : cache_ok g c -> tier_ok bucket_name d g' -> cache_ok g' (set_disk c d).
Proof. intros (Hm & _ & Hs) Hd. split; [by apply (mem_ok_same c)|done]. Qed.

Definition call_refines g c (o : call) (r : cache * @answer row) : Prop :=
  exists g', cache_ok g' r.1 /\ spec_step o r.2 (Spec c.(c_max) (visible g c)) (Spec r.1.(c_max) (visible g' r.1)).

Lemma put_refines g c key t ka cost level : cache_ok g c -> call_refines g c (CPut key t ka cost level) (run_task (cache_put bucket_name key t ka cost level) c).
Proof.
  intros Hc. pose proof Hc as (Hm & Hd & Hs). unfold call_refines, spec_step, refused. cbn [budget known]. unfold cache_put. destruct (compacted_ok t) as [Ht Hz].
  destruct (compacted t (retained_bytes t)) as [u size]. cbn [fst snd] in *. rewrite run_atomic. cbn [fst snd].
  destruct (_ || _) eqn:Er.
  - destruct (uses_disk level); [|exists g; split_and!; try done; [intros; by right|right; by right]]. unfold write_through.
    match goal with |- context [tier_put bucket_name key u ?k0] => destruct (run_tier_put g key u k0 c Hc) as (g1 & c1 & n & -> & P2 & P3 & P4 & P5 & P6 & P7 & P8) end.
    destruct (Z.leb_spec n 0).
    { exists g1. cbn. split; [done|]. rewrite (sm_max _ _ P3). split_and!; try done. destruct P7 as [[E|E]|E]; [by left|right; by right|right; left; by rewrite E, Ht]. }
    rewrite run_atomic. cbn [run_task fst snd]. exists g1. destruct P2 as ((Hw & Hb) & Q2 & Q3). destruct P3 as [S1 S2 S3]. unfold through_commit. cbn [fst snd].
    destruct (forget_wf key c1 Hw) as [[W1 W2 W3 W4 W5 W6] Hu]. split; [|split_and!; try done].
    + split; [|done]. split; [|cbn in *; lia]. split; cbn in *; try done; [by apply dset_ok|].
      intros j Hj. rewrite dget_dset. case_decide; [|by apply W3]. subst j. rewrite dget_dpop, decide_True in Hj by done. by destruct Hj.
    + intros j Hne. specialize (P6 j Hne). unfold forgets, visible, dmem in *. cbn. by rewrite dget_dset, !dget_dpop, !decide_False.
    + right. left. unfold visible, dmem. cbn. rewrite dget_dset, dget_dpop, !decide_True by done. rewrite <- Ht. apply P8. lia.
  - rewrite run_atomic. destruct (put_memory_ok key u ka cost level size c Hm Hz) as (M1 & M2 & M3 & [R1 R2 R3]).
    destruct (put_memory key u ka cost level size c) as [c1 vs]. cbn [fst snd] in *.
    assert (cache_ok g c1) as Hc1 by (split; [done|by rewrite R2, R3]).
    destruct (run_evicted g _ (Done Nothing) vs c1 Hc1 M2) as (g' & c' & -> & C1 & C2 & C3).
    { intros j. rewrite M3, dget_dset, !dget_dpop. case_decide; [done|]. intros Hj. destruct Hm as [[_ _ W3 _ _ _] _]. by apply W3. }
    exists g'. cbn. split; [done|]. rewrite (sm_max _ _ C2), R1. split_and!; try done.
    + intros j Hne. specialize (C3 j). unfold forgets, visible, dmem in *. cbn in C3. rewrite dget_dset, decide_False, dget_dpop, decide_False in C3 by done.
      by rewrite M3, dget_dpop, decide_False, R2 in C3.
    + destruct (C3 key) as [E|E]; [by left|right; left]. rewrite E. unfold visible. cbn. rewrite dget_dset, decide_True by done. cbn. by rewrite Ht.
Qed.

Lemma get_refines g c key : cache_ok g c -> call_refines g c (CGet key) (run_task (cache_get bucket_name key) c).
Proof.
  intros Hc. pose proof Hc as ((Hw & Hb) & Hd & Hs). pose proof Hw as [W1 W2 W3 W4 W5 W6]. unfold call_refines, spec_step. cbn [budget known]. unfold cache_get. rewrite run_atomic.
  unfold get_memory. destruct (dget key (c_entries c)) as [e|] eqn:He; cbn [fst snd].
  { cbn [run_task fst snd]. exists g. split.
    - split; [|done]. split; [|done]. split; cbn; [by apply dset_ok|done| | |apply Forall_dset; [done|]|done].
      + intros j. rewrite dget_dset. case_decide; [subst; intros _; apply W3; by rewrite He|apply W3].
      + rewrite total_dset, He. cbn. lia.
      + rewrite Forall_forall in W5. exact (W5 _ (dget_elem _ _ _ He)).
    - split_and!; [done| |unfold visible; by rewrite He]. intros j. right. unfold visible. cbn. rewrite dget_dset. case_decide; [subst; by rewrite He|done]. }
  destruct (dmem key (c_demoted c)) eqn:Em; cbn [fst snd].
  2: { cbn [run_task fst snd]. exists g. split; [split; [by apply (mem_ok_same c)|done]|]. split_and!; [done|intros; by right|]. unfold visible. cbn. by rewrite He, Em. }
  rewrite run_atomic. unfold tier_read. destruct (tier_get_ok _ _ _ key Hd) as (T1 & T2 & T3). destruct (tier_get (c_disk c) key) as [d found]. cbn [fst snd] in *.
  rewrite run_atomic. set (c1 := set_disk c d). pose proof (cache_ok_disk g g c d Hc T1) as Hc1. fold c1 in Hc1.
  assert (forall j, forgets (visible g c) (visible g c1) j) as F1.
  { intros j. unfold forgets, visible. cbn. destruct (dget j (c_entries c)); [by right|]. destruct (dmem j (c_demoted c)); [apply T2|by right]. }
  apply dmem_true in Em as [m Em]. unfold get_finish. replace (dget key (c_demoted c1)) with (Some m) by done.
  destruct found as [t|]; cbn [fst snd].
  2: { cbn [run_task fst snd]. exists g. split; [|split_and!; [done| |]].
    - split; [|done]. split; [|done]. split; cbn; try done; [by apply dpop_ok|]. intros j Hj. rewrite dget_dpop. case_decide; [done|by apply W3].
    - intros j. eapply forgets_trans; [apply F1|]. unfold forgets, visible, dmem. cbn. destruct (dget j (c_entries c)); [by right|]. rewrite dget_dpop. case_decide; auto.
    - unfold visible, dmem. cbn. by rewrite He, dget_dpop, decide_True. }
  destruct (T3 t eq_refl) as [T4 T5]. assert (visible g c key = Some (content t)) as Hv by (unfold visible, dmem; by rewrite He, Em).
  destruct (negb (uses_memory (m_level m))); [exists g; cbn [run_task fst snd]; split; [split; [by apply (mem_ok_same c)|done]|split_and!; [done|exact F1|done]]|].
  assert (mem_ok (count c1 hit)) as Hm2 by (by apply (mem_ok_same c)).
  destruct (promote_ok key t m (count c1 hit) Hm2 Em) as [E|(c2 & vs & E & Hm' & Hev & Hdm & [R1 R2 R3])]; rewrite E; cbn [fst snd].
  { cbn [demote run_task fst snd]. exists g. split; [done|]. split_and!; [done|exact F1|done]. }
  assert (cache_ok g c2) as Hc2 by (split; [done|by rewrite R2, R3]).
  match goal with |- context [demote bucket_name vs ?k0] => destruct (run_evicted g _ k0 vs c2 Hc2 Hev) as (g' & c' & -> & C1 & C2 & C3) end.
  { intros j. rewrite Hdm, dget_dset, dget_dpop. case_decide; [done|]. cbn. apply W3. }
  assert (c_max c' = c_max c) as Hmax by (by rewrite (sm_max _ _ C2), R1).
  assert (forall j, forgets (visible g c) (visible g' c') j) as F2.
  { intros j. destruct (C3 j) as [E'|E']; [by left|]. unfold visible, dmem in E'. cbn in E'. rewrite Hdm, R2, dget_dset, dget_dpop in E'. cbn in E'. case_decide as Ej.
    - subst j. right. by rewrite Hv.
    - destruct (F1 j) as [E1|E1]; unfold visible, dmem in E1; cbn in E1; [left|right]; unfold visible, dmem; rewrite E'; exact E1. }
  destruct (dmem key (c_entries c2)) eqn:Er; [|cbn [run_task fst snd]; exists g'; split; [done|split_and!; [done|exact F2|done]]].
  rewrite run_atomic. cbn [run_task fst snd tier_release]. exists g'. pose proof C1 as (_ & D1 & _). destruct (tier_release_ok _ _ _ key D1) as (D2 & _).
  split; [by eapply cache_ok_disk|]. split_and!; [done| |done]. intros j. eapply forgets_trans; [apply F2|]. right. apply visible_release; [done|]. right.
  destruct C1 as (([_ _ V3 _ _ _] & _) & _). apply V3. rewrite (sm_entries _ _ C2). by apply dmem_true.
Qed.

(** A section that evicts to a target within the budget. *)
Lemma evict_refines g c c0 target k : cache_ok g c -> 0 <= target -> c0.(c_entries) = c.(c_entries) -> c0.(c_demoted) = c.(c_demoted) ->
  c0.(c_used) = c.(c_used) -> c0.(c_disk) = c.(c_disk) -> c0.(c_scratch) = c.(c_scratch) -> c0.(c_max) = c.(c_max) \/ target = c0.(c_max) ->
  exists g' c', run_task (demote bucket_name (evict_to target c0).2 k) (evict_to target c0).1 = run_task k c' /\ cache_ok g' c' /\ c'.(c_max) = c0.(c_max) /\
    c'.(c_used) <= c.(c_used) /\ forall j, forgets (visible g c) (visible g' c') j.
Proof.
  intros ((Hw & Hb) & Hd & Hs) Ht E1 E2 E3 E4 E5 E6.
  assert (mem_wf c0) as Hw0.
  { destruct Hw as [W1 W2 W3 W4 W5 W6]. split; rewrite ?E1, ?E2, ?E3; try done. by destruct E6 as [->| <-]. }
  destruct (evict_to_ok target c0 Ht Hw0) as (V1 & V2 & V3 & V4 & [R1 R2 R3]).
  assert (c_used (evict_to target c0).1 <= c_used c) as Hu.
  { destruct (Z.leb_spec (c_used c0) target) as [Hle|Hle]; [rewrite evict_to_small by done; cbn; lia|lia]. }
  assert (cache_ok g (evict_to target c0).1) as Hc1.
  { split; [|by rewrite R2, R3, E4, E5]. split; [done|]. rewrite R1. destruct E6 as [->| <-]; lia. }
  destruct (run_evicted g _ k _ _ Hc1 V3) as (g' & c' & C0 & C1 & C2 & C3).
  { rewrite V4. by destruct Hw0. }
  exists g', c'. split_and!; [done|apply C1..|by rewrite (sm_max _ _ C2), R1|by rewrite (sm_used _ _ C2)|].
  intros j. specialize (C3 j). unfold forgets, visible in *. cbn in C3. by rewrite V4, R2, E1, E2, E4 in C3.
Qed.

Lemma clear_refines g c : cache_ok g c -> exists g', cache_ok g' (run_task cache_clear c).1 /\ (run_task cache_clear c).2 = Nothing /\
  (run_task cache_clear c).1.(c_max) = c.(c_max) /\ forall k, visible g' (run_task cache_clear c).1 k = None.
Proof.
  intros (([W1 W2 W3 W4 W5 W6] & Hb) & Hd & Hs). unfold cache_clear. rewrite !run_atomic. cbn [run_task fst snd]. exists g. destruct (tier_clear_ok _ _ _ Hd) as [D1 D2].
  split; [|done]. split; [|done]. split; [split; cbn; try done; try apply dict_ok_nil; by intros k []|cbn; lia].
Qed.

Lemma set_budget_refines g c m d : cache_ok g c -> exists g', cache_ok g' (run_task (set_budget bucket_name m d) c).1 /\
  (run_task (set_budget bucket_name m d) c).2 = Nothing /\ (run_task (set_budget bucket_name m d) c).1.(c_max) = Z.max 0 m /\
  forall k, forgets (visible g c) (visible g' (run_task (set_budget bucket_name m d) c).1) k.
Proof.
  intros Hc. unfold set_budget, resize. rewrite run_atomic. set (c0 := Cache _ _ _ _ _ _ _ _).
  match goal with |- context [demote bucket_name _ ?k0] => destruct (evict_refines g c c0 (Z.max 0 m) k0 Hc) as (g' & c' & -> & C1 & C2 & C3 & C4) end; [lia|by try right..|].
  destruct d as [n|]; [|cbn; exists g'; done]. rewrite run_atomic. cbn [run_task fst snd]. exists g'. pose proof C1 as (_ & D1 & _). destruct (tier_budget_ok _ _ _ n D1) as [D2 D3].
  split; [by eapply cache_ok_disk|]. split_and!; try done. intros k. eapply forgets_trans; [apply C4|]. unfold forgets, visible. cbn.
  destruct (dget k (c_entries c')); [by right|]. destruct (dmem k (c_demoted c')); [apply D3|by right].
Qed.

Lemma call_refinement g c o : cache_ok g c -> call_refines g c o (run_task (call_task o) c).
Proof.
  intros Hc. destruct o as [key|key t ka cost level|key| |m d|m d|n|l]; cbn [ResultCache.call_task]; [by apply get_refines|by apply put_refines|..]; unfold call_refines, spec_step; cbn [budget known].
  - unfold cache_invalidate. rewrite !run_atomic. cbn [run_task fst snd tier_release]. pose proof Hc as ((Hw & Hb) & Hd & Hs). destruct (forget_wf key c Hw) as [Hw' Hu].
    assert (cache_ok g (forget key c)) as Hc' by (split; [split; [done|cbn in *; lia]|done]). destruct (tier_release_ok _ _ _ key Hd) as (D1 & _).
    exists g. split; [by eapply cache_ok_disk|]. split_and!; [done|done| |].
    + rewrite visible_release by (cbn; rewrite ?dget_dpop, ?decide_True by done; auto). unfold visible, dmem. cbn. by rewrite !dget_dpop, !decide_True.
    + intros k Hne. rewrite visible_release by (cbn; auto). unfold visible, dmem. cbn. by rewrite !dget_dpop, !decide_False.
  - destruct (clear_refines g c Hc) as (g' & C1 & C2 & C3 & C4). by exists g'.
  - destruct (set_budget_refines g c m d Hc) as (g' & C1 & C2 & C3 & C4). by exists g'.
  - unfold reconcile. rewrite run_atomic. cbn [fst snd]. destruct (_ || _) eqn:E.
    + destruct (set_budget_refines g c m (Some d) Hc) as (g' & C1 & C2 & C3 & C4). by exists g'.
    + exists g. cbn. split; [done|]. apply orb_false_iff in E as [E _]. apply negb_false_iff, Z.eqb_eq in E. destruct Hc as (([] & _) & _). split_and!; [lia|done|intros; by right].
  - unfold evict_to_free. destruct (n <=? 0); [exists g; cbn; split; [done|]; split_and!; [done|by exists 0|intros; by right]|].
    rewrite run_atomic. unfold free_memory. destruct (evict_to (Z.max 0 (c_used c - n)) c) as [c1 vs] eqn:E. cbn [fst snd].
    destruct (evict_refines g c c (Z.max 0 (c_used c - n)) (Done (Freed (c_used c - c_used c1))) Hc) as (g' & c' & R & C1 & C2 & C3 & C4); [lia|by try left..|].
    rewrite E in R. cbn [fst snd] in R. rewrite R. cbn. exists g'. split; [done|]. split_and!; [done| |done]. eexists. split; [done|].
    pose proof Hc as ((Hw & _) & _). destruct (Z.leb_spec (c_used c) (Z.max 0 (c_used c - n))) as [Hle|Hle]; [rewrite evict_to_small in E by done; injection E as <- _; lia|].
    destruct (evict_to_ok (Z.max 0 (c_used c - n)) c) as (_ & V2 & _); [lia|done|]. rewrite E in V2. cbn in V2. lia.
  - unfold on_pressure. destruct (_ <=? _) eqn:El.
    { destruct (clear_refines g c Hc) as (g' & C1 & C2 & C3 & C4). exists g'. split; [done|]. split_and!; [done|intros; left; done|by destruct l]. }
    assert (match l with CRITICAL => forall k : string, False | _ => True end) as Hl by (by destruct l).
    assert (call_refines g c (CPressure l) (c, Nothing)) as Hnone by (exists g; cbn; split; [done|]; split_and!; [done|intros; by right|by destruct l]).
    destruct (PRESSURE_RETAIN _) as [retain|] eqn:Er; [|exact Hnone]. destruct (_ <? _); [exact Hnone|]. rewrite run_atomic.
    assert (unsigned retain = true) as Hu by (destruct l; by injection Er as <-).
    unfold trim. destruct (retained_target (c_max c) retain) as [target|] eqn:Et; [|cbn; exists g; split; [done|]; split_and!; [done|intros; by right|by destruct l]].
    assert (0 <= target) as Ht.
    { pose proof Hc as (([_ _ _ _ _ Hm] & _) & _). pose proof (flt_mul_unsigned _ _ (flt_of_Z_unsigned _ Hm) Hu) as Hf. unfold retained_target in Et.
      destruct (flt_of_Z (c_max c)); [|done|..]; by eapply int_of_flt_nonneg. }
    destruct (evict_refines g c c target (Done Nothing) Hc Ht) as (g' & c' & R & C1 & C2 & C3 & C4); [by try left..|].
    destruct (evict_to target c) as [c1 vs]. cbn [fst snd] in *. rewrite R. cbn. exists g'. split; [done|]. split_and!; [done|done|by destruct l].
Qed.
End System.
