(* ===== verification/ResultCacheUse.v ===== *)
(** * What the result cache promises

    The properties of the cache, and its behaviour on concrete interleavings over the spill
    store. *)

From S2P Require Import Prelude Tasks PyDict PyFloat SpillStore SpillSound SpillSystem.
From S2P Require Import CacheDisk CacheDiskSound CacheSpill ResultCache ResultCacheSound ResultCacheSystem.

(** ** A cache to evaluate *)

#[export] Instance sample_arrow : ArrowTable Z := {
  table_nbytes t := Some (8 * CacheDisk.num_rows t);
  get_total_buffer_size t := 8 * CacheDisk.num_rows t;
  take_all t := Some t;
}.
#[export, refine] Instance sample_arrow_laws : ArrowTableLaws Z := {}.
Proof.
  - intros t. cbn. unfold CacheDisk.num_rows. lia.
  - intros t t' [= <-]. done.
Defined.

Definition sample_columns (r : list Z) : list array := [Flat (8 * Z.of_nat (length r))].

#[export] Instance sample_buckets : BucketStore (list Z) := spill_buckets sample_columns sample_ipc.
#[export] Instance sample_laws : BucketLaws (list Z) empty_batch.
Proof. apply spill_laws. intros t bs. unfold sample_ipc. lia. Defined.

Definition sample_name (key : string) : string := ("c" +:+ key)%string.
#[export] Instance sample_name_inj : Inj (=) (=) sample_name.
Proof. by intros x y [= E]. Defined.

Definition sample_scratch : list (option bstore) := repeat (Some (new_world "scratch" None None [])) 8.
Lemma sample_scratch_fresh : Forall fresh_scratch sample_scratch.
Proof. unfold sample_scratch. apply Forall_forall. intros x Hx%list_elem_of_In%repeat_spec. subst x. intros s [= <-]. apply new_world_empty. Defined.

Definition sample_table (n : Z) : table Z := Table "x: int64" [[n]].
Definition sample_put (key : string) (n : Z) (level : StorageLevel) : @call Z unit :=
  CPut key (sample_table n) tt (flt_of_Z n) level.
Definition sample_cache (max_bytes : Z) : @cache Z unit _ := new_cache max_bytes 64 sample_scratch.
Definition sample_tasks := map (@call_task Z unit _ _ sample_name).

(** ** Properties *)

(** C13: the accounts of the cache hold under any interleaving, provided the digest that names a
    key's directory on disk tells keys apart.  However the sections of any number of concurrent
    calls interleave, whatever the disk answers, the bytes counted are
    exactly those of the resident entries and within the memory budget, the tier's bytes are
    exactly those of its entries and within its budget, no key is both resident and demoted, and
    a result answered for a key has the schema and the rows of a result some call put under that
    very key ([shared_digest_serves_other_key] is what two keys of one digest do). *)
Theorem cache_interleavings_sound {row alive} `{ArrowTable row, !ArrowTableLaws row} `{BucketStore (list row), !BucketLaws (list row) empty_batch}
    (bucket_name : string -> string) `{!Inj (=) (=) bucket_name} m d scratch (calls : list (@call row alive)) turns :
  Forall fresh_scratch scratch ->
  let '(c, ts) := schedule (new_cache m d scratch) (map (call_task bucket_name) calls) turns in
  c.(c_used) = total e_size c.(c_entries) /\ c.(c_used) <= c.(c_max) /\
  c.(c_disk).(d_used) = total o_nbytes c.(c_disk).(d_entries) /\ c.(c_disk).(d_used) <= c.(c_disk).(d_max) /\
  (forall key, dmem key c.(c_entries) && dmem key c.(c_demoted) = false) /\
  (forall i key t, calls !! i = Some (CGet key) -> ts !! i = Some (Done (Hit t)) ->
     exists t' ka cost level, CPut key t' ka cost level ∈ calls /\ content t' = content t).
Proof.
  intros Hs. set (P key x := exists t' ka cost level, CPut key t' ka cost level ∈ calls /\ content t' = x).
  pose proof (schedule_safe (Inv bucket_name P) (map (answer_ok P) calls) turns (new_cache m d scratch) (map (call_task bucket_name) calls)) as Hsched.
  destruct (schedule _ _ turns) as [c ts]. destruct Hsched as [Hc Ht]; cbn [fst snd] in *.
  - exists (fun _ => []). destruct (new_tier_ok bucket_name d (fun _ => [])) as [T1 T2]. split; [|split; [by intros k e|intros k x Hx; by rewrite T2 in Hx]].
    split; [|done]. split; [split; cbn; try done; try apply dict_ok_nil; lia|cbn; lia].
  - apply Forall2_fmap_2, Forall_Forall2_diag, Forall_forall. intros o Ho. apply safe_call; [done|].
    intros key t ka cost level ->. by exists t, ka, cost, level.
  - destruct Hc as (g & (([W1 W2 W3 W4 W5 W6] & Hb) & ([D1 D2 D3 D4 D5] & Db) & _) & _). split_and!; try done.
    + intros key. unfold dmem. destruct (dget key (c_entries c)) eqn:E; [|done]. by rewrite W3 by (by rewrite E).
    + intros i key t Hi Hti. rewrite Forall2_fmap_l in Ht. destruct (Forall2_lookup_lr _ _ _ _ _ _ Ht Hi Hti t eq_refl) as (t' & ka & cost & level & H1 & H2). eauto 6.
Qed.

(** The answer of a call that has returned. *)
Definition answered {S R} (t : task S R) : option R := match t with Done r => Some r | Step _ => None end.

Lemma answered_lookup {S R} (ts : list (task S R)) l i a : map answered ts = l -> l !! i = Some (Some a) -> ts !! i = Some (Done a).
Proof. intros <-. rewrite list_lookup_fmap. destruct (ts !! i) as [[r|f]|]; cbn; try done. by intros [= ->]. Qed.

(** A result evicted to disk and promoted back, with another demoted meanwhile. *)
Definition sample_calls : list (@call Z unit) := [sample_put "a" 1 MEMORY_AND_DISK; sample_put "b" 2 MEMORY_AND_DISK; CGet "a"].
Definition sample_turns : list nat := repeat 0%nat 4 ++ repeat 1%nat 12 ++ repeat 2%nat 12.

Lemma cache_interleavings_sound_witness :
  let r := schedule (sample_cache 8) (sample_tasks sample_calls) sample_turns in
  map answered r.2 = [Some Nothing; Some Nothing; Some (Hit (sample_table 1))] /\ map fst r.1.(c_demoted) = ["b"%string] /\
  r.1.(c_used) = 8 /\ r.1.(c_used) <= r.1.(c_max) /\ exists t' ka cost level, CPut "a" t' ka cost level ∈ sample_calls /\ content t' = content (sample_table 1).
Proof.
  intros r. pose proof (cache_interleavings_sound sample_name 8 64 sample_scratch sample_calls sample_turns sample_scratch_fresh) as Hr.
  assert (map answered r.2 = [Some Nothing; Some Nothing; Some (Hit (sample_table 1))]) as E1 by (vm_compute; reflexivity).
  assert (map fst r.1.(c_demoted) = ["b"%string] /\ r.1.(c_used) = 8) as [E2 E3] by (split; vm_compute; reflexivity).
  change (schedule _ _ sample_turns) with r in Hr. destruct r as [c ts]. destruct Hr as (_ & Hb & _ & _ & _ & Hh). split_and!; try done.
  exact (Hh 2%nat "a"%string _ eq_refl (answered_lookup _ _ 2%nat _ E1 eq_refl)).
Defined.

(** C17: a caller alone sees a map that only forgets, provided the digest that names a key's
    directory on disk tells keys apart.  Every sequence of calls, whatever the disk answers, is a
    run of the abstract store [spec_step]: a hit is the result the store knows for the key; an
    invalidated key and a cleared store are forgotten; after a put the store knows the new result
    under the key, or nothing, or, when memory refuses it (the level forbids memory, or it is
    larger than the budget), possibly still what it knew before; no other call makes a result
    known, and a change of budget or memory pressure forgets results but never changes one.
    [refused_put_keeps_older] is a put after which the older result is still answered. *)
Theorem cache_refines_forgetful_map {row alive} `{ArrowTable row, !ArrowTableLaws row} `{BucketStore (list row), !BucketLaws (list row) empty_batch}
    (bucket_name : string -> string) `{!Inj (=) (=) bucket_name} m d scratch (calls : list (@call row alive)) :
  Forall fresh_scratch scratch ->
  exists s, spec_run calls (run_calls bucket_name (new_cache m d scratch) calls).2 (Spec (Z.max 0 m) (fun _ => None)) s.
Proof.
  intros Hs. set (c := new_cache m d scratch : @cache row alive _).
  assert (cache_ok bucket_name (fun _ => []) c) as Hc.
  { destruct (new_tier_ok bucket_name d (fun _ => [])) as [T1 T2]. split; [|done].
    split; [split; cbn; try done; try apply dict_ok_nil; lia|cbn; lia]. }
  change (Spec (Z.max 0 m) (fun _ => None)) with (Spec (c_max c) (visible (fun _ => []) c)). generalize dependent c.
  generalize (fun _ : string => [] : list (list row)). intros g c Hc. revert g c Hc.
  induction calls as [|o calls IH]; intros g c Hc; cbn; [eexists; constructor|].
  destruct (call_refinement bucket_name g c o Hc) as (g' & Hc' & Hstep). destruct (run_task (call_task bucket_name o) c) as [c' a].
  destruct (IH g' c' Hc') as [s Hrun]. destruct (run_calls bucket_name c' calls) as [c'' l]. exists s. by econstructor.
Qed.

Lemma cache_refines_forgetful_map_witness :
  let calls := sample_calls ++ [CInvalidate "a"; CGet "a"; CGet "b"] in
  (run_calls sample_name (sample_cache 8) calls).2 = [Nothing; Nothing; Hit (sample_table 1); Nothing; Miss; Hit (sample_table 2)] /\
  exists s, spec_run calls [Nothing; Nothing; Hit (sample_table 1); Nothing; Miss; Hit (sample_table 2)] (Spec 8 (fun _ => None)) s.
Proof.
  intros calls. assert ((run_calls sample_name (sample_cache 8) calls).2 = [Nothing; Nothing; Hit (sample_table 1); Nothing; Miss; Hit (sample_table 2)]) as E
    by (vm_compute; reflexivity).
  split; [exact E|]. rewrite <- E. exact (cache_refines_forgetful_map sample_name 8 64 sample_scratch calls sample_scratch_fresh).
Defined.

(** a result larger than the budget, at a level that forbids the disk, is not taken, and the
    older one under its key is still answered. *)
Theorem refused_put_keeps_older :
  (run_calls sample_name (sample_cache 8) [sample_put "a" 1 MEMORY_ONLY; CPut "a" (Table "x: int64" [[8; 9]]) tt (flt_of_Z 2) MEMORY_ONLY; CGet "a"]).2 =
    [Nothing; Nothing; Hit (sample_table 1)].
Proof. vm_compute. reflexivity. Qed.

(** eviction takes the entries least worth keeping, and no more of them than it must.  The
    entries are split into victims and survivors, no survivor has a lower keep-value than a
    victim, what remains is within the target, and it would not be with the last victim kept. *)
Theorem evicts_lowest_value_first {row alive} `{ArrowTable row} `{BucketStore (list row)} target (c : @cache row alive _) :
  0 <= target -> mem_wf c -> Forall (fun ke => is_num (value ke.2) = true) c.(c_entries) ->
  let '(c', victims) := evict_to target c in
  c.(c_entries) ≡ₚ victims ++ c'.(c_entries) /\ c'.(c_used) <= target /\
  (forall v w, v ∈ victims -> w ∈ c'.(c_entries) -> flt_lt (value w.2) (value v.2) = false) /\
  (forall l x, victims = l ++ [x] -> target < e_size x.2 + c'.(c_used)).
Proof.
  intros Ht Hw Hn. destruct (evict_to_spec target c Ht Hw) as (rest & E1 & E2 & E3 & E4 & E5 & _). destruct (evict_to target c) as [c' victims]. cbn [fst snd] in *.
  pose proof (py_sorted_perm by_value (c_entries c)) as Hp. rewrite E1 in Hp. split_and!; [by rewrite <- Hp, E2|done| |].
  - intros v w Hv Hrest. pose proof (py_sorted_ordered by_value (fun ke => is_num (value ke.2) = true) (c_entries c) Hn) as Hs. rewrite E1 in Hs.
    specialize (Hs (fun x y => flt_lt_asym _ _) (fun x y z => flt_lt_cotrans _ _ _)). rewrite E2 in Hrest.
    clear -Hs Hv Hrest. revert Hs. induction Hv as [v l|v u l Hv IH]; cbn; intros Hs; inversion_clear Hs as [|? ? Hs' Hall]; [|by apply IH].
    rewrite Forall_forall in Hall. apply Hall, elem_of_app. by right.
  - intros l x El. specialize (E5 l x El). destruct E3 as [_ _ _ W4 _ _]. rewrite W4, (total_perm _ _ _ E2). exact E5.
Qed.

(** Three results of 8 bytes, of rising cost, trimmed to 8. *)
Definition three_entries : @cache Z unit _ :=
  (run_calls sample_name (sample_cache 24) [sample_put "b" 2 MEMORY_ONLY; sample_put "a" 1 MEMORY_ONLY; sample_put "d" 4 MEMORY_ONLY]).1.

Lemma evicts_lowest_value_first_witness :
  map fst (evict_to 8 three_entries).2 = ["a"; "b"]%string /\ (evict_to 8 three_entries).1.(c_used) <= 8.
Proof.
  split; [vm_compute; reflexivity|].
  pose proof (evicts_lowest_value_first 8 three_entries ltac:(lia)) as H. destruct (evict_to 8 three_entries) as [c' vs]. apply H.
  - split; vm_compute; try done; try (intros E; discriminate E).
    + repeat constructor; rewrite ?list_elem_of_In; cbn; intros Hin; repeat destruct Hin as [Hin|Hin]; done.
    + constructor.
    + repeat constructor; done.
  - repeat constructor.
Defined.

(** a late demotion undoes what happened since the eviction.  [_demote] says that a victim
    re-inserted or invalidated in the meantime is skipped, and looks only for a resident entry.
    An [invalidate] that returns between the eviction and the write leaves the invalidated result
    to be answered afterwards; and a newer result that a [DISK_ONLY] put wrote is overwritten by
    the older one. *)
Theorem late_demotion_undoes :
  let evicting := repeat 0%nat 4 ++ repeat 1%nat 4 ++ repeat 2%nat 8 in
  let rest := repeat 1%nat 12 ++ repeat 3%nat 12 in
  let outcome last :=
    let r := schedule (sample_cache 8) (sample_tasks [sample_put "a" 1 MEMORY_AND_DISK; sample_put "b" 2 MEMORY_AND_DISK; last; CGet "a"]) evicting in
    (map answered r.2, map answered (schedule r.1 r.2 rest).2) in
  outcome (CInvalidate "a") = ([Some Nothing; None; Some Nothing; None], [Some Nothing; Some Nothing; Some Nothing; Some (Hit (sample_table 1))]) /\
  outcome (sample_put "a" 3 DISK_ONLY) = ([Some Nothing; None; Some Nothing; None], [Some Nothing; Some Nothing; Some Nothing; Some (Hit (sample_table 1))]).
Proof. split; vm_compute; reflexivity. Qed.

(** the digest is the identity of what is on disk.  The tier's entries are keyed by the whole
    key, but its files are named by the digest alone: where two keys share a digest, the second
    write replaces the file of the first, and a read of the first key, whose handle still counts
    the right number of rows, answers the second key's result. *)
Theorem shared_digest_serves_other_key :
  (run_calls (fun _ => "c"%string) (sample_cache 8) [sample_put "a" 1 DISK_ONLY; sample_put "b" 2 DISK_ONLY; CGet "a"]).2 =
  [Nothing; Nothing; Hit (sample_table 2)].
Proof. vm_compute. reflexivity. Qed.
