(* ===== verification/TreeReduce.v ===== *)
(** * Mergeable reductions: python/batcher/dist/reduction/tree.py

    The arithmetic that decides how [n] partials of a shuffle collapse to at most
    [fan_in]: the width of a fold, the consecutive chunks of a frontier, the number
    of interior levels, and the reduction loop itself.  The loops carry fuel and
    return [None] when it runs out; [reduce_levels_total] and [tree_reduce_total]
    show that the fuel they are started with always suffices. *)

From S2P Require Import Prelude.

Module TreeReduce.

(** [_MAX_FOLD_WIDTH]. *)
Definition MAX_FOLD_WIDTH : Z := 32.

(** [fold_width]; [Z.sqrt] is the floor square root, [math.isqrt]. *)
Definition fold_width (fan_in sources : Z) : Z :=
  let fan_in := Z.max 1 fan_in in
  if sources <=? fan_in then fan_in
  else Z.max fan_in (Z.min (Z.sqrt (sources - 1) + 1) MAX_FOLD_WIDTH).

(** [chunks]: [[items[i : i + step] for i in range(0, len(items), step)]]. *)
Definition chunks {T} (items : list T) (size : Z) : list (list T) :=
  let step := Z.to_nat (Z.max 1 size) in
  map (fun i => py_slice i (i + step) items) (py_range (length items) step).

(** [reduce_levels]: the [while n > f] loop on ([n], [levels]). *)
Fixpoint reduce_levels_loop (fuel : nat) (f n levels : Z) : option Z :=
  match fuel with
  | O => None
  | S fuel' =>
      if f <? n then reduce_levels_loop fuel' f (ceil_div n f) (levels + 1)
      else Some levels
  end.

Definition reduce_levels (n_sources fan_in : Z) : option Z :=
  reduce_levels_loop (S (Z.to_nat n_sources)) (Z.max 2 fan_in) n_sources 0.

Section Reduce.
Context {T : Type}.
(** The caller's [combine_chunk(chunk, level, index)]. *)
Variable combine_chunk : list T -> nat -> nat -> T.

(** The element of the next frontier that a chunk becomes. *)
Definition merge_group (level : nat) (ig : nat * list T) : option T :=
  let '(i, g) := ig in
  if (1 <? length g)%nat then Some (combine_chunk g level i) else g !! 0%nat.

(** One round: the next frontier. [g[0]] on an empty chunk would raise; it is
    [None] here and [next_frontier_length] shows that it never happens. *)
Definition next_frontier (f : Z) (level : nat) (frontier : list T) : list T :=
  omap (merge_group level) (py_enumerate (chunks frontier f)).

(** The loop of [tree_reduce]; the second component lists the [on_level(level,
    n_chunks)] calls in order. *)
Fixpoint tree_reduce_loop (fuel : nat) (f : Z) (frontier : list T) (level : nat)
    : option (list T * list (nat * nat)) :=
  match fuel with
  | O => None
  | S fuel' =>
      if f <? Z.of_nat (length frontier) then
        match tree_reduce_loop fuel' f (next_frontier f level frontier) (S level) with
        | Some (out, calls) => Some (out, (level, length (chunks frontier f)) :: calls)
        | None => None
        end
      else Some (frontier, [])
  end.

Definition tree_reduce (sources : list T) (fan_in : Z)
    : option (list T * list (nat * nat)) :=
  tree_reduce_loop (S (length sources)) (Z.max 2 fan_in) sources 0.
End Reduce.

(** ** Chunks *)

Lemma chunks_nil {T} size : chunks (T := T) [] size = [].
Proof. unfold chunks. by rewrite py_range_nil by lia. Qed.

Lemma chunks_cons {T} (items : list T) size :
  items <> [] ->
  chunks items size =
    take (Z.to_nat (Z.max 1 size)) items
      :: chunks (drop (Z.to_nat (Z.max 1 size)) items) size.
Proof.
  intros Hne. unfold chunks. set (step := Z.to_nat _).
  assert (0 < step)%nat by lia.
  assert (0 < length items)%nat by (destruct items; cbn; [done|lia]).
  rewrite py_range_cons by done. cbn [map]. rewrite map_map. f_equal.
  - unfold py_slice. rewrite drop_0. f_equal. lia.
  - rewrite length_drop. apply map_ext. intros i. unfold py_slice.
    rewrite drop_drop. f_equal; lia.
Qed.

(** Induction on a list by dropping [step] elements at a time. *)
Lemma chunk_ind {T} (step : nat) (P : list T -> Prop) :
  (0 < step)%nat -> P [] ->
  (forall l, l <> [] -> P (drop step l) -> P l) -> forall l, P l.
Proof.
  intros Hs Hnil Hstep l. remember (length l) as n eqn:Hn. revert l Hn.
  induction (lt_wf n) as [n _ IH]; intros [|x l] ->; [done|].
  apply Hstep; [done|]. eapply IH; [|done]. rewrite length_drop. cbn. lia.
Qed.

Lemma chunks_concat {T} (items : list T) size : concat (chunks items size) = items.
Proof.
  pattern items. apply (chunk_ind (Z.to_nat (Z.max 1 size))); [lia|by rewrite chunks_nil|].
  intros l Hne IH. rewrite chunks_cons by done. cbn. rewrite IH. apply take_drop.
Qed.

Lemma chunks_bounds {T} (items : list T) size :
  Forall (fun g => (0 < length g)%nat /\ Z.of_nat (length g) <= Z.max 1 size)
    (chunks items size).
Proof.
  pattern items. apply (chunk_ind (Z.to_nat (Z.max 1 size))); [lia|by rewrite chunks_nil|].
  intros l Hne IH. rewrite chunks_cons by done. constructor; [|done].
  rewrite length_take. destruct l; [done|]. cbn. lia.
Qed.

Lemma chunks_length {T} (items : list T) size :
  Z.of_nat (length (chunks items size)) = ceil_div (Z.of_nat (length items)) (Z.max 1 size).
Proof.
  unfold chunks, py_range. rewrite !length_map, length_seq.
  rewrite (Z2Nat.id (Z.max 1 size)) by lia. apply Z2Nat.id.
  pose proof (ceil_div_bounds (Z.of_nat (length items)) (Z.max 1 size) ltac:(lia)). nia.
Qed.

(** ** Levels *)

Lemma reduce_levels_loop_spec fuel f n levels :
  2 <= f -> (Z.to_nat n < fuel)%nat ->
  exists k, 0 <= k /\ reduce_levels_loop fuel f n levels = Some (levels + k) /\
    n <= f ^ (k + 1) /\ (k = 0 \/ f ^ k < n).
Proof.
  intros Hf. revert n levels. induction fuel as [|fuel IH]; intros n levels Hfuel; [lia|].
  cbn. py_if.
  - destruct (ceil_div_shrinks n f Hf) as [H1 H2]; [done|].
    destruct (IH (ceil_div n f) (levels + 1)) as (k & Hk & -> & Hup & Hlo); [lia|].
    exists (k + 1). split_and!; [lia|f_equal; lia|..].
    + rewrite Z.pow_add_r, Z.pow_1_r by lia.
      apply ceil_div_le in Hup; lia.
    + right. destruct Hlo as [->|Hlo]; [by rewrite Z.pow_1_r|].
      rewrite Z.pow_add_r, Z.pow_1_r by lia.
      pose proof (ceil_div_bounds n f ltac:(lia)). nia.
  - exists 0. rewrite Z.pow_1_r. split_and!; [lia|f_equal; lia|lia|by left].
Qed.

Lemma pow_gap f k k' n : 2 <= f -> 0 <= k -> 0 <= k' ->
  n <= f ^ (k + 1) -> (k' = 0 \/ f ^ k' < n) -> k' <= k.
Proof.
  intros Hf Hk Hk' Hn [->|Hlo]; [done|].
  destruct (decide (k' <= k)) as [?|Hgt]; [done|].
  pose proof (Z.pow_le_mono_r f (k + 1) k' ltac:(lia) ltac:(lia)). lia.
Qed.

Lemma reduce_levels_total n fan_in : exists k, reduce_levels n fan_in = Some k /\ 0 <= k.
Proof.
  destruct (reduce_levels_loop_spec (S (Z.to_nat n)) (Z.max 2 fan_in) n 0)
    as (k & ? & ? & _); [lia..|]. exists k. eauto.
Qed.

(** [reduce_levels] always returns, and what it returns is the exact integer
    [max 0 (ceil (log_f n) - 1)] its documentation promises: the least [k] with
    [n <= f ^ (k + 1)], where [f = max 2 fan_in]. *)
Theorem reduce_levels_is_log n fan_in k :
  reduce_levels n fan_in = Some k <->
    0 <= k /\ n <= (Z.max 2 fan_in) ^ (k + 1) /\ (k = 0 \/ (Z.max 2 fan_in) ^ k < n).
Proof.
  unfold reduce_levels.
  destruct (reduce_levels_loop_spec (S (Z.to_nat n)) (Z.max 2 fan_in) n 0)
    as (k0 & Hk0 & -> & Hup & Hlo); [lia..|].
  split.
  - intros [= <-]. rewrite Z.add_0_l. done.
  - intros (Hk & Hup' & Hlo'). f_equal.
    pose proof (pow_gap (Z.max 2 fan_in) k k0 n). pose proof (pow_gap (Z.max 2 fan_in) k0 k n). lia.
Qed.

(** ** The reduction loop *)

Section Reduction.
Context {T : Type} (combine_chunk : list T -> nat -> nat -> T).

Lemma omap_length_total {A B} (f : A -> option B) (l : list A) :
  Forall (fun x => is_Some (f x)) l -> length (omap f l) = length l.
Proof. induction 1 as [|x l [y Hy] _ IH]; [done|]. cbn. rewrite Hy. cbn. by rewrite IH. Qed.

Lemma merge_group_total (frontier : list T) f level :
  Forall (fun ig => is_Some (merge_group combine_chunk level ig))
    (py_enumerate (chunks frontier f)).
Proof.
  apply Forall_forall. intros [i g] Hin. cbn. py_if; [done|].
  apply (list_elem_of_fmap_2 snd) in Hin. rewrite py_enumerate_snd in Hin. cbn in Hin.
  pose proof (chunks_bounds frontier f) as Hb. rewrite Forall_forall in Hb.
  destruct (Hb g Hin) as [Hpos _]. apply lookup_lt_is_Some. lia.
Qed.

Lemma next_frontier_length (frontier : list T) f level :
  Z.of_nat (length (next_frontier combine_chunk f level frontier)) =
    ceil_div (Z.of_nat (length frontier)) (Z.max 1 f).
Proof.
  unfold next_frontier. rewrite omap_length_total by apply merge_group_total.
  by rewrite py_enumerate_length, chunks_length.
Qed.

Lemma tree_reduce_loop_total fuel f frontier level acc :
  2 <= f -> (length frontier < fuel)%nat ->
  exists out calls,
    tree_reduce_loop combine_chunk fuel f frontier level = Some (out, calls) /\
    Z.of_nat (length out) <= f /\
    reduce_levels_loop fuel f (Z.of_nat (length frontier)) acc
      = Some (acc + Z.of_nat (length calls)) /\
    map fst calls = seq level (length calls).
Proof.
  intros Hf. revert frontier level acc.
  induction fuel as [|fuel IH]; intros frontier level acc Hfuel; [lia|].
  cbn [tree_reduce_loop reduce_levels_loop]. py_if.
  - pose proof (next_frontier_length frontier f level) as Hlen.
    rewrite Z.max_r in Hlen by lia.
    destruct (ceil_div_shrinks (Z.of_nat (length frontier)) f) as [? ?]; [done..|].
    destruct (IH (next_frontier combine_chunk f level frontier) (S level) (acc + 1))
      as (out & calls & -> & Hout & Hlev & Hnum); [lia|].
    exists out, ((level, length (chunks frontier f)) :: calls). split_and!; [done..| |].
    + rewrite Hlen in Hlev. rewrite Hlev. f_equal. cbn. lia.
    + cbn. by rewrite Hnum.
  - exists frontier, []. split_and!; [done|lia|f_equal; cbn; lia|done].
Qed.

(** What a partial denotes: an element of a monoid, the state of a mergeable
    aggregate.  [combine_chunk] implements the fold of its chunk. *)
Context {M : Type} (op : M -> M -> M) (e : M) (den : T -> M).
Hypothesis op_assoc : forall a b c, op a (op b c) = op (op a b) c.
Hypothesis op_id_l : forall a, op e a = a.
Hypothesis op_id_r : forall a, op a e = a.

Definition mfold (l : list T) : M := foldr (fun x acc => op (den x) acc) e l.

Hypothesis combine_chunk_ok : forall g level i, den (combine_chunk g level i) = mfold g.

Lemma mfold_app l1 l2 : mfold (l1 ++ l2) = op (mfold l1) (mfold l2).
Proof. unfold mfold. induction l1; cbn; [by rewrite op_id_l|]. by rewrite IHl1, op_assoc. Qed.

Lemma merge_groups_fold level (igs : list (nat * list T)) :
  Forall (fun ig => is_Some (merge_group combine_chunk level ig)) igs ->
  mfold (omap (merge_group combine_chunk level) igs) = mfold (concat (map snd igs)).
Proof.
  induction 1 as [|[i g] igs Hg _ IH]; [done|]. cbn [omap list_omap map concat snd].
  rewrite mfold_app, <- IH. destruct Hg as [y Hy]. rewrite Hy. cbn. f_equal.
  unfold merge_group in Hy. py_if.
  - inversion Hy; subst. apply combine_chunk_ok.
  - apply Nat.ltb_ge in Heqb. destruct g as [|x [|? ?]]; cbn in *; [done| |lia].
    inversion Hy; subst. by rewrite op_id_r.
Qed.

Lemma next_frontier_fold f level frontier :
  mfold (next_frontier combine_chunk f level frontier) = mfold frontier.
Proof.
  unfold next_frontier. rewrite merge_groups_fold by apply merge_group_total.
  by rewrite py_enumerate_snd, chunks_concat.
Qed.

Lemma tree_reduce_loop_fold fuel f frontier level out calls :
  tree_reduce_loop combine_chunk fuel f frontier level = Some (out, calls) ->
  mfold out = mfold frontier.
Proof.
  revert frontier level out calls. induction fuel; intros frontier level out calls; [done|].
  cbn. py_if; [|intros [= ? ?]; by subst].
  destruct (tree_reduce_loop _ _ _ _ _) as [[out' calls']|] eqn:E; [|done].
  intros [= <- <-]. apply IHfuel in E. by rewrite E, next_frontier_fold.
Qed.
End Reduction.

(** [tree_reduce] always returns; what it returns is a frontier of at most
    [max 2 fan_in] partials, and the [on_level] callback fires once per interior
    level, numbered consecutively from 0, exactly [reduce_levels] times. *)
Theorem tree_reduce_total {T} (combine_chunk : list T -> nat -> nat -> T) sources fan_in :
  exists out calls,
    tree_reduce combine_chunk sources fan_in = Some (out, calls) /\
    Z.of_nat (length out) <= Z.max 2 fan_in /\
    reduce_levels (Z.of_nat (length sources)) fan_in = Some (Z.of_nat (length calls)) /\
    map fst calls = seq 0 (length calls).
Proof.
  destruct (tree_reduce_loop_total combine_chunk (S (length sources)) (Z.max 2 fan_in)
    sources 0%nat 0) as (out & calls & ? & ? & ? & ?); [lia..|].
  exists out, calls. unfold reduce_levels. rewrite Nat2Z.id. auto.
Qed.

(** C25: [tree_reduce] is result-preserving for every [fan_in]: when partials denote
    elements of a monoid and [combine_chunk] folds its chunk, the fold of the
    returned frontier is the fold of the sources.  Associativity is enough, because
    the chunks are consecutive. *)
Theorem tree_reduce_preserves {T M} (combine_chunk : list T -> nat -> nat -> T)
    (op : M -> M -> M) (e : M) (den : T -> M) sources fan_in :
  (forall a b c, op a (op b c) = op (op a b) c) ->
  (forall a, op e a = a) -> (forall a, op a e = a) ->
  (forall g level i, den (combine_chunk g level i) = mfold op e den g) ->
  exists out calls,
    tree_reduce combine_chunk sources fan_in = Some (out, calls) /\
    mfold op e den out = mfold op e den sources.
Proof.
  intros Ha Hl Hr Hc.
  destruct (tree_reduce_loop_total combine_chunk (S (length sources)) (Z.max 2 fan_in)
    sources 0%nat 0) as (out & calls & E & _); [lia..|].
  exists out, calls. split; [done|]. by eapply tree_reduce_loop_fold.
Qed.

Definition concat_chunk (g : list (list Z)) (level index : nat) : list Z := concat g.

Lemma tree_reduce_preserves_witness :
  exists out calls,
    tree_reduce concat_chunk [[1]; [2]; [3]; [4]; [5]; [6]; [7]] 2 = Some (out, calls) /\
    mfold app [] id out = mfold app [] id [[1]; [2]; [3]; [4]; [5]; [6]; [7]].
Proof.
  apply (tree_reduce_preserves concat_chunk).
  - intros. apply app_assoc.
  - done.
  - intros. apply app_nil_r.
  - intros g level index. unfold concat_chunk, id, mfold. induction g; [done|]. cbn. by f_equal.
Defined.

(** ** Fold width *)

Lemma sqrt_width n : 1 < n -> n <= (Z.sqrt (n - 1) + 1) * (Z.sqrt (n - 1) + 1).
Proof. intros. destruct (Z.sqrt_spec (n - 1)); unfold Z.succ in *; lia. Qed.

(** [fold_width] never narrows the configured fan-in, never opens more than
    [max fan_in 32] inputs at once, and for at most 1024 sources leaves the tree
    reduction at most one interior level (two levels in all). *)
Theorem fold_width_two_levels fan_in sources :
  Z.max 1 fan_in <= fold_width fan_in sources <= Z.max (Z.max 1 fan_in) MAX_FOLD_WIDTH /\
  (sources <= MAX_FOLD_WIDTH * MAX_FOLD_WIDTH ->
   exists k, reduce_levels sources (fold_width fan_in sources) = Some k /\ k <= 1).
Proof.
  split; [unfold fold_width, MAX_FOLD_WIDTH; py_if; lia|]. unfold MAX_FOLD_WIDTH. intros Hs.
  set (w := fold_width fan_in sources).
  assert (Hw : sources <= Z.max 2 w * Z.max 2 w).
  { destruct (decide (sources <= 1)) as [Hle|Hgt]; [nia|].
    assert (Z.sqrt (sources - 1) + 1 <= w \/ sources <= w) as [Hw|Hw].
    { subst w. unfold fold_width, MAX_FOLD_WIDTH. pose proof (Z.sqrt_le_mono (sources - 1) 1023 ltac:(lia)) as Hm.
      change (Z.sqrt 1023) with 31 in Hm. py_if; lia. }
    - pose proof (sqrt_width sources ltac:(lia)).
      pose proof (Z.sqrt_nonneg (sources - 1)). nia.
    - nia. }
  destruct (reduce_levels_loop_spec (S (Z.to_nat sources)) (Z.max 2 w) sources 0)
    as (k & Hk & E & _ & Hlo); [lia..|].
  exists k. split; [exact E|].
  apply (pow_gap (Z.max 2 w) 1 k sources); [lia..| |done].
  change (1 + 1) with 2. rewrite Z.pow_2_r. done.
Qed.

Lemma fold_width_two_levels_witness :
  exists k, reduce_levels 256 (fold_width 8 256) = Some k /\ k <= 1.
Proof. apply (fold_width_two_levels 8 256). vm_compute. discriminate. Defined.

Example reduce_levels_doc :
  (reduce_levels 4 4, reduce_levels 8 4, reduce_levels 1000 4) = (Some 0, Some 1, Some 4).
Proof. reflexivity. Qed.

Example fold_width_doc : (fold_width 8 256, fold_width 8 64) = (16, 8).
Proof. reflexivity. Qed.

Example chunks_doc : chunks [0; 1; 2; 3; 4] 2 = [[0; 1]; [2; 3]; [4]].
Proof. reflexivity. Qed.

End TreeReduce.
