(* ===== verification/CheckpointLogs.v ===== *)
(** * Offset and commit logs

    The two implementations of a streaming checkpoint's logs: the SQLite tables of
    python/batcher/io/formats/streaming/checkpoint/logs.py and the file-per-batch
    documents of .../checkpoint/fs_logs.py.  [OffsetLog] and [CommitLog] are the
    contracts the rest of the checkpoint relies on; each implementation is an
    instance, so what is proved against the contract holds for both.  A source
    position is opaque JSON: the type [J]. *)

From S2P Require Import Prelude.

(** ** Highest batch id *)

(** [SELECT MAX(batch_id)]: [None] on an empty table. *)
Definition sql_max (ids : list Z) : option Z :=
  foldr (fun i acc => match acc with None => Some i | Some m => Some (Z.max i m) end) None ids.

(** [sorted(ids)[-1]], or [None] when there is nothing. *)
Definition sorted_last (ids : list Z) : option Z := last (merge_sort Z.le ids).

(** What "the highest id present" means for a set of ids given by a predicate. *)
Definition highest (P : Z -> Prop) (r : option Z) : Prop :=
  match r with
  | None => forall i, ~ P i
  | Some m => P m /\ forall i, P i -> i <= m
  end.

Lemma highest_unique P r r' : highest P r -> highest P r' -> r = r'.
Proof.
  destruct r as [m|], r' as [m'|]; cbn; try done.
  - intros [Hm Hle] [Hm' Hle']. f_equal. apply Z.le_antisymm; auto.
  - intros [Hm _] Hn. by destruct (Hn m).
  - intros Hn [Hm _]. by destruct (Hn m').
Qed.

Lemma highest_ext P Q r : (forall i, P i <-> Q i) -> highest P r -> highest Q r.
Proof.
  intros HPQ. destruct r as [m|]; cbn.
  - intros [Hm Hle]. split; [by apply HPQ|]. intros i Hi. by apply Hle, HPQ.
  - intros Hn i Hi. by apply (Hn i), HPQ.
Qed.

Lemma sql_max_highest ids : highest (fun i => i ∈ ids) (sql_max ids).
Proof.
  induction ids as [|i ids IH]; [intros i Hi; by apply elem_of_nil in Hi|].
  change (sql_max (i :: ids)) with
    (match sql_max ids with None => Some i | Some m => Some (Z.max i m) end).
  destruct (sql_max ids) as [m|]; cbn in *.
  - destruct IH as [Hm Hle]. split.
    + destruct (Z.max_spec i m) as [[_ ->]|[_ ->]]; set_solver.
    + intros j [->|Hj]%elem_of_cons; [lia|]. specialize (Hle j Hj). lia.
  - split; [set_solver|]. intros j [->|Hj]%elem_of_cons; [lia|]. by destruct (IH j).
Qed.

Lemma sorted_last_highest ids : highest (fun i => i ∈ ids) (sorted_last ids).
Proof.
  unfold sorted_last.
  pose proof (merge_sort_Permutation Z.le ids) as Hp.
  pose proof (StronglySorted_merge_sort Z.le ids) as Hs.
  destruct (last (merge_sort Z.le ids)) as [m|] eqn:E; cbn.
  - apply last_Some in E as [l E]. rewrite E in Hs, Hp. split.
    + rewrite <- Hp. set_solver.
    + intros i Hi. rewrite <- Hp in Hi. clear Hp E. induction l as [|x l IH].
      { apply list_elem_of_singleton in Hi. lia. }
      cbn in Hs. inv Hs. apply elem_of_cons in Hi as [->|Hi]; [|auto].
      rewrite Forall_forall in *. set_solver.
  - apply last_None in E. rewrite E in Hp. intros i Hi. rewrite <- Hp in Hi. set_solver.
Qed.

(** ** The contracts *)

Class OffsetLog (L J : Type) := {
  ol_new : L;
  ol_record : L -> Z -> Z -> J -> L;
  ol_latest_batch : L -> option Z;
  ol_position_at : L -> Z -> gmap Z J;
  ol_prune : L -> Z -> L;
  ol_ok : L -> Prop;  (* an invariant of the stored representation *)
  ol_ok_new : ol_ok ol_new;
  ol_ok_record : forall l b s j, ol_ok l -> ol_ok (ol_record l b s j);
  ol_ok_prune : forall l k, ol_ok l -> ol_ok (ol_prune l k);
  ol_position_new : forall b, ol_position_at ol_new b = ∅;
  ol_position_record : forall l b s j b',
    ol_position_at (ol_record l b s j) b' =
      if decide (b = b') then <[s := j]> (ol_position_at l b') else ol_position_at l b';
  ol_position_prune : forall l k b,
    ol_position_at (ol_prune l k) b = if decide (b < k) then ∅ else ol_position_at l b;
  ol_latest_spec : forall l, ol_ok l ->
    highest (fun b => ol_position_at l b <> ∅) (ol_latest_batch l);
}.

Class CommitLog (L : Type) := {
  cl_new : L;
  cl_commit : L -> Z -> option string -> L;
  cl_last_committed : L -> option Z;
  cl_sink_token : L -> Z -> option string;
  cl_is_committed : L -> Z -> bool;
  cl_prune : L -> Z -> L;
  cl_committed_new : forall b, cl_is_committed cl_new b = false;
  cl_committed_commit : forall l b t b',
    cl_is_committed (cl_commit l b t) b' = (bool_decide (b = b') || cl_is_committed l b');
  cl_token_commit : forall l b t b',
    cl_sink_token (cl_commit l b t) b' = if decide (b = b') then t else cl_sink_token l b';
  cl_token_new : forall b, cl_sink_token cl_new b = None;
  cl_token_prune : forall l k b,
    cl_sink_token (cl_prune l k) b = if decide (b < k) then None else cl_sink_token l b;
  cl_committed_prune : forall l k b,
    cl_is_committed (cl_prune l k) b = negb (b <? k) && cl_is_committed l b;
  cl_last_spec : forall l, highest (fun b => cl_is_committed l b = true) (cl_last_committed l);
}.

(** ** SQLite tables (logs.py) *)

Module SqliteLogs.
Section Tables.
Context {J : Type}.

(** Table [offsets], primary key [(batch_id, source_id)]. *)
Abbreviation offsets_table := (gmap (Z * Z) J).

(** [INSERT ... ON CONFLICT(batch_id, source_id) DO UPDATE SET position]. *)
Definition record (t : offsets_table) (batch_id source_id : Z) (position : J) : offsets_table :=
  <[(batch_id, source_id) := position]> t.

(** [SELECT MAX(batch_id) FROM offsets]. *)
Definition latest_batch (t : offsets_table) : option Z :=
  sql_max (map (fun r => fst (fst r)) (map_to_list t)).

(** [{sid: pos ... WHERE batch_id = ?}]. *)
Definition select (batch_id : Z) (rows : list (Z * Z * J)) : list (Z * J) :=
  omap (fun '((b, s), p) => if decide (b = batch_id) then Some (s, p) else None) rows.

Definition position_at (t : offsets_table) (batch_id : Z) : gmap Z J :=
  list_to_map (select batch_id (map_to_list t)).

(** [DELETE FROM offsets WHERE batch_id < ?]. *)
Definition prune (t : offsets_table) (keep_through : Z) : offsets_table :=
  filter (fun r => ~ fst (fst r) < keep_through) t.

Lemma select_nodup b rows : NoDup rows.*1 -> NoDup (select b rows).*1.
Proof.
  unfold select. induction rows as [|[[b' s'] p'] l IH]; cbn; [constructor|].
  intros [Hni Hnd]%NoDup_cons. case_decide; cbn; [|by apply IH].
  constructor; [|by apply IH]. intros Hin. apply Hni. subst.
  apply list_elem_of_fmap in Hin as ([s'' p''] & -> & Hin).
  apply list_elem_of_omap in Hin as ([[b0 s0] p0] & Hin & Heq). case_decide; simplify_eq.
  by apply (list_elem_of_fmap_2 fst) in Hin.
Qed.

Lemma position_at_lookup t b s : position_at t b !! s = t !! (b, s).
Proof.
  unfold position_at. apply option_eq. intros p.
  rewrite <- elem_of_list_to_map.
  - unfold select. rewrite list_elem_of_omap. split.
    + intros ([[b' s'] p'] & Hin & Heq). case_decide; simplify_eq.
      by apply elem_of_map_to_list.
    + intros Hin. exists ((b, s), p).
      split; [by apply elem_of_map_to_list|]. by rewrite decide_True.
  - apply select_nodup, NoDup_fst_map_to_list.
Qed.

Lemma position_at_nonempty t b :
  position_at t b <> ∅ <-> b ∈ map (fun r => fst (fst r)) (map_to_list t).
Proof.
  split.
  - intros Hne. apply map_choose in Hne as (s & p & Hs).
    rewrite position_at_lookup in Hs. apply elem_of_map_to_list in Hs.
    by apply (list_elem_of_fmap_2 (fun r => fst (fst r))) in Hs.
  - intros ([[b' s] p] & -> & Hin)%list_elem_of_fmap. cbn.
    apply elem_of_map_to_list in Hin. rewrite <- position_at_lookup in Hin.
    intros He. by rewrite He in Hin.
Qed.

#[export] Program Instance offset_log : OffsetLog offsets_table J := {|
  ol_new := ∅; ol_record := record; ol_latest_batch := latest_batch;
  ol_position_at := position_at; ol_prune := prune; ol_ok := fun _ => True;
|}.
Next Obligation. done. Qed.
Next Obligation. done. Qed.
Next Obligation. done. Qed.
Next Obligation. intros b. apply map_eq. intros s. by rewrite position_at_lookup, !lookup_empty. Qed.
Next Obligation.
  intros t b s j b'. apply map_eq. intros s'. unfold record. rewrite position_at_lookup.
  case_decide as Hb; subst.
  - destruct (decide (s = s')) as [->|Hs].
    + by rewrite !lookup_insert_eq.
    + rewrite !lookup_insert_ne by congruence. by rewrite position_at_lookup.
  - rewrite lookup_insert_ne by congruence. by rewrite position_at_lookup.
Qed.
Next Obligation.
  intros t k b. apply map_eq. intros s. unfold prune. rewrite position_at_lookup.
  destruct (t !! (b, s)) as [p|] eqn:E.
  - case_decide as Hb.
    + rewrite lookup_empty. apply map_lookup_filter_None. right. intros p' Hp'. cbn. lia.
    + rewrite position_at_lookup, E. apply map_lookup_filter_Some. auto.
  - rewrite (proj2 (map_lookup_filter_None _ _ _)) by auto.
    case_decide; [done|]. by rewrite position_at_lookup.
Qed.
Next Obligation.
  intros t _. eapply highest_ext; [|apply sql_max_highest].
  intros b. symmetry. apply position_at_nonempty.
Qed.
End Tables.

(** Table [commits]: [batch_id] to a nullable [sink_token]. *)
Abbreviation commits_table := (gmap Z (option string)).

Definition commit (t : commits_table) (batch_id : Z) (sink_token : option string)
    : commits_table := <[batch_id := sink_token]> t.

Definition last_committed (t : commits_table) : option Z :=
  sql_max (map fst (map_to_list t)).

Definition sink_token (t : commits_table) (batch_id : Z) : option string :=
  match t !! batch_id with Some tok => tok | None => None end.

Definition is_committed (t : commits_table) (batch_id : Z) : bool :=
  bool_decide (is_Some (t !! batch_id)).

Definition prune_commits (t : commits_table) (keep_through : Z) : commits_table :=
  filter (fun r => ~ fst r < keep_through) t.

Lemma elem_of_keys {A} (t : gmap Z A) b :
  b ∈ map fst (map_to_list t) <-> is_Some (t !! b).
Proof.
  split.
  - intros ([b' x] & -> & Hin)%list_elem_of_fmap. apply elem_of_map_to_list in Hin. eauto.
  - intros [x Hx]. apply elem_of_map_to_list in Hx. by apply (list_elem_of_fmap_2 fst) in Hx.
Qed.

Lemma filter_keys {A} (t : gmap Z A) k b :
  filter (fun r => ~ fst r < k) t !! b = if decide (b < k) then None else t !! b.
Proof.
  destruct (t !! b) as [p|] eqn:E; case_decide as Hb.
  - apply map_lookup_filter_None. right. intros; cbn; lia.
  - apply map_lookup_filter_Some. auto.
  - apply map_lookup_filter_None; auto.
  - apply map_lookup_filter_None; auto.
Qed.

Lemma is_committed_insert (t : commits_table) b (x : option string) b' :
  is_committed (<[b := x]> t) b' = bool_decide (b = b') || is_committed t b'.
Proof.
  unfold is_committed. destruct (decide (b = b')) as [->|Hb].
  - rewrite lookup_insert_eq, (bool_decide_eq_true_2 (b' = b')) by done. by apply bool_decide_eq_true_2.
  - rewrite lookup_insert_ne, (bool_decide_eq_false_2 (b = b')) by done. done.
Qed.

Lemma is_committed_filter (t : commits_table) k b :
  is_committed (filter (fun r => ~ fst r < k) t) b = negb (b <? k) && is_committed t b.
Proof.
  unfold is_committed. rewrite filter_keys. case_decide as Hb.
  - by rewrite (proj2 (Z.ltb_lt b k)) by done.
  - rewrite (proj2 (Z.ltb_ge b k)) by lia. done.
Qed.

#[export] Program Instance commit_log : CommitLog commits_table := {|
  cl_new := ∅; cl_commit := commit; cl_last_committed := last_committed;
  cl_sink_token := sink_token; cl_is_committed := is_committed; cl_prune := prune_commits;
|}.
Next Obligation. intros b. unfold is_committed. apply bool_decide_eq_false_2. by intros []. Qed.
Next Obligation. intros. apply is_committed_insert. Qed.
Next Obligation.
  intros t b tok b'. unfold sink_token, commit. case_decide; subst.
  - by rewrite lookup_insert_eq.
  - by rewrite lookup_insert_ne by done.
Qed.
Next Obligation. intros b. unfold sink_token. by rewrite lookup_empty. Qed.
Next Obligation.
  intros t k b. unfold sink_token, prune_commits. rewrite filter_keys. by case_decide.
Qed.
Next Obligation. intros. apply is_committed_filter. Qed.
Next Obligation.
  intros t. eapply highest_ext; [|apply sql_max_highest]. intros b. cbn.
  rewrite elem_of_keys. unfold is_committed. by rewrite bool_decide_eq_true.
Qed.
End SqliteLogs.

(** ** One JSON document per batch id (fs_logs.py) *)

Module FileLogs.
Section Documents.
(** [_FileLog]: a directory of documents of type [D].  Both backends land a file
    atomically, so a document is either absent or whole. *)
Context {D : Type}.
Abbreviation directory := (gmap Z D).

(** [_batch_ids]: every id present, ascending. *)
Definition batch_ids (d : directory) : list Z := merge_sort Z.le (map fst (map_to_list d)).

Definition load (d : directory) (batch_id : Z) : option D := d !! batch_id.
Definition store (d : directory) (batch_id : Z) (document : D) : directory :=
  <[batch_id := document]> d.
(** [_latest]: [ids[-1] if ids else None]. *)
Definition latest (d : directory) : option Z := last (batch_ids d).
(** [_prune]: remove every document below [keep_through]. *)
Definition prune (d : directory) (keep_through : Z) : directory :=
  foldl (fun d bid => if bid <? keep_through then delete bid d else d) d (batch_ids d).

Lemma latest_highest d : highest (fun b => is_Some (load d b)) (latest d).
Proof.
  unfold latest, batch_ids. eapply highest_ext; [|apply sorted_last_highest].
  intros b. apply SqliteLogs.elem_of_keys.
Qed.

Lemma log_prune_fold_lookup ids (d : directory) k b :
  foldl (fun d bid => if bid <? k then delete bid d else d) d ids !! b =
    if decide (b < k /\ b ∈ ids) then None else d !! b.
Proof.
  revert d. induction ids as [|i ids IH]; intros d; cbn [foldl].
  - rewrite decide_False; [done|]. intros [_ Hin]. by apply elem_of_nil in Hin.
  - rewrite IH. destruct (decide (b < k /\ b ∈ ids)) as [[? ?]|Hn].
    + rewrite decide_True; [done|]. split; [done|]. by right.
    + destruct (i <? k) eqn:Hi.
      * destruct (decide (i = b)) as [->|Hne].
        -- rewrite lookup_delete_eq, decide_True; [done|].
           split; [by apply Z.ltb_lt|]. by left.
        -- rewrite lookup_delete_ne by done. case_decide as Hd; [|done].
           destruct Hn. destruct Hd as [? [?|?]%elem_of_cons]; [congruence|done].
      * case_decide as Hd; [|done]. destruct Hn.
        destruct Hd as [? [->|?]%elem_of_cons]; [apply Z.ltb_ge in Hi; lia|done].
Qed.

Lemma prune_lookup d k b : prune d k !! b = if decide (b < k) then None else d !! b.
Proof.
  unfold prune. rewrite log_prune_fold_lookup.
  assert (b ∈ batch_ids d <-> is_Some (d !! b)) as Hids.
  { unfold batch_ids. rewrite (merge_sort_Permutation Z.le). apply SqliteLogs.elem_of_keys. }
  destruct (decide (b < k)) as [Hlt|Hge]; case_decide as Hd; [done| |lia|done].
  destruct (d !! b) as [x|]; [|done]. destruct Hd. split; [done|]. apply Hids. eauto.
Qed.
End Documents.

Section Offsets.
Context {J : Type}.
(** A batch's offset document: [str(source_id)] to position; decimal strings of
    integers are injective, so the keys are the integers. *)
Abbreviation offset_dir := (gmap Z (gmap Z J)).

(** [record]: read-modify-write of the batch's document. *)
Definition record (d : offset_dir) (batch_id source_id : Z) (position : J) : offset_dir :=
  let document := default ∅ (load d batch_id) in
  store d batch_id (<[source_id := position]> document).

Definition position_at (d : offset_dir) (batch_id : Z) : gmap Z J :=
  match load d batch_id with None => ∅ | Some document => document end.

(** Documents are never empty: [record] is the only writer. *)
Definition docs_ok (d : offset_dir) : Prop := forall b, d !! b <> Some ∅.

#[export] Program Instance offset_log : OffsetLog offset_dir J := {|
  ol_new := ∅; ol_record := record; ol_latest_batch := latest;
  ol_position_at := position_at; ol_prune := prune; ol_ok := docs_ok;
|}.
Next Obligation. intros b. by rewrite lookup_empty. Qed.
Next Obligation.
  intros d b s j Hok b'. unfold record, store. destruct (decide (b = b')) as [->|Hb].
  - rewrite lookup_insert_eq. intros [= He]. by apply insert_non_empty in He.
  - rewrite lookup_insert_ne by done. apply Hok.
Qed.
Next Obligation. intros d k Hok b. rewrite prune_lookup. case_decide; [done|apply Hok]. Qed.
Next Obligation. intros b. unfold position_at, load. by rewrite lookup_empty. Qed.
Next Obligation.
  intros d b s j b'. unfold position_at, record, load, store. case_decide; subst.
  - rewrite lookup_insert_eq. by destruct (d !! b').
  - by rewrite lookup_insert_ne by done.
Qed.
Next Obligation.
  intros d k b. unfold position_at, load. rewrite prune_lookup. by case_decide.
Qed.
Next Obligation.
  intros d Hok. eapply highest_ext; [|apply latest_highest]. intros b.
  unfold position_at, load. pose proof (Hok b). destruct (d !! b); split; intros; try done; congruence.
Qed.
End Offsets.

(** [FileCommitLog]: the document is [{"sink_token": token}]. *)
Definition commit (d : gmap Z (option string)) (batch_id : Z) (sink_token : option string) :=
  store d batch_id sink_token.
Definition last_committed (d : gmap Z (option string)) : option Z := latest d.
Definition sink_token (d : gmap Z (option string)) (batch_id : Z) : option string :=
  match load d batch_id with None => None | Some token => token end.
Definition is_committed (d : gmap Z (option string)) (batch_id : Z) : bool :=
  match d !! batch_id with Some _ => true | None => false end.

#[export] Program Instance commit_log : CommitLog (gmap Z (option string)) := {|
  cl_new := ∅; cl_commit := commit; cl_last_committed := last_committed;
  cl_sink_token := sink_token; cl_is_committed := is_committed; cl_prune := prune;
|}.
Next Obligation. intros b. unfold is_committed. by rewrite lookup_empty. Qed.
Next Obligation.
  intros d b t b'. unfold is_committed, commit, store. destruct (decide (b = b')) as [->|Hb].
  - rewrite lookup_insert_eq. by rewrite bool_decide_eq_true_2.
  - rewrite lookup_insert_ne by done. by rewrite bool_decide_eq_false_2.
Qed.
Next Obligation.
  intros d b t b'. unfold sink_token, commit, store, load. case_decide; subst.
  - by rewrite lookup_insert_eq.
  - by rewrite lookup_insert_ne by done.
Qed.
Next Obligation. intros b. unfold sink_token, load. by rewrite lookup_empty. Qed.
Next Obligation.
  intros d k b. unfold sink_token, load. rewrite prune_lookup. by case_decide.
Qed.
Next Obligation.
  intros d k b. unfold is_committed. rewrite prune_lookup. case_decide as Hb.
  - by rewrite (proj2 (Z.ltb_lt b k)) by done.
  - by rewrite (proj2 (Z.ltb_ge b k)) by lia.
Qed.
Next Obligation.
  intros d. eapply highest_ext; [|apply latest_highest]. intros b. cbn.
  unfold is_committed, load. destruct (d !! b); split; intros; try done.
Qed.
End FileLogs.

(** ** Conformance of the two implementations

    A log is driven by a sequence of operations; two implementations of the contract
    answer every query alike after the same sequence. *)

Module Conformance.

Inductive offset_op (J : Type) :=
  | Record (batch_id source_id : Z) (position : J)
  | Prune (keep_through : Z).
Arguments Record {J}.
Arguments Prune {J}.

Inductive commit_op := Commit (batch_id : Z) (token : option string) | PruneCommits (keep : Z).

Section Drive.
Context {J : Type}.

Definition run_offset {L} `{OffsetLog L J} (ops : list (offset_op J)) : L :=
  foldl (fun l op => match op with
                     | Record b s j => ol_record l b s j
                     | Prune k => ol_prune l k
                     end) ol_new ops.

Definition run_commit {L} `{CommitLog L} (ops : list commit_op) : L :=
  foldl (fun l op => match op with
                     | Commit b t => cl_commit l b t
                     | PruneCommits k => cl_prune l k
                     end) cl_new ops.

Lemma run_offset_snoc {L} `{OffsetLog L J} ops op :
  run_offset (L := L) (ops ++ [op]) =
    match op with
    | Record b s j => ol_record (run_offset ops) b s j
    | Prune k => ol_prune (run_offset ops) k
    end.
Proof. unfold run_offset. by rewrite foldl_snoc. Qed.

Lemma run_commit_snoc {L} `{CommitLog L} ops op :
  run_commit (L := L) (ops ++ [op]) =
    match op with
    | Commit b t => cl_commit (run_commit ops) b t
    | PruneCommits k => cl_prune (run_commit ops) k
    end.
Proof. unfold run_commit. by rewrite foldl_snoc. Qed.

Lemma run_offset_ok {L} `{OffsetLog L J} ops : ol_ok (run_offset (L := L) ops).
Proof.
  induction ops as [|[b s j|k] ops IH] using rev_ind; [apply ol_ok_new|..];
    rewrite run_offset_snoc; auto using ol_ok_record, ol_ok_prune.
Qed.

Lemma offset_logs_agree {L1 L2} `{OffsetLog L1 J} `{OffsetLog L2 J} ops :
  (forall b, ol_position_at (run_offset (L := L1) ops) b =
             ol_position_at (run_offset (L := L2) ops) b) /\
  ol_latest_batch (run_offset (L := L1) ops) = ol_latest_batch (run_offset (L := L2) ops).
Proof.
  assert (forall b, ol_position_at (run_offset (L := L1) ops) b =
                    ol_position_at (run_offset (L := L2) ops) b) as Heq.
  { induction ops as [|[b s j|k] ops IH] using rev_ind; intros b'.
    - unfold run_offset. cbn. by rewrite !ol_position_new.
    - rewrite !run_offset_snoc, !ol_position_record, IH. done.
    - rewrite !run_offset_snoc, !ol_position_prune, IH. done. }
  split; [done|]. eapply highest_unique; [apply ol_latest_spec, run_offset_ok|].
  eapply highest_ext; [|apply ol_latest_spec, run_offset_ok].
  intros b. cbn. by rewrite Heq.
Qed.

Lemma commit_logs_agree {L1 L2} `{CommitLog L1} `{CommitLog L2} ops :
  (forall b, cl_is_committed (run_commit (L := L1) ops) b =
             cl_is_committed (run_commit (L := L2) ops) b) /\
  (forall b, cl_sink_token (run_commit (L := L1) ops) b =
             cl_sink_token (run_commit (L := L2) ops) b) /\
  cl_last_committed (run_commit (L := L1) ops) = cl_last_committed (run_commit (L := L2) ops).
Proof.
  assert (forall b, cl_sink_token (run_commit (L := L1) ops) b =
                    cl_sink_token (run_commit (L := L2) ops) b) as Htok.
  { induction ops as [|[b t|k] ops IH] using rev_ind; intros b'.
    - unfold run_commit. cbn. by rewrite !cl_token_new.
    - by rewrite !run_commit_snoc, !cl_token_commit, IH.
    - by rewrite !run_commit_snoc, !cl_token_prune, IH. }
  assert (forall b, cl_is_committed (run_commit (L := L1) ops) b =
                    cl_is_committed (run_commit (L := L2) ops) b) as Heq.
  { clear Htok. induction ops as [|[b t|k] ops IH] using rev_ind; intros b'.
    - unfold run_commit. cbn. by rewrite !cl_committed_new.
    - by rewrite !run_commit_snoc, !cl_committed_commit, IH.
    - by rewrite !run_commit_snoc, !cl_committed_prune, IH. }
  split_and!; [done..|].
  eapply highest_unique; [apply cl_last_spec|].
  eapply highest_ext; [|apply cl_last_spec]. intros b. cbn. by rewrite Heq.
Qed.
End Drive.

(** C10: the SQLite logs and the file-per-batch logs are interchangeable: after any
    sequence of [record], [commit] and [prune] calls they report the same positions
    for every batch, the same latest recorded batch, the same committed batches,
    sink tokens and last committed batch. *)
Theorem logs_conform {J} (ops : list (offset_op J)) (cops : list commit_op) :
  let sq := run_offset (H := SqliteLogs.offset_log) ops in
  let fs := run_offset (H := FileLogs.offset_log) ops in
  let csq := run_commit (H := SqliteLogs.commit_log) cops in
  let cfs := run_commit (H := FileLogs.commit_log) cops in
  (forall b, SqliteLogs.position_at sq b = FileLogs.position_at fs b) /\
  SqliteLogs.latest_batch sq = FileLogs.latest fs /\
  (forall b, SqliteLogs.is_committed csq b = FileLogs.is_committed cfs b) /\
  (forall b, SqliteLogs.sink_token csq b = FileLogs.sink_token cfs b) /\
  SqliteLogs.last_committed csq = FileLogs.last_committed cfs.
Proof.
  cbn zeta.
  destruct (offset_logs_agree (H := SqliteLogs.offset_log) (H0 := FileLogs.offset_log) ops) as [H1 H2].
  destruct (commit_logs_agree (H := SqliteLogs.commit_log) (H0 := FileLogs.commit_log) cops) as (H3 & H4 & H5).
  split_and!; done.
Qed.

End Conformance.
