(* ===== verification/CheckpointStore.v ===== *)
(** * The checkpoint store and the recovery decision

    [StateStore] models python/batcher/io/formats/streaming/checkpoint/state_store.py
    (the files of the [state/] directory and the snapshot/delta chain), [Store] the
    [CheckpointStore] of .../checkpoint/store.py over any pair of logs that meet the
    contracts of [CheckpointLogs], and [recover] the decision of
    .../checkpoint/recovery.py.  A file's content is the list of record batches it
    holds ([T] is a record batch); the temporary files of a local write never appear
    under a state file's name, so the directory is a map from names to contents. *)

From S2P Require Import Prelude CheckpointLogs.

(** ** State files *)

Module StateStore.

(** A parsed state file name, [(batch_id, is_delta)], in Python's tuple order. *)
Definition key := (Z * bool)%type.

Definition key_le (a b : key) : Prop :=
  fst a < fst b \/ (fst a = fst b /\ (snd a = true -> snd b = true)).

#[global] Instance key_le_dec a b : Decision (key_le a b).
Proof. unfold key_le. apply _. Defined.
#[global] Instance key_le_trans : Transitive key_le.
Proof. intros [a a'] [b b'] [c c']. unfold key_le; cbn. intuition lia || (destruct b'; intuition lia). Qed.
#[global] Instance key_le_total : Total key_le.
Proof.
  intros [a a'] [b b']. unfold key_le; cbn.
  destruct (Z.lt_trichotomy a b) as [?|[?|?]]; destruct a', b'; intuition lia.
Qed.
#[global] Instance key_le_antisymm : AntiSymm (=) key_le.
Proof.
  intros [a a'] [b b']. unfold key_le; cbn. intros [?|[? ?]] [?|[? ?]]; try lia.
  f_equal; [lia|]. destruct a', b'; intuition congruence.
Qed.

Section Files.
Context {T : Type}.
Abbreviation files := (gmap key (list T)).

(** [_index]: every state file, oldest first. *)
Definition index (d : files) : list key := merge_sort key_le (map fst (map_to_list d)).

(** [_write]: a local write of no parts leaves the directory untouched. *)
Definition write (d : files) (k : key) (parts : list T) : files :=
  match parts with [] => d | _ => <[k := parts]> d end.

(** [snapshot]: write the whole state, then drop the other kind for this id. *)
Definition snapshot (d : files) (batch_id : Z) (parts : list T) : files :=
  delete (batch_id, true) (write d (batch_id, false) parts).

(** [snapshot_delta]. *)
Definition snapshot_delta (d : files) (batch_id : Z) (delta : T) : files :=
  delete (batch_id, false) (write d (batch_id, true) [delta]).

(** [_read]: [[]] when the file is absent. *)
Definition read (d : files) (k : key) : list T := default [] (d !! k).

(** The loop that finds the newest snapshot at or before [batch_id]. *)
Definition newest_snapshot (idx : list key) (batch_id : Z) (start : option Z) : option Z :=
  foldl (fun base '(bid, is_delta) =>
    if negb is_delta && (bid <=? batch_id) then Some bid else base) start idx.

(** [restore_chain]: the base, then every delta after it through [batch_id]. *)
Definition restore_chain (d : files) (batch_id : Z) : list T :=
  let idx := index d in
  let base_id := newest_snapshot idx batch_id None in
  let base := match base_id with Some b => read d (b, false) | None => [] end in
  let floor := default (-1) base_id in
  base ++ concat (map (read d)
    (filter (fun k => snd k = true /\ floor < fst k /\ fst k <= batch_id) idx)).

(** [restore]. *)
Definition restore (d : files) (batch_id : Z) : option T := head (restore_chain d batch_id).

(** The names [prune] removes, in the order it removes them. *)
Definition prune_list (d : files) (keep_through : Z) : list key :=
  let idx := index d in
  let floor := default keep_through (newest_snapshot idx keep_through None) in
  filter (fun k => fst k < floor) idx.

(** Removing the files of a list of names, one by one. *)
Definition remove_all (d : files) (names : list key) : files :=
  foldl (fun d k => delete k d) d names.

Definition prune (d : files) (keep_through : Z) : files :=
  remove_all d (prune_list d keep_through).
End Files.

Section Chain.
Context {T : Type}.
Implicit Types d : gmap key (list T).

Lemma elem_of_index d k : k ∈ index d <-> is_Some (d !! k).
Proof.
  unfold index. rewrite (merge_sort_Permutation key_le). split.
  - intros ([k' x] & -> & Hin)%list_elem_of_fmap. apply elem_of_map_to_list in Hin. eauto.
  - intros [x Hx]. apply elem_of_map_to_list in Hx. by apply (list_elem_of_fmap_2 fst) in Hx.
Qed.

Lemma index_sorted d : StronglySorted key_le (index d).
Proof. apply (StronglySorted_merge_sort key_le). Qed.

Lemma index_nodup d : NoDup (index d).
Proof.
  unfold index. rewrite (merge_sort_Permutation key_le). apply NoDup_fst_map_to_list.
Qed.

Lemma filter_sorted (P : key -> Prop) `{!forall k, Decision (P k)} l :
  StronglySorted key_le l -> StronglySorted key_le (filter P l).
Proof.
  induction 1 as [|x l Hs IH Hx]; [constructor|]. rewrite filter_cons. case_decide; [|done].
  constructor; [done|]. rewrite Forall_forall in *. intros y [_ Hy]%list_elem_of_filter. auto.
Qed.

(** A filtered listing is determined by which names it contains. *)
Lemma filter_index_unique (P : key -> Prop) `{!forall k, Decision (P k)} d l :
  StronglySorted key_le l -> NoDup l ->
  (forall k, k ∈ l <-> is_Some (d !! k) /\ P k) -> filter P (index d) = l.
Proof.
  intros Hs Hnd Hl. apply (StronglySorted_unique key_le).
  - apply filter_sorted, index_sorted.
  - done.
  - apply NoDup_Permutation; [apply NoDup_filter, index_nodup|done|].
    intros k. rewrite list_elem_of_filter, elem_of_index, Hl. tauto.
Qed.

(** Which names exist decides the newest snapshot. *)
Definition snap_at d (id b : Z) : Prop := b <= id /\ is_Some (d !! (b, false)).

Lemma newest_snapshot_cons x l id start :
  newest_snapshot (x :: l) id start =
    newest_snapshot l id (if negb (snd x) && (fst x <=? id) then Some (fst x) else start).
Proof. unfold newest_snapshot. by destruct x. Qed.

Lemma newest_snapshot_fold l id start :
  StronglySorted key_le l ->
  (forall b, start = Some b -> Forall (fun k => b <= fst k) l) ->
  match newest_snapshot l id start with
  | Some b => (start = Some b \/ (b <= id /\ (b, false) ∈ l)) /\
              (forall b', (b', false) ∈ l -> b' <= id -> b' <= b) /\
              (forall b', start = Some b' -> b' <= b)
  | None => start = None /\ forall b', (b', false) ∈ l -> ~ b' <= id
  end.
Proof.
  intros Hs. revert start. induction Hs as [|[b t] l Hs IH Hx]; intros start Hst.
  - cbn. destruct start as [b|]; [|set_solver].
    split_and!; [by left|set_solver|by intros b' [= ->]].
  - rewrite newest_snapshot_cons. cbn [fst snd].
    assert (forall k, k ∈ l -> b <= fst k) as Hb.
    { rewrite Forall_forall in Hx. intros k Hk. destruct (Hx k Hk) as [?|[? _]]; cbn in *; lia. }
    assert (forall b', start = Some b' -> b' <= b) as Hsb.
    { intros b' Hb'. specialize (Hst b' Hb'). rewrite Forall_cons in Hst. apply Hst. }
    destruct (negb t && (b <=? id)) eqn:Ht.
    + apply andb_prop in Ht as [Hn Hle]. apply Z.leb_le in Hle. destruct t; [done|].
      specialize (IH (Some b)). destruct (newest_snapshot l id (Some b)) as [r|] eqn:E.
      * destruct IH as (Hin & Hmax & Hst').
        { intros b0 [= <-]. by apply Forall_forall. }
        split_and!.
        -- right. destruct Hin as [[= ->]|[? ?]]; [|set_solver]. set_solver.
        -- intros b' [[= ->]|Hb']%elem_of_cons Hle'; [by apply Hst'|by apply Hmax].
        -- intros b' Hb'. specialize (Hsb b' Hb'). specialize (Hst' b eq_refl). lia.
      * destruct IH as [? _]; [|done]. intros b0 [= <-]. by apply Forall_forall.
    + specialize (IH start). destruct (newest_snapshot l id start) as [r|] eqn:E.
      * destruct IH as (Hin & Hmax & Hst').
        { intros b0 Hb0. specialize (Hst b0 Hb0). by apply Forall_cons in Hst as [_ ?]. }
        split_and!; [|intros b' [[= -> <-]|Hb']%elem_of_cons Hle'|done].
        -- destruct Hin as [?|[? ?]]; [by left|right; set_solver].
        -- cbn in Ht. apply Z.leb_gt in Ht. lia.
        -- by apply Hmax.
      * destruct IH as [-> Hn].
        { intros b0 Hb0. specialize (Hst b0 Hb0). by apply Forall_cons in Hst as [_ ?]. }
        split; [done|]. intros b' [[= -> <-]|Hb']%elem_of_cons; [|by apply Hn].
        cbn in Ht. apply Z.leb_gt in Ht. lia.
Qed.

Lemma newest_snapshot_highest d id :
  highest (snap_at d id) (newest_snapshot (index d) id None).
Proof.
  pose proof (newest_snapshot_fold (index d) id None (index_sorted d)) as H.
  unfold snap_at. destruct (newest_snapshot _ _ _) as [b|]; cbn.
  - destruct H as (Hin & Hmax & _); [done|]. destruct Hin as [?|[? Hin]]; [done|].
    rewrite elem_of_index in Hin. split; [done|]. intros b' [Hle Hb'].
    apply Hmax; [by rewrite elem_of_index|done].
  - destruct H as [_ H]; [done|]. intros b [Hle Hb]. apply (H b); [by rewrite elem_of_index|done].
Qed.

(** The chain, computed from any correct base and delta listing. *)
Definition in_chain (r : option Z) (id : Z) (k : key) : Prop :=
  snd k = true /\ default (-1) r < fst k /\ fst k <= id.

Definition base_parts d (r : option Z) : list T :=
  match r with Some b => read d (b, false) | None => [] end.

Lemma restore_chain_spec d id r l :
  highest (snap_at d id) r -> StronglySorted key_le l -> NoDup l ->
  (forall k, k ∈ l <-> is_Some (d !! k) /\ in_chain r id k) ->
  restore_chain d id = base_parts d r ++ concat (map (read d) l).
Proof.
  intros Hr Hs Hnd Hl. unfold restore_chain.
  rewrite (highest_unique _ _ _ (newest_snapshot_highest d id) Hr).
  by rewrite (filter_index_unique _ d l Hs Hnd Hl).
Qed.

Definition delta_list d (r : option Z) (id : Z) : list key :=
  filter (fun k => snd k = true /\ default (-1) r < fst k /\ fst k <= id) (index d).

Lemma delta_list_sorted d r id : StronglySorted key_le (delta_list d r id).
Proof. apply filter_sorted, index_sorted. Qed.
Lemma delta_list_nodup d r id : NoDup (delta_list d r id).
Proof. apply NoDup_filter, index_nodup. Qed.
Lemma elem_of_delta_list d r id k :
  k ∈ delta_list d r id <-> is_Some (d !! k) /\ in_chain r id k.
Proof. unfold delta_list, in_chain. rewrite list_elem_of_filter, elem_of_index. tauto. Qed.

Lemma restore_chain_unfold d id r :
  highest (snap_at d id) r ->
  restore_chain d id = base_parts d r ++ concat (map (read d) (delta_list d r id)).
Proof.
  intros Hr. apply restore_chain_spec;
    auto using delta_list_sorted, delta_list_nodup, elem_of_delta_list.
Qed.

Lemma map_read_ext d d' l :
  (forall k, k ∈ l -> d !! k = d' !! k) -> map (read d) l = map (read d') l.
Proof. intros H. apply map_ext_in. intros k Hk%list_elem_of_In. unfold read. by rewrite H. Qed.

(** Two directories give one chain when they have the same newest snapshot and
    agree on it and on the deltas after it. *)
Lemma restore_chain_agree d d' id r :
  highest (snap_at d id) r -> highest (snap_at d' id) r ->
  (forall b, r = Some b -> d !! (b, false) = d' !! (b, false)) ->
  (forall k, in_chain r id k -> d !! k = d' !! k) ->
  restore_chain d id = restore_chain d' id.
Proof.
  intros Hr Hr' Hbase Hdelta. rewrite (restore_chain_unfold d id r Hr).
  assert (forall k, k ∈ delta_list d r id <-> is_Some (d' !! k) /\ in_chain r id k) as Hl.
  { intros k. rewrite elem_of_delta_list. split; intros [Hk ?]; rewrite Hdelta in *; done. }
  rewrite (restore_chain_spec d' id r _ Hr' (delta_list_sorted d r id)
    (delta_list_nodup d r id) Hl).
  f_equal.
  - destruct r as [b|]; [|done]. cbn. unfold read. by rewrite Hbase.
  - f_equal. apply map_read_ext. intros k [_ Hk]%elem_of_delta_list. by apply Hdelta.
Qed.

(** Files past the batch recovered to are never consulted. *)
Lemma restore_chain_ext d d' id :
  (forall k, fst k <= id -> d !! k = d' !! k) -> restore_chain d id = restore_chain d' id.
Proof.
  intros Hk. pose proof (newest_snapshot_highest d id) as Hr.
  eapply restore_chain_agree; [exact Hr| | |].
  - eapply highest_ext; [|exact Hr]. intros b. unfold snap_at.
    split; intros [? ?]; (split; [done|]); [rewrite <- Hk|rewrite Hk]; done.
  - intros b Hb. apply Hk. rewrite Hb in Hr. apply Hr.
  - intros k (_ & _ & ?). by apply Hk.
Qed.

Lemma write_cons d k t parts : write d k (t :: parts) = <[k := t :: parts]> d.
Proof. done. Qed.

(** A whole snapshot makes the chain exactly its parts. *)
Lemma restore_chain_snapshot d id t parts :
  restore_chain (snapshot d id (t :: parts)) id = t :: parts.
Proof.
  unfold snapshot. rewrite write_cons.
  rewrite (restore_chain_spec _ id (Some id) []).
  - cbn. unfold read. rewrite lookup_delete_ne by done. rewrite lookup_insert_eq.
    cbn. by rewrite app_nil_r.
  - split; [|by intros b []]. split; [done|].
    rewrite lookup_delete_ne, lookup_insert_eq by done. eauto.
  - constructor.
  - constructor.
  - intros k. unfold in_chain. cbn. split; [set_solver|]. lia.
Qed.

Lemma restore_chain_delta d id delta :
  0 <= id ->
  restore_chain (snapshot_delta d id delta) id = restore_chain d (id - 1) ++ [delta].
Proof.
  intros Hid. unfold snapshot_delta. rewrite write_cons.
  set (d' := delete _ _).
  assert (Hold : forall k, fst k <= id - 1 -> d' !! k = d !! k).
  { intros [b t] Hk. cbn in Hk. subst d'.
    rewrite lookup_delete_ne, lookup_insert_ne; [done|injection; lia..]. }
  pose proof (newest_snapshot_highest d (id - 1)) as Hr. set (r := newest_snapshot _ _ _) in *.
  assert (Hlow : default (-1) r <= id - 1).
  { destruct r as [b|]; cbn; [|lia]. apply Hr. }
  rewrite (restore_chain_unfold d (id - 1) r Hr).
  rewrite (restore_chain_spec d' id r (delta_list d r (id - 1) ++ [(id, true)])).
  - rewrite map_app, concat_app, app_assoc. f_equal; [f_equal|].
    + destruct r as [b|]; [|done]. cbn in *. unfold read. by rewrite Hold by (cbn; lia).
    + f_equal. apply map_read_ext. intros k (_ & _ & _ & ?)%elem_of_delta_list. by apply Hold.
    + cbn. unfold read. subst d'. rewrite lookup_delete_ne, lookup_insert_eq by done. done.
  - eapply highest_ext; [|exact Hr]. intros b. unfold snap_at. split.
    + intros [? ?]. split; [lia|]. by rewrite Hold by (cbn; lia).
    + intros [Hle Hb]. destruct (decide (b = id)) as [->|?].
      * subst d'. rewrite lookup_delete_eq in Hb. by destruct Hb.
      * split; [lia|]. by rewrite <- Hold by (cbn; lia).
  - apply StronglySorted_app_2; [|apply delta_list_sorted|repeat constructor].
    intros k k' (_ & _ & _ & ?)%elem_of_delta_list ->%list_elem_of_singleton.
    left. cbn. lia.
  - apply NoDup_app. split_and!; [apply delta_list_nodup| |apply NoDup_singleton].
    intros k (_ & _ & _ & ?)%elem_of_delta_list ->%list_elem_of_singleton. cbn in *. lia.
  - intros [b t]. rewrite elem_of_app, elem_of_delta_list, list_elem_of_singleton.
    unfold in_chain. cbn [fst snd]. split.
    + intros [(Hs & -> & ? & ?)|[= -> ->]].
      * rewrite Hold by (cbn; lia). split_and!; [done..|lia].
      * split; [|lia]. subst d'. rewrite lookup_delete_ne, lookup_insert_eq by done. eauto.
    + intros (Hs & -> & ? & ?). destruct (decide (b = id)) as [->|?]; [by right|left].
      rewrite Hold in Hs by (cbn; lia). split_and!; [done..|lia].
Qed.

Lemma prune_fold_lookup l d k :
  remove_all d l !! k = if decide (k ∈ l) then None else d !! k.
Proof.
  revert d. induction l as [|x l IH]; intros d; [by rewrite decide_False by apply not_elem_of_nil|].
  change (remove_all d (x :: l)) with (remove_all (delete x d) l). rewrite IH. destruct (decide (k ∈ l)) as [?|?]; [rewrite decide_True; [done|by right]|].
  destruct (decide (x = k)) as [->|?].
  - rewrite lookup_delete_eq, decide_True; [done|by left].
  - rewrite lookup_delete_ne, decide_False; [done| |done].
    intros [->|?]%elem_of_cons; done.
Qed.

(** A batch that wrote no state file inherits the chain before it. *)
Lemma restore_chain_skip d id :
  (forall k, d !! (id, k) = None) -> restore_chain d id = restore_chain d (id - 1).
Proof.
  intros Hno. pose proof (newest_snapshot_highest d (id - 1)) as Hr.
  set (r := newest_snapshot _ _ _) in *. rewrite (restore_chain_unfold d (id - 1) r Hr).
  assert (forall b k, is_Some (d !! (b, k)) -> b <= id <-> b <= id - 1) as Hid.
  { intros b k [x Hx]. split; [|lia]. intros. destruct (decide (b = id)) as [->|]; [|lia].
    by rewrite Hno in Hx. }
  apply restore_chain_spec; auto using delta_list_sorted, delta_list_nodup.
  - eapply highest_ext; [|exact Hr]. intros b. unfold snap_at.
    split; intros [? ?]; (split; [by eapply Hid|done]).
  - intros [b k]. rewrite elem_of_delta_list. unfold in_chain. cbn.
    split; intros (Hs & ? & ? & Hle); (split_and!; [done..|by eapply Hid]).
Qed.

(** A prune never grows the directory. *)
Lemma prune_fold_some l d k :
  is_Some (remove_all d l !! k) -> is_Some (d !! k).
Proof. rewrite prune_fold_lookup. case_decide; [by intros []|done]. Qed.

(** Any subset of the names [prune] removes can go without changing the chain, as
    long as the chain has a base (or there is no chain). *)
Lemma restore_chain_prune_subset d id l :
  (exists b, snap_at d id b) \/ restore_chain d id = [] ->
  l ⊆ prune_list d id ->
  restore_chain (remove_all d l) id = restore_chain d id.
Proof.
  intros Hbase Hl. pose proof (newest_snapshot_highest d id) as Hr.
  unfold prune_list in Hl. set (r := newest_snapshot (index d) id None) in *.
  assert (forall k, default id r <= fst k ->
    remove_all d l !! k = d !! k) as Hkeep.
  { intros k Hk. rewrite prune_fold_lookup. case_decide as Hin; [|done].
    apply Hl in Hin. apply list_elem_of_filter in Hin as [Hin _]. lia. }
  destruct r as [b|]; cbn in *.
  - apply restore_chain_agree with (r := Some b).
    + destruct Hr as [[? ?] Hmax]. split.
      * split; [done|]. by rewrite Hkeep by (cbn; lia).
      * intros b' [? Hb']. apply Hmax. split; [done|]. by eapply prune_fold_some.
    + done.
    + intros b' [= <-]. apply Hkeep. cbn. lia.
    + intros k (_ & Hlo & Hhi). apply Hkeep. cbn in *. lia.
  - destruct Hbase as [[b Hb]|He]; [by destruct (Hr b)|].
    rewrite He. pose proof He as He'. rewrite (restore_chain_unfold d id None Hr) in He'. cbn in He'.
    rewrite (restore_chain_unfold _ id None).
    + cbn. apply concat_nil_Forall, Forall_forall.
      intros x (k & -> & Hk)%list_elem_of_fmap. unfold read.
      rewrite prune_fold_lookup. case_decide; [done|].
      assert (k ∈ delta_list d None id) as Hk'.
      { apply elem_of_delta_list in Hk as [Hs Hc]. apply elem_of_delta_list.
        split; [by eapply prune_fold_some|done]. }
      rewrite concat_nil_Forall, Forall_forall in He'. apply He'.
      by apply (list_elem_of_fmap_2 (read d)).
    + intros b [? Hb]. apply (Hr b). split; [done|]. by eapply prune_fold_some.
Qed.

Lemma prune_subset_keeps_base d id l b :
  snap_at d id b -> l ⊆ prune_list d id -> exists b', snap_at (remove_all d l) id b'.
Proof.
  intros Hb Hl. pose proof (newest_snapshot_highest d id) as Hr. unfold prune_list in Hl.
  destruct (newest_snapshot (index d) id None) as [r|]; cbn in *; [|by destruct (Hr b)].
  destruct Hr as [[? Hs] _]. exists r. split; [done|]. rewrite prune_fold_lookup.
  case_decide as Hin; [|done]. apply Hl, list_elem_of_filter in Hin as [? _]. cbn in *. lia.
Qed.
End Chain.

(** C7: [prune] never changes what recovery rebuilds: with a snapshot at or before the
    batch pruned through, the restored chain (base and deltas, in order) is the same
    before and after, also when a crash interrupts the sweep after removing only some
    of its files. *)
Theorem prune_keeps_chain {T} (d : gmap key (list T)) id b removed :
  b <= id -> is_Some (d !! (b, false)) -> removed ⊆ prune_list d id ->
  restore_chain (remove_all d removed) id = restore_chain d id.
Proof.
  intros Hb Hs Hl. apply restore_chain_prune_subset; [|done]. left. by exists b.
Qed.

Definition two_deltas : gmap key (list Z) :=
  <[(4, false) := [10]]> (<[(5, true) := [1]]> (<[(6, true) := [2]]> (<[(3, false) := [9]]> ∅))).

Lemma prune_keeps_chain_witness :
  restore_chain (remove_all two_deltas [(3, false)]) 6 = [10; 1; 2].
Proof.
  rewrite (prune_keeps_chain two_deltas 6 4 [(3, false)]);
    [vm_compute; reflexivity|lia|vm_compute; eauto|].
  intros k Hk. apply list_elem_of_singleton in Hk as ->. vm_compute. repeat constructor.
Defined.

(** Without any snapshot at or before the batch, [prune] removes deltas that
    [restore_chain] still needs: the guarantee depends on a base having been
    written first. *)
Theorem prune_without_base_drops_deltas :
  exists (d : gmap key (list Z)) id,
    restore_chain d id = [1; 2] /\ restore_chain (prune d id) id = [2].
Proof.
  exists (<[(5, true) := [1]]> (<[(6, true) := [2]]> ∅)), 6. split; vm_compute; reflexivity.
Qed.

(** recovery after a micro-batch sees exactly that micro-batch's write: a whole
    snapshot replaces the chain, a delta extends the chain of the batch before it by
    one entry, and files recorded for later batches are never read. *)
Theorem chain_after_write {T} (d : gmap key (list T)) id :
  (forall t parts, restore_chain (snapshot d id (t :: parts)) id = t :: parts) /\
  (forall delta, 0 <= id ->
     restore_chain (snapshot_delta d id delta) id = restore_chain d (id - 1) ++ [delta]) /\
  (forall t parts delta, restore_chain (snapshot d id (t :: parts)) (id - 1) = restore_chain d (id - 1) /\
     restore_chain (snapshot_delta d id delta) (id - 1) = restore_chain d (id - 1)).
Proof.
  split_and!; [apply restore_chain_snapshot|intros; by apply restore_chain_delta|].
  intros t parts delta. split; apply restore_chain_ext; intros [b k] Hk; cbn in Hk;
    unfold snapshot, snapshot_delta; rewrite write_cons, lookup_delete_ne, lookup_insert_ne;
    (done || (intros [=]; lia)).
Qed.

Lemma chain_after_write_witness :
  restore_chain (snapshot_delta two_deltas 7 3) 7 = [10; 1; 2; 3].
Proof.
  rewrite (proj1 (proj2 (chain_after_write two_deltas 7)) 3); [|lia].
  vm_compute. reflexivity.
Defined.

End StateStore.
