(* ===== verification/StreamEngine.v ===== *)
(** * The streaming-query engine

    [recover] (io/formats/streaming/checkpoint/recovery.py), the operations of
    [CheckpointStore] (.../checkpoint/store.py), [LocalRunner]
    (core/streaming_runner.py), the write policy (core/streaming_query/state_policy.py)
    and the micro-batch loop of [StreamingQueryEngine] (core/streaming_query/engine.py).

    Every durable mutation is one [eff]; a handler returns the effects it performs in
    order together with the volatile engine state it ends in, so a crash is a prefix
    of a handler's effects followed by a restart. *)

From S2P Require Import Prelude CheckpointLogs CheckpointStore.
Import StateStore.

(** ** Interfaces *)

(** A checkpointable source: reading at a position yields the next batch and the
    position after it, or nothing.  The data behind a source only grows, and growth
    never changes what a position already read yields (replay). *)
Class ReplayableSource (Log J B : Type) := {
  src_start : J;
  src_read : Log -> J -> option (B * J);
  src_grows : Log -> Log -> Prop;
  src_replay : forall l l' p r, src_grows l l' -> src_read l p = Some r -> src_read l' p = Some r;
}.

(** What the runner asks of a micro-batch processor. *)
Class Processor (St B Out T : Type) := {
  p_init : St;
  p_process : St -> B -> St * res (list Out);  (* a raise leaves what was done in memory *)
  p_replaces_output : bool;
  p_finalize : St -> St * list Out;
  p_has_state : bool;                       (* defines [snapshot_state] *)
  p_snapshot : St -> option T;
  p_snapshot_parts : option (St -> list T);
  p_delta : option (St -> St * option T);     (* [snapshot_delta], which consumes *)
  p_restore : T -> St -> St;
  p_restore_chain : list T -> St -> St;
  p_num_rows : Out -> Z;
  p_bytes : T -> Z;                         (* [retained_bytes] *)
}.

(** What a whole-state write persists: the parts when the processor streams them, the
    snapshot otherwise; nothing when there is no state. *)
Definition snap_parts {St B Out T} `{!Processor St B Out T} (s : St) : list T :=
  match p_snapshot_parts with
  | Some parts => parts s
  | None => match p_snapshot s with Some t => [t] | None => [] end
  end.

(** [worth_a_delta]. *)
Definition worth_a_delta {St B Out T} `{!Processor St B Out T} (delta : T) (state : option T) : bool :=
  match state with None => false | Some st => p_bytes delta * 2 <=? p_bytes st end.

(** [FINALIZE_SOURCE_ID]. *)
Definition FINALIZE_SOURCE_ID : Z := -1.

(** [_PRUNE_EVERY]. *)
Definition PRUNE_EVERY : Z := 64.

(** [ResumePlan]. *)
Record ResumePlan (J T : Type) := {
  start_batch : Z;
  seek : gmap Z J;
  rstate : option T;
  state_deltas : list T;
  pending_finalize : bool;
}.
Arguments start_batch {J T}.
Arguments seek {J T}.
Arguments rstate {J T}.
Arguments state_deltas {J T}.
Arguments pending_finalize {J T}.

(** Durable state: both logs, the state directory, and the sink by batch id. *)
Record durable (OL CL T Out : Type) := Durable {
  offsets : OL;
  commits : CL;
  state : gmap key (list T);
  sink : gmap Z (list Out);
}.
Arguments Durable {OL CL T Out}.
Arguments offsets {OL CL T Out}.
Arguments commits {OL CL T Out}.
Arguments state {OL CL T Out}.
Arguments sink {OL CL T Out}.

(** One durable mutation. *)
Inductive eff (J T Out : Type) :=
  | EOffset (batch_id source_id : Z) (position : J)
  | ECommit (batch_id : Z) (token : option string)
  | EWrite (name : key) (parts : list T)
  | ERemove (name : key)
  | EPruneOffsets (keep_through : Z)
  | EPruneCommits (keep_through : Z)
  | ESink (batch_id : Z) (rows : list Out).
Arguments EOffset {J T Out}.
Arguments ECommit {J T Out}.
Arguments EWrite {J T Out}.
Arguments ERemove {J T Out}.
Arguments EPruneOffsets {J T Out}.
Arguments EPruneCommits {J T Out}.
Arguments ESink {J T Out}.

(** What the engine object holds in memory. *)
Record engine (J St : Type) := Engine {
  batches : Z;
  deltas_written : Z;
  pending : bool;
  pruned_through : Z;
  cursor : J;
  pstate : St;
  last_token : option string;
}.
Arguments Engine {J St}.
Arguments batches {J St}.
Arguments deltas_written {J St}.
Arguments pending {J St}.
Arguments pruned_through {J St}.
Arguments cursor {J St}.
Arguments pstate {J St}.
Arguments last_token {J St}.

Section Engine.
Context {OL CL J T Log B Out St : Type}.
Context `{!OffsetLog OL J} `{!CommitLog CL}.
Context `{!ReplayableSource Log J B} `{!Processor St B Out T}.
(** [{"finalize": True}], and the path a file sink returns for a batch. *)
Variable finalize_doc : J.
Variable part_path : Z -> string.
(** [streaming.checkpoint_delta_interval]. *)
Variable interval : Z.

Abbreviation durable := (durable OL CL T Out).
Abbreviation eff := (eff J T Out).
Abbreviation engine := (engine J St).

(** *** Durable effects *)

(** [FileStreamSink.write_batch] with [resume=True]: a part file already present
    for this batch id is kept and the write is skipped. *)
Definition sink_write (m : gmap Z (list Out)) (batch_id : Z) (rows : list Out) : gmap Z (list Out) :=
  match m !! batch_id with Some _ => m | None => <[batch_id := rows]> m end.

Definition apply (d : durable) (x : eff) : durable :=
  match x with
  | EOffset b s j => Durable (ol_record d.(offsets) b s j) d.(commits) d.(state) d.(sink)
  | ECommit b t => Durable d.(offsets) (cl_commit d.(commits) b t) d.(state) d.(sink)
  | EWrite k parts => Durable d.(offsets) d.(commits) (write d.(state) k parts) d.(sink)
  | ERemove k => Durable d.(offsets) d.(commits) (delete k d.(state)) d.(sink)
  | EPruneOffsets k => Durable (ol_prune d.(offsets) k) d.(commits) d.(state) d.(sink)
  | EPruneCommits k => Durable d.(offsets) (cl_prune d.(commits) k) d.(state) d.(sink)
  | ESink b rows => Durable d.(offsets) d.(commits) d.(state) (sink_write d.(sink) b rows)
  end.

Definition apply_all (d : durable) (xs : list eff) : durable := foldl apply d xs.

(** *** [CheckpointStore] *)

Definition record_offsets (batch_id : Z) (positions : list (Z * J)) (finalize : bool)
    : list eff :=
  map (fun '(s, j) => EOffset batch_id s j) positions ++
  (if finalize then [EOffset batch_id FINALIZE_SOURCE_ID finalize_doc] else []).

Definition snapshot_state (batch_id : Z) (st : option (list T)) : list eff :=
  match st with
  | None => []
  | Some parts => [EWrite (batch_id, false) parts; ERemove (batch_id, true)]
  end.

Definition snapshot_state_delta (batch_id : Z) (delta : T) : list eff :=
  [EWrite (batch_id, true) [delta]; ERemove (batch_id, false)].

Definition commit (batch_id : Z) (token : option string) : list eff := [ECommit batch_id token].

Definition prune_state (d : durable) (keep_through : Z) : list eff :=
  map ERemove (prune_list d.(state) keep_through).

(** [prune_logs]: the effects and the new [_pruned_through]. *)
Definition prune_logs (pruned keep_through : Z) : list eff * Z :=
  if keep_through - pruned <? PRUNE_EVERY then ([], pruned)
  else ([EPruneOffsets keep_through; EPruneCommits keep_through], keep_through).

(** *** [recover] *)

Definition is_finalize (d : durable) (batch_id : Z) : bool :=
  bool_decide (is_Some (ol_position_at d.(offsets) batch_id !! FINALIZE_SOURCE_ID)).

Definition recover (d : durable) : ResumePlan J T :=
  match ol_latest_batch d.(offsets) with
  | None => {| start_batch := 0; seek := ∅; rstate := None; state_deltas := [];
               pending_finalize := false |}
  | Some _ =>
    match cl_last_committed d.(commits) with
    | None => {| start_batch := 0; seek := ∅; rstate := None; state_deltas := [];
                 pending_finalize := is_finalize d 0 |}
    | Some last_commit =>
        let resume_batch := last_commit + 1 in
        let sk := ol_position_at d.(offsets) last_commit in
        let pend := is_finalize d resume_batch in
        match restore_chain d.(state) last_commit with
        | [] => {| start_batch := resume_batch; seek := sk; rstate := None;
                   state_deltas := []; pending_finalize := pend |}
        | t :: ds => {| start_batch := resume_batch; seek := sk; rstate := Some t;
                        state_deltas := ds; pending_finalize := pend |}
        end
    end
  end.

(** *** [LocalRunner] *)

(** The rows [publish] hands the sink for one processor output. *)
Definition publish_rows (out : list Out) : list Out :=
  let rows := filter (fun o => p_num_rows o <> 0) out in
  match rows, out with
  | [], o :: _ => if p_replaces_output then [o] else []
  | _, _ => rows
  end.

(** [publish]: the sink effects and the runner's new processor state and token; nothing
    reaches the sink when the processor raises. *)
Definition publish (batch_id : Z) (s : St) (staged : B) : list eff * St * res (option string) :=
  match p_process s staged with
  | (s', Raise err) => ([], s', Raise err)
  | (s', Ok out) =>
      match publish_rows out with
      | [] => ([], s', Ok None)
      | rows => ([ESink batch_id rows], s', Ok (Some (part_path batch_id)))
      end
  end.

Definition positions (e : engine) : list (Z * J) := [(0, e.(cursor))].

(** *** [StreamingQueryEngine] *)

Definition fresh_engine : engine := Engine 0 0 false 0 src_start p_init None.

(** [_recover]. *)
Definition recover_engine (d : durable) (e : engine) : engine :=
  let plan := recover d in
  let cur := match plan.(seek) !! 0 with Some p => p | None => e.(cursor) end in
  match plan.(rstate) with
  | None => Engine plan.(start_batch) e.(deltas_written) plan.(pending_finalize)
              e.(pruned_through) cur e.(pstate) e.(last_token)
  | Some t =>
      let s := match plan.(state_deltas) with
               | [] => p_restore t e.(pstate)
               | ds => p_restore_chain (t :: ds) e.(pstate)
               end in
      Engine plan.(start_batch) (Z.of_nat (length plan.(state_deltas)))
        plan.(pending_finalize) e.(pruned_through) cur s e.(last_token)
  end.

Definition with_state (e : engine) (s : St) (deltas : Z) : engine :=
  Engine e.(batches) deltas e.(pending) e.(pruned_through) e.(cursor) s e.(last_token).

(** [write_state]: the delta the policy chose, if any, and the processor state after
    [snapshot_delta] was (or was not) read. *)
Definition take_delta (e : engine) : St * option T :=
  match p_delta with
  | Some delta_of =>
      if negb (interval =? 0) && (e.(deltas_written) <? interval) then
        let '(s, delta) := delta_of e.(pstate) in
        match delta with
        | Some dl => if worth_a_delta dl (p_snapshot s) then (s, Some dl) else (s, None)
        | None => (s, None)
        end
      else (e.(pstate), None)
  | None => (e.(pstate), None)
  end.

Definition whole_state (s : St) : option (list T) :=
  match p_snapshot_parts with
  | Some parts => Some (parts s)
  | None => match p_snapshot s with Some t => Some [t] | None => None end
  end.

Definition write_state (e : engine) : list eff * engine :=
  match take_delta e with
  | (s, Some dl) => (snapshot_state_delta e.(batches) dl, with_state e s (e.(deltas_written) + 1))
  | (s, None) => (snapshot_state e.(batches) (whole_state s), with_state e s 0)
  end.

(** [_commit_microbatch]. *)
Definition commit_microbatch (d : durable) (e : engine) : list eff * engine :=
  let '(w, e1) := if p_has_state then write_state e else ([], e) in
  let c := commit e.(batches) e.(last_token) in
  let d1 := apply_all d (w ++ c) in
  let ps := if p_has_state then prune_state d1 e.(batches) else [] in
  let '(pl, pruned) := prune_logs e.(pruned_through) e.(batches) in
  (w ++ c ++ ps ++ pl,
   Engine e1.(batches) e1.(deltas_written) e1.(pending) pruned e1.(cursor) e1.(pstate)
     e1.(last_token)).

Definition next_batch (e : engine) : engine :=
  Engine (e.(batches) + 1) e.(deltas_written) e.(pending) e.(pruned_through) e.(cursor)
    e.(pstate) e.(last_token).

(** [_checkpoint_drain]; a checkpointable source always reports a position. *)
Definition checkpoint_drain (d : durable) (e : engine) : list eff * engine :=
  let wal := record_offsets e.(batches) (positions e) false in
  let '(c, e1) := commit_microbatch (apply_all d wal) e in
  (wal ++ c, next_batch e1).

(** [_process_next]: stage, write-ahead, publish, commit.  A processor that raises leaves
    the write-ahead record and the staged position; the batch id is not committed. *)
Definition process_next (d : durable) (log : Log) (e : engine) : res bool * list eff * engine :=
  match src_read log e.(cursor) with
  | None => let '(xs, e') := checkpoint_drain d e in (Ok false, xs, e')
  | Some (staged, cur') =>
      let e0 := Engine e.(batches) e.(deltas_written) e.(pending) e.(pruned_through) cur'
                  e.(pstate) e.(last_token) in
      let wal := record_offsets e.(batches) (positions e0) false in
      match publish e.(batches) e.(pstate) staged with
      | (_, s', Raise err) => (Raise err, wal, with_state e0 s' e.(deltas_written))
      | (pub, s', Ok tok) =>
          let e1 := Engine e.(batches) e.(deltas_written) e.(pending) e.(pruned_through) cur' s' tok in
          let '(c, e2) := commit_microbatch (apply_all d (wal ++ pub)) e1 in
          (Ok true, wal ++ pub ++ c, next_batch e2)
      end
  end.

(** [_emit_finalize]. *)
Definition emit_finalize (d : durable) (e : engine) (replay : bool) : list eff * engine :=
  let '(s', outs) := p_finalize e.(pstate) in
  let flushed := filter (fun o => p_num_rows o <> 0) outs in
  let e1 := with_state e s' e.(deltas_written) in
  if (length flushed =? 0)%nat && negb replay then ([], e1)
  else
    let wal := if replay then [] else record_offsets e.(batches) (positions e) true in
    let emit := map (fun o => ESink e.(batches) [o]) flushed in
    let '(c, e2) := commit_microbatch (apply_all d (wal ++ emit)) e1 in
    (wal ++ emit ++ c, next_batch e2).
End Engine.
