(* ===== verification/ExactlyOnce.v ===== *)
(** * Exactly-once output of a checkpointed streaming query

    The contract of the engine in [StreamEngine]: whatever crashes and restarts an
    execution goes through, the sink holds what a crash-free run over the source would
    have written, batch id by batch id.  [ideal] is that crash-free run; [DInv] relates
    the durable state to a prefix of it; [exactly_once] is the theorem.  The laws a
    processor owes the engine are [ProcessorLaws]. *)

From S2P Require Import Prelude CheckpointLogs CheckpointStore StreamEngine.
Import StateStore.

(** ** The laws of a processor *)

Class ProcessorLaws (St B Out T : Type) `{!Processor St B Out T} := {
  (** States that no output can tell apart. *)
  p_equiv : relation St;
  p_equiv_equiv :: Equivalence p_equiv;
  (** The states of a run, and the objects a checkpoint can be restored into. *)
  p_wf : St -> Prop;
  p_blank : St -> Prop;
  l_wf_init : p_wf p_init;
  l_blank_init : p_blank p_init;
  l_wf_process : forall s b s1 out, p_wf s -> p_process s b = (s1, Ok out) -> p_wf s1;
  l_wf_finalize : forall s, p_wf s -> p_wf (p_finalize s).1;
  l_wf_delta : forall delta_of s, p_delta = Some delta_of -> p_wf s -> p_wf (delta_of s).1;
  (** Equivalent states process a batch alike, and raise alike. *)
  l_process : forall s s' b, p_wf s -> p_wf s' -> p_equiv s s' ->
    (p_process s b).2 = (p_process s' b).2 /\
    (is_ok (p_process s b).2 = true -> p_equiv (p_process s b).1 (p_process s' b).1);
  l_finalize : forall s s', p_equiv s s' ->
    p_equiv (p_finalize s).1 (p_finalize s').1 /\ (p_finalize s).2 = (p_finalize s').2;
  l_flush_one : forall s,
    Z.of_nat (length (filter (fun o => p_num_rows o <> 0) (p_finalize s).2)) <= 1;
  l_stateless : p_has_state = false -> forall s s', p_wf s /\ p_equiv s s';
  (** [p_repr c s]: the restored chain [c] stands for the state [s]. *)
  p_repr : list T -> St -> Prop;
  l_repr_equiv : forall c s s', p_equiv s s' -> p_repr c s -> p_repr c s';
  l_repr_init : p_repr [] p_init;
  l_repr_snap : forall s, p_wf s -> snap_parts s <> [] -> p_repr (snap_parts s) s;
  l_snap_none : forall s, p_wf s -> snap_parts s = [] -> p_repr [] s;
  l_snap_none_chain : forall c s, p_wf s -> snap_parts s = [] -> p_repr c s -> c = [];
  l_snap_equiv : forall s s', p_wf s -> p_wf s' -> p_equiv s s' ->
    snap_parts s <> [] -> snap_parts s' <> [];
  l_snap_process : forall s b s1 out, p_wf s -> p_process s b = (s1, Ok out) ->
    snap_parts s <> [] -> snap_parts s1 <> [];
  l_snap_finalize : forall s, p_wf s -> snap_parts s <> [] -> snap_parts (p_finalize s).1 <> [];
  l_nil_init : forall s, p_wf s -> p_repr [] s -> p_equiv p_init s;
  l_restore_one : forall t s s0, p_wf s -> p_blank s0 -> p_repr [t] s ->
    p_equiv (p_restore t s0) s /\ p_wf (p_restore t s0);
  l_restore_chain : forall t d ds s s0, p_wf s -> p_blank s0 -> p_repr (t :: d :: ds) s ->
    p_equiv (p_restore_chain (t :: d :: ds) s0) s /\ p_wf (p_restore_chain (t :: d :: ds) s0);
  l_delta_equiv : forall delta_of s, p_delta = Some delta_of -> p_equiv s (delta_of s).1;
  l_delta_snap : forall delta_of s b s1 out d, p_delta = Some delta_of -> p_wf s ->
    p_process s b = (s1, Ok out) -> (delta_of s1).2 = Some d -> snap_parts s1 <> [];
  l_delta_process : forall delta_of c s b s1 out d, p_delta = Some delta_of -> p_wf s ->
    p_process s b = (s1, Ok out) -> p_repr c s -> (delta_of s1).2 = Some d ->
    p_repr (c ++ [d]) (delta_of s1).1 /\
    (c = [] -> worth_a_delta d (p_snapshot (delta_of s1).1) = false);
}.

(** ** The crash-free run *)

(** What one batch id stands for: a micro-batch of the source, a drain marker, or an
    end-of-stream flush, with the rows it writes. *)
Inductive epoch (B Out : Type) :=
  | Data (b : B) (rows : list Out)
  | Drain
  | Flush (rows : list Out).
Arguments Data {B Out}.
Arguments Drain {B Out}.
Arguments Flush {B Out}.

Definition epoch_rows {B Out} (ep : epoch B Out) : list Out :=
  match ep with Data _ rows => rows | Drain => [] | Flush rows => rows end.

(** The sink entry for a batch that wrote [rows]: nothing at all for no rows. *)
Definition entry {Out} (rows : list Out) : option (list Out) :=
  match rows with [] => None | _ => Some rows end.

Section ExactlyOnce.
Context {OL CL J T Log B Out St : Type}.
Context `{!OffsetLog OL J} `{!CommitLog CL}.
Context `{!ReplayableSource Log J B} `{!Processor St B Out T} `{!ProcessorLaws St B Out T}.
Variable finalize_doc : J.
Variable part_path : Z -> string.
Variable interval : Z.

Abbreviation durable := (durable OL CL T Out).
Abbreviation eff := (eff J T Out).
Abbreviation engine := (engine J St).
Abbreviation epoch := (epoch B Out).
Implicit Types (d : durable) (x : eff) (xs ys : list eff) (e : engine) (h : list epoch).

Definition flush_rows (s : St) : list Out :=
  filter (fun o => p_num_rows o <> 0) (p_finalize s).2.

(** [ideal log h c s]: the epochs [h], run in order from the start of the source with
    no crash and no raise, end at position [c] in processor state [s]. *)
Inductive ideal (log : Log) : list epoch -> J -> St -> Prop :=
  | ideal_start : ideal log [] src_start p_init
  | ideal_data h c s b c' s1 out : ideal log h c s -> src_read log c = Some (b, c') ->
      p_process s b = (s1, Ok out) ->
      ideal log (h ++ [Data b (publish_rows out)]) c' s1
  | ideal_drain h c s : ideal log h c s -> ideal log (h ++ [Drain]) c s
  | ideal_flush h c s : ideal log h c s ->
      ideal log (h ++ [Flush (flush_rows s)]) c (p_finalize s).1.

(** Up to what no output can observe. *)
Definition reaches (log : Log) (h : list epoch) (c : J) (s : St) : Prop :=
  p_wf s /\ exists s0, ideal log h c s0 /\ p_equiv s0 s.

Lemma ideal_wf log h c s : ideal log h c s -> p_wf s.
Proof. induction 1; eauto using l_wf_init, l_wf_process, l_wf_finalize. Qed.

Lemma ideal_grows log log' h c s : src_grows log log' -> ideal log h c s -> ideal log' h c s.
Proof. intros Hg. induction 1; econstructor; eauto using src_replay. Qed.

Lemma reaches_grows log log' h c s : src_grows log log' -> reaches log h c s -> reaches log' h c s.
Proof. intros Hg (? & s0 & ? & ?). split; [done|]. exists s0. eauto using ideal_grows. Qed.

Lemma reaches_equiv log h c s s' : p_wf s' -> p_equiv s s' -> reaches log h c s -> reaches log h c s'.
Proof. intros Hw Hs (? & s0 & ? & ?). split; [done|]. exists s0. split; [done|]. by transitivity s. Qed.

Lemma reaches_data log h c s b c' s1 out :
  reaches log h c s -> src_read log c = Some (b, c') -> p_process s b = (s1, Ok out) ->
  reaches log (h ++ [Data b (publish_rows out)]) c' s1.
Proof.
  intros (Hw & s0 & Hi & Hs) Hr Hp. split; [by eapply l_wf_process|].
  destruct (l_process s0 s b (ideal_wf _ _ _ _ Hi) Hw Hs) as [Ho Hs']. rewrite Hp in Ho, Hs'. cbn in Ho.
  destruct (p_process s0 b) as [s2 o] eqn:Hp0. cbn in *. subst o. exists s2. split; [by eapply ideal_data|by apply Hs'].
Qed.

Lemma reaches_drain log h c s : reaches log h c s -> reaches log (h ++ [Drain]) c s.
Proof. intros (? & s0 & Hi & Hs). split; [done|]. exists s0. split; [by constructor|done]. Qed.

Lemma reaches_flush log h c s :
  reaches log h c s -> reaches log (h ++ [Flush (flush_rows s)]) c (p_finalize s).1.
Proof.
  intros (Hw & s0 & Hi & Hs). split; [by apply l_wf_finalize|]. destruct (l_finalize s0 s Hs) as [Hs' Ho].
  exists (p_finalize s0).1. split; [|done]. unfold flush_rows. rewrite <- Ho. by apply ideal_flush.
Qed.

(** ** The invariant of the durable state *)

(** The epoch being worked on under the next batch id, if its write-ahead record is
    durable. *)
Inductive flight := FNone | FData (b : B) (c' : J) | FDrain | FFlush.

(** What a batch makes of the state and what it publishes; a raise leaves neither. *)
Definition after (s : St) (b : B) : St :=
  match p_process s b with (s1, Ok _) => s1 | (_, Raise _) => s end.
Definition published (s : St) (b : B) : list Out :=
  match (p_process s b).2 with Ok out => publish_rows out | Raise _ => [] end.

Lemma after_wf s b : p_wf s -> p_wf (after s b).
Proof. unfold after. destruct (p_process s b) as [s1 [out|]] eqn:Hp; eauto using l_wf_process. Qed.

Lemma after_equiv s s' b : p_wf s -> p_wf s' -> p_equiv s s' ->
  p_equiv (after s b) (after s' b) /\ published s b = published s' b.
Proof.
  intros Hw Hw' Hs. destruct (l_process s s' b Hw Hw' Hs) as [Ho Heq]. unfold after, published.
  destruct (p_process s b) as [s1 o], (p_process s' b) as [s2 o']. cbn in *. subst o'. split; [|done].
  destruct o; [by apply Heq|done].
Qed.

Lemma after_snap s b : p_wf s -> snap_parts s <> [] -> snap_parts (after s b) <> [].
Proof. unfold after. destruct (p_process s b) as [s1 [out|]] eqn:Hp; eauto using l_snap_process. Qed.

(** Where the flight ends: position, state, epoch. *)
Definition target (c : J) (s : St) (f : flight) : J * St * epoch :=
  match f with
  | FNone | FDrain => (c, s, Drain)
  | FData b c' => (c', after s b, Data b (published s b))
  | FFlush => (c, (p_finalize s).1, Flush (flush_rows s))
  end.

Definition marker (d : durable) (n : Z) : Prop :=
  is_Some (ol_position_at d.(offsets) n !! FINALIZE_SOURCE_ID).

Definition flight_ok (log : Log) (d : durable) (n : Z) (c : J) (s : St) (f : flight) : Prop :=
  let '(c', s', ep) := target c s f in
  match f with
  | FNone => ol_position_at d.(offsets) n = ∅ /\ (forall k, d.(state) !! (n, k) = None) /\
             d.(sink) !! n = None
  | _ => ol_position_at d.(offsets) n !! 0 = Some c' /\
         (marker d n <-> f = FFlush) /\
         (forall b c'', f = FData b c'' -> src_read log c = Some (b, c'')) /\
         (d.(sink) !! n = None \/ d.(sink) !! n = entry (epoch_rows ep)) /\
         (forall k, is_Some (d.(state) !! (n, k)) -> snap_parts s' <> [])
  end.

(** A flight that can end: its batch, if it has one, does not raise. *)
Definition lands (s : St) (f : flight) : Prop :=
  match f with FNone => False | FData b _ => is_ok (p_process s b).2 = true | _ => True end.

Record DInv (log : Log) (d : durable) (h : list epoch) (c : J) (s : St) (f : flight) : Prop := {
  di_reaches : reaches log h c s;
  di_ok : ol_ok d.(offsets);
  di_last : cl_last_committed d.(commits) =
    match h with [] => None | _ => Some (Z.of_nat (length h) - 1) end;
  di_pos : h <> [] -> ol_position_at d.(offsets) (Z.of_nat (length h) - 1) !! 0 = Some c;
  di_future : forall b, Z.of_nat (length h) < b ->
    ol_position_at d.(offsets) b = ∅ /\ (forall k, d.(state) !! (b, k) = None) /\
    d.(sink) !! b = None;
  di_sink : forall i ep, h !! i = Some ep -> d.(sink) !! Z.of_nat i = entry (epoch_rows ep);
  di_neg : forall i, i < 0 -> d.(sink) !! i = None;
  di_repr : p_has_state = true -> p_repr (restore_chain d.(state) (Z.of_nat (length h) - 1)) s;
  di_base : p_has_state = true -> restore_chain d.(state) (Z.of_nat (length h) - 1) = [] \/
    exists b, snap_at d.(state) (Z.of_nat (length h) - 1) b;
  di_flight : flight_ok log d (Z.of_nat (length h)) c s f;
}.

(** Some crash-free run explains the durable state. *)
Definition explained (log : Log) (d : durable) : Prop := exists h c s f, DInv log d h c s f.

(** Every crash point of a handler leaves an explained durable state. *)
Definition prefixes_ok (log : Log) (d : durable) (xs : list eff) : Prop :=
  forall pre post, xs = pre ++ post -> explained log (apply_all d pre).

Lemma prefixes_nil log d : explained log d -> prefixes_ok log d [].
Proof. intros Hd [|x pre] post Hx; [done|discriminate]. Qed.

Lemma prefixes_cons log d x xs :
  explained log d -> prefixes_ok log (apply d x) xs -> prefixes_ok log d (x :: xs).
Proof.
  intros Hd Hxs [|y pre] post Heq; [done|]. injection Heq as <- ->. by eapply Hxs.
Qed.

Lemma apply_all_app d xs ys : apply_all d (xs ++ ys) = apply_all (apply_all d xs) ys.
Proof. unfold apply_all. by rewrite foldl_app. Qed.

Lemma prefixes_app log d xs ys :
  prefixes_ok log d xs -> prefixes_ok log (apply_all d xs) ys -> prefixes_ok log d (xs ++ ys).
Proof.
  revert d. induction xs as [|x xs IH]; intros d Hx Hy; [done|]. apply prefixes_cons.
  - by apply (Hx [] (x :: xs)).
  - apply IH; [|done]. intros pre post ->. by apply (Hx (x :: pre) post).
Qed.

Local Abbreviation nx h := (Z.of_nat (length h)).

Lemma nx_snoc h ep : nx (h ++ [ep]) = nx h + 1.
Proof. rewrite length_app. cbn. lia. Qed.

(** *** Changes of view that leave the durable state alone *)

Lemma DInv_wf log d h c s f : DInv log d h c s f -> p_wf s.
Proof. intros HI. apply (di_reaches _ _ _ _ _ _ HI). Qed.

Lemma target_wf c s f : p_wf s -> p_wf (target c s f).1.2.
Proof. destruct f; cbn; auto using after_wf, l_wf_finalize. Qed.

Lemma target_equiv c s s' f : p_wf s -> p_wf s' -> p_equiv s s' ->
  let '(c1, s1, ep1) := target c s f in
  let '(c2, s2, ep2) := target c s' f in c1 = c2 /\ p_equiv s1 s2 /\ ep1 = ep2.
Proof.
  intros Hw Hw' Hs. destruct f; cbn; [done| |done|].
  - destruct (after_equiv s s' b Hw Hw' Hs) as [? ->]. done.
  - unfold flush_rows. destruct (l_finalize s s' Hs) as [? ->]. done.
Qed.

Lemma DInv_equiv log d h c s s' f :
  p_wf s' -> p_equiv s s' -> DInv log d h c s f -> DInv log d h c s' f.
Proof.
  intros Hw' Hs HI. pose proof (DInv_wf _ _ _ _ _ _ HI) as Hw.
  destruct HI as [Hr Hok Hl Hp Hfu Hsi Hn Hre Hb Hf]. split; eauto using reaches_equiv, l_repr_equiv.
  unfold flight_ok in *. pose proof (target_equiv c s s' f Hw Hw' Hs) as Ht.
  pose proof (target_wf c s f Hw) as Hw1. pose proof (target_wf c s' f Hw') as Hw2.
  destruct (target c s f) as [[c1 s1] ep1], (target c s' f) as [[c2 s2] ep2].
  destruct Ht as (-> & Hs' & ->). destruct f; [done|..];
    destruct Hf as (? & ? & ? & ? & Hk); (split_and!; [done..|]);
    intros k Hsk; apply (l_snap_equiv s1 s2); eauto.
Qed.

Lemma DInv_grows log log' d h c s f :
  src_grows log log' -> DInv log d h c s f -> DInv log' d h c s f.
Proof.
  intros Hg [Hr Hok Hl Hp Hfu Hsi Hn Hre Hb Hf]. split; eauto using reaches_grows.
  unfold flight_ok in *. destruct (target c s f) as [[c1 s1] ep1]. destruct f; [done|..];
    destruct Hf as (? & ? & Hread & ? & ?); (split_and!; [done| done| |done..]);
    intros b' c'' Heq; eapply src_replay; eauto.
Qed.

(** *** Write-ahead records *)

Lemma position_record d n sid j b :
  ol_position_at (apply d (EOffset n sid j)).(offsets) b =
    if decide (n = b) then <[sid := j]> (ol_position_at d.(offsets) b)
    else ol_position_at d.(offsets) b.
Proof. apply ol_position_record. Qed.

Lemma DInv_offset log d h c s f f' sid j :
  DInv log d h c s f ->
  flight_ok log (apply d (EOffset (nx h) sid j)) (nx h) c s f' ->
  DInv log (apply d (EOffset (nx h) sid j)) h c s f'.
Proof.
  intros [Hr Hok Hl Hp Hfu Hsi Hn Hre Hb Hf] Hf'. split; try done.
  - by apply ol_ok_record.
  - intros Hh. rewrite position_record, decide_False by lia. by apply Hp.
  - intros b Hlt. rewrite position_record, decide_False by lia. by apply Hfu.
Qed.

Lemma flight_inflight log d n c s f :
  f <> FNone -> flight_ok log d n c s f ->
  ol_position_at d.(offsets) n !! 0 = Some (target c s f).1.1 /\
  (marker d n <-> f = FFlush) /\
  (forall b c'', f = FData b c'' -> src_read log c = Some (b, c'')) /\
  (d.(sink) !! n = None \/ d.(sink) !! n = entry (epoch_rows (target c s f).2)) /\
  (forall k, is_Some (d.(state) !! (n, k)) -> snap_parts (target c s f).1.2 <> []).
Proof. by destruct f. Qed.

Lemma marker_position d n c' :
  ol_position_at d.(offsets) n = ∅ \/ ~ marker d n ->
  ~ marker (apply d (EOffset n 0 c')) n.
Proof.
  unfold marker. rewrite position_record, decide_True by done.
  rewrite lookup_insert_ne by done. intros [->|]; [|done]. rewrite lookup_empty. by intros [].
Qed.

Lemma position_insert d n c' : ol_position_at (apply d (EOffset n 0 c')).(offsets) n !! 0 = Some c'.
Proof. rewrite position_record, decide_True by done. apply lookup_insert_eq. Qed.

Lemma flight_unmarked log d n c s f :
  f <> FFlush -> flight_ok log d n c s f -> ol_position_at d.(offsets) n = ∅ \/ ~ marker d n.
Proof.
  intros Hf Hok. destruct f; [left; apply Hok|right..|done];
    apply flight_inflight in Hok as (_ & Hm & _); [rewrite Hm|done|rewrite Hm|done]; done.
Qed.

Lemma offset_data log d h c s f b c' :
  DInv log d h c s f -> f <> FFlush -> src_read log c = Some (b, c') ->
  DInv log (apply d (EOffset (nx h) 0 c')) h c s (FData b c').
Proof.
  intros HI Hf Hr. pose proof (di_flight _ _ _ _ _ _ HI) as Hok.
  eapply DInv_offset; [exact HI|]. unfold flight_ok. cbn [target].
  split_and!; [apply position_insert| | | |].
  - split; [|done]. intros Hm. by apply marker_position in Hm; [|eapply flight_unmarked].
  - by intros ? ? [= <- <-].
  - destruct f as [|b0 c0| |]; [left; apply Hok| |left|done].
    + apply flight_inflight in Hok as (_ & _ & Hb & Hs & _); [|done].
      specialize (Hb _ _ eq_refl). rewrite Hr in Hb. by simplify_eq.
    + apply flight_inflight in Hok as (_ & _ & _ & [?|?] & _); done.
  - intros k Hk. cbn in Hk. destruct f as [|b0 c0| |]; [| | |done].
    + destruct Hok as (_ & Hno & _). rewrite Hno in Hk. by destruct Hk.
    + apply flight_inflight in Hok as (_ & _ & Hb & _ & Hs); [|done].
      specialize (Hb _ _ eq_refl). rewrite Hr in Hb. simplify_eq. by eapply Hs.
    + apply flight_inflight in Hok as (_ & _ & _ & _ & Hs); [|done].
      apply after_snap; [by eapply DInv_wf|]. by eapply Hs.
Qed.

Lemma offset_drain log d h c s f :
  DInv log d h c s f -> f <> FFlush -> (f = FNone \/ src_read log c = None) ->
  DInv log (apply d (EOffset (nx h) 0 c)) h c s FDrain.
Proof.
  intros HI Hf Hr. pose proof (di_flight _ _ _ _ _ _ HI) as Hok.
  assert (f = FNone \/ f = FDrain) as Hf2.
  { destruct f as [|b0 c0| |]; [by left| |by right|done]. destruct Hr as [?|Hr]; [done|].
    apply flight_inflight in Hok as (_ & _ & Hb & _); [|done].
    specialize (Hb _ _ eq_refl). congruence. }
  eapply DInv_offset; [exact HI|]. unfold flight_ok. cbn [target].
  split_and!; [apply position_insert| |done| |].
  - split; [|done]. intros Hm. by apply marker_position in Hm; [|eapply flight_unmarked].
  - left. destruct Hf2 as [->| ->]; [apply Hok|].
    apply flight_inflight in Hok as (_ & _ & _ & [?|?] & _); done.
  - intros k Hk. cbn in Hk. destruct Hf2 as [->| ->].
    + destruct Hok as (_ & Hno & _). rewrite Hno in Hk. by destruct Hk.
    + apply flight_inflight in Hok as (_ & _ & _ & _ & Hs); [|done]. by eapply Hs.
Qed.

Lemma offset_marker log d h c s :
  DInv log d h c s FDrain ->
  DInv log (apply d (EOffset (nx h) FINALIZE_SOURCE_ID finalize_doc)) h c s FFlush.
Proof.
  intros HI. pose proof (di_flight _ _ _ _ _ _ HI) as Hok.
  eapply DInv_offset; [exact HI|]. unfold flight_ok. cbn [target].
  apply flight_inflight in Hok as (Hp & _ & _ & Hsi & Hs); [|done].
  split_and!; [| |done| |].
  - rewrite position_record, decide_True by done. by rewrite lookup_insert_ne.
  - split; [done|]. intros _. unfold marker. rewrite position_record, decide_True by done.
    rewrite lookup_insert_eq. eauto.
  - left. by destruct Hsi.
  - intros k Hk. apply l_snap_finalize; [by eapply DInv_wf|]. by eapply Hs.
Qed.

(** *** Publishing *)

Lemma sink_write_lookup (m : gmap Z (list Out)) n rows i :
  sink_write m n rows !! i = if decide (i = n) then Some (default rows (m !! n)) else m !! i.
Proof.
  unfold sink_write. case_decide as Hi; subst.
  - destruct (m !! n) eqn:E; [by rewrite E|]. by rewrite lookup_insert_eq.
  - destruct (m !! n) eqn:E; [done|]. by rewrite lookup_insert_ne.
Qed.

Lemma entry_some (rows : list Out) : rows <> [] -> entry rows = Some rows.
Proof. by destruct rows. Qed.

Lemma DInv_publish log d h c s f rows :
  DInv log d h c s f -> f <> FNone -> rows = epoch_rows (target c s f).2 -> rows <> [] ->
  DInv log (apply d (ESink (nx h) rows)) h c s f /\
  (apply d (ESink (nx h) rows)).(sink) !! nx h = entry rows.
Proof.
  intros [Hr Hok Hl Hp Hfu Hsi Hn Hre Hb Hfl] Hf Hrows Hne.
  assert (sink_write d.(sink) (nx h) rows !! nx h = entry rows) as Hs.
  { rewrite sink_write_lookup, decide_True, entry_some by done.
    apply flight_inflight in Hfl as (_ & _ & _ & [Hs|Hs] & _); [..|done]; rewrite Hs; [done|].
    rewrite <- Hrows, entry_some by done. done. }
  split; [|exact Hs]. split; try done; cbn.
  - intros b Hlt. rewrite sink_write_lookup, decide_False by lia. by apply Hfu.
  - intros i ep Hi. apply lookup_lt_Some in Hi as Hlt.
    rewrite sink_write_lookup, decide_False by lia. by apply Hsi.
  - intros i Hi. rewrite sink_write_lookup, decide_False by lia. by apply Hn.
  - destruct (flight_inflight _ _ _ _ _ _ Hf Hfl) as (? & ? & ? & _ & ?).
    unfold flight_ok. destruct (target c s f) as [[c1 s1] ep] eqn:Ht. cbn in *.
    destruct f; [done|..]; (split_and!; [done..|right; by rewrite <- Hrows|done]).
Qed.

(** *** Writing state files of the batch in flight *)

Definition at_batch (n : Z) (x : eff) : Prop :=
  match x with EWrite (b, _) _ | ERemove (b, _) => b = n | _ => False end.

Lemma at_batch_lookup d n x b k :
  at_batch n x -> b <> n -> (apply d x).(state) !! (b, k) = d.(state) !! (b, k).
Proof.
  destruct x as [| | [b' k'] parts|[b' k']| | |]; cbn; try done; intros -> Hb.
  - destruct parts; cbn; [done|]. apply lookup_insert_ne. congruence.
  - apply lookup_delete_ne. congruence.
Qed.

Lemma at_batch_other d n x :
  at_batch n x -> (apply d x).(offsets) = d.(offsets) /\
  (apply d x).(commits) = d.(commits) /\ (apply d x).(sink) = d.(sink).
Proof. by destruct x. Qed.

Lemma DInv_state log d h c s f x :
  DInv log d h c s f -> f <> FNone -> at_batch (nx h) x ->
  (match x with EWrite _ _ => snap_parts (target c s f).1.2 <> [] | _ => True end) ->
  DInv log (apply d x) h c s f.
Proof.
  intros [Hr Hok Hl Hp Hfu Hsi Hn Hre Hb Hfl] Hf Hx Hsnap.
  destruct (at_batch_other d _ x Hx) as (Ho & Hc & Hsk).
  assert (restore_chain (apply d x).(state) (nx h - 1) = restore_chain d.(state) (nx h - 1)) as Hch.
  { apply restore_chain_ext. intros [b k] Hk. cbn in Hk. eapply at_batch_lookup; [done|lia]. }
  split; rewrite ?Ho, ?Hc, ?Hsk, ?Hch; try done.
  - intros b Hlt. destruct (Hfu b Hlt) as (? & Hst & ?). split_and!; [done| |done].
    intros k. by rewrite (at_batch_lookup d (nx h) x b k Hx) by lia.
  - intros Hst. destruct (Hb Hst) as [?|[b [Hle Hb']]]; [by left|right]. exists b. split; [done|].
    by rewrite (at_batch_lookup d (nx h) x b false Hx) by lia.
  - destruct (flight_inflight _ _ _ _ _ _ Hf Hfl) as (? & Hm & ? & ? & Hk).
    unfold flight_ok, marker in *. rewrite Ho, Hsk.
    destruct (target c s f) as [[c1 s1] ep] eqn:Ht. cbn in *.
    destruct f; [done|..]; (split_and!; [done..|]);
      (intros k [y Hy]; destruct x as [| | [b' k'] parts|[b' k']| | |]; try done; cbn in *; subst;
       rewrite lookup_delete_Some in Hy; destruct Hy as [_ Hy]; eauto).
Qed.

(** The delta a drain or a flush would find: none may be left over. *)
Definition no_stale_delta (s : St) : Prop :=
  match p_delta with Some delta_of => (delta_of s).2 = None | None => True end.

(** What [write_state] chose: a delta of the micro-batch just processed, or the whole
    state. *)
Lemma take_delta_cases e s2 od :
  take_delta interval e = (s2, od) ->
  p_equiv e.(pstate) s2 /\ (p_wf e.(pstate) -> p_wf s2) /\
  (forall dl, od = Some dl -> exists delta_of,
    p_delta = Some delta_of /\ delta_of e.(pstate) = (s2, Some dl) /\
    worth_a_delta dl (p_snapshot s2) = true).
Proof.
  unfold take_delta. destruct p_delta as [delta_of|] eqn:Hd; [|by intros [= <- <-]].
  destruct (_ && _); [|by intros [= <- <-]].
  destruct (delta_of (pstate e)) as [s1 dl] eqn:Hdl.
  assert (p_equiv (pstate e) s1) as Heq.
  { pose proof (l_delta_equiv delta_of (pstate e) Hd) as H. by rewrite Hdl in H. }
  assert (p_wf (pstate e) -> p_wf s1) as Hwf.
  { pose proof (l_wf_delta delta_of (pstate e) Hd) as H. by rewrite Hdl in H. }
  destruct dl as [dl|]; [|by intros [= <- <-]].
  destruct (worth_a_delta dl (p_snapshot s1)) eqn:Hw; intros [= <- <-]; [|done].
  split_and!; [done..|]. intros dl' [= <-]. by exists delta_of.
Qed.

(** The state files of a batch say what its chain must say. *)
Definition chain_ok d (n : Z) (s2 : St) : Prop :=
  p_repr (restore_chain d.(state) n) s2 /\
  (restore_chain d.(state) n = [] \/ exists b, snap_at d.(state) n b).

Lemma snap_target c s f : p_wf s -> snap_parts s <> [] -> snap_parts (target c s f).1.2 <> [].
Proof. intros Hw Hs. destruct f; cbn; [done|by apply after_snap|done|by apply l_snap_finalize]. Qed.

Lemma lands_data s b c' : lands s (FData b c') ->
  exists s1 out, p_process s b = (s1, Ok out) /\ after s b = s1 /\ published s b = publish_rows out.
Proof.
  unfold lands, after, published. destruct (p_process s b) as [s1 [out|]]; [|done]. intros _.
  by exists s1, out.
Qed.

Lemma lands_flight s f : lands s f -> f <> FNone.
Proof. by intros Hf ->. Qed.
#[local] Hint Resolve lands_flight : core.

Lemma write_state_delta log d h c s f s2 dl :
  p_has_state = true -> DInv log d h c s f -> lands s f ->
  (exists delta_of, p_delta = Some delta_of /\
     delta_of (target c s f).1.2 = (s2, Some dl) /\ worth_a_delta dl (p_snapshot s2) = true) ->
  (exists b c', f = FData b c') \/ no_stale_delta (target c s f).1.2 ->
  prefixes_ok log d (snapshot_state_delta (nx h) dl) /\
  DInv log (apply_all d (snapshot_state_delta (nx h) dl)) h c s f /\
  chain_ok (apply_all d (snapshot_state_delta (nx h) dl)) (nx h) s2.
Proof.
  intros Hst HI Hla (g & Hg & Hgs & Hw) Hcase. assert (f <> FNone) as Hf by eauto.
  destruct Hcase as [(b & c' & ->)|Hno]; [|unfold no_stale_delta in Hno; rewrite Hg, Hgs in Hno; done].
  cbn [target fst snd] in Hgs. pose proof (DInv_wf _ _ _ _ _ _ HI) as Hwf.
  destruct (lands_data _ _ _ Hla) as (s1 & out & Hp & Haf & _). rewrite Haf in Hgs.
  pose proof (l_delta_process g _ s b s1 out dl Hg Hwf Hp (di_repr _ _ _ _ _ _ HI Hst)) as Hrep.
  rewrite Hgs in Hrep. destruct Hrep as [Hrep Hne]; [done|].
  assert (snap_parts (target c s (FData b c')).1.2 <> []) as Hsnap.
  { cbn. rewrite Haf. eapply l_delta_snap; [exact Hg|exact Hwf|exact Hp|]. by rewrite Hgs. }
  set (x := EWrite (nx h, true) [dl] : eff). set (y := ERemove (nx h, false) : eff).
  assert (DInv log (apply d x) h c s (FData b c')) as H1 by (by apply DInv_state).
  assert (DInv log (apply (apply d x) y) h c s (FData b c')) as H2 by (by apply DInv_state).
  split_and!; [|exact H2|].
  - apply prefixes_cons; [by do 4 eexists|]. apply prefixes_cons; [by do 4 eexists|].
    apply prefixes_nil. by do 4 eexists.
  - assert (restore_chain (apply (apply d x) y).(state) (nx h) =
            restore_chain d.(state) (nx h - 1) ++ [dl]) as Hch
      by (apply restore_chain_delta; lia).
    unfold snapshot_state_delta, apply_all. cbn [foldl]. fold x y. split.
    + by rewrite Hch.
    + right. destruct (di_base _ _ _ _ _ _ HI Hst) as [Hnil|[b0 [Hle Hb0]]].
      * cbn in Hne. rewrite Hne in Hw by done. done.
      * exists b0. split; [lia|].
        rewrite !(at_batch_lookup _ (nx h)) by (done || lia). done.
Qed.

Lemma write_state_whole log d h c s f s2 :
  p_has_state = true -> DInv log d h c s f -> f <> FNone -> p_wf s2 ->
  p_equiv (target c s f).1.2 s2 ->
  prefixes_ok log d (snapshot_state (nx h) (whole_state s2)) /\
  DInv log (apply_all d (snapshot_state (nx h) (whole_state s2))) h c s f /\
  chain_ok (apply_all d (snapshot_state (nx h) (whole_state s2))) (nx h) s2.
Proof.
  intros Hst HI Hf Hw2 Heq. pose proof (DInv_wf _ _ _ _ _ _ HI) as Hwf.
  pose proof (target_wf c s f Hwf) as Hwt.
  destruct (snap_parts s2) as [|t parts] eqn:Hsp.
  - (* nothing to persist: no file of this batch exists either *)
    assert (forall k, d.(state) !! (nx h, k) = None) as Hnof.
    { intros k. apply eq_None_not_Some. intros Hk.
      destruct (flight_inflight _ _ _ _ _ _ Hf (di_flight _ _ _ _ _ _ HI)) as (_ & _ & _ & _ & Hs).
      by eapply (l_snap_equiv _ _ Hwt Hw2 Heq), Hsp; eapply Hs. }
    assert (restore_chain d.(state) (nx h) = []) as Hch.
    { rewrite restore_chain_skip by done.
      eapply (l_snap_none_chain _ s); [done| |by apply (di_repr _ _ _ _ _ _ HI)].
      destruct (snap_parts s) eqn:Hs0; [done|]. exfalso.
      eapply (l_snap_equiv _ _ Hwt Hw2 Heq), Hsp. apply snap_target; [done|]. by rewrite Hs0. }
    assert (delete (nx h, true) d.(state) = d.(state)) as Hdel by (by apply delete_id).
    assert (apply d (EWrite (nx h, false) []) = d) as Hx by (by destruct d).
    assert (apply d (ERemove (nx h, true)) = d) as Hy.
    { destruct d; cbn in *. f_equal. exact Hdel. }
    assert (whole_state s2 = None \/ whole_state s2 = Some []) as [Hw|Hw].
    { unfold whole_state, snap_parts in *. destruct p_snapshot_parts; [right; by rewrite Hsp|].
      destruct (p_snapshot s2); [done|by left]. }
    all: rewrite Hw; split_and!.
    + apply prefixes_nil. by do 4 eexists.
    + done.
    + split; [cbn; rewrite Hch; by apply l_snap_none|by left].
    + apply prefixes_cons; [by do 4 eexists|]. rewrite Hx.
      apply prefixes_cons; [by do 4 eexists|]. apply prefixes_nil. rewrite Hy. by do 4 eexists.
    + cbn [snapshot_state apply_all foldl]. by rewrite Hx, Hy.
    + cbn [snapshot_state apply_all foldl]. rewrite Hx, Hy.
      split; rewrite Hch; [by apply l_snap_none|by left].
  - assert (whole_state s2 = Some (t :: parts)) as ->.
    { unfold whole_state, snap_parts in *. destruct p_snapshot_parts; [by rewrite Hsp|].
      destruct (p_snapshot s2); by simplify_eq. }
    assert (snap_parts (target c s f).1.2 <> []) as Hsnap.
    { eapply l_snap_equiv; [exact Hw2|exact Hwt|symmetry; exact Heq|]. by rewrite Hsp. }
    set (x := EWrite (nx h, false) (t :: parts) : eff). set (y := ERemove (nx h, true) : eff).
    assert (DInv log (apply d x) h c s f) as H1 by (by apply DInv_state).
    assert (DInv log (apply (apply d x) y) h c s f) as H2 by (by apply DInv_state).
    assert (restore_chain (apply (apply d x) y).(state) (nx h) = t :: parts) as Hch
      by apply restore_chain_snapshot.
    cbn [snapshot_state]. unfold apply_all. cbn [foldl]. fold x y. split_and!; [|exact H2|].
    + apply prefixes_cons; [by do 4 eexists|]. apply prefixes_cons; [by do 4 eexists|].
      apply prefixes_nil. by do 4 eexists.
    + split; rewrite Hch; [rewrite <- Hsp; apply l_repr_snap; [done|by rewrite Hsp]|].
      right. exists (nx h). split; [done|]. cbn. rewrite lookup_delete_ne, lookup_insert_eq by done. eauto.
Qed.

Lemma write_state_ok log d h c s f e w e1 :
  p_has_state = true -> DInv log d h c s f -> lands s f ->
  e.(batches) = nx h -> e.(pstate) = (target c s f).1.2 ->
  (exists b c', f = FData b c') \/ no_stale_delta (target c s f).1.2 ->
  write_state interval e = (w, e1) ->
  prefixes_ok log d w /\ DInv log (apply_all d w) h c s f /\
  chain_ok (apply_all d w) (nx h) e1.(pstate) /\ p_equiv e.(pstate) e1.(pstate) /\
  p_wf e1.(pstate) /\ e1 = with_state e e1.(pstate) e1.(deltas_written).
Proof.
  intros Hst HI Hf Hn Hps Hcase. unfold write_state.
  pose proof (target_wf c s f (DInv_wf _ _ _ _ _ _ HI)) as Hwt.
  destruct (take_delta interval e) as [s2 od] eqn:Htd.
  destruct (take_delta_cases e s2 od Htd) as (Heq & Hw2 & Hdl). rewrite Hps in Heq, Hw2, Hdl.
  specialize (Hw2 Hwt).
  destruct od as [dl|]; intros [= <- <-]; rewrite Hn; cbn [pstate with_state].
  - destruct (write_state_delta log d h c s f s2 dl Hst HI Hf (Hdl dl eq_refl) Hcase) as (? & ? & ?).
    rewrite Hps. split_and!; done.
  - destruct (write_state_whole log d h c s f s2 Hst HI (lands_flight _ _ Hf) Hw2 Heq) as (? & ? & ?).
    rewrite Hps. split_and!; done.
Qed.

(** *** Committing *)

Lemma reaches_target log d h c s f :
  DInv log d h c s f -> lands s f ->
  reaches log (h ++ [(target c s f).2]) (target c s f).1.1 (target c s f).1.2.
Proof.
  intros HI Hf. pose proof (di_reaches _ _ _ _ _ _ HI) as Hr.
  destruct (flight_inflight _ _ _ _ _ _ (lands_flight _ _ Hf) (di_flight _ _ _ _ _ _ HI)) as (_ & _ & Hrd & _).
  destruct f as [|b c'| |]; [done|..]; cbn; auto using reaches_drain, reaches_flush.
  destruct (lands_data _ _ _ Hf) as (s1 & out & Hp & -> & ->).
  eapply reaches_data; [done|by apply Hrd|done].
Qed.

Lemma last_committed_commit (cl : CL) h tok :
  cl_last_committed cl = match h with [] => None | _ => Some (nx h - 1) end ->
  cl_last_committed (cl_commit cl (nx h) tok) = Some (nx h).
Proof.
  intros Hl. eapply highest_unique; [apply cl_last_spec|]. split.
  - by rewrite cl_committed_commit, bool_decide_eq_true_2.
  - intros i Hi. rewrite cl_committed_commit in Hi. apply orb_prop in Hi as [Hi|Hi].
    + apply bool_decide_eq_true in Hi. lia.
    + pose proof (cl_last_spec cl) as Hs. rewrite Hl in Hs.
      destruct h; cbn in Hs; [by destruct (Hs i)|]. destruct Hs as [_ Hs].
      specialize (Hs i Hi). cbn. lia.
Qed.

Lemma snoc_match {A} h ep (x y : A) :
  match h ++ [ep] with [] => x | _ => y end = y.
Proof. by destruct h. Qed.

Lemma DInv_commit log d h c s f tok s2 :
  DInv log d h c s f -> lands s f ->
  d.(sink) !! nx h = entry (epoch_rows (target c s f).2) ->
  p_wf s2 -> p_equiv (target c s f).1.2 s2 -> (p_has_state = true -> p_repr (restore_chain d.(state) (nx h)) s2) ->
  (p_has_state = true ->
    restore_chain d.(state) (nx h) = [] \/ (exists b, snap_at d.(state) (nx h) b)) ->
  DInv log (apply d (ECommit (nx h) tok)) (h ++ [(target c s f).2]) (target c s f).1.1 s2 FNone.
Proof.
  intros HI Hf Hpub Hw2 Heq Hrep Hbase. pose proof (reaches_target log d h c s f HI Hf) as Hre.
  destruct (flight_inflight _ _ _ _ _ _ (lands_flight _ _ Hf) (di_flight _ _ _ _ _ _ HI)) as (Hpos & _).
  destruct HI as [_ Hok Hl _ Hfu Hsi Hn _ _ _].
  split; rewrite ?nx_snoc, ?Z.add_simpl_r; try done.
  - by eapply reaches_equiv.
  - cbn. rewrite snoc_match. by apply last_committed_commit.
  - intros b Hb. apply Hfu. lia.
  - intros i ep Hi. cbn. apply lookup_app_Some in Hi as [Hi|[Hge Hi]]; [by apply Hsi|].
    apply list_lookup_singleton_Some in Hi as [Hz <-].
    replace (Z.of_nat i) with (nx h) by lia. done.
  - cbn. apply Hfu. lia.
Qed.

(** *** Pruning *)

Lemma apply_removes d l :
  apply_all d (map ERemove l) = Durable d.(offsets) d.(commits) (remove_all d.(state) l) d.(sink).
Proof.
  unfold apply_all. revert d. induction l as [|k l IH]; intros d; [by destruct d|].
  cbn [map foldl]. rewrite IH. done.
Qed.

Lemma DInv_removes log d h c s l :
  p_has_state = true -> DInv log d h c s FNone -> l ⊆ prune_list d.(state) (nx h - 1) ->
  DInv log (apply_all d (map ERemove l)) h c s FNone.
Proof.
  intros Hst [Hr Hok Hl Hp Hfu Hsi Hn Hre Hb Hfl] Hsub. rewrite apply_removes.
  specialize (Hb Hst).
  assert (forall k, d.(state) !! k = None -> remove_all d.(state) l !! k = None) as Hnone.
  { intros k Hk. rewrite prune_fold_lookup. by case_decide. }
  pose proof (restore_chain_prune_subset d.(state) (nx h - 1) l
    (proj1 (or_comm _ _) Hb) Hsub) as Hch.
  split; cbn; rewrite ?Hch; try done.
  - intros b Hlt. destruct (Hfu b Hlt) as (? & Hs & ?). split_and!; auto.
  - intros _. destruct Hb as [?|[b Hb]]; [by left|right]. by eapply prune_subset_keeps_base.
  - destruct Hfl as (? & Hs & ?). split_and!; cbn; auto.
Qed.

Lemma prefixes_removes log d h c s l :
  p_has_state = true -> DInv log d h c s FNone -> l ⊆ prune_list d.(state) (nx h - 1) ->
  prefixes_ok log d (map ERemove l).
Proof.
  intros Hst HI Hl pre post Heq. apply map_eq_app in Heq as (l1 & l2 & -> & <- & <-).
  exists h, c, s, FNone. apply DInv_removes; [done..|]. intros k Hk. apply Hl. set_solver.
Qed.

Lemma DInv_prune_logs log d h c s pruned xs p' :
  DInv log d h c s FNone -> h <> [] -> prune_logs pruned (nx h - 1) = (xs, p') ->
  prefixes_ok log d xs /\ DInv log (apply_all d xs) h c s FNone.
Proof.
  intros HI Hh. unfold prune_logs. py_if; intros [= <- <-].
  { split; [|done]. apply prefixes_nil. by do 4 eexists. }
  set (x := EPruneOffsets (nx h - 1) : eff). set (y := EPruneCommits (nx h - 1) : eff).
  assert (DInv log (apply d x) h c s FNone) as H1.
  { destruct HI as [Hr Hok Hl Hp Hfu Hsi Hn Hre Hb Hfl]. split; try done; cbn.
    - by apply ol_ok_prune.
    - intros _. rewrite ol_position_prune, decide_False by lia. by apply Hp.
    - intros b Hlt. rewrite ol_position_prune, decide_False by lia. by apply Hfu.
    - destruct Hfl as (? & ? & ?). split_and!; [|done..]. cbn.
      by rewrite ol_position_prune, decide_False by lia. }
  assert (DInv log (apply (apply d x) y) h c s FNone) as H2.
  { destruct H1 as [Hr Hok Hl Hp Hfu Hsi Hn Hre Hb Hfl]. split; try done. cbn.
    destruct h as [|ep h']; [done|]. set (m := nx (ep :: h') - 1) in *.
    eapply highest_unique; [apply cl_last_spec|].
    pose proof (cl_last_spec (commits d)) as Hs. cbn in Hl. rewrite Hl in Hs. cbn in Hs.
    destruct Hs as [Hs1 Hs2]. split.
    - rewrite cl_committed_prune, Hs1. rewrite (proj2 (Z.ltb_ge m m)) by lia. done.
    - intros i Hi. rewrite cl_committed_prune in Hi. apply andb_prop in Hi as [_ Hi]. by apply Hs2. }
  split; [|exact H2]. apply prefixes_cons; [by do 4 eexists|].
  apply prefixes_cons; [by do 4 eexists|]. apply prefixes_nil. by do 4 eexists.
Qed.

(** *** The whole of [_commit_microbatch] *)

(** The state half: files written, chain correct for the new state. *)
Lemma state_half_ok log d h c s f e w e1 :
  DInv log d h c s f -> lands s f ->
  e.(batches) = nx h -> e.(pstate) = (target c s f).1.2 ->
  (exists b c', f = FData b c') \/ no_stale_delta (target c s f).1.2 ->
  (if p_has_state then write_state interval e else ([], e)) = (w, e1) ->
  prefixes_ok log d w /\ DInv log (apply_all d w) h c s f /\
  (p_has_state = true -> chain_ok (apply_all d w) (nx h) e1.(pstate)) /\
  p_equiv e.(pstate) e1.(pstate) /\ p_wf e1.(pstate) /\ (apply_all d w).(sink) = d.(sink) /\
  e1 = with_state e e1.(pstate) e1.(deltas_written).
Proof.
  intros HI Hf Hn Hps Hcase Hws. destruct p_has_state eqn:Hst.
  - destruct (write_state_ok log d h c s f e w e1 Hst HI Hf Hn Hps Hcase Hws)
      as (? & ? & ? & ? & ? & ?). split_and!; try done.
    revert Hws. unfold write_state, snapshot_state, snapshot_state_delta.
    destruct (take_delta interval e) as [? [?|]]; intros [= <- _]; [done|]. by destruct whole_state.
  - injection Hws as <- <-. split_and!; try done; [| |by destruct e].
    + apply prefixes_nil. by do 4 eexists.
    + rewrite Hps. by apply target_wf, (DInv_wf _ _ _ _ _ _ HI).
Qed.

Lemma commit_microbatch_ok log d h c s f e xs e2 :
  DInv log d h c s f -> lands s f ->
  e.(batches) = nx h -> e.(pstate) = (target c s f).1.2 -> e.(cursor) = (target c s f).1.1 ->
  d.(sink) !! nx h = entry (epoch_rows (target c s f).2) ->
  (exists b c', f = FData b c') \/ no_stale_delta (target c s f).1.2 ->
  commit_microbatch interval d e = (xs, e2) ->
  prefixes_ok log d xs /\
  DInv log (apply_all d xs) (h ++ [(target c s f).2]) (target c s f).1.1 e2.(pstate) FNone /\
  e2.(batches) = nx h /\ e2.(cursor) = e.(cursor) /\ e2.(pending) = e.(pending).
Proof.
  intros HI Hf Hn Hps Hcur Hpub Hcase. unfold commit_microbatch.
  destruct (if p_has_state then write_state interval e else ([], e)) as [w e1] eqn:Hws.
  destruct (prune_logs (pruned_through e) (batches e)) as [pl pruned] eqn:Hpl.
  intros [= <- <-]. rewrite Hn in *.
  destruct (state_half_ok log d h c s f e w e1 HI Hf Hn Hps Hcase Hws)
    as (Hpw & HIw & Hch & Heq & Hw1 & Hsk & He1).
  assert (batches e1 = nx h /\ cursor e1 = cursor e /\ pending e1 = pending e) as (Hb1 & Hc1 & Hp1).
  { rewrite He1. by cbn. }
  cbn [batches cursor pending pstate].
  set (h' := h ++ [(target c s f).2]). set (c' := (target c s f).1.1).
  set (d1 := apply_all d (w ++ commit (nx h) (last_token e))).
  assert (DInv log d1 h' c' e1.(pstate) FNone) as HI1.
  { subst d1. rewrite apply_all_app. apply DInv_commit; auto.
    - by rewrite Hsk.
    - by rewrite <- Hps.
    - intros Hst. by apply Hch.
    - intros Hst. by apply Hch. }
  assert (nx h' - 1 = nx h) as Hlen by (subst h'; rewrite nx_snoc; lia).
  set (ps := if p_has_state then prune_state d1 (nx h) else []).
  assert (prefixes_ok log d1 ps /\ DInv log (apply_all d1 ps) h' c' e1.(pstate) FNone) as [Hpps HIps].
  { subst ps. unfold prune_state. rewrite <- Hlen. destruct p_has_state eqn:Hst.
    - split; [by eapply prefixes_removes|by apply DInv_removes].
    - split; [|done]. apply prefixes_nil. by do 4 eexists. }
  destruct (DInv_prune_logs log (apply_all d1 ps) h' c' (pstate e1) (pruned_through e) pl pruned)
    as [Hpp HIp]; [done|by destruct h|by rewrite Hlen|].
  assert (apply_all d (w ++ commit (nx h) (last_token e) ++ ps ++ pl) =
          apply_all (apply_all d1 ps) pl) as Hall.
  { subst d1. by rewrite <- !apply_all_app, <- !app_assoc. }
  change (ECommit (nx h) (last_token e) :: ps ++ pl) with
    (commit (nx h) (last_token e) ++ ps ++ pl).
  split_and!; [|by rewrite Hall|done..].
  apply prefixes_app; [done|]. rewrite app_assoc.
  assert (apply_all (apply_all d w) (commit (nx h) (last_token e)) = d1) as Hd1
    by (by rewrite <- apply_all_app).
  apply prefixes_app; [|by rewrite apply_all_app, Hd1].
  apply prefixes_app; [|by rewrite Hd1].
  apply prefixes_cons; [by do 4 eexists|]. apply prefixes_nil.
  exists h', c', (pstate e1), FNone. by rewrite <- Hd1 in HI1.
Qed.

(** ** The engine agrees with the run its checkpoint explains *)

Definition Inv (log : Log) d e : Prop := exists h f,
  DInv log d h e.(cursor) e.(pstate) f /\ e.(batches) = nx h /\ (e.(pending) = true <-> f = FFlush).

Lemma Inv_explained log d e : Inv log d e -> explained log d.
Proof. intros (h & f & HI & _). by do 4 eexists. Qed.

Lemma next_batch_Inv log d h ep e c s :
  DInv log d (h ++ [ep]) c s FNone -> e.(pstate) = s -> e.(cursor) = c ->
  e.(batches) = nx h -> e.(pending) = false -> Inv log d (next_batch e).
Proof.
  intros HI Hs Hc Hb Hp. exists (h ++ [ep]), FNone. cbn. rewrite Hs, Hc, Hb, Hp, nx_snoc. done.
Qed.

Lemma drain_ok log d e xs e' :
  Inv log d e -> e.(pending) = false -> src_read log e.(cursor) = None ->
  no_stale_delta e.(pstate) -> checkpoint_drain finalize_doc interval d e = (xs, e') ->
  prefixes_ok log d xs /\ Inv log (apply_all d xs) e'.
Proof.
  intros (h & f & HI & Hb & Hp) Hpf Hr Hno. unfold checkpoint_drain, record_offsets, positions.
  cbn [map app]. rewrite Hb. set (x := EOffset _ _ _).
  destruct (commit_microbatch _ _ _) as [xs' e2] eqn:Hc. intros [= <- <-].
  assert (f <> FFlush) as Hf by (intros ->; by rewrite (proj2 Hp eq_refl) in Hpf).
  assert (DInv log (apply d x) h (cursor e) (pstate e) FDrain) as HI1.
  { eapply offset_drain; [exact HI|done|by right]. }
  assert ((apply d x).(sink) !! nx h = None) as Hsk.
  { by destruct (flight_inflight _ _ _ _ _ FDrain ltac:(done) (di_flight _ _ _ _ _ _ HI1))
      as (_ & _ & _ & [?|?] & _). }
  destruct (commit_microbatch_ok log (apply d x) h (cursor e) (pstate e) FDrain e xs' e2)
    as (Hpre & HI2 & Hb2 & Hc2 & Hp2); try done; [by right|].
  split; [apply prefixes_cons; [by do 4 eexists|done]|].
  eapply next_batch_Inv; [exact HI2|done|done|done|by rewrite Hp2].
Qed.

Lemma publish_ok log d h c s b c' pub s' tok :
  DInv log d h c s (FData b c') -> publish part_path (nx h) s b = (pub, s', Ok tok) ->
  prefixes_ok log d pub /\ DInv log (apply_all d pub) h c s (FData b c') /\
  (apply_all d pub).(sink) !! nx h = entry (published s b) /\
  s' = after s b /\ lands s (FData b c').
Proof.
  intros HI. unfold publish, lands. destruct (p_process s b) as [s1 [out|]] eqn:Hpr; [|done].
  assert (after s b = s1 /\ published s b = publish_rows out) as [Haf Hpu]
    by (unfold after, published; by rewrite Hpr).
  rewrite Haf, Hpu. cbn.
  destruct (publish_rows out) as [|o rows] eqn:Hrows; intros [= <- <- <-].
  - split_and!; [apply prefixes_nil; by do 4 eexists|done| |done|done].
    destruct (flight_inflight _ _ _ _ _ (FData b c') ltac:(done) (di_flight _ _ _ _ _ _ HI))
      as (_ & _ & _ & Hsk & _). cbn in Hsk. rewrite Hpu in Hsk. cbn in *. by destruct Hsk.
  - destruct (DInv_publish log d h c s (FData b c') (o :: rows) HI) as [HI' Hsk]; [done| |done|].
    { cbn. by rewrite Hpu. }
    split_and!; [|done..]. apply prefixes_cons; [by do 4 eexists|].
    apply prefixes_nil. by do 4 eexists.
Qed.

Lemma next_ok log d e r xs e' :
  Inv log d e -> e.(pending) = false ->
  (src_read log e.(cursor) = None -> no_stale_delta e.(pstate)) ->
  process_next finalize_doc part_path interval d log e = (r, xs, e') ->
  prefixes_ok log d xs /\ (is_ok r = true -> Inv log (apply_all d xs) e').
Proof.
  intros HInv Hpf Hst. unfold process_next. destruct (src_read log (cursor e)) as [[b c']|] eqn:Hr.
  2: { destruct (checkpoint_drain _ _ _ _) as [xs1 e1] eqn:Hd. intros [= <- <- <-].
       destruct (drain_ok log d e xs1 e1) as [? ?]; eauto. }
  unfold record_offsets, positions. cbn [map app cursor].
  destruct (publish part_path (batches e) (pstate e) b) as [[pub s'] tok] eqn:Hpub.
  destruct HInv as (h & f & HI & Hb & Hp). rewrite Hb in *. set (x := EOffset _ _ _) in *.
  assert (f <> FFlush) as Hf by (intros ->; by rewrite (proj2 Hp eq_refl) in Hpf).
  assert (DInv log (apply d x) h (cursor e) (pstate e) (FData b c')) as HI1
    by (by eapply offset_data).
  destruct tok as [tok|err].
  2: { intros [= <- <- <-]. split; [|done]. apply prefixes_cons; [by do 4 eexists|].
       apply prefixes_nil. by do 4 eexists. }
  destruct (commit_microbatch _ _ _) as [cs e2] eqn:Hc. intros [= <- <- <-].
  destruct (publish_ok log (apply d x) h _ _ b c' pub s' tok HI1 Hpub) as (Hpp & HI2 & Hsk & -> & Hla).
  change (apply_all d ([x] ++ pub)) with (apply_all (apply d x) pub) in Hc.
  eapply (commit_microbatch_ok log _ h (cursor e) (pstate e) (FData b c')) in Hc
    as (Hpre & HI3 & Hb3 & Hc3 & Hp3); try done; [|by left; eauto].
  split.
  - apply prefixes_cons; [by do 4 eexists|]. by apply prefixes_app.
  - intros _. change (apply_all d (x :: pub ++ cs)) with (apply_all (apply d x) (pub ++ cs)).
    rewrite apply_all_app. eapply next_batch_Inv; [exact HI3|done..|]. by rewrite Hp3.
Qed.

(** A flush writes its (at most one) batch of rows under the batch in flight. *)
Lemma emit_ok log d h c s :
  DInv log d h c s FFlush ->
  let emit := map (fun o => ESink (nx h) [o]) (flush_rows s) in
  prefixes_ok log d emit /\ DInv log (apply_all d emit) h c s FFlush /\
  (apply_all d emit).(sink) !! nx h = entry (flush_rows s).
Proof.
  intros HI. cbn zeta. pose proof (l_flush_one s) as Hone. fold (flush_rows s) in Hone.
  destruct (flush_rows s) as [|o [|o' rows]] eqn:Hrows; [| |cbn in Hone; lia].
  - split_and!; [apply prefixes_nil; by do 4 eexists|done|].
    destruct (flight_inflight _ _ _ _ _ FFlush ltac:(done) (di_flight _ _ _ _ _ _ HI))
      as (_ & _ & _ & Hsk & _). cbn in Hsk. rewrite Hrows in Hsk. by destruct Hsk.
  - destruct (DInv_publish log d h c s FFlush [o] HI) as [HI' Hsk]; [done|by cbn|done|].
    split_and!; [|done..]. apply prefixes_cons; [by do 4 eexists|].
    apply prefixes_nil. by do 4 eexists.
Qed.

Lemma flush_commit_ok log d h e xs e2 :
  DInv log d h e.(cursor) e.(pstate) FFlush -> e.(batches) = nx h ->
  no_stale_delta (p_finalize e.(pstate)).1 ->
  commit_microbatch interval (apply_all d (map (fun o => ESink (nx h) [o]) (flush_rows e.(pstate))))
    (with_state e (p_finalize e.(pstate)).1 e.(deltas_written)) = (xs, e2) ->
  let ys := map (fun o => ESink (nx h) [o]) (flush_rows e.(pstate)) ++ xs in
  prefixes_ok log d ys /\
  (e.(pending) = false -> Inv log (apply_all d ys) (next_batch e2)).
Proof.
  intros HI Hb Hno Hc. cbn zeta. destruct (emit_ok log d h _ _ HI) as (Hpe & HI1 & Hsk).
  eapply (commit_microbatch_ok log _ h (cursor e) (pstate e) FFlush) in Hc
    as (Hpre & HI2 & Hb2 & Hc2 & Hp2); try done; [|by right].
  split; [by apply prefixes_app|]. intros Hp. rewrite apply_all_app.
  eapply next_batch_Inv; [exact HI2|done..|]. by rewrite Hp2.
Qed.

Lemma replay_ok log d e xs e' :
  Inv log d e -> e.(pending) = true -> no_stale_delta (p_finalize e.(pstate)).1 ->
  emit_finalize finalize_doc interval d (Engine e.(batches) e.(deltas_written) false
    e.(pruned_through) e.(cursor) e.(pstate) e.(last_token)) true = (xs, e') ->
  prefixes_ok log d xs /\ Inv log (apply_all d xs) e'.
Proof.
  intros (h & f & HI & Hb & Hp) Hpt Hno. rewrite (proj1 Hp Hpt) in HI.
  set (e0 := Engine _ _ false _ _ _ _). unfold emit_finalize. cbn [pstate batches e0].
  destruct (p_finalize (pstate e)) as [s' outs] eqn:Hfin. rewrite andb_false_r.
  destruct (commit_microbatch _ _ _) as [cs e2] eqn:Hc. intros [= <- <-]. cbn [app] in *.
  assert (filter (fun o => p_num_rows o <> 0) outs = flush_rows (pstate e)) as Hfl
    by (unfold flush_rows; by rewrite Hfin).
  rewrite Hfl, Hb in *.
  destruct (flush_commit_ok log d h e0 cs e2 HI) as [? HInv]; cbn [pstate e0] in *;
    rewrite ?Hfin; try done. split; [done|]. by apply HInv.
Qed.

Lemma flush_ok log d e xs e' :
  Inv log d e -> e.(pending) = false -> ol_position_at d.(offsets) e.(batches) = ∅ ->
  no_stale_delta (p_finalize e.(pstate)).1 ->
  emit_finalize finalize_doc interval d e false = (xs, e') -> prefixes_ok log d xs.
Proof.
  intros (h & f & HI & Hb & Hp) Hpf Hpos Hno. rewrite Hb in Hpos.
  assert (f = FNone) as ->.
  { destruct (decide (is_Some (ol_position_at d.(offsets) (nx h) !! 0))) as [Hs|Hs].
    - rewrite Hpos, lookup_empty in Hs. by destruct Hs.
    - pose proof (di_flight _ _ _ _ _ _ HI) as Hfl. destruct f; [done|..];
        apply flight_inflight in Hfl as (Hfl & _); try done; rewrite Hfl in Hs; destruct Hs; eauto. }
  unfold emit_finalize. destruct (p_finalize (pstate e)) as [s' outs] eqn:Hfin.
  destruct (_ && _); [intros [= <- _]; apply prefixes_nil; by do 4 eexists|].
  unfold record_offsets, positions. cbn [map app].
  set (x := EOffset _ 0 _). set (y := EOffset _ FINALIZE_SOURCE_ID _).
  destruct (commit_microbatch _ _ _) as [cs e2] eqn:Hc. intros [= <- _].
  assert (filter (fun o => p_num_rows o <> 0) outs = flush_rows (pstate e)) as Hfl
    by (unfold flush_rows; by rewrite Hfin).
  rewrite Hfl in *. subst x y. rewrite Hb in *.
  assert (DInv log (apply d (EOffset (nx h) 0 (cursor e))) h (cursor e) (pstate e) FDrain) as HI1
    by (eapply offset_drain; [exact HI|done|by left]).
  pose proof (offset_marker _ _ _ _ _ HI1) as HI2.
  apply prefixes_cons; [by do 4 eexists|]. apply prefixes_cons; [by do 4 eexists|].
  destruct (flush_commit_ok log _ h e cs e2 HI2 Hb) as [? _]; rewrite ?Hfin; done.
Qed.

(** ** Recovery *)

Lemma latest_none d : ol_ok d.(offsets) -> ol_latest_batch d.(offsets) = None ->
  forall b, ol_position_at d.(offsets) b = ∅.
Proof.
  intros Hok Hn b. pose proof (ol_latest_spec d.(offsets) Hok) as Hs. rewrite Hn in Hs. cbn in Hs.
  apply map_eq. intros i. rewrite lookup_empty. apply eq_None_not_Some. intros Hi.
  apply (Hs b). intros He. rewrite He, lookup_empty in Hi. by destruct Hi.
Qed.

Lemma is_finalize_flight log d h c s f :
  DInv log d h c s f -> is_finalize d (nx h) = true <-> f = FFlush.
Proof.
  intros HI. pose proof (di_flight _ _ _ _ _ _ HI) as Hfl.
  unfold is_finalize. rewrite bool_decide_eq_true. destruct f.
  - split; [|done]. destruct Hfl as (-> & _). rewrite lookup_empty. by intros [].
  - apply flight_inflight in Hfl as (_ & Hm & _); done.
  - apply flight_inflight in Hfl as (_ & Hm & _); done.
  - apply flight_inflight in Hfl as (_ & Hm & _); done.
Qed.

Lemma flight_logged log d h c s f :
  DInv log d h c s f -> ol_latest_batch d.(offsets) = None -> h = [] /\ f <> FFlush.
Proof.
  intros HI Hn. pose proof (latest_none d (di_ok _ _ _ _ _ _ HI) Hn) as Hall. split.
  - destruct h as [|ep h]; [done|]. pose proof (di_pos _ _ _ _ _ _ HI ltac:(done)) as Hp.
    rewrite Hall, lookup_empty in Hp. done.
  - intros ->. pose proof (di_flight _ _ _ _ _ _ HI) as Hfl.
    apply flight_inflight in Hfl as (Hp & _); [|done]. by rewrite Hall, lookup_empty in Hp.
Qed.

(** What a restart may rely on: a fresh process, or an in-process restart whose plan
    overwrites the position and, for a stateful query, the state, of whatever the fault
    left in memory. *)
Definition restorable d e0 : Prop :=
  e0 = fresh_engine \/
  (cl_last_committed d.(commits) <> None /\
   (p_has_state = true -> (recover d).(rstate) <> None /\ p_blank e0.(pstate))).

Lemma restored_state c0 s s0 :
  p_wf s -> (p_has_state = true -> p_repr c0 s) ->
  (p_has_state = true -> match c0 with [] => s0 = p_init | _ => p_blank s0 end) ->
  let s1 := match c0 with
            | [] => s0
            | [t] => p_restore t s0
            | t :: ds => p_restore_chain (t :: ds) s0
            end in
  p_equiv s s1 /\ p_wf s1.
Proof.
  intros Hw Hrep Hs0 s1. destruct p_has_state eqn:Hst.
  2: { destruct (l_stateless Hst s s1), (l_stateless Hst s1 s). by split. }
  specialize (Hrep eq_refl). specialize (Hs0 eq_refl). subst s1. destruct c0 as [|t [|d ds]].
  - subst s0. split; [symmetry; by apply l_nil_init|apply l_wf_init].
  - destruct (l_restore_one t s s0 Hw Hs0 Hrep). by split.
  - destruct (l_restore_chain t d ds s s0 Hw Hs0 Hrep). by split.
Qed.

Lemma recover_ok log d h c s f e0 :
  DInv log d h c s f -> restorable d e0 ->
  let e := recover_engine d e0 in
  e.(batches) = nx h /\ e.(cursor) = c /\ (e.(pending) = true <-> f = FFlush) /\
  p_equiv s e.(pstate) /\ p_wf e.(pstate).
Proof.
  intros HI Hre. pose proof (is_finalize_flight _ _ _ _ _ _ HI) as Hfin.
  pose proof (flight_logged _ _ _ _ _ _ HI) as Hlog.
  pose proof (di_last _ _ _ _ _ _ HI) as Hlast. pose proof (DInv_wf _ _ _ _ _ _ HI) as Hwf.
  unfold restorable, recover_engine, recover in *. cbn zeta in *.
  destruct h as [|ep h].
  - destruct (di_reaches _ _ _ _ _ _ HI) as (_ & s0 & Hi & Heq). inversion Hi as [Ha Hb Hc| | |];
      try by destruct h. subst.
    destruct Hre as [->|[Hn _]]; [|done]. rewrite Hlast. cbn in Hfin.
    destruct (ol_latest_batch d.(offsets)); cbn; (split_and!; [done|done| |by symmetry|apply l_wf_init]).
    + exact Hfin.
    + split; [done|]. intros ->. by destruct (Hlog eq_refl).
  - rewrite Hlast in *. destruct (ol_latest_batch d.(offsets)) eqn:Hl; [|by destruct (Hlog eq_refl)].
    set (n := nx (ep :: h)) in *. replace (n - 1 + 1) with n in * by lia.
    pose proof (di_pos _ _ _ _ _ _ HI ltac:(done)) as Hpos. fold n in Hpos.
    pose proof (restored_state _ s e0.(pstate) Hwf (di_repr _ _ _ _ _ _ HI)) as Hst. fold n in Hst.
    destruct (restore_chain d.(state) (n - 1)) as [|t ds] eqn:Hch; cbn; rewrite Hpos.
    + split_and!; [done|done|exact Hfin|..]; apply Hst; intros Hs;
        (destruct Hre as [->|[_ Hr]]; [done|]; by destruct (Hr Hs)).
    + destruct ds as [|d0 ds]; cbn; split_and!; try done; apply Hst; intros Hs;
        (destruct Hre as [->|[_ Hr]]; [apply l_blank_init|apply (Hr Hs)]).
Qed.

Lemma restart_ok log d e0 :
  explained log d -> restorable d e0 -> Inv log d (recover_engine d e0).
Proof.
  intros (h & c & s & f & HI) Hre.
  destruct (recover_ok log d h c s f e0 HI Hre) as (Hb & Hc & Hp & Hs & Hw).
  exists h, f. rewrite Hc. split_and!; [by eapply DInv_equiv|done|done].
Qed.

(** ** Executions *)

Definition cleared e : engine :=
  Engine e.(batches) e.(deltas_written) false e.(pruned_through) e.(cursor) e.(pstate) e.(last_token).

(** The effects a run may perform next, to the end: a micro-batch (or the drain marker of a spent
    source), the flush that ends the run, or the flush recovery found pending.  A
    flush that ends a run is taken at a batch boundary with nothing write-ahead
    logged under its id, and neither a drain nor a flush follows a whole snapshot
    that left a delta unread; see [stop_before_replay_breaks] and
    [stale_delta_breaks] for what happens otherwise. *)
Inductive performs (log : Log) d e : list eff -> engine -> Prop :=
  | perform_next more xs e' : e.(pending) = false ->
      (src_read log e.(cursor) = None -> no_stale_delta e.(pstate)) ->
      process_next finalize_doc part_path interval d log e = (Ok more, xs, e') ->
      performs log d e xs e'
  | perform_replay xs e' : e.(pending) = true -> no_stale_delta (p_finalize e.(pstate)).1 ->
      emit_finalize finalize_doc interval d (cleared e) true = (xs, e') ->
      performs log d e xs e'
  | perform_flush xs e' : e.(pending) = false ->
      ol_position_at d.(offsets) e.(batches) = ∅ -> no_stale_delta (p_finalize e.(pstate)).1 ->
      emit_finalize finalize_doc interval d e false = (xs, e') ->
      performs log d e xs (recover_engine (apply_all d xs) fresh_engine).

Definition world : Type := (Log * durable * engine)%type.

Inductive step : world -> world -> Prop :=
  | step_perform log d e xs e' : performs log d e xs e' ->
      step (log, d, e) (log, apply_all d xs, e')
  | step_crash log d e xs e' pre post : performs log d e xs e' -> xs = pre ++ post ->
      step (log, d, e) (log, apply_all d pre, recover_engine (apply_all d pre) fresh_engine)
  | step_fault log d e xs e' pre post e0 : performs log d e xs e' -> xs = pre ++ post ->
      restorable (apply_all d pre) e0 ->
      step (log, d, e) (log, apply_all d pre, recover_engine (apply_all d pre) e0)
  (* a processor that raises: its micro-batch ends at the write-ahead record *)
  | step_raise log d e err xs e' pre post e0 : e.(pending) = false ->
      process_next finalize_doc part_path interval d log e = (Raise err, xs, e') ->
      xs = pre ++ post -> restorable (apply_all d pre) e0 ->
      step (log, d, e) (log, apply_all d pre, recover_engine (apply_all d pre) e0)
  | step_grow log log' d e : src_grows log log' -> step (log, d, e) (log', d, e).

Definition empty_durable : durable := Durable ol_new cl_new ∅ ∅.

Lemma performs_ok log d e xs e' :
  Inv log d e -> performs log d e xs e' -> prefixes_ok log d xs /\ Inv log (apply_all d xs) e'.
Proof.
  intros HI Hperf. destruct Hperf as [more xs e' ? ? Hx|xs e' ? ? Hx|xs e' ? ? ? Hx].
  - destruct (next_ok log d e (Ok more) xs e') as [? Hok]; [done..|]. split; [done|]. by apply Hok.
  - by eapply replay_ok.
  - assert (prefixes_ok log d xs) as Hpre by (by eapply flush_ok). split; [done|].
    apply restart_ok; [|by left]. apply (Hpre xs []). by rewrite app_nil_r.
Qed.

Lemma step_ok w w' :
  step w w' -> (let '(log, d, e) := w in Inv log d e) -> let '(log, d, e) := w' in Inv log d e.
Proof.
  destruct 1 as [log d e xs e' Hp|log d e xs e' pre post Hp Hx|log d e xs e' pre post e0 Hp Hx Hr
                |log d e err xs e' pre post e0 Hpf Hp Hx Hr|log log' d e Hg]; intros HI.
  - by eapply performs_ok.
  - apply restart_ok; [|by left]. eapply performs_ok in Hp as [Hpre _]; [|done]. by eapply Hpre.
  - apply restart_ok; [|done]. eapply performs_ok in Hp as [Hpre _]; [|done]. by eapply Hpre.
  - apply restart_ok; [|done]. eapply next_ok in Hp as [Hpre _]; [by eapply Hpre|done|done|].
    intros Hnone. exfalso. revert Hp. unfold process_next. rewrite Hnone. by destruct (checkpoint_drain _ _ _ _).
  - destruct HI as (h & f & HI & ? & ?). exists h, f. split_and!; [by eapply DInv_grows|done..].
Qed.

Lemma restore_chain_empty n : restore_chain (∅ : gmap key (list T)) n = [].
Proof.
  rewrite (restore_chain_spec ∅ n None []); [done| |constructor|constructor|].
  - intros b [_ Hb]. rewrite lookup_empty in Hb. by destruct Hb.
  - intros k. split; [by intros Hk%elem_of_nil|]. rewrite lookup_empty. by intros [[] _].
Qed.

Lemma Inv_start log : Inv log empty_durable fresh_engine.
Proof.
  exists [], FNone. split_and!; [|done..]. split; cbn; try done.
  - split; [apply l_wf_init|]. exists p_init. split; [constructor|done].
  - apply ol_ok_new.
  - eapply highest_unique; [apply cl_last_spec|]. cbn. intros i. by rewrite cl_committed_new.
  - intros b _. rewrite ol_position_new. split_and!; [done| |done].
    intros k. apply lookup_empty.
  - intros _. rewrite restore_chain_empty. apply l_repr_init.
  - intros _. left. apply restore_chain_empty.
  - split_and!; [apply ol_position_new|intros k; apply lookup_empty|done].
Qed.

Lemma reachable_Inv log0 log d e :
  rtc step (log0, empty_durable, fresh_engine) (log, d, e) -> Inv log d e.
Proof.
  intros Hr. remember (log, d, e) as w eqn:Hw. change (let '(log, d, e) := (log, d, e) in Inv log d e).
  rewrite <- Hw. clear Hw. remember (log0, empty_durable, fresh_engine) as w0 eqn:Hw0.
  assert (let '(log, d, e) := w0 in Inv log d e) as H0 by (rewrite Hw0; apply Inv_start).
  clear Hw0. induction Hr as [|x y z Hxy _ IH]; [done|]. apply IH. by eapply step_ok.
Qed.

End ExactlyOnce.
