(* ===== verification/StreamAggregate.v ===== *)
(** * The running streaming aggregate as a processor

    [RunningAggregate] (core/mergeable.py), [_AggFold]
    (core/streaming/folds/running.py) and [AggregateProcessor]
    (core/streaming_query/processors.py), over the native engine's partial-aggregate
    algebra (parameters of the section: [partial_of], [combine], [combine_finalize]).
    The processor of a grouped query in [complete] mode meets [ProcessorLaws], so
    [ExactlyOnce] applies to it; the second half evaluates the engine on concrete
    runs, including the ones the exactly-once theorem excludes. *)

From S2P Require Import Prelude CheckpointLogs CheckpointStore StreamEngine ExactlyOnce.
Import StateStore.

Section Aggregate.
(** [B] a source batch, [P] a partial-aggregate state, [Out] a result batch. *)
Context {B P Out : Type}.
(** [execute_plan] of the input pipeline followed by [partial_aggregate]; [None] when
    no row is left. *)
Variable partial_of : B -> option P.
(** [combine(keys, aggs, partials)]. *)
Variable combine : list P -> P.
(** [combine_finalize(keys, aggs, [state])]. *)
Variable combine_finalize : P -> Out.
Variable num_rows : Out -> Z.
Variable retained_bytes : P -> Z.
(** [StreamingTail.apply_snapshot], [StreamingTail.apply], the anti-join of
    [_changed_rows], and [empty_global_aggregate]. *)
Variable apply_snapshot : Out -> Out.
Variable tail_apply : Out -> option Out.
Variable changed_rows : Out -> Out -> list Out.
Variable empty_global : option Out.
(** [bool(agg.group_keys)] and [update_only]. *)
Variable keyed update_only : bool.
(** The bytes of an emitted result and [streaming_state_budget()]. *)
Variable out_bytes : Out -> Z.
Variable cap : Z.

(** *** [RunningAggregate] *)

Definition absorb (running : option P) (partial : P) : option P :=
  match running with None => Some partial | Some r => Some (combine [r; partial]) end.

Definition combine_all (partials : list P) : option P :=
  match partials with [] => None | _ => Some (combine partials) end.

Definition fold_finalize (running : option P) : option Out :=
  match running with
  | None => None
  | Some r => let result := combine_finalize r in
              if num_rows result =? 0 then None else Some result
  end.

(** *** [AggregateProcessor], its fold's fields included *)

Record agg_state := AggState {
  running : option P;     (* _fold._fold._running *)
  delta : option P;       (* _fold._delta *)
  emitted : bool;
  previous : option Out;
}.

(** [_AggFold.push]. *)
Definition push (s : agg_state) (batch : B) : agg_state :=
  match partial_of batch with
  | None => AggState s.(running) None s.(emitted) s.(previous)
  | Some p => AggState (absorb s.(running) p) (Some p) s.(emitted) s.(previous)
  end.

(** [_changed_rows] on a result whose columns can be join keys. *)
Definition update_rows (s : agg_state) (result : Out) : agg_state * list Out :=
  (AggState s.(running) s.(delta) s.(emitted) (Some result),
   match s.(previous) with
   | None => [result]
   | Some prev => changed_rows result prev
   end).

(** [RunningAggregate.nbytes] and [_previous_bytes]. *)
Definition nbytes (running : option P) : Z :=
  match running with None => 0 | Some r => retained_bytes r end.
Definition previous_bytes (s : agg_state) : Z :=
  match s.(previous) with None => 0 | Some result => out_bytes result end.

(** [check_agg_state_bounded] passes. *)
Definition state_bounded (running : option P) (extra_bytes : Z) : bool :=
  nbytes running + extra_bytes <=? cap.

(** [process] (no map in front of the fold). *)
Definition process (s : agg_state) (batch : B) : agg_state * res (list Out) :=
  let s1 := push s batch in
  if keyed && negb (state_bounded s1.(running) (previous_bytes s1)) then (s1, Raise "ResourceError")
  else
    match fold_finalize s1.(running) with
    | None => (s1, Ok [])
    | Some result =>
        let s2 := AggState s1.(running) s1.(delta) true s1.(previous) in
        if negb update_only then (s2, Ok [apply_snapshot result])
        else match tail_apply result with
             | None => (s2, Ok [])
             | Some r => let '(s3, rows) := update_rows s2 r in (s3, Ok rows)
             end
    end.

(** [finalize]: the row a keyless aggregate owes a stream that carried none. *)
Definition finalize (s : agg_state) : agg_state * list Out :=
  if s.(emitted) || keyed then (s, [])
  else match empty_global with
       | None => (s, [])
       | Some result => match tail_apply result with
                        | None => (s, [])
                        | Some r => (s, [r])
                        end
       end.

(** [take_delta]: reading consumes it. *)
Definition take_delta (s : agg_state) : agg_state * option P :=
  (AggState s.(running) None s.(emitted) s.(previous), s.(delta)).

Definition restore (st : P) (s : agg_state) : agg_state :=
  AggState (Some st) s.(delta) s.(emitted) s.(previous).

Definition restore_chain (states : list P) (s : agg_state) : agg_state :=
  AggState (combine_all states) s.(delta) s.(emitted) s.(previous).

Definition agg_processor : Processor agg_state B Out P := {|
  p_init := AggState None None false None;
  p_process := process;
  p_replaces_output := negb update_only;
  p_finalize := finalize;
  p_has_state := true;
  p_snapshot := running;
  p_snapshot_parts := None;
  p_delta := Some take_delta;
  p_restore := restore;
  p_restore_chain := restore_chain;
  p_num_rows := num_rows;
  p_bytes := retained_bytes;
|}.

(** *** The laws, for a grouped aggregate in [complete] mode *)

Hypothesis complete_mode : update_only = false.
Hypothesis grouped : keyed = true.
(** [combine] is associative over the order partials were recorded in. *)
Hypothesis combine_snoc : forall c p, c <> [] -> combine (c ++ [p]) = combine [combine c; p].
(** A partial over at least one row holds at least one byte. *)
Hypothesis partial_bytes : forall b p, partial_of b = Some p -> 0 < retained_bytes p.

Definition agg_repr (c : list P) (s : agg_state) : Prop :=
  s.(running) = match c with [] => None | [t] => Some t | _ => Some (combine c) end.

Definition agg_equiv (s s' : agg_state) : Prop := s.(running) = s'.(running).

(** A complete-mode query never keeps a previous result. *)
Definition agg_wf (s : agg_state) : Prop := s.(previous) = None.

Lemma push_previous s b : (push s b).(previous) = s.(previous).
Proof. unfold push. by destruct (partial_of b). Qed.

Lemma process_complete s b : agg_wf s ->
  (process s b).1.(running) = (push s b).(running) /\
  (process s b).1.(delta) = (push s b).(delta) /\ agg_wf (process s b).1 /\
  (process s b).2 = if state_bounded (push s b).(running) 0
                    then Ok match fold_finalize (push s b).(running) with
                            | None => [] | Some r => [apply_snapshot r] end
                    else Raise "ResourceError".
Proof.
  unfold agg_wf. intros Hw. unfold process, previous_bytes. rewrite complete_mode, grouped, push_previous, Hw.
  cbn [andb]. destruct (state_bounded _ _); cbn [negb]; [destruct (fold_finalize _)|]; cbn; by rewrite ?push_previous.
Qed.

Lemma push_running s s' b : agg_equiv s s' -> (push s b).(running) = (push s' b).(running).
Proof. unfold agg_equiv, push. intros Hs. destruct (partial_of b); cbn; by rewrite Hs. Qed.

Lemma finalize_grouped s : finalize s = (s, []).
Proof. unfold finalize. by rewrite grouped, orb_true_r. Qed.

Lemma agg_repr_snoc c s p :
  agg_repr c s -> absorb s.(running) p = match c ++ [p] with [t] => Some t | c' => Some (combine c') end.
Proof.
  unfold agg_repr. intros ->. destruct c as [|t [|d ds]]; [done..|].
  cbn [absorb]. rewrite <- combine_snoc by done. done.
Qed.

Lemma agg_repr_app c s p s' :
  agg_repr c s -> s'.(running) = absorb s.(running) p -> agg_repr (c ++ [p]) s'.
Proof.
  intros Hc Hs'. unfold agg_repr. rewrite Hs', (agg_repr_snoc c s p Hc).
  by destruct c as [|t [|d ds]].
Qed.

Lemma push_absorb s b :
  (push s b).(running) = match partial_of b with None => s.(running) | Some p => absorb s.(running) p end.
Proof. unfold push. by destruct (partial_of b). Qed.

Lemma push_delta s b : (push s b).(delta) = partial_of b.
Proof. unfold push. by destruct (partial_of b). Qed.

Lemma process_ok s b s1 out : agg_wf s -> process s b = (s1, Ok out) ->
  s1.(running) = (push s b).(running) /\ s1.(delta) = partial_of b /\ agg_wf s1.
Proof.
  intros Hw Hp. destruct (process_complete s b Hw) as (H1 & H2 & H3 & _). rewrite Hp in *. cbn in *.
  by rewrite H2, push_delta.
Qed.

Lemma push_running_some s b : (s.(running) <> None) -> (push s b).(running) <> None.
Proof. rewrite push_absorb. destruct (partial_of b); [|done]. by destruct (running s). Qed.

Lemma snap_agg s : snap_parts (Processor0 := agg_processor) s = match s.(running) with Some t => [t] | None => [] end.
Proof. done. Qed.

Definition agg_laws : @ProcessorLaws agg_state B Out P agg_processor.
Proof.
  refine (@Build_ProcessorLaws _ _ _ _ agg_processor agg_equiv _ agg_wf agg_wf _ _ _ _ _ _ _ _ _ agg_repr
            _ _ _ _ _ _ _ _ _ _ _ _ _ _); rewrite ?snap_agg; cbn -[process finalize snap_parts].
  - split; [by intros ?|by intros ? ?|intros x y z; unfold agg_equiv; congruence].
  - done.
  - done.
  - intros s b s1 out Hw Hp. by apply (process_ok s b s1 out).
  - intros s Hw. by rewrite finalize_grouped.
  - by intros delta_of s [= <-].
  - intros s s' b Hw Hw' Hs. destruct (process_complete s b Hw) as (H1 & _ & _ & H2), (process_complete s' b Hw') as (H1' & _ & _ & H2').
    unfold agg_equiv. rewrite H1, H1', H2, H2', (push_running s s' b Hs). done.
  - intros s s' Hs. by rewrite !finalize_grouped.
  - intros s. rewrite finalize_grouped. cbn. lia.
  - done.
  - unfold agg_equiv, agg_repr. intros c s s' ->. done.
  - done.
  - intros s _ Hne. rewrite snap_agg in *. unfold agg_repr. by destruct (running s).
  - intros s _ Hs. unfold agg_repr. rewrite snap_agg in Hs. by destruct (running s).
  - unfold agg_repr. intros [|t [|d ds]] s _ Hs Hc; [done|rewrite snap_agg, Hc in Hs; done..].
  - unfold agg_equiv. intros s s' _ _ Hs. by rewrite !snap_agg, Hs.
  - intros s b s1 out Hw Hp. rewrite !snap_agg. destruct (process_ok s b s1 out Hw Hp) as (-> & _).
    pose proof (push_running_some s b). destruct (running s), (push s b).(running); try done. intros _ _. by apply H.
  - intros s Hw Hne. by rewrite finalize_grouped.
  - unfold agg_repr, agg_equiv. intros s _ ->. done.
  - unfold agg_repr, agg_equiv. intros t s s0 _ Hb ->. done.
  - unfold agg_repr, agg_equiv. intros t d ds s s0 _ Hb ->. done.
  - by intros delta_of s [= <-].
  - intros delta_of s b s1 out d [= <-] Hw Hp. destruct (process_ok s b s1 out Hw Hp) as (Hr & Hd & _).
    unfold take_delta. cbn [snd]. rewrite snap_agg, Hd, Hr, push_absorb. intros ->. by destruct (running s).
  - intros delta_of c s b s1 out d [= <-] Hw Hp Hc. destruct (process_ok s b s1 out Hw Hp) as (Hr & Hd & _).
    unfold take_delta. cbn [fst snd running]. rewrite Hd. intros Hpart. rewrite push_absorb, Hpart in Hr. split.
    + by eapply agg_repr_app.
    + intros ->. unfold agg_repr in Hc. rewrite Hr, Hc. cbn. apply Z.leb_gt.
      pose proof (partial_bytes b d Hpart). lia.
Defined.

(** *** The running state is the fold of the source, each batch once *)

(** Successive reads from position [c], with the batches read in order. *)
Inductive reads {Log J} `{!ReplayableSource Log J B} (log : Log) (c : J) : list B -> J -> Prop :=
  | reads_nil : reads log c [] c
  | reads_snoc bs c1 b c2 : reads log c bs c1 -> src_read log c1 = Some (b, c2) ->
      reads log c (bs ++ [b]) c2.

Definition fold_partials (bs : list B) : option P :=
  foldl (fun r b => match partial_of b with None => r | Some p => absorb r p end) None bs.

Definition data_of (h : list (epoch B Out)) : list B :=
  omap (fun ep => match ep with Data b _ => Some b | _ => None end) h.

Lemma push_fold s b bs :
  s.(running) = fold_partials bs -> (push s b).(running) = fold_partials (bs ++ [b]).
Proof.
  intros Hs. unfold fold_partials. rewrite foldl_snoc. fold (fold_partials bs). rewrite <- Hs.
  unfold push. by destruct (partial_of b).
Qed.

Lemma ideal_fold {Log J} `{!ReplayableSource Log J B} (log : Log) h (c : J) s :
  ideal (Processor0 := agg_processor) log h c s ->
  reads log src_start (data_of h) c /\ s.(running) = fold_partials (data_of h).
Proof.
  induction 1 as [|h c s b c' s1 out Hi [Hr Hs] Hread Hp|h c s Hi [Hr Hs]|h c s Hi [Hr Hs]];
    unfold data_of in *; rewrite ?omap_app; cbn [omap list_omap]; rewrite ?app_nil_r.
  - split; [constructor|done].
  - split; [by econstructor|]. pose proof (ideal_wf (ProcessorLaws0 := agg_laws) _ _ _ _ Hi) as Hw.
    destruct (process_ok s b s1 out Hw Hp) as (-> & _). by apply push_fold.
  - done.
  - split; [done|]. change (running (finalize s).1 = fold_partials (data_of h)).
    by rewrite finalize_grouped.
Qed.

(** C2: the state of a checkpointed grouped aggregate in [complete] mode, over an engine whose
    [combine] is associative, is exact under failures: after any interleaving of micro-batches,
    batches over the state budget (which raise), crashes followed by a fresh process, in-process
    restarts that find a snapshot to restore, and source growth, the running aggregate in memory
    is the fold of the partials of a sequence of batches read successively from the start of the
    source to the current position: each once, none skipped.  As in [exactly_once], a flush is
    taken at a batch boundary with nothing logged under its id, and no drain or flush follows a
    forced snapshot that left a delta unread ([Runs.stale_delta_breaks]). *)
Theorem aggregate_state_exact {OL CL Log J} `{!OffsetLog OL J} `{!CommitLog CL}
    `{!ReplayableSource Log J B} (finalize_doc : J) part_path interval
    (log0 log : Log) (d : durable OL CL P Out) (e : engine J agg_state) :
  rtc (step (ProcessorLaws0 := agg_laws) finalize_doc part_path interval)
    (log0, empty_durable, fresh_engine (Processor0 := agg_processor)) (log, d, e) ->
  exists bs, reads log src_start bs e.(cursor) /\ e.(pstate).(running) = fold_partials bs.
Proof.
  intros Hr. apply (reachable_Inv (ProcessorLaws0 := agg_laws)) in Hr as (h & f & HI & _).
  destruct (di_reaches _ _ _ _ _ _ HI) as (_ & s & Hi & Heq).
  apply ideal_fold in Hi as [Hrd Hs]. exists (data_of h). split; [done|].
  unfold p_equiv in Heq. cbn in Heq. unfold agg_equiv in Heq. congruence.
Qed.
End Aggregate.

(** ** Concrete runs *)

Module Runs.

(** A replayable source over a growing list of batches; a position is an index. *)
#[export] Program Instance list_source {A} : ReplayableSource (list (list A)) Z (list A) := {|
  src_start := 0;
  src_read l p := if p <? 0 then None
                  else match l !! Z.to_nat p with Some b => Some (b, p + 1) | None => None end;
  src_grows l l' := l `prefix_of` l';
|}.
Next Obligation.
  intros A l l' p r [k ->]. cbn. destruct (p <? 0); [done|].
  destruct (l !! Z.to_nat p) as [b|] eqn:E; [|done]. by rewrite (lookup_app_l_Some _ _ _ _ E).
Qed.

(** [StatelessProcessor]: run the breaker-free plan on each micro-batch. *)
Definition stateless_processor {B Out T} (run_batch : B -> list Out) (num_rows : Out -> Z)
    (dummy : T -> Z) : Processor unit B Out T := {|
  p_init := tt; p_process _ b := (tt, Ok (run_batch b)); p_replaces_output := false;
  p_finalize _ := (tt, []); p_has_state := false; p_snapshot _ := None;
  p_snapshot_parts := None; p_delta := None; p_restore _ s := s; p_restore_chain _ s := s;
  p_num_rows := num_rows; p_bytes := dummy;
|}.

(** A grouped row count: group key to count. *)
Abbreviation counts := (gmap Z Z).

Definition plus_counts (a b : counts) : counts := union_with (fun x y => Some (x + y)) a b.
Definition count_rows (rows : list Z) : option counts :=
  match rows with
  | [] => None
  | _ => Some (foldr (fun k m => plus_counts {[k := 1]} m) ∅ rows)
  end.
Definition combine_counts (l : list counts) : counts := foldr plus_counts ∅ l.
Definition groups (m : counts) : Z := Z.of_nat (size m).

Definition count_processor : Processor _ (list Z) counts counts :=
  agg_processor count_rows combine_counts id groups groups id Some (fun _ _ => []) None true false groups 1000.

(** The same count with no group key: one row, keyed 0 here. *)
Definition total_rows (rows : list Z) : option counts :=
  match rows with [] => None | _ => Some {[0 := Z.of_nat (length rows)]} end.

Definition total_processor : Processor _ (list Z) counts counts :=
  agg_processor total_rows combine_counts id groups groups id Some (fun _ _ => [])
    (Some {[0 := 0]}) false false groups 1000.

Lemma plus_counts_assoc a b c : plus_counts a (plus_counts b c) = plus_counts (plus_counts a b) c.
Proof.
  apply map_eq. intros i. unfold plus_counts. rewrite !lookup_union_with.
  destruct (a !! i), (b !! i), (c !! i); cbn; f_equal; lia.
Qed.

Lemma plus_counts_empty a : plus_counts a ∅ = a.
Proof.
  apply map_eq. intros i. unfold plus_counts. rewrite lookup_union_with, lookup_empty.
  by destruct (a !! i).
Qed.

Lemma combine_counts_snoc c p :
  c <> [] -> combine_counts (c ++ [p]) = combine_counts [combine_counts c; p].
Proof.
  intros _. unfold combine_counts. rewrite foldr_app. cbn. rewrite plus_counts_empty.
  induction c as [|a c IH]; cbn; [|by rewrite IH, plus_counts_assoc].
  apply map_eq. intros i. unfold plus_counts. rewrite lookup_union_with, lookup_empty.
  by destruct (p !! i).
Qed.

Lemma count_rows_bytes rows p : count_rows rows = Some p -> 0 < groups p.
Proof.
  destruct rows as [|k rows]; [done|]. unfold count_rows. intros [= <-]. unfold groups.
  cbn [foldr]. set (m := foldr _ _ rows).
  assert (plus_counts {[k := 1]} m <> ∅) as Hm.
  - intros He. apply (f_equal (lookup k)) in He. unfold plus_counts in He.
    rewrite lookup_union_with, lookup_singleton_eq, lookup_empty in He. by destruct (m !! k).
  - apply map_size_non_empty_iff in Hm. lia.
Qed.

Definition count_laws : @ProcessorLaws _ _ _ _ count_processor :=
  agg_laws count_rows combine_counts id groups groups id Some (fun _ _ => []) None true false
    groups 1000 eq_refl eq_refl combine_counts_snoc count_rows_bytes.

Definition path (b : Z) : string := "part-batch".
Definition flush_doc : Z := -7.

Section Drive.
Context {St A Out T : Type} (proc : Processor St (list A) Out T) (interval : Z).
Local Existing Instances proc SqliteLogs.offset_log SqliteLogs.commit_log.
Context {laws : ProcessorLaws St (list A) Out T}.

Abbreviation disk := (durable (gmap (Z * Z) Z) (gmap Z (option string)) T Out).
Definition disk0 : disk := empty_durable.

(** [n] turns of [_process_next]. *)
Fixpoint drive (n : nat) (log : list (list A)) (d : disk) (e : engine Z St) : disk * engine Z St :=
  match n with
  | O => (d, e)
  | S n' => let '(_, xs, e') := process_next flush_doc path interval d log e in
            drive n' log (apply_all d xs) e'
  end.

(** The next [n] turns all find a batch to read and no flush pending, and none raises. *)
Fixpoint steady (n : nat) (log : list (list A)) (d : disk) (e : engine Z St) : bool :=
  match n with
  | O => true
  | S n' => negb (pending e) &&
            (match src_read log (cursor e) with Some _ => true | None => false end) &&
            let '(r, xs, e') := process_next flush_doc path interval d log e in
            is_ok r && steady n' log (apply_all d xs) e'
  end.

Lemma drive_steps n log d e :
  steady n log d e = true ->
  rtc (step flush_doc path interval) (log, d, e)
    (log, (drive n log d e).1, (drive n log d e).2).
Proof.
  revert d e. induction n as [|n IH]; intros d e; [constructor|]. cbn [steady drive].
  destruct (process_next flush_doc path interval d log e) as [[[more|err] xs] e'] eqn:Hp;
    cbn [is_ok andb]; [|by rewrite andb_false_r].
  intros [[H1 H2]%andb_prop H3]%andb_prop. eapply rtc_l; [|by apply IH].
  apply step_perform. eapply perform_next; [by apply negb_true_iff| |exact Hp].
  intros Hr. by rewrite Hr in H2.
Qed.

Definition boot : engine Z St :=
  fresh_engine (Log := list (list A)) (ReplayableSource0 := list_source) (Processor0 := proc).
(** A fresh process, or [_recover] inside a running one. *)
Definition recover_from (d : disk) (e : engine Z St) : engine Z St := recover_engine d e.
Definition restart (d : disk) : engine Z St := recover_from d boot.
(** The durable state a crash leaves after the first [k] effects of a micro-batch. *)
Definition effects (log : list (list A)) (d : disk) (e : engine Z St) : list (eff Z T Out) :=
  (process_next flush_doc path interval d log e).1.2.
Definition outcome (log : list (list A)) (d : disk) (e : engine Z St) : res bool :=
  (process_next flush_doc path interval d log e).1.1.
Definition crash_after (k : nat) (log : list (list A)) (d : disk) (e : engine Z St) : disk :=
  apply_all d (take k (effects log d e)).
Definition flush (d : disk) (e : engine Z St) : disk :=
  apply_all d (emit_finalize flush_doc interval d e false).1.
End Drive.


(** *** A crash between publish and commit, replayed *)

Definition log2 : list (list Z) := [[1; 2; 1]; [2]].

(** The write-ahead record and the sink write of batch 0, and nothing after. *)
Definition torn_disk := crash_after count_processor 10 2 log2 disk0 (boot count_processor).
Definition replayed := drive count_processor 10 2 log2 torn_disk (restart count_processor torn_disk).

Lemma torn_execution :
  rtc (step (OffsetLog0 := SqliteLogs.offset_log) (CommitLog0 := SqliteLogs.commit_log)
         (ReplayableSource0 := list_source) (ProcessorLaws0 := count_laws) flush_doc path 10)
    (log2, disk0, boot count_processor) (log2, replayed.1, replayed.2).
Proof.
  eapply rtc_l; [|unfold replayed; apply (drive_steps count_processor 10 (laws := count_laws)); vm_compute; reflexivity].
  unfold torn_disk, restart, crash_after, effects.
  destruct (process_next _ _ _ disk0 log2 (boot count_processor)) as [[[more|err] xs] e'] eqn:Hp;
    [|apply (f_equal (fun r => is_ok r.1.1)) in Hp; vm_compute in Hp; discriminate].
  eapply step_crash; [|symmetry; apply (take_drop 2)].
  eapply perform_next; [reflexivity| |exact Hp]. intros H. vm_compute in H. discriminate.
Qed.


Lemma aggregate_state_exact_witness :
  exists bs, reads log2 0 bs (cursor replayed.2) /\
    running (pstate replayed.2) = fold_partials count_rows combine_counts bs /\
    running (pstate replayed.2) = Some (<[1 := 2]> {[2 := 2]}).
Proof.
  destruct (aggregate_state_exact count_rows combine_counts id groups groups id Some
    (fun _ _ => []) None true false groups 1000 eq_refl eq_refl combine_counts_snoc count_rows_bytes
    flush_doc path 10 log2 log2 replayed.1 replayed.2 torn_execution) as (bs & Hr & Hs).
  exists bs. split_and!; [exact Hr|exact Hs|vm_compute; reflexivity].
Defined.

(** *** Where the engine's contract ends *)

(** Every [checkpoint_delta_interval] deltas the engine writes a whole snapshot without
    reading the pending delta; a drain marker committed next finds it and records it
    again.  Group 1 is counted 4 times; a restart restores 5. *)
Theorem stale_delta_breaks :
  let log := [[1; 2; 3; 4]; [1]; [1]; [1]] in
  let '(d, e) := drive count_processor 2 5 log disk0 (boot count_processor) in
  option_map (lookup 1) (running (pstate e)) = Some (Some 4) /\
  option_map (lookup 1) (running (pstate (restart count_processor d))) = Some (Some 5).
Proof. vm_compute. split; reflexivity. Qed.

(** A run that crashed after publishing batch 0 and before committing it, restarted and
    stopped before it replayed: the flush commits id 0 at the old position, and the
    next run publishes the same source batch again under id 1. *)
Theorem stop_before_replay_breaks :
  let log := [[7; 7]] in
  let d0 := crash_after total_processor 10 2 log disk0 (boot total_processor) in
  let d1 := flush total_processor 10 d0 (restart total_processor d0) in
  let '(d2, e2) := drive total_processor 10 1 log d1 (restart total_processor d1) in
  sink d2 !! 0 = Some [{[0 := 2]}] /\ sink d2 !! 1 = Some [{[0 := 2]}] /\ cursor e2 = 1.
Proof. vm_compute. split_and!; reflexivity. Qed.

(** A transient fault inside the first micro-batch, before anything was committed: the
    in-process restart rewinds neither the source nor the state, so the first source
    batch never reaches the sink. *)
Theorem first_batch_fault_loses_batch :
  let proc := stateless_processor (fun b : list Z => [foldr (fun k m => <[k := 1]> m) (∅ : counts) b])
                groups groups in
  let log := [[1]; [2]] in
  let d0 := crash_after proc 10 1 log disk0 (boot proc) in
  let faulted := Engine 0 0 false 0 1 tt None in
  let e0 := recover_from proc d0 faulted in
  let '(d1, e1) := drive proc 10 2 log d0 e0 in
  sink d1 = {[0 := [{[2 := 1]}]]} /\ cursor e1 = 2.
Proof. vm_compute. split; reflexivity. Qed.

(** A keyless aggregate restored from a checkpoint has forgotten that it ever emitted:
    a restart that reads nothing new ends by writing the identity row of an empty
    stream over a total of 2. *)
Theorem restored_total_flushes_identity :
  let log := [[7; 7]] in
  let '(d1, _) := drive total_processor 10 2 log disk0 (boot total_processor) in
  let '(d2, e2) := drive total_processor 10 1 log d1 (restart total_processor d1) in
  let d3 := flush total_processor 10 d2 e2 in
  running (pstate e2) = Some {[0 := 2]} /\ sink d3 !! 3 = Some [{[0 := 0]}].
Proof. vm_compute. split; reflexivity. Qed.

(** A batch over the state budget raises after its write-ahead record: nothing is published or
    committed, and a fresh process raises on it again. *)
Definition tight_processor : Processor _ (list Z) counts counts :=
  agg_processor count_rows combine_counts id groups groups id Some (fun _ _ => []) None true false groups 1.
Theorem over_budget_raises_again :
  let log := [[1; 2]] in
  let d := crash_after tight_processor 10 5 log disk0 (boot tight_processor) in
  outcome tight_processor 10 log disk0 (boot tight_processor) = Raise "ResourceError" /\
  effects tight_processor 10 log disk0 (boot tight_processor) = [EOffset 0 0 1] /\ sink d = ∅ /\
  outcome tight_processor 10 log d (restart tight_processor d) = Raise "ResourceError".
Proof. vm_compute. split_and!; reflexivity. Qed.

(** A drain marker writes nothing to the sink, and its commit row carries the token of
    the batch before it. *)
Theorem drain_commits_previous_token :
  let '(d, _) := drive count_processor 10 2 [[1]] disk0 (boot count_processor) in
  sink d !! 1 = None /\ SqliteLogs.sink_token (commits d) 1 = Some (path 0).
Proof. vm_compute. split; reflexivity. Qed.

End Runs.
