(* ===== verification/ExprIR.v ===== *)
(** * Expression IR: data, typing and evaluation

    The expression nodes of python/batcher/plan/expr_ir (core.py, nodes.py), their
    static type (the engine's coercion lattice), a per-row evaluator, and the
    bottom-up rewriting of python/batcher/plan/expr_rewrite/traverse.py.  The
    evaluator follows the engine the IR is lowered to: SQL three-valued logic, 64-bit
    wrapping integer arithmetic, IEEE doubles with the engine's total order (all NaN
    equal and greatest, [-0] equal to [0]), COALESCE and CASE selecting per row,
    GREATEST and LEAST skipping nulls.  Every other node is a function call [EFunc]
    interpreted by the parameter [ext]. *)

From S2P Require Import Prelude.
From Stdlib Require Import Floats.SpecFloat.

(** ** Values and kinds *)

Inductive value :=
  | VInt (z : Z)
  | VFloat (f : spec_float)
  | VBool (b : bool)
  | VStr (s : string)
  | VOther (k : string) (payload : Z).

Inductive kind := KInt | KFloat | KBool | KStr | KOther (k : string).

#[global] Instance spec_float_eq_dec : EqDecision spec_float.
Proof. solve_decision. Defined.
#[global] Instance value_eq_dec : EqDecision value.
Proof. solve_decision. Defined.
#[global] Instance kind_eq_dec : EqDecision kind.
Proof. solve_decision. Defined.

Definition kind_of_value (v : value) : kind :=
  match v with
  | VInt _ => KInt | VFloat _ => KFloat | VBool _ => KBool | VStr _ => KStr
  | VOther k _ => KOther k
  end.

(** The common type two operands are coerced to before they meet. *)
Definition supertype (a b : kind) : option kind :=
  if decide (a = b) then Some a
  else match a, b with
       | KInt, KFloat | KFloat, KInt | KBool, KFloat | KFloat, KBool => Some KFloat
       | KBool, KInt | KInt, KBool => Some KInt
       | _, _ => None
       end.

Definition float_of_Z (z : Z) : spec_float := binary_normalize 53 1024 z 0 false.

(** The cast to a supertype. *)
Definition cast (k : kind) (v : value) : value :=
  match k, v with
  | KInt, VBool b => VInt (if b then 1 else 0)
  | KFloat, VInt z => VFloat (float_of_Z z)
  | KFloat, VBool b => VFloat (float_of_Z (if b then 1 else 0))
  | _, _ => v
  end.

(** ** Order *)

(** A lexicographic key that orders doubles the way the engine compares them. *)
Definition float_key (f : spec_float) : Z * Z * Z :=
  match f with
  | S754_infinity true => (0, 0, 0)
  | S754_finite true m e => (1, - e, Z.neg m)
  | S754_zero _ => (2, 0, 0)
  | S754_finite false m e => (3, e, Z.pos m)
  | S754_infinity false => (4, 0, 0)
  | S754_nan => (5, 0, 0)
  end.

Definition key_compare (a b : Z * Z * Z) : comparison :=
  let '(a1, a2, a3) := a in
  let '(b1, b2, b3) := b in
  match a1 ?= b1 with
  | Eq => match a2 ?= b2 with Eq => a3 ?= b3 | c => c end
  | c => c
  end.

(** [float_total_cmp]: NaN equals NaN and exceeds everything, otherwise IEEE. *)
Definition float_compare (x y : spec_float) : comparison :=
  match x, y with
  | S754_nan, S754_nan => Eq
  | S754_nan, _ => Gt
  | _, S754_nan => Lt
  | _, _ => match SFcompare x y with Some c => c | None => Eq end
  end.

Definition bool_Z (b : bool) : Z := if b then 1 else 0.

Definition ascii_Z (c : Ascii.ascii) : Z := Z.of_N (Ascii.N_of_ascii c).

Fixpoint string_compare (s t : string) : comparison :=
  match s, t with
  | EmptyString, EmptyString => Eq
  | EmptyString, String _ _ => Lt
  | String _ _, EmptyString => Gt
  | String a s', String b t' =>
      match ascii_Z a ?= ascii_Z b with Eq => string_compare s' t' | c => c end
  end.

(** Order of two values of one kind; [None] on kinds with no order. *)
Definition same_kind_compare (a b : value) : option comparison :=
  match a, b with
  | VInt x, VInt y => Some (x ?= y)
  | VFloat x, VFloat y => Some (float_compare x y)
  | VBool x, VBool y => Some (bool_Z x ?= bool_Z y)
  | VStr x, VStr y => Some (string_compare x y)
  | _, _ => None
  end.

(** The engine's comparison: coerce to the supertype, then compare. *)
Definition vcompare (a b : value) : option comparison :=
  match supertype (kind_of_value a) (kind_of_value b) with
  | Some k => same_kind_compare (cast k a) (cast k b)
  | None => None
  end.

(** *** The order is total *)

Lemma float_compare_key x y : float_compare x y = key_compare (float_key x) (float_key y).
Proof.
  destruct x as [sx|[]| |[] mx ex], y as [sy|[]| |[] my ey]; cbn; try done.
  - rewrite Z.compare_opp, (Z.compare_antisym ex ey). by destruct (ex ?= ey).
Qed.

Lemma key_compare_refl a : key_compare a a = Eq.
Proof. destruct a as [[a1 a2] a3]. cbn. by rewrite !Z.compare_refl. Qed.

Lemma key_compare_antisym a b : key_compare b a = CompOpp (key_compare a b).
Proof.
  destruct a as [[a1 a2] a3], b as [[b1 b2] b3]. cbn.
  rewrite (Z.compare_antisym a1 b1), (Z.compare_antisym a2 b2), (Z.compare_antisym a3 b3).
  destruct (a1 ?= b1); cbn; try done. by destruct (a2 ?= b2).
Qed.

Lemma key_compare_eq a b : key_compare a b = Eq -> a = b.
Proof.
  destruct a as [[a1 a2] a3], b as [[b1 b2] b3]. cbn.
  destruct (Z.compare_spec a1 b1), (Z.compare_spec a2 b2); try done.
  intros ?%Z.compare_eq_iff. congruence.
Qed.

Lemma key_compare_lt_trans a b c :
  key_compare a b = Lt -> key_compare b c = Lt -> key_compare a c = Lt.
Proof.
  destruct a as [[a1 a2] a3], b as [[b1 b2] b3], c as [[c1 c2] c3]. cbn.
  destruct (Z.compare_spec a1 b1), (Z.compare_spec b1 c1), (Z.compare_spec a1 c1);
    subst; try lia; try done;
    destruct (Z.compare_spec a2 b2), (Z.compare_spec b2 c2), (Z.compare_spec a2 c2);
    subst; try lia; try done; rewrite !Z.compare_lt_iff; lia.
Qed.

(** A comparison that behaves as a total preorder on a set of values. *)
Record total_order {A} (cmp : A -> A -> comparison) : Prop := {
  ord_refl : forall a, cmp a a = Eq;
  ord_antisym : forall a b, cmp b a = CompOpp (cmp a b);
  ord_trans : forall a b c, cmp a b = Lt -> cmp b c = Lt -> cmp a c = Lt;
  ord_eq : forall a b c, cmp a b = Eq -> cmp a c = cmp b c;
}.

Lemma total_order_pull {A C} (f : A -> C) (cmp : C -> C -> comparison) :
  total_order cmp -> total_order (fun a b => cmp (f a) (f b)).
Proof. intros [H1 H2 H3 H4]. split; eauto. Qed.

Lemma Z_total : total_order Z.compare.
Proof.
  split.
  - apply Z.compare_refl.
  - intros a b. apply Z.compare_antisym.
  - intros a b c. rewrite !Z.compare_lt_iff. lia.
  - intros a b c ->%Z.compare_eq_iff. done.
Qed.

Lemma key_total : total_order key_compare.
Proof.
  split.
  - apply key_compare_refl.
  - intros a b. apply key_compare_antisym.
  - apply key_compare_lt_trans.
  - by intros a b c ->%key_compare_eq.
Qed.

Lemma total_order_ext {A} (cmp cmp' : A -> A -> comparison) :
  (forall a b, cmp a b = cmp' a b) -> total_order cmp' -> total_order cmp.
Proof.
  intros He [H1 H2 H3 H4]. split; intros; rewrite ?He in *; eauto.
Qed.

Lemma float_total : total_order float_compare.
Proof.
  eapply total_order_ext; [apply float_compare_key|]. apply total_order_pull, key_total.
Qed.

Lemma ascii_Z_inj a b : ascii_Z a = ascii_Z b -> a = b.
Proof.
  unfold ascii_Z. intros H%N2Z.inj. rewrite <- (Ascii.ascii_N_embedding a), H.
  apply Ascii.ascii_N_embedding.
Qed.

Lemma string_compare_eq s t : string_compare s t = Eq <-> s = t.
Proof.
  revert t. induction s as [|a s IH]; intros [|b t]; cbn; try done.
  destruct (Z.compare_spec (ascii_Z a) (ascii_Z b)) as [He|Hl|Hg].
  - apply ascii_Z_inj in He as ->. rewrite IH. split; congruence.
  - split; [done|]. intros [= -> ->]. lia.
  - split; [done|]. intros [= -> ->]. lia.
Qed.

Lemma string_total : total_order string_compare.
Proof.
  split.
  - intros a. by apply string_compare_eq.
  - intros s. induction s as [|a s IH]; intros [|b t]; cbn; try done.
    rewrite (Z.compare_antisym (ascii_Z a) (ascii_Z b)).
    destruct (Z.compare_spec (ascii_Z a) (ascii_Z b)); cbn; try done.
  - intros s. induction s as [|a s IH]; intros [|b t] [|c u]; cbn; try done.
    destruct (Z.compare_spec (ascii_Z a) (ascii_Z b)), (Z.compare_spec (ascii_Z b) (ascii_Z c)),
      (Z.compare_spec (ascii_Z a) (ascii_Z c)); try done; try lia. apply IH.
  - by intros a b c ->%string_compare_eq.
Qed.

(** One total order on all values that agrees with [same_kind_compare] where the
    engine compares. *)
Definition vrank (v : value) : Z :=
  match v with VInt _ => 0 | VFloat _ => 1 | VBool _ => 2 | VStr _ => 3 | VOther _ _ => 4 end.

Definition vorder (a b : value) : comparison :=
  match a, b with
  | VInt x, VInt y => x ?= y
  | VFloat x, VFloat y => float_compare x y
  | VBool x, VBool y => bool_Z x ?= bool_Z y
  | VStr x, VStr y => string_compare x y
  | _, _ => vrank a ?= vrank b
  end.

Lemma vorder_total : total_order vorder.
Proof.
  pose proof Z_total as [Z1 Z2 Z3 Z4]. pose proof float_total as [F1 F2 F3 F4].
  pose proof string_total as [S1 S2 S3 S4]. split.
  - intros []; cbn; auto.
  - intros [] []; cbn; auto.
  - intros [] [] []; cbn; eauto; try done.
  - intros [] [] []; cbn; eauto; try done.
Qed.

Lemma same_kind_vorder a b c : same_kind_compare a b = Some c -> vorder a b = c.
Proof. destruct a, b; cbn; congruence. Qed.

(** ** Expressions *)

Inductive binop := Add | Sub | Mul | And | Or | CEq | CNe | CLt | CLe | CGt | CGe | OtherOp (s : string).

#[global] Instance binop_eq_dec : EqDecision binop.
Proof. solve_decision. Defined.

(** Node types that are neither operators nor conditionals: the ones the rewrite rules
    know by name, and all the others. *)
Inductive fname :=
  | FArray | FStruct (fields : list string) | FHashRows (algorithm : option string)
  | FIsNan | FIsInf | FOther (s : string).

#[global] Instance fname_eq_dec : EqDecision fname.
Proof. solve_decision. Defined.

#[local] Unset Elimination Schemes.
Inductive expr :=
  | Col (name : string)
  | Lit (v : value)
  | Binary (op : binop) (left right : expr)
  | Not (input : expr)
  | IsNull (input : expr)
  | IsNotNull (input : expr)
  | InList (input : expr) (values : list value)
  | Coalesce (inputs : list expr)
  | Greatest (inputs : list expr)
  | Least (inputs : list expr)
  | NullIf (left right : expr)
  | Case (branches : list (expr * expr)) (otherwise : expr)
  | EFunc (fn : fname) (inputs : list expr).
#[local] Set Elimination Schemes.

(** Structural induction through the lists of sub-expressions. *)
Section Induction.
Variable P : expr -> Prop.
Hypothesis PCol : forall c, P (Col c).
Hypothesis PLit : forall v, P (Lit v).
Hypothesis PBinary : forall op a b, P a -> P b -> P (Binary op a b).
Hypothesis PNot : forall a, P a -> P (Not a).
Hypothesis PIsNull : forall a, P a -> P (IsNull a).
Hypothesis PIsNotNull : forall a, P a -> P (IsNotNull a).
Hypothesis PInList : forall a vs, P a -> P (InList a vs).
Hypothesis PCoalesce : forall l, Forall P l -> P (Coalesce l).
Hypothesis PGreatest : forall l, Forall P l -> P (Greatest l).
Hypothesis PLeast : forall l, Forall P l -> P (Least l).
Hypothesis PNullIf : forall a b, P a -> P b -> P (NullIf a b).
Hypothesis PCase : forall bs o,
  Forall (fun b => P b.1 /\ P b.2) bs -> P o -> P (Case bs o).
Hypothesis PEFunc : forall fn l, Forall P l -> P (EFunc fn l).

Fixpoint expr_ind' (e : expr) : P e :=
  let all := fix all l : Forall P l :=
    match l with [] => Forall_nil_2 _ | x :: l' => Forall_cons_2 _ _ _ (expr_ind' x) (all l') end in
  match e with
  | Col c => PCol c
  | Lit v => PLit v
  | Binary op a b => PBinary op a b (expr_ind' a) (expr_ind' b)
  | Not a => PNot a (expr_ind' a)
  | IsNull a => PIsNull a (expr_ind' a)
  | IsNotNull a => PIsNotNull a (expr_ind' a)
  | InList a vs => PInList a vs (expr_ind' a)
  | Coalesce l => PCoalesce l (all l)
  | Greatest l => PGreatest l (all l)
  | Least l => PLeast l (all l)
  | NullIf a b => PNullIf a b (expr_ind' a) (expr_ind' b)
  | Case bs o => PCase bs o
      ((fix allb l : Forall (fun b => P b.1 /\ P b.2) l :=
          match l with
          | [] => Forall_nil_2 _
          | b :: l' => Forall_cons_2 _ _ _ (conj (expr_ind' b.1) (expr_ind' b.2)) (allb l')
          end) bs) (expr_ind' o)
  | EFunc fn l => PEFunc fn l (all l)
  end.
End Induction.

(** [expr_key(a) == expr_key(b)]: equality of the canonical serialized IR. *)
Fixpoint expr_eqb (a b : expr) : bool :=
  let list_eqb := fix list_eqb (l l' : list expr) : bool :=
    match l, l' with
    | [], [] => true
    | x :: l, y :: l' => expr_eqb x y && list_eqb l l'
    | _, _ => false
    end in
  match a, b with
  | Col c, Col c' => bool_decide (c = c')
  | Lit v, Lit v' => bool_decide (v = v')
  | Binary op x y, Binary op' x' y' => bool_decide (op = op') && expr_eqb x x' && expr_eqb y y'
  | Not x, Not x' | IsNull x, IsNull x' | IsNotNull x, IsNotNull x' => expr_eqb x x'
  | InList x vs, InList x' vs' => expr_eqb x x' && bool_decide (vs = vs')
  | Coalesce l, Coalesce l' | Greatest l, Greatest l' | Least l, Least l' => list_eqb l l'
  | NullIf x y, NullIf x' y' => expr_eqb x x' && expr_eqb y y'
  | Case bs o, Case bs' o' =>
      (fix go (l l' : list (expr * expr)) : bool :=
         match l, l' with
         | [], [] => true
         | (c, v) :: l, (c', v') :: l' => expr_eqb c c' && expr_eqb v v' && go l l'
         | _, _ => false
         end) bs bs' && expr_eqb o o'
  | EFunc fn l, EFunc fn' l' => bool_decide (fn = fn') && list_eqb l l'
  | _, _ => false
  end.

Lemma expr_eqb_true a b : expr_eqb a b = true -> a = b.
Proof.
  assert (forall l, Forall (fun a => forall b, expr_eqb a b = true -> a = b) l -> forall l',
    (fix list_eqb (l l' : list expr) : bool :=
       match l, l' with
       | [], [] => true
       | x :: l, y :: l' => expr_eqb x y && list_eqb l l'
       | _, _ => false
       end) l l' = true -> l = l') as Hlist.
  { induction 1 as [|x l Hx _ IH]; intros [|y l'] H; try done.
    apply andb_prop in H as [H1 H2]. f_equal; auto. }
  revert b. induction a using expr_ind'; intros []; cbn; try done; intros Hb;
    repeat match goal with H : _ && _ = true |- _ => apply andb_prop in H as [? ?] end;
    repeat match goal with H : bool_decide _ = true |- _ => apply bool_decide_eq_true in H end;
    subst; f_equal; auto.
  match goal with H : ?F bs branches = true |- _ =>
    revert H end.
  clear Hlist. revert branches. induction H as [|[c v] bs [Hc Hv] _ IH]; intros [|[c' v'] bs']; try done.
  intros Hg. apply andb_prop in Hg as [[? ?]%andb_prop ?]. cbn in *. f_equal; [f_equal; auto|]. by apply IH.
Qed.

Lemma expr_eqb_refl a : expr_eqb a a = true.
Proof.
  assert (forall l, Forall (fun a => expr_eqb a a = true) l ->
    (fix list_eqb (l l' : list expr) : bool :=
       match l, l' with
       | [], [] => true
       | x :: l, y :: l' => expr_eqb x y && list_eqb l l'
       | _, _ => false
       end) l l = true) as Hlist.
  { induction 1 as [|x l Hx _ IH]; [done|]. by rewrite Hx, IH. }
  induction a using expr_ind'; cbn;
    repeat (rewrite bool_decide_true by done); rewrite ?IHa, ?IHa1, ?IHa2, ?andb_true_l; auto.
  rewrite andb_true_r. induction H as [|[c v] bs [Hc Hv] _ IH]; [done|]. cbn in *. by rewrite Hc, Hv, IH.
Qed.

(** ** Static types *)

Definition ordered (k : kind) : bool := match k with KOther _ => false | _ => true end.
Definition numeric (k : kind) : bool := match k with KInt | KFloat => true | _ => false end.

Definition sup_list (ks : list kind) : option kind :=
  match ks with
  | [] => None
  | k :: ks => foldl (fun acc k => a ← acc; supertype a k) (Some k) ks
  end.

Definition guard_kind (b : bool) (k : kind) : option kind := if b then Some k else None.

Definition comparable (a b : kind) : bool :=
  match supertype a b with Some k => ordered k | None => false end.

Section Typing.
(** Result types of the functions and operators outside the modelled core. *)
Variable fsig : fname -> list kind -> option kind.
Variable opsig : string -> kind -> kind -> option kind.
Variable sch : gmap string kind.

Definition binary_kind (op : binop) (a b : kind) : option kind :=
  match op with
  | And | Or => guard_kind (bool_decide (a = KBool) && bool_decide (b = KBool)) KBool
  | CEq | CNe | CLt | CLe | CGt | CGe => guard_kind (comparable a b) KBool
  | Add | Sub | Mul => k ← supertype a b; guard_kind (numeric k) k
  | OtherOp s => opsig s a b
  end.

(** [infer_type]. *)
Fixpoint kind_of (e : expr) : option kind :=
  match e with
  | Col c => sch !! c
  | Lit v => Some (kind_of_value v)
  | Binary op a b => ka ← kind_of a; kb ← kind_of b; binary_kind op ka kb
  | Not a => k ← kind_of a; guard_kind (bool_decide (k = KBool)) KBool
  | IsNull a | IsNotNull a => _ ← kind_of a; Some KBool
  | InList a vs => k ← kind_of a;
      guard_kind (forallb (fun v => comparable k (kind_of_value v)) vs) KBool
  | Coalesce l => ks ← opt_mapM kind_of l; sup_list ks
  | Greatest l | Least l =>
      ks ← opt_mapM kind_of l; k ← sup_list ks; guard_kind (ordered k) k
  | NullIf a b => ka ← kind_of a; kb ← kind_of b; guard_kind (comparable ka kb) ka
  | Case bs o =>
      cs ← opt_mapM (fun b => kind_of b.1) bs;
      ks ← opt_mapM (fun b => kind_of b.2) bs;
      ko ← kind_of o;
      if forallb (fun k => bool_decide (k = KBool)) cs then sup_list (ks ++ [ko]) else None
  | EFunc fn l => ks ← opt_mapM kind_of l; fsig fn ks
  end.
End Typing.

(** ** Evaluation of one row *)

Definition as_bool (x : option value) : res (option bool) :=
  match x with
  | None => Ok None
  | Some (VBool b) => Ok (Some b)
  | Some _ => Raise "type"
  end.

(** Kleene connectives. *)
Definition kleene_and (a b : option bool) : option bool :=
  match a, b with
  | Some false, _ | _, Some false => Some false
  | Some true, Some true => Some true
  | _, _ => None
  end.

Definition kleene_or (a b : option bool) : option bool :=
  match a, b with
  | Some true, _ | _, Some true => Some true
  | Some false, Some false => Some false
  | _, _ => None
  end.

Definition cmp_test (op : binop) (c : comparison) : bool :=
  match op, c with
  | CEq, Eq | CNe, (Lt | Gt) | CLt, Lt | CLe, (Lt | Eq) | CGt, Gt | CGe, (Gt | Eq) => true
  | _, _ => false
  end.

Definition arith (op : binop) (a b : value) : res value :=
  match supertype (kind_of_value a) (kind_of_value b) with
  | None => Raise "type"
  | Some k =>
      match op, cast k a, cast k b with
      | Add, VInt x, VInt y => Ok (VInt (wrap64 (x + y)))
      | Sub, VInt x, VInt y => Ok (VInt (wrap64 (x - y)))
      | Mul, VInt x, VInt y => Ok (VInt (wrap64 (x * y)))
      | Add, VFloat x, VFloat y => Ok (VFloat (SFadd 53 1024 x y))
      | Sub, VFloat x, VFloat y => Ok (VFloat (SFsub 53 1024 x y))
      | Mul, VFloat x, VFloat y => Ok (VFloat (SFmul 53 1024 x y))
      | _, _, _ => Raise "type"
      end
  end.

Definition compare_values (op : binop) (x y : option value) : res (option value) :=
  match x, y with
  | Some a, Some b => match vcompare a b with
                      | Some c => Ok (Some (VBool (cmp_test op c)))
                      | None => Raise "type"
                      end
  | _, _ => Ok None
  end.

Definition bool_value (b : option bool) : option value :=
  match b with Some b => Some (VBool b) | None => None end.

(** Membership: any value that compares equal. *)
Fixpoint member (v : value) (vs : list value) : res bool :=
  match vs with
  | [] => Ok false
  | w :: vs' => match vcompare v w with
                | None => Raise "type"
                | Some c => let* rest := member v vs' in
                            Ok (match c with Eq => true | _ => rest end)
                end
  end.

(** GREATEST (or LEAST) of the non-null arguments; a tie keeps the earlier one. *)
Definition extreme_step (greatest : bool) (acc x : option value) : option value :=
  match acc, x with
  | None, _ => x
  | Some a, None => Some a
  | Some a, Some v => match vorder a v with
                      | Lt => if greatest then Some v else Some a
                      | Gt => if greatest then Some a else Some v
                      | Eq => Some a
                      end
  end.

Definition extreme (greatest : bool) (xs : list (option value)) : option value :=
  foldl (extreme_step greatest) None xs.

Definition is_some_value (x : option value) : bool := match x with Some _ => true | None => false end.

Section Eval.
Variable fsig : fname -> list kind -> option kind.
Variable opsig : string -> kind -> kind -> option kind.
Variable sch : gmap string kind.
(** The engine's other functions and operators. *)
Variable ext : fname -> list (option value) -> res (option value).
Variable ext_op : string -> option value -> option value -> res (option value).
(** A row: the columns that are not null. *)
Variable row : gmap string value.

Definition eval_binary (op : binop) (x y : option value) : res (option value) :=
  match op with
  | And => let* a := as_bool x in let* b := as_bool y in Ok (bool_value (kleene_and a b))
  | Or => let* a := as_bool x in let* b := as_bool y in Ok (bool_value (kleene_or a b))
  | CEq | CNe | CLt | CLe | CGt | CGe => compare_values op x y
  | Add | Sub | Mul =>
      match x, y with
      | Some a, Some b => let* v := arith op a b in Ok (Some v)
      | _, _ => Ok None
      end
  | OtherOp s => ext_op s x y
  end.

(** The cast to the node's static type. *)
Definition to_kind (k : option kind) (x : option value) : res (option value) :=
  match k with None => Raise "type" | Some k => Ok (option_map (cast k) x) end.

Section First.
Variable ev : expr -> res (option value).
(** COALESCE: later arguments only on rows still null. *)
Fixpoint first_some (l : list expr) : res (option value) :=
  match l with
  | [] => Ok None
  | a :: l' => let* x := ev a in match x with Some v => Ok (Some v) | None => first_some l' end
  end.
(** CASE: the first branch whose condition is true; NULL is not taken. *)
Fixpoint first_true (bs : list (expr * expr)) (otherwise : res (option value))
    : res (option value) :=
  match bs with
  | [] => otherwise
  | b :: bs' => let* x := ev b.1 in let* c := as_bool x in
                match c with
                | Some true => ev b.2
                | _ => first_true bs' otherwise
                end
  end.
End First.

Fixpoint eval (e : expr) : res (option value) :=
  match e with
  | Col c => match sch !! c with Some _ => Ok (row !! c) | None => Raise "column" end
  | Lit v => Ok (Some v)
  | Binary op a b => let* x := eval a in let* y := eval b in eval_binary op x y
  | Not a => let* x := eval a in let* b := as_bool x in Ok (bool_value (option_map negb b))
  | IsNull a => let* x := eval a in Ok (Some (VBool (negb (is_some_value x))))
  | IsNotNull a => let* x := eval a in Ok (Some (VBool (is_some_value x)))
  | InList a vs => let* x := eval a in
      match x with None => Ok None | Some v => let* b := member v vs in Ok (Some (VBool b)) end
  | Coalesce l => let* x := first_some eval l in to_kind (kind_of fsig opsig sch e) x
  | Greatest l => let* xs := res_mapM eval l in
      match kind_of fsig opsig sch e with
      | None => Raise "type"
      | Some k => Ok (extreme true (map (option_map (cast k)) xs))
      end
  | Least l => let* xs := res_mapM eval l in
      match kind_of fsig opsig sch e with
      | None => Raise "type"
      | Some k => Ok (extreme false (map (option_map (cast k)) xs))
      end
  | NullIf a b => let* x := eval a in let* y := eval b in
      match x, y with
      | Some v, Some w => match vcompare v w with
                          | Some Eq => Ok None
                          | Some _ => Ok (Some v)
                          | None => Raise "type"
                          end
      | _, _ => Ok x
      end
  | Case bs o => let* x := first_true eval bs (eval o) in to_kind (kind_of fsig opsig sch e) x
  | EFunc fn l => let* xs := res_mapM eval l in ext fn xs
  end.
End Eval.
