(* ===== verification/KeyedState.v ===== *)
(** * Keyed streaming state

    core/streaming/keyed_state.py: [KeyedStateFold], the fold behind [transform_with_state].  A
    user function owns the state of one key; the fold groups a micro-batch by key, calls the
    function once per key present, keeps the returned mappings in the order they were last
    touched, expires them by a time to live, charges them to a byte budget, and writes and
    restores the key space as one batch.

    The user function, the input plan, Arrow's sort and column encoding and [sys.getsizeof] are
    parameters; every reading of the clock is an argument.  The dictionary compares keys as
    values: Python does too, except that it never finds a NaN key again and takes the two zeros
    for one, and the theorems that depend on it are about keys without either.  The reserved
    column names and the snapshots older than typed keys are left out. *)

From Stdlib Require Import Floats.SpecFloat.
From S2P Require Import Prelude PyFloat PyDict ExprIR.

(** ** Values *)

(** A Python value of a key or a state field; [SContainer] is a dict, list, tuple or set. *)
Inductive scalar := SNone | SBool (b : bool) | SInt (z : Z) | SFloat (f : spec_float) | SStr (s : string) | SBytes (s : string) | SDate (days : Z) | SContainer (type_name : string).

#[global] Instance scalar_eq_dec : EqDecision scalar.
Proof. solve_decision. Defined.

Abbreviation fields := (gmap string scalar).
Abbreviation skey := (list scalar).

(** [_VARIABLE_WIDTH]. *)
Definition variable_width (v : scalar) : bool := match v with SStr _ | SBytes _ => true | _ => false end.
Definition container (v : scalar) : bool := match v with SContainer _ => true | _ => false end.

(** One boundary test of [_group_by]: equal as Arrow compares, or both null. *)
Definition same_cell (a b : scalar) : bool :=
  match a, b with
  | SNone, SNone => true
  | SNone, _ | _, SNone => false
  | SFloat x, SFloat y => SFeqb x y
  | a, b => bool_decide (a = b)
  end.

(** A retained entry: the fields, the time of the last touch, and what it was charged. *)
Record entry := Entry { e_fields : fields; e_touched : Z; e_charge : Z }.

(** What the user function returned as state. *)
Inductive returned := Mapping (f : fields) | NotMapping (type_name : string).

(** The fields of [KeyedStateFold] that change. *)
Record fold := Fold { entries : list (skey * entry); dropped : Z; held : Z; had_state : bool; clock : Z }.

(** The key space as one batch: a column per key component and per field, and the stamps.  A
    batch without rows has none of the first two. *)
Record snapshot := Snapshot { s_keys : list (list scalar); s_fields : list (string * list scalar); s_touched : list Z }.

(** [_check_state]. *)
Definition check_state (s : returned) : res fields :=
  match s with
  | NotMapping _ => Raise "PlanError"
  | Mapping f => if existsb (fun e => container e.2) (map_to_list f) then Raise "PlanError" else Ok f
  end.

Definition SLOT_BYTES : Z := 64.

Section KeyedState.
Context {Row Out : Type}.
(** A row's cell, the sort of a table by the group keys, what a column of values reads back as,
    and the size of a value. *)
Context (cell : string -> Row -> scalar) (sort_rows : list Row -> list Row) (array : list scalar -> res (list scalar)) (getsizeof : scalar -> Z).
(** The node: its group keys, its input plan, the user function and the time to live; and the
    byte budget. *)
Context (group_keys : list string) (input : list Row -> list (list Row)).
Context (fn : skey -> list Row -> option fields -> res (list Out * option returned)) (ttl cap : Z).

(** ** Grouping *)

Definition key_of_row (r : Row) : skey := map (fun k => cell k r) group_keys.
(** No key column changed between two neighbours. *)
Definition same_group (r prev : Row) : bool := forallb (fun k => same_cell (cell k r) (cell k prev)) group_keys.

(** The sorted table cut at the boundaries: row 0 opens the first group. *)
Fixpoint cut (first prev : Row) (group : list Row) (rows : list Row) : list (skey * list Row) :=
  match rows with
  | [] => [(key_of_row first, group)]
  | r :: rows' =>
      if same_group r prev then cut first r (group ++ [r]) rows'
      else (key_of_row first, group) :: cut r r [r] rows'
  end.

(** [_group_by]. *)
Definition group_by (batches : list (list Row)) : list (skey * list Row) :=
  match sort_rows (concat batches) with [] => [] | r :: rows => cut r r [r] rows end.

(** ** The entries *)

(** [_entry_bytes]. *)
Definition value_bytes (v : scalar) : Z := SLOT_BYTES + if variable_width v then getsizeof v else 0.
Definition entry_bytes (key : skey) (f : fields) : Z :=
  SLOT_BYTES + foldr (fun v acc => value_bytes v + acc) 0 (key ++ map snd (map_to_list f)).

(** [_forget], [_store], [_tick]. *)
Definition forget (key : skey) (f : fold) : fold :=
  match dget key f.(entries) with
  | Some e => Fold (dpop key f.(entries)) f.(dropped) (f.(held) - e.(e_charge)) f.(had_state) f.(clock)
  | None => f
  end.
Definition store (key : skey) (flds : fields) (touched : Z) (f : fold) : fold :=
  let charge := entry_bytes key flds in
  Fold (dset key (Entry flds touched charge) f.(entries)) f.(dropped) (f.(held) + charge) true f.(clock).
Definition tick (now : Z) (f : fold) : fold := Fold f.(entries) f.(dropped) f.(held) f.(had_state) (Z.max f.(clock) now).
Definition set_dropped (n : Z) (f : fold) : fold := Fold f.(entries) n f.(held) f.(had_state) f.(clock).

(** [_expire]: the stale prefix of the touch order. *)
Fixpoint stale_prefix (cutoff : Z) (es : list (skey * entry)) : list skey :=
  match es with
  | [] => []
  | (k, e) :: es' => if cutoff <=? e.(e_touched) then [] else k :: stale_prefix cutoff es'
  end.
Definition expire (now : Z) (f : fold) : fold :=
  let f := set_dropped 0 f in
  if (ttl <=? 0) || match f.(entries) with [] => true | _ => false end then f
  else
    let f := tick now f in
    let stale := stale_prefix (f.(clock) - ttl) f.(entries) in
    set_dropped (Z.of_nat (length stale)) (foldl (fun f k => forget k f) f stale).

(** ** A micro-batch *)

(** The state a key is called with: an entry past its time to live is none. *)
Definition live_fields (stale_before : option Z) (e : option entry) : option fields :=
  match e with
  | None => None
  | Some e => match stale_before with Some t => if e.(e_touched) <? t then None else Some e.(e_fields) | None => Some e.(e_fields) end
  end.

(** The loop of [push] over the groups, with the batches emitted so far. *)
Fixpoint push_groups (now : Z) (stale_before : option Z) (groups : list (skey * list Row)) (out : list (list Out)) (f : fold) : fold * res (list (list Out)) :=
  match groups with
  | [] => (f, Ok out)
  | (key, rows) :: groups' =>
      match fn key rows (live_fields stale_before (dget key f.(entries))) with
      | Raise e => (f, Raise e)
      | Ok (produced, new_state) =>
          let f := forget key f in
          let out := match produced with [] => out | _ => out ++ [produced] end in
          match new_state with
          | None => push_groups now stale_before groups' out f
          | Some s => match check_state s with
                      | Raise e => (f, Raise e)
                      | Ok flds => push_groups now stale_before groups' out (store key flds now f)
                      end
          end
      end
  end.

(** [push], up to its budget check. *)
Definition fold_batch (now now' : Z) (batch : list Row) (f : fold) : fold * res (list (list Out)) :=
  let f := set_dropped 0 f in
  match batch with
  | [] => (expire now f, Ok [])
  | _ =>
      let f := tick now f in
      let stale_before := if 0 <? ttl then Some (f.(clock) - ttl) else None in
      match push_groups f.(clock) stale_before (group_by (input batch)) [] f with
      | (f, Raise e) => (f, Raise e)
      | (f, Ok out) => (expire now' f, Ok out)
      end
  end.
(** [push] and [_check_bounded], which an empty batch does not reach. *)
Definition push (now now' : Z) (batch : list Row) (f : fold) : fold * res (list (list Out)) :=
  match batch, fold_batch now now' batch f with
  | _ :: _, (f, Ok out) => if f.(held) <=? cap then (f, Ok out) else (f, Raise "ResourceError")
  | _, r => r
  end.

(** [KeyedStateFold.__init__]. *)
Definition fresh_fold : fold := Fold [] 0 0 false 0.

(** [metrics]: keys, dropped keys, bytes. *)
Definition metrics (f : fold) : Z * Z * Z := (Z.of_nat (length f.(entries)), f.(dropped), f.(held)).

(** ** Checkpoints *)

Definition field_names (es : list (skey * entry)) : list string :=
  py_sorted String.ltb (remove_dups (concat (map (fun e => map fst (map_to_list e.2.(e_fields))) es))).
Definition key_column (i : nat) (es : list (skey * entry)) : list scalar := map (fun e => nth i e.1 SNone) es.
Definition field_column (name : string) (es : list (skey * entry)) : list scalar := map (fun e => default SNone (e.2.(e_fields) !! name)) es.

(** What the field columns' handler raises. *)
Definition field_error (err : string) : string :=
  if bool_decide (err = "ArrowInvalid" \/ err = "ArrowTypeError") then "PlanError" else err.
(** The column of stamps, an explicit int64. *)
Definition stamp_column (es : list (skey * entry)) : res (list Z) :=
  let stamps := map (fun e => e.2.(e_touched)) es in
  if forallb fits64 stamps then Ok stamps else Raise "OverflowError".

(** [state]. *)
Definition state (f : fold) : res (option snapshot) :=
  match f.(entries) with
  | [] => Ok (if f.(had_state) then Some (Snapshot [] [] []) else None)
  | es =>
      let* keys := res_mapM (fun i => array (key_column i es)) (seq 0 (length group_keys)) in
      let* flds := res_mapM (fun name => match array (field_column name es) with Ok c => Ok (name, c) | Raise err => Raise (field_error err) end) (field_names es) in
      let* stamps := stamp_column es in
      Ok (Some (Snapshot keys flds stamps))
  end.

(** [restore]: the rows in the order of their stamps. *)
Definition row_key (s : snapshot) (i : nat) : skey := map (fun column => nth i column SNone) s.(s_keys).
Definition row_fields (s : snapshot) (i : nat) : fields := list_to_map (map (fun c => (c.1, nth i c.2 SNone)) s.(s_fields)).
Definition row_stamp (s : snapshot) (i : nat) : Z := nth i s.(s_touched) 0.
Definition restore (o : option snapshot) (f : fold) : fold :=
  match o with
  | None => Fold [] f.(dropped) 0 f.(had_state) f.(clock)
  | Some s =>
      let f := Fold [] f.(dropped) 0 true f.(clock) in
      match s.(s_touched) with
      | [] => f
      | _ =>
          let ordered := py_sorted (fun i k => row_stamp s i <? row_stamp s k) (seq 0 (length s.(s_touched))) in
          let f := foldl (fun f i => store (row_key s i) (row_fields s i) (row_stamp s i) f) f ordered in
          Fold f.(entries) f.(dropped) f.(held) f.(had_state) (Z.max f.(clock) (row_stamp s (default 0%nat (last ordered))))
      end
  end.
End KeyedState.
