(* ===== verification/KeyedStateSound.v ===== *)
(** * Keyed streaming state: invariant, grouping and what a batch does

    The entries are in touch order, charged what they cost, and counted exactly; expiring the
    stale prefix of that order is expiring every stale key; a batch's groups are its keys, each
    once with all its rows; and a batch changes the state of the keys it holds as the user
    function says, and of no other key, except that stale keys go. *)

From Stdlib Require Import Floats.SpecFloat.
From S2P Require Import Prelude PyFloat PyDict ExprIR KeyedState.

(** ** The invariant *)

Section Invariant.
Context {Row Out : Type} (getsizeof : scalar -> Z).
Abbreviation entry_bytes := (KeyedState.entry_bytes getsizeof).
Abbreviation store := (KeyedState.store getsizeof).

Definition earlier (a b : skey * entry) : Prop := a.2.(e_touched) <= b.2.(e_touched).

Record fold_ok (f : fold) : Prop := {
  fo_keys : dict_ok f.(entries);
  fo_order : StronglySorted earlier f.(entries);
  fo_clock : Forall (fun e => e.2.(e_touched) <= f.(clock)) f.(entries);
  fo_charge : Forall (fun e => e.2.(e_charge) = entry_bytes e.1 e.2.(e_fields)) f.(entries);
  fo_held : f.(held) = total e_charge f.(entries);
  fo_had : f.(entries) <> [] -> f.(had_state) = true }.

Lemma StronglySorted_filter_bool {A} (R : A -> A -> Prop) (p : A -> bool) l : StronglySorted R l -> StronglySorted R (List.filter p l).
Proof.
  induction 1 as [|x l Hs IH Hx]; cbn; [constructor|]. destruct (p x); [|done]. constructor; [done|].
  rewrite Forall_forall in *. intros y Hy. apply Hx. apply list_elem_of_In in Hy. apply filter_In in Hy as [Hy _]. by apply list_elem_of_In.
Qed.

Lemma fresh_fold_ok : fold_ok fresh_fold.
Proof. split; cbn; [apply dict_ok_nil|constructor|done|done|done|done]. Qed.

Lemma set_dropped_ok n f : fold_ok f -> fold_ok (set_dropped n f).
Proof. intros []. by split. Qed.

Lemma tick_ok now f : fold_ok f -> fold_ok (tick now f).
Proof. intros []. split; cbn -[Z.max]; try done. eapply Forall_impl; [exact fo_clock0|]. intros e He. cbn -[Z.max] in *. lia. Qed.

Lemma forget_entries key f : (forget key f).(entries) = dpop key f.(entries).
Proof. unfold forget. destruct (dget key (entries f)) eqn:E; cbn; [done|]. by rewrite dpop_fresh. Qed.

Lemma forget_clock key f : (forget key f).(clock) = f.(clock).
Proof. unfold forget. by destruct (dget _ _). Qed.

Lemma forget_ok key f : fold_ok f -> fold_ok (forget key f).
Proof.
  intros H. pose proof H as []. unfold forget. destruct (dget key (entries f)) as [e|] eqn:E; [|done]. split; cbn.
  - by apply dpop_ok.
  - by apply StronglySorted_filter_bool.
  - by apply Forall_dpop.
  - by apply Forall_dpop.
  - erewrite total_dpop by done. lia.
  - intros Hne. apply fo_had0. intros E'. by rewrite E' in Hne.
Qed.

Lemma store_entries key flds touched f : dget key f.(entries) = None ->
  (store key flds touched f).(entries) = f.(entries) ++ [(key, Entry flds touched (entry_bytes key flds))].
Proof. intros E. cbn. by rewrite dset_fresh. Qed.

Lemma StronglySorted_snoc {A} (R : A -> A -> Prop) l x : StronglySorted R l -> Forall (fun y => R y x) l -> StronglySorted R (l ++ [x]).
Proof.
  induction 1 as [|y l Hs IH Hy]; cbn; intros Hx; [by repeat constructor|]. apply Forall_cons in Hx as [Hyx Hx]. constructor; [by apply IH|]. apply Forall_app. by repeat constructor.
Qed.

(** Storing an absent key with a stamp no earlier than the others. *)
Lemma store_ok key flds touched f : fold_ok f -> dget key f.(entries) = None ->
  Forall (fun e => e.2.(e_touched) <= touched) f.(entries) -> touched <= f.(clock) -> fold_ok (store key flds touched f).
Proof.
  intros [] Hk Hlast Hc. split; cbn [KeyedState.store entries clock held had_state]; rewrite ?dset_fresh by done.
  - rewrite <- (dset_fresh key _ _ Hk). by apply dset_ok.
  - by apply StronglySorted_snoc.
  - apply Forall_app. by repeat constructor.
  - apply Forall_app. by repeat constructor.
  - rewrite total_app. cbn. lia.
  - done.
Qed.

(** ** Expiry *)

Lemma forget_all_ok keys f : fold_ok f -> fold_ok (foldl (fun f k => forget k f) f keys).
Proof. revert f. induction keys as [|k keys IH]; intros f Hf; cbn; [done|]. by apply IH, forget_ok. Qed.

Lemma forget_all_entries keys : forall f, (foldl (fun f k => forget k f) f keys).(entries) = List.filter (fun e => bool_decide (e.1 ∉ keys)) f.(entries).
Proof.
  induction keys as [|k keys IH]; intros f; cbn [foldl].
  - induction (entries f) as [|e es IHe]; cbn; [done|]. rewrite bool_decide_true by apply not_elem_of_nil. by f_equal.
  - rewrite IH, forget_entries. unfold dpop. induction (entries f) as [|e es IHe]; cbn; [done|].
    destruct (bool_decide (e.1 <> k)) eqn:E1; cbn; rewrite IHe.
    + apply bool_decide_eq_true in E1. repeat case_bool_decide; try done; set_solver.
    + apply bool_decide_eq_false in E1. rewrite bool_decide_false; [done|]. set_solver.
Qed.

Lemma forget_all_clock keys : forall f, (foldl (fun f k => forget k f) f keys).(clock) = f.(clock).
Proof. induction keys as [|k keys IH]; intros f; cbn; [done|]. by rewrite IH, forget_clock. Qed.

Lemma stale_prefix_elem cutoff es k : k ∈ stale_prefix cutoff es -> exists e, (k, e) ∈ es /\ e.(e_touched) < cutoff.
Proof.
  induction es as [|[k' e] es IH]; cbn; [by intros ?%not_elem_of_nil|]. case_match; [by intros ?%not_elem_of_nil|].
  intros [->|Hk]%elem_of_cons; [exists e; split; [left|lia]|]. destruct (IH Hk) as (e' & Hin & He). exists e'. split; [by right|done].
Qed.

(** In touch order the stale entries are a prefix. *)
Lemma stale_prefix_exact cutoff es : dict_ok es -> StronglySorted earlier es ->
  List.filter (fun e => bool_decide (e.1 ∉ stale_prefix cutoff es)) es = List.filter (fun e => cutoff <=? e.2.(e_touched)) es.
Proof.
  intros Hk Hs. apply filter_ext_in. intros [k e] Hin%list_elem_of_In. cbn. apply eq_bool_prop_intro. rewrite !Is_true_true, bool_decide_eq_true, Z.leb_le. split.
  - intros Hn. destruct (decide (cutoff <= e_touched e)) as [|Hlt]; [done|]. exfalso. apply Hn. clear Hn.
    induction Hs as [|[k' e'] es Hs IH He']; [by apply not_elem_of_nil in Hin|]. cbn. apply elem_of_cons in Hin as [[= <- <-]|Hin].
    + rewrite (proj2 (Z.leb_gt _ _)) by lia. left.
    + rewrite Forall_forall in He'. specialize (He' _ Hin). unfold earlier in He'. cbn in He'. rewrite (proj2 (Z.leb_gt _ _)) by lia. right.
      apply IH; [|done]. unfold dict_ok in *. cbn in Hk. by apply NoDup_cons in Hk as [].
  - intros Hc (e' & Hin' & He')%stale_prefix_elem. apply elem_dget in Hin, Hin'; try done. assert (e = e') by congruence. subst. lia.
Qed.

Context (ttl : Z).

Lemma expire_ok now f : fold_ok f -> fold_ok (expire ttl now f).
Proof. intros Hf. unfold expire. case_match; [by apply set_dropped_ok|]. by apply set_dropped_ok, forget_all_ok, tick_ok, set_dropped_ok. Qed.

(** Every key past its time to live goes, and only those. *)
Lemma expire_entries now f : fold_ok f ->
  (expire ttl now f).(entries) = if ttl <=? 0 then f.(entries) else List.filter (fun e => Z.max f.(clock) now - ttl <=? e.2.(e_touched)) f.(entries).
Proof.
  intros Hf. unfold expire. cbn. destruct (ttl <=? 0); [done|]. cbn [orb]. destruct (entries f) as [|e es] eqn:Ee; [cbn; by rewrite Ee|]. rewrite <- Ee.
  cbn [set_dropped entries]. rewrite forget_all_entries. cbn [tick set_dropped entries clock]. destruct Hf. by rewrite stale_prefix_exact.
Qed.

Lemma expire_had now f : (expire ttl now f).(had_state) = f.(had_state).
Proof.
  unfold expire. case_match; [done|]. cbn. assert (forall keys g, had_state (foldl (fun f k => forget k f) g keys) = had_state g) as E; [|by rewrite E].
  induction keys as [|k keys IH]; intros g; cbn; [done|]. rewrite IH. unfold forget. by destruct (dget _ _).
Qed.

(** ** A micro-batch *)

Context (fn : skey -> list Row -> option fields -> res (list Out * option returned)).
Abbreviation push_groups := (KeyedState.push_groups getsizeof fn).

Lemma push_groups_ok now stale_before groups : forall out f, fold_ok f -> f.(clock) = now -> fold_ok (push_groups now stale_before groups out f).1 /\ (push_groups now stale_before groups out f).1.(clock) = now.
Proof.
  induction groups as [|[key rows] groups IH]; intros out f Hf Hc; cbn; [done|]. destruct (fn _ _ _) as [[produced new_state]|e]; [|done].
  assert (fold_ok (forget key f)) as Hg by (by apply forget_ok). assert ((forget key f).(clock) = now) as Hgc by (by rewrite forget_clock).
  destruct new_state as [s|]; [|by apply IH]. destruct (check_state s) as [flds|e]; [|done]. apply IH; [|done]. apply store_ok; [done| | |lia].
  - rewrite forget_entries. by rewrite dget_dpop, decide_True.
  - destruct Hg. eapply Forall_impl; [exact fo_clock0|]. intros e He. cbn in *. lia.
Qed.

(** What a call leaves for its key. *)
Definition called (now : Z) (stale_before : option Z) (key : skey) (rows : list Row) (e : option entry) : option entry :=
  match fn key rows (live_fields stale_before e) with
  | Ok (_, Some s) => match check_state s with Ok flds => Some (Entry flds now (entry_bytes key flds)) | Raise _ => None end
  | _ => None
  end.
(** What it emits. *)
Definition emitted (stale_before : option Z) (es : list (skey * entry)) (g : skey * list Row) : list (list Out) :=
  match fn g.1 g.2 (live_fields stale_before (dget g.1 es)) with Ok (produced, _) => if produced is [] then [] else [produced] | Raise _ => [] end.

Lemma push_groups_exact now stale_before groups : forall out f f' out', NoDup (map fst groups) ->
  push_groups now stale_before groups out f = (f', Ok out') ->
  out' = out ++ concat (map (emitted stale_before f.(entries)) groups) /\
  forall k, dget k f'.(entries) = match dget k groups with Some rows => called now stale_before k rows (dget k f.(entries)) | None => dget k f.(entries) end.
Proof.
  induction groups as [|[key rows] groups IH]; intros out f f' out' Hn; cbn; [intros [= <- <-]; by rewrite app_nil_r|]. cbn in Hn. apply NoDup_cons in Hn as [Hk Hn].
  unfold called, emitted at 1. cbn. destruct (fn key rows _) as [[produced new_state]|e] eqn:Efn; [|done].
  set (out1 := match produced with [] => out | _ => out ++ [produced] end). set (f1 := match new_state with None => forget key f | Some s => match check_state s with Ok flds => store key flds now (forget key f) | Raise _ => f end end).
  intros Hp. assert (push_groups now stale_before groups out1 f1 = (f', Ok out') /\ match new_state with Some s => is_ok (check_state s) = true | None => True end) as [Hp1 Hst].
  { unfold f1. destruct new_state as [s|]; [|done]. by destruct (check_state s). }
  clear Hp.
  assert (forall k, k <> key -> dget k f1.(entries) = dget k f.(entries)) as Hother.
  { intros k Hne. unfold f1. destruct new_state as [s|]; [destruct (check_state s)|]; cbn; rewrite ?dget_dset, ?forget_entries, ?dget_dpop, ?decide_False by done; done. }
  destruct (IH _ _ _ _ Hn Hp1) as [-> Hget]. split.
  - assert (map (emitted stale_before (entries f1)) groups = map (emitted stale_before (entries f)) groups) as ->.
    { apply map_ext_in. intros [k' rows'] Hin. unfold emitted. cbn. rewrite Hother; [done|]. intros ->. apply Hk. apply list_elem_of_fmap. exists (key, rows'). split; [done|by apply list_elem_of_In]. }
    unfold out1. destruct produced; cbn; by rewrite <- ?app_assoc.
  - intros k. rewrite Hget. destruct (decide (k = key)) as [->|Hne]; [|by rewrite Hother].
    assert (dget key groups = None) as -> by (by apply dget_None). rewrite Efn.
    unfold f1. destruct new_state as [s|]; [destruct (check_state s) eqn:Ec; cbn; [by rewrite dget_dset, decide_True|]|by rewrite forget_entries, dget_dpop, decide_True].
    done.
Qed.
End Invariant.

(** ** Grouping *)

(** A cell Arrow and Python compare alike: not a NaN, nor the negative zero. *)
Definition plain_cell (v : scalar) : bool := match v with SFloat S754_nan | SFloat (S754_zero true) => false | _ => true end.

Lemma SFcompare_refl x : match x with S754_nan => false | _ => true end = true -> SFeqb x x = true.
Proof. unfold SFeqb. destruct x as [b|b| |b m e]; cbn; try done; destruct b; try done; rewrite Z.compare_refl, Pos.compare_cont_refl; done. Qed.

Lemma SFeqb_eq x y : plain_cell (SFloat x) = true -> plain_cell (SFloat y) = true -> SFeqb x y = true <-> x = y.
Proof.
  intros Hx Hy. split; [|intros <-; apply SFcompare_refl; by destruct x]. unfold SFeqb.
  destruct x as [[]|[]| |[] m e], y as [[]|[]| |[] m' e']; cbn in *; try done;
    (destruct (Z.compare_spec e e') as [->| |]; cbn; try done; destruct (Pos.compare_cont Eq m m') eqn:E; cbn; try done; by apply Pcompare_Eq_eq in E as ->).
Qed.

Lemma same_cell_eq a b : plain_cell a = true -> plain_cell b = true -> same_cell a b = true <-> a = b.
Proof.
  intros Ha Hb. destruct a, b; cbn [same_cell]; rewrite ?bool_decide_eq_true; try (by split); try done.
  rewrite SFeqb_eq by done. split; [by intros ->|by intros [= ->]].
Qed.

(** What the sort of a table by its key columns promises: its rows, in an order of the keys. *)
Class TableSort {Row} (key : Row -> skey) (sort_rows : list Row -> list Row) (key_le : skey -> skey -> Prop) : Prop := {
  ts_perm l : sort_rows l ≡ₚ l;
  ts_sorted l : StronglySorted (fun a b => key_le (key a) (key b)) (sort_rows l);
  ts_antisym a b : key_le a b -> key_le b a -> a = b }.

Section Grouping.
Context {Row : Type} (cell : string -> Row -> scalar) (group_keys : list string).
Abbreviation key := (key_of_row cell group_keys).
Definition plain_row (r : Row) : bool := forallb (fun k => plain_cell (cell k r)) group_keys.

Lemma same_group_eq r r' : plain_row r = true -> plain_row r' = true -> same_group cell group_keys r r' = true <-> key r = key r'.
Proof.
  unfold plain_row, same_group, key_of_row. induction group_keys as [|k ks IH]; cbn; [by split|]. rewrite !andb_true_iff. intros [Hr Hrs] [Hr' Hrs'].
  rewrite (same_cell_eq _ _ Hr Hr'), (IH Hrs Hrs'). split; [by intros [-> ->]|by intros [= -> ->]].
Qed.

Context {sort_rows : list Row -> list Row} {key_le : skey -> skey -> Prop} `{!TableSort key sort_rows key_le}.

Lemma cut_exact rows : forall first prev group,
  Forall (fun r => plain_row r = true) (prev :: rows) -> group <> [] -> Forall (fun r => key r = key first) group -> key prev = key first ->
  StronglySorted (fun a b => key_le (key a) (key b)) (first :: rows) ->
  concat (map snd (cut cell group_keys first prev group rows)) = group ++ rows /\ NoDup (map fst (cut cell group_keys first prev group rows)) /\
  Forall (fun g => g.2 <> [] /\ Forall (fun r => key r = g.1) g.2) (cut cell group_keys first prev group rows).
Proof.
  induction rows as [|r rows IH]; intros first prev group Hp Hne Hg Hprev Hs; cbn [cut map concat fst snd].
  - rewrite !app_nil_r. split_and!; [done|apply NoDup_singleton|by repeat constructor].
  - apply Forall_cons in Hp as [Hp Hps]. apply Forall_cons in Hps as [Hr Hps]. apply StronglySorted_inv in Hs as [Hs Hfirst]. destruct (same_group cell group_keys r prev) eqn:E.
    + apply same_group_eq in E; [|done..]. destruct (IH first r (group ++ [r])) as (E1 & E2 & E3).
      * by constructor. * by destruct group. * apply Forall_app. split; [done|]. repeat constructor. congruence. * congruence.
      * apply StronglySorted_inv in Hs as [Hs _]. apply Forall_cons in Hfirst as [_ Hfirst]. by constructor.
      * rewrite E1, <- app_assoc. done.
    + assert (key r <> key prev) as Hdiff by (intros H; apply same_group_eq in H; [congruence|done..]).
      destruct (IH r r [r]) as (E1 & E2 & E3); [by constructor|done|by repeat constructor|done|done|]. cbn [map concat fst snd]. rewrite E1. split_and!; [done| |by constructor].
      constructor; [|done]. intros ([k g] & Ek & Hin)%list_elem_of_fmap. cbn in Ek. subst k. rewrite Forall_forall in E3. destruct (E3 _ Hin) as [Hg0 Hgk]. cbn in *.
      destruct g as [|x g]; [done|]. apply Forall_cons in Hgk as [Hx _]. assert (x ∈ r :: rows) as Hxin.
      { rewrite <- E1. apply list_elem_of_In, in_concat. exists (x :: g). rewrite <- !list_elem_of_In. split; [|left]. apply list_elem_of_fmap. by exists (key first, x :: g). }
      apply Hdiff. rewrite Hprev, <- Hx. apply elem_of_cons in Hxin as [->|Hxin]; [done|]. apply (ts_antisym (TableSort := TableSort0)).
      * apply StronglySorted_inv in Hs as [_ Hs]. rewrite Forall_forall in Hs. by apply Hs.
      * rewrite Hx. by apply Forall_cons in Hfirst as [? _].
Qed.

(** Each key of the batch once, with all its rows. *)
Lemma group_by_exact batches : Forall (fun r => plain_row r = true) (concat batches) ->
  let groups := group_by cell sort_rows group_keys batches in
  NoDup (map fst groups) /\ forall k, default [] (dget k groups) ≡ₚ List.filter (fun r => bool_decide (key r = k)) (concat batches) /\ dget k groups <> Some [].
Proof.
  intros Hp. assert (Forall (fun r => plain_row r = true) (sort_rows (concat batches))) as Hps by (by rewrite (ts_perm (TableSort := TableSort0))).
  assert (exists rows, rows ≡ₚ concat batches /\ concat (map snd (group_by cell sort_rows group_keys batches)) = rows /\ NoDup (map fst (group_by cell sort_rows group_keys batches)) /\
    Forall (fun g => g.2 <> [] /\ Forall (fun r => key r = g.1) g.2) (group_by cell sort_rows group_keys batches)) as (rows & Hrows & Ec & Hn & Hg).
  { exists (sort_rows (concat batches)). split; [apply (ts_perm (TableSort := TableSort0))|]. unfold group_by. pose proof (ts_sorted (TableSort := TableSort0) (concat batches)) as Hs.
    destruct (sort_rows (concat batches)) as [|r rows]; [split_and!; [done|constructor|done]|]. apply (cut_exact rows r r [r]); [done|done|by repeat constructor|done|done]. }
  cbv zeta. split; [done|]. intros k. generalize dependent (group_by cell sort_rows group_keys batches). intros groups Ec Hn Hg. split.
  - transitivity (List.filter (fun r => bool_decide (key r = k)) rows).
    2: { clear - Hrows. induction Hrows; cbn; repeat (case_match; cbn); try done; [by f_equiv|by constructor|by etrans]. }
    rewrite <- Ec. clear Ec Hrows. induction groups as [|[k' g] groups IH]; cbn; [done|]. cbn in Hn. apply NoDup_cons in Hn as [Hk' Hn]. apply Forall_cons in Hg as [[_ Hg] Hgs]. cbn in *.
    rewrite List.filter_app. assert (forall q, Forall (fun r => key r = q) g -> List.filter (fun r => bool_decide (key r = k)) g = if decide (k = q) then g else []) as Ef.
    { intros q Hq. induction Hq as [|x g Hx Hq IHq]; cbn; [by case_decide|]. rewrite Hx, IHq by (by apply Forall_cons in Hg as []). repeat case_decide; case_bool_decide; congruence. }
    rewrite (Ef _ Hg). case_decide as E; cbn; [|by apply IH]. subst k'. rewrite <- (IH Hn Hgs). assert (dget k groups = None) as -> by (by apply dget_None). cbn. by rewrite app_nil_r.
  - intros E%dget_elem. rewrite Forall_forall in Hg. by destruct (Hg _ E).
Qed.
End Grouping.

(** ** Checkpoints *)

Inductive stype := TBool | TInt | TFloat | TStr | TBytes | TDate.
(** The type of a value a column can hold: an integer of 64 bits, a date of the calendar (the
    years 1 to 9999, in days since 1970); a text is its encoding. *)
Definition stype_of (v : scalar) : option stype :=
  match v with
  | SBool _ => Some TBool
  | SInt z => if fits64 z then Some TInt else None
  | SFloat _ => Some TFloat
  | SStr _ => Some TStr
  | SBytes _ => Some TBytes
  | SDate d => if (-719162 <=? d) && (d <=? 2932896) then Some TDate else None
  | _ => None
  end.
Definition has_type (t : stype) (v : scalar) : Prop := v = SNone \/ stype_of v = Some t.

(** The text of a column, which one array holds up to this many bytes of. *)
Definition text_bytes (v : scalar) : Z := match v with SStr s | SBytes s => Z.of_nat (String.length s) | _ => 0 end.
Definition text_total (column : list scalar) : Z := foldr (fun v acc => text_bytes v + acc) 0 column.
Definition TEXT_LIMIT : Z := 2147483646.

(** A column of one type, whose text fits one array, reads back as it was written. *)
Class ColumnArray (array : list scalar -> res (list scalar)) : Prop :=
  column_exact t l : Forall (has_type t) l -> text_total l <= TEXT_LIMIT -> array l = Ok l.

Lemma py_sorted_in_place {A} (lt : A -> A -> bool) l : StronglySorted (fun x y => lt y x = false) l -> py_sorted lt l = l.
Proof.
  induction 1 as [|x l Hs IH Hx]; cbn; [done|]. fold (py_sorted lt l). rewrite IH. destruct Hx as [|y l Hy _]; cbn; [done|]. by rewrite Hy.
Qed.

Lemma textless_total l : (forall v, v ∈ l -> text_bytes v = 0) -> text_total l <= TEXT_LIMIT.
Proof.
  intros Hl. assert (text_total l = 0) as ->; [|unfold TEXT_LIMIT; lia]. unfold text_total. induction l as [|v l IH]; cbn; [done|]. rewrite (Hl v) by left. rewrite IH; [done|]. intros w Hw. apply Hl. by right.
Qed.

(** No column holds more text than one array takes. *)
Definition columns_fit (es : list (skey * entry)) : Prop :=
  (forall i, text_total (key_column i es) <= TEXT_LIMIT) /\ (forall name, text_total (field_column name es) <= TEXT_LIMIT).

Definition textless_entry (e : skey * entry) : Prop :=
  Forall (fun v => text_bytes v = 0) e.1 /\ map_Forall (fun _ v => text_bytes v = 0) e.2.(e_fields).

Lemma textless_fit es : Forall textless_entry es -> columns_fit es.
Proof.
  intros Ht. rewrite Forall_forall in Ht. split.
  - intros i. apply textless_total. intros v Hv. apply list_elem_of_fmap in Hv as (e & -> & He). destruct (Ht e He) as [Hk _].
    destruct (decide (i < length e.1)%nat) as [Hi|Hi]; [|by rewrite nth_overflow by lia].
    destruct (lookup_lt_is_Some_2 e.1 i Hi) as [v Ev]. erewrite nth_lookup_Some by exact Ev. rewrite Forall_lookup in Hk. by eapply Hk.
  - intros name. apply textless_total. intros v Hv. apply list_elem_of_fmap in Hv as (e & -> & He). destruct (Ht e He) as [_ Hf].
    destruct (e_fields e.2 !! name) as [v|] eqn:E; cbn; [|done]. by apply (Hf name v).
Qed.

Section Snapshot.
Context (getsizeof : scalar -> Z) (array : list scalar -> res (list scalar)) `{!ColumnArray array} (group_keys : list string).
Abbreviation entry_bytes := (KeyedState.entry_bytes getsizeof).
Abbreviation state := (KeyedState.state array group_keys).
Abbreviation restore := (KeyedState.restore getsizeof).
Context (key_types : list stype) (field_types : gmap string stype).
Hypothesis key_types_len : length key_types = length group_keys.

(** Keys and fields of one type each, and a stamp of 64 bits. *)
Definition entry_typed (e : skey * entry) : Prop :=
  Forall2 has_type key_types e.1 /\ (forall name v, e.2.(e_fields) !! name = Some v -> exists t, field_types !! name = Some t /\ has_type t v) /\
  fits64 e.2.(e_touched) = true.

(** The fields as the other keys' names complete them. *)
Definition pad (names : list string) (f : fields) : fields := list_to_map (map (fun name => (name, default SNone (f !! name))) names).
Definition padded (names : list string) (e : skey * entry) : skey * entry :=
  (e.1, Entry (pad names e.2.(e_fields)) e.2.(e_touched) (entry_bytes e.1 (pad names e.2.(e_fields)))).

Definition snapshot_of (es : list (skey * entry)) : snapshot :=
  Snapshot (map (fun i => key_column i es) (seq 0 (length group_keys))) (map (fun name => (name, field_column name es)) (field_names es)) (map (fun e => e.2.(e_touched)) es).

Lemma field_names_elem es name : name ∈ field_names es <-> exists e v, e ∈ es /\ e.2.(e_fields) !! name = Some v.
Proof.
  unfold field_names. rewrite py_sorted_perm, elem_of_remove_dups, list_elem_of_In, in_concat. split.
  - intros (l & Hl & Hn). apply in_map_iff in Hl as (e & <- & He%list_elem_of_In). apply in_map_iff in Hn as ([n v] & <- & Hv%list_elem_of_In). apply elem_of_map_to_list in Hv. eauto.
  - intros (e & v & He & Hv). exists (map fst (map_to_list (e_fields e.2))). split; [apply in_map_iff; exists e; split; [done|by apply list_elem_of_In]|].
    apply in_map_iff. exists (name, v). split; [done|]. by apply list_elem_of_In, elem_of_map_to_list.
Qed.

Lemma res_mapM_all_ok {A B} (f : A -> res B) (g : A -> B) l : (forall x, x ∈ l -> f x = Ok (g x)) -> res_mapM f l = Ok (map g l).
Proof. induction l as [|x l IH]; cbn; intros Hf; [done|]. rewrite (Hf x) by left. rewrite IH; [done|]. intros y Hy. apply Hf. by right. Qed.

Lemma state_exact f : Forall entry_typed f.(entries) -> columns_fit f.(entries) ->
  state f = Ok (match f.(entries) with [] => if f.(had_state) then Some (Snapshot [] [] []) else None | es => Some (snapshot_of es) end).
Proof.
  intros Ht [Hfk Hff]. unfold KeyedState.state. destruct (entries f) as [|e0 es0] eqn:Ee; [done|]. rewrite <- Ee in *.
  rewrite (res_mapM_all_ok _ (fun i => key_column i (entries f))).
  2: { intros i Hi%elem_of_seq. destruct (lookup_lt_is_Some_2 key_types i) as [t Ek]; [lia|]. apply (column_exact t); [|by apply Hfk]. unfold key_column. apply Forall_fmap. eapply Forall_impl; [exact Ht|]. intros e [Hk _]. cbn.
       destruct (Forall2_lookup_l _ _ _ _ _ Hk Ek) as (v & Hv & Hty). erewrite nth_lookup_Some by exact Hv. done. }
  cbn. rewrite (res_mapM_all_ok _ (fun name => (name, field_column name (entries f)))).
  2: { intros name (e & v & He & Hv)%field_names_elem. rewrite Forall_forall in Ht. destruct (Ht e He) as (_ & Hf & _). destruct (Hf _ _ Hv) as (t & Et & _).
       rewrite (column_exact t); [done| |by apply Hff]. unfold field_column. apply Forall_fmap, Forall_forall. intros e' He'. cbn. destruct (e_fields e'.2 !! name) as [v'|] eqn:Ev; [|by left].
       destruct (Ht e' He') as (_ & Hf' & _). destruct (Hf' _ _ Ev) as (t' & Et' & Hty). cbn. congruence. }
  cbn. unfold stamp_column. rewrite (proj2 (forallb_forall _ _)); [done|].
  intros z Hz. apply in_map_iff in Hz as (e & <- & He%list_elem_of_In). rewrite Forall_forall in Ht. apply (Ht e He).
Qed.

(** The rows of the snapshot. *)
Lemma snapshot_row es i k e : Forall entry_typed es -> es !! i = Some (k, e) ->
  row_key (snapshot_of es) i = k /\ row_fields (snapshot_of es) i = pad (field_names es) e.(e_fields) /\ row_stamp (snapshot_of es) i = e.(e_touched).
Proof.
  intros Ht Hi. assert (forall {B} (g : skey * entry -> B) d, nth i (map g es) d = g (k, e)) as Hnth.
  { intros B g d. apply nth_lookup_Some. change (map g es) with (g <$> es). by rewrite list_lookup_fmap, Hi. }
  unfold row_key, row_fields, row_stamp, snapshot_of. cbn [s_keys s_fields s_touched]. rewrite !map_map. cbn. split_and!.
  - rewrite (map_ext _ (fun c => nth c k SNone)) by (intros c; unfold key_column; by rewrite Hnth).
    rewrite Forall_forall in Ht. destruct (Ht (k, e)) as [Hk _]; [by eapply list_elem_of_lookup_2|]. cbn in Hk. apply Forall2_length in Hk. rewrite <- key_types_len, Hk. clear.
    apply list_eq. intros c. change (map (fun c => nth c k SNone) (seq 0 (length k))) with ((fun c => nth c k SNone) <$> seq 0 (length k)). rewrite list_lookup_fmap.
    destruct (decide (c < length k)%nat) as [Hc|Hc].
    + rewrite lookup_seq_lt by done. cbn. destruct (lookup_lt_is_Some_2 k c Hc) as [v Hv]. rewrite Hv. f_equal. by apply nth_lookup_Some.
    + rewrite lookup_seq_ge by lia. cbn. symmetry. apply lookup_ge_None. lia.
  - unfold pad. f_equal. apply map_ext. intros name. f_equal. unfold field_column. by rewrite Hnth.
  - by rewrite Hnth.
Qed.

Lemma store_all_entries s idx : forall f, NoDup (map (row_key s) idx) -> (forall i, i ∈ idx -> dget (row_key s i) f.(entries) = None) ->
  (foldl (fun f i => KeyedState.store getsizeof (row_key s i) (row_fields s i) (row_stamp s i) f) f idx).(entries) =
  f.(entries) ++ map (fun i => (row_key s i, Entry (row_fields s i) (row_stamp s i) (entry_bytes (row_key s i) (row_fields s i)))) idx.
Proof.
  induction idx as [|i idx IH]; intros f Hn Hf; cbn [foldl map]; [by rewrite app_nil_r|]. cbn in Hn. apply NoDup_cons in Hn as [Hi Hn]. rewrite IH.
  - cbn [KeyedState.store entries]. rewrite dset_fresh by (apply Hf; left). by rewrite <- app_assoc.
  - done.
  - intros k Hk. cbn [KeyedState.store entries]. rewrite dget_dset. case_decide as E; [|apply Hf; by right]. exfalso. apply Hi. rewrite <- E. apply list_elem_of_fmap. by exists k.
Qed.
Lemma store_all_rest s idx : forall f, NoDup (map (row_key s) idx) -> (forall i, i ∈ idx -> dget (row_key s i) f.(entries) = None) ->
  let f' := foldl (fun f i => KeyedState.store getsizeof (row_key s i) (row_fields s i) (row_stamp s i) f) f idx in
  f'.(clock) = f.(clock) /\ f'.(dropped) = f.(dropped) /\ (f.(had_state) = true -> f'.(had_state) = true) /\ f'.(held) - total e_charge f'.(entries) = f.(held) - total e_charge f.(entries).
Proof.
  induction idx as [|i idx IH]; intros f Hn Hf; cbn [foldl]; [done|]. cbn in Hn. apply NoDup_cons in Hn as [Hi Hn].
  destruct (IH (KeyedState.store getsizeof (row_key s i) (row_fields s i) (row_stamp s i) f) Hn) as (E1 & E2 & E3 & E4).
  - intros k Hk. cbn. rewrite dget_dset. case_decide as E; [|apply Hf; by right]. exfalso. apply Hi. rewrite <- E. apply list_elem_of_fmap. by exists k.
  - cbv zeta. rewrite E1, E2, E4. split_and!; [done|done|intros _; by apply E3|]. cbn [KeyedState.store held entries]. rewrite total_dset, (Hf i) by left. cbn. lia.
Qed.

Lemma StronglySorted_map {A B} (R : B -> B -> Prop) (g : A -> B) l : StronglySorted R (map g l) <-> StronglySorted (fun x y => R (g x) (g y)) l.
Proof.
  induction l as [|x l IH]; cbn; [split; constructor|]. split; intros [Hs Hx]%StronglySorted_inv; constructor; try (by apply IH).
  - exact (proj1 (List.Forall_map _ _ _) Hx).
  - exact (proj2 (List.Forall_map _ _ _) Hx).
Qed.

Lemma StronglySorted_imp {A} (R R' : A -> A -> Prop) l : (forall a b, R a b -> R' a b) -> StronglySorted R l -> StronglySorted R' l.
Proof. intros H. induction 1 as [|x l Hs IH Hx]; constructor; [done|]. eapply Forall_impl; [exact Hx|]. auto. Qed.

Lemma snapshot_rows es : Forall entry_typed es ->
  map (fun i => (row_key (snapshot_of es) i, Entry (row_fields (snapshot_of es) i) (row_stamp (snapshot_of es) i) (entry_bytes (row_key (snapshot_of es) i) (row_fields (snapshot_of es) i)))) (seq 0 (length es)) =
  map (padded (field_names es)) es.
Proof.
  intros Ht. apply list_eq. intros i. change (map ?g ?l) with (g <$> l). rewrite !list_lookup_fmap. destruct (es !! i) as [[k e]|] eqn:Hi.
  - rewrite lookup_seq_lt by (by eapply lookup_lt_Some). destruct (snapshot_row es i k e Ht Hi) as (E1 & E2 & E3).
    unfold fmap, option_fmap, option_map. rewrite Nat.add_0_l, E1, E2, E3. done.
  - rewrite lookup_seq_ge; [done|]. by apply lookup_ge_None.
Qed.

(** A restored key space has the keys, the order and the stamps of the one written, and its
    fields completed with nulls. *)
Lemma restore_exact f f0 : fold_ok getsizeof f -> Forall entry_typed f.(entries) -> columns_fit f.(entries) -> exists o, state f = Ok o /\
  (restore o f0).(entries) = map (padded (field_names f.(entries))) f.(entries) /\ fold_ok getsizeof (restore o f0) /\
  (f.(had_state) = true -> (restore o f0).(had_state) = true).
Proof.
  intros Hf Ht Hfit. eexists. split; [by apply state_exact|]. destruct (entries f) as [|e0 es0] eqn:Ee.
  - destruct (had_state f); cbn; (split_and!; [done| |done]); split; cbn; try done; try apply dict_ok_nil; constructor.
  - rewrite <- Ee in *. assert (length (entries f) <> 0%nat) as Hlen by (by rewrite Ee). cbn [KeyedState.restore].
    set (s := snapshot_of (entries f)). assert (s_touched s = map (fun e => e.2.(e_touched)) (entries f)) as Es by done.
    assert (length (s_touched s) = length (entries f)) as El by (by rewrite Es, length_map).
    assert (py_sorted (fun i k => row_stamp s i <? row_stamp s k) (seq 0 (length (s_touched s))) = seq 0 (length (entries f))) as Eo.
    { rewrite El. apply py_sorted_in_place. apply (StronglySorted_map (fun x y => (y <? x) = false) (row_stamp s)).
      assert (map (row_stamp s) (seq 0 (length (entries f))) = map (fun e => e.2.(e_touched)) (entries f)) as ->.
      { pose proof (f_equal (map (fun e : skey * entry => e.2.(e_touched))) (snapshot_rows (entries f) Ht)) as E. rewrite !map_map in E. exact E. }
      apply StronglySorted_map. destruct Hf. eapply StronglySorted_imp; [|exact fo_order0]. intros a b H. unfold earlier in H. apply Z.ltb_ge. done. }
    rewrite Eo. destruct (s_touched s) as [|t ts] eqn:Et; [cbn in El; lia|].
    assert (map (row_key s) (seq 0 (length (entries f))) = map fst (entries f)) as Ekeys.
    { pose proof (f_equal (map fst) (snapshot_rows (entries f) Ht)) as E. rewrite !map_map in E. exact E. }
    set (g := Fold [] (dropped f0) 0 true (clock f0)). assert (NoDup (map (row_key s) (seq 0 (length (entries f))))) as Hn by (rewrite Ekeys; by destruct Hf).
    assert (forall i, i ∈ seq 0 (length (entries f)) -> dget (row_key s i) g.(entries) = None) as Hg by done.
    pose proof (store_all_entries s _ g Hn Hg) as Hes. pose proof (store_all_rest s _ g Hn Hg) as (Hc & Hd & Hh & Htot). set (g' := foldl _ g _) in *. pose proof (snapshot_rows (entries f) Ht) as Hrows. fold s in Hrows.
    change (entries g) with (@nil (skey * entry)) in Hes. rewrite app_nil_l, Hrows in Hes.
    cbn [entries had_state]. split_and!; [done| |intros _; by apply Hh]. destruct Hf. split; cbn [entries clock held had_state]; rewrite ?Hes.
    + unfold dict_ok in *. change (NoDup (map fst (map (padded (field_names (entries f))) (entries f)))). rewrite map_map. exact fo_keys0.
    + apply StronglySorted_map. exact fo_order0.
    + apply Forall_fmap. destruct (last (seq 0 (length (entries f)))) as [q|] eqn:Elast; [|by apply last_None in Elast; destruct (length (entries f))].
      apply Forall_forall. intros e He. change (e.2.(e_touched) <= Z.max g'.(clock) (row_stamp s q)). apply list_elem_of_lookup in He as (i & Hi).
      assert (q = length (entries f) - 1)%nat as ->. { rewrite last_lookup, length_seq in Elast. rewrite lookup_seq_lt in Elast by lia. injection Elast as <-. lia. }
      destruct (lookup_lt_is_Some_2 (entries f) (length (entries f) - 1)) as [[k' e'] Hq]; [lia|]. destruct (snapshot_row (entries f) _ k' e' Ht Hq) as (_ & _ & Hst). fold s in Hst. rewrite Hst.
      assert (e.2.(e_touched) <= e'.(e_touched)); [|lia]. pose proof (lookup_lt_Some _ _ _ Hi) as Hi'. destruct (decide (i = length (entries f) - 1)%nat) as [->|Hne]; [rewrite Hq in Hi; injection Hi as <-; cbn; lia|].
      assert (i < length (entries f) - 1)%nat as Hlt by lia. clear - fo_order0 Hi Hq Hlt. revert i Hi Hlt Hq. generalize (length (entries f) - 1)%nat. intros n i Hi Hlt Hq. revert i n Hi Hq Hlt.
      induction fo_order0 as [|x l Hs IH Hx]; intros i n Hi Hq Hlt; [done|]. destruct i as [|i]; cbn in Hi.
      * injection Hi as ->. destruct n as [|n]; [lia|]. cbn in Hq. rewrite Forall_lookup in Hx. apply (Hx _ _ Hq).
      * destruct n as [|n]; [lia|]. cbn in Hq. apply (IH i n); [done|done|lia].
    + apply Forall_fmap, Forall_forall. intros e _. done.
    + cbn in Htot. rewrite Hes in Htot. lia.
    + intros _. by apply Hh.
Qed.

(** Where every key has the same fields nothing is added. *)
Lemma pad_id names (f : fields) : (forall name, name ∈ names <-> is_Some (f !! name)) -> pad names f = f.
Proof.
  intros Hn. apply map_eq. intros name. unfold pad. destruct (f !! name) as [v|] eqn:Ev.
  - apply elem_of_list_to_map_1'; [|apply list_elem_of_fmap; exists name; rewrite Ev; split; [done|apply Hn; by eexists]].
    intros w Hw. apply list_elem_of_fmap in Hw as (n' & [= <- ->] & _). by rewrite Ev.
  - apply not_elem_of_list_to_map_1. intros Hin. apply list_elem_of_fmap in Hin as ([n' v] & -> & Hin). cbn in *. apply list_elem_of_fmap in Hin as (n'' & [= -> ->] & Hin).
    apply Hn in Hin as [w Hw]. congruence.
Qed.

Lemma padded_id f names : fold_ok getsizeof f -> (forall e, e ∈ f.(entries) -> forall name, name ∈ names <-> is_Some (e.2.(e_fields) !! name)) -> map (padded names) f.(entries) = f.(entries).
Proof.
  intros [] Hn. rewrite <- (map_id (entries f)) at 2. apply map_ext_in. intros [k [flds t c]] Hin%list_elem_of_In. unfold padded. cbn. rewrite pad_id by (by apply (Hn (k, Entry flds t c))).
  rewrite Forall_forall in fo_charge0. specialize (fo_charge0 _ Hin). cbn in fo_charge0. by rewrite <- fo_charge0.
Qed.
End Snapshot.
