(* ===== verification/KeyedStateUse.v ===== *)
(** * Keyed streaming state: the theorems

    What a micro-batch does to the key space and to the output; the invariant of every run; the
    round trip of a snapshot; and the key space of a checkpointed query, which after any crashes
    and restarts is the user function folded over the batches of the source, each once. *)

From Stdlib Require Import Floats.SpecFloat.
From S2P Require Import Prelude PyFloat PyDict CheckpointLogs CheckpointStore StreamEngine ExactlyOnce StreamAggregate ExprIR KeyedState KeyedStateSound.

(** ** One batch *)

Section Push.
Context {Row Out : Type} (cell : string -> Row -> scalar) (sort_rows : list Row -> list Row) (getsizeof : scalar -> Z).
Context (group_keys : list string) (input : list Row -> list (list Row)).
Context (fn : skey -> list Row -> option fields -> res (list Out * option returned)) (ttl cap : Z).
Abbreviation push := (KeyedState.push cell sort_rows getsizeof group_keys input fn ttl cap).
Abbreviation fold_batch := (KeyedState.fold_batch cell sort_rows getsizeof group_keys input fn ttl).
Abbreviation groups batch := (KeyedState.group_by cell sort_rows group_keys (input batch)).

(** What a key keeps at time [now]. *)
Definition alive (now : Z) (e : option entry) : option entry :=
  match e with Some e' => if (ttl <=? 0) || (now - ttl <=? e'.(e_touched)) then Some e' else None | None => None end.
(** Entries touched before this are not handed to the user function. *)
Definition horizon (now : Z) : option Z := if 0 <? ttl then Some (now - ttl) else None.

Lemma dget_filter (p : skey * entry -> bool) k d : dict_ok d ->
  dget k (List.filter p d) = match dget k d with Some e => if p (k, e) then Some e else None | None => None end.
Proof.
  unfold dict_ok. induction d as [|[k' e] d IH]; cbn; [done|]. intros [Hk Hd]%NoDup_cons. destruct (p (k', e)) eqn:Ep; cbn.
  - case_decide as E; [subst; by rewrite Ep|by apply IH].
  - case_decide as E; [|by apply IH]. subst. rewrite Ep, IH by done. assert (dget k' d = None) as -> by (by apply dget_None). done.
Qed.

Lemma fold_batch_ok now now' batch f : fold_ok getsizeof f -> fold_ok getsizeof (fold_batch now now' batch f).1.
Proof.
  intros Hf. unfold KeyedState.fold_batch. destruct batch as [|r rows]; [by apply expire_ok, set_dropped_ok|].
  set (g := tick now (set_dropped 0 f)). assert (fold_ok getsizeof g) as Hg by (by apply tick_ok, set_dropped_ok).
  destruct (push_groups_ok getsizeof fn (clock g) (horizon (clock g)) (groups (r :: rows)) [] g Hg eq_refl) as [Hp _]. unfold horizon in Hp.
  destruct (KeyedState.push_groups _ _ _ _ _ _ _) as [f' [out|e]]; cbn in *; [by apply expire_ok|done].
Qed.

Lemma push_ok now now' batch f : fold_ok getsizeof f -> fold_ok getsizeof (push now now' batch f).1.
Proof.
  intros Hf. pose proof (fold_batch_ok now now' batch f Hf) as Hb. unfold KeyedState.push.
  destruct batch, (fold_batch _ _ _ f) as [f' [out|e]]; try done. cbn in *. by case_match.
Qed.

(** C4: After a batch of plain keys the output is that of one call per key of the batch, with all its
    rows and its state unless it outlived its time to live; those keys keep what the calls
    returned, the others what they had, of both what is not stale; and the bytes are within the
    budget. *)
Theorem keyed_push_exact {key_le} `{!TableSort (key_of_row cell group_keys) sort_rows key_le} now now' batch f f' out :
  fold_ok getsizeof f -> batch <> [] -> Forall (fun r => plain_row cell group_keys r = true) (concat (input batch)) ->
  push now now' batch f = (f', Ok out) ->
  let n := Z.max f.(clock) now in
  (NoDup (map fst (groups batch)) /\
   forall k, default [] (dget k (groups batch)) ≡ₚ List.filter (fun r => bool_decide (key_of_row cell group_keys r = k)) (concat (input batch)) /\ dget k (groups batch) <> Some []) /\
  out = concat (map (emitted fn (horizon n) f.(entries)) (groups batch)) /\
  (forall k, dget k f'.(entries) = alive (Z.max n now') match dget k (groups batch) with
                                                       | Some rows => called getsizeof fn n (horizon n) k rows (dget k f.(entries))
                                                       | None => dget k f.(entries)
                                                       end) /\
  f'.(held) = total (fun e => e.(e_charge)) f'.(entries) /\ f'.(held) <= cap.
Proof.
  intros Hf Hne Hplain Hp n. pose proof (group_by_exact cell group_keys (input batch) Hplain) as Hgroups. cbv zeta in Hgroups. split; [exact Hgroups|].
  pose proof (push_ok now now' batch f Hf) as Hok. rewrite Hp in Hok. cbn in Hok. unfold KeyedState.push in Hp. destruct batch as [|r rows]; [done|]. unfold KeyedState.fold_batch in Hp.
  set (g := tick now (set_dropped 0 f)) in Hp. assert (fold_ok getsizeof g) as Hg by (by apply tick_ok, set_dropped_ok). fold (horizon (clock g)) in Hp.
  destruct (KeyedState.push_groups getsizeof fn (clock g) (horizon (clock g)) (groups (r :: rows)) [] g) as [g' [o|e]] eqn:Eg; [|done].
  pose proof (push_groups_ok getsizeof fn (clock g) (horizon (clock g)) (groups (r :: rows)) [] g Hg eq_refl) as [Hg' Hc']. rewrite Eg in Hg', Hc'. cbn [fst] in Hg', Hc'.
  destruct (push_groups_exact getsizeof fn _ _ _ _ _ _ _ (proj1 Hgroups) Eg) as [-> Hget]. destruct (held (expire ttl now' g') <=? cap) eqn:Eh; [|done]. injection Hp as <- <-. split; [done|]. split.
  - intros k. rewrite (expire_entries getsizeof) by done. rewrite Hc'. change (clock g) with n. specialize (Hget k). change (entries g) with (entries f) in Hget. change (clock g) with n in Hget. unfold alive.
    destruct (ttl <=? 0) eqn:Et; cbn [orb]; [rewrite Hget; by destruct (match dget k (groups _) with Some _ => _ | None => _ end)|].
    rewrite dget_filter by (by destruct Hg'). rewrite Hget. by destruct (match dget k (groups _) with Some _ => _ | None => _ end).
  - split; [by destruct Hok|lia].
Qed.

(** ** Runs *)

(** Batches with the readings of the clock they were pushed at, failed ones included. *)
Definition runs (bs : list (Z * Z * list Row)) : fold := foldl (fun f b => (push b.1.1 b.1.2 b.2 f).1) fresh_fold bs.

Lemma runs_ok bs : fold_ok getsizeof (runs bs).
Proof.
  unfold runs. generalize (fresh_fold_ok getsizeof). generalize fresh_fold. induction bs as [|b bs IH]; intros f Hf; cbn; [done|]. by apply IH, push_ok.
Qed.

Lemma push_groups_had now stale_before groups : forall out f, f.(had_state) = true ->
  (KeyedState.push_groups getsizeof fn now stale_before groups out f).1.(had_state) = true.
Proof.
  induction groups as [|[k rs] groups IH]; intros out f Hf; cbn -[check_state]; [done|]. destruct (fn _ _ _) as [[produced new]|]; [|done].
  assert ((forget k f).(had_state) = true) as Hg by (unfold forget; by destruct (dget _ _)).
  destruct new as [s|]; [destruct (check_state s); [by apply IH|done]|by apply IH].
Qed.

Lemma push_had now now' batch f : f.(had_state) = true -> (push now now' batch f).1.(had_state) = true.
Proof.
  intros Hf. assert ((fold_batch now now' batch f).1.(had_state) = true) as Hb.
  { unfold KeyedState.fold_batch. destruct batch as [|r rows]; [cbn [fst]; by rewrite expire_had|].
    pose proof (push_groups_had (clock (tick now (set_dropped 0 f))) (horizon (clock (tick now (set_dropped 0 f)))) (groups (r :: rows)) [] (tick now (set_dropped 0 f)) Hf) as Hp.
    unfold horizon in Hp. destruct (KeyedState.push_groups _ _ _ _ _ _ _) as [f' [out|e]]; cbn in *; [by rewrite expire_had|done]. }
  unfold KeyedState.push. destruct batch, (fold_batch _ _ _ f) as [f' [out|e]]; try done. cbn in *. by case_match.
Qed.

Lemma runs_had before since : (runs before).(had_state) = true -> (runs (before ++ since)).(had_state) = true.
Proof.
  unfold runs. rewrite foldl_app. generalize (foldl (fun f b => (push b.1.1 b.1.2 b.2 f).1) fresh_fold before). induction since as [|b since IH]; intros f Hf; cbn; [done|]. by apply IH, push_had.
Qed.

(** A key space that ever held a key writes something, or raises. *)
Lemma state_written array f : f.(had_state) = true -> KeyedState.state array group_keys f <> Ok None.
Proof.
  intros Hf. unfold KeyedState.state. destruct (entries f); [by rewrite Hf|]. unfold mbind, res_bind. by repeat case_match.
Qed.

(** C5: At every point of a run, failed batches included, a key is retained once, in the order of the
    last touch and no later than the clock; the running byte count is exactly what the retained
    entries cost; and once a key was held at any earlier point, the key space never writes nothing
    again: its snapshot is a batch, one without rows if every key is gone, or raises. *)
Theorem keyed_state_accounted bs :
  NoDup (map fst (runs bs).(entries)) /\
  StronglySorted (fun a b => a.2.(e_touched) <= b.2.(e_touched)) (runs bs).(entries) /\
  Forall (fun e => e.2.(e_touched) <= (runs bs).(clock)) (runs bs).(entries) /\
  (runs bs).(held) = foldr (fun e acc => entry_bytes getsizeof e.1 e.2.(e_fields) + acc) 0 (runs bs).(entries) /\
  (forall array before since, bs = before ++ since -> (runs before).(entries) <> [] -> KeyedState.state array group_keys (runs bs) <> Ok None).
Proof.
  pose proof (runs_ok bs) as [Hk Ho Hc Hch Hh _]. split_and!; try done.
  - rewrite Hh. clear - Hch. induction Hch as [|e es He _ IH]; cbn; [done|]. by rewrite He, IH.
  - intros array before since -> Hne. apply state_written. apply runs_had. by apply (fo_had _ _ (runs_ok before)).
Qed.
End Push.

(** ** Snapshots *)

(** C6: The snapshot of a key space whose columns have one type each, integers and stamps of 64
    bits, dates of the calendar and no more text in a column than one array takes (2 GiB),
    restores its keys, their order and stamps, with the fields of each key completed by nulls for
    the other keys' names, and the bytes those cost; where every key has the same fields, it
    restores exactly the entries. *)
Theorem keyed_snapshot_round_trip getsizeof array `{!ColumnArray array} group_keys key_types field_types f f0 :
  length key_types = length group_keys -> fold_ok getsizeof f -> Forall (entry_typed key_types field_types) f.(entries) -> columns_fit f.(entries) ->
  exists o, KeyedState.state array group_keys f = Ok o /\
    (KeyedState.restore getsizeof o f0).(entries) = map (padded getsizeof (field_names f.(entries))) f.(entries) /\
    fold_ok getsizeof (KeyedState.restore getsizeof o f0) /\
    ((forall e e', e ∈ f.(entries) -> e' ∈ f.(entries) -> dom e.2.(e_fields) = dom e'.2.(e_fields)) -> (KeyedState.restore getsizeof o f0).(entries) = f.(entries)).
Proof.
  intros Hlen Hf Ht Hfit. destruct (restore_exact getsizeof array group_keys key_types field_types Hlen f f0 Hf Ht Hfit) as (o & Es & Er & Hok & _). exists o. split_and!; [done..|].
  intros Hsame. rewrite Er. apply padded_id; [done|]. intros e He name. rewrite field_names_elem, <- elem_of_dom. split.
  - intros (e' & v & He' & Hv). rewrite (Hsame e e' He He'). by apply elem_of_dom.
  - intros [v Hv]%elem_of_dom. eauto.
Qed.

(** ** The processor *)

Section Processor.
Context {Row Out : Type} (cell : string -> Row -> scalar) (sort_rows : list Row -> list Row) (array : list scalar -> res (list scalar)) (getsizeof : scalar -> Z).
Context (group_keys : list string) (input : list Row -> list (list Row)) (retained_bytes : snapshot -> Z).
(** The user function, the state budget, and the two clock readings of the n-th batch a process
    pushes onto a key space. *)
Context (fn : skey -> list Row -> option fields -> res (list Out * option returned)) (cap : Z) (readings : nat -> fold -> Z * Z).
(** Keys Arrow and Python compare alike; a user function that, when it returns a state, returns
    fields of given names and types; readings of 64 bits; and the text of the state within what
    a column takes: none, or at most 1 GiB of state, where a text costs at least half its
    encoding. *)
Context (key_types : list stype) (field_types : gmap string stype).
Hypothesis key_types_len : length key_types = length group_keys.
Hypothesis cells_typed : forall r, plain_row cell group_keys r = true /\ Forall2 has_type key_types (key_of_row cell group_keys r).
Definition fields_typed (flds : fields) : Prop :=
  dom flds = dom field_types /\ forall name v, flds !! name = Some v -> exists t, field_types !! name = Some t /\ has_type t v.
Hypothesis fn_typed : forall k rows prev out s flds, fn k rows prev = Ok (out, Some s) -> check_state s = Ok flds -> fields_typed flds.
Hypothesis readings_fit : forall n f, fits64 (readings n f).1 = true /\ fits64 (readings n f).2 = true.
Hypothesis getsizeof_text : forall v, text_bytes v <= 2 * getsizeof v.
Definition textless (t : stype) : Prop := t <> TStr /\ t <> TBytes.
Hypothesis text_fits : cap <= 2 ^ 30 \/ Forall textless key_types /\ map_Forall (fun _ => textless) field_types.
Context `{!ColumnArray array}.

Abbreviation push := (KeyedState.push cell sort_rows getsizeof group_keys input fn 0 cap).
Abbreviation fold_batch := (KeyedState.fold_batch cell sort_rows getsizeof group_keys input fn 0).
Abbreviation push_groups := (KeyedState.push_groups getsizeof fn).
Abbreviation group_by := (KeyedState.group_by cell sort_rows group_keys).
Abbreviation state := (KeyedState.state array group_keys).

(** The key spaces of such a query, within a batch and between batches. *)
Definition tidy (f : fold) : Prop :=
  fold_ok getsizeof f /\ Forall (entry_typed key_types field_types) f.(entries) /\ Forall (fun e => dom e.2.(e_fields) = dom field_types) f.(entries) /\ fits64 f.(clock) = true.
Definition valid (f : fold) : Prop := tidy f /\ f.(held) <= Z.max 0 cap.

Lemma cut_keys first prev group rows k rs : (k, rs) ∈ cut cell group_keys first prev group rows -> exists r, k = key_of_row cell group_keys r.
Proof.
  revert first prev group. induction rows as [|r rows IH]; intros first prev group; cbn; [intros [[= -> ->]|Hn]%elem_of_cons; [eauto|by apply not_elem_of_nil in Hn]|].
  case_match; [apply IH|]. intros [[= -> ->]|Hn]%elem_of_cons; [eauto|by eapply IH].
Qed.

Lemma group_by_keys batches k rs : (k, rs) ∈ group_by batches -> exists r, k = key_of_row cell group_keys r.
Proof. unfold KeyedState.group_by. case_match; [by intros ?%not_elem_of_nil|apply cut_keys]. Qed.

(** What a call that returns leaves for its key. *)
Definition next_fields (k : skey) (rows : list Row) (prev : option fields) : option fields :=
  match fn k rows prev with
  | Ok (_, Some s) => match check_state s with Ok flds => Some flds | Raise _ => None end
  | _ => None
  end.
Definition group_step (k : skey) (prev : option fields) (g : skey * list Row) : option fields :=
  if decide (g.1 = k) then next_fields k g.2 prev else prev.

Lemma forget_tidy k f : tidy f -> tidy (forget k f).
Proof.
  intros (H1 & H2 & H3 & H4). unfold tidy. rewrite forget_entries, forget_clock. split_and!; [by apply forget_ok|by apply Forall_dpop..|done].
Qed.

Lemma store_tidy k flds f : tidy f -> dget k f.(entries) = None -> Forall2 has_type key_types k -> fields_typed flds -> tidy (store getsizeof k flds f.(clock) f).
Proof.
  intros (H1 & H2 & H3 & H4) Hd Hk [Hdom Hty]. unfold tidy. rewrite (store_entries getsizeof _ _ _ _ Hd). split_and!.
  - apply store_ok; [done|done| |lia]. destruct H1. eapply Forall_impl; [exact fo_clock|]. intros e He. cbn in *. lia.
  - apply Forall_app. by repeat constructor.
  - apply Forall_app. by repeat constructor.
  - done.
Qed.

Lemma live_none e : live_fields None e = e_fields <$> e.
Proof. by destruct e. Qed.

(** A batch that does not raise keeps the types and folds the user function over its groups. *)
Lemma push_groups_tidy groups : forall out f f' out', tidy f -> (forall k rs, (k, rs) ∈ groups -> Forall2 has_type key_types k) ->
  push_groups f.(clock) None groups out f = (f', Ok out') ->
  tidy f' /\ forall k, e_fields <$> dget k f'.(entries) = foldl (group_step k) (e_fields <$> dget k f.(entries)) groups.
Proof.
  induction groups as [|[k rs] groups IH]; intros out f f' out' Hf Hk; cbn -[check_state]; [by intros [= <- <-]|].
  rewrite live_none. destruct (fn k rs (e_fields <$> dget k (entries f))) as [[produced new]|e] eqn:Eu; [|done].
  assert (next_fields k rs (e_fields <$> dget k (entries f)) = match new with Some s => match check_state s with Ok flds => Some flds | Raise _ => None end | None => None end) as Hnext by (unfold next_fields; by rewrite Eu).
  pose proof (forget_tidy k f Hf) as Hg. pose proof (forget_clock k f) as Hc.
  assert (dget k (entries (forget k f)) = None) as Hd by (rewrite forget_entries, dget_dpop; by rewrite decide_True).
  assert (forall q, q <> k -> dget q (entries (forget k f)) = dget q (entries f)) as Hq by (intros q Hne; rewrite forget_entries, dget_dpop; by rewrite decide_False).
  assert (forall q rs', (q, rs') ∈ groups -> Forall2 has_type key_types q) as Hk' by (intros; eapply Hk; by right).
  destruct new as [s|]; cbn -[check_state].
  - destruct (check_state s) as [flds|e] eqn:Ec; [|done]. set (g := store getsizeof k flds (clock f) (forget k f)).
    assert (tidy g) as Hgv. { unfold g. rewrite <- Hc. apply store_tidy; [done|done|apply (Hk k rs); left|by eapply fn_typed]. }
    intros E. assert (clock g = clock f) as Hcg by done. rewrite <- Hcg in E. destruct (IH _ g f' out' Hgv Hk' E) as (Hv & Hget). split; [done|]. intros q. rewrite Hget. f_equal. unfold group_step, g. cbn [store entries fst snd]. rewrite dget_dset.
    destruct (decide (k = q)) as [<-|Hne]; [by rewrite Hnext, decide_True|by rewrite decide_False, Hq].
  - intros E. rewrite <- Hc in E. destruct (IH _ _ f' out' Hg Hk' E) as (Hv & Hget). split; [done|]. intros q. rewrite Hget. f_equal. unfold group_step. cbn [fst snd].
    destruct (decide (k = q)) as [<-|Hne]; [by rewrite Hd, Hnext|by rewrite Hq].
Qed.

(** The user function folded over one key's groups of a batch. *)
Definition key_step (k : skey) (prev : option fields) (batch : list Row) : option fields :=
  match batch with
  | [] => prev
  | _ => foldl (group_step k) prev (group_by (input batch))
  end.

Lemma tick_tidy now f : fits64 now = true -> tidy f -> tidy (tick now (set_dropped 0 f)).
Proof.
  intros Hn (H1 & H2 & H3 & H4). unfold tidy. split_and!; [by apply tick_ok, set_dropped_ok|done|done|]. cbn [tick set_dropped clock]. rewrite fits64_range in *. lia.
Qed.

Lemma push_valid now now' batch f f' out : fits64 now = true -> valid f -> push now now' batch f = (f', Ok out) ->
  valid f' /\ forall k, e_fields <$> dget k f'.(entries) = key_step k (e_fields <$> dget k f.(entries)) batch.
Proof.
  intros Hn [Hf Hheld] Hp. unfold KeyedState.push, KeyedState.fold_batch in Hp. destruct batch as [|r rows].
  { injection Hp as <- <-. split; [|done]. split; [|done]. destruct Hf as (H1 & H2 & H3 & H4). split_and!; [by do 2 apply set_dropped_ok|done..]. }
  pose proof (tick_tidy now f Hn Hf) as Hg. set (g := tick now (set_dropped 0 f)) in *. change (if 0 <? 0 then Some (clock g - 0) else None) with (@None Z) in Hp.
  destruct (push_groups (clock g) None (group_by (input (r :: rows))) [] g) as [g' [o|e]] eqn:Eg; [|done].
  destruct (push_groups_tidy _ _ _ _ _ Hg ltac:(intros k rs (x & ->)%group_by_keys; apply (cells_typed x)) Eg) as [(H1 & H2 & H3 & H4) Hget].
  unfold expire in Hp. cbn [orb Z.leb] in Hp. destruct (held _ <=? cap) eqn:Eh; [|done]. injection Hp as <- <-. split; [|exact Hget].
  split; [split_and!; [by apply set_dropped_ok|done..]|]. cbn in *. lia.
Qed.

(** *** The columns of a key space within its budget *)

Lemma text_total_map {A} (g : A -> scalar) (h : A -> Z) l : (forall x, x ∈ l -> text_bytes (g x) <= h x) -> text_total (map g l) <= foldr (fun x acc => h x + acc) 0 l.
Proof.
  unfold text_total. induction l as [|x l IH]; cbn; intros Hg; [lia|]. pose proof (Hg x ltac:(left)). specialize (IH (fun y Hy => Hg y ltac:(by right))). lia.
Qed.

Lemma value_bytes_text v : text_bytes v + 128 <= 2 * value_bytes getsizeof v /\ 0 <= text_bytes v.
Proof. pose proof (getsizeof_text v). unfold value_bytes, SLOT_BYTES. destruct v; cbn [text_bytes variable_width] in *; lia. Qed.

Lemma values_bytes_elem vs v : v ∈ vs -> text_bytes v <= 2 * foldr (fun v acc => value_bytes getsizeof v + acc) 0 vs.
Proof.
  assert (forall vs, 0 <= foldr (fun v acc => value_bytes getsizeof v + acc) 0 vs) as Hpos.
  { intros ws. induction ws as [|w ws IH]; cbn; [lia|]. pose proof (value_bytes_text w). lia. }
  induction vs as [|w vs IH]; [by intros ?%not_elem_of_nil|]. cbn. intros [->|Hv]%elem_of_cons; [pose proof (value_bytes_text w); pose proof (Hpos vs); lia|].
  specialize (IH Hv). pose proof (value_bytes_text w). lia.
Qed.

Lemma value_in_entry k (flds : fields) v : v = SNone \/ v ∈ k \/ (exists name, flds !! name = Some v) -> text_bytes v + 128 <= 2 * entry_bytes getsizeof k flds.
Proof.
  intros Hv. unfold entry_bytes, SLOT_BYTES. assert (text_bytes v <= 2 * foldr (fun v acc => value_bytes getsizeof v + acc) 0 (k ++ map snd (map_to_list flds))); [|lia].
  destruct Hv as [->|Hv].
  - cbn. generalize (k ++ map snd (map_to_list flds)). intros l. induction l as [|w l IH]; cbn; [lia|]. pose proof (value_bytes_text w). lia.
  - apply values_bytes_elem, elem_of_app. destruct Hv as [Hv|[name Hv]]; [by left|right]. apply list_elem_of_fmap. exists (name, v). split; [done|]. by apply elem_of_map_to_list.
Qed.

Lemma charges_bound es : Forall (fun e => e.2.(e_charge) = entry_bytes getsizeof e.1 e.2.(e_fields)) es -> es <> [] ->
  foldr (fun e acc => (2 * entry_bytes getsizeof e.1 e.2.(e_fields) - 128) + acc) 0 es + 128 <= 2 * total e_charge es.
Proof.
  induction 1 as [|e es He Hes IH]; [done|]. intros _. cbn. rewrite He. destruct es as [|e' es]; [cbn; lia|]. specialize (IH ltac:(done)). cbn in *. lia.
Qed.

Lemma column_text (g : skey * entry -> scalar) f : valid f -> (forall e, e ∈ f.(entries) -> g e = SNone \/ g e ∈ e.1 \/ exists name, e.2.(e_fields) !! name = Some (g e)) ->
  cap <= 2 ^ 30 -> text_total (map g f.(entries)) <= TEXT_LIMIT.
Proof.
  intros [([_ _ _ Hch Hheld _] & _) Hcap] Hg Hle. unfold TEXT_LIMIT. destruct (decide (entries f = [])) as [->|Hne]; [cbn; lia|].
  pose proof (charges_bound _ Hch Hne) as Hb. rewrite <- Hheld in Hb.
  pose proof (text_total_map g (fun e => 2 * entry_bytes getsizeof e.1 e.2.(e_fields) - 128) (entries f)) as Ht.
  assert (text_total (map g (entries f)) <= foldr (fun e acc => (2 * entry_bytes getsizeof e.1 e.2.(e_fields) - 128) + acc) 0 (entries f)); [|lia].
  apply Ht. intros e He. pose proof (value_in_entry e.1 (e_fields e.2) (g e) (Hg e He)). lia.
Qed.

Lemma textless_bytes t v : textless t -> has_type t v -> text_bytes v = 0.
Proof. intros [H1 H2] [->|Hv]; [done|]. destruct v; cbn in *; try done; by simplify_eq. Qed.

Lemma valid_fit f : valid f -> columns_fit f.(entries).
Proof.
  intros Hv. destruct text_fits as [Hle|[Hk Hn]]; [split|].
  - intros i. apply column_text; [done| |done]. intros e _. destruct (decide (i < length e.1)%nat) as [Hi|Hi].
    + right. left. destruct (lookup_lt_is_Some_2 e.1 i Hi) as [v Ev]. erewrite nth_lookup_Some by exact Ev. by eapply list_elem_of_lookup_2.
    + left. apply nth_overflow. lia.
  - intros name. apply column_text; [done| |done]. intros e _. destruct (e_fields e.2 !! name) eqn:E; cbn; [|by left]. right. right. by exists name.
  - apply textless_fit. destruct Hv as [(_ & Ht & _) _]. eapply Forall_impl; [exact Ht|]. intros e (Hty & Hft & _). split.
    + clear -Hk Hty. induction Hty as [|t v ts vs Htv _ IH]; [done|]. apply Forall_cons in Hk as [Ht Hk]. constructor; [by eapply textless_bytes|by apply IH].
    + intros name v E. destruct (Hft _ _ E) as (t & Et & Htv). apply (textless_bytes t); [|done]. by apply (Hn name t).
Qed.

(** *** The processor and its laws *)

(** Two folds no output tells apart: the same keys and fields in the same order. *)
Definition same_space (f f' : fold) : Prop :=
  map (fun e => (e.1, e.2.(e_fields))) f.(entries) = map (fun e => (e.1, e.2.(e_fields))) f'.(entries) /\ f.(had_state) = f'.(had_state).

Lemma same_space_get f f' k : same_space f f' -> e_fields <$> dget k f.(entries) = e_fields <$> dget k f'.(entries).
Proof.
  intros [E _]. revert E. generalize (entries f) (entries f'). induction l as [|[q e] l IH]; intros [|[q' e'] l']; cbn; try done. intros [= -> E1 E2]. case_decide; cbn; [by rewrite E1|by apply IH].
Qed.

Lemma same_space_forget f f' k : same_space f f' -> same_space (forget k f) (forget k f').
Proof.
  intros [E Eh]. split.
  - rewrite !forget_entries. unfold dpop. revert E. generalize (entries f) (entries f'). induction l as [|[q e] l IH]; intros [|[q' e'] l']; cbn; try done. intros [= -> E1 E2].
    case_bool_decide; cbn; [|by apply IH]. by rewrite E1, (IH _ E2).
  - unfold forget. by destruct (dget k (entries f)), (dget k (entries f')).
Qed.

Lemma same_space_store f f' k flds t t' : same_space f f' -> same_space (store getsizeof k flds t f) (store getsizeof k flds t' f').
Proof.
  intros [E _]. split; [|done]. cbn. revert E. generalize (entries f) (entries f'). induction l as [|[q e] l IH]; intros [|[q' e'] l']; cbn; try done. intros [= -> E1 E2].
  case_decide; cbn; [by rewrite E2|]. by rewrite E1, (IH _ E2).
Qed.

Lemma same_space_groups groups : forall out f f' n n', same_space f f' ->
  same_space (push_groups n None groups out f).1 (push_groups n' None groups out f').1 /\ (push_groups n None groups out f).2 = (push_groups n' None groups out f').2.
Proof.
  induction groups as [|[k rs] groups IH]; intros out f f' n n' Hs; cbn -[check_state]; [done|]. rewrite !live_none, (same_space_get f f' k Hs).
  destruct (fn _ _ _) as [[produced [s|]]|e]; cbn -[check_state]; [|by apply IH, same_space_forget|done].
  destruct (check_state s); [by apply IH, same_space_store, same_space_forget|]. split; [by apply same_space_forget|done].
Qed.

Lemma same_space_batch now now1 now' now1' batch f f' : same_space f f' ->
  same_space (fold_batch now now1 batch f).1 (fold_batch now' now1' batch f').1 /\ (fold_batch now now1 batch f).2 = (fold_batch now' now1' batch f').2.
Proof.
  intros Hs. unfold KeyedState.fold_batch. destruct batch as [|r rows]; [done|]. change (if 0 <? 0 then ?a else None) with (@None Z).
  destruct (same_space_groups (group_by (input (r :: rows))) [] (tick now (set_dropped 0 f)) (tick now' (set_dropped 0 f')) (clock (tick now (set_dropped 0 f))) (clock (tick now' (set_dropped 0 f'))) Hs) as [Hp Eo].
  destruct (KeyedState.push_groups _ _ _ _ _ _ (tick now (set_dropped 0 f))) as [g [o|e]], (KeyedState.push_groups _ _ _ _ _ _ (tick now' (set_dropped 0 f'))) as [g' [o'|e']]; cbn in *; done.
Qed.

(** The bytes are those of the keys and the fields. *)
Lemma same_space_held f f' : fold_ok getsizeof f -> fold_ok getsizeof f' -> same_space f f' -> f.(held) = f'.(held).
Proof.
  intros [_ _ _ Hc Hh _] [_ _ _ Hc' Hh' _] [E _]. rewrite Hh, Hh'. revert E Hc Hc'. generalize (entries f) (entries f').
  intros es. induction es as [|[k e] es IH]; intros [|[k' e'] es']; cbn; try done. intros [= -> E1 E2] [Hc Hcs]%Forall_cons [Hc' Hcs']%Forall_cons. cbn in *. rewrite Hc, Hc', E1. by rewrite (IH es').
Qed.

Lemma same_space_push now now1 now' now1' batch f f' : fold_ok getsizeof f -> fold_ok getsizeof f' -> same_space f f' ->
  same_space (push now now1 batch f).1 (push now' now1' batch f').1 /\ (push now now1 batch f).2 = (push now' now1' batch f').2.
Proof.
  intros Hf Hf' Hs. destruct (same_space_batch now now1 now' now1' batch f f' Hs) as [H1 H2].
  pose proof (fold_batch_ok cell sort_rows getsizeof group_keys input fn 0 now now1 batch f Hf) as Hok. pose proof (fold_batch_ok cell sort_rows getsizeof group_keys input fn 0 now' now1' batch f' Hf') as Hok'.
  unfold KeyedState.push. destruct batch as [|r rows]; [done|]. destruct (fold_batch _ _ _ f) as [g [o|e]], (fold_batch _ _ _ f') as [g' [o'|e']]; cbn in *; try done.
  rewrite (same_space_held g g') by done. by destruct (held g' <=? cap).
Qed.

(** Whether a snapshot is written. *)
Lemma state_none f : valid f -> state f = Ok None <-> f.(had_state) = false.
Proof.
  intros Hv. pose proof (valid_fit f Hv) as Hfit. destruct Hv as [(Hf & Ht & _) _]. rewrite (state_exact array group_keys key_types field_types key_types_len f Ht Hfit). destruct (entries f) eqn:Ee; [by destruct (had_state f)|].
  destruct Hf. rewrite fo_had; [done|by rewrite Ee].
Qed.

Lemma state_ok f : valid f -> exists o, state f = Ok o.
Proof. intros Hv. eexists. apply (state_exact array group_keys key_types field_types key_types_len); [apply Hv|by apply valid_fit]. Qed.

Lemma restore_clock (t : snapshot) f0 : clock (restore getsizeof (Some t) f0) = clock f0 \/ clock (restore getsizeof (Some t) f0) = Z.max (clock f0) (row_stamp t (default 0%nat (last (py_sorted (fun i k => row_stamp t i <? row_stamp t k) (seq 0 (length t.(s_touched))))))).
Proof.
  cbn. destruct (s_touched t) eqn:Et; [by left|]. right. cbn [clock]. f_equal. rewrite <- Et. generalize (py_sorted (fun i k => row_stamp t i <? row_stamp t k) (seq 0 (length (s_touched t)))). intros idx.
  assert (forall f, clock (foldl (fun f i => store getsizeof (row_key t i) (row_fields t i) (row_stamp t i) f) f idx) = clock f) as H; [|by rewrite H].
  clear Et. induction idx as [|i idx IH]; intros f; cbn; [done|]. by rewrite IH.
Qed.

Lemma stamps_fit f t : state f = Ok (Some t) -> forall i, fits64 (row_stamp t i) = true.
Proof.
  unfold KeyedState.state. destruct (entries f) as [|e es] eqn:Ee; [destruct (had_state f); [|done]; intros [= <-] i; unfold row_stamp; by destruct i|]. rewrite <- Ee.
  unfold mbind, res_bind, stamp_column. repeat case_match; try done. intros [= <-] i. simplify_eq. unfold row_stamp. cbn. match goal with H : forallb _ _ = true |- _ => rename H into Hb end.
  rewrite forallb_forall in Hb. destruct (decide (i < length (map (fun e => e_touched e.2) (entries f)))%nat) as [Hi|Hi]; [apply Hb, nth_In; lia|by rewrite nth_overflow by lia].
Qed.

Lemma restore_valid f f0 t : valid f -> fits64 f0.(clock) = true -> state f = Ok (Some t) -> valid (restore getsizeof (Some t) f0) /\ same_space (restore getsizeof (Some t) f0) f.
Proof.
  intros Hv Hc Es. assert (had_state f = true) as Hh by (destruct (had_state f) eqn:E; [done|]; apply state_none in E; [congruence|done]). pose proof (valid_fit f Hv) as Hfit. destruct Hv as [(Hf & Ht & Hd & _) Hheld].
  destruct (restore_exact getsizeof array group_keys key_types field_types key_types_len f f0 Hf Ht Hfit) as (o & Es' & Er & Hok & Hhad). rewrite Es in Es'. injection Es' as <-.
  assert (entries (restore getsizeof (Some t) f0) = entries f) as Ee.
  { rewrite Er. apply padded_id; [done|]. intros e He name. rewrite Forall_forall in Hd. rewrite field_names_elem, <- elem_of_dom. split.
    - intros (e' & v & He' & Hv'). rewrite (Hd e He), <- (Hd e' He'). by apply elem_of_dom.
    - intros [v Hv']%elem_of_dom. eauto. }
  assert (same_space (restore getsizeof (Some t) f0) f) as Hsame by (split; [by rewrite Ee|]; rewrite Hh; by apply Hhad).
  split; [|done]. split; [split_and!; [done|by rewrite Ee|by rewrite Ee|]|by rewrite (same_space_held _ f)].
  destruct (restore_clock t f0) as [->| ->]; [done|]. pose proof (stamps_fit f t Es) as Hst. set (i := default 0%nat _). specialize (Hst i). rewrite fits64_range in *. lia.
Qed.

(** A key space and how many batches this process pushed onto one. *)
Definition space : Type := fold * nat.

(** [process]: the batches with rows of [push]. *)
Definition process (s : space) (batch : list Row) : space * res (list (list Out)) :=
  let '(now, now') := readings s.2 s.1 in
  match push now now' batch s.1 with
  | (f, Ok out) => ((f, S s.2), Ok (List.filter (fun rows => negb (length rows =? 0)%nat) out))
  | (f, Raise err) => ((f, S s.2), Raise err)
  end.
(** [snapshot_state]; it does not raise for a key space of [valid] ([state_ok]). *)
Definition snapshot_state (s : space) : option snapshot := match state s.1 with Ok o => o | Raise _ => None end.
Definition restore_state (t : snapshot) (s : space) : space := (restore getsizeof (Some t) s.1, s.2).

(** [KeyedStateProcessor], for a query without a time to live; it has no deltas and nothing to
    flush, and the runner restores the base of a chain ([LocalRunner.restore_state_chain]). *)
Definition keyed_processor : Processor space (list Row) (list Out) snapshot := {|
  p_init := (fresh_fold, 0%nat);
  p_process := process;
  p_replaces_output := false;
  p_finalize s := (s, []);
  p_has_state := true;
  p_snapshot := snapshot_state;
  p_snapshot_parts := None;
  p_delta := None;
  p_restore := restore_state;
  p_restore_chain ts s := match ts with t :: _ => restore_state t s | [] => s end;
  p_num_rows rows := Z.of_nat (length rows);
  p_bytes := retained_bytes;
|}.

Lemma fresh_valid : valid fresh_fold.
Proof. split; [split_and!; [apply fresh_fold_ok|done..]|]. cbn. lia. Qed.

Lemma process_valid s batch s1 out : valid s.1 -> process s batch = (s1, Ok out) ->
  valid s1.1 /\ (s.1.(had_state) = true -> s1.1.(had_state) = true) /\ forall k, e_fields <$> dget k s1.1.(entries) = key_step k (e_fields <$> dget k s.1.(entries)) batch.
Proof.
  intros Hv. unfold process. pose proof (readings_fit s.2 s.1) as [Hn _]. destruct (readings s.2 s.1) as [now now']. cbn in Hn.
  pose proof (push_had cell sort_rows getsizeof group_keys input fn 0 cap now now' batch s.1) as Hhad.
  destruct (push now now' batch s.1) as [f [o|e]] eqn:Ep; [|done]. intros [= <- <-]. destruct (push_valid now now' batch s.1 f o Hn Hv Ep). done.
Qed.

Lemma process_same s s' batch : valid s.1 -> valid s'.1 -> same_space s.1 s'.1 ->
  (process s batch).2 = (process s' batch).2 /\ same_space (process s batch).1.1 (process s' batch).1.1.
Proof.
  intros [[Hf _] _] [[Hf' _] _] Hs. unfold process. destruct (readings s.2 s.1) as [n n1], (readings s'.2 s'.1) as [m m1]. destruct (same_space_push n n1 m m1 batch s.1 s'.1 Hf Hf' Hs) as [H1 H2].
  destruct (push n n1 batch s.1) as [f [o|e]], (push m m1 batch s'.1) as [f' [o'|e']]; cbn in *; by simplify_eq.
Qed.

Lemma snapshot_state_some s t : valid s.1 -> snapshot_state s = Some t <-> state s.1 = Ok (Some t).
Proof. intros Hv. unfold snapshot_state. destruct (state_ok s.1 Hv) as [o ->]. split; [by intros ->|by intros [= ->]]. Qed.

Lemma snapshot_state_none s : valid s.1 -> snapshot_state s = None <-> s.1.(had_state) = false.
Proof. intros Hv. rewrite <- (state_none s.1 Hv). unfold snapshot_state. destruct (state_ok s.1 Hv) as [o ->]. split; [by intros ->|by intros [= ->]]. Qed.

(** The chain that stands for a key space: nothing before the first key, then one snapshot. *)
Definition space_repr (c : list snapshot) (s : space) : Prop :=
  match c with
  | [] => s.1.(had_state) = false
  | [t] => exists g, valid g /\ state g = Ok (Some t) /\ same_space g s.1
  | _ => False
  end.

Lemma never_had f : fold_ok getsizeof f -> f.(had_state) = false -> f.(entries) = [].
Proof. intros [] Hh. destruct (entries f) eqn:E; [done|]. by rewrite fo_had in Hh. Qed.

Lemma written_had g t : valid g -> state g = Ok (Some t) -> g.(had_state) = true.
Proof. intros Hv E. destruct (had_state g) eqn:Eh; [done|]. apply (state_none g Hv) in Eh. congruence. Qed.

Lemma snap_space s : snap_parts (Processor0 := keyed_processor) s = match snapshot_state s with Some t => [t] | None => [] end.
Proof. done. Qed.

Lemma snap_had s : valid s.1 -> snap_parts (Processor0 := keyed_processor) s = [] <-> s.1.(had_state) = false.
Proof. intros Hv. rewrite <- snapshot_state_none by done. rewrite snap_space. by destruct (snapshot_state s). Qed.

Lemma snap_had_not s : valid s.1 -> snap_parts (Processor0 := keyed_processor) s <> [] <-> s.1.(had_state) = true.
Proof. intros Hv. rewrite snap_had by done. by destruct (had_state s.1). Qed.

Definition keyed_laws : @ProcessorLaws space (list Row) (list Out) snapshot keyed_processor.
Proof.
  refine (@Build_ProcessorLaws _ _ _ _ keyed_processor (fun s s' => same_space s.1 s'.1) _ (fun s => valid s.1) (fun s => fits64 s.1.(clock) = true)
            _ _ _ _ _ _ _ _ _ space_repr _ _ _ _ _ _ _ _ _ _ _ _ _ _); unfold space_repr; cbn -[snap_parts process restore].
  - split; [by intros ?|by intros ? ? []|intros x y z [] []; split; congruence].
  - apply fresh_valid.
  - done.
  - intros s b s1 out Hv Hp. by apply (process_valid s b s1 out).
  - done.
  - done.
  - intros s s' b Hv Hv' Hs. destruct (process_same s s' b Hv Hv' Hs). by split.
  - done.
  - lia.
  - done.
  - intros [|t [|t' c]] s s' [E Eh]; [congruence| |done]. intros (g & Hg & Eg & E' & Eh'). exists g. split_and!; [done..|]. split; congruence.
  - done.
  - intros s Hv Hne. rewrite snap_space in *. destruct (snapshot_state s) as [t|] eqn:E; [|done]. exists s.1. split_and!; [done|by apply snapshot_state_some|done..].
  - intros s Hv. by apply snap_had.
  - intros [|t [|t' c]] s Hv Hs; [done| |done]. intros (g & Hg & Eg & _ & Eh). apply (snap_had s Hv) in Hs. apply (written_had g t Hg) in Eg. congruence.
  - intros s s' Hv Hv' [_ Eh]. rewrite !snap_had_not by done. congruence.
  - intros s b s1 out Hv Hp. destruct (process_valid s b s1 out Hv Hp) as (Hv1 & Hh & _). rewrite !snap_had_not by done. done.
  - done.
  - intros s [[Hf _] _] Hs. split; [by rewrite (never_had _ Hf Hs)|done].
  - intros t s s0 Hv Hb (g & Hg & Eg & E' & Eh'). destruct (restore_valid g s0.1 t Hg Hb Eg) as [Hr [E Eh]]. split; [|exact Hr]. split; [exact (eq_trans E E')|exact (eq_trans Eh Eh')].
  - done.
  - done.
  - done.
  - done.
Defined.

(** *** The key space of a checkpointed query *)

Lemma keyed_ideal {Log J} `{!ReplayableSource Log J (list Row)} (log : Log) h (c : J) s :
  ideal (Processor0 := keyed_processor) log h c s ->
  reads log src_start (data_of h) c /\ forall k, e_fields <$> dget k s.1.(entries) = foldl (key_step k) None (data_of h).
Proof.
  induction 1 as [|h c s b c' s1 out Hi [Hr Hs] Hread Hp|h c s Hi [Hr Hs]|h c s Hi [Hr Hs]]; unfold data_of in *; rewrite ?omap_app; cbn [omap list_omap]; rewrite ?app_nil_r.
  - split; [constructor|done].
  - split; [by econstructor|]. pose proof (ideal_wf (ProcessorLaws0 := keyed_laws) _ _ _ _ Hi) as Hv. intros k. rewrite foldl_snoc, <- Hs. by apply (process_valid s b s1 out).
  - done.
  - done.
Qed.

(** C3: The state of a checkpointed keyed query without a time to live is exact under failures.
    The keys have one type per component, are neither NaN nor minus zero, and the states the user
    function returns have one set of field names with one type each; integers and clock readings
    are of 64 bits, and state with text has a budget of at most 1 GiB.  After any interleaving of
    micro-batches, batches that raise (the user function, a state it may not return, the budget),
    crashes followed by a fresh process, in-process restarts that find a snapshot to restore, and
    source growth, the state the running query keeps for a key is the user function folded over
    that key's rows of the batches read successively from the start of the source: each batch
    once, none skipped.  A flush is taken as in [exactly_once]; [restored_fields_padded] shows a
    restart where two keys' field names differ. *)
Theorem keyed_state_exact {OL CL Log J} `{!OffsetLog OL J} `{!CommitLog CL} `{!ReplayableSource Log J (list Row)} (finalize_doc : J) part_path interval
    (log0 log : Log) (d : durable OL CL snapshot (list Out)) (e : engine J space) :
  rtc (step (ProcessorLaws0 := keyed_laws) finalize_doc part_path interval) (log0, empty_durable, fresh_engine (Processor0 := keyed_processor)) (log, d, e) ->
  exists bs, reads log src_start bs e.(cursor) /\ forall k, e_fields <$> dget k e.(pstate).1.(entries) = foldl (key_step k) None bs.
Proof.
  intros Hr. apply (reachable_Inv (ProcessorLaws0 := keyed_laws)) in Hr as (h & f & HI & _). destruct (di_reaches _ _ _ _ _ _ HI) as (_ & s & Hi & Heq).
  apply keyed_ideal in Hi as [Hrd Hs]. exists (data_of h). split; [done|]. intros k. rewrite <- Hs. symmetry. by apply same_space_get.
Qed.
End Processor.

(** ** Examples

    Rows [(key, value)] of 64-bit cells; the user function counts a key's rows and emits the
    count. *)

Module Demo.
Definition cell (name : string) (r : Z * Z) : scalar := SInt (wrap64 (if bool_decide (name = "k") then r.1 else r.2)).
Definition sort_rows (rows : list (Z * Z)) : list (Z * Z) := py_sorted (fun a b => wrap64 a.1 <? wrap64 b.1) rows.
Definition key_le (a b : skey) : Prop := match a, b with [SInt x], [SInt y] => x <= y | _, _ => False end.
Definition getsizeof (v : scalar) : Z := match v with SStr s | SBytes s => 49 + Z.of_nat (String.length s) | _ => 28 end.
Definition input (rows : list (Z * Z)) : list (list (Z * Z)) := [rows].
Definition array (l : list scalar) : res (list scalar) := Ok l.

Definition counted (prev : option fields) : Z := match prev with Some f => match f !! "n" with Some (SInt n) => n | _ => 0 end | None => 0 end.
Definition count_fn (k : skey) (rows : list (Z * Z)) (prev : option fields) : res (list Z * option returned) :=
  let n := counted prev + Z.of_nat (length rows) in
  if fits64 n then Ok ([n], Some (Mapping {["n" := SInt n]})) else Raise "OverflowError".
Definition push (ttl cap : Z) := KeyedState.push cell sort_rows getsizeof ["k"] input count_fn ttl cap.

#[export] Instance demo_sort : TableSort (key_of_row cell ["k"]) sort_rows key_le.
Proof.
  split.
  - intros l. apply py_sorted_perm.
  - intros l. eapply StronglySorted_imp; [|apply (py_sorted_ordered _ (fun _ => True)); [by apply Forall_forall|cbn; intros; lia..]]. intros a b H. apply Z.ltb_ge in H. exact H.
  - intros [|[] [|]] [|[] [|]]; cbn; try done. intros. do 2 f_equal. lia.
Qed.
#[export] Instance demo_array : ColumnArray array.
Proof. done. Qed.

(** Keys 1 and 2 at time 100, key 2 again at 105. *)
Definition held_keys : fold := (push 10 1000 105 105 [(2, 0)] (push 10 1000 100 100 [(1, 0); (2, 0); (1, 0)] fresh_fold).1).1.
(** At 112 key 1 outlived its ten microseconds; with new rows it starts over. *)
Definition late := push 10 1000 112 112 [(1, 0); (2, 0)] held_keys.

Lemma held_keys_ok : fold_ok getsizeof held_keys.
Proof. apply push_ok, push_ok, fresh_fold_ok. Qed.

Lemma keyed_push_exact_witness :
  late.2 = Ok [[1]; [3]] /\ forall k, dget k late.1.(entries) =
    alive 10 112 match dget k [([SInt 1], [(1, 0)]); ([SInt 2], [(2, 0)])] with
                 | Some rows => called getsizeof count_fn 112 (Some 102) k rows (dget k held_keys.(entries))
                 | None => dget k held_keys.(entries)
                 end.
Proof.
  split; [vm_compute; reflexivity|]. intros k.
  destruct (keyed_push_exact cell sort_rows getsizeof ["k"] input count_fn 10 1000 112 112 [(1, 0); (2, 0)] held_keys late.1 [[1]; [3]] held_keys_ok) as (_ & _ & Hk & _).
  - discriminate.
  - repeat constructor.
  - vm_compute. reflexivity.
  - exact (Hk k).
Defined.

Lemma held_entries : held_keys.(entries) = [([SInt 1], Entry {["n" := SInt 2]} 100 192); ([SInt 2], Entry {["n" := SInt 2]} 105 192)].
Proof. vm_compute. reflexivity. Qed.

Lemma keyed_snapshot_round_trip_witness :
  exists o, KeyedState.state array ["k"] held_keys = Ok o /\ (restore getsizeof o fresh_fold).(entries) = held_keys.(entries).
Proof.
  destruct (keyed_snapshot_round_trip getsizeof array ["k"] [TInt] {["n" := TInt]} held_keys fresh_fold eq_refl held_keys_ok) as (o & Es & _ & _ & Er).
  - rewrite held_entries. apply Forall_cons; split; [|apply Forall_cons; split; [|by apply Forall_nil]].
    all: split_and!; [apply Forall2_cons; split; [by right|by apply Forall2_nil]| |reflexivity].
    all: cbn; intros name v [<- <-]%lookup_singleton_Some; exists TInt; (split; [reflexivity|by right]).
  - apply textless_fit. rewrite held_entries, !Forall_cons. unfold textless_entry.
    split_and!; [by apply Forall_singleton| |by apply Forall_singleton| |by apply Forall_nil_2]; cbn; by intros name v [_ <-]%lookup_singleton_Some.
  - exists o. split; [exact Es|]. apply Er. rewrite held_entries. intros e e' He He'. rewrite !elem_of_cons in He, He'. destruct He as [->|[->|[]%not_elem_of_nil]], He' as [->|[->|[]%not_elem_of_nil]]; reflexivity.
Defined.

(** *** A query *)

Lemma cells_typed r : plain_row cell ["k"] r = true /\ Forall2 has_type [TInt] (key_of_row cell ["k"] r).
Proof. split; [done|]. apply Forall2_cons. split; [|by apply Forall2_nil]. right. cbn [stype_of cell]. by rewrite wrap64_fits. Qed.

Definition count_types : gmap string stype := {["n" := TInt]}.

Lemma count_typed k rows prev out s flds : count_fn k rows prev = Ok (out, Some s) -> check_state s = Ok flds -> fields_typed count_types flds.
Proof.
  unfold count_fn. cbn zeta. destruct (fits64 _) eqn:Hn; [|done]. intros [= <- <-]. cbn [check_state]. destruct (existsb _ _); [done|]. intros [= <-].
  split; [by rewrite !dom_singleton_L|]. intros name v [<- <-]%lookup_singleton_Some. exists TInt. split; [done|]. right. cbn [stype_of]. by rewrite Hn.
Qed.

(** Both readings of the n-th push at time n. *)
Definition readings (n : nat) (f : fold) : Z * Z := let t := wrap64 (Z.of_nat n) in (t, t).
Lemma readings_fit n f : fits64 (readings n f).1 = true /\ fits64 (readings n f).2 = true.
Proof. split; apply wrap64_fits. Qed.
Lemma getsizeof_text v : text_bytes v <= 2 * getsizeof v.
Proof. destruct v; cbn [text_bytes getsizeof]; lia. Qed.
Lemma textless_counts : (1000 : Z) <= 2 ^ 30 \/ Forall textless [TInt] /\ map_Forall (fun _ => textless) count_types.
Proof. left. lia. Qed.

Definition proc := keyed_processor cell sort_rows array getsizeof ["k"] input (fun s => Z.of_nat (length s.(s_touched))) count_fn 1000 readings.
Definition laws : @ProcessorLaws _ _ _ _ proc :=
  keyed_laws cell sort_rows array getsizeof ["k"] input (fun s => Z.of_nat (length s.(s_touched))) count_fn 1000 readings [TInt] count_types eq_refl cells_typed count_typed readings_fit getsizeof_text textless_counts.
Definition log2 : list (list (Z * Z)) := [[(1, 0); (2, 0); (1, 0)]; [(2, 0)]].
(** A crash after the write-ahead record and the sink write of batch 0, a restart, two turns. *)
Definition torn := Runs.crash_after proc 10 2 log2 (Runs.disk0) (Runs.boot proc).
Definition rerun := Runs.drive proc 10 2 log2 torn (Runs.restart proc torn).

Lemma keyed_execution :
  rtc (step (OffsetLog0 := SqliteLogs.offset_log) (CommitLog0 := SqliteLogs.commit_log) (ReplayableSource0 := Runs.list_source) (ProcessorLaws0 := laws) Runs.flush_doc Runs.path 10)
    (log2, Runs.disk0, Runs.boot proc) (log2, rerun.1, rerun.2).
Proof.
  eapply rtc_l; [|unfold rerun; apply (Runs.drive_steps proc 10 (laws := laws)); vm_compute; reflexivity].
  unfold torn, Runs.restart, Runs.crash_after, Runs.effects.
  destruct (process_next _ _ _ Runs.disk0 log2 (Runs.boot proc)) as [[[more|err] xs] e'] eqn:Hp;
    [|apply (f_equal (fun r => is_ok r.1.1)) in Hp; vm_compute in Hp; discriminate].
  eapply step_crash; [|symmetry; apply (take_drop 2)].
  eapply perform_next; [reflexivity| |exact Hp]. intros H. vm_compute in H. discriminate.
Qed.

Lemma keyed_state_exact_witness :
  exists bs, reads (ReplayableSource0 := Runs.list_source) log2 0 bs (cursor rerun.2) /\
    (forall k, e_fields <$> dget k (pstate rerun.2).1.(entries) = foldl (key_step cell sort_rows ["k"] input count_fn k) None bs) /\
    e_fields <$> dget [SInt 2] (pstate rerun.2).1.(entries) = Some {["n" := SInt 2]}.
Proof.
  destruct (keyed_state_exact cell sort_rows array getsizeof ["k"] input (fun s => Z.of_nat (length s.(s_touched))) count_fn 1000 readings [TInt] count_types eq_refl cells_typed count_typed readings_fit getsizeof_text textless_counts
    Runs.flush_doc Runs.path 10 log2 log2 rerun.1 rerun.2 keyed_execution) as (bs & Hr & Hs).
  exists bs. split_and!; [exact Hr|exact Hs|vm_compute; reflexivity].
Defined.

(** *** Where the contract ends *)

(** The state of a key comes back from a restart with the field names of every other key, null
    and charged: 384 bytes of state are 512 after it, and the next batch is over the budget of
    400 bytes, which the running query accepts. *)
Definition field_fn (k : skey) (rows : list (Z * Z)) (prev : option fields) : res (list Z * option returned) :=
  Ok ([], Some (Mapping (match k with [SInt 1] => {["a" := SInt 0]} | _ => {["b" := SInt 0]} end))).
Definition push_fields := KeyedState.push cell sort_rows getsizeof ["k"] input field_fn 0 400.
Definition two_fields : fold := (push_fields 1 1 [(1, 0); (2, 0)] fresh_fold).1.
Definition restarted : fold := match KeyedState.state array ["k"] two_fields with Ok o => restore getsizeof o fresh_fold | Raise _ => fresh_fold end.

Lemma restored_fields_padded :
  dget [SInt 1] (map (fun e => (e.1, e.2.(e_fields))) two_fields.(entries)) = Some {["a" := SInt 0]} /\
  dget [SInt 1] (map (fun e => (e.1, e.2.(e_fields))) restarted.(entries)) = Some (<["b" := SNone]> {["a" := SInt 0]}) /\
  two_fields.(held) = 384 /\ restarted.(held) = 512 /\
  (push_fields 2 2 [(1, 0)] two_fields).2 = Ok [] /\ (push_fields 2 2 [(1, 0)] restarted).2 = Raise "ResourceError".
Proof. vm_compute. split_and!; reflexivity. Qed.

(** Rows whose key is not a number are a group each, where those of one null key are together. *)
Lemma nan_rows_split (a b c : Z) :
  map snd (group_by (fun _ _ => SFloat S754_nan) (fun rows => rows) ["k"] [[a; b; c]]) = [[a]; [b]; [c]] /\
  map snd (group_by (fun _ _ => SNone) (fun rows => rows) ["k"] [[a; b; c]]) = [[a; b; c]].
Proof. done. Qed.
End Demo.
