(* ===== verification/ExprSound.v ===== *)
(** * Soundness of expression rewriting

    [safe_expr] and the leaf-rule machinery of python/batcher/kyber/rules/leaf_rewrite.py,
    the bottom-up driver [transform_expr_up] of plan/expr_rewrite/traverse.py, and what
    makes a rewrite correct: [refines e e'] says that wherever [e] is well typed, [e']
    has the same type and, on every row of the schema, the same outcome: the same
    value, the same null, the same exception.  [refines] is preserved by every node, so
    a sound leaf rule is sound at every depth ([transform_expr_up_refines]). *)

From S2P Require Import Prelude ExprIR.

(** [SAFE_BINARY_OPS] (plan/ir_tags.py). *)
Definition safe_op (op : binop) : bool := match op with OtherOp _ => false | _ => true end.

(** Functions [safe_expr] accepts. *)
Definition safe_fn (fn : fname) : bool :=
  match fn with
  | FArray | FStruct _ | FIsNan | FIsInf | FHashRows None => true
  | _ => false
  end.

(** [safe_expr]. *)
Fixpoint safe_expr (e : expr) : bool :=
  match e with
  | Col _ | Lit _ => true
  | Binary op a b => safe_op op && safe_expr a && safe_expr b
  | Not a | IsNull a | IsNotNull a | InList a _ => safe_expr a
  | Coalesce l | Greatest l | Least l => forallb safe_expr l
  | NullIf a b => safe_expr a && safe_expr b
  | Case bs o => forallb (fun b => safe_expr b.1 && safe_expr b.2) bs && safe_expr o
  | EFunc fn l => safe_fn fn && forallb safe_expr l
  end.

(** [transform_expr_up]: rebuild the children first, then apply [rule].  Structural
    sharing is not observable on values. *)
Fixpoint transform_expr_up (rule : expr -> expr) (e : expr) : expr :=
  rule match e with
       | Col _ | Lit _ => e
       | Binary op a b => Binary op (transform_expr_up rule a) (transform_expr_up rule b)
       | Not a => Not (transform_expr_up rule a)
       | IsNull a => IsNull (transform_expr_up rule a)
       | IsNotNull a => IsNotNull (transform_expr_up rule a)
       | InList a vs => InList (transform_expr_up rule a) vs
       | Coalesce l => Coalesce (map (transform_expr_up rule) l)
       | Greatest l => Greatest (map (transform_expr_up rule) l)
       | Least l => Least (map (transform_expr_up rule) l)
       | NullIf a b => NullIf (transform_expr_up rule a) (transform_expr_up rule b)
       | Case bs o =>
           Case (map (fun b => (transform_expr_up rule b.1, transform_expr_up rule b.2)) bs)
             (transform_expr_up rule o)
       | EFunc fn l => EFunc fn (map (transform_expr_up rule) l)
       end.

(** ** Kinds of values *)

(** [sub a k]: values of kind [a] cast into kind [k]. *)
Definition sub (a k : kind) : Prop :=
  a = k \/ (a = KInt /\ k = KFloat) \/ (a = KBool /\ k = KInt) \/ (a = KBool /\ k = KFloat).

Lemma sub_refl k : sub k k.
Proof. by left. Qed.
Lemma sub_trans a b c : sub a b -> sub b c -> sub a c.
Proof. unfold sub. intuition subst; auto; congruence. Qed.
#[export] Hint Resolve sub_refl sub_trans : batcher.

Lemma supertype_sub a b k : supertype a b = Some k -> sub a k /\ sub b k.
Proof.
  unfold supertype, sub. case_decide; [intros [= <-]; subst; auto|].
  destruct a, b; try done; intros [= <-]; auto 8.
Qed.

Lemma supertype_comm a b : supertype a b = supertype b a.
Proof. unfold supertype. do 2 case_decide; try congruence. by destruct a, b. Qed.

Lemma cast_kind a k v : sub a k -> kind_of_value v = a -> kind_of_value (cast k v) = k.
Proof.
  unfold sub. intros Hs Hv. destruct v, k; cbn in *; subst; try done; intuition congruence.
Qed.

Lemma cast_id v : cast (kind_of_value v) v = v.
Proof. by destruct v. Qed.

Definition has_kind (k : kind) (x : option value) : Prop :=
  match x with None => True | Some v => kind_of_value v = k end.

Lemma has_kind_cast a k x : sub a k -> has_kind a x -> has_kind k (option_map (cast k) x).
Proof. destruct x as [v|]; cbn; [|done]. apply cast_kind. Qed.

Lemma cast_has_kind k x : has_kind k x -> option_map (cast k) x = x.
Proof. destruct x as [v|]; cbn; [|done]. intros <-. by rewrite cast_id. Qed.

Lemma sup_fold_sub ks a k :
  foldl (fun acc k => a ← acc; supertype a k) (Some a) ks = Some k ->
  sub a k /\ Forall (fun k' => sub k' k) ks.
Proof.
  revert a. induction ks as [|k1 ks IH]; intros a; cbn [foldl].
  - intros [= <-]. auto with batcher.
  - cbn. destruct (supertype a k1) as [k2|] eqn:Hs.
    + intros Hf. apply IH in Hf as [H1 H2]. apply supertype_sub in Hs as [? ?].
      split; [eauto with batcher|]. constructor; [eauto with batcher|done].
    + intros Hf. exfalso. revert Hf. clear. induction ks; cbn; done.
Qed.

Lemma sup_list_sub ks k : sup_list ks = Some k -> Forall (fun k' => sub k' k) ks.
Proof.
  destruct ks as [|k0 ks]; [done|]. cbn. intros Hf. apply sup_fold_sub in Hf as [? ?].
  by constructor.
Qed.

Lemma comparable_compare a b v w :
  comparable a b = true -> kind_of_value v = a -> kind_of_value w = b ->
  exists c, vcompare v w = Some c.
Proof.
  unfold comparable, vcompare. intros Hc <- <-. destruct (supertype _ _) as [k|] eqn:Hs; [|done].
  apply supertype_sub in Hs as [Ha Hb].
  pose proof (cast_kind _ k v Ha eq_refl) as H1. pose proof (cast_kind _ k w Hb eq_refl) as H2.
  destruct (cast k v), (cast k w); cbn in *; subst; try done; eauto; try congruence.
Qed.

(** ** Rewriting *)

Section Sound.
Context (fsig : fname -> list kind -> option kind).
Context (opsig : string -> kind -> kind -> option kind).
Context (sch : gmap string kind).
Context (ext : fname -> list (option value) -> res (option value)).
Context (ext_op : string -> option value -> option value -> res (option value)).

Abbreviation kof := (kind_of fsig opsig sch).
Abbreviation ev := (eval fsig opsig sch ext ext_op).

(** A row that fits the schema. *)
Definition row_ok (row : gmap string value) : Prop :=
  forall c v, row !! c = Some v -> sch !! c = Some (kind_of_value v).

Definition refines (e e' : expr) : Prop :=
  forall k, kof e = Some k ->
    kof e' = Some k /\ forall row, row_ok row -> ev row e' = ev row e.

#[global] Instance refines_preorder : PreOrder refines.
Proof.
  split.
  - by intros e k Hk.
  - intros a b c Hab Hbc k Hk. destruct (Hab k Hk) as [Hk' He]. destruct (Hbc k Hk') as [Hk'' He'].
    split; [done|]. intros row Hr. by rewrite He', He.
Qed.

Lemma Forall2_refines_kinds l l' ks :
  Forall2 refines l l' -> opt_mapM kof l = Some ks -> opt_mapM kof l' = Some ks.
Proof.
  intros Hl. rewrite !opt_mapM_Some. revert ks. induction Hl as [|a b l l' Hab _ IH]; intros ks Hks;
    inversion Hks as [|? k ? ks' Ha Hr]; subst; constructor; [by apply Hab|by apply IH].
Qed.

(** Rows of a list of well-typed arguments evaluate alike. *)
Lemma Forall2_refines_eval l l' ks row :
  Forall2 refines l l' -> opt_mapM kof l = Some ks -> row_ok row ->
  Forall2 (fun a b => ev row b = ev row a) l l'.
Proof.
  intros Hl. rewrite opt_mapM_Some. intros Hks Hr. revert ks Hks.
  induction Hl as [|a b l l' Hab _ IH]; intros ks Hks;
    inversion Hks as [|? k ? ks' Ha Hrest]; subst; constructor; [by eapply Hab|by eapply IH].
Qed.

Lemma res_mapM_refines l l' row :
  Forall2 (fun a b => ev row b = ev row a) l l' -> res_mapM (ev row) l' = res_mapM (ev row) l.
Proof. induction 1 as [|a b l l' Hab _ IH]; cbn; [done|]. by rewrite Hab, IH. Qed.

Lemma first_some_refines l l' row :
  Forall2 (fun a b => ev row b = ev row a) l l' ->
  first_some (ev row) l' = first_some (ev row) l.
Proof. induction 1 as [|a b l l' Hab _ IH]; cbn; [done|]. by rewrite Hab, IH. Qed.

Lemma first_true_refines bs bs' x row :
  Forall2 (fun a b => ev row b.1 = ev row a.1 /\ ev row b.2 = ev row a.2) bs bs' ->
  first_true (ev row) bs' x = first_true (ev row) bs x.
Proof. induction 1 as [|a b bs bs' [H1 H2] _ IH]; cbn; [done|]. by rewrite H1, H2, IH. Qed.

Ltac open_kind :=
  repeat match goal with
  | H : _ ≫= _ = Some _ |- _ => apply bind_Some in H as (? & ? & ?)
  end.

Lemma refines_binary op a a' b b' :
  refines a a' -> refines b b' -> refines (Binary op a b) (Binary op a' b').
Proof.
  intros Ha Hb k Hk. cbn in Hk. open_kind. destruct (Ha _ H) as [Hka Ea].
  destruct (Hb _ H0) as [Hkb Eb]. cbn. rewrite Hka, Hkb. split; [done|].
  intros row Hr. by rewrite Ea, Eb.
Qed.

Lemma refines_not a a' : refines a a' -> refines (Not a) (Not a').
Proof.
  intros Ha k Hk. cbn in Hk. open_kind. destruct (Ha _ H) as [Hka Ea]. cbn. rewrite Hka.
  split; [done|]. intros row Hr. by rewrite Ea.
Qed.

Lemma refines_is_null a a' : refines a a' -> refines (IsNull a) (IsNull a').
Proof.
  intros Ha k Hk. cbn in Hk. open_kind. destruct (Ha _ H) as [Hka Ea]. cbn. rewrite Hka.
  split; [done|]. intros row Hr. by rewrite Ea.
Qed.

Lemma refines_is_not_null a a' : refines a a' -> refines (IsNotNull a) (IsNotNull a').
Proof.
  intros Ha k Hk. cbn in Hk. open_kind. destruct (Ha _ H) as [Hka Ea]. cbn. rewrite Hka.
  split; [done|]. intros row Hr. by rewrite Ea.
Qed.

Lemma refines_in_list a a' vs : refines a a' -> refines (InList a vs) (InList a' vs).
Proof.
  intros Ha k Hk. cbn in Hk. open_kind. destruct (Ha _ H) as [Hka Ea]. cbn. rewrite Hka.
  split; [done|]. intros row Hr. by rewrite Ea.
Qed.

Lemma refines_null_if a a' b b' :
  refines a a' -> refines b b' -> refines (NullIf a b) (NullIf a' b').
Proof.
  intros Ha Hb k Hk. cbn in Hk. open_kind. destruct (Ha _ H) as [Hka Ea].
  destruct (Hb _ H0) as [Hkb Eb]. cbn. rewrite Hka, Hkb. split; [done|].
  intros row Hr. by rewrite Ea, Eb.
Qed.

Lemma refines_coalesce l l' : Forall2 refines l l' -> refines (Coalesce l) (Coalesce l').
Proof.
  intros Hl k Hk. pose proof Hk as Hk'. cbn in Hk. open_kind.
  pose proof (Forall2_refines_kinds _ _ _ Hl H) as Hks.
  assert (kof (Coalesce l') = Some k) as Hkl by (cbn; by rewrite Hks).
  split; [done|]. intros row Hr. cbn [eval]. rewrite Hkl, Hk'.
  by rewrite (first_some_refines l l') by (by eapply Forall2_refines_eval).
Qed.

Lemma refines_greatest l l' : Forall2 refines l l' -> refines (Greatest l) (Greatest l').
Proof.
  intros Hl k Hk. pose proof Hk as Hk'. cbn in Hk. open_kind.
  pose proof (Forall2_refines_kinds _ _ _ Hl H) as Hks.
  assert (kof (Greatest l') = Some k) as Hkl by (cbn; rewrite Hks; cbn; by rewrite H0).
  split; [done|]. intros row Hr. cbn [eval]. rewrite Hkl, Hk'.
  by rewrite (res_mapM_refines l l') by (by eapply Forall2_refines_eval).
Qed.

Lemma refines_least l l' : Forall2 refines l l' -> refines (Least l) (Least l').
Proof.
  intros Hl k Hk. pose proof Hk as Hk'. cbn in Hk. open_kind.
  pose proof (Forall2_refines_kinds _ _ _ Hl H) as Hks.
  assert (kof (Least l') = Some k) as Hkl by (cbn; rewrite Hks; cbn; by rewrite H0).
  split; [done|]. intros row Hr. cbn [eval]. rewrite Hkl, Hk'.
  by rewrite (res_mapM_refines l l') by (by eapply Forall2_refines_eval).
Qed.

Lemma refines_func fn l l' : Forall2 refines l l' -> refines (EFunc fn l) (EFunc fn l').
Proof.
  intros Hl k Hk. cbn in Hk. open_kind.
  pose proof (Forall2_refines_kinds _ _ _ Hl H) as Hks. cbn. rewrite Hks.
  split; [done|]. intros row Hr.
  by rewrite (res_mapM_refines l l') by (by eapply Forall2_refines_eval).
Qed.

Lemma Forall2_branch_kinds (sel : expr * expr -> expr) bs bs' ks :
  Forall2 (fun a b => refines (sel a) (sel b)) bs bs' ->
  opt_mapM (fun b => kof (sel b)) bs = Some ks -> opt_mapM (fun b => kof (sel b)) bs' = Some ks.
Proof.
  intros Hl. rewrite !opt_mapM_Some. revert ks. induction Hl as [|a b l l' Hab _ IH]; intros ks Hks;
    inversion Hks as [|? k ? ks' Ha Hr]; subst; constructor; [by apply Hab|by apply IH].
Qed.

Lemma refines_case bs bs' o o' :
  Forall2 (fun a b => refines a.1 b.1 /\ refines a.2 b.2) bs bs' -> refines o o' ->
  refines (Case bs o) (Case bs' o').
Proof.
  intros Hbs Ho k Hk. pose proof Hk as Hk'. cbn in Hk. open_kind.
  pose proof (Forall2_branch_kinds fst bs bs' _ ltac:(eapply Forall2_impl; [exact Hbs|by intros ? ? []]) H) as Hc.
  pose proof (Forall2_branch_kinds snd bs bs' _ ltac:(eapply Forall2_impl; [exact Hbs|by intros ? ? []]) H0) as Hv.
  destruct (Ho _ H1) as [Hko Eo].
  assert (kof (Case bs' o') = Some k) as Hkl by (cbn; rewrite Hc; cbn; rewrite Hv; cbn; by rewrite Hko).
  split; [done|]. intros row Hr. cbn [eval]. rewrite Hkl, Hk', (Eo row Hr).
  rewrite (first_true_refines bs bs'); [done|].
  clear Hkl Hk' Hc Hv H2. rewrite opt_mapM_Some in H, H0. revert x x0 H H0.
  induction Hbs as [|a b l l' [Ha Hb] _ IH]; intros cs ks Hcs Hks; [constructor|].
  inversion Hcs; inversion Hks; subst. constructor; [|by eapply IH].
  split; [by eapply Ha|by eapply Hb].
Qed.

(** A leaf rule is sound when it refines every node it is given. *)
Definition leaf_sound (rule : expr -> expr) : Prop := forall e, refines e (rule e).

Lemma map_refines rule l :
  Forall (fun e => refines e (transform_expr_up rule e)) l ->
  Forall2 refines l (map (transform_expr_up rule) l).
Proof. induction 1; cbn; by constructor. Qed.

Lemma transform_up_refines rule e :
  leaf_sound rule -> refines e (transform_expr_up rule e).
Proof.
  intros Hrule. induction e using expr_ind'; cbn [transform_expr_up];
    (etransitivity; [|apply Hrule]).
  - done.
  - done.
  - by apply refines_binary.
  - by apply refines_not.
  - by apply refines_is_null.
  - by apply refines_is_not_null.
  - by apply refines_in_list.
  - by apply refines_coalesce, map_refines.
  - by apply refines_greatest, map_refines.
  - by apply refines_least, map_refines.
  - by apply refines_null_if.
  - apply refines_case; [|done]. clear IHe. induction H as [|[c v] bs [Hc Hv] _ IH]; by constructor.
  - by apply refines_func, map_refines.
Qed.

(** ** Safe expressions evaluate *)

(** What the engine documents of the functions [safe_expr] admits: total on
    arguments of the kinds they accept. *)
Hypothesis ext_total : forall fn ks xs k,
  safe_fn fn = true -> fsig fn ks = Some k -> Forall2 has_kind ks xs ->
  exists x, ext fn xs = Ok x /\ has_kind k x.

Definition evaluates (e : expr) : Prop := forall k row,
  kof e = Some k -> row_ok row -> exists x, ev row e = Ok x /\ has_kind k x.

Lemma as_bool_kind x : has_kind KBool x -> exists b, as_bool x = Ok b.
Proof. destruct x as [[]|]; cbn; try done; eauto. Qed.

Lemma bool_value_kind b : has_kind KBool (bool_value b).
Proof. by destruct b. Qed.

Lemma eval_binary_safe op ka kb k x y :
  safe_op op = true -> binary_kind opsig op ka kb = Some k ->
  has_kind ka x -> has_kind kb y ->
  exists z, eval_binary ext_op op x y = Ok z /\ has_kind k z.
Proof.
  intros Hs Hk Hx Hy.
  assert (forall cop, comparable ka kb = true -> exists z,
    compare_values cop x y = Ok z /\ has_kind KBool z) as Hcmp.
  { intros cop Hc. unfold compare_values. destruct x as [v|], y as [w|]; cbn; eauto.
    destruct (comparable_compare ka kb v w Hc Hx Hy) as [c ->]. eexists. split; [done|done]. }
  destruct op; try done; cbn in Hk; unfold guard_kind in Hk.
  1-3: open_kind; apply supertype_sub in H as Hsub; destruct Hsub as [Ha Hb];
    destruct (numeric x0) eqn:Hn; [|done]; simplify_eq/=;
    destruct x as [v|], y as [w|]; cbn; eauto;
    cbn in Hx, Hy; unfold arith; rewrite Hx, Hy, H;
    pose proof (cast_kind _ k v Ha Hx); pose proof (cast_kind _ k w Hb Hy);
    destruct k; try done; destruct (cast _ v), (cast _ w); cbn; eauto; done.
  1-2: destruct (bool_decide (ka = KBool)) eqn:E1; [|done];
    destruct (bool_decide (kb = KBool)) eqn:E2; [|done]; bsplit; subst; simplify_eq/=;
    destruct (as_bool_kind x Hx) as [b1 ->]; destruct (as_bool_kind y Hy) as [b2 ->]; cbn;
    eauto using bool_value_kind.
  all: destruct (comparable ka kb) eqn:Hc; [|done]; simplify_eq/=; by apply Hcmp.
Qed.

Lemma member_safe k v vs :
  kind_of_value v = k -> forallb (fun w => comparable k (kind_of_value w)) vs = true ->
  exists b, member v vs = Ok b.
Proof.
  intros Hv. induction vs as [|w vs IH]; cbn; [eauto|]. intros [H1 H2]%andb_prop.
  destruct (comparable_compare k (kind_of_value w) v w H1 Hv eq_refl) as [c ->].
  destruct (IH H2) as [b ->]. cbn. eauto.
Qed.

(** Lists of arguments. *)
Lemma evaluates_list l ks row :
  Forall evaluates l -> opt_mapM kof l = Some ks -> row_ok row ->
  exists xs, res_mapM (ev row) l = Ok xs /\ Forall2 has_kind ks xs.
Proof.
  intros Hl Hks Hr. rewrite opt_mapM_Some in Hks. induction Hks as [|e k l ks Hk Hks IH].
  - exists []. split; [done|constructor].
  - apply Forall_cons in Hl as [He Hl]. destruct (He k row Hk Hr) as (x & Hx & Hxk).
    destruct (IH Hl) as (xs & Hxs & Hxks). exists (x :: xs). cbn. rewrite Hx. cbn.
    rewrite Hxs. cbn. split; [done|by constructor].
Qed.

Lemma cast_list_kinds ks xs k :
  Forall (fun k' => sub k' k) ks -> Forall2 has_kind ks xs ->
  Forall (has_kind k) (map (option_map (cast k)) xs).
Proof.
  intros Hs Hx. induction Hx as [|k1 x ks xs Hk _ IH]; cbn; [constructor|].
  apply Forall_cons in Hs as [H1 H2]. constructor; [by eapply has_kind_cast|by apply IH].
Qed.

Lemma extreme_step_kind g k acc x :
  has_kind k acc -> has_kind k x -> has_kind k (extreme_step g acc x).
Proof. destruct acc as [a|], x as [v|], g; cbn; try done; by destruct (vorder a v). Qed.

Lemma extreme_kind g k xs : Forall (has_kind k) xs -> has_kind k (extreme g xs).
Proof.
  unfold extreme. assert (has_kind k None) as H0 by done. revert H0.
  generalize (None : option value) as acc. induction xs as [|x xs IH]; intros acc Ha Hxs; cbn; [done|].
  apply Forall_cons in Hxs as [? ?]. apply IH; [by apply extreme_step_kind|done].
Qed.

Lemma first_some_safe l ks row :
  Forall evaluates l -> opt_mapM kof l = Some ks -> row_ok row ->
  exists x, first_some (ev row) l = Ok x /\ (x = None \/ exists k', k' ∈ ks /\ has_kind k' x).
Proof.
  intros Hl Hks Hr. rewrite opt_mapM_Some in Hks. induction Hks as [|e k l ks Hk Hks IH].
  - exists None. auto.
  - apply Forall_cons in Hl as [He Hl]. destruct (He k row Hk Hr) as (x & Hx & Hxk).
    cbn. rewrite Hx. cbn. destruct x as [v|].
    + exists (Some v). split; [done|]. right. exists k. split; [by left|done].
    + destruct (IH Hl) as (x & Hx' & Hc). exists x. split; [done|].
      destruct Hc as [?|(k' & ? & ?)]; [by left|right]. exists k'. split; [by right|done].
Qed.

Lemma first_true_safe bs cs ks o ko row :
  Forall (fun b => evaluates b.1 /\ evaluates b.2) bs -> evaluates o ->
  opt_mapM (fun b => kof b.1) bs = Some cs -> forallb (fun k => bool_decide (k = KBool)) cs = true ->
  opt_mapM (fun b => kof b.2) bs = Some ks -> kof o = Some ko -> row_ok row ->
  exists x k', first_true (ev row) bs (ev row o) = Ok x /\ k' ∈ ks ++ [ko] /\ has_kind k' x.
Proof.
  intros Hbs Ho Hcs Hbool Hks Hko Hr. rewrite opt_mapM_Some in Hcs, Hks.
  revert cs ks Hcs Hbool Hks. induction Hbs as [|[c v] bs [Hc Hv] _ IH]; intros cs ks Hcs Hbool Hks.
  - inversion Hks; subst. destruct (Ho ko row Hko Hr) as (x & Hx & ?). exists x, ko.
    cbn. split_and!; [done|by left|done].
  - inversion Hcs as [|? kc ? cs' Hkc Hcs']; inversion Hks as [|? kv ? ks' Hkv Hks']; subst.
    cbn in Hbool, Hc, Hv, Hkc, Hkv. apply andb_prop in Hbool as [Hb Hbool]. bsplit. subst.
    destruct (Hc _ row Hkc Hr) as (xc & Hxc & Hxck). cbn. rewrite Hxc. cbn.
    destruct (as_bool_kind xc Hxck) as [b ->]. cbn.
    destruct (IH cs' ks' Hcs' Hbool Hks') as (x & k' & Hx & Hk' & Hxk).
    destruct b as [[]|].
    + destruct (Hv _ row Hkv Hr) as (xv & Hxv & ?). exists xv, kv.
      split_and!; [done|by left|done].
    + exists x, k'. split_and!; [done|by right|done].
    + exists x, k'. split_and!; [done|by right|done].
Qed.

Lemma to_kind_safe k k' x ks :
  sup_list ks = Some k -> k' ∈ ks -> has_kind k' x ->
  exists z, to_kind (Some k) x = Ok z /\ has_kind k z.
Proof.
  intros Hs Hin Hx. exists (option_map (cast k) x). split; [done|].
  apply sup_list_sub in Hs. rewrite Forall_forall in Hs. eapply has_kind_cast; [by apply Hs|done].
Qed.

Lemma forallb_Forall {A} (f : A -> bool) l : forallb f l = true -> Forall (fun x => f x = true) l.
Proof. induction l; cbn; [constructor|]. intros [? ?]%andb_prop. constructor; auto. Qed.

Lemma safe_list l : Forall (fun e => safe_expr e = true -> evaluates e) l ->
  forallb safe_expr l = true -> Forall evaluates l.
Proof.
  intros Hl Hs%forallb_Forall. rewrite Forall_forall in *. intros e He. by apply Hl; [|apply Hs].
Qed.

Lemma safe_extreme g l k row :
  Forall evaluates l -> (ks ← opt_mapM kof l; k ← sup_list ks; guard_kind (ordered k) k) = Some k ->
  row_ok row -> exists x,
    (let* xs := res_mapM (ev row) l in Ok (extreme g (map (option_map (cast k)) xs))) = Ok x /\
    has_kind k x.
Proof.
  intros Hl Hk Hr. open_kind. unfold guard_kind in *. destruct (ordered x0); [|done]. simplify_eq/=.
  destruct (evaluates_list l x row Hl H Hr) as (xs & -> & Hxs). cbn.
  eexists. split; [done|]. apply extreme_kind. eapply cast_list_kinds; [by apply sup_list_sub|done].
Qed.

(** Everything [safe_expr] accepts is total: on a row of the schema a well-typed
    safe expression evaluates, to a null or to a value of its type. *)
Lemma safe_expr_evaluates e : safe_expr e = true -> evaluates e.
Proof.
  induction e using expr_ind'; intros Hs k row Hk Hr; cbn in Hs.
  - cbn in *. rewrite Hk. eexists. split; [done|]. destruct (row !! c) as [v|] eqn:E; cbn; [|done].
    apply Hr in E. congruence.
  - cbn in *. simplify_eq. by eexists.
  - apply andb_prop in Hs as [[Hop Ha]%andb_prop Hb]. cbn in Hk. open_kind.
    destruct (IHe1 Ha _ row H Hr) as (x1 & Hx1 & ?). destruct (IHe2 Hb _ row H0 Hr) as (x2 & Hx2 & ?).
    cbn. rewrite Hx1. cbn. rewrite Hx2. cbn. by eapply eval_binary_safe.
  - cbn in Hk. open_kind. unfold guard_kind in *. destruct (bool_decide _) eqn:E; [|done]. bsplit.
    simplify_eq. destruct (IHe Hs _ row H Hr) as (x1 & Hx1 & Hk1). cbn. rewrite Hx1. cbn.
    destruct (as_bool_kind x1 Hk1) as [b ->]. cbn. eauto using bool_value_kind.
  - cbn in Hk. open_kind. simplify_eq. destruct (IHe Hs _ row H Hr) as (x1 & Hx1 & Hk1). cbn.
    rewrite Hx1. cbn. by eexists.
  - cbn in Hk. open_kind. simplify_eq. destruct (IHe Hs _ row H Hr) as (x1 & Hx1 & Hk1). cbn.
    rewrite Hx1. cbn. by eexists.
  - cbn in Hk. open_kind. unfold guard_kind in *. destruct (forallb _ _) eqn:E; [|done].
    simplify_eq. destruct (IHe Hs _ row H Hr) as (x1 & Hx1 & Hk1). cbn. rewrite Hx1. cbn.
    destruct x1 as [v|]; [|by eexists]. destruct (member_safe _ v vs Hk1 E) as [b ->]. cbn. by eexists.
  - pose proof Hk as Hk'. cbn in Hk. open_kind. cbn [eval]. rewrite Hk'.
    destruct (first_some_safe l x row (safe_list l H Hs) H0 Hr) as (z & -> & Hz). cbn [mbind res_bind].
    destruct Hz as [->|(k' & ? & ?)]; [by eexists|by eapply to_kind_safe].
  - pose proof Hk as Hk'. cbn [eval]. rewrite Hk'. cbn in Hk.
    by apply safe_extreme; [apply safe_list|..].
  - pose proof Hk as Hk'. cbn [eval]. rewrite Hk'. cbn in Hk.
    by apply safe_extreme; [apply safe_list|..].
  - apply andb_prop in Hs as [Ha Hb]. cbn in Hk. open_kind. unfold guard_kind in *.
    destruct (comparable _ _) eqn:Hc; [|done]. simplify_eq.
    destruct (IHe1 Ha _ row H Hr) as (x1 & Hx1 & Hk1). destruct (IHe2 Hb _ row H0 Hr) as (x2 & Hx2 & Hk2).
    cbn. rewrite Hx1. cbn. rewrite Hx2. cbn. destruct x1 as [v|], x2 as [w|]; [|by eexists..].
    destruct (comparable_compare _ _ v w Hc Hk1 Hk2) as [[] ->]; by eexists.
  - apply andb_prop in Hs as [Hbs Ho]. pose proof Hk as Hk'. cbn in Hk. open_kind.
    destruct (forallb (fun k => bool_decide (k = KBool)) x) eqn:Hb; [|done].
    cbn [eval]. rewrite Hk'.
    assert (Forall (fun b => evaluates b.1 /\ evaluates b.2) bs) as Hev.
    { apply forallb_Forall in Hbs. rewrite Forall_forall in *. intros b Hin.
      destruct (H b Hin) as [? ?]. specialize (Hbs b Hin). apply andb_prop in Hbs as [? ?]. auto. }
    destruct (first_true_safe bs _ _ e _ row Hev (IHe Ho) H0 Hb H1 H2 Hr) as (z & k' & -> & ? & ?).
    cbn [mbind res_bind]. by eapply to_kind_safe.
  - apply andb_prop in Hs as [Hf Hl]. cbn in Hk. open_kind. cbn.
    destruct (evaluates_list l x row (safe_list l H Hl) H0 Hr) as (xs & -> & Hxs). cbn.
    by eapply ext_total.
Qed.

(** ** Evaluation preserves kinds *)

(** The engine's other functions return values of their declared result type. *)
Hypothesis ext_kind : forall fn ks xs k x,
  fsig fn ks = Some k -> Forall2 has_kind ks xs -> ext fn xs = Ok x -> has_kind k x.
Hypothesis ext_op_kind : forall s ka kb k x y z,
  opsig s ka kb = Some k -> has_kind ka x -> has_kind kb y -> ext_op s x y = Ok z -> has_kind k z.

Definition preserves (e : expr) : Prop := forall k row x,
  kof e = Some k -> row_ok row -> ev row e = Ok x -> has_kind k x.

Lemma eval_binary_kind op ka kb k x y z :
  binary_kind opsig op ka kb = Some k -> has_kind ka x -> has_kind kb y ->
  eval_binary ext_op op x y = Ok z -> has_kind k z.
Proof.
  intros Hk Hx Hy Hz. destruct (safe_op op) eqn:Hs.
  - destruct (eval_binary_safe op ka kb k x y Hs Hk Hx Hy) as (z' & Hz' & ?). congruence.
  - destruct op; try done. by eapply ext_op_kind.
Qed.

Lemma preserves_list l ks row xs :
  Forall preserves l -> opt_mapM kof l = Some ks -> row_ok row ->
  res_mapM (ev row) l = Ok xs -> Forall2 has_kind ks xs.
Proof.
  intros Hl Hks Hr. rewrite opt_mapM_Some in Hks. revert xs.
  induction Hks as [|e k l ks Hk Hks IH]; intros xs Hxs; cbn in Hxs.
  - simplify_eq. constructor.
  - apply Forall_cons in Hl as [He Hl]. apply res_bind_ok in Hxs as (x & Hx & Hxs).
    apply res_bind_ok in Hxs as (ys & Hys & [= <-]). constructor; [by eapply He|by apply IH].
Qed.

Lemma preserves_first_some l ks row x :
  Forall preserves l -> opt_mapM kof l = Some ks -> row_ok row ->
  first_some (ev row) l = Ok x -> x = None \/ exists k', k' ∈ ks /\ has_kind k' x.
Proof.
  intros Hl Hks Hr. rewrite opt_mapM_Some in Hks.
  induction Hks as [|e k l ks Hk Hks IH]; cbn; intros Hx.
  - simplify_eq. by left.
  - apply Forall_cons in Hl as [He Hl]. apply res_bind_ok in Hx as (x1 & Hx1 & Hx).
    destruct x1 as [v|].
    + simplify_eq. right. exists k. split; [by left|by eapply He].
    + destruct (IH Hl Hx) as [?|(k' & ? & ?)]; [by left|right]. exists k'. split; [by right|done].
Qed.

Lemma preserves_first_true bs ks o ko row x :
  Forall (fun b => preserves b.1 /\ preserves b.2) bs -> preserves o ->
  opt_mapM (fun b => kof b.2) bs = Some ks -> kof o = Some ko -> row_ok row ->
  first_true (ev row) bs (ev row o) = Ok x -> exists k', k' ∈ ks ++ [ko] /\ has_kind k' x.
Proof.
  intros Hbs Ho Hks Hko Hr. rewrite opt_mapM_Some in Hks. revert ks Hks.
  induction Hbs as [|[c v] bs [Hc Hv] _ IH]; intros ks Hks Hx; cbn in Hx.
  - inversion Hks; subst. exists ko. split; [by left|by eapply Ho].
  - inversion Hks as [|? kv ? ks' Hkv Hks']; subst. apply res_bind_ok in Hx as (xc & Hxc & Hx).
    apply res_bind_ok in Hx as (b & Hb & Hx). destruct b as [[]|].
    + exists kv. split; [by left|by eapply Hv].
    + destruct (IH ks' Hks' Hx) as (k' & ? & ?). exists k'. split; [by right|done].
    + destruct (IH ks' Hks' Hx) as (k' & ? & ?). exists k'. split; [by right|done].
Qed.

Lemma to_kind_kind k k' x z ks :
  sup_list ks = Some k -> k' ∈ ks -> has_kind k' x -> to_kind (Some k) x = Ok z -> has_kind k z.
Proof.
  intros Hs Hin Hx Hz. destruct (to_kind_safe k k' x ks Hs Hin Hx) as (z' & ? & ?). congruence.
Qed.

Lemma preserves_extreme g l k row x :
  Forall preserves l -> (ks ← opt_mapM kof l; k ← sup_list ks; guard_kind (ordered k) k) = Some k ->
  row_ok row ->
  (let* xs := res_mapM (ev row) l in Ok (extreme g (map (option_map (cast k)) xs))) = Ok x ->
  has_kind k x.
Proof.
  intros Hl Hk Hr Hx. open_kind. unfold guard_kind in *. destruct (ordered x1); [|done]. simplify_eq/=.
  apply res_bind_ok in Hx as (xs & Hxs & [= <-]). apply extreme_kind.
  eapply cast_list_kinds; [by apply sup_list_sub|by eapply preserves_list].
Qed.

(** Whatever evaluates without an exception yields a value of the static type. *)
Lemma eval_kind e : preserves e.
Proof.
  induction e using expr_ind'; intros k row x Hk Hr Hx.
  - cbn in *. rewrite Hk in Hx. simplify_eq. destruct (row !! c) as [v|] eqn:E; cbn; [|done].
    apply Hr in E. congruence.
  - cbn in *. by simplify_eq.
  - cbn in Hk. open_kind. cbn in Hx. apply res_bind_ok in Hx as (z1 & Hz1 & Hx).
    apply res_bind_ok in Hx as (z2 & Hz2 & Hx). by eapply eval_binary_kind; eauto.
  - cbn in Hk, Hx. open_kind. unfold guard_kind in *. destruct (bool_decide _); [|done]. simplify_eq.
    apply res_bind_ok in Hx as (z1 & Hz1 & Hx). apply res_bind_ok in Hx as (b & Hb & [= <-]).
    apply bool_value_kind.
  - cbn in Hk, Hx. open_kind. simplify_eq. by apply res_bind_ok in Hx as (z1 & Hz1 & [= <-]).
  - cbn in Hk, Hx. open_kind. simplify_eq. by apply res_bind_ok in Hx as (z1 & Hz1 & [= <-]).
  - cbn in Hk, Hx. open_kind. unfold guard_kind in *. destruct (forallb _ _); [|done]. simplify_eq.
    apply res_bind_ok in Hx as (z1 & Hz1 & Hx). destruct z1 as [v|]; [|by simplify_eq].
    by apply res_bind_ok in Hx as (b & Hb & [= <-]).
  - pose proof Hk as Hk'. cbn in Hk. open_kind. cbn [eval] in Hx. rewrite Hk' in Hx.
    apply res_bind_ok in Hx as (z & Hz & Hx).
    destruct (preserves_first_some l _ row z H H0 Hr Hz) as [->|(k' & ? & ?)].
    + cbn in Hx. by simplify_eq.
    + by eapply to_kind_kind.
  - pose proof Hk as Hk'. cbn [eval] in Hx. rewrite Hk' in Hx. cbn in Hk. by eapply preserves_extreme.
  - pose proof Hk as Hk'. cbn [eval] in Hx. rewrite Hk' in Hx. cbn in Hk. by eapply preserves_extreme.
  - cbn in Hk, Hx. open_kind. unfold guard_kind in *. destruct (comparable _ _); [|done]. simplify_eq.
    apply res_bind_ok in Hx as (z1 & Hz1 & Hx). apply res_bind_ok in Hx as (z2 & Hz2 & Hx).
    pose proof (IHe1 _ row z1 H Hr Hz1). destruct z1 as [v|], z2 as [w|]; try by simplify_eq.
    destruct (vcompare v w) as [[]|]; by simplify_eq.
  - pose proof Hk as Hk'. cbn in Hk. open_kind.
    destruct (forallb (fun k => bool_decide (k = KBool)) x0) eqn:Hb; [|done].
    cbn [eval] in Hx. rewrite Hk' in Hx. apply res_bind_ok in Hx as (z & Hz & Hx).
    destruct (preserves_first_true bs _ e _ row z H IHe H1 H2 Hr Hz) as (k' & ? & ?).
    by eapply to_kind_kind.
  - cbn in Hk, Hx. open_kind. apply res_bind_ok in Hx as (xs & Hxs & Hx).
    eapply ext_kind; [done| |done]. by eapply preserves_list.
Qed.
End Sound.

(** ** The engine behind the IR

    The functions and operators outside the modelled core, with what the optimizer
    relies on: declared result types are respected, the functions [safe_expr] admits
    are total, and constructors and row hashes never yield null. *)

(** Functions whose result is never null (the [iceberg] hash keeps a null input null). *)
Definition never_null_fn (fn : fname) : bool :=
  match fn with
  | FArray | FStruct _ => true
  | FHashRows alg => negb (bool_decide (alg = Some "iceberg"))
  | _ => false
  end.

Class ExprEngine := {
  fsig : fname -> list kind -> option kind;
  opsig : string -> kind -> kind -> option kind;
  ext : fname -> list (option value) -> res (option value);
  ext_op : string -> option value -> option value -> res (option value);
  ee_total : forall fn ks xs k, safe_fn fn = true -> fsig fn ks = Some k ->
    Forall2 has_kind ks xs -> exists x, ext fn xs = Ok x /\ has_kind k x;
  ee_kind : forall fn ks xs k x,
    fsig fn ks = Some k -> Forall2 has_kind ks xs -> ext fn xs = Ok x -> has_kind k x;
  ee_op_kind : forall s ka kb k x y z,
    opsig s ka kb = Some k -> has_kind ka x -> has_kind kb y -> ext_op s x y = Ok z -> has_kind k z;
  ee_never_null : forall fn xs x, never_null_fn fn = true -> ext fn xs = Ok x -> x <> None;
}.

(** The static type and the outcome of an expression under an engine. *)
Definition type_of `{!ExprEngine} (sch : gmap string kind) : expr -> option kind :=
  kind_of fsig opsig sch.
Definition run `{!ExprEngine} (sch : gmap string kind) (row : gmap string value)
    : expr -> res (option value) := eval fsig opsig sch ext ext_op row.
Definition rewrites `{!ExprEngine} (sch : gmap string kind) : expr -> expr -> Prop :=
  refines fsig opsig sch ext ext_op.
Definition sound_rule `{!ExprEngine} (sch : gmap string kind) : (expr -> expr) -> Prop :=
  leaf_sound fsig opsig sch ext ext_op.

(** An engine with a row hash and opaque constructors, for concrete evaluations: a hash
    of anything is the integer 7, every other function raises. *)
#[export] Program Instance toy_engine : ExprEngine | 100 := {|
  fsig fn ks := match fn with
                | FIsNan | FIsInf => Some KBool
                | FArray | FStruct _ => Some (KOther "nested")
                | FHashRows _ => Some KInt
                | FOther _ => Some KInt
                end;
  opsig _ _ _ := Some KInt;
  ext fn xs := match fn with
               | FIsNan | FIsInf => Ok (Some (VBool false))
               | FArray | FStruct _ => Ok (Some (VOther "nested" 0))
               | FHashRows _ => Ok (Some (VInt 7))
               | FOther _ => Raise "ComputeError"
               end;
  ext_op _ _ _ := Raise "ComputeError";
|}.
Next Obligation. intros [] ks xs k; cbn; try done; intros _ [= <-] _; eexists; done. Qed.
Next Obligation. intros [] ks xs k x; cbn; try done; intros [= <-] _ [= <-]; done. Qed.
Next Obligation. done. Qed.
Next Obligation. intros [] xs x; cbn; try done; intros _ [= <-]; done. Qed.

(** C28: expressions are type sound: on a row that fits the schema, a value an expression
    of static type [k] evaluates to is null or of kind [k], and an expression [safe_expr]
    admits always evaluates, so moving or duplicating it can introduce no error. *)
Theorem expression_type_sound `{!ExprEngine} sch e k row :
  type_of sch e = Some k -> row_ok sch row ->
  (forall x, run sch row e = Ok x -> has_kind k x) /\
  (safe_expr e = true -> exists x, run sch row e = Ok x /\ has_kind k x).
Proof.
  intros Hk Hr. split.
  - intros x. by apply (eval_kind fsig opsig sch ext ext_op ee_kind ee_op_kind e k row x Hk Hr).
  - intros Hs. by apply (safe_expr_evaluates fsig opsig sch ext ext_op ee_total e Hs k row).
Qed.

(** A schema with an integer column; the row's value is null or absent alike. *)
Lemma expression_type_sound_witness :
  let sch : gmap string kind := {["a" := KInt]} in
  let e := Coalesce [Col "a"; Lit (VInt 3)] in
  type_of sch e = Some KInt /\ exists x, run sch ∅ e = Ok x /\ has_kind KInt x.
Proof.
  cbv zeta. split; [reflexivity|].
  apply (expression_type_sound {["a" := KInt]} (Coalesce [Col "a"; Lit (VInt 3)]) KInt ∅).
  - reflexivity.
  - intros c v Hc. discriminate Hc.
  - reflexivity.
Defined.
