(* ===== verification/ExprAlgebra.v ===== *)
(** * Conjunctions, disjunctions and column substitution

    python/batcher/plan/expr_rewrite/algebra.py: splitting an AND or OR chain, building
    the balanced tree back, and inlining the expressions a projection defines. *)

From S2P Require Import Prelude ExprIR ExprSound.

(** [split_conjuncts] and [split_disjuncts] are the same walk at two operators. *)
Fixpoint split_op (op : binop) (e : expr) : list expr :=
  match e with
  | Binary op' a b => if decide (op' = op) then split_op op a ++ split_op op b else [e]
  | _ => [e]
  end.

Definition split_conjuncts : expr -> list expr := split_op And.
Definition split_disjuncts : expr -> list expr := split_op Or.

(** One pass of the pairwise fold; an odd tail carries forward. *)
Fixpoint pair_up (op : binop) (l : list expr) : list expr :=
  match l with
  | a :: b :: l' => Binary op a b :: pair_up op l'
  | l => l
  end.

(** The [while len(exprs) > 1] loop. *)
Fixpoint combine_loop (fuel : nat) (op : binop) (l : list expr) : res expr :=
  match l with
  | [] => Raise "PlanError"
  | [e] => Ok e
  | _ => match fuel with O => Raise "fuel" | S fuel' => combine_loop fuel' op (pair_up op l) end
  end.

Definition combine_conjuncts (l : list expr) : res expr := combine_loop (length l) And l.
Definition combine_disjuncts (l : list expr) : res expr := combine_loop (length l) Or l.

(** [substitute_columns]. *)
Definition substitute_columns (e : expr) (mapping : gmap string expr) : expr :=
  transform_expr_up (fun e => match e with
                              | Col c => default e (mapping !! c)
                              | _ => e
                              end) e.

(** ** Structure *)

Lemma pair_ind {A} (P : list A -> Prop) :
  P [] -> (forall a, P [a]) -> (forall a b l, P l -> P (a :: b :: l)) -> forall l, P l.
Proof.
  intros H0 H1 H2. fix IH 1. intros [|a [|b l]]; [done|apply H1|apply H2, IH].
Qed.

Lemma pair_up_length op l : length (pair_up op l) = Nat.div2 (S (length l)).
Proof. induction l as [| |a b l IH] using pair_ind; [done..|]. cbn. by rewrite IH. Qed.

Lemma div2_shrinks n : (2 <= n -> Nat.div2 (S n) < n /\ 0 < Nat.div2 (S n))%nat.
Proof.
  intros Hn. pose proof (Nat.div2_odd (S n)) as H. destruct (Nat.odd (S n)); unfold Nat.b2n in H; lia.
Qed.

Lemma combine_loop_step fuel op a b l :
  combine_loop (S fuel) op (a :: b :: l) = combine_loop fuel op (pair_up op (a :: b :: l)).
Proof. done. Qed.

(** Induction along the passes of the fold. *)
Lemma combine_ind op (P : list expr -> expr -> Prop) :
  (forall e, P [e] e) ->
  (forall l e, (2 <= length l)%nat -> P (pair_up op l) e -> P l e) ->
  forall l, l <> [] -> forall fuel, (length l <= fuel)%nat ->
  exists e, combine_loop fuel op l = Ok e /\ P l e.
Proof.
  intros H1 Hstep l Hne fuel. revert l Hne.
  induction fuel as [|fuel IH]; intros [|a [|b l]] Hne Hf; try done.
  - exfalso. cbn in Hf. lia.
  - exfalso. cbn in Hf. lia.
  - by exists a.
  - rewrite combine_loop_step. pose proof (pair_up_length op (a :: b :: l)) as Hlen.
    destruct (div2_shrinks (length (a :: b :: l))) as [Hlt Hpos]; [cbn; lia|].
    destruct (IH (pair_up op (a :: b :: l))) as (e & He & HP).
    + intros Hnil. rewrite Hnil in Hlen. change (length (@nil expr)) with O in Hlen. lia.
    + lia.
    + exists e. split; [done|]. apply Hstep; [cbn; lia|done].
Qed.

Lemma split_pair_up op l :
  concat (map (split_op op) (pair_up op l)) = concat (map (split_op op) l).
Proof.
  induction l as [| |a b l IH] using pair_ind; [done..|]. cbn. rewrite decide_True by done.
  by rewrite IH, app_assoc.
Qed.

(** Depth of the [op] spine of an expression. *)
Fixpoint op_depth (op : binop) (e : expr) : Z :=
  match e with
  | Binary op' a b => if decide (op' = op) then 1 + Z.max (op_depth op a) (op_depth op b) else 0
  | _ => 0
  end.

Lemma op_depth_nonneg op e : 0 <= op_depth op e.
Proof. induction e using expr_ind'; cbn; try lia. case_decide; lia. Qed.

Lemma pair_up_depth op l d :
  Forall (fun e => op_depth op e <= d) l -> Forall (fun e => op_depth op e <= d + 1) (pair_up op l).
Proof.
  induction l as [|a|a b l IH] using pair_ind; cbn; intros H; [constructor|..].
  - apply Forall_cons in H as [? _]. constructor; [lia|constructor].
  - apply Forall_cons in H as [? H]. apply Forall_cons in H as [? H]. constructor; [|by apply IH].
    cbn. rewrite decide_True by done. lia.
Qed.

Lemma log2_up_half n : (2 <= n)%nat -> Z.log2_up (Z.of_nat (Nat.div2 (S n))) + 1 <= Z.log2_up (Z.of_nat n).
Proof.
  intros Hn. pose proof (Nat.div2_odd (S n)) as Ho.
  set (m := Z.of_nat (Nat.div2 (S n))) in *. set (L := Z.log2_up (Z.of_nat n)).
  assert (1 <= L) as HL by (apply (Z.log2_up_le_mono 2 (Z.of_nat n)); lia).
  pose proof (proj2 (Z.log2_up_spec (Z.of_nat n) ltac:(lia))) as Hup. fold L in Hup.
  assert (m <= 2 ^ (L - 1)) as Hm.
  { assert (2 ^ L = 2 * 2 ^ (L - 1)) as Hp.
    { replace L with (1 + (L - 1)) at 1 by lia. rewrite Z.pow_add_r by lia. done. }
    destruct (Nat.odd (S n)); unfold Nat.b2n in Ho; lia. }
  enough (Z.log2_up m <= L - 1) by lia.
  rewrite <- (Z.log2_up_pow2 (L - 1)) by lia. by apply Z.log2_up_le_mono.
Qed.

(** Splitting inverts combining. *)
Lemma combine_split op l e :
  combine_loop (length l) op l = Ok e -> split_op op e = concat (map (split_op op) l).
Proof.
  intros He. destruct l as [|a l]; [done|].
  destruct (combine_ind op (fun l e => split_op op e = concat (map (split_op op) l)))
    with (l := a :: l) (fuel := length (a :: l)) as (e' & He' & Hs); [..|done|done|].
  - intros e1. cbn. by rewrite app_nil_r.
  - intros l' e1 _ IH. by rewrite IH, split_pair_up.
  - congruence.
Qed.

(** splitting inverts combining, and the tree is balanced: [combine_conjuncts] and
    [combine_disjuncts] of a non-empty list return a tree whose leaves, split back, are
    the splits of the inputs in order, and whose connective spine is no deeper than
    [ceil (log2 n)] above the deepest input.  The empty list raises [PlanError]. *)
Theorem combine_balanced op l d :
  Forall (fun e => op_depth op e <= d) l ->
  match combine_loop (length l) op l with
  | Ok e => l <> [] /\ split_op op e = concat (map (split_op op) l) /\
            op_depth op e <= d + Z.log2_up (Z.of_nat (length l))
  | Raise err => l = [] /\ err = "PlanError"
  end.
Proof.
  intros Hd. destruct l as [|a l]; [done|].
  destruct (combine_ind op (fun l e => forall d, Forall (fun e => op_depth op e <= d) l ->
        op_depth op e <= d + Z.log2_up (Z.of_nat (length l)))) with (l := a :: l) (fuel := length (a :: l))
    as (e & He & Hdep); [..|done|done|].
  - intros e d' [? _]%Forall_cons. change (Z.log2_up (Z.of_nat (length [e]))) with 0. lia.
  - intros l' e Hl' IHd d' Hd'.
    specialize (IHd (d' + 1) (pair_up_depth op l' d' Hd')).
    rewrite pair_up_length in IHd. pose proof (log2_up_half (length l') Hl'). lia.
  - rewrite He. split_and!; [done|by apply combine_split|by apply Hdep].
Qed.

Lemma combine_balanced_witness :
  let l := [Col "a"; Col "b"; Col "c"; Col "d"; Col "e"] in
  match combine_conjuncts l with
  | Ok e => l <> [] /\ split_conjuncts e = l /\ op_depth And e <= 0 + 3
  | Raise err => l = [] /\ err = "PlanError"
  end.
Proof.
  apply (combine_balanced And [Col "a"; Col "b"; Col "c"; Col "d"; Col "e"] 0).
  repeat constructor; cbn; lia.
Defined.

(** ** Meaning *)

Lemma kleene_and_assoc a b c : kleene_and a (kleene_and b c) = kleene_and (kleene_and a b) c.
Proof. destruct a as [[]|], b as [[]|], c as [[]|]; done. Qed.
Lemma kleene_or_assoc a b c : kleene_or a (kleene_or b c) = kleene_or (kleene_or a b) c.
Proof. destruct a as [[]|], b as [[]|], c as [[]|]; done. Qed.
Lemma kleene_and_true a : kleene_and a (Some true) = a.
Proof. by destruct a as [[]|]. Qed.
Lemma kleene_or_false a : kleene_or a (Some false) = a.
Proof. by destruct a as [[]|]. Qed.

Lemma as_bool_value b : as_bool (bool_value b) = Ok b.
Proof. by destruct b. Qed.

Definition kleene (op : binop) : option bool -> option bool -> option bool :=
  match op with And => kleene_and | _ => kleene_or end.
Definition kleene_unit (op : binop) : option bool :=
  match op with And => Some true | _ => Some false end.

Section Meaning.
Context (fsig : fname -> list kind -> option kind).
Context (opsig : string -> kind -> kind -> option kind).
Context (sch : gmap string kind).
Context (ext : fname -> list (option value) -> res (option value)).
Context (ext_op : string -> option value -> option value -> res (option value)).

Abbreviation kof := (kind_of fsig opsig sch).
Abbreviation ev := (eval fsig opsig sch ext ext_op).

(** Outcomes of boolean expressions, exceptions included. *)
Definition outcome row (e : expr) (o : res (option bool)) : Prop :=
  ev row e = (let* b := o in Ok (bool_value b)).

Definition kleene_res (op : binop) (a b : res (option bool)) : res (option bool) :=
  let* x := a in let* y := b in Ok (kleene op x y).

Lemma kleene_res_assoc op a b c :
  op = And \/ op = Or ->
  kleene_res op a (kleene_res op b c) = kleene_res op (kleene_res op a b) c.
Proof.
  intros [-> | ->]; destruct a, b, c; cbn; try done; [by rewrite kleene_and_assoc|by rewrite kleene_or_assoc].
Qed.

Lemma kleene_res_unit op a : op = And \/ op = Or -> kleene_res op a (Ok (kleene_unit op)) = a.
Proof.
  intros [-> | ->]; destruct a; cbn; try done; [by rewrite kleene_and_true|by rewrite kleene_or_false].
Qed.

Lemma eval_connective row op a b x y :
  op = And \/ op = Or -> outcome row a x -> outcome row b y ->
  outcome row (Binary op a b) (kleene_res op x y).
Proof.
  unfold outcome. intros Hop Ha Hb. cbn. rewrite Ha, Hb. destruct x as [x|], y as [y|]; try done.
  destruct Hop as [-> | ->]; cbn; rewrite as_bool_value; cbn; by rewrite as_bool_value.
Qed.

Lemma pair_up_eval row op l os :
  op = And \/ op = Or -> Forall2 (outcome row) l os ->
  exists os', Forall2 (outcome row) (pair_up op l) os' /\
    foldr (kleene_res op) (Ok (kleene_unit op)) os' = foldr (kleene_res op) (Ok (kleene_unit op)) os.
Proof.
  intros Hop. revert os. induction l as [|a|a b l IH] using pair_ind; intros os Hos.
  - exists os. split; done.
  - exists os. split; done.
  - inversion Hos as [|? x ? os1 Ha Hos1]; subst. inversion Hos1 as [|? y ? os2 Hb Hos2]; subst.
    destruct (IH os2 Hos2) as (os' & H1 & H2). exists (kleene_res op x y :: os'). split.
    + constructor; [by apply eval_connective|done].
    + cbn [foldr]. by rewrite H2, kleene_res_assoc.
Qed.

(** The tree means the Kleene fold of its inputs, evaluated left to right. *)
Lemma combine_eval row op l os e :
  op = And \/ op = Or -> Forall2 (outcome row) l os -> combine_loop (length l) op l = Ok e ->
  outcome row e (foldr (kleene_res op) (Ok (kleene_unit op)) os).
Proof.
  intros Hop Hos He. destruct l as [|a l]; [done|].
  destruct (combine_ind op (fun l e => forall os, Forall2 (outcome row) l os ->
      outcome row e (foldr (kleene_res op) (Ok (kleene_unit op)) os)))
    with (l := a :: l) (fuel := length (a :: l)) as (e' & He' & HP); [..|done|done|].
  - intros e1 os1 H1. inversion H1 as [|? x ? ? Hx Hr]; subst. inversion Hr; subst. cbn [foldr].
    by rewrite kleene_res_unit.
  - intros l' e1 _ IH os1 H1. destruct (pair_up_eval row op l' os1 Hop H1) as (os' & H2 & <-). auto.
  - rewrite He in He'. injection He' as <-. by apply HP.
Qed.

Lemma combine_kind op l e :
  op = And \/ op = Or -> Forall (fun e => kof e = Some KBool) l ->
  combine_loop (length l) op l = Ok e -> kof e = Some KBool.
Proof.
  intros Hop Hl He. destruct l as [|a l]; [done|].
  destruct (combine_ind op (fun l e => Forall (fun e => kof e = Some KBool) l -> kof e = Some KBool))
    with (l := a :: l) (fuel := length (a :: l)) as (e' & He' & HP); [..|done|done|].
  - by intros e1 [? _]%Forall_cons.
  - intros l' e1 _ IH H1. apply IH. clear -H1 Hop.
    induction l' as [| |x y l' IH] using pair_ind; [done..|]. cbn.
    apply Forall_cons in H1 as [Hx H1]. apply Forall_cons in H1 as [Hy H1].
    constructor; [|by apply IH]. cbn. rewrite Hx, Hy. cbn. by destruct Hop as [-> | ->].
  - rewrite He in He'. injection He' as <-. by apply HP.
Qed.

Lemma combine_total op l : l <> [] -> exists e, combine_loop (length l) op l = Ok e.
Proof.
  intros Hl. destruct (combine_ind op (fun _ _ => True)) with (l := l) (fuel := length l)
    as (e & He & _); [done..|eauto].
Qed.
End Meaning.

(** ** Substitution *)

Section Substitution.
Context (fsig : fname -> list kind -> option kind).
Context (opsig : string -> kind -> kind -> option kind).
Context (ext : fname -> list (option value) -> res (option value)).
Context (ext_op : string -> option value -> option value -> res (option value)).
(** Input schema and row, the mapping, and the output schema and row it defines. *)
Context (sch sch' : gmap string kind) (row row' : gmap string value).
Context (mapping : gmap string expr).

Hypothesis sch_mapped : forall c e, mapping !! c = Some e ->
  exists k, kind_of fsig opsig sch e = Some k /\ sch' !! c = Some k.
Hypothesis sch_other : forall c, mapping !! c = None -> sch' !! c = sch !! c.
Hypothesis row_mapped : forall c e, mapping !! c = Some e ->
  eval fsig opsig sch ext ext_op row e = Ok (row' !! c).
Hypothesis row_other : forall c, mapping !! c = None -> row' !! c = row !! c.

Abbreviation subst e := (substitute_columns e mapping).

Lemma opt_mapM_map {A B C} (f : A -> option B) (g : C -> A) l :
  opt_mapM f (map g l) = opt_mapM (fun x => f (g x)) l.
Proof. induction l; cbn; [done|]. by rewrite IHl. Qed.

Lemma opt_mapM_ext {A B} (f g : A -> option B) l :
  Forall (fun x => f x = g x) l -> opt_mapM f l = opt_mapM g l.
Proof. induction 1 as [|x l Hx _ IH]; cbn; [done|]. by rewrite Hx, IH. Qed.

Lemma res_mapM_map {A B C} (f : A -> res B) (g : C -> A) l :
  res_mapM f (map g l) = res_mapM (fun x => f (g x)) l.
Proof. induction l; cbn; [done|]. by rewrite IHl. Qed.

Lemma first_some_map (f f' : expr -> res (option value)) g l :
  Forall (fun x => f (g x) = f' x) l -> first_some f (map g l) = first_some f' l.
Proof. induction 1 as [|x l Hx _ IH]; cbn; [done|]. by rewrite Hx, IH. Qed.

Lemma first_true_map (f f' : expr -> res (option value)) g bs o :
  Forall (fun b => f (g b.1) = f' b.1 /\ f (g b.2) = f' b.2) bs ->
  first_true f (map (fun b => (g b.1, g b.2)) bs) o = first_true f' bs o.
Proof. induction 1 as [|x l [H1 H2] _ IH]; cbn; [done|]. by rewrite H1, H2, IH. Qed.

Lemma subst_kind e : kind_of fsig opsig sch (subst e) = kind_of fsig opsig sch' e.
Proof.
  unfold substitute_columns. induction e using expr_ind'; cbn -[sup_list];
    rewrite ?IHe, ?IHe1, ?IHe2, ?opt_mapM_map; try done;
    try (by rewrite (opt_mapM_ext _ _ _ H)).
  - destruct (mapping !! c) as [e|] eqn:E; cbn.
    + destruct (sch_mapped c e E) as (k & -> & ->). done.
    + by rewrite sch_other.
  - pose proof (opt_mapM_ext _ (fun b => kind_of fsig opsig sch' b.1) _
      (Forall_impl _ _ _ H (fun b Hb => proj1 Hb))) as H1.
    pose proof (opt_mapM_ext _ (fun b => kind_of fsig opsig sch' b.2) _
      (Forall_impl _ _ _ H (fun b Hb => proj2 Hb))) as H2.
    cbn [fst snd]. by rewrite H1, H2.
Qed.

Lemma subst_eval e :
  eval fsig opsig sch ext ext_op row (subst e) = eval fsig opsig sch' ext ext_op row' e.
Proof.
  pose proof subst_kind as Hk. unfold substitute_columns in *.
  induction e using expr_ind'.
  1-7, 11: cbn; rewrite ?IHe, ?IHe1, ?IHe2; try done.
  - destruct (mapping !! c) as [e|] eqn:E; cbn.
    + destruct (sch_mapped c e E) as (k & _ & ->). by apply row_mapped.
    + by rewrite sch_other, row_other.
  - cbn [transform_expr_up eval]. rewrite (first_some_map _ _ _ _ H).
    specialize (Hk (Coalesce l)). cbn [transform_expr_up] in Hk. by rewrite Hk.
  - cbn [transform_expr_up eval]. rewrite res_mapM_map, (res_mapM_ext _ _ _ H).
    specialize (Hk (Greatest l)). cbn [transform_expr_up] in Hk. by rewrite Hk.
  - cbn [transform_expr_up eval]. rewrite res_mapM_map, (res_mapM_ext _ _ _ H).
    specialize (Hk (Least l)). cbn [transform_expr_up] in Hk. by rewrite Hk.
  - cbn [transform_expr_up eval]. rewrite (first_true_map _ _ _ _ _ H), IHe.
    specialize (Hk (Case bs e)). cbn [transform_expr_up] in Hk. by rewrite Hk.
  - cbn [transform_expr_up eval]. by rewrite res_mapM_map, (res_mapM_ext _ _ _ H).
Qed.
End Substitution.

(** inlining is exact: evaluating an expression after [substitute_columns] over an
    operator's input row gives the outcome of evaluating it over the output row whose
    mapped columns hold the mapped expressions' values, at the same static type; this is
    what lets a filter move below a projection. *)
Theorem substitute_columns_exact fsig opsig ext ext_op sch sch' row row' mapping e :
  (forall c x, mapping !! c = Some x ->
     (exists k, kind_of fsig opsig sch x = Some k /\ sch' !! c = Some k) /\
     eval fsig opsig sch ext ext_op row x = Ok (row' !! c)) ->
  (forall c, mapping !! c = None -> sch' !! c = sch !! c /\ row' !! c = row !! c) ->
  kind_of fsig opsig sch (substitute_columns e mapping) = kind_of fsig opsig sch' e /\
  eval fsig opsig sch ext ext_op row (substitute_columns e mapping) =
    eval fsig opsig sch' ext ext_op row' e.
Proof.
  intros Hm Ho. split.
  - apply subst_kind; [apply Hm|apply Ho].
  - apply subst_eval; [intros; by eapply Hm|apply Ho|intros; by eapply Hm|apply Ho].
Qed.

Lemma substitute_columns_exact_witness :
  let mapping := {["y" := Binary Add (Col "x") (Lit (VInt 1))]} in
  let sch := {["x" := KInt]} in
  let sch' := {["x" := KInt; "y" := KInt]} in
  eval (fun _ _ => None) (fun _ _ _ => None) sch (fun _ _ => Ok None) (fun _ _ _ => Ok None)
    {["x" := VInt 4]} (substitute_columns (Binary CGt (Col "y") (Col "x")) mapping) =
  eval (fun _ _ => None) (fun _ _ _ => None) sch' (fun _ _ => Ok None) (fun _ _ _ => Ok None)
    {["x" := VInt 4; "y" := VInt 5]} (Binary CGt (Col "y") (Col "x")).
Proof.
  cbn zeta. refine (proj2 (substitute_columns_exact _ _ _ _ _ _ _ _ _ _ _ _)).
  - intros c x Hc. apply lookup_singleton_Some in Hc as [<- <-]. split; [|reflexivity].
    exists KInt. split; reflexivity.
  - intros c Hc. assert (c <> "y") by (intros ->; done).
    split; (destruct (decide (c = "x")) as [->|Hx]; [reflexivity|]);
      rewrite lookup_insert_ne, !lookup_singleton_ne by done; reflexivity.
Defined.
