(* ===== verification/RulesNull.v ===== *)
(** * Null-predicate rules

    python/batcher/kyber/rules/nulls/three_valued.py: [never_null] and the thirteen
    rewrites that collapse null tests, with the replacement guard of
    kyber/rules/extra/nullability.py ([_replaceable]) and the purity test of
    kyber/rules/extra/conditional/shared.py ([_pure]). *)

From S2P Require Import Prelude ExprIR ExprSound ExprAlgebra.

(** [never_null]. *)
Fixpoint never_null (e : expr) : bool :=
  match e with
  | Lit _ | IsNull _ | IsNotNull _ => true
  | Not a => never_null a
  | EFunc fn _ => never_null_fn fn
  | Coalesce l | Greatest l | Least l => existsb never_null l
  | Case bs o => forallb (fun b => never_null b.2) bs && never_null o
  | Binary And a b | Binary Or a b => never_null a && never_null b
  | _ => false
  end.

(** [_pure]: over the conditional nodes, falling back to the boolean and arithmetic
    vocabulary. *)
Fixpoint pure (e : expr) : bool :=
  match e with
  | Col _ | Lit _ => true
  | Binary op a b => safe_op op && pure a && pure b
  | Not a | IsNull a | IsNotNull a | InList a _ => pure a
  | Coalesce l | Greatest l | Least l => forallb pure l
  | NullIf a b => pure a && pure b
  | Case bs o => forallb (fun b => pure b.1 && pure b.2) bs && pure o
  | EFunc (FIsNan | FIsInf) l => forallb pure l
  | EFunc _ _ => false
  end.

Section Rules.
Context {eng : ExprEngine} (sch : gmap string kind).

(** [_replaceable] with a known schema. *)
Definition replaceable (original replacement : expr) (dropped : list expr) : bool :=
  forallb pure dropped &&
  match type_of sch original with
  | None => false
  | Some k => bool_decide (type_of sch replacement = Some k)
  end.

Definition is_null_never_null (e : expr) : expr :=
  match e with
  | IsNull a => if never_null a && safe_expr a then Lit (VBool false) else e
  | _ => e
  end.

Definition is_not_null_never_null (e : expr) : expr :=
  match e with
  | IsNotNull a => if never_null a && safe_expr a then Lit (VBool true) else e
  | _ => e
  end.

Definition coalesce_never_null (e : expr) : expr :=
  match e with
  | Coalesce (a :: b :: rest') =>
      let rest := b :: rest' in
      if never_null a && forallb safe_expr rest && replaceable e a rest then a else e
  | _ => e
  end.

(** The loop of [_coalesce_truncate] over [enumerate(inputs[:-1])], with the
    arguments already passed in [kept]. *)
Fixpoint truncate_loop (e : expr) (kept inputs : list expr) : expr :=
  match inputs with
  | [] => e
  | arg :: dropped =>
      match dropped with
      | [] => e
      | _ =>
          if never_null arg && forallb safe_expr dropped &&
             replaceable e (Coalesce (kept ++ [arg])) dropped
          then Coalesce (kept ++ [arg])
          else truncate_loop e (kept ++ [arg]) dropped
      end
  end.

Definition coalesce_truncate (e : expr) : expr :=
  match e with
  | Coalesce l => truncate_loop e [] l
  | _ => e
  end.

(** [_complementary_pair]. *)
Definition complementary_pair (left right : expr) : option expr :=
  match left, right with
  | IsNull a, IsNotNull b => if expr_eqb a b then Some a else None
  | IsNotNull b, IsNull a => if expr_eqb a b then Some a else None
  | _, _ => None
  end.

Definition null_tautology (e : expr) : expr :=
  match e with
  | Binary Or l r => match complementary_pair l r with
                     | Some x => if safe_expr x then Lit (VBool true) else e
                     | None => e
                     end
  | _ => e
  end.

Definition null_contradiction (e : expr) : expr :=
  match e with
  | Binary And l r => match complementary_pair l r with
                      | Some x => if safe_expr x then Lit (VBool false) else e
                      | None => e
                      end
  | _ => e
  end.

(** [check(x)]: the null test the rule moves inward. *)
Definition null_check (positive : bool) (e : expr) : expr :=
  if positive then IsNull e else IsNotNull e.

(** The argument of the expected null test. *)
Definition tested (positive : bool) (e : expr) : option expr :=
  match e, positive with
  | IsNull a, true | IsNotNull a, false => Some a
  | _, _ => None
  end.

Definition case_null_test (positive : bool) (e : expr) : expr :=
  match tested positive e with
  | Some (Case bs o) =>
      Case (map (fun b => (b.1, null_check positive b.2)) bs) (null_check positive o)
  | _ => e
  end.

(** The connective a null test turns an extreme into. *)
Definition connective (positive : bool) : binop := if positive then And else Or.

(** [_extreme_null_test]; [combine_*] never sees an empty list here. *)
Definition extreme_null_test (greatest positive : bool) (e : expr) : expr :=
  match tested positive e with
  | Some (Greatest args) =>
      if greatest && (1 <? length args)%nat then
        match combine_loop (length args) (connective positive)
                (map (null_check positive) args) with Ok x => x | Raise _ => e end
      else e
  | Some (Least args) =>
      if negb greatest && (1 <? length args)%nat then
        match combine_loop (length args) (connective positive)
                (map (null_check positive) args) with Ok x => x | Raise _ => e end
      else e
  | _ => e
  end.

(** The leaves of the registered rules, in registration order. *)
Definition three_valued_leaves : list (expr -> expr) :=
  [is_null_never_null; is_not_null_never_null; coalesce_never_null; coalesce_truncate;
   null_tautology; null_contradiction; case_null_test true; case_null_test false;
   extreme_null_test true true; extreme_null_test true false;
   extreme_null_test false true; extreme_null_test false false].

(** ** [never_null] *)

Abbreviation not_null e := (forall row x, run sch row e = Ok x -> x <> None).

Lemma extreme_some g acc xs :
  acc <> None \/ Exists (fun x => x <> None) xs -> foldl (extreme_step g) acc xs <> None.
Proof.
  revert acc. induction xs as [|x xs IH]; intros acc H; cbn.
  - destruct H as [?|H]; [done|]. by inversion H.
  - apply IH. destruct H as [H|H].
    + left. destruct acc as [a|], x as [v|]; cbn; try done. by destruct (vorder a v), g.
    + inversion H as [? ? Hx|? ? Hx]; subst; [left|by right].
      destruct acc as [a|], x as [v|]; cbn; try done. by destruct (vorder a v), g.
Qed.

Lemma mapM_exists_not_null row l xs :
  Forall (fun e => never_null e = true -> not_null e) l -> existsb never_null l = true ->
  res_mapM (run sch row) l = Ok xs -> Exists (fun x => x <> None) xs.
Proof.
  intros Hl. revert xs. induction Hl as [|e l He _ IH]; intros xs Hex Hxs; [done|]. cbn in *.
  apply res_bind_ok in Hxs as (x & Hx & Hxs). apply res_bind_ok in Hxs as (ys & Hys & [= <-]).
  apply orb_prop in Hex as [Hex|Hex]; [left|right; by apply IH]. by eapply He.
Qed.

Lemma first_some_not_null row l x :
  Forall (fun e => never_null e = true -> not_null e) l -> existsb never_null l = true ->
  first_some (run sch row) l = Ok x -> x <> None.
Proof.
  induction 1 as [|e l He _ IH]; intros Hex Hx; [done|]. cbn in *.
  apply res_bind_ok in Hx as (z & Hz & Hx). destruct z as [v|]; [by simplify_eq|].
  apply orb_prop in Hex as [Hex|Hex]; [|by apply IH]. by destruct (He Hex row None Hz).
Qed.

Lemma first_true_not_null row bs o x :
  Forall (fun b => never_null b.2 = true -> not_null b.2) bs ->
  forallb (fun b => never_null b.2) bs = true -> (forall y, o = Ok y -> y <> None) ->
  first_true (run sch row) bs o = Ok x -> x <> None.
Proof.
  intros Hbs. induction Hbs as [|b bs Hb _ IH]; intros Hn Ho Hx; cbn in *; [by apply Ho|].
  apply andb_prop in Hn as [? ?]. apply res_bind_ok in Hx as (z & Hz & Hx).
  apply res_bind_ok in Hx as (c & Hc & Hx). destruct c as [[]|]; [by eapply Hb|by apply IH..].
Qed.

Lemma to_kind_not_null k x z : x <> None -> to_kind k x = Ok z -> z <> None.
Proof. destruct k, x; cbn; try done. by intros _ [= <-]. Qed.

Lemma never_null_not_null e : never_null e = true -> not_null e.
Proof.
  unfold run.
  induction e using expr_ind'; intros Hn row x Hx; cbn in Hn; try done.
  - cbn in Hx. by simplify_eq.
  - destruct op; try done; apply andb_prop in Hn as [Ha Hb];
      (cbn in Hx; apply res_bind_ok in Hx as (x1 & Hx1 & Hx); apply res_bind_ok in Hx as (x2 & Hx2 & Hx);
       apply (IHe1 Ha) in Hx1; apply (IHe2 Hb) in Hx2; destruct x1 as [[]|], x2 as [[]|]; try done;
       cbn in Hx; simplify_eq; by destruct b, b0).
  - cbn in Hx. apply res_bind_ok in Hx as (x1 & Hx1 & Hx). apply (IHe Hn) in Hx1.
    destruct x1 as [[]|]; try done. cbn in Hx. by simplify_eq.
  - cbn in Hx. by apply res_bind_ok in Hx as (x1 & Hx1 & [= <-]).
  - cbn in Hx. by apply res_bind_ok in Hx as (x1 & Hx1 & [= <-]).
  - cbn [eval] in Hx. apply res_bind_ok in Hx as (z & Hz & Hx).
    eapply to_kind_not_null; [|exact Hx]. by eapply first_some_not_null.
  - cbn [eval] in Hx. apply res_bind_ok in Hx as (xs & Hxs & Hx). destruct (kind_of _ _ _ _); simplify_eq.
    eapply mapM_exists_not_null in Hxs; [|done|done]. apply extreme_some. right.
    induction Hxs as [y xs Hy|y xs _ IH]; cbn; [left; by destruct y|by right].
  - cbn [eval] in Hx. apply res_bind_ok in Hx as (xs & Hxs & Hx). destruct (kind_of _ _ _ _); simplify_eq.
    eapply mapM_exists_not_null in Hxs; [|done|done]. apply extreme_some. right.
    induction Hxs as [y xs Hy|y xs _ IH]; cbn; [left; by destruct y|by right].
  - apply andb_prop in Hn as [Hb Ho]. cbn [eval] in Hx. apply res_bind_ok in Hx as (z & Hz & Hx).
    eapply to_kind_not_null; [|exact Hx].
    eapply first_true_not_null; [|exact Hb| |exact Hz]; [|intros y Hy; by eapply (IHe Ho)].
    eapply Forall_impl; [exact H|by intros b []].
  - cbn in Hx. apply res_bind_ok in Hx as (xs & Hxs & Hx). by eapply ee_never_null.
Qed.

(** ** Each leaf is sound *)

Ltac open_kind :=
  repeat match goal with
  | H : _ ≫= _ = Some _ |- _ => apply bind_Some in H as (? & ? & ?)
  end.

Lemma safe_runs e k row :
  safe_expr e = true -> type_of sch e = Some k -> row_ok sch row ->
  exists x, run sch row e = Ok x /\ has_kind k x.
Proof.
  intros Hs Hk Hr. eapply (safe_expr_evaluates fsig opsig sch ext ext_op ee_total); done.
Qed.

Lemma run_kind e k row x :
  type_of sch e = Some k -> row_ok sch row -> run sch row e = Ok x -> has_kind k x.
Proof.
  intros Hk Hr Hx. by eapply (eval_kind fsig opsig sch ext ext_op ee_kind ee_op_kind).
Qed.

Lemma is_null_never_null_sound : sound_rule sch is_null_never_null.
Proof.
  intros e k Hk. destruct e; cbn [is_null_never_null]; try done.
  destruct (never_null e && safe_expr e) eqn:E; [|done]. apply andb_prop in E as [Hn Hs].
  cbn in Hk. open_kind. simplify_eq. split; [done|]. intros row Hr. cbn.
  destruct (safe_runs e _ row Hs H Hr) as (y & Hy & _). unfold run in Hy. rewrite Hy. cbn.
  apply (never_null_not_null e Hn) in Hy. by destruct y.
Qed.

Lemma is_not_null_never_null_sound : sound_rule sch is_not_null_never_null.
Proof.
  intros e k Hk. destruct e; cbn [is_not_null_never_null]; try done.
  destruct (never_null e && safe_expr e) eqn:E; [|done]. apply andb_prop in E as [Hn Hs].
  cbn in Hk. open_kind. simplify_eq. split; [done|]. intros row Hr. cbn.
  destruct (safe_runs e _ row Hs H Hr) as (y & Hy & _). unfold run in Hy. rewrite Hy. cbn.
  apply (never_null_not_null e Hn) in Hy. by destruct y.
Qed.

(** COALESCE stops at the first never-null argument. *)
Lemma first_some_stops row kept a rest :
  never_null a = true ->
  first_some (run sch row) (kept ++ a :: rest) = first_some (run sch row) (kept ++ [a]).
Proof.
  intros Hn. induction kept as [|b kept IH]; cbn.
  - destruct (run sch row a) as [x|err] eqn:Hx; [|done]. cbn.
    apply (never_null_not_null a Hn) in Hx. by destruct x.
  - destruct (run sch row b) as [[v|]|]; cbn; done.
Qed.

Lemma replaceable_kind e e' dropped k :
  replaceable e e' dropped = true -> type_of sch e = Some k -> type_of sch e' = Some k.
Proof. unfold replaceable. intros [_ Hr]%andb_prop Hk. rewrite Hk in Hr. by bsplit. Qed.

Lemma truncated_refines kept a rest :
  never_null a = true ->
  replaceable (Coalesce (kept ++ a :: rest)) (Coalesce (kept ++ [a])) rest = true ->
  rewrites sch (Coalesce (kept ++ a :: rest)) (Coalesce (kept ++ [a])).
Proof.
  intros Hn Hrep k Hk. pose proof (replaceable_kind _ _ _ _ Hrep Hk) as Hk'. split; [done|].
  intros row Hr. cbn [eval]. rewrite Hk. unfold type_of in Hk'. rewrite Hk'.
  pose proof (first_some_stops row kept a rest Hn) as Hf. unfold run in Hf. by rewrite Hf.
Qed.

Lemma coalesce_never_null_sound : sound_rule sch coalesce_never_null.
Proof.
  intros e. destruct e as [| | | | | | |[|a [|b rest]]| | | | |]; cbn [coalesce_never_null]; try done.
  destruct (_ && _ && _) eqn:E; [|done]. apply andb_prop in E as [[Hn _]%andb_prop Hrep].
  intros k Hk. pose proof (replaceable_kind _ _ _ _ Hrep Hk) as Hk'. split; [done|].
  intros row Hr. cbn [eval]. rewrite Hk.
  pose proof (first_some_stops row [] a (b :: rest) Hn) as Hf. unfold run in Hf.
  cbn [app] in Hf. rewrite Hf. cbn [first_some].
  destruct (eval fsig opsig sch ext ext_op row a) as [x|] eqn:Hx; [|done].
  pose proof (run_kind a k row x Hk' Hr Hx) as Hxk. pose proof (never_null_not_null a Hn _ _ Hx).
  destruct x as [v|]; [|done]. cbn in *. by rewrite <- Hxk, cast_id.
Qed.

Lemma truncate_loop_refines kept l :
  rewrites sch (Coalesce (kept ++ l)) (truncate_loop (Coalesce (kept ++ l)) kept l).
Proof.
  assert (forall full, full = kept ++ l ->
    rewrites sch (Coalesce full) (truncate_loop (Coalesce full) kept l)) as Hgen; [|by apply Hgen].
  revert kept. induction l as [|a [|b rest] IH]; intros kept full Hfull; [done..|].
  cbn [truncate_loop]. destruct (_ && _ && _) eqn:E.
  - apply andb_prop in E as [[Hn _]%andb_prop Hrep]. subst full. by apply truncated_refines.
  - apply IH. by rewrite <- app_assoc.
Qed.

Lemma coalesce_truncate_sound : sound_rule sch coalesce_truncate.
Proof. intros []; cbn [coalesce_truncate]; try done. apply (truncate_loop_refines []). Qed.

Lemma complementary_pair_cases l r x :
  complementary_pair l r = Some x ->
  (l = IsNull x /\ r = IsNotNull x) \/ (l = IsNotNull x /\ r = IsNull x).
Proof.
  destruct l, r; cbn; try done; destruct (expr_eqb _ _) eqn:E; try done; intros [= <-];
    apply expr_eqb_true in E; subst; auto.
Qed.

Lemma null_tautology_sound : sound_rule sch null_tautology.
Proof.
  intros e k Hk. destruct e as [| |[] l r| | | | | | | | | |]; cbn [null_tautology]; try done.
  destruct (complementary_pair l r) as [x|] eqn:Hc; [|done]. destruct (safe_expr x) eqn:Hs; [|done].
  apply complementary_pair_cases in Hc as [[-> ->]|[-> ->]]; cbn in Hk; open_kind; simplify_eq/=;
    (split; [done|]); intros row Hr; cbn;
    destruct (safe_runs x _ row Hs ltac:(done) Hr) as (y & Hy & _); unfold run in Hy; rewrite Hy; by destruct y.
Qed.

Lemma null_contradiction_sound : sound_rule sch null_contradiction.
Proof.
  intros e k Hk. destruct e as [| |[] l r| | | | | | | | | |]; cbn [null_contradiction]; try done.
  destruct (complementary_pair l r) as [x|] eqn:Hc; [|done]. destruct (safe_expr x) eqn:Hs; [|done].
  apply complementary_pair_cases in Hc as [[-> ->]|[-> ->]]; cbn in Hk; open_kind; simplify_eq/=;
    (split; [done|]); intros row Hr; cbn;
    destruct (safe_runs x _ row Hs ltac:(done) Hr) as (y & Hy & _); unfold run in Hy; rewrite Hy; by destruct y.
Qed.

(** *** Null tests over CASE *)

Lemma tested_check positive e a : tested positive e = Some a -> e = null_check positive a.
Proof. destruct e, positive; cbn; try done; by intros [= ->]. Qed.

Lemma check_kind positive a k :
  type_of sch (null_check positive a) = Some k <-> k = KBool /\ exists ka, type_of sch a = Some ka.
Proof.
  unfold type_of. destruct positive; cbn; (split;
    [intros Hk; open_kind; simplify_eq; eauto|intros (-> & ka & ->); done]).
Qed.

Definition test_value (positive : bool) (x : option value) : option value :=
  Some (VBool (if positive then negb (is_some_value x) else is_some_value x)).

Lemma check_run positive a row :
  run sch row (null_check positive a) = (let* x := run sch row a in Ok (test_value positive x)).
Proof. unfold run. by destruct positive. Qed.

Lemma test_value_cast positive k x : test_value positive (option_map (cast k) x) = test_value positive x.
Proof. by destruct x. Qed.

Lemma first_true_check positive row bs o :
  first_true (run sch row) (map (fun b => (b.1, null_check positive b.2)) bs)
    (let* x := o in Ok (test_value positive x)) =
  (let* x := first_true (run sch row) bs o in Ok (test_value positive x)).
Proof.
  induction bs as [|b bs IH]; cbn [map first_true]; [done|]. cbn [fst snd].
  destruct (run sch row b.1) as [x|]; [|done]. cbn. destruct (as_bool x) as [[[]|]|]; cbn; try done.
  by rewrite check_run.
Qed.

Lemma sup_list_bools (n : nat) : sup_list (replicate n KBool ++ [KBool]) = Some KBool.
Proof.
  destruct n; [done|]. cbn. induction n as [|n IH]; cbn; [done|exact IH].
Qed.

Lemma case_null_test_sound positive : sound_rule sch (case_null_test positive).
Proof.
  intros e k Hk. unfold case_null_test.
  destruct (tested positive e) as [[| | | | | | | | | | |bs o|]|] eqn:Ht; try done.
  apply tested_check in Ht as ->. apply check_kind in Hk as (-> & kc & Hkc).
  unfold type_of in Hkc. pose proof Hkc as Hkc'. cbn in Hkc. open_kind.
  destruct (forallb _ x) eqn:Hb; [|done].
  assert (kind_of fsig opsig sch (Case (map (fun b => (b.1, null_check positive b.2)) bs)
    (null_check positive o)) = Some KBool) as Hk2.
  { cbn [kind_of]. rewrite !opt_mapM_map. cbn [fst snd]. rewrite H. cbn. rewrite Hb.
    assert (opt_mapM (fun b => kind_of fsig opsig sch (null_check positive b.2)) bs =
            Some (replicate (length bs) KBool)) as ->.
    { clear -H0. rewrite opt_mapM_Some in H0. apply opt_mapM_Some.
      induction H0 as [|b k bs ks Hbk _ IH]; cbn; constructor; [|done].
      apply check_kind. eauto. }
    cbn. assert (kind_of fsig opsig sch (null_check positive o) = Some KBool) as ->
      by (apply check_kind; eauto).
    cbn. apply sup_list_bools. }
  split; [done|]. intros row Hr.
  transitivity (let* x := first_true (run sch row) bs (run sch row o) in Ok (test_value positive x)).
  - cbn [eval]. rewrite Hk2.
    pose proof (first_true_check positive row bs (run sch row o)) as Hf. rewrite <- check_run in Hf.
    unfold run in *. rewrite Hf. clear Hf. destruct (first_true _ _ _) as [y|]; cbn; [|done].
    unfold test_value. by destruct positive.
  - pose proof (check_run positive (Case bs o) row) as Hc. unfold run in Hc at 1. rewrite Hc.
    clear Hc. unfold run. cbn [eval]. rewrite Hkc'. destruct (first_true _ _ _) as [y|]; cbn; [|done].
    by rewrite test_value_cast.
Qed.

(** *** Null tests over GREATEST and LEAST *)

Definition test_bit (positive : bool) (x : option value) : option bool :=
  Some (if positive then negb (is_some_value x) else is_some_value x).

(** Testing every argument and combining the bits is testing whether any is present,
    with the first error of the list winning on both sides. *)
Lemma tests_fold positive (ev : expr -> res (option value)) args :
  foldr (kleene_res (connective positive)) (Ok (kleene_unit (connective positive)))
    (map (fun a => let* x := ev a in Ok (test_bit positive x)) args) =
  (let* xs := res_mapM ev args in
   Ok (Some (if positive then negb (existsb is_some_value xs) else existsb is_some_value xs))).
Proof.
  induction args as [|a args IH]; cbn [map foldr existsb res_mapM]; [by destruct positive|].
  rewrite IH. destruct (ev a) as [x|], (res_mapM ev args) as [xs|]; cbn; try done.
  by destruct positive, x, (existsb is_some_value xs).
Qed.

Lemma extreme_is_some g k xs :
  is_some_value (extreme g (map (option_map (cast k)) xs)) = existsb is_some_value xs.
Proof.
  unfold extreme. destruct (existsb is_some_value xs) eqn:E.
  - destruct (foldl _ _ _) eqn:F; [done|]. exfalso. revert F. apply extreme_some. right.
    apply existsb_exists in E as (x & Hin & Hx). apply Exists_exists. exists (option_map (cast k) x).
    split; [by apply list_elem_of_fmap_2, list_elem_of_In|by destruct x].
  - assert (Forall (fun x => x = None) xs) as Hn.
    { apply Forall_forall. intros x Hx. apply list_elem_of_In in Hx. destruct x as [v|]; [|done].
      assert (existsb is_some_value xs = true) by (apply existsb_exists; by eexists). congruence. }
    clear E. assert (forall acc, is_some_value acc = false ->
      is_some_value (foldl (extreme_step g) acc (map (option_map (cast k)) xs)) = false) as Hall; [|by apply Hall].
    induction Hn as [|x xs -> _ IH]; intros acc Hacc; cbn; [done|]. apply IH. by destruct acc.
Qed.

(** GREATEST and LEAST evaluate every argument and are null exactly when all are. *)
Lemma extreme_runs g args row kc :
  type_of sch (if g : bool then Greatest args else Least args) = Some kc ->
  run sch row (if g then Greatest args else Least args) =
  (let* xs := res_mapM (run sch row) args in Ok (extreme g (map (option_map (cast kc)) xs))).
Proof. unfold type_of, run. destruct g; intros Hk; cbn [eval]; by rewrite Hk. Qed.

Lemma extreme_arg_kinds g args kc :
  type_of sch (if g : bool then Greatest args else Least args) = Some kc ->
  Forall (fun a => exists ka, type_of sch a = Some ka) args.
Proof.
  unfold type_of. intros Hk.
  assert (exists ks, opt_mapM (kind_of fsig opsig sch) args = Some ks) as (ks & Hks)
    by (destruct g; cbn in Hk; open_kind; eauto).
  apply opt_mapM_Some in Hks. clear Hk. induction Hks; constructor; eauto.
Qed.

Lemma extreme_distributes g positive args x :
  combine_loop (length args) (connective positive) (map (null_check positive) args) = Ok x ->
  rewrites sch (null_check positive (if g : bool then Greatest args else Least args)) x.
Proof.
  intros Hx k Hk. apply check_kind in Hk as (-> & kc & Hkc).
  assert (connective positive = And \/ connective positive = Or) as Hop by (destruct positive; auto).
  rewrite <- (length_map (null_check positive)) in Hx. split.
  - eapply combine_kind; [exact Hop| |exact Hx]. apply Forall_map.
    eapply Forall_impl; [exact (extreme_arg_kinds g args kc Hkc)|]. intros a Ha. cbn. by apply check_kind.
  - intros row Hr.
    pose proof (combine_eval fsig opsig sch ext ext_op row _ (map (null_check positive) args)
      (map (fun a => let* x := run sch row a in Ok (test_bit positive x)) args) x Hop) as Hc.
    unfold outcome in Hc. rewrite tests_fold in Hc. rewrite Hc; [|clear; induction args|exact Hx].
    + pose proof (check_run positive (if g then Greatest args else Least args) row) as Hr'.
      unfold run in Hr' at 1. rewrite Hr', (extreme_runs g args row kc Hkc).
      destruct (res_mapM (run sch row) args) as [xs|]; [|done]. cbn. unfold test_value.
      rewrite extreme_is_some. by destruct positive.
    + constructor.
    + cbn. constructor; [|done]. pose proof (check_run positive a row) as Ha. unfold run in Ha at 1.
      rewrite Ha. by destruct (run sch row a).
Qed.

Lemma extreme_null_test_sound g positive : sound_rule sch (extreme_null_test g positive).
Proof.
  intros e. unfold extreme_null_test. destruct (tested positive e) as [a|] eqn:Ht; [|done].
  apply tested_check in Ht as ->.
  destruct a; try done; destruct g; cbn [andb negb]; try done; destruct (1 <? _)%nat; try done;
    destruct (combine_loop _ _ _) as [x|] eqn:Hx; try done.
  - by apply (extreme_distributes true).
  - by apply (extreme_distributes false).
Qed.
End Rules.

(** ** The rules *)

Lemma three_valued_leaves_sound `{!ExprEngine} sch : Forall (sound_rule sch) (three_valued_leaves sch).
Proof.
  unfold three_valued_leaves. rewrite !Forall_cons.
  split_and!; eauto using Forall_nil_2, is_null_never_null_sound, is_not_null_never_null_sound, coalesce_never_null_sound,
    coalesce_truncate_sound, null_tautology_sound, null_contradiction_sound,
    case_null_test_sound, extreme_null_test_sound.
Qed.

(** an expression [never_null] accepts never evaluates to null, on any row, under any
    engine whose constructors and row hashes are never null. *)
Theorem never_null_sound `{!ExprEngine} sch e :
  never_null e = true -> forall row, run sch row e <> Ok None.
Proof. intros Hn row Hx. by destruct (never_null_not_null sch e Hn row None Hx). Qed.

(** C33: each of the twelve null-predicate rewrites, driven bottom-up over a whole
    expression as the rule driver drives it, keeps the expression's static type and its
    outcome on every row of the schema: the same value, the same null, and the same error
    whenever the original raised. *)
Theorem three_valued_rules_sound `{!ExprEngine} sch leaf e k row :
  In leaf (three_valued_leaves sch) -> type_of sch e = Some k -> row_ok sch row ->
  type_of sch (transform_expr_up leaf e) = Some k /\
  run sch row (transform_expr_up leaf e) = run sch row e.
Proof.
  intros Hin Hk Hr. apply list_elem_of_In in Hin.
  pose proof (proj1 (Forall_forall _ _) (three_valued_leaves_sound sch) leaf Hin) as Hs.
  destruct (transform_up_refines fsig opsig sch ext ext_op leaf e Hs k Hk) as [? Hrun]. split; [done|by apply Hrun].
Qed.

(** *** Concrete instances *)

Definition null_schema : gmap string kind := {["a" := KInt; "b" := KInt]}.
Definition null_row : gmap string value := {["a" := VInt 5]}.

Lemma null_row_ok : row_ok null_schema null_row.
Proof.
  intros c v Hc. unfold null_row in Hc. apply lookup_singleton_Some in Hc as [<- <-]. done.
Qed.

(** [coalesce(b, 3)] is never null. *)
Lemma never_null_sound_witness :
  run null_schema null_row (Coalesce [Col "b"; Lit (VInt 3)]) <> Ok None.
Proof. apply (never_null_sound null_schema (Coalesce [Col "b"; Lit (VInt 3)]) eq_refl). Defined.

(** [not (greatest(a, b) is null)] becomes [not (a is null and b is null)]: true here. *)
Lemma three_valued_rules_sound_witness :
  let e := Not (IsNull (Greatest [Col "a"; Col "b"])) in
  let leaf := extreme_null_test true true in
  transform_expr_up leaf e = Not (Binary And (IsNull (Col "a")) (IsNull (Col "b"))) /\
  type_of null_schema (transform_expr_up leaf e) = Some KBool /\
  run null_schema null_row (transform_expr_up leaf e) = run null_schema null_row e /\
  run null_schema null_row e = Ok (Some (VBool true)).
Proof.
  cbv zeta. split; [reflexivity|].
  destruct (three_valued_rules_sound null_schema (extreme_null_test true true)
    (Not (IsNull (Greatest [Col "a"; Col "b"]))) KBool null_row) as [H1 H2].
  - cbn. tauto.
  - vm_compute. reflexivity.
  - apply null_row_ok.
  - split; [exact H1|]. split; [exact H2|]. vm_compute. reflexivity.
Defined.
