(* ===== verification/RulesBounds.v ===== *)
(** * Bounds on one operand

    python/batcher/kyber/rules/predicate_algebra/bounds.py: the nine rewrites that fold two
    comparisons of one operand with literals into one, over the comparison of Python
    literals the module relies on. *)

From S2P Require Import Prelude ExprIR ExprSound.
From Stdlib Require Import Floats.SpecFloat.

(** ** Comparing Python literals *)

(** An [int] against a [float], exactly: the float is [m * 2^e]. *)
Definition int_float_compare (z : Z) (f : spec_float) : option comparison :=
  match f with
  | S754_nan => None
  | S754_infinity s => Some (if s then Gt else Lt)
  | S754_zero _ => Some (z ?= 0)
  | S754_finite s m e =>
      let n := if s then Z.neg m else Z.pos m in
      Some (if 0 <=? e then z ?= n * 2 ^ e else z * 2 ^ (- e) ?= n)
  end.

(** The order Python gives two literals: [None] is a [TypeError], [Some None] an unordered
    pair (a NaN).  Booleans are integers; dates and times compare within their class. *)
Definition py_compare (a b : value) : option (option comparison) :=
  match a, b with
  | VStr s, VStr t => Some (Some (string_compare s t))
  | VFloat f, VFloat g => Some (SFcompare f g)
  | VInt x, VInt y => Some (Some (x ?= y))
  | VInt x, VBool y => Some (Some (x ?= bool_Z y))
  | VBool x, VInt y => Some (Some (bool_Z x ?= y))
  | VBool x, VBool y => Some (Some (bool_Z x ?= bool_Z y))
  | VInt x, VFloat f => Some (int_float_compare x f)
  | VBool x, VFloat f => Some (int_float_compare (bool_Z x) f)
  | VFloat f, VInt y => Some (option_map CompOpp (int_float_compare y f))
  | VFloat f, VBool y => Some (option_map CompOpp (int_float_compare (bool_Z y) f))
  | VOther k x, VOther k' y => if decide (k = k') then Some (Some (x ?= y)) else None
  | _, _ => None
  end.

(** [_lt]. *)
Definition py_lt (a b : value) : option bool :=
  match py_compare a b with
  | None => None
  | Some (Some Lt) => Some true
  | Some _ => Some false
  end.

(** [==], which answers [False] on incomparable classes instead of raising. *)
Definition py_eq (a b : value) : bool :=
  match py_compare a b with Some (Some Eq) => true | _ => false end.

(** [v in values]; two NaN literals are distinct objects. *)
Definition py_in (v : value) (vs : list value) : bool := existsb (py_eq v) vs.

(** ** Recognizers *)

(** [_scalar]. *)
Definition scalar (e : expr) : option value :=
  match e with
  | Lit (VBool _) => None
  | Lit v => Some v
  | _ => None
  end.

(** [COMPARISON_FLIP]; [None] on the operators it lacks. *)
Definition comparison_flip (op : binop) : option binop :=
  match op with
  | CLt => Some CGt | CGt => Some CLt | CLe => Some CGe | CGe => Some CLe
  | CEq => Some CEq | CNe => Some CNe
  | _ => None
  end.

(** [_comparison]. *)
Definition as_comparison (e : expr) : option (binop * expr * value) :=
  match e with
  | Binary op l r =>
      match comparison_flip op with
      | None => None
      | Some flipped =>
          match scalar r, scalar l with
          | Some v, _ => Some (op, l, v)
          | None, Some v => Some (flipped, r, v)
          | None, None => None
          end
      end
  | _ => None
  end.

(** [_same_operand]. *)
Definition same_operand : expr -> expr -> bool := expr_eqb.

(** [_UPPER] and [_LOWER]: the operators of a direction, with the inclusive flag. *)
Definition directions (upper : bool) (op : binop) : option bool :=
  match upper, op with
  | true, CLt | false, CGt => Some false
  | true, CLe | false, CGe => Some true
  | _, _ => None
  end.

(** ** The leaves *)

Definition widen_bound (upper : bool) (e : expr) : expr :=
  match e with
  | Binary Or l r =>
      match as_comparison l, as_comparison r with
      | Some (lop, lo, lv), Some (rop, ro, rv) =>
          match directions upper lop, directions upper rop with
          | Some linc, Some _ =>
              if same_operand lo ro then
                match py_lt lv rv with
                | None => e
                | Some less =>
                    if py_eq lv rv then if linc then l else r
                    else if (if upper then negb less else less) then l else r
                end
              else e
          | _, _ => e
          end
      | _, _ => e
      end
  | _ => e
  end.

Definition closes (upper : bool) (equality bound : binop * expr * value) : bool :=
  let '(eop, eo, ev) := equality in
  let '(bop, bo, bv) := bound in
  bool_decide (eop = CEq) && bool_decide (is_Some (directions upper bop)) &&
  same_operand eo bo && py_eq ev bv.

Definition inclusive (upper : bool) : binop := if upper then CLe else CGe.

Definition close_bound (upper : bool) (e : expr) : expr :=
  match e with
  | Binary Or l r =>
      match as_comparison l, as_comparison r with
      | Some ((_, lo, lv) as cl), Some ((_, ro, rv) as cr) =>
          if closes upper cl cr then Binary (inclusive upper) ro (Lit rv)
          else if closes upper cr cl then Binary (inclusive upper) lo (Lit lv)
          else e
      | _, _ => e
      end
  | _ => e
  end.

(** [_satisfies]. *)
Definition satisfies (v : value) (op : binop) (bound : value) : bool :=
  match py_lt v bound with
  | None => false
  | Some less =>
      let equal := py_eq v bound in
      match op with
      | CLt => less
      | CLe => less || equal
      | CGt => negb less && negb equal
      | CGe => negb less
      | CNe => negb equal
      | _ => false
      end
  end.

Definition absorbs (equality bound : binop * expr * value) : bool :=
  let '(eop, eo, ev) := equality in
  let '(bop, bo, bv) := bound in
  bool_decide (eop = CEq) && bool_decide (is_Some (comparison_flip bop)) && negb (bool_decide (bop = CEq)) &&
  same_operand eo bo && satisfies ev bop bv.

Definition equality_absorbs_bound (e : expr) : expr :=
  match e with
  | Binary And l r =>
      match as_comparison l, as_comparison r with
      | Some cl, Some cr => if absorbs cl cr then l else if absorbs cr cl then r else e
      | _, _ => e
      end
  | _ => e
  end.

(** [_in_list_values]. *)
Definition in_list_values (e : expr) : option (expr * list value) :=
  match e with
  | InList a vs => Some (a, vs)
  | _ => match as_comparison e with
         | Some (CEq, a, v) => Some (a, [v])
         | _ => None
         end
  end.

Definition is_in_list (e : expr) : bool := match e with InList _ _ => true | _ => false end.

(** [set(a) == set(b)] over literals drawn from the same objects. *)
Definition set_eq (a b : list value) : bool :=
  let sub x y := forallb (fun v => existsb (fun w => bool_decide (v = w) || py_eq v w) y) x in
  sub a b && sub b a.

Definition merge_in_lists (e : expr) : expr :=
  match e with
  | Binary Or l r =>
      if negb (is_in_list l) && negb (is_in_list r) then e
      else match in_list_values l, in_list_values r with
           | Some (lo, lvs), Some (ro, rvs) =>
               if same_operand lo ro then
                 let merged := lvs ++ List.filter (fun v => negb (py_in v lvs)) rvs in
                 if (length merged =? length lvs)%nat && set_eq merged (lvs ++ rvs) then l
                 else InList lo merged
               else e
           | _, _ => e
           end
  | _ => e
  end.

(** [_range]. *)
Definition as_range (e : expr) : option (expr * binop * value * binop * value) :=
  match e with
  | Binary And l r =>
      match as_comparison l, as_comparison r with
      | Some (lop, lo, lv), Some (rop, ro, rv) =>
          if same_operand lo ro then
            match directions false lop, directions true rop with
            | Some _, Some _ => Some (lo, lop, lv, rop, rv)
            | _, _ => match directions false rop, directions true lop with
                      | Some _, Some _ => Some (ro, rop, rv, lop, lv)
                      | _, _ => None
                      end
            end
          else None
      | _, _ => None
      end
  | _ => None
  end.

(** [_overlap]. *)
Definition overlap (low_l high_l low_r high_r : value) : option bool :=
  match py_lt high_l low_r, py_lt high_r low_l with
  | Some first, Some second => Some (negb (first || second))
  | _, _ => None
  end.

(** [_weaker_lower] and [_weaker_upper]. *)
Definition weaker_lower (a b : binop * value) : binop * value :=
  match py_lt a.2 b.2 with
  | None => if bool_decide (a.1 = CGe) then a else b
  | Some less => if py_eq a.2 b.2 then if bool_decide (a.1 = CGe) then a else b
                 else if less then a else b
  end.
Definition weaker_upper (a b : binop * value) : binop * value :=
  match py_lt a.2 b.2 with
  | None => if bool_decide (a.1 = CLe) then a else b
  | Some less => if py_eq a.2 b.2 then if bool_decide (a.1 = CLe) then a else b
                 else if less then b else a
  end.

Definition union_ranges (e : expr) : expr :=
  match e with
  | Binary Or l r =>
      match as_range l, as_range r with
      | Some (o, lowl_op, lowl, highl_op, highl), Some (o', lowr_op, lowr, highr_op, highr) =>
          if same_operand o o' then
            match overlap lowl highl lowr highr with
            | Some true =>
                let low := weaker_lower (lowl_op, lowl) (lowr_op, lowr) in
                let high := weaker_upper (highl_op, highl) (highr_op, highr) in
                Binary And (Binary low.1 o (Lit low.2)) (Binary high.1 o (Lit high.2))
            | _ => e
            end
          else e
      | _, _ => e
      end
  | _ => e
  end.

Definition fold_in_list_of_literal (e : expr) : expr :=
  match e with
  | InList (Lit v) vs => Lit (VBool (py_in v vs))
  | _ => e
  end.

Definition collapse_degenerate_range (e : expr) : expr :=
  match e with
  | Binary And l r =>
      match as_comparison l, as_comparison r with
      | Some (lop, lo, lv), Some (rop, ro, rv) =>
          if ((bool_decide (lop = CGe) && bool_decide (rop = CLe)) ||
              (bool_decide (lop = CLe) && bool_decide (rop = CGe))) &&
             same_operand lo ro && py_eq lv rv
          then Binary CEq lo (Lit lv) else e
      | _, _ => e
      end
  | _ => e
  end.

(** The leaves of [PREDICATE_BOUND_RULES]. *)
Definition bound_leaves : list (expr -> expr) :=
  [widen_bound true; widen_bound false; close_bound true; close_bound false;
   equality_absorbs_bound; merge_in_lists; union_ranges; fold_in_list_of_literal;
   collapse_degenerate_range].

(** ** Finite pieces of a total order are integers *)

Section Ranks.
Context {A} (cmp : A -> A -> comparison) (Hcmp : total_order cmp).

Definition below (a b : A) : bool := match cmp b a with Lt => true | _ => false end.
Definition rank (l : list A) (a : A) : Z := Z.of_nat (length (List.filter (below a) l)).

Lemma below_le l a b :
  (forall c, below a c = true -> below b c = true) ->
  (length (List.filter (below a) l) <= length (List.filter (below b) l))%nat.
Proof.
  intros Hab. induction l as [|c l IH]; cbn; [done|].
  destruct (below a c) eqn:Ha; [rewrite (Hab c Ha); cbn; lia|].
  destruct (below b c); cbn; lia.
Qed.

Lemma rank_lt l a b : In a l -> cmp a b = Lt -> (rank l a < rank l b)%Z.
Proof.
  unfold rank. intros Hin Hab. apply inj_lt.
  assert (forall c, below a c = true -> below b c = true) as Hle.
  { unfold below. intros c. destruct (cmp c a) eqn:Hca; try done. by rewrite (ord_trans _ Hcmp c a b). }
  induction l as [|c l IH]; cbn; [done|]. destruct Hin as [->|Hin].
  - unfold below at 1. rewrite (ord_refl _ Hcmp). unfold below at 2. rewrite Hab. cbn.
    pose proof (below_le l a b Hle). lia.
  - specialize (IH Hin). destruct (below a c) eqn:Ha; [rewrite (Hle c Ha); cbn; lia|].
    destruct (below b c); cbn; lia.
Qed.

Lemma rank_eq l a b : cmp a b = Eq -> rank l a = rank l b.
Proof.
  unfold rank. intros Hab. do 2 f_equal. apply List.filter_ext. intros c. unfold below.
  rewrite (ord_antisym _ Hcmp a c), (ord_antisym _ Hcmp b c). by rewrite (ord_eq _ Hcmp a b c).
Qed.

(** On the members of [l], [cmp] is the comparison of their ranks. *)
Lemma rank_spec l a b : In a l -> In b l -> cmp a b = (rank l a ?= rank l b).
Proof.
  intros Ha Hb. symmetry. destruct (cmp a b) eqn:E.
  - apply Z.compare_eq_iff. by apply rank_eq.
  - apply Z.compare_lt_iff. by apply rank_lt.
  - apply Z.compare_gt_iff. apply rank_lt; [done|]. by rewrite (ord_antisym _ Hcmp a b), E.
Qed.
End Ranks.

(** Replace comparisons of the listed values by comparisons of integers and case on them. *)
Ltac by_ranks l :=
  repeat match goal with
  | |- context [vorder ?a ?b] => rewrite (rank_spec vorder vorder_total l a b) by (cbn; tauto)
  | H : context [vorder ?a ?b] |- _ =>
      rewrite (rank_spec vorder vorder_total l a b) in H by (cbn; tauto)
  end;
  repeat match goal with
  | |- context [(?a ?= ?b)%Z] => destruct (Z.compare_spec a b)
  | H : context [(?a ?= ?b)%Z] |- _ => destruct (Z.compare_spec a b)
  end; cbn in *; try done; try lia.

(** ** Literals the rules compare as the engine does *)

Definition not_nan (v : value) : bool :=
  match v with VFloat S754_nan => false | _ => true end.

Lemma py_compare_vorder a b :
  kind_of_value a = kind_of_value b -> ordered (kind_of_value a) = true ->
  not_nan a = true -> not_nan b = true -> py_compare a b = Some (Some (vorder a b)).
Proof.
  destruct a as [|f| | |], b as [|g| | |]; cbn; try done; intros _ _ Hf Hg.
  destruct f as [|[]| |[]], g as [|[]| |[]]; done.
Qed.

Section Bounds.
Context {eng : ExprEngine} (sch : gmap string kind) (kl : kind).

(** A literal of the ordered kind [kl], not a NaN, against an operand that is coerced to
    [kl] (so the literal itself is compared as it stands). *)
Definition plain_pair (p : expr * value) : bool :=
  ordered kl && bool_decide (kind_of_value p.2 = kl) && not_nan p.2 &&
  match type_of sch p.1 with
  | Some ko => bool_decide (supertype ko kl = Some kl)
  | None => false
  end.

(** The comparisons with literals a node combines. *)
Fixpoint compared (e : expr) : list (expr * value) :=
  match e with
  | Binary And l r | Binary Or l r => compared l ++ compared r
  | InList (Lit v) vs => (Lit v, v) :: map (pair (Lit v)) vs
  | InList a vs => map (pair a) vs
  | _ => match as_comparison e with Some (_, o, v) => [(o, v)] | None => [] end
  end.

Definition plain (e : expr) : bool := forallb plain_pair (compared e).

(** [decides e o P]: [e] is null where [o] is, and otherwise [P] of [o]'s value. *)
Definition decides (e o : expr) (P : value -> bool) : Prop :=
  type_of sch e = Some KBool /\
  forall row, row_ok sch row ->
    run sch row e =
    (let* x := run sch row o in Ok (option_map (fun a => VBool (P (cast kl a))) x)).

Lemma decides_rewrites e e' o P Q :
  decides e o P -> decides e' o Q -> (forall a, P a = Q a) -> rewrites sch e e'.
Proof.
  intros [Hk He] [Hk' He'] HPQ k Hkk. unfold type_of in *. rewrite Hk in Hkk. simplify_eq.
  split; [done|]. intros row Hr. unfold run in *. rewrite He, He' by done.
  destruct (eval _ _ _ _ _ _ o) as [[v|]|]; cbn; [by rewrite HPQ|done..].
Qed.

Lemma decides_connective op l r o P Q :
  op = And \/ op = Or -> decides l o P -> decides r o Q ->
  decides (Binary op l r) o (fun a => match op with And => P a && Q a | _ => P a || Q a end).
Proof.
  intros Hop [Hkl Hl] [Hkr Hr]. unfold decides, type_of, run in *. split.
  - cbn. rewrite Hkl, Hkr. by destruct Hop as [-> | ->].
  - intros row Hrow. cbn [eval]. rewrite Hl, Hr by done.
    destruct (eval _ _ _ _ _ _ o) as [[v|]|]; cbn; [|by destruct Hop as [-> | ->]|done].
    destruct Hop as [-> | ->]; cbn; by destruct (P _), (Q _).
Qed.

Lemma plain_pair_spec o v :
  plain_pair (o, v) = true ->
  ordered kl = true /\ kind_of_value v = kl /\ not_nan v = true /\
  exists ko, type_of sch o = Some ko /\ supertype ko kl = Some kl.
Proof.
  unfold plain_pair. cbn. destruct (type_of sch o) as [ko|]; [|by rewrite andb_false_r].
  intros [[[? ?]%andb_prop ?]%andb_prop ?]%andb_prop. bsplit. eauto 8.
Qed.

(** The engine compares the coerced operand with the literal in the total order. *)
Lemma plain_compare o v ko a :
  plain_pair (o, v) = true -> type_of sch o = Some ko -> kind_of_value a = ko ->
  vcompare a v = Some (vorder (cast kl a) v) /\ vcompare v a = Some (CompOpp (vorder (cast kl a) v)).
Proof.
  intros (Hord & Hv & _ & ko' & Hko' & Hs)%plain_pair_spec Hko Ha. rewrite Hko in Hko'. simplify_eq.
  pose proof (supertype_sub _ _ _ Hs) as [Hsub _]. pose proof (cast_kind _ _ a Hsub eq_refl) as Hc.
  rewrite <- (ord_antisym _ vorder_total). unfold vcompare. rewrite Hs, (supertype_comm _ (kind_of_value a)), Hs.
  rewrite cast_id. destruct (cast (kind_of_value v) a), v; cbn in *; try done.
Qed.

Lemma run_operand o ko row x :
  type_of sch o = Some ko -> row_ok sch row -> run sch row o = Ok x -> has_kind ko x.
Proof. intros Hk Hr Hx. by eapply (eval_kind fsig opsig sch ext ext_op ee_kind ee_op_kind). Qed.

Lemma scalar_lit e v : scalar e = Some v -> e = Lit v.
Proof. destruct e as [|[]| | | | | | | | | | |]; cbn; try done; by intros [= <-]. Qed.

Lemma comparison_flip_cmp op op' c :
  comparison_flip op = Some op' -> cmp_test op' (CompOpp c) = cmp_test op c.
Proof. by destruct op, c; intros [= <-]. Qed.

Lemma comparison_kind op op' o v :
  comparison_flip op = Some op' -> plain_pair (o, v) = true ->
  type_of sch (Binary op o (Lit v)) = Some KBool /\ type_of sch (Binary op (Lit v) o) = Some KBool.
Proof.
  intros Hop (Hord & Hv & _ & ko & Hko & Hs)%plain_pair_spec. unfold type_of in *. cbn.
  rewrite Hko. cbn. rewrite Hv. unfold binary_kind, comparable.
  rewrite Hs, (supertype_comm kl ko), Hs. cbn. by destruct op; rewrite ?Hord.
Qed.

Lemma decides_lit_right op op' o v :
  comparison_flip op = Some op' -> plain_pair (o, v) = true ->
  decides (Binary op o (Lit v)) o (fun a => cmp_test op (vorder a v)).
Proof.
  intros Hop Hp. split; [by apply (comparison_kind op op')|]. intros row Hr. unfold run. cbn [eval].
  destruct (eval _ _ _ _ _ _ o) as [x|] eqn:Hx; [|done]. cbn.
  pose proof (plain_pair_spec _ _ Hp) as (_ & _ & _ & ko & Hko & _).
  pose proof (run_operand o ko row x Hko Hr Hx) as Hk.
  destruct x as [a|]; [|by destruct op]. destruct (plain_compare o v ko a Hp Hko Hk) as [Hc _].
  destruct op; try done; cbn; by rewrite Hc.
Qed.

Lemma decides_lit_left op op' o v :
  comparison_flip op = Some op' -> plain_pair (o, v) = true ->
  decides (Binary op (Lit v) o) o (fun a => cmp_test op' (vorder a v)).
Proof.
  intros Hop Hp. split; [by apply (comparison_kind op op')|]. intros row Hr. unfold run. cbn [eval].
  destruct (eval _ _ _ _ _ _ o) as [x|] eqn:Hx; [|done]. cbn.
  pose proof (plain_pair_spec _ _ Hp) as (_ & _ & _ & ko & Hko & _).
  pose proof (run_operand o ko row x Hko Hr Hx) as Hk.
  destruct x as [a|]; [|by destruct op]. destruct (plain_compare o v ko a Hp Hko Hk) as [_ Hc].
  cbn [option_map]. rewrite <- (CompOpp_involutive (vorder _ _)), (comparison_flip_cmp _ _ _ Hop).
  destruct op; try done; cbn; by rewrite Hc.
Qed.

Lemma decides_comparison e op o v :
  as_comparison e = Some (op, o, v) -> plain_pair (o, v) = true ->
  decides e o (fun a => cmp_test op (vorder a v)).
Proof.
  destruct e as [| |bop l r| | | | | | | | | |]; cbn; try done.
  destruct (comparison_flip bop) as [fop|] eqn:Hop; [|done].
  destruct (scalar r) as [w|] eqn:Hr; [|destruct (scalar l) as [w|] eqn:Hl; [|done]];
    intros [= <- <- <-] Hp.
  - apply scalar_lit in Hr as ->. by eapply decides_lit_right.
  - apply scalar_lit in Hl as ->. by eapply decides_lit_left.
Qed.

Abbreviation is_lt c := (match c with Lt => true | _ => false end).
Abbreviation is_eq c := (match c with Eq => true | _ => false end).

Lemma plain_py o v o' v' :
  plain_pair (o, v) = true -> plain_pair (o', v') = true ->
  py_lt v v' = Some (is_lt (vorder v v')) /\ py_eq v v' = is_eq (vorder v v').
Proof.
  intros (Hord & Hk & Hn & _)%plain_pair_spec (_ & Hk' & Hn' & _)%plain_pair_spec.
  unfold py_lt, py_eq. rewrite py_compare_vorder; [|congruence|congruence|done..].
  by destruct (vorder v v').
Qed.

Lemma compared_comparison e op o v : as_comparison e = Some (op, o, v) -> compared e = [(o, v)].
Proof.
  intros H. destruct e as [| |[] l r| | | | | | | | | |]; try done; cbn [compared]; by rewrite H.
Qed.

(** What a connective of two recognized comparisons tells. *)
Lemma plain_two op l r lop lo lv rop ro rv :
  op = And \/ op = Or ->
  as_comparison l = Some (lop, lo, lv) -> as_comparison r = Some (rop, ro, rv) ->
  plain (Binary op l r) = true ->
  plain_pair (lo, lv) = true /\ plain_pair (ro, rv) = true.
Proof.
  intros Hop Hl Hr Hp. unfold plain in Hp.
  replace (compared (Binary op l r)) with (compared l ++ compared r) in Hp by (by destruct Hop as [-> | ->]).
  rewrite (compared_comparison _ _ _ _ Hl), (compared_comparison _ _ _ _ Hr) in Hp. cbn in Hp.
  by apply andb_prop in Hp as [? [? _]%andb_prop].
Qed.

Ltac two_comparisons l r :=
  destruct (as_comparison l) as [[[lop lo] lv]|] eqn:Hl; [|done];
  destruct (as_comparison r) as [[[rop ro] rv]|] eqn:Hr; [|done].

Lemma widen_bound_sound upper e : plain e = true -> rewrites sch e (widen_bound upper e).
Proof.
  destruct e as [| |[] l r| | | | | | | | | |]; try done. cbn [widen_bound]. two_comparisons l r.
  intros Hp. destruct (directions upper lop) as [linc|] eqn:Hdl; [|done].
  destruct (directions upper rop) as [rinc|] eqn:Hdr; [|done].
  destruct (same_operand lo ro) eqn:Hs; [|done]. apply expr_eqb_true in Hs as <-.
  destruct (plain_two Or l r _ _ _ _ _ _ (or_intror eq_refl) Hl Hr Hp) as [Hpl Hpr].
  destruct (plain_py _ _ _ _ Hpl Hpr) as [Hlt Heq]. rewrite Hlt, Heq.
  pose proof (decides_comparison _ _ _ _ Hl Hpl) as Dl.
  pose proof (decides_comparison _ _ _ _ Hr Hpr) as Dr.
  pose proof (decides_connective Or l r lo _ _ (or_intror eq_refl) Dl Dr) as D.
  destruct (vorder lv rv) eqn:Hv; cbn; [destruct linc|destruct upper|destruct upper];
    (eapply decides_rewrites; [exact D|eassumption|]); intros a; cbn;
    (try destruct upper); (destruct lop; try done; destruct rop; try done); by_ranks [a; lv; rv].
Qed.

(** The shape both closing orders share: [b = v or b OP w] with [v] equal to [w]. *)
Lemma closes_pointwise upper eop eo ev bop bo bv a :
  closes upper (eop, eo, ev) (bop, bo, bv) = true ->
  plain_pair (eo, ev) = true -> plain_pair (bo, bv) = true ->
  eo = bo /\ cmp_test eop (vorder a ev) || cmp_test bop (vorder a bv) =
             cmp_test (inclusive upper) (vorder a bv).
Proof.
  unfold closes. intros [[[He Hd]%andb_prop Hs]%andb_prop Hv]%andb_prop Hpe Hpb.
  apply expr_eqb_true in Hs as <-. split; [done|]. bsplit. subst eop.
  destruct (plain_py _ _ _ _ Hpe Hpb) as [_ Heq]. rewrite Heq in Hv.
  destruct Hd as [inc Hd]. destruct upper, bop; try done; by_ranks [a; ev; bv].
Qed.

Lemma inclusive_flip upper : exists op', comparison_flip (inclusive upper) = Some op'.
Proof. destruct upper; eauto. Qed.

Lemma close_bound_sound upper e : plain e = true -> rewrites sch e (close_bound upper e).
Proof.
  destruct e as [| |[] l r| | | | | | | | | |]; try done. cbn [close_bound]. two_comparisons l r.
  intros Hp. destruct (plain_two Or l r _ _ _ _ _ _ (or_intror eq_refl) Hl Hr Hp) as [Hpl Hpr].
  pose proof (decides_comparison _ _ _ _ Hl Hpl) as Dl.
  pose proof (decides_comparison _ _ _ _ Hr Hpr) as Dr. destruct (inclusive_flip upper) as [iop Hi].
  destruct (closes upper (lop, lo, lv) (rop, ro, rv)) eqn:C1;
    [|destruct (closes upper (rop, ro, rv) (lop, lo, lv)) eqn:C2; [|done]].
  - pose proof (fun a => closes_pointwise _ _ _ _ _ _ _ a C1 Hpl Hpr) as Hpt.
    destruct (Hpt lv) as [<- _].
    eapply decides_rewrites; [exact (decides_connective Or l r lo _ _ (or_intror eq_refl) Dl Dr)|
      exact (decides_lit_right _ _ lo rv Hi Hpr)|]. intros a. by destruct (Hpt a).
  - pose proof (fun a => closes_pointwise _ _ _ _ _ _ _ a C2 Hpr Hpl) as Hpt.
    destruct (Hpt lv) as [-> _].
    eapply decides_rewrites; [exact (decides_connective Or l r lo _ _ (or_intror eq_refl) Dl Dr)|
      exact (decides_lit_right _ _ lo lv Hi Hpl)|].
    intros a. cbn beta iota. rewrite orb_comm. by destruct (Hpt a).
Qed.

(** [x = v] already decides [x OP w] when [v] satisfies it. *)
Lemma absorbs_pointwise eop eo ev bop bo bv a :
  absorbs (eop, eo, ev) (bop, bo, bv) = true ->
  plain_pair (eo, ev) = true -> plain_pair (bo, bv) = true ->
  eo = bo /\ cmp_test eop (vorder a ev) && cmp_test bop (vorder a bv) = cmp_test eop (vorder a ev).
Proof.
  unfold absorbs. intros [[[[He _]%andb_prop _]%andb_prop Hs]%andb_prop Hv]%andb_prop Hpe Hpb.
  apply expr_eqb_true in Hs as <-. split; [done|]. bsplit. subst eop. revert Hv. unfold satisfies.
  destruct (plain_py _ _ _ _ Hpe Hpb) as [Hlt Heq]. rewrite Hlt, Heq.
  destruct bop; intros Hv; try done; by_ranks [a; ev; bv].
Qed.

Lemma equality_absorbs_bound_sound e : plain e = true -> rewrites sch e (equality_absorbs_bound e).
Proof.
  destruct e as [| |[] l r| | | | | | | | | |]; try done. cbn [equality_absorbs_bound]. two_comparisons l r.
  intros Hp. destruct (plain_two And l r _ _ _ _ _ _ (or_introl eq_refl) Hl Hr Hp) as [Hpl Hpr].
  pose proof (decides_comparison _ _ _ _ Hl Hpl) as Dl.
  pose proof (decides_comparison _ _ _ _ Hr Hpr) as Dr.
  destruct (absorbs (lop, lo, lv) (rop, ro, rv)) eqn:C1;
    [|destruct (absorbs (rop, ro, rv) (lop, lo, lv)) eqn:C2; [|done]].
  - pose proof (fun a => absorbs_pointwise _ _ _ _ _ _ a C1 Hpl Hpr) as Hpt.
    destruct (Hpt lv) as [<- _].
    eapply decides_rewrites; [exact (decides_connective And l r lo _ _ (or_introl eq_refl) Dl Dr)|exact Dl|].
    intros a. by destruct (Hpt a).
  - pose proof (fun a => absorbs_pointwise _ _ _ _ _ _ a C2 Hpr Hpl) as Hpt.
    destruct (Hpt lv) as [-> _].
    eapply decides_rewrites; [exact (decides_connective And l r lo _ _ (or_introl eq_refl) Dl Dr)|exact Dr|].
    intros a. cbn beta iota. rewrite andb_comm. by destruct (Hpt a).
Qed.

Lemma collapse_degenerate_range_sound e :
  plain e = true -> rewrites sch e (collapse_degenerate_range e).
Proof.
  destruct e as [| |[] l r| | | | | | | | | |]; try done. cbn [collapse_degenerate_range]. two_comparisons l r.
  intros Hp. destruct (plain_two And l r _ _ _ _ _ _ (or_introl eq_refl) Hl Hr Hp) as [Hpl Hpr].
  destruct (_ && _ && _) eqn:C; [|done]. apply andb_prop in C as [[C Hs]%andb_prop Hv].
  apply expr_eqb_true in Hs as <-. destruct (plain_py _ _ _ _ Hpl Hpr) as [_ Heq]. rewrite Heq in Hv.
  pose proof (decides_comparison _ _ _ _ Hl Hpl) as Dl.
  pose proof (decides_comparison _ _ _ _ Hr Hpr) as Dr.
  eapply decides_rewrites; [exact (decides_connective And l r lo _ _ (or_introl eq_refl) Dl Dr)|
    exact (decides_lit_right CEq CEq lo lv eq_refl Hpl)|].
  intros a. cbn. apply orb_prop in C as [[? ?]%andb_prop|[? ?]%andb_prop]; bsplit; subst lop rop;
    by_ranks [a; lv; rv].
Qed.

(** *** Membership *)

Abbreviation hits vs a := (existsb (fun v => is_eq (vorder a v)) vs).

Lemma plain_member o ko vs a :
  Forall (fun v => plain_pair (o, v) = true) vs -> type_of sch o = Some ko -> kind_of_value a = ko ->
  member a vs = Ok (hits vs (cast kl a)).
Proof.
  intros Hvs Hko Ha. induction Hvs as [|v vs Hv _ IH]; cbn [member existsb]; [done|].
  destruct (plain_compare o v ko a Hv Hko Ha) as [-> _]. rewrite IH. cbn.
  by destruct (vorder (cast kl a) v).
Qed.

Lemma decides_in_list o ko vs :
  type_of sch o = Some ko -> Forall (fun v => plain_pair (o, v) = true) vs ->
  decides (InList o vs) o (fun a => hits vs a).
Proof.
  intros Hko Hvs. split.
  - unfold type_of in *. cbn. rewrite Hko. cbn.
    assert (forallb (fun v => comparable ko (kind_of_value v)) vs = true) as ->; [|done].
    apply forallb_forall. intros v Hv%list_elem_of_In. rewrite Forall_forall in Hvs.
    apply Hvs, plain_pair_spec in Hv as (Hord & -> & _ & ko' & Hko' & Hs). unfold type_of in *.
    rewrite Hko in Hko'. simplify_eq. unfold comparable. by rewrite Hs.
  - intros row Hr. unfold run. cbn [eval].
    destruct (eval _ _ _ _ _ _ o) as [x|] eqn:Hx; [|done]. cbn.
    pose proof (run_operand o ko row x Hko Hr Hx) as Hk. destruct x as [a|]; [|done].
    by rewrite (plain_member o ko vs a Hvs Hko Hk).
Qed.

Lemma forallb_pairs (o : expr) (vs : list value) :
  forallb plain_pair (map (pair o) vs) = true -> Forall (fun v => plain_pair (o, v) = true) vs.
Proof.
  induction vs as [|v vs IH]; cbn; [constructor|]. intros [? ?]%andb_prop. constructor; auto.
Qed.

Lemma compared_in_list o vs :
  forallb plain_pair (compared (InList o vs)) = true -> Forall (fun v => plain_pair (o, v) = true) vs.
Proof.
  destruct o; cbn [compared]; try apply forallb_pairs.
  cbn. intros [_ ?]%andb_prop. by apply forallb_pairs.
Qed.

(** A side of a mergeable disjunction is a membership test of its operand. *)
Lemma decides_in_list_values e k o vs :
  in_list_values e = Some (o, vs) -> forallb plain_pair (compared e) = true -> type_of sch e = Some k ->
  decides e o (fun a => hits vs a) /\ (exists ko, type_of sch o = Some ko) /\
  Forall (fun v => plain_pair (o, v) = true) vs.
Proof.
  intros Hin Hp Hk.
  assert (forall v, as_comparison e = Some (CEq, o, v) -> vs = [v] ->
    decides e o (fun a => hits vs a) /\ (exists ko, type_of sch o = Some ko) /\
    Forall (fun v => plain_pair (o, v) = true) vs) as Hcmp.
  { intros v Hc ->. rewrite (compared_comparison _ _ _ _ Hc) in Hp. cbn in Hp.
    apply andb_prop in Hp as [Hv _]. pose proof (plain_pair_spec _ _ Hv) as (_ & _ & _ & ko & Hko & _).
    split; [|by eauto using Forall_cons_2, Forall_nil_2].
    destruct (decides_comparison _ _ _ _ Hc Hv) as [? HD]. split; [done|]. intros row Hr.
    rewrite HD by done. destruct (run sch row o) as [[a|]|]; cbn; [|done..]. by rewrite orb_false_r. }
  destruct e as [| |bop l r| | | |a ws| | | | | |]; try done.
  - unfold in_list_values in Hin. destruct (as_comparison _) as [[[[] ?] ?]|] eqn:Hc; simplify_eq. by eapply Hcmp.
  - cbn in Hin. simplify_eq. pose proof (compared_in_list _ _ Hp) as Hvs.
    unfold type_of in Hk. cbn in Hk. apply bind_Some in Hk as (ko & Hko & _).
    split; [by eapply decides_in_list|]. eauto.
Qed.

Lemma hits_merged lvs rvs a :
  Forall (fun v => Forall (fun w => py_eq v w = is_eq (vorder v w)) lvs) rvs ->
  hits (lvs ++ List.filter (fun v => negb (py_in v lvs)) rvs) a = hits lvs a || hits rvs a.
Proof.
  intros Hpy. rewrite existsb_app. destruct (hits lvs a) eqn:Hl; cbn; [done|].
  induction Hpy as [|v rvs Hv _ IH]; cbn; [done|].
  destruct (py_in v lvs) eqn:Hin; cbn; rewrite IH; [|done].
  assert (is_eq (vorder a v) = false) as Hav; [|by rewrite Hav].
  apply existsb_exists in Hin as (w & Hw & Hvw). rewrite Forall_forall in Hv.
  rewrite (Hv w) in Hvw by (by apply list_elem_of_In).
  destruct (is_eq (vorder a w)) eqn:Haw.
  - assert (hits lvs a = true) as Ht by (apply existsb_exists; eauto). congruence.
  - by_ranks [a; v; w].
Qed.

Lemma merge_in_lists_sound e : plain e = true -> rewrites sch e (merge_in_lists e).
Proof.
  destruct e as [| |[] l r| | | | | | | | | |]; try done. intros Hp.
  cbn [merge_in_lists]. destruct (negb (is_in_list l) && negb (is_in_list r)); [done|].
  destruct (in_list_values l) as [[lo lvs]|] eqn:Hl; [|done].
  destruct (in_list_values r) as [[ro rvs]|] eqn:Hr; [|done].
  destruct (same_operand lo ro) eqn:Hs; [|done]. apply expr_eqb_true in Hs as <-.
  unfold plain in Hp. cbn [compared] in Hp. rewrite forallb_app in Hp. apply andb_prop in Hp as [Hpl Hpr].
  intros k Hk. pose proof Hk as Hk'. cbn in Hk'.
  apply bind_Some in Hk' as (kl' & Hkl & Hk'). apply bind_Some in Hk' as (kr & Hkr & _).
  destruct (decides_in_list_values l kl' lo lvs Hl Hpl Hkl) as (Dl & (ko & Hko) & Hlvs).
  destruct (decides_in_list_values r kr lo rvs Hr Hpr Hkr) as (Dr & _ & Hrvs).
  pose proof (decides_connective Or l r lo _ _ (or_intror eq_refl) Dl Dr) as D.
  assert (Forall (fun v => Forall (fun w => py_eq v w = is_eq (vorder v w)) lvs) rvs) as Hpy.
  { eapply Forall_impl; [exact Hrvs|]. intros v Hv. eapply Forall_impl; [exact Hlvs|]. intros w Hw.
    by destruct (plain_py _ _ _ _ Hv Hw). }
  revert k Hk. destruct (_ && _) eqn:C.
  - apply andb_prop in C as [C%Nat.eqb_eq _]. eapply decides_rewrites; [exact D|exact Dl|]. intros a. cbn.
    rewrite <- hits_merged by done. rewrite length_app in C.
    destruct (List.filter _ rvs); [by rewrite app_nil_r|cbn in C; lia].
  - eapply decides_rewrites; [exact D|eapply (decides_in_list lo ko); [done|]|].
    + apply Forall_app_2; [done|]. apply Forall_forall. intros v Hv%list_elem_of_In.
      apply filter_In in Hv as [Hv%list_elem_of_In _]. rewrite Forall_forall in Hrvs. by apply Hrvs.
    + intros a. cbn. by rewrite hits_merged.
Qed.

Lemma fold_in_list_of_literal_sound e : plain e = true -> rewrites sch e (fold_in_list_of_literal e).
Proof.
  destruct e as [| | | | | |[| v | | | | | | | | | | |] vs| | | | | |]; try done.
  cbn [fold_in_list_of_literal]. unfold plain. cbn [compared forallb]. intros [Hv Hvs]%andb_prop.
  apply forallb_pairs in Hvs. destruct (decides_in_list (Lit v) (kind_of_value v) vs eq_refl Hvs) as [Hk HD].
  intros k Hkk. unfold type_of in Hk. rewrite Hk in Hkk. simplify_eq. split; [done|]. intros row Hr.
  unfold run in HD. rewrite HD by done. cbn. do 3 f_equal.
  pose proof (plain_pair_spec _ _ Hv) as (_ & <- & _). rewrite cast_id. unfold py_in.
  clear - Hv Hvs. induction Hvs as [|w vs Hw _ IH]; cbn; [done|]. rewrite IH.
  destruct (plain_py _ _ _ _ Hv Hw) as [_ ->]. done.
Qed.

(** *** Ranges *)

Lemma decides_range e o lop lv hop hv :
  as_range e = Some (o, lop, lv, hop, hv) -> forallb plain_pair (compared e) = true ->
  (plain_pair (o, lv) = true /\ plain_pair (o, hv) = true /\
   (exists b, directions false lop = Some b) /\ exists b, directions true hop = Some b) /\
  decides e o (fun a => cmp_test lop (vorder a lv) && cmp_test hop (vorder a hv)).
Proof.
  destruct e as [| |[] l r| | | | | | | | | |]; try done. cbn [as_range].
  destruct (as_comparison l) as [[[op1 o1] v1]|] eqn:Hl; [|done].
  destruct (as_comparison r) as [[[op2 o2] v2]|] eqn:Hr; [|done].
  destruct (same_operand o1 o2) eqn:Hs; [|done]. apply expr_eqb_true in Hs as <-.
  intros Hd Hp. destruct (plain_two And l r _ _ _ _ _ _ (or_introl eq_refl) Hl Hr Hp) as [Hp1 Hp2].
  pose proof (decides_connective And l r o1 _ _ (or_introl eq_refl)
    (decides_comparison _ _ _ _ Hl Hp1) (decides_comparison _ _ _ _ Hr Hp2)) as D.
  destruct (directions false op1) as [b1|] eqn:E1, (directions true op2) as [b2|] eqn:E2;
    [simplify_eq; split; [by eauto 8|exact D]|..];
    (destruct (directions false op2) as [b3|] eqn:E3; [|done];
     destruct (directions true op1) as [b4|] eqn:E4; [|done]; simplify_eq;
     split; [by eauto 8|]; destruct D as [Hk HD]; split; [done|]; intros row Hrow;
     rewrite HD by done; destruct (run sch row o) as [[a|]|]; cbn; by rewrite 1?andb_comm).
Qed.

Lemma joined_pointwise lop lv hop hv lop' lv' hop' hv' a :
  (exists b, directions false lop = Some b) -> (exists b, directions true hop = Some b) ->
  (exists b, directions false lop' = Some b) -> (exists b, directions true hop' = Some b) ->
  negb (is_lt (vorder hv lv') || is_lt (vorder hv' lv)) = true ->
  negb (is_eq (vorder hv lv') && bool_decide (hop = CLt) && bool_decide (lop' = CGt)) &&
  negb (is_eq (vorder hv' lv) && bool_decide (hop' = CLt) && bool_decide (lop = CGt)) = true ->
  (cmp_test lop (vorder a lv) && cmp_test hop (vorder a hv)) ||
  (cmp_test lop' (vorder a lv') && cmp_test hop' (vorder a hv')) =
  (cmp_test lop (vorder a lv) || cmp_test lop' (vorder a lv')) &&
  (cmp_test hop (vorder a hv) || cmp_test hop' (vorder a hv')).
Proof.
  intros [b1 H1] [b2 H2] [b3 H3] [b4 H4].
  destruct lop; try done; destruct hop; try done; destruct lop'; try done; destruct hop'; try done;
    clear; intros Ho Hj; by_ranks [a; lv; hv; lv'; hv'].
Qed.

(** Two ranges of one operand that do not merely touch at a point both exclude. *)
Definition joined (e : expr) : bool :=
  match e with
  | Binary Or l r =>
      match as_range l, as_range r with
      | Some (_, lowl_op, lowl, highl_op, highl), Some (_, lowr_op, lowr, highr_op, highr) =>
          negb (py_eq highl lowr && bool_decide (highl_op = CLt) && bool_decide (lowr_op = CGt)) &&
          negb (py_eq highr lowl && bool_decide (highr_op = CLt) && bool_decide (lowl_op = CGt))
      | _, _ => true
      end
  | _ => true
  end.

Lemma weaker_lower_spec o lop lv lop' lv' a :
  plain_pair (o, lv) = true -> plain_pair (o, lv') = true ->
  (exists b, directions false lop = Some b) -> (exists b, directions false lop' = Some b) ->
  let w := weaker_lower (lop, lv) (lop', lv') in
  (w = (lop, lv) \/ w = (lop', lv')) /\
  cmp_test w.1 (vorder a w.2) = cmp_test lop (vorder a lv) || cmp_test lop' (vorder a lv').
Proof.
  intros Hp Hp' [b Hb] [b' Hb']. unfold weaker_lower. cbn [fst snd].
  destruct (plain_py _ _ _ _ Hp Hp') as [-> ->].
  destruct lop; try done; destruct lop'; try done; destruct (vorder lv lv') eqn:E;
    try case_bool_decide; try done; cbn [fst snd]; (split; [by eauto|]); by_ranks [a; lv; lv'].
Qed.

Lemma weaker_upper_spec o hop hv hop' hv' a :
  plain_pair (o, hv) = true -> plain_pair (o, hv') = true ->
  (exists b, directions true hop = Some b) -> (exists b, directions true hop' = Some b) ->
  let w := weaker_upper (hop, hv) (hop', hv') in
  (w = (hop, hv) \/ w = (hop', hv')) /\
  cmp_test w.1 (vorder a w.2) = cmp_test hop (vorder a hv) || cmp_test hop' (vorder a hv').
Proof.
  intros Hp Hp' [b Hb] [b' Hb']. unfold weaker_upper. cbn [fst snd].
  destruct (plain_py _ _ _ _ Hp Hp') as [-> ->].
  destruct hop; try done; destruct hop'; try done; destruct (vorder hv hv') eqn:E;
    try case_bool_decide; try done; cbn [fst snd]; (split; [by eauto|]); by_ranks [a; hv; hv'].
Qed.

Lemma direction_flip u op b : directions u op = Some b -> exists op', comparison_flip op = Some op'.
Proof. destruct u, op; cbn; try done; eauto. Qed.

(** A bound picked from two is decided as the weaker of the two. *)
Lemma decides_weaker (u : bool) o (w c1 c2 : binop * value) :
  (w = c1 \/ w = c2) -> plain_pair (o, c1.2) = true -> plain_pair (o, c2.2) = true ->
  (exists b, directions u c1.1 = Some b) -> (exists b, directions u c2.1 = Some b) ->
  decides (Binary w.1 o (Lit w.2)) o (fun a => cmp_test w.1 (vorder a w.2)).
Proof.
  intros [-> | ->] H1 H2 [b1 (? & ?)%direction_flip] [b2 (? & ?)%direction_flip];
    by eapply decides_lit_right.
Qed.

Lemma union_ranges_sound e : plain e = true -> joined e = true -> rewrites sch e (union_ranges e).
Proof.
  destruct e as [| |[] l r| | | | | | | | | |]; try done. intros Hp. unfold plain in Hp. cbn [compared] in Hp.
  rewrite forallb_app in Hp. apply andb_prop in Hp as [Hpl Hpr]. cbn [union_ranges joined].
  destruct (as_range l) as [[[[[o lop] lv] hop] hv]|] eqn:Hl; [|done].
  destruct (as_range r) as [[[[[o' lop'] lv'] hop'] hv']|] eqn:Hr; [|done].
  destruct (same_operand o o') eqn:Hs; [|done]. apply expr_eqb_true in Hs as <-.
  destruct (decides_range _ _ _ _ _ _ Hl Hpl) as [(Hlv & Hhv & Hlop & Hhop) Dl].
  destruct (decides_range _ _ _ _ _ _ Hr Hpr) as [(Hlv' & Hhv' & Hlop' & Hhop') Dr].
  unfold overlap. destruct (plain_py _ _ _ _ Hhv Hlv') as [-> ->], (plain_py _ _ _ _ Hhv' Hlv) as [-> ->].
  destruct (negb (_ || _)) eqn:Ho; [|done]. intros Hj.
  pose proof (fun a => weaker_lower_spec o lop lv lop' lv' a Hlv Hlv' Hlop Hlop') as Hlow.
  pose proof (fun a => weaker_upper_spec o hop hv hop' hv' a Hhv Hhv' Hhop Hhop') as Hhigh.
  eapply decides_rewrites; [exact (decides_connective Or l r o _ _ (or_intror eq_refl) Dl Dr)|
    eapply decides_connective; [by left|..]|].
  - eapply (decides_weaker false o _ (lop, lv) (lop', lv')); cbn; [apply (Hlow lv)|done..].
  - eapply (decides_weaker true o _ (hop, hv) (hop', hv')); cbn; [apply (Hhigh lv)|done..].
  - intros a. cbn beta iota. rewrite (proj2 (Hlow a)), (proj2 (Hhigh a)). clear - Hlop Hhop Hlop' Hhop' Ho Hj.
    by eapply joined_pointwise.
Qed.
End Bounds.

(** ** The rules *)

(** C34: every leaf of the bound rules keeps the static type and the outcome (value, null or
    error) of the disjunction or conjunction it folds, on every row, when the literals it
    compares are of one ordered type at least as wide as the operand's and none is a NaN;
    the range union needs in addition that the ranges do not merely touch at an endpoint
    both exclude. *)
Theorem bound_rules_sound `{!ExprEngine} sch kl leaf e k row :
  In leaf bound_leaves -> plain sch kl e = true -> (leaf = union_ranges -> joined e = true) ->
  type_of sch e = Some k -> row_ok sch row ->
  type_of sch (leaf e) = Some k /\ run sch row (leaf e) = run sch row e.
Proof.
  intros Hin Hp Hj Hk Hr. assert (rewrites sch e (leaf e)) as Hs;
    [|destruct (Hs k Hk) as [? Hrun]; split; [done|by apply Hrun]].
  cbn in Hin. destruct_or! Hin; subst leaf; try done;
    eauto using widen_bound_sound, close_bound_sound, equality_absorbs_bound_sound,
      merge_in_lists_sound, union_ranges_sound, fold_in_list_of_literal_sound,
      collapse_degenerate_range_sound.
Qed.

Definition bound_schema : gmap string kind := {["x" := KInt; "y" := KFloat]}.
Definition range_of (x : string) (lop : binop) (l : Z) (hop : binop) (h : Z) : expr :=
  Binary And (Binary lop (Col x) (Lit (VInt l))) (Binary hop (Col x) (Lit (VInt h))).

Lemma bound_row_ok (z : Z) : row_ok bound_schema {["x" := VInt z]}.
Proof. intros c v Hc. apply lookup_singleton_Some in Hc as [<- <-]. done. Qed.

(** [(x >= 1 and x <= 5) or (x >= 4 and x <= 9)] becomes [x >= 1 and x <= 9]. *)
Lemma bound_rules_sound_witness :
  let e := Binary Or (range_of "x" CGe 1 CLe 5) (range_of "x" CGe 4 CLe 9) in
  union_ranges e = range_of "x" CGe 1 CLe 9 /\
  type_of bound_schema (union_ranges e) = Some KBool /\
  run bound_schema {["x" := VInt 7]} (union_ranges e) = run bound_schema {["x" := VInt 7]} e.
Proof.
  cbv zeta. split; [vm_compute; reflexivity|].
  apply (bound_rules_sound bound_schema KInt union_ranges).
  - cbn. tauto.
  - vm_compute. reflexivity.
  - intros _. vm_compute. reflexivity.
  - vm_compute. reflexivity.
  - apply bound_row_ok.
Defined.

(** Two open ranges that touch are widened over the point between them:
    [(x > 1 and x < 3) or (x > 3 and x < 5)] becomes [x > 1 and x < 5], which keeps [x = 3]. *)
Theorem union_ranges_admits_gap :
  let e := Binary Or (range_of "x" CGt 1 CLt 3) (range_of "x" CGt 3 CLt 5) in
  let row := {["x" := VInt 3]} in
  union_ranges e = range_of "x" CGt 1 CLt 5 /\
  run bound_schema row e = Ok (Some (VBool false)) /\
  run bound_schema row (union_ranges e) = Ok (Some (VBool true)).
Proof. vm_compute. done. Qed.

(** A NaN literal compares false in Python and greatest in the engine: [y < 3.0 or y < nan]
    becomes [y < 3.0], which drops [y = 5.0]. *)
Theorem widen_bound_drops_nan :
  let e := Binary Or (Binary CLt (Col "y") (Lit (VFloat (float_of_Z 3))))
             (Binary CLt (Col "y") (Lit (VFloat S754_nan))) in
  let row := {["y" := VFloat (float_of_Z 5)]} in
  run bound_schema row e = Ok (Some (VBool true)) /\
  run bound_schema row (widen_bound true e) = Ok (Some (VBool false)).
Proof. vm_compute. done. Qed.
