(* ===== verification/RulesNormalize.v ===== *)
(** * Filter normalization

    python/batcher/kyber/rules/normalize: the self-comparison and boolean-CASE rewrites of
    predicates.py, and the disjunction rewrites of disjunctions.py.  They run on the
    predicate of a [Filter], where a null and a false both drop the row, so what they must
    preserve is which rows pass and which error is raised. *)

From S2P Require Import Prelude ExprIR ExprSound ExprAlgebra RulesBounds.
From Stdlib Require Import Floats.SpecFloat.

(** What a filter does with one row: keep it, drop it or fail. *)
Definition passes `{!ExprEngine} (sch : gmap string kind) (row : gmap string value) (e : expr) : res bool :=
  let* x := run sch row e in
  let* b := as_bool x in
  Ok (match b with Some true => true | _ => false end).

(** ** predicates.py *)

(** [_REFLEXIVE]. *)
Definition reflexive_op (op : binop) : bool :=
  match op with CEq | CLe | CGe => true | _ => false end.

Definition same_column (l r : expr) : bool :=
  match l, r with Col a, Col b => bool_decide (a = b) | _, _ => false end.

(** [_rewrite_self_comparison]. *)
Fixpoint rewrite_self_comparison (e : expr) : expr :=
  match e with
  | Binary op l r =>
      if reflexive_op op && same_column l r then IsNotNull l
      else match op with
           | And | Or => Binary op (rewrite_self_comparison l) (rewrite_self_comparison r)
           | _ => e
           end
  | _ => e
  end.

(** [_boolean_case_condition]. *)
Definition boolean_case_condition (e : expr) : option expr :=
  match e with
  | Case [(condition, Lit (VBool true))] (Lit (VBool false)) => Some condition
  | _ => None
  end.

(** ** disjunctions.py *)

(** [_bad_range_literal]. *)
Definition bad_range_literal (v : value) : bool :=
  match v with VBool _ | VFloat S754_nan => true | _ => false end.

(** [collect]: the (column, literal) leaves of an OR chain of equalities. *)
Fixpoint collect (e : expr) : option (list (string * value)) :=
  match e with
  | Binary Or l r =>
      match collect l with
      | Some ls => match collect r with Some rs => Some (ls ++ rs) | None => None end
      | None => None
      end
  | Binary CEq (Col c) (Lit v) => Some [(c, v)]
  | Binary CEq (Lit v) (Col c) => Some [(c, v)]
  | _ => None
  end.

(** [_flat_or_equalities]. *)
Definition flat_or_equalities (e : expr) : option (string * list value) :=
  match e with
  | Binary Or _ _ =>
      match collect e with
      | Some (((c, _) :: _) as leaves) =>
          if (length leaves <? 2)%nat then None
          else if forallb (fun l => bool_decide (l.1 = c)) leaves &&
                  negb (existsb (fun l => bad_range_literal l.2) leaves)
               then Some (c, map snd leaves) else None
      | _ => None
      end
  | _ => None
  end.

(** [_in_list_values]. *)
Definition in_list_of_column (e : expr) : option (string * list value) :=
  match e with
  | InList (Col c) vs =>
      if (length vs <? 2)%nat || existsb bad_range_literal vs then None else Some (c, vs)
  | _ => None
  end.

(** [tuple(dict.fromkeys(values))]: first occurrences, under [==]. *)
Definition dedup (vs : list value) : list value :=
  foldl (fun acc v => if py_in v acc then acc else acc ++ [v]) [] vs.

(** The loop body of [or_equalities_to_in_list] on one conjunct. *)
Definition fold_disjunction (conj : expr) : option expr :=
  match flat_or_equalities conj with
  | None => None
  | Some (c, vs) =>
      let deduped := dedup vs in
      if (length deduped <? 2)%nat then None else Some (InList (Col c) deduped)
  end.

(** [or_equalities_to_in_list] on the predicate; [None] leaves the filter alone. *)
Definition or_equalities_to_in_list (predicate : expr) : option (res expr) :=
  let conjuncts := split_conjuncts predicate in
  if existsb (fun c => bool_decide (is_Some (fold_disjunction c))) conjuncts
  then Some (combine_conjuncts (map (fun c => default c (fold_disjunction c)) conjuncts))
  else None.

(** [min] and [max]: [None] on a [TypeError]. *)
Definition py_min (vs : list value) : option value :=
  match vs with
  | [] => None
  | v :: vs => foldl (fun acc w => m ← acc; b ← py_lt w m; Some (if (b : bool) then w else m)) (Some v) vs
  end.
Definition py_max (vs : list value) : option value :=
  match vs with
  | [] => None
  | v :: vs => foldl (fun acc w => m ← acc; b ← py_lt m w; Some (if (b : bool) then w else m)) (Some v) vs
  end.

Definition is_text (v : value) : bool := match v with VStr _ => true | _ => false end.

(** The bounds one conjunct implies. *)
Definition implied_bounds (conj : expr) : list expr :=
  match (match flat_or_equalities conj with Some i => Some i | None => in_list_of_column conj end) with
  | None => []
  | Some (c, vs) =>
      if existsb is_text vs then []
      else match py_min vs, py_max vs with
           | Some lo, Some hi => [Binary CGe (Col c) (Lit lo); Binary CLe (Col c) (Lit hi)]
           | _, _ => []
           end
  end.

(** The [existing] set threaded through the loop, and the bounds added to it. *)
Definition add_bound (st : list expr * list expr) (bound : expr) : list expr * list expr :=
  let (existing, added) := st in
  if existsb (expr_eqb bound) existing then st else (existing ++ [bound], added ++ [bound]).

Definition added_bounds (conjuncts : list expr) : list expr :=
  (foldl add_bound (conjuncts, []) (concat (map implied_bounds conjuncts))).2.

(** [or_to_in_and_range] on the predicate. *)
Definition or_to_in_and_range (predicate : expr) : option (res expr) :=
  let conjuncts := split_conjuncts predicate in
  match added_bounds conjuncts with
  | [] => None
  | added => Some (combine_conjuncts (conjuncts ++ added))
  end.

(** ** Filters only see truth *)

Section Normalize.
Context {eng : ExprEngine} (sch : gmap string kind).

Abbreviation out := (outcome fsig opsig sch ext ext_op).
Abbreviation bool_typed e := (type_of sch e = Some KBool).

Lemma typed_outcome row e : bool_typed e -> row_ok sch row -> exists o, out row e o.
Proof.
  intros Hk Hr. unfold outcome. destruct (eval _ _ _ _ _ row e) as [x|err] eqn:Hx.
  - assert (has_kind KBool x) as Hb
      by (by eapply (eval_kind fsig opsig sch ext ext_op ee_kind ee_op_kind)).
    destruct x as [[]|]; try done; [by exists (Ok (Some b))|by exists (Ok None)].
  - by exists (Raise err).
Qed.

Lemma passes_outcome row e o :
  out row e o -> passes sch row e = (let* b := o in Ok (match b with Some true => true | _ => false end)).
Proof.
  unfold outcome, passes, run. intros ->. destruct o as [b|]; cbn; [|done]. by rewrite as_bool_value.
Qed.

Lemma connective_typed op a b :
  (op = And \/ op = Or) -> bool_typed (Binary op a b) <-> bool_typed a /\ bool_typed b.
Proof.
  unfold type_of. intros Hop. split.
  - cbn. intros Hk. apply bind_Some in Hk as (ka & Ha & Hk). apply bind_Some in Hk as (kb & Hb & Hk).
    rewrite Ha, Hb. destruct Hop as [-> | ->]; unfold binary_kind, guard_kind in Hk;
      destruct (_ && _) eqn:E; try done; bsplit; by subst.
  - intros [Ha Hb]. cbn. rewrite Ha, Hb. by destruct Hop as [-> | ->].
Qed.

Definition truth (op : binop) (x y : bool) : bool := match op with And => x && y | _ => x || y end.

Lemma passes_connective row op a b :
  (op = And \/ op = Or) -> bool_typed a -> bool_typed b -> row_ok sch row ->
  passes sch row (Binary op a b) =
  (let* x := passes sch row a in let* y := passes sch row b in Ok (truth op x y)).
Proof.
  intros Hop Ha Hb Hr. destruct (typed_outcome row a Ha Hr) as [oa Hoa], (typed_outcome row b Hb Hr) as [ob Hob].
  rewrite (passes_outcome _ _ _ (eval_connective _ _ _ _ _ row op a b oa ob Hop Hoa Hob)).
  rewrite (passes_outcome _ _ _ Hoa), (passes_outcome _ _ _ Hob).
  destruct oa as [[[]|]|], ob as [[[]|]|]; destruct Hop as [-> | ->]; done.
Qed.

(** [e'] is as good a filter predicate as [e]. *)
Definition filters_like (e e' : expr) : Prop :=
  bool_typed e -> bool_typed e' /\ forall row, row_ok sch row -> passes sch row e' = passes sch row e.

Lemma self_comparison_passes c op :
  reflexive_op op = true -> filters_like (Binary op (Col c) (Col c)) (IsNotNull (Col c)).
Proof.
  intros Hop Hk. unfold type_of in Hk. cbn in Hk. unfold type_of, passes, run. cbn.
  destruct (sch !! c) as [k|] eqn:Hc; [|done]. cbn in *. split; [done|].
  assert (ordered k = true) as Hord.
  { unfold binary_kind, guard_kind, comparable, supertype in Hk.
    destruct op; try done; destruct (decide (k = k)); try done; by destruct (ordered k). }
  intros row Hr. destruct (row !! c) as [v|] eqn:Hv; [|by destruct op].
  apply Hr in Hv. rewrite Hc in Hv. injection Hv as Hv.
  assert (vcompare v v = Some Eq) as Hvv.
  { unfold vcompare, supertype. destruct (decide _); [|done]. rewrite cast_id.
    subst k. pose proof (ord_refl _ vorder_total v) as Hrefl. destruct v; cbn in *; congruence. }
  destruct op; try done; cbn; by rewrite Hvv.
Qed.

Lemma rewrite_self_comparison_filters e : filters_like e (rewrite_self_comparison e).
Proof.
  induction e as [| |op l r IHl IHr| | | | | | | | | |] using expr_ind'; try (intros ?; done).
  cbn [rewrite_self_comparison]. destruct (reflexive_op op && same_column l r) eqn:E.
  - apply andb_prop in E as [Hop Hs]. destruct l as [a| | | | | | | | | | | |]; try done.
    destruct r as [b| | | | | | | | | | | |]; try done. cbn in Hs. bsplit. subst b.
    by apply self_comparison_passes.
  - assert (forall op', (op' = And \/ op' = Or) -> filters_like (Binary op' l r)
      (Binary op' (rewrite_self_comparison l) (rewrite_self_comparison r))) as Hcon.
    { intros op' Hop Hk. apply connective_typed in Hk as [Hl Hr]; [|done].
      destruct (IHl Hl) as [Hl' Pl], (IHr Hr) as [Hr' Pr]. split; [by apply connective_typed|].
      intros row Hrow. rewrite !passes_connective by done. by rewrite Pl, Pr. }
    destruct op; try (intros ?; done); auto.
Qed.

Lemma boolean_case_filters e c : boolean_case_condition e = Some c -> filters_like e c.
Proof.
  intros Hc. destruct e as [| | | | | | | | | | |[|[cond t] [|]] o|]; try done;
    destruct t as [|[| |[]| |]| | | | | | | | | | |]; try done;
    destruct o as [|[| |[]| |]| | | | | | | | | | |]; try done.
  cbn in Hc. simplify_eq. intros Hk. pose proof Hk as Hk'. unfold type_of in Hk. cbn in Hk.
  apply bind_Some in Hk as (cs & Hcs & Hk). apply bind_Some in Hcs as (kc & Hkc & [= <-]).
  cbn in Hk. destruct (bool_decide (kc = KBool)) eqn:Hb; [|done]. bsplit. subst kc.
  split; [done|]. intros row Hr. destruct (typed_outcome row c Hkc Hr) as [o Ho].
  rewrite (passes_outcome _ _ _ Ho). unfold passes, run. cbn [eval first_true fst snd]. unfold type_of in Hk'. rewrite Hk'.
  unfold outcome in Ho. rewrite Ho. destruct o as [b|]; cbn; [|done]. rewrite as_bool_value.
  by destruct b as [[]|].
Qed.

(** *** Splitting a predicate *)

Lemma split_kinds e : bool_typed e -> Forall (fun c => bool_typed c) (split_conjuncts e).
Proof.
  unfold split_conjuncts. induction e as [| |op l r IHl IHr| | | | | | | | | |] using expr_ind';
    intros Hk; cbn [split_op]; auto using Forall_cons_2, Forall_nil_2.
  case_decide as Hop; [|auto using Forall_cons_2, Forall_nil_2]. subst op.
  apply connective_typed in Hk as [? ?]; [|by left]. apply Forall_app; auto.
Qed.

(** A predicate means the conjunction of its split, evaluated left to right. *)
Lemma split_eval row e : bool_typed e -> row_ok sch row ->
  exists os, Forall2 (out row) (split_conjuncts e) os /\
    out row e (foldr (kleene_res And) (Ok (kleene_unit And)) os).
Proof.
  assert (forall e, bool_typed e -> row_ok sch row -> exists os,
    Forall2 (out row) [e] os /\ out row e (foldr (kleene_res And) (Ok (kleene_unit And)) os)) as Hleaf.
  { intros e' Hk Hr. destruct (typed_outcome row e' Hk Hr) as [o Ho]. exists [o].
    split; [by repeat constructor|]. cbn [foldr]. rewrite kleene_res_unit by auto. done. }
  unfold split_conjuncts. induction e as [| |op l r IHl IHr| | | | | | | | | |] using expr_ind';
    intros Hk Hr; cbn [split_op]; auto.
  case_decide as Hop; [|auto]. subst op. apply connective_typed in Hk as [Hkl Hkr]; [|by left].
  destruct (IHl Hkl Hr) as (o1 & H1 & E1), (IHr Hkr Hr) as (o2 & H2 & E2).
  exists (o1 ++ o2). split; [by apply Forall2_app|].
  pose proof (eval_connective fsig opsig sch ext ext_op row And l r _ _ (or_introl eq_refl) E1 E2) as E.
  assert (forall os, foldr (kleene_res And) (Ok (kleene_unit And)) (os ++ o2) =
    kleene_res And (foldr (kleene_res And) (Ok (kleene_unit And)) os)
      (foldr (kleene_res And) (Ok (kleene_unit And)) o2)) as ->; [|done].
  induction os as [|o os IH]; cbn [app foldr].
  - destruct (foldr _ _ o2) as [[[]|]|]; done.
  - rewrite IH. apply kleene_res_assoc. auto.
Qed.

Lemma split_nonempty e : split_conjuncts e <> [].
Proof.
  unfold split_conjuncts. induction e as [| |op l r IHl IHr| | | | | | | | | |] using expr_ind'; cbn; try done.
  case_decide; [|done]. by destruct (split_op And l).
Qed.

Lemma concat_singletons {A} (l : list A) : concat (map (fun x => [x]) l) = l.
Proof. induction l as [|x l IH]; cbn; [done|]. by rewrite IH. Qed.

Lemma map_nonempty {A B} (f : A -> B) l : l <> [] -> map f l <> [].
Proof. by destruct l. Qed.

(** Rewriting conjuncts one by one keeps the predicate's outcome. *)
Lemma rewrite_conjuncts (f : expr -> expr) e row :
  Forall (fun c => rewrites sch c (f c)) (split_conjuncts e) -> bool_typed e -> row_ok sch row ->
  exists e', combine_conjuncts (map f (split_conjuncts e)) = Ok e' /\ bool_typed e' /\
    run sch row e' = run sch row e.
Proof.
  intros Hf Hk Hr. unfold combine_conjuncts. set (l := split_conjuncts e) in *.
  destruct (combine_total And (map f l)) as [e' He']; [apply map_nonempty, split_nonempty|].
  exists e'. split; [done|]. pose proof (split_kinds e Hk) as Hks. fold l in Hks.
  assert (Forall2 (fun c c' => bool_typed c' /\ forall row, row_ok sch row -> run sch row c' = run sch row c)
    l (map f l)) as Hall.
  { clearbody l. clear -Hf Hks. induction Hks as [|c l Hc _ IH]; [constructor|].
    apply Forall_cons in Hf as [Hfc Hf]. cbn. constructor; [|auto]. by apply Hfc. }
  split.
  - eapply (combine_kind fsig opsig sch And (map f l)); [by left| |exact He'].
    clear -Hall. induction Hall as [|c c' l l' [? _] _ IH]; constructor; auto.
  - destruct (split_eval row e Hk Hr) as (os & Hos & He).
    pose proof (combine_eval fsig opsig sch ext ext_op row And (map f l) os e' (or_introl eq_refl)) as Hc.
    unfold outcome in *. unfold run. rewrite He, Hc; [done| |exact He'].
    fold l in Hos. clear -Hos Hall Hr. revert os Hos.
    induction Hall as [|c c' l l' [_ Hc] _ IH]; intros os Hos; inversion Hos; subst; constructor; [|auto].
    specialize (Hc row Hr). unfold run in Hc. congruence.
Qed.

(** *** Disjunctions of equalities *)

Abbreviation eq_test c := (match c with Eq => true | _ => false end).
Abbreviation hits vs a := (existsb (fun v => eq_test (vorder a v)) vs).
Abbreviation plain_on kl c vs := (Forall (fun v => plain_pair sch kl (Col c, v) = true) vs).

Lemma collect_decides kl c e leaves :
  collect e = Some leaves -> Forall (fun l => l.1 = c) leaves -> plain_on kl c (map snd leaves) ->
  decides sch kl e (Col c) (fun a => hits (map snd leaves) a).
Proof.
  revert leaves. induction e as [| |op l r IHl IHr| | | | | | | | | |] using expr_ind'; intros leaves Hc Hcol Hp;
    try done.
  assert (forall v, leaves = [(c, v)] -> decides sch kl (Binary op l r) (Col c)
      (fun a => cmp_test CEq (vorder a v)) ->
    decides sch kl (Binary op l r) (Col c) (fun a => hits (map snd leaves) a)) as Hone.
  { intros v -> [Hk HD]. split; [done|]. intros row Hr. rewrite HD by done.
    destruct (run sch row (Col c)) as [[a|]|]; cbn; [|done..]. by rewrite orb_false_r. }
  destruct op; try done; cbn [collect] in Hc.
  - destruct (collect l) as [ls|]; [|done]. destruct (collect r) as [rs|]; [|done]. simplify_eq.
    apply Forall_app in Hcol as [Hl Hr]. rewrite map_app in Hp. apply Forall_app in Hp as [Pl Pr].
    pose proof (decides_connective sch kl Or l r (Col c) _ _ (or_intror eq_refl)
      (IHl ls eq_refl Hl Pl) (IHr rs eq_refl Hr Pr)) as [Hk HD].
    split; [done|]. intros row Hrow. rewrite HD by done.
    destruct (run sch row (Col c)) as [[a|]|]; cbn; [|done..]. by rewrite map_app, existsb_app.
  - destruct l as [c'|v| | | | | | | | | | |]; try done; destruct r as [c''|w| | | | | | | | | | |]; try done;
      simplify_eq; apply Forall_cons in Hcol as [Heq _]; cbn in Heq; subst;
      apply Forall_cons in Hp as [Hv _]; eapply Hone; try done.
    + by eapply decides_lit_right.
    + by eapply (decides_lit_left sch kl CEq CEq).
Qed.

Lemma flat_or_spec e c vs :
  flat_or_equalities e = Some (c, vs) ->
  exists leaves, collect e = Some leaves /\ Forall (fun l => l.1 = c) leaves /\ vs = map snd leaves.
Proof.
  unfold flat_or_equalities. destruct e as [| |[] l r| | | | | | | | | |]; try done.
  destruct (collect _) as [[|[c' v] leaves]|] eqn:Hc; try done.
  destruct (_ <? _)%nat; [done|]. destruct (_ && _) eqn:E; [|done]. intros [= <- <-].
  apply andb_prop in E as [E _]. exists ((c', v) :: leaves). split; [done|]. split; [|done].
  apply Forall_forall. intros x Hx%list_elem_of_In. eapply forallb_forall in E; [|exact Hx]. by bsplit.
Qed.

Lemma flat_or_decides kl e c vs :
  flat_or_equalities e = Some (c, vs) -> plain_on kl c vs -> decides sch kl e (Col c) (fun a => hits vs a).
Proof. intros (leaves & Hc & Hcol & ->)%flat_or_spec Hp. by apply collect_decides. Qed.

Lemma dedup_incl vs v : In v (dedup vs) -> In v vs.
Proof.
  unfold dedup. assert (forall acc, In v (foldl (fun acc v => if py_in v acc then acc else acc ++ [v]) acc vs) ->
    In v acc \/ In v vs) as Hgen; [|by intros [?|?]%Hgen].
  induction vs as [|w vs IH]; cbn; [auto|]. intros acc Hin. apply IH in Hin as [Hin|Hin]; [|auto].
  destruct (py_in w acc); [auto|]. apply in_app_or in Hin as [?|[->|[]]]; auto.
Qed.

(** Dropping repeats under [==] loses no match. *)
Lemma dedup_hits kl c vs a : plain_on kl c vs -> hits (dedup vs) a = hits vs a.
Proof.
  unfold dedup. assert (forall acc, plain_on kl c acc -> plain_on kl c vs ->
    hits (foldl (fun acc v => if py_in v acc then acc else acc ++ [v]) acc vs) a = hits acc a || hits vs a)
    as Hgen; [|by intros Hp; apply (Hgen []); [constructor|]].
  induction vs as [|v vs IH]; intros acc Hacc Hvs; cbn [foldl existsb]; [by rewrite orb_false_r|].
  apply Forall_cons in Hvs as [Hv Hvs].
  destruct (py_in v acc) eqn:Hin.
  - rewrite IH by done. apply existsb_exists in Hin as (w & Hw & Hvw). apply list_elem_of_In in Hw as Hw'.
    rewrite Forall_forall in Hacc. destruct (plain_py sch kl _ _ _ _ Hv (Hacc w Hw')) as [_ Heq].
    rewrite Heq in Hvw. destruct (eq_test (vorder a v)) eqn:Hav; [|done].
    assert (hits acc a = true) as ->; [|done]. apply existsb_exists. exists w. split; [done|]. by_ranks [a; v; w].
  - rewrite IH; [|by apply Forall_app_2; [|repeat constructor]|done].
    rewrite existsb_app. cbn [existsb]. by rewrite orb_false_r, orb_assoc.
Qed.

(** The conjuncts a disjunction rule reads compare one ordered kind of literal, none a
    NaN, with a column of a kind that is coerced to it. *)
Definition plain_values (info : option (string * list value)) : bool :=
  match info with
  | Some (c, v :: vs) => forallb (fun w => plain_pair sch (kind_of_value v) (Col c, w)) (v :: vs)
  | _ => true
  end.

Lemma plain_values_spec c vs :
  plain_values (Some (c, vs)) = true -> exists kl, plain_on kl c vs.
Proof.
  destruct vs as [|v vs]; [exists KInt; constructor|]. unfold plain_values. intros H.
  exists (kind_of_value v). apply Forall_forall. intros w Hw%list_elem_of_In. by eapply forallb_forall in H.
Qed.

Lemma fold_disjunction_rewrites e e' :
  plain_values (flat_or_equalities e) = true -> fold_disjunction e = Some e' -> rewrites sch e e'.
Proof.
  unfold fold_disjunction. destruct (flat_or_equalities e) as [[c vs]|] eqn:Hf; [|done].
  intros (kl & Hp)%plain_values_spec. cbv zeta. destruct (_ <? _)%nat eqn:Hlen; [done|]. intros [= <-].
  assert (plain_on kl c (dedup vs)) as Hd.
  { apply Forall_forall. intros v Hv%list_elem_of_In%dedup_incl%list_elem_of_In.
    rewrite Forall_forall in Hp. by apply Hp. }
  assert (exists ko, type_of sch (Col c) = Some ko) as [ko Hko].
  { destruct (dedup vs) as [|v ds]; [done|]. apply Forall_cons in Hd as [Hv _].
    apply plain_pair_spec in Hv as (_ & _ & _ & ko & ? & _). eauto. }
  eapply decides_rewrites; [by eapply flat_or_decides|by eapply decides_in_list|].
  intros a. symmetry. by eapply dedup_hits.
Qed.

(** *** Implied bounds *)

Lemma py_min_spec kl c v vs :
  plain_on kl c (v :: vs) ->
  exists lo, py_min (v :: vs) = Some lo /\ In lo (v :: vs) /\
    Forall (fun w => vorder lo w <> Gt) (v :: vs).
Proof.
  unfold py_min. revert v. induction vs as [|w vs IH]; intros v Hp; cbn [foldl].
  - exists v. split_and!; [done|by left|]. constructor; [|constructor]. by rewrite (ord_refl _ vorder_total).
  - apply Forall_cons in Hp as [Hv [Hw Hp]%Forall_cons]. cbn.
    destruct (plain_py sch kl _ _ _ _ Hw Hv) as [-> _]. cbn.
    destruct (IH (if match vorder w v with Lt => true | _ => false end then w else v)) as (lo & Hlo & Hin & Hall).
    { constructor; [by destruct (vorder w v)|done]. }
    exists lo. split; [done|]. apply Forall_cons in Hall as [Hm Hall]. split.
    + destruct (vorder w v), Hin; subst; cbn; auto.
    + repeat constructor; [..|done]; clear - Hm; destruct (vorder w v) eqn:E; by_ranks [lo; v; w].
Qed.

Lemma py_max_spec kl c v vs :
  plain_on kl c (v :: vs) ->
  exists hi, py_max (v :: vs) = Some hi /\ In hi (v :: vs) /\
    Forall (fun w => vorder hi w <> Lt) (v :: vs).
Proof.
  unfold py_max. revert v. induction vs as [|w vs IH]; intros v Hp; cbn [foldl].
  - exists v. split_and!; [done|by left|]. constructor; [|constructor]. by rewrite (ord_refl _ vorder_total).
  - apply Forall_cons in Hp as [Hv [Hw Hp]%Forall_cons]. cbn.
    destruct (plain_py sch kl _ _ _ _ Hv Hw) as [-> _]. cbn.
    destruct (IH (if match vorder v w with Lt => true | _ => false end then w else v)) as (hi & Hhi & Hin & Hall).
    { constructor; [by destruct (vorder v w)|done]. }
    exists hi. split; [done|]. apply Forall_cons in Hall as [Hm Hall]. split.
    + destruct (vorder v w), Hin; subst; cbn; auto.
    + repeat constructor; [..|done]; clear - Hm; destruct (vorder v w) eqn:E; by_ranks [hi; v; w].
Qed.

Abbreviation disjunction_of e :=
  (match flat_or_equalities e with Some i => Some i | None => in_list_of_column e end).

Lemma disjunction_decides kl e c v vs :
  disjunction_of e = Some (c, v :: vs) -> plain_on kl c (v :: vs) ->
  decides sch kl e (Col c) (fun a => hits (v :: vs) a).
Proof.
  destruct (flat_or_equalities e) as [i|] eqn:Hf.
  - intros [= ->]. by apply flat_or_decides.
  - intros Hi Hp. unfold in_list_of_column in Hi. destruct e as [| | | | | |[c'| | | | | | | | | | | |] ws| | | | | |];
      try done. destruct (_ || _); [done|]. simplify_eq.
    pose proof Hp as [Hv _]%Forall_cons. apply plain_pair_spec in Hv as (_ & _ & _ & ko & Hko & _).
    by eapply decides_in_list.
Qed.

Lemma decides_passes kl e c P row :
  decides sch kl e (Col c) P -> row_ok sch row -> sch !! c <> None ->
  passes sch row e = Ok (match row !! c with Some a => P (cast kl a) | None => false end).
Proof.
  intros [_ HD] Hr Hc. unfold passes. rewrite HD by done. unfold run. cbn.
  destruct (sch !! c); [|done]. cbn. destruct (row !! c) as [a|]; cbn; [|done]. by destruct (P _).
Qed.

(** A bound a conjunct implies: it never fails and holds wherever the conjunct does. *)
Definition implied (conj b : expr) : Prop :=
  bool_typed b /\ forall row, row_ok sch row ->
    exists y, passes sch row b = Ok y /\ (passes sch row conj = Ok true -> y = true).

Lemma implied_by_literal kl c op op' e v vs lit :
  disjunction_of e = Some (c, v :: vs) -> plain_on kl c (v :: vs) -> In lit (v :: vs) ->
  comparison_flip op = Some op' ->
  (forall a, hits (v :: vs) a = true -> cmp_test op (vorder a lit) = true) ->
  implied e (Binary op (Col c) (Lit lit)).
Proof.
  intros Hd Hp Hin Hop Himp. pose proof Hp as Hp'. rewrite Forall_forall in Hp'.
  apply list_elem_of_In, Hp' in Hin. pose proof (decides_lit_right sch kl op op' (Col c) lit Hop Hin) as HD.
  pose proof (plain_pair_spec _ _ _ _ Hin) as (_ & _ & _ & ko & Hko & _). unfold type_of in Hko. cbn in Hko.
  split; [apply HD|]. intros row Hr. eexists. split; [eapply decides_passes; [exact HD|done|by rewrite Hko]|].
  rewrite (decides_passes kl e c _ row (disjunction_decides kl e c v vs Hd Hp) Hr) by (by rewrite Hko).
  destruct (row !! c) as [a|]; [|done]. intros [= Ha]. by apply Himp.
Qed.

Lemma implied_bounds_implied e b :
  plain_values (disjunction_of e) = true -> In b (implied_bounds e) -> implied e b.
Proof.
  unfold implied_bounds. destruct (disjunction_of e) as [[c [|v vs]]|] eqn:Hd; [done| |done].
  intros (kl & Hp)%plain_values_spec. destruct (existsb is_text _); [done|].
  destruct (py_min_spec kl c v vs Hp) as (lo & -> & Hlo & Hmin), (py_max_spec kl c v vs Hp) as (hi & -> & Hhi & Hmax).
  rewrite Forall_forall in Hmin, Hmax.
  intros [<-|[<-|[]]]; eapply implied_by_literal; try done;
    intros a (w & Hw%list_elem_of_In & Haw)%existsb_exists.
  - apply Hmin in Hw. by_ranks [a; lo; w].
  - apply Hmax in Hw. by_ranks [a; hi; w].
Qed.

(** *** Adding conjuncts *)

Fixpoint all_pass (row : gmap string value) (l : list expr) : res bool :=
  match l with
  | [] => Ok true
  | c :: l' => let* x := passes sch row c in let* y := all_pass row l' in Ok (x && y)
  end.

Lemma all_pass_app row l1 l2 :
  all_pass row (l1 ++ l2) = (let* x := all_pass row l1 in let* y := all_pass row l2 in Ok (x && y)).
Proof.
  induction l1 as [|c l1 IH]; cbn [app all_pass].
  - cbn. by destruct (all_pass row l2).
  - rewrite IH. destruct (passes sch row c) as [x|]; cbn; [|done].
    destruct (all_pass row l1) as [y|]; cbn; [|done]. destruct (all_pass row l2) as [z|]; cbn; [|done].
    by rewrite andb_assoc.
Qed.

Lemma fold_passes row l os :
  Forall2 (out row) l os ->
  (let* b := foldr (kleene_res And) (Ok (kleene_unit And)) os in
   Ok (match b with Some true => true | _ => false end)) = all_pass row l.
Proof.
  induction 1 as [|c o l os Hc _ IH]; cbn [foldr all_pass]; [done|]. rewrite <- IH.
  rewrite (passes_outcome _ _ _ Hc). destruct o as [x|]; cbn; [|done].
  destruct (foldr _ _ os) as [y|]; cbn; [|done]. by destruct x as [[]|], y as [[]|].
Qed.

Lemma passes_split row e :
  bool_typed e -> row_ok sch row -> passes sch row e = all_pass row (split_conjuncts e).
Proof.
  intros Hk Hr. destruct (split_eval row e Hk Hr) as (os & Hos & He).
  by rewrite (passes_outcome _ _ _ He), (fold_passes _ _ _ Hos).
Qed.

Lemma passes_combine row l e :
  Forall (fun c => bool_typed c) l -> combine_conjuncts l = Ok e -> row_ok sch row ->
  bool_typed e /\ passes sch row e = all_pass row l.
Proof.
  intros Hl He Hr. split; [by eapply (combine_kind fsig opsig sch And l); [left| |]|].
  assert (exists os, Forall2 (out row) l os) as [os Hos].
  { clear He. induction Hl as [|c l Hc _ [os IH]]; [by exists []|].
    destruct (typed_outcome row c Hc Hr) as [o Ho]. exists (o :: os). by constructor. }
  rewrite <- (fold_passes _ _ _ Hos). apply passes_outcome. by eapply combine_eval; [left| |].
Qed.

Lemma all_pass_true row l c : all_pass row l = Ok true -> In c l -> passes sch row c = Ok true.
Proof.
  induction l as [|c' l IH]; cbn [all_pass]; [done|]. intros Ha Hin.
  destruct (passes sch row c') as [x|] eqn:Hx; [|done]. cbn in Ha.
  destruct (all_pass row l) as [y|]; [|done]. cbn in Ha. destruct x, y; try done.
  destruct Hin as [<-|?]; [done|by apply IH].
Qed.

Lemma add_bound_spec bs ex added :
  (forall b, In b (foldl add_bound (ex, added) bs).2 -> In b added \/ In b bs) /\
  (forall b, In b bs \/ In b ex -> existsb (expr_eqb b) (foldl add_bound (ex, added) bs).1 = true) /\
  exists more, (foldl add_bound (ex, added) bs).1 = ex ++ more /\
               (foldl add_bound (ex, added) bs).2 = added ++ more.
Proof.
  assert (forall b l, In b l -> existsb (expr_eqb b) l = true) as Hself.
  { intros b l Hb. apply existsb_exists. exists b. split; [done|apply expr_eqb_refl]. }
  revert ex added. induction bs as [|b bs IH]; intros ex added; cbn [foldl].
  - split_and!; [auto|intros b [[]|?]; cbn; auto|]. exists []. by rewrite !app_nil_r.
  - cbn [add_bound]. destruct (existsb (expr_eqb b) ex) eqn:Hb.
    + destruct (IH ex added) as (H1 & H2 & H3). split_and!; [|intros b' [[<-|?]|?]; auto|done].
      * intros b' [?|?]%H1; cbn; auto.
      * apply existsb_exists in Hb as (b2 & Hb2 & ->%expr_eqb_true). auto.
    + destruct (IH (ex ++ [b]) (added ++ [b])) as (H1 & H2 & more & H3 & H4). split_and!.
      * intros b' [[?|[<-|[]]]%in_app_or|?]%H1; cbn; auto.
      * intros b' Hb'. apply H2. destruct Hb' as [[<-|?]|?]; rewrite ?in_app_iff; cbn; auto.
      * exists (b :: more). by rewrite H3, H4, <- !app_assoc.
Qed.

Abbreviation plain_disjunctions p :=
  (Forall (fun c => plain_values (disjunction_of c) = true) (split_conjuncts p)).

Lemma added_implied p b :
  plain_disjunctions p -> In b (added_bounds (split_conjuncts p)) ->
  exists c, In c (split_conjuncts p) /\ implied c b.
Proof.
  unfold added_bounds. set (l := split_conjuncts p). intros Hp Hb.
  apply (proj1 (add_bound_spec (concat (map implied_bounds l)) l [])) in Hb as [[]|Hb].
  apply in_concat in Hb as (bs & (c & <- & Hc)%in_map_iff & Hb). exists c. split; [done|].
  apply implied_bounds_implied; [|done]. rewrite Forall_forall in Hp. by apply Hp, list_elem_of_In.
Qed.

Lemma or_to_in_and_range_filters p r row :
  bool_typed p -> row_ok sch row -> plain_disjunctions p -> or_to_in_and_range p = Some r ->
  exists p', r = Ok p' /\ bool_typed p' /\ passes sch row p' = passes sch row p.
Proof.
  intros Hk Hr Hp. unfold or_to_in_and_range. set (l := split_conjuncts p). set (more := added_bounds l).
  pose proof (fun b => added_implied p b Hp) as Himp. fold l more in Himp.
  destruct more as [|b bs]; [done|]. intros [= <-].
  destruct (combine_total And (l ++ b :: bs)) as [p' Hp']; [by destruct l|]. exists p'. split; [done|].
  destruct (passes_combine row (l ++ b :: bs) p') as [Hk' ->]; [|done|done|].
  - apply Forall_app_2; [by apply split_kinds|]. apply Forall_forall. intros x Hx%list_elem_of_In.
    destruct (Himp x Hx) as (c & _ & Hc). apply Hc.
  - split; [done|]. rewrite (passes_split row p Hk Hr). fold l. rewrite all_pass_app.
    destruct (all_pass row l) as [x|] eqn:Hl; [|done]. cbn -[all_pass].
    assert (exists y, all_pass row (b :: bs) = Ok y /\ (x = true -> y = true)) as (y & -> & Hy).
    { revert Himp. generalize (b :: bs). intros ds Himp.
      induction ds as [|d ds IH]; [by exists true|]. cbn [all_pass].
      destruct IH as (y & -> & Hy); [intros; apply Himp; by right|].
      destruct (Himp d (or_introl eq_refl)) as (c & Hc & _ & Hd).
      destruct (Hd row Hr) as (z & -> & Hz). exists (z && y). split; [done|]. intros ->.
      rewrite Hy, Hz by (try done; by eapply all_pass_true). done. }
    cbn. destruct x; cbn; [by rewrite Hy|done].
Qed.

(** *** The bounds are added once *)

Lemma split_leaf e c : In c (split_conjuncts e) -> split_conjuncts c = [c].
Proof.
  unfold split_conjuncts. induction e as [| |op l r IHl IHr| | | | | | | | | |] using expr_ind'; cbn [split_op];
    try (by intros [<-|[]]). case_decide as Hop.
  - intros [?|?]%in_app_or; auto.
  - intros [<-|[]]. cbn. by rewrite decide_False.
Qed.

Lemma bound_shape e b : In b (implied_bounds e) -> split_conjuncts b = [b] /\ implied_bounds b = [].
Proof.
  unfold implied_bounds. destruct (disjunction_of e) as [[c vs]|]; [|done].
  destruct (existsb is_text vs); [done|]. destruct (py_min vs) as [lo|], (py_max vs) as [hi|]; try done.
  by intros [<-|[<-|[]]].
Qed.

Lemma or_to_in_and_range_idempotent p p' :
  or_to_in_and_range p = Some (Ok p') -> or_to_in_and_range p' = None.
Proof.
  unfold or_to_in_and_range. set (l := split_conjuncts p). intros Hp.
  assert (exists more, added_bounds l = more /\ combine_conjuncts (l ++ more) = Ok p') as (more & Hm & Hc)
    by (destruct (added_bounds l); simplify_eq; eauto). clear Hp.
  destruct (add_bound_spec (concat (map implied_bounds l)) l []) as (H1 & H2 & more' & H3 & H4).
  unfold added_bounds in Hm. rewrite Hm in H1, H4. cbn in H4. subst more'. rewrite H3 in H2.
  assert (forall b, In b more -> exists c, In b (implied_bounds c)) as Hb.
  { intros b [[]|(bs & (c & <- & _)%in_map_iff & ?)%in_concat]%H1. eauto. }
  assert (split_conjuncts p' = l ++ more) as ->.
  { unfold split_conjuncts. rewrite (combine_split And _ _ Hc). rewrite <- (concat_singletons (l ++ more)) at 2.
    f_equal. apply map_ext_in. intros c [Hcl|Hcm]%in_app_or; [by eapply split_leaf|].
    by destruct (Hb c Hcm) as (c' & []%bound_shape). }
  assert (concat (map implied_bounds (l ++ more)) = concat (map implied_bounds l)) as Hnone.
  { rewrite map_app, concat_app. replace (map implied_bounds more) with (map (fun _ : expr => @nil expr) more).
    - clear. induction more; cbn; [by rewrite app_nil_r|done].
    - apply map_ext_in. intros c Hcm. by destruct (Hb c Hcm) as (c' & []%bound_shape). }
  unfold added_bounds. rewrite Hnone.
  assert (forall bs, (forall b, In b bs -> existsb (expr_eqb b) (l ++ more) = true) ->
    foldl add_bound (l ++ more, []) bs = (l ++ more, [])) as ->; [|done|by intros; apply H2; left].
  induction bs as [|b bs IH]; cbn [foldl]; [done|]. intros Hall. cbn [add_bound].
  rewrite (Hall b (or_introl eq_refl)). apply IH. intros. apply Hall. by right.
Qed.
End Normalize.

(** ** The rules *)

(** in a filter, replacing self-comparisons of a column ([a = a], [a <= a], [a >= a]) by
    [a is not null] anywhere under AND and OR keeps the predicate boolean, the rows that
    pass and the errors, NaN and null columns included. *)
Theorem self_comparison_to_null_check_sound `{!ExprEngine} sch e row :
  type_of sch e = Some KBool -> row_ok sch row ->
  type_of sch (rewrite_self_comparison e) = Some KBool /\
  passes sch row (rewrite_self_comparison e) = passes sch row e.
Proof. intros Hk Hr. destruct (rewrite_self_comparison_filters sch e Hk) as [? Hp]. auto. Qed.

(** in a filter, [CASE WHEN c THEN true ELSE false END] passes exactly the rows its
    condition passes and fails on exactly the rows its condition fails on. *)
Theorem boolean_case_to_predicate_sound `{!ExprEngine} sch e c row :
  boolean_case_condition e = Some c -> type_of sch e = Some KBool -> row_ok sch row ->
  type_of sch c = Some KBool /\ passes sch row c = passes sch row e.
Proof. intros Hc Hk Hr. destruct (boolean_case_filters sch e c Hc Hk) as [? Hp]. auto. Qed.

(** folding the OR chains of equalities of a predicate into IN lists succeeds and
    changes neither the type nor the outcome of the predicate on any row (so not only under
    a filter), when each chain compares a column with literals of one ordered type that the
    column is coerced to. *)
Theorem or_equalities_to_in_list_exact `{!ExprEngine} sch p r row :
  type_of sch p = Some KBool -> row_ok sch row ->
  Forall (fun c => plain_values sch (flat_or_equalities c) = true) (split_conjuncts p) ->
  or_equalities_to_in_list p = Some r ->
  exists p', r = Ok p' /\ type_of sch p' = Some KBool /\ run sch row p' = run sch row p.
Proof.
  intros Hk Hr Hp. unfold or_equalities_to_in_list. destruct (existsb _ _); [|done]. intros [= <-].
  apply (rewrite_conjuncts sch (fun c => default c (fold_disjunction c))); [|done..].
  eapply Forall_impl; [exact Hp|]. intros c Hc. cbn. destruct (fold_disjunction c) eqn:E; cbn; [|done].
  by eapply fold_disjunction_rewrites.
Qed.

(** adding the bounds [c >= min] and [c <= max] a disjunction or IN list implies leaves
    the rows that pass and the errors of the filter unchanged, and a second application of
    the rule adds nothing. *)
Theorem or_to_in_and_range_sound `{!ExprEngine} sch p r row :
  type_of sch p = Some KBool -> row_ok sch row ->
  Forall (fun c => plain_values sch (match flat_or_equalities c with
                                     | Some i => Some i
                                     | None => in_list_of_column c
                                     end) = true) (split_conjuncts p) ->
  or_to_in_and_range p = Some r ->
  exists p', r = Ok p' /\ type_of sch p' = Some KBool /\
    passes sch row p' = passes sch row p /\ or_to_in_and_range p' = None.
Proof.
  intros Hk Hr Hp Hrange.
  destruct (or_to_in_and_range_filters sch p r row Hk Hr Hp Hrange) as (p' & -> & ? & ?).
  exists p'. split_and!; [done..|]. by eapply or_to_in_and_range_idempotent.
Qed.

(** *** Concrete instances *)

Definition chain : expr :=
  Binary And (Binary Or (Binary CEq (Col "x") (Lit (VInt 4)))
                (Binary Or (Binary CEq (Lit (VInt 9)) (Col "x")) (Binary CEq (Col "x") (Lit (VInt 4)))))
    (Binary CLe (Col "x") (Col "x")).

Lemma chain_plain :
  Forall (fun c => plain_values bound_schema (flat_or_equalities c) = true) (split_conjuncts chain).
Proof. by repeat constructor. Qed.

Lemma self_comparison_to_null_check_sound_witness :
  rewrite_self_comparison (Binary Or (Binary CLe (Col "y") (Col "y")) (Binary CGt (Col "x") (Col "x")))
    = Binary Or (IsNotNull (Col "y")) (Binary CGt (Col "x") (Col "x")) /\
  passes bound_schema {["x" := VInt 1]}
    (Binary Or (IsNotNull (Col "y")) (Binary CGt (Col "x") (Col "x"))) =
  passes bound_schema {["x" := VInt 1]}
    (Binary Or (Binary CLe (Col "y") (Col "y")) (Binary CGt (Col "x") (Col "x"))).
Proof.
  split; [reflexivity|].
  apply (self_comparison_to_null_check_sound bound_schema
    (Binary Or (Binary CLe (Col "y") (Col "y")) (Binary CGt (Col "x") (Col "x")))).
  - vm_compute. reflexivity.
  - apply bound_row_ok.
Defined.

Lemma boolean_case_to_predicate_sound_witness :
  let c := Binary CLt (Col "x") (Lit (VInt 3)) in
  let e := Case [(c, Lit (VBool true))] (Lit (VBool false)) in
  passes bound_schema {["x" := VInt 1]} c = passes bound_schema {["x" := VInt 1]} e.
Proof.
  cbv zeta. apply (boolean_case_to_predicate_sound bound_schema
    (Case [(Binary CLt (Col "x") (Lit (VInt 3)), Lit (VBool true))] (Lit (VBool false)))
    (Binary CLt (Col "x") (Lit (VInt 3)))).
  - reflexivity.
  - vm_compute. reflexivity.
  - apply bound_row_ok.
Defined.

(** [(x = 4 or 9 = x or x = 4) and x <= x] becomes [x in (4, 9) and x <= x]. *)
Lemma or_equalities_to_in_list_exact_witness :
  let p' := Binary And (InList (Col "x") [VInt 4; VInt 9]) (Binary CLe (Col "x") (Col "x")) in
  or_equalities_to_in_list chain = Some (Ok p') /\
  run bound_schema {["x" := VInt 9]} p' = run bound_schema {["x" := VInt 9]} chain.
Proof.
  cbv zeta. split; [vm_compute; reflexivity|].
  destruct (or_equalities_to_in_list_exact bound_schema chain
    (Ok (Binary And (InList (Col "x") [VInt 4; VInt 9]) (Binary CLe (Col "x") (Col "x"))))
    {["x" := VInt 9]}) as (p' & [= <-] & _ & Hrun).
  - vm_compute. reflexivity.
  - apply bound_row_ok.
  - apply chain_plain.
  - vm_compute. reflexivity.
  - exact Hrun.
Defined.

Lemma or_to_in_and_range_sound_witness :
  exists p', or_to_in_and_range chain = Some (Ok p') /\ length (split_conjuncts p') = 4%nat /\
    passes bound_schema {["x" := VInt 5]} p' = passes bound_schema {["x" := VInt 5]} chain /\
    or_to_in_and_range p' = None.
Proof.
  destruct (or_to_in_and_range chain) as [r|] eqn:Hr; [|discriminate].
  destruct (or_to_in_and_range_sound bound_schema chain r {["x" := VInt 5]}) as (p' & -> & _ & Hp & Hi).
  - vm_compute. reflexivity.
  - apply bound_row_ok.
  - by repeat constructor.
  - exact Hr.
  - exists p'. split; [reflexivity|]. split; [|split; [exact Hp|exact Hi]].
    revert Hr. vm_compute. intros [= <-]. reflexivity.
Defined.
