(* ===== verification/PlanIR.v ===== *)
(** * Logical plans, their schemas and the rows they denote

    plan/logical (relational.py, join.py, aggregate.py, window.py): the plan nodes with the
    checks their constructors make; plan/visitor.py: [transform_up]; plan/expr_ir/walk.py:
    [referenced_columns] and [remap_columns]; plan/logical/transforms.py:
    [passthrough_renames].

    A relation is the list of its rows and a row the map of its non-null columns.  [den]
    says which rows a plan denotes, a row on which a predicate raises counting as not
    passing; [exec] evaluates the same operators and stops at the first exception.  The
    order of the lists is that of a sequential nested-loop execution. *)

From Stdlib Require Import Floats.SpecFloat.
From S2P Require Import Prelude ExprIR ExprSound ExprAlgebra.

Abbreviation row := (gmap string value).
Abbreviation schema := (gmap string kind).

(** ** Nodes *)

(** [JOIN_TYPES] and [JOIN_STRATEGIES]. *)
Inductive join_type := JInner | JLeft | JRight | JFull | JSemi | JAnti.
Inductive join_strategy := Hash | Broadcast | SortMerge.
Inductive side := SLeft | SRight.

#[global] Instance join_type_eq_dec : EqDecision join_type.
Proof. solve_decision. Defined.
#[global] Instance side_eq_dec : EqDecision side.
Proof. solve_decision. Defined.

(** [JoinOutputCol]. *)
Record join_output_col := JoinOutputCol { oside : side; oname : string; oalias : string }.
(** [SortKeySpec]. *)
Record sort_key := SortKey { sk_expr : expr; descending : bool; nulls_first : bool }.
(** [AggregateSpec]: an alias, a function tag and the operand expressions. *)
Record agg_spec := AggSpec { agg_alias : string; agg_func : string; agg_operands : list expr }.
(** [WindowFuncSpec]: an alias, a function tag and the optional input. *)
Record win_func := WinFunc { win_alias : string; win_tag : string; win_input : option expr }.

#[local] Unset Elimination Schemes.
Inductive plan :=
  | PScan (source_id : nat) (columns : list (string * kind))
  | PFilter (input : plan) (predicate : expr)
  | PProject (input : plan) (items : list (string * expr))
  | PJoin (left right : plan) (left_keys right_keys : list string) (jt : join_type)
      (output : list join_output_col) (strategy : join_strategy)
  | PAggregate (input : plan) (group_keys : list (string * expr)) (aggregates : list agg_spec)
      (watermark : option (string * Z))
  | PSort (input : plan) (keys : list sort_key) (limit : option nat)
  | PWindow (input : plan) (partition_keys : list expr) (order_keys : list sort_key)
      (functions : list win_func) (rank_limit : option nat)
  | PDistinct (input : plan) (keys : list string) (order : list sort_key) (limit : option nat)
  | PLimit (input : plan) (n offset : nat)
  | PSample (input : plan) (spec : string)
  | POther (op : string) (inputs : list plan).
#[local] Set Elimination Schemes.

Section Induction.
Variable P : plan -> Prop.
Hypothesis HScan : forall n cs, P (PScan n cs).
Hypothesis HFilter : forall i e, P i -> P (PFilter i e).
Hypothesis HProject : forall i its, P i -> P (PProject i its).
Hypothesis HJoin : forall l r lk rk jt o st, P l -> P r -> P (PJoin l r lk rk jt o st).
Hypothesis HAggregate : forall i ks ags w, P i -> P (PAggregate i ks ags w).
Hypothesis HSort : forall i ks n, P i -> P (PSort i ks n).
Hypothesis HWindow : forall i pk ok fs n, P i -> P (PWindow i pk ok fs n).
Hypothesis HDistinct : forall i ks o n, P i -> P (PDistinct i ks o n).
Hypothesis HLimit : forall i n o, P i -> P (PLimit i n o).
Hypothesis HSample : forall i s, P i -> P (PSample i s).
Hypothesis HOther : forall op l, Forall P l -> P (POther op l).

Fixpoint plan_ind' (p : plan) : P p :=
  match p with
  | PScan n cs => HScan n cs
  | PFilter i e => HFilter i e (plan_ind' i)
  | PProject i its => HProject i its (plan_ind' i)
  | PJoin l r lk rk jt o st => HJoin l r lk rk jt o st (plan_ind' l) (plan_ind' r)
  | PAggregate i ks ags w => HAggregate i ks ags w (plan_ind' i)
  | PSort i ks n => HSort i ks n (plan_ind' i)
  | PWindow i pk ok fs n => HWindow i pk ok fs n (plan_ind' i)
  | PDistinct i ks o n => HDistinct i ks o n (plan_ind' i)
  | PLimit i n o => HLimit i n o (plan_ind' i)
  | PSample i s => HSample i s (plan_ind' i)
  | POther op l => HOther op l
      ((fix all l : Forall P l :=
          match l with [] => Forall_nil_2 _ | x :: l' => Forall_cons_2 _ _ _ (plan_ind' x) (all l') end) l)
  end.
End Induction.

(** [transform_up]: children first, then [fn] on the rebuilt node.  Structural sharing is
    not observable on values. *)
Fixpoint transform_up (fn : plan -> res plan) (p : plan) : res plan :=
  match p with
  | PScan _ _ => fn p
  | PFilter i e => let* i := transform_up fn i in fn (PFilter i e)
  | PProject i its => let* i := transform_up fn i in fn (PProject i its)
  | PJoin l r lk rk jt o st =>
      let* l := transform_up fn l in let* r := transform_up fn r in fn (PJoin l r lk rk jt o st)
  | PAggregate i ks ags w => let* i := transform_up fn i in fn (PAggregate i ks ags w)
  | PSort i ks n => let* i := transform_up fn i in fn (PSort i ks n)
  | PWindow i pk ok fs n => let* i := transform_up fn i in fn (PWindow i pk ok fs n)
  | PDistinct i ks o n => let* i := transform_up fn i in fn (PDistinct i ks o n)
  | PLimit i n o => let* i := transform_up fn i in fn (PLimit i n o)
  | PSample i s => let* i := transform_up fn i in fn (PSample i s)
  | POther op l => let* l := res_mapM (transform_up fn) l in fn (POther op l)
  end.

(** ** Expression walks *)

(** [referenced_columns], as a list. *)
Fixpoint referenced_columns (e : expr) : list string :=
  match e with
  | Col c => [c]
  | Lit _ => []
  | Binary _ a b | NullIf a b => referenced_columns a ++ referenced_columns b
  | Not a | IsNull a | IsNotNull a | InList a _ => referenced_columns a
  | Coalesce l | Greatest l | Least l | EFunc _ l => concat (map referenced_columns l)
  | Case bs o =>
      concat (map (fun b => referenced_columns b.1 ++ referenced_columns b.2) bs) ++ referenced_columns o
  end.

(** [remap_columns]. *)
Fixpoint remap_columns (e : expr) (mapping : gmap string string) : expr :=
  match e with
  | Col c => Col (default c (mapping !! c))
  | Lit v => Lit v
  | Binary op a b => Binary op (remap_columns a mapping) (remap_columns b mapping)
  | Not a => Not (remap_columns a mapping)
  | IsNull a => IsNull (remap_columns a mapping)
  | IsNotNull a => IsNotNull (remap_columns a mapping)
  | InList a vs => InList (remap_columns a mapping) vs
  | Coalesce l => Coalesce (map (fun e => remap_columns e mapping) l)
  | Greatest l => Greatest (map (fun e => remap_columns e mapping) l)
  | Least l => Least (map (fun e => remap_columns e mapping) l)
  | NullIf a b => NullIf (remap_columns a mapping) (remap_columns b mapping)
  | Case bs o => Case (map (fun b => (remap_columns b.1 mapping, remap_columns b.2 mapping)) bs)
                   (remap_columns o mapping)
  | EFunc fn l => EFunc fn (map (fun e => remap_columns e mapping) l)
  end.

(** [cols <= set]. *)
Definition covers (known cols : list string) : bool := forallb (fun c => bool_decide (c ∈ known)) cols.

(** A dict comprehension: the last binding of a name wins. *)
Definition py_dict {A} (l : list (string * A)) : gmap string A := foldl (fun m kv => <[kv.1 := kv.2]> m) ∅ l.
(** [d.setdefault(k, v)] for each pair in turn. *)
Definition set_defaults {A} (m : gmap string A) (l : list (string * A)) : gmap string A :=
  foldl (fun m kv => match m !! kv.1 with Some _ => m | None => <[kv.1 := kv.2]> m end) m l.

(** [passthrough_renames]. *)
Definition passthrough_renames (items : list (string * expr)) : gmap string string :=
  py_dict (omap (fun it => match it.2 with Col c => Some (it.1, c) | _ => None end) items).

(** ** Rows *)

Fixpoint assoc {A} (c : string) (l : list (string * A)) : option A :=
  match l with [] => None | (d, x) :: l' => if decide (d = c) then Some x else assoc c l' end.

(** The row that binds each name to its value or null; the first binding wins. *)
Definition bind_row (l : list (string * option value)) : row :=
  foldr (fun cx m => match cx.2 with Some v => <[cx.1 := v]> m | None => delete cx.1 m end) ∅ l.

(** The engine's identity of keys (crates/bc-runtime/src/keys.rs): the two zeros are one value
    and every NaN is one value, which the model has only one of. *)
Definition canon (v : value) : value :=
  match v with VFloat (S754_zero _) => VFloat (S754_zero false) | v => v end.

Definition key_eq (x y : option value) : bool :=
  match x, y with Some v, Some w => bool_decide (canon v = canon w) | _, _ => false end.

(** An equi-join matches on every key pair, and a null key matches nothing. *)
Definition matches (keys : list (string * string)) (l r : row) : bool :=
  forallb (fun k => key_eq (l !! k.1) (r !! k.2)) keys.

Definition pick (s : side) (l r : row) : row := match s with SLeft => l | SRight => r end.

(** One output row of a join; a missing side is the empty row. *)
Definition out_row (output : list join_output_col) (l r : row) : row :=
  bind_row (map (fun o => (o.(oalias), pick o.(oside) l r !! o.(oname))) output).

Section Join.
Variable m : row -> row -> bool.
Variable mk : row -> row -> row.
Definition inner_rows (ls rs : list row) : list row :=
  flat_map (fun l => map (mk l) (List.filter (m l) rs)) ls.
Definition left_rows (ls rs : list row) : list row :=
  flat_map (fun l => match List.filter (m l) rs with [] => [mk l ∅] | ms => map (mk l) ms end) ls.
Definition lone_right (ls rs : list row) : list row :=
  map (mk ∅) (List.filter (fun r => negb (existsb (fun l => m l r) ls)) rs).
Definition join_rows (jt : join_type) (ls rs : list row) : list row :=
  match jt with
  | JInner => inner_rows ls rs
  | JLeft => left_rows ls rs
  | JRight => inner_rows ls rs ++ lone_right ls rs
  | JFull => left_rows ls rs ++ lone_right ls rs
  | JSemi => map (fun l => mk l ∅) (List.filter (fun l => existsb (m l) rs) ls)
  | JAnti => map (fun l => mk l ∅) (List.filter (fun l => negb (existsb (m l) rs)) ls)
  end.
End Join.

(** The first of the elements that agree on [f]. *)
Fixpoint dedup_by {A B} `{EqDecision B} (f : A -> B) (l : list A) : list A :=
  match l with
  | [] => []
  | x :: l' => x :: List.filter (fun y => negb (bool_decide (f y = f x))) (dedup_by f l')
  end.

(** Rows grouped by a key, in the order the keys first appear. *)
Definition groups {A B} `{EqDecision B} (key : A -> B) (l : list A) : list (B * list A) :=
  map (fun x => (key x, List.filter (fun y => bool_decide (key y = key x)) l)) (dedup_by key l).

(** A stable sort. *)
Fixpoint insert_by {A} (le : A -> A -> bool) (x : A) (l : list A) : list A :=
  match l with [] => [x] | y :: l' => if le x y then x :: l else y :: insert_by le x l' end.
Definition sort_by {A} (le : A -> A -> bool) (l : list A) : list A := foldr (insert_by le) [] l.

Definition cap_rows {A} (n : option nat) (l : list A) : list A :=
  match n with None => l | Some n => take n l end.

(** ** The engine *)

(** Readers and kernels: the rows of a source, an aggregate over a group, the window operator
    on one partition, sampling, a keyed dedup, and every other operator; with what a plan's
    schema promises of their results. *)
Class PlanEngine := {
  #[global] pe_expr :: ExprEngine;
  table : nat -> list (string * kind) -> list row;
  agg_kind : agg_spec -> schema -> option kind;
  agg_value : agg_spec -> list row -> res (option value);
  win_kind : win_func -> schema -> option kind;
  win_rows : list sort_key -> list win_func -> option nat -> list row -> res (list row);
  sample_rows : string -> list row -> list row;
  distinct_on : list string -> list sort_key -> list row -> res (list row);
  other_schema : string -> list schema -> option schema;
  other_rows : string -> list (list row) -> res (list row);
  pe_table : forall n cs, Forall (row_ok (list_to_map cs)) (table n cs);
  pe_agg : forall a s l k x, agg_kind a s = Some k -> Forall (row_ok s) l ->
    agg_value a l = Ok x -> has_kind k x;
  (* the input columns of a row pass through the window operator *)
  pe_win : forall s ok fs n l l' ks, opt_mapM (fun f => win_kind f s) fs = Some ks ->
    Forall (row_ok s) l -> win_rows ok fs n l = Ok l' ->
    Forall (fun r' => row_ok (list_to_map (zip (map win_alias fs) ks) ∪ s) r' /\
      exists r, r ∈ l /\ forall c, c ∉ map win_alias fs -> r' !! c = r !! c) l';
  pe_sample : forall s l, sublist (sample_rows s l) l;
  pe_distinct : forall ks o l l', distinct_on ks o l = Ok l' -> sublist l' l;
  pe_other : forall op ss s ls l, other_schema op ss = Some s ->
    Forall2 (fun s l => Forall (row_ok s) l) ss ls -> other_rows op ls = Ok l -> Forall (row_ok s) l;
}.

(** Keep the elements a fallible test accepts. *)
Section FilterM.
Context {A : Type}.
Variable f : A -> res bool.
Fixpoint filterM (l : list A) : res (list A) :=
  match l with
  | [] => Ok []
  | x :: l' => let* keep := f x in let* rest := filterM l' in Ok (if keep : bool then x :: rest else rest)
  end.
End FilterM.

Section Semantics.
Context {PE : PlanEngine}.

(** *** Schemas *)

Definition all_typed (s : schema) (es : list expr) : bool :=
  forallb (fun e => bool_decide (is_Some (type_of s e))) es.

Definition out_kind (ls rs : schema) (o : join_output_col) : option (string * kind) :=
  k ← (match o.(oside) with SLeft => ls | SRight => rs end) !! o.(oname); Some (o.(oalias), k).

(** The schema of a node whose constructor accepts it, [None] otherwise: columns exist, aliases
    are distinct, join keys pair up at one type, a semi or anti join outputs left columns. *)
Fixpoint schema_of (p : plan) : option schema :=
  match p with
  | PScan _ cs => if bool_decide (NoDup (map fst cs)) then Some (list_to_map cs) else None
  | PFilter i e => s ← schema_of i; if bool_decide (type_of s e = Some KBool) then Some s else None
  | PProject i its =>
      s ← schema_of i; ks ← opt_mapM (type_of s) (map snd its);
      if bool_decide (NoDup (map fst its)) then Some (list_to_map (zip (map fst its) ks)) else None
  | PJoin l r lk rk jt out _ =>
      ls ← schema_of l; rs ← schema_of r; cs ← opt_mapM (out_kind ls rs) out;
      if (length lk =? length rk)%nat
         && forallb (fun k => bool_decide (is_Some (ls !! k.1) /\ ls !! k.1 = rs !! k.2)) (zip lk rk)
         && bool_decide (NoDup (map oalias out))
         && match jt with
            | JSemi | JAnti => forallb (fun o => bool_decide (o.(oside) = SLeft)) out
            | _ => true
            end
      then Some (list_to_map cs) else None
  | PAggregate i gks ags _ =>
      s ← schema_of i; ks ← opt_mapM (type_of s) (map snd gks);
      kas ← opt_mapM (fun a => agg_kind a s) ags;
      if bool_decide (NoDup (map fst gks ++ map agg_alias ags))
      then Some (list_to_map (zip (map fst gks) ks ++ zip (map agg_alias ags) kas)) else None
  | PSort i ks _ =>
      s ← schema_of i;
      if forallb (fun k => match type_of s k.(sk_expr) with Some k => ordered k | None => false end) ks
      then Some s else None
  | PWindow i pks oks fs _ =>
      s ← schema_of i; ks ← opt_mapM (fun f => win_kind f s) fs;
      if all_typed s pks && all_typed s (map sk_expr oks)
         && forallb (fun f => bool_decide (s !! f.(win_alias) = None)) fs
         && bool_decide (NoDup (map win_alias fs))
      then Some (list_to_map (zip (map win_alias fs) ks) ∪ s) else None
  | PDistinct i ks o _ =>
      s ← schema_of i;
      if forallb (fun c => bool_decide (is_Some (s !! c))) ks && all_typed s (map sk_expr o)
      then Some s else None
  | PLimit i _ _ | PSample i _ => schema_of i
  | POther op l => ss ← opt_mapM schema_of l; other_schema op ss
  end.

(** [available_columns], in order. *)
Fixpoint available_columns (p : plan) : list string :=
  match p with
  | PScan _ cs => map fst cs
  | PFilter i _ | PSort i _ _ | PDistinct i _ _ _ | PLimit i _ _ | PSample i _ => available_columns i
  | PProject _ its => map fst its
  | PJoin _ _ _ _ _ out _ => map oalias out
  | PAggregate _ gks ags _ => map fst gks ++ map agg_alias ags
  | PWindow i _ _ fs _ => available_columns i ++ map win_alias fs
  | POther op l => match opt_mapM schema_of l with
                   | Some ss => map fst (map_to_list (default ∅ (other_schema op ss)))
                   | None => []
                   end
  end.

(** The schema of an input the typed plan above it has checked. *)
Definition schema' (p : plan) : schema := default ∅ (schema_of p).

(** *** Rows of a plan *)

(** A filter keeps the rows on which its predicate is true. *)
Definition passes (s : schema) (e : expr) (r : row) : bool :=
  match run s r e with Ok (Some (VBool true)) => true | _ => false end.

Definition value_at (s : schema) (e : expr) (r : row) : option value :=
  match run s r e with Ok x => x | Raise _ => None end.

Definition or_null (x : res (option value)) : option value := match x with Ok x => x | Raise _ => None end.
Definition or_none {A} (x : res (list A)) : list A := match x with Ok l => l | Raise _ => [] end.

Definition keys_of (s : schema) (es : list expr) (r : row) : list (option value) :=
  map (fun e => canon <$> value_at s e r) es.

Definition null_compare (first : bool) (cmp : value -> value -> comparison) (x y : option value) : comparison :=
  match x, y with
  | None, None => Eq
  | None, Some _ => if first then Lt else Gt
  | Some _, None => if first then Gt else Lt
  | Some v, Some w => cmp v w
  end.

Definition key_order (k : sort_key) : option value -> option value -> comparison :=
  null_compare k.(nulls_first) (if k.(descending) then fun v w => vorder w v else vorder).

(** The order of two rows under a list of sort keys: the first key that tells them apart. *)
Fixpoint row_order (value : expr -> row -> option value) (ks : list sort_key) (r r' : row) : comparison :=
  match ks with
  | [] => Eq
  | k :: ks' => match key_order k (value k.(sk_expr) r) (value k.(sk_expr) r') with
                | Eq => row_order value ks' r r'
                | c => c
                end
  end.

Definition row_le (s : schema) (ks : list sort_key) (r r' : row) : bool :=
  match row_order (value_at s) ks r r' with Gt => false | _ => true end.

Definition agg_groups (s : schema) (gks : list (string * expr)) (l : list row)
    : list (list (option value) * list row) :=
  match gks with [] => [([], l)] | _ => groups (keys_of s (map snd gks)) l end.

(** The row of a group: the keys, then the aggregates. *)
Definition agg_row (gks : list (string * expr)) (ags : list agg_spec) (vals : list (option value))
    (key : list (option value)) : row :=
  bind_row (zip (map fst gks) key ++ zip (map agg_alias ags) vals).

Definition project_row (s : schema) (its : list (string * expr)) (r : row) : row :=
  bind_row (map (fun it => (it.1, value_at s it.2 r)) its).

(** Rows compared as wholes by a dedup. *)
Definition canon_row (r : row) : row := canon <$> r.

Fixpoint den (p : plan) : list row :=
  match p with
  | PScan n cs => table n cs
  | PFilter i e => List.filter (passes (schema' i) e) (den i)
  | PProject i its => map (project_row (schema' i) its) (den i)
  | PJoin l r lk rk jt out _ => join_rows (matches (zip lk rk)) (out_row out) jt (den l) (den r)
  | PAggregate i gks ags _ =>
      map (fun g => agg_row gks ags (map (fun a => or_null (agg_value a g.2)) ags) g.1)
        (agg_groups (schema' i) gks (den i))
  | PSort i ks n => cap_rows n (sort_by (row_le (schema' i) ks) (den i))
  | PWindow i pks oks fs n =>
      concat (map (fun g => or_none (win_rows oks fs n g.2)) (groups (keys_of (schema' i) pks) (den i)))
  | PDistinct i [] _ n => cap_rows n (dedup_by canon_row (den i))
  | PDistinct i ks o _ => or_none (distinct_on ks o (den i))
  | PLimit i n o => take n (drop o (den i))
  | PSample i s => sample_rows s (den i)
  | POther op l => or_none (other_rows op (map den l))
  end.

(** *** Execution *)

(** A filter's test of a row. *)
Definition test (s : schema) (e : expr) (r : row) : res bool :=
  let* x := run s r e in let* b := as_bool x in Ok (bool_decide (b = Some true)).

(** The expressions of an operator on every row, before it groups or sorts. *)
Definition evaluate (s : schema) (es : list expr) (l : list row) : res (list (list (option value))) :=
  res_mapM (fun r => res_mapM (fun e => run s r e) es) l.

Fixpoint exec (p : plan) : res (list row) :=
  match p with
  | PScan n cs => Ok (table n cs)
  | PFilter i e => let* l := exec i in filterM (test (schema' i) e) l
  | PProject i its =>
      let* l := exec i in
      let* vs := evaluate (schema' i) (map snd its) l in
      Ok (map (fun v => bind_row (zip (map fst its) v)) vs)
  | PJoin l r lk rk jt out _ =>
      let* ls := exec l in let* rs := exec r in
      Ok (join_rows (matches (zip lk rk)) (out_row out) jt ls rs)
  | PAggregate i gks ags _ =>
      let* l := exec i in
      let* checked := evaluate (schema' i) (map snd gks) l in
      res_mapM (fun g : list (option value) * list row => let* vs := res_mapM (fun a => agg_value a g.2) ags in Ok (agg_row gks ags vs g.1))
        (agg_groups (schema' i) gks l)
  | PSort i ks n =>
      let* l := exec i in
      let* checked := evaluate (schema' i) (map sk_expr ks) l in
      Ok (cap_rows n (sort_by (row_le (schema' i) ks) l))
  | PWindow i pks oks fs n =>
      let* l := exec i in
      let* checked := evaluate (schema' i) pks l in
      let* ps := res_mapM (fun g : list (option value) * list row => win_rows oks fs n g.2) (groups (keys_of (schema' i) pks) l) in
      Ok (concat ps)
  | PDistinct i [] _ n => let* l := exec i in Ok (cap_rows n (dedup_by canon_row l))
  | PDistinct i ks o _ => let* l := exec i in distinct_on ks o l
  | PLimit i n o => let* l := exec i in Ok (take n (drop o l))
  | PSample i s => let* l := exec i in Ok (sample_rows s l)
  | POther op l => let* ls := res_mapM exec l in other_rows op ls
  end.
End Semantics.
