(* ===== verification/PlanSound.v ===== *)
(** * Facts about plans shared by the rewrite rules

    Lookup in the rows operators build; evaluation of an expression that reads only some
    columns, renamed or inlined; conjunctions as filters; [exec] against [den]; rows fit
    their schema; and [transform_up] applied to a sound rule. *)

From Stdlib Require Import Floats.SpecFloat.
From S2P Require Import Prelude ExprIR ExprSound ExprAlgebra PlanIR.

(** ** Bindings *)

Lemma lookup_bind_row l c : bind_row l !! c = mjoin (assoc c l).
Proof.
  induction l as [|[d x] l IH]; cbn; [apply lookup_empty|].
  destruct (decide (d = c)) as [->|Hd]; destruct x as [v|]; cbn; simplify_map_eq; auto.
Qed.

Lemma lookup_list_to_map {A} (l : list (string * A)) c : (list_to_map l : gmap string A) !! c = assoc c l.
Proof.
  induction l as [|[d x] l IH]; cbn; [apply lookup_empty|].
  destruct (decide (d = c)) as [->|Hd]; simplify_map_eq; auto.
Qed.

Lemma assoc_elem {A} c (x : A) l : assoc c l = Some x -> (c, x) ∈ l.
Proof.
  induction l as [|[d y] l IH]; cbn; [done|]. case_decide; [intros [= <-]; subst; left|]. right. auto.
Qed.

Lemma assoc_nodup {A} c (x : A) l : NoDup (map fst l) -> (c, x) ∈ l -> assoc c l = Some x.
Proof.
  induction l as [|[d y] l IH]; cbn; [by intros _ ?%not_elem_of_nil|].
  intros [Hd Hn]%NoDup_cons [[= -> ->]|Hx]%elem_of_cons; [by rewrite decide_True|].
  rewrite decide_False; [auto|]. intros ->. apply Hd. apply list_elem_of_fmap. by exists (c, x).
Qed.

Lemma assoc_map {A B} (f : A -> B) c (l : list (string * A)) :
  assoc c (map (fun cx => (cx.1, f cx.2)) l) = f <$> assoc c l.
Proof. induction l as [|[d x] l IH]; cbn; [done|]. by case_decide. Qed.

Lemma assoc_zip {A} c (cs : list string) (xs : list A) x :
  assoc c (zip cs xs) = Some x -> c ∈ cs.
Proof. intros H%assoc_elem. apply elem_of_zip_l in H. done. Qed.

Lemma assoc_app {A} c (l l' : list (string * A)) :
  assoc c (l ++ l') = match assoc c l with Some x => Some x | None => assoc c l' end.
Proof. induction l as [|[d x] l IH]; cbn; [done|]. by case_decide. Qed.

Lemma assoc_none {A} c (l : list (string * A)) : assoc c l = None <-> c ∉ map fst l.
Proof.
  induction l as [|[d x] l IH]; cbn; [split; [intros _; apply not_elem_of_nil|done]|].
  rewrite not_elem_of_cons. case_decide; [split; [done|intros [? _]; congruence]|].
  rewrite IH. split; [intros ?; split; [congruence|done]|by intros [_ ?]].
Qed.

(** A dict comprehension binds a name to its last value. *)
Lemma lookup_inserts {A} (l : list (string * A)) (m : gmap string A) c :
  foldl (fun m kv => <[kv.1 := kv.2]> m) m l !! c =
    match assoc c (reverse l) with Some x => Some x | None => m !! c end.
Proof.
  revert m. induction l as [|[d x] l IH]; intros m; cbn [foldl]; [done|].
  rewrite IH, reverse_cons, assoc_app. cbn. destruct (assoc c (reverse l)); [done|].
  case_decide; subst; by simplify_map_eq.
Qed.

Lemma lookup_py_dict {A} (l : list (string * A)) c x : py_dict l !! c = Some x -> (c, x) ∈ l.
Proof.
  unfold py_dict. rewrite lookup_inserts. destruct (assoc c (reverse l)) eqn:E; [|rewrite lookup_empty; discriminate].
  intros [= ->]. apply assoc_elem in E. by rewrite elem_of_reverse in E.
Qed.

Lemma py_dict_dom {A} (l : list (string * A)) c : is_Some (py_dict l !! c) <-> c ∈ map fst l.
Proof.
  unfold py_dict. rewrite lookup_inserts, lookup_empty. destruct (assoc c (reverse l)) as [x|] eqn:E.
  - split; [intros _|by eauto]. apply assoc_elem in E. rewrite elem_of_reverse in E. apply list_elem_of_fmap. by exists (c, x).
  - split; [by intros [? ?]|]. intros Hc. apply assoc_none in E. contradict E.
    apply list_elem_of_fmap in Hc as (y & -> & Hy). apply list_elem_of_fmap. exists y. split; [done|].
    by apply elem_of_reverse.
Qed.

Lemma lookup_set_defaults {A} (l : list (string * A)) (m : gmap string A) c :
  set_defaults m l !! c = match m !! c with Some x => Some x | None => assoc c l end.
Proof.
  revert m. induction l as [|[d x] l IH]; intros m; cbn; [by destruct (m !! c)|].
  unfold set_defaults in IH. rewrite IH. destruct (m !! d) as [y|] eqn:Hd; case_decide; subst.
  - by rewrite Hd.
  - done.
  - by simplify_map_eq.
  - by simplify_map_eq.
Qed.

(** ** Expressions that read some columns *)

Lemma covers_spec known cols : covers known cols = true <-> forall c, c ∈ cols -> c ∈ known.
Proof.
  unfold covers. rewrite forallb_forall. split.
  - intros H c Hc. apply list_elem_of_In, H in Hc. by apply bool_decide_eq_true in Hc.
  - intros H c Hc. apply bool_decide_eq_true, H. by apply list_elem_of_In.
Qed.

Lemma refs_concat {A} (f : A -> list string) (l : list A) x c : x ∈ l -> c ∈ f x -> c ∈ concat (map f l).
Proof. rewrite !list_elem_of_In. intros Hx Hc. apply in_concat. exists (f x). split; [by apply in_map|done]. Qed.

(** Replace every column by an expression. *)
Definition inline (σ : string -> expr) : expr -> expr :=
  transform_expr_up (fun e => match e with Col c => σ c | _ => e end).

Lemma inline_substitute mapping e :
  substitute_columns e mapping = inline (fun c => default (Col c) (mapping !! c)) e.
Proof.
  unfold substitute_columns, inline. induction e using expr_ind'; cbn; rewrite ?IHe, ?IHe1, ?IHe2; try done;
    try (f_equal; by apply map_ext_Forall).
  f_equal; try done. apply map_ext_Forall. eapply Forall_impl; [done|]. cbn. intros [] [-> ->]. done.
Qed.

Lemma inline_remap mapping e : remap_columns e mapping = inline (fun c => Col (default c (mapping !! c))) e.
Proof.
  unfold inline. induction e using expr_ind'; cbn; rewrite ?IHe, ?IHe1, ?IHe2; try done;
    try (f_equal; by apply map_ext_Forall).
  f_equal; try done. apply map_ext_Forall. eapply Forall_impl; [done|]. cbn. intros [] [-> ->]. done.
Qed.

Section Inline.
Context {EE : ExprEngine}.
Variables (sch sch' : schema) (σ : string -> expr).

Lemma inline_kind e :
  (forall c, c ∈ referenced_columns e -> type_of sch (σ c) = sch' !! c) ->
  type_of sch (inline σ e) = type_of sch' e.
Proof.
  unfold type_of, inline. induction e using expr_ind'; cbn -[sup_list]; intros Hc;
    rewrite ?opt_mapM_map, ?IHe, ?IHe1, ?IHe2 by set_solver; try done;
    try (rewrite (opt_mapM_ext _ (kind_of fsig opsig sch')); [done|];
         rewrite Forall_forall in H |- *; intros x Hx; apply H; [done|];
         intros c ?; eapply Hc, refs_concat; done).
  - apply Hc. set_solver.
  - rewrite Forall_forall in H.
    assert (forall b, b ∈ bs -> (forall c, c ∈ referenced_columns b.1 ++ referenced_columns b.2 ->
      kind_of fsig opsig sch (σ c) = sch' !! c)) as Hb.
    { intros b Hb c ?. apply Hc, elem_of_app. left. by eapply (refs_concat (fun b => referenced_columns b.1 ++ referenced_columns b.2)). }
    cbn [fst snd]. set (t := transform_expr_up _) in *.
    rewrite (opt_mapM_ext (fun b => kind_of fsig opsig sch (t b.1)) (fun b => kind_of fsig opsig sch' b.1)),
      (opt_mapM_ext (fun b => kind_of fsig opsig sch (t b.2)) (fun b => kind_of fsig opsig sch' b.2));
      [done|..]; rewrite Forall_forall; intros b Hin; apply H; try done; intros c ?; apply (Hb b Hin); set_solver.
Qed.

Lemma refs_typed s e k c : type_of s e = Some k -> c ∈ referenced_columns e -> is_Some (s !! c).
Proof.
  unfold type_of. revert k.
  assert (forall l, Forall (fun e => forall k, kind_of fsig opsig s e = Some k -> c ∈ referenced_columns e -> is_Some (s !! c)) l ->
    forall ks, opt_mapM (kind_of fsig opsig s) l = Some ks -> c ∈ concat (map referenced_columns l) -> is_Some (s !! c)) as Hl.
  { intros l Hl ks Hks. apply opt_mapM_Some in Hks. clear e. induction Hks as [|e k l ks He _ IH]; cbn; [by intros ?%not_elem_of_nil|].
    apply Forall_cons in Hl as [H1 H2]. intros [Hc|Hc]%elem_of_app; eauto. }
  induction e using expr_ind'; cbn; intros k Hk Hc;
    repeat match type of Hk with mbind _ ?x = Some _ =>
      let E := fresh "E" in destruct x eqn:E; cbn in Hk; [|discriminate Hk] end;
    try (by eapply Hl); try (apply elem_of_app in Hc as [Hc|Hc]; by eauto); try (by eauto).
  - apply list_elem_of_singleton in Hc as ->. by eauto.
  - apply elem_of_app in Hc as [Hc|Hc]; [|by eauto]. apply opt_mapM_Some in E, E0. clear Hk IHe.
    revert l l0 E E0. induction H as [|b bs [H1 H2] _ IH]; cbn in Hc; [by apply not_elem_of_nil in Hc|].
    intros l l0 E E0. inversion E; inversion E0; subst. apply elem_of_app in Hc as [[Hc|Hc]%elem_of_app|Hc]; eauto.
Qed.

Variables (r r' : row).
Lemma inline_eval e :
  (forall c, c ∈ referenced_columns e ->
     type_of sch (σ c) = sch' !! c /\ run sch r (σ c) = run sch' r' (Col c)) ->
  run sch r (inline σ e) = run sch' r' e.
Proof.
  assert (forall e, (forall c, c ∈ referenced_columns e ->
     type_of sch (σ c) = sch' !! c /\ run sch r (σ c) = run sch' r' (Col c)) ->
     kind_of fsig opsig sch (inline σ e) = kind_of fsig opsig sch' e) as Hk.
  { intros e0 H0. apply inline_kind. intros. by apply H0. }
  unfold run, inline in *. induction e using expr_ind'; intros Hc; pose proof (Hk _ Hc) as Hke.
  1-7, 11: cbn in *; rewrite ?IHe, ?IHe1, ?IHe2 by set_solver; try done.
  - apply Hc. cbn. set_solver.
  - cbn [transform_expr_up eval] in *. rewrite Hke. f_equal. apply first_some_map.
    rewrite Forall_forall in H |- *. intros x Hx. apply H; [done|]. intros c ?. eapply Hc, refs_concat; done.
  - cbn [transform_expr_up eval] in *. rewrite Hke, res_mapM_map. f_equal. apply res_mapM_ext.
    rewrite Forall_forall in H |- *. intros x Hx. apply H; [done|]. intros c ?. eapply Hc, refs_concat; done.
  - cbn [transform_expr_up eval] in *. rewrite Hke, res_mapM_map. f_equal. apply res_mapM_ext.
    rewrite Forall_forall in H |- *. intros x Hx. apply H; [done|]. intros c ?. eapply Hc, refs_concat; done.
  - cbn [transform_expr_up eval] in *. rewrite Hke, IHe; [f_equal|].
    + apply first_true_map. rewrite Forall_forall in H |- *. intros b Hb. destruct (H b Hb) as [H1 H2].
      split; [apply H1|apply H2]; intros c ?; apply Hc; cbn; apply elem_of_app; left;
        eapply (refs_concat (fun b => referenced_columns b.1 ++ referenced_columns b.2)); set_solver.
    + intros c ?. apply Hc. cbn. set_solver.
  - cbn [transform_expr_up eval] in *. rewrite res_mapM_map. f_equal. apply res_mapM_ext.
    rewrite Forall_forall in H |- *. intros x Hx. apply H; [done|]. intros c ?. eapply Hc, refs_concat; done.
Qed.
End Inline.

Lemma remap_safe e m : safe_expr (remap_columns e m) = safe_expr e.
Proof.
  assert (forall l, Forall (fun e => safe_expr (remap_columns e m) = safe_expr e) l ->
    forallb safe_expr (map (fun e => remap_columns e m) l) = forallb safe_expr l) as Hl.
  { induction 1 as [|x l Hx _ IH]; cbn; [done|]. by rewrite Hx, IH. }
  induction e using expr_ind'; cbn; rewrite ?IHe, ?IHe1, ?IHe2, ?(Hl _ H); try done.
  f_equal. induction H as [|b bs [H1 H2] _ IH]; cbn; [done|]. by rewrite H1, H2, IH.
Qed.

(** ** Conjunctions *)

(** A property of an AND node that is that of both its sides. *)
Definition conjunctive (P : expr -> Prop) : Prop := forall a b, P (Binary And a b) <-> P a /\ P b.

Lemma conjunctive_split P e : conjunctive P -> P e <-> Forall P (split_conjuncts e).
Proof.
  intros HP. unfold split_conjuncts.
  induction e using expr_ind'; cbn; try (by rewrite Forall_singleton). case_decide; [subst|by rewrite Forall_singleton].
  rewrite Forall_app, <- IHe1, <- IHe2. apply HP.
Qed.

Lemma conjunctive_combine P l e : conjunctive P -> combine_conjuncts l = Ok e -> P e <-> Forall P l.
Proof.
  intros HP He. rewrite (conjunctive_split P e HP).
  unfold split_conjuncts. rewrite (combine_split And l e He). clear e He. induction l as [|a l IH]; [done|].
  cbn. rewrite Forall_app, Forall_cons, IH. by rewrite <- (conjunctive_split P a HP).
Qed.

Lemma safe_conjunctive : conjunctive (fun e => safe_expr e = true).
Proof. intros a b. cbn. apply andb_true_iff. Qed.

Lemma typed_conjunctive {EE : ExprEngine} s : conjunctive (fun e => type_of s e = Some KBool).
Proof.
  intros a b. unfold type_of. cbn. destruct (kind_of _ _ _ a) as [ka|]; cbn; [|by split; [|intros [? _]]].
  destruct (kind_of _ _ _ b) as [kb|]; cbn; [|by split; [|intros [_ ?]]].
  unfold guard_kind. do 2 case_bool_decide; cbn; subst; split; intros; destruct_and?; try done; congruence.
Qed.

Section Passes.
Context {PE : PlanEngine}.

Lemma passes_and s a b r : passes s (Binary And a b) r = passes s a r && passes s b r.
Proof.
  unfold passes, run. cbn. destruct (eval _ _ _ _ _ _ a) as [[[| |[]| |]|]|]; cbn; try done;
    destruct (eval _ _ _ _ _ _ b) as [[[| |[]| |]|]|]; done.
Qed.

Lemma passes_conjunctive s r : conjunctive (fun e => passes s e r = true).
Proof. intros a b. rewrite passes_and. apply andb_true_iff. Qed.

Lemma plan_passes_split s e r : passes s e r = forallb (fun c => passes s c r) (split_conjuncts e).
Proof.
  apply eq_bool_prop_intro. rewrite !Is_true_true, forallb_forall.
  rewrite (conjunctive_split _ e (passes_conjunctive s r)), Forall_forall.
  split; intros H c Hc; apply H; by apply list_elem_of_In.
Qed.

Lemma plan_passes_combine s l e r :
  combine_conjuncts l = Ok e -> passes s e r = forallb (fun c => passes s c r) l.
Proof.
  intros He. apply eq_bool_prop_intro. rewrite !Is_true_true, forallb_forall.
  rewrite (conjunctive_combine _ l e (passes_conjunctive s r) He), Forall_forall.
  split; intros H c Hc; apply H; by apply list_elem_of_In.
Qed.

(** The strict test of a well-typed row. *)
Lemma test_passes s e r b : test s e r = Ok b -> passes s e r = b.
Proof.
  unfold test, passes. intros (x & -> & H)%res_bind_ok. apply res_bind_ok in H as (c & Hc & [= <-]).
  destruct x as [[| |[]| |]|]; cbn in Hc; try done; by injection Hc as <-.
Qed.

Lemma filterM_passes s e l l' : filterM (test s e) l = Ok l' -> List.filter (passes s e) l = l'.
Proof.
  revert l'. induction l as [|r l IH]; cbn; intros l'; [by intros [= <-]|].
  intros (b & Hb & H)%res_bind_ok. apply res_bind_ok in H as (rest & Hr & [= <-]).
  rewrite (test_passes _ _ _ _ Hb). by rewrite (IH _ Hr).
Qed.

Lemma test_safe s e r :
  safe_expr e = true -> type_of s e = Some KBool -> row_ok s r -> test s e r = Ok (passes s e r).
Proof.
  intros Hs Hk Hr. destruct (safe_expr_evaluates fsig opsig s ext ext_op ee_total e Hs KBool r Hk Hr) as (x & Hx & Hxk).
  assert (exists b, test s e r = Ok b) as [b Hb]; [|by rewrite (test_passes _ _ _ _ Hb)].
  unfold test, run. rewrite Hx. cbn. destruct (as_bool_kind x Hxk) as [b ->]. by eexists.
Qed.

Lemma filterM_safe s e l :
  safe_expr e = true -> type_of s e = Some KBool -> Forall (row_ok s) l ->
  filterM (test s e) l = Ok (List.filter (passes s e) l).
Proof.
  intros Hs Hk. induction 1 as [|r l Hr _ IH]; [done|]. cbn. rewrite test_safe by done. cbn. by rewrite IH.
Qed.
End Passes.

(** ** Elements of operator results *)

Lemma Forall_filter_bool {A} (P : A -> Prop) f (l : list A) : Forall P l -> Forall P (List.filter f l).
Proof. induction 1 as [|x l Hx _ IH]; cbn; [constructor|]. destruct (f x); [by constructor|done]. Qed.

Lemma elem_of_filter_bool {A} f (l : list A) x : x ∈ List.filter f l <-> x ∈ l /\ f x = true.
Proof. rewrite !list_elem_of_In. apply filter_In. Qed.

Lemma Forall_map_intro {A B} (P : B -> Prop) (f : A -> B) l : Forall (fun x => P (f x)) l -> Forall P (map f l).
Proof. induction 1; cbn; by constructor. Qed.

Lemma Forall_concat_intro {A} (P : A -> Prop) ls : Forall (Forall P) ls -> Forall P (concat ls).
Proof. induction 1; cbn; [constructor|]. by apply Forall_app. Qed.

Lemma Forall_flat_map_intro {A B} (P : B -> Prop) (f : A -> list B) l :
  Forall (fun x => Forall P (f x)) l -> Forall P (flat_map f l).
Proof. induction 1; cbn; [constructor|]. by apply Forall_app. Qed.

Lemma Forall_sublist {A} (P : A -> Prop) l l' : sublist l' l -> Forall P l -> Forall P l'.
Proof. intros Hs Hl. rewrite Forall_forall in *. intros x Hx. apply Hl. by eapply elem_of_sublist. Qed.

Lemma Forall_insert_by {A} (P : A -> Prop) le x l : P x -> Forall P l -> Forall P (insert_by le x l).
Proof.
  intros Hx. induction 1 as [|y l Hy Hl IH]; cbn; [by constructor|]. destruct (le x y); by repeat constructor.
Qed.

Lemma Forall_sort_by {A} (P : A -> Prop) le l : Forall P l -> Forall P (sort_by le l).
Proof. induction 1; cbn; [constructor|]. by apply Forall_insert_by. Qed.

Lemma Forall_dedup_by {A B} `{EqDecision B} (P : A -> Prop) (f : A -> B) l : Forall P l -> Forall P (dedup_by f l).
Proof. induction 1; cbn; [constructor|]. constructor; [done|]. by apply Forall_filter_bool. Qed.

Lemma Forall_groups {A B} `{EqDecision B} (P : A -> Prop) (key : A -> B) l :
  Forall P l -> Forall (fun g => (exists x, x ∈ l /\ g.1 = key x) /\ Forall P g.2) (groups key l).
Proof.
  intros Hl. unfold groups. apply Forall_map_intro. cbn.
  assert (Forall (fun x => x ∈ l) (dedup_by key l)) as Hd by (apply Forall_dedup_by; by rewrite Forall_forall).
  eapply Forall_impl; [done|]. cbn. intros x Hx. split; [by eauto|]. by apply Forall_filter_bool.
Qed.

Lemma Forall_cap_rows {A} (P : A -> Prop) n l : Forall P l -> Forall P (cap_rows n l).
Proof. destruct n; cbn; [|done]. apply Forall_take. Qed.

Lemma join_rows_elem (P : row -> Prop) m mk jt ls rs :
  (forall l r, l ∈ ∅ :: ls -> r ∈ ∅ :: rs -> P (mk l r)) -> Forall P (join_rows m mk jt ls rs).
Proof.
  intros HP.
  assert (forall l, l ∈ ls -> Forall (fun r => P (mk l r)) rs) as Hin.
  { intros l Hl. rewrite Forall_forall. intros r Hr. apply HP; by right. }
  assert (forall l, l ∈ ls -> P (mk l ∅)) as Hlone by (intros l Hl; apply HP; [by right|by left]).
  assert (Forall P (inner_rows m mk ls rs)) as Hi.
  { apply Forall_flat_map_intro. rewrite Forall_forall. intros l Hl. by apply Forall_map_intro, Forall_filter_bool, Hin. }
  assert (Forall P (left_rows m mk ls rs)) as Hl.
  { apply Forall_flat_map_intro. rewrite Forall_forall. intros l Hl.
    pose proof (Forall_filter_bool _ (m l) _ (Hin l Hl)) as Hf. destruct (List.filter (m l) rs); [by repeat constructor; apply Hlone|].
    by apply Forall_map_intro. }
  assert (Forall P (lone_right m mk ls rs)) as Hr.
  { apply Forall_map_intro, Forall_filter_bool. rewrite Forall_forall. intros r Hr. apply HP; [by left|by right]. }
  assert (forall f, Forall P (map (fun l => mk l ∅) (List.filter f ls))) as Hs.
  { intros f. apply Forall_map_intro, Forall_filter_bool. by rewrite Forall_forall. }
  destruct jt; cbn; try apply Forall_app; auto.
Qed.

(** ** Rows fit their schema *)

Lemma bind_row_ok cs ks vs :
  Forall2 has_kind ks vs -> row_ok (list_to_map (zip cs ks)) (bind_row (zip cs vs)).
Proof.
  intros H c v. rewrite lookup_bind_row, lookup_list_to_map. revert cs.
  induction H as [|k x ks vs Hk _ IH]; intros [|d cs]; cbn; try done. case_decide; [|apply IH].
  destruct x as [w|]; cbn in *; [|done]. by intros [= <-]; rewrite Hk.
Qed.

Lemma row_ok_empty s : row_ok s ∅.
Proof. intros c v. by rewrite lookup_empty. Qed.

Lemma canon_kind v : kind_of_value (canon v) = kind_of_value v.
Proof. by destruct v as [|[]| | |]. Qed.

Section Schemas.
Context {PE : PlanEngine}.

Lemma schema'_eq p s : schema_of p = Some s -> schema' p = s.
Proof. unfold schema'. by intros ->. Qed.

Lemma filter_schema i e s :
  schema_of (PFilter i e) = Some s <-> schema_of i = Some s /\ type_of s e = Some KBool.
Proof.
  cbn. destruct (schema_of i) as [s'|]; cbn; [|by split; [|intros [? _]]].
  case_bool_decide; split; intros; destruct_and?; simplify_eq; done.
Qed.

Lemma value_at_kind s e k r : type_of s e = Some k -> row_ok s r -> has_kind k (value_at s e r).
Proof.
  intros Hk Hr. unfold value_at. destruct (run s r e) as [x|] eqn:Hx; [|done].
  by apply (eval_kind fsig opsig s ext ext_op ee_kind ee_op_kind e k r x Hk Hr).
Qed.

Lemma values_kind s es ks r :
  opt_mapM (type_of s) es = Some ks -> row_ok s r -> Forall2 has_kind ks (map (fun e => value_at s e r) es).
Proof.
  intros Hks Hr. apply opt_mapM_Some in Hks. induction Hks as [|e k es ks He _ IH]; cbn; constructor; [|done].
  by apply (value_at_kind s e).
Qed.

Lemma project_row_zip s its r : project_row s its r = bind_row (zip (map fst its) (map (fun e => value_at s e r) (map snd its))).
Proof. unfold project_row. f_equal. induction its as [|[] its IH]; cbn; [done|]. by rewrite IH. Qed.

Lemma out_row_ok ls rs out cs l r :
  opt_mapM (out_kind ls rs) out = Some cs -> row_ok ls l -> row_ok rs r -> row_ok (list_to_map cs) (out_row out l r).
Proof.
  intros Hcs Hl Hr c v. unfold out_row. rewrite lookup_bind_row, lookup_list_to_map.
  apply opt_mapM_Some in Hcs. induction Hcs as [|o [a k] out cs Ho _ IH]; cbn; [done|].
  unfold out_kind in Ho. destruct (_ !! oname o) as [k'|] eqn:Hk; [|done]. cbn in Ho. injection Ho as <- <-.
  case_decide; [|done]. intros Hv. cbn in Hv.
  destruct (oside o); cbn in Hv; [apply Hl in Hv|apply Hr in Hv]; congruence.
Qed.

(** Inversion of a schema computation. *)
Ltac open_schema H :=
  repeat match type of H with
  | mbind _ ?x = Some _ => let E := fresh "E" in let y := fresh "s" in destruct x as [y|] eqn:E; cbn in H; [|discriminate H]
  | (if ?b then _ else _) = Some _ => let E := fresh "E" in destruct b eqn:E; [|discriminate H]
  end.

Lemma keys_kind s es ks r :
  opt_mapM (type_of s) es = Some ks -> row_ok s r -> Forall2 has_kind ks (keys_of s es r).
Proof.
  intros Hks Hr. unfold keys_of. apply opt_mapM_Some in Hks.
  induction Hks as [|e k es ks He _ IH]; cbn; constructor; [|done].
  pose proof (value_at_kind s e k r He Hr) as Hv. destruct (value_at s e r); cbn in *; [by rewrite canon_kind|done].
Qed.

Lemma agg_groups_ok s gks ks l :
  opt_mapM (type_of s) (map snd gks) = Some ks -> Forall (row_ok s) l ->
  Forall (fun g => Forall2 has_kind ks g.1 /\ Forall (row_ok s) g.2) (agg_groups s gks l).
Proof.
  intros Hks Hl. unfold agg_groups. destruct gks as [|k gks].
  - cbn in Hks. simplify_eq. constructor; [split; [constructor|done]|constructor].
  - eapply Forall_impl; [by apply (Forall_groups (row_ok s))|]. cbn beta. intros g [(x & Hx & ->) Hg].
    split; [|done]. rewrite Forall_forall in Hl. by apply keys_kind, Hl.
Qed.

Lemma assoc_zip_dom {A B} c (cs : list string) (xs : list A) (ys : list B) :
  length xs = length ys -> assoc c (zip cs xs) = None <-> assoc c (zip cs ys) = None.
Proof.
  revert xs ys. induction cs as [|d cs IH]; intros [|x xs] [|y ys]; cbn; try done. intros Hl.
  case_decide; [done|]. apply IH. lia.
Qed.

Lemma agg_row_ok s gks ks ags kas (g : list (option value) * list row) :
  Forall2 has_kind ks g.1 -> opt_mapM (fun a => agg_kind a s) ags = Some kas -> Forall (row_ok s) g.2 ->
  row_ok (list_to_map (zip (map fst gks) ks ++ zip (map agg_alias ags) kas))
    (agg_row gks ags (map (fun a => or_null (agg_value a g.2)) ags) g.1).
Proof.
  intros H1 Hks H2. unfold agg_row.
  assert (Forall2 has_kind kas (map (fun a => or_null (agg_value a g.2)) ags)) as Ha.
  { apply opt_mapM_Some in Hks. induction Hks as [|a ka ags kas Ha _ IH]; cbn; constructor; [|done].
    destruct (agg_value a g.2) eqn:Hv; cbn; [|done]. by eapply pe_agg. }
  intros c v. rewrite lookup_bind_row, lookup_list_to_map, !assoc_app.
  pose proof (bind_row_ok (map fst gks) ks g.1 H1 c v) as B1.
  pose proof (bind_row_ok (map agg_alias ags) kas _ Ha c v) as B2.
  rewrite lookup_bind_row, lookup_list_to_map in B1, B2.
  pose proof (assoc_zip_dom c (map fst gks) ks g.1 (Forall2_length _ _ _ H1)) as Hd.
  destruct (assoc c (zip (map fst gks) g.1)) as [x|].
  - intros Hx. by rewrite (B1 Hx).
  - intros Hx. rewrite (B2 Hx). by rewrite (proj2 Hd eq_refl).
Qed.

Lemma den_ok p : forall s, schema_of p = Some s -> Forall (row_ok s) (den p).
Proof.
  induction p using plan_ind'; intros sc Hs; cbn [schema_of] in Hs; try (open_schema Hs); cbn [den].
  - simplify_eq. apply pe_table.
  - simplify_eq. rewrite (schema'_eq _ _ E). by apply Forall_filter_bool, IHp.
  - simplify_eq. rewrite (schema'_eq _ _ E). apply Forall_map_intro. eapply Forall_impl; [by apply IHp|]. cbn.
    intros r Hr. rewrite project_row_zip. apply bind_row_ok. by apply values_kind.
  - simplify_eq. specialize (IHp1 _ eq_refl). specialize (IHp2 _ eq_refl). rewrite Forall_forall in IHp1, IHp2.
    apply join_rows_elem. intros l r [->|Hl]%elem_of_cons [->|Hr]%elem_of_cons; eapply out_row_ok; eauto using row_ok_empty.
  - simplify_eq. specialize (IHp _ eq_refl). rewrite (schema'_eq _ _ E). apply Forall_map_intro.
    eapply Forall_impl; [by apply (agg_groups_ok s _ s0)|]. cbn beta. intros g [H1 H2]. by apply agg_row_ok with (s := s).
  - simplify_eq. by apply Forall_cap_rows, Forall_sort_by, IHp.
  - simplify_eq. specialize (IHp _ eq_refl). rewrite (schema'_eq _ _ E). apply Forall_concat_intro, Forall_map_intro.
    eapply Forall_impl; [by apply (Forall_groups (row_ok s))|]. cbn beta. intros g [_ Hg].
    destruct (win_rows ok fs n g.2) as [l'|] eqn:Hw; cbn; [|constructor].
    eapply Forall_impl; [by eapply pe_win|]. cbn. by intros ? [? _].
  - simplify_eq. destruct ks as [|k ks].
    + by apply Forall_cap_rows, Forall_dedup_by, IHp.
    + destruct (distinct_on _ _ _) as [l'|] eqn:Hd; cbn; [|constructor]. eapply Forall_sublist; [by eapply pe_distinct|by apply IHp].
  - by apply Forall_take, Forall_drop, IHp.
  - eapply Forall_sublist; [apply pe_sample|by apply IHp].
  - destruct (other_rows op (map den l)) as [rows|] eqn:Ho; cbn; [|constructor].
    eapply pe_other; [done| |done]. clear Ho Hs. apply opt_mapM_Some in E.
    induction E as [|q s' l ss Hq _ IH]; cbn; inversion H; subst; constructor; auto.
Qed.

(** ** Execution returns the rows of the plan *)

Lemma res_mapM_ok {A B} (f : A -> res B) (g : A -> B) l ys :
  (forall x y, f x = Ok y -> g x = y) -> res_mapM f l = Ok ys -> map g l = ys.
Proof.
  intros Hf. revert ys. induction l as [|x l IH]; cbn; intros ys; [by intros [= <-]|].
  intros (y & Hy & H)%res_bind_ok. apply res_bind_ok in H as (ys' & Hys & [= <-]).
  by rewrite (Hf x y Hy), (IH ys' Hys).
Qed.

Lemma evaluate_values s es l vs : evaluate s es l = Ok vs -> map (fun r => map (fun e => value_at s e r) es) l = vs.
Proof.
  apply res_mapM_ok. intros r v. apply res_mapM_ok. intros e x Hx. unfold value_at. by rewrite Hx.
Qed.

Lemma exec_den p : forall l, exec p = Ok l -> den p = l.
Proof.
  induction p using plan_ind'; intros rows Hx; cbn [exec den] in *;
    repeat match goal with
    | H : mbind _ _ = Ok _ |- _ => apply res_bind_ok in H as (? & ? & H)
    end; simplify_eq;
    try match goal with IH : forall l, exec ?p = Ok l -> _, H : exec ?p = Ok _ |- _ => rewrite (IH _ H) end.
  - done.
  - by apply filterM_passes.
  - apply evaluate_values in H0 as <-. rewrite map_map. apply map_ext. intros r. by rewrite project_row_zip.
  - by rewrite ?(IHp1 _ H), ?(IHp2 _ H0).
  - eapply res_mapM_ok; [|done]. cbn. intros g y (vs & Hvs & [= <-])%res_bind_ok. f_equal.
    eapply res_mapM_ok; [|done]. by intros a z ->.
  - done.
  - f_equal. eapply res_mapM_ok; [|done]. by intros g z ->.
  - destruct ks as [|k ks]; apply res_bind_ok in Hx as (l & Hl & Hx); rewrite (IHp _ Hl); [by injection Hx|by rewrite Hx].
  - done.
  - done.
  - assert (map den l = x) as ->; [|by rewrite Hx]. clear Hx. revert x H0.
    induction H as [|q l Hq _ IH]; cbn; intros ls; [by intros [= <-]|].
    intros (y & Hy & H)%res_bind_ok. apply res_bind_ok in H as (ys & Hys & [= <-]). by rewrite (Hq y Hy), (IH ys Hys).
Qed.

(** ** Replacing plans *)

(** A test of every node of a plan. *)
Fixpoint all_nodes (Q : plan -> bool) (p : plan) : bool :=
  Q p && match p with
         | PScan _ _ => true
         | PFilter i _ | PProject i _ | PAggregate i _ _ _ | PSort i _ _ | PWindow i _ _ _ _
         | PDistinct i _ _ _ | PLimit i _ _ | PSample i _ => all_nodes Q i
         | PJoin l r _ _ _ _ _ => all_nodes Q l && all_nodes Q r
         | POther _ l => forallb (all_nodes Q) l
         end.

(** Every filter of the plan is free of errors. *)
Definition safe_plan : plan -> bool :=
  all_nodes (fun q => match q with PFilter _ e => safe_expr e | _ => true end).

(** A join whose output shows a left key's name only for the column the rewrite takes it for:
    for an inner join the left key or its right partner, at a type whose equal keys are equal
    values; for an outer join a column of the preserved side. *)
Definition key_column (jt : join_type) (ls : schema) (o : join_output_col) (k : string * string) : bool :=
  match jt with
  | JInner => (match o.(oside) with SLeft => bool_decide (o.(oname) = k.1) | SRight => bool_decide (o.(oname) = k.2) end)
              && negb (bool_decide (ls !! k.1 = Some KFloat))
  | JLeft => bool_decide (o.(oside) = SLeft)
  | JRight => bool_decide (o.(oside) = SRight)
  | _ => true
  end.

Definition join_coherent (p : plan) : bool :=
  match p with
  | PJoin l r lk rk jt out _ =>
      forallb (fun o => forallb (fun k => negb (bool_decide (o.(oalias) = k.1)) || key_column jt (schema' l) o k)
                          (zip lk rk)) out
  | _ => true
  end.

Definition coherent : plan -> bool := all_nodes join_coherent.

(** [p'] may stand for [p]: same schema, same rows; and where no filter can raise, it returns
    whenever [p] does. *)
Definition replaces (p p' : plan) : Prop :=
  forall s, schema_of p = Some s -> coherent p = true ->
    schema_of p' = Some s /\ coherent p' = true /\ den p' = den p /\
    (safe_plan p = true -> safe_plan p' = true /\ forall l, exec p = Ok l -> exec p' = Ok l).

#[global] Instance replaces_preorder : PreOrder replaces.
Proof.
  split.
  - intros p s Hs Hc. split_and!; [done..|]. auto.
  - intros p q r Hpq Hqr s Hs Hc. destruct (Hpq s Hs Hc) as (H1 & H2 & H3 & H4).
    destruct (Hqr s H1 H2) as (H5 & H6 & H7 & H8). split_and!; [done|done|congruence|].
    intros Hp. destruct (H4 Hp) as [Hq E1]. destruct (H8 Hq) as [Hr E2]. auto.
Qed.

(** A node over one input depends on its schema and its rows. *)
Record unary (C : plan -> plan) : Prop := {
  un_schema : forall i i', schema_of i = schema_of i' -> schema_of (C i) = schema_of (C i');
  un_typed : forall i s, schema_of (C i) = Some s -> is_Some (schema_of i);
  un_den : forall i i', schema_of i = schema_of i' -> den i = den i' -> den (C i) = den (C i');
  un_exec : forall i i' l, schema_of i = schema_of i' -> (forall l, exec i = Ok l -> exec i' = Ok l) ->
    exec (C i) = Ok l -> exec (C i') = Ok l;
  un_coherent : forall i, coherent (C i) = coherent i;
  un_safe : forall i i', safe_plan i = safe_plan i' -> safe_plan (C i) = safe_plan (C i');
  un_safe_below : forall i, safe_plan (C i) = true -> safe_plan i = true;
}.

Ltac unary_node :=
  split; intros *;
    [ cbn; by intros ->
    | cbn; match goal with |- context [schema_of ?i] => destruct (schema_of i); [by eauto|done] end
    | cbn; unfold schema'; intros Hs Hd; by rewrite ?Hs, ?Hd
    | cbn; unfold schema'; intros Hs Hx; rewrite ?Hs;
      try (intros (rows & Hr & Hk)%res_bind_ok; apply Hx in Hr as ->; done)
    | done
    | unfold safe_plan; cbn; by intros ->
    | unfold safe_plan; cbn; first [by intros [_ ?]%andb_true_iff|done] ].

Lemma unary_filter e : unary (fun i => PFilter i e).
Proof. unary_node. Qed.
Lemma unary_project its : unary (fun i => PProject i its).
Proof. unary_node. Qed.
Lemma unary_aggregate gks ags w : unary (fun i => PAggregate i gks ags w).
Proof. unary_node. Qed.
Lemma unary_sort ks n : unary (fun i => PSort i ks n).
Proof. unary_node. Qed.
Lemma unary_window pks oks fs n : unary (fun i => PWindow i pks oks fs n).
Proof. unary_node. Qed.
Lemma unary_distinct ks o n : unary (fun i => PDistinct i ks o n).
Proof. destruct ks; unary_node. Qed.
Lemma unary_limit n o : unary (fun i => PLimit i n o).
Proof. unary_node. Qed.
Lemma unary_sample sp : unary (fun i => PSample i sp).
Proof. unary_node. Qed.

Lemma replaces_unary C i i' : unary C -> replaces i i' -> replaces (C i) (C i').
Proof.
  intros HC Hi s Hs Hc. destruct (un_typed C HC i s Hs) as [si Hsi]. rewrite (un_coherent C HC) in Hc.
  destruct (Hi si Hsi Hc) as (H1 & H2 & H3 & H4). rewrite <- H1 in Hsi. symmetry in Hsi, H3.
  split_and!.
  - by rewrite <- Hs, (un_schema C HC i i').
  - by rewrite (un_coherent C HC).
  - symmetry. by apply (un_den C HC).
  - intros Hsafe. pose proof (un_safe_below C HC i Hsafe) as Hb. destruct (H4 Hb) as [H5 H6]. split.
    + rewrite <- Hsafe. symmetry. apply (un_safe C HC). congruence.
    + intros l. by apply (un_exec C HC).
Qed.

Lemma replaces_join l l' r r' lk rk jt out st :
  replaces l l' -> replaces r r' -> replaces (PJoin l r lk rk jt out st) (PJoin l' r' lk rk jt out st).
Proof.
  intros Hl Hr s Hs Hc. unfold coherent in *. cbn in Hs, Hc.
  destruct (schema_of l) as [sl|] eqn:El; [|done]. destruct (schema_of r) as [sr|] eqn:Er; [|done].
  apply andb_true_iff in Hc as [Hn [Hcl Hcr]%andb_true_iff].
  destruct (Hl sl El Hcl) as (L1 & L2 & L3 & L4). destruct (Hr sr Er Hcr) as (R1 & R2 & R3 & R4).
  split_and!.
  - cbn. by rewrite L1, R1.
  - cbn. unfold coherent in *. rewrite L2, R2. unfold schema' in *. rewrite L1. rewrite El in Hn. by rewrite Hn.
  - cbn. by rewrite L3, R3.
  - unfold safe_plan in *. cbn. intros [Sl Sr]%andb_true_iff.
    destruct (L4 Sl) as [-> Xl]. destruct (R4 Sr) as [-> Xr]. split; [done|].
    intros rows (ls & Hls & H)%res_bind_ok. apply res_bind_ok in H as (rs & Hrs & H).
    rewrite (Xl _ Hls). cbn. by rewrite (Xr _ Hrs).
Qed.

Lemma replaces_other op l l' : Forall2 replaces l l' -> replaces (POther op l) (POther op l').
Proof.
  intros Hl s Hs Hc. unfold coherent in Hc. cbn in Hs, Hc.
  destruct (opt_mapM schema_of l) as [ss|] eqn:Es; [|done]. cbn in Hs.
  assert (opt_mapM schema_of l' = Some ss /\ forallb (all_nodes join_coherent) l' = true /\ map den l' = map den l /\
    (forallb safe_plan l = true -> forallb safe_plan l' = true /\
      forall ls, res_mapM exec l = Ok ls -> res_mapM exec l' = Ok ls)) as (H1 & H2 & H3 & H4).
  { clear Hs. revert ss Es Hc. induction Hl as [|p p' l l' Hp _ IH]; intros ss Es Hc; [cbn in *; auto|].
    cbn in Es, Hc. destruct (schema_of p) as [sp|] eqn:Ep; [|done]. cbn in Es.
    destruct (opt_mapM schema_of l) as [ss'|]; [|done]. cbn in Es. simplify_eq.
    apply andb_true_iff in Hc as [Hcp Hcl]. destruct (Hp sp Ep Hcp) as (P1 & P2 & P3 & P4).
    destruct (IH ss' eq_refl Hcl) as (Q1 & Q2 & Q3 & Q4). cbn. unfold coherent in P2. rewrite P1, P2, P3. cbn. rewrite Q1, Q2, Q3.
    split_and!; [done..|]. intros [Sp Sl]%andb_true_iff. destruct (P4 Sp) as [-> Xp]. destruct (Q4 Sl) as [-> Xl].
    split; [done|]. intros ls (y & Hy & H)%res_bind_ok. apply res_bind_ok in H as (ys & Hys & H).
    rewrite (Xp _ Hy). cbn. by rewrite (Xl _ Hys). }
  split_and!; cbn.
  - by rewrite H1.
  - done.
  - by rewrite H3.
  - intros Hsafe. destruct (H4 Hsafe) as [H5 H6]. split; [done|].
    intros rows (ls & Hls & H)%res_bind_ok. by rewrite (H6 _ Hls).
Qed.

(** A rule that replaces single nodes replaces whole plans when driven bottom-up. *)
Lemma transform_up_replaces fn :
  (forall p p', fn p = Ok p' -> replaces p p') -> forall p p', transform_up fn p = Ok p' -> replaces p p'.
Proof.
  intros Hfn p. induction p using plan_ind'; intros q; cbn [transform_up];
    try (by apply Hfn);
    try (intros (i & Hi & Hq)%res_bind_ok; etrans; [|by apply Hfn]);
    [by apply (replaces_unary _ _ _ (unary_filter e)), IHp
    |by apply (replaces_unary _ _ _ (unary_project its)), IHp
    |
    |by apply (replaces_unary _ _ _ (unary_aggregate ks ags w)), IHp
    |by apply (replaces_unary _ _ _ (unary_sort ks n)), IHp
    |by apply (replaces_unary _ _ _ (unary_window pk ok fs n)), IHp
    |by apply (replaces_unary _ _ _ (unary_distinct ks o n)), IHp
    |by apply (replaces_unary _ _ _ (unary_limit n o)), IHp
    |by apply (replaces_unary _ _ _ (unary_sample s)), IHp
    |].
  - intros (i & Hi & Hq)%res_bind_ok. apply res_bind_ok in Hq as (i' & Hi' & Hq).
    etrans; [|by apply Hfn]. apply replaces_join; auto.
  - apply replaces_other. clear Hq. revert i Hi. induction H as [|x l Hx _ IH]; cbn; intros ls.
    + intros [= <-]. constructor.
    + intros (y & Hy & H)%res_bind_ok. apply res_bind_ok in H as (ys & Hys & [= <-]). constructor; auto.
Qed.
End Schemas.

Lemma transform_up_total fn : (forall p, exists p', fn p = Ok p') -> forall p, exists p', transform_up fn p = Ok p'.
Proof.
  intros Hfn p. induction p using plan_ind'; cbn [transform_up]; try apply Hfn;
    try (destruct IHp as [p' ->]; apply Hfn).
  - destruct IHp1 as [l ->]. destruct IHp2 as [r ->]. apply Hfn.
  - assert (exists l', res_mapM (transform_up fn) l = Ok l') as [l' ->]; [|apply Hfn].
    induction H as [|q l [q' Hq] _ [l' Hl]]; cbn; [by eexists|]. rewrite Hq. cbn. rewrite Hl. by eexists.
Qed.

(** ** A concrete engine

    In-memory tables, COUNT as the only aggregate, row numbers as the only window function, a
    keyed dedup that keeps the first row, and UNION ALL as the only other operator. *)

Definition fits (cs : list (string * kind)) (r : row) : bool :=
  forallb (fun cv => bool_decide (assoc cv.1 cs = Some (kind_of_value cv.2))) (map_to_list r).

Lemma fits_ok cs r : fits cs r = true -> row_ok (list_to_map cs) r.
Proof.
  unfold fits. rewrite forallb_forall. intros H c v Hv%elem_of_map_to_list. rewrite lookup_list_to_map.
  apply list_elem_of_In, H in Hv. by apply bool_decide_eq_true in Hv.
Qed.

(** The row with its number under every function's alias. *)
Definition number_row (fs : list win_func) (i : nat) (r : row) : row :=
  foldr (fun f m => <[f.(win_alias) := VInt (Z.of_nat i)]> m) r fs.

Lemma lookup_number_row fs i r c :
  number_row fs i r !! c = if decide (c ∈ map win_alias fs) then Some (VInt (Z.of_nat i)) else r !! c.
Proof.
  induction fs as [|f fs IH]; [by rewrite decide_False by apply not_elem_of_nil|].
  change (number_row (f :: fs) i r) with (<[win_alias f := VInt (Z.of_nat i)]> (number_row fs i r)). cbn [map].
  destruct (decide (win_alias f = c)) as [->|Hf].
  - rewrite lookup_insert, decide_True by done. rewrite decide_True; [done|left].
  - rewrite lookup_insert_ne by done. rewrite IH.
    destruct (decide (c ∈ map win_alias fs)); [rewrite decide_True by (by right)|rewrite decide_False]; try done.
    by intros [?|?]%elem_of_cons.
Qed.

#[export] Program Instance toy_plans (data : nat -> list row) : PlanEngine | 100 := {|
  table n cs := List.filter (fits cs) (data n);
  agg_kind a s := Some KInt;
  agg_value a l := Ok (Some (VInt (Z.of_nat (length l))));
  win_kind f s := Some KInt;
  win_rows oks fs n l := Ok (cap_rows n (map (fun ir => number_row fs ir.1 ir.2) (py_enumerate l)));
  sample_rows sp l := l;
  distinct_on ks o l := Ok (dedup_by (fun r => map (fun c => canon <$> r !! c) ks) l);
  other_schema op ss := match ss with
                        | s :: ss' => if forallb (fun s' => bool_decide (s' = s)) ss' then Some s else None
                        | [] => None
                        end;
  other_rows op ls := Ok (concat ls);
|}.
Next Obligation.
  intros data n cs. rewrite Forall_forall. intros r [_ Hr]%elem_of_filter_bool. by apply fits_ok.
Qed.
Next Obligation. by intros data a s l k x [= <-] _ [= <-]. Qed.
Next Obligation.
  intros data s ok fs n l l' ks Hks Hl [= <-]. apply Forall_cap_rows, Forall_map_intro. rewrite Forall_forall.
  intros [i r] Hr. cbn. apply elem_of_py_enumerate in Hr as Hr'. split.
  - intros c v. rewrite lookup_number_row, lookup_union, lookup_list_to_map.
    assert (forall c, c ∈ map win_alias fs -> assoc c (zip (map win_alias fs) ks) = Some KInt) as Hz.
    { clear -Hks. apply opt_mapM_Some in Hks. induction Hks as [|f k fs ks [= <-] _ IH]; cbn; intros c; [by intros ?%not_elem_of_nil|].
      case_decide; [done|]. intros [?|?]%elem_of_cons; [congruence|auto]. }
    case_decide as Hc.
    + intros [= <-]. rewrite Hz by done. by destruct (s !! c).
    + intros Hv. rewrite Forall_forall in Hl. assert (r ∈ l) as Hrl by (by eapply list_elem_of_lookup_2).
      rewrite (Hl r Hrl c v Hv). destruct (assoc c _) as [k|] eqn:Ha; [|done]. by apply assoc_zip in Ha.
  - exists r. split; [by eapply list_elem_of_lookup_2|]. intros c Hc. by rewrite lookup_number_row, decide_False.
Qed.
Next Obligation. done. Qed.
Next Obligation.
  intros data ks o l l' [= <-]. generalize (fun r : row => map (fun c => canon <$> r !! c) ks). intros f. clear.
  induction l as [|r l IH]; cbn; [constructor|]. apply sublist_skip. etrans; [|exact IH].
  generalize (dedup_by f l). clear. intros l. induction l as [|y l IH]; cbn; [constructor|].
  destruct (negb _); by constructor.
Qed.
Next Obligation.
  intros data op [|s0 ss] s ls l; [done|]. cbn. destruct (forallb (fun s1 => bool_decide (s1 = s0)) ss) eqn:Hf; [|done]. intros [= <-] Hls [= <-].
  apply Forall_concat_intro. rewrite forallb_forall in Hf.
  apply Forall2_cons_inv_l in Hls as (l0 & ls' & H0 & Hls & ->). constructor; [done|].
  revert Hf. clear H0. induction Hls as [|s' l' ss ls'' Hl' _ IH]; intros Hf; constructor.
  - pose proof (Hf s' (or_introl eq_refl)) as ->%bool_decide_eq_true. done.
  - apply IH. intros x Hx. apply Hf. by right.
Qed.
