(* ===== verification/PlanPushdown.v ===== *)
(** * Predicate pushdown

    kyber/rules/pushdown.py.  A filter above a join is split on AND and each conjunct that
    reads one side is moved below the join ([rewrite_predicate]), wherever the join sits in the
    plan.  Filters below aggregates, sorts and windows are in [PlanLocal]. *)

From Stdlib Require Import Floats.SpecFloat.
From S2P Require Import Prelude ExprIR ExprSound ExprAlgebra PlanIR PlanSound.

(** ** Filters below joins *)

Definition can_push_left (jt : join_type) : bool :=
  match jt with JInner | JLeft | JSemi | JAnti => true | _ => false end.
Definition can_push_right (jt : join_type) : bool := match jt with JInner | JRight => true | _ => false end.

(** [{c.alias: c.name for c in join.output if c.side == side}]. *)
Definition side_columns (s : side) (out : list join_output_col) : list (string * string) :=
  omap (fun o => if decide (o.(oside) = s) then Some (o.(oalias), o.(oname)) else None) out.

(** Join keys are available on each side even if not in the output. *)
Definition left_map (lk : list string) (out : list join_output_col) : gmap string string :=
  set_defaults (py_dict (side_columns SLeft out)) (zip lk lk).
Definition right_map (lk rk : list string) (out : list join_output_col) : gmap string string :=
  set_defaults (py_dict (side_columns SRight out)) (zip lk rk).

(** [cols <= set(m)]. *)
Definition reads_only (m : gmap string string) (cols : list string) : bool :=
  forallb (fun c => bool_decide (is_Some (m !! c))) cols.

(** The loop over the conjuncts: pushed left, pushed right, kept. *)
Fixpoint distribute (jt : join_type) (lm rm : gmap string string) (cs : list expr)
    : list expr * list expr * list expr :=
  match cs with
  | [] => ([], [], [])
  | c :: cs' =>
      let '(lp, rp, keep) := distribute jt lm rm cs' in
      let cols := referenced_columns c in
      if can_push_left jt && reads_only lm cols then (remap_columns c lm :: lp, rp, keep)
      else if can_push_right jt && reads_only rm cols then (lp, remap_columns c rm :: rp, keep)
      else (lp, rp, c :: keep)
  end.

(** [Filter(p, combine_conjuncts(es))] when there is something to filter by. *)
Definition wrap_filter (p : plan) (es : list expr) : res plan :=
  match es with [] => Ok p | _ => let* e := combine_conjuncts es in Ok (PFilter p e) end.

(** [_push_into_join]. *)
Definition push_into_join (predicate : expr) (l r : plan) (lk rk : list string) (jt : join_type)
    (out : list join_output_col) : res (option plan) :=
  let '(lp, rp, keep) := distribute jt (left_map lk out) (right_map lk rk out) (split_conjuncts predicate) in
  match lp, rp with
  | [], [] => Ok None
  | _, _ =>
      let* new_left := wrap_filter l lp in
      let* new_right := wrap_filter r rp in
      let* result := wrap_filter (PJoin new_left new_right lk rk jt out Hash) keep in
      Ok (Some result)
  end.

(** [rewrite_predicate]. *)
Definition push_node (node : plan) : res plan :=
  match node with
  | PFilter (PJoin l r lk rk jt out _) e =>
      let* pushed := push_into_join e l r lk rk jt out in Ok (default node pushed)
  | _ => Ok node
  end.

Definition rewrite_predicate (p : plan) : res plan := transform_up push_node p.

(** *** Filters and joins *)

Lemma filter_flat_map {A B} (q : B -> bool) (f : A -> list B) l :
  List.filter q (flat_map f l) = flat_map (fun x => List.filter q (f x)) l.
Proof. induction l as [|x l IH]; cbn; [done|]. by rewrite List.filter_app, IH. Qed.

Lemma flat_map_filter {A B} (q : A -> bool) (f : A -> list B) l :
  flat_map f (List.filter q l) = flat_map (fun x => if q x then f x else []) l.
Proof. induction l as [|x l IH]; cbn; [done|]. destruct (q x); cbn; by rewrite IH. Qed.

Lemma flat_map_ext_in {A B} (f g : A -> list B) l : (forall x, x ∈ l -> f x = g x) -> flat_map f l = flat_map g l.
Proof.
  induction l as [|x l IH]; cbn; intros H; [done|]. rewrite H by left. f_equal. apply IH. intros. apply H. by right.
Qed.

Lemma filter_filter_bool {A} (p q : A -> bool) l : List.filter p (List.filter q l) = List.filter (fun x => q x && p x) l.
Proof. induction l as [|x l IH]; cbn; [done|]. destruct (q x); cbn; [destruct (p x)|]; by rewrite IH. Qed.

Section PushJoin.
Variables (m : row -> row -> bool) (mk : row -> row -> row) (ls rs : list row).
(** The predicate on an output row, and its parts on the left row, the right row and above. *)
Variables (q ql qr k : row -> bool).
Hypothesis q_match : forall l r, l ∈ ls -> r ∈ rs -> m l r = true -> q (mk l r) = ql l && qr r && k (mk l r).

Lemma push_matched l :
  l ∈ ls ->
  List.filter q (map (mk l) (List.filter (m l) rs)) =
    if ql l then List.filter k (map (mk l) (List.filter (m l) (List.filter qr rs))) else [].
Proof.
  intros Hl. assert (forall r, r ∈ rs -> m l r = true -> q (mk l r) = ql l && qr r && k (mk l r)) as Hq by auto.
  clear Hl q_match. induction rs as [|r rs' IH]; cbn; [by destruct (ql l)|].
  specialize (IH (fun r' Hr' => Hq r' (list_elem_of_further _ _ _ Hr'))).
  destruct (m l r) eqn:Hm; cbn; [rewrite (Hq r) by (done || left)|]; rewrite IH; destruct (ql l), (qr r); cbn; rewrite ?Hm; cbn; try done.
Qed.

Lemma push_inner :
  List.filter q (inner_rows m mk ls rs) = List.filter k (inner_rows m mk (List.filter ql ls) (List.filter qr rs)).
Proof.
  unfold inner_rows. rewrite !filter_flat_map, flat_map_filter. apply flat_map_ext_in. intros l Hl. by apply push_matched.
Qed.

Lemma push_left :
  (forall r, qr r = true) -> (forall l, l ∈ ls -> q (mk l ∅) = ql l && k (mk l ∅)) ->
  List.filter q (left_rows m mk ls rs) = List.filter k (left_rows m mk (List.filter ql ls) rs).
Proof.
  intros Hr Hlone. unfold left_rows. rewrite !filter_flat_map, flat_map_filter. apply flat_map_ext_in. intros l Hl.
  pose proof (push_matched l Hl) as Hm.
  rewrite (filter_ext qr (fun _ => true) Hr rs), filter_true in Hm.
  destruct (List.filter (m l) rs) as [|r ms]; [|done]. cbn. rewrite Hlone by done. by destruct (ql l).
Qed.

Lemma push_lone_right :
  (forall r, r ∈ rs -> q (mk ∅ r) = qr r && k (mk ∅ r)) ->
  List.filter q (lone_right m mk ls rs) = List.filter k (lone_right m mk ls (List.filter qr rs)).
Proof.
  intros Hlone. unfold lone_right. rewrite !filter_map_swap, !filter_filter_bool. f_equal. apply filter_ext_in.
  intros r Hr%list_elem_of_In. rewrite Hlone by done. destruct (qr r), (negb _); done.
Qed.

Lemma push_semi f :
  (forall l, l ∈ ls -> q (mk l ∅) = ql l && k (mk l ∅)) ->
  List.filter q (map (fun l => mk l ∅) (List.filter f ls)) =
    List.filter k (map (fun l => mk l ∅) (List.filter f (List.filter ql ls))).
Proof.
  intros Hlone. rewrite !filter_map_swap, !filter_filter_bool. f_equal. apply filter_ext_in.
  intros l Hl%list_elem_of_In. rewrite Hlone by done. destruct (ql l), (f l); done.
Qed.
End PushJoin.

(** *** The columns of a join *)

Section Columns.
Context {PE : PlanEngine}.

(** What a join's constructor has checked. *)
Record join_typed (ls rs : schema) (lk rk : list string) (jt : join_type) (out : list join_output_col)
    (s : schema) : Prop := {
  jty_len : length lk = length rk;
  jty_keys : forall k, k ∈ zip lk rk -> is_Some (ls !! k.1) /\ ls !! k.1 = rs !! k.2;
  jty_nodup : NoDup (map oalias out);
  jty_semi : jt = JSemi \/ jt = JAnti -> forall o, o ∈ out -> o.(oside) = SLeft;
  jty_out : forall o, o ∈ out ->
    is_Some (s !! o.(oalias)) /\ s !! o.(oalias) = (match o.(oside) with SLeft => ls | SRight => rs end) !! o.(oname);
  jty_dom : forall c, is_Some (s !! c) -> exists o, o ∈ out /\ o.(oalias) = c;
}.

Lemma join_schema l r lk rk jt out st s :
  schema_of (PJoin l r lk rk jt out st) = Some s ->
  exists ls rs, schema_of l = Some ls /\ schema_of r = Some rs /\ join_typed ls rs lk rk jt out s.
Proof.
  cbn. intros Hs. destruct (schema_of l) as [ls|]; [|done]. destruct (schema_of r) as [rs|]; [|done]. cbn in Hs.
  destruct (opt_mapM (out_kind ls rs) out) as [cs|] eqn:Hcs; [|done]. cbn in Hs.
  destruct (_ && _ && _ && _) eqn:Hb in Hs; [|done]. simplify_eq. bsplit.
  exists ls, rs. split_and!; [done..|]. apply opt_mapM_Some in Hcs.
  assert (map fst cs = map oalias out) as Hfst.
  { clear -Hcs. induction Hcs as [|o [a k] out cs Ho _ IH]; [done|]. cbn. rewrite IH. f_equal.
    unfold out_kind in Ho. destruct (_ !! oname o); cbn in Ho; [|done]. by injection Ho as <- <-. }
  split.
  - by apply Nat.eqb_eq.
  - intros k Hk. rewrite forallb_forall in H2. apply list_elem_of_In, H2 in Hk. by apply bool_decide_eq_true in Hk.
  - done.
  - intros Hj o Ho. assert (forallb (fun o => bool_decide (oside o = SLeft)) out = true) as Hf by (destruct Hj as [-> | ->]; done).
    rewrite forallb_forall in Hf. apply list_elem_of_In, Hf in Ho. by apply bool_decide_eq_true in Ho.
  - intros o Ho. apply list_elem_of_lookup_1 in Ho as [i Hi].
    destruct (Forall2_lookup_l _ _ _ _ _ Hcs Hi) as ([a k] & Hk & Ho). unfold out_kind in Ho.
    destruct (_ !! oname o) as [k'|] eqn:E; [|done]. cbn in Ho. injection Ho as <- <-.
    rewrite lookup_list_to_map. rewrite <- Hfst in H1.
    assert (assoc (oalias o) cs = Some k') as -> by (apply assoc_nodup; [done|by eapply list_elem_of_lookup_2]).
    split; [by eauto|]. by destruct (oside o).
  - intros c [k Hk]. rewrite lookup_list_to_map in Hk. apply assoc_elem in Hk.
    assert (c ∈ map fst cs) as Hc by (apply list_elem_of_fmap; by exists (c, k)).
    rewrite Hfst in Hc. apply list_elem_of_fmap in Hc as (o & -> & Ho). eauto.
Qed.

Lemma out_row_lookup out l r o :
  NoDup (map oalias out) -> o ∈ out -> out_row out l r !! o.(oalias) = pick o.(oside) l r !! o.(oname).
Proof.
  intros Hn Ho. unfold out_row. rewrite lookup_bind_row.
  set (f := fun o => (oalias o, pick (oside o) l r !! oname o)).
  rewrite (assoc_nodup _ (pick (oside o) l r !! oname o)); [done|..].
  - rewrite map_map. cbn. done.
  - apply list_elem_of_fmap. by exists o.
Qed.

Lemma side_columns_elem s out c n :
  (c, n) ∈ side_columns s out <-> exists o, o ∈ out /\ o.(oside) = s /\ o.(oalias) = c /\ o.(oname) = n.
Proof.
  unfold side_columns. rewrite list_elem_of_omap. split.
  - intros (o & Ho & H). case_decide; [|done]. injection H as <- <-. eauto.
  - intros (o & Ho & Hs & <- & <-). exists o. split; [done|]. by rewrite decide_True.
Qed.

(** Keys equal at a type other than double are equal values. *)
Lemma key_eq_exact s s' c c' (l r : row) :
  row_ok s l -> row_ok s' r -> s !! c = s' !! c' -> s !! c <> Some KFloat ->
  key_eq (l !! c) (r !! c') = true -> l !! c = r !! c'.
Proof.
  intros Hl Hr Hk Hf. unfold key_eq. destruct (l !! c) as [v|] eqn:Ev; [|done].
  destruct (r !! c') as [w|] eqn:Ew; [|done]. intros H%bool_decide_eq_true. f_equal.
  apply Hl in Ev. apply Hr in Ew. rewrite Ev in Hf.
  destruct v as [|[]| | |], w as [|[]| | |]; cbn in *; try congruence; exfalso; rewrite Hk, Ew in Ev; cbn in Ev; congruence.
Qed.
End Columns.

Section Push.
Context {PE : PlanEngine}.
Variables (ls rs s : schema) (lk rk : list string) (jt : join_type) (out : list join_output_col).
Hypothesis Hj : join_typed ls rs lk rk jt out s.
Hypothesis Hco : forall o k, o ∈ out -> k ∈ zip lk rk -> o.(oalias) = k.1 -> key_column jt ls o k = true.

Lemma zip_key c : c ∈ lk -> exists d, (c, d) ∈ zip lk rk.
Proof using Hj.
  pose proof (jty_len _ _ _ _ _ _ _ Hj) as Hl. revert Hl. clear. revert rk.
  induction lk as [|x l IH]; intros [|y rk] Hl Hc; try done; [by apply not_elem_of_nil in Hc|].
  apply elem_of_cons in Hc as [->|Hc]; [exists y; by left|].
  cbn in Hl. destruct (IH rk ltac:(lia) Hc) as [d Hd]. exists d. by right.
Qed.

(** An output column that is not of side [sd] under the name of a left key. *)
Lemma key_output c : is_Some (s !! c) -> forall sd, py_dict (side_columns sd out) !! c = None ->
  exists o, o ∈ out /\ o.(oalias) = c /\ o.(oside) <> sd.
Proof using Hj.
  intros Hc sd Hn. destruct (jty_dom _ _ _ _ _ _ _ Hj c Hc) as (o & Ho & Hoc). exists o. split_and!; [done..|].
  intros Hsd. assert (is_Some (py_dict (side_columns sd out) !! c)) as [? ?]; [|congruence].
  apply py_dict_dom, list_elem_of_fmap. exists (c, oname o). split; [done|]. apply side_columns_elem. eauto.
Qed.

Lemma matches_key k l r : k ∈ zip lk rk -> matches (zip lk rk) l r = true -> key_eq (l !! k.1) (r !! k.2) = true.
Proof. unfold matches. rewrite forallb_forall. intros Hk H. apply H. by apply list_elem_of_In. Qed.

Lemma left_column c n :
  can_push_left jt = true -> is_Some (s !! c) -> left_map lk out !! c = Some n ->
  ls !! n = s !! c /\
  forall l r, row_ok ls l -> row_ok rs r -> (jt = JInner -> matches (zip lk rk) l r = true) ->
    l !! n = out_row out l r !! c.
Proof using Hj Hco.
  intros Hjt Hc Hn. unfold left_map in Hn. rewrite lookup_set_defaults in Hn.
  destruct (py_dict (side_columns SLeft out) !! c) as [n'|] eqn:Ed.
  - simplify_eq. apply lookup_py_dict, side_columns_elem in Ed as (o & Ho & Hs & <- & <-).
    destruct (jty_out _ _ _ _ _ _ _ Hj o Ho) as [_ ->].
    rewrite Hs. split; [done|]. intros l r _ _ _.
    by rewrite (out_row_lookup out l r o (jty_nodup _ _ _ _ _ _ _ Hj) Ho), Hs.
  - apply assoc_elem in Hn. assert (c ∈ lk) as Hclk by (by eapply elem_of_zip_l).
    assert (n = c) as -> by (clear -Hn; induction lk; cbn in Hn; [by apply not_elem_of_nil in Hn|]; apply elem_of_cons in Hn as [?|?]; [congruence|auto]).
    destruct (zip_key c Hclk) as [d Hd]. destruct (key_output c Hc SLeft Ed) as (o & Ho & Hoc & Hos).
    pose proof (Hco o (c, d) Ho Hd Hoc) as Hk. destruct (oside o) eqn:Es; [done|].
    destruct jt; cbn in Hk, Hjt; rewrite ?Es in Hk; try done.
    + bsplit. destruct (jty_keys _ _ _ _ _ _ _ Hj _ Hd) as [_ Hkk]. cbn in *.
      destruct (jty_out _ _ _ _ _ _ _ Hj o Ho) as [_ Hso].
      rewrite Es, Hoc, H in Hso. split; [congruence|]. intros l r Hl Hr Hm.
      rewrite <- Hoc at 2. rewrite (out_row_lookup out l r o (jty_nodup _ _ _ _ _ _ _ Hj) Ho), Es. cbn. rewrite H.
      apply (key_eq_exact ls rs); try done. by apply (matches_key (c, d)), Hm.
    + rewrite (jty_semi _ _ _ _ _ _ _ Hj (or_introl eq_refl) o Ho) in Es. done.
    + rewrite (jty_semi _ _ _ _ _ _ _ Hj (or_intror eq_refl) o Ho) in Es. done.
Qed.

Lemma right_column c n :
  can_push_right jt = true -> is_Some (s !! c) -> right_map lk rk out !! c = Some n ->
  rs !! n = s !! c /\
  forall l r, row_ok ls l -> row_ok rs r -> (jt = JInner -> matches (zip lk rk) l r = true) ->
    r !! n = out_row out l r !! c.
Proof using Hj Hco.
  intros Hjt Hc Hn. unfold right_map in Hn. rewrite lookup_set_defaults in Hn.
  destruct (py_dict (side_columns SRight out) !! c) as [n'|] eqn:Ed.
  - simplify_eq. apply lookup_py_dict, side_columns_elem in Ed as (o & Ho & Hs & <- & <-).
    destruct (jty_out _ _ _ _ _ _ _ Hj o Ho) as [_ ->].
    rewrite Hs. split; [done|]. intros l r _ _ _.
    by rewrite (out_row_lookup out l r o (jty_nodup _ _ _ _ _ _ _ Hj) Ho), Hs.
  - apply assoc_elem in Hn. destruct (key_output c Hc SRight Ed) as (o & Ho & Hoc & Hos).
    pose proof (Hco o (c, n) Ho Hn Hoc) as Hk. destruct (oside o) eqn:Es; [|done].
    destruct jt; cbn in Hk, Hjt; rewrite ?Es in Hk; try done.
    bsplit. destruct (jty_keys _ _ _ _ _ _ _ Hj _ Hn) as [_ Hkk]. cbn in *.
    destruct (jty_out _ _ _ _ _ _ _ Hj o Ho) as [_ Hso].
    rewrite Es, Hoc, H in Hso. split; [congruence|]. intros l r Hl Hr Hm.
    rewrite <- Hoc. rewrite (out_row_lookup out l r o (jty_nodup _ _ _ _ _ _ _ Hj) Ho), Es. cbn. rewrite H.
    symmetry. apply (key_eq_exact ls rs); try done. by apply (matches_key (c, n)), Hm.
Qed.

(** A conjunct moved to one side means there what it meant above. *)
Lemma remap_reads (m : gmap string string) (s1 : schema) e k :
  type_of s e = Some k -> reads_only m (referenced_columns e) = true ->
  (forall c n, is_Some (s !! c) -> m !! c = Some n -> s1 !! n = s !! c) ->
  type_of s1 (remap_columns e m) = Some k /\
  forall r1 r2 : row, (forall c n, is_Some (s !! c) -> m !! c = Some n -> r1 !! n = r2 !! c) ->
    passes s1 (remap_columns e m) r1 = passes s e r2.
Proof.
  intros Hk Hm Hc. rewrite inline_remap. unfold reads_only in Hm. rewrite forallb_forall in Hm.
  assert (forall c, c ∈ referenced_columns e -> is_Some (s !! c) /\ exists n, m !! c = Some n) as Href.
  { intros c Hr. pose proof (Hm c (proj1 (list_elem_of_In _ _) Hr)) as Hd. apply bool_decide_eq_true in Hd as [n Hn].
    split; [by eapply refs_typed|eauto]. }
  split.
  - rewrite <- Hk. apply inline_kind. intros c (Hs & n & Hn)%Href. rewrite Hn. by apply Hc.
  - intros r1 r2 Hr. unfold passes. rewrite (inline_eval s1 s _ r1 r2 e); [done|]. intros c (Hs & n & Hn)%Href.
    rewrite Hn. unfold run, type_of. cbn. rewrite (Hc c n Hs Hn), (Hr c n Hs Hn). done.
Qed.

Definition all_pass (sc : schema) (es : list expr) (r : row) : bool := forallb (fun e => passes sc e r) es.

Lemma distribute_sound cs lp rp keep :
  distribute jt (left_map lk out) (right_map lk rk out) cs = (lp, rp, keep) ->
  Forall (fun e => type_of s e = Some KBool) cs ->
  (Forall (fun e => type_of ls e = Some KBool) lp /\ Forall (fun e => type_of rs e = Some KBool) rp /\
   Forall (fun e => type_of s e = Some KBool) keep) /\
  (can_push_left jt = false -> lp = []) /\ (can_push_right jt = false -> rp = []) /\
  forall l r, row_ok ls l -> row_ok rs r -> (jt = JInner -> matches (zip lk rk) l r = true) ->
    all_pass s cs (out_row out l r) = all_pass ls lp l && all_pass rs rp r && all_pass s keep (out_row out l r).
Proof using Hj Hco.
  revert lp rp keep. induction cs as [|c cs IH]; intros lp rp keep; cbn [distribute].
  - intros [= <- <- <-] _. split_and!; try constructor; done.
  - destruct (distribute _ _ _ cs) as [[lp' rp'] keep']. intros Hd [Hc Hcs]%Forall_cons.
    destruct (IH _ _ _ eq_refl Hcs) as ((T1 & T2 & T3) & N1 & N2 & Hq). clear IH. unfold all_pass in *.
    destruct (can_push_left jt && reads_only _ _) eqn:Eleft; [|destruct (can_push_right jt && reads_only _ _) eqn:Eright];
      injection Hd as <- <- <-.
    + apply andb_true_iff in Eleft as [El Em].
      destruct (remap_reads (left_map lk out) ls c KBool Hc Em) as [Ht Hp]; [intros; by apply left_column|].
      split_and!; auto; [congruence|]. intros l r Hl Hr Hm. cbn. rewrite (Hp l (out_row out l r)), Hq by (done || intros; by apply left_column).
      by rewrite !andb_assoc.
    + apply andb_true_iff in Eright as [El Em].
      destruct (remap_reads (right_map lk rk out) rs c KBool Hc Em) as [Ht Hp]; [intros; by apply right_column|].
      split_and!; auto; [congruence|]. intros l r Hl Hr Hm. cbn. rewrite (Hp r (out_row out l r)), Hq by (done || intros; by apply right_column).
      by destruct (forallb _ lp'), (passes s c _).
    + split_and!; auto. intros l r Hl Hr Hm. cbn. rewrite Hq by done.
      by destruct (forallb _ lp'), (forallb _ rp'), (passes s c _).
Qed.

(** Filtering the join is joining the filtered sides, and filtering by what was kept. *)
Lemma push_rows cs lp rp keep L R :
  distribute jt (left_map lk out) (right_map lk rk out) cs = (lp, rp, keep) ->
  Forall (fun e => type_of s e = Some KBool) cs -> Forall (row_ok ls) L -> Forall (row_ok rs) R ->
  List.filter (all_pass s cs) (join_rows (matches (zip lk rk)) (out_row out) jt L R) =
  List.filter (all_pass s keep)
    (join_rows (matches (zip lk rk)) (out_row out) jt (List.filter (all_pass ls lp) L) (List.filter (all_pass rs rp) R)).
Proof using Hj Hco.
  intros Hd Hcs HL HR. destruct (distribute_sound _ _ _ _ Hd Hcs) as (_ & N1 & N2 & Hq).
  rewrite Forall_forall in HL, HR.
  assert (forall l r, l ∈ L -> r ∈ R -> matches (zip lk rk) l r = true ->
    all_pass s cs (out_row out l r) = all_pass ls lp l && all_pass rs rp r && all_pass s keep (out_row out l r)) as Hin by auto.
  assert (jt <> JInner -> rp = [] -> forall l, l ∈ L ->
    all_pass s cs (out_row out l ∅) = all_pass ls lp l && all_pass s keep (out_row out l ∅)) as Hl.
  { intros Hji -> l Hl. rewrite Hq by (auto using row_ok_empty || done). cbn. by rewrite andb_true_r. }
  assert (jt <> JInner -> lp = [] -> forall r, r ∈ R ->
    all_pass s cs (out_row out ∅ r) = all_pass rs rp r && all_pass s keep (out_row out ∅ r)) as Hr.
  { intros Hji -> r Hr. rewrite Hq by (auto using row_ok_empty || done). done. }
  assert (forall (sc : schema) l, List.filter (all_pass sc []) l = l) as Hnil by (intros; apply filter_true).
  destruct jt; cbn [join_rows].
  - by apply push_inner.
  - rewrite (N2 eq_refl) in *. rewrite Hnil. by apply (push_left _ _ _ _ _ _ (all_pass rs []) _ Hin); [|apply Hl].
  - rewrite (N1 eq_refl) in *. rewrite Hnil, !List.filter_app, (push_inner _ _ _ _ _ _ _ _ Hin), Hnil. f_equal.
    apply push_lone_right. by apply Hr.
  - rewrite (N1 eq_refl), (N2 eq_refl) in *. rewrite !Hnil, !List.filter_app.
    rewrite (push_left _ _ _ _ _ _ (all_pass rs []) _ Hin) by (done || by apply Hl). rewrite Hnil. f_equal.
    rewrite (push_lone_right _ _ _ _ _ (all_pass rs []) (all_pass s keep)) by (by apply Hr). by rewrite Hnil.
  - rewrite (N2 eq_refl) in *. rewrite Hnil. apply push_semi. by apply Hl.
  - rewrite (N2 eq_refl) in *. rewrite Hnil. apply push_semi. by apply Hl.
Qed.
End Push.

Section Rewrite.
Context {PE : PlanEngine}.

Lemma all_pass_split s e r : all_pass s (split_conjuncts e) r = passes s e r.
Proof. symmetry. apply plan_passes_split. Qed.

(** The plan [wrap_filter] builds over a typed plan. *)
Lemma wrap_filter_spec p s es :
  schema_of p = Some s -> Forall (fun e => type_of s e = Some KBool) es ->
  exists p', wrap_filter p es = Ok p' /\ schema_of p' = Some s /\ coherent p' = coherent p /\
    den p' = List.filter (all_pass s es) (den p) /\
    (safe_plan p = true -> Forall (fun e => safe_expr e = true) es ->
       safe_plan p' = true /\ ((exists l, exec p = Ok l) -> exec p' = Ok (den p'))).
Proof.
  intros Hs Ht. unfold wrap_filter. destruct es as [|e0 es0].
  - exists p. split_and!; [done..| |].
    + symmetry. apply filter_true.
    + intros Hp _. split; [done|]. intros [l Hl]. by rewrite (exec_den p l Hl).
  - destruct (combine_total And (e0 :: es0)) as [e He]; [done|].
    unfold combine_conjuncts. rewrite He. exists (PFilter p e).
    assert (type_of s e = Some KBool) as Hte by (by apply (conjunctive_combine _ _ _ (typed_conjunctive s) He)).
    assert (den (PFilter p e) = List.filter (all_pass s (e0 :: es0)) (den p)) as Hd.
    { cbn [den]. rewrite (schema'_eq _ _ Hs). apply filter_ext. intros r. by apply plan_passes_combine. }
    split_and!; [done| | |done|].
    + cbn. rewrite Hs. cbn. by rewrite bool_decide_true.
    + done.
    + intros Hp Hes. assert (safe_expr e = true) as Hse by (by apply (conjunctive_combine _ _ _ safe_conjunctive He)).
      split; [unfold safe_plan; cbn; by rewrite Hse|]. intros [l Hl]. cbn [exec den]. rewrite Hl. cbn.
      rewrite (schema'_eq _ _ Hs), <- (exec_den p l Hl). apply filterM_safe; [done..|]. by apply den_ok.
Qed.

Lemma distribute_safe jt lm rm cs lp rp keep :
  distribute jt lm rm cs = (lp, rp, keep) -> Forall (fun e => safe_expr e = true) cs ->
  Forall (fun e => safe_expr e = true) lp /\ Forall (fun e => safe_expr e = true) rp /\
  Forall (fun e => safe_expr e = true) keep.
Proof.
  revert lp rp keep. induction cs as [|c cs IH]; intros lp rp keep; cbn [distribute].
  - intros [= <- <- <-] _. split_and!; constructor.
  - destruct (distribute _ _ _ cs) as [[lp' rp'] keep']. intros Hd [Hc Hcs]%Forall_cons.
    destruct (IH _ _ _ eq_refl Hcs) as (S1 & S2 & S3).
    assert (forall m, safe_expr (remap_columns c m) = true) as Hr by (intros; by rewrite remap_safe).
    destruct (_ && _); [|destruct (_ && _)]; injection Hd as <- <- <-; split_and!; auto.
Qed.

Lemma push_node_replaces p p' : push_node p = Ok p' -> replaces p p'.
Proof.
  unfold push_node. destruct p as [|i e| | | | | | | | |]; try (intros [= <-]; done).
  destruct i as [| | |l r lk rk jt out st| | | | | | |]; try (intros [= <-]; done).
  intros (o & Ho & [= <-])%res_bind_ok. unfold push_into_join in Ho.
  destruct (distribute _ _ _ _) as [[lp rp] keep] eqn:Hd.
  assert (o = None \/ (let* new_left := wrap_filter l lp in let* new_right := wrap_filter r rp in
      let* result := wrap_filter (PJoin new_left new_right lk rk jt out Hash) keep in Ok (Some result)) = Ok o) as Ho'
    by (destruct lp, rp; [left; congruence|by right..]).
  clear Ho. destruct Ho' as [->|Ho]; [done|]. intros s Hs Hc.
  apply filter_schema in Hs as [Hjs Ht].
  destruct (join_schema _ _ _ _ _ _ _ _ Hjs) as (ls & rs & Hls & Hrs & Hj).
  unfold coherent in Hc. cbn in Hc. apply andb_true_iff in Hc as [Hcj [Hcl Hcr]%andb_true_iff].
  assert (forall o k, o ∈ out -> k ∈ zip lk rk -> oalias o = k.1 -> key_column jt ls o k = true) as Hco.
  { intros o1 k H1 H2 H3. rewrite forallb_forall in Hcj. apply list_elem_of_In, Hcj in H1.
    rewrite forallb_forall in H1. apply list_elem_of_In, H1 in H2. rewrite (schema'_eq _ _ Hls) in H2.
    rewrite bool_decide_true in H2 by done. done. }
  assert (Forall (fun e => type_of s e = Some KBool) (split_conjuncts e)) as Hts
    by (by apply (conjunctive_split _ e (typed_conjunctive s))).
  destruct (distribute_sound _ _ _ _ _ _ _ Hj Hco _ _ _ _ Hd Hts) as ((T1 & T2 & T3) & _ & _ & _).
  destruct (wrap_filter_spec l ls lp Hls T1) as (l' & El & L1 & L2 & L3 & L4).
  destruct (wrap_filter_spec r rs rp Hrs T2) as (r' & Er & R1 & R2 & R3 & R4).
  rewrite El in Ho. cbn in Ho. rewrite Er in Ho. cbn in Ho.
  assert (schema_of (PJoin l' r' lk rk jt out Hash) = Some s) as Hs' by (rewrite <- Hjs; cbn; by rewrite L1, R1, Hls, Hrs).
  destruct (wrap_filter_spec _ s keep Hs' T3) as (q & Eq & Q1 & Q2 & Q3 & Q4).
  rewrite Eq in Ho. cbn in Ho. simplify_eq. change (default _ (Some q)) with q.
  assert (den q = den (PFilter (PJoin l r lk rk jt out st) e)) as Hden.
  { rewrite Q3. cbn [den]. rewrite L3, R3, (schema'_eq _ _ Hjs).
    rewrite <- (push_rows _ _ _ _ _ _ _ Hj Hco _ _ _ _ _ _ Hd Hts (den_ok l ls Hls) (den_ok r rs Hrs)).
    apply filter_ext. intros x. apply all_pass_split. }
  split_and!; [done| |done|].
  - rewrite Q2. unfold coherent. cbn. unfold coherent in L2, R2. rewrite L2, R2, Hcl, Hcr.
    rewrite (schema'_eq _ _ L1). rewrite (schema'_eq _ _ Hls) in Hcj. by rewrite Hcj.
  - intros Hsafe. unfold safe_plan in Hsafe. cbn in Hsafe.
    apply andb_true_iff in Hsafe as [Hse [Hsl Hsr]%andb_true_iff].
    destruct (distribute_safe _ _ _ _ _ _ _ Hd (proj1 (conjunctive_split _ e safe_conjunctive) Hse)) as (S1 & S2 & S3).
    destruct (L4 Hsl S1) as [L5 L6]. destruct (R4 Hsr S2) as [R5 R6].
    destruct (Q4 ltac:(unfold safe_plan in *; cbn; by rewrite L5, R5) S3) as [Q5 Q6]. split; [done|].
    intros rows Hx. rewrite Q6; [by rewrite Hden, (exec_den _ rows Hx)|].
    cbn [exec] in Hx. apply res_bind_ok in Hx as (js & Hx & _). apply res_bind_ok in Hx as (xl & Hxl & Hx).
    apply res_bind_ok in Hx as (xr & Hxr & _). cbn [exec]. rewrite L6, R6 by eauto. by eexists.
Qed.

Lemma push_node_total p : exists p', push_node p = Ok p'.
Proof.
  assert (forall p es, exists p', wrap_filter p es = Ok p') as Hw.
  { intros q [|e es]; [by eexists|]. unfold wrap_filter, combine_conjuncts.
    destruct (combine_total And (e :: es)) as [e' ->]; [done|]. by eexists. }
  unfold push_node. destruct p as [|i e| | | | | | | | |]; try by eexists.
  destruct i as [| | |l r lk rk jt out st| | | | | | |]; try by eexists.
  unfold push_into_join. destruct (distribute _ _ _ _) as [[lp rp] keep].
  destruct (Hw l lp) as [l' El]. destruct (Hw r rp) as [r' Er].
  destruct (Hw (PJoin l' r' lk rk jt out Hash) keep) as [q Eq].
  destruct lp, rp; cbn [mbind res_bind]; [by eexists|..]; rewrite El; cbn [mbind res_bind]; rewrite Er; cbn [mbind res_bind]; rewrite Eq; by eexists.
Qed.

(** C29: predicate pushdown is exact.  On a typed plan whose joins show a key's name only for
    the column the rule takes it for, pushing every filter below every join it can cross
    succeeds, keeps the schema and keeps the rows, in every join type; and where no filter of
    the plan can raise, the rewritten plan returns whenever the original does, with the same
    rows. *)
Theorem predicate_pushdown_exact p s :
  schema_of p = Some s -> coherent p = true ->
  exists p', rewrite_predicate p = Ok p' /\ schema_of p' = Some s /\ den p' = den p /\
    (forall l l', exec p = Ok l -> exec p' = Ok l' -> l' = l) /\
    (safe_plan p = true -> forall l, exec p = Ok l -> exec p' = Ok l).
Proof.
  intros Hs Hc. assert (exists p', rewrite_predicate p = Ok p') as [p' Hp].
  { apply transform_up_total, push_node_total. }
  destruct (transform_up_replaces push_node push_node_replaces p p' Hp s Hs Hc) as (H1 & _ & H3 & H4).
  exists p'. split_and!; [done..| |].
  - intros l l' Hl Hl'. by rewrite <- (exec_den p l Hl), <- (exec_den p' l' Hl').
  - intros Hsafe. by apply H4.
Qed.
End Rewrite.

(** *** Concrete plans *)

(** Two small tables: [left] holds (k, v), [right] holds (k, w). *)
Definition two_tables (n : nat) : list row :=
  match n with
  | O => [{["k" := VInt 1; "v" := VInt 10]}; {["k" := VInt 2; "v" := VInt 20]}; {["v" := VInt 30]}]
  | _ => [{["k" := VInt 2; "w" := VInt 7]}; {["k" := VInt 2; "w" := VInt 8]}; {["k" := VInt 3; "w" := VInt 9]}]
  end.

Definition left_table : plan := PScan 0 [("k", KInt); ("v", KInt)].
Definition right_table : plan := PScan 1 [("k", KInt); ("w", KInt)].

Definition coalesced : list join_output_col :=
  [JoinOutputCol SLeft "k" "k"; JoinOutputCol SLeft "v" "v"; JoinOutputCol SRight "w" "w"].

(** A predicate with a conjunct for the left, one for the right through the key, one spanning. *)
Definition mixed_filter : plan :=
  PFilter (PJoin left_table right_table ["k"] ["k"] JInner coalesced SortMerge)
    (Binary And (Binary CGt (Col "v") (Lit (VInt 10)))
       (Binary And (Binary CGt (Col "w") (Binary Add (Col "k") (Lit (VInt 5)))) (Binary CLt (Col "w") (Col "v")))).

Lemma predicate_pushdown_exact_witness :
  exists p', rewrite_predicate mixed_filter = Ok p' /\
    @exec (toy_plans two_tables) p' = Ok [{["k" := VInt 2; "v" := VInt 20; "w" := VInt 8]}].
Proof.
  destruct (@predicate_pushdown_exact (toy_plans two_tables) mixed_filter
    {["k" := KInt; "v" := KInt; "w" := KInt]}) as (p' & H1 & _ & _ & _ & H5); [vm_compute; reflexivity..|].
  exists p'. split; [exact H1|]. apply H5; vm_compute; reflexivity.
Defined.

(** [left.join(right, on="k", how="right", coalesce=False)]: both keys in the output. *)
Definition both_keys : list join_output_col :=
  [JoinOutputCol SLeft "k" "k"; JoinOutputCol SLeft "v" "v"; JoinOutputCol SRight "k" "k_right"; JoinOutputCol SRight "w" "w"].

(** The right rows without a match, by the outer-join idiom. *)
Definition unmatched_right : plan :=
  PFilter (PJoin left_table right_table ["k"] ["k"] JRight both_keys Hash) (IsNull (Col "k")).

(** a right join that keeps both keys shows under the left key's name the left side's
    value, null where the right row has no match; the rule takes it for the right key and
    moves [k IS NULL] below the join, where no row passes.  The one unmatched row is lost. *)
Theorem right_join_key_pushdown_loses_rows :
  @exec (toy_plans two_tables) unmatched_right = Ok [{["k_right" := VInt 3; "w" := VInt 9]}] /\
  (let* p := rewrite_predicate unmatched_right in @exec (toy_plans two_tables) p) = Ok [].
Proof. split; vm_compute; reflexivity. Qed.
