(* ===== verification/PlanLocal.v ===== *)
(** * Filters below aggregates, sorts and windows

    kyber/rules/pushdown.py: [push_filter_through_aggregate], [push_filter_through_sort] and
    [push_filter_through_window]. *)

From Stdlib Require Import Floats.SpecFloat.
From S2P Require Import Prelude ExprIR ExprSound ExprAlgebra PlanIR PlanSound PlanPushdown.

(** ** The rules *)

Definition push_filter_through_aggregate (node : plan) : option plan :=
  match node with
  | PFilter (PAggregate i gks ags w) e =>
      match gks with
      | [] => None
      | _ =>
          let key_exprs := py_dict gks in
          if covers (map fst gks) (referenced_columns e)
          then Some (PAggregate (PFilter i (substitute_columns e key_exprs)) gks ags w) else None
      end
  | _ => None
  end.

Definition push_filter_through_sort (node : plan) : option plan :=
  match node with
  | PFilter (PSort i ks None) e => Some (PSort (PFilter i e) ks None)
  | _ => None
  end.

(** [{pk.name for pk in win.partition_keys if isinstance(pk, Col)}], as large as the list of
    keys: every key is a column and none is repeated. *)
Definition partition_columns (pks : list expr) : option (list string) :=
  cs ← opt_mapM (fun e => match e with Col c => Some c | _ => None end) pks;
  if bool_decide (NoDup cs) then Some cs else None.

Definition push_filter_through_window (node : plan) : res (option plan) :=
  match node with
  | PFilter (PWindow i pks oks fs n) e =>
      match partition_columns pks with
      | None => Ok None
      | Some part_cols =>
          let pushable := List.filter (fun c => covers part_cols (referenced_columns c)) (split_conjuncts e) in
          let keep := List.filter (fun c => negb (covers part_cols (referenced_columns c))) (split_conjuncts e) in
          match pushable with
          | [] => Ok None
          | _ =>
              let* p := combine_conjuncts pushable in
              let* result := wrap_filter (PWindow (PFilter i p) pks oks fs n) keep in
              Ok (Some result)
          end
      end
  | _ => Ok None
  end.

(** ** Sorting and filtering commute *)

Lemma total_flip {A} (cmp : A -> A -> comparison) : total_order cmp -> total_order (fun a b => cmp b a).
Proof.
  intros [H1 H2 H3 H4]. split; intros.
  - apply H1.
  - apply H2.
  - eauto.
  - rewrite (H2 a c), (H2 b c). f_equal. apply H4. by rewrite H2, H.
Qed.

Lemma total_null first cmp : total_order cmp -> total_order (null_compare first cmp).
Proof.
  intros [H1 H2 H3 H4]. split.
  - intros [a|]; cbn; auto.
  - intros [a|] [b|]; cbn; auto; by destruct first.
  - intros [a|] [b|] [c|]; cbn; eauto; destruct first; done.
  - intros [a|] [b|] [c|]; cbn; auto; destruct first; done.
Qed.

Lemma total_lex {A} (c1 c2 : A -> A -> comparison) :
  total_order c1 -> total_order c2 -> total_order (fun a b => match c1 a b with Eq => c2 a b | c => c end).
Proof.
  intros [H1 H2 H3 H4] [G1 G2 G3 G4].
  assert (forall a b c, c1 b c = Eq -> c1 a b = c1 a c) as Hr.
  { intros a b c E. rewrite (H2 b a), (H2 c a). f_equal. by apply H4. }
  split.
  - intros a. by rewrite H1.
  - intros a b. rewrite (H2 a b), (G2 a b). by destruct (c1 a b).
  - intros a b c. destruct (c1 a b) eqn:E1; try done; destruct (c1 b c) eqn:E2; try done.
    + rewrite (H4 _ _ c E1), E2. eauto.
    + rewrite (H4 _ _ c E1), E2. done.
    + rewrite <- (Hr a b c E2), E1. done.
    + by rewrite (H3 a b c E1 E2).
  - intros a b c. destruct (c1 a b) eqn:E1; try done. intros E. rewrite (H4 _ _ c E1). by rewrite (G4 _ _ c E).
Qed.

Definition cmp_le {A} (cmp : A -> A -> comparison) (a b : A) : bool :=
  match cmp a b with Gt => false | _ => true end.

Section SortFilter.
Context {A : Type} (cmp : A -> A -> comparison) (Hcmp : total_order cmp).
Abbreviation le := (cmp_le cmp).

Lemma le_trans a b c : le a b = true -> le b c = true -> le a c = true.
Proof using Hcmp.
  destruct Hcmp as [H1 H2 H3 H4]. unfold cmp_le.
  destruct (cmp a b) eqn:E1, (cmp b c) eqn:E2; try done; intros _ _.
  - by rewrite (H4 _ _ c E1), E2.
  - by rewrite (H4 _ _ c E1), E2.
  - assert (cmp c a = CompOpp (cmp a b)) as E by (rewrite (H4 c b a); [apply H2|by rewrite H2, E2]).
    rewrite H2, E, E1. done.
  - by rewrite (H3 a b c E1 E2).
Qed.

Lemma le_total a b : le a b = false -> le b a = true.
Proof using Hcmp. unfold cmp_le. rewrite (ord_antisym _ Hcmp a b). by destruct (cmp a b). Qed.

Lemma insert_sorted x l : StronglySorted (fun a b => le a b = true) l -> StronglySorted (fun a b => le a b = true) (insert_by le x l).
Proof using Hcmp.
  induction 1 as [|y l Hl IH Hy]; cbn; [by repeat constructor|]. destruct (le x y) eqn:E.
  - constructor; [by constructor|]. constructor; [done|]. eapply Forall_impl; [done|]. intros z. by apply le_trans.
  - constructor; [done|]. apply Forall_insert_by; [by apply le_total|done].
Qed.

Lemma insert_filter p x l : StronglySorted (fun a b => le a b = true) l ->
  List.filter p (insert_by le x l) = if p x then insert_by le x (List.filter p l) else List.filter p l.
Proof using Hcmp.
  induction 1 as [|y l Hl IH Hy]; cbn; [by destruct (p x)|]. destruct (le x y) eqn:E; cbn.
  - destruct (p x) eqn:Px; [|done]. destruct (p y); cbn; [by rewrite E|].
    assert (Forall (fun z => le x z = true) l) as Hx by (eapply Forall_impl; [done|]; intros z; by apply le_trans).
    clear -Hx. apply (Forall_filter_bool _ p) in Hx. destruct Hx as [|z l' Hz _]; cbn; [done|]. by rewrite Hz.
  - rewrite IH. destruct (p y) eqn:Py, (p x); cbn; rewrite ?E; done.
Qed.

Lemma sort_filter p l : sort_by le (List.filter p l) = List.filter p (sort_by le l).
Proof using Hcmp.
  assert (forall l, StronglySorted (fun a b => le a b = true) (sort_by le l)) as Hs.
  { intros l0. induction l0; cbn; [constructor|]. by apply insert_sorted. }
  induction l as [|x l IH]; cbn; [done|]. fold (sort_by le l). rewrite insert_filter by apply Hs. rewrite <- IH. by destruct (p x).
Qed.
End SortFilter.

(** ** Grouping and filtering commute *)

Lemma dedup_filter {A B} `{EqDecision B} (key : A -> B) (q : B -> bool) l :
  dedup_by key (List.filter (fun x => q (key x)) l) = List.filter (fun x => q (key x)) (dedup_by key l).
Proof.
  induction l as [|x l IH]; cbn; [done|]. destruct (q (key x)) eqn:Hq; cbn; rewrite IH, !filter_filter_bool; [f_equal|];
    apply filter_ext; intros y; [apply andb_comm|].
  case_bool_decide as E; cbn; [by rewrite E, Hq|done].
Qed.

Lemma groups_filter {A B} `{EqDecision B} (key : A -> B) (q : B -> bool) l :
  groups key (List.filter (fun x => q (key x)) l) = List.filter (fun g => q g.1) (groups key l).
Proof.
  unfold groups. rewrite dedup_filter, filter_map_swap. cbn. apply map_ext_in. intros x [_ Hx]%filter_In.
  f_equal. rewrite filter_filter_bool. apply filter_ext. intros y. case_bool_decide as E; [|apply andb_false_r].
  by rewrite E, Hx.
Qed.

(** ** Fallible loops over part of a list *)

Lemma res_mapM_inv {A B} (f : A -> res B) (g : A -> B) l ys :
  (forall x y, f x = Ok y -> g x = y) -> res_mapM f l = Ok ys -> Forall (fun x => f x = Ok (g x)) l.
Proof.
  intros Hf. revert ys. induction l as [|x l IH]; cbn; intros ys; [constructor|].
  intros (y & Hy & H)%res_bind_ok. apply res_bind_ok in H as (ys' & Hys & _).
  constructor; [by rewrite (Hf x y Hy)|by eapply IH].
Qed.

Lemma res_mapM_intro {A B} (f : A -> res B) (g : A -> B) l :
  Forall (fun x => f x = Ok (g x)) l -> res_mapM f l = Ok (map g l).
Proof. induction 1 as [|x l Hx _ IH]; cbn; [done|]. rewrite Hx. cbn. by rewrite IH. Qed.

(** Dropping elements of a loop that returns drops their results. *)
Lemma res_mapM_filter {A B} (f : A -> res B) (g : A -> B) q l ys :
  (forall x y, f x = Ok y -> g x = y) -> res_mapM f l = Ok ys ->
  res_mapM f (List.filter q l) = Ok (map g (List.filter q l)).
Proof. intros Hf Hl. apply res_mapM_intro, Forall_filter_bool. by eapply res_mapM_inv. Qed.

Lemma elem_of_sort_by {A} (le : A -> A -> bool) x l : x ∈ l -> x ∈ sort_by le l.
Proof.
  assert (forall x y l, x = y \/ x ∈ l -> x ∈ insert_by le y l) as Hi.
  { clear. intros x y l. induction l as [|z l IH]; cbn; intros H.
    - destruct H as [->|H]; [left|by apply not_elem_of_nil in H].
    - destruct (le y z).
      + destruct H as [->|H]; [left|by right].
      + destruct H as [->|[->|H]%elem_of_cons]; [right; auto|left|right; auto]. }
  induction l as [|y l IH]; intros H; [by apply not_elem_of_nil in H|]. cbn. apply Hi.
  apply elem_of_cons in H as [->|H]; [by left|right; auto].
Qed.

Section Local.
Context {PE : PlanEngine}.

Definition tested (s : schema) (e : expr) (r : row) : Prop := test s e r = Ok (passes s e r).

Lemma filterM_inv s e l l' : filterM (test s e) l = Ok l' -> Forall (tested s e) l.
Proof.
  revert l'. induction l as [|r l IH]; cbn; intros l'; [constructor|].
  intros (b & Hb & H)%res_bind_ok. apply res_bind_ok in H as (rest & Hr & _).
  constructor; [|by eapply IH]. unfold tested. by rewrite (test_passes _ _ _ _ Hb).
Qed.

Lemma filterM_intro s e l : Forall (tested s e) l -> filterM (test s e) l = Ok (List.filter (passes s e) l).
Proof. induction 1 as [|r l Hr _ IH]; cbn; [done|]. rewrite Hr. cbn. by rewrite IH. Qed.

Lemma evaluate_filter s es q l vs : evaluate s es l = Ok vs -> exists vs', evaluate s es (List.filter q l) = Ok vs'.
Proof.
  intros H. eexists. eapply (res_mapM_filter _ (fun r => map (fun e => value_at s e r) es)); [|exact H].
  intros r v. apply res_mapM_ok. intros e x Hx. unfold value_at. by rewrite Hx.
Qed.

Lemma evaluate_runs s es l vs r e : evaluate s es l = Ok vs -> r ∈ l -> e ∈ es -> run s r e = Ok (value_at s e r).
Proof.
  intros H Hr He. unfold evaluate in H.
  apply (res_mapM_inv _ (fun r => or_none (res_mapM (fun e => run s r e) es))) in H; [|by intros x y ->].
  rewrite Forall_forall in H. specialize (H r Hr). cbn in H.
  apply (res_mapM_inv _ (fun e => value_at s e r)) in H; [|by unfold value_at; intros x y ->].
  rewrite Forall_forall in H. by apply H.
Qed.

(** *** Sort *)

Lemma row_order_total (value : expr -> row -> option value) ks : total_order (row_order value ks).
Proof.
  induction ks as [|k ks IH]; [split; done|]. cbn. unfold key_order.
  apply (total_lex (fun r r' => null_compare _ _ (value (sk_expr k) r) (value (sk_expr k) r'))); [|done].
  apply (total_order_pull (value (sk_expr k))), total_null. destruct (descending k); [apply total_flip|]; apply vorder_total.
Qed.

Lemma push_sort_exact i ks e s l :
  schema_of (PFilter (PSort i ks None) e) = Some s -> exec (PFilter (PSort i ks None) e) = Ok l ->
  schema_of (PSort (PFilter i e) ks None) = Some s /\ exec (PSort (PFilter i e) ks None) = Ok l.
Proof.
  intros [Hs Ht]%filter_schema Hx. cbn in Hs. destruct (schema_of i) as [si|] eqn:Ei; [|done]. cbn in Hs.
  destruct (forallb _ ks) eqn:Hk; [|done]. injection Hs as ->.
  assert (schema_of (PFilter i e) = Some s) as Ef by (by apply filter_schema).
  assert (schema_of (PSort i ks None) = Some s) as Es by (cbn; rewrite Ei; cbn; by rewrite Hk).
  split; [rewrite <- Es; apply (un_schema _ (unary_sort ks None)); congruence|].
  cbn [exec] in *. rewrite (schema'_eq _ _ Ef), (schema'_eq _ _ Ei) in *. rewrite (schema'_eq _ _ Es) in Hx.
  apply res_bind_ok in Hx as (sorted & Hx & Hf). apply res_bind_ok in Hx as (rows & Hr & Hx).
  apply res_bind_ok in Hx as (vs & Hv & [= <-]). cbn [cap_rows] in *. rewrite Hr. cbn [mbind res_bind].
  rewrite filterM_intro; cbn [mbind res_bind].
  - destruct (evaluate_filter s (map sk_expr ks) (passes s e) rows vs Hv) as [vs' ->]. cbn. f_equal.
    rewrite <- (filterM_passes _ _ _ _ Hf). apply (sort_filter (row_order (value_at s) ks)), row_order_total.
  - apply filterM_inv in Hf. rewrite Forall_forall in *. intros r Hin. apply Hf. by apply elem_of_sort_by.
Qed.

(** *** Aggregate *)

Lemma assoc_zip_forall2 {A B} (R : A -> B -> Prop) (l : list (string * A)) ys c x :
  NoDup (map fst l) -> (c, x) ∈ l -> Forall2 R (map snd l) ys ->
  exists y, assoc c (zip (map fst l) ys) = Some y /\ R x y.
Proof.
  intros Hn Hx. revert ys Hn. induction l as [|[d z] l IH]; [by apply not_elem_of_nil in Hx|].
  intros ys [Hd Hn]%NoDup_cons H. cbn in H. inversion H as [|? y ? ys' HR Hl]; subst. cbn.
  apply elem_of_cons in Hx as [[= -> ->]|Hx]; [rewrite decide_True by done; by eauto|].
  rewrite decide_False; [by apply IH|]. intros ->. apply Hd. apply list_elem_of_fmap. by exists (c, x).
Qed.

(** A value that is its own key: of a type other than double. *)
Lemma canon_exact k x : has_kind k x -> k <> KFloat -> canon <$> x = x.
Proof. destruct x as [[|[]| | |]|]; cbn; try done; intros <-; done. Qed.

(** A predicate over group keys, inlined and evaluated on a row of the group, is the predicate
    evaluated on any row that binds the keys to the group's. *)
Section GroupKeys.
Variables (si s : schema) (gks : list (string * expr)) (ks : list kind) (e : expr).
Hypothesis Hks : opt_mapM (type_of si) (map snd gks) = Some ks.
Hypothesis Hnd : NoDup (map fst gks).
Hypothesis Hs : forall c k, assoc c (zip (map fst gks) ks) = Some k -> s !! c = Some k.
Hypothesis Hcov : covers (map fst gks) (referenced_columns e) = true.
Hypothesis Hfl : forall g, g ∈ gks -> g.1 ∈ referenced_columns e -> type_of si g.2 <> Some KFloat.

Lemma group_key c : c ∈ referenced_columns e ->
  exists x, py_dict gks !! c = Some x /\ (c, x) ∈ gks /\ type_of si x = s !! c /\ is_Some (s !! c).
Proof using Hks Hnd Hs Hcov.
  intros Hc. destruct (proj2 (py_dict_dom gks c) (proj1 (covers_spec _ _) Hcov c Hc)) as [x Hx]. exists x.
  pose proof (lookup_py_dict _ _ _ Hx) as Hin.
  destruct (assoc_zip_forall2 (fun e k => type_of si e = Some k) gks ks c x) as (k & Hk & Ht); [done..|by apply opt_mapM_Some|].
  rewrite (Hs c k Hk). split_and!; by eauto.
Qed.

Lemma inline_key_kind : type_of si (substitute_columns e (py_dict gks)) = type_of s e.
Proof using Hks Hnd Hs Hcov.
  rewrite inline_substitute. apply inline_kind. intros c Hc. by destruct (group_key c Hc) as (x & -> & _ & ? & _).
Qed.

Lemma inline_key_run r r' :
  row_ok si r -> (forall g, g ∈ gks -> run si r g.2 = Ok (value_at si g.2 r)) ->
  (forall c x, assoc c (zip (map fst gks) (keys_of si (map snd gks) r)) = Some x -> r' !! c = x) ->
  run si r (substitute_columns e (py_dict gks)) = run s r' e.
Proof using Hks Hnd Hs Hcov Hfl.
  intros Hr Hev Hr'. rewrite inline_substitute. apply inline_eval. intros c Hc.
  destruct (group_key c Hc) as (x & -> & Hin & Ht & [k Hk]). split; [done|].
  change (default (Col c) (Some x)) with x. pose proof (Hev _ Hin) as He. cbn in He. rewrite He.
  destruct (assoc_zip_forall2 (fun e v => v = canon <$> value_at si e r) gks (keys_of si (map snd gks) r) c x) as (y & Hy & Hyx);
    [done..| |].
  { unfold keys_of. clear. generalize (map snd gks). intros es. induction es; cbn; by constructor. }
  unfold run. cbn. rewrite (Hr' c y Hy), Hyx, (canon_exact k); [by rewrite Hk|..].
  - apply (value_at_kind si); [congruence|done].
  - intros ->. apply (Hfl _ Hin Hc). cbn. congruence.
Qed.
End GroupKeys.

Lemma groups_cover {A B} `{EqDecision B} (key : A -> B) l x : x ∈ l -> exists g, g ∈ groups key l /\ g.1 = key x.
Proof.
  intros Hx. assert (exists y, y ∈ dedup_by key l /\ key y = key x) as (y & Hy & Hk).
  { induction l as [|z l IH]; [by apply not_elem_of_nil in Hx|]. cbn.
    destruct (decide (key z = key x)) as [E|E]; [exists z; split; [left|done]|].
    apply elem_of_cons in Hx as [->|Hx]; [done|]. destruct (IH Hx) as (y & Hy & Hk). exists y. split; [|done].
    right. apply elem_of_filter_bool. split; [done|]. rewrite bool_decide_false; [done|congruence]. }
  eexists. split; [apply list_elem_of_fmap; exists y; split; [reflexivity|done]|done].
Qed.

Lemma agg_schema i gks ags w s :
  schema_of (PAggregate i gks ags w) = Some s ->
  exists si ks, schema_of i = Some si /\ opt_mapM (type_of si) (map snd gks) = Some ks /\ NoDup (map fst gks) /\
    forall c k, assoc c (zip (map fst gks) ks) = Some k -> s !! c = Some k.
Proof.
  cbn. intros Hs. destruct (schema_of i) as [si|]; [|done]. cbn in Hs.
  destruct (opt_mapM (type_of si) (map snd gks)) as [ks|] eqn:Hks; [|done].
  cbn in Hs. destruct (opt_mapM (fun a => agg_kind a si) ags) as [kas|] eqn:Hkas; [|done]. cbn in Hs.
  case_bool_decide as Hnd; [|done]. apply NoDup_app in Hnd as (Hnd & _ & _).
  exists si, ks. split_and!; [done..|]. intros c k Hc. injection Hs as <-. by rewrite lookup_list_to_map, assoc_app, Hc.
Qed.

Lemma push_aggregate_exact i gks ags w e s l :
  gks <> [] -> covers (map fst gks) (referenced_columns e) = true ->
  (forall g, g ∈ gks -> g.1 ∈ referenced_columns e -> type_of (schema' i) g.2 <> Some KFloat) ->
  schema_of (PFilter (PAggregate i gks ags w) e) = Some s -> exec (PFilter (PAggregate i gks ags w) e) = Ok l ->
  let p' := PAggregate (PFilter i (substitute_columns e (py_dict gks))) gks ags w in
  schema_of p' = Some s /\ exec p' = Ok l.
Proof.
  intros Hne Hcov Hfl [Hs0 Ht]%filter_schema Hx p'. destruct (agg_schema _ _ _ _ _ Hs0) as (si & ks & Ei & Hks & Hnd & Hsk).
  rewrite (schema'_eq _ _ Ei) in Hfl.
  set (e' := substitute_columns e (py_dict gks)) in *.
  assert (schema_of (PFilter i e') = Some si) as Ef.
  { apply filter_schema. split; [done|]. unfold e'. by rewrite (inline_key_kind si s gks ks e). }
  split; [rewrite <- Hs0; apply (un_schema _ (unary_aggregate gks ags w)); congruence|].
  unfold p'. cbn [exec] in *. rewrite (schema'_eq _ _ Ef), (schema'_eq _ _ Ei) in *. rewrite (schema'_eq _ _ Hs0) in Hx.
  apply res_bind_ok in Hx as (arows & Hx & Hf). apply res_bind_ok in Hx as (rows & Hr & Hx).
  apply res_bind_ok in Hx as (vs & Hv & Hg). rewrite Hr. cbn [mbind res_bind].
  assert (forall rs, agg_groups si gks rs = groups (keys_of si (map snd gks)) rs) as Eg by (by destruct gks).
  rewrite Eg in *. set (key := keys_of si (map snd gks)) in *.
  set (out := fun g : list (option value) * list row => agg_row gks ags (map (fun a => or_null (agg_value a g.2)) ags) g.1).
  set (one := fun g : list (option value) * list row => _) in Hg.
  assert (forall g y, one g = Ok y -> out g = y) as Hone.
  { intros g y (zs & Hzs & [= <-])%res_bind_ok. unfold out. f_equal.
    eapply res_mapM_ok; [|exact Hzs]. by intros a z ->. }
  rewrite <- (res_mapM_ok one out _ _ Hone Hg) in Hf.
  assert (forall r, r ∈ rows -> row_ok si r) as Hok.
  { rewrite <- (exec_den i rows Hr). apply Forall_forall. by apply den_ok. }
  assert (forall r r', r ∈ rows ->
    (forall c x, assoc c (zip (map fst gks) (key r)) = Some x -> r' !! c = x) -> run si r e' = run s r' e) as Hrun.
  { intros r r' Hin Hr'. apply (inline_key_run si s gks ks); auto. intros g Hgin.
    apply (evaluate_runs si (map snd gks) rows vs); [done..|]. apply list_elem_of_fmap. by eauto. }
  set (q := fun k => passes s e (bind_row (zip (map fst gks) k))).
  assert (forall r, r ∈ rows -> passes si e' r = q (key r)) as Hq.
  { intros r Hin. unfold q, passes. rewrite (Hrun r (bind_row (zip (map fst gks) (key r))) Hin); [done|]. intros c x Hc. by rewrite lookup_bind_row, Hc. }
  assert (forall r g, r ∈ rows -> g.1 = key r -> run si r e' = run s (out g) e) as Hout.
  { intros r g Hin Hk. apply Hrun; [done|]. intros c x Hc. unfold out, agg_row.
    by rewrite lookup_bind_row, assoc_app, Hk, Hc. }
  rewrite filterM_intro; cbn [mbind res_bind].
  - rewrite (filter_ext_in (passes si e') (fun r => q (key r))) by (intros r ?%list_elem_of_In; by apply Hq).
    destruct (evaluate_filter si (map snd gks) (fun r => q (key r)) rows vs Hv) as [vs' ->]. cbn [mbind res_bind].
    rewrite Eg, (groups_filter key q), (res_mapM_filter one out _ _ _ Hone Hg). f_equal.
    rewrite <- (filterM_passes _ _ _ _ Hf), filter_map_swap. f_equal. apply filter_ext_in.
    intros g Hin%list_elem_of_In. pose proof (Forall_groups (fun r => r ∈ rows) key rows ltac:(by rewrite Forall_forall)) as HG.
    rewrite Forall_forall in HG. destruct (HG g Hin) as [(r & Hrin & Hk) _]. rewrite Hk, <- Hq by done.
    unfold passes. by rewrite (Hout r g Hrin Hk).
  - apply filterM_inv in Hf. rewrite Forall_forall in *. intros r Hin.
    destruct (groups_cover key rows r Hin) as (g & Hgin & Hk).
    specialize (Hf (out g) ltac:(apply list_elem_of_fmap; by eauto)).
    unfold tested, test, passes in *. by rewrite (Hout r g Hin Hk).
Qed.

(** *** Window *)

Lemma inline_id e : inline Col e = e.
Proof.
  unfold inline. assert (forall l, Forall (fun e => transform_expr_up (fun e => match e with Col c => Col c | _ => e end) e = e) l ->
    map (transform_expr_up (fun e => match e with Col c => Col c | _ => e end)) l = l) as Hl.
  { induction 1 as [|x l Hx _ IH]; cbn; [done|]. by rewrite Hx, IH. }
  induction e using expr_ind'; cbn; rewrite ?IHe, ?IHe1, ?IHe2, ?Hl by done; try done.
  f_equal. induction H as [|[a b] bs [H1 H2] _ IH]; cbn in *; [done|]. by rewrite H1, H2, IH.
Qed.

(** An expression sees of its schema and row only the columns it reads. *)
Lemma kind_agree (s1 s2 : schema) e :
  (forall c, c ∈ referenced_columns e -> s1 !! c = s2 !! c) -> type_of s1 e = type_of s2 e.
Proof. intros H. rewrite <- (inline_id e) at 1. by apply inline_kind. Qed.

Lemma run_agree (s1 s2 : schema) (r1 r2 : row) e :
  (forall c, c ∈ referenced_columns e -> s1 !! c = s2 !! c /\ r1 !! c = r2 !! c) -> run s1 r1 e = run s2 r2 e.
Proof.
  intros H. rewrite <- (inline_id e) at 1. apply inline_eval. intros c Hc. destruct (H c Hc) as [H1 H2].
  split; [done|]. unfold run. cbn. by rewrite H1, H2.
Qed.

Lemma all_pass_agree (s1 s2 : schema) (r1 r2 : row) cols es :
  Forall (fun e => covers cols (referenced_columns e) = true) es ->
  (forall c, c ∈ cols -> s1 !! c = s2 !! c /\ r1 !! c = r2 !! c) -> all_pass s1 es r1 = all_pass s2 es r2.
Proof.
  intros Hes Hc. unfold all_pass. induction Hes as [|e es He _ IH]; cbn; [done|]. rewrite IH. f_equal.
  unfold passes. rewrite (run_agree s1 s2 r1 r2); [done|]. intros c Hin. apply Hc. by eapply covers_spec.
Qed.

Lemma partition_columns_spec pks cs : partition_columns pks = Some cs -> pks = map Col cs.
Proof.
  unfold partition_columns. destruct (opt_mapM _ pks) as [cs'|] eqn:H; [|done]. cbn. case_bool_decide; [|done]. intros [= ->].
  apply opt_mapM_Some in H. clear H0. induction H as [|e c pks cs He _ IH]; cbn; [done|].
  destruct e; try done. injection He as ->. by rewrite IH.
Qed.

(** The partition key of a row as a row. *)
Lemma key_row_lookup (s : schema) cs r c :
  row_ok s r -> (forall c, c ∈ cs -> is_Some (s !! c) /\ s !! c <> Some KFloat) -> c ∈ cs ->
  bind_row (zip cs (keys_of s (map Col cs) r)) !! c = r !! c.
Proof.
  intros Hr Hcs Hc. rewrite lookup_bind_row. unfold keys_of. rewrite map_map.
  assert (assoc c (zip cs (map (fun c => canon <$> value_at s (Col c) r) cs)) = Some (canon <$> value_at s (Col c) r)) as ->.
  { clear -Hc. induction cs as [|d cs IH]; [by apply not_elem_of_nil in Hc|]. cbn. case_decide; [by subst|].
    apply elem_of_cons in Hc as [?|?]; [congruence|auto]. }
  destruct (Hcs c Hc) as [[k Hk] Hf]. rewrite (canon_exact k).
  - unfold value_at, run. cbn. by rewrite Hk.
  - by apply (value_at_kind s).
  - congruence.
Qed.

Lemma groups_members {A B} `{EqDecision B} (key : A -> B) l g :
  g ∈ groups key l -> (exists x, x ∈ l /\ g.1 = key x) /\ Forall (fun y => y ∈ l /\ key y = g.1) g.2.
Proof.
  intros (x & -> & Hx)%list_elem_of_fmap. cbn. split.
  - exists x. split; [|done]. pose proof (Forall_dedup_by (fun x => x ∈ l) key l ltac:(by rewrite Forall_forall)) as Hd.
    rewrite Forall_forall in Hd. by apply Hd.
  - rewrite Forall_forall. intros y [Hy E%bool_decide_eq_true]%elem_of_filter_bool. done.
Qed.

Lemma window_schema i pks oks fs n s :
  schema_of (PWindow i pks oks fs n) = Some s ->
  exists si ks, schema_of i = Some si /\ opt_mapM (fun f => win_kind f si) fs = Some ks /\
    s = list_to_map (zip (map win_alias fs) ks) ∪ si /\
    (forall e, e ∈ pks -> is_Some (type_of si e)) /\ (forall c, c ∈ map win_alias fs -> si !! c = None).
Proof.
  cbn. intros Hs. destruct (schema_of i) as [si|]; [|done]. cbn in Hs.
  destruct (opt_mapM (fun f => win_kind f si) fs) as [ks|] eqn:Hks; [|done]. cbn in Hs.
  destruct (_ && _ && _ && _) eqn:Hb in Hs; [|done]. injection Hs as <-. bsplit.
  exists si, ks. split_and!; [done..| |].
  - intros e He. unfold all_typed in H. rewrite forallb_forall in H. apply list_elem_of_In, H in He.
    by apply bool_decide_eq_true in He.
  - intros c (f & -> & Hf)%list_elem_of_fmap. rewrite forallb_forall in H1. apply list_elem_of_In, H1 in Hf.
    by apply bool_decide_eq_true in Hf.
Qed.

Definition window_of oks fs n (g : list (option value) * list row) : list row := or_none (win_rows oks fs n g.2).

(** The rows of a partition decide a predicate over partition columns, before and after the
    window functions. *)
Section Partition.
Variables (si s : schema) (cs : list string) (oks : list sort_key) (fs : list win_func) (n : option nat)
  (ks : list kind) (es : list expr) (rows : list row).
Hypothesis Hks : opt_mapM (fun f => win_kind f si) fs = Some ks.
Hypothesis Hs : s = list_to_map (zip (map win_alias fs) ks) ∪ si.
Hypothesis Hal : forall c, c ∈ map win_alias fs -> si !! c = None.
Hypothesis Hcs : forall c, c ∈ cs -> is_Some (si !! c) /\ si !! c <> Some KFloat.
Hypothesis Hes : Forall (fun e => covers cs (referenced_columns e) = true) es.
Hypothesis Hrows : Forall (row_ok si) rows.
Let key := keys_of si (map Col cs).
Definition key_passes (k : list (option value)) : bool := all_pass si es (bind_row (zip cs k)).

Lemma partition_kind c : c ∈ cs -> s !! c = si !! c /\ c ∉ map win_alias fs.
Proof using Hs Hal Hcs.
  intros Hc. destruct (Hcs c Hc) as [[k Hk] _].
  assert (c ∉ map win_alias fs) as Hn by (intros Hin; rewrite (Hal c Hin) in Hk; done). split; [|done].
  rewrite Hs, lookup_union, lookup_list_to_map. destruct (assoc c _) eqn:E; [by apply assoc_zip in E|].
  by destruct (si !! c).
Qed.

Lemma key_passes_row r : r ∈ rows -> all_pass si es r = key_passes (key r).
Proof using Hcs Hes Hrows.
  intros Hr. rewrite Forall_forall in Hrows. apply (all_pass_agree si si r _ cs es Hes). intros c Hc. split; [done|].
  symmetry. by apply key_row_lookup; [apply Hrows|..].
Qed.

Lemma key_passes_out g l' r' :
  g ∈ groups key rows -> win_rows oks fs n g.2 = Ok l' -> r' ∈ l' -> all_pass s es r' = key_passes g.1.
Proof using Hks Hs Hal Hcs Hes Hrows.
  intros Hg Hw Hr'. destruct (groups_members key rows g Hg) as [_ Hm].
  assert (Forall (row_ok si) g.2) as Hok.
  { rewrite Forall_forall in *. intros r Hr. apply Hrows. by apply Hm. }
  pose proof (pe_win si oks fs n g.2 l' ks Hks Hok Hw) as Hp. rewrite Forall_forall in Hp, Hm.
  destruct (Hp r' Hr') as (_ & r & Hr & Hag). destruct (Hm r Hr) as [Hin <-]. rewrite <- key_passes_row by done.
  apply (all_pass_agree s si r' r cs es Hes). intros c Hc. destruct (partition_kind c Hc) as [-> Hn]. auto.
Qed.

Lemma all_pass_parts f e r :
  passes s e r = all_pass s (List.filter f (split_conjuncts e)) r && all_pass s (List.filter (fun c => negb (f c)) (split_conjuncts e)) r.
Proof using.
  rewrite plan_passes_split. unfold all_pass. induction (split_conjuncts e) as [|c l IH]; cbn; [done|].
  rewrite IH. destruct (f c); cbn; [by rewrite andb_assoc|]. rewrite !andb_assoc. f_equal. apply andb_comm.
Qed.

Lemma window_rows_filter e keep ps :
  es = List.filter (fun c => covers cs (referenced_columns c)) (split_conjuncts e) ->
  keep = List.filter (fun c => negb (covers cs (referenced_columns c))) (split_conjuncts e) ->
  res_mapM (fun g : list (option value) * list row => win_rows oks fs n g.2) (groups key rows) = Ok ps ->
  List.filter (all_pass s keep) (concat (map (window_of oks fs n) (List.filter (fun g => key_passes g.1) (groups key rows)))) =
  List.filter (passes s e) (concat ps).
Proof using Hks Hs Hal Hcs Hes Hrows.
  intros Hpu Hke Hg.
  assert (forall g y, win_rows oks fs n g.2 = Ok y -> window_of oks fs n g = y) as Hwin by (unfold window_of; by intros g y ->).
  rewrite <- (res_mapM_ok _ (window_of oks fs n) _ _ Hwin Hg).
  rewrite <- !flat_map_concat_map, !filter_flat_map, flat_map_filter. apply flat_map_ext_in. intros g Hgin.
  pose proof (res_mapM_inv _ (window_of oks fs n) _ _ Hwin Hg) as Hall. rewrite Forall_forall in Hall.
  assert (forall r, r ∈ window_of oks fs n g -> passes s e r = key_passes g.1 && all_pass s keep r) as Hpass.
  { intros r Hin. rewrite <- (key_passes_out g _ r Hgin (Hall g Hgin) Hin), Hpu, Hke. apply all_pass_parts. }
  symmetry. destruct (key_passes g.1).
  - apply filter_ext_in. intros r Hin%list_elem_of_In. by rewrite Hpass.
  - rewrite <- (filter_false (window_of oks fs n g)). apply filter_ext_in. intros r Hin%list_elem_of_In. by rewrite Hpass.
Qed.
End Partition.

Lemma push_window_exact i cs oks fs n e s l pushable keep p' :
  pushable = List.filter (fun c => covers cs (referenced_columns c)) (split_conjuncts e) ->
  keep = List.filter (fun c => negb (covers cs (referenced_columns c))) (split_conjuncts e) ->
  (forall c, c ∈ cs -> schema' i !! c <> Some KFloat) ->
  schema_of (PFilter (PWindow i (map Col cs) oks fs n) e) = Some s ->
  safe_plan (PFilter (PWindow i (map Col cs) oks fs n) e) = true ->
  exec (PFilter (PWindow i (map Col cs) oks fs n) e) = Ok l ->
  (let* i' := wrap_filter i pushable in wrap_filter (PWindow i' (map Col cs) oks fs n) keep) = Ok p' ->
  schema_of p' = Some s /\ exec p' = Ok l.
Proof.
  intros Hpu Hke Hfl [Hw Ht]%filter_schema Hsafe Hx Hp'.
  destruct (window_schema _ _ _ _ _ _ Hw) as (si & ks & Ei & Hks & Hs & Hty & Hal). rewrite (schema'_eq _ _ Ei) in Hfl.
  assert (forall c, c ∈ cs -> is_Some (si !! c) /\ si !! c <> Some KFloat) as Hcs.
  { intros c Hc. split; [|auto]. apply (Hty (Col c)). apply list_elem_of_fmap. by eauto. }
  assert (Forall (fun e => covers cs (referenced_columns e) = true) pushable) as Hes
    by (subst; rewrite Forall_forall; by intros c [_ ?]%elem_of_filter_bool).
  pose proof (proj1 (conjunctive_split _ e (typed_conjunctive s)) Ht) as Hts.
  unfold safe_plan in Hsafe. cbn in Hsafe. apply andb_true_iff in Hsafe as [Hse Hsi].
  pose proof (proj1 (conjunctive_split _ e safe_conjunctive) Hse) as Hss.
  assert (Forall (fun e => type_of si e = Some KBool) pushable) as Htp.
  { rewrite Forall_forall in Hes |- *. intros c Hc. pose proof Hc as Hc'. rewrite Hpu in Hc'. apply elem_of_filter_bool in Hc' as [Hin _].
    rewrite Forall_forall in Hts. rewrite <- (Hts c Hin). apply kind_agree. intros d Hd. symmetry.
    apply (partition_kind si s cs fs ks); try done. apply (proj1 (covers_spec _ _) (Hes c Hc) d Hd). }
  destruct (wrap_filter_spec i si pushable Ei Htp) as (i' & Hi' & S1 & _ & D1 & E1). rewrite Hi' in Hp'. cbn in Hp'.
  destruct (E1 Hsi ltac:(subst; by apply Forall_filter_bool)) as [Hsafe' E1'].
  assert (schema_of (PWindow i' (map Col cs) oks fs n) = Some s) as S2.
  { rewrite <- Hw. apply (un_schema _ (unary_window _ oks fs n)). congruence. }
  destruct (wrap_filter_spec _ s keep S2 ltac:(subst; by apply Forall_filter_bool)) as (q & Hq & S3 & _ & D3 & E3).
  rewrite Hq in Hp'. injection Hp' as <-. split; [done|].
  destruct (E3 Hsafe' ltac:(subst; by apply Forall_filter_bool)) as [_ E3']. clear E1 E3.
  cbn [exec] in Hx. rewrite (schema'_eq _ _ Ei) in Hx.
  apply res_bind_ok in Hx as (wrows & Hx & Hf). apply res_bind_ok in Hx as (rows & Hr & Hx).
  apply res_bind_ok in Hx as (vs & Hv & Hg). apply res_bind_ok in Hg as (ps & Hg & [= <-]).
  rewrite (schema'_eq _ _ Hw) in Hf. apply filterM_passes in Hf. specialize (E1' (ex_intro _ rows Hr)).
  pose proof (den_ok i si Ei) as Hok. rewrite (exec_den i rows Hr) in Hok, D1.
  set (key := keys_of si (map Col cs)) in *. set (kp := key_passes si cs pushable).
  set (win := window_of oks fs n).
  assert (forall g y, win_rows oks fs n g.2 = Ok y -> win g = y) as Hwin by (unfold win, window_of; by intros g y ->).
  assert (den i' = List.filter (fun r => kp (key r)) rows) as Hd.
  { rewrite D1. apply filter_ext_in. intros r Hin%list_elem_of_In. by apply (key_passes_row si cs pushable rows). }
  assert (exec (PWindow i' (map Col cs) oks fs n) = Ok (concat (map win (List.filter (fun g => kp g.1) (groups key rows))))) as E2.
  { cbn [exec]. rewrite E1', (schema'_eq _ _ S1), Hd. cbn [mbind res_bind].
    destruct (evaluate_filter si (map Col cs) (fun r => kp (key r)) rows vs Hv) as [vs' ->]. cbn [mbind res_bind].
    rewrite (groups_filter key kp), (res_mapM_filter _ win _ _ _ Hwin Hg). done. }
  rewrite (E3' ltac:(eauto)), D3, (exec_den _ _ E2). f_equal. rewrite <- Hf.
  by apply (window_rows_filter si s cs oks fs n ks pushable rows Hks Hs Hal Hcs Hes Hok e keep ps).
Qed.

(** The keys a predicate reads are compared exactly: not doubles. *)
Definition exact_keys (node : plan) : bool :=
  match node with
  | PFilter (PAggregate i gks _ _) e =>
      forallb (fun g => negb (bool_decide (g.1 ∈ referenced_columns e /\ type_of (schema' i) g.2 = Some KFloat))) gks
  | PFilter (PWindow i pks _ _ _) e => forallb (fun k => negb (bool_decide (type_of (schema' i) k = Some KFloat))) pks
  | _ => true
  end.

(** a filter moves below the operator under it without changing the result.  When a filter
    over the group keys of an aggregate, over a sort, or (in part) over the partition columns of
    a window is rewritten below that operator, the new plan has the same schema and returns the
    same rows in the same order, no group or partition keeping a part of its rows; for the
    window, whose conjuncts part ways, provided no filter of the plan can raise. *)
Theorem local_pushdown_exact node p' s l :
  push_filter_through_aggregate node = Some p' \/ push_filter_through_sort node = Some p' \/
    (push_filter_through_window node = Ok (Some p') /\ safe_plan node = true) ->
  schema_of node = Some s -> exact_keys node = true -> exec node = Ok l ->
  schema_of p' = Some s /\ exec p' = Ok l.
Proof.
  intros Hr Hs Hk Hx. destruct node as [|i e| | | | | | | | |]; try (by destruct Hr as [?|[?|[? _]]]).
  destruct i as [| | | |i gks ags w|i ks [n|]|i pks oks fs n| | | |]; try (by destruct Hr as [?|[?|[? _]]]).
  - destruct Hr as [Hr|[?|[? _]]]; [|done..]. cbn [push_filter_through_aggregate] in Hr. destruct gks as [|g gks]; [done|].
    destruct (covers _ _) eqn:Hc in Hr; [|done]. injection Hr as <-. apply push_aggregate_exact; try done.
    intros k Hin Href Hf. unfold exact_keys in Hk. rewrite forallb_forall in Hk. apply list_elem_of_In, Hk in Hin.
    apply negb_true_iff, bool_decide_eq_false in Hin. auto.
  - destruct Hr as [?|[[= <-]|[? _]]]; try done. by apply push_sort_exact.
  - destruct Hr as [?|[?|[Hr Hsafe]]]; [done..|]. cbn [push_filter_through_window] in Hr.
    destruct (partition_columns pks) as [cs|] eqn:Hcs; [|done]. apply partition_columns_spec in Hcs as ->.
    eapply push_window_exact; [reflexivity|reflexivity| |done..|].
    + intros c Hc Hf. unfold exact_keys in Hk. rewrite forallb_forall in Hk.
      specialize (Hk (Col c) ltac:(apply in_map; by apply list_elem_of_In)). by rewrite bool_decide_true in Hk.
    + destruct (List.filter (fun c => covers cs (referenced_columns c)) (split_conjuncts e)) as [|c0 pu]; [done|].
      apply res_bind_ok in Hr as (p & Hp & Hr).
      assert (wrap_filter i (c0 :: pu) = Ok (PFilter i p)) as -> by (unfold wrap_filter; by rewrite Hp). cbn. apply res_bind_ok in Hr as (q & Hq & [= <-]). done.
Qed.
End Local.

(** [v] per [k], kept where the key is 2 or more. *)
Definition grouped_filter : plan :=
  PFilter (PAggregate left_table [("key", Binary Add (Col "k") (Lit (VInt 1)))] [AggSpec "n" "count" []] None)
    (Binary CGt (Col "key") (Lit (VInt 2))).

Lemma local_pushdown_exact_witness :
  exists p', push_filter_through_aggregate grouped_filter = Some p' /\
    @exec (toy_plans two_tables) p' = Ok [{["key" := VInt 3; "n" := VInt 1]}].
Proof.
  eexists. split; [vm_compute; reflexivity|].
  refine (proj2 (@local_pushdown_exact (toy_plans two_tables) grouped_filter _
    {["key" := KInt; "n" := KInt]} _ (or_introl _) _ _ _)); vm_compute; reflexivity.
Defined.
