(* ===== verification/PlanJoins.v ===== *)
(** * Rewrites of a join's type

    kyber/rules/joins/rewrites.py: an outer join whose null-extended rows cannot survive
    becomes a stronger join ([outer_to_inner_join], [outer_to_inner_under_join]). *)

From Stdlib Require Import Floats.SpecFloat.
From S2P Require Import Prelude ExprIR ExprSound ExprAlgebra PlanIR PlanSound PlanPushdown PlanLocal.

(** ** Null-rejecting columns *)

(** [COMPARISON_OPS]. *)
Definition comparison_op (op : binop) : bool :=
  match op with CEq | CNe | CLt | CLe | CGt | CGe => true | _ => false end.

(** [_NULL_PROPAGATING_BINARY]. *)
Definition null_propagating_op (op : binop) : bool :=
  comparison_op op || match op with
                      | Add | Sub | Mul => true
                      | OtherOp s => bool_decide (s ∈ ["div"; "mod"; "floor_div"])
                      | _ => false
                      end.

(** [Cast], [MathExpr] and [Math2Expr] nodes, by their tags. *)
Definition null_propagating_fn (fn : fname) : bool :=
  match fn with FOther s => bool_decide (s ∈ ["cast"; "math"; "math2"]) | _ => false end.

(** [_null_propagating_cols]: the columns whose nullity forces the expression to null. *)
Fixpoint null_propagating_cols (e : expr) : list string :=
  match e with
  | Col c => [c]
  | Binary op a b => if null_propagating_op op then null_propagating_cols a ++ null_propagating_cols b else []
  | EFunc fn l => if null_propagating_fn fn then concat (map null_propagating_cols l) else []
  | _ => []
  end.

(** [_null_rejecting_cols]: the columns whose nullity keeps the predicate from being true. *)
Fixpoint null_rejecting_cols (e : expr) : list string :=
  match e with
  | Binary op a b =>
      match op with
      | And => null_rejecting_cols a ++ null_rejecting_cols b
      | Or => List.filter (fun c => bool_decide (c ∈ null_rejecting_cols b)) (null_rejecting_cols a)
      | _ => if comparison_op op then null_propagating_cols a ++ null_propagating_cols b else []
      end
  | IsNotNull a => null_propagating_cols a
  | _ => []
  end.

(** ** The rules *)

(** [_strengthened]. *)
Definition strengthened (jt : join_type) (rejects_left rejects_right : bool) : join_type :=
  match jt with
  | JLeft => if rejects_right then JInner else JLeft
  | JRight => if rejects_left then JInner else JRight
  | _ => if rejects_left && rejects_right then JInner
         else if rejects_right then JRight
         else if rejects_left then JLeft else JFull
  end.

(** [{o.alias for o in join.output if o.side == side}]. *)
Definition side_aliases (s : side) (out : list join_output_col) : list string := map fst (side_columns s out).

(** [bool(a & b)]. *)
Definition meets (a b : list string) : bool := existsb (fun c => bool_decide (c ∈ b)) a.

Definition outer (jt : join_type) : bool := match jt with JLeft | JRight | JFull => true | _ => false end.

(** The join of a (projected) join, with [_strengthened]'s type; [None] when nothing changes. *)
Definition strengthen (rejected : list string) (l r : plan) (lk rk : list string) (jt : join_type)
    (out : list join_output_col) (st : join_strategy) : option plan :=
  let new_type := strengthened jt (meets rejected (side_aliases SLeft out)) (meets rejected (side_aliases SRight out)) in
  if bool_decide (new_type = jt) then None else Some (PJoin l r lk rk new_type out st).

(** [{renames[name] for name in rejected if name in renames}]. *)
Definition renamed (renames : gmap string string) (names : list string) : list string :=
  omap (fun c => renames !! c) names.

(** [outer_to_inner_join]. *)
Definition outer_to_inner_join (node : plan) : option plan :=
  match node with
  | PFilter (PJoin l r lk rk jt out st) e =>
      if outer jt then
        match null_rejecting_cols e with
        | [] => None
        | rejected => j ← strengthen rejected l r lk rk jt out st; Some (PFilter j e)
        end
      else None
  | PFilter (PProject (PJoin l r lk rk jt out st) its) e =>
      if outer jt then
        match null_rejecting_cols e with
        | [] => None
        | rejected =>
            match renamed (passthrough_renames its) rejected with
            | [] => None
            | rejected => j ← strengthen rejected l r lk rk jt out st; Some (PFilter (PProject j its) e)
            end
        end
      else None
  | _ => None
  end.

(** [_strengthen_by_keys]. *)
Definition strengthen_by_keys (child : plan) (keys : list string) : option plan :=
  match child with
  | PJoin l r lk rk jt out st => if outer jt then strengthen keys l r lk rk jt out st else None
  | PProject (PJoin l r lk rk jt out st) its =>
      if outer jt then
        j ← strengthen (renamed (passthrough_renames its) keys) l r lk rk jt out st; Some (PProject j its)
      else None
  | _ => None
  end.

(** [outer_to_inner_under_join]. *)
Definition outer_to_inner_under_join (node : plan) : option plan :=
  match node with
  | PJoin l r lk rk jt out st =>
      match jt with
      | JInner | JSemi =>
          let left := strengthen_by_keys l lk in
          let right := strengthen_by_keys r rk in
          match left, right with
          | None, None => None
          | _, _ => Some (PJoin (default l left) (default r right) lk rk jt out st)
          end
      | _ => None
      end
  | _ => None
  end.

(** ** Soundness *)

(** The kernels these rules call null-propagating are: division, modulus, casts and the math
    functions return null, if they return, when an operand is null. *)
Class StrictKernels {PE : PlanEngine} : Prop := {
  strict_fn : forall fn xs x, null_propagating_fn fn = true -> None ∈ xs -> ext fn xs = Ok x -> x = None;
  strict_op : forall s x y z, null_propagating_op (OtherOp s) = true -> x = None \/ y = None ->
    ext_op s x y = Ok z -> z = None;
}.

#[export] Instance toy_strict data : @StrictKernels (toy_plans data).
Proof. split; [intros [] xs x|]; done. Qed.

Lemma res_mapM_elem {A B} (f : A -> res B) l ys x :
  res_mapM f l = Ok ys -> x ∈ l -> exists y, f x = Ok y /\ y ∈ ys.
Proof.
  revert ys. induction l as [|z l IH]; cbn; intros ys; [by intros _ ?%not_elem_of_nil|].
  intros (y & Hy & H)%res_bind_ok. apply res_bind_ok in H as (ys' & Hys & [= <-]).
  intros [->|Hx]%elem_of_cons; [exists y; split; [done|left]|].
  destruct (IH _ Hys Hx) as (w & Hw & Hin). exists w. split; [done|by right].
Qed.

Section Nulls.
Context {PE : PlanEngine} {SK : StrictKernels}.
Variables (s : schema) (r : row).

Lemma eval_binary_null op x y z :
  null_propagating_op op = true -> x = None \/ y = None -> eval_binary ext_op op x y = Ok z -> z = None.
Proof using SK.
  intros Hop Hn. assert (forall o, compare_values o x y = Ok z -> z = None) as Hc.
  { unfold compare_values. intros o. destruct Hn as [-> | ->]; [|destruct x]; by intros [= <-]. }
  destruct op; cbn in Hop |- *; try done; auto;
    try (destruct Hn as [-> | ->]; [|destruct x]; by intros [= <-]).
  apply strict_op; done.
Qed.

Lemma propagates_null e c x :
  c ∈ null_propagating_cols e -> r !! c = None -> run s r e = Ok x -> x = None.
Proof using SK.
  intros Hc Hr. revert x. unfold run. induction e using expr_ind'; intros x; cbn [null_propagating_cols eval] in *;
    try (by apply not_elem_of_nil in Hc).
  - apply list_elem_of_singleton in Hc as ->. rewrite Hr. destruct (s !! c0); by intros [= <-].
  - destruct (null_propagating_op op) eqn:Hop; [|by apply not_elem_of_nil in Hc].
    intros (v & Hv & H)%res_bind_ok. apply res_bind_ok in H as (w & Hw & H).
    eapply eval_binary_null; [done| |done]. apply elem_of_app in Hc as [Hc|Hc]; eauto.
  - destruct (null_propagating_fn fn) eqn:Hfn; [|by apply not_elem_of_nil in Hc].
    intros (xs & Hxs & He)%res_bind_ok. eapply strict_fn; [done| |done].
    apply list_elem_of_In, in_concat in Hc as (cs & (a & <- & Ha)%in_map_iff & Hc).
    apply list_elem_of_In in Ha, Hc. destruct (res_mapM_elem _ _ _ _ Hxs Ha) as (y & Hy & Hin).
    rewrite Forall_forall in H. by rewrite (H a Ha Hc y Hy) in Hin.
Qed.

Lemma passes_true e : passes s e r = true -> run s r e = Ok (Some (VBool true)).
Proof. unfold passes. by destruct (run s r e) as [[[| |[]| |]|]|]. Qed.

Lemma passes_or a b : passes s (Binary Or a b) r = true -> passes s a r = true \/ passes s b r = true.
Proof.
  intros H%passes_true. unfold passes, run in *. cbn in H. apply res_bind_ok in H as (x & Hx & H).
  apply res_bind_ok in H as (y & Hy & H). rewrite Hx, Hy. cbn in H.
  destruct x as [[| |[]| |]|]; cbn in H; try done; try (by left); destruct y as [[| |[]| |]|]; cbn in H; try done; by right.
Qed.

(** A filter never keeps a row in which one of its null-rejecting columns is null. *)
Lemma rejects_null e c : c ∈ null_rejecting_cols e -> r !! c = None -> passes s e r = false.
Proof using SK.
  intros Hc Hr. apply not_true_is_false. induction e using expr_ind'; cbn [null_rejecting_cols] in Hc;
    try (by apply not_elem_of_nil in Hc).
  - assert (comparison_op op = true -> c ∈ null_propagating_cols e1 ++ null_propagating_cols e2 -> passes s (Binary op e1 e2) r <> true) as Hcmp.
    { intros Hop Hin Hp%passes_true.
      assert (Some (VBool true) = None); [|done]. apply (propagates_null (Binary op e1 e2) c); try done. cbn.
      by assert (null_propagating_op op = true) as -> by (unfold null_propagating_op; by rewrite Hop). }
    destruct op; cbn in Hc; try (by apply Hcmp); try (by apply not_elem_of_nil in Hc).
    + rewrite passes_and. intros [H1 H2]%andb_true_iff. apply elem_of_app in Hc as [Hc|Hc]; [by apply IHe1|by apply IHe2].
    + apply elem_of_filter_bool in Hc as [H1 H2%bool_decide_eq_true].
      intros [Hp|Hp]%passes_or; [by apply IHe1|by apply IHe2].
  - intros Hp%passes_true. unfold run in Hp. cbn in Hp. apply res_bind_ok in Hp as (x & Hx & [= Hs]).
    by rewrite (propagates_null e c x Hc Hr Hx) in Hs.
Qed.
End Nulls.

(** *** Joins whose null-extended rows are rejected *)

Section Strengthen.
Variables (m : row -> row -> bool) (mk : row -> row -> row) (ls rs : list row) (q : row -> bool).

Lemma filter_left_inner :
  (forall l, l ∈ ls -> q (mk l ∅) = false) -> List.filter q (left_rows m mk ls rs) = List.filter q (inner_rows m mk ls rs).
Proof.
  intros Hq. unfold left_rows, inner_rows. rewrite !filter_flat_map. apply flat_map_ext_in. intros l Hl.
  destruct (List.filter (m l) rs); cbn; [by rewrite Hq|done].
Qed.

Lemma filter_lone_right : (forall r, r ∈ rs -> q (mk ∅ r) = false) -> List.filter q (lone_right m mk ls rs) = [].
Proof.
  intros Hq. unfold lone_right. rewrite filter_map_swap, filter_filter_bool.
  rewrite (filter_ext_in _ (fun _ => false)); [by rewrite filter_false|]. intros r Hr%list_elem_of_In.
  rewrite Hq by done. apply andb_false_r.
Qed.

Lemma inner_left x : x ∈ inner_rows m mk ls rs -> x ∈ left_rows m mk ls rs.
Proof.
  unfold inner_rows, left_rows. rewrite !list_elem_of_In, !in_flat_map. intros (l & Hl & Hx). exists l. split; [done|].
  by destruct (List.filter (m l) rs).
Qed.

Lemma strengthened_rows jt rl rr :
  outer jt = true ->
  (rl = true -> forall r, r ∈ rs -> q (mk ∅ r) = false) -> (rr = true -> forall l, l ∈ ls -> q (mk l ∅) = false) ->
  List.filter q (join_rows m mk (strengthened jt rl rr) ls rs) = List.filter q (join_rows m mk jt ls rs) /\
  forall x, x ∈ join_rows m mk (strengthened jt rl rr) ls rs -> x ∈ join_rows m mk jt ls rs.
Proof.
  intros Hj Hl Hr. destruct jt; try done; cbn [strengthened].
  - destruct rr; cbn [join_rows]; [|done]. split; [symmetry; by apply filter_left_inner, Hr|apply inner_left].
  - destruct rl; cbn [join_rows]; [|done]. rewrite List.filter_app, filter_lone_right, app_nil_r by (by apply Hl).
    split; [done|]. intros x Hx. apply elem_of_app. by left.
  - destruct rl, rr; cbn [andb join_rows]; [| | |done]; split; rewrite ?List.filter_app.
    + rewrite filter_lone_right, app_nil_r, filter_left_inner by auto. done.
    + intros x Hx. apply elem_of_app. left. by apply inner_left.
    + by rewrite filter_lone_right, app_nil_r by auto.
    + intros x Hx. apply elem_of_app. by left.
    + by rewrite (filter_left_inner (Hr eq_refl)).
    + intros x [Hx|Hx]%elem_of_app; apply elem_of_app; [left; by apply inner_left|by right].
Qed.
End Strengthen.

Section OuterToInner.
Context {PE : PlanEngine}.

(** What a rewrite of one node must do: the same schema and rows, and no new error. *)
Definition same_result (p p' : plan) : Prop :=
  forall s, schema_of p = Some s ->
    schema_of p' = Some s /\ den p' = den p /\ forall l, exec p = Ok l -> exec p' = Ok l.

(** The child of an operator that drops every row [q] rejects may be replaced by one with the
    same accepted rows. *)
Definition same_accepted (q : row -> bool) (p p' : plan) : Prop :=
  forall s, schema_of p = Some s ->
    schema_of p' = Some s /\ List.filter q (den p') = List.filter q (den p) /\
    (forall x, x ∈ den p' -> x ∈ den p) /\ forall l, exec p = Ok l -> exec p' = Ok (den p').

Lemma side_alias_null out c s l r :
  NoDup (map oalias out) -> c ∈ side_aliases s out -> pick s l r = ∅ -> out_row out l r !! c = None.
Proof.
  intros Hn Hc Hp. apply list_elem_of_fmap in Hc as ([c' n] & -> & Hin).
  apply side_columns_elem in Hin as (o & Ho & <- & <- & <-). cbn.
  by rewrite (out_row_lookup out l r o Hn Ho), Hp, lookup_empty.
Qed.

Lemma meets_spec a b : meets a b = true -> exists c, c ∈ a /\ c ∈ b.
Proof.
  unfold meets. rewrite existsb_exists. intros (c & Hc & Hb%bool_decide_eq_true). exists c.
  split; [by apply list_elem_of_In|done].
Qed.

Lemma strengthen_join q rejected l r lk rk jt out st p' :
  (forall x c, c ∈ rejected -> x !! c = None -> q x = false) -> outer jt = true ->
  strengthen rejected l r lk rk jt out st = Some p' -> same_accepted q (PJoin l r lk rk jt out st) p'.
Proof.
  intros Hq Hj Hp s Hs. unfold strengthen in Hp. case_bool_decide; [done|]. injection Hp as <-.
  destruct (join_schema _ _ _ _ _ _ _ _ Hs) as (sl & sr & Hsl & Hsr & Hty).
  set (rl := meets _ _) in *. set (rr := meets rejected (side_aliases SRight out)) in *.
  destruct (strengthened_rows (matches (zip lk rk)) (out_row out) (den l) (den r) q jt rl rr Hj) as [Hf Hin].
  - intros (c & H1 & H2)%meets_spec x _. apply (Hq _ c H1). apply (side_alias_null out c SLeft); [apply Hty|done..].
  - intros (c & H1 & H2)%meets_spec x _. apply (Hq _ c H1). apply (side_alias_null out c SRight); [apply Hty|done..].
  - split_and!; [|done|done|].
    + rewrite <- Hs. cbn. rewrite Hsl, Hsr. cbn. destruct (opt_mapM _ out); cbn; [|done].
      by assert (match strengthened jt rl rr with JSemi | JAnti => forallb (fun o => bool_decide (oside o = SLeft)) out | _ => true end =
        match jt with JSemi | JAnti => forallb (fun o => bool_decide (oside o = SLeft)) out | _ => true end) as ->
        by (by destruct jt, rl, rr).
    + intros rows Hx. cbn [exec den] in *. apply res_bind_ok in Hx as (xl & Hxl & Hx).
      apply res_bind_ok in Hx as (xr & Hxr & _). rewrite Hxl. cbn. rewrite Hxr. cbn.
      by rewrite (exec_den l xl Hxl), (exec_den r xr Hxr).
Qed.

Lemma project_schema i its s :
  schema_of (PProject i its) = Some s ->
  exists si ks, schema_of i = Some si /\ opt_mapM (type_of si) (map snd its) = Some ks /\
    NoDup (map fst its) /\ s = list_to_map (zip (map fst its) ks).
Proof.
  cbn. intros Hs. destruct (schema_of i) as [si|]; [|done]. cbn in Hs.
  destruct (opt_mapM (type_of si) (map snd its)) as [ks|] eqn:Hks; [|done]. cbn in Hs.
  case_bool_decide; [|done]. injection Hs as <-. by exists si, ks.
Qed.

Lemma project_row_lookup s its x c d :
  NoDup (map fst its) -> passthrough_renames its !! c = Some d -> x !! d = None -> project_row s its x !! c = None.
Proof.
  intros Hn Hc Hx. unfold passthrough_renames in Hc. apply lookup_py_dict, list_elem_of_omap in Hc as ([a e] & Hin & He).
  cbn in He. destruct e; try done. injection He as -> ->. unfold project_row. rewrite lookup_bind_row.
  rewrite (assoc_nodup c (value_at s (Col d) x)).
  - unfold value_at, run. cbn. rewrite Hx. by destruct (s !! d).
  - by rewrite map_map.
  - apply list_elem_of_fmap. by exists (c, Col d).
Qed.

Lemma project_accepted q its j j' :
  same_accepted (fun x => q (project_row (schema' j) its x)) j j' -> same_accepted q (PProject j its) (PProject j' its).
Proof.
  intros Hj s Hs. destruct (un_typed _ (unary_project its) j s Hs) as [sj Hsj].
  destruct (Hj sj Hsj) as (H1 & H2 & H3 & H4). rewrite (schema'_eq _ _ Hsj) in H2. split_and!.
  - rewrite <- Hs. apply (un_schema _ (unary_project its)). congruence.
  - cbn [den]. rewrite (schema'_eq _ _ H1), (schema'_eq _ _ Hsj), !filter_map_swap. by rewrite H2.
  - intros x. cbn [den]. rewrite (schema'_eq _ _ H1), (schema'_eq _ _ Hsj).
    intros (y & -> & Hy)%list_elem_of_fmap. apply list_elem_of_fmap. eauto.
  - intros l Hx. cbn [exec den] in *. apply res_bind_ok in Hx as (rows & Hr & Hx).
    apply res_bind_ok in Hx as (vs & Hv & _). rewrite (H4 _ Hr). cbn [mbind res_bind].
    rewrite (schema'_eq _ _ H1). rewrite (schema'_eq _ _ Hsj) in Hv. rewrite (exec_den _ _ Hr) in H3.
    unfold evaluate in *. set (f := fun r => map (fun e => value_at sj e r) (map snd its)).
    apply (res_mapM_inv _ f) in Hv; [|intros r v; apply res_mapM_ok; intros e x Hx'; unfold value_at; by rewrite Hx'].
    rewrite (res_mapM_intro _ f); [|rewrite Forall_forall in *; auto]. cbn. f_equal. rewrite map_map. apply map_ext.
    intros x. by rewrite project_row_zip.
Qed.

Lemma strengthen_by_keys_spec q rejected child p' :
  (forall x c, c ∈ rejected -> x !! c = None -> q x = false) ->
  strengthen_by_keys child rejected = Some p' -> same_accepted q child p'.
Proof.
  intros Hq Hp. destruct child as [| |i its|l r lk rk jt out st| | | | | | |]; try done.
  - destruct i as [| | |l r lk rk jt out st| | | | | | |]; try done. cbn in Hp. destruct (outer jt) eqn:Hj; [|done].
    destruct (strengthen _ _ _ _ _ _ _ _) as [j'|] eqn:Hs; [|done]. injection Hp as <-.
    intros s Hsch. refine (project_accepted q its _ _ _ s Hsch). eapply strengthen_join; [|done..].
    intros x c (d & Hd & Hr)%list_elem_of_omap Hx. apply (Hq _ d Hd). eapply project_row_lookup; [|done..].
    by destruct (project_schema _ _ _ Hsch) as (? & ? & _ & _ & ? & _).
  - cbn in Hp. destruct (outer jt) eqn:Hj; [|done]. by eapply strengthen_join.
Qed.

(** A filter over a child with the same accepted rows. *)
Lemma filter_accepted e p p' :
  (forall s, schema_of p = Some s -> same_accepted (passes s e) p p') -> same_result (PFilter p e) (PFilter p' e).
Proof.
  intros Hp s [Hs Ht]%filter_schema. destruct (Hp s Hs s Hs) as (H1 & H2 & H3 & H4). split_and!.
  - by apply filter_schema.
  - cbn [den]. by rewrite (schema'_eq _ _ H1), (schema'_eq _ _ Hs).
  - intros l Hx. cbn [exec] in *. rewrite (schema'_eq _ _ H1). rewrite (schema'_eq _ _ Hs) in Hx.
    apply res_bind_ok in Hx as (rows & Hr & Hf). rewrite (H4 _ Hr). cbn [mbind res_bind].
    rewrite (exec_den _ _ Hr) in H2, H3. rewrite filterM_intro.
    + f_equal. rewrite H2. by apply filterM_passes.
    + apply filterM_inv in Hf. rewrite Forall_forall in *. auto.
Qed.

Section MatchedOnly.
Variables (m : row -> row -> bool) (mk : row -> row -> row) (q : row -> bool).

Lemma matched_left jt ls rs :
  jt = JInner \/ jt = JSemi -> (forall l r, m l r = true -> q l = true) ->
  join_rows m mk jt (List.filter q ls) rs = join_rows m mk jt ls rs.
Proof.
  intros Hj Hq. assert (forall l, q l = false -> List.filter (m l) rs = [] /\ existsb (m l) rs = false) as Hn.
  { intros l Hl. assert (forall r, m l r = false) as Hm by (intros r; destruct (m l r) eqn:E; [apply Hq in E; congruence|done]).
    split; [rewrite (filter_ext _ _ Hm); apply filter_false|]. induction rs; cbn; [done|]. by rewrite Hm. }
  destruct Hj as [-> | ->]; cbn [join_rows].
  - unfold inner_rows. rewrite flat_map_filter. apply flat_map_ext_in. intros l _. destruct (q l) eqn:E; [done|].
    by rewrite (proj1 (Hn l E)).
  - f_equal. rewrite filter_filter_bool. apply filter_ext. intros l. destruct (q l) eqn:E; [done|]. by rewrite (proj2 (Hn l E)).
Qed.

Lemma matched_right jt ls rs :
  jt = JInner \/ jt = JSemi -> (forall l r, m l r = true -> q r = true) ->
  join_rows m mk jt ls (List.filter q rs) = join_rows m mk jt ls rs.
Proof.
  intros Hj Hq. assert (forall l, List.filter (m l) (List.filter q rs) = List.filter (m l) rs) as Hn.
  { intros l. rewrite filter_filter_bool. apply filter_ext. intros r. specialize (Hq l r). destruct (m l r), (q r); auto. }
  destruct Hj as [-> | ->]; cbn [join_rows].
  - unfold inner_rows. apply flat_map_ext_in. intros l _. by rewrite Hn.
  - f_equal. apply filter_ext. intros l. apply eq_true_iff_eq. rewrite !existsb_exists.
    split; intros (r & Hr & Hm); exists r; rewrite filter_In in *; naive_solver.
Qed.
End MatchedOnly.

Definition has_keys (keys : list string) (x : row) : bool := forallb (fun k => bool_decide (is_Some (x !! k))) keys.

Lemma has_keys_null keys x c : c ∈ keys -> x !! c = None -> has_keys keys x = false.
Proof.
  intros Hc Hx. apply not_true_is_false. unfold has_keys. rewrite forallb_forall. intros H.
  apply list_elem_of_In, H in Hc. rewrite Hx in Hc. by apply bool_decide_eq_true in Hc as [? ?].
Qed.

Lemma matches_has_keys lk rk l r :
  length lk = length rk -> matches (zip lk rk) l r = true -> has_keys lk l = true /\ has_keys rk r = true.
Proof.
  unfold has_keys. revert rk. induction lk as [|a lk IH]; intros [|b rk]; cbn; try done. intros Hl [Hk Hm]%andb_true_iff.
  destruct (IH rk ltac:(lia) Hm) as [-> ->]. unfold key_eq in Hk. by destruct (l !! a), (r !! b).
Qed.

(** [default child (strengthen_by_keys child keys)] has the same rows with all keys set. *)
Lemma strengthened_child keys child :
  same_accepted (has_keys keys) child (default child (strengthen_by_keys child keys)).
Proof.
  destruct (strengthen_by_keys child keys) as [p'|] eqn:E.
  - eapply strengthen_by_keys_spec; [|done]. intros. by eapply has_keys_null.
  - intros s Hs. split_and!; [done..|]. intros l Hl. cbn. rewrite Hl. f_equal. symmetry. by apply exec_den.
Qed.

Lemma join_accepted jt l r l' r' lk rk out st :
  jt = JInner \/ jt = JSemi -> same_accepted (has_keys lk) l l' -> same_accepted (has_keys rk) r r' ->
  same_result (PJoin l r lk rk jt out st) (PJoin l' r' lk rk jt out st).
Proof.
  intros Hj Hl Hr s Hs. destruct (join_schema _ _ _ _ _ _ _ _ Hs) as (sl & sr & Hsl & Hsr & Hty).
  destruct (Hl sl Hsl) as (L1 & L2 & _ & L4). destruct (Hr sr Hsr) as (R1 & R2 & _ & R4).
  pose proof (fun x y => matches_has_keys lk rk x y (jty_len _ _ _ _ _ _ _ Hty)) as Hk.
  set (rows := join_rows (matches (zip lk rk)) (out_row out) jt).
  assert (rows (den l') (den r') = rows (den l) (den r)) as Hd.
  { unfold rows. rewrite <- (matched_left _ _ (has_keys lk) jt (den l')), <- (matched_right _ _ (has_keys rk) jt _ (den r')), L2, R2
      by (done || by intros ?? [??]%Hk). by rewrite matched_right, matched_left by (done || by intros ?? [??]%Hk). }
  split_and!.
  - rewrite <- Hs. cbn. by rewrite L1, R1, Hsl, Hsr.
  - done.
  - intros x Hx. cbn [exec] in *. apply res_bind_ok in Hx as (xl & Hxl & Hx). apply res_bind_ok in Hx as (xr & Hxr & [= <-]).
    rewrite (L4 _ Hxl). cbn. rewrite (R4 _ Hxr). cbn. f_equal.
    change (rows (den l') (den r') = rows xl xr). by rewrite Hd, (exec_den _ _ Hxl), (exec_den _ _ Hxr).
Qed.

Lemma outer_to_inner_join_child node p' :
  outer_to_inner_join node = Some p' ->
  exists child e j', node = PFilter child e /\ p' = PFilter j' e /\
    strengthen_by_keys child (null_rejecting_cols e) = Some j'.
Proof.
  unfold outer_to_inner_join, strengthen_by_keys. intros Hp. destruct node as [|i e| | | | | | | | |]; try done.
  exists i, e. destruct i as [| |i its|l r lk rk jt out st| | | | | | |]; try done.
  - destruct i as [| | |l r lk rk jt out st| | | | | | |]; try done. destruct (outer jt); [|done].
    destruct (null_rejecting_cols e) as [|c cs]; [done|].
    destruct (renamed (passthrough_renames its) (c :: cs)) as [|d ds]; [done|].
    destruct (strengthen _ _ _ _ _ _ _ _) as [j'|]; [|done]. injection Hp as <-. by eexists.
  - destruct (outer jt); [|done]. destruct (null_rejecting_cols e) as [|c cs]; [done|].
    destruct (strengthen _ _ _ _ _ _ _ _) as [j'|]; [|done]. injection Hp as <-. by eexists.
Qed.

(** C31: strengthening an outer join is exact.  A filter with a null-rejecting column of the
    null-supplied side, or an inner or semi join keyed on one, drops every row the outer join
    null-extends on that side; so turning LEFT, RIGHT or FULL into the type [_strengthened]
    picks, directly or below a projection, keeps the schema and the rows, and the new plan
    returns whenever the old one does. *)
Theorem outer_join_strengthening_exact {SK : StrictKernels} node p' :
  outer_to_inner_join node = Some p' \/ outer_to_inner_under_join node = Some p' -> same_result node p'.
Proof.
  intros [Hp|Hp].
  - destruct (outer_to_inner_join_child _ _ Hp) as (child & e & j' & -> & -> & Hj). apply filter_accepted.
    intros s _. eapply strengthen_by_keys_spec; [|done]. intros x c Hc Hx. by apply (rejects_null s x e c).
  - unfold outer_to_inner_under_join in Hp. destruct node as [| | |l r lk rk jt out st| | | | | | |]; try done.
    assert ((jt = JInner \/ jt = JSemi) /\
      p' = PJoin (default l (strengthen_by_keys l lk)) (default r (strengthen_by_keys r rk)) lk rk jt out st) as [Hj ->].
    { destruct jt; try done; (split; [auto|]); destruct (strengthen_by_keys l lk), (strengthen_by_keys r rk); congruence. }
    apply join_accepted; [done|apply strengthened_child..].
Qed.
End OuterToInner.

(** The FULL join as [Dataset.join] builds it: below a projection that coalesces the keys. *)
Definition full_join : plan :=
  PProject (PJoin left_table right_table ["k"] ["k"] JFull both_keys Hash)
    [("k", Coalesce [Col "k"; Col "k_right"]); ("v", Col "v"); ("w", Col "w")].

Lemma outer_join_strengthening_exact_witness :
  exists p', outer_to_inner_join (PFilter full_join (Binary CGt (Col "w") (Lit (VInt 7)))) = Some p' /\
    @exec (toy_plans two_tables) p' =
      Ok [{["k" := VInt 2; "v" := VInt 20; "w" := VInt 8]}; {["k" := VInt 3; "w" := VInt 9]}].
Proof.
  eexists. split; [vm_compute; reflexivity|].
  refine (proj2 (proj2 (@outer_join_strengthening_exact (toy_plans two_tables) _
    (PFilter full_join (Binary CGt (Col "w") (Lit (VInt 7)))) _ (or_introl _)
    {["k" := KInt; "v" := KInt; "w" := KInt]} _)) _ _); vm_compute; reflexivity.
Defined.
