(* ===== verification/PlanSemi.v ===== *)
(** * Joins used as membership tests

    kyber/rules/joins/rewrites.py: [drop_redundant_distinct_build], [join_to_semijoin] and
    [left_join_null_key_to_antijoin]. *)

From Stdlib Require Import Floats.SpecFloat.
From S2P Require Import Prelude ExprIR ExprSound ExprAlgebra PlanIR PlanSound PlanPushdown PlanLocal PlanJoins.

(** ** The rules *)

Definition drop_redundant_distinct_build (node : plan) : option plan :=
  match node with
  | PJoin l (PDistinct i [] _ _) lk rk jt out st =>
      match jt with JSemi | JAnti => Some (PJoin l i lk rk jt out st) | _ => None end
  | _ => None
  end.

(** The output columns of one side. *)
Definition of_side (s : side) (out : list join_output_col) : list join_output_col :=
  List.filter (fun o => bool_decide (o.(oside) = s)) out.

Definition item_columns (its : list (string * expr)) : list string := concat (map (fun it => referenced_columns it.2) its).

Definition join_to_semijoin (node : plan) : option plan :=
  match node with
  | PDistinct (PProject (PJoin l r lk rk JInner out st) its) [] o n =>
      let used := item_columns its in
      if meets used (side_aliases SRight out) || negb (covers (side_aliases SLeft out) used) then None
      else Some (PDistinct (PProject (PJoin l r lk rk JSemi (of_side SLeft out) st) its) [] o n)
  | _ => None
  end.

(** The projections between a filter and its join, outermost first, when each one only passes
    columns through; and what is below them. *)
Fixpoint pass_through_chain (p : plan) : option (list (list (string * expr)) * plan) :=
  match p with
  | PProject i its =>
      if (size (passthrough_renames its) =? length its)%nat
      then cj ← pass_through_chain i; Some (its :: cj.1, cj.2) else None
  | _ => Some ([], p)
  end.

(** [at_join]: a name at the top of the chain, translated to the join's output alias. *)
Definition at_join (chain : list (list (string * expr))) (name : string) : option string :=
  foldl (fun c its => d ← c; passthrough_renames its !! d) (Some name) chain.

(** [is_right_key]. *)
Definition is_right_key (right_by_alias right_copies : gmap string string) (right_keys : list string)
    (name : option string) : bool :=
  let source := right_by_alias !! default "" name in
  match source with Some s => bool_decide (s ∈ right_keys) | None => false end
  || match right_copies !! default "" source with Some s => bool_decide (s ∈ right_keys) | None => false end.

(** [_consumer_columns]. *)
Definition consumer_columns (node : plan) : list string :=
  match node with
  | PProject _ its => item_columns its
  | PAggregate _ gks ags _ =>
      item_columns gks ++ concat (map (fun a => concat (map referenced_columns a.(agg_operands))) ags)
  | _ => []
  end.

(** The walked projections over [p], bottom-up, without the columns that no longer exist. *)
Fixpoint rebuild_chain (p : plan) (surviving : list string) (chain : list (list (string * expr)))
    : option (plan * list string) :=
  match chain with
  | [] => Some (p, surviving)
  | its :: chain' =>
      '(q, below) ← rebuild_chain p surviving chain';
      let kept := List.filter (fun it => match passthrough_renames its !! it.1 with
                                         | Some d => bool_decide (d ∈ below) | None => false end) its in
      match kept with [] => None | _ => Some (PProject q kept, map fst kept) end
  end.

(** The node above the filter, if it is one the rule matches, and how to put it over a new input. *)
Definition consumer (node : plan) : option (plan * (plan -> plan)) :=
  match node with
  | PProject i its => Some (i, fun i' => PProject i' its)
  | PAggregate i gks ags w => Some (i, fun i' => PAggregate i' gks ags w)
  | _ => None
  end.

Definition left_join_null_key_to_antijoin (node : plan) : res (option plan) :=
  match consumer node with
  | Some (PFilter i e, rebuild) =>
      match pass_through_chain i with
      | Some (chain, PJoin l r lk rk JLeft out st) =>
          let right_by_alias := py_dict (side_columns SRight out) in
          let right_copies := match r with PProject _ its => passthrough_renames its | _ => ∅ end in
          let is_unmatched c :=
            match c with IsNull (Col n) => is_right_key right_by_alias right_copies rk (at_join chain n) | _ => false end in
          let conjuncts := split_conjuncts e in
          let remaining := List.filter (fun c => negb (is_unmatched c)) conjuncts in
          let used := consumer_columns node ++ concat (map referenced_columns remaining) in
          if negb (existsb is_unmatched conjuncts) then Ok None
          else if existsb (fun n => negb (bool_decide (default "" (at_join chain n) ∈ side_aliases SLeft out))) used
          then Ok None
          else match rebuild_chain (PJoin l r lk rk JAnti (of_side SLeft out) st) (side_aliases SLeft out) chain with
               | None => Ok None
               | Some (rebuilt, _) => let* q := wrap_filter rebuilt remaining in Ok (Some (rebuild q))
               end
      | _ => Ok None
      end
  | _ => Ok None
  end.

(** ** Deduplication *)

Section Dedup.
Context {A B : Type} `{EqDecision B} (f : A -> B).

Lemma existsb_filter (p q : A -> bool) l : existsb p (List.filter q l) = existsb (fun x => q x && p x) l.
Proof. induction l as [|x l IH]; cbn; [done|]. destruct (q x); cbn; by rewrite IH. Qed.

(** A test that cannot tell duplicates apart. *)
Lemma existsb_dedup (p : A -> bool) l :
  (forall x y, f x = f y -> p x = p y) -> existsb p (dedup_by f l) = existsb p l.
Proof.
  intros Hp. induction l as [|x l IH]; cbn; [done|]. rewrite <- IH, existsb_filter.
  destruct (p x) eqn:Hx; cbn; [done|]. generalize (dedup_by f l). intros l0. induction l0 as [|y l0 IHl]; cbn; [done|].
  rewrite IHl. case_bool_decide as E; cbn; [by rewrite (Hp _ _ E), Hx|done].
Qed.

Definition fresh_for (l1 : list A) (y : A) : bool := negb (existsb (fun x => bool_decide (f y = f x)) l1).

Lemma dedup_app l1 l2 : dedup_by f (l1 ++ l2) = dedup_by f l1 ++ List.filter (fresh_for l1) (dedup_by f l2).
Proof.
  induction l1 as [|x l1 IH]; cbn; [by rewrite filter_true|]. f_equal. rewrite IH, List.filter_app, !filter_filter_bool. f_equal.
  apply filter_ext. intros y. unfold fresh_for. cbn. by destruct (bool_decide (f y = f x)), (existsb _ l1).
Qed.

Lemma dedup_repeat {C} (x : A) (cs : list C) : dedup_by f (map (fun _ => x) cs) = match cs with [] => [] | _ => [x] end.
Proof.
  induction cs as [|c cs IH]; cbn; [done|]. rewrite IH. destruct cs; cbn; [done|]. by rewrite bool_decide_true.
Qed.

(** Repeating each element is invisible; so is how often. *)
Lemma dedup_fan_out {C D} (g : C -> A) (F : C -> list D) l :
  dedup_by f (flat_map (fun c => map (fun _ => g c) (F c)) l) =
  dedup_by f (map g (List.filter (fun c => match F c with [] => false | _ => true end) l)).
Proof.
  induction l as [|c l IH]; cbn; [done|]. rewrite dedup_app, IH, dedup_repeat. destruct (F c) as [|d ds]; cbn; [by rewrite filter_true|].
  f_equal. apply filter_ext. intros y. unfold fresh_for. cbn. case_bool_decide; cbn; [done|].
  induction ds as [|d' ds IHd]; cbn; [done|]. by rewrite bool_decide_false.
Qed.
End Dedup.

Section Membership.
Context {PE : PlanEngine}.

Lemma matches_canon ks (l r r' : row) : canon_row r = canon_row r' -> matches ks l r = matches ks l r'.
Proof.
  intros E. unfold matches. induction ks as [|k ks IH]; cbn; [done|]. rewrite IH. f_equal.
  assert (canon <$> r !! k.2 = canon <$> r' !! k.2) as Hk by (unfold canon_row in E; by rewrite <- !lookup_fmap, E).
  unfold key_eq. destruct (l !! k.1), (r !! k.2), (r' !! k.2); cbn in Hk; try done. by injection Hk as ->.
Qed.

(** The build side's dedup has no row cap of its own. *)
Definition uncapped_build (node : plan) : bool :=
  match node with PJoin _ (PDistinct _ _ _ (Some _)) _ _ _ _ _ => false | _ => true end.

Lemma drop_distinct_build_exact node p' :
  drop_redundant_distinct_build node = Some p' -> uncapped_build node = true -> same_result node p'.
Proof.
  intros Hp Hu. destruct node as [| | |l r lk rk jt out st| | | | | | |]; try done.
  destruct r as [| | | | | | |i ks o n| | |]; try done. destruct ks; [|done]. cbn in Hu. destruct n; [done|].
  assert ((jt = JSemi \/ jt = JAnti) /\ p' = PJoin l i lk rk jt out st) as [Hj ->] by (destruct jt; naive_solver).
  assert (forall L R, join_rows (matches (zip lk rk)) (out_row out) jt L (dedup_by canon_row R) =
    join_rows (matches (zip lk rk)) (out_row out) jt L R) as Hrows.
  { intros L R. destruct Hj as [-> | ->]; cbn; f_equal; apply filter_ext; intros x; [|f_equal];
      apply existsb_dedup; intros ??; apply matches_canon. }
  intros s Hs. split_and!.
  - rewrite <- Hs. cbn. destruct (schema_of l); [|done]. cbn. destruct (schema_of i) as [si|] eqn:E; [|done]. cbn.
    cbn in Hs. rewrite E in Hs. cbn in Hs. destruct (schema_of l); [|done]. cbn in Hs. destruct (all_typed si _); done.
  - cbn. by rewrite Hrows.
  - intros rows Hx. cbn in *. apply res_bind_ok in Hx as (xl & Hxl & Hx). apply res_bind_ok in Hx as (xr & Hxr & [= <-]).
    apply res_bind_ok in Hxr as (xi & Hxi & [= <-]). rewrite Hxl. cbn. rewrite Hxi. cbn. by rewrite Hrows.
Qed.

Lemma opt_mapM_filter {A B} (f : A -> option B) q l ys :
  opt_mapM f l = Some ys -> exists ys', opt_mapM f (List.filter q l) = Some ys'.
Proof.
  revert ys. induction l as [|x l IH]; cbn; intros ys; [by eauto|]. destruct (f x) as [y|] eqn:Hx; [|done]. cbn.
  destruct (opt_mapM f l) as [zs|]; [|done]. intros _. destruct (IH zs eq_refl) as [ys' Hys].
  destruct (q x); cbn; rewrite ?Hx; cbn; rewrite Hys; by eexists.
Qed.

Lemma elem_of_side s out o : o ∈ of_side s out <-> o ∈ out /\ o.(oside) = s.
Proof. unfold of_side. rewrite elem_of_filter_bool, bool_decide_eq_true. done. Qed.

Lemma side_aliases_elem s out c : c ∈ side_aliases s out <-> exists o, o ∈ out /\ o.(oside) = s /\ o.(oalias) = c.
Proof.
  unfold side_aliases. rewrite list_elem_of_fmap. split.
  - intros ([c' n] & -> & (o & Ho & Hs & <- & <-)%side_columns_elem). eauto.
  - intros (o & Ho & Hs & <-). exists (oalias o, oname o). split; [done|]. apply side_columns_elem. eauto.
Qed.

Lemma NoDup_of_side s out : NoDup (map oalias out) -> NoDup (map oalias (of_side s out)).
Proof.
  intros H. induction out as [|o out IH]; cbn; [done|]. cbn in H. apply NoDup_cons in H as [Ho Hn].
  case_bool_decide; cbn; [|auto]. constructor; [|auto]. contradict Ho.
  apply list_elem_of_fmap in Ho as (o' & -> & [Hin _]%elem_of_side). apply list_elem_of_fmap. eauto.
Qed.

(** A join restricted to its left columns is typed, and they keep their types. *)
Lemma left_only_schema l r lk rk jt jt' out st s :
  schema_of (PJoin l r lk rk jt out st) = Some s ->
  exists s', schema_of (PJoin l r lk rk jt' (of_side SLeft out) st) = Some s' /\
    forall c, c ∈ side_aliases SLeft out -> s' !! c = s !! c /\ is_Some (s !! c).
Proof.
  intros Hs. destruct (join_schema _ _ _ _ _ _ _ _ Hs) as (sl & sr & Hsl & Hsr & Hty).
  assert (exists s', schema_of (PJoin l r lk rk jt' (of_side SLeft out) st) = Some s') as [s' Hs'].
  { cbn in *. rewrite Hsl, Hsr in *. cbn in *. destruct (opt_mapM (out_kind sl sr) out) as [cs|] eqn:Hcs; [|done]. cbn in Hs.
    destruct (opt_mapM_filter _ (fun o => bool_decide (oside o = SLeft)) _ _ Hcs) as [cs' Hcs'].
    unfold of_side. rewrite Hcs'. cbn. destruct (_ && _ && _ && _) eqn:Hb in Hs; [|done]. bsplit. rewrite H, H2. cbn.
    rewrite bool_decide_true.
    - assert (forallb (fun o => bool_decide (oside o = SLeft)) (List.filter (fun o => bool_decide (oside o = SLeft)) out) = true) as ->.
      { apply forallb_forall. by intros o [_ ?]%filter_In. }
      destruct jt'; by eexists.
    - by apply NoDup_of_side. }
  exists s'. split; [done|]. destruct (join_schema _ _ _ _ _ _ _ _ Hs') as (sl' & sr' & Hsl' & Hsr' & Hty'). simplify_eq.
  intros c (o & Ho & Hos & <-)%side_aliases_elem.
  destruct (jty_out _ _ _ _ _ _ _ Hty o Ho) as [Hi ->].
  destruct (jty_out _ _ _ _ _ _ _ Hty' o) as [_ ->]; [by apply elem_of_side|]. rewrite Hos in *. split; [done|].
  destruct (jty_out _ _ _ _ _ _ _ Hty o Ho) as [Hi' E]. by rewrite E, Hos in Hi'.
Qed.

(** The left columns of an output row do not see the right row. *)
Lemma left_only_row l r r' out c :
  NoDup (map oalias out) -> c ∈ side_aliases SLeft out -> out_row (of_side SLeft out) l r' !! c = out_row out l r !! c.
Proof.
  intros Hn (o & Ho & Hs & <-)%side_aliases_elem. rewrite (out_row_lookup out l r o Hn Ho).
  rewrite (out_row_lookup (of_side SLeft out) l r' o), Hs; [done|by apply NoDup_of_side|by apply elem_of_side].
Qed.

(** Projecting columns two inputs agree on. *)
Lemma item_refs its it c : it ∈ its -> c ∈ referenced_columns it.2 -> c ∈ item_columns its.
Proof. intros Hi Hc. by eapply (refs_concat (fun it => referenced_columns it.2)). Qed.

Lemma project_agree_schema i i' its s si si' :
  schema_of (PProject i its) = Some s -> schema_of i = Some si -> schema_of i' = Some si' ->
  (forall c, c ∈ item_columns its -> si' !! c = si !! c) -> schema_of (PProject i' its) = Some s.
Proof.
  intros Hs Hi Hi' Hc. rewrite <- Hs. cbn. rewrite Hi, Hi'. cbn.
  rewrite (opt_mapM_ext (type_of si') (type_of si)); [done|]. rewrite Forall_forall.
  intros e (it & -> & Hit)%list_elem_of_fmap. apply kind_agree. intros c ?. by eapply Hc, item_refs.
Qed.

Lemma item_run_agree (si si' : schema) its x x' it :
  (forall c, c ∈ item_columns its -> si' !! c = si !! c /\ x' !! c = x !! c) -> it ∈ its ->
  run si' x' it.2 = run si x it.2.
Proof. intros Hc Hit. apply run_agree. intros c ?. by eapply Hc, item_refs. Qed.

Lemma project_agree_row (si si' : schema) its x x' :
  (forall c, c ∈ item_columns its -> si' !! c = si !! c /\ x' !! c = x !! c) ->
  project_row si' its x' = project_row si its x.
Proof.
  intros Hc. unfold project_row. f_equal. apply map_ext_in. intros it Hit%list_elem_of_In. f_equal.
  unfold value_at. by rewrite (item_run_agree si si' its x x').
Qed.

Lemma map_flat_map {A B C} (g : B -> C) (f : A -> list B) l : map g (flat_map f l) = flat_map (fun x => map g (f x)) l.
Proof. induction l as [|x l IH]; cbn; [done|]. by rewrite map_app, IH. Qed.

Lemma existsb_filter_nil {A} (p : A -> bool) l : existsb p l = match List.filter p l with [] => false | _ => true end.
Proof. induction l as [|x l IH]; cbn; [done|]. by destruct (p x). Qed.

(** Evaluating a projection over rows that agree with rows it was evaluated over. *)
Lemma evaluate_agree (si si' : schema) its rows rows' vs :
  evaluate si (map snd its) rows = Ok vs ->
  (forall x', x' ∈ rows' -> exists x, x ∈ rows /\
     forall c, c ∈ item_columns its -> si' !! c = si !! c /\ x' !! c = x !! c) ->
  evaluate si' (map snd its) rows' = Ok (map (fun x => map (fun e => value_at si' e x) (map snd its)) rows').
Proof.
  intros Hv Hx. unfold evaluate. apply res_mapM_intro. rewrite Forall_forall. intros x' Hx'.
  destruct (Hx x' Hx') as (x & Hin & Hag). apply res_mapM_intro. rewrite Forall_forall.
  intros e (it & -> & Hit)%list_elem_of_fmap.
  pose proof (item_run_agree si si' its x x' it Hag Hit) as Hrun. unfold value_at. rewrite Hrun.
  rewrite (evaluate_runs si (map snd its) rows vs x it.2 Hv Hin); [done|]. apply list_elem_of_fmap. eauto.
Qed.

Lemma project_exec i its s rows vs :
  schema_of i = Some s -> exec i = Ok rows -> evaluate s (map snd its) rows = Ok vs ->
  exec (PProject i its) = Ok (map (project_row s its) rows).
Proof.
  intros Hs Hr Hv. cbn [exec]. rewrite Hr. cbn. rewrite (schema'_eq _ _ Hs), Hv. cbn. f_equal.
  rewrite <- (evaluate_values _ _ _ _ Hv), map_map. apply map_ext. intros x. by rewrite project_row_zip.
Qed.

Lemma project_exec_inv i its s l :
  schema_of i = Some s -> exec (PProject i its) = Ok l ->
  exists rows vs, exec i = Ok rows /\ evaluate s (map snd its) rows = Ok vs /\ l = map (project_row s its) rows.
Proof.
  intros Hs Hx. pose proof Hx as Hx'. cbn [exec] in Hx. apply res_bind_ok in Hx as (rows & Hr & Hx).
  rewrite (schema'_eq _ _ Hs) in Hx. apply res_bind_ok in Hx as (vs & Hv & _). exists rows, vs. split_and!; [done..|].
  pose proof (project_exec _ _ _ _ _ Hs Hr Hv). congruence.
Qed.

Section FanOut.
Variables (s s' : schema) (lk rk : list string) (out : list join_output_col) (its : list (string * expr)) (L R : list row).
Hypothesis Hn : NoDup (map oalias out).
Hypothesis Hused : forall c, c ∈ item_columns its -> c ∈ side_aliases SLeft out.
Hypothesis Hs' : forall c, c ∈ side_aliases SLeft out -> s' !! c = s !! c.
Abbreviation inner := (join_rows (matches (zip lk rk)) (out_row out) JInner L R).
Abbreviation semi := (join_rows (matches (zip lk rk)) (out_row (of_side SLeft out)) JSemi L R).

Lemma semi_agree l r c : c ∈ item_columns its -> s' !! c = s !! c /\ out_row (of_side SLeft out) l ∅ !! c = out_row out l r !! c.
Proof using Hn Hused Hs'. intros Hc%Hused. split; [by apply Hs'|by apply left_only_row]. Qed.

Lemma semi_elem x' : x' ∈ semi -> exists x, x ∈ inner /\ forall c, c ∈ item_columns its -> s' !! c = s !! c /\ x' !! c = x !! c.
Proof using Hn Hused Hs'.
  intros (l & -> & Hl)%list_elem_of_fmap. apply elem_of_filter_bool in Hl as [Hl Hm].
  apply existsb_exists in Hm as (r & Hr & Hm). exists (out_row out l r). split.
  - apply list_elem_of_In, in_flat_map. exists l. split; [by apply list_elem_of_In|]. apply in_map, filter_In. done.
  - intros c. apply semi_agree.
Qed.

Lemma semi_dedup : dedup_by canon_row (map (project_row s' its) semi) = dedup_by canon_row (map (project_row s its) inner).
Proof using Hn Hused Hs'.
  cbn [join_rows]. unfold inner_rows. rewrite map_flat_map, map_map.
  set (f := fun l => project_row s' its (out_row (of_side SLeft out) l ∅)).
  rewrite (flat_map_ext_in _ (fun l => map (fun _ => f l) (List.filter (matches (zip lk rk) l) R))).
  - rewrite dedup_fan_out. do 2 f_equal. apply filter_ext. intros l. apply existsb_filter_nil.
  - intros l _. rewrite map_map. apply map_ext. intros r. symmetry. apply project_agree_row. intros c. apply semi_agree.
Qed.
End FanOut.

Lemma join_to_semijoin_exact node p' : join_to_semijoin node = Some p' -> same_result node p'.
Proof.
  intros Hp s Hs. destruct node as [| | | | | | |j ks o n| | |]; try done. destruct j as [| |j its| | | | | | | |]; try done.
  destruct j as [| | |l r lk rk jt out st| | | | | | |]; try done. destruct jt, ks; try done. cbn [join_to_semijoin] in Hp.
  destruct (meets _ _ || _) eqn:Hb; [done|]. injection Hp as <-. apply orb_false_iff in Hb as [_ Hcov%negb_false_iff].
  pose proof (proj1 (covers_spec _ _) Hcov) as Hused.
  destruct (un_typed _ (unary_distinct [] o n) _ _ Hs) as [sp Hsp]. destruct (un_typed _ (unary_project its) _ _ Hsp) as [sj Hsj].
  destruct (left_only_schema _ _ _ _ _ JSemi _ _ _ Hsj) as (sj' & Hsj' & Hag).
  destruct (join_schema _ _ _ _ _ _ _ _ Hsj) as (sl & sr & Hsl & Hsr & Hty).
  assert (forall c, c ∈ side_aliases SLeft out -> sj' !! c = sj !! c) as Hs' by (intros c Hc; by apply Hag).
  pose proof (semi_dedup sj sj' lk rk out its (den l) (den r) (jty_nodup _ _ _ _ _ _ _ Hty) Hused Hs') as Hd.
  set (i := PProject (PJoin l r lk rk JInner out st) its) in *.
  set (i' := PProject (PJoin l r lk rk JSemi (of_side SLeft out) st) its).
  assert (schema_of i' = Some sp) as Hsp' by (eapply project_agree_schema; eauto).
  split_and!.
  - rewrite <- Hs. apply (un_schema _ (unary_distinct [] o n)). congruence.
  - cbn [den i i']. rewrite (schema'_eq _ _ Hsj), (schema'_eq _ _ Hsj'). by rewrite <- Hd.
  - intros rows Hx. cbn [exec] in Hx. apply res_bind_ok in Hx as (ps & Hx & [= <-]).
    destruct (project_exec_inv _ _ _ _ Hsj Hx) as (xj & vs & Hj & Hv & ->).
    assert (exec (PJoin l r lk rk JSemi (of_side SLeft out) st) = Ok (den (PJoin l r lk rk JSemi (of_side SLeft out) st))) as Hj'.
    { cbn [exec den] in *. apply res_bind_ok in Hj as (xl & Hxl & Hj). apply res_bind_ok in Hj as (xr & Hxr & _).
      rewrite Hxl. cbn [mbind res_bind]. rewrite Hxr. cbn [mbind res_bind]. by rewrite (exec_den _ _ Hxl), (exec_den _ _ Hxr). }
    rewrite <- (exec_den _ _ Hj) in Hv |- *.
    pose proof (evaluate_agree sj sj' its _ _ vs Hv
      (semi_elem sj sj' lk rk out its (den l) (den r) (jty_nodup _ _ _ _ _ _ _ Hty) Hused Hs')) as Hv'.
    cbn [exec]. pose proof (project_exec _ its _ _ _ Hsj' Hj' Hv') as Hi'. fold i' in Hi'. cbn [exec] in Hi'. fold i'.
    cbn [exec i'] in *. rewrite Hi'. cbn [mbind res_bind]. cbn [den]. by rewrite Hd.
Qed.

(** a join that only tests membership may be one.  Dropping the uncapped whole-row dedup of
    a semi or anti join's build side, and turning an inner join under a deduplicated projection
    of left columns into a semi join, keep the schema and the rows in order, cap included, and
    the new plan returns whenever the old one does. *)
Theorem membership_join_exact node p' :
  (drop_redundant_distinct_build node = Some p' /\ uncapped_build node = true) \/ join_to_semijoin node = Some p' ->
  same_result node p'.
Proof. intros [[Hp Hu]|Hp]; [by apply drop_distinct_build_exact|by apply join_to_semijoin_exact]. Qed.
End Membership.

(** [left.join(right, on="k").select("v").distinct()]. *)
Definition distinct_left : plan :=
  PDistinct (PProject (PJoin left_table right_table ["k"] ["k"] JInner coalesced Hash) [("v", Col "v")]) [] [] (Some 5%nat).

Lemma membership_join_exact_witness :
  exists p', join_to_semijoin distinct_left = Some p' /\ @exec (toy_plans two_tables) p' = Ok [{["v" := VInt 20]}].
Proof.
  eexists. split; [vm_compute; reflexivity|].
  refine (proj2 (proj2 (@membership_join_exact (toy_plans two_tables) distinct_left _ (or_intror _) {["v" := KInt]} _)) _ _);
    vm_compute; reflexivity.
Defined.

(** The right side renames [x] to the join key [k] and passes its own column [k], nullable, as
    the payload [p]. *)
Definition renamed_right : plan :=
  PProject (PScan 1 [("x", KInt); ("k", KInt)]) [("k", Col "x"); ("p", Col "k")].

Definition payload_null : plan :=
  PProject
    (PFilter (PJoin (PScan 0 [("k", KInt)]) renamed_right ["k"] ["k"] JLeft
                [JoinOutputCol SLeft "k" "k"; JoinOutputCol SRight "p" "p"] Hash)
       (IsNull (Col "p")))
    [("k", Col "k")].

Definition payload_tables (n : nat) : list row :=
  match n with O => [{["k" := VInt 1]}; {["k" := VInt 2]}] | _ => [{["x" := VInt 1]}] end.

(** the anti-join rewrite mistakes a payload for a key.  It looks up what the right
    projection copies each column from, a name below the projection, among the join keys,
    which are names above it; with [k] renamed from [x] and [p] from [k], [p IS NULL] passes
    for a test of the key.  The matched row, whose payload is null, is lost. *)
Theorem antijoin_rewrite_loses_rows :
  @exec (toy_plans payload_tables) payload_null = Ok [{["k" := VInt 1]}; {["k" := VInt 2]}] /\
  (let* p := left_join_null_key_to_antijoin payload_null in
   match p with Some p => @exec (toy_plans payload_tables) p | None => Raise "unchanged" end) = Ok [{["k" := VInt 2]}].
Proof. split; vm_compute; reflexivity. Qed.
