(* ===== verification/PlanUnique.v ===== *)
(** * Left joins to a unique, unread right side

    kyber/rules/joins/rewrites.py: [eliminate_left_join] and the proof of uniqueness it asks
    for, [_right_unique_on_keys]. *)

From Stdlib Require Import Floats.SpecFloat.
From S2P Require Import Prelude ExprIR ExprSound ExprAlgebra PlanIR PlanSound PlanPushdown PlanLocal PlanJoins PlanSemi.

(** ** The rule *)

(** What the estimator says of a relation's row count and of one column's distinct count. *)
Record key_stats := KeyStats { rows_exact : bool; stat_rows : Z; ndv_is_exact : bool; ndv : option Z }.

Section Rule.
Context {PE : PlanEngine}.
Variable estimate : plan -> string -> key_stats.

Definition proven_by_stats (right : plan) (k : string) : bool :=
  let st := estimate right k in
  st.(rows_exact) && st.(ndv_is_exact) && match st.(ndv) with Some n => (st.(stat_rows) <=? n)%Z | None => false end.

(** [_right_unique_on_keys]. *)
Definition right_unique_on_keys (right : plan) (keys : list string) : bool :=
  match right with PAggregate _ gks _ _ => covers keys (map fst gks) | _ => false end
  || match right with
     | PDistinct _ [] _ _ => covers keys (available_columns right) && covers (available_columns right) keys
     | _ => false
     end
  || match keys with [k] => proven_by_stats right k | _ => false end.

Definition eliminate_left_join (node : plan) : option plan :=
  match node with
  | PJoin l r lk rk jt out _ =>
      match jt with
      | JLeft => if existsb (fun o => bool_decide (o.(oside) = SRight)) out then None
                 else if right_unique_on_keys r rk
                 then Some (PProject l (map (fun o => (o.(oalias), Col o.(oname))) out)) else None
      | _ => None
      end
  | PProject (PJoin l r lk rk JLeft out _) its =>
      if meets (item_columns its) (side_aliases SRight out) then None
      else if right_unique_on_keys r rk
      then let left_src := py_dict (side_columns SLeft out) in
           Some (PProject l (map (fun it => (it.1, remap_columns it.2 left_src)) its))
      else None
  | _ => None
  end.

(** Statistics flagged exact are. *)
Definition honest : Prop := forall p c, let st := estimate p c in
  (st.(rows_exact) = true -> st.(stat_rows) = Z.of_nat (length (den p))) /\
  (forall n, st.(ndv_is_exact) = true -> st.(ndv) = Some n ->
     n = Z.of_nat (length (dedup_by id (omap (fun r : row => canon <$> r !! c) (den p))))).
End Rule.

(** ** Unique rows *)

Lemma dedup_length {A B} `{EqDecision B} (f : A -> B) l : (length (dedup_by f l) <= length l)%nat.
Proof. induction l as [|x l IH]; cbn; [lia|]. pose proof (filter_length_le (fun y => negb (bool_decide (f y = f x))) (dedup_by f l)). lia. Qed.

Section Pairwise.
Context {A : Type}.

Lemma pairwise_filter (P : A -> A -> Prop) q l : StronglySorted P l -> StronglySorted P (List.filter q l).
Proof. induction 1 as [|x l _ IH Hx]; cbn; [constructor|]. destruct (q x); [|done]. constructor; [done|]. by apply Forall_filter_bool. Qed.

Lemma pairwise_impl (P P' : A -> A -> Prop) Q l :
  StronglySorted P l -> Forall Q l -> (forall x y, Q x -> Q y -> P x y -> P' x y) -> StronglySorted P' l.
Proof.
  intros HP HQ HI. induction HP as [|x l _ IH Hx]; [constructor|]. apply Forall_cons in HQ as [Qx Ql]. constructor; [auto|].
  rewrite Forall_forall in *. intros y Hy. apply HI; auto.
Qed.

Lemma pairwise_map {B} (f : B -> A) (P : A -> A -> Prop) l :
  StronglySorted (fun x y => P (f x) (f y)) l -> StronglySorted P (map f l).
Proof. induction 1 as [|x l _ IH Hx]; cbn; constructor; [done|]. by apply Forall_map_intro. Qed.

Lemma pairwise_take (P : A -> A -> Prop) n l : StronglySorted P l -> StronglySorted P (take n l).
Proof. intros H. revert n. induction H as [|x l _ IH Hx]; intros [|n]; cbn; try constructor; [auto|]. by apply Forall_take. Qed.

Lemma dedup_pairwise {B} `{EqDecision B} (f : A -> B) l : StronglySorted (fun x y => f y <> f x) (dedup_by f l).
Proof.
  induction l as [|x l IH]; cbn; constructor; [by apply pairwise_filter|]. rewrite Forall_forall.
  intros y [_ E%negb_true_iff%bool_decide_eq_false]%elem_of_filter_bool. done.
Qed.

(** At most one of the elements passes. *)
Lemma pairwise_unique (p : A -> bool) l :
  StronglySorted (fun x y => p x = true -> p y = true -> False) l -> (length (List.filter p l) <= 1)%nat.
Proof.
  induction 1 as [|x l _ IH Hx]; cbn; [lia|]. destruct (p x) eqn:Px; [|done]. cbn.
  rewrite (filter_ext_in p (fun _ => false)), filter_false; [cbn; lia|]. intros y Hy%list_elem_of_In.
  rewrite Forall_forall in Hx. specialize (Hx y Hy eq_refl). by destruct (p y); [destruct (Hx eq_refl)|].
Qed.

(** A relation with as many distinct values in a column as rows has no null and no repeated
    value there. *)
Lemma distinct_count_unique {B} `{EqDecision B} (h : A -> option B) l :
  (length l <= length (dedup_by id (omap h l)))%nat -> StronglySorted (fun x y => is_Some (h x) -> h y = h x -> False) l.
Proof.
  assert (forall l, (length (omap h l) <= length l)%nat) as Hle.
  { induction l0 as [|x l0 IH]; cbn; [lia|]. destruct (h x); cbn; lia. }
  induction l as [|x l IH]; cbn; intros H; [constructor|].
  pose proof (dedup_length id (omap h l)) as Hd. pose proof (Hle l) as Hl. destruct (h x) as [v|] eqn:Hx; cbn in H; [|lia].
  match type of H with context [List.filter ?f _] => set (q := f) in H end. pose proof (filter_length_le q (dedup_by id (omap h l))) as Hf.
  constructor; [apply IH; lia|]. rewrite Forall_forall. intros y Hy _ Heq. rewrite Hx in Heq.
  assert (v ∈ dedup_by id (omap h l)) as Hv.
  { assert (v ∈ omap h l) as Hin by (apply list_elem_of_omap; eauto). revert Hin. generalize (omap h l). clear.
    induction l as [|z l IH]; cbn; [by intros ?%not_elem_of_nil|]. intros [->|Hin]%elem_of_cons; [left|].
    destruct (decide (v = z)) as [->|]; [left|right]. apply elem_of_filter_bool. split; [auto|]. by rewrite bool_decide_false. }
  assert (List.filter q (dedup_by id (omap h l)) = dedup_by id (omap h l)) as E.
  { clear -H Hf Hl Hd. assert (length (List.filter q (dedup_by id (omap h l))) = length (dedup_by id (omap h l))) as E by lia.
    revert E. generalize (dedup_by id (omap h l)). clear. induction l as [|z l IH]; cbn; [done|].
    pose proof (filter_length_le q l). destruct (q z); cbn; intros; [f_equal; apply IH; lia|lia]. }
  rewrite <- E in Hv. apply elem_of_filter_bool in Hv as [_ Hv]. unfold q in Hv. by rewrite bool_decide_true in Hv.
Qed.
End Pairwise.

(** ** Every column of a typed plan is listed *)

Section Columns.
Context {PE : PlanEngine}.

Lemma available_columns_schema p : forall s c, schema_of p = Some s -> is_Some (s !! c) -> c ∈ available_columns p.
Proof.
  assert (forall (A : Type) c (cs : list string) (xs : list A), is_Some (assoc c (zip cs xs)) -> c ∈ cs) as Hz
    by (intros A c cs xs [x Hx]; by eapply assoc_zip).
  induction p using plan_ind'; intros sc c Hs Hc; cbn [available_columns].
  - cbn in Hs. case_bool_decide; [|done]. simplify_eq. rewrite lookup_list_to_map in Hc. destruct Hc as [k Hk].
    apply assoc_elem in Hk. apply list_elem_of_fmap. by exists (c, k).
  - apply filter_schema in Hs as [Hs _]. eauto.
  - destruct (project_schema _ _ _ Hs) as (si & ks & _ & _ & _ & ->). rewrite lookup_list_to_map in Hc. eauto.
  - destruct (join_schema _ _ _ _ _ _ _ _ Hs) as (? & ? & _ & _ & Hty).
    destruct (jty_dom _ _ _ _ _ _ _ Hty c Hc) as (o' & Ho & <-). apply list_elem_of_fmap. eauto.
  - cbn in Hs. destruct (schema_of p) as [si|]; [|done]. cbn in Hs. destruct (opt_mapM (type_of si) _); [|done]. cbn in Hs.
    destruct (opt_mapM _ ags); [|done]. cbn in Hs. case_bool_decide; [|done]. simplify_eq.
    rewrite lookup_list_to_map, assoc_app in Hc. apply elem_of_app. destruct (assoc c (zip _ l)) eqn:E; [left|right]; eauto.
  - destruct (un_typed _ (unary_sort ks n) _ _ Hs) as [si Hi]. cbn in Hs. rewrite Hi in Hs. cbn in Hs.
    destruct (forallb _ ks); [|done]. simplify_eq. eauto.
  - destruct (window_schema _ _ _ _ _ _ Hs) as (si & ks & Hi & _ & -> & _). apply elem_of_app.
    rewrite lookup_union, lookup_list_to_map in Hc. destruct (si !! c) eqn:E; [left; eauto|right].
    destruct (assoc c _) eqn:Ea; [eauto|by destruct Hc].
  - destruct (un_typed _ (unary_distinct ks o n) _ _ Hs) as [si Hi]. cbn in Hs. rewrite Hi in Hs. cbn in Hs.
    destruct (_ && _); [|done]. simplify_eq. eauto.
  - cbn in Hs. eauto.
  - cbn in Hs. eauto.
  - cbn in Hs. destruct (opt_mapM schema_of l) as [ss|]; [|done]. cbn in Hs. rewrite Hs. cbn. destruct Hc as [k Hk].
    apply elem_of_map_to_list in Hk. apply list_elem_of_fmap. by exists (c, k).
Qed.

Lemma canon_idem v : canon (canon v) = canon v.
Proof. by destruct v as [|[]| | |]. Qed.

Lemma zip_right_key (lk rk : list string) c : length lk = length rk -> c ∈ rk -> exists a, (a, c) ∈ zip lk rk.
Proof.
  revert rk. induction lk as [|b lk IH]; intros [|d rk] Hl Hc; try done; [by apply not_elem_of_nil in Hc|].
  apply elem_of_cons in Hc as [->|Hc]; [exists b; left|]. cbn in Hl. destruct (IH rk ltac:(lia) Hc) as [a Ha]. exists a. by right.
Qed.

(** The rows a left row matches agree on the right keys, none null. *)
Lemma matches_agree lk rk l x y c :
  length lk = length rk -> c ∈ rk -> matches (zip lk rk) l x = true -> matches (zip lk rk) l y = true ->
  canon <$> x !! c = canon <$> y !! c /\ is_Some (x !! c).
Proof.
  intros Hl Hc Hx Hy. destruct (zip_right_key lk rk c Hl Hc) as [a Ha].
  pose proof (matches_key lk rk _ l x Ha Hx) as Kx. pose proof (matches_key lk rk _ l y Ha Hy) as Ky. cbn in Kx, Ky.
  unfold key_eq in Kx, Ky. destruct (l !! a), (x !! c), (y !! c); try done.
  apply bool_decide_eq_true in Kx, Ky. cbn. split; [congruence|by eexists].
Qed.

(** *** Provably unique build sides *)

Definition matched_once (lk rk : list string) (rows : list row) : Prop :=
  forall l, (length (List.filter (matches (zip lk rk) l) rows) <= 1)%nat.

Lemma agg_row_key gks ags vals key c e (f : expr -> option value) :
  NoDup (map fst gks) -> (c, e) ∈ gks -> key = map f (map snd gks) -> agg_row gks ags vals key !! c = f e.
Proof.
  intros Hn Hin ->. unfold agg_row. rewrite lookup_bind_row, assoc_app.
  destruct (assoc_zip_forall2 (fun e v => v = f e) gks (map f (map snd gks)) c e) as (y & -> & ->); [done..| |done].
  clear. generalize (map snd gks). intros es. induction es; cbn; by constructor.
Qed.

Lemma aggregate_unique i gks ags w s lk rk :
  schema_of (PAggregate i gks ags w) = Some s -> length lk = length rk -> covers rk (map fst gks) = true ->
  matched_once lk rk (den (PAggregate i gks ags w)).
Proof.
  intros Hs Hl Hc l. destruct (agg_schema _ _ _ _ _ Hs) as (si & ks & Hi & _ & Hn & _). apply pairwise_unique. cbn [den].
  rewrite (schema'_eq _ _ Hi). apply pairwise_map. unfold agg_groups. destruct gks as [|g0 gks]; [by repeat constructor|].
  set (gs := g0 :: gks) in *. unfold groups. apply pairwise_map. cbn [fst snd].
  eapply pairwise_impl; [apply (dedup_pairwise (keys_of si (map snd gs)))|apply Forall_true; exact (fun _ => I)|].
  cbn beta. intros x y _ _ Hxy Mx My. apply Hxy. unfold keys_of. apply map_ext_in.
  intros e He%list_elem_of_In. apply list_elem_of_fmap in He as ([c e'] & -> & Hin). cbn [snd].
  assert (c ∈ rk) as Hck by (eapply (proj1 (covers_spec _ _) Hc), list_elem_of_fmap; by exists (c, e')).
  destruct (matches_agree lk rk l _ _ c Hl Hck Mx My) as [E _].
  rewrite !(agg_row_key gs ags _ _ c e' (fun e => canon <$> value_at si e _)) in E by done.
  destruct (value_at si e' x), (value_at si e' y); cbn in *; try done. rewrite !canon_idem in E. congruence.
Qed.

Lemma distinct_unique i o n s lk rk :
  schema_of (PDistinct i [] o n) = Some s -> length lk = length rk -> covers rk (available_columns i) = true ->
  matched_once lk rk (den (PDistinct i [] o n)).
Proof.
  intros Hs Hl Hc l. destruct (un_typed _ (unary_distinct [] o n) _ _ Hs) as [si Hi]. apply pairwise_unique. cbn [den].
  assert (StronglySorted (fun x y => matches (zip lk rk) l x = true -> matches (zip lk rk) l y = true -> False)
    (dedup_by canon_row (den i))) as H.
  { eapply pairwise_impl; [apply dedup_pairwise|apply Forall_dedup_by, (den_ok i si Hi)|]. cbn beta.
    intros x y Rx Ry Hxy Mx My. apply Hxy. apply map_eq. intros c. unfold canon_row. rewrite !lookup_fmap.
    destruct (decide (c ∈ rk)) as [Hin|Hin]; [by destruct (matches_agree lk rk l y x c Hl Hin My Mx)|].
    assert (si !! c = None) as Hno.
    { destruct (si !! c) eqn:E; [|done]. destruct Hin. apply (proj1 (covers_spec _ _) Hc).
      eapply available_columns_schema; [done|]. by rewrite E. }
    destruct (x !! c) eqn:Ex; [apply Rx in Ex; congruence|]. destruct (y !! c) eqn:Ey; [apply Ry in Ey; congruence|]. done. }
  destruct n; cbn [cap_rows]; [by apply pairwise_take|done].
Qed.

Lemma right_unique_sound estimate r rk lk s :
  honest estimate -> schema_of r = Some s -> length lk = length rk -> right_unique_on_keys estimate r rk = true ->
  matched_once lk rk (den r).
Proof.
  intros Hest Hs Hl [[Hu|Hu]%orb_true_iff|Hu]%orb_true_iff.
  - destruct r; try done. by eapply aggregate_unique.
  - destruct r as [| | | | | | |i ks o n| | |]; try done. destruct ks; [|done]. apply andb_true_iff in Hu as [Hu _]. by eapply distinct_unique.
  - destruct rk as [|k [|]]; try done. unfold proven_by_stats in Hu. destruct (Hest r k) as [H1 H2]. bsplit.
    destruct (ndv (estimate r k)) as [n|]; [|done]. specialize (H1 H). specialize (H2 n H3 eq_refl).
    intros l. apply pairwise_unique. eapply pairwise_impl; [|apply Forall_true; exact (fun _ => I)|].
    + eapply (distinct_count_unique (fun x : row => canon <$> x !! k)). lia.
    + cbn beta. intros x y _ _ Hxy Mx My. apply Hxy.
      * destruct (matches_agree lk [k] l x y k Hl ltac:(left) Mx My) as [_ [v ->]]. by eexists.
      * by destruct (matches_agree lk [k] l y x k Hl ltac:(left) My Mx).
Qed.
End Columns.

(** ** Elimination *)

Section Eliminate.
Context {PE : PlanEngine}.

(** A left join matched at most once per row has one output row per left row. *)
Lemma left_rows_unique {A} (f : row -> A) (g : row -> A) m mk L R :
  (forall l, (length (List.filter (m l) R) <= 1)%nat) -> (forall l r, l ∈ L -> r ∈ ∅ :: R -> f (mk l r) = g l) ->
  map f (left_rows m mk L R) = map g L.
Proof.
  intros Hu Hf. unfold left_rows. rewrite map_flat_map. set (F := fun x => map f _). induction L as [|l L IH]; cbn; [done|].
  rewrite IH by (intros; apply Hf; [by right|done]). unfold F. specialize (Hu l).
  destruct (List.filter (m l) R) as [|r ms] eqn:E; cbn; [rewrite Hf by (left); done|].
  destruct ms; cbn in Hu; [|lia]. cbn. rewrite Hf; [done|left|right].
  assert (r ∈ List.filter (m l) R) as Hr by (rewrite E; left). by apply elem_of_filter_bool in Hr as [? _].
Qed.

Lemma left_rows_elem m mk L R l : l ∈ L -> exists r, r ∈ ∅ :: R /\ mk l r ∈ left_rows m mk L R.
Proof.
  intros Hl. destruct (List.filter (m l) R) as [|r ms] eqn:E.
  - exists ∅. split; [left|]. apply list_elem_of_In, in_flat_map. exists l. split; [by apply list_elem_of_In|]. rewrite E. by left.
  - exists r. assert (r ∈ List.filter (m l) R) as Hr by (rewrite E; left). apply elem_of_filter_bool in Hr as [Hr _].
    split; [by right|]. apply list_elem_of_In, in_flat_map. exists l. split; [by apply list_elem_of_In|]. rewrite E. by left.
Qed.

(** A projection of the left input that computes what [its] computes on the join's rows. *)
Lemma eliminate_project l r lk rk out st its its' s sj sl :
  schema_of (PProject (PJoin l r lk rk JLeft out st) its) = Some s ->
  schema_of (PJoin l r lk rk JLeft out st) = Some sj -> schema_of l = Some sl ->
  matched_once lk rk (den r) -> map fst its' = map fst its ->
  Forall2 (fun it it' => type_of sl it'.2 = type_of sj it.2 /\
    forall x y, run sl x it'.2 = run sj (out_row out x y) it.2) its its' ->
  schema_of (PProject l its') = Some s /\ den (PProject l its') = den (PProject (PJoin l r lk rk JLeft out st) its) /\
  forall rows, exec (PProject (PJoin l r lk rk JLeft out st) its) = Ok rows -> exec (PProject l its') = Ok rows.
Proof.
  intros Hs Hj Hl Hu Hfst H2.
  assert (forall x y, project_row sl its' x = project_row sj its (out_row out x y)) as Hrow.
  { intros x y. unfold project_row. f_equal. revert Hfst. clear -H2. induction H2 as [|it it' its its' [_ Hr] _ IH]; cbn; [done|].
    intros [= Ha Hb]. rewrite IH by done. unfold value_at. by rewrite Ha, (Hr x y). }
  assert (schema_of (PProject l its') = Some s) as Hs'.
  { destruct (project_schema _ _ _ Hs) as (sj' & ks & Hj' & Hks & Hn & ->). rewrite Hj in Hj'. injection Hj' as <-.
    assert (opt_mapM (type_of sl) (map snd its') = opt_mapM (type_of sj) (map snd its)) as Ho.
    2: { cbn. rewrite Hl. cbn. rewrite Ho, Hks, Hfst. cbn. by rewrite bool_decide_true. }
    clear -H2. induction H2 as [|it it' its its' [Ht _] _ IH]; cbn; [done|]. by rewrite Ht, IH. }
  assert (den (PProject l its') = den (PProject (PJoin l r lk rk JLeft out st) its)) as Hden.
  { cbn [den join_rows]. rewrite (schema'_eq _ _ Hj), (schema'_eq _ _ Hl). symmetry. apply left_rows_unique; [done|]. auto. }
  split_and!; [done..|]. intros rows Hx. destruct (project_exec_inv _ _ _ _ Hj Hx) as (xj & vs & Hxj & Hv & ->).
  rewrite <- (exec_den _ _ Hx), <- Hden. cbn [exec] in Hxj. apply res_bind_ok in Hxj as (xl & Hxl & Hxj).
  apply res_bind_ok in Hxj as (xr & Hxr & [= <-]).
  assert (evaluate sl (map snd its') xl = Ok (map (fun x => map (fun e => value_at sl e x) (map snd its')) xl)) as Hv'.
  { unfold evaluate. apply res_mapM_intro. rewrite Forall_forall. intros x Hin. apply res_mapM_intro.
    destruct (left_rows_elem (matches (zip lk rk)) (out_row out) xl xr x Hin) as (y & _ & Hy).
    pose proof (fun e He => evaluate_runs _ _ _ _ _ e Hv Hy He) as Hrun. clear -H2 Hrun.
    induction H2 as [|it it' its its' [_ Hr] _ IH]; cbn; constructor.
    - unfold value_at. rewrite (Hr x y), Hrun; [done|]. left.
    - apply IH. intros e He. apply Hrun. by right. }
  rewrite (project_exec _ _ _ _ _ Hl Hxl Hv'). f_equal. cbn [den]. by rewrite (schema'_eq _ _ Hl), (exec_den _ _ Hxl).
Qed.

Lemma left_source out c n : py_dict (side_columns SLeft out) !! c = Some n ->
  exists o, o ∈ out /\ o.(oside) = SLeft /\ o.(oalias) = c /\ o.(oname) = n.
Proof. intros H%lookup_py_dict. by apply side_columns_elem. Qed.

Lemma eliminate_bare l r lk rk out st s sl :
  schema_of (PJoin l r lk rk JLeft out st) = Some s -> schema_of l = Some sl -> matched_once lk rk (den r) ->
  existsb (fun o => bool_decide (o.(oside) = SRight)) out = false ->
  let p' := PProject l (map (fun o => (o.(oalias), Col o.(oname))) out) in
  schema_of p' = Some s /\ den p' = den (PJoin l r lk rk JLeft out st) /\
  forall rows, exec (PJoin l r lk rk JLeft out st) = Ok rows -> exec p' = Ok rows.
Proof.
  intros Hs Hl Hu Hr p'. destruct (join_schema _ _ _ _ _ _ _ _ Hs) as (sl' & sr & Hl' & Hsr & Hty). rewrite Hl in Hl'. injection Hl' as <-.
  assert (forall o, o ∈ out -> o.(oside) = SLeft) as Hside.
  { intros o Ho. destruct (oside o) eqn:E; [done|]. exfalso. apply not_true_iff_false in Hr. apply Hr. apply existsb_exists.
    exists o. split; [by apply list_elem_of_In|]. by rewrite E. }
  set (its := map (fun o => (oalias o, Col (oname o))) out) in *.
  assert (forall o, o ∈ out -> is_Some (sl !! oname o)) as Htyped.
  { intros o Ho. destruct (jty_out _ _ _ _ _ _ _ Hty o Ho) as [Hi E]. by rewrite (Hside o Ho) in E; rewrite <- E. }
  assert (forall x y, project_row sl its x = out_row out x y) as Hrow.
  { intros x y. unfold project_row, out_row, its. rewrite map_map. f_equal. apply map_ext_in. intros o Ho%list_elem_of_In.
    cbn. f_equal. rewrite (Hside o Ho). unfold value_at, run. cbn. by destruct (Htyped o Ho) as [k ->]. }
  assert (den p' = den (PJoin l r lk rk JLeft out st)) as Hden.
  { cbn [den p' join_rows]. rewrite (schema'_eq _ _ Hl). symmetry. rewrite <- (map_id (left_rows _ _ _ _)).
    apply left_rows_unique; [done|]. intros x y _ _. by rewrite (Hrow x y). }
  split_and!; [|done|].
  - pose proof Hs as Hs0. cbn in Hs |- *. rewrite Hl, Hsr in Hs. rewrite Hl. cbn in Hs |- *.
    destruct (opt_mapM (out_kind sl sr) out) as [cs|] eqn:Hcs; [|done]. cbn in Hs. destruct (_ && _ && _ && _) eqn:Hb in Hs; [|done].
    injection Hs as <-. bsplit. unfold its. rewrite !map_map. cbn.
    assert (opt_mapM (type_of sl) (map (fun o => Col (oname o)) out) = Some (map snd cs) /\ map (fun o => oalias o) out = map fst cs) as [-> Hf].
    { clear -Hcs Hside. apply opt_mapM_Some in Hcs. induction Hcs as [|o [a k] out cs Ho _ IH]; cbn; [done|].
      destruct (IH ltac:(intros; apply Hside; by right)) as [-> ->]. unfold out_kind in Ho. rewrite (Hside o ltac:(left)) in Ho.
      unfold type_of. cbn. destruct (sl !! oname o); [|done]. cbn in *. by injection Ho as <- <-. }
    cbn. rewrite bool_decide_true by done. f_equal. rewrite Hf. clear. induction cs as [|[] cs IH]; cbn; [done|]. by rewrite IH.
  - intros rows Hx. rewrite <- (exec_den _ _ Hx), <- Hden. cbn [exec] in Hx. apply res_bind_ok in Hx as (xl & Hxl & _).
    assert (evaluate sl (map snd its) xl = Ok (map (fun x => map (fun e => value_at sl e x) (map snd its)) xl)) as Hv.
    { unfold evaluate. apply res_mapM_intro. rewrite Forall_forall. intros x _. apply res_mapM_intro. rewrite Forall_forall.
      intros e He. unfold its in He. rewrite map_map in He. apply list_elem_of_fmap in He as (o & -> & Ho). cbn.
      unfold value_at, run. cbn. by destruct (Htyped o Ho) as [k ->]. }
    unfold p'. rewrite (project_exec _ _ _ _ _ Hl Hxl Hv). cbn [den]. by rewrite (schema'_eq _ _ Hl), (exec_den _ _ Hxl).
Qed.

(** An item that reads no right column, computed from the left row. *)
Lemma left_item l r lk rk out st its s sj sl sr it :
  schema_of (PProject (PJoin l r lk rk JLeft out st) its) = Some s -> schema_of (PJoin l r lk rk JLeft out st) = Some sj ->
  join_typed sl sr lk rk JLeft out sj -> meets (item_columns its) (side_aliases SRight out) = false -> it ∈ its ->
  let e := remap_columns it.2 (py_dict (side_columns SLeft out)) in
  type_of sl e = type_of sj it.2 /\ forall x y, run sl x e = run sj (out_row out x y) it.2.
Proof.
  intros Hs Hj Hty Hm Hit e. unfold e. rewrite inline_remap.
  destruct (project_schema _ _ _ Hs) as (sj' & ks & Hj' & Hks & _ & _). rewrite Hj in Hj'. injection Hj' as <-.
  assert (forall c, c ∈ referenced_columns it.2 -> exists o, o ∈ out /\ oside o = SLeft /\ oalias o = c /\
    py_dict (side_columns SLeft out) !! c = Some (oname o)) as Hsrc.
  { intros c Hc. assert (exists k, type_of sj it.2 = Some k) as [k Hk].
    { apply opt_mapM_Some in Hks. assert (it.2 ∈ map snd its) as Hin by (apply list_elem_of_fmap; eauto).
      apply list_elem_of_lookup_1 in Hin as [i Hi]. destruct (Forall2_lookup_l _ _ _ _ _ Hks Hi) as (k & _ & ?). eauto. }
    destruct (jty_dom _ _ _ _ _ _ _ Hty c (refs_typed _ _ _ _ Hk Hc)) as (o & Ho & Hoc).
    assert (oside o = SLeft) as Hos.
    { destruct (oside o) eqn:E; [done|]. exfalso. apply not_true_iff_false in Hm. apply Hm. apply existsb_exists. exists c.
      split; [apply list_elem_of_In; by eapply item_refs|]. apply bool_decide_eq_true, side_aliases_elem. eauto. }
    destruct (proj2 (py_dict_dom (side_columns SLeft out) c)) as [n Hn'].
    { change (c ∈ side_aliases SLeft out). apply side_aliases_elem. eauto. }
    destruct (left_source out c n Hn') as (o' & Ho' & Hs' & Ha' & <-). eauto. }
  split.
  + apply inline_kind. intros c Hc. destruct (Hsrc c Hc) as (o & Ho & Hos & <- & ->).
    destruct (jty_out _ _ _ _ _ _ _ Hty o Ho) as [_ ->]. by rewrite Hos.
  + intros x y. apply inline_eval. intros c Hc. destruct (Hsrc c Hc) as (o & Ho & Hos & <- & ->).
    destruct (jty_out _ _ _ _ _ _ _ Hty o Ho) as [_ E]. rewrite Hos in E. unfold type_of, run. cbn. rewrite E. split; [done|].
    by rewrite (out_row_lookup out x y o (jty_nodup _ _ _ _ _ _ _ Hty) Ho), Hos.
Qed.

(** eliminating a left join is exact.  If the right side is provably unique on the keys (a
    GROUP BY within them, a whole-row DISTINCT of exactly them, or an exact distinct count of at
    least the exact row count) and none of its columns is read, reading the left side directly
    keeps the schema and the rows, in order, and returns whenever the join does. *)
Theorem eliminate_left_join_exact estimate node p' :
  honest estimate -> eliminate_left_join estimate node = Some p' -> same_result node p'.
Proof.
  intros Hest Hp s Hs. destruct node as [| |i its|l r lk rk jt out st| | | | | | |]; try done.
  - destruct i as [| | |l r lk rk jt out st| | | | | | |]; try done. destruct jt; try done. cbn [eliminate_left_join] in Hp.
    destruct (meets _ _) eqn:Hm; [done|]. destruct (right_unique_on_keys estimate r rk) eqn:Hu; [|done]. injection Hp as <-.
    destruct (un_typed _ (unary_project its) _ _ Hs) as [sj Hj].
    destruct (join_schema _ _ _ _ _ _ _ _ Hj) as (sl & sr & Hl & Hr & Hty).
    eapply eliminate_project; [done..| |by rewrite map_map|].
    { eapply right_unique_sound; [done..|apply Hty|done]. }
    apply Forall2_fmap_r, Forall_Forall2_diag, Forall_forall. intros it Hit. by eapply left_item.
  - destruct jt; try done. cbn [eliminate_left_join] in Hp. destruct (existsb _ out) eqn:Hr; [done|].
    destruct (right_unique_on_keys estimate r rk) eqn:Hu; [|done]. injection Hp as <-.
    destruct (join_schema _ _ _ _ _ _ _ _ Hs) as (sl & sr & Hl & Hsr & Hty).
    eapply eliminate_bare; [done..| |done]. eapply right_unique_sound; [done..|apply Hty|done].
Qed.
End Eliminate.

(** The left table against per-key counts of the right one, which the projection does not read. *)
Definition unread_counts : plan :=
  PProject
    (PJoin left_table (PAggregate right_table [("k", Col "k")] [AggSpec "n" "count" []] None) ["k"] ["k"] JLeft
       [JoinOutputCol SLeft "k" "k"; JoinOutputCol SLeft "v" "value"; JoinOutputCol SRight "n" "n"] Hash)
    [("v", Binary Add (Col "value") (Lit (VInt 1)))].

Definition no_stats (p : plan) (c : string) : key_stats := KeyStats false 0 false None.

Lemma eliminate_left_join_exact_witness :
  @eliminate_left_join (toy_plans two_tables) no_stats unread_counts =
    Some (PProject left_table [("v", Binary Add (Col "v") (Lit (VInt 1)))]) /\
  @exec (toy_plans two_tables) (PProject left_table [("v", Binary Add (Col "v") (Lit (VInt 1)))]) =
    Ok [{["v" := VInt 11]}; {["v" := VInt 21]}; {["v" := VInt 31]}].
Proof.
  split; [vm_compute; reflexivity|].
  refine (proj2 (proj2 (@eliminate_left_join_exact (toy_plans two_tables) no_stats unread_counts _ _ _ {["v" := KInt]} _)) _ _);
    [split; [discriminate|intros n; discriminate]|vm_compute; reflexivity..].
Defined.
