(* ===== verification/PlanInfer.v ===== *)
(** * Constants mirrored across join keys

    kyber/rules/pushdown.py: [infer_join_predicates] with [_column_constraints],
    [_sole_constrained_column], [_add_inferred] and [_proven_below]. *)

From Stdlib Require Import Floats.SpecFloat.
From S2P Require Import Prelude ExprIR ExprSound ExprAlgebra PlanIR PlanSound PlanPushdown PlanLocal PlanJoins PlanSemi PlanUnique.

(** ** The rule *)

(** [comparison_col_side]: the column of [col OP literal] or [literal OP col]. *)
Definition comparison_col_side (a b : expr) : option string :=
  match a, b with Col c, Lit _ => Some c | Lit _, Col c => Some c | _, _ => None end.

(** [_sole_constrained_column]. *)
Definition sole_constrained_column (conj : expr) : option string :=
  match conj with
  | Binary op a b =>
      if comparison_op op then
        c ← comparison_col_side a b;
        if covers [c] (referenced_columns conj) then Some c else None
      else None
  | _ => None
  end.

(** [_UNEXTENDED]: the sides whose output columns are never null-extended. *)
Definition unextended (jt : join_type) (s : side) : bool :=
  match jt, s with
  | JInner, _ | (JLeft | JSemi | JAnti), SLeft | JRight, SRight => true
  | _, _ => false
  end.

(** The first item that passes a column through under the alias [col]. *)
Fixpoint renamed_from (col : string) (its : list (string * expr)) : option string :=
  match its with
  | [] => None
  | (a, e) :: its' =>
      match e with Col src => if decide (a = col) then Some src else renamed_from col its' | _ => renamed_from col its' end
  end.

Definition rephrase (src col : string) (cs : list expr) : list expr :=
  map (fun c => remap_columns c {[src := col]}) cs.

(** The first output column of a join under the alias [col] on a side it does not extend. *)
Definition traced_output (jt : join_type) (col : string) (out : list join_output_col) : option join_output_col :=
  List.find (fun o => bool_decide (o.(oalias) = col) && unextended jt o.(oside)) out.

(** [_column_constraints]. *)
Fixpoint column_constraints (p : plan) (col : string) : list expr :=
  match p with
  | PFilter i e =>
      List.filter (fun c => bool_decide (sole_constrained_column c = Some col)) (split_conjuncts e)
        ++ column_constraints i col
  | PSort i _ _ | PLimit i _ _ | PSample i _ | PDistinct i _ _ _ => column_constraints i col
  | PProject i its =>
      match renamed_from col its with Some src => rephrase src col (column_constraints i src) | None => [] end
  | PJoin l r _ _ jt out _ =>
      match traced_output jt col out with
      | Some o => rephrase o.(oname) col
                    (match o.(oside) with SLeft => column_constraints l o.(oname) | SRight => column_constraints r o.(oname) end)
      | None => []
      end
  | PAggregate i gks _ _ =>
      match renamed_from col gks with Some src => rephrase src col (column_constraints i src) | None => [] end
  | _ => []
  end.

(** [_MIRRORS]: the directions a constraint may be mirrored in. *)
Definition mirrors_right (jt : join_type) : bool := match jt with JInner | JLeft | JSemi | JAnti => true | _ => false end.
Definition mirrors_left (jt : join_type) : bool := match jt with JInner | JRight => true | _ => false end.

Section Rule.
(** [implied_by_bounds]: the statistics already prove the conjunct of every row. *)
Variable implied_by_bounds : plan -> string -> expr -> bool.

(** [_add_inferred], with the set [_proven_below] in its list of existing conjuncts. *)
Definition add_inferred (target : plan) (target_key : string) (constraints : list expr) (source_key : string)
    : res (plan * bool) :=
  let current := match target with PFilter _ e => split_conjuncts e | _ => [] end in
  let existing := current ++ column_constraints target target_key in
  let fresh := List.filter (fun c => negb (existsb (expr_eqb c) existing)) (rephrase source_key target_key constraints) in
  let fresh := List.filter (fun c => negb (implied_by_bounds target target_key c)) fresh in
  match fresh with
  | [] => Ok (target, false)
  | _ => match target with
         | PFilter i e => let* combined := combine_conjuncts (split_conjuncts e ++ fresh) in Ok (PFilter i combined, true)
         | _ => let* combined := combine_conjuncts fresh in Ok (PFilter target combined, true)
         end
  end.

(** One side of the loop body: nothing to mirror, or the constraints added. *)
Definition mirror (allowed : bool) (source : plan) (source_key : string) (target : plan) (target_key : string)
    : res (plan * bool) :=
  match allowed, column_constraints source source_key with
  | true, (_ :: _) as cons => add_inferred target target_key cons source_key
  | _, _ => Ok (target, false)
  end.

(** The loop over the key pairs; constraints are read off the join's original inputs. *)
Fixpoint infer_loop (jt : join_type) (l r : plan) (keys : list (string * string)) (new_left new_right : plan) (changed : bool)
    : res (plan * plan * bool) :=
  match keys with
  | [] => Ok (new_left, new_right, changed)
  | (lk, rk) :: keys' =>
      let* right := mirror (mirrors_right jt) l lk new_right rk in
      let* left := mirror (mirrors_left jt) r rk new_left lk in
      infer_loop jt l r keys' left.1 right.1 (changed || right.2 || left.2)
  end.

Definition infer_join_predicates (node : plan) : res (option plan) :=
  match node with
  | PJoin l r lk rk jt out st =>
      if mirrors_left jt || mirrors_right jt then
        let* state := infer_loop jt l r (zip lk rk) l r false in
        let '(new_left, new_right, changed) := state in
        Ok (if changed : bool then Some (PJoin new_left new_right lk rk jt out st) else None)
      else Ok None
  | _ => Ok None
  end.
End Rule.

(** ** Constraints hold of every row *)

(** [col OP literal] or [literal OP col]. *)
Definition cmp_at (op : binop) (on_left : bool) (v : value) (c : string) : expr :=
  if on_left then Binary op (Col c) (Lit v) else Binary op (Lit v) (Col c).

Lemma sole_shape e c : sole_constrained_column e = Some c -> exists op b v, comparison_op op = true /\ e = cmp_at op b v c.
Proof.
  destruct e as [| |op a d| | | | | | | | | |]; try done. cbn. destruct (comparison_op op) eqn:Hop; [|done].
  destruct (comparison_col_side a d) as [c'|] eqn:E; [|done]. cbn. destruct (forallb _ _); [|done]. intros [= ->].
  destruct a, d; try done; cbn in E; simplify_eq; [exists op, true|exists op, false]; eauto.
Qed.

Lemma remap_cmp op b v c d : remap_columns (cmp_at op b v c) {[c := d]} = cmp_at op b v d.
Proof. destruct b; cbn; by rewrite lookup_singleton_eq. Qed.

Lemma safe_cmp op b v c : comparison_op op = true -> safe_expr (cmp_at op b v c) = true.
Proof. destruct b, op; done. Qed.

(** Comparisons cannot tell a value from its key. *)
Lemma same_kind_canon k v w :
  same_kind_compare (cast k (canon v)) w = same_kind_compare (cast k v) w /\
  same_kind_compare w (cast k (canon v)) = same_kind_compare w (cast k v).
Proof.
  destruct v as [|[s| | |]| | |]; try done. assert (forall s, cast k (VFloat (S754_zero s)) = VFloat (S754_zero s)) as Hc by (by destruct k).
  cbn [canon]. rewrite !Hc. by destruct w.
Qed.

Lemma compare_canon op x y : compare_values op (canon <$> x) (canon <$> y) = compare_values op x y.
Proof.
  destruct x as [v|], y as [w|]; try done. cbn. unfold vcompare. rewrite !canon_kind.
  destruct (supertype _ _); [|done]. by rewrite (proj1 (same_kind_canon k v _)), (proj2 (same_kind_canon k w _)).
Qed.

Section Constraints.
Context {PE : PlanEngine}.

Lemma run_cmp op b v (s : schema) r c :
  comparison_op op = true -> is_Some (s !! c) ->
  run s r (cmp_at op b v c) = if b then compare_values op (r !! c) (Some v) else compare_values op (Some v) (r !! c).
Proof. intros Hop [k Hk]. unfold run. destruct b, op; try done; cbn; by rewrite Hk. Qed.

(** A comparison sees of a row the key of the column it reads. *)
Lemma passes_cmp op b v (s s' : schema) r r' c d :
  comparison_op op = true -> is_Some (s !! c) -> is_Some (s' !! d) -> canon <$> r !! c = canon <$> r' !! d ->
  passes s (cmp_at op b v c) r = passes s' (cmp_at op b v d) r'.
Proof.
  intros Hop Hc Hd Hr. unfold passes. rewrite !run_cmp by done.
  assert (forall x, (if b then compare_values op x (Some v) else compare_values op (Some v) x) =
    if b then compare_values op (canon <$> x) (canon <$> Some v) else compare_values op (canon <$> Some v) (canon <$> x)) as Hx
    by (intros x; destruct b; by rewrite compare_canon).
  by rewrite (Hx (r !! c)), (Hx (r' !! d)), Hr.
Qed.

Lemma type_cmp op b v (s s' : schema) c d : s !! c = s' !! d -> type_of s (cmp_at op b v c) = type_of s' (cmp_at op b v d).
Proof. intros H. unfold type_of. destruct b; cbn; by rewrite H. Qed.

Lemma cmp_typed op b v (s : schema) c k : type_of s (cmp_at op b v c) = Some k -> is_Some (s !! c).
Proof. intros H. eapply refs_typed; [exact H|]. destruct b; cbn; set_solver. Qed.

(** A comparison of a column that is true of every row of a relation. *)
Record holds (s : schema) (rows : list row) (col : string) (e : expr) : Prop := {
  hd_shape : exists op b v, comparison_op op = true /\ e = cmp_at op b v col;
  hd_typed : type_of s e = Some KBool;
  hd_rows : Forall (fun r => passes s e r = true) rows;
}.

Lemma holds_rephrase s s' rows rows' src col e :
  holds s rows src e -> s' !! col = s !! src ->
  Forall (fun r' => exists r, r ∈ rows /\ canon <$> r' !! col = canon <$> r !! src) rows' ->
  holds s' rows' col (remap_columns e {[src := col]}).
Proof.
  intros [(op & b & v & Hop & ->) Ht Hr] Hs Hrows. rewrite remap_cmp.
  assert (is_Some (s !! src)) as Hsome by (by eapply cmp_typed). split; [by eauto| |].
  - rewrite <- Ht. by apply type_cmp.
  - rewrite Forall_forall in *. intros r' Hr'. destruct (Hrows r' Hr') as (r & Hin & Hk).
    rewrite <- (Hr r Hin). apply passes_cmp; [done|by rewrite Hs|done|done].
Qed.

Lemma holds_fewer s rows rows' col e : holds s rows col e -> (forall P : row -> Prop, Forall P rows -> Forall P rows') -> holds s rows' col e.
Proof. intros [H1 H2 H3] Hf. split; auto. Qed.

Lemma renamed_from_elem col its src : renamed_from col its = Some src -> (col, Col src) ∈ its.
Proof.
  induction its as [|[a e] its IH]; cbn; [done|]. destruct e; try (intros; right; by auto).
  case_decide; [intros [= ->]; subst; left|right; auto].
Qed.

(** Which side's rows the rows of a join come from. *)
Lemma join_rows_sides (m : row -> row -> bool) mk jt ls rs (P : row -> Prop) :
  (forall l r, (unextended jt SLeft = true -> l ∈ ls) -> (unextended jt SRight = true -> r ∈ rs) -> P (mk l r)) ->
  Forall P (join_rows m mk jt ls rs).
Proof.
  intros HP.
  assert (Forall P (inner_rows m mk ls rs)) as Hi.
  { apply Forall_flat_map_intro. rewrite Forall_forall. intros l Hl. apply Forall_map_intro. rewrite Forall_forall.
    intros r [Hr _]%elem_of_filter_bool. by apply HP. }
  assert (unextended jt SRight = false -> forall f, Forall P (map (fun l => mk l ∅) (List.filter f ls))) as Hs.
  { intros Hu f. apply Forall_map_intro. rewrite Forall_forall. intros l [Hl _]%elem_of_filter_bool. apply HP; [done|congruence]. }
  assert (unextended jt SRight = false -> Forall P (left_rows m mk ls rs)) as Hl.
  { intros Hu. apply Forall_flat_map_intro. rewrite Forall_forall. intros l Hl.
    assert (Forall (fun r => P (mk l r)) (List.filter (m l) rs)) as Hf.
    { rewrite Forall_forall. intros r [Hr _]%elem_of_filter_bool. by apply HP. }
    destruct (List.filter (m l) rs); [constructor; [apply HP; [done|congruence]|done]|by apply Forall_map_intro]. }
  assert (unextended jt SLeft = false -> Forall P (lone_right m mk ls rs)) as Hr.
  { intros Hu. apply Forall_map_intro. rewrite Forall_forall. intros r [Hr _]%elem_of_filter_bool. apply HP; [congruence|done]. }
  destruct jt; cbn [join_rows]; try apply Forall_app; auto.
Qed.

Lemma rephrase_elem src col cs e : e ∈ rephrase src col cs -> exists c, c ∈ cs /\ e = remap_columns c {[src := col]}.
Proof. intros (c & -> & Hc)%list_elem_of_fmap. eauto. Qed.

Lemma project_holds i its s src col e si :
  schema_of (PProject i its) = Some s -> schema_of i = Some si -> renamed_from col its = Some src ->
  holds si (den i) src e -> holds s (den (PProject i its)) col (remap_columns e {[src := col]}).
Proof.
  intros Hs Hi Hr%renamed_from_elem He. destruct (project_schema _ _ _ Hs) as (si' & ks & Hi' & Hks & Hn & ->). rewrite Hi in Hi'. injection Hi' as <-.
  destruct (assoc_zip_forall2 (fun e k => type_of si e = Some k) its ks col (Col src)) as (k & Hk & Ht); [done..|by apply opt_mapM_Some|].
  change (si !! src = Some k) in Ht.
  eapply holds_rephrase; [exact He|by rewrite lookup_list_to_map, Hk, Ht|]. cbn [den]. rewrite (schema'_eq _ _ Hi).
  apply Forall_map_intro. rewrite Forall_forall. intros r Hin. exists r. split; [done|]. f_equal.
  unfold project_row. rewrite lookup_bind_row, (assoc_nodup col (value_at si (Col src) r)).
  - unfold value_at, run. cbn. by rewrite Ht.
  - by rewrite map_map.
  - apply list_elem_of_fmap. by exists (col, Col src).
Qed.

Lemma aggregate_holds i gks ags w s src col e si :
  schema_of (PAggregate i gks ags w) = Some s -> schema_of i = Some si -> renamed_from col gks = Some src ->
  holds si (den i) src e -> holds s (den (PAggregate i gks ags w)) col (remap_columns e {[src := col]}).
Proof.
  intros Hs Hi Hr%renamed_from_elem He. destruct (agg_schema _ _ _ _ _ Hs) as (si' & ks & Hi' & Hks & Hn & Hsk). rewrite Hi in Hi'. injection Hi' as <-.
  destruct (assoc_zip_forall2 (fun e k => type_of si e = Some k) gks ks col (Col src)) as (k & Hk & Ht); [done..|by apply opt_mapM_Some|].
  change (si !! src = Some k) in Ht.
  eapply holds_rephrase; [exact He|by rewrite (Hsk _ _ Hk), Ht|]. cbn [den]. rewrite (schema'_eq _ _ Hi).
  apply Forall_map_intro. unfold agg_groups. destruct gks as [|g0 gks]; [by apply not_elem_of_nil in Hr|].
  eapply Forall_impl; [apply (Forall_groups (fun x => x ∈ den i)); by rewrite Forall_forall|]. cbn beta.
  intros g [(x & Hx & Hg) _]. exists x. split; [done|].
  rewrite (agg_row_key (g0 :: gks) ags _ _ col (Col src) (fun e => canon <$> value_at si e x)) by done.
  unfold value_at, run. cbn. rewrite Ht. destruct (x !! src); cbn; [by rewrite canon_idem|done].
Qed.

Lemma join_holds l r lk rk jt out st s col o e sl sr :
  schema_of (PJoin l r lk rk jt out st) = Some s -> schema_of l = Some sl -> schema_of r = Some sr ->
  traced_output jt col out = Some o ->
  holds (match o.(oside) with SLeft => sl | SRight => sr end) (den (match o.(oside) with SLeft => l | SRight => r end)) o.(oname) e ->
  holds s (den (PJoin l r lk rk jt out st)) col (remap_columns e {[o.(oname) := col]}).
Proof.
  intros Hs Hl Hr [Ho Hc]%find_some He. apply list_elem_of_In in Ho. apply andb_true_iff in Hc as [<-%bool_decide_eq_true Hu].
  destruct (join_schema _ _ _ _ _ _ _ _ Hs) as (sl' & sr' & Hl' & Hr' & Hty). rewrite Hl in Hl'. rewrite Hr in Hr'. simplify_eq.
  eapply holds_rephrase; [exact He|by apply (jty_out _ _ _ _ _ _ _ Hty)|]. cbn [den]. apply join_rows_sides.
  intros x y Hx Hy. exists (pick (oside o) x y). rewrite (out_row_lookup out x y o (jty_nodup _ _ _ _ _ _ _ Hty) Ho).
  split; [|done]. destruct (oside o); cbn; auto.
Qed.

Lemma constraints_hold p : forall s col e, schema_of p = Some s -> e ∈ column_constraints p col -> holds s (den p) col e.
Proof.
  induction p using plan_ind'; intros sc col x Hs Hx; cbn [column_constraints] in Hx; try (by apply not_elem_of_nil in Hx).
  - pose proof Hs as Hs'. apply filter_schema in Hs' as [Hi Ht]. apply elem_of_app in Hx as [Hx|Hx].
    + apply elem_of_filter_bool in Hx as [Hin Hc%bool_decide_eq_true]. apply sole_shape in Hc. split; [done| |].
      * pose proof (proj1 (conjunctive_split _ e (typed_conjunctive sc)) Ht) as Hts. rewrite Forall_forall in Hts. auto.
      * rewrite Forall_forall. intros r Hr. cbn [den] in Hr. rewrite (schema'_eq _ _ Hi) in Hr.
        apply elem_of_filter_bool in Hr as [_ Hp]. rewrite plan_passes_split, forallb_forall in Hp. apply Hp. by apply list_elem_of_In.
    + eapply holds_fewer; [by apply IHp|]. intros P HP. by apply Forall_filter_bool.
  - destruct (renamed_from col its) as [src|] eqn:Hr; [|by apply not_elem_of_nil in Hx].
    apply rephrase_elem in Hx as (c & Hc & ->). destruct (un_typed _ (unary_project its) _ _ Hs) as [si Hi].
    eapply project_holds; eauto.
  - destruct (traced_output jt col o) as [oc|] eqn:Ho; [|by apply not_elem_of_nil in Hx].
    apply rephrase_elem in Hx as (c & Hc & ->). destruct (join_schema _ _ _ _ _ _ _ _ Hs) as (sl & sr & Hl & Hr & _).
    eapply join_holds; [done..|]. destruct (oside oc); auto.
  - destruct (renamed_from col ks) as [src|] eqn:Hr; [|by apply not_elem_of_nil in Hx].
    apply rephrase_elem in Hx as (c & Hc & ->). destruct (agg_schema _ _ _ _ _ Hs) as (si & kk & Hi & _).
    eapply aggregate_holds; eauto.
  - destruct (un_typed _ (unary_sort ks n) _ _ Hs) as [si Hi]. cbn in Hs. rewrite Hi in Hs. cbn in Hs.
    destruct (forallb _ ks); [|done]. simplify_eq. eapply holds_fewer; [by apply IHp|]. intros P HP. by apply Forall_cap_rows, Forall_sort_by.
  - destruct (un_typed _ (unary_distinct ks o n) _ _ Hs) as [si Hi]. cbn in Hs. rewrite Hi in Hs. cbn in Hs.
    destruct (_ && _); [|done]. simplify_eq. eapply holds_fewer; [by apply IHp|]. intros P HP. cbn [den].
    destruct ks; [by apply Forall_cap_rows, Forall_dedup_by|].
    destruct (distinct_on _ _ _) eqn:E; cbn; [|constructor]. eapply Forall_sublist; [by eapply pe_distinct|done].
  - eapply holds_fewer; [by apply IHp|]. intros P HP. by apply Forall_take, Forall_drop.
  - eapply holds_fewer; [by apply IHp|]. intros P HP. eapply Forall_sublist; [apply pe_sample|done].
Qed.

(** ** Adding conjuncts to a join input *)

Lemma test_conjunctive s r : conjunctive (fun e => exists b, test s e r = Ok b).
Proof.
  intros a b. unfold test, run. cbn. split.
  - intros (c & (x & (xa & -> & (xb & -> & H)%res_bind_ok)%res_bind_ok & _)%res_bind_ok). cbn in H |- *.
    apply res_bind_ok in H as (ya & -> & (yb & -> & _)%res_bind_ok). cbn. eauto.
  - intros [(ba & (xa & -> & (ya & Ha & _)%res_bind_ok)%res_bind_ok) (bb & (xb & -> & (yb & Hb & _)%res_bind_ok)%res_bind_ok)].
    cbn. rewrite Ha. cbn. rewrite Hb. cbn. destruct (kleene_and ya yb) as [[]|]; cbn; eauto.
Qed.

Lemma tested_iff s e r : tested s e r <-> exists b, test s e r = Ok b.
Proof. unfold tested. split; [eauto|]. intros [b Hb]. by rewrite Hb, (test_passes _ _ _ _ Hb). Qed.

(** [Filter(target, ...)] with more conjuncts, merged into the filter [target] may already be. *)
Definition with_conjuncts (target : plan) (fresh : list expr) : res plan :=
  match target with
  | PFilter i e => let* combined := combine_conjuncts (split_conjuncts e ++ fresh) in Ok (PFilter i combined)
  | _ => let* combined := combine_conjuncts fresh in Ok (PFilter target combined)
  end.

(** A plan as the conjuncts of its filter, if it is one, over what is below. *)
Definition filter_parts (p : plan) : plan * list expr :=
  match p with PFilter i e => (i, split_conjuncts e) | _ => (p, []) end.

Lemma filter_parts_spec p s :
  schema_of p = Some s ->
  let '(i, es) := filter_parts p in
  schema_of i = Some s /\ Forall (fun e => type_of s e = Some KBool) es /\ den p = List.filter (all_pass s es) (den i) /\
  forall l, exec p = Ok l -> exists rows, exec i = Ok rows /\ Forall (fun r => Forall (fun e => exists b, test s e r = Ok b) es) rows.
Proof.
  intros Hs. destruct p as [|i e| | | | | | | | |]; cbn [filter_parts];
    try (split_and!; [done|constructor|symmetry; apply filter_true|]; intros l Hl; exists l; split; [done|];
         rewrite Forall_forall; constructor).
  apply filter_schema in Hs as [Hi Hte]. split_and!; [done|by apply (conjunctive_split _ e (typed_conjunctive s))| |].
  - cbn [den]. rewrite (schema'_eq _ _ Hi). apply filter_ext. intros r. symmetry. apply all_pass_split.
  - intros l Hl. cbn [exec] in Hl. apply res_bind_ok in Hl as (rows & Hr & Hf). rewrite (schema'_eq _ _ Hi) in Hf.
    exists rows. split; [done|]. eapply Forall_impl; [by eapply filterM_inv|]. cbn beta. intros r Hr'.
    apply (conjunctive_split _ e (test_conjunctive s r)). by apply tested_iff.
Qed.

Lemma with_conjuncts_spec p s fresh p' :
  schema_of p = Some s -> Forall (fun e => type_of s e = Some KBool) fresh ->
  Forall (fun e => safe_expr e = true) fresh -> with_conjuncts p fresh = Ok p' ->
  schema_of p' = Some s /\ den p' = List.filter (all_pass s fresh) (den p) /\
  forall l, exec p = Ok l -> exec p' = Ok (den p').
Proof.
  intros Hs Ht Hsafe Hp. pose proof (filter_parts_spec p s Hs) as Hparts.
  assert ((let* e := combine_conjuncts ((filter_parts p).2 ++ fresh) in Ok (PFilter (filter_parts p).1 e)) = Ok p') as Hp' by (by destruct p).
  destruct (filter_parts p) as [i es]. destruct Hparts as (Hi & Hes & Hd & Hx). cbn in Hp'.
  apply res_bind_ok in Hp' as (e & He & [= <-]). clear Hp.
  assert (Forall (fun e => type_of s e = Some KBool) (es ++ fresh)) as Hall by (by apply Forall_app).
  assert (den (PFilter i e) = List.filter (all_pass s fresh) (den p)) as Hden.
  { cbn [den]. rewrite Hd, (schema'_eq _ _ Hi), filter_filter_bool. apply filter_ext. intros r.
    rewrite (plan_passes_combine _ _ _ _ He). unfold all_pass. by rewrite forallb_app. }
  split_and!; [|done|].
  - apply filter_schema. split; [done|]. by apply (conjunctive_combine _ _ _ (typed_conjunctive s) He).
  - intros l Hl. destruct (Hx l Hl) as (rows & Hr & Hrows). cbn [exec den]. rewrite Hr, (schema'_eq _ _ Hi). cbn.
    rewrite <- (exec_den _ _ Hr). rewrite <- (exec_den _ _ Hr) in Hrows. apply filterM_intro. pose proof (den_ok i s Hi) as Hok.
    rewrite Forall_forall in *. intros r Hin. apply tested_iff, (conjunctive_combine _ _ _ (test_conjunctive s r) He), Forall_app.
    split; [by apply Hrows|]. rewrite Forall_forall. intros c Hc. eexists. rewrite Forall_forall in Hsafe. rewrite Forall_forall in Ht. apply test_safe; auto.
Qed.

(** A side of a join with some of its rows filtered out, none of them one that [need]s keeping. *)
Record narrowed (need : row -> Prop) (s : schema) (p p' : plan) : Prop := {
  nw_schema : schema_of p' = Some s;
  nw_rows : exists q, den p' = List.filter q (den p) /\ forall r, r ∈ den p -> need r -> q r = true;
  nw_exec : forall l, exec p = Ok l -> exec p' = Ok (den p');
}.

Lemma narrowed_refl need s p : schema_of p = Some s -> narrowed need s p p.
Proof.
  intros Hs. split; [done| |].
  - exists (fun _ => true). split; [by rewrite filter_true|done].
  - intros l Hl. by rewrite (exec_den _ _ Hl).
Qed.

Lemma add_inferred_narrowed implied need s p p' key cons src p'' b :
  narrowed need s p p' -> add_inferred implied p' key cons src = Ok (p'', b) ->
  (forall c, c ∈ cons -> let e := remap_columns c {[src := key]} in
     safe_expr e = true /\ type_of s e = Some KBool /\ forall r, r ∈ den p -> need r -> passes s e r = true) ->
  narrowed need s p p''.
Proof.
  intros [H1 (q & H2 & H3) H4] Ha Hc. unfold add_inferred in Ha.
  set (fresh := List.filter _ (List.filter _ _)) in Ha.
  assert (forall e, e ∈ fresh -> safe_expr e = true /\ type_of s e = Some KBool /\ forall r, r ∈ den p -> need r -> passes s e r = true) as Hf.
  { intros e He. unfold fresh in He. apply elem_of_filter_bool in He as [He _]. apply elem_of_filter_bool in He as [He _].
    apply rephrase_elem in He as (c & Hin & ->). by apply Hc. }
  destruct fresh as [|e0 es] eqn:Ef; [injection Ha as <- <-; split; eauto|]. rewrite <- Ef in *.
  assert (with_conjuncts p' fresh = Ok p'') as Hw.
  { unfold with_conjuncts. destruct p'; apply res_bind_ok in Ha as (e & He & [= <- <-]); rewrite He; done. }
  destruct (with_conjuncts_spec p' s fresh p'' H1) as (W1 & W2 & W3); [..|done|].
  - rewrite Forall_forall. intros e He. by apply Hf.
  - rewrite Forall_forall. intros e He. by apply Hf.
  - split; [done| |].
    + exists (fun r => q r && all_pass s fresh r). rewrite W2, H2, filter_filter_bool. split; [done|]. intros r Hr Hn.
      rewrite (H3 r Hr Hn). cbn. unfold all_pass. apply forallb_forall. intros e He%list_elem_of_In. by apply Hf.
    + intros l Hl. eapply W3. by apply H4 in Hl.
Qed.

Lemma mirror_narrowed implied allowed s source sk s0 need p p' key p'' b :
  narrowed need s p p' -> mirror implied allowed source sk p' key = Ok (p'', b) ->
  schema_of source = Some s0 -> s !! key = s0 !! sk ->
  (forall r, r ∈ den p -> need r -> exists l, l ∈ den source /\ canon <$> l !! sk = canon <$> r !! key) ->
  narrowed need s p p'' /\ (allowed = false -> p'' = p').
Proof.
  intros Hn Hm Hs0 Hk Hneed. unfold mirror in Hm. destruct allowed; [|injection Hm as <- <-; done].
  split; [|done]. destruct (column_constraints source sk) as [|c0 cs] eqn:Ec; [by injection Hm as <- <-|].
  eapply add_inferred_narrowed; [done..|]. rewrite <- Ec. clear c0 cs Ec Hm. intros c Hc e.
  destruct (constraints_hold source s0 sk c Hs0 Hc) as [(op & lf & v & Hop & ->) Ht Hr].
  assert (is_Some (s0 !! sk)) as Hsome by (by eapply cmp_typed). unfold e. rewrite remap_cmp. split_and!.
  - by apply safe_cmp.
  - rewrite <- Ht. by apply type_cmp.
  - intros r Hin Hnd. destruct (Hneed r Hin Hnd) as (l & Hl & Hkey). rewrite Forall_forall in Hr. rewrite <- (Hr l Hl).
    symmetry. apply passes_cmp; [done|done|by rewrite Hk|done].
Qed.

(** ** Joins of narrowed inputs *)

Section NarrowedRows.
Variables (m : row -> row -> bool) (mk : row -> row -> row) (q : row -> bool).

Lemma narrowed_right jt L R :
  mirrors_right jt = true -> (forall l r, l ∈ L -> r ∈ R -> m l r = true -> q r = true) ->
  join_rows m mk jt L (List.filter q R) = join_rows m mk jt L R.
Proof.
  intros Hj Hq. assert (forall l, l ∈ L -> List.filter (m l) (List.filter q R) = List.filter (m l) R) as Hm.
  { intros l Hl. rewrite filter_filter_bool. apply filter_ext_in. intros r Hr%list_elem_of_In. specialize (Hq l r Hl Hr).
    destruct (m l r), (q r); auto. }
  destruct jt; try done; cbn [join_rows].
  - apply flat_map_ext_in. intros l Hl. by rewrite Hm.
  - apply flat_map_ext_in. intros l Hl. by rewrite Hm.
  - f_equal. apply filter_ext_in. intros l Hl%list_elem_of_In. by rewrite !existsb_filter_nil, Hm.
  - f_equal. apply filter_ext_in. intros l Hl%list_elem_of_In. by rewrite !existsb_filter_nil, Hm.
Qed.

Lemma narrowed_left jt L R :
  mirrors_left jt = true -> (forall l r, l ∈ L -> r ∈ R -> m l r = true -> q l = true) ->
  join_rows m mk jt (List.filter q L) R = join_rows m mk jt L R.
Proof.
  intros Hj Hq. assert (inner_rows m mk (List.filter q L) R = inner_rows m mk L R) as Hi.
  { unfold inner_rows. rewrite flat_map_filter. apply flat_map_ext_in. intros l Hl. destruct (q l) eqn:E; [done|].
    rewrite (filter_ext_in (m l) (fun _ => false)), filter_false; [done|]. intros r Hr%list_elem_of_In.
    destruct (m l r) eqn:Em; [|done]. by rewrite (Hq l r Hl Hr Em) in E. }
  destruct jt; try done; cbn [join_rows]; rewrite Hi; try done. f_equal. unfold lone_right. f_equal. apply filter_ext_in.
  intros r Hr%list_elem_of_In. f_equal. apply eq_true_iff_eq. rewrite !existsb_exists.
  split; intros (l & Hl & Hm); exists l; rewrite filter_In in *; [tauto|]. split_and!; try done.
  apply (Hq l r); try done. by apply list_elem_of_In.
Qed.
End NarrowedRows.

Section Infer.
Variable implied : plan -> string -> expr -> bool.
Variables (l r : plan) (lk rk : list string) (jt : join_type) (out : list join_output_col) (st : join_strategy) (s ls rs : schema).
Hypothesis Hl : schema_of l = Some ls.
Hypothesis Hr : schema_of r = Some rs.
Hypothesis Hty : join_typed ls rs lk rk jt out s.
Let m := matches (zip lk rk).
Definition right_need (y : row) : Prop := exists x, x ∈ den l /\ m x y = true.
Definition left_need (x : row) : Prop := exists y, y ∈ den r /\ m x y = true.

Lemma key_values k x y : k ∈ zip lk rk -> m x y = true -> canon <$> x !! k.1 = canon <$> y !! k.2.
Proof using.
  intros Hk Hm. pose proof (matches_key lk rk k x y Hk Hm) as H. unfold key_eq in H.
  destruct (x !! k.1), (y !! k.2); try done. apply bool_decide_eq_true in H. cbn. congruence.
Qed.

Lemma infer_loop_narrowed keys : (forall k, k ∈ keys -> k ∈ zip lk rk) -> forall nl nr c nl' nr' c',
  narrowed left_need ls l nl -> narrowed right_need rs r nr ->
  infer_loop implied jt l r keys nl nr c = Ok (nl', nr', c') ->
  narrowed left_need ls l nl' /\ narrowed right_need rs r nr' /\
  (mirrors_left jt = false -> nl' = nl) /\ (mirrors_right jt = false -> nr' = nr).
Proof using Hl Hr Hty.
  induction keys as [|[a b] keys IH]; intros Hk nl nr c nl' nr' c' Hnl Hnr; cbn [infer_loop].
  - intros [= <- <- <-]. done.
  - intros ([nr1 b1] & H1 & H)%res_bind_ok. apply res_bind_ok in H as ([nl1 b2] & H2 & H). cbn in H.
    pose proof (Hk (a, b) ltac:(left)) as Hab. destruct (jty_keys _ _ _ _ _ _ _ Hty _ Hab) as [_ Hkk]. cbn in Hkk.
    destruct (mirror_narrowed _ _ _ _ _ _ _ _ _ _ _ _ Hnr H1 Hl (eq_sym Hkk)) as [N1 E1].
    { intros y Hy (x & Hx & Hm). exists x. split; [done|]. by apply (key_values (a, b)). }
    destruct (mirror_narrowed _ _ _ _ _ _ _ _ _ _ _ _ Hnl H2 Hr Hkk) as [N2 E2].
    { intros x Hx (y & Hy & Hm). exists y. split; [done|]. symmetry. by apply (key_values (a, b)). }
    destruct (IH ltac:(intros k ?; apply Hk; by right) _ _ _ _ _ _ N2 N1 H) as (N3 & N4 & E3 & E4).
    split_and!; [done..| |]; intros Hf; [rewrite (E3 Hf)|rewrite (E4 Hf)]; auto.
Qed.

Lemma infer_join nl nr :
  schema_of (PJoin l r lk rk jt out st) = Some s ->
  narrowed left_need ls l nl -> narrowed right_need rs r nr ->
  (mirrors_left jt = false -> nl = l) -> (mirrors_right jt = false -> nr = r) ->
  schema_of (PJoin nl nr lk rk jt out st) = Some s /\
  den (PJoin nl nr lk rk jt out st) = den (PJoin l r lk rk jt out st) /\
  forall rows, exec (PJoin l r lk rk jt out st) = Ok rows -> exec (PJoin nl nr lk rk jt out st) = Ok rows.
Proof using Hl Hr.
  intros Hs [L1 (ql & L2 & L3) L4] [R1 (qr & R2 & R3) R4] El Er.
  assert (join_rows m (out_row out) jt (den nl) (den nr) = join_rows m (out_row out) jt (den l) (den r)) as Hd.
  { transitivity (join_rows m (out_row out) jt (den nl) (den r)).
    - destruct (mirrors_right jt) eqn:Hm; [|by rewrite Er]. rewrite R2. apply narrowed_right; [done|].
      intros x y Hx Hy Hxy. apply R3; [done|]. exists x. rewrite L2 in Hx. by apply elem_of_filter_bool in Hx as [? _].
    - destruct (mirrors_left jt) eqn:Hm; [|by rewrite El]. rewrite L2. apply narrowed_left; [done|].
      intros x y Hx Hy Hxy. apply L3; [done|]. by exists y. }
  split_and!; [|done|].
  - rewrite <- Hs. cbn. by rewrite L1, R1, Hl, Hr.
  - intros rows Hx. cbn [exec] in *. apply res_bind_ok in Hx as (xl & Hxl & Hx). apply res_bind_ok in Hx as (xr & Hxr & [= <-]).
    rewrite (L4 _ Hxl). cbn. rewrite (R4 _ Hxr). cbn. f_equal. fold m. by rewrite Hd, (exec_den _ _ Hxl), (exec_den _ _ Hxr).
Qed.
End Infer.

Lemma infer_sound implied node p' : infer_join_predicates implied node = Ok (Some p') -> same_result node p'.
Proof.
  intros Hp s Hs. destruct node as [| | |l r lk rk jt out st| | | | | | |]; try done. cbn [infer_join_predicates] in Hp.
  destruct (_ || _); [|done]. apply res_bind_ok in Hp as ([[nl nr] c] & Hloop & Hp).
  destruct c; [|done]. injection Hp as <-. destruct (join_schema _ _ _ _ _ _ _ _ Hs) as (ls & rs & Hl & Hr & Hty).
  destruct (infer_loop_narrowed implied l r lk rk jt out s ls rs Hl Hr Hty (zip lk rk) (fun _ H => H) _ _ _ _ _ _
    (narrowed_refl _ _ _ Hl) (narrowed_refl _ _ _ Hr) Hloop) as (N1 & N2 & E1 & E2).
  by eapply infer_join.
Qed.

Lemma infer_total implied node : exists o, infer_join_predicates implied node = Ok o.
Proof.
  assert (forall p key cs src, exists x, add_inferred implied p key cs src = Ok x) as Ha.
  { intros p key cs src. unfold add_inferred. destruct (List.filter _ (List.filter _ _)) as [|e es]; [by eexists|].
    unfold combine_conjuncts. destruct (combine_total And (e :: es)) as [c Hc]; [done|].
    destruct p; try (rewrite Hc; by eexists). destruct (combine_total And (split_conjuncts predicate ++ e :: es)) as [d ->];
      [by destruct (split_conjuncts predicate)|by eexists]. }
  assert (forall a p k q k', exists x, mirror implied a p k q k' = Ok x) as Hm.
  { intros [] p k q k'; cbn; [destruct (column_constraints p k); [by eexists|apply Ha]|by eexists]. }
  assert (forall jt l r keys nl nr c, exists x, infer_loop implied jt l r keys nl nr c = Ok x) as Hl.
  { intros jt l r keys. induction keys as [|[a b] keys IH]; intros nl nr c; cbn [infer_loop]; [by eexists|].
    destruct (Hm (mirrors_right jt) l a nr b) as [x ->]. cbn [mbind res_bind].
    destruct (Hm (mirrors_left jt) r b nl a) as [y ->]. apply IH. }
  destruct node as [| | |l r lk rk jt out st| | | | | | |]; try by eexists. cbn [infer_join_predicates].
  destruct (_ || _); [|by eexists]. destruct (Hl jt l r (zip lk rk) l r false) as [[[nl nr] []] ->]; by eexists.
Qed.

(** C30: mirroring a constant constraint across a join's keys is exact.  The rule always returns;
    and whatever the statistics say is already implied, the filters it adds to an input hold
    of every row of the other input's key, so they drop only rows that match nothing on a side
    whose unmatched rows the join drops or ignores: the schema and the rows are kept, in order,
    and the new plan returns whenever the old one does. *)
Theorem infer_join_predicates_exact implied node :
  exists o, infer_join_predicates implied node = Ok o /\ forall p', o = Some p' -> same_result node p'.
Proof.
  destruct (infer_total implied node) as [o Ho]. exists o. split; [done|]. intros p' ->. by apply (infer_sound implied).
Qed.
End Constraints.

(** The left input keeps only keys from 2 up. *)
Definition filtered_join : plan :=
  PJoin (PFilter left_table (Binary CGe (Col "k") (Lit (VInt 2)))) right_table ["k"] ["k"] JLeft coalesced Hash.

Lemma infer_join_predicates_exact_witness :
  exists p', infer_join_predicates (fun _ _ _ => false) filtered_join = Ok (Some p') /\
    @exec (toy_plans two_tables) p' =
      Ok [{["k" := VInt 2; "v" := VInt 20; "w" := VInt 7]}; {["k" := VInt 2; "v" := VInt 20; "w" := VInt 8]}].
Proof.
  destruct (@infer_join_predicates_exact (toy_plans two_tables) (fun _ _ _ => false) filtered_join) as (o & Ho & H).
  destruct o as [p'|]; [|vm_compute in Ho; discriminate Ho]. exists p'. split; [exact Ho|].
  refine (proj2 (proj2 (H p' eq_refl {["k" := KInt; "v" := KInt; "w" := KInt]} _)) _ _); vm_compute; reflexivity.
Defined.
