(* ===== verification/PlanSemiPush.v ===== *)
(** * Semi joins below inner joins

    kyber/rules/pushdown.py: [push_semijoin_through_join] and [_semijoin_onto]. *)

From Stdlib Require Import Floats.SpecFloat.
From S2P Require Import Prelude ExprIR ExprSound ExprAlgebra PlanIR PlanSound PlanPushdown PlanLocal PlanJoins PlanSemi PlanUnique.

#[global] Instance join_output_col_eq_dec : EqDecision join_output_col.
Proof. solve_decision. Defined.

(** ** The rule *)

(** The projections above the inner join, outermost first, and the keys renamed to their
    source columns on the way down; [None] when a key is computed. *)
Fixpoint peel_projects (p : plan) (keys : list string) : option (list (list (string * expr)) * plan * list string) :=
  match p with
  | PProject i its =>
      keys ← opt_mapM (fun k => passthrough_renames its !! k) keys;
      '(ps, j, keys) ← peel_projects i keys; Some (its :: ps, j, keys)
  | _ => Some ([], p, keys)
  end.

(** [for project in reversed(projects): result = Project(result, project.items)]. *)
Definition reapply (ps : list (list (string * expr))) (p : plan) : plan := foldr (fun its q => PProject q its) p ps.

Definition identity_output (cols : list string) : list join_output_col := map (fun c => JoinOutputCol SLeft c c) cols.

Section Rule.
Context {PE : PlanEngine}.

(** [_semijoin_onto]. *)
Definition semijoin_onto (target right : plan) (left_keys right_keys : list string) (jt : join_type) (st : join_strategy) : plan :=
  PJoin target right left_keys right_keys jt (identity_output (available_columns target)) st.

(** The inner join with one side replaced. *)
Definition sunk_join (sd : side) (pushed l r : plan) (lk rk : list string) (out : list join_output_col) (st : join_strategy) : plan :=
  match sd with SLeft => PJoin pushed r lk rk JInner out st | SRight => PJoin l pushed lk rk JInner out st end.

(** [semijoin_goes_first]: the cost model's choice. *)
Variable goes_first : plan -> plan -> plan -> bool.

(** The one side all the columns come from. *)
Definition sole_side (cols : list join_output_col) : option side :=
  match cols with
  | [] => None
  | o :: cols' => if forallb (fun o' => bool_decide (o'.(oside) = o.(oside))) cols' then Some o.(oside) else None
  end.

Definition push_semijoin_through_join (node : plan) : option plan :=
  match node with
  | PJoin pl pr lk rk jt _ st =>
      if match jt with JSemi | JAnti => true | _ => false end then
        '(ps, cur, keys) ← peel_projects pl lk;
        match cur with
        | PJoin l r ilk irk JInner out ist =>
            let out_by_alias := py_dict (map (fun o => (o.(oalias), o)) out) in
            cols ← opt_mapM (fun k => out_by_alias !! k) keys;
            sd ← sole_side cols;
            let target := match sd with SLeft => l | SRight => r end in
            let pushed := semijoin_onto target pr (map oname cols) rk jt st in
            if goes_first target pushed cur then
              Some (reapply ps (sunk_join sd pushed l r ilk irk out ist))
            else None
        | _ => None
        end
      else None
  | _ => None
  end.
End Rule.

(** ** Filtering a relation on the values of some columns *)

Definition key_vals (keys : list string) (x : row) : list (option value) := map (fun k => x !! k) keys.

Section Filtered.
Context {PE : PlanEngine}.

(** [p'] is [p] with the rows [q] rejects left out, and returns if [p] does and [E] holds. *)
Definition filtered_by (E : Prop) (q : row -> bool) (p p' : plan) : Prop :=
  forall s, schema_of p = Some s ->
    schema_of p' = Some s /\ den p' = List.filter q (den p) /\ (E -> forall l, exec p = Ok l -> exec p' = Ok (den p')).

Lemma filtered_project E q its i i' :
  (forall si, schema_of i = Some si -> filtered_by E (fun x => q (project_row si its x)) i i') ->
  filtered_by E q (PProject i its) (PProject i' its).
Proof.
  intros Hi s Hs. destruct (un_typed _ (unary_project its) _ _ Hs) as [si Hsi].
  destruct (Hi si Hsi si Hsi) as (H1 & H2 & H3). split_and!.
  - rewrite <- Hs. apply (un_schema _ (unary_project its)). congruence.
  - cbn [den]. by rewrite (schema'_eq _ _ H1), (schema'_eq _ _ Hsi), filter_map_swap, H2.
  - intros HE l Hx. destruct (project_exec_inv _ _ _ _ Hsi Hx) as (rows & vs & Hr & Hv & _).
    pose proof (H3 HE _ Hr) as Hr'. rewrite H2, (exec_den _ _ Hr) in Hr'.
    destruct (evaluate_filter si (map snd its) (fun x => q (project_row si its x)) rows vs Hv) as [vs' Hv'].
    rewrite (project_exec _ _ _ _ _ H1 Hr' Hv'). cbn [den]. by rewrite (schema'_eq _ _ H1), H2, (exec_den _ _ Hr).
Qed.

Lemma project_row_passes i its s si x c d :
  schema_of (PProject i its) = Some s -> schema_of i = Some si -> passthrough_renames its !! c = Some d ->
  project_row si its x !! c = x !! d.
Proof.
  intros Hs Hi Hc. destruct (project_schema _ _ _ Hs) as (si' & ks & Hi' & Hks & Hn & _). rewrite Hi in Hi'. injection Hi' as <-.
  unfold passthrough_renames in Hc. apply lookup_py_dict, list_elem_of_omap in Hc as ([a e] & Hin & He).
  cbn in He. destruct e; try done. injection He as -> ->.
  destruct (assoc_zip_forall2 (fun e k => type_of si e = Some k) its ks c (Col d)) as (k & _ & Ht); [done..|by apply opt_mapM_Some|].
  change (si !! d = Some k) in Ht. unfold project_row. rewrite lookup_bind_row, (assoc_nodup c (value_at si (Col d) x)).
  - unfold value_at, run. cbn. by rewrite Ht.
  - by rewrite map_map.
  - apply list_elem_of_fmap. by exists (c, Col d).
Qed.

(** A filter on key columns crosses pass-through projections. *)
Lemma filtered_reapply E (q : list (option value) -> bool) p keys ps j j' ks :
  peel_projects p keys = Some (ps, j, ks) -> filtered_by E (fun x => q (key_vals ks x)) j j' ->
  filtered_by E (fun x => q (key_vals keys x)) p (reapply ps j').
Proof.
  revert keys ps. induction p using plan_ind'; intros keys ps; cbn [peel_projects];
    try (intros [= <- <- <-] Hj; exact Hj).
  destruct (opt_mapM _ keys) as [keys'|] eqn:Hk; [|done]. cbn.
  destruct (peel_projects p keys') as [[[ps' j0] ks0]|] eqn:Hp; [|done]. intros [= <- <- <-] Hj.
  change (reapply (its :: ps') j') with (PProject (reapply ps' j') its).
  intros s Hs. eapply filtered_project; [|exact Hs]. intros si Hsi s' Hs'. rewrite Hsi in Hs'. injection Hs' as <-.
  assert (forall x, key_vals keys (project_row si its x) = key_vals keys' x) as Hv.
  { intros x. apply opt_mapM_Some in Hk. clear -Hk Hs Hsi. induction Hk as [|k d keys keys' Hd _ IH]; cbn; [done|].
    f_equal; [|done]. by eapply project_row_passes. }
  destruct (IHp keys' ps' Hp Hj si Hsi) as (H1 & H2 & H3). split_and!; [done| |done].
  rewrite H2. apply filter_ext. intros x. by rewrite Hv.
Qed.
End Filtered.

(** ** The semi join as a filter *)

Section SemiPush.
Context {PE : PlanEngine}.

Lemma assoc_some {A} c (l : list (string * A)) : c ∈ map fst l -> is_Some (assoc c l).
Proof. intros Hc. destruct (assoc c l) eqn:E; [by eexists|]. by apply assoc_none in E. Qed.

Lemma assoc_zip_some {A} c cs (xs : list A) : length xs = length cs -> c ∈ cs -> is_Some (assoc c (zip cs xs)).
Proof. intros Hl Hc. apply assoc_some. change (c ∈ (zip cs xs).*1). by rewrite fst_zip by lia. Qed.

Lemma opt_mapM_length {A B} (f : A -> option B) l ys : opt_mapM f l = Some ys -> length ys = length l.
Proof. intros H%opt_mapM_Some. symmetry. by eapply Forall2_length. Qed.

Lemma available_spec p : forall s, schema_of p = Some s ->
  NoDup (available_columns p) /\ forall c, c ∈ available_columns p -> is_Some (s !! c).
Proof.
  induction p using plan_ind'; intros sc Hs; cbn [available_columns].
  - cbn in Hs. case_bool_decide; [|done]. simplify_eq. split; [done|]. intros c Hc. rewrite lookup_list_to_map. by apply assoc_some.
  - apply filter_schema in Hs as [Hs _]. auto.
  - destruct (project_schema _ _ _ Hs) as (si & ks & _ & Hks & Hn & ->). split; [done|]. intros c Hc.
    rewrite lookup_list_to_map. apply assoc_zip_some; [|done]. by rewrite (opt_mapM_length _ _ _ Hks), !length_map.
  - destruct (join_schema _ _ _ _ _ _ _ _ Hs) as (? & ? & _ & _ & Hty). split; [apply Hty|].
    intros c (oc & -> & Ho)%list_elem_of_fmap. by apply (jty_out _ _ _ _ _ _ _ Hty).
  - cbn in Hs. destruct (schema_of p) as [si|]; [|done]. cbn in Hs. destruct (opt_mapM (type_of si) _) as [kg|] eqn:Hg; [|done]. cbn in Hs.
    destruct (opt_mapM _ ags) as [ka|] eqn:Ha; [|done]. cbn in Hs. case_bool_decide; [|done]. simplify_eq. split; [done|].
    intros c [Hc|Hc]%elem_of_app; rewrite lookup_list_to_map, assoc_app.
    + destruct (assoc_zip_some c (map fst ks) kg) as [k ->]; [by rewrite (opt_mapM_length _ _ _ Hg), !length_map|done|by eexists].
    + destruct (assoc c (zip (map fst ks) kg)); [by eexists|]. apply assoc_zip_some; [|done].
      by rewrite (opt_mapM_length _ _ _ Ha), !length_map.
  - destruct (un_typed _ (unary_sort ks n) _ _ Hs) as [si Hi]. cbn in Hs. rewrite Hi in Hs. cbn in Hs.
    destruct (forallb _ ks); [|done]. simplify_eq. auto.
  - cbn in Hs. destruct (schema_of p) as [si|] eqn:E; [|done]. cbn in Hs. destruct (opt_mapM _ fs) as [kf|] eqn:Hf; [|done]. cbn in Hs.
    destruct (_ && _ && _ && _) eqn:Hb in Hs; [|done]. bsplit. simplify_eq. destruct (IHp si eq_refl) as [Hn Hd]. split.
    + apply NoDup_app. split_and!; [done| |done]. intros c Hc (f & -> & Hin)%list_elem_of_fmap.
      rewrite forallb_forall in H1. apply list_elem_of_In, H1, bool_decide_eq_true in Hin. destruct (Hd _ Hc). congruence.
    + intros c [Hc|Hc]%elem_of_app; rewrite lookup_union, lookup_list_to_map.
      * destruct (Hd c Hc) as [k ->]. destruct (assoc c _); by eexists.
      * destruct (assoc_zip_some c (map win_alias fs) kf) as [k ->]; [by rewrite (opt_mapM_length _ _ _ Hf), !length_map|done|].
        destruct (si !! c); by eexists.
  - destruct (un_typed _ (unary_distinct ks o n) _ _ Hs) as [si Hi]. cbn in Hs. rewrite Hi in Hs. cbn in Hs.
    destruct (_ && _); [|done]. simplify_eq. auto.
  - auto.
  - auto.
  - cbn in Hs. destruct (opt_mapM schema_of l) as [ss|]; [|done]. cbn in Hs. rewrite Hs. cbn. split.
    + apply NoDup_fst_map_to_list.
    + intros c ([c' k] & -> & Hc)%list_elem_of_fmap. apply elem_of_map_to_list in Hc. cbn. by eexists.
Qed.

(** A semi or anti join that passes its left columns through keeps rows as they are. *)
Lemma identity_row cols (s : schema) x r :
  NoDup cols -> (forall c, is_Some (s !! c) -> c ∈ cols) -> row_ok s x -> out_row (identity_output cols) x r = x.
Proof.
  intros Hn Hc Hx. apply map_eq. intros c. destruct (decide (c ∈ cols)) as [Hin|Hout].
  - assert (JoinOutputCol SLeft c c ∈ identity_output cols) as Ho by (apply list_elem_of_fmap; eauto).
    apply (out_row_lookup _ x r _) in Ho; [done|]. unfold identity_output. rewrite map_map. cbn. by rewrite map_id.
  - destruct (x !! c) as [v|] eqn:E; [destruct Hout; apply Hc; rewrite (Hx c v E); by eexists|].
    unfold out_row. rewrite lookup_bind_row.
    destruct (assoc c _) eqn:Ea; [|done]. apply assoc_elem in Ea. rewrite list_elem_of_fmap in Ea. destruct Ea as (oc & E' & Ho).
    apply list_elem_of_fmap in Ho as (d & -> & Hd). cbn in E'. by injection E' as -> _.
Qed.

Definition semi_test (jt : join_type) (rk : list string) (R : list row) (vs : list (option value)) : bool :=
  let found := existsb (fun y => forallb (fun v => key_eq v.1 v.2) (zip vs (key_vals rk y))) R in
  match jt with JSemi => found | _ => negb found end.

Lemma matches_vals lk rk x y : matches (zip lk rk) x y = forallb (fun v => key_eq v.1 v.2) (zip (key_vals lk x) (key_vals rk y)).
Proof.
  unfold matches, key_vals. revert rk. induction lk as [|a lk IH]; intros [|b rk]; cbn; try done. by rewrite IH.
Qed.

Lemma semi_filtered l r lk rk jt st s :
  jt = JSemi \/ jt = JAnti -> schema_of (PJoin l r lk rk jt (identity_output (available_columns l)) st) = Some s ->
  schema_of l = Some s /\
  den (PJoin l r lk rk jt (identity_output (available_columns l)) st) = List.filter (fun x => semi_test jt rk (den r) (key_vals lk x)) (den l) /\
  forall rows, exec (PJoin l r lk rk jt (identity_output (available_columns l)) st) = Ok rows ->
    exists xl xr, exec l = Ok xl /\ exec r = Ok xr.
Proof.
  intros Hj Hs. destruct (join_schema _ _ _ _ _ _ _ _ Hs) as (ls & rs & Hl & Hr & Hty).
  destruct (available_spec l ls Hl) as [Hn Hav].
  assert (ls = s) as ->.
  { apply map_eq. intros c. destruct (decide (c ∈ available_columns l)) as [Hc|Hc].
    - destruct (jty_out _ _ _ _ _ _ _ Hty (JoinOutputCol SLeft c c)) as [_ E]; [apply list_elem_of_fmap; eauto|]. done.
    - destruct (ls !! c) eqn:El; [destruct Hc; eapply available_columns_schema; [done|by rewrite El]|].
      destruct (s !! c) eqn:Es; [|done]. destruct (jty_dom _ _ _ _ _ _ _ Hty c) as (o & Ho & <-); [by rewrite Es|].
      apply list_elem_of_fmap in Ho as (d & -> & Hd). done. }
  split_and!; [done| |].
  - assert (forall x y, x ∈ den l -> out_row (identity_output (available_columns l)) x y = x) as Hid.
    { intros x y Hx. pose proof (den_ok l s Hl) as Hok. rewrite Forall_forall in Hok. eapply identity_row; [done| |by apply Hok].
      intros c. by apply available_columns_schema. }
    assert (forall f, map (fun x => out_row (identity_output (available_columns l)) x ∅) (List.filter f (den l)) = List.filter f (den l)) as Hmap.
    { intros f. rewrite <- (map_id (List.filter f (den l))) at 2. apply map_ext_in. intros x [Hx _]%filter_In. apply Hid. by apply list_elem_of_In. }
    assert (forall x, existsb (matches (zip lk rk) x) (den r) =
      existsb (fun y => forallb (fun v => key_eq v.1 v.2) (zip (key_vals lk x) (key_vals rk y))) (den r)) as He.
    { intros x. induction (den r) as [|y R IH]; cbn; [done|]. by rewrite IH, matches_vals. }
    cbn [den]. destruct Hj as [-> | ->]; cbn [join_rows]; rewrite Hmap; apply filter_ext; intros x; unfold semi_test; by rewrite He.
  - intros rows Hx. cbn [exec] in Hx. apply res_bind_ok in Hx as (xl & Hxl & Hx). apply res_bind_ok in Hx as (xr & Hxr & _). eauto.
Qed.

Lemma opt_mapM_total {A B} (f : A -> option B) l : Forall (fun x => is_Some (f x)) l -> exists ys, opt_mapM f l = Some ys.
Proof. induction 1 as [|x l [y Hy] _ [ys IH]]; cbn; [by eexists|]. rewrite Hy. cbn. rewrite IH. by eexists. Qed.

Lemma semijoin_onto_schema target right names rk jt st s sr :
  jt = JSemi \/ jt = JAnti -> schema_of target = Some s -> schema_of right = Some sr -> length names = length rk ->
  (forall k, k ∈ zip names rk -> is_Some (s !! k.1) /\ s !! k.1 = sr !! k.2) ->
  schema_of (semijoin_onto target right names rk jt st) = Some s.
Proof.
  intros Hj Hs Hr Hlen Hk. assert (exists s', schema_of (semijoin_onto target right names rk jt st) = Some s') as [s' Hs'].
  { destruct (available_spec target s Hs) as [Hn Hav]. unfold semijoin_onto. cbn. rewrite Hs, Hr. cbn.
    assert (exists cs, opt_mapM (out_kind s sr) (identity_output (available_columns target)) = Some cs) as [cs ->].
    { apply opt_mapM_total, Forall_map_intro, Forall_forall. intros c Hc. destruct (Hav c Hc) as [k Hk'].
      unfold out_kind. cbn. rewrite Hk'. by eexists. }
    cbn. rewrite Hlen, Nat.eqb_refl. cbn.
    assert (forallb (fun k => bool_decide (is_Some (s !! k.1) /\ s !! k.1 = sr !! k.2)) (zip names rk) = true) as ->.
    { apply forallb_forall. intros k Hin%list_elem_of_In. apply bool_decide_eq_true. auto. }
    rewrite bool_decide_true by (unfold identity_output; rewrite map_map; cbn; by rewrite map_id).
    assert (forallb (fun o => bool_decide (oside o = SLeft)) (identity_output (available_columns target)) = true) as ->.
    { apply forallb_forall. intros o (c & <- & _)%in_map_iff. done. }
    destruct Hj as [-> | ->]; by eexists. }
  rewrite Hs'. destruct (semi_filtered _ _ _ _ _ _ _ Hj Hs') as (E & _ & _). congruence.
Qed.

(** The types of the keys on the way down. *)
Lemma peel_schema p : forall keys ps j ks s,
  peel_projects p keys = Some (ps, j, ks) -> schema_of p = Some s ->
  exists sj, schema_of j = Some sj /\ Forall2 (fun k k' => s !! k = sj !! k') keys ks.
Proof.
  induction p using plan_ind'; intros keys ps j ks' sc; cbn [peel_projects];
    try (intros [= <- <- <-] Hs; eexists; split; [exact Hs|]; apply Forall_Forall2_diag, Forall_forall; done).
  destruct (opt_mapM _ keys) as [keys'|] eqn:Hk; [|done]. cbn.
  destruct (peel_projects p keys') as [[[ps' j0] ks0]|] eqn:Hp; [|done]. intros [= <- <- <-] Hs.
  destruct (project_schema _ _ _ Hs) as (si & kk & Hi & Hkk & Hn & ->).
  destruct (IHp _ _ _ _ _ Hp Hi) as (sj & Hj & Hf). exists sj. split; [done|].
  apply opt_mapM_Some in Hk. clear -Hk Hf Hkk Hn. revert ks0 Hf.
  induction Hk as [|k d keys keys' Hd _ IH]; intros ks0 Hf; inversion Hf as [|? k' ? ks1 Hk' Hf']; subst; constructor; [|by apply IH].
  rewrite <- Hk'.
  rewrite lookup_list_to_map. unfold passthrough_renames in Hd. apply lookup_py_dict, list_elem_of_omap in Hd as ([a e] & Hin & He).
  cbn in He. destruct e; try done. injection He as -> ->.
  destruct (assoc_zip_forall2 (fun e k => type_of si e = Some k) its kk k (Col d)) as (t & -> & Ht); [done..|by apply opt_mapM_Some|done].
Qed.

(** Keys of the inner join's output, by the side they come from. *)
Lemma key_columns out keys cols sd :
  opt_mapM (fun k => py_dict (map (fun o => (o.(oalias), o)) out) !! k) keys = Some cols -> sole_side cols = Some sd ->
  Forall2 (fun k o => o ∈ out /\ o.(oalias) = k /\ o.(oside) = sd) keys cols.
Proof.
  intros Hk%opt_mapM_Some Hs.
  assert (Forall (fun o => o.(oside) = sd) cols) as Hsd.
  { destruct cols as [|o cols]; [constructor|]. cbn in Hs. destruct (forallb _ cols) eqn:Hf; [|done]. injection Hs as <-.
    constructor; [done|]. rewrite forallb_forall in Hf. rewrite Forall_forall. intros o' Ho%list_elem_of_In.
    by apply Hf, bool_decide_eq_true in Ho. }
  clear Hs. induction Hk as [|k o keys cols Hko _ IH]; constructor.
  - apply Forall_cons in Hsd as [Ho _]. apply lookup_py_dict, list_elem_of_fmap in Hko as (o' & [= -> ->] & Hin). done.
  - apply IH. by apply Forall_cons in Hsd as [_ ?].
Qed.

Lemma key_columns_vals out keys cols sd x y :
  NoDup (map oalias out) -> Forall2 (fun k o => o ∈ out /\ o.(oalias) = k /\ o.(oside) = sd) keys cols ->
  key_vals keys (out_row out x y) = key_vals (map oname cols) (pick sd x y).
Proof.
  intros Hn H. unfold key_vals. induction H as [|k o keys cols (Ho & <- & <-) _ IH]; cbn; [done|].
  rewrite IH. f_equal. by apply out_row_lookup.
Qed.

(** The inner join over the filtered side is the filtered inner join. *)
Section Inner.
Variables (l r pr : plan) (ilk irk rk keys : list string) (out cols : list join_output_col) (ist st : join_strategy)
  (jt : join_type) (sd : side) (ls rs sp : schema).
Hypothesis Hjt : jt = JSemi \/ jt = JAnti.
Hypothesis Hl : schema_of l = Some ls.
Hypothesis Hr : schema_of r = Some rs.
Hypothesis Hp : schema_of pr = Some sp.
Hypothesis Hcols : Forall2 (fun k o => o ∈ out /\ o.(oalias) = k /\ o.(oside) = sd) keys cols.
Hypothesis Hlen : length keys = length rk.
Abbreviation target := (match sd with SLeft => l | SRight => r end).
Abbreviation tschema := (match sd with SLeft => ls | SRight => rs end).
Hypothesis Hkeys : forall k, k ∈ zip (map oname cols) rk -> is_Some (tschema !! k.1) /\ tschema !! k.1 = sp !! k.2.
Abbreviation pushed := (semijoin_onto target pr (map oname cols) rk jt st).
Abbreviation T := (semi_test jt rk (den pr)).

Lemma pushed_spec :
  schema_of pushed = Some tschema /\ den pushed = List.filter (fun x => T (key_vals (map oname cols) x)) (den target) /\
  ((exists xr, exec pr = Ok xr) -> forall xt, exec target = Ok xt -> exec pushed = Ok (den pushed)).
Proof using Hjt Hl Hr Hp Hlen Hkeys Hcols.
  assert (schema_of pushed = Some tschema) as Hs.
  { apply semijoin_onto_schema with (sr := sp); [done|by destruct sd|done| |done].
    by rewrite length_map, <- (Forall2_length _ _ _ Hcols). }
  destruct (semi_filtered _ _ _ _ _ _ _ Hjt Hs) as (_ & Hd & _). split_and!; [done..|].
  intros [xr Hxr] xt Hxt. unfold semijoin_onto. cbn [exec den]. rewrite Hxt. cbn [mbind res_bind]. rewrite Hxr. cbn [mbind res_bind].
  by rewrite (exec_den _ _ Hxt), (exec_den _ _ Hxr).
Qed.

Lemma inner_filtered :
  filtered_by (exists xr, exec pr = Ok xr) (fun x => T (key_vals keys x)) (PJoin l r ilk irk JInner out ist)
    (sunk_join sd pushed l r ilk irk out ist).
Proof using Hjt Hl Hr Hp Hlen Hkeys Hcols.
  intros s Hs. destruct (join_schema _ _ _ _ _ _ _ _ Hs) as (ls' & rs' & Hl' & Hr' & Hty). simplify_eq.
  destruct pushed_spec as (P1 & P2 & P3).
  assert (forall x y, T (key_vals keys (out_row out x y)) = T (key_vals (map oname cols) (pick sd x y))) as Hv.
  { intros x y. by rewrite (key_columns_vals out keys cols sd x y (jty_nodup _ _ _ _ _ _ _ Hty) Hcols). }
  set (q := fun x => T (key_vals keys x)) in *. set (t := fun x => T (key_vals (map oname cols) x)) in *.
  unfold sunk_join. assert (den (match sd with SLeft => PJoin pushed r ilk irk JInner out ist | SRight => PJoin l pushed ilk irk JInner out ist end)
    = List.filter q (den (PJoin l r ilk irk JInner out ist))) as Hd.
  { destruct sd; cbn [den join_rows]; rewrite P2; symmetry;
      [rewrite (push_inner _ _ _ _ q t (fun _ => true) (fun _ => true))|rewrite (push_inner _ _ _ _ q (fun _ => true) t (fun _ => true))];
      rewrite ?filter_true; try done; intros x y _ _ _; unfold q; rewrite Hv; cbn; unfold t; by rewrite ?andb_true_r. }
  split_and!; [|done|].
  - rewrite <- Hs. destruct sd; cbn -[schema_of]; cbn [schema_of]; by rewrite P1, ?Hl, ?Hr.
  - intros Hx rows Hrows. rewrite Hd. cbn [exec] in Hrows. apply res_bind_ok in Hrows as (xl & Hxl & Hrows).
    apply res_bind_ok in Hrows as (xr & Hxr & _). rewrite <- Hd.
    destruct sd; cbn [exec den].
    + rewrite (P3 Hx _ Hxl). cbn [mbind res_bind]. rewrite Hxr. cbn [mbind res_bind]. by rewrite (exec_den _ _ Hxr).
    + rewrite Hxl. cbn [mbind res_bind]. rewrite (P3 Hx _ Hxr). cbn [mbind res_bind]. by rewrite (exec_den _ _ Hxl).
Qed.
End Inner.

(** The semi join shows its left input's columns under their own names. *)
Definition passes_left_through (node : plan) : bool :=
  match node with
  | PJoin l _ _ _ _ out _ => bool_decide (out = identity_output (available_columns l))
  | _ => false
  end.

Lemma Forall2_zip_keys (s sj : schema) (sp : schema) keys ks (rk : list string) :
  Forall2 (fun k k' => s !! k = sj !! k') keys ks ->
  (forall k, k ∈ zip keys rk -> is_Some (s !! k.1) /\ s !! k.1 = sp !! k.2) ->
  forall k, k ∈ zip ks rk -> is_Some (sj !! k.1) /\ sj !! k.1 = sp !! k.2.
Proof.
  intros H. revert rk. induction H as [|a b keys ks Hab _ IH]; intros [|c rk] Hk k Hin; try (by apply not_elem_of_nil in Hin).
  cbn in Hin. apply elem_of_cons in Hin as [->|Hin].
  - destruct (Hk (a, c) ltac:(left)) as [H1 H2]. cbn in *. by rewrite <- Hab.
  - eapply IH; [|done]. intros k' ?. apply Hk. by right.
Qed.

(** The keys keep their types from the top to the side they come from. *)
Lemma column_schemas (s sj ls rs : schema) ilk irk out lk keys cols sd :
  join_typed ls rs ilk irk JInner out sj -> Forall2 (fun k k' => s !! k = sj !! k') lk keys ->
  Forall2 (fun k o => o ∈ out /\ o.(oalias) = k /\ o.(oside) = sd) keys cols ->
  Forall2 (fun k n => s !! k = (match sd with SLeft => ls | SRight => rs end) !! n) lk (map oname cols).
Proof.
  intros Hty Hks. revert cols. induction Hks as [|k k' lk keys Hkk _ IH]; intros cols Hcols;
    inversion Hcols as [|? o ? cols' (Ho & Ha & Hside) Hcols']; subst; cbn; constructor; [|by apply IH].
  by rewrite Hkk, (proj2 (jty_out _ _ _ _ _ _ _ Hty o Ho)).
Qed.

(** C32: sinking a semi join is exact.  A semi or anti join that passes its left columns through
    may run below the pass-through projections and the inner join under it, on the one side its
    keys come from, whatever the cost model decides: the schema and the rows are kept, in
    order, fan-out included, and the new plan returns whenever the old one does. *)
Theorem push_semijoin_exact goes_first node p' :
  push_semijoin_through_join goes_first node = Some p' -> passes_left_through node = true -> same_result node p'.
Proof.
  intros Hp Hid s Hs. destruct node as [| | |pl pr lk rk jt out0 st| | | | | | |]; try done.
  apply bool_decide_eq_true in Hid as ->. cbn [push_semijoin_through_join] in Hp.
  assert (jt = JSemi \/ jt = JAnti) as Hjt by (destruct jt; try done; auto).
  destruct (match jt with JSemi | JAnti => true | _ => false end); [|done].
  destruct (peel_projects pl lk) as [[[ps cur] keys]|] eqn:Hpeel; [|done]. cbn in Hp.
  destruct cur as [| | |l r ilk irk ijt out ist| | | | | | |]; try done. destruct ijt; try done.
  destruct (opt_mapM _ keys) as [cols|] eqn:Hc; [|done]. cbn in Hp. destruct (sole_side cols) as [sd|] eqn:Hsd; [|done]. cbn in Hp.
  destruct (goes_first _ _ _); [|done]. injection Hp as <-. pose proof (key_columns _ _ _ _ Hc Hsd) as Hcols.
  destruct (join_schema _ _ _ _ _ _ _ _ Hs) as (sl & sp & Hpl & Hpr & Hty).
  destruct (semi_filtered _ _ _ _ _ _ _ Hjt Hs) as (Hpl' & Hd & Hx). rewrite Hpl in Hpl'. injection Hpl' as ->.
  destruct (peel_schema _ _ _ _ _ _ Hpeel Hpl) as (sj & Hj & Hks).
  destruct (join_schema _ _ _ _ _ _ _ _ Hj) as (ls & rs & Hl & Hr & Htyj).
  assert (length keys = length rk) as Hlen by (rewrite <- (Forall2_length _ _ _ Hks); apply Hty).
  set (pushed := semijoin_onto _ _ _ _ _ _). set (p' := reapply ps _).
  assert (filtered_by (exists xr, exec pr = Ok xr) (fun x => semi_test jt rk (den pr) (key_vals lk x)) pl p') as Hf.
  { eapply (filtered_reapply _ (semi_test jt rk (den pr))); [exact Hpeel|].
    apply (inner_filtered l r pr ilk irk rk keys out cols ist st jt sd ls rs sp); try done.
    eapply (Forall2_zip_keys s _ sp lk (map oname cols)); [|apply (jty_keys _ _ _ _ _ _ _ Hty)]. by eapply column_schemas. }
  destruct (Hf s Hpl) as (F1 & F2 & F3). split_and!; [done|by rewrite Hd|].
  intros rows Hrows. destruct (Hx rows Hrows) as (xl & xr & Hxl & Hxr). rewrite (F3 (ex_intro _ xr Hxr) xl Hxl), F2, <- Hd.
  f_equal. by apply exec_den.
Qed.
End SemiPush.

(** [left] joined to [right], then kept where [k] is among the right keys. *)
Definition semi_over_inner : plan :=
  let j := PProject (PJoin left_table right_table ["k"] ["k"] JInner coalesced Hash) [("key", Col "k"); ("w", Col "w")] in
  PJoin j (PScan 0 [("k", KInt); ("v", KInt)]) ["key"] ["k"] JSemi (identity_output ["key"; "w"]) Hash.

Lemma push_semijoin_exact_witness :
  exists p', @push_semijoin_through_join (toy_plans two_tables) (fun _ _ _ => true) semi_over_inner = Some p' /\
    @exec (toy_plans two_tables) p' = Ok [{["key" := VInt 2; "w" := VInt 7]}; {["key" := VInt 2; "w" := VInt 8]}].
Proof.
  eexists. split; [vm_compute; reflexivity|].
  refine (proj2 (proj2 (@push_semijoin_exact (toy_plans two_tables) (fun _ _ _ => true) semi_over_inner _ _ _
    {["key" := KInt; "w" := KInt]} _)) _ _); vm_compute; reflexivity.
Defined.

(** The semi join [semi_build_inner_to_semi] makes of an inner join whose kept column is shown
    under another name, here [k] as [k_right]. *)
Definition renaming_semi : plan :=
  PJoin (PJoin left_table right_table ["k"] ["k"] JInner coalesced Hash) right_table ["k"] ["k"] JSemi
    [JoinOutputCol SLeft "k" "k_right"] Hash.

(** sinking a semi join forgets its output list.  The semi join shows [k] as [k_right]; the
    plan the rule makes of it has the inner join's columns instead, and the projection above
    that reads [k_right] is no longer well-formed. *)
Theorem push_semijoin_drops_renames :
  let reader p := PProject p [("x", Col "k_right")] in
  @schema_of (toy_plans two_tables) (reader renaming_semi) = Some {["x" := KInt]} /\
  exists p', @push_semijoin_through_join (toy_plans two_tables) (fun _ _ _ => true) renaming_semi = Some p' /\
    @schema_of (toy_plans two_tables) (reader p') = None.
Proof. split; [vm_compute; reflexivity|]. eexists. split; vm_compute; reflexivity. Qed.
