(* ===== verification/PlanConst.v ===== *)
(** * Constant columns and cartesian join keys

    plan/logical/transforms.py: [constant_column_value] and [is_cartesian_key_pair];
    kyber/rules/joins/rewrites.py: [drop_redundant_cross_key]. *)

From Stdlib Require Import Floats.SpecFloat.
From S2P Require Import Prelude ExprIR ExprSound ExprAlgebra RulesBounds PlanIR PlanSound PlanPushdown PlanLocal PlanJoins PlanSemi PlanInfer.

(** ** Proofs of constancy *)

(** The join types whose output columns hold their input's values. *)
Definition passes_values (jt : join_type) : bool := match jt with JInner | JSemi | JAnti => true | _ => false end.

(** The value every branch of a union agrees on. *)
Definition agreed (values : list (option value)) : option value :=
  match values with
  | Some first :: rest =>
      if forallb (fun x => match x with Some v => py_eq v first | None => false end) rest then Some first else None
  | _ => None
  end.

(** [constant_column_value]; [None] stands for [_NOT_CONSTANT]. *)
Fixpoint constant_column_value (p : plan) (col : string) : option value :=
  match p with
  | PProject i its =>
      match assoc col its with
      | Some (Lit v) => Some v
      | Some (Col src) => constant_column_value i src
      | _ => None
      end
  | PFilter i _ | PSort i _ _ | PLimit i _ _ | PSample i _ | PDistinct i _ _ _ => constant_column_value i col
  | PJoin l r _ _ jt out _ =>
      if passes_values jt then
        match List.find (fun o => bool_decide (o.(oalias) = col)) out with
        | Some o => match o.(oside) with
                    | SLeft => constant_column_value l o.(oname)
                    | SRight => constant_column_value r o.(oname)
                    end
        | None => None
        end
      else None
  | POther op inputs =>
      if decide (op = "union") then agreed (map (fun b => constant_column_value b col) inputs) else None
  | _ => None
  end.

(** [is_cartesian_key_pair]. *)
Definition is_cartesian_key_pair (l : plan) (lk : string) (r : plan) (rk : string) : bool :=
  match constant_column_value l lk, constant_column_value r rk with
  | Some lv, Some rv => py_eq lv rv
  | _, _ => false
  end.

(** The key pairs that are not cartesian. *)
Definition real_keys (l r : plan) (keys : list (string * string)) : list (string * string) :=
  List.filter (fun k => negb (is_cartesian_key_pair l k.1 r k.2)) keys.

Definition drop_redundant_cross_key (node : plan) : option plan :=
  match node with
  | PJoin l r lk rk jt out st =>
      if bool_decide (jt <> JInner) || (length lk <? 2)%nat then None
      else let real := real_keys l r (zip lk rk) in
           if (length real =? 0)%nat || (length real =? length lk)%nat then None
           else Some (PJoin l r (map fst real) (map snd real) jt out st)
  | _ => None
  end.

(** ** Constants hold of every row *)

Lemma float_eq_canon f g : SFcompare f g = Some Eq -> canon (VFloat f) = canon (VFloat g).
Proof.
  destruct f as [s|[]| |[] m e], g as [s'|[]| |[] m' e']; cbn; try done; destruct (Z.compare_spec e e') as [->|H|H]; cbn; try done.
  - intros [= H]. change (CompOpp (m ?= m')%positive = Eq) in H. destruct (Pos.compare_spec m m'); try done. by subst.
  - intros [= H]. change ((m ?= m')%positive = Eq) in H. destruct (Pos.compare_spec m m'); try done. by subst.
Qed.

(** Python's [==] on values of one kind is the engine's key equality. *)
Lemma py_eq_canon v w : py_eq v w = true -> kind_of_value v = kind_of_value w -> canon v = canon w.
Proof.
  unfold py_eq. destruct v as [x|x|x|x|k x], w as [y|y|y|y|k' y]; cbn -[canon]; try done.
  - destruct (Z.compare_spec x y); try done. by subst.
  - intros H _. apply float_eq_canon. by destruct (SFcompare x y) as [[]|].
  - by destruct x, y.
  - intros H _. cbn. f_equal. apply string_compare_eq. by destruct (string_compare x y).
  - intros H [= ->]. rewrite decide_True in H by done. destruct (Z.compare_spec x y); try done. by subst.
Qed.

(** Every union of the plan has branches of its own schema. *)
Definition uniform_unions {PE : PlanEngine} : plan -> bool :=
  all_nodes (fun q => match q with
                      | POther op l => negb (bool_decide (op = "union")) || forallb (fun b => bool_decide (schema_of b = schema_of q)) l
                      | _ => true
                      end).

(** A union of branches of one schema has the branches' rows. *)
Class UnionRows {PE : PlanEngine} : Prop :=
  union_rows : forall s ls l, Forall (Forall (row_ok s)) ls -> other_rows "union" ls = Ok l ->
    Forall (fun r => exists b, b ∈ ls /\ r ∈ b) l.

#[export] Instance toy_union data : @UnionRows (toy_plans data).
Proof. intros s ls l _ [= <-]. rewrite Forall_forall. intros r Hr. apply list_elem_of_In, in_concat in Hr as (b & Hb & Hr). exists b. by rewrite !list_elem_of_In. Qed.

Section Constants.
Context {PE : PlanEngine} {UR : UnionRows}.

(** The column has the literal's type and, as a key, its value in every row. *)
Record constant (s : schema) (rows : list row) (col : string) (v : value) : Prop := {
  co_kind : s !! col = Some (kind_of_value v);
  co_rows : Forall (fun r => exists w, r !! col = Some w /\ canon w = canon v) rows;
}.

Lemma constant_fewer s rows rows' col v :
  constant s rows col v -> (forall P : row -> Prop, Forall P rows -> Forall P rows') -> constant s rows' col v.
Proof. intros [H1 H2] Hf. split; auto. Qed.

Lemma project_constant i its s si col v :
  schema_of (PProject i its) = Some s -> schema_of i = Some si ->
  (forall src, assoc col its = Some (Col src) -> constant si (den i) src v) ->
  assoc col its = Some (Lit v) \/ (exists src, assoc col its = Some (Col src)) ->
  constant s (den (PProject i its)) col v.
Proof.
  intros Hs Hi Hsrc Ha. destruct (project_schema _ _ _ Hs) as (si' & ks & Hi' & Hks & Hn & ->). rewrite Hi in Hi'. injection Hi' as <-.
  assert (exists e, assoc col its = Some e /\ type_of si e = Some (kind_of_value v) /\
    forall r, r ∈ den i -> exists w, value_at si e r = Some w /\ canon w = canon v) as (e & He & Ht & Hr).
  { destruct Ha as [Ha|[src Ha]].
    - exists (Lit v). split_and!; [done..|]. intros r _. by exists v.
    - destruct (Hsrc src Ha) as [Hk Hrows]. exists (Col src). split_and!; [done..|]. intros r Hin. rewrite Forall_forall in Hrows.
      destruct (Hrows r Hin) as (w & Hw & Hc). exists w. split; [|done]. unfold value_at, run. cbn. by rewrite Hk. }
  pose proof (assoc_elem _ _ _ He) as Hin.
  destruct (assoc_zip_forall2 (fun e k => type_of si e = Some k) its ks col e) as (k & Hk & Ht'); [done..|by apply opt_mapM_Some|].
  split; [rewrite lookup_list_to_map, Hk; congruence|]. cbn [den]. rewrite (schema'_eq _ _ Hi). apply Forall_map_intro.
  rewrite Forall_forall. intros r Hr'. destruct (Hr r Hr') as (w & Hw & Hc). exists w. split; [|done].
  unfold project_row. rewrite lookup_bind_row, (assoc_nodup col (value_at si e r)); [done|by rewrite map_map|].
  apply list_elem_of_fmap. by exists (col, e).
Qed.

Lemma join_constant l r lk rk jt out st s sl sr col o v :
  schema_of (PJoin l r lk rk jt out st) = Some s -> schema_of l = Some sl -> schema_of r = Some sr -> passes_values jt = true ->
  List.find (fun o => bool_decide (o.(oalias) = col)) out = Some o ->
  constant (match o.(oside) with SLeft => sl | SRight => sr end) (den (match o.(oside) with SLeft => l | SRight => r end)) o.(oname) v ->
  constant s (den (PJoin l r lk rk jt out st)) col v.
Proof.
  intros Hs Hl Hr Hj [Ho <-%bool_decide_eq_true]%find_some [Hk Hrows]. apply list_elem_of_In in Ho.
  destruct (join_schema _ _ _ _ _ _ _ _ Hs) as (sl' & sr' & Hl' & Hr' & Hty). rewrite Hl in Hl'. rewrite Hr in Hr'. simplify_eq.
  split; [by rewrite (proj2 (jty_out _ _ _ _ _ _ _ Hty o Ho))|]. cbn [den]. apply join_rows_sides. intros x y Hx Hy.
  rewrite (out_row_lookup out x y o (jty_nodup _ _ _ _ _ _ _ Hty) Ho). rewrite Forall_forall in Hrows. apply Hrows.
  destruct (oside o) eqn:Es; cbn.
  - apply Hx. by destruct jt.
  - destruct jt; try done; [by apply Hy|..]; exfalso.
    + rewrite (jty_semi _ _ _ _ _ _ _ Hty (or_introl eq_refl) o Ho) in Es. done.
    + rewrite (jty_semi _ _ _ _ _ _ _ Hty (or_intror eq_refl) o Ho) in Es. done.
Qed.

Lemma agreed_all vs v : agreed vs = Some v -> Some v ∈ vs /\ Forall (fun x => exists w, x = Some w /\ (w = v \/ py_eq w v = true)) vs.
Proof.
  destruct vs as [|[f|] rest]; try done. cbn. destruct (forallb _ rest) eqn:Hf; [|done]. intros [= ->]. split; [left|].
  constructor; [eauto|]. rewrite forallb_forall in Hf. rewrite Forall_forall. intros x Hx%list_elem_of_In%Hf.
  destruct x as [w|]; [|done]. eauto.
Qed.

(** A union whose branches each hold one of several equal literals. *)
Lemma union_constant s l col v :
  schema_of (POther "union" l) = Some s -> (forall b, b ∈ l -> schema_of b = Some s) ->
  (forall b w, b ∈ l -> constant_column_value b col = Some w -> constant s (den b) col w) ->
  agreed (map (fun b => constant_column_value b col) l) = Some v -> constant s (den (POther "union" l)) col v.
Proof using UR.
  intros Hs Hsame Hb [Hin Hc]%agreed_all. rewrite Forall_forall in Hc.
  apply list_elem_of_fmap in Hin as (b0 & Hv & Hb0). symmetry in Hv. destruct (Hb b0 v Hb0 Hv) as [Hk _]. split; [done|].
  assert (forall b, b ∈ l -> Forall (fun r => exists w, r !! col = Some w /\ canon w = canon v) (den b)) as Hall.
  { intros b Hin. destruct (Hc (constant_column_value b col)) as (w & Hw & Hwv); [apply list_elem_of_fmap; eauto|].
    destruct (Hb b w Hin Hw) as [K R]. eapply Forall_impl; [exact R|]. cbn beta. intros r (u & Hu & E). exists u. split; [done|].
    rewrite E. destruct Hwv as [->|Hwv]; [done|]. apply py_eq_canon; [done|congruence]. }
  cbn [den]. destruct (other_rows "union" (map den l)) as [rows|] eqn:Er; cbn; [|constructor].
  eapply Forall_impl; [eapply (union_rows s); [|exact Er]|].
  - apply Forall_map_intro. rewrite Forall_forall. intros b Hin. by apply den_ok, Hsame.
  - cbn beta. intros r (b & Hin & Hr). apply list_elem_of_fmap in Hin as (q & -> & Hq). specialize (Hall q Hq).
    rewrite Forall_forall in Hall. auto.
Qed.

Lemma constants_hold p : forall s col v,
  schema_of p = Some s -> uniform_unions p = true -> constant_column_value p col = Some v -> constant s (den p) col v.
Proof.
  unfold uniform_unions. induction p using plan_ind'; intros sc col v Hs Hu Hc; cbn [constant_column_value] in Hc; try done;
    cbn [all_nodes] in Hu; rewrite ?andb_true_l in Hu.
  - apply filter_schema in Hs as [Hs _]. eapply constant_fewer; [by apply IHp|]. intros P HP. by apply Forall_filter_bool.
  - destruct (un_typed _ (unary_project its) _ _ Hs) as [si Hi]. eapply project_constant; [done..| |].
    + intros src Ha. rewrite Ha in Hc. eauto.
    + destruct (assoc col its) as [e|]; [|done]. destruct e; simplify_eq; eauto.
  - destruct (passes_values jt) eqn:Hj; [|done]. destruct (find _ o) as [oc|] eqn:Ho; [|done].
    destruct (join_schema _ _ _ _ _ _ _ _ Hs) as (sl & sr & Hl & Hr & _). apply andb_true_iff in Hu as [Hu1 Hu2].
    eapply join_constant; [done..|]. destruct (oside oc); auto.
  - destruct (un_typed _ (unary_sort ks n) _ _ Hs) as [si Hi]. cbn in Hs. rewrite Hi in Hs. cbn in Hs.
    destruct (forallb _ ks); [|done]. simplify_eq. eapply constant_fewer; [by apply IHp|]. intros P HP. by apply Forall_cap_rows, Forall_sort_by.
  - destruct (un_typed _ (unary_distinct ks o n) _ _ Hs) as [si Hi]. cbn in Hs. rewrite Hi in Hs. cbn in Hs.
    destruct (_ && _) in Hs; [|done]. simplify_eq. eapply constant_fewer; [by apply IHp|]. intros P HP. cbn [den].
    destruct ks; [by apply Forall_cap_rows, Forall_dedup_by|].
    destruct (distinct_on _ _ _) eqn:E; cbn; [|constructor]. eapply Forall_sublist; [by eapply pe_distinct|done].
  - eapply constant_fewer; [by apply IHp|]. intros P HP. by apply Forall_take, Forall_drop.
  - eapply constant_fewer; [by apply IHp|]. intros P HP. eapply Forall_sublist; [apply pe_sample|done].
  - case_decide as Hop; [subst op|done]. apply andb_true_iff in Hu as [Hsame Hall]. rewrite bool_decide_true in Hsame by done. cbn in Hsame.
    rewrite forallb_forall in Hsame, Hall. rewrite Forall_forall in H.
    assert (forall b, b ∈ l -> schema_of b = Some sc) as Hb.
    { intros b Hb. pose proof (Hsame b ltac:(by apply list_elem_of_In)) as E%bool_decide_eq_true. cbn in Hs. by rewrite Hs in E. }
    apply union_constant; [done..| |done]. intros b w Hin Hw. apply (H b Hin); [auto| |done]. apply Hall. by apply list_elem_of_In.
Qed.

(** ** Cartesian keys match every pair of rows *)

Lemma cartesian_matches l r s ls rs lk rk k x y jt out :
  schema_of l = Some ls -> schema_of r = Some rs -> uniform_unions l = true -> uniform_unions r = true ->
  join_typed ls rs lk rk jt out s -> k ∈ zip lk rk -> is_cartesian_key_pair l k.1 r k.2 = true ->
  x ∈ den l -> y ∈ den r -> key_eq (x !! k.1) (y !! k.2) = true.
Proof using UR.
  intros Hl Hr Ul Ur Hty Hk Hc Hx Hy. unfold is_cartesian_key_pair in Hc.
  destruct (constant_column_value l k.1) as [v|] eqn:Ev; [|done]. destruct (constant_column_value r k.2) as [w|] eqn:Ew; [|done].
  destruct (constants_hold l ls k.1 v Hl Ul Ev) as [Kl Rl]. destruct (constants_hold r rs k.2 w Hr Ur Ew) as [Kr Rr].
  rewrite Forall_forall in Rl, Rr. destruct (Rl x Hx) as (v' & -> & E1). destruct (Rr y Hy) as (w' & -> & E2).
  cbn. apply bool_decide_eq_true. rewrite E1, E2. apply py_eq_canon; [done|].
  destruct (jty_keys _ _ _ _ _ _ _ Hty k Hk) as [_ E]. congruence.
Qed.

(** dropping a cartesian key is exact.  A key pair both of whose columns are proved to hold
    equal literals, through projections, filters, sorts, limits, dedups, inner, semi and anti
    joins and unions, matches every pair of rows, so an inner join keyed on the remaining
    pairs has the same schema and the same rows, in order, and returns whenever the original
    does. *)
Theorem drop_cross_key_exact node p' :
  drop_redundant_cross_key node = Some p' -> uniform_unions node = true -> same_result node p'.
Proof using UR.
  intros Hp Hu s Hs. destruct node as [| | |l r lk rk jt out st| | | | | | |]; try done. cbn [drop_redundant_cross_key] in Hp.
  case_bool_decide as Hj; [done|]. subst jt. cbn [orb] in Hp. destruct (length lk <? 2)%nat; [done|].
  set (real := real_keys l r (zip lk rk)) in *. destruct (_ || _); [done|]. injection Hp as <-.
  unfold uniform_unions in Hu. cbn in Hu. apply andb_true_iff in Hu as [Ul Ur].
  destruct (join_schema _ _ _ _ _ _ _ _ Hs) as (ls & rs & Hl & Hr & Hty).
  assert (forall k, k ∈ real -> k ∈ zip lk rk) as Hsub by (by intros k [? _]%elem_of_filter_bool).
  assert (forall x y, x ∈ den l -> y ∈ den r -> matches real x y = matches (zip lk rk) x y) as Hm.
  { intros x y Hx Hy. apply eq_true_iff_eq. unfold matches. rewrite !forallb_forall. split; intros H k Hk.
    - destruct (is_cartesian_key_pair l k.1 r k.2) eqn:Ec.
      + eapply (cartesian_matches l r s ls rs lk rk); try done. by apply list_elem_of_In.
      + apply H, filter_In. split; [done|]. by rewrite Ec.
    - apply H. apply list_elem_of_In. apply Hsub. by apply list_elem_of_In. }
  assert (inner_rows (matches real) (out_row out) (den l) (den r) = inner_rows (matches (zip lk rk)) (out_row out) (den l) (den r)) as Hd.
  { unfold inner_rows. apply flat_map_ext_in. intros x Hx. f_equal. apply filter_ext_in. intros y Hy%list_elem_of_In. auto. }
  split_and!.
  - cbn in Hs |- *. rewrite Hl, Hr in *. cbn in *. destruct (opt_mapM _ out); [|done]. cbn in *.
    destruct (_ && _ && _ && _) eqn:Hb in Hs; [|done]. bsplit. rewrite !length_map, Nat.eqb_refl, zip_fst_snd. cbn.
    assert (forallb (fun k => bool_decide (is_Some (ls !! k.1) /\ ls !! k.1 = rs !! k.2)) real = true) as ->.
    { apply forallb_forall. intros k Hk%list_elem_of_In. apply bool_decide_eq_true. apply (jty_keys _ _ _ _ _ _ _ Hty). auto. }
    by rewrite bool_decide_true.
  - cbn [den join_rows]. by rewrite zip_fst_snd, Hd.
  - intros rows Hx. cbn [exec join_rows] in *. apply res_bind_ok in Hx as (xl & Hxl & Hx). apply res_bind_ok in Hx as (xr & Hxr & [= <-]).
    rewrite Hxl. cbn. rewrite Hxr. cbn. by rewrite zip_fst_snd, <- (exec_den _ _ Hxl), <- (exec_den _ _ Hxr), Hd.
Qed.
End Constants.

(** A comma join: both sides carry the literal 1 under [__cross_key]. *)
Definition cross_side (p : plan) (cols : list string) : plan :=
  PProject p (("__cross_key", Lit (VInt 1)) :: map (fun c => (c, Col c)) cols).

Definition comma_join : plan :=
  PJoin (cross_side left_table ["k"; "v"]) (POther "union" [cross_side right_table ["k"; "w"]]) ["__cross_key"; "k"] ["__cross_key"; "k"]
    JInner coalesced Hash.

Lemma drop_cross_key_exact_witness :
  exists p', drop_redundant_cross_key comma_join = Some p' /\
    @exec (toy_plans two_tables) p' =
      Ok [{["k" := VInt 2; "v" := VInt 20; "w" := VInt 7]}; {["k" := VInt 2; "v" := VInt 20; "w" := VInt 8]}].
Proof.
  eexists. split; [vm_compute; reflexivity|].
  refine (proj2 (proj2 (@drop_cross_key_exact (toy_plans two_tables) _ comma_join _ _ _
    {["k" := KInt; "v" := KInt; "w" := KInt]} _)) _ _); vm_compute; reflexivity.
Defined.
