(* ===== verification/JoinShuffle.v ===== *)
(** * The distributed join

    dist/executors/join.py: both sides of an equi-join are cut into buckets by a hash of their
    keys and each bucket is joined on its own, or the small side is sent whole to every part of
    the large one.  A dominant key's probe rows may be salted over several buckets, a Bloom
    filter over the build side's keys may prune the probe side, and a bucket over the memory
    budget is joined out of core by the sub-buckets of dist/spill_breakers/join.py.  The map
    tasks follow the partitioners of crates/bc-runtime/src/shuffle.rs that they call; the join
    of two buckets is the engine's.

    A reducer is a [task] over the directory of sub-bucket files that all reducers share. *)

From S2P Require Import Prelude ExprIR PlanIR Tasks.

(** ** The join and the kernels *)

(** [Join], without its inputs. *)
Record join_node := JoinNode {
  left_keys : list string; right_keys : list string; kind : join_type; output : list join_output_col; strategy : join_strategy }.

(** Kernels: the hash of canonical keys and their text, a Bloom filter, and the join operator,
    which needs at least one batch of either side to know their columns. *)
Class JoinKernels := {
  key_hash : list (option value) -> Z;
  render : value -> option string;
  bloom : Type;
  build_key_bloom : list (list (option value)) -> bloom;
  merge_blooms : list bloom -> option bloom;
  bloom_contains : bloom -> list (option value) -> bool;
  hash_join : join_node -> list row -> list row -> list row;
}.

(** A row's join key, floats in canonical form. *)
Definition key_of (ks : list string) (r : row) : list (option value) := map (fun k => canon <$> r !! k) ks.

(** The batches of an input: [None] when there is none, and no schema with it. *)
Definition some_batch (files : list (list row)) : option (list row) := match files with [] => None | _ => Some (concat files) end.

(** The directory of a job's files. *)
Abbreviation dir := (gmap string (list row)).

Section Join.
Context `{JoinKernels}.

Definition execute_join (j : join_node) (left right : option (list row)) : res (list row) :=
  match left, right with Some l, Some r => Ok (hash_join j l r) | _, _ => Raise "EmptyJoinInput" end.

(** ** Partitioning *)

Definition GOLDEN : Z := 0x9e3779b97f4a7c15.
Definition MIX : Z := 0xbf58476d1ce4e5b9.

(** [salted_hash], on 64 bits. *)
Definition salted_hash (h s : Z) : Z :=
  let h := Z.lxor h ((s * GOLDEN) mod 2 ^ 64) in
  let h := Z.lxor h (Z.shiftr h 30) in
  let h := (h * MIX) mod 2 ^ 64 in
  Z.lxor h (Z.shiftr h 27).

(** [bucket_of]. *)
Definition bucket_of (h : Z) (n : nat) : nat :=
  let n := Z.of_nat n in
  Z.to_nat (if Z.land n (n - 1) =? 0 then Z.land h (n - 1) else Z.shiftr (h * n) 64).
Definition bucket_of_salted (h : Z) (n : nat) (salt : Z) : nat := if salt =? 0 then bucket_of h n else bucket_of (salted_hash h salt) n.

(** Rows scattered over [n] buckets, each row to the buckets given with it, as often as they are
    given. *)
Definition scatter (n : nat) (rows : list (row * list nat)) : list (list row) :=
  map (fun b => flat_map (fun x => repeat x.1 (count_occ Nat.eq_dec x.2 b)) rows) (seq 0 n).

(** [partition_batches] and [partition_batches_salted]; without keys every row is in bucket 0. *)
Definition placed (ks : list string) (n : nat) (salt : Z) (r : row) : row * list nat :=
  (r, [match ks with [] => 0%nat | _ => bucket_of_salted (key_hash (key_of ks r)) n salt end]).
Definition partition_batches_salted (ks : list string) (n : nat) (salt : Z) (rows : list row) : list (list row) :=
  scatter n (map (placed ks n salt) rows).
Definition partition_batches (ks : list string) (n : nat) (rows : list row) : list (list row) := partition_batches_salted ks n 0 rows.

(** [salted_partition_by_keys]: a hot row of the probe side goes to one of the salted buckets in
    turn, a hot row of the build side to each of them once. *)
Definition is_hot (hot : list string) (k : list (option value)) : bool :=
  match k with [Some v] => match render v with Some s => bool_decide (s ∈ hot) | None => false end | _ => false end.
Definition salted_bucket (n : nat) (h : Z) (s : nat) : nat := bucket_of (salted_hash h (Z.of_nat s)) n.
Fixpoint salted_rows (ks : list string) (n : nat) (hot : list string) (salt : nat) (replicate : bool) (cursor : Z) (rows : list row) : list (row * list nat) :=
  match rows with
  | [] => []
  | r :: rows' =>
      let k := key_of ks r in
      let h := key_hash k in
      if negb (is_hot hot k) then (r, [bucket_of h n]) :: salted_rows ks n hot salt replicate cursor rows'
      else if replicate then (r, remove_dups (map (salted_bucket n h) (seq 0 salt))) :: salted_rows ks n hot salt replicate cursor rows'
      else (r, [salted_bucket n h (Z.to_nat (cursor mod Z.of_nat salt))]) :: salted_rows ks n hot salt replicate ((cursor + 1) mod 2 ^ 32) rows'
  end.
Definition salted_partition (ks : list string) (n : nat) (hot : list string) (salt : nat) (replicate : bool) (rows : list row) : list (list row) :=
  if (n =? 1)%nat || match hot with [] => true | _ => false end then partition_batches ks n rows
  else scatter n (salted_rows ks n hot salt replicate 0 rows).

(** ** Map *)

(** [salting_preserves_result]. *)
Definition left_driven (jt : join_type) : bool := match jt with JInner | JLeft | JSemi | JAnti => true | _ => false end.
Definition salting_preserves_result (j : join_node) (reducer_finalizes : bool) : bool :=
  negb reducer_finalizes && (length (left_keys j) =? 1)%nat && (length (right_keys j) =? 1)%nat && left_driven (kind j).

(** [_join_map_task], from the rows of the side's sub-plan on: the files of one mapper, none when
    the filter pruned every row. *)
Definition join_map_task (ks : list string) (n : nat) (hot : list string) (salt : nat) (replicate : bool) (filter : option bloom) (rows : list row) : list (list row) :=
  let rows := match filter with Some f => List.filter (fun r => bloom_contains f (key_of ks r)) rows | None => rows end in
  match filter, rows with
  | Some _, [] => []
  | _, _ =>
      if (0 <? salt)%nat && match hot with [] => false | _ => true end && (length ks =? 1)%nat
      then salted_partition ks n hot salt replicate rows
      else partition_batches ks n rows
  end.

(** ** Reduce *)

(** The size of a file, the memory budget of a reducer, where it has one. *)
Context (file_size : list row -> Z) (budget : Z).

Definition FD_SAFE_PARTITIONS : Z := 1024.
Definition fd_safe (n : Z) : nat := Z.to_nat (Z.max 1 (Z.min n FD_SAFE_PARTITIONS)).
(** [split_salt(0)]. *)
Definition SUBBUCKET_SALT : Z := Z.lor GOLDEN 1.

(** The name of a sub-bucket's file, which is the same for every reducer. *)
Definition sub_path (tag : string) (i : nat) : string := tag +:+ "_" +:+ pretty.pretty i +:+ ".arrow".

(** [_spill_paths_to_subbuckets]: a sub-bucket without rows has no file, and the stack of writers
    publishes the others from the last to the first, one rename at a time. *)
Definition sub_buckets (ks : list string) (n : nat) (files : list (list row)) : list (list row) :=
  partition_batches_salted ks n SUBBUCKET_SALT (concat files).
Fixpoint publish (tag : string) (subs : list (nat * list row)) (k : task dir (res (list row))) : task dir (res (list row)) :=
  match subs with
  | [] => k
  | (_, []) :: subs' => publish tag subs' k
  | (i, rows) :: subs' => atomic (fun d => (<[sub_path tag i := rows]> d, tt)) (fun _ => publish tag subs' k)
  end.
Definition spill_paths_to_subbuckets (tag : string) (subs : list (list row)) (k : task dir (res (list row))) : task dir (res (list row)) :=
  publish tag (reverse (imap pair subs)) k.

(** Reading a sub-bucket back; one that was not written is an empty batch of the side's schema,
    or nothing where the side had no file. *)
Definition read_sub (tag : string) (i : nat) (written schema : bool) (d : dir) : dir * res (option (list row)) :=
  (d, if written then match d !! sub_path tag i with Some rows => Ok (Some rows) | None => Raise "FileNotFoundError" end
      else Ok (if schema then Some [] else None)).

(** The loop of [iter_join_paths_spilling] over the pairs of sub-buckets, with the output so
    far. *)
Fixpoint join_pairs (j : join_node) (lschema rschema : bool) (i : nat) (pairs : list (bool * bool)) (out : list row) : task dir (res (list row)) :=
  match pairs with
  | [] => Done (Ok out)
  | (false, false) :: pairs' => join_pairs j lschema rschema (S i) pairs' out
  | (wl, wr) :: pairs' =>
      atomic (read_sub "rl" i wl lschema) (fun l =>
        match l with
        | Raise e => Done (Raise e)
        | Ok l =>
            atomic (read_sub "rr" i wr rschema) (fun r =>
              match r with
              | Raise e => Done (Raise e)
              | Ok r => match execute_join j l r with
                        | Raise e => Done (Raise e)
                        | Ok o => join_pairs j lschema rschema (S i) pairs' (out ++ o)
                        end
              end)
        end)
  end.

Definition nonempty {A} (l : list A) : bool := match l with [] => false | _ => true end.

Definition join_paths_spilling (j : join_node) (left right : list (list row)) (n : nat) : task dir (res (list row)) :=
  let ls := sub_buckets (left_keys j) n left in
  let rs := sub_buckets (right_keys j) n right in
  spill_paths_to_subbuckets "rl" ls (spill_paths_to_subbuckets "rr" rs
    (join_pairs j (nonempty left) (nonempty right) 0 (zip (map nonempty ls) (map nonempty rs)) [])).

(** What a reducer runs: the join, or an aggregate fused above it, which may raise. *)
Inductive reducer := PlainJoin | FusedAggregate (aggregate : list row -> res (list row)).

(** [_join_reduce_task].  Out of core, the join keys are looked up in the reducer's document,
    which an aggregate does not have. *)
Definition over_budget (left right : list (list row)) : bool :=
  negb (budget =? 0) && (budget <? foldr (fun f acc => file_size f + acc) 0 (left ++ right)).
Definition join_reduce_task (j : join_node) (r : reducer) (left right : list (list row)) : task dir (res (list row)) :=
  if over_budget left right then
    match r with
    | FusedAggregate _ => Done (Raise "KeyError")
    | PlainJoin => join_paths_spilling j left right (fd_safe (Z.max 2 (ceil_div (foldr (fun f acc => file_size f + acc) 0 (left ++ right)) budget)))
    end
  else
    match kind j, concat left, concat right with
    | JInner, [], _ | JInner, _, [] => Done (Ok [])
    | _, _, _ => Done (let* rows := execute_join j (some_batch left) (some_batch right) in
                       match r with PlainJoin => Ok rows | FusedAggregate agg => agg rows end)
    end.

(** ** The shuffle join *)

(** What the mappers of one side write for reducer [b]. *)
Definition files_for (b : nat) (mapped : list (list (list row))) : list (list row) :=
  map (fun paths => nth b paths []) (List.filter nonempty mapped).

(** [_shuffle_join] up to its reducers: [skew] is what [resolve_hot_keys] answers, [engaged]
    whether the Bloom filter is estimated to pay. *)
Definition bloom_used (j : join_node) (engaged : bool) : bool :=
  match kind j with JInner | JSemi => true | _ => false end && nonempty (left_keys j) && (length (left_keys j) =? length (right_keys j))%nat && engaged.
Definition shuffle_filter (j : join_node) (engaged : bool) (rparts : list (list row)) : option bloom :=
  if bloom_used j engaged then merge_blooms (map (fun p => build_key_bloom (map (key_of (right_keys j)) p)) rparts) else None.
Definition shuffle_salt (j : join_node) (r : reducer) (skew : list string * nat) : list string * nat :=
  if salting_preserves_result j (match r with PlainJoin => false | FusedAggregate _ => true end) then skew else ([], 0%nat).
(** The files each reducer is handed. *)
Definition shuffle_buckets (j : join_node) (r : reducer) (workers : nat) (skew : list string * nat) (engaged : bool) (lparts rparts : list (list row)) :
    list (list (list row) * list (list row)) :=
  let '(hot, salt) := shuffle_salt j r skew in
  let left := map (join_map_task (left_keys j) workers hot salt false (shuffle_filter j engaged rparts)) lparts in
  let right := map (join_map_task (right_keys j) workers hot salt true None) rparts in
  map (fun b => (files_for b left, files_for b right)) (seq 0 workers).
Definition shuffle_tasks (j : join_node) (r : reducer) (workers : nat) (skew : list string * nat) (engaged : bool) (lparts rparts : list (list row)) :
    list (task dir (res (list row))) :=
  map (fun files => join_reduce_task j r files.1 files.2) (shuffle_buckets j r workers skew engaged lparts rparts).

(** The barrier and the concatenation: an error if a task failed, nothing while one runs. *)
Definition gather (ts : list (task dir (res (list row)))) : option (res (list row)) :=
  rs ← answers ts; Some (@concat row <$> res_mapM (fun r => r) rs).
Definition shuffle_join (j : join_node) (r : reducer) (workers : nat) (skew : list string * nat) (engaged : bool) (lparts rparts : list (list row)) (turns : list nat) :
    option (res (list row)) :=
  gather (schedule ∅ (shuffle_tasks j r workers skew engaged lparts rparts) turns).2.

(** ** The broadcast join *)

(** [_byte_chunks]. *)
Section Chunks.
Variable retained : list row -> Z.
Fixpoint byte_chunks (target : Z) (chunk : list (list row)) (size : Z) (batches : list (list row)) : list (list (list row)) :=
  match batches with
  | [] => match chunk with [] => [] | _ => [chunk] end
  | b :: batches' =>
      let chunk := chunk ++ [b] in
      let size := size + retained b in
      if target <=? size then chunk :: byte_chunks target [] 0 batches' else byte_chunks target chunk size batches'
  end.
End Chunks.

Context (retained : list row -> Z).

Definition BROADCAST_PROBE_CHUNK_BYTES : Z := Z.shiftl 32 20.

(** [_stream_broadcast_join]: the sub-plan and the join run chunk by chunk. *)
Definition stream_broadcast_join (j : join_node) (sub_plan : list (list row) -> list row) (batches : list (list row)) (right : list row) : res (list row) :=
  @concat row <$> res_mapM (fun chunk => execute_join j (Some (sub_plan chunk)) (Some right)) (byte_chunks retained BROADCAST_PROBE_CHUNK_BYTES [] 0 batches).

(** [broadcast_probe_join]: nothing when the build side is empty or too large. *)
Definition broadcast_probe_join (j : join_node) (sub_plan : list (list row) -> list row) (lparts : list (list (list row))) (right : list row) (limit : Z) : option (res (list row)) :=
  if negb (nonempty right) || (limit <? retained right) then None
  else Some (@concat row <$> res_mapM (fun p => stream_broadcast_join j sub_plan p right) lparts).

(** [_distributed_join]: the broadcast where the planner chose it and it is safe, else the
    shuffle. *)
Definition distributed_join (j : join_node) (workers : nat) (skew : list string * nat) (engaged : bool) (limit : Z)
    (lplan rplan : list (list row) -> list row) (lparts rparts : list (list (list row))) (turns : list nat) : option (res (list row)) :=
  let shuffled := shuffle_join j PlainJoin workers skew engaged (map lplan lparts) (map rplan rparts) turns in
  match strategy j with
  | Broadcast =>
      if left_driven (kind j) then
        match broadcast_probe_join j lplan lparts (rplan (concat rparts)) limit with Some r => Some r | None => shuffled end
      else shuffled
  | _ => shuffled
  end.

(** ** An aggregate above the join *)

(** [_distributed_join_aggregate]. *)
Definition distributed_join_aggregate (j : join_node) (aggregate : list row -> res (list row)) (workers : nat) (engaged : bool) (lparts rparts : list (list row)) (turns : list nat) :
    option (res (list row)) :=
  shuffle_join j (FusedAggregate aggregate) workers ([], 0%nat) engaged lparts rparts turns.
End Join.

(** [hash_partitioned_on], of a join. *)
Definition hash_partitioned_on (j : join_node) : list string := match kind j with JInner | JSemi => left_keys j | _ => [] end.
(** [satisfies], of two partitionings. *)
Definition satisfies (have want : list string) : bool := negb (nonempty want) || nonempty have && forallb (fun c => bool_decide (c ∈ want)) have.
(** [_fusable_join_aggregate], of an aggregate over a join of map-only sides. *)
Definition bare_columns (gks : list (string * expr)) : list string := omap (fun k => match k.2 with Col c => Some c | _ => None end) gks.
Definition fusable_join_aggregate (j : join_node) (gks : list (string * expr)) : bool :=
  nonempty (bare_columns gks) && nonempty (hash_partitioned_on j) && satisfies (hash_partitioned_on j) (bare_columns gks).

(** [_swap] of an inner join, which the optimizer applies when the sides cost less so; the
    strategy is the default again. *)
Definition flip_side (s : side) : side := match s with SLeft => SRight | SRight => SLeft end.
Definition swap (j : join_node) : join_node :=
  JoinNode (right_keys j) (left_keys j) JInner (map (fun o => JoinOutputCol (flip_side (oside o)) (oname o) (oalias o)) (output j)) Hash.
