(* ===== verification/JoinShuffleSound.v ===== *)
(** * The distributed join: buckets, pruning and the reducer

    A join cut into buckets is the join when a left row is in one bucket and every right row it
    matches is there too.  The hash partitioners, salted or not, have that property; a Bloom
    filter drops only rows without a match; and a reducer that runs alone joins its bucket, in
    memory or through its sub-bucket files. *)

From S2P Require Import Prelude ExprIR PlanIR PlanSound PlanSemi Tasks JoinShuffle.

(** ** A join, bucket by bucket *)

Lemma concat_map_app {A B} (f g : A -> list B) l : concat (map (fun x => f x ++ g x) l) ≡ₚ concat (map f l) ++ concat (map g l).
Proof. induction l as [|x l IH]; cbn; [done|]. rewrite IH. solve_Permutation. Qed.

Lemma concat_map_single {A} (x : A) b n : (b < n)%nat -> concat (map (fun b' => if bool_decide (b' = b) then [x] else []) (seq 0 n)) = [x].
Proof.
  intros Hb. replace n with (b + S (n - b - 1))%nat by lia. rewrite seq_app, map_app, concat_app. cbn. rewrite bool_decide_true by done.
  assert (forall l, (forall y, y ∈ l -> y <> b) -> concat (map (fun b' => if bool_decide (b' = b) then [x] else []) l) = []) as E.
  { intros l Hl. induction l as [|y l IH]; cbn; [done|]. rewrite bool_decide_false by (apply Hl; left). apply IH. intros z Hz. apply Hl. by right. }
  rewrite !E; [done|..]; intros y Hy%elem_of_seq; lia.
Qed.

(** The rows placed in a bucket. *)
Definition bucket (b : nat) (l : list (row * list nat)) : list row := map fst (List.filter (fun x => bool_decide (b ∈ x.2)) l).
(** Every row is in one of the [n] buckets. *)
Definition in_one (n : nat) (l : list (row * list nat)) : Prop := forall x, x ∈ l -> exists b, x.2 = [b] /\ (b < n)%nat.

Lemma bucket_elem b l x : x ∈ bucket b l <-> exists bs, (x, bs) ∈ l /\ b ∈ bs.
Proof.
  unfold bucket. rewrite list_elem_of_fmap. setoid_rewrite elem_of_filter_bool. setoid_rewrite bool_decide_eq_true. split.
  - intros ([y bs] & -> & Hl & Hb). eauto.
  - intros (bs & Hl & Hb). by exists (x, bs).
Qed.

(** The scatter of rows that name a bucket at most once. *)
Definition once_each (l : list (row * list nat)) : Prop := forall x, x ∈ l -> NoDup x.2.

Lemma scatter_buckets n l : once_each l -> scatter n l = map (fun b => bucket b l) (seq 0 n).
Proof.
  intros Hl. unfold scatter. apply map_ext. intros b. induction l as [|[x bs] l IH]; [done|]. unfold bucket in *. cbn.
  rewrite IH by (intros y Hy; apply Hl; by right). pose proof (Hl (x, bs) ltac:(left)) as Hn. cbn in Hn. case_bool_decide as Hb; cbn.
  - rewrite NoDup_ListNoDup in Hn. rewrite (NoDup_count_occ' Nat.eq_dec) in Hn. rewrite Hn by (by apply list_elem_of_In). done.
  - rewrite (proj1 (count_occ_not_In Nat.eq_dec bs b)); [done|]. by rewrite <- list_elem_of_In.
Qed.

Lemma in_one_once n l : in_one n l -> once_each l.
Proof. intros Hl x Hx. destruct (Hl x Hx) as (b & -> & _). apply NoDup_singleton. Qed.

Lemma buckets_whole n l : in_one n l -> concat (map (fun b => bucket b l) (seq 0 n)) ≡ₚ map fst l.
Proof.
  induction l as [|[x bs] l IH]; intros Hl.
  - unfold bucket. cbn. induction (seq 0 n); cbn; done.
  - destruct (Hl (x, bs)) as (b & Eb & Hb); [left|]. cbn in Eb. subst bs.
    change (map fst ((x, [b]) :: l)) with ([x] ++ map fst l).
    rewrite <- (IH (fun y Hy => Hl y (list_elem_of_further _ _ _ Hy))), <- (concat_map_single x b n Hb), <- concat_map_app.
    apply reflexive_eq. f_equal. apply map_ext. intros b'. unfold bucket. cbn. repeat case_bool_decide; cbn; set_solver.
Qed.

Section Buckets.
Context (m : row -> row -> bool) (mk : row -> row -> row).

(** What one left row contributes, given the right rows it matches. *)
Definition from_left (jt : join_type) (l : row) (ms : list row) : list row :=
  match jt with
  | JInner | JRight => map (mk l) ms
  | JLeft | JFull => match ms with [] => [mk l ∅] | _ => map (mk l) ms end
  | JSemi => if nonempty ms then [mk l ∅] else []
  | JAnti => if nonempty ms then [] else [mk l ∅]
  end.
Definition keeps_right (jt : join_type) : bool := match jt with JRight | JFull => true | _ => false end.

Lemma existsb_matched (l : row) rs : existsb (m l) rs = nonempty (List.filter (m l) rs).
Proof. induction rs as [|r rs IH]; cbn; [done|]. by destruct (m l r); cbn. Qed.

Lemma map_filter_flat {A B} (f : A -> B) (p : A -> bool) l : map f (List.filter p l) = flat_map (fun x => if p x then [f x] else []) l.
Proof. induction l as [|x l IH]; cbn; [done|]. destruct (p x); cbn; by rewrite IH. Qed.

(** A join is what its left rows contribute, and the lone right rows. *)
Lemma join_rows_by_left jt ls rs :
  join_rows m mk jt ls rs = flat_map (fun l => from_left jt l (List.filter (m l) rs)) ls ++ if keeps_right jt then lone_right m mk ls rs else [].
Proof.
  destruct jt; cbn; rewrite ?app_nil_r; try done.
  - apply flat_map_ext. intros l. by destruct (List.filter _ _).
  - f_equal. apply flat_map_ext. intros l. by destruct (List.filter _ _).
  - rewrite map_filter_flat. apply flat_map_ext. intros l. by rewrite existsb_matched.
  - rewrite map_filter_flat. apply flat_map_ext. intros l. rewrite existsb_matched. by destruct (nonempty _).
Qed.

Lemma from_left_perm jt l ms ms' : ms ≡ₚ ms' -> from_left jt l ms ≡ₚ from_left jt l ms'.
Proof.
  intros E. assert (nonempty ms = nonempty ms') as En.
  { destruct ms; [by apply Permutation_nil_l in E as <-|]. destruct ms'; [by apply Permutation_nil_r in E|done]. }
  destruct jt; cbn; rewrite ?En, ?E; try done; destruct ms, ms'; try done; by rewrite E.
Qed.

#[global] Instance flat_map_perm {A B} (f : A -> list B) : Proper ((≡ₚ) ==> (≡ₚ)) (flat_map f).
Proof. intros l l' E. induction E; cbn; [done|by f_equiv|by rewrite !app_assoc, (Permutation_app_comm (f _))|by etrans]. Qed.

Lemma flat_map_perm_ext {A B} (f g : A -> list B) l : (forall x, x ∈ l -> f x ≡ₚ g x) -> flat_map f l ≡ₚ flat_map g l.
Proof. induction l as [|x l IH]; cbn; intros H; [done|]. rewrite (H x) by left. rewrite IH; [done|]. intros y Hy. apply H. by right. Qed.

Lemma filter_bool_perm {A} (p : A -> bool) l l' : l ≡ₚ l' -> List.filter p l ≡ₚ List.filter p l'.
Proof. induction 1; cbn; repeat (case_match; cbn); try done; [by f_equiv|by constructor|by etrans]. Qed.

Lemma existsb_perm {A} (p : A -> bool) l l' : l ≡ₚ l' -> existsb p l = existsb p l'.
Proof. induction 1; cbn; repeat destruct (p _); cbn; congruence. Qed.

#[global] Instance join_rows_perm jt : Proper ((≡ₚ) ==> (≡ₚ) ==> (≡ₚ)) (join_rows m mk jt).
Proof.
  intros ls ls' El rs rs' Er. rewrite !join_rows_by_left. f_equiv.
  - rewrite El. apply flat_map_perm_ext. intros l _. by apply from_left_perm, filter_bool_perm.
  - destruct (keeps_right jt); [|done]. unfold lone_right. rewrite (filter_bool_perm _ _ _ Er). apply reflexive_eq. f_equal. apply filter_ext.
    intros r. f_equal. by apply existsb_perm.
Qed.

(** ** The cut *)

Context (n : nat) (L R : list (row * list nat)).
(** A right row is wherever a left row it matches is. *)
Hypothesis L_one : in_one n L.
Hypothesis together : forall l b r bs, (l, [b]) ∈ L -> (r, bs) ∈ R -> m l r = true -> b ∈ bs.

Lemma L_bucket b l : l ∈ bucket b L -> (l, [b]) ∈ L.
Proof. intros (bs & Hl & Hb)%bucket_elem. destruct (L_one _ Hl) as (b' & E & _). cbn in E. subst bs. by apply list_elem_of_singleton in Hb as ->. Qed.

Lemma bucket_matches b l : l ∈ bucket b L -> List.filter (m l) (bucket b R) = List.filter (m l) (map fst R).
Proof.
  intros Hl%L_bucket. unfold bucket. assert (forall R', R' ⊆ R -> List.filter (m l) (map fst (List.filter (fun x => bool_decide (b ∈ x.2)) R')) = List.filter (m l) (map fst R')) as E.
  { induction R' as [|[r bs] R' IH]; intros HR; cbn; [done|].
    assert (R' ⊆ R) as HR' by set_solver. specialize (IH HR'). case_bool_decide as Hb; cbn; rewrite IH; [done|].
    destruct (m l r) eqn:Em; [|done]. exfalso. apply Hb. eapply together; eauto. set_solver. }
  by apply E.
Qed.

Lemma flat_map_concat {A B} (f : A -> list B) ls : flat_map f (concat ls) = concat (map (flat_map f) ls).
Proof. induction ls as [|l ls IH]; cbn; [done|]. by rewrite flat_map_app, IH. Qed.

Lemma left_buckets jt :
  concat (map (fun b => flat_map (fun l => from_left jt l (List.filter (m l) (bucket b R))) (bucket b L)) (seq 0 n)) ≡ₚ
  flat_map (fun l => from_left jt l (List.filter (m l) (map fst R))) (map fst L).
Proof.
  rewrite <- (buckets_whole n L L_one), flat_map_concat, map_map. apply reflexive_eq. f_equal. apply map_ext. intros b.
  assert (forall ls, (forall l, l ∈ ls -> l ∈ bucket b L) ->
    flat_map (fun l => from_left jt l (List.filter (m l) (bucket b R))) ls = flat_map (fun l => from_left jt l (List.filter (m l) (map fst R))) ls) as E.
  { induction ls as [|l ls IH]; cbn; intros H; [done|]. rewrite (bucket_matches b l) by (apply H; left). rewrite IH; [done|]. intros y Hy. apply H. by right. }
  by apply E.
Qed.

(** The lone right rows, where a right row has one bucket too. *)
Hypothesis R_one : in_one n R.

Lemma lone_bucket b r : r ∈ bucket b R -> existsb (fun l => m l r) (bucket b L) = existsb (fun l => m l r) (map fst L).
Proof.
  intros (bs & Hr & Hb)%bucket_elem. apply eq_bool_prop_intro. rewrite !Is_true_true, !existsb_exists. setoid_rewrite <- list_elem_of_In. split; intros (l & Hl & Hm); exists l; split; try done.
  - apply L_bucket in Hl. apply list_elem_of_fmap. by exists (l, [b]).
  - apply list_elem_of_fmap in Hl as ([l' bl] & -> & Hl). destruct (L_one _ Hl) as (b' & E & _). cbn in E. subst bl. cbn in Hm.
    apply bucket_elem. exists [b']. split; [done|]. pose proof (together _ _ _ _ Hl Hr Hm) as Hb'.
    destruct (R_one _ Hr) as (b'' & E & _). cbn in E. subst bs. set_solver.
Qed.

Lemma right_buckets :
  concat (map (fun b => lone_right m mk (bucket b L) (bucket b R)) (seq 0 n)) ≡ₚ lone_right m mk (map fst L) (map fst R).
Proof.
  assert (lone_right m mk (map fst L) (map fst R) ≡ₚ flat_map (fun r => if negb (existsb (fun l => m l r) (map fst L)) then [mk ∅ r] else []) (map fst R)) as ->.
  { unfold lone_right. by rewrite map_filter_flat. }
  rewrite <- (buckets_whole n R R_one), flat_map_concat, map_map. apply reflexive_eq. f_equal. apply map_ext. intros b.
  unfold lone_right. rewrite map_filter_flat. generalize (fun r => lone_bucket b r). induction (bucket b R) as [|r rs IH]; cbn; intros H; [done|].
  rewrite (H r) by left. rewrite IH; [done|]. intros y Hy. apply H. by right.
Qed.
End Buckets.

(** The join of the buckets is the join. *)
Lemma join_buckets m mk jt n L R :
  in_one n L -> (forall l b r bs, (l, [b]) ∈ L -> (r, bs) ∈ R -> m l r = true -> b ∈ bs) -> (keeps_right jt = true -> in_one n R) ->
  concat (map (fun b => join_rows m mk jt (bucket b L) (bucket b R)) (seq 0 n)) ≡ₚ join_rows m mk jt (map fst L) (map fst R).
Proof.
  intros HL Htog HR. rewrite join_rows_by_left.
  rewrite (map_ext _ _ (fun b => join_rows_by_left m mk jt (bucket b L) (bucket b R))), concat_map_app. f_equiv.
  - by apply left_buckets.
  - destruct (keeps_right jt); [by apply right_buckets; auto|]. induction (seq 0 n); cbn; done.
Qed.

(** ** The partitioners *)

(** What the kernels promise: a 64-bit hash; a filter without false negatives, merged or not; a
    join equal to its definition up to the order of the rows. *)
Class JoinKernelLaws `{JoinKernels} : Prop := {
  key_hash_range k : 0 <= key_hash k < 2 ^ 64;
  bloom_complete ks k : k ∈ ks -> bloom_contains (build_key_bloom ks) k = true;
  merge_complete bs b k : merge_blooms bs = Some b -> (exists b', b' ∈ bs /\ bloom_contains b' k = true) -> bloom_contains b k = true;
  hash_join_exact j ls rs : hash_join j ls rs ≡ₚ join_rows (matches (zip (left_keys j) (right_keys j))) (out_row (output j)) (kind j) ls rs }.

Lemma land_le a b : 0 <= b -> 0 <= Z.land a b <= b.
Proof.
  intros Hb. split; [apply Z.land_nonneg; by right|]. assert (Z.ldiff (Z.land a b) b = 0) as E.
  { apply Z.bits_inj'. intros i Hi. rewrite Z.ldiff_spec, Z.land_spec, Z.bits_0. by destruct (Z.testbit a i), (Z.testbit b i). }
  pose proof (Z.sub_nocarry_ldiff b (Z.land a b) E) as E'. assert (0 <= Z.ldiff b (Z.land a b)) by (apply Z.ldiff_nonneg; by left). lia.
Qed.

Lemma lxor_range w a b : 0 <= w -> 0 <= a < 2 ^ w -> 0 <= b < 2 ^ w -> 0 <= Z.lxor a b < 2 ^ w.
Proof.
  intros Hw [Ha Ha'] [Hb Hb']. assert (0 <= Z.lxor a b) by (apply Z.lxor_nonneg; lia). split; [done|].
  destruct (decide (Z.lxor a b = 0)) as [->|]; [lia|]. apply Z.log2_lt_pow2; [lia|]. eapply Z.le_lt_trans; [by apply Z.log2_lxor|].
  destruct (decide (w = 0)) as [->|]; [assert (a = 0) as -> by lia; assert (b = 0) as -> by lia; done|].
  apply Z.max_lub_lt; [destruct (decide (a = 0)) as [->|]|destruct (decide (b = 0)) as [->|]]; try (cbn; lia); apply Z.log2_lt_pow2; lia.
Qed.

Lemma shiftr_range w a k : 0 <= k -> 0 <= a < 2 ^ w -> 0 <= Z.shiftr a k < 2 ^ w.
Proof.
  intros Hk [Ha Ha']. rewrite Z.shiftr_div_pow2 by done. split; [apply Z.div_pos; lia|]. eapply Z.le_lt_trans; [|done].
  apply Z.div_le_upper_bound; nia.
Qed.

Lemma salted_hash_range h s : 0 <= h < 2 ^ 64 -> 0 <= salted_hash h s < 2 ^ 64.
Proof.
  intros Hh. unfold salted_hash. pose proof (lxor_range 64) as X. pose proof (shiftr_range 64) as Y.
  assert (forall z, 0 <= z mod 2 ^ 64 < 2 ^ 64) as M by (intros; apply Z.mod_pos_bound; lia). cbv zeta. auto 10 with lia.
Qed.

Lemma bucket_of_lt h n : 0 <= h < 2 ^ 64 -> (0 < n)%nat -> (bucket_of h n < n)%nat.
Proof.
  intros Hh Hn. unfold bucket_of. case_match.
  - pose proof (land_le h (Z.of_nat n - 1)). lia.
  - rewrite Z.shiftr_div_pow2 by done. assert (h * Z.of_nat n / 2 ^ 64 < Z.of_nat n) by (apply Z.div_lt_upper_bound; nia).
    assert (0 <= h * Z.of_nat n / 2 ^ 64) by (apply Z.div_pos; nia). lia.
Qed.

Lemma matches_keys lk rk l r : length lk = length rk -> matches (zip lk rk) l r = true -> key_of lk l = key_of rk r.
Proof.
  unfold matches, key_of. revert rk. induction lk as [|a lk IH]; intros [|b rk] Hlen; cbn; try done. intros [Ha Hm]%andb_true_iff. f_equal; [|by apply IH; auto].
  unfold key_eq in Ha. destruct (l !! a), (r !! b); try done. cbn. f_equal. by apply bool_decide_eq_true in Ha.
Qed.

Section Placement.
Context `{JoinKernelLaws}.

(** The rows as the map tasks of one side place them. *)
Definition place (ks : list string) (n : nat) (hot : list string) (salt : nat) (replicate : bool) (rows : list row) : list (row * list nat) :=
  if (0 <? salt)%nat && nonempty hot && (length ks =? 1)%nat && negb (n =? 1)%nat then salted_rows ks n hot salt replicate 0 rows
  else map (placed ks n 0) rows.

Lemma bucket_of_salted_lt h n s : 0 <= h < 2 ^ 64 -> (0 < n)%nat -> (bucket_of_salted h n s < n)%nat.
Proof. intros Hh Hn. unfold bucket_of_salted. case_match; apply bucket_of_lt; auto using salted_hash_range. Qed.

Lemma placed_in_one ks n s rows : (0 < n)%nat -> in_one n (map (placed ks n s) rows).
Proof.
  intros Hn x (r & -> & _)%list_elem_of_fmap. cbn. eexists. split; [done|]. destruct ks; [done|]. apply bucket_of_salted_lt; auto using key_hash_range.
Qed.

Lemma placed_fst ks n s rows : map fst (map (placed ks n s) rows) = rows.
Proof. rewrite map_map. apply map_id. Qed.

Lemma salted_fst ks n hot salt replicate rows : forall cursor, map fst (salted_rows ks n hot salt replicate cursor rows) = rows.
Proof. induction rows as [|r rows IH]; intros cursor; cbn; [done|]. repeat case_match; cbn; by rewrite IH. Qed.

(** Where the salted partitioner may put a row. *)
Definition may_place (ks : list string) (n : nat) (hot : list string) (salt : nat) (replicate : bool) (r : row) (bs : list nat) : Prop :=
  let h := key_hash (key_of ks r) in
  if is_hot hot (key_of ks r)
  then if replicate then bs = remove_dups (map (salted_bucket n h) (seq 0 salt)) else exists s, (s < salt)%nat /\ bs = [salted_bucket n h s]
  else bs = [bucket_of h n].

Lemma salted_may ks n hot salt replicate rows : (0 < salt)%nat -> forall cursor r bs,
  (r, bs) ∈ salted_rows ks n hot salt replicate cursor rows -> may_place ks n hot salt replicate r bs.
Proof.
  intros Hs. induction rows as [|r' rows IH]; intros cursor r bs; cbn; [by intros ?%not_elem_of_nil|]. unfold may_place in *.
  destruct (is_hot hot (key_of ks r')) eqn:Eh; cbn; [destruct replicate|]; intros [[= -> ->]|Hin]%elem_of_cons; try by eapply IH.
  all: cbv zeta; rewrite Eh; try done.
  eexists. split; [|done]. pose proof (Z.mod_pos_bound cursor (Z.of_nat salt)). lia.
Qed.

Lemma place_fst ks n hot salt replicate rows : map fst (place ks n hot salt replicate rows) = rows.
Proof. unfold place. case_match; [apply salted_fst|apply placed_fst]. Qed.

Lemma placed_once ks n s rows : once_each (map (placed ks n s) rows).
Proof. intros x (r & -> & _)%list_elem_of_fmap. apply NoDup_singleton. Qed.

Lemma place_once ks n hot salt replicate rows : once_each (place ks n hot salt replicate rows).
Proof.
  unfold place. case_match; [|apply placed_once]. bsplit. intros [r bs] Hin%salted_may; [|by apply Nat.ltb_lt]. unfold may_place in Hin. cbn.
  repeat case_match; [subst bs; apply NoDup_remove_dups|destruct Hin as (s & _ & ->); apply NoDup_singleton|subst bs; apply NoDup_singleton].
Qed.

Lemma place_in_one ks n hot salt replicate rows : (0 < n)%nat -> replicate = false \/ salt = 0%nat \/ hot = [] -> in_one n (place ks n hot salt replicate rows).
Proof.
  intros Hn Hr. unfold place. case_match; [|by apply placed_in_one]. bsplit. intros [r bs] Hin%salted_may; [|by apply Nat.ltb_lt]. unfold may_place in Hin. cbn.
  assert (replicate = false) as -> by (destruct Hr as [?|[->| ->]]; done).
  case_match; [destruct Hin as (s & Hs & ->)|subst bs]; eexists; (split; [done|]); apply bucket_of_lt; auto using salted_hash_range, key_hash_range.
Qed.

(** A right row is where the left rows of its key are. *)
Lemma place_together lk rk n hot salt ls rs l b r bs :
  length lk = length rk -> (l, [b]) ∈ place lk n hot salt false ls -> (r, bs) ∈ place rk n hot salt true rs -> matches (zip lk rk) l r = true -> b ∈ bs.
Proof.
  intros Hlen Hl Hr Hm. pose proof (matches_keys _ _ _ _ Hlen Hm) as Ek. unfold place in *. rewrite Hlen in Hl. case_match.
  - bsplit. apply salted_may in Hl; [|by apply Nat.ltb_lt]. apply salted_may in Hr; [|by apply Nat.ltb_lt]. unfold may_place in *. rewrite Ek in Hl. case_match.
    + destruct Hl as (s & Hs & [= ->]). subst bs. apply elem_of_remove_dups, list_elem_of_fmap. exists s. split; [done|]. apply elem_of_seq. lia.
    + injection Hl as ->. subst bs. by left.
  - apply list_elem_of_fmap in Hl as (l' & [= <- ->] & _). apply list_elem_of_fmap in Hr as (r' & [= <- ->] & _).
    rewrite Ek. destruct lk, rk; try done; set_solver.
Qed.
End Placement.

(** ** The map tasks *)

Section Map.
Context `{JoinKernelLaws}.

Definition prune (filter : option bloom) (ks : list string) (rows : list row) : list row :=
  match filter with Some f => List.filter (fun r => bloom_contains f (key_of ks r)) rows | None => rows end.

Context (ks : list string) (n : nat) (hot : list string) (salt : nat) (replicate : bool) (filter : option bloom).
Abbreviation mapper := (join_map_task ks n hot salt replicate filter).

(** Whether a mapper writes files: it writes none when the filter pruned all its rows. *)
Definition writes (rows : list row) : bool := match filter with Some _ => nonempty (prune filter ks rows) | None => true end.

Lemma join_map_task_files rows :
  mapper rows = if writes rows then map (fun b => bucket b (place ks n hot salt replicate (prune filter ks rows))) (seq 0 n) else [].
Proof.
  unfold join_map_task, writes. fold (prune filter ks rows). remember (prune filter ks rows) as rows' eqn:E. clear E.
  assert ((if (0 <? salt)%nat && nonempty hot && (length ks =? 1)%nat then salted_partition ks n hot salt replicate rows' else partition_batches ks n rows') =
          map (fun b => bucket b (place ks n hot salt replicate rows')) (seq 0 n)) as E.
  { rewrite <- scatter_buckets by apply place_once. unfold place, salted_partition. destruct (0 <? salt)%nat; cbn; [|done]. destruct hot; cbn; [done|]. destruct (length ks =? 1)%nat; cbn; [|done]. by destruct (n =? 1)%nat. }
  unfold nonempty in *. destruct filter, rows'; done.
Qed.

Lemma files_for_bucket b parts : (b < n)%nat ->
  concat (files_for b (map mapper parts)) = bucket b (flat_map (fun rows => place ks n hot salt replicate (prune filter ks rows)) parts).
Proof.
  intros Hb. unfold files_for. induction parts as [|rows parts IH]; cbn; [done|]. unfold bucket in *. rewrite List.filter_app, map_app, <- IH.
  rewrite join_map_task_files. destruct (writes rows) eqn:Ew.
  - destruct n as [|n']; [lia|]. cbn. f_equal. destruct b; cbn; [done|]. rewrite (nth_indep _ _ (bucket 0 (place ks (S n') hot salt replicate (prune filter ks rows)))).
    2: rewrite length_map, length_seq; lia.
    rewrite (map_nth (fun b => bucket b (place ks (S n') hot salt replicate (prune filter ks rows)))). rewrite seq_nth by lia. done.
  - cbn. unfold writes in Ew. destruct filter; [|done]. destruct (prune _ _ _); [|done]. unfold place. by case_match.
Qed.

Lemma files_for_nonempty b parts : (0 < n)%nat -> nonempty (files_for b (map mapper parts)) = existsb writes parts.
Proof.
  intros Hn. unfold files_for. induction parts as [|rows parts IH]; cbn; [done|]. rewrite join_map_task_files. destruct (writes rows); [|done]. destruct n; [lia|done].
Qed.

Lemma placed_parts_fst parts : map fst (flat_map (fun rows => place ks n hot salt replicate (prune filter ks rows)) parts) = prune filter ks (concat parts).
Proof.
  induction parts as [|rows parts IH]; cbn; [by destruct filter|]. rewrite map_app, place_fst, IH. destruct filter; cbn; [by rewrite List.filter_app|done].
Qed.

Lemma placed_parts_elem x parts :
  x ∈ flat_map (fun rows => place ks n hot salt replicate (prune filter ks rows)) parts <-> exists rows, rows ∈ parts /\ x ∈ place ks n hot salt replicate (prune filter ks rows).
Proof. rewrite list_elem_of_In, in_flat_map. by setoid_rewrite <- list_elem_of_In. Qed.
End Map.

(** ** Pruning *)

(** A filter over the right keys drops no left row with a match. *)
Lemma pruned_join_rows m mk jt (p : row -> bool) ls rs :
  jt = JInner \/ jt = JSemi -> (forall l r, r ∈ rs -> m l r = true -> p l = true) ->
  join_rows m mk jt (List.filter p ls) rs = join_rows m mk jt ls rs.
Proof.
  intros Hjt Hp. rewrite !join_rows_by_left. assert (keeps_right jt = false) as -> by (by destruct Hjt as [-> | ->]). rewrite !app_nil_r.
  induction ls as [|l ls IH]; cbn; [done|]. destruct (p l) eqn:Ep; cbn; rewrite IH; [done|].
  assert (List.filter (m l) rs = []) as ->; [|by destruct Hjt as [-> | ->]].
  clear IH. induction rs as [|r rs IH]; cbn; [done|]. destruct (m l r) eqn:Em; [|apply IH; intros l' r' Hr'; apply Hp; by right].
  rewrite (Hp l r) in Ep; [done|left|done].
Qed.

Lemma built_filter_complete `{JoinKernelLaws} lk rk rparts f l r :
  length lk = length rk -> merge_blooms (map (fun p => build_key_bloom (map (key_of rk) p)) rparts) = Some f ->
  r ∈ concat rparts -> matches (zip lk rk) l r = true -> bloom_contains f (key_of lk l) = true.
Proof.
  intros Hlen Hf Hr Hm. rewrite (matches_keys _ _ _ _ Hlen Hm). apply (merge_complete _ _ _ Hf).
  apply list_elem_of_In, in_concat in Hr as (p & Hp%list_elem_of_In & Hr%list_elem_of_In). exists (build_key_bloom (map (key_of rk) p)). split.
  - apply list_elem_of_fmap. eauto.
  - apply bloom_complete, list_elem_of_fmap. eauto.
Qed.

(** ** The reducer *)

Lemma string_app_cons c (a b : string) : String c a +:+ b = String c (a +:+ b).
Proof. done. Qed.

Lemma string_app_length (a b : string) : String.length (a +:+ b) = (String.length a + String.length b)%nat.
Proof. induction a as [|c a IH]; [done|]. rewrite string_app_cons. cbn. by rewrite IH. Qed.

Lemma string_app_cancel (s t u : string) : s +:+ u = t +:+ u -> s = t.
Proof.
  revert t. induction s as [|c s IH]; intros [|d t] E; [done|..].
  - apply (f_equal String.length) in E. rewrite !string_app_length in E. cbn in E. lia.
  - apply (f_equal String.length) in E. rewrite !string_app_length in E. cbn in E. lia.
  - rewrite !string_app_cons in E. injection E as -> E. f_equal. by apply IH.
Qed.

#[global] Instance sub_path_inj tag : Inj (=) (=) (sub_path tag).
Proof. intros i k E. unfold sub_path in E. apply (inj (String.append tag)), (inj (String.append "_")), string_app_cancel in E. by apply (inj pretty.pretty). Qed.

(** The directory once the sub-buckets of a side are published. *)
Fixpoint published (tag : string) (subs : list (nat * list row)) (d : dir) : dir :=
  match subs with
  | [] => d
  | (_, []) :: subs' => published tag subs' d
  | (i, rows) :: subs' => published tag subs' (<[sub_path tag i := rows]> d)
  end.

Lemma run_publish tag subs k d : run_task (publish tag subs k) d = run_task k (published tag subs d).
Proof. revert d. induction subs as [|[i [|r rows]] subs IH]; intros d; cbn [publish published]; [done|done|]. by rewrite run_atomic. Qed.

Lemma published_ne tag p subs d : (forall i, sub_path tag i <> p) -> published tag subs d !! p = d !! p.
Proof. intros Hne. revert d. induction subs as [|[i [|r rows]] subs IH]; intros d; cbn; [done|done|]. rewrite IH. by apply lookup_insert_ne. Qed.

Lemma published_absent tag i subs d : i ∉ map fst subs -> published tag subs d !! sub_path tag i = d !! sub_path tag i.
Proof.
  revert d. induction subs as [|[k [|r rows]] subs IH]; intros d Hi; cbn in *; [done|apply IH; set_solver|].
  rewrite IH by set_solver. apply lookup_insert_ne. intros E%(inj (sub_path tag)). set_solver.
Qed.

Lemma published_lookup tag subs i rows d : NoDup (map fst subs) -> (i, rows) ∈ subs -> rows <> [] -> published tag subs d !! sub_path tag i = Some rows.
Proof.
  revert d. induction subs as [|[k ks] subs IH]; intros d Hn Hin Hne; [by apply not_elem_of_nil in Hin|].
  cbn in Hn. apply NoDup_cons in Hn as [Hk Hn]. apply elem_of_cons in Hin as [[= <- <-]|Hin].
  - destruct rows as [|r rows]; [done|]. cbn. rewrite published_absent by done. apply lookup_insert_eq.
  - destruct ks; cbn; by apply IH.
Qed.

Lemma published_sub tag subs i rows d : subs !! i = Some rows -> rows <> [] -> published tag (reverse (imap pair subs)) d !! sub_path tag i = Some rows.
Proof.
  intros Hi Hne. apply published_lookup; [|apply elem_of_reverse, list_elem_of_lookup; exists i; by rewrite list_lookup_imap, Hi|done].
  assert (map fst (imap pair subs) = seq 0 (length subs)) as E.
  { change (fst <$> imap pair subs = seq 0 (length subs)). rewrite fmap_imap. apply list_eq. intros k. rewrite list_lookup_imap. destruct (subs !! k) eqn:Ek; cbn.
    - rewrite lookup_seq_lt; [done|by eapply lookup_lt_Some].
    - symmetry. apply lookup_seq_ge. by apply lookup_ge_None. }
  change (NoDup (fst <$> reverse (imap pair subs))). rewrite fmap_reverse, reverse_Permutation. change (NoDup (map fst (imap pair subs))). rewrite E. apply NoDup_seq.
Qed.

Section Reduce.
Context `{JoinKernelLaws} (j : join_node).
Context (file_size : list row -> Z) (budget : Z).
Hypothesis keys_len : length (left_keys j) = length (right_keys j).
Abbreviation join := (join_rows (matches (zip (left_keys j) (right_keys j))) (out_row (output j)) (kind j)).

(** The joins of the pairs, as their files hold them. *)
Lemma run_join_pairs d : forall ls rs i out, length ls = length rs ->
  (forall k rows, ls !! k = Some rows -> rows <> [] -> d !! sub_path "rl" (i + k) = Some rows) ->
  (forall k rows, rs !! k = Some rows -> rows <> [] -> d !! sub_path "rr" (i + k) = Some rows) ->
  exists o, run_task (join_pairs j true true i (zip (map nonempty ls) (map nonempty rs)) out) d = (d, Ok (out ++ o)) /\ o ≡ₚ concat (zip_with join ls rs).
Proof.
  induction ls as [|l ls IH]; intros [|r rs] i out Hlen Hl Hr; try done; cbn [map zip zip_with join_pairs concat]; [exists []; by rewrite app_nil_r|].
  assert (exists o', hash_join j l r = o' /\ o' ≡ₚ join l r) as (o' & Eo & Ho) by (eexists; split; [done|apply hash_join_exact]).
  assert (forall out', exists o, run_task (join_pairs j true true (S i) (zip (map nonempty ls) (map nonempty rs)) out') d = (d, Ok (out' ++ o)) /\ o ≡ₚ concat (zip_with join ls rs)) as Hrest.
  { intros out'. apply IH; [by injection Hlen| |]; intros k rows Hk Hne; replace (S i + k)%nat with (i + S k)%nat by lia; [by apply Hl|by apply Hr]. }
  pose proof (Hl 0%nat l eq_refl) as Hl0. pose proof (Hr 0%nat r eq_refl) as Hr0. rewrite !Nat.add_0_r in *.
  destruct (nonempty l || nonempty r) eqn:Eb.
  - destruct (Hrest (out ++ o')) as (o & Er & Hperm). exists (o' ++ o). split; [|by rewrite Ho, Hperm]. rewrite <- app_assoc in Er.
    assert (forall wl wr, wl = nonempty l -> wr = nonempty r -> run_task (atomic (read_sub "rl" i wl true) (fun l0 => match l0 with Raise e => Done (Raise e) | Ok l1 =>
      atomic (read_sub "rr" i wr true) (fun r0 => match r0 with Raise e => Done (Raise e) | Ok r1 => match execute_join j l1 r1 with Raise e => Done (Raise e)
        | Ok o => join_pairs j true true (S i) (zip (map nonempty ls) (map nonempty rs)) (out ++ o) end end) end)) d = (d, Ok (out ++ o' ++ o))) as Hstep.
    { intros ? ? -> ->. rewrite run_atomic. unfold read_sub at 1 2. cbn [fst snd].
      assert ((if nonempty l then match d !! sub_path "rl" i with Some rows => Ok (Some rows) | None => Raise "FileNotFoundError" end else Ok (Some [])) = Ok (Some l)) as ->
        by (destruct l; cbn; [done|by rewrite Hl0]).
      rewrite run_atomic. unfold read_sub. cbn [fst snd].
      assert ((if nonempty r then match d !! sub_path "rr" i with Some rows => Ok (Some rows) | None => Raise "FileNotFoundError" end else Ok (Some [])) = Ok (Some r)) as ->
        by (destruct r; cbn; [done|by rewrite Hr0]).
      unfold execute_join. by rewrite Eo. }
    destruct (nonempty l) eqn:E1, (nonempty r) eqn:E2; try done; by apply Hstep.
  - destruct l, r; try done. destruct (Hrest out) as (o & Er & Hperm). exists o. split; [done|]. rewrite Hperm. by destruct (kind j).
Qed.

(** A reducer on its own joins its bucket, whatever the directory holds. *)
Lemma run_join_paths_spilling left right n d : nonempty left = true -> nonempty right = true -> (0 < n)%nat ->
  exists out, (run_task (join_paths_spilling j left right n) d).2 = Ok out /\ out ≡ₚ join (concat left) (concat right).
Proof.
  intros Hl Hr Hn. unfold join_paths_spilling, spill_paths_to_subbuckets. rewrite !run_publish, Hl, Hr.
  set (ls := sub_buckets (left_keys j) n left). set (rs := sub_buckets (right_keys j) n right).
  assert (length ls = length rs) as Hlen by (unfold ls, rs, sub_buckets, partition_batches_salted, scatter; by rewrite !length_map).
  set (d' := published _ _ _). destruct (run_join_pairs d' ls rs 0 [] Hlen) as (o & Er & Ho).
  - intros k rows Hk Hne. unfold d'. rewrite published_ne by (intros i E; discriminate E). by apply published_sub.
  - intros k rows Hk Hne. by apply published_sub.
  - exists o. rewrite Er. split; [done|]. rewrite Ho.
    assert (zip_with join ls rs = map (fun b => join (bucket b (map (placed (left_keys j) n SUBBUCKET_SALT) (concat left)))
      (bucket b (map (placed (right_keys j) n SUBBUCKET_SALT) (concat right)))) (seq 0 n)) as ->.
    { unfold ls, rs, sub_buckets, partition_batches_salted. rewrite !scatter_buckets by apply placed_once. clear. induction (seq 0 n); cbn; [done|by f_equal]. }
    rewrite join_buckets; [by rewrite !placed_fst|by apply placed_in_one| |intros _; by apply placed_in_one].
    intros l b r bs (l' & [= <- ->] & _)%list_elem_of_fmap (r' & [= <- ->] & _)%list_elem_of_fmap Hm.
    rewrite (matches_keys _ _ _ _ keys_len Hm). destruct (left_keys j), (right_keys j); try done; set_solver.
Qed.

Lemma run_join_reduce left right d : nonempty left = true -> nonempty right = true ->
  exists out, (run_task (join_reduce_task file_size budget j PlainJoin left right) d).2 = Ok out /\ out ≡ₚ join (concat left) (concat right).
Proof.
  intros Hl Hr. unfold join_reduce_task. case_match; [apply run_join_paths_spilling; auto; unfold fd_safe; lia|].
  assert (some_batch left = Some (concat left)) as El by (by destruct left). assert (some_batch right = Some (concat right)) as Er by (by destruct right).
  assert (exists out, Ok (hash_join j (concat left) (concat right)) = Ok out /\ out ≡ₚ join (concat left) (concat right)) as Hjoin by (eexists; split; [done|apply hash_join_exact]).
  rewrite El, Er. destruct (kind j) eqn:Ek; try exact Hjoin. destruct (concat left) eqn:E1; [by exists []|]. destruct (concat right) eqn:E2; [|exact Hjoin].
  exists []. split; [done|]. cbn. clear. induction l; cbn; done.
Qed.

(** It takes a bounded number of steps. *)
Lemma within_publish m tag subs k : within m k -> within (length subs + m) (publish tag subs k).
Proof.
  intros Hk. induction subs as [|[i [|r rows]] subs IH]; cbn [publish length]; [done|by eapply within_le; [|exact IH]; lia|].
  apply within_atomic. done.
Qed.

Lemma within_join_pairs lschema rschema pairs : forall i out, within (2 * length pairs) (join_pairs j lschema rschema i pairs out).
Proof.
  induction pairs as [|[wl wr] pairs IH]; intros i out; cbn [join_pairs length]; [done|]. replace (2 * S (length pairs))%nat with (S (S (2 * length pairs))) by lia.
  assert (forall l, within (S (2 * length pairs)) match l with Raise e => Done (Raise e) | Ok l => atomic (read_sub "rr" i wr rschema) (fun r => match r with Raise e => Done (Raise e)
    | Ok r => match execute_join j l r with Raise e => Done (Raise e) | Ok o => join_pairs j lschema rschema (S i) pairs (out ++ o) end end) end) as Hstep.
  { intros [l|e]; [|apply within_done]. apply within_atomic. intros [r|e]; [|apply within_done]. destruct (execute_join j l r); [apply IH|apply within_done]. }
  destruct wl, wr; try (by apply within_atomic). eapply within_le; [|apply IH]. lia.
Qed.

Lemma within_join_reduce r left right : within (4 * 1024) (join_reduce_task file_size budget j r left right).
Proof.
  unfold join_reduce_task. case_match; [|by repeat case_match; apply within_done]. destruct r; [|apply within_done]. unfold join_paths_spilling, spill_paths_to_subbuckets.
  set (n := fd_safe _). assert (n <= 1024)%nat as Hn by (unfold n, fd_safe, FD_SAFE_PARTITIONS; lia).
  set (ls := sub_buckets _ _ left). set (rs := sub_buckets _ _ right).
  assert (length ls = n /\ length rs = n) as [El Er] by (unfold ls, rs, sub_buckets, partition_batches_salted, scatter; by rewrite !length_map, !length_seq).
  assert (length (reverse (imap pair ls)) = n /\ length (reverse (imap pair rs)) = n) as [El' Er'] by (by rewrite !length_reverse, !length_imap).
  eapply within_le; [|apply within_publish, within_publish, within_join_pairs]. rewrite El', Er', length_zip_with, !length_map, El, Er. lia.
Qed.
End Reduce.
