(* ===== verification/JoinShuffleUse.v ===== *)
(** * The distributed join is the join

    Whatever the partitions, the salting, the filter, the strategy and the interleaving of the
    reducers, the rows of a distributed join are those of the join of its whole sides, as long as
    at most one reducer is over its memory budget and the filter leaves a probe row.  An
    aggregate fused into the reducers is the aggregate of the join where its group keys hold the
    join keys as the output carries them. *)

From S2P Require Import Prelude ExprIR ExprAlgebra PlanIR PlanSound PlanSemi Tasks JoinShuffle JoinShuffleSound.

(** ** The shuffle *)

Lemma res_mapM_id_perm {A} (fs : list (res (list A))) (gs : list (list A)) :
  Forall2 (fun f g => exists out, f = Ok out /\ out ≡ₚ g) fs gs -> exists outs, res_mapM (fun r => r) fs = Ok outs /\ concat outs ≡ₚ concat gs.
Proof.
  induction 1 as [|f g fs gs (out & -> & Ho) _ (outs & E & Hp)]; [by exists []|]. exists (out :: outs). cbn. rewrite E. split; [done|]. by rewrite Ho, Hp.
Qed.

Lemma lookup_map_Some {A B} (f : A -> B) l k y : map f l !! k = Some y -> exists x, l !! k = Some x /\ y = f x.
Proof. revert k. induction l as [|x l IH]; intros [|k]; cbn; try done; [intros [= <-]; eauto|apply IH]. Qed.

Section Shuffle.
Context `{JoinKernelLaws} (file_size : list row -> Z) (budget : Z).
Context (j : join_node) (workers : nat) (skew : list string * nat) (engaged : bool) (lparts rparts : list (list row)).
Hypothesis workers_pos : (0 < workers)%nat.
Hypothesis keys_len : length (left_keys j) = length (right_keys j).
Hypothesis right_read : rparts <> [].
(** A probe row is left for some mapper. *)
Definition probed : bool := existsb (writes (left_keys j) (shuffle_filter j engaged rparts)) lparts.
Hypothesis probe_left : probed = true.

Abbreviation join := (join_rows (matches (zip (left_keys j) (right_keys j))) (out_row (output j)) (kind j)).
Abbreviation tasks r := (shuffle_tasks file_size budget j r workers skew engaged lparts rparts).
Abbreviation buckets r := (shuffle_buckets j r workers skew engaged lparts rparts).

(** The rows of the two sides, with the buckets they are sent to. *)
Definition lplaced (r : reducer) : list (row * list nat) :=
  flat_map (fun rows => place (left_keys j) workers (shuffle_salt j r skew).1 (shuffle_salt j r skew).2 false (prune (shuffle_filter j engaged rparts) (left_keys j) rows)) lparts.
Definition rplaced (r : reducer) : list (row * list nat) :=
  flat_map (fun rows => place (right_keys j) workers (shuffle_salt j r skew).1 (shuffle_salt j r skew).2 true (prune None (right_keys j) rows)) rparts.

Lemma bucket_files r : Forall2 (fun files b => nonempty files.1 = true /\ nonempty files.2 = true /\
    concat files.1 = bucket b (lplaced r) /\ concat files.2 = bucket b (rplaced r)) (buckets r) (seq 0 workers).
Proof.
  unfold shuffle_buckets, lplaced, rplaced. destruct (shuffle_salt j r skew) as [hot salt]. apply Forall2_fmap_l, Forall_Forall2_diag, Forall_forall. intros b Hb%elem_of_seq. cbn.
  rewrite !files_for_nonempty by done. rewrite !files_for_bucket by lia. split; [done|]. split; [|done]. by destruct rparts.
Qed.

(** The filter is over the right keys. *)
Lemma filter_neutral : join (prune (shuffle_filter j engaged rparts) (left_keys j) (concat lparts)) (concat rparts) = join (concat lparts) (concat rparts).
Proof.
  unfold shuffle_filter, prune. destruct (bloom_used j engaged) eqn:Eu; [|done]. destruct (merge_blooms _) as [f|] eqn:Ef; [|done].
  apply pruned_join_rows; [unfold bloom_used in Eu; destruct (kind j); cbn in Eu; try done; auto|]. intros l r Hr Hm. by eapply built_filter_complete.
Qed.

(** Salting replicates right rows only where unmatched ones do not count. *)
Lemma right_in_one r : keeps_right (kind j) = true -> in_one workers (rplaced r).
Proof.
  intros Hk x (rows & _ & Hx)%placed_parts_elem. eapply place_in_one; [done| |exact Hx]. right. right. unfold shuffle_salt, salting_preserves_result.
  assert (left_driven (kind j) = false) as -> by (by destruct (kind j)). by rewrite andb_false_r.
Qed.

Lemma shuffled_join r : concat (map (fun b => join (bucket b (lplaced r)) (bucket b (rplaced r))) (seq 0 workers)) ≡ₚ join (concat lparts) (concat rparts).
Proof.
  rewrite join_buckets.
  - unfold lplaced, rplaced. rewrite !placed_parts_fst. cbn. by rewrite filter_neutral.
  - intros x (rows & _ & Hx)%placed_parts_elem. eapply place_in_one; [done|by left|exact Hx].
  - intros l b r' bs (rows & _ & Hl)%placed_parts_elem (rows' & _ & Hr)%placed_parts_elem Hm. by eapply place_together.
  - apply right_in_one.
Qed.

(** At most one of the reducers works out of core. *)
Definition one_spills (r : reducer) : Prop := (length (List.filter (fun files => over_budget file_size budget files.1 files.2) (buckets r)) <= 1)%nat.
(** Every reducer has the turns it may need. *)
Definition fair (turns : list nat) : Prop := forall i, (i < workers)%nat -> (4 * 1024 <= count_occ Nat.eq_dec turns i)%nat.

Lemma one_spills_solo r : one_spills r -> exists i, forall k t, tasks r !! k = Some t -> k <> i -> finished t = true.
Proof.
  unfold one_spills, shuffle_tasks. induction (buckets r) as [|files l IH]; cbn; [by exists 0%nat|]. destruct (over_budget _ _ files.1 files.2) eqn:Eo.
  - cbn. intros Hl. exists 0%nat. intros [|k] t Hk; [done|]. intros _. cbn in Hk. apply lookup_map_Some in Hk as (files' & Hf & ->).
    assert (over_budget file_size budget files'.1 files'.2 = false) as E.
    { destruct (over_budget file_size budget files'.1 files'.2) eqn:E; [|done]. assert (files' ∈ List.filter (fun files => over_budget file_size budget files.1 files.2) l) as Hin
        by (apply elem_of_filter_bool; split; [by eapply list_elem_of_lookup_2|done]). destruct (List.filter _ l); [by apply not_elem_of_nil in Hin|cbn in Hl; lia]. }
    unfold join_reduce_task. rewrite E. by repeat case_match.
  - intros (i & Hi)%IH. exists (S i). intros [|k] t Hk Hne; cbn in Hk; [|by eapply Hi; eauto]. injection Hk as <-. unfold join_reduce_task. rewrite Eo. by repeat case_match.
Qed.

Lemma shuffle_answers r turns : one_spills r -> fair turns ->
  shuffle_join file_size budget j r workers skew engaged lparts rparts turns =
  Some (@concat row <$> res_mapM (fun r => r) (map (fun t => (run_task t ∅).2) (tasks r))).
Proof.
  intros Hone Hfair. unfold shuffle_join, gather. destruct (schedule_finishes turns ∅ (tasks r) (fun _ => 4 * 1024)%nat) as [rs Hrs].
  - intros i t Hi. unfold shuffle_tasks in Hi. apply lookup_map_Some in Hi as (files & _ & ->). by apply within_join_reduce.
  - intros i Hi. apply Hfair. revert Hi. unfold shuffle_tasks, shuffle_buckets. destruct (shuffle_salt j r skew). by rewrite !length_map, length_seq.
  - rewrite Hrs. cbn. destruct (one_spills_solo r Hone) as (i & Hi). by rewrite (answers_solo i _ _ _ _ Hi Hrs).
Qed.

(** With no reducer out of core there is nothing to interleave. *)
Lemma shuffle_in_memory r turns : Forall (fun files => over_budget file_size budget files.1 files.2 = false) (buckets r) ->
  shuffle_join file_size budget j r workers skew engaged lparts rparts turns =
  Some (@concat row <$> res_mapM (fun r => r) (map (fun t => (run_task t ∅).2) (tasks r))).
Proof.
  intros Hmem. assert (forall k t, tasks r !! k = Some t -> finished t = true) as Hall.
  { intros k t Hk. unfold shuffle_tasks in Hk. apply lookup_map_Some in Hk as (files & Hf & ->). rewrite Forall_lookup in Hmem. specialize (Hmem _ _ Hf). cbn in Hmem.
    unfold join_reduce_task. rewrite Hmem. by repeat case_match. }
  unfold shuffle_join, gather. destruct (schedule_finishes turns ∅ (tasks r) (fun _ => 0)%nat) as [rs Hrs].
  - intros i t Hi%Hall. by destruct t.
  - intros; lia.
  - rewrite Hrs. cbn. by rewrite (answers_solo 0 _ _ _ _ (fun k t Hk _ => Hall k t Hk) Hrs).
Qed.

Lemma shuffle_join_exact turns : one_spills PlainJoin -> fair turns ->
  exists out, shuffle_join file_size budget j PlainJoin workers skew engaged lparts rparts turns = Some (Ok out) /\ out ≡ₚ join (concat lparts) (concat rparts).
Proof.
  intros Hone Hfair. rewrite (shuffle_answers _ _ Hone Hfair).
  destruct (res_mapM_id_perm (map (fun t => (run_task t ∅).2) (tasks PlainJoin)) (map (fun b => join (bucket b (lplaced PlainJoin)) (bucket b (rplaced PlainJoin))) (seq 0 workers))) as (outs & -> & Hp).
  - unfold shuffle_tasks. rewrite map_map. apply Forall2_fmap. eapply Forall2_impl; [apply bucket_files|]. intros files b (Hl & Hr & El & Er). cbn.
    rewrite <- El, <- Er. by apply run_join_reduce.
  - exists (concat outs). split; [done|]. by rewrite Hp, shuffled_join.
Qed.
End Shuffle.

(** ** The broadcast *)

(** A sub-plan without breakers: its rows are those of its partitions. *)
Definition partitionable (plan : list (list row) -> list row) : Prop := plan [] = [] /\ forall a b, plan (a ++ b) ≡ₚ plan a ++ plan b.

Lemma partition_plan plan parts : partitionable plan -> plan (concat parts) ≡ₚ concat (map plan parts).
Proof. intros [Hnil Happ]. induction parts as [|p parts IH]; cbn; [by rewrite Hnil|]. by rewrite Happ, IH. Qed.

Lemma byte_chunks_concat retained target batches : forall chunk size, concat (byte_chunks retained target chunk size batches) = chunk ++ batches.
Proof.
  induction batches as [|b batches IH]; intros chunk size; cbn; [by destruct chunk; cbn; rewrite ?app_nil_r|].
  case_match; cbn; rewrite IH; [|by rewrite <- app_assoc]. by rewrite <- app_assoc.
Qed.

Lemma join_rows_concat m mk jt lss rs : left_driven jt = true -> join_rows m mk jt (concat lss) rs = concat (map (fun ls => join_rows m mk jt ls rs) lss).
Proof.
  intros Hd. rewrite join_rows_by_left. assert (keeps_right jt = false) as Hk by (by destruct jt). rewrite Hk, app_nil_r, flat_map_concat. f_equal. apply map_ext. intros ls.
  rewrite join_rows_by_left. by rewrite Hk, app_nil_r.
Qed.

Section Broadcast.
Context `{JoinKernelLaws} (j : join_node) (retained : list row -> Z) (plan : list (list row) -> list row).
Hypothesis local : partitionable plan.
Hypothesis driven : left_driven (kind j) = true.
Abbreviation join := (join_rows (matches (zip (left_keys j) (right_keys j))) (out_row (output j)) (kind j)).

Lemma Forall2_map_same {A B C} (R : B -> C -> Prop) (f : A -> B) (g : A -> C) l : (forall x, x ∈ l -> R (f x) (g x)) -> Forall2 R (map f l) (map g l).
Proof. induction l as [|x l IH]; cbn; intros Hl; [done|]. constructor; [apply Hl; left|apply IH; intros y Hy; apply Hl; by right]. Qed.

Lemma stream_broadcast_exact batches right : exists out, stream_broadcast_join retained j plan batches right = Ok out /\ out ≡ₚ join (plan batches) right.
Proof.
  unfold stream_broadcast_join. set (chunks := byte_chunks _ _ _ _ _).
  destruct (res_mapM_id_perm (map (fun chunk => execute_join j (Some (plan chunk)) (Some right)) chunks) (map (fun chunk => join (plan chunk) right) chunks)) as (outs & E & Hp).
  - apply Forall2_map_same. intros chunk _. eexists. split; [done|apply hash_join_exact].
  - rewrite res_mapM_map in E. rewrite E.
    exists (concat outs). split; [done|]. rewrite Hp. assert (concat chunks = batches) as Ec by apply byte_chunks_concat.
    rewrite <- Ec, (partition_plan plan chunks local), join_rows_concat by done. by rewrite map_map.
Qed.

Lemma broadcast_probe_exact lparts right limit r : broadcast_probe_join retained j plan lparts right limit = Some r ->
  exists out, r = Ok out /\ out ≡ₚ join (plan (concat lparts)) right.
Proof.
  unfold broadcast_probe_join. case_match; [done|]. intros [= <-].
  destruct (res_mapM_id_perm (map (fun p => stream_broadcast_join retained j plan p right) lparts) (map (fun p => join (plan p) right) lparts)) as (outs & E & Hp).
  - apply Forall2_map_same. intros p _. apply stream_broadcast_exact.
  - rewrite res_mapM_map in E. rewrite E.
    exists (concat outs). split; [done|]. rewrite Hp, (partition_plan plan lparts local), join_rows_concat by done. by rewrite map_map.
Qed.
End Broadcast.

(** C15: For every join type, partitioning, hot-key salting, Bloom filter, strategy and interleaving
    of the reducers, the distributed join returns, and returns the rows of the join of its whole
    sides, when at most one reducer is over its memory budget and the filter leaves a probe row. *)
Theorem distributed_join_exact `{JoinKernelLaws} file_size budget retained j workers skew engaged limit lplan rplan lparts rparts turns :
  (0 < workers)%nat -> length (left_keys j) = length (right_keys j) -> rparts <> [] -> partitionable lplan -> partitionable rplan ->
  probed j engaged (map lplan lparts) (map rplan rparts) = true ->
  one_spills file_size budget j workers skew engaged (map lplan lparts) (map rplan rparts) PlainJoin -> fair workers turns ->
  exists out, distributed_join file_size budget retained j workers skew engaged limit lplan rplan lparts rparts turns = Some (Ok out) /\
    out ≡ₚ join_rows (matches (zip (left_keys j) (right_keys j))) (out_row (output j)) (kind j) (lplan (concat lparts)) (rplan (concat rparts)).
Proof.
  intros Hw Hlen Hr Hlp Hrp Hprobe Hone Hfair. assert (map rplan rparts <> []) as Hr' by (by destruct rparts).
  destruct (shuffle_join_exact file_size budget j workers skew engaged _ _ Hw Hlen Hr' Hprobe turns Hone Hfair) as (out & E & Hp).
  rewrite <- (partition_plan lplan lparts Hlp), <- (partition_plan rplan rparts Hrp) in Hp.
  unfold distributed_join. rewrite E. destruct (strategy j); [eauto| |eauto]. destruct (left_driven (kind j)) eqn:Ed; [|eauto].
  destruct (broadcast_probe_join _ _ _ _ _ _) as [r|] eqn:Eb; [|eauto]. destruct (broadcast_probe_exact _ _ _ Hlp Ed _ _ _ _ Eb) as (out' & -> & Hp'). eauto.
Qed.

(** ** An aggregate in the reducers *)

Section Groups.
Context {A B : Type} `{EqDecision B} (key : A -> B).

Lemma filter_all (p : A -> bool) l : (forall x, x ∈ l -> p x = true) -> List.filter p l = l.
Proof. induction l as [|x l IH]; cbn; intros Hp; [done|]. rewrite (Hp x) by left. f_equal. apply IH. intros y Hy. apply Hp. by right. Qed.
Lemma filter_nothing (p : A -> bool) l : (forall x, x ∈ l -> p x = false) -> List.filter p l = [].
Proof. induction l as [|x l IH]; cbn; intros Hp; [done|]. rewrite (Hp x) by left. apply IH. intros y Hy. apply Hp. by right. Qed.

Lemma elem_of_dedup_by x l : x ∈ dedup_by key l -> x ∈ l.
Proof. revert x. apply Forall_forall, Forall_dedup_by, Forall_forall. auto. Qed.

Lemma groups_app l1 l2 : (forall x y, x ∈ l1 -> y ∈ l2 -> key x <> key y) -> groups key (l1 ++ l2) = groups key l1 ++ groups key l2.
Proof.
  intros Hd. unfold groups. rewrite dedup_app, map_app. f_equal.
  - apply map_ext_in. intros x Hx%list_elem_of_In%elem_of_dedup_by. f_equal. rewrite List.filter_app, (filter_nothing _ l2), app_nil_r; [done|].
    intros y Hy. apply bool_decide_false. intros E. by apply (Hd x y).
  - rewrite filter_all.
    + apply map_ext_in. intros y Hy%list_elem_of_In%elem_of_dedup_by. f_equal. rewrite List.filter_app, (filter_nothing _ l1); [done|].
      intros x Hx. apply bool_decide_false. by apply Hd.
    + intros y Hy%elem_of_dedup_by. unfold fresh_for. apply negb_true_iff, not_true_iff_false. rewrite existsb_exists. intros (x & Hx%list_elem_of_In & E%bool_decide_eq_true). by apply (Hd x y).
Qed.

(** No key is in two parts. *)
Definition apart (parts : list (list A)) : Prop := forall i k p q x y, parts !! i = Some p -> parts !! k = Some q -> x ∈ p -> y ∈ q -> key x = key y -> i = k.

Lemma groups_concat parts : apart parts -> groups key (concat parts) = concat (map (groups key) parts).
Proof.
  induction parts as [|p parts IH]; intros Hap; [done|]. cbn [concat map]. rewrite groups_app, IH; [done| |].
  - intros i k p' q x y Hi Hk Hx Hy E. assert (S i = S k) by (by eapply (Hap (S i) (S k))). lia.
  - intros x y Hx Hy E. apply list_elem_of_In, in_concat in Hy as (q & Hq%list_elem_of_In & Hy%list_elem_of_In). apply list_elem_of_lookup in Hq as (k & Hk).
    by pose proof (Hap 0%nat (S k) p q x y eq_refl Hk Hx Hy E).
Qed.
End Groups.

(** An aggregate over rows of a schema, as [exec] runs it: the keys of every row, then group by
    group, raising where an expression does. *)
Definition aggregate_rows {PE : PlanEngine} (s : schema) (gks : list (string * expr)) (ags : list agg_spec) (l : list row) : res (list row) :=
  let* checked := evaluate s (map snd gks) l in
  res_mapM (fun g : list (option value) * list row => let* vs := res_mapM (fun a => agg_value a g.2) ags in Ok (agg_row gks ags vs g.1))
    (agg_groups s gks l).

Lemma res_mapM_app {A B} (f : A -> res B) l1 l2 :
  res_mapM f (l1 ++ l2) = let* ys1 := res_mapM f l1 in let* ys2 := res_mapM f l2 in Ok (ys1 ++ ys2).
Proof.
  induction l1 as [|x l1 IH]; cbn; [by destruct (res_mapM f l2)|]. rewrite IH. destruct (f x), (res_mapM f l1), (res_mapM f l2); done.
Qed.

(** The same value, or both raise. *)
Definition same_outcome {A} (x y : res A) : Prop :=
  match x, y with Ok a, Ok b => a = b | Raise _, Raise _ => True | _, _ => False end.

(** The join keys are in the output under their names. *)
Definition carries_keys (j : join_node) (s : schema) : Prop :=
  NoDup (map oalias (output j)) /\ forall k, k ∈ left_keys j -> JoinOutputCol SLeft k k ∈ output j /\ is_Some (s !! k).

Section Fused.
Context {PE : PlanEngine} `{JoinKernelLaws} (file_size : list row -> Z) (budget : Z).
Context (j : join_node) (workers : nat) (engaged : bool) (lparts rparts : list (list row)) (s : schema) (gks : list (string * expr)) (ags : list agg_spec).
Hypothesis workers_pos : (0 < workers)%nat.
Hypothesis keys_len : length (left_keys j) = length (right_keys j).
Hypothesis right_read : rparts <> [].
Hypothesis probe_left : probed j engaged lparts rparts = true.
Hypothesis fusable : fusable_join_aggregate j gks = true.
Hypothesis carried : carries_keys j s.
Abbreviation join := (join_rows (matches (zip (left_keys j) (right_keys j))) (out_row (output j)) (kind j)).
Abbreviation aggregate := (aggregate_rows s gks ags).
Abbreviation fused := (FusedAggregate aggregate).
Abbreviation L := (lplaced j workers ([], 0%nat) engaged lparts rparts fused).
Abbreviation R := (rplaced j workers ([], 0%nat) rparts fused).

Lemma fusable_kind : (kind j = JInner \/ kind j = JSemi) /\ left_keys j <> [].
Proof.
  unfold fusable_join_aggregate, hash_partitioned_on in fusable. destruct (kind j); cbn in fusable; rewrite ?andb_false_r in fusable; try done;
    (split; [auto|]); destruct (left_keys j); cbn in fusable; rewrite ?andb_false_r in fusable; done.
Qed.

Lemma fusable_column k : k ∈ left_keys j -> exists a, (a, Col k) ∈ gks.
Proof.
  intros Hk. assert (k ∈ bare_columns gks) as Hb.
  { pose proof fusable as Hf. unfold fusable_join_aggregate, satisfies, hash_partitioned_on in Hf. destruct fusable_kind as [Hjt _].
    assert (match kind j with JInner | JSemi => left_keys j | _ => [] end = left_keys j) as E by (by destruct Hjt as [-> | ->]). rewrite E in Hf.
    apply andb_true_iff in Hf as [Hf1 Hf]. apply andb_true_iff in Hf1 as [Hf1 _]. destruct (bare_columns gks) eqn:Eb; [done|]. cbn [nonempty negb orb] in Hf. apply andb_true_iff in Hf as [_ Hf].
    rewrite forallb_forall in Hf. specialize (Hf k ltac:(by apply list_elem_of_In)). by apply bool_decide_eq_true in Hf. }
  unfold bare_columns in Hb. apply list_elem_of_omap in Hb as ([a e] & Hin & He). cbn in He. destruct e; try done. injection He as ->. eauto.
Qed.

(** A joined row's group gives the left row's keys. *)
Lemma out_row_key l r k : k ∈ left_keys j -> out_row (output j) l r !! k = l !! k.
Proof.
  destruct carried as [Hn Hc]. intros Hk. destruct (Hc k Hk) as [Ho _]. unfold out_row. rewrite lookup_bind_row.
  rewrite (assoc_nodup k (l !! k)); [done|by rewrite map_map|]. apply list_elem_of_fmap. by exists (JoinOutputCol SLeft k k).
Qed.

Lemma group_key_of l r l' r' :
  keys_of s (map snd gks) (out_row (output j) l r) = keys_of s (map snd gks) (out_row (output j) l' r') -> key_of (left_keys j) l = key_of (left_keys j) l'.
Proof.
  intros E. unfold key_of. apply map_ext_in. intros k Hk%list_elem_of_In. destruct (fusable_column k Hk) as (a & Ha). destruct carried as [_ Hc]. destruct (Hc k Hk) as [_ [kd Hs]].
  assert (forall x y, keys_of s (map snd gks) x = keys_of s (map snd gks) y -> canon <$> value_at s (Col k) x = canon <$> value_at s (Col k) y) as Hcol.
  { unfold keys_of. clear - Ha. induction gks as [|g gs IH]; [by apply not_elem_of_nil in Ha|]. intros x y. cbn. intros [= E1 E2]. apply elem_of_cons in Ha as [<-|Ha]; [done|by apply IH]. }
  apply Hcol in E. unfold value_at in E. cbn in E. rewrite Hs in E. by rewrite !out_row_key in E by done.
Qed.

(** The bucket of a left row, unsalted. *)
Lemma L_bucket_key b l : l ∈ bucket b L -> b = bucket_of_salted (key_hash (key_of (left_keys j) l)) workers 0.
Proof.
  intros (bs & (rows & _ & Hl)%placed_parts_elem & Hb)%bucket_elem. unfold place in Hl. cbn in Hl. apply list_elem_of_fmap in Hl as (l' & [= <- ->] & _).
  apply list_elem_of_singleton in Hb as ->. destruct fusable_kind as [_ Hk]. by destruct (left_keys j).
Qed.

Lemma join_row_left x ls rs : x ∈ join ls rs -> exists l r, l ∈ ls /\ x = out_row (output j) l r.
Proof.
  destruct fusable_kind as [Hjt _]. rewrite join_rows_by_left. assert (keeps_right (kind j) = false) as -> by (by destruct Hjt as [-> | ->]). rewrite app_nil_r.
  intros Hx%list_elem_of_In. apply in_flat_map in Hx as (l & Hl%list_elem_of_In & Hx%list_elem_of_In). exists l. destruct Hjt as [E|E]; rewrite E in Hx; cbn in Hx.
  - apply list_elem_of_fmap in Hx as (r & -> & _). eauto.
  - destruct (nonempty _); [|by apply not_elem_of_nil in Hx]. apply list_elem_of_singleton in Hx as ->. eauto.
Qed.

Lemma buckets_apart (os : list (list row)) : Forall2 (fun o b => o ≡ₚ join (bucket b L) (bucket b R)) os (seq 0 workers) -> apart (keys_of s (map snd gks)) os.
Proof.
  intros Hos i k p q x y Hi Hk Hx Hy E. destruct (Forall2_lookup_l _ _ _ _ _ Hos Hi) as (b & Hb & Ep). destruct (Forall2_lookup_l _ _ _ _ _ Hos Hk) as (c & Hc & Eq).
  rewrite Ep in Hx. rewrite Eq in Hy. apply join_row_left in Hx as (l & r & Hl%L_bucket_key & ->). apply join_row_left in Hy as (l' & r' & Hl'%L_bucket_key & ->).
  apply group_key_of in E. rewrite E in Hl. apply lookup_seq in Hb as [-> _]. apply lookup_seq in Hc as [-> _]. lia.
Qed.

Lemma keyed_groups l : agg_groups s gks l = groups (keys_of s (map snd gks)) l.
Proof.
  unfold agg_groups. assert (exists k, k ∈ left_keys j) as (k & Hk).
  { destruct fusable_kind as [_ Hk]. destruct (left_keys j) as [|k ks]; [done|]. exists k. left. }
  destruct (fusable_column k Hk) as (a & Ha). destruct gks; [by apply not_elem_of_nil in Ha|done].
Qed.

Lemma apart_cons {A B} (key : A -> B) p parts : apart key (p :: parts) ->
  apart key parts /\ forall x y, x ∈ p -> y ∈ concat parts -> key x <> key y.
Proof.
  intros Hap. split.
  - intros i k p' q x y Hi Hk Hx Hy E. assert (S i = S k) by (by eapply (Hap (S i) (S k))). lia.
  - intros x y Hx Hy E. apply list_elem_of_In, in_concat in Hy as (q & Hq%list_elem_of_In & Hy%list_elem_of_In). apply list_elem_of_lookup in Hq as (k & Hk).
    by pose proof (Hap 0%nat (S k) p q x y eq_refl Hk Hx Hy E).
Qed.

(** The parts aggregated one by one, where no group is split. *)
Lemma aggregate_app p q : (forall x y, x ∈ p -> y ∈ q -> keys_of s (map snd gks) x <> keys_of s (map snd gks) y) ->
  same_outcome (let* a := aggregate p in let* b := aggregate q in Ok (a ++ b)) (aggregate (p ++ q)).
Proof.
  intros Hsep. unfold aggregate_rows. rewrite !keyed_groups, (groups_app _ p q Hsep). unfold evaluate. rewrite !res_mapM_app.
  destruct (res_mapM _ p), (res_mapM _ q), (res_mapM _ (groups _ p)), (res_mapM _ (groups _ q)); done.
Qed.

Lemma aggregate_nil : aggregate [] = Ok [].
Proof. unfold aggregate_rows. by rewrite keyed_groups. Qed.

Lemma aggregate_concat os : apart (keys_of s (map snd gks)) os ->
  same_outcome (@concat row <$> res_mapM aggregate os) (aggregate (concat os)).
Proof.
  induction os as [|o os IH]; intros Hap; [cbn [concat]; by rewrite aggregate_nil|].
  apply apart_cons in Hap as [Hap Hsep]. specialize (IH Hap). cbn [concat res_mapM]. pose proof (aggregate_app o (concat os) Hsep) as Ha. revert IH Ha.
  destruct (aggregate o), (aggregate (concat os)), (res_mapM aggregate os), (aggregate (o ++ concat os)); cbn; try done. by intros <-.
Qed.

(** What a reducer in memory answers. *)
Lemma run_fused left right d : nonempty left = true -> nonempty right = true -> over_budget file_size budget left right = false ->
  exists o, (run_task (join_reduce_task file_size budget j fused left right) d).2 = aggregate o /\ o ≡ₚ join (concat left) (concat right).
Proof.
  intros Hl Hr Ho. unfold join_reduce_task. rewrite Ho. pose proof aggregate_nil as Enil.
  assert (exists o, aggregate (hash_join j (concat left) (concat right)) = aggregate o /\ o ≡ₚ join (concat left) (concat right)) as Hjoin by (eexists; split; [done|apply hash_join_exact]).
  assert (some_batch left = Some (concat left)) as El by (by destruct left). assert (some_batch right = Some (concat right)) as Er by (by destruct right).
  rewrite El, Er. destruct (kind j) eqn:Ek; try exact Hjoin. destruct (concat left) eqn:E1; [exists []; by rewrite Enil|]. destruct (concat right) eqn:E2; [|exact Hjoin].
  exists []. rewrite Enil. split; [done|]. cbn. clear. induction l; cbn; done.
Qed.
End Fused.

(** C16: An aggregate fused into the join's reducers is the aggregate of the whole join's rows, in
    some order, and raises just when that raises: when every reducer stays within its memory
    budget, the Bloom filter leaves a probe row, the group keys hold the join keys and the output
    carries those under their names, no group is split over two reducers.
    [fused_over_budget_fails], [pruned_semi_join_fails] and [swapped_fused_aggregate_splits] are
    the cases outside. *)
Theorem join_aggregate_exact {PE : PlanEngine} `{JoinKernelLaws} file_size budget j workers engaged lparts rparts s gks ags turns :
  (0 < workers)%nat -> length (left_keys j) = length (right_keys j) -> rparts <> [] -> probed j engaged lparts rparts = true ->
  fusable_join_aggregate j gks = true -> carries_keys j s ->
  Forall (fun files => over_budget file_size budget files.1 files.2 = false)
    (shuffle_buckets j (FusedAggregate (aggregate_rows s gks ags)) workers ([], 0%nat) engaged lparts rparts) ->
  exists rows, rows ≡ₚ join_rows (matches (zip (left_keys j) (right_keys j))) (out_row (output j)) (kind j) (concat lparts) (concat rparts) /\
    exists out, distributed_join_aggregate file_size budget j (aggregate_rows s gks ags) workers engaged lparts rparts turns = Some out /\
      same_outcome out (aggregate_rows s gks ags rows).
Proof.
  intros Hw Hlen Hr Hprobe Hf Hc Hmem. unfold distributed_join_aggregate. rewrite shuffle_in_memory by done.
  set (r := FusedAggregate (aggregate_rows s gks ags)) in *. set (L := lplaced j workers ([], 0%nat) engaged lparts rparts r). set (R := rplaced j workers ([], 0%nat) rparts r).
  assert (exists os, map (fun t => (run_task t ∅).2) (shuffle_tasks file_size budget j r workers ([], 0%nat) engaged lparts rparts) = map (aggregate_rows s gks ags) os /\
    Forall2 (fun o b => o ≡ₚ join_rows (matches (zip (left_keys j) (right_keys j))) (out_row (output j)) (kind j) (bucket b L) (bucket b R)) os (seq 0 workers)) as (os & E & Hos).
  { unfold shuffle_tasks. rewrite map_map. pose proof (bucket_files j workers ([], 0%nat) engaged lparts rparts Hw Hlen Hr Hprobe r) as Hb. fold L R in Hb. revert Hmem.
    induction Hb as [|files b fs bs (Hl & Hr' & El & Er) _ IH]; intros Hmem; [by exists []|]. apply Forall_cons in Hmem as [Hm Hmem]. destruct (IH Hmem) as (os & E & Hos).
    destruct (run_fused file_size budget j s gks ags Hlen Hf files.1 files.2 ∅ Hl Hr' Hm) as (o & Eo & Ho). exists (o :: os). cbn [map]. rewrite E. unfold r at 1. rewrite Eo. split; [done|].
    constructor; [by rewrite Ho, El, Er|done]. }
  exists (concat os). split.
  - rewrite <- (shuffled_join j workers ([], 0%nat) engaged lparts rparts Hw Hlen r). fold L R. clear - Hos. induction Hos as [|o b os bs Ho _ IH]; cbn; [done|]. by rewrite Ho, IH.
  - rewrite E. eexists. split; [done|]. rewrite res_mapM_map. by eapply aggregate_concat, buckets_apart.
Qed.

(** ** On concrete rows *)

Definition toy_code (v : option value) : Z := match v with Some (VInt z) => z mod 2 ^ 64 | _ => 0 end.
Definition toy_bloom (b : list (list (option value))) (k : list (option value)) : bool := bool_decide (k ∈ b).

(** A hash that is the key itself, a filter that is the set of keys, the join by its definition. *)
Definition toy_kernels : JoinKernels := {|
  key_hash := foldr (fun v acc => (toy_code v + 31 * acc) mod 2 ^ 64) 0;
  render v := match v with VInt z => Some (pretty.pretty z) | _ => None end;
  bloom := list (list (option value));
  build_key_bloom ks := ks;
  merge_blooms bs := match bs with [] => None | _ => Some (concat bs) end;
  bloom_contains := toy_bloom;
  hash_join j ls rs := join_rows (matches (zip (left_keys j) (right_keys j))) (out_row (output j)) (kind j) ls rs |}.

Lemma toy_kernel_laws : @JoinKernelLaws toy_kernels.
Proof.
  constructor; cbn.
  - intros [|v k]; cbn -[Z.pow]; [lia|]. apply Z.mod_pos_bound. lia.
  - intros ks k Hk. by apply bool_decide_true.
  - intros [|b0 bs] b k; [done|]. intros [= <-] (b' & Hb & Hk). apply bool_decide_true. apply bool_decide_eq_true in Hk. change (b0 ++ concat bs) with (concat (b0 :: bs)). apply list_elem_of_In, in_concat. exists b'. by rewrite <- !list_elem_of_In.
  - done.
Qed.

Definition lrow (k v : Z) : row := {["k" := VInt k; "v" := VInt v]}.
Definition rrow (k w : Z) : row := {["k" := VInt k; "w" := VInt w]}.
Definition toy_join (jt : join_type) : join_node :=
  JoinNode ["k"] ["k"] jt [JoinOutputCol SLeft "k" "k"; JoinOutputCol SLeft "v" "v"; JoinOutputCol SRight "w" "w"] Hash.
Definition lines (rows : list row) : Z := Z.of_nat (length rows).

(** Two mappers, a hot key over two salted buckets, a filter, and one reducer out of core. *)
Definition toy_left : list (list (list row)) := [[[lrow 1 10; lrow 1 11; lrow 2 12]]; [[lrow 1 13; lrow 5 14]]].
Definition toy_right : list (list (list row)) := [[[rrow 1 20; rrow 2 21]]].
Definition toy_turns : list nat := repeat 0%nat 4096 ++ repeat 1%nat 4096.

Lemma concat_partitionable : partitionable (@concat row).
Proof. split; [done|]. intros a b. by rewrite concat_app. Qed.

Lemma distributed_join_exact_witness : exists out,
  @distributed_join toy_kernels lines 4 lines (toy_join JInner) 2 (["1"], 2%nat) true 0 (@concat row) (@concat row) toy_left toy_right toy_turns = Some (Ok out) /\
  out ≡ₚ map (fun '(k, v, w) => ({["k" := VInt k; "v" := VInt v; "w" := VInt w]} : row)) [(1, 10, 20); (1, 11, 20); (2, 12, 21); (1, 13, 20)].
Proof.
  refine (@distributed_join_exact toy_kernels toy_kernel_laws lines 4 lines (toy_join JInner) 2 (["1"], 2%nat) true 0 (@concat row) (@concat row) toy_left toy_right toy_turns _ _ _ _ _ _ _ _).
  - lia.
  - reflexivity.
  - discriminate.
  - apply concat_partitionable.
  - apply concat_partitionable.
  - vm_compute. reflexivity.
  - unfold one_spills. vm_compute. constructor.
  - intros i Hi. apply Nat.leb_le. destruct i as [|[|i]]; [vm_compute; reflexivity|vm_compute; reflexivity|lia].
Defined.

(** Two reducers out of core name their sub-buckets alike: the second one's files replace the
    first one's, which then joins the other's rows. *)
Lemma shared_sub_buckets_mixed :
  let parts := [[lrow 0 10; lrow 3 11]] in let rparts := [[rrow 0 20; rrow 3 21]] in
  @shuffle_join toy_kernels lines 1 (toy_join JInner) PlainJoin 2 ([], 0%nat) false parts rparts [0; 0; 1; 1; 0; 0; 1; 1]%nat =
    Some (Ok [{["k" := VInt 3; "v" := VInt 11; "w" := VInt 21]}; {["k" := VInt 3; "v" := VInt 11; "w" := VInt 21]}]) /\
  join_rows (matches [("k", "k")]) (out_row (output (toy_join JInner))) JInner (concat parts) (concat rparts) =
    [{["k" := VInt 0; "v" := VInt 10; "w" := VInt 20]}; {["k" := VInt 3; "v" := VInt 11; "w" := VInt 21]}].
Proof. split; vm_compute; reflexivity. Qed.

(** A semi join whose probe rows the filter drops altogether fails, where the join is empty. *)
Lemma pruned_semi_join_fails :
  @shuffle_join toy_kernels lines 0 (toy_join JSemi) PlainJoin 1 ([], 0%nat) true [[lrow 7 10]] [[rrow 1 20]] [] = Some (Raise "EmptyJoinInput") /\
  join_rows (matches [("k", "k")]) (out_row (output (toy_join JSemi))) JSemi [lrow 7 10] [rrow 1 20] = [].
Proof. split; vm_compute; reflexivity. Qed.

(** An aggregate whose reducer is over its budget fails. *)
Lemma fused_over_budget_fails aggregate turns :
  @distributed_join_aggregate toy_kernels lines 1 (toy_join JInner) aggregate 1 false [[lrow 1 10]] [[rrow 1 20]] turns = Some (Raise "KeyError").
Proof.
  unfold distributed_join_aggregate, shuffle_join, gather. assert (@shuffle_tasks toy_kernels lines 1 (toy_join JInner) (FusedAggregate aggregate) 1 ([], 0%nat) false [[lrow 1 10]] [[rrow 1 20]] = [Done (Raise "KeyError")]) as -> by (vm_compute; reflexivity).
  assert (forall s, (schedule s [Done (Raise "KeyError") : task dir (res (list row))] turns).2 = [Done (Raise "KeyError")]) as ->; [|done].
  induction turns as [|[|i] turns IH]; intros s; cbn; [done|by apply IH|by apply IH].
Qed.

(** A swapped join names its keys after the other side: grouping by a column of that name, which
    is not the key, is fused and splits a group over two buckets. *)
Definition ab_join : join_node := JoinNode ["a"] ["b"] JInner [JoinOutputCol SLeft "a" "a"; JoinOutputCol SLeft "b" "b"] Hash.
Definition ab_left : list row := [{["a" := VInt 0; "b" := VInt 7]}; {["a" := VInt 1; "b" := VInt 7]}].
Definition ab_right : list row := [{["b" := VInt 0]}; {["b" := VInt 1]}].
Lemma swapped_fused_aggregate_splits :
  let s : schema := {["a" := KInt; "b" := KInt]} in
  let agg := @aggregate_rows (toy_plans (fun _ => [])) s [("b", Col "b")] [] in
  fusable_join_aggregate ab_join [("b", Col "b")] = false /\ fusable_join_aggregate (swap ab_join) [("b", Col "b")] = true /\
  agg (join_rows (matches [("a", "b")]) (out_row (output ab_join)) JInner ab_left ab_right) = Ok [{["b" := VInt 7]}] /\
  @distributed_join_aggregate toy_kernels lines 0 (swap ab_join) agg 2 false [ab_right] [ab_left] [] = Some (Ok [{["b" := VInt 7]}; {["b" := VInt 7]}]).
Proof. repeat split; vm_compute; reflexivity. Qed.

Lemma join_aggregate_exact_witness :
  let s : schema := {["k" := KInt; "v" := KInt; "w" := KInt]} in
  exists rows, rows ≡ₚ map (fun '(k, v, w) => ({["k" := VInt k; "v" := VInt v; "w" := VInt w]} : row)) [(1, 10, 20); (1, 11, 20); (2, 12, 21)] /\
    @distributed_join_aggregate toy_kernels lines 0 (toy_join JInner) (@aggregate_rows (toy_plans (fun _ => [])) s [("k", Col "k")] []) 2 true
      [[lrow 1 10; lrow 1 11]; [lrow 2 12]] [[rrow 1 20; rrow 2 21]] [] = Some (Ok [{["k" := VInt 2]}; {["k" := VInt 1]}]) /\
    same_outcome (Ok [{["k" := VInt 2]}; {["k" := VInt 1]}]) (@aggregate_rows (toy_plans (fun _ => [])) s [("k", Col "k")] [] rows).
Proof.
  intros s. destruct (@join_aggregate_exact (toy_plans (fun _ => [])) toy_kernels toy_kernel_laws lines 0 (toy_join JInner) 2 true [[lrow 1 10; lrow 1 11]; [lrow 2 12]] [[rrow 1 20; rrow 2 21]] s [("k", Col "k")] [] []) as (rows & Hrows & out & Eout & Hout).
  - lia.
  - reflexivity.
  - discriminate.
  - vm_compute. reflexivity.
  - vm_compute. reflexivity.
  - split; [vm_compute; repeat constructor; set_solver|]. intros k [->|Hk]%elem_of_cons; [split; [by left|by eexists]|by apply not_elem_of_nil in Hk].
  - vm_compute. repeat constructor.
  - exists rows. vm_compute in Eout. injection Eout as <-. split_and!; [exact Hrows|vm_compute; reflexivity|exact Hout].
Defined.
