(* ===== verification/HeavyHitters.v ===== *)
(** * Heavy hitters and the sampling pre-pass of a join

    crates/bc-sketches/src/frequent.rs: the Misra-Gries summary [FrequentItems], over counters
    in one iteration order of its hash map; crates/bc-py/src/sketches.rs:
    [heavy_hitters_native] on one text column.  dist/skew.py: [sample_heavy_hitters], the
    bounded sample of one split; dist/executors/join.py: [_detect_hot_keys], the hot values of a
    side.  Counts are below 2^64; shares are doubles; the engine's run of a sub-plan over a chunk
    is a parameter. *)

From Stdlib Require Import Floats.SpecFloat.
From S2P Require Import Prelude PyFloat PyDict.

(** ** The summary *)

Section Frequent.
Context {K : Type} `{!EqDecision K}.

(** [FrequentItems]. *)
Record frequent := Frequent { capacity : nat; counters : list (K * Z); weight : Z }.
Definition new_frequent (cap : nat) : frequent := Frequent cap [] 0.

(** Subtract from every counter, saturating, and drop the zeros. *)
Definition pay (t : Z) (cs : list (K * Z)) : list (K * Z) :=
  List.filter (fun e => 0 <? e.2) (map (fun e => (e.1, Z.max 0 (e.2 - t))) cs).

(** [reduce_to_capacity]: the (capacity + 1)-th largest count pays for the others. *)
Definition descending (cs : list (K * Z)) : list Z := merge_sort Z.ge (map snd cs).
Definition reduce_to_capacity (cap : nat) (cs : list (K * Z)) : list (K * Z) :=
  if (length cs <=? cap)%nat then cs else pay (nth cap (descending cs) 0) cs.

(** [add_ref], [add_n] and [add]. *)
Definition add_ref (k : K) (f : frequent) : frequent :=
  match dget k f.(counters) with
  | Some c => Frequent f.(capacity) (dset k (c + 1) f.(counters)) (f.(weight) + 1)
  | None =>
      if (length f.(counters) <? f.(capacity))%nat then Frequent f.(capacity) (dset k 1 f.(counters)) (f.(weight) + 1)
      else Frequent f.(capacity) (pay 1 f.(counters)) (f.(weight) + 1)
  end.
Definition add_n (k : K) (n : Z) (f : frequent) : frequent :=
  if n =? 0 then f
  else match dget k f.(counters) with
       | Some c => Frequent f.(capacity) (dset k (c + n) f.(counters)) (f.(weight) + n)
       | None =>
           if (length f.(counters) <? f.(capacity))%nat then Frequent f.(capacity) (dset k n f.(counters)) (f.(weight) + n)
           else Frequent f.(capacity) (reduce_to_capacity f.(capacity) (dset k n f.(counters))) (f.(weight) + n)
       end.
Definition add (k : K) (f : frequent) : frequent := add_n k 1 f.

(** [merge], which panics when the capacities differ. *)
Definition add_counter (cs : list (K * Z)) (e : K * Z) : list (K * Z) := dset e.1 (default 0 (dget e.1 cs) + e.2) cs.
Definition merge (f g : frequent) : res frequent :=
  if (f.(capacity) =? g.(capacity))%nat then
    Ok (Frequent f.(capacity) (reduce_to_capacity f.(capacity) (foldl add_counter f.(counters) g.(counters))) (f.(weight) + g.(weight)))
  else Raise "capacity mismatch".

(** [estimate], [count_error] and [heavy_hitters]. *)
Definition estimate (k : K) (f : frequent) : Z := default 0 (dget k f.(counters)).
Definition count_error (f : frequent) : flt := flt_div (flt_of_Z f.(weight)) (flt_add (flt_of_Z (Z.of_nat f.(capacity))) (flt_of_Z 1)).
Definition heavy_hitters (fraction : flt) (f : frequent) : list (K * Z) :=
  let threshold := flt_mul fraction (flt_of_Z f.(weight)) in
  py_sorted (fun a b => b.2 <? a.2) (List.filter (fun e => flt_lt threshold (flt_add (flt_of_Z e.2) (count_error f))) f.(counters)).
End Frequent.
Arguments frequent : clear implicits.

(** ** One split's sample *)

(** [heavy_hitters_native] on a text column: [max(1, ceil(1 / fraction))] counters, nulls
    skipped.  The fraction is positive: the configuration keeps it away from zero. *)
Definition hitter_capacity (fraction : flt) : nat := match flt_ceil (flt_div (flt_of_Z 1) fraction) with Some c => Z.to_nat (Z.max 1 c) | None => 1%nat end.
Definition summarize (fraction : flt) (values : list (option string)) : frequent string :=
  foldl (fun f v => match v with Some k => add_ref k f | None => f end) (new_frequent (hitter_capacity fraction)) values.
Definition heavy_hitters_native (fraction : flt) (values : list (option string)) : list (string * Z) := heavy_hitters fraction (summarize fraction values).

(** [counts[v] = counts.get(v, 0) + c]. *)
Definition add_counts (counts : list (string * Z)) (pairs : list (string * Z)) : list (string * Z) := foldl add_counter counts pairs.

Definition SAMPLE_ROWS : Z := 2000000.
Definition SAMPLE_CHUNK_ROWS : Z := 250000.

Section Sample.
Context {Batch : Type} (num_rows : Batch -> Z).
(** The key column of the side's sub-plan over a chunk. *)
Context (execute : list Batch -> res (list (option string))) (fraction : flt).

(** The local variables, with the chunks run so far. *)
Record sampling := Sampling { counts : list (string * Z); seen : Z; chunk : list Batch; chunk_rows : Z; ran : list (list Batch) }.

Definition flush (s : sampling) : res sampling :=
  match s.(chunk) with
  | [] => Ok (Sampling s.(counts) s.(seen) [] 0 s.(ran))
  | _ =>
      let* rows := execute s.(chunk) in
      let ran := s.(ran) ++ [s.(chunk)] in
      match rows with
      | [] => Ok (Sampling s.(counts) s.(seen) [] 0 ran)
      | _ => Ok (Sampling (add_counts s.(counts) (heavy_hitters_native fraction rows)) (s.(seen) + Z.of_nat (length rows)) [] 0 ran)
      end
  end.

(** The loop over the split, which it may leave early, and the last flush. *)
Fixpoint sample_loop (batches : list Batch) (s : sampling) : res sampling :=
  match batches with
  | [] => Ok s
  | b :: batches' =>
      let s := Sampling s.(counts) s.(seen) (s.(chunk) ++ [b]) (s.(chunk_rows) + num_rows b) s.(ran) in
      if SAMPLE_CHUNK_ROWS <=? s.(chunk_rows) then
        let* s := flush s in
        if SAMPLE_ROWS <=? s.(seen) then Ok s else sample_loop batches' s
      else sample_loop batches' s
  end.
Definition sample (batches : list Batch) : res sampling := let* s := sample_loop batches (Sampling [] 0 [] 0 []) in flush s.
Definition sample_heavy_hitters (batches : list Batch) : res (list (string * Z) * Z) := let* s := sample batches in Ok (s.(counts), s.(seen)).
End Sample.

(** ** A side *)

(** The tail of [_detect_hot_keys] over what the splits report; dividing by a total is in
    doubles. *)
Definition detect_hot_keys (fraction : flt) (reports : list (list (string * Z) * Z)) : list string * flt :=
  let counts := foldl (fun counts r => add_counts counts r.1) [] reports in
  let total := foldr (fun r acc => r.2 + acc) 0 reports in
  if total =? 0 then ([], flt_zero)
  else
    let threshold := flt_mul fraction (flt_of_Z total) in
    let hot := List.filter (fun e => flt_le threshold (flt_of_Z e.2)) counts in
    (map fst hot, match map (fun e => flt_div (flt_of_Z e.2) (flt_of_Z total)) hot with [] => flt_zero | x :: xs => foldl flt_max x xs end).
