(* ===== verification/HeavyHittersSound.v ===== *)
(** * Heavy hitters: theorems

    A summary's counters bound the frequencies from below, and from above within its error,
    after any updates and merges; the unweighted update is the weighted one by one; a sample
    counts no value more often than it occurs in the rows it ran, and stops in time. *)

From Stdlib Require Import Floats.SpecFloat.
From S2P Require Import Prelude PyFloat PyDict HeavyHitters.

(** ** Sums of integers *)

Definition sumZ (l : list Z) : Z := foldr Z.add 0 l.

Lemma sumZ_app l l' : sumZ (l ++ l') = sumZ l + sumZ l'.
Proof. unfold sumZ. induction l as [|x l IH]; cbn; [done|]. lia. Qed.

#[global] Instance sumZ_perm : Proper (Permutation ==> eq) sumZ.
Proof. intros l l' H. unfold sumZ. induction H; cbn; lia. Qed.

Lemma List_filter_perm {A} (p : A -> bool) l l' : l ≡ₚ l' -> List.filter p l ≡ₚ List.filter p l'.
Proof. induction 1 as [|x l l' _ IH|x y l|l1 l2 l3 _ IH1 _ IH2]; cbn; [done|destruct (p x); [by constructor|done]|destruct (p x), (p y); try done; constructor|by etrans]. Qed.

Lemma sumZ_map {A} (f g : A -> Z) l : (forall x, x ∈ l -> f x <= g x) -> sumZ (map f l) <= sumZ (map g l).
Proof. induction l as [|x l IH]; intros H; cbn; [lia|]. assert (f x <= g x) by (apply H; left). assert (sumZ (map f l) <= sumZ (map g l)) by (apply IH; intros; apply H; by right). unfold sumZ in *. lia. Qed.

(** What the counters above the [c]-th largest lose to it. *)
Lemma pay_sum l c : StronglySorted Z.ge l -> Forall (fun x => 0 <= x) l -> (c < length l)%nat ->
  (Z.of_nat c + 1) * nth c l 0 + sumZ (map (fun x => Z.max 0 (x - nth c l 0)) l) <= sumZ l /\
  (length (List.filter (fun x => Z.ltb 0 (Z.max 0 (x - nth c l 0%Z))) l) <= c)%nat /\ 0 <= nth c l 0.
Proof.
  intros Hs. generalize dependent c. induction Hs as [|x l Hs IH Hx]; intros c Hp Hc; [cbn in Hc; lia|]. apply Forall_cons in Hp as [Hp0 Hp]. destruct c as [|c].
  - cbn [nth]. assert (forall y, y ∈ l -> Z.max 0 (y - x) = 0) as H0 by (intros y Hy; rewrite Forall_forall in Hx; specialize (Hx y Hy); lia).
    assert (map (fun y => Z.max 0 (y - x)) l = map (fun _ => 0) l) as E by (apply map_ext_in; intros y Hy; apply H0; by apply list_elem_of_In).
    assert (List.filter (fun y => 0 <? Z.max 0 (y - x)) l = []) as E'.
    { clear -H0. induction l as [|y l IH]; cbn; [done|]. rewrite (H0 y) by left. cbn. apply IH. intros; apply H0; by right. }
    cbn [map List.filter]. rewrite E, E'. replace (Z.max 0 (x - x)) with 0 by lia. cbn. assert (sumZ (map (fun _ => 0) l) <= sumZ (map id l)) by (apply sumZ_map; intros y Hy; rewrite Forall_forall in Hp; apply Hp, Hy).
    rewrite map_id in H. assert (sumZ (map (fun _ : Z => 0) l) = 0) as E2 by (clear; induction l as [|y l IH]; cbn; [done|]; unfold sumZ in *; lia). unfold sumZ in *. cbn. lia.
  - cbn [nth length] in *. destruct (IH c Hp) as (H1 & H2 & H3); [lia|]. assert (nth c l 0 <= x).
    { rewrite Forall_forall in Hx. assert (nth c l 0 ∈ l) as Hin by (apply list_elem_of_In, nth_In; lia). specialize (Hx _ Hin). lia. }
    cbn [map List.filter]. split_and!; [|case_match; cbn; lia|done]. unfold sumZ in *. cbn [foldr]. rewrite Z.max_r by lia. lia.
Qed.

Section Frequent.
Context {K : Type} `{!EqDecision K}.
Implicit Types (f : frequent K) (cs : list (K * Z)).

Lemma total_sumZ cs : total id cs = sumZ (map snd cs).
Proof. unfold sumZ. induction cs as [|e cs IH]; cbn; [done|]. by rewrite IH. Qed.

Lemma pay_keys t cs : dict_ok cs -> dict_ok (pay t cs).
Proof.
  unfold dict_ok, pay. induction cs as [|[k c] cs IH]; cbn; [done|]. intros [Hk Hd]%NoDup_cons. case_match; cbn; [|by apply IH]. apply NoDup_cons. split; [|by apply IH].
  intros (e & -> & He)%list_elem_of_fmap. apply Hk. apply list_elem_of_In, filter_In in He as [He _]. apply in_map_iff in He as (e' & <- & He'). apply list_elem_of_fmap. exists e'. split; [done|by apply list_elem_of_In].
Qed.

Lemma pay_get t cs k : dict_ok cs -> Forall (fun e => 0 < e.2) cs -> 0 <= t -> default 0 (dget k (pay t cs)) = Z.max 0 (default 0 (dget k cs) - t).
Proof.
  intros Hd Hp Ht. unfold dict_ok in Hd. induction cs as [|[q c] cs IH]; cbn; [lia|]. apply NoDup_cons in Hd as [Hq Hd]. apply Forall_cons in Hp as [Hc Hp]. cbn in Hc.
  assert (dget q cs = None) as Hn by (by apply dget_None). specialize (IH Hd Hp). unfold pay in *. cbn. case_decide as E.
  - subst k. cbn. destruct (0 <? Z.max 0 (c - t)) eqn:El; cbn; [by rewrite decide_True|]. rewrite IH, Hn. cbn. lia.
  - destruct (0 <? Z.max 0 (c - t)); cbn; [by rewrite decide_False|done].
Qed.

Lemma pay_map t cs : map snd (pay t cs) = List.filter (fun x => 0 <? x) (map (fun x => Z.max 0 (x - t)) (map snd cs)).
Proof. unfold pay. induction cs as [|[k c] cs IH]; cbn; [done|]. case_match; cbn; by rewrite IH. Qed.

Lemma sumZ_filter l : Forall (fun x => 0 <= x) l -> sumZ (List.filter (fun x => 0 <? x) l) = sumZ l.
Proof. induction 1 as [|x l Hx _ IH]; cbn; [done|]. destruct (0 <? x) eqn:E; unfold sumZ in *; cbn; lia. Qed.

Lemma pay_positive t cs : Forall (fun e => 0 < e.2) (pay t cs).
Proof. apply Forall_forall. intros e He. apply list_elem_of_In, filter_In in He as [_ He]. lia. Qed.

Lemma pay_total t cs : total id (pay t cs) = sumZ (map (fun x => Z.max 0 (x - t)) (map snd cs)).
Proof. rewrite total_sumZ, pay_map. apply sumZ_filter, Forall_forall. intros x (y & -> & _)%list_elem_of_fmap. lia. Qed.

(** ** The invariant *)

(** A summary of a stream: its counters are at most the frequencies, and what they fall short
    of, [capacity + 1] times, left the total weight. *)
Record sound (f : frequent K) (freq : K -> Z) : Prop := {
  so_ok : dict_ok f.(counters);
  so_pos : Forall (fun e => 0 < e.2) f.(counters);
  so_len : (length f.(counters) <= f.(capacity))%nat;
  so_low k : estimate k f <= freq k;
  so_high : exists err, 0 <= err /\ (Z.of_nat f.(capacity) + 1) * err + total id f.(counters) <= f.(weight) /\ forall k, freq k <= estimate k f + err }.

(** Too many counters, paid for. *)
Lemma reduce_sound cap cs w freq err : dict_ok cs -> Forall (fun e => 0 < e.2) cs -> (forall k, default 0 (dget k cs) <= freq k) ->
  0 <= err -> (Z.of_nat cap + 1) * err + total id cs <= w -> (forall k, freq k <= default 0 (dget k cs) + err) ->
  sound (Frequent cap (reduce_to_capacity cap cs) w) freq.
Proof.
  intros Hd Hp Hlow He Hw Hhigh. unfold reduce_to_capacity. destruct (length cs <=? cap)%nat eqn:El.
  - apply Nat.leb_le in El. split; try done. by exists err.
  - apply Nat.leb_gt in El. assert (descending cs ≡ₚ map snd cs) as Hperm by apply merge_sort_Permutation.
    assert (StronglySorted Z.ge (descending cs)) as Hs by (apply StronglySorted_merge_sort; [intros x y z; lia|intros x y; lia]).
    assert (Forall (fun x => 0 <= x) (descending cs)) as Hnn by (rewrite Hperm; apply Forall_fmap; eapply Forall_impl; [exact Hp|]; cbn; lia).
    destruct (pay_sum (descending cs) cap Hs Hnn) as (H1 & H2 & H3); [by rewrite Hperm, length_map|]. set (t := nth cap (descending cs) 0) in *.
    assert (sumZ (map (fun x => Z.max 0 (x - t)) (descending cs)) = total id (pay t cs)) as E1 by (rewrite pay_total; apply sumZ_perm; by rewrite Hperm).
    assert (sumZ (descending cs) = total id cs) as E2 by (rewrite total_sumZ; by apply sumZ_perm).
    split; cbn; [by apply pay_keys|apply pay_positive| | |].
    + rewrite <- (length_map snd), pay_map. transitivity (length (List.filter (fun x => 0 <? Z.max 0 (x - t)) (map snd cs))).
      { clear. induction (map snd cs) as [|x l IH]; cbn; [done|]. case_match; cbn; lia. }
      etrans; [|exact H2]. apply Nat.eq_le_incl, Permutation_length, List_filter_perm. by symmetry.
    + intros k. unfold estimate. cbn. rewrite pay_get by done. specialize (Hlow k). assert (0 <= default 0 (dget k cs)); [|lia].
      destruct (dget k cs) as [c|] eqn:E; [|done]. apply dget_elem in E. rewrite Forall_forall in Hp. specialize (Hp _ E). cbn in *. lia.
    + exists (err + t). split_and!; [lia|rewrite <- E1; nia|]. intros k. unfold estimate. cbn. rewrite pay_get by done. specialize (Hhigh k). lia.
Qed.

Lemma get_nonneg cs k : Forall (fun e => 0 < e.2) cs -> 0 <= default 0 (dget k cs).
Proof. intros Hp. destruct (dget k cs) as [c|] eqn:E; [|done]. apply dget_elem in E. rewrite Forall_forall in Hp. specialize (Hp _ E). cbn in *. lia. Qed.

Lemma new_sound cap : sound (new_frequent cap) (fun _ => 0).
Proof. split; cbn; try done; [constructor|lia|]. exists 0. cbn. split_and!; [lia|lia|done]. Qed.

Lemma add_n_sound k n f freq : sound f freq -> 0 <= n -> sound (add_n k n f) (fun q => freq q + if decide (q = k) then n else 0).
Proof.
  intros [Hd Hp Hl Hlow (err & He & Hw & Hhigh)] Hn. unfold add_n. destruct (n =? 0) eqn:En.
  { split; try done; [intros q; specialize (Hlow q); case_decide; lia|]. exists err. split_and!; [done|done|]. intros q. specialize (Hhigh q). case_decide; lia. }
  assert (Forall (fun e => 0 < e.2) (dset k n (counters f))) as Hp' by (apply Forall_dset; [done|cbn; lia]).
  assert (forall q, default 0 (dget q (dset k n (counters f))) = if decide (q = k) then n else estimate q f) as Hq by (intros q; rewrite dget_dset; by case_decide).
  destruct (dget k (counters f)) as [c|] eqn:Ek.
  - assert (0 < c) by (apply dget_elem in Ek; rewrite Forall_forall in Hp; by specialize (Hp _ Ek)).
    assert (length (dset k (c + n) (counters f)) = length (counters f)) as Hlen by (clear -Ek; revert Ek; induction (counters f) as [|[q d] cs IH]; cbn; [done|]; case_decide; cbn; [done|intros; by rewrite IH]).
    split; cbn; [by apply dset_ok|apply Forall_dset; [done|cbn; lia]|by rewrite Hlen| |].
    + intros q. specialize (Hlow q). unfold estimate in *. cbn. rewrite dget_dset. case_decide as Eq; [|lia]. subst q. rewrite Ek in Hlow. cbn in *. lia.
    + exists err. rewrite total_dset, Ek. cbn. split_and!; [done|lia|]. intros q. specialize (Hhigh q). unfold estimate in *. cbn. rewrite dget_dset. case_decide as Eq; [|lia]. subst q. rewrite Ek in Hhigh. cbn in *. lia.
  - assert (estimate k f = 0) as E0 by (unfold estimate; by rewrite Ek).
    assert (forall q, default 0 (dget q (dset k n (counters f))) <= freq q + (if decide (q = k) then n else 0)) as H1 by (intros q; rewrite Hq; specialize (Hlow q); case_decide; subst; lia).
    assert (forall q, freq q + (if decide (q = k) then n else 0) <= default 0 (dget q (dset k n (counters f))) + err) as H2 by (intros q; rewrite Hq; specialize (Hhigh q); case_decide; subst; lia).
    assert ((Z.of_nat (capacity f) + 1) * err + total id (dset k n (counters f)) <= weight f + n) as H3 by (rewrite total_dset, Ek; unfold id in *; lia).
    destruct (length (counters f) <? capacity f)%nat eqn:El; [|apply (reduce_sound _ _ _ _ err); try done; by apply dset_ok].
    apply Nat.ltb_lt in El. split; cbn; [by apply dset_ok|done|rewrite dset_fresh by done; rewrite length_app; cbn; lia|done|]. by exists err.
Qed.

(** The unweighted update is the weighted one by one. *)
Lemma sorted_least l : StronglySorted Z.ge l -> forall x, x ∈ l -> nth (length l - 1) l 0 <= x.
Proof.
  induction 1 as [|y l Hs IH Hy]; intros x Hx; [by apply not_elem_of_nil in Hx|]. rewrite Forall_forall in Hy. destruct l as [|z l]; [apply list_elem_of_singleton in Hx; cbn; lia|].
  cbn [length]. replace (S (S (length l)) - 1)%nat with (S (length l)) by lia. change (nth (S (length l)) (y :: z :: l) 0) with (nth (length l) (z :: l) 0). cbn [length] in IH. replace (S (length l) - 1)%nat with (length l) in IH by lia.
  apply elem_of_cons in Hx as [->|Hx]; [|by apply IH]. assert (nth (length l) (z :: l) 0 ∈ z :: l) as Hin by (apply list_elem_of_In, nth_In; cbn; lia). specialize (Hy _ Hin). lia.
Qed.

Lemma add_ref_add k f freq : sound f freq -> add_ref k f = add k f.
Proof.
  intros [Hd Hp Hl _ _]. unfold add_ref, add, add_n. cbn [Z.eqb]. destruct (dget k (counters f)) as [c|] eqn:Ek; [done|]. destruct (length (counters f) <? capacity f)%nat eqn:El; [done|]. apply Nat.ltb_ge in El.
  f_equal. rewrite dset_fresh by done. unfold reduce_to_capacity. rewrite length_app. cbn [length]. rewrite (proj2 (Nat.leb_gt _ _)) by lia.
  set (cs := counters f ++ [(k, 1)]). assert (descending cs ≡ₚ map snd cs) as Hperm by apply merge_sort_Permutation.
  assert (StronglySorted Z.ge (descending cs)) as Hs by (apply StronglySorted_merge_sort; [intros x y z; lia|intros x y; lia]).
  assert (length (descending cs) = S (capacity f)) as Hlen by (rewrite Hperm, length_map; unfold cs; rewrite length_app; cbn; lia).
  assert (nth (capacity f) (descending cs) 0 = 1) as ->.
  { apply Z.le_antisymm.
    - replace (capacity f) with (length (descending cs) - 1)%nat by lia. apply sorted_least; [done|]. rewrite Hperm. unfold cs. rewrite map_app, elem_of_app. right. by left.
    - assert (nth (capacity f) (descending cs) 0 ∈ map snd cs) as Hin by (rewrite <- Hperm; apply list_elem_of_In, nth_In; lia). apply list_elem_of_fmap in Hin as (e & -> & He).
      unfold cs in He. apply elem_of_app in He as [He|He]; [rewrite Forall_forall in Hp; specialize (Hp _ He); lia|apply list_elem_of_singleton in He as ->; cbn; lia]. }
  unfold pay, cs. rewrite map_app, List.filter_app. cbn. by rewrite app_nil_r.
Qed.

Lemma add_counter_get cs e k : default 0 (dget k (add_counter cs e)) = default 0 (dget k cs) + if decide (k = e.1) then e.2 else 0.
Proof. unfold add_counter. rewrite dget_dset. case_decide; subst; cbn; lia. Qed.

Lemma add_counters_spec ds : forall cs, dict_ok cs -> Forall (fun e => 0 < e.2) cs -> dict_ok ds -> Forall (fun e => 0 < e.2) ds ->
  dict_ok (foldl add_counter cs ds) /\ Forall (fun e => 0 < e.2) (foldl add_counter cs ds) /\ total id (foldl add_counter cs ds) = total id cs + total id ds /\
  forall k, default 0 (dget k (foldl add_counter cs ds)) = default 0 (dget k cs) + default 0 (dget k ds).
Proof.
  induction ds as [|[q c] ds IH]; intros cs Hd Hp Hds Hps; cbn -[add_counter]; [split_and!; try done; [lia|intros k; lia]|]. unfold dict_ok in Hds. cbn in Hds. apply NoDup_cons in Hds as [Hq Hds]. apply Forall_cons in Hps as [Hc Hps]. cbn in Hc.
  destruct (IH (add_counter cs (q, c))) as (H1 & H2 & H3 & H4); [by apply dset_ok| |done|done|].
  { apply Forall_dset; [done|]. cbn. pose proof (get_nonneg cs q Hp). lia. }
  split_and!; [done|done| |].
  - rewrite H3. unfold add_counter. cbn. rewrite total_dset. destruct (dget q cs); unfold id; cbn; lia.
  - intros k. rewrite H4, add_counter_get. cbn. assert (dget q ds = None) as Hn by (by apply dget_None). destruct (decide (k = q)) as [->|]; [rewrite Hn; cbn|]; lia.
Qed.

Lemma merge_sound f g freq freq' : sound f freq -> sound g freq' -> capacity f = capacity g ->
  exists h, merge f g = Ok h /\ sound h (fun k => freq k + freq' k) /\ capacity h = capacity f /\ weight h = weight f + weight g.
Proof.
  intros [Hd Hp Hl Hlow (e & He & Hw & Hhigh)] [Hd' Hp' Hl' Hlow' (e' & He' & Hw' & Hhigh')] Hc. unfold merge. rewrite Hc, Nat.eqb_refl. eexists. split; [done|]. cbn. split; [|done].
  destruct (add_counters_spec (counters g) (counters f)) as (H1 & H2 & H3 & H4); try done. rewrite Hc in Hw.
  apply (reduce_sound _ _ _ _ (e + e')); try done; [intros k; rewrite H4; specialize (Hlow k); specialize (Hlow' k); unfold estimate in *; lia|lia|rewrite H3; nia|].
  intros k. rewrite H4. specialize (Hhigh k). specialize (Hhigh' k). unfold estimate in *. lia.
Qed.

(** ** Any updates and merges *)

Inductive updates := Nothing | AddRef (s : updates) (k : K) | AddN (s : updates) (k : K) (n : N) | Merge (s s' : updates).
Fixpoint build (cap : nat) (s : updates) : res (frequent K) :=
  match s with
  | Nothing => Ok (new_frequent cap)
  | AddRef s k => let* f := build cap s in Ok (add_ref k f)
  | AddN s k n => let* f := build cap s in Ok (add_n k (Z.of_N n) f)
  | Merge s s' => let* f := build cap s in let* g := build cap s' in merge f g
  end.
Fixpoint frequency (s : updates) (k : K) : Z :=
  match s with
  | Nothing => 0
  | AddRef s q => frequency s k + if decide (k = q) then 1 else 0
  | AddN s q n => frequency s k + if decide (k = q) then Z.of_N n else 0
  | Merge s s' => frequency s k + frequency s' k
  end.
Fixpoint added (s : updates) : Z :=
  match s with Nothing => 0 | AddRef s _ => added s + 1 | AddN s _ n => added s + Z.of_N n | Merge s s' => added s + added s' end.

Lemma build_sound cap s : exists f, build cap s = Ok f /\ sound f (frequency s) /\ capacity f = cap /\ weight f = added s.
Proof.
  assert (forall k n f, capacity (add_n k n f) = capacity f /\ weight (add_n k n f) = weight f + n) as Hn by (intros k n f; unfold add_n; repeat case_match; cbn; (split; [done|lia])).
  induction s as [|s (f & E & Hf & Hc & Hw) k|s (f & E & Hf & Hc & Hw) k n|s (f & E & Hf & Hc & Hw) s' (g & E' & Hg & Hc' & Hw')]; cbn [build frequency added].
  - eexists. split_and!; [done|apply new_sound|done|done].
  - rewrite E. cbn. eexists. split; [done|]. rewrite (add_ref_add k f _ Hf). unfold add. destruct (Hn k 1 f) as [-> ->]. split_and!; [by apply add_n_sound|done|lia].
  - rewrite E. cbn. eexists. split; [done|]. destruct (Hn k (Z.of_N n) f) as [-> ->]. split_and!; [apply add_n_sound; [done|lia]|done|lia].
  - rewrite E, E'. cbn. destruct (merge_sound f g _ _ Hf Hg) as (h & Eh & Hh & Hch & Hwh); [congruence|]. exists h. split_and!; [done|done|congruence|lia].
Qed.

(** C22: However a summary was built, by unweighted and weighted updates and merges of summaries of
    the same capacity, it monitors at most that many keys; a key's counter is at most its
    frequency and falls short of it by at most the total weight over the capacity plus one; so
    every key more frequent than that is monitored. *)
Theorem misra_gries_sound cap s : exists f, build cap s = Ok f /\ weight f = added s /\ (length (counters f) <= cap)%nat /\
  forall k, 0 <= estimate k f <= frequency s k /\ (Z.of_nat cap + 1) * (frequency s k - estimate k f) <= added s /\
    (added s < (Z.of_nat cap + 1) * frequency s k -> exists c, dget k (counters f) = Some c /\ 0 < c).
Proof.
  destruct (build_sound cap s) as (f & E & [Hd Hp Hl Hlow (err & He & Hw & Hhigh)] & Hc & Hwt). exists f. rewrite Hc in *. split_and!; [done|done|done|]. intros k. specialize (Hlow k). specialize (Hhigh k).
  assert (0 <= total id (counters f)) as Ht by (apply total_nonneg; eapply Forall_impl; [exact Hp|]; unfold id; cbn; lia). pose proof (get_nonneg (counters f) k Hp) as H0. fold (estimate k f) in H0.
  assert ((Z.of_nat cap + 1) * (frequency s k - estimate k f) <= added s) as Hb by nia. split_and!; [done|done|done|]. intros Hlt. unfold estimate in *.
  destruct (dget k (counters f)) as [c|] eqn:Ek; [|cbn in *; lia]. exists c. split; [done|]. apply dget_elem in Ek. rewrite Forall_forall in Hp. by specialize (Hp _ Ek).
Qed.
End Frequent.

(** ** The sample *)

Definition occurrences (k : string) (values : list (option string)) : Z := sumZ (map (fun v => if decide (v = Some k) then 1 else 0) values).

Lemma occurrences_app k l l' : occurrences k (l ++ l') = occurrences k l + occurrences k l'.
Proof. unfold occurrences. by rewrite map_app, sumZ_app. Qed.

Lemma summarize_sound fraction values : sound (summarize fraction values) (fun k => occurrences k values).
Proof.
  unfold summarize. assert (forall f freq, sound f freq -> sound (foldl (fun f v => match v with Some k => add_ref k f | None => f end) f values) (fun k => freq k + occurrences k values)) as H.
  { induction values as [|v values IH]; intros f freq Hf; cbn.
    - destruct Hf as [H1 H2 H3 H4 (e & H5)]. split; try done; [intros k; specialize (H4 k); unfold occurrences; cbn; lia|]. exists e. split_and!; try apply H5. intros k. destruct H5 as (_ & _ & H5). specialize (H5 k). unfold occurrences. cbn. lia.
    - assert (forall f' (freq' : string -> Z), sound f' freq' -> (forall k, freq' k = freq k + if decide (v = Some k) then 1 else 0) ->
        sound (foldl (fun f v => match v with Some k => add_ref k f | None => f end) f' values) (fun k => freq k + occurrences k (v :: values))) as Hgo.
      { intros f' freq' Hf' Hfr. specialize (IH f' freq' Hf'). destruct IH as [H1 H2 H3 H4 (e & H5 & H6 & H7)].
        assert (forall k, freq' k + occurrences k values = freq k + occurrences k (v :: values)) as E by (intros k; rewrite Hfr; unfold occurrences, sumZ; cbn; lia).
        split; try done; [intros k; rewrite <- E; apply H4|]. exists e. split_and!; try done. intros k. rewrite <- E. apply H7. }
      destruct v as [q|]; [|apply (Hgo f freq); [done|intros k; rewrite decide_False by done; lia]].
      rewrite (add_ref_add q f freq Hf). eapply Hgo; [by apply add_n_sound|]. intros k. cbn. repeat case_decide; simplify_eq; lia. }
  apply (H _ _ (new_sound _)).
Qed.

Lemma native_sound fraction values : let pairs := heavy_hitters_native fraction values in
  dict_ok pairs /\ Forall (fun e => 0 < e.2) pairs /\ forall k, default 0 (dget k pairs) <= occurrences k values.
Proof.
  cbv zeta. destruct (summarize_sound fraction values) as [Hd Hp _ Hlow _]. unfold heavy_hitters_native, heavy_hitters. set (f := summarize fraction values) in *.
  set (kept := List.filter _ (counters f)). assert (py_sorted (fun a b : string * Z => b.2 <? a.2) kept ≡ₚ kept) as Hperm by apply py_sorted_perm.
  assert (forall e, e ∈ kept -> e ∈ counters f) as Hsub by (intros e He; apply list_elem_of_In, filter_In in He as [He _]; by apply list_elem_of_In).
  assert (dict_ok (py_sorted (fun a b : string * Z => b.2 <? a.2) kept)) as Hok.
  { unfold dict_ok. rewrite Hperm. unfold kept, dict_ok in *. clear -Hd. induction (counters f) as [|e cs IH]; cbn; [constructor|]. cbn in Hd. apply NoDup_cons in Hd as [He Hd]. case_match; cbn; [|by apply IH].
    apply NoDup_cons. split; [|by apply IH]. intros (x & Ex & Hx)%list_elem_of_fmap. apply He. apply list_elem_of_In, filter_In in Hx as [Hx _]. apply list_elem_of_fmap. exists x. split; [done|by apply list_elem_of_In]. }
  split_and!; [done| |].
  - rewrite Hperm. apply Forall_forall. intros e He. rewrite Forall_forall in Hp. by apply Hp, Hsub.
  - intros k. specialize (Hlow k). unfold estimate in Hlow. pose proof (get_nonneg (counters f) k Hp). destruct (dget k (py_sorted _ kept)) as [c|] eqn:E; [|cbn; lia].
    apply dget_elem in E. rewrite Hperm in E. apply Hsub, elem_dget in E; [|done]. rewrite E in Hlow. done.
Qed.

Section Sample.
Context {Batch : Type} (num_rows : Batch -> Z) (execute : list Batch -> res (list (option string))) (fraction : flt).
Abbreviation flush := (HeavyHitters.flush execute fraction).
Abbreviation sample_loop := (HeavyHitters.sample_loop num_rows execute fraction).
Abbreviation sampling := (HeavyHitters.sampling (Batch := Batch)).

(** What a sample holds: counts of values in the rows it ran, and their number. *)
Definition counted (s : sampling) (outs : list (list (option string))) : Prop :=
  Forall2 (fun c rows => execute c = Ok rows) s.(ran) outs /\ s.(seen) = Z.of_nat (length (concat outs)) /\
  dict_ok s.(counts) /\ Forall (fun e => 0 < e.2) s.(counts) /\ forall k, default 0 (dget k s.(counts)) <= occurrences k (concat outs).

Lemma flush_counted s s' outs : counted s outs -> flush s = Ok s' -> s'.(chunk) = [] /\ concat s'.(ran) = concat s.(ran) ++ s.(chunk) /\ exists outs', counted s' outs'.
Proof.
  intros (H1 & H2 & H3 & H4 & H5). unfold HeavyHitters.flush. destruct (chunk s) as [|b bs] eqn:Ec; [intros [= <-]; split_and!; [done|by rewrite app_nil_r|by exists outs]|].
  destruct (execute (b :: bs)) as [rows|] eqn:Ex; [|done]. cbn -[add_counts heavy_hitters_native].
  assert (Forall2 (fun c rows => execute c = Ok rows) (ran s ++ [b :: bs]) (outs ++ [rows])) as HF by (apply Forall2_app; [done|by repeat constructor]).
  assert (concat (outs ++ [rows]) = concat outs ++ rows) as Eo by (rewrite concat_app; cbn; by rewrite app_nil_r).
  destruct rows as [|v rows]; intros [= <-]; (split_and!; [done|cbn; rewrite concat_app; cbn; by rewrite app_nil_r|]).
  - exists (outs ++ [[]]). unfold counted. rewrite Eo, app_nil_r. done.
  - exists (outs ++ [v :: rows]). destruct (native_sound fraction (v :: rows)) as (N1 & N2 & N3). destruct (add_counters_spec (heavy_hitters_native fraction (v :: rows)) (counts s)) as (A1 & A2 & _ & A4); try done.
    unfold counted. rewrite Eo. cbn -[add_counts heavy_hitters_native]. split_and!; [done|rewrite length_app; cbn [length] in *; lia|done|done|].
    intros k. unfold add_counts. rewrite A4, occurrences_app. specialize (N3 k). specialize (H5 k). lia.
Qed.

Lemma sample_loop_counted batches : forall s s' outs, counted s outs -> sample_loop batches s = Ok s' ->
  exists outs' rest, counted s' outs' /\ concat s'.(ran) ++ s'.(chunk) ++ rest = concat s.(ran) ++ s.(chunk) ++ batches /\ (rest = [] \/ SAMPLE_ROWS <= s'.(seen)).
Proof.
  induction batches as [|b batches IH]; intros s s' outs Hs; cbn [HeavyHitters.sample_loop]; [intros [= <-]; exists outs, []; split_and!; [done|done|by left]|].
  set (s1 := Sampling _ _ _ _ _). assert (counted s1 outs) as H1 by done. assert (concat s1.(ran) ++ s1.(chunk) ++ batches = concat s.(ran) ++ s.(chunk) ++ b :: batches) as E1 by (cbn; by rewrite <- (app_assoc (chunk s))).
  destruct (_ <=? _); [|intros H; destruct (IH _ _ _ H1 H) as (o & r & Ho & Er & Hr); exists o, r; split_and!; [done|by rewrite Er|done]].
  destruct (flush s1) as [s2|] eqn:Ef; [|done]. destruct (flush_counted _ _ _ H1 Ef) as (Ec & Er & o2 & H2). cbn [mbind res_bind].
  assert (concat s2.(ran) ++ s2.(chunk) ++ batches = concat s.(ran) ++ s.(chunk) ++ b :: batches) as E2 by (rewrite <- E1, Ec, Er; cbn [app]; by rewrite <- app_assoc).
  destruct (SAMPLE_ROWS <=? seen s2) eqn:Es.
  - intros [= <-]. exists o2, batches. split_and!; [done|done|right; lia].
  - intros H. destruct (IH _ _ _ H2 H) as (o & r & Ho & Er' & Hr). exists o, r. split_and!; [done|by rewrite Er'|done].
Qed.

(** A sample reports no value more often than the rows it ran hold it, with the number of those
    rows; it ran the batches of the split in order, each once, all of them unless it saw enough
    rows. *)
Theorem sample_sound batches pairs n : sample_heavy_hitters num_rows execute fraction batches = Ok (pairs, n) ->
  exists chunks outs rest, Forall2 (fun c rows => execute c = Ok rows) chunks outs /\ concat chunks ++ rest = batches /\ (rest = [] \/ SAMPLE_ROWS <= n) /\
    n = Z.of_nat (length (concat outs)) /\ NoDup (map fst pairs) /\ forall v c, (v, c) ∈ pairs -> 0 < c <= occurrences v (concat outs).
Proof.
  unfold sample_heavy_hitters, sample. set (s0 := Sampling [] 0 [] 0 []). assert (counted s0 []) as H0 by (split_and!; (done || constructor)).
  destruct (sample_loop batches s0) as [s1|] eqn:E1; [|done]. destruct (sample_loop_counted _ _ _ _ H0 E1) as (o1 & rest & H1 & Er & Hrest). cbn [mbind res_bind].
  destruct (flush s1) as [s2|] eqn:E2; [|done]. destruct (flush_counted _ _ _ H1 E2) as (_ & Er2 & o2 & H2). cbn. intros [= <- <-].
  assert (seen s1 <= seen s2) as Hseen.
  { unfold HeavyHitters.flush in E2. destruct (chunk s1); [injection E2 as <-; done|]. destruct (execute _) as [rows|]; [|done]. cbn -[add_counts heavy_hitters_native] in E2. destruct rows; injection E2 as <-; cbn; lia. }
  destruct H2 as (F & Hn & Hd & Hp & Hlow). exists (ran s2), o2, rest. split_and!; [done|rewrite Er2, <- app_assoc; exact Er|destruct Hrest; [by left|right; lia]|done|done|].
  intros v c Hv. specialize (Hlow v). rewrite (elem_dget v c _ Hd Hv) in Hlow. rewrite Forall_forall in Hp. by specialize (Hp _ Hv).
Qed.
End Sample.

(** ** A side *)

(** Every value reported hot reaches the asked share of the sampled rows by a count that never
    exceeds its occurrences there: salting is engaged for no value the sample does not show to
    be hot. *)
Theorem detected_keys_are_hot fraction (reports : list (list (string * Z) * Z)) (samples : list (list (option string))) v :
  Forall2 (fun r rows => r.2 = Z.of_nat (length rows) /\ NoDup (map fst r.1) /\ forall k c, (k, c) ∈ r.1 -> 0 < c <= occurrences k rows) reports samples ->
  v ∈ (detect_hot_keys fraction reports).1 ->
  exists c, 0 < c <= occurrences v (concat samples) /\ flt_le (flt_mul fraction (flt_of_Z (Z.of_nat (length (concat samples))))) (flt_of_Z c) = true.
Proof.
  intros HF. unfold detect_hot_keys.
  assert (foldr (fun r acc => r.2 + acc) 0 reports = Z.of_nat (length (concat samples))) as -> by (clear v; induction HF as [|r rows rs ss (H & _) _ IH]; cbn; [done|]; rewrite length_app; lia).
  assert (forall cs base, dict_ok cs -> Forall (fun e => 0 < e.2) cs -> (forall k, default 0 (dget k cs) <= occurrences k base) ->
    let cs' := foldl (fun counts r => add_counts counts r.1) cs reports in dict_ok cs' /\ Forall (fun e => 0 < e.2) cs' /\ forall k, default 0 (dget k cs') <= occurrences k base + occurrences k (concat samples)) as H.
  { clear v. induction HF as [|r rows rs ss (_ & Hn & Hr) _ IH]; intros cs base Hd Hp Hlow; cbn -[add_counts]; [split_and!; try done; intros k; specialize (Hlow k); change (occurrences k (concat [])) with 0; lia|].
    assert (Forall (fun e => 0 < e.2) r.1) as Hrp by (apply Forall_forall; intros [k c] Hk; by destruct (Hr k c Hk)).
    destruct (add_counters_spec r.1 cs Hd Hp Hn Hrp) as (A1 & A2 & _ & A4). destruct (IH (add_counts cs r.1) (base ++ rows)) as (B1 & B2 & B3); try done.
    - intros k. unfold add_counts. rewrite A4, occurrences_app. specialize (Hlow k). destruct (dget k r.1) as [c|] eqn:Ek; cbn; [apply dget_elem in Ek; destruct (Hr _ _ Ek); lia|].
      assert (0 <= occurrences k rows); [|lia]. clear. unfold occurrences, sumZ. induction rows; cbn; [done|]. case_decide; lia.
    - split_and!; try done. intros k. specialize (B3 k). rewrite occurrences_app in B3. change (foldr Z.add 0 (map _ (rows ++ concat ss))) with (occurrences k (rows ++ concat ss)). rewrite occurrences_app. lia. }
  destruct (H [] []) as (Hd & Hp & Hlow); try done; [constructor|]. cbv zeta. case_match; [by intros ?%not_elem_of_nil|]. cbn [fst]. intros (e & -> & He)%list_elem_of_fmap. apply list_elem_of_In, filter_In in He as [He Ht].
  apply list_elem_of_In in He. destruct e as [k c]. cbn [fst snd] in *. exists c. split; [|exact Ht]. specialize (Hlow k). rewrite (elem_dget k c _ Hd He) in Hlow. rewrite Forall_forall in Hp. by specialize (Hp _ He).
Qed.

(** ** Examples *)

Module Demo.
Definition half : flt := flt_dyadic 1 (-1).
Definition rows (ks : list string) : list (option string) := map Some ks.
Definition column : list (option string) := rows ["k"; "k"; "k"; "k"; "k"; "a"] ++ [None] ++ rows ["b"; "c"; "d"].

Lemma sample_sound_witness :
  sample_heavy_hitters (fun _ : nat => 10) (fun _ => Ok column) half [0%nat] = Ok ([("k", 3)], 10) /\ forall v c, (v, c) ∈ [("k", 3)] -> 0 < c.
Proof.
  split; [vm_compute; reflexivity|].
  destruct (sample_sound (fun _ : nat => 10) (fun _ => Ok column) half [0%nat] [("k", 3)] 10) as (chunks & outs & rest & _ & _ & _ & _ & _ & H); [vm_compute; reflexivity|].
  intros v c Hv. exact (proj1 (H v c Hv)).
Defined.

Lemma detected_keys_are_hot_witness :
  (detect_hot_keys half [([("k", 3)], 4)]).1 = ["k"] /\ exists c, 0 < c <= occurrences "k" (concat [rows ["k"; "k"; "k"; "a"]]).
Proof.
  split; [vm_compute; reflexivity|].
  destruct (detected_keys_are_hot half [([("k", 3)], 4)] [rows ["k"; "k"; "k"; "a"]] "k") as (c & Hc & _).
  - apply Forall2_cons. split; [|by apply Forall2_nil]. split; [reflexivity|]. split; [apply NoDup_singleton|]. intros k c Hk. apply list_elem_of_singleton in Hk. injection Hk as -> ->. vm_compute. split; [reflexivity|discriminate].
  - vm_compute. left.
  - exists c. exact Hc.
Defined.

(** The summary keeps a key whose counter may hide a frequency above the share; the side then
    compares the counter itself with the share, so a value that holds five of nine rows is not
    found at a share of one half. *)
Lemma hot_key_missed :
  let values := rows ["k"; "k"; "k"; "k"; "k"; "a"; "b"; "c"; "d"] in
  heavy_hitters_native half values = [("k", 3)] /\ occurrences "k" values = 5 /\ detect_hot_keys half [(heavy_hitters_native half values, 9)] = ([], flt_zero).
Proof. vm_compute. split_and!; reflexivity. Qed.
End Demo.
