(* ===== verification/JoinSkew.v ===== *)
(** * Learned join skew

    dist/skew.py: [salt_factor], the stored verdict of a join shape and its expiry, and
    [resolve_hot_keys], which takes a join's hot values from the cheapest source that knows
    them.  The metadata hub is a map from shapes to records that may be unreachable on any
    call; the column statistics, the estimate of the input and the detection pre-pass are
    arguments, as is every reading of the clock. *)

From Stdlib Require Import Floats.SpecFloat.
From S2P Require Import Prelude PyFloat.

Definition DEFAULT_MAX_SALT : Z := 64.

(** [salt_factor]; [math.ceil] raises where the product is not finite. *)
Definition salt_factor (hot_fraction : flt) (partitions : Z) : res Z :=
  if flt_le hot_fraction flt_zero || (partitions <=? 1) then Ok 2
  else match flt_ceil (flt_mul hot_fraction (flt_of_Z partitions)) with
       | Some needed => Ok (Z.max 2 (Z.min DEFAULT_MAX_SALT needed))
       | None => Raise "OverflowError"
       end.

(** ** What is stored *)

(** A record of [persist_hot_keys]; the older formats lack the time, the size and the share, or
    are a list of values. *)
Inductive raw := LegacyValues (hot : list string) | Measured (hot : list string) (share : flt) (at_ : option flt) (rows : option Z).
Abbreviation hub := (gmap string raw).

(** [_load_raw] and [load_learned_skew]; an unreachable hub knows nothing. *)
Definition load_raw (reachable : bool) (shape : string) (h : hub) : option raw := if reachable then h !! shape else None.
Definition load_learned_skew (reachable : bool) (shape : string) (h : hub) : option (list string * flt) :=
  match load_raw reachable shape h with
  | None => None
  | Some (Measured hot share _ _) => Some (hot, share)
  | Some (LegacyValues hot) => Some (hot, flt_zero)
  end.

(** [persist_hot_keys]. *)
Definition persist_hot_keys (reachable : bool) (now : flt) (shape : string) (hot : list string) (share : flt) (rows : option Z) (h : hub) : hub :=
  let rows := match rows with Some n => if 0 <? n then Some n else None | None => None end in
  if reachable then <[shape := Measured hot share (Some now) rows]> h else h.

Definition UNIFORM_VERDICT_TTL_S : flt := flt_of_Z 604800.
Definition UNIFORM_VERDICT_DRIFT : flt := flt_of_Z 4.
Definition DETECT_MIN_INPUT_ROWS : Z := 2 ^ 23.

(** [_uniform_verdict_is_stale]; the ratio is the quotient of the nearest doubles. *)
Definition drifted (rows_now then_ : Z) : bool :=
  let ratio := flt_div (flt_of_Z rows_now) (flt_of_Z then_) in
  flt_le UNIFORM_VERDICT_DRIFT ratio || flt_le ratio (flt_div (flt_of_Z 1) UNIFORM_VERDICT_DRIFT).
Definition uniform_verdict_is_stale (r : option raw) (rows_now : option Z) (now : flt) : bool :=
  match r with
  | Some (Measured [] _ at_ then_) =>
      match at_ with
      | None => true
      | Some t =>
          flt_lt UNIFORM_VERDICT_TTL_S (flt_sub now t) ||
          match then_, rows_now with
          | Some m, Some n => (0 <? m) && (0 <? n) && drifted n m
          | _, _ => false
          end
      end
  | _ => false
  end.

(** ** Where the hot values come from *)

Section Resolve.
Context (shape : string) (fraction : flt) (partitions salt : Z).
(** One call: whether the hub answers each of its three requests, the estimate of the input and
    the column statistics (nothing where they raise), the pre-pass, and the clock. *)
Record call := Call {
  c_load : bool; c_reload : bool; c_store : bool; c_estimate : option Z; c_stats : list string * flt; c_detect : res (list string * flt); c_now : flt; c_then : flt }.

(** The learned set, unless it is a verdict that went stale; and the estimate if it was made. *)
Definition trusted (c : call) (h : hub) : option (list string * flt) :=
  match load_learned_skew c.(c_load) shape h with
  | Some ([], share) => if uniform_verdict_is_stale (load_raw c.(c_reload) shape h) c.(c_estimate) c.(c_now) then None else Some ([], share)
  | learned => learned
  end.
(** Whether the pre-pass runs. *)
Definition detects (c : call) (h : hub) : bool :=
  match trusted c h with
  | Some _ => false
  | None => match c.(c_stats).1 with
            | [] => (0 <? salt) || match c.(c_estimate) with Some n => DETECT_MIN_INPUT_ROWS <=? n | None => false end
            | _ => false
            end
  end.
Definition hot_values (c : call) (h : hub) : hub * res (list string * flt) :=
  match trusted c h with
  | Some learned => (h, Ok learned)
  | None =>
      if detects c h then
        match c.(c_detect) with
        | Ok (hot, share) => (persist_hot_keys c.(c_store) c.(c_then) shape hot share c.(c_estimate) h, Ok (hot, share))
        | Raise e => (h, Raise e)
        end
      else (h, Ok c.(c_stats))
  end.

(** [resolve_hot_keys]. *)
Definition resolve_hot_keys (c : call) (h : hub) : hub * res (list string * Z) :=
  if salt <? 0 then (h, Ok ([], 0))
  else
    match hot_values c h with
    | (h, Raise e) => (h, Raise e)
    | (h, Ok ([], _)) => (h, Ok ([], 0))
    | (h, Ok (hot, share)) =>
        if 0 <? salt then (h, Ok (hot, salt))
        else match salt_factor (flt_max share fraction) partitions with Ok n => (h, Ok (hot, n)) | Raise e => (h, Raise e) end
    end.

(** ** The theorems *)

Lemma salt_factor_bounds f p n : salt_factor f p = Ok n -> 2 <= n <= 64.
Proof. unfold salt_factor, DEFAULT_MAX_SALT. repeat case_match; intros [= <-]; lia. Qed.

(** A join is salted exactly when a value is known to be hot: then by the configured fan-out, or
    by one between 2 and 64; a negative fan-out touches nothing; and the hub only changes where
    the pre-pass ran, returned and the hub could be reached, by its record of this shape. *)
Theorem salt_engages_on_hot_values c h hot n : (resolve_hot_keys c h).2 = Ok (hot, n) ->
  (n = 0 <-> hot = []) /\ (hot <> [] -> 0 < salt /\ n = salt \/ salt = 0 /\ 2 <= n <= 64) /\ (salt < 0 -> hot = []) /\
  ((resolve_hot_keys c h).1 = h \/ detects c h = true /\ c.(c_store) = true /\ is_ok c.(c_detect) = true /\ exists r, (resolve_hot_keys c h).1 = <[shape := r]> h).
Proof.
  intros E. assert ((resolve_hot_keys c h).1 = h \/ detects c h = true /\ c.(c_store) = true /\ is_ok c.(c_detect) = true /\ exists r, (resolve_hot_keys c h).1 = <[shape := r]> h) as Hh.
  { unfold resolve_hot_keys. destruct (salt <? 0); [by left|]. assert ((hot_values c h).1 = h \/ detects c h = true /\ c_store c = true /\ is_ok (c_detect c) = true /\ exists r, (hot_values c h).1 = <[shape := r]> h) as H.
    { unfold hot_values. destruct (trusted c h); [by left|]. destruct (detects c h); [|by left]. destruct (c_detect c) as [[hs sh]|e]; [|by left]. unfold persist_hot_keys. destruct (c_store c); [|by left].
      right. split_and!; try done. by eexists. }
    destruct (hot_values c h) as [h' [[[|k ks] sh]|e]]; cbn in *; [done| |done]. destruct (0 <? salt); [done|]. by destruct (salt_factor _ _). }
  assert ((n = 0 /\ hot = []) \/ (hot <> [] /\ (0 < salt /\ n = salt \/ salt = 0 /\ 2 <= n <= 64))) as H.
  { clear Hh. unfold resolve_hot_keys in E. destruct (salt <? 0) eqn:E0; [injection E as <- <-; by left|]. destruct (hot_values c h) as [h' [[[|k ks] sh]|e]]; cbn in E; [injection E as <- <-; by left| |done].
    right. destruct (0 <? salt) eqn:E1; [injection E as <- <-; split; [done|left; lia]|]. destruct (salt_factor _ _) as [m|] eqn:Em; cbn in E; [|done]. injection E as <- <-. apply salt_factor_bounds in Em. split; [done|right; lia]. }
  split; [|split; [|split; [|exact Hh]]]; destruct H as [[-> ->]|[Hne H]]; try done; [split; [lia|done]|lia].
Qed.

(** The pre-pass is paid once: after a call that ran it and stored what it found, a later call
    for the shape that can read the hub does not run it again, if the pass found a hot value, or
    within the verdict's lifetime while the input keeps its size within the drift. *)
Theorem detection_paid_once c h hot share c' : 0 <= salt -> detects c h = true -> c.(c_detect) = Ok (hot, share) -> c.(c_store) = true ->
  c'.(c_load) = true -> c'.(c_reload) = true ->
  hot <> [] \/ (flt_lt UNIFORM_VERDICT_TTL_S (flt_sub c'.(c_now) c.(c_then)) = false /\ match c.(c_estimate), c'.(c_estimate) with Some m, Some n => drifted n m = false | _, _ => True end) ->
  let h' := (resolve_hot_keys c h).1 in detects c' h' = false /\ (hot_values c' h').2 = Ok (hot, share).
Proof.
  intros Hs Hd Hdet Hst Hl Hr Hv. assert ((resolve_hot_keys c h).1 = persist_hot_keys true c.(c_then) shape hot share c.(c_estimate) h) as Eh.
  { unfold resolve_hot_keys. rewrite (proj2 (Z.ltb_ge _ _) Hs). unfold hot_values. rewrite Hd, Hdet, Hst. unfold detects in Hd. destruct (trusted c h); [done|]. destruct hot; cbn; [done|].
    destruct (0 <? salt); [done|]. by destruct (salt_factor _ _). }
  cbv zeta. rewrite Eh. set (h' := persist_hot_keys _ _ _ _ _ _ _).
  assert (trusted c' h' = Some (hot, share)) as Et.
  { unfold trusted, load_learned_skew, load_raw, h', persist_hot_keys. rewrite Hl, Hr, lookup_insert_eq. destruct hot as [|k ks]; [|done]. destruct Hv as [Hv|[Hv Hn]]; [done|]. cbv match beta. unfold uniform_verdict_is_stale. rewrite Hv. cbn [orb].
    destruct (c_estimate c) as [m|]; [|done]. destruct (0 <? m); [|done]. destruct (c_estimate c') as [q|]; [|done]. rewrite Hn. by rewrite !andb_false_r. }
  unfold detects, hot_values. by rewrite Et.
Qed.
End Resolve.

(** ** Examples *)

Module Demo.
Definition quiet : call := Call true true true (Some (2 ^ 24)) ([], flt_zero) (Ok ([], flt_zero)) (flt_of_Z 1000) (flt_of_Z 1000).
Definition next (t rows : Z) : call := Call true true true (Some rows) ([], flt_zero) (Ok (["k"], flt_dyadic 1 (-1))) (flt_of_Z t) (flt_of_Z t).

(** A uniform verdict stands for an hour, and not for an input eight times as large. *)
Lemma detection_paid_once_witness :
  (detects "shape" 0 (next 4600 (2 ^ 24)) (resolve_hot_keys "shape" (flt_dyadic 1 (-3)) 8 0 quiet ∅).1 = false) /\
  detects "shape" 0 (next 4600 (2 ^ 27)) (resolve_hot_keys "shape" (flt_dyadic 1 (-3)) 8 0 quiet ∅).1 = true.
Proof.
  split; [|vm_compute; reflexivity].
  apply (detection_paid_once "shape" (flt_dyadic 1 (-3)) 8 0 quiet ∅ [] flt_zero (next 4600 (2 ^ 24))); [lia|vm_compute; reflexivity|reflexivity..|].
  right. vm_compute. split; reflexivity.
Defined.

Lemma salt_engages_on_hot_values_witness :
  (resolve_hot_keys "shape" (flt_dyadic 1 (-3)) 8 0 (next 0 (2 ^ 24)) ∅).2 = Ok (["k"], 4) /\ (4 = 0 <-> ["k"] = []).
Proof.
  split; [vm_compute; reflexivity|]. apply (salt_engages_on_hot_values "shape" (flt_dyadic 1 (-3)) 8 0 (next 0 (2 ^ 24)) ∅ ["k"] 4). vm_compute. reflexivity.
Defined.
End Demo.
