(* ===== verification/Watermark.v ===== *)
(** * Event-time watermark

    python/batcher/plan/streaming/tracker.py: [WatermarkTracker], the minimum over the
    per-partition event-time maxima, with processing-time idleness and checkpointing.
    Event times are integer microseconds; processing-time clock readings are integers (a
    reading is only ever subtracted and compared).  Every operation takes the readings its
    calls of the clock return. *)

From S2P Require Import Prelude.

Module Watermark.

(** A batch: whether its partition columns are present, and its rows as partition values
    with an event time. *)
Record batch := Batch { present : bool; rows : list (list (option string) * option Z) }.

Record tracker := Tracker {
  lateness : Z;
  idle_after : option Z;
  maxima : gmap string Z;
  seen_at : gmap string Z;
  expected : gset string;
  wm : option Z;
}.

Definition UNPARTITIONED : string := "".
Definition KEY_SEP : string := String (Ascii.ascii_of_nat 31) "".

Fixpoint join (sep : string) (parts : list string) : string :=
  match parts with
  | [] => ""
  | [p] => p
  | p :: ps => (p +:+ sep +:+ join sep ps)
  end.

(** [_partition_key]. *)
Definition partition_key (values : list (option string)) : string :=
  join KEY_SEP (map (default "") values).

(** [__init__]. *)
Definition new_tracker (lateness_micros timeout : Z) (partitions : list (list (option string)))
    (started : Z) : tracker :=
  let seen := foldl (fun m p => <[partition_key p := started]> m) ∅ partitions in
  {| lateness := lateness_micros;
     idle_after := if 0 <? timeout then Some timeout else None;
     maxima := ∅; seen_at := seen; expected := dom seen; wm := None |}.

(** [pc.max]: nulls are skipped; [None] when no value is valid. *)
Definition max_of (ts : list (option Z)) : option Z :=
  foldl (fun acc t => match acc, t with
                      | Some a, Some b => Some (Z.max a b)
                      | None, t => t
                      | acc, None => acc
                      end) None ts.

(** The distinct partition tuples of a batch, in order of appearance. *)
Definition groups (rs : list (list (option string) * option Z)) : list (list (option string)) :=
  foldl (fun acc r => if bool_decide (r.1 ∈ acc) then acc else acc ++ [r.1]) [] rs.

Definition with_expected (t : tracker) (e : gset string) : tracker :=
  {| lateness := t.(lateness); idle_after := t.(idle_after); maxima := t.(maxima);
     seen_at := t.(seen_at); expected := e; wm := t.(wm) |}.
Definition with_seen (t : tracker) (key : string) (now : Z) : tracker :=
  {| lateness := t.(lateness); idle_after := t.(idle_after); maxima := t.(maxima);
     seen_at := <[key := now]> t.(seen_at); expected := t.(expected); wm := t.(wm) |}.
Definition with_maxima (t : tracker) (m : gmap string Z) : tracker :=
  {| lateness := t.(lateness); idle_after := t.(idle_after); maxima := m;
     seen_at := t.(seen_at); expected := t.(expected); wm := t.(wm) |}.
Definition with_wm (t : tracker) (w : option Z) : tracker :=
  {| lateness := t.(lateness); idle_after := t.(idle_after); maxima := t.(maxima);
     seen_at := t.(seen_at); expected := t.(expected); wm := w |}.

(** One row of the grouped maxima. *)
Definition see_group (rs : list (list (option string) * option Z)) (now : Z)
    (acc : tracker * list (string * Z)) (g : list (option string)) : tracker * list (string * Z) :=
  match max_of (map snd (List.filter (fun r => bool_decide (r.1 = g)) rs)) with
  | None => acc
  | Some high => let key := partition_key g in (with_seen acc.1 key now, acc.2 ++ [(key, high)])
  end.

(** [_maxima_of]. *)
Definition maxima_of (t : tracker) (b : batch) (now : Z) : tracker * list (string * Z) :=
  match b.(rows) with
  | [] => (t, [])
  | _ =>
      if b.(present) then foldl (see_group b.(rows) now) (t, []) (groups b.(rows))
      else
        let t := with_expected t ∅ in
        match max_of (map snd b.(rows)) with
        | None => (t, [])
        | Some high => (with_seen t UNPARTITIONED now, [(UNPARTITIONED, high)])
        end
  end.

(** [_is_idle]. *)
Definition is_idle (t : tracker) (key : string) (now : Z) : bool :=
  match t.(idle_after) with
  | None => false
  | Some limit => match t.(seen_at) !! key with
                  | None => false
                  | Some last => limit <=? now - last
                  end
  end.

(** The maxima of the partitions that still have a say. *)
Definition active (t : tracker) (now : Z) : list Z :=
  map snd (List.filter (fun p => negb (is_idle t p.1 now)) (map_to_list t.(maxima))).

Definition silent (t : tracker) (now : Z) : bool :=
  existsb (fun k => negb (bool_decide (is_Some (t.(maxima) !! k))) && negb (is_idle t k now))
    (elements t.(expected)).

(** [min(active)] on a non-empty list. *)
Definition min_list (a : Z) (l : list Z) : Z := foldl Z.min a l.

(** [_refresh]. *)
Definition refresh (t : tracker) (now : Z) : tracker :=
  if silent t now then t
  else match active t now with
       | [] => t
       | a :: l =>
           let candidate := min_list a l - t.(lateness) in
           with_wm t (Some (match t.(wm) with None => candidate | Some w => Z.max w candidate end))
       end.

(** The fold of the batch's maxima into the tracker's. *)
Definition fold_maxima (m : gmap string Z) (pairs : list (string * Z)) : gmap string Z :=
  foldl (fun m p => <[p.1 := match m !! p.1 with None => p.2 | Some h => Z.max h p.2 end]> m) m pairs.

(** [observe], with the readings of the clock in [_maxima_of] and in [_refresh]. *)
Definition observe (t : tracker) (b : batch) (now now' : Z) : tracker :=
  let '(t, pairs) := maxima_of t b now in
  refresh (with_maxima t (fold_maxima t.(maxima) pairs)) now'.

(** The [watermark] property. *)
Definition watermark (t : tracker) (now : Z) : tracker * option Z :=
  let t := refresh t now in (t, t.(wm)).

(** A checkpoint payload: the legacy bare integer, a document, or anything else. *)
Inductive payload :=
  | PInt (z : Z)
  | PDoc (doc_maxima : option (gmap string Z)) (doc_watermark : option Z)
  | POther.

Definition to_json (t : tracker) : payload := PDoc (Some t.(maxima)) t.(wm).

(** [seen_at.setdefault]. *)
Definition set_default (m : gmap string Z) (k : string) (v : Z) : gmap string Z :=
  match m !! k with Some _ => m | None => <[k := v]> m end.

(** [restore]. *)
Definition restore (t : tracker) (p : option payload) (now : Z) : tracker :=
  match p with
  | None | Some POther => t
  | Some (PInt z) =>
      {| lateness := t.(lateness); idle_after := t.(idle_after);
         maxima := {[UNPARTITIONED := z + t.(lateness)]};
         seen_at := set_default t.(seen_at) UNPARTITIONED now;
         expected := t.(expected); wm := Some z |}
  | Some (PDoc m w) =>
      let t := match m with
               | None => t
               | Some m =>
                   {| lateness := t.(lateness); idle_after := t.(idle_after); maxima := m;
                      seen_at := foldl (fun s k => set_default s k now) t.(seen_at)
                                   (map fst (map_to_list m));
                      expected := t.(expected); wm := t.(wm) |}
               end in
      with_wm t w
  end.

(** ** Maxima *)

(** Bounds characterize an optional maximum. *)
Definition below (x : option Z) (u : Z) : Prop := forall h, x = Some h -> h <= u.

Lemma below_ext x y : (forall u, below x u <-> below y u) -> x = y.
Proof.
  unfold below. intros H. destruct x as [a|], y as [b|]; [|exfalso..|done].
  - f_equal. pose proof (proj1 (H a)) as H1. pose proof (proj2 (H b)) as H2.
    specialize (H1 ltac:(intros ? [= ->]; lia) b eq_refl). specialize (H2 ltac:(intros ? [= ->]; lia) a eq_refl). lia.
  - specialize (proj2 (H (a - 1)) ltac:(done) a eq_refl). lia.
  - specialize (proj1 (H (b - 1)) ltac:(done) b eq_refl). lia.
Qed.

(** The running maximum of optional readings. *)
Definition omax (x y : option Z) : option Z :=
  match x, y with Some a, Some b => Some (Z.max a b) | None, y => y | x, None => x end.

Lemma below_omax x y u : below (omax x y) u <-> below x u /\ below y u.
Proof.
  unfold below. destruct x as [a|], y as [b|]; cbn; split.
  - intros H. specialize (H _ eq_refl). split; intros ? [= <-]; lia.
  - intros [H1 H2] h [= <-]. specialize (H1 _ eq_refl). specialize (H2 _ eq_refl). lia.
  - intros H. split; [done|]. intros ? [=].
  - intros [H _]. done.
  - intros H. split; [intros ? [=]|done].
  - intros [_ H]. done.
  - done.
  - intros [? ?]. done.
Qed.

Lemma max_of_omax ts : max_of ts = foldl omax None ts.
Proof. reflexivity. Qed.

Lemma below_max_of ts u : below (max_of ts) u <-> forall h, Some h ∈ ts -> h <= u.
Proof.
  rewrite max_of_omax. assert (forall acc, below (foldl omax acc ts) u <->
    below acc u /\ forall h, Some h ∈ ts -> h <= u) as Hgen.
  { induction ts as [|t ts IH]; intros acc; cbn [foldl].
    - split; [intros H; split; [done|]; intros h Hh; by apply not_elem_of_nil in Hh|by intros [? _]].
    - rewrite IH, below_omax. split.
      + intros [[? Ht] Hts]. split; [done|]. intros h [Hh|?]%elem_of_cons; auto.
      + intros [? H]. split; [split; [done|]|]; intros h Hh; apply H, elem_of_cons; auto. }
  rewrite Hgen. unfold below. split; [by intros [_ ?]|by split].
Qed.

(** The largest reading of one key. *)
Definition key_max (k : string) (l : list (string * Z)) : option Z :=
  max_of (map (fun p => if decide (p.1 = k) then Some p.2 else None) l).

Lemma below_key_max k l u : below (key_max k l) u <-> forall h, (k, h) ∈ l -> h <= u.
Proof.
  unfold key_max. rewrite below_max_of. split.
  - intros H h Hh. apply H. apply list_elem_of_fmap. exists (k, h). cbn. by rewrite decide_True.
  - intros H h Hh. apply list_elem_of_fmap in Hh as ([k' h'] & Heq & Hin). cbn in Heq.
    case_decide; simplify_eq. by apply H.
Qed.

Lemma fold_maxima_lookup m pairs k : fold_maxima m pairs !! k = omax (m !! k) (key_max k pairs).
Proof.
  apply below_ext. intros u. rewrite below_omax, below_key_max. unfold fold_maxima. revert m.
  induction pairs as [|[k' h] pairs IH]; intros m; cbn [foldl].
  - split; [intros H; split; [done|]; intros h Hh; by apply not_elem_of_nil in Hh|by intros [? _]].
  - rewrite IH. cbn. destruct (decide (k' = k)) as [->|Hne].
    + rewrite lookup_insert_eq. assert (Some (match m !! k with Some x => Z.max x h | None => h end) =
        omax (m !! k) (Some h)) as -> by (by destruct (m !! k)).
      rewrite below_omax. split.
      * intros [[? H1] H2]. split; [done|]. intros h' [Heq|?]%elem_of_cons; [simplify_eq; by apply H1|auto].
      * intros [? H]. split; [split; [done|]|]; [intros ? [= <-]; apply H; by left|].
        intros h' ?. apply H. by right.
    + rewrite lookup_insert_ne by done. split.
      * intros [? H]. split; [done|]. intros h' [Heq|?]%elem_of_cons; [by simplify_eq|auto].
      * intros [? H]. split; [done|]. intros h' ?. apply H. by right.
Qed.

(** ** What a batch delivers *)

Definition row_key (b : batch) (r : list (option string) * option Z) : string :=
  if b.(present) then partition_key r.1 else UNPARTITIONED.

(** The (partition, event time) pairs of the rows with an event time. *)
Definition delivered (b : batch) : list (string * Z) :=
  omap (fun r => match r.2 with Some h => Some (row_key b r, h) | None => None end) b.(rows).

Lemma elem_of_delivered b k h :
  (k, h) ∈ delivered b <-> exists r, r ∈ b.(rows) /\ row_key b r = k /\ r.2 = Some h.
Proof.
  unfold delivered. rewrite list_elem_of_omap. split.
  - intros ([g t] & Hr & Heq). cbn in *. destruct t as [t|]; simplify_eq. exists (g, Some h). done.
  - intros ([g t] & Hr & <- & Ht). cbn in Ht. subst t. by exists (g, Some h).
Qed.

Lemma elem_of_groups rs g : g ∈ groups rs <-> exists r, r ∈ rs /\ r.1 = g.
Proof.
  unfold groups. assert (forall acc, g ∈ foldl (fun acc r => if bool_decide (r.1 ∈ acc) then acc else acc ++ [r.1]) acc rs
    <-> g ∈ acc \/ exists r, r ∈ rs /\ r.1 = g) as Hgen.
  { induction rs as [|r rs IH]; intros acc; cbn [foldl].
    - split; [by left|]. intros [?|(r & Hr & _)]; [done|]. by apply not_elem_of_nil in Hr.
    - rewrite IH. case_bool_decide as Hin; rewrite ?elem_of_app, ?list_elem_of_singleton.
      + split; [intros [?|(r' & ? & ?)]; [by left|right; exists r'; split; [by right|done]]|].
        intros [?|(r' & [->|?]%elem_of_cons & Hr')]; [by left|left; congruence|right; eauto].
      + split.
        * intros [[?| ->]|(r' & ? & ?)]; [by left|right; exists r; split; [by left|done]|].
          right. exists r'. split; [by right|done].
        * intros [?|(r' & [->|?]%elem_of_cons & Hr')]; [by left; left|left; right; congruence|right; eauto]. }
  rewrite Hgen. split; [intros [H|?]; [by apply not_elem_of_nil in H|done]|by right].
Qed.

Lemma max_of_attained ts h : max_of ts = Some h -> Some h ∈ ts.
Proof.
  intros Hm. destruct (decide (Some h ∈ ts)) as [|Hn]; [done|]. exfalso.
  assert (below (max_of ts) (h - 1)) as Hb.
  { apply below_max_of. intros h' Hh'. assert (below (max_of ts) h) as Hu by (rewrite Hm; intros ? [= <-]; lia).
    rewrite below_max_of in Hu. specialize (Hu h' Hh'). destruct (decide (h' = h)) as [->|]; [done|lia]. }
  specialize (Hb h Hm). lia.
Qed.

Lemma max_of_bounds ts h : Some h ∈ ts -> exists h', max_of ts = Some h' /\ h <= h'.
Proof.
  intros Hin. destruct (max_of ts) as [h'|] eqn:Hm.
  - exists h'. split; [done|]. assert (below (max_of ts) h') as Hb by (rewrite Hm; intros ? [= <-]; lia).
    rewrite below_max_of in Hb. by apply Hb.
  - assert (below (max_of ts) (h - 1)) as Hb by (rewrite Hm; done). rewrite below_max_of in Hb.
    specialize (Hb h Hin). lia.
Qed.

(** What [_maxima_of] leaves alone. *)
Definition same_frontier (t t' : tracker) : Prop :=
  t'.(lateness) = t.(lateness) /\ t'.(idle_after) = t.(idle_after) /\
  t'.(maxima) = t.(maxima) /\ t'.(wm) = t.(wm).

Lemma see_groups_spec rs now gs t ps :
  let '(t', ps') := foldl (see_group rs now) (t, ps) gs in
  same_frontier t t' /\ t'.(expected) = t.(expected) /\
  (forall p, p ∈ ps' <-> p ∈ ps \/ exists g, g ∈ gs /\
     max_of (map snd (List.filter (fun r => bool_decide (r.1 = g)) rs)) = Some p.2 /\ partition_key g = p.1) /\
  (forall k, t'.(seen_at) !! k = t.(seen_at) !! k \/ t'.(seen_at) !! k = Some now).
Proof.
  revert t ps. induction gs as [|g gs IH]; intros t ps; cbn [foldl].
  - split_and!; [by split_and!|done| |by left]. intros p. split; [by left|].
    intros [?|(g & Hg & _)]; [done|]. by apply not_elem_of_nil in Hg.
  - unfold see_group at 2. destruct (max_of _) as [high|] eqn:Hm; cbn [fst snd].
    + specialize (IH (with_seen t (partition_key g) now) (ps ++ [(partition_key g, high)])).
      destruct (foldl _ _ gs) as [t' ps']. destruct IH as ((?&?&?&?) & ? & Hps & Hseen). split_and!; [done..| |].
      * intros p. rewrite Hps, elem_of_app, list_elem_of_singleton. split.
        -- intros [[?| ->]|(g' & ? & ?)]; [by left|right; exists g; by split; [left|]|].
           right. exists g'. split; [by right|done].
        -- intros [?|(g' & [->|?]%elem_of_cons & Hg & Hk)]; [by left; left| |right; eauto].
           left; right. destruct p as [k h]. cbn in *. congruence.
      * intros k. destruct (Hseen k) as [Hk|Hk]; [|by right]. cbn in Hk.
        destruct (decide (k = partition_key g)) as [->|Hne];
          [rewrite lookup_insert_eq in Hk; by right|rewrite lookup_insert_ne in Hk by done; by left].
    + specialize (IH t ps). destruct (foldl _ _ gs) as [t' ps']. destruct IH as (? & ? & Hps & ?).
      split_and!; [done..| |done]. intros p. rewrite Hps. split.
      * intros [?|(g' & ? & ?)]; [by left|right; exists g'; split; [by right|done]].
      * intros [?|(g' & [->|?]%elem_of_cons & Hg & Hk)]; [by left|congruence|right; eauto].
Qed.

(** The pairs of a batch carry, per partition, the maximum of what it delivers. *)
Lemma maxima_of_spec t b now :
  let '(t', pairs) := maxima_of t b now in
  same_frontier t t' /\
  (t'.(expected) = t.(expected) \/ (b.(present) = false /\ t'.(expected) = ∅)) /\
  (forall k, key_max k pairs = key_max k (delivered b)) /\
  (forall k, t'.(seen_at) !! k = t.(seen_at) !! k \/ t'.(seen_at) !! k = Some now).
Proof.
  unfold maxima_of. destruct b as [pr [|r0 rs]]; cbn [rows present].
  { split_and!; [by split_and!|by left|done|by left]. }
  set (rs' := r0 :: rs). destruct pr.
  - pose proof (see_groups_spec rs' now (groups rs') t []) as Hs.
    destruct (foldl _ _ _) as [t' pairs]. destruct Hs as (? & ? & Hps & ?).
    split_and!; [done|by left| |done]. intros k. apply below_ext. intros u. rewrite !below_key_max.
    split; intros H' h Hh.
    + apply elem_of_delivered in Hh as (r & Hr & Hk & Ht). unfold row_key in Hk. cbn in Hk, Hr.
      destruct (max_of_bounds (map snd (List.filter (fun r' => bool_decide (r'.1 = r.1)) rs')) h) as (h' & Hm & Hle).
      { apply list_elem_of_fmap. exists r. split; [done|]. apply list_elem_of_In, filter_In.
        split; [by apply list_elem_of_In|by apply bool_decide_eq_true]. }
      assert (h' <= u); [|lia]. apply H'. apply Hps. right. exists r.1. split; [|done].
      apply elem_of_groups. eauto.
    + apply Hps in Hh as [Hh|(g & _ & Hm & Hk)]; [by apply not_elem_of_nil in Hh|]. apply H'.
      apply max_of_attained, list_elem_of_fmap in Hm as (r & Hh & Hr). cbn [fst snd] in *.
      apply list_elem_of_In, filter_In in Hr as [Hr Hg]. apply bool_decide_eq_true in Hg.
      apply elem_of_delivered. exists r. split; [by apply list_elem_of_In|]. split; [|done].
      unfold row_key. cbn. congruence.
  - assert (forall u, below (max_of (map snd rs')) u <-> forall h, (UNPARTITIONED, h) ∈ delivered (Batch false rs') -> h <= u)
      as Hall.
    { intros u. rewrite below_max_of. split; intros H h Hh; apply H.
      - apply elem_of_delivered in Hh as (r & Hr & _ & Ht). apply list_elem_of_fmap. exists r. done.
      - apply list_elem_of_fmap in Hh as (r & Hh & Hr). apply elem_of_delivered. exists r. done. }
    assert (forall k h, (k, h) ∈ delivered (Batch false rs') -> k = UNPARTITIONED) as Hkey.
    { intros k h Hh. apply elem_of_delivered in Hh as (r & _ & <- & _). done. }
    destruct (max_of (map snd rs')) as [high|] eqn:Hm.
    + split_and!; [by split_and!|by right| |].
      * intros k. apply below_ext. intros u. rewrite !below_key_max. split; intros H h Hh.
        -- pose proof (Hkey k h Hh). subst k. apply (proj1 (Hall u)); [|done]. intros h' [= <-].
           apply H, list_elem_of_singleton. done.
        -- apply list_elem_of_singleton in Hh. simplify_eq.
           apply (proj2 (Hall u) H high eq_refl).
      * intros k. cbn. destruct (decide (k = UNPARTITIONED)) as [->|Hne];
          [right; by rewrite lookup_insert_eq|left; by rewrite lookup_insert_ne].
    + split_and!; [by split_and!|by right| |by left].
      intros k. apply below_ext. intros u. rewrite !below_key_max. split; intros H h Hh.
      * pose proof (Hkey k h Hh). subst k. by apply (proj1 (Hall u)).
      * by apply not_elem_of_nil in Hh.
Qed.

(** ** Runs *)

Inductive event := Observe (b : batch) (now now' : Z) | Read (now : Z).

Definition step (t : tracker) (ev : event) : tracker :=
  match ev with
  | Observe b now now' => observe t b now now'
  | Read now => (watermark t now).1
  end.

Definition run (t : tracker) (evs : list event) : tracker := foldl step t evs.

(** Everything delivered so far. *)
Definition history (evs : list event) : list (string * Z) :=
  concat (map (fun ev => match ev with Observe b _ _ => delivered b | Read _ => [] end) evs).

Lemma refresh_keeps t now :
  let t' := refresh t now in
  t'.(maxima) = t.(maxima) /\ t'.(lateness) = t.(lateness) /\ t'.(idle_after) = t.(idle_after) /\
  t'.(seen_at) = t.(seen_at) /\ t'.(expected) = t.(expected).
Proof. unfold refresh. destruct (silent t now); [done|]. by destruct (active t now). Qed.

Lemma observe_maxima t b now now' k :
  (observe t b now now').(maxima) !! k = omax (t.(maxima) !! k) (key_max k (delivered b)).
Proof.
  unfold observe. pose proof (maxima_of_spec t b now) as Hs. destruct (maxima_of t b now) as [t1 pairs].
  destruct Hs as ((_ & _ & Hm & _) & _ & Hk & _).
  rewrite (proj1 (refresh_keeps _ _)). cbn. by rewrite fold_maxima_lookup, Hk, Hm.
Qed.

Lemma key_max_app k l1 l2 : key_max k (l1 ++ l2) = omax (key_max k l1) (key_max k l2).
Proof.
  apply below_ext. intros u. rewrite below_omax, !below_key_max. split.
  - intros H. split; intros h ?; apply H, elem_of_app; auto.
  - intros [H1 H2] h [?|?]%elem_of_app; auto.
Qed.

Lemma omax_assoc x y z : omax x (omax y z) = omax (omax x y) z.
Proof. apply below_ext. intros u. rewrite !below_omax. tauto. Qed.

Lemma run_maxima t evs k : (run t evs).(maxima) !! k = omax (t.(maxima) !! k) (key_max k (history evs)).
Proof.
  revert t. induction evs as [|ev evs IH]; intros t; cbn [run foldl history map concat].
  - cbn. by destruct (maxima t !! k).
  - fold (run (step t ev) evs) (history evs). rewrite IH, key_max_app, omax_assoc. f_equal.
    destruct ev as [b now now'|now]; cbn [step].
    + apply observe_maxima.
    + unfold watermark. cbn. rewrite (proj1 (refresh_keeps _ _)). cbn. by destruct (maxima t !! k).
Qed.

(** *** Monotonicity *)

Lemma refresh_wm t now w : t.(wm) = Some w -> exists w', (refresh t now).(wm) = Some w' /\ w <= w'.
Proof.
  intros Hw. unfold refresh. destruct (silent t now); [exists w; split; [done|lia]|].
  destruct (active t now) as [|a l]; [exists w; split; [done|lia]|]. cbn. rewrite Hw. eexists. split; [done|lia].
Qed.

Lemma step_wm t ev w : t.(wm) = Some w -> exists w', (step t ev).(wm) = Some w' /\ w <= w'.
Proof.
  intros Hw. destruct ev as [b now now'|now]; cbn [step]; [|by apply refresh_wm].
  unfold observe. pose proof (maxima_of_spec t b now) as Hs. destruct (maxima_of t b now) as [t1 pairs].
  destruct Hs as ((_ & _ & _ & Hwm) & _). apply refresh_wm. cbn. congruence.
Qed.

Lemma run_wm t evs w : t.(wm) = Some w -> exists w', (run t evs).(wm) = Some w' /\ w <= w'.
Proof.
  revert t w. induction evs as [|ev evs IH]; intros t w Hw; cbn [run foldl]; [exists w; split; [done|lia]|].
  destruct (step_wm t ev w Hw) as (w1 & H1 & Hle1). destruct (IH _ w1 H1) as (w2 & H2 & Hle2).
  exists w2. split; [done|lia].
Qed.

(** *** The minimum *)

Lemma min_list_spec a l : min_list a l ∈ a :: l /\ forall x, x ∈ a :: l -> min_list a l <= x.
Proof.
  unfold min_list. revert a. induction l as [|b l IH]; intros a; cbn [foldl].
  - split; [by left|]. intros x ->%list_elem_of_singleton. lia.
  - destruct (IH (Z.min a b)) as [Hin Hle]. split.
    + apply elem_of_cons in Hin as [->|?]; [|by right; right].
      destruct (Z.min_spec a b) as [[_ ->]|[_ ->]]; [by left|by right; left].
    + intros x Hx. apply elem_of_cons in Hx as [->|[->|?]%elem_of_cons]; [| |apply Hle; by right];
        pose proof (Hle (Z.min a b) (list_elem_of_here _ _)); lia.
Qed.

Lemma elem_of_active t now h :
  h ∈ active t now <-> exists k, t.(maxima) !! k = Some h /\ is_idle t k now = false.
Proof.
  unfold active. rewrite list_elem_of_fmap. split.
  - intros ([k h'] & -> & Hin%list_elem_of_In). apply filter_In in Hin as [Hin Hi].
    apply list_elem_of_In, elem_of_map_to_list in Hin. exists k. split; [done|]. cbn in Hi. by destruct (is_idle t k now).
  - intros (k & Hk & Hi). exists (k, h). split; [done|]. apply list_elem_of_In, filter_In. cbn. rewrite Hi.
    split; [|done]. by apply list_elem_of_In, elem_of_map_to_list.
Qed.

(** A refresh that advances moves to the slowest active partition. *)
Lemma refresh_spec t now :
  silent t now = false -> active t now <> [] ->
  exists low k, t.(maxima) !! k = Some low /\ is_idle t k now = false /\
    (forall k' h, t.(maxima) !! k' = Some h -> is_idle t k' now = false -> low <= h) /\
    (refresh t now).(wm) = omax t.(wm) (Some (low - t.(lateness))).
Proof.
  intros Hs Ha. unfold refresh. rewrite Hs. destruct (active t now) as [|a l] eqn:E; [done|].
  destruct (min_list_spec a l) as [Hin Hle]. rewrite <- E in Hin, Hle.
  apply elem_of_active in Hin as (k & Hk & Hi). exists (min_list a l), k. split_and!; [done..| |].
  - intros k' h Hk' Hi'. apply Hle, elem_of_active. eauto.
  - cbn. by destruct (wm t).
Qed.

Lemma silent_false t now :
  silent t now = false <->
  forall k, k ∈ t.(expected) -> is_Some (t.(maxima) !! k) \/ is_idle t k now = true.
Proof.
  unfold silent. split.
  - intros Hs k Hk. destruct (decide (is_Some (t.(maxima) !! k))) as [|Hn]; [by left|right].
    destruct (is_idle t k now) eqn:Hi; [done|]. exfalso.
    assert (existsb (fun k => negb (bool_decide (is_Some (maxima t !! k))) && negb (is_idle t k now))
      (elements (expected t)) = true); [|congruence].
    apply existsb_exists. exists k. split; [by apply list_elem_of_In, elem_of_elements|].
    rewrite Hi, bool_decide_false by done. done.
  - intros H. apply not_true_is_false. intros (k & Hk%list_elem_of_In%elem_of_elements & Hb)%existsb_exists.
    apply andb_prop in Hb as [H1 H2]. destruct (H k Hk) as [Hs|Hi]; [|by rewrite Hi in H2].
    by rewrite bool_decide_true in H1.
Qed.

(** *** Declared partitions without idleness *)

Section Declared.
Variable declared : gset string.
Variable late : Z.

(** The source names its partitions and delivers only under those it declared. *)
Definition attributed (ev : event) : Prop :=
  match ev with
  | Observe b _ _ => b.(present) = true /\ forall k h, (k, h) ∈ delivered b -> k ∈ declared
  | Read _ => True
  end.

Definition bounded (m : gmap string Z) (w : option Z) : Prop :=
  forall x, w = Some x ->
    (exists k, k ∈ declared) /\ forall k, k ∈ declared -> exists h, m !! k = Some h /\ x <= h - late.

Record steady (t : tracker) : Prop := {
  st_idle : t.(idle_after) = None;
  st_late : t.(lateness) = late;
  st_expected : t.(expected) = declared;
  st_dom : forall k, is_Some (t.(maxima) !! k) -> k ∈ declared;
  st_bound : bounded t.(maxima) t.(wm);
}.

Lemma never_idle t k now : t.(idle_after) = None -> is_idle t k now = false.
Proof. unfold is_idle. by intros ->. Qed.

(** After a refresh of a steady tracker the frontier is exactly the slowest partition. *)
Lemma steady_refresh t now :
  steady t ->
  steady (refresh t now) /\
  match (refresh t now).(wm) with
  | None => declared = ∅ \/ exists k, k ∈ declared /\ t.(maxima) !! k = None
  | Some w => (exists k, k ∈ declared /\ t.(maxima) !! k = Some (w + late)) /\
              forall k, k ∈ declared -> exists h, t.(maxima) !! k = Some h /\ w <= h - late
  end.
Proof.
  intros [Hi Hl He Hd Hb]. pose proof (refresh_keeps t now) as (Km & Kl & Ki & Ks & Ke).
  destruct (silent t now) eqn:Hs.
  - unfold refresh. rewrite Hs. split; [by split|].
    assert (exists k, k ∈ declared /\ t.(maxima) !! k = None) as (k & Hk & Hn).
    { unfold silent in Hs. apply existsb_exists in Hs as (k & Hk%list_elem_of_In%elem_of_elements & Hc).
      apply andb_prop in Hc as [Hc _]. exists k. rewrite <- He. split; [done|].
      destruct (t.(maxima) !! k) eqn:E; [|done]. by rewrite bool_decide_true in Hc. }
    destruct (t.(wm)) as [w|] eqn:Hw; [|right; eauto]. exfalso. destruct (Hb w eq_refl) as [_ Hall].
    destruct (Hall k Hk) as (h & Hh & _). congruence.
  - rewrite silent_false in Hs.
    assert (forall k, k ∈ declared -> is_Some (t.(maxima) !! k)) as Hspoke.
    { intros k Hk. rewrite <- He in Hk. destruct (Hs k Hk) as [?|Hf]; [done|]. by rewrite never_idle in Hf. }
    rewrite <- silent_false in Hs. destruct (active t now) as [|a l] eqn:Ha.
    + unfold refresh. rewrite Hs, Ha. split; [by split|].
      assert (forall k, k ∈ declared -> False) as Hempty.
      { intros k Hk. destruct (Hspoke k Hk) as [h Hh].
        assert (h ∈ active t now) as Hin by (apply elem_of_active; exists k; by rewrite never_idle).
        rewrite Ha in Hin. by apply not_elem_of_nil in Hin. }
      destruct (t.(wm)) as [w|] eqn:Hw.
      * destruct (Hb w eq_refl) as [[k Hk] _]. by destruct (Hempty k Hk).
      * left. apply set_eq. intros k. split; [by intros ?%Hempty|set_solver].
    + destruct (refresh_spec t now Hs) as (low & k0 & Hk0 & _ & Hlow & Hwm); [by rewrite Ha|].
      assert (forall k h, t.(maxima) !! k = Some h -> low <= h) as Hmin
        by (intros k h Hk; apply (Hlow k h Hk), never_idle; done).
      assert (k0 ∈ declared) as Hk0d by (apply Hd; eauto).
      assert ((refresh t now).(wm) = Some (low - late)) as Hfin.
      { rewrite Hwm, Hl. destruct (t.(wm)) as [w|] eqn:Hw; cbn; [|done]. f_equal.
        destruct (Hb w eq_refl) as [_ Hall]. destruct (Hall k0 Hk0d) as (h & Hh & Hle).
        rewrite Hk0 in Hh. simplify_eq. lia. }
      assert (forall k, k ∈ declared -> exists h, t.(maxima) !! k = Some h /\ low - late <= h - late) as Hall.
      { intros k Hk. destruct (Hspoke k Hk) as [h Hh]. exists h. split; [done|]. specialize (Hmin k h Hh). lia. }
      split.
      * split; [congruence|congruence|congruence|by rewrite Km|]. rewrite Hfin, Km. intros x [= <-]. eauto.
      * rewrite Hfin. split; [|done]. exists k0. split; [done|]. rewrite Hk0. f_equal. lia.
Qed.

Lemma steady_step t ev : steady t -> attributed ev -> steady (step t ev).
Proof.
  intros Ht Hev. destruct ev as [b now now'|now]; cbn [step]; [|by apply steady_refresh].
  destruct Hev as [Hp Hdel]. unfold observe. pose proof (maxima_of_spec t b now) as Hs.
  destruct (maxima_of t b now) as [t1 pairs]. destruct Hs as ((Hl & Hi & Hm & Hw) & He & Hk & _).
  apply steady_refresh. destruct Ht as [Ti Tl Te Td Tb]. split; cbn; [congruence|congruence| | |].
  - destruct He as [He|[Hp' _]]; congruence.
  - intros k [h Hh]. rewrite fold_maxima_lookup, Hm, Hk in Hh.
    destruct (maxima t !! k) eqn:E; [apply Td; eauto|]. cbn in Hh.
    apply max_of_attained, list_elem_of_fmap in Hh as ([k' h'] & Heq & Hin). cbn in Heq.
    case_decide; simplify_eq. by eapply Hdel.
  - intros x Hx. rewrite Hw in Hx. destruct (Tb x Hx) as [Hne Hall]. split; [done|]. intros k Hkd.
    destruct (Hall k Hkd) as (h & Hh & Hle). rewrite fold_maxima_lookup, Hm, Hh.
    destruct (key_max k pairs) as [h'|]; cbn; eexists; (split; [done|lia]).
Qed.

Lemma steady_run t evs : steady t -> Forall attributed evs -> steady (run t evs).
Proof.
  intros Ht Hevs. revert t Ht. induction Hevs as [|ev evs Hev _ IH]; intros t Ht; cbn [run foldl]; [done|].
  by apply IH, steady_step.
Qed.
End Declared.

Lemma new_tracker_steady late timeout ps started :
  timeout <= 0 -> steady (dom (new_tracker late timeout ps started).(seen_at)) late (new_tracker late timeout ps started).
Proof.
  intros Ht. split; cbn; try done; [by destruct (Z.ltb_spec 0 timeout); [lia|]|by intros k [? ?]].
Qed.

Lemma new_tracker_declared late timeout ps started k :
  k ∈ (new_tracker late timeout ps started).(expected) <-> exists p, p ∈ ps /\ partition_key p = k.
Proof.
  cbn. assert (forall m : gmap string Z, k ∈ dom (foldl (fun m p => <[partition_key p := started]> m) m ps) <->
    k ∈ dom m \/ exists p, p ∈ ps /\ partition_key p = k) as Hgen.
  { induction ps as [|p ps IH]; intros m; cbn [foldl].
    - split; [by left|]. intros [?|(p & Hp & _)]; [done|]. by apply not_elem_of_nil in Hp.
    - rewrite IH, dom_insert, elem_of_union, elem_of_singleton. split.
      + intros [[->|?]|(q & ? & ?)]; [right; exists p; by split; [left|]|by left|].
        right. exists q. split; [by right|done].
      + intros [?|(q & [->|?]%elem_of_cons & Hq)]; [by left; right|left; left; done|right; eauto]. }
  rewrite Hgen, dom_empty, elem_of_empty. tauto.
Qed.

(** The legacy payload is one unpartitioned entry [lateness] ahead of the watermark. *)
Lemma legacy_reads_back late timeout started now z :
  (watermark (restore (new_tracker late timeout [] started) (Some (PInt z)) now) now).2 = Some z.
Proof.
  set (t := restore _ _ _). cbn [watermark snd].
  assert (t.(maxima) = {[UNPARTITIONED := z + late]}) as Hm by done.
  assert (is_idle t UNPARTITIONED now = false) as Hi.
  { unfold is_idle, t. cbn [restore new_tracker idle_after seen_at foldl]. unfold set_default.
    rewrite lookup_empty, lookup_insert_eq, Z.sub_diag. destruct (Z.ltb_spec 0 timeout); [|done].
    apply Z.leb_gt. lia. }
  destruct (refresh_spec t now) as (low & k & Hk & _ & _ & ->).
  - apply silent_false. intros k Hk. unfold t in Hk. cbn in Hk. set_solver.
  - intros Ha. assert (z + late ∈ active t now) as Hin.
    { apply elem_of_active. exists UNPARTITIONED. by rewrite Hm, lookup_singleton_eq. }
    rewrite Ha in Hin. by apply not_elem_of_nil in Hin.
  - rewrite Hm in Hk. apply lookup_singleton_Some in Hk as [_ <-]. cbn. f_equal. lia.
Qed.

(** ** Properties *)

(** whatever is observed and read, the tracker's maximum of a partition is the largest
    event time delivered under that partition's key since it was created: batches without
    partition columns count under the single unpartitioned key, null event times count
    nowhere. *)
Theorem maxima_exact late timeout ps started evs k :
  (run (new_tracker late timeout ps started) evs).(maxima) !! k = key_max k (history evs).
Proof. rewrite run_maxima. cbn. by rewrite lookup_empty. Qed.

(** C35: the watermark is monotone: once it is [w], no sequence of observations and reads,
    at any clock readings and with any idleness, leaves it below [w] or unset. *)
Theorem watermark_monotone t evs w :
  t.(wm) = Some w -> exists w', (run t evs).(wm) = Some w' /\ w <= w'.
Proof. apply run_wm. Qed.

(** with the partitions declared, idleness disabled and every batch attributed to a
    declared partition, reading the watermark gives exactly the slowest partition's maximum
    less the lateness, and nothing while a declared partition has not delivered: a row whose
    event time is within the lateness of its own partition is never below it. *)
Theorem watermark_is_slowest late timeout ps started evs now :
  let t := new_tracker late timeout ps started in
  timeout <= 0 -> Forall (attributed t.(expected)) evs ->
  match (watermark (run t evs) now).2 with
  | Some w => (exists p, p ∈ ps /\ key_max (partition_key p) (history evs) = Some (w + late)) /\
              forall p, p ∈ ps -> exists h, key_max (partition_key p) (history evs) = Some h /\ w <= h - late
  | None => ps = [] \/ exists p, p ∈ ps /\ key_max (partition_key p) (history evs) = None
  end.
Proof.
  intros t Ht Hevs.
  destruct (steady_refresh t.(expected) late (run t evs) now) as [_ Hw].
  { apply steady_run; [by apply new_tracker_steady|done]. }
  assert (forall k, (run t evs).(maxima) !! k = key_max k (history evs)) as Hm.
  { intros k. unfold t. rewrite run_maxima. cbn. by rewrite lookup_empty. }
  assert (forall k, k ∈ t.(expected) <-> exists p, p ∈ ps /\ partition_key p = k) as Hd
    by (intros k; apply new_tracker_declared).
  cbn [watermark snd]. destruct (wm (refresh (run t evs) now)) as [w|].
  - destruct Hw as [(k & Hk & Hk') Hall]. split.
    + apply Hd in Hk as (p & Hp & <-). exists p. by rewrite <- Hm.
    + intros p Hp. destruct (Hall (partition_key p)) as (h & Hh & Hle); [apply Hd; eauto|].
      exists h. by rewrite <- Hm.
  - destruct Hw as [He|(k & Hk & Hn)].
    + left. destruct ps as [|p ps']; [done|]. exfalso.
      assert (partition_key p ∈ t.(expected)) as Hin by (apply Hd; exists p; split; [left|done]).
      rewrite He in Hin. set_solver.
    + right. apply Hd in Hk as (p & Hp & <-). exists p. by rewrite <- Hm.
Qed.

(** C36: a stalled partition does not hold the stream back for ever: once every declared
    partition that never delivered is idle, and some partition is not, reading the watermark
    yields at least the slowest non-idle partition's maximum less the lateness. *)
Theorem idle_partitions_release t now k h :
  (forall k', k' ∈ t.(expected) -> t.(maxima) !! k' = None -> is_idle t k' now = true) ->
  t.(maxima) !! k = Some h -> is_idle t k now = false ->
  exists w k0 low, (watermark t now).2 = Some w /\ t.(maxima) !! k0 = Some low /\
    is_idle t k0 now = false /\ low - t.(lateness) <= w /\
    forall k' h', t.(maxima) !! k' = Some h' -> is_idle t k' now = false -> low <= h'.
Proof.
  intros Hexp Hk Hi.
  assert (silent t now = false) as Hs.
  { apply silent_false. intros k' Hk'. destruct (t.(maxima) !! k') eqn:E; [left; eauto|right; by apply Hexp]. }
  destruct (refresh_spec t now Hs) as (low & k0 & Hk0 & Hi0 & Hmin & Hw).
  { intros Ha. assert (h ∈ active t now) as Hin by (apply elem_of_active; eauto).
    rewrite Ha in Hin. by apply not_elem_of_nil in Hin. }
  cbn [watermark snd]. rewrite Hw. destruct (t.(wm)) as [w|]; cbn; eexists _, k0, low;
    (split_and!; [done..|lia|done]).
Qed.

(** a checkpoint of the tracker restores its maxima and its watermark exactly into any
    tracker, and event time never rewinds: whatever follows, the watermark stays at or above
    the one saved.  The legacy bare integer restores as itself, even after a read. *)
Theorem restore_round_trip t t0 now evs z lateness0 timeout started :
  let r := restore t0 (Some (to_json t)) now in
  to_json r = to_json t /\
  (forall w, t.(wm) = Some w -> exists w', (run r evs).(wm) = Some w' /\ w <= w') /\
  let legacy := restore (new_tracker lateness0 timeout [] started) (Some (PInt z)) now in
  (watermark legacy now).2 = Some z.
Proof.
  cbv zeta. split_and!; [done|by intros w Hw; apply run_wm|].
  apply legacy_reads_back.
Qed.

(** *** Concrete instances *)

(** Two declared partitions; partition 1 lags. *)
Definition two_parts : list (list (option string)) := [[Some "t"; Some "0"]; [Some "t"; Some "1"]].
Definition fast : batch := Batch true [([Some "t"; Some "0"], Some 1000); ([Some "t"; Some "0"], None)].
Definition slow : batch := Batch true [([Some "t"; Some "1"], Some 400)].

Lemma two_parts_attributed :
  Forall (attributed (new_tracker 50 0 two_parts 0).(expected)) [Observe fast 1 1; Observe slow 2 2].
Proof.
  apply Forall_cons; split; [|apply Forall_cons; split; [|constructor]]; (split; [reflexivity|]);
    intros k h Hin; cbn in Hin; apply list_elem_of_singleton in Hin; simplify_eq; apply new_tracker_declared.
  - exists [Some "t"; Some "0"]. split; [left|reflexivity].
  - exists [Some "t"; Some "1"]. split; [right; left|reflexivity].
Qed.

Lemma watermark_is_slowest_witness :
  (watermark (run (new_tracker 50 0 two_parts 0) [Observe fast 1 1]) 1).2 = None /\
  (watermark (run (new_tracker 50 0 two_parts 0) [Observe fast 1 1; Observe slow 2 2]) 3).2 = Some 350 /\
  exists h, key_max (partition_key [Some "t"; Some "1"])
    (history [Observe fast 1 1; Observe slow 2 2]) = Some h /\ 350 <= h - 50.
Proof.
  split; [reflexivity|]. split; [reflexivity|].
  pose proof (watermark_is_slowest 50 0 two_parts 0 [Observe fast 1 1; Observe slow 2 2] 3
    ltac:(lia) two_parts_attributed) as H.
  replace ((watermark (run (new_tracker 50 0 two_parts 0) [Observe fast 1 1; Observe slow 2 2]) 3).2)
    with (Some 350) in H by reflexivity.
  apply (proj2 H [Some "t"; Some "1"]). right. left.
Defined.

Lemma watermark_monotone_witness :
  exists w', (run (with_wm (new_tracker 50 0 [] 0) (Some 900)) [Observe slow 1 1; Read 2]).(wm) = Some w' /\ 900 <= w'.
Proof. apply (watermark_monotone (with_wm (new_tracker 50 0 [] 0) (Some 900))). reflexivity. Defined.

(** Partition 1 never delivers; at time 12 it has been silent for the whole timeout. *)
Lemma idle_partitions_release_witness :
  let t := run (new_tracker 50 10 two_parts 0) [Observe fast 5 5] in
  (watermark t 6).2 = None /\ (watermark t 12).2 = Some 950 /\
  exists w k0 low, (watermark t 12).2 = Some w /\ t.(maxima) !! k0 = Some low /\
    is_idle t k0 12 = false /\ low - t.(lateness) <= w /\
    forall k' h', t.(maxima) !! k' = Some h' -> is_idle t k' 12 = false -> low <= h'.
Proof.
  cbv zeta. split; [reflexivity|]. split; [reflexivity|].
  apply (idle_partitions_release _ 12 (partition_key [Some "t"; Some "0"]) 1000).
  - intros k' Hk' Hn. change (k' ∈ (new_tracker 50 10 two_parts 0).(expected)) in Hk'.
    apply new_tracker_declared in Hk' as (p & Hp & <-).
    apply elem_of_cons in Hp as [->|Hp]; [vm_compute in Hn; discriminate Hn|]. apply list_elem_of_singleton in Hp as ->. vm_compute. reflexivity.
  - reflexivity.
  - reflexivity.
Defined.

End Watermark.
