(* ===== verification/WindowedFold.v ===== *)
(** * The windowed streaming aggregate: geometry, spill tier, fold

    core/streaming/folds/windowed.py ([_window_key], [_WindowedAggFold]),
    core/streaming/spill.py ([SpilledWindows]) and the [RunningAggregate] methods the fold
    uses (core/mergeable.py), over the event-time frontier of [Watermark].

    A partial-aggregate batch holds one row per group, so it is a finite map from the group
    key (the window start in microseconds, null or not, and the other keys) to the
    accumulators.  The engine enters as parameters: the input pipeline, the partial
    aggregation, the merge of two accumulators, the approximate median, the byte size, and
    the way the engine splits a filter's rows into batches ([chunks], [morsels]). *)

From S2P Require Import Prelude Watermark.

(** ** Window geometry *)

(** [WindowStart] and [WindowBuckets] as group keys. *)
Inductive geometry :=
  | Tumbling (width_micros origin_micros : Z)
  | Sliding (width_micros slide_micros : Z).

(** [eval_window_start] on one instant. *)
Definition window_start (t width origin : Z) : Z := origin + (t - origin) / width * width.

(** [eval_window_buckets] on one instant: the starts [k * slide] for
    [k_lo <= k <= k_hi]. *)
Definition window_buckets (t width slide : Z) : list Z :=
  let k_hi := t / slide in
  let k_lo := (t - width) / slide + 1 in
  map (fun i => (k_lo + Z.of_nat i) * slide) (seq 0 (Z.to_nat (k_hi - k_lo + 1))).

Definition starts (g : geometry) (t : Z) : list Z :=
  match g with
  | Tumbling width origin => [window_start t width origin]
  | Sliding width slide => window_buckets t width slide
  end.

(** [_WindowKey]'s geometry: the width and the hop of [_window_key]. *)
Definition g_width (g : geometry) : Z := match g with Tumbling w _ => w | Sliding w _ => w end.
Definition g_hop (g : geometry) : Z := match g with Tumbling w _ => w | Sliding _ s => s end.

Definition valid_geometry (g : geometry) : bool :=
  match g with Tumbling w _ => 0 <? w | Sliding w s => (0 <? w) && (0 <? s) end.

(** Window starts on the multiples of the hop. *)
Definition epoch_aligned (g : geometry) : bool :=
  match g with Tumbling w o => o mod w =? 0 | Sliding _ _ => true end.

Lemma window_start_spec t width origin :
  0 < width ->
  t - width < window_start t width origin <= t /\
  (window_start t width origin - origin) mod width = 0.
Proof.
  intros Hw. unfold window_start.
  pose proof (Z.div_mod (t - origin) width ltac:(lia)). pose proof (Z.mod_pos_bound (t - origin) width Hw).
  split; [lia|]. replace (_ - origin) with ((t - origin) / width * width) by lia. by apply Z.mod_mul; lia.
Qed.

Lemma elem_of_window_buckets t width slide s :
  0 < width -> 0 < slide ->
  s ∈ window_buckets t width slide <-> s mod slide = 0 /\ t - width < s <= t.
Proof.
  intros Hw Hs. unfold window_buckets. rewrite list_elem_of_fmap. split.
  - intros (i & -> & Hi%elem_of_seq). split; [apply Z.mod_mul; lia|].
    pose proof (Z.div_mod t slide ltac:(lia)). pose proof (Z.mod_pos_bound t slide Hs).
    pose proof (Z.div_mod (t - width) slide ltac:(lia)). pose proof (Z.mod_pos_bound (t - width) slide Hs). nia.
  - intros [Hm [Hlo Hhi]]. apply Z.mod_divide in Hm as [k ->]; [|lia].
    pose proof (Z.div_mod t slide ltac:(lia)). pose proof (Z.mod_pos_bound t slide Hs).
    pose proof (Z.div_mod (t - width) slide ltac:(lia)). pose proof (Z.mod_pos_bound (t - width) slide Hs).
    assert ((t - width) / slide < k <= t / slide) by nia.
    exists (Z.to_nat (k - (t - width) / slide - 1)). split; [f_equal; lia|]. apply elem_of_seq. lia.
Qed.

(** A row's windows contain it: none starts a width or more before it. *)
Lemma starts_contain g t s :
  valid_geometry g = true -> s ∈ starts g t -> t - g_width g < s <= t.
Proof.
  destruct g as [w o|w sl]; cbn; intros Hg Hs.
  - apply list_elem_of_singleton in Hs as ->. apply Z.ltb_lt in Hg. by apply window_start_spec.
  - apply andb_prop in Hg as [Hw%Z.ltb_lt Hsl%Z.ltb_lt]. by apply elem_of_window_buckets in Hs as [_ ?].
Qed.

Lemma starts_aligned g t s :
  valid_geometry g = true -> epoch_aligned g = true -> s ∈ starts g t -> s mod g_hop g = 0.
Proof.
  destruct g as [w o|w sl]; cbn; intros Hg Ha Hs.
  - apply list_elem_of_singleton in Hs as ->. apply Z.ltb_lt in Hg. apply Z.eqb_eq in Ha.
    destruct (window_start_spec t w o Hg) as [_ Hm].
    replace (window_start t w o) with (window_start t w o - o + o) by lia.
    by rewrite Z.add_mod, Hm, Ha by lia.
  - apply andb_prop in Hg as [Hw%Z.ltb_lt Hsl%Z.ltb_lt]. by apply elem_of_window_buckets in Hs as [? _].
Qed.

(** ** Finding the window key in the plan *)

(** The expressions a key or a projected item can be, as far as the search looks. *)
Inductive key_expr :=
  | KCol (name : string)
  | KWindowStart (width_micros origin_micros : Z)
  | KWindowBuckets (width_micros slide_micros : Z)
  | KOther.

(** The single-input spine below an aggregate; a scan, join or union has no [input]. *)
Inductive spine :=
  | Leaf
  | SProject (items : list (string * key_expr)) (input : spine)
  | SUnnest (column alias : string) (input : spine)
  | SUnary (input : spine).

Record window_key_t := WindowKey { alias : string; width : Z; hop : Z }.

(** [_find_below]. *)
Fixpoint find_below {A} (plan : spine) (matches : spine -> option A) : option A :=
  match matches plan with
  | Some a => Some a
  | None => match plan with
            | Leaf => None
            | SProject _ i | SUnnest _ _ i | SUnary i => find_below i matches
            end
  end.

Definition match_unnest (al : string) (n : spine) : option (string * spine) :=
  match n with
  | SUnnest column a input => if bool_decide (a = al) then Some (column, input) else None
  | _ => None
  end.

Definition find_item (col : string) (items : list (string * key_expr)) : option key_expr :=
  match list_find (fun it => it.1 = col) items with Some (_, it) => Some it.2 | None => None end.

Definition match_project (col : string) (n : spine) : option key_expr :=
  match n with SProject items _ => find_item col items | _ => None end.

(** [_sliding_window_key]. *)
Definition sliding_window_key (plan : spine) (key : string * key_expr) : option window_key_t :=
  match key.2 with
  | KCol name =>
      if bool_decide (name = key.1) then
        match find_below plan (match_unnest key.1) with
        | None => None
        | Some (column, input) =>
            match find_below input (match_project column) with
            | Some (KWindowBuckets w s) => Some (WindowKey key.1 w s)
            | _ => None
            end
        end
      else None
  | _ => None
  end.

Definition tumbling_window_key (key : string * key_expr) : option window_key_t :=
  match key.2 with KWindowStart w _ => Some (WindowKey key.1 w w) | _ => None end.

(** The first hit of a search over the keys in order. *)
Fixpoint first_some {A B} (f : A -> option B) (l : list A) : option B :=
  match l with [] => None | x :: l' => match f x with Some b => Some b | None => first_some f l' end end.

(** [_window_key]. *)
Definition window_key (input : spine) (group_keys : list (string * key_expr)) : option window_key_t :=
  match first_some tumbling_window_key group_keys with
  | Some k => Some k
  | None => first_some (sliding_window_key input) group_keys
  end.

(** A tumbling key is found whatever the plan below it; a sliding one through any filters
    around the explode and the projection that built the list. *)
Fixpoint under (n : nat) (p : spine) : spine := match n with O => p | S n => SUnary (under n p) end.

Lemma find_below_under {A} n p (m : spine -> option A) :
  (forall i, m (SUnary i) = None) -> find_below (under n p) m = find_below p m.
Proof. intros Hm. induction n as [|n IH]; cbn; [done|]. by rewrite Hm, IH. Qed.

Lemma window_key_found i j al col w s items inp rest :
  find_item col items = Some (KWindowBuckets w s) ->
  (forall k, k ∈ rest -> tumbling_window_key k = None) ->
  window_key (under i (SUnnest col al (under j (SProject items inp)))) ((al, KCol al) :: rest) =
    Some (WindowKey al w s).
Proof.
  intros Hf Hrest. unfold window_key. cbn [first_some tumbling_window_key snd].
  assert (first_some tumbling_window_key rest = None) as ->.
  { induction rest as [|k rest IH]; [done|]. cbn. rewrite Hrest by left. apply IH. intros k' ?. apply Hrest. by right. }
  unfold sliding_window_key. cbn [fst snd]. rewrite bool_decide_true, find_below_under by done. cbn.
  rewrite bool_decide_true, find_below_under by done. cbn. by rewrite Hf.
Qed.

(** ** Partial-aggregate batches *)

Section Partial.
Context {K M : Type} `{Countable K}.
(** The merge of two groups' accumulators. *)
Variable merge : M -> M -> M.

Abbreviation group := (option Z * K)%type.
Abbreviation partial := (gmap group M).

(** [combine(keys, aggs, partials)]: groups with the same key merge. *)
Definition combine2 (a b : partial) : partial := union_with (fun x y => Some (merge x y)) a b.
Definition combine (ps : list partial) : partial := foldr combine2 ∅ ps.

(** [wk <= lit(thr)], and [wk.is_null() | (wk > lit(thr))]. *)
Definition is_closed (thr : Z) (k : group) : bool :=
  match k.1 with Some s => s <=? thr | None => false end.
Definition is_open (thr : Z) (k : group) : bool :=
  match k.1 with None => true | Some s => thr <? s end.

Definition select (f : group -> bool) (p : partial) : partial := filter (fun kv => f kv.1 = true) p.

(** [RunningAggregate.combine_all]. *)
Definition combine_all (ps : list partial) : option partial :=
  match ps with [] => None | _ => Some (combine ps) end.

(** [RunningAggregate.absorb]. *)
Definition absorb (running : option partial) (p : partial) : option partial :=
  match running with None => Some p | Some r => Some (combine [r; p]) end.

(** ** [SpilledWindows] *)

(** One run, with the batch its file holds. *)
Record run := Run { path : nat; low : Z; high : Z; rows : nat; contents : partial }.

Record spilled := Spilled { runs : list run; seq_no : nat }.

Definition new_spill : spilled := Spilled [] 0.

(** The window starts of a batch, nulls left out. *)
Definition window_column (p : partial) : list Z := omap (fun kv => kv.1.1) (map_to_list p).

Definition min_of (l : list Z) : option Z :=
  match l with [] => None | a :: l => Some (foldl Z.min a l) end.
Definition max_of (l : list Z) : option Z :=
  match l with [] => None | a :: l => Some (foldl Z.max a l) end.

(** [_window_span]. *)
Definition window_span (p : partial) : Z * Z :=
  (default 0 (min_of (window_column p)), default 0 (max_of (window_column p))).

(** [spill]. *)
Definition spill (sp : spilled) (p : partial) : spilled :=
  if (size p =? 0)%nat then sp
  else let '(lo, hi) := window_span p in
       Spilled (sp.(runs) ++ [Run sp.(seq_no) lo hi (size p) p]) (S sp.(seq_no)).

Definition nonempty (p : partial) : bool := negb (size p =? 0)%nat.

(** [drain_through]. *)
Definition drain_through (sp : spilled) (threshold : Z) : spilled * list partial :=
  (Spilled (List.filter (fun r => threshold <? r.(low)) sp.(runs)) sp.(seq_no),
   List.filter nonempty
     (map contents (List.filter (fun r => negb (threshold <? r.(low))) sp.(runs)))).

(** [iter_runs]. *)
Definition iter_runs (sp : spilled) : list partial := List.filter nonempty (map contents sp.(runs)).

(** [drain_all]. *)
Definition drain_all (sp : spilled) : spilled * list partial := (Spilled [] sp.(seq_no), iter_runs sp).

(** [rows]. *)
Definition spill_rows (sp : spilled) : nat := sum_list (map rows sp.(runs)).

(** [close]. *)
Definition spill_close (sp : spilled) : spilled := Spilled [] sp.(seq_no).
End Partial.
#[global] Arguments combine2 {K M _ _} merge a b : simpl never.
#[global] Arguments select {K M _ _} f p : simpl never.

(** ** [_WindowedAggFold] *)

(** The engine, the plan and the configuration a fold is built with.  [Row] is a source row,
    [Proj] a row of the input pipeline's output, [K] the group keys beside the window, [M]
    the accumulators, [V] the finalized aggregates. *)
Record window_engine (Row Proj K M V : Type) `{Countable K} := WindowEngine {
  geom : geometry;
  merge : M -> M -> M;
  finalize_group : M -> V;
  (* [execute_plan] of the aggregate's input, after [_narrow] *)
  execute_input : list Row -> list (list Proj);
  partial_aggregate : list Proj -> gmap (option Z * K) M;
  (* the batches in which [execute_plan] returns a filter's rows, over rows and over state *)
  chunk_rows : list Row -> list (list Row);
  chunk_proj : list Proj -> list (list Proj);
  morsels : gmap (option Z * K) M -> list (gmap (option Z * K) M);
  approximate_median : list Z -> option Z;
  retained_bytes : gmap (option Z * K) M -> Z;
  (* event time in microseconds and partition columns, before and after the pipeline *)
  row_time : Row -> option Z;
  row_partition : Row -> list (option string);
  proj_time : Proj -> option Z;
  proj_partition : Proj -> list (option string);
  proj_present : bool;
  (* [memory.streaming_state_budget_bytes()] *)
  cap : Z;
}.
Arguments WindowEngine {Row Proj K M V _ _}.
Arguments geom {Row Proj K M V _ _}.
Arguments merge {Row Proj K M V _ _}.
Arguments finalize_group {Row Proj K M V _ _}.
Arguments execute_input {Row Proj K M V _ _}.
Arguments partial_aggregate {Row Proj K M V _ _}.
Arguments chunk_rows {Row Proj K M V _ _}.
Arguments chunk_proj {Row Proj K M V _ _}.
Arguments morsels {Row Proj K M V _ _}.
Arguments approximate_median {Row Proj K M V _ _}.
Arguments retained_bytes {Row Proj K M V _ _}.
Arguments row_time {Row Proj K M V _ _}.
Arguments row_partition {Row Proj K M V _ _}.
Arguments proj_time {Row Proj K M V _ _}.
Arguments proj_partition {Row Proj K M V _ _}.
Arguments proj_present {Row Proj K M V _ _}.
Arguments cap {Row Proj K M V _ _}.

Record source_batch (Row : Type) := SourceBatch {
  has_time : bool;      (* the event-time column is in the source batch *)
  has_partition : bool; (* some partition column is *)
  batch_rows : list Row;
}.
Arguments SourceBatch {Row}.
Arguments has_time {Row}.
Arguments has_partition {Row}.
Arguments batch_rows {Row}.

(** The fold's fields. *)
Record fold (K M : Type) `{Countable K} := Fold {
  running : option (gmap (option Z * K) M);
  tracker : Watermark.tracker;
  wm : option Z;
  evicted_through : option Z;
  evicted_micros : option Z;
  delta : list (gmap (option Z * K) M);
  late_dropped : Z;
  removed : Z;
  updated : Z;
  spill_tier : option (@spilled K M _ _);
  spilled_rows : nat;
}.
Arguments Fold {K M _ _}.
Arguments running {K M _ _}.
Arguments tracker {K M _ _}.
Arguments wm {K M _ _}.
Arguments evicted_through {K M _ _}.
Arguments evicted_micros {K M _ _}.
Arguments delta {K M _ _}.
Arguments late_dropped {K M _ _}.
Arguments removed {K M _ _}.
Arguments updated {K M _ _}.
Arguments spill_tier {K M _ _}.
Arguments spilled_rows {K M _ _}.

Section Fold.
Context {Row Proj K M V : Type} `{Countable K}.
Variable E : window_engine Row Proj K M V.

Abbreviation partial := (gmap (option Z * K) M).
Abbreviation result := (gmap (option Z * K) V).
Abbreviation fold := (fold K M).
Abbreviation source_batch := (source_batch Row).
Abbreviation width := (g_width E.(geom)).
Abbreviation hop := (g_hop E.(geom)).
Abbreviation combine := (combine E.(merge)).
Abbreviation combine_all := (combine_all E.(merge)).

(** [__init__]. *)
Definition new_fold (t : Watermark.tracker) : fold :=
  Fold None t None None None [] 0 0 0 None 0.

Definition set_running (f : fold) (r : option partial) : fold :=
  Fold r f.(tracker) f.(wm) f.(evicted_through) f.(evicted_micros) f.(delta) f.(late_dropped)
    f.(removed) f.(updated) f.(spill_tier) f.(spilled_rows).
Definition set_spill (f : fold) (sp : option (@spilled K M _ _)) (n : nat) : fold :=
  Fold f.(running) f.(tracker) f.(wm) f.(evicted_through) f.(evicted_micros) f.(delta)
    f.(late_dropped) f.(removed) f.(updated) sp n.
Definition set_frontier (f : fold) (t : Watermark.tracker) (w : option Z) : fold :=
  Fold f.(running) t w f.(evicted_through) f.(evicted_micros) f.(delta) f.(late_dropped)
    f.(removed) f.(updated) f.(spill_tier) f.(spilled_rows).
Definition set_evicted (f : fold) (through micros : option Z) : fold :=
  Fold f.(running) f.(tracker) f.(wm) through micros f.(delta) f.(late_dropped)
    f.(removed) f.(updated) f.(spill_tier) f.(spilled_rows).
Definition set_delta (f : fold) (d : list partial) : fold :=
  Fold f.(running) f.(tracker) f.(wm) f.(evicted_through) f.(evicted_micros) d f.(late_dropped)
    f.(removed) f.(updated) f.(spill_tier) f.(spilled_rows).
Definition set_counts (f : fold) (l r u : Z) : fold :=
  Fold f.(running) f.(tracker) f.(wm) f.(evicted_through) f.(evicted_micros) f.(delta) l r u
    f.(spill_tier) f.(spilled_rows).

(** [RunningAggregate.nbytes]. *)
Definition nbytes (r : option partial) : Z :=
  match r with None => 0 | Some p => E.(retained_bytes) p end.

(** The non-empty batches of [execute_plan(filter(scan), [[p]])]. *)
Definition engine_filter (f : option Z * K -> bool) (p : partial) : list partial :=
  List.filter nonempty (E.(morsels) (select f p)).

(** [RunningAggregate.finalize_partials]. *)
Definition finalize_partials (ps : list partial) : option result :=
  match ps with
  | [] => None
  | _ => let r := E.(finalize_group) <$> combine ps in if (size r =? 0)%nat then None else Some r
  end.

(** [RunningAggregate.finalize] and [take]. *)
Definition finalize (r : option partial) : option result :=
  match r with None => None | Some p => finalize_partials [p] end.

(** [_median_window]. *)
Definition median_window (p : partial) : option Z :=
  match window_column p with [] => None | l => E.(approximate_median) l end.

Inductive pass := Stop | Moved (f : fold).

(** One pass of [_spill_cold_windows] over a state above the target. *)
Definition spill_pass (f : fold) : pass :=
  match f.(running) with
  | None => Stop
  | Some state =>
      if (size state <=? 1)%nat then Stop
      else match median_window state with
           | None => Stop
           | Some split =>
               let cold := engine_filter (is_closed split) state in
               let hot := engine_filter (is_open split) state in
               match cold, hot with
               | [], _ | _, [] => Stop
               | _, _ =>
                   let sp := foldl spill (default new_spill f.(spill_tier)) cold in
                   Moved (set_spill (set_running f (combine_all hot)) (Some sp) (spill_rows sp))
               end
           end
  end.

(** [_spill_cold_windows]; [None] when the fuel runs out. *)
Fixpoint spill_loop (fuel : nat) (f : fold) : option fold :=
  match fuel with
  | O => None
  | S fuel =>
      if E.(cap) / 2 <? nbytes f.(running) then
        match spill_pass f with Stop => Some f | Moved f' => spill_loop fuel f' end
      else Some f
  end.

(** The rows of the resident state, with one pass to find nothing left to move. *)
Definition spill_fuel (f : fold) : nat := S (match f.(running) with None => 0 | Some p => size p end).

(** [_check_state_bounded]. *)
Definition check_state_bounded (f : fold) : res fold :=
  match (if E.(cap) <? nbytes f.(running) then spill_loop (spill_fuel f) f else Some f) with
  | None => Raise "fuel"
  | Some f => if E.(cap) <? nbytes f.(running) then Raise "ResourceError" else Ok f
  end.

(** [_evict]. *)
Definition evict (f : fold) : fold * list result :=
  match f.(running), f.(wm) with
  | None, _ | _, None => (f, [])
  | Some state, Some w =>
      let threshold := w - width in
      let bucket := threshold / hop in
      if bool_decide (f.(evicted_through) = Some bucket) then (f, [])
      else
        let f := set_evicted f (Some bucket) (Some threshold) in
        let '(f, drained) :=
          match f.(spill_tier) with
          | None => (f, [])
          | Some sp => let '(sp, bs) := drain_through sp threshold in
                       (set_spill f (Some sp) (spill_rows sp), bs)
          end in
        let sources := state :: drained in
        let closed := concat (map (engine_filter (is_closed threshold)) sources) in
        let opened := concat (map (engine_filter (is_open threshold)) sources) in
        let f := set_counts f f.(late_dropped) (Z.of_nat (sum_list (map size closed))) f.(updated) in
        let f := set_running f (combine_all opened) in
        (f, option_list (finalize_partials closed))
  end.

(** The late-row predicate: at or above the watermark, and not null. *)
Definition on_time (w : Z) (t : option Z) : bool :=
  match t with Some t => w <=? t | None => false end.

(** [RunningAggregate.push] over the batches of one pipeline run, and what [push] records. *)
Definition fold_in (f : fold) (ps : list (list Proj)) : fold :=
  let n := Z.of_nat (sum_list (map length ps)) in
  let f := if n =? 0 then f
           else let p := E.(partial_aggregate) (concat ps) in
                set_delta (set_running f (absorb E.(merge) f.(running) p)) (f.(delta) ++ [p]) in
  set_counts f f.(late_dropped) f.(removed) (f.(updated) + n).

Definition to_watermark {A} (present : bool) (part : A -> list (option string)) (time : A -> option Z)
    (l : list A) : Watermark.batch :=
  Watermark.Batch present (map (fun r => (part r, time r)) l).

(** [push] with the event-time column in the source batch; [now] gives the readings of the
    clock in order. *)
Definition push_direct (f : fold) (b : source_batch) (now : nat -> Z) : res (fold * list result) :=
  let '(t, w) := Watermark.watermark f.(tracker) (now 0%nat) in
  let kept := match w with
              | None => [b.(batch_rows)]
              | Some w => E.(chunk_rows) (List.filter (fun r => on_time w (E.(row_time) r)) b.(batch_rows))
              end in
  let late := match w with
              | None => 0
              | Some _ => Z.of_nat (length b.(batch_rows)) - Z.of_nat (sum_list (map length kept))
              end in
  let t := Watermark.observe t (to_watermark b.(has_partition) E.(row_partition) E.(row_time) b.(batch_rows))
             (now 1%nat) (now 2%nat) in
  let '(t, w) := Watermark.watermark t (now 3%nat) in
  let f := set_frontier (set_counts f late 0 0) t w in
  let f := foldl (fun f r => match r with [] => f | _ => fold_in f (E.(execute_input) r) end) f kept in
  let '(f, out) := evict f in
  let* f := check_state_bounded f in Ok (f, out).

(** [_push_derived]. *)
Definition push_derived (f : fold) (b : source_batch) (now : nat -> Z) : res (fold * list result) :=
  let '(t, w) := Watermark.watermark f.(tracker) (now 0%nat) in
  let projected := List.filter (fun p => negb (length p =? 0)%nat) (E.(execute_input) b.(batch_rows)) in
  let kept := match w with
              | None => projected
              | Some w => List.filter (fun p => negb (length p =? 0)%nat)
                  (concat (map (fun p => E.(chunk_proj) (List.filter (fun r => on_time w (E.(proj_time) r)) p)) projected))
              end in
  let late := match w with
              | None => 0
              | Some _ => Z.of_nat (sum_list (map length projected)) - Z.of_nat (sum_list (map length kept))
              end in
  let t := foldl (fun t ip => Watermark.observe t
                    (to_watermark E.(proj_present) E.(proj_partition) E.(proj_time) ip.2)
                    (now (2 * ip.1 + 1)%nat) (now (2 * ip.1 + 2)%nat)) t (py_enumerate projected) in
  let '(t, w) := Watermark.watermark t (now (2 * length projected + 1)%nat) in
  let f := set_frontier (set_counts f late 0 0) t w in
  let f := match kept with [] => f | _ => fold_in f kept end in
  let '(f, out) := evict f in
  let* f := check_state_bounded f in Ok (f, out).

(** [push]. *)
Definition push (f : fold) (b : source_batch) (now : nat -> Z) : res (fold * list result) :=
  let f := set_delta (set_counts f 0 0 0) [] in
  match b.(batch_rows) with
  | [] => Ok (f, [])
  | _ => if b.(has_time) then push_direct f b now else push_derived f b now
  end.

(** [_resident]. *)
Definition resident (f : fold) : list partial := option_list f.(running).

(** [flush]. *)
Definition flush (f : fold) : fold * option result :=
  let f := match f.(spill_tier) with
           | None => f
           | Some sp => set_spill (set_running f (combine_all (resident f ++ (drain_all sp).2))) None 0
           end in
  (set_running f None, finalize f.(running)).

(** [close]. *)
Definition close (f : fold) : fold :=
  match f.(spill_tier) with None => f | Some _ => set_spill f None 0 end.

(** [metrics]. *)
Record metrics_t := Metrics {
  num_rows_total : Z; num_rows_updated : Z; num_rows_removed : Z;
  memory_used_bytes : Z; num_late_inputs_dropped : Z; watermark_micros : option Z;
}.

Definition metrics (f : fold) : metrics_t :=
  {| num_rows_total := Z.of_nat (match f.(running) with None => 0 | Some p => size p end + f.(spilled_rows));
     num_rows_updated := f.(updated);
     num_rows_removed := f.(removed);
     memory_used_bytes := nbytes f.(running);
     num_late_inputs_dropped := f.(late_dropped);
     watermark_micros := f.(wm) |}.

(** *** Checkpoints *)

(** A checkpointed batch: its rows ([None] for the zero-column batch) and the two entries of
    its schema metadata. *)
Record part := Part {
  part_rows : option partial;
  meta_watermark : option Watermark.payload;
  meta_evicted : option Z;
}.

(** [_meta] on a batch. *)
Definition with_meta (f : fold) (p : option partial) : part :=
  Part p (Some (Watermark.to_json f.(tracker))) f.(evicted_micros).

(** [state]. *)
Definition state (f : fold) : option part :=
  match f.(running), f.(wm) with
  | None, None => None
  | r, _ => Some (with_meta f r)
  end.

(** [take_delta]: reading consumes it. *)
Definition take_delta (f : fold) : fold * option part :=
  (set_delta f [],
   match f.(delta) with
   | [] => None
   | [d] => Some (with_meta f (Some d))
   | ds => Some (with_meta f (Some (combine ds)))
   end).

(** [state_parts]. *)
Definition state_parts (f : fold) : list part :=
  option_list (state f) ++
  match f.(spill_tier) with
  | None => []
  | Some sp => map (fun p => Part (Some p) None None) (iter_runs sp)
  end.

(** [_drop_evicted]. *)
Definition drop_evicted (f : fold) (threshold : Z) : fold :=
  match f.(running) with
  | None => f
  | Some st => set_running f (combine_all (engine_filter (is_open threshold) st))
  end.

(** [restore_parts], with the clock readings of [restore] and of [watermark]. *)
Definition restore_parts (f : fold) (parts : list part) (now now' : Z) : res fold :=
  let raw := first_some meta_watermark parts in
  let '(t, w) := Watermark.watermark (Watermark.restore f.(tracker) raw now) now' in
  let f := set_evicted (set_frontier f t w) None f.(evicted_micros) in
  let evicted := first_some meta_evicted (rev parts) in
  let rows := List.filter nonempty (omap part_rows parts) in
  let f := set_running f (combine_all rows) in
  let f := match evicted with
           | None => f
           | Some e => let f := drop_evicted (set_evicted f f.(evicted_through) (Some e)) e in
                       set_evicted f (Some (e / hop)) f.(evicted_micros)
           end in
  match rows with [] => Ok f | _ => check_state_bounded f end.

(** *** A stream of micro-batches *)

Fixpoint pushes (f : fold) (bs : list (source_batch * (nat -> Z))) : res (fold * list (list result)) :=
  match bs with
  | [] => Ok (f, [])
  | (b, now) :: bs =>
      let* r := push f b now in
      let* r' := pushes r.1 bs in Ok (r'.1, r.2 :: r'.2)
  end.

(** [stream_windowed_aggregate]: every batch, then the flush. *)
Definition windowed_stream (t : Watermark.tracker) (bs : list (source_batch * (nat -> Z))) : res (list result) :=
  let* r := pushes (new_fold t) bs in
  Ok (concat r.2 ++ option_list (flush r.1).2).
End Fold.
