(* ===== verification/WindowedFoldSound.v ===== *)
(** * The windowed streaming aggregate is exact

    Theorems about [WindowedFold]: the fold with its spill tier and its skipped sweeps
    refines a specification that keeps every open window in memory and closes windows on
    every batch; what a stream emits is each group of the on-time rows' aggregate once; a
    snapshot restores to a fold that goes on emitting what the original would. *)

From S2P Require Import Prelude Watermark WindowedFold.

(** ** The algebra of partial states *)

Section PartialLaws.
Context {K M : Type} `{Countable K}.
Variable merge : M -> M -> M.
Context `{!Comm (=) merge, !Assoc (=) merge}.

Abbreviation partial := (gmap (option Z * K) M).
Abbreviation combine2 := (combine2 (K:=K) merge).
Abbreviation combine := (combine (K:=K) merge).

(** The group has a row in the batch. *)
Definition has (p : partial) (k : option Z * K) : Prop := is_Some (p !! k).

Lemma lookup_combine2 a b k :
  combine2 a b !! k = union_with (fun x y => Some (merge x y)) (a !! k) (b !! k).
Proof. unfold WindowedFold.combine2. by rewrite lookup_union_with. Qed.

#[global] Instance combine2_comm : Comm (=) combine2.
Proof.
  intros a b. apply map_eq. intros k. rewrite !lookup_combine2.
  destruct (a !! k), (b !! k); cbn; try done. by rewrite (comm merge).
Qed.

#[global] Instance combine2_assoc : Assoc (=) combine2.
Proof.
  intros a b c. apply map_eq. intros k. rewrite !lookup_combine2.
  destruct (a !! k), (b !! k), (c !! k); cbn; try done. by rewrite (assoc merge).
Qed.

#[global] Instance combine2_left_id : LeftId (=) ∅ combine2.
Proof. intros a. apply map_eq. intros k. rewrite lookup_combine2, lookup_empty. by destruct (a !! k). Qed.

#[global] Instance combine2_right_id : RightId (=) ∅ combine2.
Proof. intros a. rewrite (comm combine2). apply (left_id ∅ combine2). Qed.

Lemma has_combine2 a b k : has (combine2 a b) k <-> has a k \/ has b k.
Proof.
  unfold has. rewrite lookup_combine2. destruct (a !! k), (b !! k); cbn; split; try tauto;
    try (intros _; eauto); intros [[? [=]]|[? [=]]].
Qed.

Lemma has_empty k : ~ has ∅ k.
Proof. unfold has. rewrite lookup_empty. by intros [? ?]. Qed.

Lemma combine_cons p ps : combine (p :: ps) = combine2 p (combine ps).
Proof. done. Qed.

Lemma combine_one p : combine [p] = p.
Proof. cbn. apply (right_id ∅ combine2). Qed.

Lemma combine_app a b : combine (a ++ b) = combine2 (combine a) (combine b).
Proof.
  induction a as [|p a IH]; cbn [app]; [symmetry; apply (left_id ∅ combine2)|].
  by rewrite !combine_cons, IH, (assoc combine2).
Qed.

Lemma combine_perm a b : a ≡ₚ b -> combine a = combine b.
Proof.
  induction 1 as [|p a b _ IH|p q a|a b c _ IH1 _ IH2]; [done|by rewrite !combine_cons, IH| |congruence].
  by rewrite !combine_cons, !(assoc combine2), (comm combine2 q p).
Qed.

Lemma has_combine ps k : has (combine ps) k <-> exists p, p ∈ ps /\ has p k.
Proof.
  induction ps as [|p ps IH]; [|rewrite combine_cons, has_combine2, IH].
  - split; [by intros ?%has_empty|by intros (p & Hp%not_elem_of_nil & _)].
  - split.
    + intros [?|(q & ? & ?)]; [exists p; by split; [left|]|exists q; by split; [right|]].
    + intros (q & [->|?]%elem_of_cons & ?); [by left|right; eauto].
Qed.

Lemma nonempty_false p : nonempty p = false <-> (p : partial) = ∅.
Proof.
  unfold nonempty. rewrite negb_false_iff, Nat.eqb_eq. apply map_size_empty_iff.
Qed.

Lemma nonempty_true p : nonempty p = true <-> exists k, has p k.
Proof.
  rewrite <- not_false_iff_true, nonempty_false. split.
  - intros (k & v & Hk)%map_choose. exists k. by exists v.
  - intros (k & Hk) ->. by apply has_empty in Hk.
Qed.

Lemma combine_nonempty ps : combine (List.filter nonempty ps) = combine ps.
Proof.
  induction ps as [|p ps IH]; [done|]. cbn [List.filter]. destruct (nonempty p) eqn:Hp.
  - by rewrite !combine_cons, IH.
  - apply nonempty_false in Hp as ->. by rewrite combine_cons, IH, (left_id ∅ combine2).
Qed.

(** *** Selections *)

Lemma lookup_select (f : option Z * K -> bool) (p : partial) k : select f p !! k = if f k then p !! k else None.
Proof.
  unfold select. destruct (f k) eqn:Hf, (p !! k) as [v|] eqn:Hp.
  - by apply map_lookup_filter_Some.
  - apply map_lookup_filter_None. by left.
  - apply map_lookup_filter_None. right. cbn. intros ? _. by rewrite Hf.
  - apply map_lookup_filter_None. by left.
Qed.

Lemma has_select (f : option Z * K -> bool) p k : has (select f p) k <-> f k = true /\ has p k.
Proof.
  unfold has. rewrite lookup_select. destruct (f k); [tauto|]. split; [by intros [? [=]]|by intros [[=] _]].
Qed.

Lemma select_combine2 (f : option Z * K -> bool) a b : select f (combine2 a b) = combine2 (select f a) (select f b).
Proof. apply map_eq. intros k. rewrite lookup_select, !lookup_combine2, !lookup_select. by destruct (f k). Qed.

Lemma select_empty (f : option Z * K -> bool) : select f (∅ : partial) = ∅.
Proof. apply map_eq. intros k. rewrite lookup_select, lookup_empty. by destruct (f k). Qed.

Lemma select_combine (f : option Z * K -> bool) ps : select f (combine ps) = combine (map (select f) ps).
Proof.
  induction ps as [|p ps IH]; [apply select_empty|]. cbn [map].
  by rewrite !combine_cons, select_combine2, IH.
Qed.

Lemma select_all (f : option Z * K -> bool) p : (forall k, has p k -> f k = true) -> select f p = p.
Proof.
  intros Hf. apply map_eq. intros k. rewrite lookup_select.
  destruct (p !! k) eqn:Hp; [|by destruct (f k)]. rewrite Hf; [done|]. by eexists.
Qed.

Lemma select_none (f : option Z * K -> bool) p : (forall k, has p k -> f k = false) -> select f p = ∅.
Proof.
  intros Hf. apply map_eq. intros k. rewrite lookup_select, lookup_empty.
  destruct (p !! k) eqn:Hp; [|by destruct (f k)]. rewrite Hf; [done|]. by eexists.
Qed.

Lemma is_open_closed thr (k : option Z * K) : is_open thr k = negb (is_closed thr k).
Proof. unfold is_open, is_closed. destruct k.1 as [s|]; [|done]. apply Z.ltb_antisym. Qed.

Lemma is_open_spec thr (k : option Z * K) : is_open thr k = true <-> forall s, k.1 = Some s -> thr < s.
Proof.
  unfold is_open. destruct k.1 as [s|]; [|by split]. rewrite Z.ltb_lt.
  split; [by intros ? ? [= <-]|by intros Hk; apply Hk].
Qed.

Lemma split_select (thr : Z) (p : partial) : combine2 (select (is_closed thr) p) (select (is_open thr) p) = p.
Proof.
  apply map_eq. intros k. rewrite lookup_combine2, !lookup_select, is_open_closed.
  destruct (is_closed thr k); cbn; by destruct (p !! k).
Qed.

Lemma split_disjoint (thr : Z) (p : partial) : select (is_closed thr) p ##ₘ select (is_open thr) p.
Proof.
  intros k. rewrite !lookup_select, is_open_closed. destruct (is_closed thr k); cbn; by destruct (p !! k).
Qed.

(** Disjoint states combine by union. *)
Lemma combine2_union a b : a ##ₘ b -> combine2 a b = a ∪ b.
Proof.
  intros Hd. apply map_eq. intros k. rewrite lookup_combine2, lookup_union. specialize (Hd k).
  destruct (a !! k), (b !! k); done.
Qed.

(** Splitting a list of batches by a test. *)
Lemma combine_select_split {A} (f : A -> bool) (g : A -> partial) l :
  combine2 (combine (map g (List.filter f l))) (combine (map g (List.filter (fun x => negb (f x)) l))) =
  combine (map g l).
Proof.
  induction l as [|x l IH]; [apply (left_id ∅ combine2)|]. cbn [List.filter map].
  destruct (f x); cbn [negb map]; rewrite !combine_cons, <- IH, ?(assoc combine2); [done|].
  by rewrite (comm combine2 (combine _) (g x)).
Qed.

Lemma combine_all_default ps : combine (option_list (combine_all merge ps)) = combine ps.
Proof. destruct ps; [done|]. apply combine_one. Qed.

Lemma absorb_spec r p : combine (option_list (absorb merge r p)) = combine2 (combine (option_list r)) p.
Proof.
  destruct r as [r|]; cbn; [by rewrite !(right_id ∅ combine2)|apply (comm combine2)].
Qed.

(** *** Runs *)

Lemma elem_of_window_column (p : partial) s : s ∈ window_column p <-> exists k, has p k /\ k.1 = Some s.
Proof.
  unfold window_column. rewrite list_elem_of_omap. split.
  - intros ([k v] & Hk%elem_of_map_to_list & Hs). exists k. split; [by exists v|done].
  - intros (k & [v Hv] & Hs). exists (k, v). split; [by apply elem_of_map_to_list|done].
Qed.

Lemma foldl_min_le a l x : x ∈ a :: l -> foldl Z.min a l <= x.
Proof. by apply (Watermark.min_list_spec a l). Qed.

Lemma foldl_max_ge a l x : x ∈ a :: l -> x <= foldl Z.max a l.
Proof.
  revert a x. induction l as [|b l IH]; intros a x Hx; cbn [foldl].
  - apply list_elem_of_singleton in Hx as ->. lia.
  - pose proof (IH (Z.max a b) (Z.max a b) (list_elem_of_here _ _)).
    apply elem_of_cons in Hx as [->|[->|Hx]%elem_of_cons]; [lia|lia|].
    apply IH. by right.
Qed.

Definition run_ok (r : @run K M _ _) : Prop :=
  nonempty r.(contents) = true /\ r.(rows) = size r.(contents) /\
  forall k, has r.(contents) k -> exists s, k.1 = Some s /\ r.(low) <= s <= r.(high).

Lemma run_ok_range r : run_ok r -> r.(low) <= r.(high).
Proof. intros (Hn & _ & Hr). apply nonempty_true in Hn as (k & Hk). destruct (Hr k Hk) as (s & _ & ?). lia. Qed.

Lemma window_span_ok (p : partial) k s :
  has p k -> k.1 = Some s -> (window_span p).1 <= s <= (window_span p).2.
Proof.
  intros Hk Hs. assert (s ∈ window_column p) as Hin by (apply elem_of_window_column; eauto).
  unfold window_span. cbn. destruct (window_column p) as [|a l]; [by apply not_elem_of_nil in Hin|]. cbn.
  split; [by apply foldl_min_le|by apply foldl_max_ge].
Qed.

(** What spilling cold batches, none with a null window, leaves on disk. *)
Lemma spill_all_spec (sp : @spilled K M _ _) ps hi :
  Forall run_ok sp.(runs) ->
  (forall p k, p ∈ ps -> has p k -> exists s, k.1 = Some s /\ s <= hi) ->
  let sp' := foldl spill sp ps in
  exists new, sp'.(runs) = sp.(runs) ++ new /\ Forall run_ok sp'.(runs) /\
    map contents new = List.filter nonempty ps /\ forall r, r ∈ new -> r.(high) <= hi.
Proof.
  revert sp. induction ps as [|p ps IH]; intros sp Hok Hps; cbn [foldl List.filter].
  { exists []. rewrite app_nil_r. split_and!; [done..|]. by intros r Hr%not_elem_of_nil. }
  destruct (nonempty p) eqn:Hn; unfold nonempty in Hn.
  - apply negb_true_iff in Hn. destruct (window_span p) as [lo h] eqn:Hspan.
    set (r := Run sp.(seq_no) lo h (size p) p). set (sp1 := Spilled (sp.(runs) ++ [r]) (S sp.(seq_no))).
    assert (spill sp p = sp1) as -> by (unfold spill; by rewrite Hn, Hspan).
    assert (forall k, has p k -> exists s, k.1 = Some s /\ lo <= s <= h) as Hr.
    { intros k Hk. destruct (Hps p k ltac:(by left) Hk) as (s & Hs & _). exists s. split; [done|].
      pose proof (window_span_ok p k s Hk Hs) as Hb. by rewrite Hspan in Hb. }
    assert (nonempty p = true) as Hne by (unfold nonempty; by rewrite Hn).
    assert (h <= hi) as Hh.
    { apply nonempty_true in Hne as (k0 & Hk0). unfold window_span in Hspan. injection Hspan as _ Hmax.
      destruct (Hps p k0 ltac:(by left) Hk0) as (s0 & Hs0 & _).
      assert (s0 ∈ window_column p) as Hin by (apply elem_of_window_column; eauto).
      destruct (window_column p) as [|a l] eqn:Hcol; [by apply not_elem_of_nil in Hin|]. cbn in Hmax. subst h.
      assert (forall x, x ∈ a :: l -> x <= hi) as Hle.
      { intros x Hx. rewrite <- Hcol in Hx. apply elem_of_window_column in Hx as (k & Hk & Hs).
        destruct (Hps p k ltac:(by left) Hk) as (s & ? & ?). by replace x with s by congruence. }
      clear -Hle. revert a Hle. induction l as [|b l IH]; intros a Hle; cbn; [apply Hle; by left|].
      apply IH. intros x [->|Hx]%elem_of_cons; [|apply Hle; by do 2 right].
      apply Z.max_lub; apply Hle; [by left|by right; left]. }
    destruct (IH sp1) as (new & H1 & H2 & H3 & H4).
    { unfold sp1. cbn. apply Forall_app. split; [done|]. by apply Forall_singleton. }
    { intros q k Hq. apply Hps. by right. }
    exists (r :: new). split_and!; [|done|cbn; by rewrite H3|].
    { rewrite H1. unfold sp1. cbn. by rewrite <- app_assoc. }
    intros r' [->|?]%elem_of_cons; [done|by apply H4].
  - apply negb_false_iff in Hn. assert (spill sp p = sp) as -> by (unfold spill; by rewrite Hn). apply IH; [done|]. intros q k Hq. apply Hps. by right.
Qed.
End PartialLaws.

(** ** What the engine owes the fold, and the specification *)

(** The rows of one run of the input pipeline. *)
Definition pipeline {Row Proj K M V : Type} `{Countable K} (E : window_engine Row Proj K M V)
    (rows : list Row) : list Proj := concat (E.(execute_input) rows).

(** The contract of the engine: merging is associative and commutative, a filter's batches
    hold its rows, the pipeline is row-wise and keeps the event time, and a row is counted
    only in windows that contain it. *)
Class WindowEngineLaws {Row Proj K M V : Type} `{Countable K} (E : window_engine Row Proj K M V) : Prop := {
  wl_geom : valid_geometry E.(geom) = true;
  wl_comm :: Comm (=) E.(merge);
  wl_assoc :: Assoc (=) E.(merge);
  wl_chunk_rows : forall l, concat (E.(chunk_rows) l) = l;
  wl_chunk_proj : forall l, concat (E.(chunk_proj) l) = l;
  wl_morsels : forall p, combine E.(merge) (E.(morsels) p) = p;
  wl_pipeline_app : forall a b, pipeline E (a ++ b) = pipeline E a ++ pipeline E b;
  wl_pipeline_time : forall l p, p ∈ pipeline E l -> exists r, r ∈ l /\ E.(row_time) r = E.(proj_time) p;
  wl_partial_nil : E.(partial_aggregate) [] = ∅;
  wl_partial_app : forall a b, E.(partial_aggregate) (a ++ b) =
    combine2 E.(merge) (E.(partial_aggregate) a) (E.(partial_aggregate) b);
  wl_partial_starts : forall ps k s, has (E.(partial_aggregate) ps) k -> k.1 = Some s ->
    exists p t, p ∈ ps /\ E.(proj_time) p = Some t /\ s ∈ starts E.(geom) t;
}.

Section Sound.
Context {Row Proj K M V : Type} `{Countable K}.
Variable E : window_engine Row Proj K M V.
Context `{!WindowEngineLaws E}.

Abbreviation partial := (gmap (option Z * K) M).
Abbreviation result := (gmap (option Z * K) V).
Abbreviation fold := (fold K M).
Abbreviation source_batch := (source_batch Row).
Abbreviation width := (g_width E.(geom)).
Abbreviation hop := (g_hop E.(geom)).
Abbreviation combine := (combine E.(merge)).
Abbreviation combine2 := (combine2 E.(merge)).

(** The rows at or above a frontier; all of them before there is one. *)
Definition admitted {A} (time : A -> option Z) (w : option Z) (l : list A) : list A :=
  match w with None => l | Some w => List.filter (fun r => on_time w (time r)) l end.

(** What a micro-batch does to event time, and the pipeline rows it contributes: its rows
    that are not late against the frontier read when it arrives. *)
Definition arrive (t : Watermark.tracker) (b : source_batch) (now : nat -> Z)
    : Watermark.tracker * option Z * list Proj :=
  let '(t, w) := Watermark.watermark t (now 0%nat) in
  if b.(has_time) then
    let t := Watermark.observe t (to_watermark b.(has_partition) E.(row_partition) E.(row_time) b.(batch_rows))
               (now 1%nat) (now 2%nat) in
    (Watermark.watermark t (now 3%nat), pipeline E (admitted E.(row_time) w b.(batch_rows)))
  else
    let projected := List.filter (fun p => negb (length p =? 0)%nat) (E.(execute_input) b.(batch_rows)) in
    let t := foldl (fun t ip => Watermark.observe t
                      (to_watermark E.(proj_present) E.(proj_partition) E.(proj_time) ip.2)
                      (now (2 * ip.1 + 1)%nat) (now (2 * ip.1 + 2)%nat)) t (py_enumerate projected) in
    (Watermark.watermark t (now (2 * length projected + 1)%nat), admitted E.(proj_time) w (concat projected)).

(** The specification: a frontier and every open window, closed windows leaving on every
    batch. *)
Record spec := Spec { s_tracker : Watermark.tracker; s_open : partial }.

Definition emit (p : partial) : list result :=
  if (size p =? 0)%nat then [] else [E.(finalize_group) <$> p].

Definition spec_push (s : spec) (b : source_batch) (now : nat -> Z) : spec * list result :=
  match b.(batch_rows) with
  | [] => (s, [])
  | _ =>
      let '(t, w, ps) := arrive s.(s_tracker) b now in
      let all := combine2 s.(s_open) (E.(partial_aggregate) ps) in
      match w with
      | None => (Spec t all, [])
      | Some w => (Spec t (select (is_open (w - width)) all), emit (select (is_closed (w - width)) all))
      end
  end.

Fixpoint spec_pushes (s : spec) (bs : list (source_batch * (nat -> Z))) : spec * list (list result) :=
  match bs with
  | [] => (s, [])
  | (b, now) :: bs => let '(s, out) := spec_push s b now in
                      let '(s, outs) := spec_pushes s bs in (s, out :: outs)
  end.

(** ** The invariant of the fold *)

Definition spilled_parts (f : fold) : list partial :=
  match f.(spill_tier) with None => [] | Some sp => map contents sp.(runs) end.

(** Every window the fold holds, in memory or on disk. *)
Definition opened (f : fold) : partial := combine (resident f ++ spilled_parts f).

Definition disk_runs (f : fold) : list (@run K M _ _) :=
  match f.(spill_tier) with None => [] | Some sp => sp.(runs) end.

(** A resident group that a threshold up to [hi] does not close. *)
Definition newer_than (hi : Z) (k : option Z * K) : Prop := forall s, k.1 = Some s -> hi < s.

Record Disk (f : fold) : Prop := {
  inv_runs : Forall run_ok (disk_runs f);
  (* while a run is on disk, memory holds a group newer than all of it *)
  inv_resident : forall r, r ∈ disk_runs f ->
    exists p k, f.(running) = Some p /\ has p k /\ newer_than r.(high) k;
  inv_count : f.(spilled_rows) = sum_list (map rows (disk_runs f));
}.

Record Inv (f : fold) : Prop := {
  inv_disk :> Disk f;
  (* nothing at or below the eviction bound is left, and the frontier is past it *)
  inv_through : forall e, f.(evicted_through) = Some e ->
    exists m, f.(evicted_micros) = Some m /\ e = m / hop;
  inv_micros : forall m, f.(evicted_micros) = Some m ->
    (exists w, f.(tracker).(Watermark.wm) = Some w /\ m + width <= w) /\
    forall k s, has (opened f) k -> k.1 = Some s -> m < s;
}.

Lemma new_fold_inv t : Inv (new_fold t).
Proof. split; [split|..]; cbn; [constructor|by intros r Hr%not_elem_of_nil|done|by intros e [=]|by intros m [=]]. Qed.

Lemma opened_new t : opened (new_fold t) = ∅.
Proof. done. Qed.

Lemma spilled_parts_runs f : spilled_parts f = map contents (disk_runs f).
Proof. unfold spilled_parts, disk_runs. by destruct (spill_tier f). Qed.

Lemma opened_split f : opened f = combine2 (combine (resident f)) (combine (map contents (disk_runs f))).
Proof. unfold opened. by rewrite (combine_app E.(merge)), spilled_parts_runs. Qed.

Lemma resident_some (f : fold) p : f.(running) = Some p -> resident f = [p].
Proof. unfold resident. by intros ->. Qed.

Lemma resident_opened f p k : f.(running) = Some p -> has p k -> has (opened f) k.
Proof.
  intros Hr Hk. rewrite opened_split, has_combine2. left. by rewrite (resident_some f p Hr), (combine_one E.(merge)).
Qed.

(** An empty memory means an empty disk. *)
Lemma inv_empty f : Inv f -> f.(running) = None -> disk_runs f = [] /\ opened f = ∅.
Proof.
  intros HI Hr. assert (disk_runs f = []) as Hd.
  { destruct (disk_runs f) as [|r rs] eqn:Hd; [done|].
    destruct (inv_resident f HI r) as (p & k & Hp & _); [rewrite Hd; left|congruence]. }
  split; [done|]. rewrite opened_split, Hd. unfold resident. by rewrite Hr.
Qed.

Lemma engine_filter_combine g p : combine (engine_filter E g p) = select g p.
Proof. unfold engine_filter. by rewrite (combine_nonempty E.(merge)), wl_morsels. Qed.

Lemma engine_filter_has g p q k : q ∈ engine_filter E g p -> has q k -> g k = true /\ has p k.
Proof.
  intros Hq Hk. apply has_select. rewrite <- engine_filter_combine. apply has_combine. eauto.
Qed.

Lemma engine_filter_nonempty g p k : g k = true -> has p k -> engine_filter E g p <> [].
Proof.
  intros Hg Hk He. assert (has (select g p) k) as Hs by (by apply has_select).
  rewrite <- engine_filter_combine, He in Hs. by apply has_empty in Hs.
Qed.

Lemma engine_filter_key g p : engine_filter E g p <> [] -> exists k, g k = true /\ has p k.
Proof.
  intros Hne. destruct (engine_filter E g p) as [|q qs] eqn:He; [done|].
  assert (q ∈ engine_filter E g p) as Hq by (rewrite He; left).
  assert (nonempty q = true) as (k & Hk)%nonempty_true
    by (unfold engine_filter in Hq; by apply list_elem_of_In, filter_In in Hq as [_ ?]).
  exists k. by apply (engine_filter_has _ _ _ _ Hq).
Qed.

Lemma engine_filter_nil g p : engine_filter E g p = [] -> select g p = ∅.
Proof. intros He. by rewrite <- engine_filter_combine, He. Qed.

Lemma resident_set (f : fold) (r : list partial) : combine (resident (set_running f (combine_all E.(merge) r))) = combine r.
Proof. unfold resident. cbn. apply (combine_all_default E.(merge)). Qed.

(** *** Spilling *)

(** What a spill leaves alone. *)
Definition same_rest (f f' : fold) : Prop :=
  f'.(tracker) = f.(tracker) /\ f'.(wm) = f.(wm) /\ f'.(evicted_through) = f.(evicted_through) /\
  f'.(evicted_micros) = f.(evicted_micros) /\ f'.(delta) = f.(delta) /\
  f'.(late_dropped) = f.(late_dropped) /\ f'.(removed) = f.(removed) /\ f'.(updated) = f.(updated).

Definition state_rows (f : fold) : nat := match f.(running) with None => 0 | Some p => size p end.

Lemma select_smaller (g : option Z * K -> bool) (p : partial) k :
  g k = false -> has p k -> (size (select g p) < size p)%nat.
Proof.
  intros Hg [v Hv]. apply map_subset_size, map_subset_alt. split; [apply map_filter_subseteq|].
  exists k. split; [|by eexists]. rewrite lookup_select, Hg. done.
Qed.

Lemma spill_pass_spec f f' :
  Disk f -> spill_pass E f = Moved f' ->
  Disk f' /\ opened f' = opened f /\ same_rest f f' /\ (state_rows f' < state_rows f)%nat.
Proof.
  intros HI. unfold spill_pass. destruct (running f) as [st|] eqn:Hr; [|done].
  destruct (size st <=? 1)%nat; [done|]. destruct (median_window E st) as [split|]; [|done].
  set (cold := engine_filter E (is_closed split) st). set (hot := engine_filter E (is_open split) st).
  assert (forall p k, p ∈ cold -> has p k -> exists s, k.1 = Some s /\ s <= split) as Hcold.
  { intros p k Hp Hk. apply (engine_filter_has _ _ _ _ Hp) in Hk as [Hc _]. unfold is_closed in Hc.
    destruct k.1 as [s|]; [|done]. exists s. split; [done|by apply Z.leb_le]. }
  destruct (spill_all_spec (default new_spill (spill_tier f)) cold split) as (new & H1 & H2 & H3 & H4);
    [pose proof (inv_runs f HI) as Ho; unfold disk_runs in Ho; by destruct (spill_tier f)|done|].
  set (sp := foldl spill _ cold) in *.
  assert (runs (default new_spill (spill_tier f)) = disk_runs f) as Hd
    by (unfold disk_runs; by destruct (spill_tier f)).
  rewrite Hd in H1. clear Hd.
  assert (combine cold = select (is_closed split) st) as Hcc by apply engine_filter_combine.
  assert (combine hot = select (is_open split) st) as Hch by apply engine_filter_combine.
  destruct cold as [|c cs] eqn:Ec; [done|]. destruct hot as [|h hs] eqn:Eh; [done|]. rewrite <- Ec, <- Eh in *.
  intros [= <-].
  assert (opened (set_spill (set_running f (combine_all (merge E) hot)) (Some sp) (spill_rows sp)) = opened f) as Ho.
  { rewrite !opened_split. cbn [disk_runs spill_tier set_spill]. rewrite H1, map_app, (combine_app E.(merge)), H3.
    change (resident (set_spill ?g _ _)) with (resident g).
    rewrite (combine_nonempty E.(merge)), resident_set, Hcc, Hch.
    rewrite (resident_some f st Hr), (combine_one E.(merge)).
    rewrite (comm combine2 (combine _) (select (is_closed split) st)), (assoc combine2).
    by rewrite (comm combine2 (select (is_open split) st)), (split_select E.(merge)). }
  split_and!; [|done|done|].
  - destruct (engine_filter_key (is_open split) st) as (kh & Hkh & Hsh); [fold hot; by rewrite Eh|].
    split; cbn [disk_runs set_spill spill_tier running set_running spilled_rows].
    + done.
    + intros r Hin. exists (select (is_open split) st). rewrite Eh. cbn [combine_all]. rewrite <- Eh, Hch.
      pose proof (proj1 (is_open_spec split kh) Hkh) as Hn.
      rewrite H1 in Hin. apply elem_of_app in Hin as [Hin|Hin].
      * destruct (inv_resident f HI r Hin) as (p & k & Hp & Hk & Hnew). rewrite Hr in Hp. simplify_eq.
        destruct (is_open split k) eqn:Hopen; [exists k; by rewrite has_select|].
        exists kh. rewrite has_select. split_and!; [done..|]. intros s Hs. specialize (Hn s Hs).
        rewrite is_open_closed in Hopen. apply negb_false_iff in Hopen. unfold is_closed in Hopen.
        destruct k.1 as [s'|] eqn:Hs'; [|done]. apply Z.leb_le in Hopen. specialize (Hnew s' Hs'). lia.
      * exists kh. rewrite has_select. split_and!; [done..|]. intros s Hs. specialize (Hn s Hs).
        specialize (H4 r Hin). lia.
    + done.
  - destruct (engine_filter_key (is_closed split) st) as (kc & Hkc & Hsc); [fold cold; by rewrite Ec|].
    unfold state_rows. cbn. rewrite Hr, Eh. cbn [combine_all]. rewrite <- Eh, Hch.
    apply (select_smaller _ _ kc); [|done]. by rewrite is_open_closed, Hkc.
Qed.

(** With the fuel of [spill_fuel] the loop ends: under the target or with nothing to move. *)
Lemma spill_loop_spec fuel f :
  Disk f -> (state_rows f < fuel)%nat ->
  exists f', spill_loop E fuel f = Some f' /\ Disk f' /\ opened f' = opened f /\ same_rest f f' /\
    (nbytes E f'.(running) <= E.(cap) / 2 \/ spill_pass E f' = Stop).
Proof.
  revert f. induction fuel as [|fuel IH]; intros f HI Hfuel; [lia|]. cbn [spill_loop].
  destruct (Z.ltb_spec (cap E / 2) (nbytes E (running f))) as [Hlt|Hle];
    [|exists f; split_and!; [done..|by left]].
  destruct (spill_pass E f) as [|f1] eqn:Hp; [exists f; split_and!; [done..|by right]|].
  destruct (spill_pass_spec f f1 HI Hp) as (HI1 & Ho1 & Hs1 & Hlt1).
  destruct (IH f1 HI1) as (f' & He & HI' & Ho' & Hs' & Hend); [lia|].
  exists f'. split_and!; [done..|congruence| |done]. unfold same_rest in *. intuition congruence.
Qed.

(** [_check_state_bounded] keeps every window and leaves memory within the cap, or raises
    because the state above the cap has no colder half. *)
Lemma check_state_bounded_spec f :
  Disk f -> 0 <= E.(cap) ->
  match check_state_bounded E f with
  | Ok f' => Disk f' /\ opened f' = opened f /\ same_rest f f' /\ nbytes E f'.(running) <= E.(cap)
  | Raise e => e = "ResourceError" /\ exists f', opened f' = opened f /\ same_rest f f' /\
      E.(cap) < nbytes E f'.(running) /\ spill_pass E f' = Stop
  end.
Proof.
  intros HI Hcap. unfold check_state_bounded. destruct (Z.ltb_spec (cap E) (nbytes E (running f))) as [Hlt|Hle].
  - destruct (spill_loop_spec (spill_fuel f) f HI) as (f' & -> & HI' & Ho' & Hs' & Hend).
    { unfold spill_fuel, state_rows. destruct (running f); lia. }
    destruct (Z.ltb_spec (cap E) (nbytes E (running f'))) as [Hlt'|Hle']; [|done].
    split; [done|]. exists f'. split_and!; [done..|]. destruct Hend as [Hend|?]; [|done].
    assert (cap E / 2 <= cap E) by (apply Z.div_le_upper_bound; lia). lia.
  - destruct (Z.ltb_spec (cap E) (nbytes E (running f))); [lia|]. by split_and!.
Qed.

(** What only moves windows between memory and disk keeps the whole invariant. *)
Lemma disk_inv f f' : Inv f -> Disk f' -> opened f' = opened f -> same_rest f f' -> Inv f'.
Proof.
  intros HI Hd Ho (H1 & H2 & H3 & H4 & _). split; [done|..]; rewrite ?H1, ?H3, ?H4, ?Ho; apply HI.
Qed.

(** *** Eviction *)

Lemma filter_sources g l : combine (concat (map (engine_filter E g) l)) = select g (combine l).
Proof.
  induction l as [|p l IH]; [symmetry; apply (select_empty g)|]. cbn [map concat].
  rewrite (combine_app E.(merge)), IH, engine_filter_combine, (combine_cons E.(merge) p l).
  by rewrite (select_combine2 E.(merge)).
Qed.

Lemma emit_of_finalize ps : option_list (finalize_partials E ps) = emit (combine ps).
Proof.
  destruct ps as [|p ps]; [done|]. unfold finalize_partials, emit. rewrite map_size_fmap.
  by destruct (size _ =? 0)%nat.
Qed.

Lemma emit_empty : emit ∅ = [].
Proof. done. Qed.

(** The runs a threshold leaves on disk are open, all of them. *)
Lemma kept_runs_open thr (rs : list (@run K M _ _)) :
  Forall run_ok rs ->
  let kept := List.filter (fun r => thr <? r.(low)) rs in
  forall k, has (combine (map contents kept)) k -> is_open thr k = true.
Proof.
  intros Hok kept k (p & Hp & Hk)%has_combine. apply list_elem_of_fmap in Hp as (r & -> & Hr).
  apply list_elem_of_In, filter_In in Hr as [Hr Hlow]. apply Z.ltb_lt in Hlow.
  rewrite Forall_forall in Hok. destruct (Hok r) as (_ & _ & Hrange); [by apply list_elem_of_In|].
  destruct (Hrange k Hk) as (s & Hs & ?). apply is_open_spec. intros s' Hs'. replace s' with s by congruence. lia.
Qed.

(** A sweep at [thr] splits what is held; [set_evicted] and the counters aside, this is the
    body of [_evict] past its early returns. *)
Lemma sweep_spec f st w :
  Inv f -> f.(running) = Some st -> f.(wm) = Some w -> f.(tracker).(Watermark.wm) = Some w ->
  f.(evicted_through) <> Some ((w - width) / hop) ->
  let '(f', out) := evict E f in
  out = emit (select (is_closed (w - width)) (opened f)) /\
  opened f' = select (is_open (w - width)) (opened f) /\
  Inv f' /\ f'.(tracker) = f.(tracker) /\ f'.(wm) = f.(wm) /\ f'.(delta) = f.(delta) /\
  f'.(late_dropped) = f.(late_dropped) /\ f'.(evicted_micros) = Some (w - width).
Proof.
  intros HI Hr Hw Ht Hne. set (thr := w - width) in *.
  unfold evict. rewrite Hr, Hw. fold thr. rewrite bool_decide_false by done.
  set (drained := List.filter nonempty
     (map contents (List.filter (fun r => negb (thr <? r.(low))) (disk_runs f)))).
  set (kept := List.filter (fun r => thr <? r.(low)) (disk_runs f)).
  set (closed := concat (map (engine_filter E (is_closed thr)) (st :: drained))).
  set (opn := concat (map (engine_filter E (is_open thr)) (st :: drained))).
  assert (opened f = combine2 (combine (st :: drained)) (combine (map contents kept))) as Hsplit.
  { rewrite opened_split, (resident_some f st Hr), (combine_one E.(merge)), (combine_cons E.(merge)).
    unfold drained. rewrite (combine_nonempty E.(merge)).
    rewrite <- (combine_select_split E.(merge) (fun r => thr <? low r) contents (disk_runs f)). fold kept.
    by rewrite (comm combine2 (combine (map contents kept))), (assoc combine2). }
  pose proof (kept_runs_open thr (disk_runs f) (inv_runs f HI)) as Hkept. fold kept in Hkept.
  assert (combine closed = select (is_closed thr) (opened f)) as Hc.
  { unfold closed. rewrite filter_sources, Hsplit, (select_combine2 E.(merge)).
    rewrite (select_none (is_closed thr) (combine (map contents kept))).
    - symmetry. apply (right_id ∅ combine2).
    - intros k Hk. specialize (Hkept k Hk). rewrite is_open_closed in Hkept. by apply negb_true_iff. }
  assert (combine2 (combine opn) (combine (map contents kept)) = select (is_open thr) (opened f)) as Ho.
  { unfold opn. rewrite filter_sources, Hsplit, (select_combine2 E.(merge)).
    by rewrite (select_all (is_open thr) (combine (map contents kept))). }
  assert (forall g, disk_runs g = kept -> g.(running) = combine_all E.(merge) opn ->
    g.(spilled_rows) = sum_list (map rows kept) -> g.(evicted_through) = Some (thr / hop) ->
    g.(evicted_micros) = Some thr -> g.(tracker) = f.(tracker) ->
    opened g = select (is_open thr) (opened f) /\ Inv g) as Hg.
  { intros g G1 G2 G3 G4 G5 G6. assert (opened g = select (is_open thr) (opened f)) as Hog.
    { rewrite opened_split, G1, <- Ho. unfold resident. by rewrite G2, (combine_all_default E.(merge)). }
    split; [done|]. split; [split|..].
    - rewrite G1. apply Forall_forall. intros r Hin. apply list_elem_of_In, filter_In in Hin as [Hin _].
      pose proof (inv_runs f HI) as Hok. rewrite Forall_forall in Hok. by apply Hok, list_elem_of_In.
    - intros r Hin. rewrite G1 in Hin. apply list_elem_of_In, filter_In in Hin as [Hin Hlow].
      apply list_elem_of_In in Hin. apply Z.ltb_lt in Hlow.
      destruct (inv_resident f HI r Hin) as (p & k & Hp & Hk & Hnew). rewrite Hr in Hp. injection Hp as <-.
      pose proof (inv_runs f HI) as Hok. rewrite Forall_forall in Hok. pose proof (run_ok_range r (Hok r Hin)).
      assert (is_open thr k = true) as Hopen by (apply is_open_spec; intros s Hs; specialize (Hnew s Hs); lia).
      assert (has (combine opn) k) as Hko.
      { unfold opn. rewrite filter_sources, has_select, (combine_cons E.(merge)), has_combine2. auto. }
      exists (combine opn), k. split_and!; [|done..]. rewrite G2. destruct opn; [by apply has_empty in Hko|done].
    - by rewrite G1, G3.
    - intros e He. exists thr. split; [done|congruence].
    - intros m Hm. rewrite G5 in Hm. injection Hm as <-. rewrite G6, Hog. split.
      + exists w. split; [done|]. unfold thr. lia.
      + intros k s [Hk _]%has_select Hs. exact (proj1 (is_open_spec thr k) Hk s Hs). }
  clear Hsplit Hkept. unfold drain_through. cbn [spill_tier set_evicted].
  destruct (spill_tier f) as [sp|] eqn:Hsp.
  - assert (disk_runs f = runs sp) as Hd by (unfold disk_runs; by rewrite Hsp).
    rewrite <- Hd. fold drained kept. rewrite emit_of_finalize. fold closed. rewrite Hc. split; [done|].
    apply and_assoc. split; [by apply Hg|done].
  - assert (disk_runs f = []) as Hd by (unfold disk_runs; by rewrite Hsp).
    assert (drained = []) as Hdr by (unfold drained; by rewrite Hd).
    rewrite <- Hdr, emit_of_finalize. fold closed. rewrite Hc. split; [done|].
    apply and_assoc. split; [|done]. apply Hg; cbn; try done.
    + unfold kept. rewrite Hd. unfold disk_runs. cbn. by rewrite Hsp.
    + unfold kept. by rewrite (inv_count f HI), Hd.
Qed.

Lemma hop_positive : 0 < hop.
Proof.
  pose proof (wl_geom (E := E)) as Hg. destruct (geom E); cbn in *.
  - by apply Z.ltb_lt.
  - apply andb_prop in Hg as [_ ?]. by apply Z.ltb_lt.
Qed.

(** Thresholds in one hop bucket close the same multiples of the hop. *)
Lemma same_bucket m thr s : s mod hop = 0 -> m / hop = thr / hop -> m < s -> thr < s.
Proof.
  pose proof hop_positive as Hh. intros [q ->]%Z.mod_divide Heq Hlt; [|lia].
  pose proof (Z.mul_succ_div_gt thr hop Hh). pose proof (Z.mul_div_le m hop Hh). rewrite <- Heq in *.
  assert (m / hop < q) by (apply Z.div_lt_upper_bound; lia). nia.
Qed.

(** [_evict] on a fold whose cached frontier is the tracker's: either nothing leaves, or a
    whole sweep does; windows on the hop's multiples always leave when they close. *)
Lemma evict_spec f :
  Inv f -> f.(wm) = f.(tracker).(Watermark.wm) ->
  let '(f', out) := evict E f in
  exists closed,
    out = emit closed /\ opened f = combine2 closed (opened f') /\ closed ##ₘ opened f' /\
    (forall k, has closed k -> exists s w, k.1 = Some s /\ f.(wm) = Some w /\ s <= w - width) /\
    ((forall k s, has (opened f) k -> k.1 = Some s -> s mod hop = 0) ->
     match f.(wm) with
     | None => closed = ∅ /\ opened f' = opened f
     | Some w => closed = select (is_closed (w - width)) (opened f) /\
                 opened f' = select (is_open (w - width)) (opened f)
     end) /\
    Inv f' /\ f'.(tracker) = f.(tracker) /\ f'.(wm) = f.(wm) /\ f'.(delta) = f.(delta) /\
    f'.(late_dropped) = f.(late_dropped) /\
    (forall k, has closed k -> exists s m, k.1 = Some s /\ f'.(evicted_micros) = Some m /\ s <= m) /\
    (forall m, f.(evicted_micros) = Some m -> exists m', f'.(evicted_micros) = Some m' /\ m <= m').
Proof.
  intros HI Hwm. destruct (f.(running)) as [st|] eqn:Hr; [destruct (f.(wm)) as [w|] eqn:Hw|].
  - destruct (decide (f.(evicted_through) = Some ((w - width) / hop))) as [He|Hne].
    + unfold evict. rewrite Hr, Hw, bool_decide_true by done. exists ∅.
      split_and!; [done|symmetry; apply (left_id ∅ combine2)|apply map_disjoint_empty_l|by intros k ?%has_empty| |
        done|done|by rewrite Hw|done|done|by intros k ?%has_empty|intros m ?; exists m; split; [done|lia]].
      intros Hal. destruct (inv_through f HI _ He) as (m & Hm & Heq). destruct (inv_micros f HI m Hm) as [_ Hgt].
      assert (forall k, has (opened f) k -> is_open (w - width) k = true) as Hopen.
      { intros k Hk. apply is_open_spec. intros s Hs. specialize (Hgt k s Hk Hs). specialize (Hal k s Hk Hs).
        by apply (same_bucket m); [|rewrite <- Heq|..]. }
      split; [|symmetry; by apply select_all]. symmetry. apply select_none. intros k Hk.
      specialize (Hopen k Hk). rewrite is_open_closed in Hopen. by apply negb_true_iff.
    + pose proof (sweep_spec f st w HI Hr Hw (eq_sym Hwm) Hne) as Hs. destruct (evict E f) as [f' out].
      destruct Hs as (-> & Ho & HI' & Ht & Hw' & Hd & Hl & Hu). eexists. split; [done|]. rewrite Ho.
      assert (forall k, has (select (is_closed (w - width)) (opened f)) k ->
        exists s, k.1 = Some s /\ s <= w - width) as Hcl.
      { intros k [Hc Hk]%has_select. unfold is_closed in Hc. destruct k.1 as [s|]; [|done].
        exists s. split; [done|by apply Z.leb_le]. }
      split_and!; [by rewrite (split_select E.(merge))|apply split_disjoint| |done|done|done|congruence|done|done| |].
      * intros k (s & ? & ?)%Hcl. by exists s, w.
      * intros k (s & ? & ?)%Hcl. by exists s, (w - width).
      * intros m Hm. exists (w - width). split; [done|]. destruct (inv_micros f HI m Hm) as [(w0 & Hw0 & ?) _].
        rewrite <- Hwm in Hw0. injection Hw0 as <-. lia.
  - unfold evict. rewrite Hr, Hw. exists ∅.
    split_and!; [done|symmetry; apply (left_id ∅ combine2)|apply map_disjoint_empty_l|by intros k ?%has_empty|done|
      done|done|by rewrite Hw|done|done|by intros k ?%has_empty|intros m ?; exists m; split; [done|lia]].
  - unfold evict. rewrite Hr. destruct (inv_empty f HI Hr) as [_ Ho]. exists ∅. rewrite Ho.
    split_and!; [done|symmetry; apply (left_id ∅ combine2)|apply map_disjoint_empty_l|by intros k ?%has_empty| |
      done|done|done|done|done|by intros k ?%has_empty|intros m ?; exists m; split; [done|lia]].
    intros _. destruct (wm f); [|done]. by rewrite !select_empty.
Qed.

(** *** Folding rows in *)

Abbreviation pa := (E.(partial_aggregate)).

(** The rows land in no window the fold has already evicted. *)
Definition fresh_rows (f : fold) (ps : list Proj) : Prop :=
  forall m k s, f.(evicted_micros) = Some m -> has (pa ps) k -> k.1 = Some s -> m < s.

(** [f'] is [f] with the rows [ps] folded in, and nothing else changed but the counts. *)
Record folded (f : fold) (ps : list Proj) (f' : fold) : Prop := {
  fd_inv : Inv f';
  fd_opened : opened f' = combine2 (opened f) (pa ps);
  fd_delta : combine f'.(delta) = combine2 (combine f.(delta)) (pa ps);
  fd_tracker : f'.(tracker) = f.(tracker);
  fd_wm : f'.(wm) = f.(wm);
  fd_micros : f'.(evicted_micros) = f.(evicted_micros);
  fd_late : f'.(late_dropped) = f.(late_dropped);
}.

Lemma pipeline_nil : pipeline E [] = [].
Proof.
  pose proof (wl_pipeline_app (E := E) [] []) as Hp. cbn in Hp.
  apply (f_equal length) in Hp. rewrite length_app in Hp. apply length_zero_iff_nil. lia.
Qed.

Lemma folded_refl f : Inv f -> folded f [] f.
Proof.
  intros HI. split; [done|..|done|done|done|done]; rewrite wl_partial_nil; symmetry; apply (right_id ∅ combine2).
Qed.

Lemma folded_trans f ps f1 ps' f2 : folded f ps f1 -> folded f1 ps' f2 -> folded f (ps ++ ps') f2.
Proof.
  intros [] []. split; [done|..|congruence|congruence|congruence|congruence].
  - rewrite wl_partial_app, (assoc combine2). congruence.
  - rewrite wl_partial_app, (assoc combine2). congruence.
Qed.

Lemma sum_length_concat {A} (ll : list (list A)) : sum_list (map length ll) = length (concat ll).
Proof. induction ll as [|l ll IH]; cbn; [done|]. by rewrite length_app, IH. Qed.

Lemma fold_in_spec f ps : Inv f -> fresh_rows f (concat ps) -> folded f (concat ps) (fold_in E f ps).
Proof.
  intros HI Hfresh. unfold fold_in. rewrite sum_length_concat.
  destruct (Z.eqb_spec (Z.of_nat (length (concat ps))) 0) as [Hz|Hnz].
  - assert (concat ps = []) as -> by (apply length_zero_iff_nil; lia).
    destruct (folded_refl f HI) as []. destruct HI as [[] ? ?]. split; [|done..]. split; [by split|done..].
  - set (p := pa (concat ps)). set (f' := set_counts _ _ _ _).
    assert (opened f' = combine2 (opened f) p) as Ho.
    { rewrite !opened_split. change (disk_runs f') with (disk_runs f).
      unfold resident. cbn [f' set_counts set_delta set_running running].
      rewrite (absorb_spec E.(merge)), <- !(assoc combine2). f_equal. apply (comm combine2). }
    assert (forall k q, f.(running) = Some q -> has q k -> exists q', f'.(running) = Some q' /\ has q' k) as Hgrow.
    { intros k q Hq Hk. cbn. rewrite Hq. eexists. split; [done|].
      rewrite (combine_cons E.(merge)), has_combine2. by left. }
    split; [|done| |done..].
    + split; [split; [apply (inv_runs f HI)| |apply (inv_count f HI)]|apply (inv_through f HI)|].
      * intros r Hr. destruct (inv_resident f HI r Hr) as (q & k & Hq & Hk & Hnew).
        destruct (Hgrow k q Hq Hk) as (q' & ? & ?). exists q', k. done.
      * intros m Hm. change (f.(evicted_micros) = Some m) in Hm.
        destruct (inv_micros f HI m Hm) as [Hw Hgt]. split; [done|]. intros k s Hk Hs.
        rewrite Ho, has_combine2 in Hk. destruct Hk as [Hk|Hk]; [by apply (Hgt k)|by apply (Hfresh m k s)].
    + change (delta f') with (delta f ++ [p]). by rewrite (combine_app E.(merge)), (combine_one E.(merge)).
Qed.

Lemma fresh_app f a b : fresh_rows f (a ++ b) -> fresh_rows f a /\ fresh_rows f b.
Proof.
  unfold fresh_rows. rewrite wl_partial_app. intros Hf.
  split; intros m k s Hm Hk; apply (Hf m k s Hm); rewrite has_combine2; auto.
Qed.

(** The loop of [push] over the kept batches. *)
Lemma fold_chunks_spec f kept :
  Inv f -> fresh_rows f (pipeline E (concat kept)) ->
  folded f (pipeline E (concat kept))
    (foldl (fun f r => match r with [] => f | _ => fold_in E f (E.(execute_input) r) end) f kept).
Proof.
  revert f. induction kept as [|r kept IH]; intros f HI Hfresh; cbn [concat foldl].
  - rewrite pipeline_nil. by apply folded_refl.
  - cbn [concat] in Hfresh. rewrite wl_pipeline_app in Hfresh |- *. apply fresh_app in Hfresh as [Hr Hk].
    set (f1 := match r with [] => f | _ => _ end).
    assert (folded f (pipeline E r) f1) as Hf1.
    { destruct r as [|x r]; [rewrite pipeline_nil; by apply folded_refl|]. by apply fold_in_spec. }
    eapply folded_trans; [done|]. destruct Hf1 as []. apply IH; [done|].
    intros m k s Hm. apply Hk. congruence.
Qed.

(** *** One micro-batch *)

(** The tracker's frontier is at or past [w]. *)
Definition ahead (t : Watermark.tracker) (w : Z) : Prop :=
  exists w1, Watermark.wm t = Some w1 /\ w <= w1.

Lemma ahead_refresh t now w : ahead t w -> ahead (Watermark.refresh t now) w.
Proof.
  intros (w1 & H1 & Hle). destruct (Watermark.refresh_wm t now w1 H1) as (w2 & ? & ?). exists w2. split; [done|lia].
Qed.

Lemma ahead_observe t b now now' w : ahead t w -> ahead (Watermark.observe t b now now') w.
Proof.
  intros (w1 & H1 & Hle). destruct (Watermark.step_wm t (Watermark.Observe b now now') w1 H1) as (w2 & ? & ?).
  exists w2. split; [done|lia].
Qed.

Lemma ahead_foldl {A} (f : Watermark.tracker -> A -> Watermark.tracker) l t w :
  (forall t x, ahead t w -> ahead (f t x) w) -> ahead t w -> ahead (foldl f t l) w.
Proof. intros Hf. revert t. induction l as [|x l IH]; intros t Ht; cbn [foldl]; auto. Qed.

(** Event time after a batch, and what its rows are late against. *)
Lemma admit_spec t b now t' w' ps :
  arrive t b now = (t', w', ps) ->
  w' = Watermark.wm t' /\
  forall w, Watermark.wm t = Some w ->
    ahead t' w /\ forall p tm, p ∈ ps -> E.(proj_time) p = Some tm -> w <= tm.
Proof.
  unfold arrive, Watermark.watermark. set (t0 := Watermark.refresh t (now 0%nat)).
  assert (forall A (time : A -> option Z) l x tm w, Watermark.wm t = Some w ->
    x ∈ admitted time (Watermark.wm t0) l -> time x = Some tm -> x ∈ l /\ w <= tm) as Hadm.
  { intros A time l x tm w Hw Hx Htm. destruct (Watermark.refresh_wm t (now 0%nat) w Hw) as (w0 & H0 & ?).
    fold t0 in H0. rewrite H0 in Hx. cbn in Hx. apply list_elem_of_In, filter_In in Hx as [Hx Hon].
    split; [by apply list_elem_of_In|]. rewrite Htm in Hon. apply Z.leb_le in Hon. lia. }
  assert (forall w, Watermark.wm t = Some w -> ahead t0 w) as H0
    by (intros w Hw; apply ahead_refresh; exists w; split; [done|lia]).
  destruct (has_time b); intros [= <- <- <-]; (split; [done|]); intros w Hw; (split; [apply ahead_refresh|]).
  - by apply ahead_observe, H0.
  - intros p tm Hp Htm. apply (wl_pipeline_time (E := E)) in Hp as (r & Hr & Hrt).
    apply (Hadm _ (row_time E) _ r tm w Hw Hr). congruence.
  - apply ahead_foldl; [intros t1 ip; apply ahead_observe|by apply H0].
  - intros p tm Hp Htm. by apply (Hadm _ (proj_time E) _ p tm w Hw Hp).
Qed.

(** The rows a batch contributes start after everything evicted. *)
Lemma admit_fresh f b now t' w' ps : Inv f -> arrive f.(tracker) b now = (t', w', ps) -> fresh_rows f ps.
Proof.
  intros HI Ha m k s Hm Hk Hs. destruct (inv_micros f HI m Hm) as [(w & Hw & Hle) _].
  apply admit_spec in Ha as [_ Ha]. destruct (Ha w Hw) as [_ Hon].
  apply (wl_partial_starts (E := E) ps k s Hk) in Hs as (p & tm & Hp & Ht & Hst).
  specialize (Hon p tm Hp Ht). pose proof (starts_contain _ _ _ (wl_geom (E := E)) Hst). lia.
Qed.

(** What one micro-batch does: [closed] leaves, the rest stays. *)
Record stepped (f : fold) (t' : Watermark.tracker) (w' : option Z) (ps : list Proj)
    (f' : fold) (out : list result) (closed : partial) : Prop := {
  st_inv : Inv f';
  st_tracker : f'.(tracker) = t';
  st_wm : f'.(wm) = w';
  st_delta : combine f'.(delta) = pa ps;
  st_out : out = emit closed;
  st_split : combine2 (opened f) (pa ps) = combine2 closed (opened f');
  st_disjoint : closed ##ₘ opened f';
  st_bound : forall k, has closed k ->
    exists s m, k.1 = Some s /\ f'.(evicted_micros) = Some m /\ s <= m;
  st_evict_mono : forall m, f.(evicted_micros) = Some m ->
    exists m', f'.(evicted_micros) = Some m' /\ m <= m';
  st_closed : forall k, has closed k -> exists s w, k.1 = Some s /\ w' = Some w /\ s <= w - width;
  st_exact : (forall k s, has (combine2 (opened f) (pa ps)) k -> k.1 = Some s -> s mod hop = 0) ->
    match w' with
    | None => closed = ∅ /\ opened f' = combine2 (opened f) (pa ps)
    | Some w => closed = select (is_closed (w - width)) (combine2 (opened f) (pa ps)) /\
                opened f' = select (is_open (w - width)) (combine2 (opened f) (pa ps))
    end;
}.

(** How a batch can fail: the state above the cap has no colder half to move. *)
Definition unspillable (f : fold) (ps : list Proj) : Prop :=
  exists g closed, combine2 (opened f) (pa ps) = combine2 closed (opened g) /\
    E.(cap) < nbytes E g.(running) /\ spill_pass E g = Stop.

(** The common end of the two pushes. *)
Lemma settle f f1 f2 t' w' ps :
  0 <= E.(cap) -> Inv f1 -> opened f1 = opened f -> combine f1.(delta) = ∅ ->
  f1.(tracker) = t' -> f1.(wm) = w' -> w' = Watermark.wm t' -> f1.(evicted_micros) = f.(evicted_micros) ->
  folded f1 ps f2 ->
  match (let '(g, out) := evict E f2 in let* g := check_state_bounded E g in Ok (g, out)) with
  | Ok (f', out) => (exists closed, stepped f t' w' ps f' out closed) /\
      f'.(late_dropped) = f1.(late_dropped) /\ nbytes E f'.(running) <= E.(cap)
  | Raise e => e = "ResourceError" /\ unspillable f ps
  end.
Proof.
  intros Hcap HI1 Ho1 Hd1 Ht1 Hw1 Hw Hm1 [HI2 Ho2 Hd2 Ht2 Hw2 Hm2 Hl2].
  pose proof (evict_spec f2 HI2 ltac:(congruence)) as He. destruct (evict E f2) as [g out].
  destruct He as (closed & -> & Hs & Hdis & Hcl & Hex & HIg & Htg & Hwg & Hdg & Hlg & Hbd & Hmo).
  assert (combine2 (opened f) (pa ps) = opened f2) as Hall by congruence.
  pose proof (check_state_bounded_spec g HIg Hcap) as Hc.
  destruct (check_state_bounded E g) as [f'|e]; cbn.
  - destruct Hc as (HI' & Ho' & Hrest & Hb). pose proof Hrest as (Hr1 & Hr2 & Hr3 & Hr4 & Hr5 & Hr6 & Hr7 & Hr8).
    split_and!; [|congruence|done]. exists closed. split; [by apply (disk_inv g)|congruence|congruence| |done|congruence|by rewrite Ho'| | | |].
    + rewrite Hr5, Hdg, Hd2, Hd1. apply (left_id ∅ combine2).
    + by rewrite Hr4.
    + rewrite Hr4, <- Hm1, <- Hm2. done.
    + rewrite <- Hw1, <- Hw2. done.
    + rewrite Hall, Ho', <- Hw1, <- Hw2. done.
  - destruct Hc as (-> & f' & Ho' & _ & Hb & Hstop). split; [done|]. exists f', closed. split_and!; [congruence|done..].
Qed.

Lemma frontier_inv f t' w' late :
  Inv f -> (forall w, Watermark.wm f.(tracker) = Some w -> ahead t' w) ->
  Inv (set_frontier (set_counts (set_delta (set_counts f 0 0 0) []) late 0 0) t' w').
Proof.
  intros [[H1 H2 H3] H4 H5] Hmono. split; [by split|done|]. intros m Hm. destruct (H5 m Hm) as [(w & Hw & Hle) Hgt].
  split; [|done]. destruct (Hmono w Hw) as (w1 & ? & ?). exists w1. split; [done|lia].
Qed.

Lemma filter_nonempty_concat {A} (ll : list (list A)) :
  concat (List.filter (fun p => negb (length p =? 0)%nat) ll) = concat ll.
Proof. induction ll as [|[|x l] ll IH]; cbn; [done|done|by rewrite IH]. Qed.

Lemma filter_concat_map {A} (g : A -> bool) ch (ll : list (list A)) :
  (forall l, concat (ch l) = l) ->
  concat (concat (map (fun p => ch (List.filter g p)) ll)) = List.filter g (concat ll).
Proof.
  intros Hch. induction ll as [|l ll IH]; cbn; [done|]. by rewrite concat_app, Hch, IH, List.filter_app.
Qed.

Lemma push_spec f b now t' w' ps :
  Inv f -> 0 <= E.(cap) -> b.(batch_rows) <> [] -> arrive f.(tracker) b now = (t', w', ps) ->
  match push E f b now with
  | Ok (f', out) => (exists closed, stepped f t' w' ps f' out closed) /\ nbytes E f'.(running) <= E.(cap)
  | Raise e => e = "ResourceError" /\ unspillable f ps
  end.
Proof.
  intros HI Hcap Hne Ha. pose proof (admit_fresh f b now t' w' ps HI Ha) as Hfresh.
  pose proof (admit_spec _ _ _ _ _ _ Ha) as [Hw Hmono].
  unfold push. destruct (batch_rows b) as [|r0 rs] eqn:Hb; [done|]. rewrite <- Hb in *. clear Hb r0 rs.
  assert (forall late g, folded (set_frontier (set_counts (set_delta (set_counts f 0 0 0) []) late 0 0) t' w') ps g ->
    match (let '(g, out) := evict E g in let* g := check_state_bounded E g in Ok (g, out)) with
    | Ok (f', out) => (exists closed, stepped f t' w' ps f' out closed) /\ nbytes E f'.(running) <= E.(cap)
    | Raise e => e = "ResourceError" /\ unspillable f ps
    end) as Hsettle.
  { intros late g Hg. assert (Inv (set_frontier (set_counts (set_delta (set_counts f 0 0 0) []) late 0 0) t' w')) as HI1.
    { apply frontier_inv; [done|]. intros w Hw0. by apply Hmono. }
    pose proof (settle f _ g t' w' ps Hcap HI1 eq_refl eq_refl eq_refl eq_refl Hw eq_refl Hg) as Hs.
    destruct (evict E g) as [g' out]. cbn in *. destruct (check_state_bounded E g'); cbn in *; [|done].
    by destruct Hs as (? & _ & ?). }
  assert (forall late, Inv (set_frontier (set_counts (set_delta (set_counts f 0 0 0) []) late 0 0) t' w')) as HI1
    by (intros late; apply frontier_inv; [done|]; intros w Hw0; by apply Hmono).
  unfold arrive in Ha. destruct (has_time b).
  - unfold push_direct, Watermark.watermark in *. cbn [tracker set_delta set_counts].
    set (t0 := Watermark.refresh (tracker f) (now 0%nat)) in *. pose proof (f_equal (fun x => x.1.1) Ha) as Et. pose proof (f_equal snd Ha) as Eps. cbn [fst snd] in Et, Eps.
    set (kept := match Watermark.wm t0 with None => [b.(batch_rows)] | Some w =>
      E.(chunk_rows) (List.filter (fun r => on_time w (E.(row_time) r)) b.(batch_rows)) end).
    assert (concat kept = admitted (row_time E) (Watermark.wm t0) (batch_rows b)) as Hkept.
    { unfold kept. destruct (Watermark.wm t0); [apply wl_chunk_rows|apply app_nil_r]. }
    rewrite Et, <- Hw. eapply Hsettle. rewrite <- Eps, <- Hkept. apply fold_chunks_spec; [done|]. by rewrite Hkept, Eps.
  - unfold push_derived, Watermark.watermark in *. cbn [tracker set_delta set_counts].
    set (t0 := Watermark.refresh (tracker f) (now 0%nat)) in *.
    set (projected := List.filter (fun p => negb (length p =? 0)%nat) (E.(execute_input) (batch_rows b))) in *.
    pose proof (f_equal (fun x => x.1.1) Ha) as Et. pose proof (f_equal snd Ha) as Eps. cbn [fst snd] in Et, Eps.
    set (kept := match Watermark.wm t0 with None => projected | Some w =>
      List.filter (fun p => negb (length p =? 0)%nat)
        (concat (map (fun p => E.(chunk_proj) (List.filter (fun r => on_time w (E.(proj_time) r)) p)) projected)) end).
    assert (concat kept = ps) as Hkept.
    { rewrite <- Eps. unfold kept, admitted. destruct (Watermark.wm t0); [|done].
      rewrite filter_nonempty_concat. apply filter_concat_map. apply wl_chunk_proj. }
    rewrite Et, <- Hw. destruct kept as [|l ll] eqn:Hk; eapply Hsettle.
    + rewrite <- Hkept. by apply folded_refl.
    + rewrite <- Hk in *. rewrite <- Hkept. apply fold_in_spec; [done|]. by rewrite Hkept.
Qed.

(** *** Streams of micro-batches *)

Lemma push_empty f b now : b.(batch_rows) = [] -> push E f b now = Ok (set_delta (set_counts f 0 0 0) [], []).
Proof. unfold push. by intros ->. Qed.

Lemma reset_inv f : Inv f -> Inv (set_delta (set_counts f 0 0 0) []).
Proof. intros [[] ? ?]. split; [by split|done..]. Qed.

Lemma flush_spec f : option_list (flush E f).2 = emit (opened f).
Proof.
  assert (forall g : fold, option_list (finalize E g.(running)) = emit (combine (resident g))) as Hf.
  { intros g. unfold resident. destruct (running g) as [p|]; [|done]. cbn [finalize].
    by rewrite emit_of_finalize. }
  unfold flush, opened, spilled_parts. cbn [snd]. destruct (spill_tier f) as [sp|] eqn:Hsp; rewrite Hf; f_equal.
  - change (resident (set_spill ?g _ _)) with (resident g). rewrite resident_set.
    unfold drain_all, iter_runs. cbn [snd].
    by rewrite !(combine_app E.(merge)), (combine_nonempty E.(merge)).
  - by rewrite app_nil_r.
Qed.

(** Every successful run from a fresh fold keeps the invariant and the cap. *)
Lemma pushes_inv bs f f' outs :
  0 <= E.(cap) -> Inv f -> pushes E f bs = Ok (f', outs) -> Inv f'.
Proof.
  intros Hcap. revert f f' outs. induction bs as [|[b now] bs IH]; intros f f' outs HI; cbn [pushes].
  { by intros [= <- _]. }
  intros Hp. apply res_bind_ok in Hp as ([f1 out] & H1 & Hp). apply res_bind_ok in Hp as ([f2 outs2] & H2 & [= <- _]).
  apply (IH f1 _ outs2); [|done]. destruct (batch_rows b) eqn:Hb.
  - rewrite push_empty in H1 by done. injection H1 as <- _. by apply reset_inv.
  - destruct (arrive (tracker f) b now) as [[t' w'] ps] eqn:Ha.
    pose proof (push_spec f b now t' w' ps HI Hcap ltac:(by rewrite Hb) Ha) as Hs. rewrite H1 in Hs.
    by destruct Hs as [[closed []] _].
Qed.

(** **** Refinement *)

Definition aligned (p : partial) : Prop := forall k s, has p k -> k.1 = Some s -> s mod hop = 0.

Lemma partial_aligned ps : epoch_aligned E.(geom) = true -> aligned (pa ps).
Proof.
  intros Ha k s Hk Hs. apply (wl_partial_starts (E := E) ps k s Hk) in Hs as (p & t & _ & _ & Hst).
  by apply (starts_aligned _ t _ (wl_geom (E := E))).
Qed.

(** The fold [f] stands for the specification state [s]. *)
Record simulates (f : fold) (s : spec) : Prop := {
  sim_inv : Inv f;
  sim_tracker : f.(tracker) = s.(s_tracker);
  sim_open : opened f = s.(s_open);
  sim_aligned : aligned (opened f);
}.

(** No window the cached frontier closes is held. *)
Definition swept (f : fold) : Prop :=
  forall w k s, f.(wm) = Some w -> has (opened f) k -> k.1 = Some s -> w - width < s.

Lemma simulates_new t : simulates (new_fold t) (Spec t ∅).
Proof. split; [apply new_fold_inv|done|done|by intros k s ?%has_empty]. Qed.

Lemma push_simulates f s b now f' out :
  epoch_aligned E.(geom) = true -> 0 <= E.(cap) -> simulates f s -> push E f b now = Ok (f', out) ->
  exists s', spec_push s b now = (s', out) /\ simulates f' s' /\ (swept f -> swept f').
Proof.
  intros Hal Hcap [HI Ht Ho Ha] Hp. unfold spec_push. destruct (batch_rows b) as [|r rs] eqn:Hb.
  { rewrite push_empty in Hp by done. injection Hp as <- <-. exists s. split; [done|].
    split; [|done]. split; [by apply reset_inv|done..]. }
  rewrite <- Ht, <- Ho. destruct (arrive (tracker f) b now) as [[t' w'] ps] eqn:Had.
  pose proof (push_spec f b now t' w' ps HI Hcap ltac:(by rewrite Hb) Had) as Hs. rewrite Hp in Hs.
  destruct Hs as [(closed & [HI' Ht' Hw' _ -> Hsplit _ _ _ _ Hex]) _].
  set (all := combine2 (opened f) (pa ps)) in *.
  assert (aligned all) as Hall.
  { intros k st Hk Hst. unfold all in Hk. rewrite has_combine2 in Hk.
    destruct Hk as [Hk|Hk]; [by apply (Ha k)|by apply (partial_aligned ps Hal k)]. }
  specialize (Hex Hall). destruct w' as [w|].
  - destruct Hex as [-> Ho']. eexists. split; [done|]. split; [split; [done..|]|intros _]; unfold swept; rewrite Ho'.
    + intros k st [_ Hk]%has_select. by apply Hall.
    + intros w0 k st Hw0 [Hk _]%has_select. rewrite Hw' in Hw0. injection Hw0 as <-.
      apply (proj1 (is_open_spec _ k) Hk).
  - destruct Hex as [-> Ho']. eexists. split; [done|]. split; [split; [done..|by rewrite Ho']|].
    intros _ w0 k st Hw0. congruence.
Qed.

Lemma pushes_simulate bs f s f' outs :
  epoch_aligned E.(geom) = true -> 0 <= E.(cap) -> simulates f s -> pushes E f bs = Ok (f', outs) ->
  exists s', spec_pushes s bs = (s', outs) /\ simulates f' s' /\ (swept f -> swept f').
Proof.
  intros Hal Hcap. revert f s f' outs. induction bs as [|[b now] bs IH]; intros f s f' outs Hs; cbn.
  { intros [= <- <-]. by exists s. }
  intros Hp. apply res_bind_ok in Hp as ([f1 out] & H1 & Hp). apply res_bind_ok in Hp as ([f2 outs2] & H2 & [= <- <-]).
  destruct (push_simulates f s b now f1 out Hal Hcap Hs H1) as (s1 & -> & Hs1 & Hw1).
  destruct (IH f1 s1 f2 outs2 Hs1 H2) as (s2 & -> & Hs2 & Hw2). exists s2. auto.
Qed.

(** **** Exactness *)

(** The pipeline rows a stream of batches admits, in order. *)
Fixpoint admits (t : Watermark.tracker) (bs : list (source_batch * (nat -> Z))) : list Proj :=
  match bs with
  | [] => []
  | (b, now) :: bs =>
      match b.(batch_rows) with
      | [] => admits t bs
      | _ => let '(t', _, ps) := arrive t b now in ps ++ admits t' bs
      end
  end.

Definition disjoint_from (p : partial) (l : list partial) : Prop := Forall (fun q => p ##ₘ q) l.

Lemma disjoint_has (a b : partial) : a ##ₘ b <-> forall k, has a k -> has b k -> False.
Proof.
  rewrite map_disjoint_spec. split.
  - intros Hd k [x Hx] [y Hy]. by apply (Hd k x y).
  - intros Hd k x y Hx Hy. apply (Hd k); by eexists.
Qed.

(** Everything emitted is closed against the current frontier. *)
Definition past (t : Watermark.tracker) (p : partial) : Prop :=
  forall k, has p k -> exists s, k.1 = Some s /\ ahead t (s + width).

Lemma past_fresh (f : fold) b now t' w' ps p :
  arrive f.(tracker) b now = (t', w', ps) -> past f.(tracker) p -> p ##ₘ pa ps.
Proof.
  intros Ha Hp. apply disjoint_has. intros k Hk Hk'. destruct (Hp k Hk) as (s & Hs & w & Hw & Hle).
  apply admit_spec in Ha as [_ Ha]. destruct (Ha w Hw) as [_ Hon].
  apply (wl_partial_starts (E := E) ps k s Hk') in Hs as (q & tm & Hq & Ht & Hst).
  specialize (Hon q tm Hq Ht). pose proof (starts_contain _ _ _ (wl_geom (E := E)) Hst). lia.
Qed.

Lemma past_ahead t t' p : (forall w, Watermark.wm t = Some w -> ahead t' w) -> past t p -> past t' p.
Proof.
  intros Hm Hp k Hk. destruct (Hp k Hk) as (s & Hs & w & Hw & Hle). exists s. split; [done|].
  destruct (Hm w Hw) as (w1 & ? & ?). exists w1. split; [done|lia].
Qed.

(** A run emits disjoint states, apart from [old] (emitted before) and from what stays. *)
Lemma pushes_exact bs f f' outs old :
  0 <= E.(cap) -> Inv f -> past f.(tracker) old -> old ##ₘ opened f ->
  pushes E f bs = Ok (f', outs) ->
  exists cl, concat outs = concat (map emit cl) /\
    ForallOrdPairs map_disjoint (cl ++ [opened f']) /\ disjoint_from old (cl ++ [opened f']) /\
    combine (cl ++ [opened f']) = combine2 (opened f) (pa (admits f.(tracker) bs)).
Proof.
  intros Hcap. revert f f' outs old. induction bs as [|[b now] bs IH]; intros f f' outs old HI Hold Hdis; cbn [pushes].
  { intros [= <- <-]. exists []. cbn. rewrite wl_partial_nil. split_and!; [done| |by apply Forall_singleton|done].
    constructor; constructor. }
  intros Hp. apply res_bind_ok in Hp as ([f1 out] & H1 & Hp). apply res_bind_ok in Hp as ([f2 outs2] & H2 & [= <- <-]).
  cbn [fst snd] in *. cbn [admits concat]. destruct (batch_rows b) as [|r rs] eqn:Hb.
  { rewrite push_empty in H1 by done. injection H1 as <- <-.
    apply (IH (set_delta (set_counts f 0 0 0) []) f2 outs2 old); [by apply reset_inv|done..]. }
  destruct (arrive (tracker f) b now) as [[t' w'] ps] eqn:Had.
  pose proof (push_spec f b now t' w' ps HI Hcap ltac:(by rewrite Hb) Had) as Hs. rewrite H1 in Hs.
  destruct Hs as [(closed & [HI' Ht' Hw' _ -> Hsplit Hcd _ _ Hcl _]) _].
  pose proof (past_fresh f b now t' w' ps old Had Hold) as Hfresh.
  assert (old ##ₘ combine2 closed (opened f1)) as Hall.
  { rewrite <- Hsplit. apply disjoint_has. intros k Hk [Hk'|Hk']%has_combine2.
    - by apply (proj1 (disjoint_has _ _) Hdis k).
    - by apply (proj1 (disjoint_has _ _) Hfresh k). }
  assert (old ##ₘ closed /\ old ##ₘ opened f1) as [Hoc Hoo].
  { split; apply disjoint_has; intros k Hk Hk'; apply (proj1 (disjoint_has _ _) Hall k Hk); rewrite has_combine2; auto. }
  pose proof (admit_spec _ _ _ _ _ _ Had) as [Hw Hmono].
  assert (past t' (combine2 old closed)) as Hpast.
  { intros k [Hk|Hk]%has_combine2; [by apply (past_ahead (tracker f) t' old); [intros w ?; apply Hmono| |]|].
    destruct (Hcl k Hk) as (s & w & Hs & Hw1 & Hle). exists s. split; [done|]. exists w. split; [congruence|lia]. }
  rewrite <- Ht' in Hpast.
  destruct (IH f1 f2 outs2 (combine2 old closed) HI' Hpast) as (cl & E1 & E2 & E3 & E4); [|done|].
  { apply disjoint_has. intros k [Hk|Hk]%has_combine2 Hk'.
    - by apply (proj1 (disjoint_has _ _) Hoo k).
    - by apply (proj1 (disjoint_has _ _) Hcd k). }
  assert (disjoint_from old (cl ++ [opened f2]) /\ disjoint_from closed (cl ++ [opened f2])) as [D1 D2].
  { split; (eapply Forall_impl; [exact E3|]); cbn; intros q Hq; apply disjoint_has; intros k Hk Hk';
      apply (proj1 (disjoint_has _ _) Hq k); [rewrite has_combine2; auto|done|rewrite has_combine2; auto|done]. }
  exists (closed :: cl). cbn [app map concat]. split_and!.
  - by rewrite E1.
  - by constructor.
  - by constructor.
  - rewrite (combine_cons E.(merge)), E4, wl_partial_app, (assoc combine2), <- Hsplit, (assoc combine2).
    by rewrite Ht'.
Qed.

Lemma emit_union l :
  ForallOrdPairs map_disjoint l ->
  ForallOrdPairs map_disjoint (concat (map emit l)) /\
  ⋃ concat (map emit l) = E.(finalize_group) <$> combine l.
Proof.
  induction 1 as [|p l Hp Hl [IH1 IH2]]; cbn [map concat].
  { split; [constructor|]. cbn. symmetry. apply (fmap_empty (M := gmap (option Z * K))). }
  assert (p ##ₘ combine l) as Hd.
  { apply disjoint_has. intros k Hk (q & Hq & Hk')%has_combine. rewrite Forall_forall in Hp.
    by apply (proj1 (disjoint_has _ _) (Hp q Hq) k). }
  rewrite (combine_cons E.(merge)), (combine2_union E.(merge)), map_fmap_union by done. unfold emit at 1 3.
  destruct (size p =? 0)%nat eqn:Hz.
  - apply Nat.eqb_eq, map_size_empty_iff in Hz as ->. rewrite fmap_empty, (left_id_L ∅ (∪)). done.
  - cbn [app union_list foldr]. split; [|by rewrite <- IH2]. constructor; [|done].
    apply Forall_forall. intros o Ho. apply list_elem_of_In, in_concat in Ho as (os & Hos & Ho).
    apply in_map_iff in Hos as (q & <- & Hq). unfold emit in Ho. destruct (size q =? 0)%nat; [done|].
    destruct Ho as [<-|[]]. apply map_disjoint_fmap. rewrite Forall_forall in Hp. by apply Hp, list_elem_of_In.
Qed.

(** ** Properties *)

(** C8: on windows that start at multiples of the hop, the fold refines its specification:
    whatever it spilled, re-read or skipped, every batch emits exactly the windows the
    specification closes on that batch, the flush emits exactly what is left, and after a
    batch no window the frontier closes is still held in memory or on disk. *)
Theorem windowed_fold_refines t bs f outs :
  epoch_aligned E.(geom) = true -> 0 <= E.(cap) -> pushes E (new_fold t) bs = Ok (f, outs) ->
  exists s, spec_pushes (Spec t ∅) bs = (s, outs) /\ opened f = s.(s_open) /\
    option_list (flush E f).2 = emit s.(s_open) /\
    forall w k st, f.(wm) = Some w -> has (opened f) k -> k.1 = Some st -> w - width < st.
Proof.
  intros Hal Hcap Hp.
  destruct (pushes_simulate bs _ _ f outs Hal Hcap (simulates_new t) Hp) as (s & Hs & Hsim & Hw).
  exists s. split_and!; [done|apply Hsim|by rewrite flush_spec, (sim_open _ _ Hsim)|].
  apply Hw. done.
Qed.

(** C9: a windowed stream, on any geometry, emits each group of the on-time rows' aggregate
    exactly once: the emitted batches share no group, and together they are the finalized
    aggregate of all the rows that were not late when they arrived. *)
Theorem windowed_stream_exact t bs outs :
  0 <= E.(cap) -> windowed_stream E t bs = Ok outs ->
  ForallOrdPairs map_disjoint outs /\ ⋃ outs = E.(finalize_group) <$> pa (admits t bs).
Proof.
  intros Hcap Hw. unfold windowed_stream in Hw. apply res_bind_ok in Hw as ([f os] & Hp & Hw).
  assert (outs = concat os ++ option_list (flush E f).2) as -> by (symmetry; exact (Ok_inj _ _ Hw)).
  destruct (pushes_exact bs (new_fold t) f os ∅ Hcap (new_fold_inv t)) as (cl & E1 & E2 & _ & E4);
    [by intros k ?%has_empty|apply map_disjoint_empty_l|done|].
  rewrite flush_spec, E1. apply emit_union in E2. rewrite E4, map_app, concat_app in E2.
  cbn in E2. rewrite app_nil_r, (left_id ∅ combine2) in E2. done.
Qed.

(** C27: after any batches, a further one either leaves at most [cap] bytes in memory or
    raises [ResourceError] with nothing left to move to disk: the spill loop always ends,
    and the error means the resident state above the cap is one row, or has no window on
    one side of its own median. *)
Theorem windowed_push_bounded t bs f outs b now :
  0 <= E.(cap) -> pushes E (new_fold t) bs = Ok (f, outs) -> b.(batch_rows) <> [] ->
  match push E f b now with
  | Ok (f', _) => nbytes E f'.(running) <= E.(cap)
  | Raise e => e = "ResourceError" /\ exists st, E.(cap) < E.(retained_bytes) st /\
      ((size st <= 1)%nat \/ median_window E st = None \/
       exists split, median_window E st = Some split /\
         ((forall k, has st k -> is_open split k = true) \/ (forall k, has st k -> is_open split k = false)))
  end.
Proof.
  intros Hcap Hp Hb. pose proof (pushes_inv bs _ f outs Hcap (new_fold_inv t) Hp) as HI.
  destruct (arrive (tracker f) b now) as [[t' w'] ps] eqn:Ha.
  pose proof (push_spec f b now t' w' ps HI Hcap Hb Ha) as Hs.
  destruct (push E f b now) as [[f' out]|e]; [by destruct Hs|].
  destruct Hs as (-> & g & closed & _ & Hlt & Hstop). split; [done|].
  unfold spill_pass in Hstop. destruct (running g) as [st|]; cbn in Hlt; [|lia]. exists st. split; [done|].
  destruct (size st <=? 1)%nat eqn:Hsz; [left; by apply Nat.leb_le|right].
  destruct (median_window E st) as [split|]; [right|by left]. exists split. split; [done|].
  destruct (engine_filter E (is_closed split) st) eqn:Hc; [left|destruct (engine_filter E (is_open split) st) eqn:Ho; [right|done]].
  - intros k Hk. destruct (is_open split k) eqn:Hop; [done|]. exfalso. rewrite is_open_closed in Hop.
    apply negb_false_iff in Hop. by apply (engine_filter_nonempty _ _ _ Hop Hk).
  - intros k Hk. destruct (is_open split k) eqn:Hop; [|done]. by apply (engine_filter_nonempty _ _ _ Hop Hk) in Ho.
Qed.
End Sound.

(** ** A concrete engine: counting rows per window and key *)

Section Counting.
Variable g : geometry.
Variable budget : Z.

(** A row: its event time and its key. *)
Abbreviation row := (option Z * Z)%type.
Abbreviation counts := (gmap (option Z * Z) Z).

Definition row_counts (r : row) : counts :=
  match r.1 with
  | None => {[(None, r.2) := 1]}
  | Some t => foldr (fun s m => <[(Some s, r.2) := 1]> m) ∅ (starts g t)
  end.

Definition count_rows (rs : list row) : counts := combine Z.add (map row_counts rs).

(** The lower median of a non-empty list, after sorting. *)
Definition lower_median (l : list Z) : option Z := merge_sort Z.le l !! ((length l - 1) / 2)%nat.

Definition count_engine : window_engine row row Z Z Z := {|
  geom := g; merge := Z.add; finalize_group := id;
  execute_input := fun rs => [rs]; partial_aggregate := count_rows;
  chunk_rows := fun rs => [rs]; chunk_proj := fun rs => [rs]; morsels := fun p => [p];
  approximate_median := lower_median; retained_bytes := fun p => 8 * Z.of_nat (size p);
  row_time := fst; row_partition := fun _ => []; proj_time := fst; proj_partition := fun _ => [];
  proj_present := false; cap := budget;
|}.

Lemma has_row_counts r k s : has (row_counts r) k -> k.1 = Some s -> exists t, r.1 = Some t /\ s ∈ starts g t.
Proof.
  unfold row_counts, has. destruct r as [[t|] key]; cbn [fst snd].
  - intros Hk Hs. exists t. split; [done|]. induction (starts g t) as [|s' l IH]; cbn in Hk.
    + destruct Hk as [? Hk]. by rewrite lookup_empty in Hk.
    + destruct (decide ((Some s', key) = k)) as [<-|Hne]; [cbn in Hs; simplify_eq; left|].
      right. apply IH. by rewrite lookup_insert_ne in Hk.
  - intros [v Hv] Hs. apply lookup_singleton_Some in Hv as [<- _]. done.
Qed.

#[export] Instance count_engine_laws : valid_geometry g = true -> WindowEngineLaws count_engine.
Proof.
  intros Hg. split; cbn; try apply _.
  - done.
  - intros l. apply app_nil_r.
  - intros l. apply app_nil_r.
  - intros p. apply (combine_one Z.add).
  - intros a b. unfold pipeline. cbn. by rewrite !app_nil_r.
  - intros l p Hp. unfold pipeline in Hp. cbn in Hp. rewrite app_nil_r in Hp. by exists p.
  - done.
  - intros a b. unfold count_rows. by rewrite map_app, (combine_app Z.add).
  - intros ps k s Hk Hs. unfold count_rows in Hk. apply has_combine in Hk as (q & Hq & Hk).
    apply list_elem_of_fmap in Hq as (r & -> & Hr). destruct (has_row_counts r k s Hk Hs) as (t & Ht & Hst). eauto.
Qed.
End Counting.

(** A batch of an unpartitioned source. *)
Definition events (l : list (option Z * Z)) : source_batch (option Z * Z) := SourceBatch true false l.
Definition still : nat -> Z := fun _ => 0.
Definition plain_tracker (lateness : Z) : Watermark.tracker := Watermark.new_tracker lateness 0 [] 0.

(** Tumbling windows of 10 over out-of-order events with a lateness of 20, memory for two
    groups: the run spills, reads back, drops a late row, and closes windows as it goes. *)
Definition busy : list (source_batch (option Z * Z) * (nat -> Z)) :=
  [(events [(Some 3, 1); (Some 14, 1); (Some 25, 2)], still);
   (events [(Some 37, 1); (Some 8, 1); (Some 16, 2)], still);
   (events [(Some 58, 1); (Some 2, 7)], still);
   (events [], still);
   (events [(Some 41, 3); (None, 4); (Some 12, 5)], still)].

Abbreviation small := (count_engine (Tumbling 10 0) 16).

Definition busy_fold : fold Z Z * list (list (gmap (option Z * Z) Z)) :=
  match pushes small (new_fold (plain_tracker 20)) busy with
  | Ok r => r
  | Raise _ => (new_fold (plain_tracker 20), [])
  end.

Lemma busy_run : pushes small (new_fold (plain_tracker 20)) busy = Ok (busy_fold.1, busy_fold.2).
Proof. vm_compute. reflexivity. Qed.

(** Two runs are on disk after the second batch. *)
Example busy_spills :
  match pushes small (new_fold (plain_tracker 20)) (take 2 busy) with
  | Ok (f, _) => (length (disk_runs f), f.(spilled_rows))
  | Raise _ => (0%nat, 0%nat)
  end = (2%nat, 3%nat).
Proof. vm_compute. reflexivity. Qed.

Lemma windowed_fold_refines_witness :
  busy_fold.2 = [[]; [{[(Some 0, 1) := 2]}];
                 [<[(Some 10, 1) := 1]> (<[(Some 10, 2) := 1]> {[(Some 20, 2) := 1]})]; []; []] /\
  exists s, spec_pushes small (Spec (plain_tracker 20) ∅) busy = (s, busy_fold.2) /\
    opened small busy_fold.1 = s.(s_open) /\ size s.(s_open) = 3%nat.
Proof.
  split; [vm_compute; reflexivity|].
  destruct (windowed_fold_refines small (WindowEngineLaws0 := count_engine_laws (Tumbling 10 0) 16 eq_refl)
    (plain_tracker 20) busy busy_fold.1 busy_fold.2 eq_refl ltac:(cbn; lia) busy_run) as (s & H1 & H2 & _).
  exists s. split; [exact H1|]. split; [exact H2|]. rewrite <- H2. vm_compute. reflexivity.
Defined.

Definition busy_stream : list (gmap (option Z * Z) Z) :=
  match windowed_stream small (plain_tracker 20) busy with Ok outs => outs | Raise _ => [] end.

Lemma windowed_stream_exact_witness :
  length busy_stream = 3%nat /\ length (admits small (plain_tracker 20) busy) = 8%nat /\
  ForallOrdPairs map_disjoint busy_stream /\
  ⋃ busy_stream = id <$> count_rows (Tumbling 10 0) (admits small (plain_tracker 20) busy).
Proof.
  split; [vm_compute; reflexivity|]. split; [vm_compute; reflexivity|].
  apply (windowed_stream_exact small (WindowEngineLaws0 := count_engine_laws (Tumbling 10 0) 16 eq_refl)
    (plain_tracker 20) busy busy_stream); [cbn; lia|vm_compute; reflexivity].
Defined.

(** The batch that follows lands five keys in one window: no half of it is colder. *)
Definition wide : source_batch (option Z * Z) :=
  events [(Some 60, 1); (Some 61, 2); (Some 62, 3); (Some 63, 4); (Some 64, 5)].

Lemma windowed_push_bounded_witness :
  push small busy_fold.1 wide still = Raise "ResourceError" /\
  exists st, 16 < 8 * Z.of_nat (size st) /\
    ((size st <= 1)%nat \/ median_window small st = None \/
     exists split, median_window small st = Some split /\
       ((forall k, has st k -> is_open split k = true) \/ (forall k, has st k -> is_open split k = false))).
Proof.
  pose proof (windowed_push_bounded small (WindowEngineLaws0 := count_engine_laws (Tumbling 10 0) 16 eq_refl)
    (plain_tracker 20) busy busy_fold.1 busy_fold.2 wide still ltac:(cbn; lia) busy_run ltac:(discriminate)) as H.
  assert (push small busy_fold.1 wide still = Raise "ResourceError") as Hp by (vm_compute; reflexivity).
  rewrite Hp in H. split; [exact Hp|exact (proj2 H)].
Defined.

(** on a tumbling grid whose origin is not a multiple of the width the skipped sweeps do
    hold closed windows: with width 10 and origin 5 the event at 16 closes the window that
    starts at 5 (its end, 15, is below the frontier), the specification emits it on that
    batch, and the fold emits nothing and keeps it, because its hop index is counted from
    zero. *)
Theorem anchored_window_held :
  let E := count_engine (Tumbling 10 5) 1000 in
  let bs := map (fun t => (events [(Some t, 1)], still)) [7; 14; 16] in
  (let* r := pushes E (new_fold (plain_tracker 0)) bs in
   Ok (r.2, r.1.(wm), opened E r.1 !! (Some 5, 1))) = Ok ([[]; []; []], Some 16, Some 2) /\
  (spec_pushes E (Spec (plain_tracker 0) ∅) bs).2 = [[]; []; [{[(Some 5, 1) := 2]}]].
Proof. split; vm_compute; reflexivity. Qed.

(** The aggregate groups by [w], exploded from a sliding window and then moved back two
    windows by a projection above the explode. *)
Definition shifted_plan : spine :=
  SProject [("w", KOther)] (SUnnest "ws" "w" (SProject [("ws", KWindowBuckets 10 10)] Leaf)).

(** Its engine: the group key is the window start less 20. *)
Definition shifted : window_engine (option Z * Z) (option Z * Z) Z Z Z :=
  let E := count_engine (Sliding 10 10) 1000 in
  {| geom := E.(geom); merge := E.(merge); finalize_group := E.(finalize_group);
     execute_input := E.(execute_input);
     partial_aggregate := fun rs => combine Z.add (map (fun r => kmap (prod_map (fmap (fun s => s - 20)) id)
       (row_counts (Sliding 10 10) r)) rs);
     chunk_rows := E.(chunk_rows); chunk_proj := E.(chunk_proj); morsels := E.(morsels);
     approximate_median := E.(approximate_median); retained_bytes := E.(retained_bytes);
     row_time := E.(row_time); row_partition := E.(row_partition); proj_time := E.(proj_time);
     proj_partition := E.(proj_partition); proj_present := E.(proj_present); cap := E.(cap) |}.

(** the search for the window key looks through a projection that redefines the key: the
    group key [w] is taken for the window's start although a projection above the explode
    moved it, so a group closes before its rows have arrived and the same group is emitted
    twice. *)
Theorem shifted_window_key_duplicates :
  window_key shifted_plan [("w", KCol "w")] = Some (WindowKey "w" 10 10) /\
  windowed_stream shifted (plain_tracker 0)
    [(events [(Some 15, 1)], still); (events [(Some 17, 1)], still)] =
  Ok [{[(Some (-10), 1) := 1]}; {[(Some (-10), 1) := 1]}].
Proof. split; vm_compute; reflexivity. Qed.
