(* ===== verification/WindowedCheckpoint.v ===== *)
(** * Checkpoints of the windowed streaming aggregate

    [state_parts], [take_delta] and [restore_parts] of [_WindowedAggFold]
    (core/streaming/folds/windowed.py): a snapshot restores to a fold that goes on emitting
    what the original would; a base with its changelog restores the open windows exactly,
    and rewinds event time to the base. *)

From S2P Require Import Prelude Watermark WindowedFold WindowedFoldSound.

(** ** Trackers that differ only in when they saw their partitions

    Without idleness no clock reading matters. *)

Record teq (t t' : Watermark.tracker) : Prop := {
  teq_idle : t.(Watermark.idle_after) = None;
  teq_idle' : t'.(Watermark.idle_after) = None;
  teq_late : t'.(Watermark.lateness) = t.(Watermark.lateness);
  teq_maxima : t'.(Watermark.maxima) = t.(Watermark.maxima);
  teq_expected : t'.(Watermark.expected) = t.(Watermark.expected);
  teq_wm : t'.(Watermark.wm) = t.(Watermark.wm);
}.

Lemma active_idle_off t now :
  t.(Watermark.idle_after) = None -> Watermark.active t now = map snd (map_to_list t.(Watermark.maxima)).
Proof.
  intros Hi. unfold Watermark.active. f_equal. induction (map_to_list _) as [|p l IH]; cbn; [done|].
  rewrite Watermark.never_idle by done. cbn. by rewrite IH.
Qed.

Lemma silent_idle_off t now :
  t.(Watermark.idle_after) = None ->
  Watermark.silent t now =
    existsb (fun k => negb (bool_decide (is_Some (t.(Watermark.maxima) !! k)))) (elements t.(Watermark.expected)).
Proof.
  intros Hi. unfold Watermark.silent. induction (elements _) as [|k l IH]; cbn; [done|].
  rewrite Watermark.never_idle by done. cbn. by rewrite andb_true_r, IH.
Qed.

Lemma refresh_teq t t' now now' : teq t t' -> teq (Watermark.refresh t now) (Watermark.refresh t' now').
Proof.
  intros [Hi Hi' Hl Hm He Hw]. unfold Watermark.refresh.
  rewrite !silent_idle_off, !active_idle_off, Hm, He by done.
  destruct (existsb _ _); [by split|]. destruct (map snd _); [by split|]. split; cbn; [done..|]. by rewrite Hl, Hw.
Qed.

Lemma see_groups_teq rs now now' gs t t' ps :
  teq t t' ->
  let r := foldl (Watermark.see_group rs now) (t, ps) gs in
  let r' := foldl (Watermark.see_group rs now') (t', ps) gs in
  teq r.1 r'.1 /\ r.2 = r'.2.
Proof.
  revert t t' ps. induction gs as [|x gs IH]; intros t t' ps Ht; cbn [foldl]; [done|].
  assert (exists u u' ps', Watermark.see_group rs now (t, ps) x = (u, ps') /\
    Watermark.see_group rs now' (t', ps) x = (u', ps') /\ teq u u') as (u & u' & ps' & -> & -> & Hu); [|by apply IH].
  unfold Watermark.see_group. destruct (Watermark.max_of _); eexists _, _, _; (split_and!; [done..|]); [|done].
  destruct Ht. by split.
Qed.

Lemma maxima_of_teq t t' b now now' :
  teq t t' ->
  teq (Watermark.maxima_of t b now).1 (Watermark.maxima_of t' b now').1 /\
  (Watermark.maxima_of t b now).2 = (Watermark.maxima_of t' b now').2.
Proof.
  intros Ht. unfold Watermark.maxima_of. destruct (Watermark.rows b) as [|r rs]; [done|].
  destruct (Watermark.present b); [by apply see_groups_teq|].
  destruct (Watermark.max_of _); cbn; (split; [|done]); destruct Ht; by split.
Qed.

Lemma observe_teq t t' b now1 now2 now1' now2' :
  teq t t' -> teq (Watermark.observe t b now1 now2) (Watermark.observe t' b now1' now2').
Proof.
  intros Ht. unfold Watermark.observe. destruct (maxima_of_teq t t' b now1 now1' Ht) as [H1 H2].
  destruct (Watermark.maxima_of t b now1) as [u p], (Watermark.maxima_of t' b now1') as [u' p']. cbn in *. subst p'.
  apply refresh_teq. destruct H1 as []. split; cbn; [done..| |done|done]. congruence.
Qed.

(** Reading the frontier twice is reading it once. *)
Lemma refresh_twice t now now' :
  t.(Watermark.idle_after) = None ->
  teq (Watermark.refresh t now) (Watermark.refresh (Watermark.refresh t now) now').
Proof.
  intros Hi. pose proof (Watermark.refresh_keeps t now) as (Km & Kl & Ki & Ks & Ke).
  unfold Watermark.refresh at 2. rewrite silent_idle_off, active_idle_off, Km, Ke, Kl by congruence.
  unfold Watermark.refresh. rewrite silent_idle_off, active_idle_off by done.
  destruct (existsb _ _) eqn:Hs; [by split|]. destruct (map snd _) eqn:Hm; [by split|].
  split; cbn; [done..|]. f_equal. destruct (Watermark.wm t); lia.
Qed.

Lemma teq_refl t : t.(Watermark.idle_after) = None -> teq t t.
Proof. by split. Qed.
Lemma teq_sym t t' : teq t t' -> teq t' t.
Proof. intros []. by split. Qed.
Lemma teq_trans t1 t2 t3 : teq t1 t2 -> teq t2 t3 -> teq t1 t3.
Proof. intros [] []. split; congruence. Qed.

Section Checkpoint.
Context {Row Proj K M V : Type} `{Countable K}.
Variable E : window_engine Row Proj K M V.
Context `{!WindowEngineLaws E}.

Abbreviation partial := (gmap (option Z * K) M).
Abbreviation fold := (fold K M).
Abbreviation source_batch := (source_batch Row).
Abbreviation width := (g_width E.(geom)).
Abbreviation hop := (g_hop E.(geom)).
Abbreviation combine := (combine E.(merge)).
Abbreviation combine2 := (combine2 E.(merge)).
Abbreviation pa := (E.(partial_aggregate)).
Abbreviation part := (@part K M _ _).

(** ** The specification does not read the clock *)

Definition resumes (t t' : Watermark.tracker) : Prop :=
  forall now now', teq (Watermark.refresh t now) (Watermark.refresh t' now').

Lemma teq_resumes t t' : teq t t' -> resumes t t'.
Proof. intros Ht now now'. by apply refresh_teq. Qed.

Lemma admit_resumes t t' b now now' :
  resumes t t' ->
  teq (arrive E t b now).1.1 (arrive E t' b now').1.1 /\
  (arrive E t b now).1.2 = (arrive E t' b now').1.2 /\ (arrive E t b now).2 = (arrive E t' b now').2.
Proof.
  intros Hr. pose proof (Hr (now 0%nat) (now' 0%nat)) as Ht. unfold arrive, Watermark.watermark.
  pose proof (teq_wm _ _ Ht) as Hw. set (u := Watermark.refresh t _) in *. set (u' := Watermark.refresh t' _) in *.
  destruct (has_time b); cbn [fst snd].
  - assert (teq (Watermark.refresh (Watermark.observe u (to_watermark b.(has_partition) E.(row_partition) E.(row_time)
        b.(batch_rows)) (now 1%nat) (now 2%nat)) (now 3%nat))
      (Watermark.refresh (Watermark.observe u' (to_watermark b.(has_partition) E.(row_partition) E.(row_time)
        b.(batch_rows)) (now' 1%nat) (now' 2%nat)) (now' 3%nat))) as H1 by (by apply refresh_teq, observe_teq).
    split_and!; [done|by rewrite (teq_wm _ _ H1)|by rewrite Hw].
  - set (projected := List.filter _ _).
    assert (forall l v v', teq v v' ->
      teq (foldl (fun t ip => Watermark.observe t (to_watermark E.(proj_present) E.(proj_partition) E.(proj_time) ip.2)
             (now (2 * ip.1 + 1)%nat) (now (2 * ip.1 + 2)%nat)) v l)
          (foldl (fun t ip => Watermark.observe t (to_watermark E.(proj_present) E.(proj_partition) E.(proj_time) ip.2)
             (now' (2 * ip.1 + 1)%nat) (now' (2 * ip.1 + 2)%nat)) v' l)) as Hfold.
    { induction l as [|ip l IH]; intros v v' Hv; cbn [foldl]; [done|]. by apply IH, observe_teq. }
    pose proof (refresh_teq _ _ (now (2 * length projected + 1)%nat) (now' (2 * length projected + 1)%nat)
      (Hfold (py_enumerate projected) u u' Ht)) as H1.
    split_and!; [done|by rewrite (teq_wm _ _ H1)|by rewrite Hw].
Qed.

Lemma spec_push_resumes t t' o b now now' :
  resumes t t' ->
  let r := spec_push E (Spec t o) b now in
  let r' := spec_push E (Spec t' o) b now' in
  r.2 = r'.2 /\ s_open r.1 = s_open r'.1 /\ resumes (s_tracker r.1) (s_tracker r'.1).
Proof.
  intros Hr. unfold spec_push. destruct (batch_rows b); [done|]. cbn [s_tracker s_open].
  destruct (admit_resumes t t' b now now' Hr) as (H1 & H2 & H3).
  destruct (arrive E t b now) as [[u w] ps], (arrive E t' b now') as [[u' w'] ps']. cbn in *. subst w' ps'.
  destruct w; cbn; split_and!; try done; by apply teq_resumes.
Qed.

Lemma spec_pushes_resumes bs bs' t t' o :
  resumes t t' -> map fst bs = map fst bs' ->
  (spec_pushes E (Spec t o) bs).2 = (spec_pushes E (Spec t' o) bs').2 /\
  s_open (spec_pushes E (Spec t o) bs).1 = s_open (spec_pushes E (Spec t' o) bs').1.
Proof.
  revert bs' t t' o. induction bs as [|[b now] bs IH]; intros [|[b' now'] bs'] t t' o Hr Heq; [done..|].
  cbn [map fst] in Heq. injection Heq as <- Heq. cbn [spec_pushes].
  destruct (spec_push_resumes t t' o b now now' Hr) as (H1 & H2 & H3).
  destruct (spec_push E (Spec t o) b now) as [[u p] out], (spec_push E (Spec t' o) b now') as [[u' p'] out'].
  cbn in H1, H2, H3. subst out' p'. destruct (IH bs' u u' p H3 Heq) as [H4 H5].
  destruct (spec_pushes E (Spec u p) bs), (spec_pushes E (Spec u' p) bs'). cbn in *. by subst.
Qed.

(** ** Restoring *)

(** What an eviction bound leaves of a state. *)
Definition restrict (ev : option Z) (p : partial) : partial :=
  match ev with None => p | Some m => select (is_open m) p end.

Lemma loaded_disk (f : fold) : f.(spill_tier) = None -> f.(spilled_rows) = 0%nat -> Disk f.
Proof.
  intros Hs Hn. unfold disk_runs. split; unfold disk_runs; rewrite Hs; [constructor|by intros r Hr%not_elem_of_nil|done].
Qed.

Lemma loaded_opened (f : fold) ps :
  f.(spill_tier) = None -> f.(running) = combine_all E.(merge) ps -> opened E f = combine ps.
Proof.
  intros Hs Hr. rewrite (opened_split E f). unfold disk_runs, resident. rewrite Hs, Hr, (combine_all_default E.(merge)).
  apply (right_id ∅ combine2).
Qed.

(** [restore_parts] into a fresh fold holds the combination of the parts, less what the
    last recorded bound evicted. *)
Lemma restore_parts_spec t0 parts now now' :
  0 <= E.(cap) ->
  let t1 := Watermark.refresh (Watermark.restore t0 (first_some meta_watermark parts) now) now' in
  let ev := first_some meta_evicted (rev parts) in
  match restore_parts E (new_fold t0) parts now now' with
  | Ok f' => Disk f' /\ opened E f' = restrict ev (combine (omap part_rows parts)) /\ f'.(tracker) = t1 /\
      f'.(wm) = Watermark.wm t1 /\ f'.(evicted_micros) = ev /\
      f'.(evicted_through) = (fun m => m / hop) <$> ev
  | Raise e => e = "ResourceError"
  end.
Proof.
  intros Hcap t1 ev. unfold restore_parts, Watermark.watermark. cbn [tracker new_fold]. fold t1 ev.
  set (rows := List.filter nonempty (omap part_rows parts)).
  assert (combine rows = combine (omap part_rows parts)) as Hrows by apply (combine_nonempty E.(merge)).
  set (g := match ev with None => _ | Some e => _ end).
  assert (g.(spill_tier) = None /\ g.(spilled_rows) = 0%nat /\ opened E g = restrict ev (combine rows) /\
    g.(tracker) = t1 /\ g.(wm) = Watermark.wm t1 /\ g.(evicted_micros) = ev /\
    g.(evicted_through) = (fun m => m / hop) <$> ev) as (G1 & G2 & G3 & G4 & G5 & G6 & G7).
  { unfold g. destruct ev as [e|].
    - unfold drop_evicted. cbn [running set_running set_evicted]. destruct (combine_all _ rows) as [p|] eqn:Hc.
      + split_and!; try done. assert (p = combine rows) as -> by (destruct rows; by simplify_eq/=).
        rewrite (loaded_opened _ (engine_filter E (is_open e) (combine rows))) by done.
        apply (engine_filter_combine E).
      + destruct rows; [|done]. split_and!; try done.
    - split_and!; try done. by apply loaded_opened. }
  rewrite Hrows in G3. destruct rows; [by split_and!; try done; apply loaded_disk|].
  pose proof (check_state_bounded_spec E g (loaded_disk g G1 G2) Hcap) as Hc.
  destruct (check_state_bounded E g) as [f'|e]; [|by destruct Hc].
  destruct Hc as (Hd & Ho & (R1 & R2 & R3 & R4 & _) & _). split_and!; congruence || done.
Qed.

Lemma first_some_app {A B} (f : A -> option B) l1 l2 :
  first_some f (l1 ++ l2) = match first_some f l1 with Some b => Some b | None => first_some f l2 end.
Proof. induction l1 as [|x l1 IH]; cbn; [done|]. by destruct (f x). Qed.

(** The parts of a snapshot. *)
Lemma state_parts_spec (f : fold) :
  Inv E f -> f.(wm) = Watermark.wm f.(tracker) ->
  combine (omap part_rows (state_parts f)) = opened E f /\
  first_some meta_evicted (rev (state_parts f)) = f.(evicted_micros) /\
  (state f <> None -> first_some meta_watermark (state_parts f) = Some (Watermark.to_json f.(tracker))).
Proof.
  intros HI Hw. unfold state_parts.
  set (tail := match f.(spill_tier) with None => [] | Some sp => map (fun p => Part (Some p) None None) (iter_runs sp) end).
  assert (combine (omap part_rows tail) = combine (spilled_parts f) /\
    first_some meta_evicted (rev tail) = None /\ first_some meta_watermark tail = None) as (T1 & T2 & T3).
  { unfold tail, spilled_parts. destruct (spill_tier f) as [sp|]; [|done]. unfold iter_runs.
    rewrite <- (combine_nonempty E.(merge) (map contents (runs sp))). generalize (List.filter nonempty (map contents (runs sp))).
    intros l. split_and!.
    - f_equal. induction l as [|p l IH]; cbn; [done|]. by rewrite IH.
    - induction l as [|p l IH]; cbn; [done|]. by rewrite first_some_app, IH.
    - induction l as [|p l IH]; cbn; [done|done]. }
  unfold state. destruct (running f) as [p|] eqn:Hr; [|destruct (wm f) as [w|] eqn:Hwm].
  - change (option_list (Some ?x)) with [x]. cbn [app rev]. rewrite first_some_app, T2.
    split_and!; [|by cbn; destruct (evicted_micros f)|done]. unfold opened. rewrite (combine_app E.(merge)), (resident_some f p Hr), (combine_one E.(merge)).
    cbn. by rewrite <- T1.
  - change (option_list (Some ?x)) with [x]. cbn [app rev]. rewrite first_some_app, T2.
    split_and!; [|by cbn; destruct (evicted_micros f)|done]. unfold opened, resident. rewrite Hr. exact T1.
  - cbn. rewrite T2. destruct (inv_empty E f HI Hr) as [_ Ho]. split_and!; [|..|done].
    + etransitivity; [exact T1|]. unfold opened, resident. by rewrite Hr.
    + destruct (evicted_micros f) as [m|] eqn:Hm; [|done].
      destruct (inv_micros E f HI m Hm) as [(w & Hw' & _) _]. congruence.
Qed.

(** The cached frontier of a fold that has run is its tracker's. *)
Lemma pushes_cached bs f f' outs :
  0 <= E.(cap) -> Inv E f -> f.(wm) = Watermark.wm f.(tracker) -> pushes E f bs = Ok (f', outs) ->
  f'.(wm) = Watermark.wm f'.(tracker).
Proof.
  intros Hcap. revert f f' outs. induction bs as [|[b now] bs IH]; intros f f' outs HI Hw; cbn [pushes].
  { by intros [= <- _]. }
  intros Hp. apply res_bind_ok in Hp as ([f1 out] & H1 & Hp). apply res_bind_ok in Hp as ([f2 outs2] & H2 & [= <- _]).
  destruct (batch_rows b) eqn:Hb.
  - rewrite push_empty in H1 by done. injection H1 as <- _.
    by apply (IH (set_delta (set_counts f 0 0 0) []) f2 outs2); [apply reset_inv|..].
  - destruct (arrive E (tracker f) b now) as [[t' w'] ps] eqn:Ha.
    pose proof (push_spec E f b now t' w' ps HI Hcap ltac:(by rewrite Hb) Ha) as Hs. rewrite H1 in Hs.
    destruct Hs as [[closed []] _]. apply (IH f1 f2 outs2); [done| |done].
    apply admit_spec in Ha as [-> _]; [congruence|done].
Qed.

(** The tracker a restart builds for the query of [t]. *)
Definition restart_of (t0 t : Watermark.tracker) : Prop :=
  t.(Watermark.idle_after) = None /\ t0.(Watermark.idle_after) = None /\
  t0.(Watermark.lateness) = t.(Watermark.lateness) /\ t0.(Watermark.expected) = t.(Watermark.expected).

Lemma restore_teq t0 t now :
  restart_of t0 t -> teq t (Watermark.restore t0 (Some (Watermark.to_json t)) now).
Proof. intros (H1 & H2 & H3 & H4). by split. Qed.

Lemma restrict_opened f m : Inv E f -> f.(evicted_micros) = Some m -> select (is_open m) (opened E f) = opened E f.
Proof.
  intros HI Hm. destruct (inv_micros E f HI m Hm) as [_ Hgt]. apply select_all.
  intros k Hk. apply is_open_spec. intros s Hs. by apply (Hgt k).
Qed.

(** A restored snapshot satisfies the invariant and holds the same windows. *)
Lemma restore_snapshot f t0 now now' f' :
  0 <= E.(cap) -> Inv E f -> f.(wm) = Watermark.wm f.(tracker) -> state f <> None ->
  restore_parts E (new_fold t0) (state_parts f) now now' = Ok f' ->
  Inv E f' /\ opened E f' = opened E f /\
  f'.(tracker) = Watermark.refresh (Watermark.restore t0 (Some (Watermark.to_json f.(tracker))) now) now'.
Proof.
  intros Hcap HI Hw Hst Hr. destruct (state_parts_spec f HI Hw) as (Hrows & Hev & Hraw).
  pose proof (restore_parts_spec t0 (state_parts f) now now' Hcap) as Hs. cbv zeta in Hs.
  rewrite Hr, Hev, Hrows, (Hraw Hst) in Hs. destruct Hs as (Hd & Ho & Ht & Hw' & Hm & Hth).
  assert (opened E f' = opened E f) as Hof.
  { rewrite Ho. destruct (evicted_micros f) as [m|] eqn:Em; [by apply restrict_opened|done]. }
  split_and!; [|done|done]. split; [done|..].
  - intros e He. rewrite Hth in He. rewrite Hm. destruct (evicted_micros f) as [m|]; [|done].
    injection He as <-. by exists m.
  - intros m Em. rewrite Hm in Em. destruct (inv_micros E f HI m Em) as [(w & Hwm & Hle) Hgt]. rewrite Hof.
    split; [|done]. rewrite Ht. destruct (ahead_refresh (Watermark.restore t0 (Some (Watermark.to_json (tracker f))) now) now' w)
      as (w1 & ? & ?); [exists w; split; [done|lia]|]. exists w1. split; [done|lia].
Qed.

(** C26: a snapshot round-trips, for windows aligned to the epoch, with idleness off on both sides
    ([restart_of]: the restored tracker has the running one's lateness and partitions and no idle
    timeout, since a restart re-earns idleness) and a running fold whose snapshot is not empty:
    a fold restored from its parts (whatever was on disk and whatever spills again) holds exactly
    its windows, and from there emits batch for batch and at the flush exactly what the running
    fold would have emitted, at any clock readings.  [early_snapshot_drops_maxima] is an empty
    snapshot, which forgets what the partitions delivered. *)
Theorem snapshot_round_trip t bs f outs t0 now now' f' :
  epoch_aligned E.(geom) = true -> 0 <= E.(cap) -> t.(Watermark.wm) = None ->
  pushes E (new_fold t) bs = Ok (f, outs) -> state f <> None -> restart_of t0 f.(tracker) ->
  restore_parts E (new_fold t0) (state_parts f) now now' = Ok f' ->
  opened E f' = opened E f /\
  forall bs1 bs2 g1 o1 g2 o2, map fst bs1 = map fst bs2 ->
    pushes E f bs1 = Ok (g1, o1) -> pushes E f' bs2 = Ok (g2, o2) ->
    o1 = o2 /\ option_list (flush E g1).2 = option_list (flush E g2).2.
Proof.
  intros Hal Hcap Hwm Hp Hst Hre Hr.
  pose proof (pushes_inv E bs _ f outs Hcap (new_fold_inv E t) Hp) as HI.
  pose proof (pushes_cached bs _ f outs Hcap (new_fold_inv E t) (eq_sym Hwm) Hp) as Hw.
  destruct (restore_snapshot f t0 now now' f' Hcap HI Hw Hst Hr) as (HI' & Ho & Ht).
  split; [done|]. intros bs1 bs2 g1 o1 g2 o2 Hbs H1 H2.
  destruct (pushes_simulate E bs _ _ f outs Hal Hcap (simulates_new E t) Hp) as (s & _ & Hsim & _).
  assert (simulates E f (Spec f.(tracker) (opened E f))) as Hs1 by (split; [done..|apply Hsim]).
  assert (simulates E f' (Spec f'.(tracker) (opened E f))) as Hs2
    by (split; [done..|rewrite Ho; apply Hsim]).
  destruct (pushes_simulate E bs1 _ _ g1 o1 Hal Hcap Hs1 H1) as (s1 & E1 & S1 & _).
  destruct (pushes_simulate E bs2 _ _ g2 o2 Hal Hcap Hs2 H2) as (s2 & E2 & S2 & _).
  assert (resumes f.(tracker) f'.(tracker)) as Hres.
  { rewrite Ht. intros n n'. pose proof (restore_teq t0 f.(tracker) now Hre) as Hteq.
    set (tr := Watermark.restore t0 _ now) in *.
    apply (teq_trans _ (Watermark.refresh tr now')); [by apply refresh_teq|]. apply refresh_twice, (teq_idle' _ _ Hteq). }
  destruct (spec_pushes_resumes bs1 bs2 _ _ (opened E f) Hres Hbs) as [R1 R2].
  rewrite E1, E2 in R1, R2. cbn in R1, R2. split; [done|].
  rewrite !(flush_spec E), (sim_open E _ _ S1), (sim_open E _ _ S2). by rewrite R2.
Qed.

(** ** A base snapshot and the changelog after it *)

(** Micro-batches after each of which the changelog entry is taken, oldest first. *)
Inductive logged (f : fold) : list part -> fold -> Prop :=
  | logged_nil : logged f [] f
  | logged_snoc ds f1 b now f2 out f3 d :
      logged f ds f1 -> push E f1 b now = Ok (f2, out) -> take_delta E f2 = (f3, Some d) ->
      logged f (ds ++ [d]) f3.

Lemma take_delta_spec (f f' : fold) d :
  take_delta E f = (f', Some d) ->
  f.(delta) <> [] /\ f' = set_delta f [] /\ part_rows d = Some (combine f.(delta)) /\
  meta_evicted d = f.(evicted_micros).
Proof.
  unfold take_delta. destruct (delta f) as [|x [|y l]] eqn:Hd; intros [= <- <-]; cbn [part_rows meta_evicted with_meta].
  - split_and!; [done|done| |done]. by rewrite (combine_one E.(merge)).
  - done.
Qed.

(** A step's state is the fold of its rows, less what its bound evicts. *)
Lemma stepped_restrict f t' w' ps f' out closed :
  stepped E f t' w' ps f' out closed ->
  opened E f' = restrict f'.(evicted_micros) (combine2 (opened E f) (pa ps)).
Proof.
  intros [HI _ _ _ _ Hsplit _ Hb _ _ _]. rewrite Hsplit. unfold restrict.
  destruct (evicted_micros f') as [m|] eqn:Hm.
  - rewrite (select_combine2 E.(merge)), (restrict_opened f' m HI Hm), select_none; [symmetry; apply (left_id ∅ combine2)|].
    intros k Hk. destruct (Hb k Hk) as (s & m' & Hs & Hm' & Hle). rewrite is_open_closed, negb_false_iff.
    unfold is_closed. rewrite Hs. apply Z.leb_le. congruence || (injection Hm' as ->; lia).
  - assert (closed = ∅) as ->; [|symmetry; apply (left_id ∅ combine2)].
    apply nonempty_false, not_true_iff_false. intros (k & Hk)%nonempty_true.
    destruct (Hb k Hk) as (s & m & _ & [=] & _).
Qed.

Lemma select_open_twice (m m' : Z) (p : partial) :
  m <= m' -> select (is_open m') (select (is_open m) p) = select (is_open m') p.
Proof.
  intros Hle. apply map_eq. intros k. rewrite !lookup_select. destruct (is_open m' k) eqn:Ho; [|done].
  assert (is_open m k = true) as ->; [|done]. apply is_open_spec. intros s Hs.
  pose proof (proj1 (is_open_spec m' k) Ho s Hs). lia.
Qed.

Lemma logged_spec f ds f' rest :
  0 <= E.(cap) -> Inv E f -> first_some meta_evicted rest = f.(evicted_micros) -> logged f ds f' ->
  Inv E f' /\ first_some meta_evicted (rev ds ++ rest) = f'.(evicted_micros) /\
  opened E f' = restrict f'.(evicted_micros) (combine2 (opened E f) (combine (omap part_rows ds))).
Proof.
  intros Hcap HI Hrest. induction 1 as [|ds f1 b now f2 out f3 d Hl IH Hp Htd].
  { split_and!; [done..|]. change (combine (omap part_rows [])) with (∅ : partial). rewrite (right_id ∅ combine2). unfold restrict.
    destruct (evicted_micros f) eqn:Hm; [|done]. symmetry. by apply restrict_opened. }
  destruct IH as (HI1 & Hev1 & Ho1). apply take_delta_spec in Htd as (Hne & -> & Hrows & Hev).
  destruct (batch_rows b) eqn:Hb.
  { rewrite push_empty in Hp by done. by injection Hp as <- _. }
  destruct (arrive E (tracker f1) b now) as [[t' w'] ps] eqn:Ha.
  pose proof (push_spec E f1 b now t' w' ps HI1 Hcap ltac:(by rewrite Hb) Ha) as Hs. rewrite Hp in Hs.
  destruct Hs as [[closed Hst] _]. pose proof (stepped_restrict _ _ _ _ _ _ _ Hst) as Hr.
  destruct Hst as [HI2 _ _ Hd _ _ _ _ Hmono _ _].
  split_and!.
  - destruct HI2 as [[] ? ?]. split; [by split|done..].
  - rewrite rev_app_distr. cbn [rev app first_some]. rewrite Hev. cbn [evicted_micros set_delta].
    destruct (evicted_micros f2) as [m|] eqn:Hm2; [done|]. rewrite Hev1.
    destruct (evicted_micros f1) as [m1|]; [|done]. by destruct (Hmono m1 eq_refl) as (? & [=] & _).
  - change (opened E (set_delta f2 [])) with (opened E f2). rewrite Hr, omap_app. cbn [omap list_omap]. rewrite Hrows.
    rewrite (combine_app E.(merge)), (combine_one E.(merge)), Hd, (assoc combine2).
    cbn [evicted_micros set_delta]. rewrite Ho1. unfold restrict.
    destruct (evicted_micros f2) as [m2|] eqn:Hm2, (evicted_micros f1) as [m1|]; [..|done]; try done.
    + destruct (Hmono m1 eq_refl) as (m & [= <-] & Hle).
      rewrite !(select_combine2 E.(merge) (is_open m2)), select_open_twice by done.
      by rewrite !(select_combine2 E.(merge) (is_open m2)).
    + by destruct (Hmono m1 eq_refl) as (? & [=] & _).
Qed.

(** a base snapshot followed by the changelog of any batches restores to exactly the
    windows the fold held after the last of them: the one integer that rides with an entry
    stands for everything evicted since the base. *)
Theorem changelog_restores_windows t bs f outs ds f' t0 now now' r :
  0 <= E.(cap) -> t.(Watermark.wm) = None -> pushes E (new_fold t) bs = Ok (f, outs) -> logged f ds f' ->
  restore_parts E (new_fold t0) (state_parts f ++ ds) now now' = Ok r ->
  opened E r = opened E f'.
Proof.
  intros Hcap Hwm Hp Hl Hr.
  pose proof (pushes_inv E bs _ f outs Hcap (new_fold_inv E t) Hp) as HI.
  pose proof (pushes_cached bs _ f outs Hcap (new_fold_inv E t) (eq_sym Hwm) Hp) as Hw.
  destruct (state_parts_spec f HI Hw) as (Hrows & Hev & _).
  destruct (logged_spec f ds f' (rev (state_parts f)) Hcap HI Hev Hl) as (_ & Hev' & Ho).
  pose proof (restore_parts_spec t0 (state_parts f ++ ds) now now' Hcap) as Hs. cbv zeta in Hs.
  rewrite Hr, rev_app_distr, Hev', omap_app, (combine_app E.(merge)), Hrows in Hs.
  destruct Hs as (_ & -> & _). by rewrite Ho.
Qed.
End Checkpoint.

(** ** Concrete checkpoints *)

Abbreviation tiny := (count_engine (Tumbling 10 0) 16).
Abbreviation tiny_laws := (count_engine_laws (Tumbling 10 0) 16 eq_refl).

Definition value {A} (r : res A) (a : A) : A := match r with Ok x => x | Raise _ => a end.

(** The run of [busy] after two batches, with two runs on disk, and its restored snapshot. *)
Definition mid : fold Z Z * list (list (gmap (option Z * Z) Z)) :=
  value (pushes tiny (new_fold (plain_tracker 20)) (take 2 busy)) (new_fold (plain_tracker 20), []).
Definition back : fold Z Z :=
  value (restore_parts tiny (new_fold (plain_tracker 20)) (state_parts mid.1) 50 60) (new_fold (plain_tracker 20)).
Definition rest_later : list (source_batch (option Z * Z) * (nat -> Z)) :=
  map (fun p => (p.1, fun _ => 99)) (drop 2 busy).
Definition after (f : fold Z Z) (bs : list (source_batch (option Z * Z) * (nat -> Z))) : fold Z Z * list (list (gmap (option Z * Z) Z)) :=
  value (pushes tiny f bs) (f, []).

Lemma snapshot_round_trip_witness :
  length (disk_runs mid.1) = 2%nat /\ length (state_parts mid.1) = 3%nat /\
  opened tiny back = opened tiny mid.1 /\
  (after mid.1 (drop 2 busy)).2 = (after back rest_later).2 /\
  option_list (flush tiny (after mid.1 (drop 2 busy)).1).2 = option_list (flush tiny (after back rest_later).1).2.
Proof.
  split; [vm_compute; reflexivity|]. split; [vm_compute; reflexivity|].
  destruct (snapshot_round_trip tiny (WindowEngineLaws0 := tiny_laws)
    (plain_tracker 20) (take 2 busy) mid.1 mid.2 (plain_tracker 20) 50 60 back) as [Ho Hrest].
  - reflexivity.
  - cbn; lia.
  - reflexivity.
  - vm_compute; reflexivity.
  - vm_compute; discriminate.
  - vm_compute; repeat split; reflexivity.
  - vm_compute; reflexivity.
  - split; [exact Ho|].
    apply (Hrest (drop 2 busy) rest_later (after mid.1 (drop 2 busy)).1 _ (after back rest_later).1 _);
      vm_compute; reflexivity.
Defined.

Definition base : fold Z Z * list (list (gmap (option Z * Z) Z)) :=
  after (new_fold (plain_tracker 20)) (take 1 busy).
Definition second : fold Z Z * list (gmap (option Z * Z) Z) :=
  value (push tiny base.1 (events [(Some 37, 1); (Some 8, 1); (Some 16, 2)]) still) (base.1, []).
Definition entry : fold Z Z * option (@part Z Z _ _) := take_delta tiny second.1.
Definition entry_part : @part Z Z _ _ := default (Part None None None) entry.2.
Definition replayed : fold Z Z :=
  value (restore_parts tiny (new_fold (plain_tracker 20)) (state_parts base.1 ++ [entry_part]) 5 5) base.1.

Lemma changelog_restores_windows_witness :
  meta_evicted entry_part = Some 7 /\ size (opened tiny entry.1) = 4%nat /\
  opened tiny replayed = opened tiny entry.1.
Proof.
  split; [vm_compute; reflexivity|]. split; [vm_compute; reflexivity|].
  apply (changelog_restores_windows tiny (WindowEngineLaws0 := tiny_laws)
    (plain_tracker 20) (take 1 busy) base.1 base.2 [entry_part] entry.1 (plain_tracker 20) 5 5 replayed).
  - cbn; lia.
  - reflexivity.
  - vm_compute; reflexivity.
  - apply (logged_snoc tiny base.1 [] base.1 (events [(Some 37, 1); (Some 8, 1); (Some 16, 2)]) still
      second.1 second.2 entry.1 entry_part (logged_nil _ _)); vm_compute; reflexivity.
  - vm_compute; reflexivity.
Defined.

(** A base after one batch, a second batch logged as a changelog entry, a restore from the
    two, and the same later batches to the running and to the restored fold. *)
Definition crash_and_replay {Row Proj K M V} `{Countable K} (E : window_engine Row Proj K M V)
    (t : Watermark.tracker) (b0 b1 : source_batch Row) (later : list (source_batch Row * (nat -> Z))) :=
  let* r0 := pushes E (new_fold t) [(b0, still)] in
  let* r1 := push E r0.1 b1 still in
  let '(f2, d) := take_delta E r1.1 in
  let* f3 := restore_parts E (new_fold t) (state_parts r0.1 ++ option_list d) 0 0 in
  let* live := pushes E f2 later in
  let* again := pushes E f3 later in
  Ok (r1.2, f2.(wm), f3.(wm), live.2, again.2).

(** event time rewinds across a changelog: the restore reads the frontier of the base,
    not of the last entry.  Here the second batch moves the frontier to 27 and emits the
    window at 0; after a restore from the base and that batch's entry the frontier is 5, an
    event at 8, which the running fold drops as late, is admitted, and the window at 0 is
    emitted a second time for the same key. *)
Theorem changelog_rewinds_event_time :
  crash_and_replay (count_engine (Tumbling 10 0) 1000) (plain_tracker 0)
    (events [(Some 5, 1)]) (events [(Some 27, 1)])
    [(events [(Some 8, 1)], still); (events [(Some 29, 1)], still)] =
  Ok ([{[(Some 0, 1) := 1]}], Some 27, Some 5, [[]; []], [[]; [{[(Some 0, 1) := 1]}]]).
Proof. vm_compute. reflexivity. Qed.

(** An engine whose plan drops the rows with a non-positive key, over two partitions. *)
Definition filtering : window_engine (option Z * Z) (option Z * Z) Z Z Z :=
  {| geom := Tumbling 10 0; merge := Z.add; finalize_group := id;
     execute_input := fun rs => [List.filter (fun r => 0 <? r.2) rs];
     partial_aggregate := count_rows (Tumbling 10 0);
     chunk_rows := fun rs => [rs]; chunk_proj := fun rs => [rs]; morsels := fun p => [p];
     approximate_median := lower_median; retained_bytes := fun p => 8 * Z.of_nat (size p);
     row_time := fst; row_partition := fun r => [Some (if 100 <? r.2 then "1"%string else "0"%string)];
     proj_time := fst; proj_partition := fun _ => []; proj_present := false; cap := 1000 |}.

(** The frontiers of a running fold and of one restored from its snapshot, after one more
    batch. *)
Definition snapshot_and_go (E : window_engine (option Z * Z) (option Z * Z) Z Z Z) (t : Watermark.tracker)
    (b0 b1 : source_batch (option Z * Z)) :=
  let* r0 := pushes E (new_fold t) [(b0, still)] in
  let* g := restore_parts E (new_fold t) (state_parts r0.1) 0 0 in
  let* live := push E r0.1 b1 still in
  let* again := push E g b1 still in
  Ok (length (state_parts r0.1), live.1.(wm), again.1.(wm)).

(** a snapshot taken before there is a frontier drops the tracker: partition 0 has
    delivered 1000 but its rows are filtered away by the plan and partition 1 is silent, so
    there is no state and no frontier and the checkpoint is empty; when partition 1 then
    delivers 400 the running fold has a frontier and the restored one has none. *)
Theorem early_snapshot_drops_maxima :
  snapshot_and_go filtering (Watermark.new_tracker 0 0 [[Some "0"%string]; [Some "1"%string]] 0)
    (SourceBatch true true [(Some 1000, -5)]) (SourceBatch true true [(Some 400, 101)]) =
  Ok (0%nat, Some 400, None).
Proof. vm_compute. reflexivity. Qed.
