(* ===== verification/BufferPool.v ===== *)
(** * The buffer pool

    python/batcher/carbonite/memory/pool.py: the accounting pool ([_FallbackPool], the
    documented mirror of the native one), [BufferPool.reserve] as a block that is entered,
    measured and left by concurrent queries, and the process-wide pool that
    [process_pool] reconciles to the limit its callers ask for.  A pool has an address, since a
    caller keeps the pool it read when [reset_process_pool] drops it; and the shrink of an idle
    pool is two steps, the test and the [set_limit], because a reservation does not take the
    lock that spans them. *)

From S2P Require Import Prelude.

Module BufferPool.

(** [_FallbackPool]. *)
Record pool := Pool { limit : Z; used : Z; peak : Z; denied : Z; over_released : Z }.

Definition new_pool (limit_bytes : Z) : pool := Pool limit_bytes 0 0 0 0.

Definition try_reserve (p : pool) (n_bytes : Z) : pool * bool :=
  if p.(limit) <? p.(used) + n_bytes
  then (Pool p.(limit) p.(used) p.(peak) (p.(denied) + 1) p.(over_released), false)
  else let u := p.(used) + n_bytes in
       (Pool p.(limit) u (Z.max p.(peak) u) p.(denied) p.(over_released), true).

Definition release (p : pool) (n_bytes : Z) : pool :=
  let freed := Z.min p.(used) n_bytes in
  Pool p.(limit) (p.(used) - freed) p.(peak) p.(denied) (p.(over_released) + (n_bytes - freed)).

Definition set_limit (p : pool) (limit_bytes : Z) : pool :=
  Pool limit_bytes p.(used) p.(peak) p.(denied) p.(over_released).

Definition available (p : pool) : Z := Z.max 0 (p.(limit) - p.(used)).

(** [BufferPool]: the wrapped pool and the measurement counters beside it. *)
Record buffer_pool := Buffer { inner : pool; stat_peak : Z; stat_denied : Z }.

Definition new_buffer (limit_bytes : Z) : buffer_pool := Buffer (new_pool limit_bytes) 0 0.

(** The [peak_used] and [denied] properties. *)
Definition peak_used (b : buffer_pool) : Z := Z.max b.(stat_peak) b.(inner).(peak).
Definition denials (b : buffer_pool) : Z := Z.max b.(stat_denied) b.(inner).(denied).

(** [reserve] before the block: the grant, which takes the pool's lock ... *)
Definition reserve_enter (b : buffer_pool) (n_bytes : Z) : buffer_pool * bool :=
  if n_bytes <=? 0 then (b, true)
  else let (p, granted) := try_reserve b.(inner) n_bytes in
       (Buffer p b.(stat_peak) b.(stat_denied), granted).

(** ... the measurement, which takes the statistics lock ... *)
Definition reserve_record (b : buffer_pool) (granted : bool) : buffer_pool :=
  if granted then Buffer b.(inner) (Z.max b.(stat_peak) b.(inner).(used)) b.(stat_denied)
  else Buffer b.(inner) b.(stat_peak) (b.(stat_denied) + 1).

(** ... and the exit, on every path out of the block. *)
Definition reserve_exit (b : buffer_pool) (n_bytes : Z) (granted : bool) : buffer_pool :=
  if granted then Buffer (release b.(inner) n_bytes) b.(stat_peak) b.(stat_denied) else b.

(** The module state: every pool made, by address, [_process_pool], [_pending_shrink], and the
    holder of [_process_pool_lock] that found its pool idle and is about to resize it. *)
Record process := Process {
  heap : list buffer_pool; current : option nat; pending_shrink : option Z; shrinking : option (nat * Z) }.

Definition resize (b : buffer_pool) (l : Z) : buffer_pool :=
  Buffer (set_limit b.(inner) l) b.(stat_peak) b.(stat_denied).
Definition set_pool (s : process) (i : nat) (b : buffer_pool) : process :=
  Process (<[i := b]> s.(heap)) s.(current) s.(pending_shrink) s.(shrinking).

(** [process_pool], the region that creates the pool, under the lock ... *)
Definition create_pool (s : process) (limit_bytes : Z) : process :=
  match s.(current) with
  | None => Process (s.(heap) ++ [new_buffer limit_bytes]) (Some (length s.(heap))) None s.(shrinking)
  | Some _ => s
  end.

(** ... the region that reconciles the pool the caller read, up to the resize of an idle one ... *)
Definition reconcile (s : process) (i : nat) (limit_bytes : Z) : process :=
  match s.(heap) !! i with
  | None => s
  | Some b =>
      if b.(inner).(limit) <? limit_bytes then Process (<[i := resize b limit_bytes]> s.(heap)) s.(current) None None
      else if limit_bytes <? b.(inner).(limit) then
        if b.(inner).(used) =? 0 then Process s.(heap) s.(current) s.(pending_shrink) (Some (i, limit_bytes))
        else Process s.(heap) s.(current) (Some limit_bytes) None
      else match s.(pending_shrink) with
           | Some l => if b.(inner).(used) =? 0 then Process s.(heap) s.(current) s.(pending_shrink) (Some (i, l)) else s
           | None => s
           end
  end.

(** ... and that resize, which ends the region. *)
Definition apply_shrink (s : process) : process :=
  match s.(shrinking) with
  | None => s
  | Some (i, l) =>
      match s.(heap) !! i with
      | None => Process s.(heap) s.(current) None None
      | Some b => Process (<[i := resize b l]> s.(heap)) s.(current) None None
      end
  end.

(** A call nothing interrupts. *)
Definition process_pool (s : process) (limit_bytes : Z) : process :=
  match s.(current) with
  | None => create_pool s limit_bytes
  | Some i => apply_shrink (reconcile s i limit_bytes)
  end.

(** [reset_process_pool]. *)
Definition reset_process_pool (s : process) : process := Process s.(heap) None None s.(shrinking).

(** ** Concurrent blocks *)

(** A block against a pool: its address, its size, whether it was granted, and whether it has
    been measured yet. *)
Record block := Block { addr : nat; bytes : Z; granted : bool; recorded : bool }.

Section Steps.
(** The largest limit a caller asks for, and whether a reservation may begin between the test
    and the resize of a shrink. *)
Variable most : Z.
Variable race : bool.

(** The steps queries interleave, each under the lock the code takes for it. *)
Inductive step : process * list block -> process * list block -> Prop :=
  | step_create s bs l : 0 <= l <= most -> s.(shrinking) = None -> step (s, bs) (create_pool s l, bs)
  | step_reconcile s bs i l : 0 <= l <= most -> s.(shrinking) = None -> step (s, bs) (reconcile s i l, bs)
  | step_shrink s bs : step (s, bs) (apply_shrink s, bs)
  | step_reset s bs : s.(shrinking) = None -> step (s, bs) (reset_process_pool s, bs)
  | step_enter s bs i b n :
      s.(heap) !! i = Some b -> 0 < n -> race = true \/ (forall l, s.(shrinking) <> Some (i, l)) ->
      step (s, bs) (set_pool s i (reserve_enter b n).1, Block i n (reserve_enter b n).2 false :: bs)
  | step_record s bs1 bs2 i b n g :
      s.(heap) !! i = Some b ->
      step (s, bs1 ++ Block i n g false :: bs2) (set_pool s i (reserve_record b g), bs1 ++ Block i n g true :: bs2)
  | step_exit s bs1 bs2 i b n g :
      s.(heap) !! i = Some b ->
      step (s, bs1 ++ Block i n g true :: bs2) (set_pool s i (reserve_exit b n g), bs1 ++ bs2).

Definition initial : process * list block := (Process [] None None None, []).
Definition reachable (st : process * list block) : Prop := rtc step initial st.

(** Bytes the open blocks of a pool hold, and refusals not yet measured. *)
Definition held (i : nat) (bs : list block) : Z :=
  foldr (fun b acc => (if b.(granted) && (b.(addr) =? i)%nat then b.(bytes) else 0) + acc) 0 bs.
Definition unmeasured (i : nat) (bs : list block) : Z :=
  foldr (fun b acc => (if b.(granted) || b.(recorded) || negb (b.(addr) =? i)%nat then 0 else 1) + acc) 0 bs.

Record pool_ok (i : nat) (b : buffer_pool) (sh : option (nat * Z)) (bs : list block) : Prop := {
  ok_used : b.(inner).(used) = held i bs;
  ok_limit : 0 <= b.(inner).(limit) <= most;
  ok_peak : b.(inner).(used) <= b.(inner).(peak) <= most;
  ok_stat_peak : b.(stat_peak) <= b.(inner).(peak);
  ok_denied : b.(inner).(denied) = b.(stat_denied) + unmeasured i bs;
  ok_over : b.(inner).(over_released) = 0;
  ok_fits : race = false -> b.(inner).(used) <= b.(inner).(limit);
  ok_idle : race = false -> forall l, sh = Some (i, l) -> b.(inner).(used) = 0;
}.

Record ok (st : process * list block) : Prop := {
  ok_sizes : Forall (fun x => 0 < x.(bytes) /\ (x.(addr) < length st.1.(heap))%nat) st.2;
  ok_pools : forall i b, st.1.(heap) !! i = Some b -> pool_ok i b st.1.(shrinking) st.2;
  ok_pending : forall l, st.1.(pending_shrink) = Some l -> 0 <= l <= most;
  ok_shrinking : forall i l, st.1.(shrinking) = Some (i, l) -> 0 <= l <= most;
}.

Lemma held_app i bs1 bs2 : held i (bs1 ++ bs2) = held i bs1 + held i bs2.
Proof. induction bs1 as [|b bs1 IH]; cbn [held app foldr]; [done|]. fold (held i (bs1 ++ bs2)) (held i bs1). rewrite IH. lia. Qed.
Lemma unmeasured_app i bs1 bs2 : unmeasured i (bs1 ++ bs2) = unmeasured i bs1 + unmeasured i bs2.
Proof.
  induction bs1 as [|b bs1 IH]; cbn [unmeasured app foldr]; [done|].
  fold (unmeasured i (bs1 ++ bs2)) (unmeasured i bs1). rewrite IH. lia.
Qed.
Lemma held_nonneg i bs n : Forall (fun x => 0 < x.(bytes) /\ (x.(addr) < n)%nat) bs -> 0 <= held i bs.
Proof.
  induction 1 as [|b bs Hb _ IH]; cbn [held foldr]; [done|]. fold (held i bs). destruct (_ && _); lia.
Qed.
Lemma unmeasured_nonneg i bs : 0 <= unmeasured i bs.
Proof. induction bs as [|b bs IH]; cbn [unmeasured foldr]; [done|]. fold (unmeasured i bs). destruct (_ || _); lia. Qed.
Lemma held_cons i b bs : held i (b :: bs) = (if b.(granted) && (b.(addr) =? i)%nat then b.(bytes) else 0) + held i bs.
Proof. done. Qed.
Lemma unmeasured_cons i b bs :
  unmeasured i (b :: bs) = (if b.(granted) || b.(recorded) || negb (b.(addr) =? i)%nat then 0 else 1) + unmeasured i bs.
Proof. done. Qed.

(** No block is against a pool yet to be made. *)
Lemma fresh_pool i bs : Forall (fun x => 0 < x.(bytes) /\ (x.(addr) < i)%nat) bs -> held i bs = 0 /\ unmeasured i bs = 0.
Proof.
  induction 1 as [|b bs [_ Hb] _ [IH1 IH2]]; [done|]. rewrite held_cons, unmeasured_cons, IH1, IH2.
  rewrite (proj2 (Nat.eqb_neq (addr b) i)) by lia. by rewrite andb_false_r, orb_true_r.
Qed.

#[local] Ltac open_ok H := destruct H as [Hu Hl Hp Hsp Hd Ho Hfit Hidle].
#[local] Ltac counts := rewrite ?held_app, ?held_cons, ?unmeasured_app, ?unmeasured_cons in *; cbn [granted recorded addr bytes andb orb negb] in *.

(** A resize changes the limit of one pool, which was idle unless reservations race. *)
Lemma resize_ok s bs i b l pend sh :
  ok (s, bs) -> s.(heap) !! i = Some b -> 0 <= l <= most -> (race = false -> b.(inner).(used) <= l) ->
  (forall p, pend = Some p -> 0 <= p <= most) -> sh = None ->
  ok (Process (<[i := resize b l]> s.(heap)) s.(current) pend sh, bs).
Proof.
  intros [Hsz Hpools _ _] Hi Hl0 Hle Hpend ->. split; cbn [fst snd heap pending_shrink shrinking] in *; [by rewrite length_insert| |done|done].
  intros j b' [[-> [<- _]]|[Hne Hj]]%list_lookup_insert_Some.
  - pose proof (Hpools _ _ Hi) as Hok. open_ok Hok. split; cbn; auto; done.
  - pose proof (Hpools _ _ Hj) as Hok. open_ok Hok. split; auto; done.
Qed.

Lemma create_ok s bs l : 0 <= l <= most -> ok (s, bs) -> ok (create_pool s l, bs).
Proof.
  intros Hl0 Hok. unfold create_pool. destruct (current s); [done|]. destruct Hok as [Hsz Hpools Hpend Hsh].
  split; cbn [fst snd heap pending_shrink shrinking] in *; [|..|done|done].
  - eapply Forall_impl; [exact Hsz|]. intros x [? ?]. rewrite length_app. split; [done|lia].
  - intros i b [Hi|[Hge Hi]]%lookup_app_Some; [by apply Hpools|].
    apply list_lookup_singleton_Some in Hi as [Hz <-]. assert (i = length (heap s)) as -> by lia.
    destruct (fresh_pool _ _ Hsz) as [H1 H2]. split; cbn; rewrite ?H1, ?H2; auto; lia.
Qed.

Lemma reconcile_ok s bs i l : 0 <= l <= most -> s.(shrinking) = None -> ok (s, bs) -> ok (reconcile s i l, bs).
Proof.
  intros Hl0 Hnone Hok. unfold reconcile. destruct (s.(heap) !! i) as [b|] eqn:Hi; [|done].
  pose proof (ok_pools _ Hok _ _ Hi) as Hb.
  assert (forall pend i' l', (forall p, pend = Some p -> 0 <= p <= most) -> 0 <= l' <= most -> s.(heap) !! i' = Some b -> b.(inner).(used) = 0 ->
    ok (Process s.(heap) s.(current) pend (Some (i', l')), bs)) as Htest.
  { intros pend i' l' Hpd Hl' Hi' Hz. destruct Hok as [Hsz Hpools _ _]. split; cbn in *; [done| |done|by intros ? ? [= <- <-]].
    intros j b' Hj. pose proof (Hpools _ _ Hj) as Hj'. open_ok Hj'. split; auto. intros _ l'' [= <- <-]. by simplify_eq. }
  pose proof (ok_pending _ Hok) as Hpend. cbn in Hpend.
  destruct (Z.ltb_spec b.(inner).(limit) l).
  { apply resize_ok; try done. intros Hr. pose proof (ok_fits _ _ _ _ Hb Hr). lia. }
  destruct (Z.ltb_spec l b.(inner).(limit)).
  - destruct (Z.eqb_spec b.(inner).(used) 0); [by apply Htest|].
    destruct Hok as [Hsz Hpools _ _]. cbn in *. rewrite Hnone in Hpools. split; cbn; [done|done|by intros ? [= <-]|done].
  - destruct (pending_shrink s) as [p|] eqn:Ep; [|done]. destruct (Z.eqb_spec b.(inner).(used) 0); [|done].
    apply Htest; auto.
Qed.

Lemma apply_shrink_ok s bs : ok (s, bs) -> ok (apply_shrink s, bs).
Proof.
  intros Hok. unfold apply_shrink. destruct (shrinking s) as [[i l]|] eqn:Hsh; [|done].
  pose proof (ok_shrinking _ Hok i l Hsh) as Hl0. destruct (s.(heap) !! i) as [b|] eqn:Hi.
  - apply resize_ok; try done. intros Hr. pose proof (ok_pools _ Hok _ _ Hi) as Hb. cbn in Hb. rewrite Hsh in Hb.
    pose proof (ok_idle _ _ _ _ Hb Hr l eq_refl). lia.
  - destruct Hok as [Hsz Hpools _ _]. cbn in *. split; cbn; [done| |done|done]. intros j b Hj. pose proof (Hpools _ _ Hj) as Hj'. open_ok Hj'. by split.
Qed.

(** A step of one block against one pool. *)
Lemma set_pool_ok s bs bs' i b b' :
  ok (s, bs) -> s.(heap) !! i = Some b ->
  Forall (fun x => 0 < x.(bytes) /\ (x.(addr) < length s.(heap))%nat) bs' -> pool_ok i b' s.(shrinking) bs' ->
  (forall j, j <> i -> held j bs' = held j bs /\ unmeasured j bs' = unmeasured j bs) ->
  ok (set_pool s i b', bs').
Proof.
  intros [Hsz Hpools Hpend Hsh] Hi Hsz' Hb' Hother. split; cbn [fst snd set_pool heap pending_shrink shrinking] in *; [by rewrite length_insert| |done|done].
  intros j b1 [[-> [<- _]]|[Hne Hj]]%list_lookup_insert_Some; [done|].
  pose proof (Hpools _ _ Hj) as Hok. open_ok Hok. destruct (Hother j) as [H1 H2]; [done|]. split; rewrite ?H1, ?H2; auto.
Qed.

Lemma enter_ok s bs i b n : ok (s, bs) -> s.(heap) !! i = Some b -> 0 < n -> race = true \/ (forall l, s.(shrinking) <> Some (i, l)) ->
  ok (set_pool s i (reserve_enter b n).1, Block i n (reserve_enter b n).2 false :: bs).
Proof.
  intros Hok Hi Hn Hrace. pose proof (ok_pools _ Hok _ _ Hi) as Hb. pose proof (ok_sizes _ Hok) as Hsz. cbn in Hb, Hsz. open_ok Hb.
  pose proof (held_nonneg i _ _ Hsz). apply lookup_lt_Some in Hi as Hlt.
  eapply set_pool_ok; [exact Hok|exact Hi|by constructor| |].
  - unfold reserve_enter, try_reserve. destruct (Z.leb_spec n 0); [lia|].
    destruct (Z.ltb_spec b.(inner).(limit) (b.(inner).(used) + n)); cbn [fst snd]; split; cbn [inner limit used peak denied over_released stat_peak stat_denied];
      counts; rewrite ?Nat.eqb_refl; cbn [negb]; auto; try lia; (intros Hr l Hl'; destruct Hrace as [?|Hrace]; [congruence|by destruct (Hrace l)]).
  - intros j Hj. counts. rewrite (proj2 (Nat.eqb_neq i j)) by done. by rewrite andb_false_r, orb_true_r.
Qed.

Lemma pool_step_ok st st' : ok st -> step st st' -> ok st'.
Proof.
  intros Hok Hst. destruct Hst as [s bs l Hl Hn|s bs i l Hl Hn|s bs|s bs Hn|s bs i b n Hi Hn Hr|s bs1 bs2 i b n g Hi|s bs1 bs2 i b n g Hi].
  - by apply create_ok.
  - by apply reconcile_ok.
  - by apply apply_shrink_ok.
  - destruct Hok as [Hsz Hpools Hpend Hsh]. by split.
  - by apply enter_ok.
  - pose proof (ok_pools _ Hok _ _ Hi) as Hb. pose proof (ok_sizes _ Hok) as Hsz. cbn in Hb, Hsz. open_ok Hb.
    apply Forall_app in Hsz as [H1 [H2 H3]%Forall_cons]. eapply set_pool_ok; [exact Hok|exact Hi|by apply Forall_app; auto| |].
    + counts. rewrite Nat.eqb_refl in *. unfold reserve_record. destruct g; cbn [andb orb negb] in *; split; cbn [inner stat_peak stat_denied]; counts; rewrite ?Nat.eqb_refl; cbn [andb orb negb]; auto; lia.
    + intros j Hj. counts. rewrite (proj2 (Nat.eqb_neq i j)) by done. by destruct g.
  - pose proof (ok_pools _ Hok _ _ Hi) as Hb. pose proof (ok_sizes _ Hok) as Hsz. cbn in Hb, Hsz. open_ok Hb.
    apply Forall_app in Hsz as [H1 [H2 H3]%Forall_cons]. cbn in H2.
    pose proof (held_nonneg i _ _ H1). pose proof (held_nonneg i _ _ H3).
    eapply set_pool_ok; [exact Hok|exact Hi|by apply Forall_app; auto| |].
    + counts. rewrite Nat.eqb_refl in *. unfold reserve_exit. destruct g; cbn [andb orb negb] in *; split; cbn [inner release limit used peak denied over_released stat_peak stat_denied]; counts; auto; try lia.
      * intros Hr. specialize (Hfit Hr). lia.
      * intros Hr l Hl'. specialize (Hidle Hr l Hl'). lia.
    + intros j Hj. counts. rewrite (proj2 (Nat.eqb_neq i j)) by done. by destruct g.
Qed.

Lemma reachable_ok st : 0 <= most -> reachable st -> ok st.
Proof.
  unfold reachable. intros Hm Hr. assert (ok initial) as H0 by (by split). revert H0.
  induction Hr as [|x y z Hxy _ IH]; [done|]. intros Hx. apply IH. by eapply pool_step_ok.
Qed.

(** ** Properties *)

End Steps.

(** reconciling: growth applies at once, a shrink of an idle pool applies at once, a
    shrink of a busy pool leaves the limit and is remembered, and the remembered figure is
    applied by the next call that asks for the limit in force and finds the pool idle. *)
Theorem reconcile_limit s i b l :
  s.(current) = Some i -> s.(heap) !! i = Some b -> s.(shrinking) = None ->
  let s' := process_pool s l in
  exists b', s'.(heap) !! i = Some b' /\ b'.(inner).(used) = b.(inner).(used) /\ s'.(shrinking) = None /\
  (b.(inner).(limit) < l -> b'.(inner).(limit) = l /\ s'.(pending_shrink) = None) /\
  (l < b.(inner).(limit) -> b.(inner).(used) = 0 -> b'.(inner).(limit) = l /\ s'.(pending_shrink) = None) /\
  (l < b.(inner).(limit) -> b.(inner).(used) <> 0 ->
     b'.(inner).(limit) = b.(inner).(limit) /\ s'.(pending_shrink) = Some l /\
     forall idle, idle.(inner).(limit) = b'.(inner).(limit) -> idle.(inner).(used) = 0 ->
       let s2 := process_pool (set_pool s' i idle) b'.(inner).(limit) in
       s2.(heap) !! i = Some (resize idle l) /\ s2.(pending_shrink) = None).
Proof.
  intros Hc Hi Hs. unfold process_pool, reconcile, apply_shrink. rewrite Hc, Hi.
  assert (forall c : buffer_pool, <[i := c]> (heap s) !! i = Some c) as Hins by (intros c; apply list_lookup_insert_eq; by eapply lookup_lt_Some).
  destruct (Z.ltb_spec b.(inner).(limit) l).
  { exists (resize b l). cbn. rewrite Hins. split_and!; try done; lia. }
  destruct (Z.ltb_spec l b.(inner).(limit)).
  - destruct (Z.eqb_spec b.(inner).(used) 0); cbn; rewrite ?Hi.
    + exists (resize b l). cbn. rewrite Hins. split_and!; try done; lia.
    + exists b. cbn. split_and!; try done; try lia. intros _ _. split_and!; [done..|].
      intros idle Hlim Hidle. rewrite Hins, Hlim, Z.ltb_irrefl, Hidle. cbn. rewrite Hins. split; [|done]. cbn.
      apply list_lookup_insert_eq. rewrite length_insert. by eapply lookup_lt_Some.
  - destruct (pending_shrink s) as [p|] eqn:Ep; [destruct (Z.eqb_spec b.(inner).(used) 0)|]; cbn; rewrite ?Hs, ?Hi; cbn; rewrite ?Hins, ?Hi;
      (eexists; split; [done|]; split_and!; cbn; try done; lia).
Qed.

(** A deferred shrink is not superseded by a later call that asks for the limit in force:
    after a busy pool of 100 defers a shrink to 50, every later caller asks for 100, and the
    first of them to find the pool idle is left with 50. *)
Theorem stale_shrink_lands :
  let busy := Process [Buffer (Pool 100 10 10 0 0) 10 0] (Some 0%nat) None None in
  let deferred := process_pool busy 50 in
  let again := process_pool deferred 100 in
  let idle := set_pool again 0 (Buffer (Pool 100 0 10 0 0) 10 0) in
  again = deferred /\
  map (fun b => b.(inner).(limit)) (process_pool idle 100).(heap) = [50].
Proof. done. Qed.

(** *** Concrete interleavings *)

(** A grant of 60 of 100 bytes, a refusal of 60 more, and a shrink to 50 that is remembered. *)
Definition after_two : process * list block :=
  (Process [Buffer (Pool 100 60 60 1 0) 60 0] (Some 0%nat) (Some 50) None, [Block 0 60 false false; Block 0 60 true true]).

Lemma after_two_reachable : reachable 100 false after_two.
Proof.
  eapply rtc_l; [apply (step_create _ _ _ _ 100); [lia|done]|].
  eapply rtc_l; [apply (step_enter _ _ _ _ 0 (new_buffer 100) 60); [done|lia|by right]|]. cbn.
  eapply rtc_l; [eapply (step_record _ _ _ [] [] 0 _ 60 true); done|]. cbn.
  eapply rtc_l; [eapply (step_enter _ _ _ _ 0 _ 60); [done|lia|by right]|]. cbn.
  eapply rtc_l; [apply (step_reconcile _ _ _ _ 0 50); [lia|done]|]. cbn. apply rtc_refl.
Qed.


(** A reservation that begins between the idle test and the resize of a shrink: a pool of 50
    bytes holds 80. *)
Lemma reserve_in_shrink_window : exists s bs b,
  reachable 100 true (s, bs) /\ s.(heap) !! 0%nat = Some b /\ b.(inner).(limit) = 50 /\ b.(inner).(used) = 80.
Proof.
  eexists _, _, _. split.
  - eapply rtc_l; [apply (step_create _ _ _ _ 100); [lia|done]|].
    eapply rtc_l; [apply (step_reconcile _ _ _ _ 0 50); [lia|done]|]. cbn.
    eapply rtc_l; [apply (step_enter _ _ _ _ 0 (new_buffer 100) 80); [done|lia|by left]|]. cbn.
    eapply rtc_l; [apply step_shrink|]. cbn. apply rtc_refl.
  - done.
Qed.

End BufferPool.
