(* ===== verification/Limiter.v ===== *)
(** * The concurrency limiter

    python/batcher/carbonite/policies/concurrency.py: [ConcurrencyLimiter], a slot pool with
    a bounded queue, per-thread re-entrancy and a condition variable, as a state machine
    whose steps are the code between two releases of its lock; [query_memory_share] and the
    process-wide limiter. *)

From S2P Require Import Prelude.
From Stdlib Require Import QArith.QArith.
#[local] Open Scope Z_scope.

Module Limiter.

(** [depth] holds the threads whose thread-local depth is positive.  [sleeping] is the
    condition's queue of waiters in arrival order, [notified] the waiters that were notified
    and have not yet taken the lock again. *)
Record limiter := Lim {
  slots : Z;
  queue_depth : Z;
  cores : Z;
  active : Z;
  depth : gmap Z Z;
  sleeping : list Z;
  notified : list Z;
  queued : Z;
  rejected : Z;
}.

(** [__init__] with the core count already probed. *)
Definition new_limiter (n_slots depth_cap n_cores : Z) : limiter :=
  Lim (Z.max 0 n_slots) (Z.max 1 depth_cap) n_cores 0 ∅ [] [] 0 0.

Definition waiting (s : limiter) : Z := Z.of_nat (length s.(sleeping) + length s.(notified)).

(** [width_for]. *)
Definition width_for (s : limiter) (running : Z) : Z :=
  if (s.(slots) <=? 0) || (running <=? 1) then 0
  else Z.max 1 (s.(cores) / running).

(** [query_memory_share], exactly (the code divides doubles). *)
Definition query_memory_share (running n_slots : Z) : Q :=
  if (n_slots <=? 0) || (running <=? 1) then 1
  else 1 # Z.to_pos (Z.min running n_slots).

Inductive outcome :=
  | Granted (workers concurrent : Z)
  | AdmissionTimeout
  | Waits.

Definition depth_of (s : limiter) (th : Z) : Z := default 0 (s.(depth) !! th).

(** Take a free slot: the end of [acquire]. *)
Definition take_slot (s : limiter) (th : Z) (asleep awake : list Z) : limiter * outcome :=
  let s' := Lim s.(slots) s.(queue_depth) s.(cores) (s.(active) + 1) (<[th := 1]> s.(depth))
              asleep awake s.(queued) s.(rejected) in
  (s', Granted (width_for s' s'.(active)) s'.(active)).

(** [acquire] up to its first wait. *)
Definition acquire (s : limiter) (th : Z) : limiter * outcome :=
  if s.(slots) <=? 0 then (s, Granted 0 1)
  else if 0 <? depth_of s th then
    (Lim s.(slots) s.(queue_depth) s.(cores) s.(active) (<[th := depth_of s th + 1]> s.(depth))
       s.(sleeping) s.(notified) s.(queued) s.(rejected),
     Granted (width_for s s.(active)) s.(active))
  else if s.(queue_depth) <=? waiting s then
    (Lim s.(slots) s.(queue_depth) s.(cores) s.(active) s.(depth) s.(sleeping) s.(notified)
       s.(queued) (s.(rejected) + 1), AdmissionTimeout)
  else if s.(slots) <=? s.(active) then
    (Lim s.(slots) s.(queue_depth) s.(cores) s.(active) s.(depth) (s.(sleeping) ++ [th])
       s.(notified) (s.(queued) + 1) s.(rejected), Waits)
  else take_slot s th s.(sleeping) s.(notified).

Definition remove (th : Z) (l : list Z) : list Z := List.filter (fun x => negb (x =? th)) l.

(** A waiter has the lock again, notified or not: the loop test, the deadline, another wait. *)
Definition wake (s : limiter) (th : Z) (expired : bool) : limiter * outcome :=
  let asleep := remove th s.(sleeping) in
  let awake := remove th s.(notified) in
  if s.(active) <? s.(slots) then take_slot s th asleep awake
  else if expired then
    (Lim s.(slots) s.(queue_depth) s.(cores) s.(active) s.(depth) asleep awake s.(queued)
       (s.(rejected) + 1), AdmissionTimeout)
  else
    (Lim s.(slots) s.(queue_depth) s.(cores) s.(active) s.(depth) (asleep ++ [th]) awake
       s.(queued) s.(rejected), Waits).

(** [release]; [notify] wakes the longest-waiting sleeper. *)
Definition release (s : limiter) (th : Z) : limiter :=
  if s.(slots) <=? 0 then s
  else if depth_of s th <=? 0 then s
  else if 1 <? depth_of s th then
    Lim s.(slots) s.(queue_depth) s.(cores) s.(active) (<[th := depth_of s th - 1]> s.(depth))
      s.(sleeping) s.(notified) s.(queued) s.(rejected)
  else
    Lim s.(slots) s.(queue_depth) s.(cores) (if 0 <? s.(active) then s.(active) - 1 else s.(active))
      (delete th s.(depth)) (tail s.(sleeping))
      (match s.(sleeping) with [] => s.(notified) | w :: _ => s.(notified) ++ [w] end)
      s.(queued) s.(rejected).

Definition blocked (s : limiter) (th : Z) : Prop := th ∈ s.(sleeping) ++ s.(notified).

(** What threads interleave.  A thread that waits does nothing but wake up. *)
Inductive step (s : limiter) : limiter -> Prop :=
  | step_acquire th : ~ blocked s th -> step s (acquire s th).1
  | step_wake th expired : blocked s th -> step s (wake s th expired).1
  | step_release th : ~ blocked s th -> step s (release s th).

Definition reachable (s0 s : limiter) : Prop := rtc step s0 s.

(** [_LIMITER] and [_LIMITER_KEY], and [process_limiter] at the configured key. *)
Definition process_limiter (st : option (limiter * (Z * Z))) (n_cores : Z) (key : Z * Z)
    : limiter * (limiter * (Z * Z)) :=
  match st with
  | Some (l, k) => if decide (k = key) then (l, (l, k))
                   else let l' := new_limiter key.1 key.2 n_cores in (l', (l', key))
  | None => let l' := new_limiter key.1 key.2 n_cores in (l', (l', key))
  end.

(** ** The invariant *)

Record lim_ok (s : limiter) : Prop := {
  ok_slots : 0 < s.(slots);
  ok_depths : forall th d, s.(depth) !! th = Some d -> 0 < d;
  ok_active : s.(active) = Z.of_nat (size s.(depth));
  ok_bound : s.(active) <= s.(slots);
  ok_waiting : waiting s <= s.(queue_depth);
  ok_nodup : NoDup (s.(sleeping) ++ s.(notified));
  ok_blocked : forall th, blocked s th -> s.(depth) !! th = None;
  ok_awake : s.(sleeping) <> [] -> s.(slots) - s.(active) <= Z.of_nat (length s.(notified));
}.

Lemma elem_of_remove th x l : x ∈ remove th l <-> x ∈ l /\ x <> th.
Proof.
  unfold remove. rewrite !list_elem_of_In, filter_In. split; intros [? Hx]; (split; [done|]).
  - by destruct (Z.eqb_spec x th).
  - by destruct (Z.eqb_spec x th).
Qed.

Lemma remove_notin th l : th ∉ l -> remove th l = l.
Proof.
  unfold remove. induction l as [|x l IH]; cbn; [done|]. intros [Hx Hl]%not_elem_of_cons.
  destruct (Z.eqb_spec x th); [by subst|]. cbn. f_equal. auto.
Qed.

Lemma remove_length th l : NoDup l -> th ∈ l -> S (length (remove th l)) = length l.
Proof.
  induction 1 as [|x l Hx Hl IH]; intros Hin; [by apply not_elem_of_nil in Hin|].
  unfold remove. cbn. fold (remove th l). destruct (Z.eqb_spec x th) as [->|Hne]; cbn.
  - by rewrite remove_notin.
  - f_equal. apply IH. by apply elem_of_cons in Hin as [->|?].
Qed.

Lemma remove_nodup th l : NoDup l -> NoDup (remove th l).
Proof.
  induction 1 as [|x l Hx Hl IH]; [constructor|]. unfold remove. cbn. fold (remove th l).
  destruct (Z.eqb_spec x th); cbn; [done|]. constructor; [|done]. by intros [? _]%elem_of_remove.
Qed.

Lemma depth_of_pos s th : lim_ok s -> 0 < depth_of s th <-> is_Some (s.(depth) !! th).
Proof.
  intros Hok. unfold depth_of. destruct (s.(depth) !! th) as [d|] eqn:E; cbn.
  - split; [eauto|]. intros _. by eapply ok_depths.
  - split; [lia|]. by intros [? ?].
Qed.

Lemma take_slot_ok s th asleep awake :
  lim_ok s -> s.(active) < s.(slots) -> s.(depth) !! th = None ->
  NoDup (asleep ++ awake) -> th ∉ asleep ++ awake -> (forall x, x ∈ asleep ++ awake -> blocked s x) ->
  Z.of_nat (length asleep + length awake) <= waiting s ->
  (asleep <> [] -> s.(slots) - s.(active) - 1 <= Z.of_nat (length awake)) ->
  lim_ok (take_slot s th asleep awake).1.
Proof.
  intros [H1 H2 H3 H4 H5 H6 H7 H8] Hfree Hth Hnd Hni Hsub Hlen Haw. split; cbn -[Z.of_nat]; try done.
  - intros th' d Hd. destruct (decide (th' = th)) as [->|Hne];
      [rewrite lookup_insert_eq in Hd; by simplify_eq|rewrite lookup_insert_ne in Hd by done; by eapply H2].
  - rewrite map_size_insert_None by done. lia.
  - lia.
  - unfold waiting in *. cbn. lia.
  - intros th' Hb. destruct (decide (th' = th)) as [->|Hne]; [done|].
    rewrite lookup_insert_ne by done. by apply H7, Hsub.
  - intros Hne. specialize (Haw Hne). lia.
Qed.

Lemma acquire_ok s th : lim_ok s -> ~ blocked s th -> lim_ok (acquire s th).1.
Proof.
  intros Hok Hb. pose proof Hok as [H1 H2 H3 H4 H5 H6 H7 H8]. unfold acquire.
  destruct (Z.leb_spec s.(slots) 0); [lia|]. destruct (Z.ltb_spec 0 (depth_of s th)) as [Hd|Hd].
  - apply (depth_of_pos s th Hok) in Hd as Hs. destruct Hs as [d Hdep]. split; cbn; try done.
    + intros th' d' Hd'. destruct (decide (th' = th)) as [->|Hne];
        [rewrite lookup_insert_eq in Hd'; simplify_eq; lia|rewrite lookup_insert_ne in Hd' by done; by eapply H2].
    + by rewrite map_size_insert_Some.
    + intros th' Hb'. destruct (decide (th' = th)) as [->|Hne]; [done|]. rewrite lookup_insert_ne by done. by apply H7.
  - assert (s.(depth) !! th = None) as Hn.
    { destruct (s.(depth) !! th) eqn:E; [|done]. assert (0 < depth_of s th) by (apply depth_of_pos; eauto). lia. }
    destruct (Z.leb_spec s.(queue_depth) (waiting s)); [by split|].
    destruct (Z.leb_spec s.(slots) s.(active)).
    + split; cbn; try done.
      * unfold waiting in *. cbn. rewrite length_app. cbn. lia.
      * unfold blocked in Hb. rewrite <- app_assoc. cbn. apply NoDup_app in H6 as (N1 & N2 & N3).
        rewrite elem_of_app in Hb. apply NoDup_app. split_and!; [done| |].
        -- intros x Hx [->|Hx']%elem_of_cons; [tauto|]. by eapply N2.
        -- constructor; [tauto|done].
      * intros th' Hb'. unfold blocked in Hb'. cbn in Hb'. rewrite <- app_assoc in Hb'. cbn in Hb'.
        rewrite elem_of_app, elem_of_cons in Hb'. destruct Hb' as [?|[->|?]]; [|done|];
          apply H7; unfold blocked; rewrite elem_of_app; auto.
      * intros _. lia.
    + apply take_slot_ok; [done..|by intros x ?|unfold waiting; lia|]. intros Hne. specialize (H8 Hne). lia.
Qed.

(** A blocked thread is in exactly one of the two lists. *)
Lemma removed_lengths s th :
  lim_ok s -> blocked s th ->
  (Z.of_nat (length (remove th s.(sleeping))) = Z.of_nat (length s.(sleeping)) - 1 /\
   remove th s.(notified) = s.(notified)) \/
  (remove th s.(sleeping) = s.(sleeping) /\
   Z.of_nat (length (remove th s.(notified))) = Z.of_nat (length s.(notified)) - 1).
Proof.
  intros Hok Hb. pose proof (ok_nodup s Hok) as Hnd. apply NoDup_app in Hnd as (N1 & N2 & N3).
  unfold blocked in Hb. apply elem_of_app in Hb as [Hb|Hb].
  - left. pose proof (remove_length th _ N1 Hb). split; [lia|]. apply remove_notin. by apply N2.
  - right. pose proof (remove_length th _ N3 Hb). split; [|lia]. apply remove_notin. intros Hs. by eapply N2.
Qed.

Lemma removed_facts s th :
  lim_ok s ->
  let rest := remove th s.(sleeping) ++ remove th s.(notified) in
  NoDup rest /\ (th ∉ rest) /\ forall x, x ∈ rest -> blocked s x.
Proof.
  intros Hok rest. pose proof (ok_nodup s Hok) as Hnd. apply NoDup_app in Hnd as (N1 & N2 & N3).
  split_and!.
  - apply NoDup_app. split_and!; [by apply remove_nodup| |by apply remove_nodup].
    intros x [? _]%elem_of_remove [? _]%elem_of_remove. by eapply N2.
  - intros [[_ ?]%elem_of_remove|[_ ?]%elem_of_remove]%elem_of_app; done.
  - intros x Hx. unfold blocked. rewrite elem_of_app. apply elem_of_app in Hx as [[? _]%elem_of_remove|[? _]%elem_of_remove]; auto.
Qed.

Lemma wake_ok s th expired : lim_ok s -> blocked s th -> lim_ok (wake s th expired).1.
Proof.
  intros Hok Hb. pose proof Hok as [H1 H2 H3 H4 H5 H6 H7 H8].
  destruct (removed_facts s th Hok) as (Hnd & Hni & Hsub). pose proof (removed_lengths s th Hok Hb) as Hlen.
  assert (remove th s.(sleeping) <> [] -> s.(sleeping) <> []) as Hne.
  { intros Hr He. rewrite He in Hr. done. }
  assert (Z.of_nat (length (remove th s.(sleeping)) + length (remove th s.(notified))) = waiting s - 1) as Hw.
  { unfold waiting. destruct Hlen as [[? Hl]|[Hl ?]]; rewrite Hl; lia. }
  unfold wake. destruct (Z.ltb_spec s.(active) s.(slots)) as [Hfree|Hfull].
  - apply take_slot_ok; [done|done|by apply H7|done..|lia|]. intros Hr. specialize (H8 (Hne Hr)).
    destruct Hlen as [[_ ->]|[_ ?]]; lia.
  - destruct expired.
    + split; cbn; try done; [unfold waiting in *; cbn; lia|by intros x Hx; apply H7, Hsub|]. intros _. lia.
    + split; cbn; try done.
      * unfold waiting in *. cbn. rewrite length_app. cbn. lia.
      * rewrite <- app_assoc. cbn. apply NoDup_app in Hnd as (N1 & N2 & N3). rewrite elem_of_app in Hni.
        apply NoDup_app. split_and!; [done| |constructor; [tauto|done]].
        intros x Hx [->|Hx']%elem_of_cons; [tauto|]. by eapply N2.
      * intros x Hx. unfold blocked in Hx. cbn in Hx. rewrite <- app_assoc in Hx. cbn in Hx.
        rewrite elem_of_app, elem_of_cons in Hx. destruct Hx as [?|[->|?]]; apply H7; [apply Hsub|done|apply Hsub];
          rewrite elem_of_app; auto.
      * intros _. lia.
Qed.

Lemma release_ok s th : lim_ok s -> ~ blocked s th -> lim_ok (release s th).
Proof.
  intros Hok Hb. pose proof Hok as [H1 H2 H3 H4 H5 H6 H7 H8]. unfold release.
  destruct (Z.leb_spec s.(slots) 0); [lia|]. destruct (Z.leb_spec (depth_of s th) 0) as [|Hd]; [done|].
  apply (depth_of_pos s th Hok) in Hd as Hs. destruct Hs as [d Hdep].
  destruct (Z.ltb_spec 1 (depth_of s th)).
  - split; cbn; try done.
    + intros th' d' Hd'. destruct (decide (th' = th)) as [->|Hne];
        [rewrite lookup_insert_eq in Hd'; simplify_eq; lia|rewrite lookup_insert_ne in Hd' by done; by eapply H2].
    + by rewrite map_size_insert_Some.
    + intros th' Hb'. destruct (decide (th' = th)) as [->|Hne]; [done|]. rewrite lookup_insert_ne by done. by apply H7.
  - assert (size (delete th s.(depth)) = pred (size s.(depth))) as Hsz by (apply map_size_delete_Some; eauto).
    assert (size s.(depth) <> 0%nat) as Hnz by (intros Hz%map_size_empty_inv; by rewrite Hz in Hdep).
    assert ((0 <? s.(active)) = true) as -> by (apply Z.ltb_lt; lia).
    destruct s.(sleeping) as [|w l] eqn:E; split; cbn -[Z.of_nat]; try done.
    + intros th' d' [_ ?]%lookup_delete_Some. by eapply H2.
    + lia.
    + lia.
    + unfold waiting in *. cbn. rewrite E in H5. done.
    + intros x Hx. apply lookup_delete_None. right. apply H7. unfold blocked. by rewrite E.
    + intros th' d' [_ ?]%lookup_delete_Some. by eapply H2.
    + lia.
    + lia.
    + unfold waiting in *. cbn. rewrite E in H5. cbn in H5. rewrite length_app. cbn. lia.
    + cbn in H6. apply NoDup_cons in H6 as [N1 N2]. rewrite app_assoc. apply NoDup_app. split_and!; [done| |].
      * intros x Hx ->%list_elem_of_singleton. done.
      * apply NoDup_singleton.
    + intros x Hx. apply lookup_delete_None. right. apply H7. unfold blocked in *. rewrite E. cbn in *.
      rewrite !elem_of_app, list_elem_of_singleton in Hx. rewrite elem_of_cons, elem_of_app. tauto.
    + intros _. specialize (H8 ltac:(done)). rewrite length_app. cbn. lia.
Qed.

Lemma reachable_lim_ok s0 s : lim_ok s0 -> reachable s0 s -> lim_ok s.
Proof.
  intros H0 Hr. unfold reachable in Hr. induction Hr as [|x y z Hxy _ IH]; [done|]. apply IH.
  destruct Hxy; [by apply acquire_ok|by apply wake_ok|by apply release_ok].
Qed.

Lemma new_limiter_ok n d c : 0 < n -> lim_ok (new_limiter n d c).
Proof.
  intros Hn. split; unfold waiting; cbn; try done; try lia. apply NoDup_nil_2.
Qed.

(** ** Properties *)

(** C38: whatever threads acquire, wake, time out and release, in any order, the queries
    holding a slot are exactly the threads between a granted acquire and its last matching
    release, they never exceed the slots, and the queue never exceeds its cap. *)
Theorem limiter_bounded n_slots depth_cap n_cores s :
  0 < n_slots -> reachable (new_limiter n_slots depth_cap n_cores) s ->
  s.(active) = Z.of_nat (size s.(depth)) /\ s.(active) <= s.(slots) /\ waiting s <= s.(queue_depth) /\
  forall th, blocked s th -> s.(depth) !! th = None.
Proof.
  intros Hn Hr. destruct (reachable_lim_ok _ _ (new_limiter_ok _ _ _ Hn) Hr). auto.
Qed.

(** C39: no wakeup is lost: whenever a slot is free and a query sleeps in the queue, a
    notified waiter is on its way to the lock, although [release] notifies only one waiter
    and newcomers may take a slot first. *)
Theorem limiter_no_lost_wakeup n_slots depth_cap n_cores s :
  0 < n_slots -> reachable (new_limiter n_slots depth_cap n_cores) s ->
  s.(active) < s.(slots) -> s.(sleeping) <> [] -> s.(notified) <> [].
Proof.
  intros Hn Hr Hfree Hs. destruct (reachable_lim_ok _ _ (new_limiter_ok _ _ _ Hn) Hr) as [? ? ? ? ? ? ? Haw].
  specialize (Haw Hs). destruct (notified s); [cbn in Haw; lia|done].
Qed.

(** a nested acquire never waits and takes no slot, and its release undoes exactly it;
    a release by a thread that holds nothing changes nothing. *)
Theorem limiter_reentrant s th :
  lim_ok s ->
  (0 < depth_of s th ->
     exists w, (acquire s th).2 = Granted w s.(active) /\ (acquire s th).1.(active) = s.(active) /\
       release (acquire s th).1 th = s) /\
  (s.(depth) !! th = None -> release s th = s).
Proof.
  intros Hok. pose proof (ok_slots s Hok) as Hsl. split.
  - intros Hd. unfold acquire. destruct (Z.leb_spec s.(slots) 0); [lia|].
    destruct (Z.ltb_spec 0 (depth_of s th)); [|lia]. cbn [fst snd]. eexists. split; [done|]. split; [done|].
    set (s' := Lim _ _ _ _ _ _ _ _ _).
    assert (depth_of s' th = depth_of s th + 1) as Hd' by (unfold depth_of at 1; cbn; by rewrite lookup_insert_eq).
    unfold release. rewrite Hd'. destruct (Z.leb_spec s'.(slots) 0); [cbn in *; lia|].
    destruct (Z.leb_spec (depth_of s th + 1) 0); [lia|]. destruct (Z.ltb_spec 1 (depth_of s th + 1)); [|lia].
    cbn. rewrite insert_insert_eq, Z.add_simpl_r.
    rewrite insert_id; [by destruct s|]. unfold depth_of in *. destruct (s.(depth) !! th); [done|cbn in *; lia].
  - intros Hn. unfold release. destruct (Z.leb_spec s.(slots) 0); [done|].
    unfold depth_of. rewrite Hn. done.
Qed.

(** the widths handed to [running] concurrent queries divide the machine: each is at
    least one worker, together they fit the cores when there are enough, and the memory
    shares of the queries that can run at once add up to at most the envelope. *)
Theorem grants_divide_the_machine s running :
  0 < s.(slots) -> 2 <= running <= s.(slots) ->
  1 <= width_for s running /\ (running <= s.(cores) -> running * width_for s running <= s.(cores)) /\
  (inject_Z running * query_memory_share running s.(slots) == 1)%Q.
Proof.
  intros Hs Hr. unfold width_for, query_memory_share.
  destruct (Z.leb_spec s.(slots) 0); [lia|]. destruct (Z.leb_spec running 1); [lia|]. cbn [orb].
  split_and!; [lia| |].
  - intros Hc. pose proof (Z.mul_div_le s.(cores) running). nia.
  - rewrite Z.min_l by lia. unfold Qeq, Qmult, inject_Z. cbn [Qnum Qden].
    rewrite Pos.mul_1_l, Z2Pos.id by lia. lia.
Qed.

(** Newcomers can overtake: a released slot is taken by a thread that arrives before the
    notified waiter has the lock again. *)
Theorem newcomer_overtakes :
  let s1 := (acquire (new_limiter 1 10 4) 1).1 in
  let s2 := (acquire s1 2).1 in
  let s3 := release s2 1 in
  s2.(sleeping) = [2] /\ s3.(notified) = [2] /\ (acquire s3 3).2 = Granted 0 1 /\
  (wake (acquire s3 3).1 2 false).2 = Waits.
Proof. vm_compute. done. Qed.

(** *** A concrete run *)

#[local] Ltac not_blocked := unfold blocked; apply (bool_decide_unpack _); vm_compute; exact I.

Definition contended : limiter := release (acquire (acquire (new_limiter 1 10 4) 1).1 2).1 1.

Lemma contended_reachable : reachable (new_limiter 1 10 4) contended.
Proof.
  eapply rtc_l; [apply (step_acquire _ 1); not_blocked|].
  eapply rtc_l; [apply (step_acquire _ 2); not_blocked|].
  eapply rtc_l; [apply (step_release _ 1); not_blocked|]. apply rtc_refl.
Qed.

Lemma limiter_bounded_witness :
  contended.(active) = 0 /\ waiting contended <= 10 /\ contended.(depth) !! 2 = None.
Proof.
  destruct (limiter_bounded 1 10 4 contended ltac:(lia) contended_reachable) as (_ & _ & Hw & Hb).
  split; [reflexivity|]. split; [exact Hw|]. apply Hb. unfold blocked. cbn. left.
Defined.

(** A third thread sleeps behind the notified one while the slot is free. *)
Definition two_waiters : limiter :=
  release (acquire (acquire (acquire (new_limiter 1 10 4) 1).1 2).1 3).1 1.

Lemma two_waiters_reachable : reachable (new_limiter 1 10 4) two_waiters.
Proof.
  unfold two_waiters.
  eapply rtc_l; [apply (step_acquire _ 1); not_blocked|].
  eapply rtc_l; [apply (step_acquire _ 2); not_blocked|].
  eapply rtc_l; [apply (step_acquire _ 3); not_blocked|].
  eapply rtc_l; [apply (step_release _ 1); not_blocked|]. apply rtc_refl.
Qed.

Lemma limiter_no_lost_wakeup_witness : two_waiters.(notified) <> [].
Proof.
  apply (limiter_no_lost_wakeup 1 10 4 two_waiters ltac:(lia) two_waiters_reachable); [vm_compute; reflexivity|].
  vm_compute. discriminate.
Defined.

Lemma limiter_reentrant_witness :
  let s := (acquire (new_limiter 2 10 4) 1).1 in release (acquire s 1).1 1 = s /\ release s 7 = s.
Proof.
  cbv zeta. destruct (limiter_reentrant (acquire (new_limiter 2 10 4) 1).1 1) as [H1 _].
  { apply acquire_ok; [apply new_limiter_ok; lia|]. not_blocked. }
  destruct (limiter_reentrant (acquire (new_limiter 2 10 4) 1).1 7) as [_ H2].
  { apply acquire_ok; [apply new_limiter_ok; lia|]. not_blocked. }
  split; [|apply H2; reflexivity]. destruct H1 as (w & _ & _ & H); [vm_compute; reflexivity|exact H].
Defined.

Lemma grants_divide_the_machine_witness :
  let s := new_limiter 16 10 15 in 5 * width_for s 5 <= 15 /\ width_for s 5 = 3.
Proof.
  cbv zeta. destruct (grants_divide_the_machine (new_limiter 16 10 15) 5) as (_ & H & _);
    [cbn; lia|cbn; lia|]. split; [apply H; cbn; lia|reflexivity].
Defined.

End Limiter.
