(* ===== verification/Splits.v ===== *)
(** * Byte-range and file-run splits

    python/batcher/io/splits/file.py ([read_aligned_range], [pack_files], [_pack]) and
    io/splits/text.py ([line_range_splits]): how one large line-delimited file, or many small
    files, fan out across workers.  A file is the list of its bytes; offsets are natural
    numbers, as the planner produces them. *)

From S2P Require Import Prelude.
From Stdlib Require Import Strings.Ascii.

Module Splits.

Abbreviation byte := Ascii.ascii.
Definition newline : byte := Ascii.ascii_of_nat 10.
Definition is_newline (b : byte) : bool := Ascii.eqb b newline.

(** [fh.readline()] from the start of [l]: through the first newline, or to the end. *)
Fixpoint readline (l : list byte) : list byte :=
  match l with
  | [] => []
  | b :: l' => if is_newline b then [b] else b :: readline l'
  end.

(** [data.endswith(b"\n")]. *)
Definition ends_line (l : list byte) : bool := match last l with Some b => is_newline b | None => false end.

(** [real_start] of [read_aligned_range]. *)
Definition real_start (file : list byte) (start : nat) : nat :=
  if (start =? 0)%nat then 0%nat
  else if match file !! (start - 1)%nat with Some b => is_newline b | None => false end then start
       else (start + length (readline (drop start file)))%nat.

(** [read_aligned_range]. *)
Definition read_aligned_range (file : list byte) (start stop : nat) : list byte :=
  let rs := real_start file start in
  if (stop <=? rs)%nat then []
  else
    let data := take (stop - rs) (drop rs file) in
    if negb (length data =? 0)%nat && negb (ends_line data)
    then data ++ readline (drop (rs + length data) file)
    else data.

(** The ranges of [line_range_splits]: [range(0, size, chunk)], each cut at the size. *)
Definition line_ranges (size chunk : nat) : list (nat * nat) :=
  map (fun i => (i * chunk, (i * chunk + chunk) `min` size)%nat)
    (seq 0 ((size + chunk - 1) / chunk)).

(** *** Runs of files *)

(** The loop of [_pack] at index [i] with the run opened at [start] holding [acc] bytes. *)
Fixpoint pack_loop (sizes : list Z) (target : Z) (i start : nat) (acc : Z) : list (nat * nat) :=
  match sizes with
  | [] => [(start, i)]
  | size :: rest =>
      if ((start <? i)%nat && (target <? acc + size))
      then (start, i) :: pack_loop rest target (S i) i size
      else pack_loop rest target (S i) start (acc + size)
  end.

Definition pack (sizes : list Z) (target : Z) : list (nat * nat) := pack_loop sizes target 0 0 0.

Definition total (sizes : list Z) : Z := foldr Z.add 0 sizes.

(** [pack_files]. *)
Definition pack_files (sizes : list Z) (target_bytes min_runs : Z) : list (nat * nat) :=
  match sizes with
  | [] => []
  | _ =>
      let floor := Z.min min_runs (Z.of_nat (length sizes)) in
      let runs := pack sizes (Z.max 1 target_bytes) in
      if Z.of_nat (length runs) <? floor then pack sizes (Z.max 1 (total sizes / floor)) else runs
  end.

(** ** Lines *)

(** The lines of a file with their newlines. *)
Fixpoint lines (l : list byte) : list (list byte) :=
  match l with
  | [] => []
  | b :: l' => if is_newline b then [b] :: lines l'
               else match lines l' with
                    | [] => [[b]]
                    | h :: t => (b :: h) :: t
                    end
  end.

(** A line: no newline but possibly the last byte. *)
Fixpoint line_shape (h : list byte) : Prop :=
  match h with
  | [] => False
  | [_] => True
  | b :: h' => is_newline b = false /\ line_shape h'
  end.

(** Pieces of a file: lines, all terminated but possibly the last. *)
Fixpoint pieces (L : list (list byte)) : Prop :=
  match L with
  | [] => True
  | [h] => line_shape h
  | h :: t => line_shape h /\ ends_line h = true /\ pieces t
  end.

Lemma concat_lines l : concat (lines l) = l.
Proof.
  induction l as [|b l IH]; cbn [lines]; [done|]. destruct (is_newline b).
  - cbn. by rewrite IH.
  - destruct (lines l) as [|h t]; cbn in *; by rewrite <- IH.
Qed.

Lemma lines_pieces l : pieces (lines l).
Proof.
  induction l as [|b l IH]; cbn [lines]; [done|]. destruct (is_newline b) eqn:Hb.
  - destruct (lines l) eqn:E; cbn; [done|]. split; [done|]. split; [|done]. by unfold ends_line; cbn.
  - destruct (lines l) as [|h t] eqn:E; [done|]. destruct t as [|h' t].
    + cbn in IH |- *. destruct h; [done|]. done.
    + destruct IH as (Hh & He & Ht). split_and!; [by destruct h| |done].
      destruct h as [|c h]; [done|]. unfold ends_line in *. by rewrite last_cons_cons.
Qed.

Lemma readline_line h rest :
  line_shape h -> (ends_line h = true \/ rest = []) -> readline (h ++ rest) = h.
Proof.
  revert rest. induction h as [|b h IH]; intros rest Hs Hr; [done|]. destruct h as [|c h].
  - cbn. destruct Hr as [He| ->].
    + unfold ends_line in He. cbn in He. by rewrite He.
    + cbn. by destruct (is_newline b).
  - destruct Hs as [Hb Hs]. cbn [app readline]. rewrite Hb. f_equal. apply IH; [done|].
    destruct Hr as [He| ->]; [left|by right]. unfold ends_line in *. by rewrite last_cons_cons in He.
Qed.

Lemma line_interior h k : line_shape h -> (S k < length h)%nat ->
  exists b, h !! k = Some b /\ is_newline b = false.
Proof.
  revert k. induction h as [|b h IH]; intros k Hs Hk; [done|]. destruct h as [|c h]; [cbn in Hk; lia|].
  destruct Hs as [Hb Hs]. destruct k as [|k]; [by exists b|]. cbn [lookup list_lookup]. apply IH; [done|cbn in *; lia].
Qed.

Lemma line_shape_drop h k : line_shape h -> (k < length h)%nat -> line_shape (drop k h).
Proof.
  revert k. induction h as [|b h IH]; intros k Hs Hk; [done|]. destruct k as [|k]; [done|].
  destruct h as [|c h]; [cbn in Hk; lia|]. destruct Hs as [_ Hs]. apply IH; [done|cbn in *; lia].
Qed.

(** ** Where a range starts *)

(** The offset of the first line that starts at or after [p], or the end. *)
Fixpoint start_at (L : list (list byte)) (p : nat) : nat :=
  match L with
  | [] => 0
  | h :: t => if (p =? 0)%nat then 0 else (length h + start_at t (p - length h))%nat
  end.

Lemma start_at_0 L : start_at L 0 = 0%nat.
Proof. by destruct L. Qed.

Lemma pieces_cons h t :
  pieces (h :: t) -> line_shape h /\ pieces t /\ (ends_line h = true \/ t = []).
Proof. destruct t; cbn; [auto|]. intros (? & ? & ?). auto. Qed.

Lemma ends_line_drop h k : (k < length h)%nat -> ends_line (drop k h) = ends_line h.
Proof.
  intros Hk. unfold ends_line. rewrite <- (take_drop k h) at 2. rewrite last_app.
  destruct (drop k h) as [|b l] eqn:E; [|by destruct (last (b :: l)) eqn:El; [|by apply last_None in El]].
  apply (f_equal length) in E. rewrite length_drop in E. cbn in E. lia.
Qed.

Lemma real_start_lines L p :
  pieces L -> (p <= length (concat L))%nat -> real_start (concat L) p = start_at L p.
Proof.
  revert p. induction L as [|h t IH]; intros p HL Hp.
  { cbn in *. replace p with 0%nat by lia. done. }
  apply pieces_cons in HL as (Hh & Ht & He). cbn [concat start_at]. unfold real_start.
  destruct (Nat.eqb_spec p 0) as [->|Hp0]; [done|]. cbn [concat] in Hp. rewrite length_app in Hp.
  assert (ends_line h = true \/ concat t = []) as Hrest by (destruct He as [?| ->]; auto).
  destruct (decide (p < length h)%nat) as [Hlt|Hge].
  - destruct (line_interior h (p - 1) Hh) as (b & Hb & Hnl); [lia|].
    rewrite lookup_app_l by lia. rewrite Hb, Hnl. rewrite drop_app_le by lia.
    rewrite readline_line; [|by apply line_shape_drop|by rewrite ends_line_drop].
    rewrite length_drop. replace (p - length h)%nat with 0%nat by lia. rewrite start_at_0. lia.
  - destruct (decide (p = length h)) as [->|Hne].
    + rewrite Nat.sub_diag, start_at_0. rewrite lookup_app_l by (destruct h; cbn in *; [done|lia]).
      rewrite drop_app_length. destruct Hrest as [He'|Hn].
      * unfold ends_line in He'. rewrite last_lookup in He'.
        replace (length h - 1)%nat with (pred (length h)) by lia.
        destruct (h !! pred (length h)); [|done]. rewrite He'. lia.
      * rewrite Hn. cbn. destruct (match h !! _ with Some b => _ | None => _ end); lia.
    + rewrite lookup_app_r by lia. rewrite drop_app_ge by lia.
      specialize (IH (p - length h)%nat Ht ltac:(lia)). unfold real_start in IH.
      destruct (Nat.eqb_spec (p - length h) 0); [lia|]. rewrite <- IH.
      replace (p - 1 - length h)%nat with (p - length h - 1)%nat by lia.
      destruct (match concat t !! _ with Some b => _ | None => _ end); lia.
Qed.

Lemma start_at_between L s e : (s <= e)%nat -> (e <= start_at L s)%nat -> start_at L e = start_at L s.
Proof.
  revert s e. induction L as [|h t IH]; intros s e Hse He; [done|]. cbn [start_at] in *.
  destruct (Nat.eqb_spec s 0); [replace e with 0%nat by lia; by subst|].
  destruct (Nat.eqb_spec e 0); [lia|]. f_equal. apply IH; lia.
Qed.

Lemma start_at_mono L s e : (s <= e)%nat -> (start_at L s <= start_at L e)%nat.
Proof.
  revert s e. induction L as [|h t IH]; intros s e Hse; [done|]. cbn [start_at].
  destruct (Nat.eqb_spec s 0); [lia|]. destruct (Nat.eqb_spec e 0); [lia|].
  specialize (IH (s - length h)%nat (e - length h)%nat). lia.
Qed.

Lemma start_at_end L : start_at L (length (concat L)) = length (concat L).
Proof.
  induction L as [|h t IH]; [done|]. cbn [start_at concat]. rewrite length_app.
  destruct (Nat.eqb_spec (length h + length (concat t)) 0); [lia|].
  replace (length h + length (concat t) - length h)%nat with (length (concat t)) by lia. lia.
Qed.

Lemma readline_prefix l : readline l = take (length (readline l)) l.
Proof. induction l as [|b l IH]; cbn; [done|]. destruct (is_newline b); cbn; [by rewrite take_0|by rewrite <- IH]. Qed.

(** A range reads from its first owned line to the first line of the next range. *)
Lemma read_range_slice L s e :
  pieces L -> (s <= e)%nat -> (e <= length (concat L))%nat ->
  read_aligned_range (concat L) s e =
  take (start_at L e - start_at L s) (drop (start_at L s) (concat L)).
Proof.
  intros HL Hse He. unfold read_aligned_range. rewrite real_start_lines by (try done; lia).
  set (file := concat L) in *. set (a := start_at L s). destruct (Nat.leb_spec e a) as [Hle|Hgt].
  { rewrite (start_at_between L s e Hse Hle). fold a. by rewrite Nat.sub_diag, take_0. }
  assert (length (take (e - a) (drop a file)) = (e - a)%nat) as Hlen by (rewrite length_take, length_drop; lia).
  rewrite Hlen. destruct (Nat.eqb_spec (e - a) 0); [lia|]. cbn [negb andb].
  pose proof (real_start_lines L e HL He) as Hre. fold file in Hre. unfold real_start in Hre.
  destruct (Nat.eqb_spec e 0); [lia|].
  assert (ends_line (take (e - a) (drop a file)) =
    match file !! (e - 1)%nat with Some b => is_newline b | None => false end) as Hend.
  { unfold ends_line. rewrite last_lookup, Hlen, lookup_take_lt by lia. rewrite lookup_drop.
    by replace (a + pred (e - a))%nat with (e - 1)%nat by lia. }
  rewrite Hend. destruct (match file !! _ with Some b => _ | None => _ end).
  - cbn [negb]. by rewrite <- Hre.
  - cbn [negb]. rewrite <- Hre. replace (a + (e - a))%nat with e by lia.
    set (k := length (readline (drop e file))).
    replace (e + k - a)%nat with ((e - a) + k)%nat by lia.
    rewrite <- (take_take_drop (drop a file) (e - a) k). f_equal.
    rewrite drop_drop. replace (a + (e - a))%nat with e by lia. apply readline_prefix.
Qed.

(** The lines whose first byte lies in the range, when the first line starts at [o]. *)
Fixpoint owned (L : list (list byte)) (o s e : nat) : list byte :=
  match L with
  | [] => []
  | h :: t => (if ((s <=? o) && (o <? e))%nat then h else []) ++ owned t (o + length h) s e
  end.

Lemma owned_slice L o s e :
  owned L o s e = take (start_at L (e - o) - start_at L (s - o)) (drop (start_at L (s - o)) (concat L)).
Proof.
  revert o. induction L as [|h t IH]; intros o; cbn [owned start_at concat]; [done|].
  rewrite IH. rewrite !Nat.sub_add_distr.
  destruct (Nat.eqb_spec (s - o) 0) as [Hs|Hs], (Nat.eqb_spec (e - o) 0) as [He|He];
    destruct (Nat.leb_spec s o), (Nat.ltb_spec o e); cbn [andb]; try lia.
  - rewrite Hs, He, Nat.sub_0_l, start_at_0. cbn. by rewrite !take_0.
  - rewrite Hs, Nat.sub_0_l, start_at_0, !Nat.sub_0_r, !drop_0.
    by rewrite take_app_add.
  - rewrite He, Nat.sub_0_l, start_at_0. cbn. by rewrite !take_0.
  - rewrite app_nil_l. rewrite drop_app_add.
    f_equal. lia.
Qed.

(** ** Properties of ranges *)

(** a byte range yields exactly the lines whose first byte lies in it, whole and in
    order, wherever its ends fall inside lines. *)
Theorem aligned_range_exact file s e :
  (s <= e)%nat -> (e <= length file)%nat -> read_aligned_range file s e = owned (lines file) 0 s e.
Proof.
  intros Hse He. rewrite owned_slice, !Nat.sub_0_r.
  pose proof (concat_lines file) as Hl. rewrite <- Hl in He |- * at 1.
  rewrite read_range_slice by (done || apply lines_pieces). by rewrite Hl.
Qed.

Lemma ranges_prefix file chunk k :
  (0 < chunk)%nat ->
  concat (map (fun r => read_aligned_range file r.1 r.2)
    (map (fun i => (i * chunk, (i * chunk + chunk) `min` length file)%nat)
      (List.filter (fun i => (i * chunk <? length file)%nat) (seq 0 k)))) =
  take (start_at (lines file) ((k * chunk) `min` length file)) file.
Proof.
  intros Hc. induction k as [|k IH].
  - cbn. by rewrite start_at_0, take_0.
  - rewrite seq_S, List.filter_app, !map_app, concat_app, IH. cbn [plus List.filter].
    destruct (Nat.ltb_spec (k * chunk) (length file)) as [Hlt|Hge].
    + cbn [map concat fst snd]. rewrite app_nil_r. rewrite Nat.min_l by lia.
      replace (S k * chunk)%nat with (k * chunk + chunk)%nat by lia.
      set (e := ((k * chunk + chunk) `min` length file)%nat).
      pose proof (concat_lines file) as Hl.
      pose proof (read_range_slice (lines file) (k * chunk) e (lines_pieces file)) as Hr.
      rewrite Hl in Hr. rewrite Hr by (unfold e; lia). rewrite take_take_drop. f_equal.
      assert (start_at (lines file) (k * chunk) <= start_at (lines file) e)%nat
        by (apply start_at_mono; unfold e; lia). lia.
    + cbn [map concat]. rewrite app_nil_r. f_equal. f_equal. lia.
Qed.

Lemma range_indices size chunk :
  (0 < chunk)%nat ->
  List.filter (fun i => (i * chunk <? size)%nat) (seq 0 ((size + chunk - 1) / chunk)) =
  seq 0 ((size + chunk - 1) / chunk).
Proof.
  intros Hc. apply List.forallb_filter_id, forallb_forall. intros i [_ Hi]%in_seq. apply Nat.ltb_lt.
  pose proof (Nat.Div0.mul_div_le (size + chunk - 1) chunk). cbn in Hi. nia.
Qed.

(** C40: the byte ranges planned for a file reconstruct it: reading the ranges of
    [line_range_splits] in order and concatenating gives every byte of the file exactly once,
    for any chunk size, long lines and a missing final newline included. *)
Theorem line_ranges_reconstruct file chunk :
  (0 < chunk)%nat ->
  concat (map (fun r => read_aligned_range file r.1 r.2) (line_ranges (length file) chunk)) = file.
Proof.
  intros Hc. unfold line_ranges. rewrite <- range_indices by done.
  rewrite ranges_prefix by done.
  assert (length file <= (length file + chunk - 1) / chunk * chunk)%nat as Hn.
  { pose proof (Nat.div_mod_eq (length file + chunk - 1) chunk).
    pose proof (Nat.mod_upper_bound (length file + chunk - 1) chunk). nia. }
  rewrite Nat.min_r by lia. pose proof (start_at_end (lines file)) as He. rewrite concat_lines in He.
  rewrite He. by rewrite take_ge.
Qed.

(** ** Properties of runs *)

(** Consecutive non-empty runs from [a] to [b]. *)
Fixpoint chained (a b : nat) (runs : list (nat * nat)) : Prop :=
  match runs with
  | [] => a = b
  | r :: rest => r.1 = a /\ (a < r.2)%nat /\ chained r.2 b rest
  end.

Definition run_sizes (sizes : list Z) (r : nat * nat) : list Z := take (r.2 - r.1) (drop r.1 sizes).

Lemma pack_loop_spec all target sizes i start acc :
  all = take i all ++ sizes -> (length (take i all) = i)%nat -> (start <= i)%nat -> (sizes = [] -> start < i)%nat ->
  acc = total (take (i - start) (drop start all)) ->
  ((i - start <= 1)%nat \/ acc <= target) ->
  let runs := pack_loop sizes target i start acc in
  chained start (length all) runs /\
  Forall (fun r => length (run_sizes all r) = 1%nat \/ total (run_sizes all r) <= target) runs.
Proof.
  revert i start acc. induction sizes as [|size rest IH]; intros i start acc Hall Hlen Hst Hne Hacc Htgt; cbn [pack_loop].
  - rewrite app_nil_r in Hall. specialize (Hne eq_refl).
    assert (i = length all) as Hi by (rewrite <- Hlen; by rewrite <- Hall). cbn. split_and!; [done|lia|done|].
    constructor; [|constructor]. unfold run_sizes. cbn [fst snd]. rewrite <- Hacc. destruct Htgt as [?|?]; [left|by right].
    rewrite length_take, length_drop. lia.
  - assert (all !! i = Some size) as Hi.
    { rewrite Hall. rewrite lookup_app_r by lia. rewrite Hlen, Nat.sub_diag. done. }
    assert (i < length all)%nat as Hil by (apply lookup_lt_is_Some; eauto).
    assert (all = take (S i) all ++ rest) as Hall'.
    { rewrite (take_S_r _ _ size) by done. rewrite <- app_assoc. cbn. done. }
    assert (length (take (S i) all) = S i) as Hlen' by (rewrite length_take; lia).
    destruct ((start <? i)%nat && (target <? acc + size)) eqn:E.
    + apply andb_prop in E as [Hlt%Nat.ltb_lt _].
      specialize (IH (S i) i size Hall' Hlen' ltac:(lia) ltac:(lia)). destruct IH as [Hch Hall2].
      { replace (S i - i)%nat with 1%nat by lia. rewrite (drop_S _ size) by done. cbn. rewrite take_0. cbn. lia. }
      { left. lia. }
      cbn. split_and!; [done|lia|done|]. constructor; [|done].
      unfold run_sizes. cbn [fst snd]. rewrite <- Hacc. destruct Htgt as [?|?]; [left|by right].
      rewrite length_take, length_drop. lia.
    + apply IH; [done|done|lia|lia| |].
      * replace (S i - start)%nat with (S (i - start)) by lia.
        rewrite (take_S_r _ _ size) by (rewrite lookup_drop; by replace (start + (i - start))%nat with i by lia).
        unfold total in *. rewrite foldr_app. cbn. rewrite Hacc. clear.
        generalize (take (i - start) (drop start all)). intros l. induction l as [|x l IHl]; cbn; lia.
      * apply andb_false_iff in E as [Hlt%Nat.ltb_ge|Ht%Z.ltb_ge]; [left; lia|by right].
Qed.

Lemma chained_covers sizes a runs :
  chained a (length sizes) runs -> concat (map (run_sizes sizes) runs) = drop a sizes.
Proof.
  revert a. induction runs as [|r runs IH]; intros a; cbn [chained].
  - intros ->. cbn. by rewrite drop_ge.
  - intros (<- & Hlt & Hch). cbn. rewrite (IH _ Hch). unfold run_sizes.
    rewrite <- (take_drop (r.2 - r.1) (drop r.1 sizes)) at 2. f_equal. rewrite drop_drop. f_equal. lia.
Qed.

Lemma pack_spec sizes target :
  sizes <> [] ->
  chained 0 (length sizes) (pack sizes target) /\
  Forall (fun r => length (run_sizes sizes r) = 1%nat \/ total (run_sizes sizes r) <= target) (pack sizes target).
Proof.
  intros Hne. apply pack_loop_spec; [done|done|done|done|done|left; lia].
Qed.

(** packing covers the files exactly once, in order, in non-empty adjacent runs; and no
    run of several files exceeds the larger of the target and the re-packing target. *)
Theorem pack_files_covers sizes target_bytes min_runs :
  let runs := pack_files sizes target_bytes min_runs in
  concat (map (run_sizes sizes) runs) = sizes /\ chained 0 (length sizes) runs /\
  Forall (fun r => length (run_sizes sizes r) = 1%nat \/
    total (run_sizes sizes r) <= Z.max 1 target_bytes \/
    total (run_sizes sizes r) <= Z.max 1 (total sizes / Z.min min_runs (Z.of_nat (length sizes)))) runs.
Proof.
  cbv zeta. assert (chained 0 (length sizes) (pack_files sizes target_bytes min_runs)) as Hch.
  { unfold pack_files. destruct sizes as [|z sizes]; [done|]. destruct (_ <? _); by apply pack_spec. }
  split; [by rewrite (chained_covers _ _ _ Hch), drop_0|]. split; [done|].
  unfold pack_files. destruct sizes as [|z sizes]; [constructor|].
  destruct (_ <? _); (eapply Forall_impl; [apply pack_spec; done|]; intros r [?|?]; cbn in *; auto).
Qed.

(** The floor on the number of runs is not met when the sizes are uneven: three files of 1,
    1 and 100 bytes with a floor of 3 are packed into two runs. *)
Theorem pack_files_below_floor : pack_files [1; 1; 100] 1000 3 = [(0, 2); (2, 3)]%nat.
Proof. reflexivity. Qed.

(** *** Concrete instances *)

(** Two lines cut inside the first. *)
Definition two_lines : list byte := ["a"; "b"; "c"; newline; "d"]%char.

Lemma aligned_range_exact_witness :
  read_aligned_range two_lines 0 2 = ["a"; "b"; "c"; newline]%char /\
  read_aligned_range two_lines 2 4 = owned (lines two_lines) 0 2 4 /\
  read_aligned_range two_lines 2 4 = [].
Proof.
  split; [reflexivity|]. split; [|reflexivity].
  apply (aligned_range_exact two_lines 2 4); [lia|cbn; lia].
Defined.

Lemma line_ranges_reconstruct_witness :
  line_ranges 5 2 = [(0, 2); (2, 4); (4, 5)]%nat /\
  concat (map (fun r => read_aligned_range two_lines r.1 r.2) (line_ranges (length two_lines) 2)) = two_lines.
Proof. split; [reflexivity|]. apply (line_ranges_reconstruct two_lines 2). lia. Defined.

End Splits.
