(* ===== verification/WindowKernel.v ===== *)
(** * The window kernel over one ordered relation

    What the engine's window operator returns for a window with no PARTITION BY
    (crates/bc-runtime/src/window/mod.rs and frame/mod.rs): the contract that the split of
    [GlobalWindow] is compared with.  Columns are 64-bit integers, booleans and, for the
    two fractional rankings, the double quotient of two integers, kept as the pair.  The
    floating-point aggregates ([avg], [var], [stddev]) are outside the model. *)

From S2P Require Import Prelude.

Module WindowKernel.

(** ** Rows and columns *)

(** [VR num den] is the double [float(num) / float(den)]. *)
Inductive val := VI (z : Z) | VB (b : bool) | VR (num den : Z).
(** A cell; [None] is NULL. *)
Abbreviation cell := (option val).

(** A row: [key] stands for the row's ORDER BY key tuple, as its place in the sort order
    (direction and null placement included), so two rows are peers when it is equal. *)
Record row := Row { key : Z; cols : gmap string val }.

(** What a function reads: a plain column, a literal, another expression, or nothing. *)
Inductive input := InCol (c : string) | InLit (z : Z) | InExpr (e : row -> cell) | InNone.

Definition read (i : input) (r : row) : cell :=
  match i with
  | InCol c => r.(cols) !! c
  | InLit z => Some (VI z)
  | InExpr e => e r
  | InNone => None
  end.

(** ** Window functions *)

Inductive fold_fn := FSum | FBitAnd | FBitOr | FBitXor | FBoolAnd | FBoolOr.

Inductive wfn :=
  | RowNumber | Rank | DenseRank | PercentRank | CumeDist | Ntile
  | Count | Min | Max | Fold (f : fold_fn)
  | Lag | Lead | FirstValue | LastValue | NthValue.

#[export] Instance fold_fn_eq_dec : EqDecision fold_fn.
Proof. solve_decision. Defined.
#[export] Instance wfn_eq_dec : EqDecision wfn.
Proof. solve_decision. Defined.

Inductive units := Rows | Range | Groups.
#[export] Instance units_eq_dec : EqDecision units.
Proof. solve_decision. Defined.

(** [WindowFrame]: [None] is unbounded, a negative offset PRECEDING. *)
Record frame := Frame { f_start : option Z; f_end : option Z; f_units : units }.
#[export] Instance frame_eq_dec : EqDecision frame.
Proof. solve_decision. Defined.

(** [WindowFuncSpec], the fields these functions read. *)
Record spec := Spec {
  func : wfn; arg : input; offset : Z; fr : option frame; ignore_nulls : bool;
}.

(** ** Frames, over the rows in sort order *)

(** Rows strictly before the peer group of [k], and rows through its end. *)
Definition before (s : list row) (k : Z) : nat := length (filter (fun x => key x < k) s).
Definition through (s : list row) (k : Z) : nat := length (filter (fun x => key x <= k) s).

(** The half-open range of positions a frame covers at position [p] with key [k];
    [None] on the value-based RANGE and the GROUPS frames, which are not modelled. *)
Definition frame_bounds (f : frame) (s : list row) (p : nat) (k : Z) : option (nat * nat) :=
  match f.(f_units) with
  | Rows =>
      Some (match f.(f_start) with None => 0%nat | Some a => Z.to_nat (Z.of_nat p + a) end,
            match f.(f_end) with
            | None => length s
            | Some b => Nat.min (length s) (Z.to_nat (Z.of_nat p + b + 1))
            end)
  | Range =>
      match f.(f_start), f.(f_end) with
      | (None | Some 0), (None | Some 0) =>
          Some (match f.(f_start) with None => 0%nat | Some _ => before s k end,
                match f.(f_end) with None => length s | Some _ => through s k end)
      | _, _ => None
      end
  | Groups => None
  end.

Definition is_value_fn (f : wfn) : bool :=
  match f with Lag | Lead | FirstValue | LastValue | NthValue => true | _ => false end.

(** The rows a function sees at a position: with no explicit frame, the whole partition
    for a positional function and the rows through the peer group for an aggregate. *)
Definition slice (sp : spec) (s : list row) (p : nat) (k : Z) : list row :=
  match sp.(fr) with
  | None => if is_value_fn sp.(func) then s else take (through s k) s
  | Some f => match frame_bounds f s p k with
              | Some (a, b) => drop a (take b s)
              | None => []
              end
  end.

(** ** Aggregates *)

Definition fold_op (f : fold_fn) (a b : val) : val :=
  match f, a, b with
  | FSum, VI x, VI y => VI (wrap64 (x + y))
  | FBitAnd, VI x, VI y => VI (Z.land x y)
  | FBitOr, VI x, VI y => VI (Z.lor x y)
  | FBitXor, VI x, VI y => VI (Z.lxor x y)
  | FBoolAnd, VB x, VB y => VB (x && y)
  | FBoolOr, VB x, VB y => VB (x || y)
  | _, _, _ => a
  end.

Definition val_min (a b : val) : val :=
  match a, b with VI x, VI y => VI (Z.min x y) | _, _ => a end.
Definition val_max (a b : val) : val :=
  match a, b with VI x, VI y => VI (Z.max x y) | _, _ => a end.

(** A running aggregate: NULL until the first non-null input. *)
Definition reduce (op : val -> val -> val) (vs : list val) : cell :=
  match vs with [] => None | v :: vs' => Some (foldl op v vs') end.

(** The non-null inputs of a list of rows. *)
Definition vals (sp : spec) (s : list row) : list val := omap (read sp.(arg)) s.

Definition int (n : nat) : cell := Some (VI (Z.of_nat n)).

(** [ntile]: the first [n mod tiles] tiles take one row more. *)
Definition ntile (tiles : Z) (n : nat) : list Z :=
  let b := Z.to_nat (Z.max 1 tiles) in
  concat (map (fun t => replicate (n / b + (if (t <? n mod b)%nat then 1 else 0))%nat
                          (Z.of_nat t + 1)) (seq 0 b)).

(** The cell a positional function picks from its rows. *)
Definition pick (sp : spec) (l : list row) : cell :=
  let vs := map (read sp.(arg)) l in
  let vs := if sp.(ignore_nulls) then filter is_Some vs else vs in
  match sp.(func) with
  | FirstValue => mjoin (head vs)
  | LastValue => mjoin (last vs)
  | _ => if 1 <=? sp.(offset) then mjoin (vs !! Z.to_nat (sp.(offset) - 1)) else None
  end.

(** The row [d] places away, within the partition. *)
Definition neighbour (sp : spec) (s : list row) (t : Z) : cell :=
  if t <? 0 then None else mjoin (read sp.(arg) <$> s !! Z.to_nat t).

(** ** The kernel *)

(** The value at position [p] of the rows in sort order. *)
Definition kcell (sp : spec) (s : list row) (p : nat) : cell :=
  match s !! p with
  | None => None
  | Some r =>
      let k := key r in
      match sp.(func) with
      | RowNumber => int (p + 1)
      | Rank => int (before s k + 1)
      | DenseRank => int (length (remove_dups (map key (filter (fun x => key x <= k) s))))
      | PercentRank =>
          Some (if (1 <? length s)%nat then VR (Z.of_nat (before s k)) (Z.of_nat (length s) - 1)
                else VR 0 1)
      | CumeDist => Some (VR (Z.of_nat (through s k)) (Z.of_nat (length s)))
      | Ntile => VI <$> ntile sp.(offset) (length s) !! p
      | Lag => neighbour sp s (Z.of_nat p - sp.(offset))
      | Lead => neighbour sp s (Z.of_nat p + sp.(offset))
      | FirstValue | LastValue | NthValue => pick sp (slice sp s p k)
      | Count => int (length (vals sp (slice sp s p k)))
      | Min => reduce val_min (vals sp (slice sp s p k))
      | Max => reduce val_max (vals sp (slice sp s p k))
      | Fold f => reduce (fold_op f) (vals sp (slice sp s p k))
      end
  end.

(** Sort positions: rows tied on the key keep their input order. *)
Definition entry_le (a b : nat * row) : Prop :=
  key a.2 < key b.2 \/ (key a.2 = key b.2 /\ (a.1 <= b.1)%nat).
#[export] Instance entry_le_dec a b : Decision (entry_le a b).
Proof. unfold entry_le. apply _. Defined.

Definition entries (rows : list row) : list (nat * row) := merge_sort entry_le (py_enumerate rows).
Definition sorted (rows : list row) : list row := map snd (entries rows).

(** The position of input row [i] in the sort order. *)
Fixpoint index_of (i : nat) (l : list nat) : nat :=
  match l with [] => 0 | j :: l' => if (i =? j)%nat then 0 else S (index_of i l') end.
Definition positions (rows : list row) : list nat :=
  map (fun i => index_of i (map fst (entries rows))) (seq 0 (length rows)).

(** A column in input order. *)
Definition kcol (sp : spec) (rows : list row) : list cell :=
  map (kcell sp (sorted rows)) (positions rows).

(** The exact sums whose overflow the kernel reports: every running prefix, or every
    frame when one is given. *)
Definition exact_sum (vs : list val) : Z :=
  foldr (fun v acc => match v with VI z => z + acc | _ => acc end) 0 vs.

Definition sums_fit (sp : spec) (s : list row) : bool :=
  forallb (fun p =>
    match s !! p with
    | None => true
    | Some r => fits64 (exact_sum (vals sp match sp.(fr) with
                                          | None => take (S p) s
                                          | Some _ => slice sp s p (key r)
                                          end))
    end) (seq 0 (length s)).

(** [window_serial] for one function: [SumOverflow] instead of a wrapped sum. *)
Definition kernel (sp : spec) (rows : list row) : res (list cell) :=
  if bool_decide (sp.(func) = Fold FSum) && negb (sums_fit sp (sorted rows))
  then Raise "SumOverflow" else Ok (kcol sp rows).

(** ** Sorting an ordered split *)

Definition keys_below (l1 l2 : list row) : Prop :=
  forall a b, a ∈ l1 -> b ∈ l2 -> key a < key b.

#[export] Instance entry_le_trans : Transitive entry_le.
Proof. intros a b c. unfold entry_le. lia. Qed.
#[export] Instance entry_le_total : Total entry_le.
Proof. intros a b. unfold entry_le. lia. Qed.

Lemma entries_perm rows : entries rows ≡ₚ py_enumerate rows.
Proof. apply merge_sort_Permutation. Qed.

Lemma sorted_perm rows : sorted rows ≡ₚ rows.
Proof. unfold sorted. rewrite entries_perm. by rewrite py_enumerate_snd. Qed.

Lemma sorted_length rows : length (sorted rows) = length rows.
Proof. apply Permutation_length, sorted_perm. Qed.

Lemma entries_fst rows : map fst (entries rows) ≡ₚ seq 0 (length rows).
Proof. rewrite entries_perm. by rewrite py_enumerate_fst. Qed.

Lemma entries_app l1 l2 : keys_below l1 l2 ->
  entries (l1 ++ l2) = entries l1 ++ map (prod_map (Nat.add (length l1)) id) (entries l2).
Proof.
  intros Hk. apply (StronglySorted_unique_strong entry_le).
  - intros [i r] [j r'] H1 H2 Hab Hba. rewrite entries_perm, elem_of_py_enumerate in H1.
    rewrite !entries_perm, <- py_enumerate_app, elem_of_py_enumerate in H2.
    assert (i = j) as -> by (destruct Hab as [?|[? ?]], Hba as [?|[? ?]]; cbn in *; lia). congruence.
  - apply (StronglySorted_merge_sort entry_le).
  - apply StronglySorted_app_2; [|apply (StronglySorted_merge_sort entry_le)|].
    + intros [i r] [j r'] H1 H2. left. apply Hk.
      * rewrite entries_perm, elem_of_py_enumerate in H1. by eapply list_elem_of_lookup_2.
      * apply list_elem_of_fmap in H2 as ([j' r''] & [= -> ->] & H2).
        rewrite entries_perm, elem_of_py_enumerate in H2. by eapply list_elem_of_lookup_2.
    + assert (StronglySorted entry_le (entries l2)) as Hs by apply (StronglySorted_merge_sort entry_le).
      induction Hs as [|x l Hs IH Hx]; cbn; constructor; [done|].
      apply Forall_map. eapply Forall_impl; [exact Hx|]. intros [] H. destruct x. unfold entry_le in *. cbn in *. lia.
  - rewrite !entries_perm. by rewrite py_enumerate_app.
Qed.

Lemma sorted_app l1 l2 : keys_below l1 l2 -> sorted (l1 ++ l2) = sorted l1 ++ sorted l2.
Proof. intros Hk. unfold sorted. rewrite entries_app, map_app, map_map by done. done. Qed.

Lemma index_of_app_l i l l' : i ∈ l -> index_of i (l ++ l') = index_of i l.
Proof.
  induction l as [|j l IH]; intros Hi; [by apply elem_of_nil in Hi|]. cbn.
  destruct (i =? j)%nat eqn:E; [done|]. apply elem_of_cons in Hi as [->|Hi].
  - by rewrite Nat.eqb_refl in E.
  - by rewrite IH.
Qed.

Lemma index_of_app_r i l l' : i ∉ l -> index_of i (l ++ l') = (length l + index_of i l')%nat.
Proof.
  induction l as [|j l IH]; intros Hi; [done|]. apply not_elem_of_cons in Hi as [Hij Hi]. cbn.
  apply Nat.eqb_neq in Hij as ->. by rewrite IH.
Qed.

Lemma index_of_shift n i l : index_of (n + i) (map (Nat.add n) l) = index_of i l.
Proof.
  induction l as [|j l IH]; [done|]. cbn. rewrite IH.
  destruct (i =? j)%nat eqn:E.
  - apply Nat.eqb_eq in E as ->. by rewrite Nat.eqb_refl.
  - apply Nat.eqb_neq in E. rewrite (proj2 (Nat.eqb_neq _ _)) by lia. done.
Qed.

Lemma index_of_nodup l : NoDup l -> map (fun i => index_of i l) l = seq 0 (length l).
Proof.
  induction 1 as [|j l Hj Hnd IH]; [done|]. cbn [map length seq]. f_equal.
  - cbn. by rewrite Nat.eqb_refl.
  - rewrite <- seq_shift, <- IH, map_map. apply map_ext_in. intros i Hi%list_elem_of_In. cbn.
    rewrite (proj2 (Nat.eqb_neq i j)); [done|]. by intros ->.
Qed.

Lemma positions_app l1 l2 : keys_below l1 l2 ->
  positions (l1 ++ l2) = positions l1 ++ map (Nat.add (length l1)) (positions l2).
Proof.
  intros Hk. unfold positions. rewrite entries_app, map_app, map_map, length_app, seq_app, map_app by done.
  cbn [Nat.add]. f_equal.
  - apply map_ext_in. intros i Hi. apply index_of_app_l. rewrite entries_fst. by apply list_elem_of_In.
  - replace (seq (length l1) (length l2)) with (map (Nat.add (length l1)) (seq 0 (length l2)))
      by (etransitivity; [apply fmap_add_seq|f_equal; lia]). rewrite !map_map. apply map_ext_in. intros i _. cbn.
    rewrite index_of_app_r.
    + rewrite length_map, (Permutation_length (entries_perm l1)), py_enumerate_length.
      f_equal. rewrite <- (index_of_shift (length l1) i (map fst (entries l2))), map_map. done.
    + rewrite entries_fst, elem_of_seq. lia.
Qed.

(** Every row sits at its position of the sort order. *)
Lemma positions_perm rows : zip (positions rows) rows ≡ₚ py_enumerate (sorted rows).
Proof.
  unfold positions. set (f := fun i => index_of i (map fst (entries rows))).
  rewrite zip_map_l. fold (py_enumerate rows). rewrite <- entries_perm.
  rewrite <- (zip_fst_snd (entries rows)), <- zip_map_l. unfold f. rewrite index_of_nodup.
  - unfold py_enumerate. rewrite sorted_length, length_map, (Permutation_length (entries_perm rows)).
    by rewrite py_enumerate_length.
  - rewrite entries_fst. apply NoDup_seq.
Qed.

Lemma positions_length rows : length (positions rows) = length rows.
Proof. unfold positions. by rewrite length_map, length_seq. Qed.

Lemma positions_seq rows : positions rows ≡ₚ seq 0 (length rows).
Proof.
  assert (positions rows = map fst (zip (positions rows) rows)) as Hz.
  { symmetry. apply fst_zip. rewrite positions_length. lia. }
  rewrite Hz, positions_perm, py_enumerate_fst. by rewrite sorted_length.
Qed.

Lemma positions_bound rows p : p ∈ positions rows <-> (p < length rows)%nat.
Proof. rewrite positions_seq, elem_of_seq. lia. Qed.

End WindowKernel.
