(* ===== verification/GlobalWindow.v ===== *)
(** * Splitting a global window into ordered buckets

    python/batcher/dist/global_window: which windows are admitted ([admission.py]), the
    helper columns and the per-bucket corrections ([offsets.py]), the boundary exchange of
    [lag] ([boundary.py]) and of trailing ROWS frames ([frames.py]), and the driver that
    walks the buckets in key order and finalizes the assembled result ([disk.py]).
    [split_window_exact] states that the walk returns what the kernel returns on the whole
    relation.

    A window result is kept as one column per function with its helper columns beside it,
    instead of a table addressed by alias.  Row counts are integers that do not wrap; sums
    wrap at 64 bits. *)

From S2P Require Import Prelude WindowKernel.

Module GlobalWindow.
Import WindowKernel.

(** ** [frames.py]: the explicit ROWS frames *)

Definition rows_running_func (f : wfn) : bool :=
  match f with Fold _ | Count | Min | Max => true | _ => false end.

Definition trailing_func (f : wfn) : bool :=
  match f with Fold FSum | Count | Min | Max => true | _ => false end.

Definition is_rows_running_frame (sp : spec) : bool :=
  match sp.(fr) with
  | None => false
  | Some f => rows_running_func sp.(func) && bool_decide (f = Frame None (Some 0) Rows)
  end.

Definition trailing_rows_distance (sp : spec) : option nat :=
  match sp.(fr) with
  | None => None
  | Some f =>
      if negb (trailing_func sp.(func)) || negb (bool_decide (f.(f_units) = Rows)) then None
      else match f.(f_end), f.(f_start) with
           | Some 0, Some a => if 0 <=? a then None else Some (Z.to_nat (- a))
           | _, _ => None
           end
  end.

Definition frame_for_helpers (sp : spec) : option frame :=
  if is_rows_running_frame sp || bool_decide (is_Some (trailing_rows_distance sp))
  then sp.(fr) else None.

(** ** [admission.py] *)

(** [(frame.start, frame.end, frame.units) == (None, 0, "range")]. *)
Definition default_frame (sp : spec) : bool :=
  bool_decide (sp.(fr) = Some (Frame None (Some 0) Range)).

Definition is_running_last_value (sp : spec) : bool :=
  bool_decide (sp.(func) = LastValue) && default_frame sp.

Definition is_running_nth_value (sp : spec) : bool :=
  bool_decide (sp.(func) = NthValue) && negb sp.(ignore_nulls) && default_frame sp.

Definition is_running_first_value (sp : spec) : bool :=
  bool_decide (sp.(func) = FirstValue) && negb sp.(ignore_nulls) && default_frame sp.

Definition running_frame_ok (sp : spec) : bool :=
  is_running_last_value sp || is_running_nth_value sp || is_running_first_value sp
  || is_rows_running_frame sp || bool_decide (is_Some (trailing_rows_distance sp)).

(** [_ASSEMBLED], [_OFFSETTABLE] and [_NEEDS_COL_INPUT]. *)
Definition assembled_func (f : wfn) : bool :=
  match f with PercentRank | CumeDist | Ntile | LastValue => true | _ => false end.
Definition offsettable (f : wfn) : bool :=
  match f with
  | RowNumber | Rank | DenseRank | Count | Min | Max | Lag | Fold _ => true
  | _ => false
  end.
Definition needs_col_input (f : wfn) : bool :=
  match f with
  | Count | Min | Max | FirstValue | LastValue | NthValue | Lag | Fold _ => true
  | _ => false
  end.

(** Column types, as far as the predicates tell them apart. *)
Inductive dtype := DInt | DFloat | DTemporal | DDecimal | DText | DBinary | DBool | DNested.

(** The plan node, as far as admission reads it; [single_source] is the answer of
    [plan_analysis._single_source] and [schema] the one of [available_schema]. *)
Record window := Window {
  functions : list spec;
  rank_limit : option Z;
  partition_keys : list input;
  order_keys : list input;
  single_source : bool;
  schema : option (gmap string dtype);
}.

Definition col_name (i : input) : option string :=
  match i with InCol c => Some c | _ => None end.

(** [range_partitionable]. *)
Definition range_partitionable (t : dtype) : bool :=
  match t with DBool | DNested => false | _ => true end.

Definition trailing_input_ok (w : window) (sp : spec) : bool :=
  if negb (bool_decide (is_Some (trailing_rows_distance sp))) || bool_decide (sp.(func) = Count)
  then true
  else match w.(schema), col_name sp.(arg) with
       | Some s, Some c => match s !! c with Some (DInt | DFloat) => true | _ => false end
       | _, _ => false
       end.

Definition key_type_partitionable (w : window) (key : string) : bool :=
  match w.(schema) with
  | None => false
  | Some s => match s !! key with Some t => range_partitionable t | None => false end
  end.

Definition supports_fn (w : window) (assembled : bool) (sp : spec) : bool :=
  (match sp.(fr) with None => true | Some _ => running_frame_ok sp end)
  && (offsettable sp.(func) || bool_decide (sp.(func) = FirstValue) || running_frame_ok sp
      || (assembled && assembled_func sp.(func)))
  && (negb (needs_col_input sp.(func)) || bool_decide (is_Some (col_name sp.(arg))))
  && trailing_input_ok w sp.

Definition supports_ordered_bucket_offsets (w : window) (assembled : bool) : bool :=
  match w.(rank_limit), w.(partition_keys), w.(order_keys) with
  | None, [], InCol key :: _ =>
      w.(single_source) && key_type_partitionable w key
      && forallb (supports_fn w assembled) w.(functions)
  | _, _, _ => false
  end.

(** ** Helper columns *)

Inductive role := RLrn | RRank | RRows | RRn.
#[export] Instance role_eq_dec : EqDecision role.
Proof. solve_decision. Defined.

(** [_HELPERS]. *)
Definition HELPERS (f : wfn) : list (role * wfn) :=
  match f with
  | Lag => [(RLrn, RowNumber)]
  | PercentRank => [(RRank, Rank)]
  | CumeDist => [(RRows, Count)]
  | Ntile => [(RRn, RowNumber)]
  | NthValue => [(RRows, Count); (RLrn, RowNumber)]
  | _ => []
  end.

(** [inject_window_helpers], for one function. *)
Definition inject_window_helpers (sp : spec) : list (role * spec) :=
  let roles := HELPERS sp.(func) ++
    match trailing_rows_distance sp with Some _ => [(RLrn, RowNumber)] | None => [] end in
  map (fun '(r, f) =>
    (r, match f with
        | Rank | RowNumber => Spec f InNone 1 None false
        | _ => Spec f (if bool_decide (r = RRows) then InLit 1 else sp.(arg)) 1
                 (frame_for_helpers sp) false
        end)) roles.

(** A function's window column and its helper columns. *)
Record fcol := FCol { main : list cell; helpers : list (role * list cell) }.

Definition cell_int (c : cell) : Z := match c with Some (VI z) => z | _ => 0 end.

Definition helper (fc : fcol) (r : role) : list Z :=
  match list_find (fun h => h.1 = r) fc.(helpers) with
  | Some (_, (_, c)) => map cell_int c
  | None => []
  end.

(** ** [boundary.py] *)

(** [TrailingValues(distance)]; the field [_values] is passed around as a list. *)
Definition distance (sp : spec) : nat := Z.to_nat (Z.max 1 sp.(offset)).

Definition head_replacements (k : nat) (values : list cell) : list cell :=
  let held := length values in
  map (fun r => if (k - r + 1 <=? held)%nat then mjoin (values !! (held - 1 - (k - r))%nat) else None)
    (seq 1 k).

(** [absorb]: keep the last [k] values. *)
Definition absorb (k : nat) (held values : list cell) : list cell :=
  let all := held ++ values in drop (length all - k) all.

(** Rows of a bucket paired with a rank, in rank order. *)
Definition rank_le {A} (a b : Z * A) : Prop := a.1 <= b.1.
#[export] Instance rank_le_dec {A} (a b : Z * A) : Decision (rank_le a b).
Proof. unfold rank_le. apply _. Defined.
Definition in_rank_order (pairs : list (Z * cell)) : list cell :=
  map snd (merge_sort rank_le pairs).

(** [_tail_in_order]. *)
Definition tail_in_order (ranks : list Z) (values : list cell) (k : nat) : list cell :=
  let cutoff := Z.of_nat (length values) - Z.of_nat k in
  let keep := zip ranks values in
  in_rank_order (if 0 <? cutoff then filter (fun rv => cutoff < rv.1) keep else keep).

(** [lag_across_buckets]. *)
Definition lag_across_buckets (k : nat) (held : list cell) (ranks : list Z)
    (column values : list cell) : list cell * list cell :=
  let head := head_replacements k held in
  let corrected := zip_with (fun r c =>
    if r <=? Z.of_nat k then mjoin (head !! Z.to_nat (Z.min (r - 1) (Z.of_nat k - 1))) else c)
    ranks column in
  (corrected, absorb k held (tail_in_order ranks values k)).

(** ** [TrailingFrame] *)

(** [ufunc.accumulate]. *)
Fixpoint accumulate_from (f : Z -> Z -> Z) (acc : Z) (xs : list Z) : list Z :=
  match xs with [] => [] | x :: xs' => let y := f acc x in y :: accumulate_from f y xs' end.
Definition accumulate (f : Z -> Z -> Z) (xs : list Z) : list Z :=
  match xs with [] => [] | x :: xs' => x :: accumulate_from f x xs' end.

(** [padded]: suffixes longer than the tail repeat the whole tail's fold. *)
Definition padded (size : nat) (acc : list Z) (fill : Z) : list Z :=
  match last acc with
  | None => replicate size fill
  | Some l => acc ++ replicate (size - length acc) l
  end.

Definition I64_MAX : Z := 2 ^ 63 - 1.
Definition I64_MIN : Z := - 2 ^ 63.

(** [_suffixes] on an integer column: the counts and, per function, the fold over every
    suffix of the tail. *)
Definition suffix_counts (size : nat) (tail : list cell) : list Z :=
  padded size (accumulate Z.add (map (fun c => match c with Some _ => 1 | None => 0 end) (rev tail))) 0.

Definition filled (fill : Z) (tail : list cell) : list Z :=
  map (fun c => match c with Some _ => cell_int c | None => fill end) (rev tail).

Definition suffix_folds (f : wfn) (size : nat) (tail : list cell) : list Z :=
  match f with
  | Min => padded size (accumulate Z.min (filled I64_MAX tail)) I64_MAX
  | Max => padded size (accumulate Z.max (filled I64_MIN tail)) I64_MIN
  | _ => padded size (accumulate (fun a b => wrap64 (a + b)) (filled 0 tail)) 0
  end.

(** [_combine] at one row: [rank] its bucket-local position, [c] the kernel's value. *)
Definition combine_at (f : wfn) (p : nat) (counts folds : list Z) (rank : Z) (c : cell) : cell :=
  let head := rank <=? Z.of_nat p in
  let index := if head then Z.to_nat (Z.of_nat p - rank) else 0%nat in
  let count := default 0 (counts !! index) in
  match f with
  | Count => Some (VI (cell_int c + if head then count else 0))
  | _ =>
      let extend := head && (0 <? count) in
      let base := cell_int c in
      let extra := default 0 (folds !! index) in
      let merged :=
        match c with
        | None => extra
        | Some _ => match f with
                    | Min => Z.min base extra
                    | Max => Z.max base extra
                    | _ => wrap64 (base + extra)
                    end
        end in
      if extend then Some (VI merged)
      else match c with None => None | Some _ => Some (VI base) end
  end.

(** [TrailingFrame.correct]. *)
Definition trailing_correct (f : wfn) (p : nat) (tail : list cell) (ranks : list Z)
    (column values : list cell) : list cell * list cell :=
  let out :=
    if existsb (fun r => r <=? Z.of_nat p) ranks then
      zip_with (combine_at f p (suffix_counts p tail) (suffix_folds f p tail)) ranks column
    else column in
  (out, absorb p tail (tail_in_order ranks values p)).

(** ** [OrderedBucketOffsets] *)

(** The per-function entries of the dictionaries; [None] of an outer option is [_UNSET]. *)
Record fstate := FState {
  s_last : option cell; s_trailing : list cell; s_dense : Z; s_fold : option val;
  s_count : Z; s_min : cell; s_max : cell; s_first : option cell; s_head : list cell;
  s_frame : list cell;
}.

Definition init_fstate : fstate := FState None [] 0 None 0 None None None [] [].

Definition add_int (n : Z) (c : cell) : cell :=
  match c with Some (VI z) => Some (VI (z + n)) | _ => c end.

(** The identity of [_FOLDS]. *)
Definition fold_identity (f : fold_fn) : val :=
  match f with
  | FSum | FBitOr | FBitXor => VI 0
  | FBitAnd => VI (-1)
  | FBoolAnd => VB true
  | FBoolOr => VB false
  end.

(** [_fold_column]. *)
Definition fold_column (f : fold_fn) (prior : option val) (column : list cell) (values : list val)
    : list cell * option val :=
  let col := match prior with
             | None => column
             | Some v => map (fun c => Some (fold_op f (default (fold_identity f) c) v)) column
             end in
  (col, match reduce (fold_op f) values with
        | None => prior
        | Some b => Some (match prior with None => b | Some v => fold_op f v b end)
        end).

(** [_extreme] on a column without NaN; the element-wise kernels skip nulls. *)
Definition extreme (op : val -> val -> val) (state : cell) (column : list cell) (values : list val)
    : list cell * cell :=
  let col := match state with
             | None => column
             | Some v => map (fun c => Some (match c with None => v | Some x => op x v end)) column
             end in
  (col, match reduce op values with
        | None => state
        | Some b => Some (match state with None => b | Some v => op v b end)
        end).

(** [_nth_value_column]; returns the column and the head. *)
Definition nth_value_column (sp : spec) (prior : Z) (head : list cell) (ranks rows : list Z)
    (values : list cell) : list cell * list cell :=
  let k := distance sp in
  let need := Z.of_nat k - Z.of_nat (length head) in
  let head := if 0 <? need
              then head ++ in_rank_order (filter (fun rv => rv.1 <= need) (zip ranks values))
              else head in
  (if (length head <? k)%nat then map (fun _ => None) rows
   else map (fun r => if Z.of_nat k <=? r + prior then mjoin (head !! (k - 1)%nat) else None) rows,
   head).

(** The body of the loop of [apply] for one function: its columns, and its state. *)
Definition correct (prior : Z) (sp : spec) (st : fstate) (rows : list row) (fc : fcol)
    : fcol * fstate :=
  let n := length rows in
  let values := map (read sp.(arg)) rows in
  let present := omap id values in
  let 'FState la tr de fo co mi ma fi he fm := st in
  match trailing_rows_distance sp with
  | Some p =>
      let '(c, fm') := trailing_correct sp.(func) p fm (helper fc RLrn) fc.(main) values in
      (FCol c [], FState la tr de fo co mi ma fi he fm')
  | None =>
      match sp.(func) with
      | RowNumber | Rank => (FCol (map (add_int prior) fc.(main)) [], st)
      | DenseRank =>
          let bucket_distinct := foldr Z.max 0 (map cell_int fc.(main)) in
          (FCol (map (add_int de) fc.(main)) [],
           FState la tr (de + bucket_distinct) fo co mi ma fi he fm)
      | Fold f =>
          let '(c, fo') := fold_column f fo fc.(main) present in
          (FCol c [], FState la tr de fo' co mi ma fi he fm)
      | Count =>
          (FCol (map (add_int co) fc.(main)) [],
           FState la tr de fo (co + Z.of_nat (length present)) mi ma fi he fm)
      | Min =>
          let '(c, mi') := extreme val_min mi fc.(main) present in
          (FCol c [], FState la tr de fo co mi' ma fi he fm)
      | Max =>
          let '(c, ma') := extreme val_max ma fc.(main) present in
          (FCol c [], FState la tr de fo co mi ma' fi he fm)
      | Lag =>
          let '(c, tr') := lag_across_buckets (distance sp) tr (helper fc RLrn) fc.(main) values in
          (FCol c [], FState la tr' de fo co mi ma fi he fm)
      | NthValue =>
          if is_running_nth_value sp then
            let '(c, he') := nth_value_column sp prior he (helper fc RLrn) (helper fc RRows) values in
            (FCol c [], FState la tr de fo co mi ma fi he' fm)
          else (FCol fc.(main) [], st)
      | LastValue =>
          if is_running_last_value sp then (fc, st)
          else (fc, FState (if (n =? 0)%nat then la else head fc.(main)) tr de fo co mi ma fi he fm)
      | PercentRank | CumeDist | Ntile =>
          (FCol fc.(main) (map (fun h => (h.1, map (add_int prior) h.2)) fc.(helpers)), st)
      | FirstValue =>
          match fi with
          | None => (fc, FState la tr de fo co mi ma (if (n =? 0)%nat then None else head fc.(main)) he fm)
          | Some v => (FCol (replicate n v) [], st)
          end
      | Lead => (fc, st)
      end
  end.

Record offsets := Offsets { prior_rows : Z; fstates : list fstate }.

Definition init_offsets (fns : list spec) : offsets := Offsets 0 (map (fun _ => init_fstate) fns).

Definition apply (fns : list spec) (o : offsets) (rows : list row) (wt : list fcol)
    : list fcol * offsets :=
  let out := zip_with (fun sp sf => correct o.(prior_rows) sp sf.1 rows sf.2) fns
               (zip o.(fstates) wt) in
  (map fst out, Offsets (o.(prior_rows) + Z.of_nat (length rows)) (map snd out)).

(** [_ranking_column]. *)
Definition ranking_cell (sp : spec) (total h : Z) : cell :=
  match sp.(func) with
  | PercentRank => Some (if total <=? 1 then VR 0 1 else VR (h - 1) (total - 1))
  | CumeDist => Some (VR h total)
  | _ =>
      let tiles := Z.max 1 sp.(offset) in
      let base := total / tiles in
      let rem := total mod tiles in
      let head := rem * (base + 1) in
      let wide := ceil_div h (base + 1) in
      let narrow := rem + ceil_div (h - head) (Z.max base 1) in
      Some (VI (if h <=? head then wide else narrow))
  end.

(** [finalize], for one function over its assembled columns. *)
Definition finalize (total : Z) (sp : spec) (st : fstate) (fc : fcol) : list cell :=
  if negb (assembled_func sp.(func)) || is_running_last_value sp then fc.(main)
  else match sp.(func) with
       | LastValue => map (fun _ => mjoin st.(s_last)) fc.(main)
       | _ => match fc.(helpers) with
              | (_, h) :: _ => map (fun c => ranking_cell sp total (cell_int c)) h
              | [] => fc.(main)
              end
       end.

(** ** The driver *)

(** The window kernel on one bucket, helper columns included. *)
Definition run_bucket (fns : list spec) (rows : list row) : res (list fcol) :=
  res_mapM (fun sp =>
    let* c := kernel sp rows in
    Ok (FCol c (map (fun '(r, h) => (r, kcol h rows)) (inject_window_helpers sp)))) fns.

Fixpoint walk (fns : list spec) (o : offsets) (buckets : list (list row))
    : res (list (list fcol) * offsets) :=
  match buckets with
  | [] => Ok ([], o)
  | [] :: bs => walk fns o bs
  | b :: bs =>
      let* wt := run_bucket fns b in
      let '(out, o') := apply fns o b wt in
      let* rest := walk fns o' bs in
      Ok (out :: rest.1, rest.2)
  end.

Definition append_fcol (a b : fcol) : fcol :=
  FCol (main a ++ main b) (zip_with (fun h h' => (h.1, h.2 ++ h'.2)) (helpers a) (helpers b)).

(** [Table.from_batches] of the corrected buckets. *)
Fixpoint assemble (t : list fcol) (ts : list (list fcol)) : list fcol :=
  match ts with [] => t | t' :: ts' => assemble (zip_with append_fcol t t') ts' end.

Definition bucket_order (n : nat) (descending : bool) : list nat :=
  if descending then rev (seq 0 n) else seq 0 n.

Definition visited (handles : list (list row)) (descending : bool) : list (list row) :=
  omap (fun i => handles !! i) (bucket_order (length handles) descending).

(** [execute_global_window_disk] from the windowed buckets on: the result columns. *)
Definition execute_global_window (fns : list spec) (handles : list (list row)) (descending : bool)
    : res (list (list cell)) :=
  let* r := walk fns (init_offsets fns) (visited handles descending) in
  let '(ts, o) := r in
  Ok (match ts with
      | [] => map (fun _ => []) fns
      | t :: ts' => zip_with (fun sp sf => finalize o.(prior_rows) sp sf.1 sf.2) fns
                      (zip o.(fstates) (assemble t ts'))
      end).

End GlobalWindow.
