(* ===== verification/GlobalWindowSound.v ===== *)
(** * The split window returns the kernel's answer

    Proofs about [GlobalWindow]: how the kernel's value at a row of the whole relation
    follows from the bucket's value and what the walk carries, function by function, and
    the theorem that assembles them. *)

From S2P Require Import Prelude WindowKernel GlobalWindow.

Module GlobalWindowSound.
Import WindowKernel GlobalWindow.

(** ** Lists *)

(** The last [k] elements. *)
Definition lastn {A} (k : nat) (l : list A) : list A := drop (length l - k) l.

Lemma lastn_app {A} k (l1 l2 : list A) : lastn k (l1 ++ l2) = lastn (k - length l2) l1 ++ lastn k l2.
Proof.
  unfold lastn. rewrite drop_app, length_app. f_equal; [|f_equal; lia].
  destruct (decide (k <= length l2)%nat); [by rewrite !drop_ge by lia|f_equal; lia].
Qed.

Lemma lastn_length {A} k (l : list A) : length (lastn k l) = Nat.min k (length l).
Proof. unfold lastn. rewrite length_drop. lia. Qed.

Lemma lastn_lastn {A} j k (l : list A) : (j <= k)%nat -> lastn j (lastn k l) = lastn j l.
Proof. intros. unfold lastn. rewrite drop_drop, length_drop. f_equal. lia. Qed.

Lemma lastn_all {A} k (l : list A) : (length l <= k)%nat -> lastn k l = l.
Proof. intros. unfold lastn. by replace (length l - k)%nat with 0%nat by lia. Qed.

Lemma lastn_map {A B} (f : A -> B) k l : lastn k (map f l) = map f (lastn k l).
Proof. unfold lastn. rewrite length_map. symmetry. apply fmap_drop. Qed.

Lemma absorb_lastn k (l1 l2 : list cell) : absorb k (lastn k l1) (lastn k l2) = lastn k (l1 ++ l2).
Proof.
  unfold absorb. fold (lastn k (lastn k l1 ++ lastn k l2)).
  rewrite !lastn_app, (lastn_lastn k k l2) by lia. f_equal.
  rewrite lastn_length. destruct (decide (k <= length l2)%nat).
  - replace (k - _)%nat with 0%nat by lia. replace (k - length l2)%nat with 0%nat by lia.
    unfold lastn. rewrite !drop_ge by lia. done.
  - rewrite lastn_lastn by lia. f_equal. lia.
Qed.

(** Values paired with their ranks, counted from [a]. *)
Fixpoint ranked {A} (a : Z) (l : list A) : list (Z * A) :=
  match l with [] => [] | x :: l' => (a, x) :: ranked (a + 1) l' end.

Lemma ranked_enumerate_from {A} j (l : list A) :
  map (prod_map (fun q => Z.of_nat q + 1) id) (zip (seq j (length l)) l) = ranked (Z.of_nat j + 1) l.
Proof. revert j. induction l as [|x l IH]; intros j; cbn; [done|]. f_equal. rewrite IH. f_equal. lia. Qed.

Lemma ranked_enumerate {A} (l : list A) :
  map (prod_map (fun q => Z.of_nat q + 1) id) (py_enumerate l) = ranked 1 l.
Proof.
  unfold py_enumerate. apply (ranked_enumerate_from 0).
Qed.

Lemma ranked_above {A} a c (l : list A) :
  filter (fun rv => c < rv.1) (ranked a l) = ranked (Z.max a (c + 1)) (drop (Z.to_nat (c + 1 - a)) l).
Proof.
  revert a. induction l as [|x l IH]; intros a; cbn [ranked].
  - by rewrite drop_nil.
  - rewrite filter_cons. cbn [fst]. rewrite IH. destruct (decide (c < a)).
    + replace (Z.to_nat (c + 1 - a)) with 0%nat by lia.
      replace (Z.to_nat (c + 1 - (a + 1))) with 0%nat by lia. cbn. rewrite !Z.max_l by lia. done.
    + replace (Z.to_nat (c + 1 - a)) with (S (Z.to_nat (c + 1 - (a + 1)))) by lia. cbn.
      f_equal. lia.
Qed.

Lemma ranked_upto {A} a c (l : list A) :
  filter (fun rv => rv.1 <= c) (ranked a l) = ranked a (take (Z.to_nat (c + 1 - a)) l).
Proof.
  revert a. induction l as [|x l IH]; intros a; cbn [ranked].
  - by rewrite take_nil.
  - rewrite filter_cons. cbn [fst]. rewrite IH. destruct (decide (a <= c)).
    + by replace (Z.to_nat (c + 1 - a)) with (S (Z.to_nat (c + 1 - (a + 1)))) by lia.
    + replace (Z.to_nat (c + 1 - a)) with 0%nat by lia.
      by replace (Z.to_nat (c + 1 - (a + 1))) with 0%nat by lia.
Qed.

Lemma ranked_snd {A} a (l : list A) : map snd (ranked a l) = l.
Proof. revert a. induction l as [|x l IH]; intros a; cbn; [done|]. by rewrite IH. Qed.

Lemma ranked_fst {A} a (l : list A) : Forall (fun rv => a <= rv.1) (ranked a l).
Proof.
  revert a. induction l as [|x l IH]; intros a; cbn; constructor; cbn; [lia|].
  eapply Forall_impl; [apply IH|]. cbn. intros; lia.
Qed.

Lemma ranked_unique {A} a (l : list A) x y :
  x ∈ ranked a l -> y ∈ ranked a l -> x.1 = y.1 -> x = y.
Proof.
  revert a. induction l as [|z l IH]; intros a; cbn; [by intros ?%elem_of_nil|].
  pose proof (proj1 (Forall_forall _ _) (ranked_fst (a + 1) l)) as Hf.
  intros [->|Hx]%elem_of_cons [->|Hy]%elem_of_cons Hxy; cbn in *; [done| | |by eapply IH].
  - specialize (Hf _ Hy). lia.
  - specialize (Hf _ Hx). lia.
Qed.

Lemma ranked_sorted {A} a (l : list A) : StronglySorted rank_le (ranked a l).
Proof.
  revert a. induction l as [|x l IH]; intros a; cbn; constructor; [done|].
  eapply Forall_impl; [apply ranked_fst|]. unfold rank_le. cbn. intros; lia.
Qed.

#[export] Instance rank_le_trans {A} : Transitive (@rank_le A).
Proof. intros a b c. unfold rank_le. lia. Qed.
#[export] Instance rank_le_total {A} : Total (@rank_le A).
Proof. intros a b. unfold rank_le. lia. Qed.

Lemma in_rank_order_ranked a pairs l : pairs ≡ₚ ranked a l -> in_rank_order pairs = l.
Proof.
  intros Hp. unfold in_rank_order. rewrite <- (ranked_snd a l). f_equal.
  apply (StronglySorted_unique_strong rank_le).
  - intros x y Hx Hy Hxy Hyx. rewrite merge_sort_Permutation, Hp in Hx.
    eapply ranked_unique; [done..|]. unfold rank_le in *. lia.
  - apply (StronglySorted_merge_sort rank_le).
  - apply ranked_sorted.
  - by rewrite merge_sort_Permutation.
Qed.

(** ** Helper columns of a bucket *)

(** Bucket-local ranks pair every row with its place in the sort order. *)
Definition ranks (b : list row) : list Z := map (fun q => Z.of_nat q + 1) (positions b).

Lemma ranks_values sp b :
  zip (ranks b) (map (read (arg sp)) b) ≡ₚ ranked 1 (map (read (arg sp)) (sorted b)).
Proof.
  unfold ranks. rewrite zip_map_l. rewrite <- ranked_enumerate.
  assert (forall (l : list nat) (k : list row),
    zip l (map (read (arg sp)) k) = map (prod_map id (read (arg sp))) (zip l k)) as Hz.
  { intros l. induction l as [|x l IH]; intros [|y k]; cbn; [done..|]. by rewrite IH. }
  rewrite Hz, positions_perm. unfold py_enumerate. rewrite length_map, Hz. done.
Qed.

Lemma tail_in_order_spec sp b k :
  tail_in_order (ranks b) (map (read (arg sp)) b) k = lastn k (map (read (arg sp)) (sorted b)).
Proof.
  unfold tail_in_order. rewrite length_map.
  destruct (0 <? Z.of_nat (length b) - Z.of_nat k) eqn:E.
  - apply Z.ltb_lt in E. eapply in_rank_order_ranked. rewrite ranks_values, ranked_above.
    unfold lastn. rewrite length_map, sorted_length.
    replace (Z.to_nat _) with (length b - k)%nat by lia. done.
  - apply Z.ltb_ge in E. rewrite lastn_all; [|rewrite length_map, sorted_length; lia].
    eapply in_rank_order_ranked, ranks_values.
Qed.

Lemma take_in_order_spec sp b c :
  in_rank_order (filter (fun rv => rv.1 <= c) (zip (ranks b) (map (read (arg sp)) b))) =
    take (Z.to_nat c) (map (read (arg sp)) (sorted b)).
Proof.
  eapply in_rank_order_ranked. rewrite ranks_values, ranked_upto. by replace (c + 1 - 1) with c by lia.
Qed.

(** ** Aggregates as commutative folds *)

Definition agg_op (f : wfn) : val -> val -> val :=
  match f with Fold g => fold_op g | Max => val_max | _ => val_min end.

(** The values an aggregate is applied to. *)
Definition dom (f : wfn) (v : val) : Prop :=
  match f, v with
  | Fold (FBoolAnd | FBoolOr), VB _ => True
  | Fold (FBitAnd | FBitOr | FBitXor), VI _ => True
  | (Fold FSum | Min | Max), VI z => fits64 z = true
  | _, _ => False
  end.

Definition merge (op : val -> val -> val) (x y : cell) : cell :=
  match x, y with
  | Some a, Some b => Some (op a b)
  | None, _ => y
  | _, None => x
  end.

Ltac agg_cases f := destruct f as [| | | | | | | | |[]| | | | |]; try done.

Lemma dom_closed f a b : dom f a -> dom f b -> dom f (agg_op f a b).
Proof.
  agg_cases f; destruct a, b; cbn -[fits64 wrap64]; try done; intros Ha Hb.
  all: rewrite ?wrap64_fits; try done; rewrite fits64_range in *; lia.
Qed.

Lemma agg_comm f a b : dom f a -> dom f b -> agg_op f a b = agg_op f b a.
Proof.
  agg_cases f; destruct a, b; cbn -[fits64 wrap64]; try done; intros _ _; f_equal.
  all: first [apply Z.land_comm | apply Z.lor_comm | apply Z.lxor_comm | apply andb_comm
             | apply orb_comm | f_equal; lia | lia].
Qed.

Lemma agg_assoc f a b c : dom f a -> dom f b -> dom f c ->
  agg_op f (agg_op f a b) c = agg_op f a (agg_op f b c).
Proof.
  agg_cases f; destruct a, b, c; cbn -[fits64 wrap64]; try done; intros _ _ _; f_equal.
  all: first [rewrite wrap64_add_l, wrap64_add_r; f_equal; lia | by rewrite Z.land_assoc
             | by rewrite Z.lor_assoc | by rewrite Z.lxor_assoc | by rewrite andb_assoc
             | by rewrite orb_assoc | lia].
Qed.

Section Reduce.
Context (f : wfn).
Abbreviation op := (agg_op f).

Lemma foldl_dom a l : dom f a -> Forall (dom f) l -> dom f (foldl op a l).
Proof.
  intros Ha Hl. revert a Ha. induction Hl as [|b l Hb _ IH]; intros a Ha; cbn; [done|].
  apply IH. by apply dom_closed.
Qed.

Lemma foldl_assoc a b l : dom f a -> dom f b -> Forall (dom f) l ->
  foldl op (op a b) l = op a (foldl op b l).
Proof.
  intros Ha Hb Hl. revert b Hb. induction Hl as [|c l Hc _ IH]; intros b Hb; cbn; [done|].
  rewrite agg_assoc by done. apply IH. by apply dom_closed.
Qed.

Lemma reduce_cons a l : dom f a -> Forall (dom f) l ->
  reduce op (a :: l) = merge op (Some a) (reduce op l).
Proof.
  intros Ha Hl. destruct Hl as [|b l Hb Hl]; cbn; [done|]. by rewrite foldl_assoc.
Qed.

Lemma reduce_dom l : Forall (dom f) l -> forall v, reduce op l = Some v -> dom f v.
Proof. destruct 1; cbn; [done|]. intros v [= <-]. by apply foldl_dom. Qed.

Lemma merge_assoc x y z :
  (forall v, x = Some v -> dom f v) -> (forall v, y = Some v -> dom f v) ->
  (forall v, z = Some v -> dom f v) ->
  merge op (merge op x y) z = merge op x (merge op y z).
Proof.
  destruct x as [a|], y as [b|], z as [c|]; cbn; try done. intros Ha Hb Hc.
  by rewrite agg_assoc by auto.
Qed.

Lemma reduce_app l1 l2 : Forall (dom f) l1 -> Forall (dom f) l2 ->
  reduce op (l1 ++ l2) = merge op (reduce op l1) (reduce op l2).
Proof.
  intros H1 H2. induction H1 as [|a l1 Ha H1 IH]; [done|]. cbn [app].
  rewrite (reduce_cons a (l1 ++ l2)), IH, (reduce_cons a l1) by (try apply Forall_app_2; done).
  rewrite merge_assoc; [done|by intros ? [= <-]|by apply reduce_dom..].
Qed.

Lemma reduce_perm l1 l2 : l1 ≡ₚ l2 -> Forall (dom f) l1 -> reduce op l1 = reduce op l2.
Proof.
  induction 1 as [|a l1 l2 Hp IH|a b l|l1 l2 l3 Hp IH Hp' IH']; intros Hd; [done| | |].
  - apply Forall_cons in Hd as [Ha Hd].
    rewrite (reduce_cons a l1), (reduce_cons a l2), IH; try done. by rewrite <- Hp.
  - apply Forall_cons in Hd as [Ha Hd]. apply Forall_cons in Hd as [Hb Hd]. cbn.
    by rewrite agg_comm.
  - rewrite IH by done. apply IH'. by rewrite <- Hp.
Qed.
End Reduce.

(** ** The kernel on an ordered split *)

Lemma filter_true {A} (P : A -> Prop) `{!forall x, Decision (P x)} (l : list A) :
  (forall x, x ∈ l -> P x) -> filter P l = l.
Proof.
  induction l as [|x l IH]; intros Hl; [done|]. rewrite filter_cons_True by (apply Hl; by left).
  rewrite IH; [done|]. intros y Hy. apply Hl. by right.
Qed.

Lemma filter_none {A} (P : A -> Prop) `{!forall x, Decision (P x)} (l : list A) :
  (forall x, x ∈ l -> ~ P x) -> filter P l = [].
Proof.
  induction l as [|x l IH]; intros Hl; [done|]. rewrite filter_cons_False by (apply Hl; by left).
  apply IH. intros y Hy. apply Hl. by right.
Qed.

(** Frames from the start of the relation through the current row or its peers. *)
Definition prefix_frame (sp : spec) : Prop :=
  (fr sp = None /\ is_value_fn (func sp) = false) \/
  fr sp = Some (Frame None (Some 0) Rows) \/ fr sp = Some (Frame None (Some 0) Range).

(** [p] PRECEDING to CURRENT ROW. *)
Definition trailing_frame (p : nat) (sp : spec) : Prop :=
  fr sp = Some (Frame (Some (- Z.of_nat p)) (Some 0) Rows).

Section Append.
Context (S B : list row) (Hk : keys_below S B).
Abbreviation n := (length S).

Lemma lookup_split q : (S ++ B) !! (n + q)%nat = B !! q.
Proof. rewrite lookup_app_r by lia. f_equal. lia. Qed.

Lemma S_below q r x : B !! q = Some r -> x ∈ S -> key x < key r.
Proof. intros Hq Hx. apply Hk; [done|]. by eapply list_elem_of_lookup_2. Qed.

Lemma B_above p r x : S !! p = Some r -> x ∈ B -> key r < key x.
Proof. intros Hp Hx. apply Hk; [|done]. by eapply list_elem_of_lookup_2. Qed.

Lemma filter_le_app q r : B !! q = Some r ->
  filter (fun x => key x <= key r) (S ++ B) = S ++ filter (fun x => key x <= key r) B.
Proof.
  intros Hq. rewrite filter_app, (filter_true _ S); [done|].
  intros x Hx. pose proof (S_below _ _ _ Hq Hx). lia.
Qed.

Lemma filter_le_prefix p r : S !! p = Some r ->
  filter (fun x => key x <= key r) (S ++ B) = filter (fun x => key x <= key r) S.
Proof.
  intros Hp. rewrite filter_app, (filter_none _ B), app_nil_r; [done|].
  intros x Hx. pose proof (B_above _ _ _ Hp Hx). lia.
Qed.

Lemma before_app q r : B !! q = Some r -> before (S ++ B) (key r) = (n + before B (key r))%nat.
Proof.
  intros Hq. unfold before. rewrite filter_app, (filter_true _ S), length_app; [done|].
  intros x Hx. by eapply S_below.
Qed.

Lemma before_prefix p r : S !! p = Some r -> before (S ++ B) (key r) = before S (key r).
Proof.
  intros Hp. unfold before. rewrite filter_app, (filter_none _ B), app_nil_r; [done|].
  intros x Hx. pose proof (B_above _ _ _ Hp Hx). lia.
Qed.

Lemma through_app q r : B !! q = Some r -> through (S ++ B) (key r) = (n + through B (key r))%nat.
Proof. intros Hq. unfold through. by rewrite (filter_le_app q), length_app. Qed.

Lemma through_prefix p r : S !! p = Some r -> through (S ++ B) (key r) = through S (key r).
Proof. intros Hp. unfold through. by rewrite (filter_le_prefix p). Qed.

Lemma through_le (l : list row) k : (through l k <= length l)%nat.
Proof. unfold through. apply length_filter. Qed.

Lemma slice_app sp q r : prefix_frame sp -> B !! q = Some r ->
  slice sp (S ++ B) (n + q) (key r) = S ++ slice sp B q (key r).
Proof.
  intros Hf Hq. pose proof (lookup_lt_Some _ _ _ Hq). unfold slice.
  destruct Hf as [[-> ->]|[->| ->]]; cbn.
  - by rewrite (through_app q), take_app_add.
  - rewrite length_app, !Nat.min_r by lia. rewrite !drop_0.
    replace (Z.to_nat (Z.of_nat (n + q) + 0 + 1)) with (n + Z.to_nat (Z.of_nat q + 0 + 1))%nat by lia.
    by rewrite take_app_add.
  - by rewrite (through_app q), !drop_0, take_app_add.
Qed.

Lemma slice_trailing sp p q r : trailing_frame p sp -> B !! q = Some r ->
  slice sp (S ++ B) (n + q) (key r) = lastn (p - q) S ++ slice sp B q (key r).
Proof.
  intros Hf Hq. pose proof (lookup_lt_Some _ _ _ Hq). unfold slice. rewrite Hf. cbn.
  rewrite length_app, !Nat.min_r by lia.
  replace (Z.to_nat (Z.of_nat (n + q) + 0 + 1)) with (n + Z.to_nat (Z.of_nat q + 0 + 1))%nat by lia.
  rewrite take_app_add, drop_app. unfold lastn. f_equal; [|f_equal; lia].
  destruct (decide (q <= p)%nat); [f_equal; lia|]. by rewrite !drop_ge by lia.
Qed.

Lemma slice_prefix sp q r : (prefix_frame sp \/ exists p, trailing_frame p sp) -> S !! q = Some r ->
  slice sp (S ++ B) q (key r) = slice sp S q (key r).
Proof.
  intros Hf Hq. pose proof (lookup_lt_Some _ _ _ Hq). pose proof (through_le S (key r)). unfold slice.
  destruct Hf as [[[-> ->]|[->| ->]]|[p ->]]; cbn.
  - by rewrite (through_prefix q), take_app_le.
  - rewrite length_app, !Nat.min_r by lia. by rewrite take_app_le by lia.
  - by rewrite (through_prefix q), take_app_le.
  - rewrite length_app, !Nat.min_r by lia. by rewrite take_app_le by lia.
Qed.

Lemma vals_app sp (l1 l2 : list row) : vals sp (l1 ++ l2) = vals sp l1 ++ vals sp l2.
Proof. apply omap_app. Qed.

Lemma remove_dups_app (l1 l2 : list Z) : (forall x, x ∈ l1 -> x ∉ l2) ->
  remove_dups (l1 ++ l2) = remove_dups l1 ++ remove_dups l2.
Proof.
  induction l1 as [|x l1 IH]; intros Hd; [done|]. cbn.
  assert (x ∈ l1 ++ l2 <-> x ∈ l1) as Hx.
  { rewrite elem_of_app. split; [|by left]. intros [?|H]; [done|]. destruct (Hd x); [by left|done]. }
  rewrite IH by (intros y Hy; apply Hd; by right).
  destruct (decide_rel elem_of x (l1 ++ l2)) as [H1|H1], (decide_rel elem_of x l1) as [H2|H2]; try done;
    by rewrite Hx in H1.
Qed.

Lemma distinct_app (l : list row) : (forall x, x ∈ l -> x ∈ B) ->
  length (remove_dups (map key (S ++ l))) =
    (length (remove_dups (map key S)) + length (remove_dups (map key l)))%nat.
Proof.
  intros Hl. rewrite map_app, remove_dups_app, length_app; [done|].
  intros x Hx Hx'. apply list_elem_of_fmap in Hx as (a & -> & Ha), Hx' as (b & Hb & Hb').
  pose proof (Hk a b Ha (Hl _ Hb')). lia.
Qed.
End Append.

(** ** What admission leaves *)

(** The functions with the frames they are admitted with; [default_range] is SQL's default
    frame spelled out. *)
Definition default_range : option frame := Some (Frame None (Some 0) Range).

Definition rank_fn (f : wfn) : bool :=
  match f with RowNumber | Rank | DenseRank => true | _ => false end.
Definition total_fn (f : wfn) : bool :=
  match f with PercentRank | CumeDist | Ntile => true | _ => false end.

Inductive shape (sp : spec) : Prop :=
  | ShRank : rank_fn (func sp) = true -> fr sp = None -> shape sp
  | ShTotal : total_fn (func sp) = true -> fr sp = None -> shape sp
  | ShLag : func sp = Lag -> fr sp = None -> shape sp
  | ShAgg : rows_running_func (func sp) = true ->
      (fr sp = None \/ fr sp = Some (Frame None (Some 0) Rows)) -> shape sp
  | ShTrail p : trailing_func (func sp) = true -> (0 < p)%nat -> trailing_frame p sp -> shape sp
  | ShFirst : func sp = FirstValue -> (fr sp = None \/ fr sp = default_range) -> shape sp
  | ShLast : func sp = LastValue -> fr sp = None -> shape sp
  | ShLastRun : func sp = LastValue -> fr sp = default_range -> shape sp
  | ShNth : func sp = NthValue -> ignore_nulls sp = false -> fr sp = default_range -> shape sp.

Lemma trailing_distance_frame sp p :
  trailing_rows_distance sp = Some p ->
  trailing_func (func sp) = true /\ (0 < p)%nat /\ trailing_frame p sp.
Proof.
  unfold trailing_rows_distance, trailing_frame. destruct (fr sp) as [[a b u]|]; [|done]. cbn.
  destruct (trailing_func (func sp)); [|done]. cbn. case_bool_decide as Hu; [|done]. cbn.
  destruct b as [[| |]|], a as [a|]; try done. py_if; [done|]. intros [= <-].
  split; [done|]. split; [lia|]. rewrite Hu. do 3 f_equal. lia.
Qed.

Lemma trailing_distance_iff sp p : (0 < p)%nat -> trailing_func (func sp) = true ->
  trailing_frame p sp -> trailing_rows_distance sp = Some p.
Proof.
  intros Hp Hf Hfr. unfold trailing_rows_distance. rewrite Hfr, Hf. cbn.
  rewrite bool_decide_eq_true_2 by done. cbn. py_if; [lia|]. f_equal. lia.
Qed.

(** Every function [supports_ordered_bucket_offsets] admits has one of these shapes. *)
Lemma supports_fn_shape w sp : supports_fn w true sp = true -> shape sp.
Proof.
  unfold supports_fn. intros H. bsplit. destruct (fr sp) as [f|] eqn:Ef.
  - unfold running_frame_ok, is_running_last_value, is_running_nth_value, is_running_first_value,
      default_frame, is_rows_running_frame in *.
    rewrite Ef in *. rewrite !orb_true_iff, !andb_true_iff, !bool_decide_eq_true, !negb_true_iff in *.
    destruct H as [[[[[Hf Hr]|[[Hf Hi] Hr]]|[[Hf Hi] Hr]]|[Hf Hr]]|[p Hp]].
    + apply ShLastRun; [done|by rewrite Ef].
    + apply ShNth; [done..|by rewrite Ef].
    + apply ShFirst; [done|right; by rewrite Ef].
    + apply ShAgg; [done|right; congruence].
    + apply trailing_distance_frame in Hp as (? & ? & ?). by eapply ShTrail.
  - assert (running_frame_ok sp = false) as Hn.
    { unfold running_frame_ok, is_running_last_value, is_running_nth_value, is_running_first_value,
        default_frame, is_rows_running_frame, trailing_rows_distance. rewrite Ef.
      rewrite !(bool_decide_eq_false_2 (None = Some _)), (bool_decide_eq_false_2 (is_Some None)) by
        (done || by intros [? ?]). by rewrite !andb_false_r. }
    rewrite Hn in *. destruct (func sp) eqn:Efn; cbn in *; try done;
      first [apply ShRank; [by rewrite Efn|done] | apply ShTotal; [by rewrite Efn|done]
            | apply ShLag; done | apply ShAgg; [by rewrite Efn|by left] | apply ShFirst; [done|by left]
            | apply ShLast; done].
Qed.

(** Offsets and null handling under which a function's correction is exact. *)
Definition exact (sp : spec) : bool :=
  match func sp with
  | Lag | NthValue => 1 <=? offset sp
  | FirstValue | LastValue => negb (ignore_nulls sp)
  | _ => true
  end.

(** The column an aggregate reads holds 64-bit integers, or booleans for the boolean folds. *)
Definition val_ok (f : wfn) (v : val) : bool :=
  match f, v with
  | Fold (FBoolAnd | FBoolOr), VB _ => true
  | Fold (FBoolAnd | FBoolOr), _ => false
  | (Fold _ | Min | Max), VI z => fits64 z
  | (Fold _ | Min | Max), _ => false
  | _, _ => true
  end.
Definition typed (sp : spec) (rows : list row) : bool := forallb (val_ok (func sp)) (vals sp rows).

Definition is_agg (f : wfn) : bool := match f with Fold _ | Min | Max => true | _ => false end.

Definition is_positional (f : wfn) : bool :=
  match f with FirstValue | LastValue | NthValue => true | _ => false end.

Lemma typed_dom sp rows : is_agg (func sp) = true -> typed sp rows = true ->
  Forall (dom (func sp)) (vals sp rows).
Proof.
  unfold typed. intros Ha Ht. rewrite forallb_forall in Ht. apply Forall_forall. intros v Hv%list_elem_of_In. specialize (Ht v Hv).
  destruct (func sp) as [| | | | | | | | |[]| | | | |]; try done; by destruct v.
Qed.

Lemma typed_app sp l1 l2 : typed sp (l1 ++ l2) = typed sp l1 && typed sp l2.
Proof. unfold typed. by rewrite vals_app, forallb_app. Qed.

Lemma dom_submseteq sp l1 l2 : l1 ⊆+ l2 -> Forall (dom (func sp)) (vals sp l2) ->
  Forall (dom (func sp)) (vals sp l1).
Proof.
  intros Hs. rewrite !Forall_forall. intros H v Hv. apply H. unfold vals in *.
  apply list_elem_of_omap in Hv as (r & Hr & Hv). apply list_elem_of_omap. exists r.
  split; [by eapply elem_of_submseteq|done].
Qed.

(** ** The value at a row of the bucket, in the whole prefix *)

Section Bucket.
Context (sp : spec) (S B : list row) (Hk : keys_below S B) (q : nat) (r : row) (Hq : B !! q = Some r).
Abbreviation n := (length S).
Abbreviation global := (kcell sp (S ++ B) (n + q)).

Lemma row_number_app : func sp = RowNumber -> global = add_int (Z.of_nat n) (kcell sp B q).
Proof.
  intros Hf. unfold kcell. rewrite lookup_split, Hq, Hf. unfold int, add_int. do 2 f_equal. lia.
Qed.

Lemma rank_app : func sp = Rank -> global = add_int (Z.of_nat n) (kcell sp B q).
Proof.
  intros Hf. unfold kcell. rewrite lookup_split, Hq, Hf, (before_app S B Hk q) by done.
  unfold int, add_int. do 2 f_equal. lia.
Qed.

Lemma dense_rank_app : func sp = DenseRank ->
  global = add_int (Z.of_nat (length (remove_dups (map key S)))) (kcell sp B q).
Proof.
  intros Hf. unfold kcell. rewrite lookup_split, Hq, Hf, (filter_le_app S B Hk q) by done.
  rewrite (distinct_app S B Hk); [|by intros x [_ Hx]%list_elem_of_filter].
  unfold int, add_int. do 2 f_equal. lia.
Qed.

Lemma count_app : func sp = Count -> prefix_frame sp ->
  global = add_int (Z.of_nat (length (vals sp S))) (kcell sp B q).
Proof.
  intros Hf Hp. unfold kcell. rewrite lookup_split, Hq, Hf, slice_app, vals_app, length_app by done.
  unfold int, add_int. do 2 f_equal. lia.
Qed.

Lemma slice_sub (l : list row) p k : slice sp l p k ⊆+ l.
Proof.
  unfold slice. destruct (fr sp) as [f|]; [|destruct (is_value_fn _); [done|]].
  - destruct (frame_bounds f l p k) as [[a c]|]; [|apply submseteq_nil_l].
    transitivity (take c l); apply sublist_submseteq; [apply sublist_drop|apply sublist_take].
  - apply sublist_submseteq, sublist_take.
Qed.

Lemma kcell_agg (l : list row) p x : is_agg (func sp) = true -> l !! p = Some x ->
  kcell sp l p = reduce (agg_op (func sp)) (vals sp (slice sp l p (key x))).
Proof. intros Ha Hx. unfold kcell. rewrite Hx. by destruct (func sp). Qed.

Lemma agg_app : is_agg (func sp) = true -> prefix_frame sp ->
  Forall (dom (func sp)) (vals sp (S ++ B)) ->
  global = merge (agg_op (func sp)) (reduce (agg_op (func sp)) (vals sp S)) (kcell sp B q).
Proof.
  intros Ha Hp Hd. rewrite !(kcell_agg _ _ r) by (done || by rewrite lookup_split).
  rewrite slice_app, vals_app by done. apply reduce_app.
  - eapply dom_submseteq; [|exact Hd]. by apply submseteq_inserts_r.
  - eapply dom_submseteq; [|exact Hd]. rewrite slice_sub. by apply submseteq_inserts_l.
Qed.

Lemma kcell_value (l : list row) p x : is_positional (func sp) = true -> l !! p = Some x ->
  kcell sp l p = pick sp (slice sp l p (key x)).
Proof. intros Ha Hx. unfold kcell. rewrite Hx. by destruct (func sp). Qed.

Lemma through_pos (l : list row) p x : l !! p = Some x -> (0 < through l (key x))%nat.
Proof.
  intros Hx. unfold through. destruct (filter _ l) as [|y l'] eqn:E; [|cbn; lia].
  assert (x ∈ filter (fun y => key y <= key x) l) as Hin.
  { apply list_elem_of_filter. split; [lia|by eapply list_elem_of_lookup_2]. }
  rewrite E in Hin. by apply elem_of_nil in Hin.
Qed.

(** The first value is the relation's first row's, under either admitted frame. *)
Lemma first_value (l : list row) p x : func sp = FirstValue -> ignore_nulls sp = false ->
  (fr sp = None \/ fr sp = default_range) -> l !! p = Some x ->
  kcell sp l p = mjoin (read (arg sp) <$> head l).
Proof.
  intros Hf Hi Hfr Hx. rewrite (kcell_value l p x) by (done || by rewrite Hf).
  unfold pick. rewrite Hf, Hi. pose proof (through_pos l p x Hx) as Ht.
  destruct l as [|y l]; [done|]. unfold slice. rewrite Hf. destruct Hfr as [->| ->]; cbn -[through]; [done|].
  rewrite drop_0. by destruct (through (y :: l) (key x)); [lia|].
Qed.

Lemma last_run_app : func sp = LastValue -> ignore_nulls sp = false -> fr sp = default_range ->
  global = kcell sp B q.
Proof.
  intros Hf Hi Hfr. rewrite !(kcell_value _ _ r) by (done || by rewrite Hf || by rewrite lookup_split).
  rewrite slice_app by (done || by right; right). unfold pick. rewrite Hf, Hi, map_app.
  assert (slice sp B q (key r) <> []) as Hne.
  { unfold slice. rewrite Hfr. cbn. rewrite drop_0. intros H%(f_equal length).
    rewrite length_take in H. pose proof (through_pos B q r Hq). pose proof (lookup_lt_Some _ _ _ Hq). cbn in H. lia. }
  f_equal. destruct (slice sp B q (key r)) as [|y l] using rev_ind; [done|].
  rewrite map_app. cbn [map]. by rewrite app_assoc, !last_snoc.
Qed.

Lemma last_whole (l : list row) p x : func sp = LastValue -> ignore_nulls sp = false -> fr sp = None ->
  l !! p = Some x -> kcell sp l p = mjoin (read (arg sp) <$> last l).
Proof.
  intros Hf Hi Hfr Hx. rewrite (kcell_value l p x) by (done || by rewrite Hf).
  unfold pick, slice. rewrite Hf, Hi, Hfr. cbn. f_equal. apply fmap_last.
Qed.

(** *** [lag]: the boundary exchange *)

Lemma lag_cell (l : list row) p x : func sp = Lag -> 1 <= offset sp -> l !! p = Some x ->
  kcell sp l p = if (p <? distance sp)%nat then None
                 else mjoin (read (arg sp) <$> l !! (p - distance sp)%nat).
Proof.
  intros Hf Ho Hx. unfold kcell. rewrite Hx, Hf. unfold neighbour, distance. rewrite Z.max_r by done.
  destruct (p <? _)%nat eqn:E.
  - apply Nat.ltb_lt in E. by rewrite (proj2 (Z.ltb_lt _ _)) by lia.
  - apply Nat.ltb_ge in E. rewrite (proj2 (Z.ltb_ge _ _)) by lia. do 3 f_equal. lia.
Qed.

Lemma head_replacement k (vs : list cell) i : (i < k)%nat ->
  mjoin (head_replacements k (lastn k vs) !! i) =
    if (length vs + i <? k)%nat then None else mjoin (vs !! (length vs + i - k)%nat).
Proof.
  intros Hi. unfold head_replacements.
  rewrite list_lookup_fmap, lookup_seq_lt by done. cbn [fmap option_fmap option_map mjoin option_join].
  rewrite lastn_length. destruct (length vs + i <? k)%nat eqn:E.
  - apply Nat.ltb_lt in E. by rewrite (proj2 (Nat.leb_gt _ _)) by lia.
  - apply Nat.ltb_ge in E. rewrite (proj2 (Nat.leb_le _ _)) by lia. unfold lastn.
    rewrite lookup_drop. do 2 f_equal. lia.
Qed.

Lemma lag_app : func sp = Lag -> 1 <= offset sp ->
  global = if (q + 1 <=? distance sp)%nat
           then mjoin (head_replacements (distance sp) (lastn (distance sp) (map (read (arg sp)) S)) !! q)
           else kcell sp B q.
Proof.
  intros Hf Ho. rewrite (lag_cell _ _ r), (lag_cell B q r) by (done || by rewrite lookup_split).
  destruct (q + 1 <=? distance sp)%nat eqn:E.
  - apply Nat.leb_le in E. rewrite head_replacement, length_map by lia.
    destruct (n + q <? distance sp)%nat eqn:E'; [done|]. apply Nat.ltb_ge in E'.
    rewrite lookup_app_l by lia. by rewrite list_lookup_fmap.
  - apply Nat.leb_gt in E. rewrite !(proj2 (Nat.ltb_ge _ _)) by lia.
    rewrite lookup_app_r by lia. do 3 f_equal. lia.
Qed.

(** *** [nth_value]: the first [k] values *)

Lemma nth_cell (l : list row) p x : func sp = NthValue -> ignore_nulls sp = false ->
  fr sp = default_range -> 1 <= offset sp -> l !! p = Some x ->
  kcell sp l p = if (distance sp <=? through l (key x))%nat
                 then mjoin (map (read (arg sp)) l !! (distance sp - 1)%nat) else None.
Proof.
  intros Hf Hi Hfr Ho Hx. rewrite (kcell_value l p x) by (done || by rewrite Hf).
  unfold pick, slice. rewrite Hf, Hi, Hfr. cbn. rewrite (proj2 (Z.leb_le _ _)) by done.
  unfold distance. rewrite Z.max_r, drop_0 by done. pose proof (through_le l (key x)).
  replace (Z.to_nat (offset sp - 1)) with (Z.to_nat (offset sp) - 1)%nat by lia.
  destruct (_ <=? through _ _)%nat eqn:E.
  - apply Nat.leb_le in E. rewrite !list_lookup_fmap, lookup_take_lt by lia. done.
  - apply Nat.leb_gt in E. rewrite list_lookup_fmap, lookup_take_ge by lia. done.
Qed.

Lemma nth_app : func sp = NthValue -> ignore_nulls sp = false -> fr sp = default_range ->
  1 <= offset sp ->
  global = if (distance sp <=? n + through B (key r))%nat
           then mjoin (take (distance sp) (map (read (arg sp)) (S ++ B)) !! (distance sp - 1)%nat) else None.
Proof.
  intros Hf Hi Hfr Ho. rewrite (nth_cell _ _ r), (through_app S B Hk q) by (done || by rewrite lookup_split).
  destruct (_ <=? _)%nat; [|done]. rewrite lookup_take_lt; [done|]. unfold distance. lia.
Qed.

(** *** Trailing frames: folds over a suffix of the tail *)

Lemma trailing_count_app p : func sp = Count -> trailing_frame p sp ->
  global = add_int (Z.of_nat (length (vals sp (lastn (p - q) S)))) (kcell sp B q).
Proof.
  intros Hf Hp. unfold kcell. rewrite lookup_split, Hq, Hf, (slice_trailing S B sp p), vals_app, length_app by done.
  unfold int, add_int. do 2 f_equal. lia.
Qed.

Lemma trailing_agg_app p : is_agg (func sp) = true -> trailing_frame p sp ->
  Forall (dom (func sp)) (vals sp (S ++ B)) ->
  global = merge (agg_op (func sp)) (reduce (agg_op (func sp)) (vals sp (lastn (p - q) S))) (kcell sp B q).
Proof.
  intros Ha Hp Hd. rewrite !(kcell_agg _ _ r) by (done || by rewrite lookup_split).
  rewrite (slice_trailing S B sp p), vals_app by done. apply reduce_app.
  - eapply dom_submseteq; [|exact Hd]. transitivity S; [apply sublist_submseteq, sublist_drop|by apply submseteq_inserts_r].
  - eapply dom_submseteq; [|exact Hd]. rewrite slice_sub. by apply submseteq_inserts_l.
Qed.
End Bucket.

Definition foldl1 (g : Z -> Z -> Z) (xs : list Z) (fill : Z) : Z :=
  match xs with [] => fill | x :: xs' => foldl g x xs' end.

Lemma accumulate_from_lookup g a xs i : (i < length xs)%nat ->
  accumulate_from g a xs !! i = Some (foldl g a (take (S i) xs)).
Proof.
  revert a i. induction xs as [|x xs IH]; intros a i Hi; cbn in Hi; [lia|].
  destruct i as [|i]; cbn; [done|]. rewrite IH by lia. done.
Qed.

Lemma accumulate_lookup g xs fill i : (i < length xs)%nat ->
  accumulate g xs !! i = Some (foldl1 g (take (S i) xs) fill).
Proof.
  destruct xs as [|x xs]; cbn; [lia|]. intros Hi. destruct i as [|i]; cbn; [done|].
  by rewrite accumulate_from_lookup by lia.
Qed.

Lemma accumulate_length g xs : length (accumulate g xs) = length xs.
Proof.
  destruct xs as [|x xs]; [done|]. cbn. f_equal. revert x.
  induction xs as [|y xs IH]; intros x; cbn; [done|]. by rewrite IH.
Qed.

Lemma padded_accumulate g xs fill size i : (length xs <= size)%nat -> (i < size)%nat ->
  padded size (accumulate g xs) fill !! i = Some (foldl1 g (take (S i) xs) fill).
Proof.
  intros Hl Hi. unfold padded. destruct (last (accumulate g xs)) as [l|] eqn:E.
  - destruct (decide (i < length xs)%nat).
    + rewrite lookup_app_l by (by rewrite accumulate_length). by apply accumulate_lookup.
    + rewrite lookup_app_r, accumulate_length, lookup_replicate_2 by (rewrite ?accumulate_length; lia).
      rewrite last_lookup, accumulate_length in E.
      assert (0 < length xs)%nat by (destruct xs; [done|cbn; lia]).
      rewrite (accumulate_lookup _ _ fill) in E by lia. rewrite <- E. by rewrite !take_ge by lia.
  - destruct xs as [|x xs]; [|by apply last_None in E]. rewrite take_nil. by apply lookup_replicate_2.
Qed.

(** The fold of [_suffixes] as an integer operation with the value that pads it. *)
Definition zop (f : wfn) : Z -> Z -> Z :=
  match f with Min => Z.min | Max => Z.max | _ => fun a b => wrap64 (a + b) end.
Definition zfill (f : wfn) : Z := match f with Min => I64_MAX | Max => I64_MIN | _ => 0 end.

Lemma suffix_folds_eq f size tail :
  suffix_folds f size tail = padded size (accumulate (zop f) (filled (zfill f) tail)) (zfill f).
Proof. by destruct f. Qed.

Definition vz (fill : Z) (c : cell) : Z := match c with Some _ => cell_int c | None => fill end.

Lemma zop_fill f z : trailing_func f = true -> is_agg f = true -> fits64 z = true ->
  zop f (zfill f) z = z /\ zop f z (zfill f) = z.
Proof.
  destruct f as [| | | | | | | | |[]| | | | |]; try done; intros _ _ Hz; cbn -[wrap64].
  3: split; [|rewrite Z.add_0_r]; by apply wrap64_id.
  all: unfold I64_MAX, I64_MIN; apply fits64_range in Hz; lia.
Qed.

Lemma zop_agg f a b : trailing_func f = true -> is_agg f = true -> agg_op f (VI a) (VI b) = VI (zop f a b).
Proof. by destruct f as [| | | | | | | | |[]| | | | |]. Qed.

Lemma dom_int f v : trailing_func f = true -> is_agg f = true -> dom f v ->
  exists z, v = VI z /\ fits64 z = true.
Proof. destruct f as [| | | | | | | | |[]| | | | |]; try done; destruct v; try done; eauto. Qed.

Lemma dom_VI f z : trailing_func f = true -> is_agg f = true -> fits64 z = true -> dom f (VI z).
Proof. by destruct f as [| | | | | | | | |[]| | | | |]. Qed.

Lemma fold_filled f a cs : trailing_func f = true -> is_agg f = true -> fits64 a = true ->
  Forall (dom f) (omap id cs) ->
  Some (VI (foldl (zop f) a (map (vz (zfill f)) cs))) = merge (agg_op f) (Some (VI a)) (reduce (agg_op f) (omap id cs)).
Proof.
  intros Ht Hf Ha Hd. rewrite <- reduce_cons by (auto using dom_VI). revert a Ha.
  induction cs as [|c cs IH]; intros a Ha; [done|]. cbn [map foldl].
  destruct c as [v|]; cbn [omap list_omap id] in *.
  - apply Forall_cons in Hd as [Hv Hd]. destruct (dom_int f v Ht Hf Hv) as (z & -> & Hz).
    cbn [vz cell_int reduce foldl]. rewrite zop_agg by done. apply (IH Hd).
    pose proof (dom_closed f (VI a) (VI z) (dom_VI f a Ht Hf Ha) Hv) as Hc. rewrite zop_agg in Hc by done.
    destruct (dom_int f _ Ht Hf Hc) as (? & [= <-] & ?). done.
  - cbn [vz]. rewrite (proj2 (zop_fill f a Ht Hf Ha)). by apply IH.
Qed.

Lemma foldl1_filled f cs v : trailing_func f = true -> is_agg f = true ->
  Forall (dom f) (omap id cs) -> reduce (agg_op f) (omap id cs) = Some v ->
  v = VI (foldl1 (zop f) (map (vz (zfill f)) cs) (zfill f)).
Proof.
  intros Ht Hf Hd. destruct cs as [|c cs]; [done|]. destruct c as [w|]; cbn [omap list_omap id map foldl1] in *.
  - apply Forall_cons in Hd as [Hw Hd]. rewrite reduce_cons by done.
    destruct (dom_int f w Ht Hf Hw) as (z & -> & Hz). cbn [vz cell_int].
    rewrite <- fold_filled by done. congruence.
  - intros Hv. cbn [vz]. assert (fits64 (zfill f) = true) as Hz by (by destruct f as [| | | | | | | | |[]| | | | |]).
    pose proof (fold_filled f (zfill f) cs Ht Hf Hz Hd) as H. rewrite Hv in H. cbn [merge] in H.
    pose proof (reduce_dom f _ Hd v Hv) as Hdv. destruct (dom_int f v Ht Hf Hdv) as (z & -> & Hzz).
    rewrite zop_agg, (proj1 (zop_fill f z Ht Hf Hzz)) in H by done. congruence.
Qed.

Lemma foldl1_count cs : foldl1 Z.add (map (fun c : cell => match c with Some _ => 1 | None => 0 end) cs) 0 =
  Z.of_nat (length (omap id cs)).
Proof.
  assert (forall cs a, foldl Z.add a (map (fun c : cell => match c with Some _ => 1 | None => 0 end) cs) =
    a + Z.of_nat (length (omap id cs))) as H.
  { clear. induction cs as [|[v|] cs IH]; intros a; cbn [map foldl omap list_omap id length]; [lia|..]; rewrite IH; lia. }
  destruct cs as [|c cs]; [done|]. cbn [map foldl1]. rewrite H.
  destruct c; cbn [omap list_omap id length]; lia.
Qed.

Lemma vals_omap sp (l : list row) : omap id (map (read (arg sp)) l) = vals sp l.
Proof. unfold vals. induction l as [|x l IH]; [done|]. cbn. destruct (read (arg sp) x); cbn; by rewrite IH. Qed.

Lemma vals_rev sp (l : list row) : omap id (rev (map (read (arg sp)) l)) ≡ₚ vals sp l.
Proof. rewrite <- Permutation_rev. by rewrite vals_omap. Qed.

Section Suffix.
Context (sp : spec) (S : list row) (p i : nat) (Hi : (i < p)%nat).
Abbreviation tail := (lastn p (map (read (arg sp)) S)).

Lemma take_rev_tail : take (Datatypes.S i) (rev tail) = rev (map (read (arg sp)) (lastn (Datatypes.S i) S)).
Proof.
  rewrite firstn_rev. fold (lastn (Datatypes.S i) tail). by rewrite lastn_lastn, lastn_map by lia.
Qed.

Lemma suffix_counts_lookup :
  suffix_counts p tail !! i = Some (Z.of_nat (length (vals sp (lastn (Datatypes.S i) S)))).
Proof.
  unfold suffix_counts. rewrite padded_accumulate by (rewrite ?length_map, ?length_rev, ?lastn_length; lia).
  rewrite <- fmap_take, take_rev_tail. f_equal. etransitivity; [apply foldl1_count|].
  f_equal. apply Permutation_length, vals_rev.
Qed.

Lemma suffix_folds_lookup v : trailing_func (func sp) = true -> is_agg (func sp) = true ->
  Forall (dom (func sp)) (vals sp (lastn (Datatypes.S i) S)) ->
  reduce (agg_op (func sp)) (vals sp (lastn (Datatypes.S i) S)) = Some v ->
  exists z, v = VI z /\ suffix_folds (func sp) p tail !! i = Some z.
Proof.
  intros Ht Ha Hd Hv. rewrite suffix_folds_eq.
  rewrite padded_accumulate by (unfold filled; rewrite ?length_map, ?length_rev, ?lastn_length; lia).
  eexists. split; [|done]. unfold filled. rewrite <- fmap_take, take_rev_tail.
  apply foldl1_filled; [done..| |]; [by rewrite vals_rev|].
  rewrite <- Hv. symmetry. apply reduce_perm; [by rewrite vals_rev|done].
Qed.
End Suffix.

(** [_combine] on a bucket row, given the suffix it reads. *)
Definition suffix_index (p q : nat) : nat :=
  if Z.of_nat q + 1 <=? Z.of_nat p then Z.to_nat (Z.of_nat p - (Z.of_nat q + 1)) else 0%nat.

Lemma combine_at_agg f p counts folds q c :
  trailing_func f = true -> is_agg f = true -> (forall v, c = Some v -> exists z, v = VI z) ->
  combine_at f p counts folds (Z.of_nat q + 1) c =
    if (q <? p)%nat && (0 <? default 0 (counts !! suffix_index p q))
    then merge (agg_op f) c (Some (VI (default 0 (folds !! suffix_index p q)))) else c.
Proof.
  intros Ht Ha Hc. unfold combine_at, suffix_index.
  replace (Z.of_nat q + 1 <=? Z.of_nat p) with (q <? p)%nat
    by (destruct (q <? p)%nat eqn:E; [apply Nat.ltb_lt in E|apply Nat.ltb_ge in E]; symmetry;
        [apply Z.leb_le|apply Z.leb_gt]; lia).
  destruct c as [v|].
  - destruct (Hc v eq_refl) as [z ->]. cbn [merge]. rewrite zop_agg by done.
    destruct f as [| | | | | | | | |[]| | | | |]; try done; by destruct (_ && _).
  - destruct f as [| | | | | | | | |[]| | | | |]; try done; by destruct (_ && _).
Qed.

Section Trailing.
Context (sp : spec) (S B : list row) (p q : nat) (r : row).
Hypothesis Hk : keys_below S B.
Hypothesis Hq : B !! q = Some r.
Hypothesis Ht : trailing_func (func sp) = true.
Hypothesis Hp : (0 < p)%nat.
Hypothesis Hf : trailing_frame p sp.
Abbreviation tail := (lastn p (map (read (arg sp)) S)).
Abbreviation combined :=
  (combine_at (func sp) p (suffix_counts p tail) (suffix_folds (func sp) p tail)
     (Z.of_nat q + 1) (kcell sp B q)).

Lemma tail_count : (q < p)%nat ->
  default 0 (suffix_counts p tail !! suffix_index p q) = Z.of_nat (length (vals sp (lastn (p - q) S))).
Proof.
  intros Hqp. unfold suffix_index. rewrite (proj2 (Z.leb_le _ _)) by lia.
  rewrite suffix_counts_lookup by lia. cbn. do 4 f_equal. lia.
Qed.

Lemma tail_empty : (p <= q)%nat -> lastn (p - q) S = [].
Proof. intros. unfold lastn. by rewrite drop_ge by lia. Qed.

Lemma combine_count : func sp = Count -> combined = kcell sp (S ++ B) (length S + q).
Proof.
  intros Hfn. rewrite (trailing_count_app sp S B q r Hq p Hfn Hf).
  assert (exists z, kcell sp B q = Some (VI z)) as [z ->].
  { unfold kcell. rewrite Hq, Hfn. by eexists. }
  unfold combine_at. rewrite Hfn. cbn [cell_int add_int]. fold (suffix_index p q). do 2 f_equal. f_equal.
  destruct (decide (q < p)%nat) as [H|H].
  - rewrite tail_count by done. by rewrite (proj2 (Z.leb_le _ _)) by lia.
  - rewrite tail_empty by lia. by rewrite (proj2 (Z.leb_gt _ _)) by lia.
Qed.

Lemma combine_agg : is_agg (func sp) = true -> Forall (dom (func sp)) (vals sp (S ++ B)) ->
  combined = kcell sp (S ++ B) (length S + q).
Proof.
  intros Ha Hd. rewrite (trailing_agg_app sp S B q r Hq p Ha Hf Hd).
  assert (forall v, kcell sp B q = Some v -> dom (func sp) v) as Hc.
  { rewrite (kcell_agg sp B q r) by done. apply reduce_dom.
    eapply dom_submseteq; [|exact Hd]. rewrite slice_sub. by apply submseteq_inserts_l. }
  assert (Forall (dom (func sp)) (vals sp (lastn (p - q) S))) as Hl.
  { eapply dom_submseteq; [|exact Hd].
    transitivity S; [apply sublist_submseteq, sublist_drop|by apply submseteq_inserts_r]. }
  rewrite combine_at_agg; [|done..|].
  2: { intros v Hv. destruct (dom_int (func sp) v Ht Ha (Hc v Hv)) as (z & -> & _). eauto. }
  destruct (q <? p)%nat eqn:E; cbn [andb].
  - apply Nat.ltb_lt in E. rewrite tail_count by done.
    destruct (reduce (agg_op (func sp)) (vals sp (lastn (p - q) S))) as [v|] eqn:Hv.
    + rewrite (proj2 (Z.ltb_lt _ _)) by (destruct (vals sp (lastn (p - q) S)); [done|cbn; lia]).
      pose proof (suffix_folds_lookup sp S p (p - q - 1) ltac:(lia) v Ht Ha) as Hs.
      replace (Datatypes.S (p - q - 1)) with (p - q)%nat in Hs by lia.
      destruct (Hs Hl Hv) as (z & -> & Hz). unfold suffix_index. rewrite (proj2 (Z.leb_le _ _)) by lia.
      replace (Z.to_nat _) with (p - q - 1)%nat by lia. rewrite Hz. cbn [default].
      destruct (kcell sp B q) as [c|] eqn:Hcell; cbn [merge]; [|done]. f_equal.
      apply agg_comm; [by apply Hc|]. by eapply reduce_dom.
    + rewrite (proj2 (Z.ltb_ge _ _)); [by destruct (kcell sp B q)|].
      destruct (vals sp (lastn (p - q) S)); [cbn; lia|done].
  - apply Nat.ltb_ge in E. rewrite tail_empty by lia. by destruct (kcell sp B q).
Qed.
End Trailing.

(** ** One bucket of the walk *)

(** The kernel's columns of a bucket. *)
Definition bucket_fcol (sp : spec) (b : list row) : fcol :=
  FCol (kcol sp b) (map (fun '(r, h) => (r, kcol h b)) (inject_window_helpers sp)).

(** What the walk carries for a function after the rows [S], in sort order. *)
Definition inv (sp : spec) (S : list row) (st : fstate) : Prop :=
  match trailing_rows_distance sp with
  | Some p => s_frame st = lastn p (map (read (arg sp)) S)
  | None =>
      match func sp with
      | DenseRank => s_dense st = Z.of_nat (length (remove_dups (map key S)))
      | Fold f => s_fold st = reduce (fold_op f) (vals sp S)
      | Count => s_count st = Z.of_nat (length (vals sp S))
      | Min => s_min st = reduce val_min (vals sp S)
      | Max => s_max st = reduce val_max (vals sp S)
      | Lag => s_trailing st = lastn (distance sp) (map (read (arg sp)) S)
      | NthValue => s_head st = take (distance sp) (map (read (arg sp)) S)
      | FirstValue => s_first st = read (arg sp) <$> head S
      | LastValue => fr sp = None -> s_last st = read (arg sp) <$> last S
      | _ => True
      end
  end.

Lemma zip_with_same {A B C D} (g : B -> C -> D) (f1 : A -> B) (f2 : A -> C) l :
  zip_with g (map f1 l) (map f2 l) = map (fun x => g (f1 x) (f2 x)) l.
Proof. induction l as [|x l IH]; cbn; [done|]. by rewrite IH. Qed.

Lemma no_trailing sp : (fr sp = None \/ exists u, fr sp = Some (Frame None (Some 0) u)) ->
  trailing_rows_distance sp = None.
Proof.
  unfold trailing_rows_distance. intros [->|[u ->]]; [done|]. cbn. by destruct (_ || _).
Qed.

Section Step.
Context (sp : spec) (S b : list row) (st : fstate).
Abbreviation B := (sorted b).
Hypothesis Hk : keys_below S B.
Hypothesis Hinv : inv sp S st.
Abbreviation target := (map (fun q => kcell sp (S ++ B) (length S + q)) (positions b)).
Abbreviation result := (correct (Z.of_nat (length S)) sp st b (bucket_fcol sp b)).

(** The correction is exact, drops its helpers and carries the state forward. *)
Definition step_exact : Prop :=
  result.1 = FCol target [] /\ inv sp (S ++ B) result.2.

Lemma at_position q : q ∈ positions b -> exists r, B !! q = Some r.
Proof. intros Hq. apply positions_bound in Hq. apply lookup_lt_is_Some. by rewrite sorted_length. Qed.

Lemma map_kcol (g : cell -> cell) :
  (forall q r, B !! q = Some r -> kcell sp (S ++ B) (length S + q) = g (kcell sp B q)) ->
  map g (kcol sp b) = target.
Proof.
  intros H. unfold kcol. rewrite map_map. apply map_ext_in. intros q Hq%list_elem_of_In.
  apply at_position in Hq as [r Hr]. by rewrite (H q r Hr).
Qed.

Lemma vals_b : omap id (map (read (arg sp)) b) ≡ₚ vals sp B.
Proof. rewrite vals_omap. unfold vals. by rewrite sorted_perm. Qed.

Lemma row_number_helper : map cell_int (kcol (Spec RowNumber InNone 1 None false) b) = ranks b.
Proof.
  unfold kcol, ranks. rewrite map_map. apply map_ext_in. intros q Hq%list_elem_of_In.
  apply at_position in Hq as [r Hr]. unfold kcell. rewrite Hr. cbn. lia.
Qed.

Lemma step_rank : rank_fn (func sp) = true -> func sp <> DenseRank -> fr sp = None -> step_exact.
Proof.
  intros Hf Hnd Hfr. unfold step_exact, correct, inv in *. destruct st.
  rewrite no_trailing in * by (by left).
  destruct (func sp) eqn:Hfn; try done; cbn; (split; [f_equal|done]).
  - apply map_kcol. intros q r Hr. by apply (row_number_app sp S B q r).
  - apply map_kcol. intros q r Hr. by apply (rank_app sp S B Hk q r).
Qed.

Lemma step_count : func sp = Count -> (fr sp = None \/ fr sp = Some (Frame None (Some 0) Rows)) -> step_exact.
Proof.
  intros Hf Hfr. unfold step_exact, correct, inv in *. destruct st.
  rewrite no_trailing in * by (destruct Hfr; eauto). rewrite Hf in *. cbn in *. subst. split; [f_equal|].
  - apply map_kcol. intros q r Hr. apply (count_app sp S B Hk q r); [done..|].
    destruct Hfr; [left; by rewrite Hf|by right; left].
  - rewrite vals_app, length_app, (Permutation_length vals_b). lia.
Qed.

Lemma distinct_below (l : list row) k :
  (length (remove_dups (map key (filter (fun x => (key x <= k)%Z) l))) <= length (remove_dups (map key l)))%nat.
Proof.
  apply submseteq_length, NoDup_submseteq; [apply NoDup_remove_dups|].
  intros z. rewrite !elem_of_remove_dups, !list_elem_of_fmap. intros (x & -> & [_ Hx]%list_elem_of_filter). eauto.
Qed.

Lemma greatest_key (l : list row) : l <> [] ->
  exists q r, l !! q = Some r /\ forall x, x ∈ l -> key x <= key r.
Proof.
  induction l as [|y l IH]; [done|]. intros _. destruct l as [|z l].
  - exists 0%nat, y. split; [done|]. intros x ->%list_elem_of_singleton. lia.
  - destruct IH as (q & r & Hq & Hr); [done|]. destruct (decide (key r <= key y)).
    + exists 0%nat, y. split; [done|]. intros x [->|Hx]%elem_of_cons; [lia|]. specialize (Hr x Hx). lia.
    + exists (Datatypes.S q), r. split; [done|]. intros x [->|Hx]%elem_of_cons; [lia|]. by apply Hr.
Qed.

Lemma foldr_max (l : list Z) m : (forall x, x ∈ l -> x <= m) -> m ∈ l -> 0 <= m -> foldr Z.max 0 l = m.
Proof.
  intros Hle Hin Hm.
  assert (forall k, (forall x, x ∈ k -> x <= m) -> foldr Z.max 0 k <= m) as Hub.
  { intros k. induction k as [|x k IH]; intros H; cbn; [done|].
    pose proof (H x ltac:(by left)). specialize (IH ltac:(intros; apply H; by right)). lia. }
  pose proof (Hub l Hle) as H1. enough (m <= foldr Z.max 0 l) by lia. clear H1 Hub Hle.
  induction l as [|x l IH]; [by apply elem_of_nil in Hin|]. cbn.
  apply elem_of_cons in Hin as [->|Hin]; [lia|]. specialize (IH Hin). lia.
Qed.

(** The greatest [dense_rank] of a bucket is its number of distinct keys. *)
Lemma distinct_max : func sp = DenseRank -> b <> [] ->
  foldr Z.max 0 (map cell_int (kcol sp b)) = Z.of_nat (length (remove_dups (map key B))).
Proof.
  intros Hf Hne. apply foldr_max; [| |lia].
  - intros x Hx. apply list_elem_of_fmap in Hx as (c & -> & Hc).
    apply list_elem_of_fmap in Hc as (q & -> & Hq). apply at_position in Hq as [r Hr].
    unfold kcell. rewrite Hr, Hf. cbn. apply Nat2Z.inj_le, distinct_below.
  - destruct (greatest_key B) as (q & r & Hr & Hmax).
    { intros Hs. apply Hne. apply (f_equal length) in Hs. rewrite sorted_length in Hs. by destruct b. }
    apply list_elem_of_fmap. exists (kcell sp B q). split.
    + unfold kcell. rewrite Hr, Hf. cbn. by rewrite filter_true.
    + apply list_elem_of_fmap. exists q. split; [done|]. apply positions_bound.
      rewrite <- sorted_length. by eapply lookup_lt_Some.
Qed.

Lemma step_dense : func sp = DenseRank -> fr sp = None -> b <> [] -> step_exact.
Proof.
  intros Hf Hfr Hne. unfold step_exact. pose proof (distinct_max Hf Hne) as Hmax.
  unfold correct, inv in *. destruct st.
  rewrite no_trailing in * by (by left). rewrite Hf in *. cbn -[kcol foldr] in *. subst. split; [f_equal|].
  - apply map_kcol. intros q r Hr. by apply (dense_rank_app sp S B Hk q r).
  - rewrite Hmax, (distinct_app S B Hk) by done. lia.
Qed.

Lemma fold_identity_l f v : dom (Fold f) v -> fold_op f (fold_identity f) v = v.
Proof.
  destruct f, v; try done; cbn [dom fold_op fold_identity].
  - intros Hz. rewrite Z.add_0_l. by rewrite wrap64_id.
  - intros _. by rewrite Z.land_m1_l.
Qed.

(** Filling nulls with the identity is what skipping them does. *)
Lemma fold_column_extreme f prior column values : (forall v, prior = Some v -> dom (Fold f) v) ->
  fold_column f prior column values = extreme (fold_op f) prior column values.
Proof.
  intros Hp. unfold fold_column, extreme. f_equal. destruct prior as [v|]; [|done].
  apply map_ext. intros [c|]; cbn; [done|]. by rewrite fold_identity_l by auto.
Qed.

Lemma extreme_exact : is_agg (func sp) = true -> prefix_frame sp ->
  Forall (dom (func sp)) (vals sp (S ++ B)) ->
  extreme (agg_op (func sp)) (reduce (agg_op (func sp)) (vals sp S)) (kcol sp b)
    (omap id (map (read (arg sp)) b)) = (target, reduce (agg_op (func sp)) (vals sp (S ++ B))).
Proof.
  intros Ha Hpf Hd. pose proof Hd as Hd'. rewrite vals_app in Hd'. apply Forall_app in Hd' as [HdS HdB].
  unfold extreme. f_equal.
  - destruct (reduce (agg_op (func sp)) (vals sp S)) as [v|] eqn:Hv.
    + apply map_kcol. intros q r Hr. rewrite (agg_app sp S B Hk q r), Hv by done.
      pose proof (reduce_dom (func sp) _ HdS v Hv) as Hdv.
      destruct (kcell sp B q) as [c|] eqn:Hc; cbn [merge]; [|done]. f_equal. apply agg_comm; [done|].
      rewrite (kcell_agg sp B q r) in Hc by done. eapply reduce_dom; [|exact Hc].
      eapply dom_submseteq; [apply slice_sub|done].
    + rewrite <- (map_kcol id); [by rewrite map_id|].
      intros q r Hr. by rewrite (agg_app sp S B Hk q r), Hv by done.
  - rewrite vals_app, reduce_app, <- (reduce_perm _ _ _ vals_b) by (done || by rewrite vals_b).
    destruct (reduce _ (vals sp S)), (reduce _ (omap id _)); done.
Qed.

Lemma step_agg : is_agg (func sp) = true ->
  (fr sp = None \/ fr sp = Some (Frame None (Some 0) Rows)) ->
  Forall (dom (func sp)) (vals sp (S ++ B)) -> step_exact.
Proof.
  intros Ha Hfr Hd.
  assert (prefix_frame sp) as Hpf by (destruct Hfr; [left; split; [done|by destruct (func sp)]|by right; left]).
  pose proof (extreme_exact Ha Hpf Hd) as He. unfold step_exact, correct, inv in *. destruct st.
  rewrite no_trailing in * by (destruct Hfr; eauto).
  destruct (func sp) as [| | | | | | | | |f| | | | |] eqn:Ef; try done; cbn [agg_op] in *; cbn in Hinv; subst.
  - unfold bucket_fcol, main. by rewrite He.
  - unfold bucket_fcol, main. by rewrite He.
  - unfold bucket_fcol, main. rewrite fold_column_extreme, He; [done|].
    apply (reduce_dom (Fold f)). rewrite vals_app in Hd. by apply Forall_app in Hd as [? _].
Qed.

Lemma step_lag : func sp = Lag -> fr sp = None -> 1 <= offset sp -> step_exact.
Proof.
  intros Hf Hfr Ho. unfold step_exact, correct, inv in *. destruct st.
  rewrite no_trailing in * by (by left). rewrite Hf in *. cbn in Hinv. subst.
  assert (helper (bucket_fcol sp b) RLrn = ranks b) as ->.
  { unfold helper, bucket_fcol, inject_window_helpers. rewrite Hf, no_trailing by (by left). apply row_number_helper. }
  unfold lag_across_buckets, bucket_fcol, main. cbn [fst snd]. split; [f_equal|].
  - unfold ranks, kcol. rewrite zip_with_same. apply map_ext_in. intros q Hq%list_elem_of_In.
    apply at_position in Hq as [r Hr]. rewrite (lag_app sp S B q r) by done.
    destruct (q + 1 <=? distance sp)%nat eqn:E.
    + apply Nat.leb_le in E. rewrite (proj2 (Z.leb_le _ _)) by lia. do 2 f_equal. lia.
    + apply Nat.leb_gt in E. by rewrite (proj2 (Z.leb_gt _ _)) by lia.
  - cbn. by rewrite tail_in_order_spec, absorb_lastn, map_app.
Qed.

Lemma step_trailing p : trailing_func (func sp) = true -> (0 < p)%nat -> trailing_frame p sp ->
  (is_agg (func sp) = true -> Forall (dom (func sp)) (vals sp (S ++ B))) -> step_exact.
Proof.
  intros Ht Hp Hfr Hd. pose proof (trailing_distance_iff sp p Hp Ht Hfr) as Hdist.
  unfold step_exact, correct, inv in *. destruct st. rewrite Hdist in *. cbn in Hinv. subst.
  assert (helper (bucket_fcol sp b) RLrn = ranks b) as ->.
  { unfold helper, bucket_fcol, inject_window_helpers. rewrite Hdist.
    destruct (func sp) as [| | | | | | | | |[]| | | | |]; try done; apply row_number_helper. }
  unfold trailing_correct, bucket_fcol, main.
  set (combined := fun q => combine_at (func sp) p (suffix_counts p (lastn p (map (read (arg sp)) S)))
    (suffix_folds (func sp) p (lastn p (map (read (arg sp)) S))) (Z.of_nat q + 1) (kcell sp B q)).
  assert (forall q, q ∈ positions b -> combined q = kcell sp (S ++ B) (length S + q)) as Hc.
  { intros q Hq. apply at_position in Hq as [r Hr]. destruct (is_agg (func sp)) eqn:Ha.
    - apply (combine_agg sp S B p q r); auto.
    - apply (combine_count sp S B p q r); auto. by destruct (func sp). }
  cbn [fst snd]. split; [f_equal|].
  - destruct (existsb _ _) eqn:He.
    + unfold ranks, kcol. rewrite zip_with_same. apply map_ext_in. intros q Hq%list_elem_of_In. by apply Hc.
    + unfold kcol. apply map_ext_in. intros q Hq%list_elem_of_In. rewrite <- Hc by done.
      assert ((Z.of_nat q + 1 <=? Z.of_nat p) = false) as Hqp.
      { destruct (_ <=? _) eqn:E; [|done]. rewrite <- He. symmetry. apply existsb_exists.
        exists (Z.of_nat q + 1). split; [|done]. apply list_elem_of_In, list_elem_of_fmap. eauto. }
      apply at_position in Hq as [r Hr]. apply Z.leb_gt in Hqp. unfold combined. symmetry.
      destruct (is_agg (func sp)) eqn:Ha.
      * rewrite combine_at_agg; [by rewrite (proj2 (Nat.ltb_ge _ _)) by lia|done..|].
        intros v. rewrite (kcell_agg sp B q r) by done. intros Hv.
        eapply reduce_dom in Hv; [destruct (dom_int (func sp) v Ht Ha Hv) as (z & -> & _); eauto|].
        eapply dom_submseteq; [|by apply Hd]. rewrite slice_sub. by apply submseteq_inserts_l.
      * assert (func sp = Count) as Hf by (by destruct (func sp)).
        unfold combine_at, kcell. rewrite Hf, Hr, (proj2 (Z.leb_gt _ _)) by lia. cbn. by rewrite Z.add_0_r.
  - cbn. by rewrite tail_in_order_spec, absorb_lastn, map_app.
Qed.

Lemma no_helpers : is_positional (func sp) = true -> func sp <> NthValue ->
  trailing_rows_distance sp = None -> inject_window_helpers sp = [].
Proof. intros Hp Hn Ht. unfold inject_window_helpers. rewrite Ht. by destruct (func sp). Qed.

(** Every cell of a column whose value does not depend on the position. *)
Lemma kcol_constant c : b <> [] -> (forall q r, B !! q = Some r -> kcell sp B q = c) ->
  head (kcol sp b) = Some c.
Proof.
  intros Hne Hc. destruct (kcol sp b) as [|c' l] eqn:E.
  - apply (f_equal length) in E. unfold kcol in E. rewrite length_map, positions_length in E. by destruct b.
  - cbn. assert (c' ∈ kcol sp b) as Hin by (rewrite E; by left).
    apply list_elem_of_fmap in Hin as (q & -> & Hq). apply at_position in Hq as [r Hr]. by rewrite (Hc q r).
Qed.

Lemma sorted_nonempty : b <> [] -> B <> [].
Proof. intros Hne Hs. apply Hne. apply (f_equal length) in Hs. rewrite sorted_length in Hs. by destruct b. Qed.

Lemma length_eqb_0 : b <> [] -> (length b =? 0)%nat = false.
Proof. intros Hne. apply Nat.eqb_neq. by destruct b. Qed.

Lemma map_const {A C} (l : list A) n (c : C) : length l = n -> map (fun _ => c) l = replicate n c.
Proof. intros <-. induction l as [|x l IH]; cbn; [done|]. by rewrite IH. Qed.

Lemma head_app {A} (l1 l2 : list A) : head (l1 ++ l2) = match head l1 with Some x => Some x | None => head l2 end.
Proof. by destruct l1. Qed.

Lemma step_first : func sp = FirstValue -> ignore_nulls sp = false ->
  (fr sp = None \/ fr sp = default_range) -> b <> [] -> step_exact.
Proof.
  intros Hf Hi Hfr Hne. unfold step_exact, correct, inv in *. destruct st.
  rewrite no_trailing in * by (destruct Hfr as [?| ->]; [by left|right; by eexists]).
  rewrite Hf in *. cbn in Hinv. subst.
  assert (bucket_fcol sp b = FCol (kcol sp b) []) as ->.
  { unfold bucket_fcol. rewrite no_helpers; [done|by rewrite Hf..|].
    apply no_trailing. destruct Hfr as [?| ->]; [by left|right; by eexists]. }
  destruct (head S) as [x|] eqn:EH; cbn.
  - split.
    + f_equal. rewrite <- (map_const (positions b)) by apply positions_length.
      apply map_ext_in. intros q Hq%list_elem_of_In. apply at_position in Hq as [r Hr].
      rewrite (first_value sp (S ++ B) _ r) by (done || by rewrite lookup_split). by rewrite head_app, EH.
    + by rewrite head_app, EH.
  - assert (S = []) as HS by (clear -EH; by destruct S). rewrite HS, (length_eqb_0 Hne). split; [done|].
    rewrite (kcol_constant (mjoin (read (arg sp) <$> head B))).
    + pose proof (sorted_nonempty Hne). cbn. by destruct B.
    + done.
    + intros q r Hr. by eapply first_value.
Qed.

Lemma step_last_run : func sp = LastValue -> ignore_nulls sp = false -> fr sp = default_range -> step_exact.
Proof.
  intros Hf Hi Hfr. unfold step_exact, correct, inv in *. destruct st.
  assert (trailing_rows_distance sp = None) as Ht by (apply no_trailing; rewrite Hfr; right; by eexists).
  rewrite Ht in *. rewrite Hf in *.
  assert (is_running_last_value sp = true) as ->.
  { unfold is_running_last_value, default_frame. rewrite Hf, Hfr. by rewrite !bool_decide_eq_true_2. }
  split; [|by rewrite Hfr]. unfold bucket_fcol. rewrite no_helpers by (done || by rewrite Hf). cbn. f_equal.
  rewrite <- (map_kcol id); [by rewrite map_id|]. intros q r Hr. by apply (last_run_app sp S B Hk q r).
Qed.

Lemma vals_lit z f fr i (l : list row) : length (vals (Spec f (InLit z) i fr false) l) = length l.
Proof. unfold vals. induction l as [|x l IH]; cbn in *; [done|]. by rewrite IH. Qed.

Lemma step_nth : func sp = NthValue -> ignore_nulls sp = false -> fr sp = default_range ->
  1 <= offset sp -> step_exact.
Proof.
  intros Hf Hi Hfr Ho. unfold step_exact, correct, inv in *. destruct st.
  assert (trailing_rows_distance sp = None) as Ht by (apply no_trailing; rewrite Hfr; right; by eexists).
  rewrite Ht in *. rewrite Hf in *. cbn in Hinv. subst.
  assert (is_running_nth_value sp = true) as ->.
  { unfold is_running_nth_value, default_frame. rewrite Hf, Hfr, Hi. by rewrite !bool_decide_eq_true_2. }
  set (k := distance sp). set (vs := map (read (arg sp)) S) in *.
  assert (helper (bucket_fcol sp b) RLrn = ranks b) as ->.
  { unfold helper, bucket_fcol, inject_window_helpers. rewrite Hf, Ht. apply row_number_helper. }
  unfold nth_value_column. fold k.
  set (head' := if 0 <? _ then _ else _).
  assert (head' = take k (map (read (arg sp)) (S ++ B))) as Hh.
  { unfold head'. rewrite map_app. fold vs. rewrite length_take.
    destruct (0 <? Z.of_nat k - Z.of_nat (k `min` length vs)) eqn:E.
    - apply Z.ltb_lt in E. rewrite take_in_order_spec, (take_ge vs) by lia.
      rewrite take_app_ge by lia. do 2 f_equal. lia.
    - apply Z.ltb_ge in E. by rewrite take_app_le by lia. }
  cbn [fst snd]. split; [f_equal|by rewrite <- Hh].
  assert (helper (bucket_fcol sp b) RRows = map cell_int (kcol (Spec Count (InLit 1) 1 None false) b)) as ->.
  { unfold helper, bucket_fcol, inject_window_helpers, frame_for_helpers, is_rows_running_frame.
    rewrite Hf, Ht, Hfr. done. }
  assert (forall q r, B !! q = Some r ->
    cell_int (kcell (Spec Count (InLit 1) 1 None false) B q) = Z.of_nat (through B (key r))) as Hrows.
  { intros q r Hr. unfold kcell. rewrite Hr. unfold int. cbn [func cell_int].
    rewrite vals_lit. unfold slice. cbn [fr func is_value_fn]. rewrite length_take.
    pose proof (through_le B (key r)). lia. }
  unfold kcol. rewrite Hh. destruct (length _ <? k)%nat eqn:E; rewrite !map_map; apply map_ext_in;
    intros q Hq%list_elem_of_In; apply at_position in Hq as [r Hr]; rewrite (nth_app sp S B Hk q r) by done;
    fold k; pose proof (through_le B (key r)).
  - apply Nat.ltb_lt in E. rewrite length_take, length_map, length_app in E.
    by rewrite (proj2 (Nat.leb_gt _ _)) by lia.
  - rewrite (Hrows q r Hr). destruct (k <=? length S + through B (key r))%nat eqn:E'.
    + apply Nat.leb_le in E'. by rewrite (proj2 (Z.leb_le _ _)) by lia.
    + apply Nat.leb_gt in E'. by rewrite (proj2 (Z.leb_gt _ _)) by lia.
Qed.

(** *** The functions closed out by [finalize] *)

Lemma step_total : total_fn (func sp) = true -> fr sp = None ->
  result.1 = FCol (kcol sp b) (map (fun '(r, h) =>
    (r, map (fun q => kcell h (S ++ B) (length S + q)) (positions b))) (inject_window_helpers sp)) /\
  inv sp (S ++ B) result.2.
Proof.
  intros Hf Hfr. unfold correct, inv, bucket_fcol, inject_window_helpers, frame_for_helpers,
    is_rows_running_frame in *.
  rewrite no_trailing in * by (by left). rewrite Hfr. destruct st.
  destruct (func sp) eqn:Hfn; try done; cbn;
    (split; [|done]); do 3 f_equal; unfold kcol; rewrite map_map; apply map_ext_in;
    intros q Hq%list_elem_of_In; apply at_position in Hq as [r Hr]; symmetry.
  - by apply (rank_app _ S B Hk q r).
  - rewrite (bool_decide_eq_true_2 (RRows = RRows)) by done.
    rewrite (count_app (Spec Count (InLit 1) 1 None false) S B Hk q r), vals_lit by (done || by left). done.
  - by apply (row_number_app _ S B q r).
Qed.

Lemma step_last : func sp = LastValue -> ignore_nulls sp = false -> fr sp = None -> b <> [] ->
  result.1 = FCol (kcol sp b) [] /\ inv sp (S ++ B) result.2.
Proof.
  intros Hf Hi Hfr Hne. unfold correct, inv in *. destruct st.
  assert (trailing_rows_distance sp = None) as Ht by (apply no_trailing; by left).
  rewrite Ht in *. rewrite Hf in *.
  assert (is_running_last_value sp = false) as ->.
  { unfold is_running_last_value, default_frame. rewrite Hfr. by rewrite andb_false_r. }
  unfold bucket_fcol. rewrite no_helpers by (done || by rewrite Hf). cbn. split; [done|]. intros _.
  rewrite (length_eqb_0 Hne), (kcol_constant (mjoin (read (arg sp) <$> last B))); [|done|].
  - pose proof (sorted_nonempty Hne) as HB. destruct B as [|y l] using rev_ind; [done|].
    by rewrite app_assoc, !last_snoc.
  - intros q r Hr. by eapply last_whole.
Qed.

(** The functions corrected during the walk. *)
Definition online : Prop :=
  total_fn (func sp) = false /\ ~ (func sp = LastValue /\ fr sp = None).

Lemma step_online : shape sp -> online -> exact sp = true ->
  (is_agg (func sp) = true -> Forall (dom (func sp)) (vals sp (S ++ B))) -> b <> [] -> step_exact.
Proof.
  intros Hs [Hnt Hnl] He Hd Hne. unfold exact in He. destruct Hs as [Hf Hfr|Hf Hfr|Hf Hfr|Hf Hfr|p Hf Hp Hfr|Hf Hfr|Hf Hfr|Hf Hfr|Hf Hi Hfr].
  - destruct (decide (func sp = DenseRank)); [by apply step_dense|by apply step_rank].
  - by rewrite Hf in Hnt.
  - rewrite Hf in He. apply step_lag; [done..|by apply Z.leb_le].
  - destruct (is_agg (func sp)) eqn:Ha; [by apply step_agg; auto|].
    apply step_count; [by destruct (func sp)|done].
  - by eapply step_trailing.
  - rewrite Hf in He. apply step_first; [done| |done..]. by apply negb_true_iff.
  - by destruct Hnl.
  - rewrite Hf in He. apply step_last_run; [done| |done]. by apply negb_true_iff.
  - rewrite Hf in He. apply step_nth; [done..|by apply Z.leb_le].
Qed.

End Step.

(** ** Earlier rows keep their values as buckets arrive *)

Lemma kcell_prefix sp S B p r : keys_below S B -> shape sp -> online sp -> exact sp = true ->
  S !! p = Some r -> kcell sp (S ++ B) p = kcell sp S p.
Proof.
  intros Hk Hs [Hnt Hnl] He Hp. unfold exact in He.
  pose proof (lookup_lt_Some _ _ _ Hp) as Hlt. pose proof (lookup_app_l_Some _ B _ _ Hp) as Hp'.
  destruct Hs as [Hf Hfr|Hf Hfr|Hf Hfr|Hf Hfr|d Hf Hd Hfr|Hf Hfr|Hf Hfr|Hf Hfr|Hf Hi Hfr].
  - unfold kcell. rewrite Hp, Hp'. destruct (func sp); try done.
    + by rewrite (before_prefix S B Hk p).
    + by rewrite (filter_le_prefix S B Hk p).
  - by rewrite Hf in Hnt.
  - rewrite Hf in He. apply Z.leb_le in He. rewrite !(lag_cell _ _ _ r) by done.
    destruct (_ <? _)%nat; [done|]. by rewrite lookup_app_l by lia.
  - unfold kcell. rewrite Hp, Hp'. rewrite (slice_prefix S B Hk sp p); [by destruct (func sp)| |done].
    left. destruct Hfr; [left; split; [done|by destruct (func sp)]|by right; left].
  - unfold kcell. rewrite Hp, Hp'. rewrite (slice_prefix S B Hk sp p); [by destruct (func sp)| |done].
    right. by exists d.
  - rewrite Hf in He. apply negb_true_iff in He. rewrite !(first_value sp _ _ r) by done.
    rewrite head_app. by destruct S.
  - by destruct Hnl.
  - rewrite !(kcell_value sp _ _ r) by (done || by rewrite Hf).
    by rewrite (slice_prefix S B Hk sp p) by (done || by left; right; right).
  - rewrite !(kcell_value sp _ _ r) by (done || by rewrite Hf).
    by rewrite (slice_prefix S B Hk sp p) by (done || by left; right; right).
Qed.

Lemma keys_below_sorted P b : keys_below P b -> keys_below (sorted P) (sorted b).
Proof. intros Hk x y Hx Hy. rewrite sorted_perm in Hx, Hy. by apply Hk. Qed.

Lemma kcol_app sp P b : keys_below P b -> shape sp -> online sp -> exact sp = true ->
  kcol sp (P ++ b) = kcol sp P ++
    map (fun q => kcell sp (sorted P ++ sorted b) (length (sorted P) + q)) (positions b).
Proof.
  intros Hk Hs Ho He. unfold kcol. rewrite positions_app, sorted_app, map_app, map_map by done. f_equal.
  - apply map_ext_in. intros p Hp%list_elem_of_In. apply positions_bound in Hp. rewrite <- sorted_length in Hp.
    apply lookup_lt_is_Some in Hp as [r Hr]. eapply kcell_prefix; [by apply keys_below_sorted|done..].
  - by rewrite sorted_length.
Qed.

(** ** [ntile] from a global row number *)

Lemma tiles_lookup w (a m p : nat) : (p < m * w)%nat ->
  concat (map (fun t => replicate w (Z.of_nat t + 1)) (seq a m)) !! p = Some (Z.of_nat (a + p / w) + 1).
Proof.
  revert a p. induction m as [|m IH]; intros a p Hp; [lia|]. cbn [seq map concat].
  destruct (decide (p < w)%nat) as [Hlt|Hge].
  - rewrite lookup_app_l by (by rewrite length_replicate). rewrite lookup_replicate_2 by done.
    rewrite Nat.div_small by done. do 2 f_equal. lia.
  - rewrite lookup_app_r, length_replicate, IH by (rewrite ?length_replicate; lia).
    assert (p / w = 1 + (p - w) / w)%nat as ->; [|do 2 f_equal; lia].
    replace p with ((p - w) + 1 * w)%nat at 1 by lia. rewrite Nat.div_add by lia. lia.
Qed.

Lemma tiles_length w (a m : nat) (f : nat -> Z) :
  length (concat (map (fun t => replicate w (f t)) (seq a m))) = (m * w)%nat.
Proof. revert a. induction m as [|m IH]; intros a; cbn; [done|]. by rewrite length_app, length_replicate, IH. Qed.

Lemma ceil_div_succ p w : (0 < w)%nat -> ceil_div (Z.of_nat p + 1) (Z.of_nat w) = Z.of_nat (p / w) + 1.
Proof.
  intros Hw. apply ceil_div_unique; [lia|].
  pose proof (Nat.div_mod p w ltac:(lia)). pose proof (Nat.mod_upper_bound p w ltac:(lia)). nia.
Qed.

Lemma ntile_split tiles n :
  let b := Z.to_nat (Z.max 1 tiles) in
  ntile tiles n =
    concat (map (fun t => replicate (n / b + 1) (Z.of_nat t + 1)) (seq 0 (n mod b))) ++
    concat (map (fun t => replicate (n / b) (Z.of_nat t + 1)) (seq (n mod b) (b - n mod b))).
Proof.
  intros b. unfold ntile. fold b. pose proof (Nat.mod_upper_bound n b ltac:(lia)) as Hm.
  replace (seq 0 b) with (seq 0 (n mod b) ++ seq (n mod b) (b - n mod b)) at 1
    by (etransitivity; [symmetry; apply (seq_app (n mod b) (b - n mod b) 0)|f_equal; lia]).
  rewrite map_app, concat_app. f_equal; f_equal; apply map_ext_in; intros t Ht%in_seq.
  - by rewrite (proj2 (Nat.ltb_lt _ _)) by lia.
  - rewrite (proj2 (Nat.ltb_ge _ _)) by lia. by rewrite Nat.add_0_r.
Qed.

Lemma ntile_lookup sp n p : func sp = Ntile -> (p < n)%nat ->
  VI <$> ntile (offset sp) n !! p = ranking_cell sp (Z.of_nat n) (Z.of_nat p + 1).
Proof.
  intros Hf Hp. unfold ranking_cell. rewrite Hf, ntile_split.
  set (b := Z.to_nat (Z.max 1 (offset sp))). assert (0 < b)%nat as Hb by lia.
  replace (Z.max 1 (offset sp)) with (Z.of_nat b) by lia.
  rewrite <- Nat2Z.inj_div, <- Nat2Z.inj_mod. set (base := (n / b)%nat). set (rem := (n mod b)%nat).
  pose proof (Nat.div_mod n b ltac:(lia)) as Hn. fold base rem in Hn.
  pose proof (Nat.mod_upper_bound n b ltac:(lia)) as Hrem. fold rem in Hrem.
  destruct (Z.of_nat p + 1 <=? Z.of_nat rem * (Z.of_nat base + 1)) eqn:E.
  - apply Z.leb_le in E. rewrite lookup_app_l by (rewrite tiles_length; nia).
    rewrite tiles_lookup by nia. cbn. do 2 f_equal.
    replace (Z.of_nat base + 1) with (Z.of_nat (base + 1)) by lia. by rewrite ceil_div_succ by lia.
  - apply Z.leb_gt in E. assert (0 < base)%nat as Hbase by nia.
    rewrite lookup_app_r by (rewrite tiles_length; nia). rewrite tiles_length, tiles_lookup by nia. cbn. do 2 f_equal.
    replace (Z.of_nat p + 1 - Z.of_nat rem * (Z.of_nat base + 1)) with (Z.of_nat (p - rem * (base + 1)) + 1) by nia.
    rewrite Z.max_l, ceil_div_succ by lia. lia.
Qed.

(** ** The walk *)

(** The state and the assembled columns of a function after the rows [P]. *)
Definition good (sp : spec) (P : list row) (sf : fstate * fcol) : Prop :=
  inv sp (sorted P) sf.1 /\
  if total_fn (func sp) then
    helpers sf.2 = map (fun '(r, h) => (r, kcol h P)) (inject_window_helpers sp)
  else
    helpers sf.2 = [] /\ length (main sf.2) = length P /\ (online sp -> main sf.2 = kcol sp P).

(** What is assumed of each function over the rows of the relation. *)
Definition fn_ok (rows : list row) (sp : spec) : Prop :=
  shape sp /\ exact sp = true /\ (is_agg (func sp) = true -> Forall (dom (func sp)) (vals sp rows)).

Definition empty_fcol (sp : spec) : fcol :=
  FCol [] (if total_fn (func sp)
           then map (fun '(r, h) => (r, [])) (inject_window_helpers sp) else []).

(** One function through one bucket, and its columns appended. *)
Definition advance (P b : list row) (sp : spec) (sf : fstate * fcol) : fstate * fcol :=
  let r := correct (Z.of_nat (length P)) sp sf.1 b (bucket_fcol sp b) in
  (r.2, append_fcol sf.2 r.1).

Lemma init_good sp : good sp [] (init_fstate, empty_fcol sp).
Proof.
  split.
  - unfold inv, lastn. cbn. rewrite take_nil. destruct (trailing_rows_distance sp); [done|].
    by destruct (func sp).
  - cbn. destruct (total_fn _); [|done]. apply map_ext. by intros [].
Qed.

Lemma helper_specs sp r h : total_fn (func sp) = true -> fr sp = None ->
  (r, h) ∈ inject_window_helpers sp -> shape h /\ online h /\ exact h = true.
Proof.
  unfold inject_window_helpers, frame_for_helpers, is_rows_running_frame. intros Hf Hfr.
  rewrite no_trailing by (by left). rewrite Hfr.
  destruct (func sp); try done; cbn; intros [= -> ->]%list_elem_of_singleton;
    (split; [|split; [split; [done|by intros []]|done]]).
  - by apply ShRank.
  - apply ShAgg; [done|by left].
  - by apply ShRank.
Qed.

Lemma advance_good sp P b sf : keys_below P b -> b <> [] -> fn_ok (P ++ b) sp ->
  good sp P sf -> good sp (P ++ b) (advance P b sp sf).
Proof.
  intros Hk Hne (Hs & He & Hd) [Hinv Hacc]. destruct sf as [st fc]. cbn [fst snd] in *.
  pose proof (keys_below_sorted P b Hk) as HkS. pose proof (sorted_app P b Hk) as Hsort.
  unfold good, advance. rewrite Hsort, <- (sorted_length P). cbn [fst snd].
  destruct (total_fn (func sp)) eqn:Ht.
  - assert (fr sp = None) as Hfr.
    { destruct Hs as [? ?|? ?|? ?|Hf ?|? Hf|Hf|Hf|Hf|Hf]; try done; by destruct (func sp). }
    destruct (step_total sp (sorted P) b st HkS Hinv Ht Hfr) as [-> Hi']. split; [done|]. cbn [append_fcol helpers].
    rewrite Hacc. rewrite zip_with_same. apply map_ext_in. intros [r h] Hrh%list_elem_of_In. cbn. f_equal.
    destruct (helper_specs sp r h Ht Hfr Hrh) as (Hsh & Hoh & Heh). by rewrite kcol_app by done.
  - destruct Hacc as (Hh & Hlen & Hmain).
    assert (Forall (dom (func sp)) (vals sp (sorted P ++ sorted b)) \/ is_agg (func sp) = false) as Hd'.
    { destruct (is_agg (func sp)); [left|by right]. unfold vals in *.
      rewrite !sorted_perm. by apply Hd. }
    destruct (decide (func sp = LastValue /\ fr sp = None)) as [[Hf Hfr]|Hno].
    + unfold exact in He. rewrite Hf in He. apply negb_true_iff in He.
      destruct (step_last sp (sorted P) b st HkS Hinv Hf He Hfr Hne) as [-> Hi']. split; [done|]. cbn [append_fcol helpers main].
      rewrite Hh. split; [done|]. split; [|by intros [_ []]].
      rewrite !length_app, Hlen. unfold kcol. by rewrite length_map, positions_length.
    + assert (online sp) as Ho by done.
      assert (step_exact sp (sorted P) b st) as [-> Hi'].
      { apply step_online; try done. intros Ha. destruct Hd' as [?|Hd']; [done|by rewrite Ha in Hd']. }
      split; [done|]. cbn [append_fcol helpers main]. rewrite Hh. split; [done|].
      rewrite length_app, length_map, positions_length, length_app, Hlen. split; [done|]. intros _.
      rewrite Hmain by done. by rewrite kcol_app by done.
Qed.

Lemma kernel_ok sp rows : is_ok (kernel sp rows) = true -> kernel sp rows = Ok (kcol sp rows).
Proof. unfold kernel. by destruct (_ && _). Qed.

Lemma run_bucket_ok fns b : Forall (fun sp => is_ok (kernel sp b) = true) fns ->
  run_bucket fns b = Ok (map (fun sp => bucket_fcol sp b) fns).
Proof.
  unfold run_bucket. induction 1 as [|sp fns Hsp _ IH]; [done|]. cbn.
  rewrite (kernel_ok sp b Hsp). cbn. by rewrite IH.
Qed.

(** The corrections of a bucket for every function, and the columns they extend. *)
Definition corrections (fns : list spec) (P b : list row) (states : list fstate) : list (fcol * fstate) :=
  zip_with (fun sp st => correct (Z.of_nat (length P)) sp st b (bucket_fcol sp b)) fns states.

Lemma apply_corrections fns P b o states :
  prior_rows o = Z.of_nat (length P) -> fstates o = states ->
  apply fns o b (map (fun sp => bucket_fcol sp b) fns) =
    (map fst (corrections fns P b states),
     Offsets (Z.of_nat (length (P ++ b))) (map snd (corrections fns P b states))).
Proof.
  intros Hp <-. unfold apply, corrections. rewrite Hp, length_app, Nat2Z.inj_add.
  assert (zip_with (fun sp sf => correct (Z.of_nat (length P)) sp sf.1 b sf.2) fns
            (zip (fstates o) (map (fun sp => bucket_fcol sp b) fns)) =
          zip_with (fun sp st => correct (Z.of_nat (length P)) sp st b (bucket_fcol sp b)) fns (fstates o)) as ->; [|done].
  generalize (fstates o) as sts. clear. induction fns as [|sp fns IH]; intros [|st sts]; cbn; [done..|]. by rewrite IH.
Qed.

Lemma corrections_good fns P b sfs : keys_below P b -> b <> [] -> Forall (fn_ok (P ++ b)) fns ->
  Forall2 (fun sp sf => good sp P sf) fns sfs ->
  exists sfs', map snd (corrections fns P b (map fst sfs)) = map fst sfs' /\
    zip_with append_fcol (map snd sfs) (map fst (corrections fns P b (map fst sfs))) = map snd sfs' /\
    Forall2 (fun sp sf => good sp (P ++ b) sf) fns sfs'.
Proof.
  intros Hk Hne Hok Hg. induction Hg as [|sp sf fns sfs Hsf _ IH]; [by exists []|].
  apply Forall_cons in Hok as [Hsp Hok]. destruct (IH Hok) as (sfs' & H1 & H2 & H3).
  exists (advance P b sp sf :: sfs'). cbn [corrections map zip_with]. fold (corrections fns P b (map fst sfs)).
  rewrite H1, H2. split; [done|]. split; [done|]. constructor; [by apply advance_good|done].
Qed.

(** The walk keeps the invariant through every remaining bucket. *)
Lemma walk_good fns bs : forall P o sfs,
  prior_rows o = Z.of_nat (length P) -> fstates o = map fst sfs ->
  Forall2 (fun sp sf => good sp P sf) fns sfs ->
  Forall (keys_below P) bs -> StronglySorted keys_below bs ->
  Forall (fn_ok (P ++ concat bs)) fns ->
  Forall (fun b => Forall (fun sp => is_ok (kernel sp b) = true) fns) bs ->
  exists ts sfs', walk fns o bs = Ok (ts, Offsets (Z.of_nat (length (P ++ concat bs))) (map fst sfs')) /\
    foldl (zip_with append_fcol) (map snd sfs) ts = map snd sfs' /\
    Forall2 (fun sp sf => good sp (P ++ concat bs) sf) fns sfs'.
Proof.
  induction bs as [|b bs IH]; intros P o sfs Hp Hst Hg Hbelow Hsort Hok Hker.
  - exists [], sfs. cbn. rewrite app_nil_r, <- Hp, <- Hst. by destruct o.
  - apply Forall_cons in Hbelow as [Hb Hbelow]. apply Forall_cons in Hker as [Hkb Hker].
    apply StronglySorted_inv in Hsort as [Hsort Hbb]. destruct b as [|r b'] eqn:Eb; [by apply IH|].
    cbn [walk]. rewrite <- Eb in *. rewrite run_bucket_ok by done. cbn [mbind res_bind].
    rewrite (apply_corrections fns P b o (map fst sfs)) by done.
    assert (Forall (fn_ok (P ++ b)) fns) as Hok'.
    { eapply Forall_impl; [exact Hok|]. intros sp (? & ? & Hd). split; [done|]. split; [done|]. intros Ha.
      eapply dom_submseteq; [|by apply Hd]. cbn. rewrite app_assoc. by apply submseteq_inserts_r. }
    destruct (corrections_good fns P b sfs Hb ltac:(by rewrite Eb) Hok' Hg) as (sfs1 & H1 & H2 & H3).
    destruct (IH (P ++ b) (Offsets (Z.of_nat (length (P ++ b))) (map snd (corrections fns P b (map fst sfs)))) sfs1)
      as (ts & sfs' & Hw & Hf & Hg'); [done|done|done| |done|by rewrite <- app_assoc|done|].
    + apply Forall_forall. intros c Hc x y Hx Hy. apply elem_of_app in Hx as [Hx|Hx].
      * rewrite Forall_forall in Hbelow. by apply (Hbelow c Hc).
      * rewrite Forall_forall in Hbb. by apply (Hbb c Hc).
    + rewrite Hw. cbn. rewrite <- app_assoc in *. eexists _, sfs'. split; [done|]. cbn [foldl]. by rewrite H2.
Qed.

Lemma append_empty sp fc :
  (if total_fn (func sp) then map fst (helpers fc) = map fst (inject_window_helpers sp) else helpers fc = []) ->
  append_fcol (empty_fcol sp) fc = fc.
Proof.
  destruct fc as [m h]. unfold append_fcol, empty_fcol. cbn. destruct (total_fn (func sp)); [|by intros ->].
  intros Hh. f_equal. revert h Hh. induction (inject_window_helpers sp) as [|[r hs] l IH]; intros [|[r' c] h] Hh; try done.
  cbn in *. injection Hh as -> Hh. by rewrite IH.
Qed.

Lemma corrected_helpers prior sp st b : shape sp ->
  append_fcol (empty_fcol sp) (correct prior sp st b (bucket_fcol sp b)).1 = (correct prior sp st b (bucket_fcol sp b)).1.
Proof.
  intros Hs. apply append_empty. unfold correct. destruct st.
  destruct (trailing_rows_distance sp) as [p|] eqn:Ht.
  - destruct (trailing_distance_frame sp p Ht) as (Hf & _).
    destruct (trailing_correct _ _ _ _ _ _). by destruct (func sp).
  - assert (is_positional (func sp) = true -> func sp <> NthValue -> helpers (bucket_fcol sp b) = []) as Hn.
    { intros H1 H2. unfold bucket_fcol. by rewrite (no_helpers sp). }
    destruct (func sp) eqn:Hf; cbn; try done.
    + rewrite map_map. unfold bucket_fcol. cbn. rewrite map_map. apply map_ext. by intros [].
    + rewrite map_map. unfold bucket_fcol. cbn. rewrite map_map. apply map_ext. by intros [].
    + rewrite map_map. unfold bucket_fcol. cbn. rewrite map_map. apply map_ext. by intros [].
    + destruct Hs as [Hf' ?|Hf' ?|Hf' ?|Hf' ?|? Hf'|Hf'|Hf'|Hf'|Hf']; by rewrite Hf in Hf'.
    + destruct s_first0; [done|]. by apply Hn.
    + destruct (is_running_last_value sp); by apply Hn.
    + by destruct (is_running_nth_value sp).
Qed.

Lemma walk_tables fns bs : Forall shape fns -> forall o ts o',
  length (fstates o) = length fns -> Forall (fun b => Forall (fun sp => is_ok (kernel sp b) = true) fns) bs ->
  walk fns o bs = Ok (ts, o') ->
  match ts with
  | [] => concat bs = []
  | t :: _ => zip_with append_fcol (map empty_fcol fns) t = t
  end.
Proof.
  intros Hs. induction bs as [|b bs IH]; intros o ts o' Hl Hk; [by intros [= <- _]|].
  apply Forall_cons in Hk as [Hkb Hk]. destruct b as [|r b'] eqn:Eb; [by apply IH|].
  cbn [walk]. rewrite <- Eb in *. rewrite run_bucket_ok by done. cbn [mbind res_bind].
  destruct o as [prior sts]. cbn in Hl. unfold apply. cbn [prior_rows fstates].
  destruct (walk fns _ bs) as [[ts1 o1]|]; [|done]. cbn. intros [= <- _]. cbn.
  clear -Hs Hl. revert sts Hl. induction Hs as [|sp fns Hsp _ IH]; intros [|st sts] Hl; try done.
  cbn. rewrite corrected_helpers by done. f_equal. apply IH. cbn in Hl. lia.
Qed.

Lemma assemble_foldl t ts : assemble t ts = foldl (zip_with append_fcol) t ts.
Proof. revert t. induction ts as [|t' ts IH]; intros t; cbn; [done|]. apply IH. Qed.

(** Closing out a function over all rows gives the kernel's column. *)
Lemma finalize_good sp W sf : shape sp -> exact sp = true -> good sp W sf ->
  finalize (Z.of_nat (length W)) sp sf.1 sf.2 = kcol sp W.
Proof.
  intros Hs He [Hinv Hacc]. destruct sf as [st fc]. cbn [fst snd] in *. unfold finalize.
  destruct (total_fn (func sp)) eqn:Ht.
  - assert (fr sp = None) as Hfr by (destruct Hs as [? ?|? ?|? ?|Hf ?|? Hf|Hf|Hf|Hf|Hf]; try done; by destruct (func sp)).
    assert (negb (assembled_func (func sp)) || is_running_last_value sp = false) as ->.
    { unfold is_running_last_value. destruct (func sp); try done; by rewrite bool_decide_eq_false_2. }
    rewrite Hacc. unfold inject_window_helpers, frame_for_helpers, is_rows_running_frame.
    rewrite no_trailing, Hfr by (by left). unfold kcol, ranking_cell.
    destruct (func sp) eqn:Hf; try done; cbn [HELPERS app map]; rewrite map_map; apply map_ext_in;
      intros p Hp%list_elem_of_In; apply positions_bound in Hp as Hlt; rewrite <- (sorted_length W) in *;
      apply lookup_lt_is_Some in Hlt as [r Hr]; unfold kcell; rewrite Hr, Hf; cbn [func].
    + unfold int. cbn [cell_int]. f_equal.
      destruct (1 <? length (sorted W))%nat eqn:E.
      * apply Nat.ltb_lt in E. rewrite (proj2 (Z.leb_gt _ _)) by lia. f_equal. lia.
      * apply Nat.ltb_ge in E. by rewrite (proj2 (Z.leb_le _ _)) by lia.
    + rewrite (bool_decide_eq_true_2 (RRows = RRows)) by done.
      unfold int. cbn [cell_int]. rewrite vals_lit. unfold slice. cbn [fr func is_value_fn].
      rewrite (bool_decide_eq_false_2 (is_Some None)) by (by intros []). cbn [orb].
      by rewrite length_take, Nat.min_l by apply through_le.
    + rewrite (ntile_lookup sp (length (sorted W)) p Hf) by (by eapply lookup_lt_Some).
      unfold ranking_cell. rewrite Hf. unfold int. cbn [cell_int].
      by replace (Z.of_nat (p + 1)) with (Z.of_nat p + 1) by lia.
  - destruct Hacc as (Hh & Hlen & Hmain).
    destruct (decide (func sp = LastValue /\ fr sp = None)) as [[Hf Hfr]|Hno].
    + assert (negb (assembled_func (func sp)) || is_running_last_value sp = false) as ->.
      { unfold is_running_last_value, default_frame. rewrite Hf, Hfr. by rewrite andb_false_r. }
      unfold exact in He. rewrite Hf in *. apply negb_true_iff in He.
      unfold inv in Hinv. rewrite no_trailing, Hf in Hinv by (by left). rewrite (Hinv Hfr).
      rewrite (map_const _ (length W)) by done. unfold kcol.
      rewrite <- (map_const (positions W)) by apply positions_length. apply map_ext_in.
      intros p Hp%list_elem_of_In. apply positions_bound in Hp. rewrite <- sorted_length in Hp.
      apply lookup_lt_is_Some in Hp as [r Hr]. symmetry. by apply (last_whole sp _ _ r).
    + assert (negb (assembled_func (func sp)) || is_running_last_value sp = true) as ->; [|by apply Hmain].
      destruct Hs as [Hf ?|Hf ?|Hf ?|Hf ?|? Hf|Hf|Hf|Hf Hfr|Hf]; try (by destruct (func sp)); try (by rewrite Hf).
      * by destruct Hno.
      * unfold is_running_last_value, default_frame. rewrite Hf, Hfr. by rewrite !bool_decide_eq_true_2.
Qed.

(** ** The split and the whole *)

Lemma visited_eq handles descending :
  visited handles descending = if descending then rev handles else handles.
Proof.
  assert (forall l : list (list row), omap (fun i => l !! i) (seq 0 (length l)) = l) as H.
  { intros l. induction l as [|x l IH]; [done|]. cbn. f_equal.
    etransitivity; [|exact IH]. rewrite <- seq_shift. generalize (seq 0 (length l)). intros k.
    induction k as [|i k IHk]; [done|]. cbn. by rewrite IHk. }
  unfold visited, bucket_order. destruct descending; [|apply H].
  etransitivity; [|apply f_equal, (H handles)]. generalize (seq 0 (length handles)). intros k.
  induction k as [|i k IH]; [done|]. cbn [rev]. rewrite omap_app, IH. cbn.
  destruct (handles !! i); cbn; [done|by rewrite app_nil_r].
Qed.

Lemma StronglySorted_rev {A} (R : A -> A -> Prop) l :
  StronglySorted (flip R) l -> StronglySorted R (rev l).
Proof.
  induction 1 as [|x l Hs IH Hx]; cbn; [constructor|]. apply StronglySorted_app_2; [|done|repeat constructor].
  intros y z Hy ->%list_elem_of_singleton. rewrite <- Permutation_rev in Hy.
  rewrite Forall_forall in Hx. by apply Hx.
Qed.

Lemma concat_visited handles descending : concat (visited handles descending) ≡ₚ concat handles.
Proof.
  rewrite visited_eq. destruct descending; [|done]. induction handles as [|h hs IH]; [done|].
  cbn. rewrite concat_app, IH. cbn. by rewrite app_nil_r, Permutation_app_comm.
Qed.

Lemma execute_exact fns bs handles descending :
  visited handles descending = bs -> StronglySorted keys_below bs ->
  Forall (fn_ok (concat bs)) fns ->
  Forall (fun b => Forall (fun sp => is_ok (kernel sp b) = true) fns) bs ->
  execute_global_window fns handles descending = Ok (map (fun sp => kcol sp (concat bs)) fns).
Proof.
  intros Hv Hsort Hok Hk. unfold execute_global_window. rewrite Hv.
  assert (Forall shape fns) as Hs by (eapply Forall_impl; [exact Hok|]; by intros sp []).
  pose proof (walk_tables fns bs Hs (init_offsets fns)) as Ht.
  destruct (walk_good fns bs [] (init_offsets fns) (map (fun sp => (init_fstate, empty_fcol sp)) fns))
    as (ts & sfs & Hw & Hf & Hg); [done| | | |done..|].
  - cbn. by rewrite map_map.
  - clear. induction fns as [|sp fns IH]; cbn; constructor; [apply init_good|done].
  - apply Forall_forall. by intros b _ x y ?%elem_of_nil.
  - specialize (Ht ts _ ltac:(cbn; by rewrite length_map) Hk Hw). rewrite Hw. cbn [mbind res_bind app prior_rows fstates].
    f_equal.
    replace (map snd _) with (map empty_fcol fns) in Hf by (by rewrite map_map). destruct ts as [|t ts].
    + rewrite Ht. apply map_ext. by intros.
    + cbn [foldl] in Hf. rewrite Ht in Hf. rewrite assemble_foldl, Hf, zip_fst_snd. cbn [app] in Hg.
      clear -Hg Hok. induction Hg as [|sp sf fns sfs Hsf _ IH]; [done|].
      apply Forall_cons in Hok as [(? & ? & _) Hok]. cbn. by rewrite finalize_good, IH.
Qed.

(** C11: splitting a global window into ordered buckets changes nothing.  For a window
    [supports_ordered_bucket_offsets] admits whose [first_value] and [last_value] functions
    respect nulls and whose [lag] and [nth_value] offsets are positive ([exact]), whose
    aggregates read 64-bit integers or booleans ([typed]), and whose kernels raise no integer
    overflow over the whole relation or a bucket: over buckets whose keys are ordered relative
    to each other (in the window's direction), walking the buckets in [bucket_order],
    correcting each bucket's columns with what the earlier ones left and finalizing gives
    every row exactly the value the kernel gives it over the whole relation.
    [last_value_ignore_nulls_breaks], [lag_nonpositive_breaks] and
    [running_sum_overflow_diverges] are admitted windows outside these conditions. *)
Theorem split_window_exact (w : window) (handles : list (list row)) (descending : bool) :
  supports_ordered_bucket_offsets w true = true ->
  Forall (fun sp => exact sp = true /\ typed sp (concat handles) = true) (functions w) ->
  StronglySorted (if descending then flip keys_below else keys_below) handles ->
  Forall (fun sp => is_ok (kernel sp (concat (visited handles descending))) = true /\
                    Forall (fun b => is_ok (kernel sp b) = true) handles) (functions w) ->
  execute_global_window (functions w) handles descending =
    res_mapM (fun sp => kernel sp (concat (visited handles descending))) (functions w).
Proof.
  intros Hsup Hex Hsort Hk.
  assert (res_mapM (fun sp => kernel sp (concat (visited handles descending))) (functions w) =
          Ok (map (fun sp => kcol sp (concat (visited handles descending))) (functions w))) as ->.
  { clear -Hk. induction Hk as [|sp fns [Hsp _] _ IH]; [done|]. cbn. rewrite (kernel_ok sp _ Hsp). cbn. by rewrite IH. }
  apply execute_exact; [done|rewrite visited_eq; destruct descending; [by apply StronglySorted_rev|done]|..].
  - assert (forallb (supports_fn w true) (functions w) = true) as Hfn.
    { unfold supports_ordered_bucket_offsets in Hsup. destruct (rank_limit w), (partition_keys w), (order_keys w) as [|[] ?]; try done. by bsplit. }
    rewrite forallb_forall in Hfn. apply Forall_forall. intros sp Hsp. rewrite Forall_forall in Hex.
    destruct (Hex sp Hsp) as [He Ht]. split; [|split; [done|]].
    + eapply supports_fn_shape, Hfn. by apply list_elem_of_In.
    + intros Ha. unfold vals. rewrite concat_visited. by apply typed_dom.
  - apply Forall_forall. intros b Hb. eapply Forall_impl; [exact Hk|]. intros sp [_ H].
    rewrite Forall_forall in H. apply H. rewrite visited_eq in Hb.
    destruct descending; [by rewrite <- Permutation_rev in Hb|done].
Qed.

(** ** A concrete window, and the edges of the theorem *)

Lemma keys_below_check l1 l2 :
  forallb (fun a => forallb (fun b => key a <? key b) l2) l1 = true -> keys_below l1 l2.
Proof.
  intros H a b Ha%list_elem_of_In Hb%list_elem_of_In. rewrite forallb_forall in H. specialize (H a Ha).
  rewrite forallb_forall in H. apply Z.ltb_lt, H, Hb.
Qed.

Definition at_key (k : Z) (v : option Z) : row :=
  Row k (match v with Some z => {["v" := VI z]} | None => ∅ end).

(** Three buckets with ties, nulls and one empty bucket; descending ids hold the same rows
    in the other direction. *)
Definition demo_buckets : list (list row) :=
  [[at_key 3 (Some 5); at_key 1 None; at_key 1 (Some 2); at_key 2 (Some 9)];
   [at_key 5 None; at_key 4 None; at_key 5 (Some 1)]; [];
   [at_key 9 (Some 7); at_key 8 (Some (-3)); at_key 9 None; at_key 9 (Some 4)]].

Definition of_v (f : wfn) (o : Z) (fr : option frame) : spec := Spec f (InCol "v") o fr false.
Definition no_input (f : wfn) (o : Z) : spec := Spec f InNone o None false.
Definition trailing (p : Z) : option frame := Some (Frame (Some (- p)) (Some 0) Rows).

Definition demo_window : window :=
  Window [no_input RowNumber 1; no_input Rank 1; no_input DenseRank 1; no_input PercentRank 1;
          no_input CumeDist 1; no_input Ntile 3; of_v Count 1 None; of_v Min 1 None; of_v Max 1 None;
          of_v (Fold FSum) 1 None; of_v (Fold FBitXor) 1 None; of_v Lag 2 None; of_v FirstValue 1 None;
          of_v LastValue 1 None; of_v LastValue 1 default_range; of_v NthValue 6 default_range;
          of_v (Fold FSum) 1 (Some (Frame None (Some 0) Rows)); of_v (Fold FSum) 1 (trailing 3);
          of_v Min 1 (trailing 5); of_v Max 1 (trailing 2); of_v Count 1 (trailing 4)]
    None [] [InCol "k"] true (Some {["k" := DInt; "v" := DInt]}).

(** Witness of C38 in both directions: twenty-one functions over four buckets. *)
Lemma split_window_exact_witness :
  supports_ordered_bucket_offsets demo_window true = true /\
  (exists cols, execute_global_window (functions demo_window) demo_buckets false = Ok cols) /\
  execute_global_window (functions demo_window) demo_buckets false =
    res_mapM (fun sp => kernel sp (concat (visited demo_buckets false))) (functions demo_window) /\
  execute_global_window (functions demo_window) (rev demo_buckets) true =
    res_mapM (fun sp => kernel sp (concat (visited (rev demo_buckets) true))) (functions demo_window).
Proof.
  split; [vm_compute; reflexivity|]. split; [eexists; vm_compute; reflexivity|]. split.
  - apply (split_window_exact demo_window demo_buckets false); [vm_compute; reflexivity| | |].
    + repeat (apply Forall_cons; split; [split; vm_compute; reflexivity|]). constructor.
    + repeat constructor; apply keys_below_check; vm_compute; reflexivity.
    + repeat (apply Forall_cons; split; [split; [vm_compute; reflexivity|repeat constructor; vm_compute; reflexivity]|]).
      constructor.
  - apply (split_window_exact demo_window (rev demo_buckets) true); [vm_compute; reflexivity| | |].
    + repeat (apply Forall_cons; split; [split; vm_compute; reflexivity|]). constructor.
    + repeat constructor; apply keys_below_check; vm_compute; reflexivity.
    + repeat (apply Forall_cons; split; [split; [vm_compute; reflexivity|repeat constructor; vm_compute; reflexivity]|]).
      constructor.
Defined.

Definition one_fn (sp : spec) : window :=
  Window [sp] None [] [InCol "k"] true (Some {["k" := DInt; "v" := DInt]}).

(** [is_running_last_value] admits a [last_value] that ignores nulls over the default
    frame as needing no correction, and it does: where a bucket opens with nulls, the split
    answers NULL while the kernel carries the last value of the earlier bucket. *)
Theorem last_value_ignore_nulls_breaks :
  let sp := Spec LastValue (InCol "v") 1 default_range true in
  let handles := [[at_key 1 (Some 7)]; [at_key 2 None]] in
  supports_ordered_bucket_offsets (one_fn sp) false = true /\
  execute_global_window [sp] handles false = Ok [[Some (VI 7); None]] /\
  res_mapM (fun sp => kernel sp (concat handles)) [sp] = Ok [[Some (VI 7); Some (VI 7)]].
Proof. vm_compute. repeat split. Qed.

(** the two sides of an integer overflow.  A running sum that overflows only across a
    cut wraps silently in the split, where the kernel reports it; and a bucket whose own
    prefix overflows is reported by the split, where the whole relation's sums fit. *)
Theorem running_sum_overflow_diverges :
  let sp := Spec (Fold FSum) (InCol "v") 1 None false in
  let wraps := [[at_key 1 (Some (2 ^ 63 - 1))]; [at_key 2 (Some 1)]] in
  let fits := [[at_key 1 (Some (-1))]; [at_key 2 (Some (2 ^ 63 - 1)); at_key 3 (Some 1)]] in
  supports_ordered_bucket_offsets (one_fn sp) false = true /\
  execute_global_window [sp] wraps false = Ok [[Some (VI (2 ^ 63 - 1)); Some (VI (- 2 ^ 63))]] /\
  kernel sp (concat wraps) = Raise "SumOverflow" /\
  execute_global_window [sp] fits false = Raise "SumOverflow" /\
  kernel sp (concat fits) = Ok [Some (VI (-1)); Some (VI (2 ^ 63 - 2)); Some (VI (2 ^ 63 - 1))].
Proof. vm_compute. repeat split. Qed.

(** A [lag] by zero or a negative distance is admitted, but the walk clamps the distance
    to one: it replaces the first row of a bucket by the previous bucket's last. *)
Theorem lag_nonpositive_breaks :
  let sp := Spec Lag (InCol "v") 0 None false in
  let handles := [[at_key 1 (Some 7)]; [at_key 2 (Some 8)]] in
  supports_ordered_bucket_offsets (one_fn sp) false = true /\
  execute_global_window [sp] handles false = Ok [[None; Some (VI 7)]] /\
  kernel sp (concat handles) = Ok [Some (VI 7); Some (VI 8)].
Proof. vm_compute. repeat split. Qed.

End GlobalWindowSound.
